(* ===== verification/_CoqProject ===== *)
-Q . S2P
Prelude.v
IntCodec.v
Utf8.v
HashStore.v
Glob.v
Shard.v
ShardString.v
ShardList.v
ShardHash.v
ShardSet.v
ShardZset.v
ShardOps.v
Db.v
DbSpec.v
Resp.v
ServerArgs.v
Persist.v
Calls.v
Handlers.v
HandlerSpec.v
CommandSpec.v
Scripts.v
Server.v
ServerSpec.v
WorldSpec.v
Core.v
CoreSpec.v
JsValue.v
JsMem.v
JsProps.v
JsTable.v
JsArray.v
JsAtom.v
JsObject.v
JsInv.v
JsObjectSpec.v
JsHeapSpec.v
JsGc.v
JsSource.v
JsScope.v
JsFloat.v
JsFloatSpec.v
JsText.v
JsBuffers.v
JsBytecode.v
JsNumberFmt.v
JsCompile.v
JsTree.v
JsCompileSpec.v
JsCompileTotal.v
JsApi.v
JsVm.v
JsVmSpec.v
JsRun.v
JsJson.v
JsJsonSpec.v
JsJsonHeap.v
JsScan.v
JsScanSpec.v
JsStmt.v
JsCall.v
JsArith.v
JsTyped.v
JsExpr.v
JsRegexp.v
JsStrings.v
JsArrayMethods.v
JsObjectMethods.v
JsStmtSpec.v
JsStmtLaws.v
JsCallSpec.v
JsArithSpec.v
JsNumbers.v
JsTypedSpec.v
JsExprLaws.v
JsExprSpec.v
JsMethodsSpec.v
JsBuiltinSpec.v
TrafficLab.v
TrafficSpec.v
