(* ===== verification/Prelude.v ===== *)
(** * Verification of muon-js

    The repository holds three programs: MuonCache, an in-memory store that speaks the Redis
    protocol ([src/muon_cache/]), MuonJS, a small JavaScript engine that runs its scripts
    ([src/*.rs], [src/api/]), and a traffic simulator ([trafficlab/]).  This library is a shallow
    embedding of them, in Rocq functions over the code's own data, and the theorems that make
    them correct.  A claim has a number
    C<n>; its witness is the lemma named after it.

    ** The program's parts, and where they are

    MuonCache, bottom up:
    - decimal integers and UTF-8 ([IntCodec], [Utf8]): [parse_i64_bytes] and [write_i64_bytes]
      of [store.rs], the standard library's UTF-8 validation;
    - [HashStore] (the field map with two layouts, and FNV-1a), [Glob] (the pattern matcher):
      [store.rs];
    - one bucket of the store: [Shard] (keys, expiry, listing), [ShardString], [ShardList],
      [ShardHash], [ShardSet], [ShardZset] (with streams); [ShardOps] runs every single-key
      operation as one transition system and refines it to the visible cell of the key;
    - [Db], the 64 buckets; [DbSpec] compares it with one flat map whose keys vanish on time;
    - [Resp] (the wire protocol, [resp.rs]), [ServerArgs] (requests to commands), [Persist]
      (what is sent to the append-only log, [persist.rs]);
    - [Calls]: a command handler is a program over calls of the store, the clock and the log,
      with the sharded interpretation and the flat one; [Handlers]: [cmd_handlers.rs], every
      data command; [HandlerSpec], [CommandSpec]: their properties;
    - [Scripts] (script cache, SHA-1, EVAL up to the run), [Server] (the connection loop, fast
      paths, transactions, publish/subscribe, snapshots: [server.rs]); [ServerSpec], [WorldSpec];
    - [Core], [CoreSpec]: the embedded executor ([core.rs]) against the server.

    MuonJS, bottom up:
    - [JsValue]: tagged words ([value.rs]);
    - the heap of [context.rs]: [JsMem] (region and blocks), [JsProps] (property lists and
      overflow maps), [JsArray] (element blocks), [JsAtom] (interned names), [JsObject] (property
      access), [JsGc] (marking); their specifications [JsTable], [JsInv],
      [JsObjectSpec], [JsHeapSpec];
    - [JsSource] (positions in the current source), [JsScope] (environments, call frames and
      binding resolution);
    - [JsFloat] (binary64 on the standard library's [SpecFloat], its bits and its printing;
      [JsFloatSpec]: integers are exact in it),
      [JsText] (trimming, quotes, braces, statement splitting, in [compiler.rs] and
      [helpers.rs]), [JsBytecode] ([bytecode.rs]);
    - [JsCompile]: the one-pass compiler ([compiler.rs]); [JsTree] is the reference, trees and
      the code generated for them, [JsCompileSpec] and [JsCompileTotal] relate the two;
    - [JsApi]: conversions, getters, setters and errors of [api/mod.rs] and [evals.rs] that the
      machine uses; [JsVm]: the machine ([vm.rs]); [JsVmSpec]: it runs the trees; [JsRun]: source
      text to result;
    - [JsJson]: JSON.parse and JSON.stringify ([json.rs]); [JsJsonSpec] gives the grammar they
      read and print, [JsJsonHeap] composes them over the heap;
    - [JsScan]: the functions that cut source text ([evals.rs], [parser.rs], [helpers.rs]);
      [JsScanSpec] their properties;
    - [JsStmt]: the statement evaluator, which runs a text by cutting it ([parser.rs],
      [api/eval_program.rs]); [JsCall]: closure calls with their caches, scripts and [js_eval];
      [JsStmtSpec], [JsStmtLaws], [JsCallSpec]: scopes, fuel, controls;
    - [JsArith]: the two parsers of expressions that evaluate as they read ([evals.rs],
      [api/eval_program.rs]); [JsArithSpec]: the grammar they read, their fuel;
    - [JsExpr]: [eval_expr] and [eval_value], which cut an expression at its operators
      ([api/eval_expr.rs]), and the engine that closes statements, calls and expressions over
      each other; [JsExprLaws] and [JsExprSpec]: answers are final, environments survive;
      [JsNumbers]: on integers the machine and the evaluator are one language;
    - [JsBuffers] (elements as bytes) and [JsTyped] (buffers and views, [api/typed_array.rs]);
      [JsTypedSpec]: what is written is read, through every view;
    - [JsNumberFmt]: what the methods ask of other crates (the class [JsPlatform]), and the forms
      of numbers ([api/number_fmt.rs]);
    - the methods of built-in objects, which are two chains of tests on a marker, one in
      [eval_expr] and one in [call_builtin_method]: [JsRegexp], [JsStrings], [JsArrayMethods]
      (with [flatten_array] of [helpers.rs]) and [JsObjectMethods] have a definition per method
      and per chain a table of its markers; [JsObjectMethods] ends with the interpreter that has
      them, [js_interpreter].  [JsMethodsSpec] puts every method among the laws of the engine;
      [JsBuiltinSpec] is about what methods answer.

    The traffic simulator: [TrafficLab] ([trafficlab/src/lib.rs]), [TrafficSpec].

    ** State

    A bucket is a [gmap] from keys to entries with an optional expiry instant; a database is 64
    of them; the server's shared state is the databases, the script cache, the subscription
    table and the log's queue.  A connection's private state is its database index, its queued
    transaction and its script context.  The interpreter's state is a context: the heap (a
    finite map from addresses to what the code wrote there, so sharing and aliasing are the
    code's), the scopes, the current source, the caches, and the boxes that opaque pointers of
    typed arrays lead to.  Sums of [i32] that the code does not check wrap, as in a release
    build.  Machine integers are [Z] with their wrap-around
    or overflow check written out; a panic is [None] or the outcome [Panic].

    Time is an argument: each step gets the clock value it reads.  A lock is held over a whole
    operation of [Db], so an operation is one step; two connections interleave by steps.
    What the standard library leaves open (the order of a [HashMap], the wrap point of a
    [VecDeque]) is the class [RustStd] below, over which every theorem is general.  What the
    machine calls back into (closures, native functions, the source evaluator) is the class
    [JsHost] of [JsApi]; the regex crate, libm, Unicode's case tables and the clock are the class
    [JsPlatform]; what statements ask of expressions is [JsEval] of [JsStmt], an extension
    of it.  Theorems about them either assume nothing, or that a call back keeps what the theorem
    is about ([eval_within]).  The [engine] of [JsExpr] is the instance that ties the knot: calls
    and expressions evaluate statements and expressions one level down, and [interpreter] gives
    the machine the same engine as its host.

    ** What the theorems show

    - Refinement: the sharded, lazily expiring store is a flat map on every run of operations;
      a shard's operations have a specification each; hash fields are a map; array objects are
      lists, and their methods are operations of lists; property tables are ordered maps; the
      machine's run of compiled code is the evaluation of its trees.
    - Invariants and safety: the heap invariant of every reachable heap; the collector marks
      exactly what is reachable; interning is injective; a connection never panics; databases
      are isolated; every change is logged; compiled code never lacks an operand.
    - Round trips and equivalences: RESP, tagged words, JSON text, UTF-16 units, the bytes of
      typed arrays, numbers in every radix, the machine against the evaluator, transactions
      against the sequence of their commands, fast paths against handlers, pipelining, the
      embedded core against the server, cached statements against fresh ones.
    - Statements: environments and call frames are restored on every path that has a value,
      loops use up their own [break] and [continue], and an answer is the same on more fuel,
      for every method of the two tables too.
    - The simulator: a cached frame is a plain one, nothing overflows, the signal never stalls.
    - Termination: the compiler, the reader and every fuelled loop end on their fuel.
    - Errors: behaviours the code has and does not mean to have are theorems too, each on a
      concrete input.

    ** Fuel

    A loop of the code that is not structural runs on fuel, and a lemma shows the fuel is enough:
    a list walk has the number of heap blocks ([JsProps], [heap_ok]), marking the values that can
    still be pushed ([JsGc]), the wire reader the bytes left ([Resp]), the expression parser
    twelve productions per byte and a statement one level per byte ([JsCompileTotal]).  The
    JSON reader gets two productions per byte and the writer the depth of the value.  The machine
    and the scripts of the engine may run for ever, so their fuel is an argument:
    [run_is_evaluation] and [js_answers_are_final] relate all amounts of it (nested calls of
    methods by methods, and the nesting of what [flat] and [JSON.stringify] walk, count in it), and
    [expression_fuel_is_enough] shows that the expression parser alone never lacks it.  A thrown error whose own writes fail nests
    two throws at most in the model ([JsApi.THROW_DEPTH]); a failed write leaves no room for
    another error object.  A frame of the simulator has the code's own bound, [MAX_ITERS].

    ** Not modelled

    The SQL side of persistence (load, snapshot tables, the log's worker) is libsql calls.
    Start-up, sockets, WASM bindings and the command-line programs are I/O.  Of MuonJS, the
    parts of [api/mod.rs] that only hand the host pointers around or print are left out; the
    matching of regular expressions, libm and case mapping are other crates' and are arguments,
    of which [plain_platform] is an instance; what [console.log] and a rejected pattern write to
    the log is not part of the state.  The regular expressions' own text is rewritten here as the
    code does before it hands it over.
    Allocation of Rust's own heap never fails here; the interpreter's region does run out. *)
From stdpp Require Export base list gmap sets sorting strings.
From Stdlib Require Export ZArith Lia.
From Stdlib Require Import Ascii.

#[export] Set Default Goal Selector "!".

Declare Scope muon_scope.
Delimit Scope muon_scope with muon.
#[global] Open Scope muon_scope.
#[global] Open Scope Z_scope.

(** ** Data shared by every component *)

(** A [u8] is a [Z] in [0, 256); a [&[u8]], [Vec<u8>], [Arc<[u8]>] and the UTF-8
    contents of a [String] are lists of them. *)
Abbreviation bytes := (list Z).

Definition byte_of_ascii (a : ascii) : Z := Z.of_N (N_of_ascii a).

(** The byte string of a Rust literal: [b! "OK"] is [b"OK"]. *)
Fixpoint bytes_of_string (s : string) : bytes :=
  match s with
  | EmptyString => []
  | String a s' => byte_of_ascii a :: bytes_of_string s'
  end.
Notation "'b!' s" := (bytes_of_string s%string) (at level 1, s at level 0) : muon_scope.

Abbreviation CR := 13 (only parsing).
Abbreviation LF := 10 (only parsing).
Abbreviation c_minus := 45 (only parsing).
Abbreviation c_plus := 43 (only parsing).
Abbreviation c_0 := 48 (only parsing).
Abbreviation c_9 := 57 (only parsing).

Definition is_digit (b : Z) : bool := (c_0 <=? b) && (b <=? c_9).

(** [u8::to_ascii_uppercase], and the byte-wise map of it. *)
Definition to_ascii_uppercase (b : Z) : Z :=
  if (97 <=? b) && (b <=? 122) then b - 32 else b.

(** [Result<T, ()>]: every fallible store operation has the unit error. *)
Inductive Result (T : Type) :=
  | Ok (v : T)
  | Err.
Arguments Ok {T} v.
Arguments Err {T}.

(** ** What the Rust standard library leaves open

    The iteration order of a [HashMap]/[HashSet] is unspecified, and so is the point at
    which a [VecDeque]'s ring buffer wraps ([as_slices]), the size of an enum in memory
    ([size_of::<RespValue>()]), and which requests the global allocator serves.  Every
    definition that observes one of them takes this class, so its theorems hold for every
    choice. *)
Class RustStd := {
  hm_iter : forall {V : Type}, gmap bytes V -> list (bytes * V);
  hm_iter_perm : forall {V : Type} (m : gmap bytes V), hm_iter m ≡ₚ map_to_list m;
  hset_iter : gset bytes -> list bytes;
  hset_iter_perm : forall X : gset bytes, hset_iter X ≡ₚ elements X;
  vd_front_len : list bytes -> nat;
  resp_value_size : Z;
  alloc_ok : Z -> bool
}.

(** One concrete choice, for evaluating the definitions. *)
#[export] Program Instance std_concrete : RustStd := {|
  hm_iter V m := map_to_list m;
  hset_iter X := elements X;
  vd_front_len l := length l;
  resp_value_size := 32;
  alloc_ok n := n <=? 2 ^ 40
|}.
Solve Obligations with done.

(** ** Machine integers, as [Z] with their width written out *)

Definition i64_min : Z := - 2 ^ 63.
Definition i64_max : Z := 2 ^ 63 - 1.
Definition u64_max : Z := 2 ^ 64 - 1.
Definition in_i64 (z : Z) : Prop := i64_min <= z <= i64_max.
#[export] Instance in_i64_dec z : Decision (in_i64 z).
Proof. unfold in_i64. apply _. Defined.

(** [i64::wrapping_add], [i64::saturating_add], [u64::saturating_add]/[_mul]. *)
Definition wrap_i64 (z : Z) : Z := (z + 2 ^ 63) `mod` 2 ^ 64 - 2 ^ 63.
Definition wrapping_add_i64 (a b : Z) : Z := wrap_i64 (a + b).
Definition clamp_i64 (z : Z) : Z := Z.max i64_min (Z.min i64_max z).
Definition saturating_add_i64 (a b : Z) : Z := clamp_i64 (a + b).
Definition saturating_u64 (z : Z) : Z := Z.min u64_max z.

Ltac unfold_ints :=
  unfold in_i64, wrapping_add_i64, saturating_add_i64, clamp_i64, saturating_u64,
    wrap_i64, i64_min, i64_max, u64_max in *.

Lemma wrap_i64_id z : in_i64 z -> wrap_i64 z = z.
Proof. unfold_ints. intros. rewrite Z.mod_small; lia. Qed.

Lemma wrap_i64_range z : in_i64 (wrap_i64 z).
Proof. unfold_ints. pose proof (Z.mod_pos_bound (z + 2 ^ 63) (2 ^ 64)). lia. Qed.

Lemma clamp_i64_range z : in_i64 (clamp_i64 z).
Proof. unfold_ints. lia. Qed.

Lemma clamp_i64_id z : in_i64 z -> clamp_i64 z = z.
Proof. unfold_ints. lia. Qed.

(** ** Lists *)

(** [Iterator::position]. *)
Fixpoint position {A} (p : A -> bool) (l : list A) : option nat :=
  match l with
  | [] => None
  | x :: l' => if p x then Some O else S <$> position p l'
  end.

(** [Vec::swap_remove]: the last element takes the removed one's place. *)
Definition swap_remove {A} (i : nat) (l : list A) : list A :=
  match last l with
  | Some z => <[i := z]> (take (length l - 1) l)
  | None => l
  end.

(** [slice::starts_with] and [ends_with]. *)
Fixpoint starts_with (p l : bytes) : bool :=
  match p, l with
  | [], _ => true
  | x :: p', y :: l' => (x =? y) && starts_with p' l'
  | _ :: _, [] => false
  end.
Definition ends_with (p l : bytes) : bool := starts_with (rev p) (rev l).

Lemma position_Some {A} (p : A -> bool) l i :
  position p l = Some i ->
  exists x, l !! i = Some x /\ p x = true /\
    forall j y, (j < i)%nat -> l !! j = Some y -> p y = false.
Proof.
  revert i. induction l as [|x l IH]; intros i; simpl; [done|].
  destruct (p x) eqn:E.
  - intros [= <-]. exists x. split; [done|]. split; [done|]. intros; lia.
  - intros (i' & H & ->)%fmap_Some. destruct (IH _ H) as (y & ? & ? & Hlt).
    exists y. split; [done|]. split; [done|].
    intros [|j] z ? Hz; simplify_eq/=; [done|]. apply (Hlt j); [lia|done].
Qed.

Lemma position_None {A} (p : A -> bool) l :
  position p l = None <-> Forall (fun x => p x = false) l.
Proof.
  induction l as [|x l IH]; simpl; [split; [constructor|done]|].
  rewrite Forall_cons, <- IH. destruct (p x), (position p l); simpl; intuition congruence.
Qed.

Lemma last_decompose {A} (l : list A) z :
  last l = Some z -> l = take (length l - 1) l ++ [z].
Proof.
  intros (l' & ->)%last_Some. rewrite length_app. simpl.
  rewrite take_app_le by lia. rewrite Nat.add_sub, firstn_all. done.
Qed.

Lemma swap_remove_perm {A} i (l : list A) x :
  l !! i = Some x -> l ≡ₚ x :: swap_remove i l.
Proof.
  intros Hi. unfold swap_remove.
  destruct (last l) as [z|] eqn:Hl; [|apply last_None in Hl; by subst].
  apply last_decompose in Hl. set (l' := take (length l - 1) l) in *.
  rewrite Hl in Hi. rewrite Hl at 1. clearbody l'.
  apply lookup_app_Some in Hi as [Hi | [Hge Hi]].
  - rewrite insert_take_drop by (by eapply lookup_lt_Some).
    rewrite <- (take_drop_middle l' i x) at 1 by done.
    rewrite <- app_assoc. symmetry. apply Permutation_cons_app, Permutation_app_head.
    apply Permutation_cons_append.
  - apply list_lookup_singleton_Some in Hi as [Hz ->].
    rewrite list_insert_ge by lia. by rewrite Permutation_app_comm.
Qed.

(** ** The order of [Vec<u8>]: lexicographic *)

Fixpoint bytes_leb (a b : bytes) : bool :=
  match a, b with
  | [], _ => true
  | _ :: _, [] => false
  | x :: a', y :: b' => if x <? y then true else if y <? x then false else bytes_leb a' b'
  end.
Definition bytes_le (a b : bytes) : Prop := bytes_leb a b = true.

#[export] Instance bytes_le_dec : RelDecision bytes_le.
Proof. intros a b. unfold bytes_le. apply _. Defined.

Lemma bytes_leb_refl a : bytes_leb a a = true.
Proof. induction a as [|x a IH]; simpl; [done|]. by rewrite Z.ltb_irrefl. Qed.

#[export] Instance bytes_le_total : Total bytes_le.
Proof.
  unfold bytes_le. intros a. induction a as [|x a IH]; intros [|y b]; simpl; auto.
  destruct (Z.ltb_spec x y), (Z.ltb_spec y x); auto.
Qed.

#[export] Instance bytes_le_trans : Transitive bytes_le.
Proof.
  unfold bytes_le. intros a. induction a as [|x a IH]; intros [|y b] [|z c]; simpl; auto;
    try discriminate.
  repeat match goal with |- context [?p <? ?q] => destruct (Z.ltb_spec p q) end;
    try discriminate; try lia; eauto.
Qed.

#[export] Instance bytes_le_antisym : AntiSymm (=) bytes_le.
Proof.
  unfold bytes_le. intros a. induction a as [|x a IH]; intros [|y b]; simpl; auto;
    try discriminate.
  destruct (Z.ltb_spec x y), (Z.ltb_spec y x); try discriminate; try lia.
  intros H1 H2. f_equal; [lia|auto].
Qed.

(** [Vec<Vec<u8>>::sort]. *)
Definition sort_bytes (l : list bytes) : list bytes := merge_sort bytes_le l.

Lemma sort_bytes_perm l : sort_bytes l ≡ₚ l.
Proof. apply merge_sort_Permutation. Qed.

Lemma sort_bytes_sorted l : StronglySorted bytes_le (sort_bytes l).
Proof. apply StronglySorted_merge_sort; apply _. Qed.

Lemma sorted_perm_unique (l1 l2 : list bytes) :
  StronglySorted bytes_le l1 -> StronglySorted bytes_le l2 -> l1 ≡ₚ l2 -> l1 = l2.
Proof. apply StronglySorted_unique; apply _. Qed.

(** ** Automation *)

Create HintDb muon discriminated.
#[export] Hint Resolve wrap_i64_range clamp_i64_range bytes_leb_refl : muon.
#[export] Hint Resolve sort_bytes_perm sort_bytes_sorted : muon.

(** Split every [match] on a goal's or hypothesis' scrutinee and clean up. *)
Ltac crush_match :=
  repeat (case_match; simplify_eq/=; try done).

(** ** Maps and sets: what a run of removals or insertions leaves *)

Definition delete_all {V} (ks : list bytes) (m : gmap bytes V) : gmap bytes V :=
  fold_left (fun m k => delete k m) ks m.

(** How many entries went. *)
Definition shrunk {V} (m m' : gmap bytes V) : Z := Z.of_nat (size m) - Z.of_nat (size m').

Lemma size_delete_Z {V} (m : gmap bytes V) k :
  Z.of_nat (size (delete k m)) =
    Z.of_nat (size m) - (if bool_decide (is_Some (m !! k)) then 1 else 0).
Proof.
  rewrite map_size_delete. destruct (m !! k) as [v|] eqn:Hk; simpl.
  - assert (size m <> 0%nat) by (apply map_size_non_empty_iff; intros ->; done).
    lia.
  - lia.
Qed.

Lemma delete_all_lookup {V} ks : forall (m : gmap bytes V) k,
  delete_all ks m !! k = if bool_decide (k ∈ ks) then None else m !! k.
Proof.
  unfold delete_all. induction ks as [|k' ks IH]; intros m k; cbn [fold_left].
  - done.
  - rewrite IH. repeat case_bool_decide; set_solver || (rewrite ?elem_of_cons in *).
    + assert (k = k') as -> by tauto. apply lookup_delete_eq.
    + apply lookup_delete_ne. naive_solver.
Qed.
