(* ===== verification/IntCodec.v ===== *)
(** * IntCodec: decimal integers on the wire and in stored values

    [src/muon_cache/store.rs] keeps counters as native [i64] values and converts them
    with its own routines ([parse_i64_bytes], [write_i64_bytes]); [src/muon_cache/server.rs]
    parses arguments with [str::parse].  This file models the routines of the store, the
    standard library's decimal parsers the server relies on, and a reference reading of
    signed decimals ([signed_dec]) that both are compared with. *)
From S2P Require Import Prelude.

(** ** Reference: the value of a string of digits *)

Definition dval (acc : Z) (ds : bytes) : Z :=
  fold_left (fun a d => a * 10 + (d - c_0)) ds acc.

Definition digits_value (ds : bytes) : option Z :=
  match ds with
  | [] => None
  | _ => if forallb is_digit ds then Some (dval 0 ds) else None
  end.

(** An optional ['-'] (or ['+'], where the parser takes it) and at least one digit. *)
Definition signed_dec (allow_plus : bool) (l : bytes) : option Z :=
  match l with
  | [] => None
  | b :: rest =>
      if b =? c_minus then Z.opp <$> digits_value rest
      else if allow_plus && (b =? c_plus) then digits_value rest
      else digits_value l
  end.

(** ** [store.rs]: [parse_i64_bytes], [write_i64_bytes] *)

(** The digit loop: an [i128] accumulator, left as soon as it passes [i64::MAX + 1]. *)
Fixpoint parse_i64_loop (l : bytes) (value : Z) : Result Z :=
  match l with
  | [] => Ok value
  | b :: l' =>
      if (b <? c_0) || (c_9 <? b) then Err
      else
        let value := value * 10 + (b - c_0) in
        if i64_max + 1 <? value then Err else parse_i64_loop l' value
  end.

Definition parse_i64_bytes (input : bytes) : Result Z :=
  match input with
  | [] => Err
  | b0 :: rest =>
      let sign := if b0 =? c_minus then -1 else 1 in
      let digits := if (b0 =? c_minus) || (b0 =? c_plus) then rest else input in
      match digits with
      | [] => Err
      | _ =>
          match parse_i64_loop digits 0 with
          | Err => Err
          | Ok value =>
              let value := value * sign in
              if (value <? i64_min) || (i64_max <? value) then Err else Ok value
          end
      end
  end.

(** The [loop { .. }] that fills [tmp : [u8; 20]] from its end; the fuel is the length of
    the buffer, and [tmp] is the part already written. *)
Fixpoint write_digits (fuel : nat) (value : Z) (tmp : bytes) : bytes :=
  match fuel with
  | O => tmp
  | S fuel' =>
      let tmp := c_0 + value `mod` 10 :: tmp in
      if value / 10 =? 0 then tmp else write_digits fuel' (value / 10) tmp
  end.

Definition write_i64_bytes (n : Z) : bytes :=
  let negative := n <? 0 in
  let value := if negative then - n else n in
  let tmp := write_digits 20 value [] in
  if negative then c_minus :: tmp else tmp.

(** ** The standard library: [to_string] and [str::parse] on integers *)

Definition int_to_string (n : Z) : bytes :=
  let tmp := write_digits (S (Z.to_nat (Z.log2 (Z.abs n)))) (Z.abs n) [] in
  if n <? 0 then c_minus :: tmp else tmp.

Definition i64_from_str (l : bytes) : option Z :=
  v ← signed_dec true l; if bool_decide (in_i64 v) then Some v else None.

(** [u64] and [usize] (64-bit targets): a leading ['-'] is an invalid digit. *)
Definition u64_from_str (l : bytes) : option Z :=
  match l with
  | b :: _ => if b =? c_minus then None
              else v ← signed_dec true l; if v <=? u64_max then Some v else None
  | [] => None
  end.

(** ** Lemmas *)

Definition digits (ds : bytes) : Prop := Forall (fun d => c_0 <= d <= c_9) ds.

Lemma is_digit_spec b : is_digit b = true <-> c_0 <= b <= c_9.
Proof. unfold is_digit. rewrite andb_true_iff, !Z.leb_le. done. Qed.

Lemma forallb_digits ds : forallb is_digit ds = true <-> digits ds.
Proof.
  unfold digits. induction ds as [|d ds IH]; simpl; [split; [constructor|done]|].
  rewrite andb_true_iff, is_digit_spec, IH, Forall_cons. done.
Qed.

Lemma dval_app a ds es : dval a (ds ++ es) = dval (dval a ds) es.
Proof. apply fold_left_app. Qed.

Lemma dval_ge ds : forall a, digits ds -> 0 <= a -> a <= dval a ds.
Proof.
  induction ds as [|d ds IH]; intros a H Ha; simpl; [lia|].
  apply Forall_cons in H as [Hd Hds]. pose proof (IH (a * 10 + (d - c_0)) Hds). lia.
Qed.

Lemma digits_value_digits ds :
  digits ds -> ds <> [] -> digits_value ds = Some (dval 0 ds).
Proof. intros H%forallb_digits Hne. unfold digits_value. rewrite H. by destruct ds. Qed.

Lemma digits_value_nonneg ds v : digits_value ds = Some v -> 0 <= v.
Proof.
  unfold digits_value. destruct ds as [|d ds]; [done|].
  destruct (forallb _ _) eqn:E; intros; simplify_eq.
  apply dval_ge; [by apply forallb_digits|lia].
Qed.

(** What the do-while loop writes: the digits of [value], in front of what was there. *)
Lemma write_digits_spec fuel : forall value tmp,
  (fuel <> 0)%nat -> 0 <= value < 10 ^ Z.of_nat fuel ->
  exists ds, write_digits fuel value tmp = ds ++ tmp /\ digits ds /\ ds <> [] /\
    dval 0 ds = value /\ (length ds <= fuel)%nat.
Proof.
  induction fuel as [|fuel IH]; intros value tmp Hf Hv; [done|]. cbn [write_digits].
  pose proof (Z.mod_pos_bound value 10) as Hm.
  pose proof (Z_div_mod_eq_full value 10) as Hdm.
  assert (Hdig : digits [c_0 + value `mod` 10]) by (constructor; [lia|constructor]).
  destruct (Z.eqb_spec (value / 10) 0) as [E|E].
  - exists [c_0 + value `mod` 10]. split_and!; simpl; [done|done|done|lia|lia].
  - assert (Hf' : (fuel <> 0)%nat).
    { intros ->. simpl in Hv. change (10 ^ 1) with 10 in Hv.
      rewrite Z.div_small in E; lia. }
    rewrite Nat2Z.inj_succ, Z.pow_succ_r in Hv by lia.
    assert (Hq : 0 <= value / 10 < 10 ^ Z.of_nat fuel).
    { split; [apply Z.div_pos; lia|apply Z.div_lt_upper_bound; lia]. }
    destruct (IH (value / 10) (c_0 + value `mod` 10 :: tmp) Hf' Hq)
      as (ds & -> & Hds & Hne & Hval & Hlen).
    exists (ds ++ [c_0 + value `mod` 10]). split_and!.
    + by rewrite <- app_assoc.
    + by apply Forall_app.
    + by destruct ds.
    + rewrite dval_app, Hval. simpl. lia.
    + rewrite length_app. simpl. lia.
Qed.

(** Any fuel that is enough gives the same digits. *)
Lemma write_digits_fuel f : forall g value tmp,
  0 <= value < 10 ^ Z.of_nat f -> value < 10 ^ Z.of_nat g ->
  (f <> 0)%nat -> (g <> 0)%nat ->
  write_digits f value tmp = write_digits g value tmp.
Proof.
  induction f as [|f IH]; intros [|g] value tmp Hf Hg ??; try done. cbn [write_digits].
  destruct (Z.eqb_spec (value / 10) 0) as [E|E]; [done|].
  rewrite Nat2Z.inj_succ, Z.pow_succ_r in Hf, Hg by lia.
  pose proof (Z.div_pos value 10). pose proof (Z_div_mod_eq_full value 10).
  pose proof (Z.mod_pos_bound value 10).
  apply IH; [lia|lia| |]; intros ->; change (10 ^ Z.of_nat 0) with 1 in *; lia.
Qed.

Lemma i64_abs_digits n : in_i64 n -> 0 <= Z.abs n < 10 ^ Z.of_nat 20.
Proof. unfold_ints. change (10 ^ Z.of_nat 20) with 100000000000000000000. lia. Qed.

Lemma log2_digits v : 0 <= v -> v < 10 ^ Z.of_nat (S (Z.to_nat (Z.log2 v))).
Proof.
  intros Hv. destruct (decide (v = 0)) as [->|Hne]; [done|].
  pose proof (Z.log2_nonneg v).
  rewrite Nat2Z.inj_succ, Z2Nat.id by done.
  eapply Z.lt_le_trans; [apply Z.log2_spec; lia|].
  apply Z.pow_le_mono_l. lia.
Qed.

Lemma write_i64_bytes_to_string n : in_i64 n -> write_i64_bytes n = int_to_string n.
Proof.
  intros Hn. unfold write_i64_bytes, int_to_string.
  assert ((if n <? 0 then - n else n) = Z.abs n) as -> by (destruct (Z.ltb_spec n 0); lia).
  pose proof (i64_abs_digits n Hn).
  rewrite (write_digits_fuel 20 (S (Z.to_nat (Z.log2 (Z.abs n)))));
    [done|done|apply log2_digits; lia|done|done].
Qed.

(** [to_string] writes an optional sign and digits of the right value. *)
Lemma int_to_string_shape n : exists ds,
  int_to_string n = (if n <? 0 then [c_minus] else []) ++ ds /\
  digits ds /\ ds <> [] /\ dval 0 ds = Z.abs n.
Proof.
  unfold int_to_string.
  destruct (write_digits_spec (S (Z.to_nat (Z.log2 (Z.abs n)))) (Z.abs n) [])
    as (ds & -> & ? & ? & ? & _); [done|split; [lia|apply log2_digits; lia]|].
  exists ds. rewrite app_nil_r. by destruct (n <? 0).
Qed.

Lemma digits_head_ne ds d rest : digits ds -> ds = d :: rest ->
  (d =? c_minus) = false /\ (d =? c_plus) = false.
Proof. intros H ->. apply Forall_cons in H as [? _]. split; apply Z.eqb_neq; lia. Qed.

Lemma signed_dec_to_string plus n : signed_dec plus (int_to_string n) = Some n.
Proof.
  destruct (int_to_string_shape n) as (ds & -> & Hds & Hne & Hval).
  destruct (Z.ltb_spec n 0).
  - simpl. rewrite digits_value_digits by done. simpl. f_equal. lia.
  - simpl. destruct ds as [|d rest] eqn:E; [done|].
    destruct (digits_head_ne (d :: rest) d rest Hds eq_refl) as [H1 H2].
    unfold signed_dec. rewrite H1, H2, andb_false_r.
    rewrite digits_value_digits by done. f_equal. lia.
Qed.

(** The early exit of the digit loop only cuts values that are out of range anyway. *)
Lemma parse_i64_loop_spec l : forall value, 0 <= value ->
  parse_i64_loop l value =
    if forallb is_digit l && bool_decide (l = [] \/ dval value l <= i64_max + 1)
    then Ok (dval value l) else Err.
Proof.
  induction l as [|b l IH]; intros value Hv; cbn [parse_i64_loop forallb dval].
  - rewrite bool_decide_true by auto. done.
  - assert ((b <? c_0) || (c_9 <? b) = negb (is_digit b)) as ->.
    { unfold is_digit. rewrite negb_andb. f_equal; apply Z.ltb_antisym. }
    destruct (is_digit b) eqn:Hd; [|done]. apply is_digit_spec in Hd.
    cbn [negb andb fold_left]. set (v' := value * 10 + (b - c_0)).
    assert (0 <= v') by (unfold v'; lia).
    change (fold_left _ l v') with (dval v' l).
    destruct (Z.ltb_spec (i64_max + 1) v') as [Hbig|Hok].
    + destruct (forallb is_digit l) eqn:Hl; [|done].
      apply forallb_digits in Hl. pose proof (dval_ge l v' Hl ltac:(lia)).
      rewrite bool_decide_false; [done|]. intros [?|Hle]; [done|].
      change (dval v' l <= i64_max + 1) in Hle. lia.
    + rewrite IH by done. destruct (forallb is_digit l) eqn:Hl; [|done]. cbn [andb].
      destruct (decide (l = [])) as [->|Hne].
      * rewrite !bool_decide_true; [done|right; exact Hok|by left].
      * erewrite bool_decide_ext; [done|].
        change (dval value (b :: l)) with (dval v' l). naive_solver.
Qed.

Lemma parse_i64_loop_Ok l value v :
  0 <= value -> parse_i64_loop l value = Ok v -> v = dval value l /\ value <= v.
Proof.
  intros Hv. rewrite parse_i64_loop_spec by done.
  destruct (forallb is_digit l) eqn:Hl; [|done]. apply forallb_digits in Hl.
  case_match; intros; simplify_eq. split; [done|by apply dval_ge].
Qed.

(** The loop, for a caller that then applies a sign and checks the range. *)
Lemma parse_i64_loop_sign l (sign : Z) :
  l <> [] -> sign = 1 \/ sign = -1 ->
  match parse_i64_loop l 0 with
  | Err => Err
  | Ok value =>
      let value := value * sign in
      if (value <? i64_min) || (i64_max <? value) then Err else Ok value
  end = match v ← digits_value l;
              if bool_decide (in_i64 (v * sign)) then Some (v * sign) else None with
        | Some n => Ok n
        | None => Err
        end.
Proof.
  intros Hne Hs. rewrite parse_i64_loop_spec by lia. unfold digits_value.
  destruct l as [|b l]; [done|]. set (ds := b :: l).
  destruct (forallb is_digit ds) eqn:Hd; [|done]. cbn [andb].
  apply forallb_digits in Hd. pose proof (dval_ge ds 0 Hd ltac:(lia)).
  cbn [mbind option_bind].
  case_bool_decide as Hc; case_bool_decide as Hr; unfold_ints.
  - destruct (Z.ltb_spec (dval 0 ds * sign) (- 2 ^ 63)); [lia|].
    destruct (Z.ltb_spec (2 ^ 63 - 1) (dval 0 ds * sign)); [lia|done].
  - destruct (Z.ltb_spec (dval 0 ds * sign) (- 2 ^ 63)); [done|].
    destruct (Z.ltb_spec (2 ^ 63 - 1) (dval 0 ds * sign)); [done|lia].
  - destruct Hc. right. destruct Hs as [-> | ->]; lia.
  - done.
Qed.

Lemma parse_write_i64 n : in_i64 n -> i64_from_str (int_to_string n) = Some n.
Proof.
  intros Hn. unfold i64_from_str. rewrite signed_dec_to_string. simpl.
  by rewrite bool_decide_true.
Qed.

Lemma parse_i64_bytes_from_str input :
  parse_i64_bytes input =
    match i64_from_str input with Some n => Ok n | None => Err end.
Proof.
  destruct input as [|b0 rest]; [done|].
  unfold parse_i64_bytes, i64_from_str, signed_dec. cbn [andb].
  destruct (Z.eqb_spec b0 c_minus) as [->|Hm]; cbn [orb].
  - destruct rest as [|d rest']; [done|].
    rewrite (parse_i64_loop_sign _ (-1)) by auto.
    destruct (digits_value (d :: rest')) as [v|]; [|done]. simpl.
    by replace (v * -1) with (- v) by lia.
  - destruct (Z.eqb_spec b0 c_plus) as [->|Hp].
    + destruct rest as [|d rest']; [done|].
      rewrite (parse_i64_loop_sign _ 1) by auto.
      destruct (digits_value (d :: rest')) as [v|]; [|done]. simpl.
      by rewrite Z.mul_1_r.
    + rewrite (parse_i64_loop_sign _ 1) by auto.
      destruct (digits_value (b0 :: rest)) as [v|]; [|done]. simpl.
      by rewrite Z.mul_1_r.
Qed.

#[export] Hint Rewrite signed_dec_to_string : muon.

(** ** Properties *)

(** the store's hand-written [parse_i64_bytes] accepts exactly the byte strings that
    the standard library's [str::parse::<i64>] accepts, with the same value: its [i128]
    accumulator and early exit lose nothing, on any input. *)
Theorem parse_i64_bytes_is_from_str (input : bytes) :
  parse_i64_bytes input =
    match i64_from_str input with Some n => Ok n | None => Err end.
Proof. apply parse_i64_bytes_from_str. Qed.

(** what [write_i64_bytes] writes for an [i64] fits its 20-byte buffer, is the decimal
    [to_string], and reads back as the same integer. *)
Theorem write_i64_bytes_roundtrip (n : Z) (Hn : in_i64 n) :
  (length (write_i64_bytes n) <= 20)%nat /\
  write_i64_bytes n = int_to_string n /\
  parse_i64_bytes (write_i64_bytes n) = Ok n.
Proof.
  rewrite parse_i64_bytes_from_str, write_i64_bytes_to_string, parse_write_i64 by done.
  split; [|done]. rewrite <- write_i64_bytes_to_string by done. unfold write_i64_bytes.
  set (v := if n <? 0 then - n else n).
  assert (Hv : 0 <= v < 10 ^ Z.of_nat 19).
  { change (10 ^ Z.of_nat 19) with 10000000000000000000. unfold v. unfold_ints.
    destruct (Z.ltb_spec n 0); lia. }
  rewrite (write_digits_fuel 20 19) by (change (10 ^ Z.of_nat 20) with
    100000000000000000000; change (10 ^ Z.of_nat 19) with 10000000000000000000 in *; lia).
  destruct (write_digits_spec 19 v []) as (ds & -> & _ & _ & _ & Hlen); [done|done|].
  rewrite app_nil_r. destruct (n <? 0); simpl; lia.
Qed.

Lemma write_i64_bytes_roundtrip_witness :
  in_i64 i64_min /\ parse_i64_bytes (write_i64_bytes i64_min) = Ok i64_min.
Proof.
  split; [by vm_compute|]. apply (write_i64_bytes_roundtrip i64_min). by vm_compute.
Defined.
