(* ===== verification/Utf8.v ===== *)
(** * Utf8: the standard library's UTF-8 validation and lossy decoding

    [resp.rs], [server.rs] and [core.rs] turn request bytes into [String]s with
    [str::from_utf8] and [String::from_utf8_lossy].  Neither is code of the repository;
    both are modelled here from the documented behaviour (a maximal invalid prefix is
    replaced by one U+FFFD), because what the server stores and echoes depends on them. *)
From S2P Require Import Prelude.

Definition in_range (lo hi b : Z) : bool := (lo <=? b) && (b <=? hi).
Definition is_cont (b : Z) : bool := in_range 128 191 b.

(** The second byte a lead byte of a three- or four-byte sequence allows. *)
Definition second_ok (lead b : Z) : bool :=
  if lead =? 224 then in_range 160 191 b
  else if lead =? 237 then in_range 128 159 b
  else if lead =? 240 then in_range 144 191 b
  else if lead =? 244 then in_range 128 143 b
  else is_cont b.

Definition replacement : bytes := [239; 191; 189].

(** [str::from_utf8(l).is_ok()]. *)
Fixpoint utf8_valid (l : bytes) : bool :=
  match l with
  | [] => true
  | a :: r1 =>
      if a <? 128 then utf8_valid r1
      else if in_range 194 223 a then
        match r1 with
        | b :: r2 => is_cont b && utf8_valid r2
        | [] => false
        end
      else if in_range 224 239 a then
        match r1 with
        | b :: c :: r3 => second_ok a b && is_cont c && utf8_valid r3
        | _ => false
        end
      else if in_range 240 244 a then
        match r1 with
        | b :: c :: d :: r4 => second_ok a b && is_cont c && is_cont d && utf8_valid r4
        | _ => false
        end
      else false
  end.

Definition from_utf8 (l : bytes) : option bytes := if utf8_valid l then Some l else None.

(** [String::from_utf8_lossy]. *)
Fixpoint from_utf8_lossy (l : bytes) : bytes :=
  match l with
  | [] => []
  | a :: r1 =>
      if a <? 128 then a :: from_utf8_lossy r1
      else if in_range 194 223 a then
        match r1 with
        | b :: r2 => if is_cont b then a :: b :: from_utf8_lossy r2
                     else replacement ++ from_utf8_lossy r1
        | [] => replacement
        end
      else if in_range 224 239 a then
        match r1 with
        | b :: r2 =>
            if second_ok a b then
              match r2 with
              | c :: r3 => if is_cont c then a :: b :: c :: from_utf8_lossy r3
                           else replacement ++ from_utf8_lossy r2
              | [] => replacement
              end
            else replacement ++ from_utf8_lossy r1
        | [] => replacement
        end
      else if in_range 240 244 a then
        match r1 with
        | b :: r2 =>
            if second_ok a b then
              match r2 with
              | c :: r3 =>
                  if is_cont c then
                    match r3 with
                    | d :: r4 => if is_cont d then a :: b :: c :: d :: from_utf8_lossy r4
                                 else replacement ++ from_utf8_lossy r3
                    | [] => replacement
                    end
                  else replacement ++ from_utf8_lossy r2
              | [] => replacement
              end
            else replacement ++ from_utf8_lossy r1
        | [] => replacement
        end
      else replacement ++ from_utf8_lossy r1
  end.

(** Strong induction on the length: the decoders look up to four bytes ahead. *)
Lemma bytes_strong_ind (P : bytes -> Prop) :
  (forall l, (forall r, (length r < length l)%nat -> P r) -> P l) -> forall l, P l.
Proof.
  intros H. cut (forall n l, (length l < n)%nat -> P l); [eauto|].
  induction n as [|n IH]; intros l Hl; [lia|]. apply H. intros r Hr. apply IH. lia.
Qed.

Lemma from_utf8_lossy_valid l : utf8_valid l = true -> from_utf8_lossy l = l.
Proof.
  induction l as [l IH] using bytes_strong_ind. intros Hv.
  destruct l as [|a r1]; [done|]. cbn [utf8_valid from_utf8_lossy] in *.
  repeat (case_match; try done); rewrite ?andb_true_iff in Hv; destruct_and?;
    try congruence; f_equal; repeat f_equal; apply IH; simpl; auto with lia.
Qed.

Lemma utf8_valid_replacement r : utf8_valid (replacement ++ r) = utf8_valid r.
Proof. done. Qed.

Lemma utf8_valid_lossy l : utf8_valid (from_utf8_lossy l) = true.
Proof.
  induction l as [l IH] using bytes_strong_ind.
  destruct l as [|a r1]; [done|]. cbn [from_utf8_lossy].
  repeat (case_match; try done); rewrite ?utf8_valid_replacement;
    try (apply IH; simpl; lia); cbn [utf8_valid];
    repeat match goal with H : ?t = _ |- _ => lazymatch t with
      | _ <? _ => rewrite H | in_range _ _ _ => rewrite H
      | is_cont _ => rewrite H | second_ok _ _ => rewrite H end; clear H end;
    cbn [andb]; apply IH; simpl; lia.
Qed.

#[export] Hint Resolve utf8_valid_lossy from_utf8_lossy_valid : muon.

Lemma from_utf8_valid (s : bytes) : utf8_valid s = true -> from_utf8 s = Some s.
Proof. unfold from_utf8. by intros ->. Qed.

(** ASCII bytes are valid on their own. *)
Lemma utf8_valid_ascii l : Forall (fun b => 0 <= b < 128) l -> utf8_valid l = true.
Proof.
  induction 1 as [|b l Hb _ IH]; [done|]. cbn [utf8_valid].
  by destruct (Z.ltb_spec b 128); [|lia].
Qed.
