(* ===== verification/HashStore.v ===== *)
(** * HashStore: FNV-1a, and the two-layout field map of [src/muon_cache/store.rs]

    A hash value holds its fields in a flat vector while it has at most
    [HASH_LINEAR_THRESHOLD] of them and is promoted to a hash map on the insertion that
    would pass the bound.  Both layouts are modelled; [hs_map] is the finite map they
    stand for, and the lemmas of this file show each operation implements the map's. *)
From S2P Require Import Prelude.

(** ** FNV-1a ([FnvHasher::write], and the same loop in [Db::shard_index]) *)

Definition fnv_offset : Z := 14695981039346656037.
Definition fnv_prime : Z := 1099511628211.

Definition fnv_step (h b : Z) : Z := (Z.lxor h b * fnv_prime) `mod` 2 ^ 64.
Definition fnv_write (h : Z) (bs : bytes) : Z := fold_left fnv_step bs h.

(** ** The two layouts *)

Definition HASH_LINEAR_THRESHOLD : nat := 8.

Inductive HashStore :=
  | Linear (v : list (bytes * bytes))
  | Map (m : gmap bytes bytes).

Definition key_eqb (field : bytes) (p : bytes * bytes) : bool := bool_decide (p.1 = field).

Definition with_single (field value : bytes) : HashStore := Linear [(field, value)].

Definition get (hs : HashStore) (field : bytes) : option bytes :=
  match hs with
  | Linear v => i ← position (key_eqb field) v; snd <$> v !! i
  | Map m => m !! field
  end.

(** [get_mut], as the overwrite of the slot it returns. *)
Definition update (hs : HashStore) (field value : bytes) : HashStore :=
  match hs with
  | Linear v =>
      match position (key_eqb field) v with
      | Some i => Linear (alter (fun p => (p.1, value)) i v)
      | None => hs
      end
  | Map m => Map (alter (fun _ => value) field m)
  end.

Definition insert (hs : HashStore) (field value : bytes) : option bytes * HashStore :=
  match hs with
  | Linear v =>
      match position (key_eqb field) v with
      | Some i => (snd <$> v !! i, Linear (alter (fun p => (p.1, value)) i v))
      | None =>
          if (length v <? HASH_LINEAR_THRESHOLD)%nat
          then (None, Linear (v ++ [(field, value)]))
          else
            let map := fold_left (fun m p => <[p.1 := p.2]> m) v ∅ in
            (None, Map (<[field := value]> map))
      end
  | Map m => (m !! field, Map (<[field := value]> m))
  end.

Definition remove (hs : HashStore) (field : bytes) : option bytes * HashStore :=
  match hs with
  | Linear v =>
      match position (key_eqb field) v with
      | Some pos => (snd <$> v !! pos, Linear (swap_remove pos v))
      | None => (None, hs)
      end
  | Map m => (m !! field, Map (delete field m))
  end.

Definition len (hs : HashStore) : nat :=
  match hs with Linear v => length v | Map m => size m end.

Definition contains_key (hs : HashStore) (field : bytes) : bool :=
  match hs with
  | Linear v => existsb (key_eqb field) v
  | Map m => bool_decide (is_Some (m !! field))
  end.

Section Iter.
Context `{RustStd}.

(** [HashStoreIter] and [HashStoreKeys]. *)
Definition iter (hs : HashStore) : list (bytes * bytes) :=
  match hs with Linear v => v | Map m => hm_iter m end.
Definition keys (hs : HashStore) : list bytes := (iter hs).*1.
End Iter.

(** ** What a store stands for, and its well-formedness *)

Definition hs_map (hs : HashStore) : gmap bytes bytes :=
  match hs with Linear v => list_to_map v | Map m => m end.

Definition hs_wf (hs : HashStore) : Prop :=
  match hs with
  | Linear v => NoDup v.*1 /\ (length v <= HASH_LINEAR_THRESHOLD)%nat
  | Map _ => True
  end.
#[export] Instance hs_wf_dec hs : Decision (hs_wf hs).
Proof. destruct hs; simpl; apply _. Defined.

Lemma key_eqb_spec field p : key_eqb field p = true <-> p.1 = field.
Proof. unfold key_eqb. by rewrite bool_decide_eq_true. Qed.

Lemma position_key_Some field (v : list (bytes * bytes)) i :
  position (key_eqb field) v = Some i -> exists w, v !! i = Some (field, w).
Proof.
  intros ([k w] & ? & Hk%key_eqb_spec & _)%position_Some. simpl in Hk. subst. eauto.
Qed.

Lemma position_key_None field (v : list (bytes * bytes)) :
  position (key_eqb field) v = None <-> field ∉ v.*1.
Proof.
  rewrite position_None, list_elem_of_fmap, Forall_forall. split.
  - intros Hf (p & -> & Hp). specialize (Hf p Hp).
    by rewrite (proj2 (key_eqb_spec _ _) eq_refl) in Hf.
  - intros Hf p Hp. destruct (key_eqb field p) eqn:E; [|done].
    apply key_eqb_spec in E. destruct Hf. eauto.
Qed.

(** A slot of a duplicate-free vector is the map's entry. *)
Lemma list_to_map_lookup (v : list (bytes * bytes)) i k w :
  NoDup v.*1 -> v !! i = Some (k, w) -> (list_to_map v : gmap bytes bytes) !! k = Some w.
Proof. intros ? Hi. apply elem_of_list_to_map; [done|]. by eapply list_elem_of_lookup_2. Qed.

Lemma linear_get_map field (v : list (bytes * bytes)) :
  NoDup v.*1 -> get (Linear v) field = (list_to_map v : gmap bytes bytes) !! field.
Proof.
  intros Hnd. simpl. destruct (position _ v) as [i|] eqn:Hp; simpl.
  - destruct (position_key_Some _ _ _ Hp) as [w Hw]. rewrite Hw. simpl.
    symmetry. by eapply list_to_map_lookup.
  - apply position_key_None in Hp. symmetry. by apply not_elem_of_list_to_map.
Qed.

Lemma alter_snd_keys i value (v : list (bytes * bytes)) :
  (alter (fun p => (p.1, value)) i v).*1 = v.*1.
Proof. revert i. induction v as [|[] v IH]; intros [|i]; simpl; f_equal; eauto. Qed.

Lemma list_to_map_alter i k w value (v : list (bytes * bytes)) :
  NoDup v.*1 -> v !! i = Some (k, w) ->
  list_to_map (alter (fun p => (p.1, value)) i v) =@{gmap bytes bytes}
    <[k := value]> (list_to_map v).
Proof.
  revert i. induction v as [|[k' w'] v IH]; intros [|i] Hnd Hi; simplify_eq/=.
  - by rewrite insert_insert_eq.
  - apply NoDup_cons in Hnd as [Hn Hnd]. change (list_alter _ i v) with
      (alter (fun p : bytes * bytes => (p.1, value)) i v). rewrite (IH i) by done.
    rewrite insert_insert_ne; [done|]. intros ->. destruct Hn.
    apply list_elem_of_fmap. exists (k, w). split; [done|]. by eapply list_elem_of_lookup_2.
Qed.

Lemma promote_map (v : list (bytes * bytes)) : forall m : gmap bytes bytes,
  NoDup v.*1 -> fold_left (fun m p => <[p.1 := p.2]> m) v m = list_to_map v ∪ m.
Proof.
  induction v as [|[k w] v IH]; intros m Hnd; simpl; [by rewrite (left_id_L ∅ (∪))|].
  apply NoDup_cons in Hnd as [Hn Hnd]. rewrite IH by done. simpl.
  rewrite <- insert_union_r; [|by apply not_elem_of_list_to_map]. by rewrite insert_union_l.
Qed.

(** ** The operations implement the finite map's *)

Lemma get_map hs field : hs_wf hs -> get hs field = hs_map hs !! field.
Proof. destruct hs as [v|m]; [|done]. intros [??]. by apply linear_get_map. Qed.

Lemma contains_key_map hs field :
  hs_wf hs -> contains_key hs field = bool_decide (is_Some (hs_map hs !! field)).
Proof.
  destruct hs as [v|m]; [|done]. intros [Hnd _]. simpl.
  rewrite <- (linear_get_map field v Hnd). simpl.
  destruct (position (key_eqb field) v) as [i|] eqn:Hp; simpl.
  - destruct (position_key_Some _ _ _ Hp) as [w Hw]. rewrite Hw. simpl.
    apply existsb_exists.
    exists (field, w). rewrite <- list_elem_of_In. split; [by eapply list_elem_of_lookup_2|].
    by apply key_eqb_spec.
  - apply position_None in Hp.
    apply not_true_iff_false. intros (p & Hin & E)%existsb_exists.
    rewrite Forall_forall in Hp. rewrite <- list_elem_of_In in Hin.
    by rewrite Hp in E.
Qed.

Lemma insert_map hs field value :
  hs_wf hs ->
  (insert hs field value).1 = hs_map hs !! field /\
  hs_map (insert hs field value).2 = <[field := value]> (hs_map hs) /\
  hs_wf (insert hs field value).2.
Proof.
  destruct hs as [v|m]; [|done]. intros [Hnd Hlen]. rewrite <- (get_map (Linear v)) by done.
  simpl. destruct (position (key_eqb field) v) as [i|] eqn:Hp; simpl.
  - destruct (position_key_Some _ _ _ Hp) as [w Hw].
    split_and!; [done|by eapply list_to_map_alter| |].
    + by rewrite alter_snd_keys.
    + by rewrite length_alter.
  - apply position_key_None in Hp. destruct (Nat.ltb_spec (length v) HASH_LINEAR_THRESHOLD); simpl.
    + split_and!; [done| |rewrite fmap_app; apply NoDup_app|rewrite length_app; simpl; lia].
      * rewrite list_to_map_app. simpl. rewrite <- insert_union_r, (right_id_L ∅ (∪)); [done|].
        by apply not_elem_of_list_to_map.
      * split_and!; [done|set_solver|apply NoDup_singleton].
    + split_and!; [done| |done]. by rewrite promote_map, (right_id_L ∅ (∪)).
Qed.

Lemma update_map hs field value w :
  hs_wf hs -> hs_map hs !! field = Some w ->
  hs_map (update hs field value) = <[field := value]> (hs_map hs) /\
  hs_wf (update hs field value).
Proof.
  destruct hs as [v|m].
  - intros [Hnd Hlen]. rewrite <- (get_map (Linear v)) by done. simpl.
    destruct (position (key_eqb field) v) as [i|] eqn:Hp; simpl; [|done]. intros _.
    destruct (position_key_Some _ _ _ Hp) as [w' Hw].
    split_and!; [by eapply list_to_map_alter|by rewrite alter_snd_keys|by rewrite length_alter].
  - simpl. intros _ Hm. split; [|done]. apply map_eq. intros k.
    destruct (decide (k = field)) as [->|];
      [rewrite lookup_alter_eq, Hm, lookup_insert_eq; done|
       by rewrite lookup_alter_ne, lookup_insert_ne].
Qed.

Lemma remove_map hs field :
  hs_wf hs ->
  (remove hs field).1 = hs_map hs !! field /\
  hs_map (remove hs field).2 = delete field (hs_map hs) /\
  hs_wf (remove hs field).2.
Proof.
  destruct hs as [v|m]; [|done]. intros [Hnd Hlen]. rewrite <- (get_map (Linear v)) by done.
  simpl. destruct (position (key_eqb field) v) as [i|] eqn:Hp; simpl.
  - destruct (position_key_Some _ _ _ Hp) as [w Hw].
    pose proof (swap_remove_perm i v _ Hw) as Hperm.
    pose proof (fmap_Permutation fst _ _ Hperm) as Hk. simpl in Hk.
    pose proof Hnd as Hnd'. rewrite Hk in Hnd'. apply NoDup_cons in Hnd' as [Hnin Hnd'].
    split_and!; [done| |done|].
    + rewrite (list_to_map_proper v _ Hnd Hperm). simpl.
      rewrite delete_insert_id; [done|by apply not_elem_of_list_to_map].
    + apply Permutation_length in Hperm. simpl in Hperm. lia.
  - split_and!; [done| |done|done]. apply position_key_None in Hp.
    rewrite delete_id; [done|by apply not_elem_of_list_to_map].
Qed.

Lemma len_map hs : hs_wf hs -> len hs = size (hs_map hs).
Proof.
  destruct hs as [v|m]; [|done]. intros [Hnd _]. simpl.
  rewrite <- length_map_to_list, map_to_list_to_map by done. done.
Qed.

Lemma iter_map `{RustStd} hs : hs_wf hs -> iter hs ≡ₚ map_to_list (hs_map hs).
Proof.
  destruct hs as [v|m]; simpl; [|intros; apply hm_iter_perm].
  intros [Hnd _]. symmetry. by apply map_to_list_to_map.
Qed.

Lemma with_single_wf field value : hs_wf (with_single field value).
Proof. split; [apply NoDup_singleton|]. unfold HASH_LINEAR_THRESHOLD. simpl. lia. Qed.

#[export] Hint Resolve with_single_wf : muon.

(** ** Refinement: a run of operations against the finite map *)

Inductive hs_op :=
  | HInsert (field value : bytes)
  | HRemove (field : bytes)
  | HGet (field : bytes)
  | HContains (field : bytes)
  | HLen.

Inductive hs_out :=
  | OutOpt (o : option bytes)
  | OutBool (b : bool)
  | OutLen (n : nat).

Definition hs_step (hs : HashStore) (op : hs_op) : hs_out * HashStore :=
  match op with
  | HInsert f v => let '(o, hs') := insert hs f v in (OutOpt o, hs')
  | HRemove f => let '(o, hs') := remove hs f in (OutOpt o, hs')
  | HGet f => (OutOpt (get hs f), hs)
  | HContains f => (OutBool (contains_key hs f), hs)
  | HLen => (OutLen (len hs), hs)
  end.

Definition map_step (m : gmap bytes bytes) (op : hs_op) : hs_out * gmap bytes bytes :=
  match op with
  | HInsert f v => (OutOpt (m !! f), <[f := v]> m)
  | HRemove f => (OutOpt (m !! f), delete f m)
  | HGet f => (OutOpt (m !! f), m)
  | HContains f => (OutBool (bool_decide (is_Some (m !! f))), m)
  | HLen => (OutLen (size m), m)
  end.

Fixpoint run {S O} (step : S -> hs_op -> O * S) (s : S) (ops : list hs_op) : list O * S :=
  match ops with
  | [] => ([], s)
  | op :: ops' =>
      let '(o, s1) := step s op in
      let '(os, s2) := run step s1 ops' in
      (o :: os, s2)
  end.

Lemma hs_step_map hs op : hs_wf hs ->
  (hs_step hs op).1 = (map_step (hs_map hs) op).1 /\
  hs_map (hs_step hs op).2 = (map_step (hs_map hs) op).2 /\
  hs_wf (hs_step hs op).2.
Proof.
  intros Hwf. destruct op as [f v|f|f|f|]; simpl.
  - destruct (insert_map hs f v Hwf) as (? & ? & ?), (insert hs f v); simpl in *.
    split_and!; congruence.
  - destruct (remove_map hs f Hwf) as (? & ? & ?), (remove hs f); simpl in *.
    split_and!; congruence.
  - by rewrite get_map.
  - by rewrite contains_key_map.
  - by rewrite len_map.
Qed.

(** C40: every run of inserts, removals, lookups and size queries on a field store, across
    the promotion from the 8-entry vector to the hash map and the vector's
    [swap_remove]s, answers what the same run on a finite map answers, ends in a store
    that stands for that map, and stays well formed (no duplicate field, at most 8
    entries in the vector layout). *)
Theorem hash_store_refines_map (ops : list hs_op) (hs : HashStore) (Hwf : hs_wf hs) :
  (run hs_step hs ops).1 = (run map_step (hs_map hs) ops).1 /\
  hs_map (run hs_step hs ops).2 = (run map_step (hs_map hs) ops).2 /\
  hs_wf (run hs_step hs ops).2.
Proof.
  revert hs Hwf. induction ops as [|op ops IH]; intros hs Hwf; simpl; [done|].
  destruct (hs_step_map hs op Hwf) as (H1 & H2 & H3).
  destruct (hs_step hs op) as [o s], (map_step (hs_map hs) op) as [o' s']; simpl in *.
  subst. specialize (IH s H3).
  destruct (run hs_step s ops), (run map_step (hs_map s) ops); simpl in *. naive_solver.
Qed.

Definition ten_inserts : list hs_op :=
  (fun i => HInsert [i] [i + 1]) <$> [1; 2; 3; 4; 5; 6; 7; 8; 9; 10].

Lemma hash_store_refines_map_witness :
  (exists m, (run hs_step (with_single [0] [1]) ten_inserts).2 = Map m /\ size m = 11%nat) /\
  (run hs_step (with_single [0] [1]) (ten_inserts ++ [HRemove [3]; HGet [3]; HLen])).1 =
  (run map_step (hs_map (with_single [0] [1]))
     (ten_inserts ++ [HRemove [3]; HGet [3]; HLen])).1.
Proof.
  split.
  - eexists. split; [vm_compute; reflexivity|]. by vm_compute.
  - apply (hash_store_refines_map _ (with_single [0] [1])).
    apply with_single_wf.
Defined.
