(* ===== verification/Glob.v ===== *)
(** * Glob: the pattern matcher behind KEYS and SCAN MATCH

    [Shard::glob_match] and [Shard::glob_class_match] of [src/muon_cache/store.rs]: an
    iterative matcher that remembers only the last ['*'] it passed and retries from there.
    [Glob] is the declarative meaning of a pattern; the file proves that the loop always
    ends and decides exactly that meaning. *)
From S2P Require Import Prelude.

Abbreviation c_star := 42 (only parsing).
Abbreviation c_quest := 63 (only parsing).
Abbreviation c_lbr := 91 (only parsing).
Abbreviation c_bslash := 92 (only parsing).
Abbreviation c_rbr := 93 (only parsing).
Abbreviation c_caret := 94 (only parsing).
Abbreviation c_bang := 33 (only parsing).

(** ** [glob_class_match] *)

(** The [while i < pattern.len()] loop; every round advances [i], so the length of the
    pattern is enough fuel. *)
Fixpoint class_loop (fuel : nat) (pattern : bytes) (start : nat) (neg : bool) (ch : Z)
    (i : nat) (matched : bool) : option (bool * nat) :=
  match fuel with
  | O => None
  | S fuel' =>
      match pattern !! i with
      | None => None
      | Some c0 =>
          if (c0 =? c_rbr) && (start <? i)%nat
          then Some (if neg then negb matched else matched, S i)
          else
            let '(i, c) :=
              if (c0 =? c_bslash) && (i + 1 <? length pattern)%nat
              then (S i, default 0 (pattern !! S i)) else (i, c0) in
            match pattern !! (i + 1)%nat, pattern !! (i + 2)%nat with
            | Some dash, Some e =>
                if (dash =? c_minus) && negb (e =? c_rbr) then
                  let e := if (e =? c_bslash) && (i + 3 <? length pattern)%nat
                           then default 0 (pattern !! (i + 3)%nat) else e in
                  class_loop fuel' pattern start neg ch (i + 3)
                    (if (c <=? ch) && (ch <=? e) then true else matched)
                else class_loop fuel' pattern start neg ch (i + 1)
                       (if c =? ch then true else matched)
            | _, _ => class_loop fuel' pattern start neg ch (i + 1)
                        (if c =? ch then true else matched)
            end
      end
  end.

Definition glob_class_match (pattern : bytes) (i : nat) (ch : Z) : option (bool * nat) :=
  match pattern !! i with
  | None => None
  | Some c =>
      let neg := (c =? c_caret) || (c =? c_bang) in
      let start := if neg then S i else i in
      class_loop (length pattern) pattern start neg ch start false
  end.

(** ** [glob_match] *)

Record glob_state := GlobState {
  ti : nat; pi : nat; star_pi : option nat; star_ti : nat
}.

(** One round of the [while ti <= text.len()] loop: the result, or the next state. *)
Definition glob_retry (st : glob_state) : bool + glob_state :=
  match star_pi st with
  | Some sp => inr (GlobState (S (star_ti st)) (S sp) (Some sp) (S (star_ti st)))
  | None => inl false
  end.

Definition advance (st : glob_state) (pi' : nat) : glob_state :=
  GlobState (S (ti st)) pi' (star_pi st) (star_ti st).

Definition glob_round (text pattern : bytes) (st : glob_state) : bool + glob_state :=
  match pattern !! pi st with
  | None =>
      if (ti st =? length text)%nat then inl true else glob_retry st
  | Some p =>
      if p =? c_star then inr (GlobState (ti st) (S (pi st)) (Some (pi st)) (ti st))
      else if p =? c_quest then
        if (length text <=? ti st)%nat then inl false
        else inr (advance st (S (pi st)))
      else if p =? c_lbr then
        match text !! ti st with
        | None => inl false
        | Some ch =>
            match glob_class_match pattern (S (pi st)) ch with
            | Some (ok, next_pi) =>
                if ok then inr (advance st next_pi) else glob_retry st
            | None => if ch =? c_lbr then inr (advance st (S (pi st))) else glob_retry st
            end
        end
      else if p =? c_bslash then
        let pi' := if (pi st + 1 <? length pattern)%nat then S (pi st) else pi st in
        let st' := GlobState (ti st) pi' (star_pi st) (star_ti st) in
        match text !! ti st, pattern !! pi' with
        | Some ch, Some q => if q =? ch then inr (advance st' (S pi')) else glob_retry st'
        | _, _ => glob_retry st'
        end
      else
        match text !! ti st with
        | Some ch => if p =? ch then inr (advance st (S (pi st))) else glob_retry st
        | None => glob_retry st
        end
  end.

(** The loop and what follows it; [None] is running out of fuel. *)
Definition glob_end (text pattern : bytes) (st : glob_state) : bool :=
  forallb (fun b => b =? c_star) (drop (pi st) pattern) && (ti st =? length text)%nat.

Fixpoint glob_loop (fuel : nat) (text pattern : bytes) (st : glob_state) : option bool :=
  match fuel with
  | O => None
  | S fuel' =>
      if (ti st <=? length text)%nat then
        match glob_round text pattern st with
        | inl r => Some r
        | inr st' => glob_loop fuel' text pattern st'
        end
      else Some (glob_end text pattern st)
  end.

Definition glob_fuel (text pattern : bytes) : nat :=
  ((length text + 3) * (length pattern + 2))%nat.

Definition glob_match (text pattern : bytes) : bool :=
  default false (glob_loop (glob_fuel text pattern) text pattern (GlobState 0 0 None 0)).

Example glob_ex1 : glob_match (b! "user:42") (b! "user:*") = true.
Proof. reflexivity. Qed.
Example glob_ex2 : glob_match (b! "abcabd") (b! "*a?[c-e]") = true.
Proof. reflexivity. Qed.
Example glob_ex3 : glob_match (b! "a*") (b! "a\*") = true.
Proof. reflexivity. Qed.
Example glob_ex4 : glob_match (b! "ab") (b! "a[^b]") = false.
Proof. reflexivity. Qed.

(** ** The declarative meaning of a pattern *)

(** [tok_match pattern pi ch]: the position after the token at [pi] when that token, which
    is not a ['*'], accepts [ch]. *)
Definition tok_match (pattern : bytes) (pi : nat) (ch : Z) : option nat :=
  match pattern !! pi with
  | None => None
  | Some p =>
      if p =? c_quest then Some (S pi)
      else if p =? c_lbr then
        match glob_class_match pattern (S pi) ch with
        | Some (ok, next_pi) => if ok then Some next_pi else None
        | None => if ch =? c_lbr then Some (S pi) else None
        end
      else if p =? c_bslash then
        let pi' := if (pi + 1 <? length pattern)%nat then S pi else pi in
        match pattern !! pi' with
        | Some q => if q =? ch then Some (S pi') else None
        | None => None
        end
      else if p =? ch then Some (S pi) else None
  end.

(** [Glob pattern pi text]: the pattern from [pi] on matches the whole [text]. *)
Inductive Glob (pattern : bytes) : nat -> bytes -> Prop :=
  | Glob_end pi : pattern !! pi = None -> Glob pattern pi []
  | Glob_star_none pi t :
      pattern !! pi = Some c_star -> Glob pattern (S pi) t -> Glob pattern pi t
  | Glob_star_one pi ch t :
      pattern !! pi = Some c_star -> Glob pattern pi t -> Glob pattern pi (ch :: t)
  | Glob_tok pi pi' ch t :
      pattern !! pi <> Some c_star -> tok_match pattern pi ch = Some pi' ->
      Glob pattern pi' t -> Glob pattern pi (ch :: t).

(** ** Where the next token starts does not depend on the character *)

Lemma class_loop_shape fuel pattern start neg : forall ch ch' i m m',
  snd <$> class_loop fuel pattern start neg ch i m =
  snd <$> class_loop fuel pattern start neg ch' i m'.
Proof.
  induction fuel as [|fuel IH]; intros ch ch' i m m'; [done|]. cbn [class_loop].
  destruct (pattern !! i) as [c0|]; [|done].
  destruct ((c0 =? c_rbr) && (start <? i)%nat); [done|].
  destruct ((c0 =? c_bslash) && (i + 1 <? length pattern)%nat);
    repeat (case_match; try done); apply IH.
Qed.

(** More fuel than the rest of the pattern changes nothing. *)
Lemma class_loop_fuel f : forall g pattern start neg ch i m,
  (length pattern - i <= f)%nat -> (length pattern - i <= g)%nat ->
  class_loop f pattern start neg ch i m = class_loop g pattern start neg ch i m.
Proof.
  assert (Hdone : forall g pattern start neg ch i m, (length pattern <= i)%nat ->
    class_loop g pattern start neg ch i m = None).
  { intros [|g] pattern start neg ch i m Hi; [done|]. cbn [class_loop].
    by rewrite (proj2 (lookup_ge_None _ _)) by done. }
  induction f as [|f IH]; intros g pattern start neg ch i m Hf Hg.
  { rewrite !Hdone by lia. done. }
  destruct g as [|g]; [rewrite !Hdone by lia; done|]. cbn [class_loop].
  destruct (pattern !! i) as [c0|] eqn:Hi; [|done]. apply lookup_lt_Some in Hi.
  destruct ((c0 =? c_rbr) && (start <? i)%nat); [done|].
  destruct ((c0 =? c_bslash) && (i + 1 <? length pattern)%nat);
    repeat (case_match; try done); apply IH; lia.
Qed.

Lemma class_match_shape pattern i ch ch' :
  snd <$> glob_class_match pattern i ch = snd <$> glob_class_match pattern i ch'.
Proof.
  unfold glob_class_match. destruct (pattern !! i) as [c|]; [|done].
  destruct ((c =? c_caret) || (c =? c_bang)); apply class_loop_shape.
Qed.

Lemma class_loop_bound fuel pattern start neg ch : forall i m ok j,
  class_loop fuel pattern start neg ch i m = Some (ok, j) ->
  (i < j <= length pattern)%nat.
Proof.
  induction fuel as [|fuel IH]; intros i m ok j; [done|]. cbn [class_loop].
  destruct (pattern !! i) as [c0|] eqn:Hi; [|done]. apply lookup_lt_Some in Hi.
  destruct ((c0 =? c_rbr) && (start <? i)%nat); [intros; simplify_eq; lia|].
  destruct ((c0 =? c_bslash) && (i + 1 <? length pattern)%nat);
    repeat (case_match; try done); intros H'%IH; lia.
Qed.

Lemma class_match_bound pattern i ch ok j :
  glob_class_match pattern i ch = Some (ok, j) -> (i < j <= length pattern)%nat.
Proof.
  unfold glob_class_match. destruct (pattern !! i) as [c|]; [|done].
  destruct ((c =? c_caret) || (c =? c_bang)); intros H%class_loop_bound; lia.
Qed.

(** A character-free successor of [pi], and paths of [n] non-star tokens. *)
Definition next_tok (pattern : bytes) (pi : nat) : nat :=
  match pattern !! pi with
  | Some p =>
      if p =? c_lbr then
        match glob_class_match pattern (S pi) 0 with
        | Some (_, next_pi) => next_pi
        | None => S pi
        end
      else if p =? c_bslash then if (pi + 1 <? length pattern)%nat then S (S pi) else S pi
      else S pi
  | None => S pi
  end.

Inductive tok_path (pattern : bytes) : nat -> nat -> nat -> Prop :=
  | path_nil pi : tok_path pattern pi 0 pi
  | path_step pi p n pi' :
      pattern !! pi = Some p -> p <> c_star ->
      tok_path pattern (next_tok pattern pi) n pi' ->
      tok_path pattern pi (S n) pi'.

Lemma tok_match_next pattern pi ch pi' :
  tok_match pattern pi ch = Some pi' ->
  pi' = next_tok pattern pi /\ (pi < pi' <= length pattern)%nat.
Proof.
  unfold tok_match, next_tok. destruct (pattern !! pi) as [p|] eqn:Hp; [|done].
  apply lookup_lt_Some in Hp as Hlt.
  destruct (Z.eqb_spec p c_quest) as [->|]; [intros; simplify_eq/=; lia|].
  destruct (Z.eqb_spec p c_lbr) as [->|].
  - pose proof (class_match_shape pattern (S pi) ch 0) as Hs.
    destruct (glob_class_match pattern (S pi) ch) as [[ok j]|] eqn:Hc.
    + apply class_match_bound in Hc. destruct ok; [|done]. intros [= <-].
      destruct (glob_class_match pattern (S pi) 0) as [[? ?]|]; simplify_eq/=. lia.
    + destruct (glob_class_match pattern (S pi) 0) as [[? ?]|]; simplify_eq/=.
      destruct (ch =? c_lbr); intros; simplify_eq. lia.
  - destruct (Z.eqb_spec p c_bslash) as [->|].
    + destruct (Nat.ltb_spec (pi + 1) (length pattern)); repeat (case_match; try done);
        intros; simplify_eq; lia.
    + destruct (p =? ch); intros; simplify_eq; lia.
Qed.

Lemma tok_path_snoc pattern pi n pi' p :
  tok_path pattern pi n pi' -> pattern !! pi' = Some p -> p <> c_star ->
  tok_path pattern pi (S n) (next_tok pattern pi').
Proof. induction 1; intros; econstructor; eauto. constructor. Qed.

(** Matching along a path consumes one character per token. *)
Lemma Glob_path pattern pi n pi' : tok_path pattern pi n pi' ->
  forall t, Glob pattern pi t ->
  (n <= length t)%nat /\ Glob pattern pi' (drop n t).
Proof.
  induction 1 as [pi|pi p n pi' Hp Hns Hpath IH]; intros t Ht; [split; [lia|by rewrite drop_0]|].
  inversion Ht as [? Hn|? ? Hs|? ? ? Hs|? pi1 ch t' _ Htok Ht']; subst; try congruence.
  destruct (tok_match_next _ _ _ _ Htok) as [-> _]. destruct (IH t' Ht').
  simpl. split; [lia|done].
Qed.

(** ** What each kind of pattern position means *)

Lemma Glob_at_end pattern pi t : pattern !! pi = None -> Glob pattern pi t <-> t = [].
Proof.
  intros Hn. split; [|intros ->; by constructor].
  inversion 1 as [| | |? ? ? ? _ Htok]; simplify_eq; [done|].
  unfold tok_match in Htok. by rewrite Hn in Htok.
Qed.

Lemma Glob_at_tok pattern pi p t : pattern !! pi = Some p -> p <> c_star ->
  Glob pattern pi t <->
  exists ch t' pi', t = ch :: t' /\ tok_match pattern pi ch = Some pi' /\ Glob pattern pi' t'.
Proof.
  intros Hp Hns. split.
  - inversion 1; simplify_eq. eauto 10.
  - intros (ch & t' & pi' & -> & ? & ?). eapply Glob_tok; [congruence|done|done].
Qed.

Lemma Glob_at_star pattern pi t : pattern !! pi = Some c_star ->
  Glob pattern pi t <->
  exists k, (k <= length t)%nat /\ Glob pattern (S pi) (drop k t).
Proof.
  intros Hp. split.
  - intros HG. induction HG as [|pi t Hs HG _|pi ch t Hs HG IH|]; try congruence.
    + exists O. rewrite drop_0. split; [lia|done].
    + destruct (IH Hp) as (k & ? & ?). exists (S k). simpl. split; [lia|done].
  - intros (k & Hk & HG). revert t Hk HG. induction k as [|k IH]; intros t Hk HG.
    + rewrite drop_0 in HG. by apply Glob_star_none.
    + destruct t as [|ch t]; simpl in *; [lia|]. apply Glob_star_one; [done|]. apply IH; [lia|done].
Qed.

(** ** The loop's invariant *)

Section Loop.
Context (text pattern : bytes).

(** What the state stands for: the pattern from [pi] matches the text from [ti], or the
    last star, extended further than it is now, leads to a match. *)
Definition open (st : glob_state) : Prop :=
  ((ti st <= length text)%nat /\ Glob pattern (pi st) (drop (ti st) text)) \/
  exists sp k, star_pi st = Some sp /\ (star_ti st < k <= length text)%nat /\
    Glob pattern (S sp) (drop k text).

(** Since the last star, one character was consumed per token. *)
Definition glob_inv (st : glob_state) : Prop :=
  (pi st <= length pattern)%nat /\ (star_ti st <= ti st <= S (length text))%nat /\
  match star_pi st with
  | None => True
  | Some sp => (sp < length pattern)%nat /\ pattern !! sp = Some c_star /\
      exists n, tok_path pattern (S sp) n (pi st) /\ (ti st = star_ti st + n)%nat
  end.

Definition glob_measure (st : glob_state) : nat :=
  ((length text + 2 - star_ti st) * (length pattern + 2) +
    (length pattern + 1 - pi st))%nat.

(** The verdict on one round. *)
Definition round_ok (st : glob_state) (r : bool + glob_state) : Prop :=
  match r with
  | inl b => b = true <-> open st
  | inr st' =>
      glob_inv st' /\ (glob_measure st' < glob_measure st)%nat /\ (open st <-> open st')
  end.

Lemma measure_star a pi1 b pi2 :
  (a < b -> b <= length text + 1 -> pi1 <= length pattern ->
   (length text + 2 - b) * (length pattern + 2) + (length pattern + 1 - pi2) <
   (length text + 2 - a) * (length pattern + 2) + (length pattern + 1 - pi1))%nat.
Proof. intros. nia. Qed.

(** Every way on from a token that the character at [ti] fails goes through the star. *)
Lemma retry_ok st :
  glob_inv st -> (ti st <= length text)%nat ->
  ~ Glob pattern (pi st) (drop (ti st) text) -> round_ok st (glob_retry st).
Proof.
  intros (Hpi & Hti & Hstar) Hle Hno. unfold glob_retry.
  destruct (star_pi st) as [sp|] eqn:Hsp; simpl.
  - destruct Hstar as (Hlt & Hs & _). split_and!.
    + unfold glob_inv; simpl. split_and!; [lia|lia|lia|lia|done|].
      exists O. split; [constructor|lia].
    + unfold glob_measure; simpl. apply measure_star; lia.
    + unfold open; simpl. rewrite Hsp. split.
      * intros [[_ ?]|(sp' & k & [= <-] & Hk & HG)]; [done|].
        destruct (decide (k = S (star_ti st))) as [->|]; [left; split; [lia|done]|].
        right. exists sp, k. split_and!; [done|lia|lia|done].
      * intros [[? HG]|(sp' & k & [= <-] & Hk & HG)]; right; eexists sp, _;
          (split_and!; [done| | |exact HG]; lia).
  - unfold open. rewrite Hsp. split; [done|]. intros [[_ ?]|(? & ? & ? & _)]; done.
Qed.

(** A token that needs a character when the text is used up: no star helps. *)
Lemma exhausted_ok st p :
  glob_inv st -> pattern !! pi st = Some p -> p <> c_star ->
  (length text <= ti st)%nat -> ~ open st.
Proof.
  intros (Hpi & Hti & Hstar) Hp Hns Hge [[Hle HG]|(sp & k & Hsp & Hk & HG)].
  - rewrite drop_ge in HG by lia.
    by apply (Glob_at_tok _ _ _ _ Hp Hns) in HG as (? & ? & ? & ? & _).
  - rewrite Hsp in Hstar. destruct Hstar as (_ & _ & n & Hpath & Hn).
    destruct (Glob_path _ _ _ _ Hpath _ HG) as [Hlen HG'].
    rewrite length_drop in Hlen. rewrite drop_drop in HG'. rewrite drop_ge in HG' by lia.
    by apply (Glob_at_tok _ _ _ _ Hp Hns) in HG' as (? & ? & ? & ? & _).
Qed.

(** The character at [ti] passes the token at [pi]. *)
Lemma advance_ok st p ch pi' :
  glob_inv st -> pattern !! pi st = Some p -> p <> c_star ->
  text !! ti st = Some ch -> tok_match pattern (pi st) ch = Some pi' ->
  round_ok st (inr (advance st pi')).
Proof.
  intros (Hpi & Hti & Hstar) Hp Hns Hch Htok.
  destruct (tok_match_next _ _ _ _ Htok) as [Hnext Hlt].
  apply lookup_lt_Some in Hch as Hlen. simpl. split_and!.
  - unfold glob_inv; simpl. split_and!; [lia|lia|lia|].
    destruct (star_pi st) as [sp|]; [|done]. destruct Hstar as (? & ? & n & Hpath & Hn).
    split_and!; [done|done|]. exists (S n). split; [|lia]. subst.
    by eapply tok_path_snoc.
  - unfold glob_measure; simpl. lia.
  - unfold open; simpl. apply drop_S in Hch. rewrite Hch.
    rewrite (Glob_at_tok _ _ _ _ Hp Hns).
    split; (intros [[? HG]|?]; [left; split; [lia|]|by right]).
    + by destruct HG as (? & ? & ? & ? & ? & ?); simplify_eq.
    + eauto 10.
Qed.

(** The character at [ti], if any, fails the token at [pi]. *)
Lemma fail_ok st p :
  glob_inv st -> (ti st <= length text)%nat -> pattern !! pi st = Some p -> p <> c_star ->
  (forall ch, text !! ti st = Some ch -> tok_match pattern (pi st) ch = None) ->
  round_ok st (glob_retry st).
Proof.
  intros Hinv Hle Hp Hns Hno. apply retry_ok; [done|done|].
  rewrite (Glob_at_tok _ _ _ _ Hp Hns). intros (ch & t' & pi' & Hd & Htok & _).
  rewrite (Hno ch) in Htok; [done|].
  by rewrite <- (Nat.add_0_r (ti st)), <- lookup_drop, Hd.
Qed.

Lemma star_ok st :
  glob_inv st -> (ti st <= length text)%nat -> pattern !! pi st = Some c_star ->
  round_ok st (inr (GlobState (ti st) (S (pi st)) (Some (pi st)) (ti st))).
Proof.
  intros (Hpi & Hti & Hstar) Hle Hp. apply lookup_lt_Some in Hp as Hlt. simpl. split_and!.
  - unfold glob_inv; simpl. split_and!; [lia|lia|lia|done|done|].
    exists O. split; [constructor|lia].
  - unfold glob_measure; simpl. nia.
  - assert (Hopen : open (GlobState (ti st) (S (pi st)) (Some (pi st)) (ti st)) <->
      exists k, (ti st <= k <= length text)%nat /\ Glob pattern (S (pi st)) (drop k text)).
    { unfold open; simpl. split.
      - intros [[? HG]|(sp & k & [= <-] & ? & HG)]; [exists (ti st)|exists k];
          (split; [lia|done]).
      - intros (k & Hk & HG). destruct (decide (k = ti st)) as [->|]; [by left|].
        right. exists (pi st), k. split_and!; [done|lia|lia|done]. }
    rewrite Hopen. unfold open. split.
    + intros [[_ HG]|(sp & k & Hsp & Hk & HG)].
      * apply Glob_at_star in HG as (k & Hk & HG); [|done].
        rewrite length_drop in Hk. rewrite drop_drop in HG. exists (ti st + k)%nat.
        split; [lia|done].
      * rewrite Hsp in Hstar. destruct Hstar as (_ & _ & n & Hpath & Hn).
        destruct (Glob_path _ _ _ _ Hpath _ HG) as [Hlen HG'].
        rewrite length_drop in Hlen. rewrite drop_drop in HG'.
        apply Glob_at_star in HG' as (k' & Hk' & HG'); [|done].
        rewrite length_drop in Hk'. rewrite drop_drop in HG'. exists (k + n + k')%nat.
        split; [lia|done].
    + intros (k & Hk & HG). left. split; [lia|]. apply Glob_at_star; [done|].
      exists (k - ti st)%nat. rewrite length_drop, drop_drop.
      replace (ti st + (k - ti st))%nat with k by lia. split; [lia|done].
Qed.

(** The source's case analysis on the token is [tok_match]'s. *)
Lemma glob_round_tok st p :
  pattern !! pi st = Some p -> p <> c_star ->
  glob_round text pattern st =
    match text !! ti st with
    | Some ch =>
        match tok_match pattern (pi st) ch with
        | Some pi' => inr (advance st pi')
        | None => glob_retry st
        end
    | None => if (p =? c_quest) || (p =? c_lbr) then inl false else glob_retry st
    end.
Proof.
  intros Hp Hns. unfold glob_round, tok_match. rewrite Hp. rewrite (proj2 (Z.eqb_neq _ _) Hns).
  destruct (text !! ti st) as [ch|] eqn:Hch.
  - apply lookup_lt_Some in Hch. destruct (p =? c_quest).
    { by rewrite (proj2 (Nat.leb_gt _ _)) by done. }
    destruct (p =? c_lbr); [repeat (case_match; try done; simplify_eq)|].
    destruct (p =? c_bslash); [repeat (case_match; try done; simplify_eq)|].
    by destruct (p =? ch).
  - apply lookup_ge_None in Hch. destruct (p =? c_quest).
    { by rewrite (proj2 (Nat.leb_le _ _)) by done. }
    by repeat (case_match; try done; simplify_eq).
Qed.

Lemma glob_round_ok st :
  glob_inv st -> (ti st <= length text)%nat -> round_ok st (glob_round text pattern st).
Proof.
  intros Hinv Hle. destruct (pattern !! pi st) as [p|] eqn:Hp.
  - destruct (decide (p = c_star)) as [->|Hns].
    { unfold glob_round. rewrite Hp. by apply star_ok. }
    rewrite (glob_round_tok _ p) by done. destruct (text !! ti st) as [ch|] eqn:Hch.
    + destruct (tok_match pattern (pi st) ch) as [pi'|] eqn:Htok;
        [by eapply advance_ok|]. eapply fail_ok; eauto. congruence.
    + destruct (_ || _); [|eapply fail_ok; eauto; congruence].
      simpl. split; [done|]. intros Ho. exfalso. revert Ho.
      eapply exhausted_ok; eauto. by apply lookup_ge_None in Hch.
  - unfold glob_round. rewrite Hp. destruct (Nat.eqb_spec (ti st) (length text)) as [E|E].
    + simpl. split; [|done]. intros _. left. split; [done|].
      apply Glob_at_end; [done|]. apply drop_ge. lia.
    + apply retry_ok; [done|done|]. rewrite Glob_at_end by done. intros Hd.
      apply (f_equal length) in Hd. rewrite length_drop in Hd. simpl in Hd. lia.
Qed.

(** Past the end of the text the loop's tail answers [false], and nothing is open. *)
Lemma glob_end_ok st :
  glob_inv st -> (length text < ti st)%nat -> glob_end text pattern st = true <-> open st.
Proof.
  intros (_ & Hti & Hstar) Hlt. unfold glob_end, open.
  rewrite (proj2 (Nat.eqb_neq _ _)) by lia. rewrite andb_false_r.
  split; [done|]. intros [[? _]|(sp & k & Hsp & Hk & HG)]; [lia|].
  rewrite Hsp in Hstar. destruct Hstar as (_ & _ & n & Hpath & Hn).
  destruct (Glob_path _ _ _ _ Hpath _ HG) as [Hlen _]. rewrite length_drop in Hlen. lia.
Qed.

Lemma glob_loop_ok fuel : forall st,
  glob_inv st -> (glob_measure st < fuel)%nat ->
  exists b, glob_loop fuel text pattern st = Some b /\ (b = true <-> open st).
Proof.
  induction fuel as [|fuel IH]; intros st Hinv Hf; [lia|]. cbn [glob_loop].
  destruct (Nat.leb_spec (ti st) (length text)).
  - pose proof (glob_round_ok st Hinv ltac:(done)) as Hr.
    destruct (glob_round text pattern st) as [b|st']; simpl in Hr; [by exists b|].
    destruct Hr as (Hinv' & Hm & Ho). destruct (IH st' Hinv' ltac:(lia)) as (b & -> & Hb).
    exists b. split; [done|]. tauto.
  - exists (glob_end text pattern st). split; [done|]. by apply glob_end_ok.
Qed.
End Loop.

Lemma glob_match_correct text pattern :
  exists b, glob_loop (glob_fuel text pattern) text pattern (GlobState 0 0 None 0) = Some b /\
    (b = true <-> Glob pattern 0 text).
Proof.
  destruct (glob_loop_ok text pattern (glob_fuel text pattern) (GlobState 0 0 None 0))
    as (b & Hl & Hb).
  - split_and!; simpl; try lia; done.
  - unfold glob_measure, glob_fuel; simpl. lia.
  - exists b. split; [done|]. rewrite Hb. unfold open; simpl. rewrite drop_0. split.
    + by intros [[_ ?]|(? & ? & ? & _)].
    + intros. left. split; [lia|done].
Qed.

(** ** Property *)

(** C39: the iterative matcher of KEYS and SCAN terminates on every text and pattern within
    its fuel (stars times text positions), and answers [true] exactly when the pattern
    matches the whole text in the declarative sense ([Glob]): remembering only the last
    star and giving up early on ['?'] or ['['] at the end of the text lose no match. *)
Theorem glob_match_decides (text pattern : bytes) :
  is_Some (glob_loop (glob_fuel text pattern) text pattern (GlobState 0 0 None 0)) /\
  (glob_match text pattern = true <-> Glob pattern 0 text).
Proof.
  unfold glob_match. destruct (glob_match_correct text pattern) as (b & -> & Hb). by split.
Qed.
