(* ===== verification/Shard.v ===== *)
(** * Shard: the data of one shard bucket, and its key-level operations

    [Value], [Entry] and [Shard] of [src/muon_cache/store.rs] with the operations that do
    not look inside a value: expiry, removal, TTLs, snapshots and key listings.

    Time is explicit: an operation that reads the clock once takes the reading, [now], in
    milliseconds.  An expired key stays in the map until an operation meets it.  [abs now]
    is what a client can see at [now]: the live keys, each with its value up to
    representation (an integer and its decimal string are the same value, both layouts of
    a hash are the same hash).  The refinement lemmas of the files built on this one say
    that each operation acts on [abs now] through one cell. *)
From Stdlib Require Import SpecFloat.
From S2P Require Import Prelude.
From S2P Require Import IntCodec.
From S2P Require Import HashStore.
From S2P Require Import Glob.

(** ** Data *)

(** Binary64 numbers, as the standard library's executable specification of them. *)
Abbreviation f64 := spec_float.

(** A stream entry: its id and its fields. *)
Abbreviation StreamItem := (bytes * list (bytes * bytes))%type.

Inductive Value :=
  | VString (buf : bytes)
  | VInt (n : Z)
  | VList (list : list bytes)
  | VSet (set : gset bytes)
  | VHash (hs : HashStore)
  | VZSet (items : gmap bytes f64)
  | VStream (items : list StreamItem).

Record Entry := MkEntry { value : Value; expires_at : option Z }.

Abbreviation Shard := (gmap bytes Entry).

(** Assignment through [&mut entry.value]. *)
Definition set_value (entry : Entry) (v : Value) : Entry := MkEntry v (expires_at entry).

(** ** Operations *)

Definition is_expired (now : Z) (s : Shard) (key : bytes) : bool :=
  match s !! key with
  | Some entry => match expires_at entry with Some ts => ts <=? now | None => false end
  | None => false
  end.

Definition set (s : Shard) (key : bytes) (v : Value) (expire_at_ms : option Z) : Shard :=
  <[key := MkEntry v expire_at_ms]> s.

Definition set_with_expire_at (s : Shard) (key : bytes) (v : Value)
    (expire_at_ms : option Z) : Shard := set s key v expire_at_ms.

Definition remove (s : Shard) (key : bytes) : bool * Shard :=
  (bool_decide (is_Some (s !! key)), delete key s).

(** [if self.is_expired(key) { self.remove(key); }], the first lines of most operations. *)
Definition expire_check (now : Z) (s : Shard) (key : bytes) : Shard :=
  if is_expired now s key then (remove s key).2 else s.

Definition exists_key (now : Z) (s : Shard) (key : bytes) : bool * Shard :=
  if is_expired now s key then (false, (remove s key).2)
  else (bool_decide (is_Some (s !! key)), s).

(** [as i64] on the [u64] difference wraps. *)
Definition ttl_ms (now : Z) (s : Shard) (key : bytes) : option Z * Shard :=
  match s !! key with
  | None => (None, s)
  | Some entry =>
      match expires_at entry with
      | Some ts =>
          if ts <=? now then (None, (remove s key).2)
          else (Some (wrap_i64 (ts - now)), s)
      | None => (Some (-1), s)
      end
  end.

Definition set_expire_ms (now : Z) (s : Shard) (key : bytes) (ttl_ms : Z) : bool * Shard :=
  match s !! key with
  | Some entry =>
      (true, <[key := MkEntry (value entry) (Some (saturating_u64 (now + ttl_ms)))]> s)
  | None => (false, s)
  end.

Definition persist (now : Z) (s : Shard) (key : bytes) : Z * Shard :=
  if is_expired now s key then (0, (remove s key).2)
  else match s !! key with
       | Some entry =>
           let s' := <[key := MkEntry (value entry) None]> s in
           match expires_at entry with Some _ => (1, s') | None => (0, s') end
       | None => (0, s)
       end.

Definition live (now : Z) (entry : Entry) : bool :=
  match expires_at entry with Some ts => negb (ts <=? now) | None => true end.

Definition purge_expired_all (now : Z) (s : Shard) : Shard :=
  filter (fun p => live now p.2 = true) s.

Definition flush (s : Shard) : nat * Shard := (size s, ∅).

Definition value_type (now : Z) (s : Shard) (key : bytes) : option bytes * Shard :=
  if is_expired now s key then (None, (remove s key).2)
  else (match value <$> s !! key with
        | Some (VString _) | Some (VInt _) => Some (b! "string")
        | Some (VList _) => Some (b! "list")
        | Some (VSet _) => Some (b! "set")
        | Some (VHash _) => Some (b! "hash")
        | Some (VZSet _) => Some (b! "zset")
        | Some (VStream _) => Some (b! "stream")
        | None => None
        end, s).

Section Iteration.
Context `{RustStd}.

Definition snapshot_items (now : Z) (s : Shard)
    : list (bytes * Value * option Z) * Shard :=
  let s := purge_expired_all now s in
  ((fun p => (p.1, value p.2, expires_at p.2)) <$> hm_iter s, s).

Definition len (now : Z) (s : Shard) : nat * Shard :=
  let s := purge_expired_all now s in (size s, s).

Definition keys (now : Z) (s : Shard) : list bytes * Shard :=
  let s := purge_expired_all now s in ((hm_iter s).*1, s).

Definition keys_matching (now : Z) (s : Shard) (pattern : bytes) : list bytes * Shard :=
  let s := purge_expired_all now s in
  (sort_bytes (filter (fun key => glob_match key pattern = true) (hm_iter s).*1), s).
End Iteration.

(** ** What a client sees *)

Inductive aval :=
  | AStr (b : bytes)
  | AList (l : list bytes)
  | ASet (X : gset bytes)
  | AHash (m : gmap bytes bytes)
  | AZSet (m : gmap bytes f64)
  | AStream (l : list StreamItem).

Definition aval_of (v : Value) : aval :=
  match v with
  | VString b => AStr b
  | VInt n => AStr (int_to_string n)
  | VList l => AList l
  | VSet X => ASet X
  | VHash hs => AHash (hs_map hs)
  | VZSet m => AZSet m
  | VStream l => AStream l
  end.

(** A cell: a visible value and its expiry. *)
Abbreviation acell := (aval * option Z)%type.
Definition acell_of (e : Entry) : acell := (aval_of (value e), expires_at e).

Definition abs_entry (now : Z) (e : Entry) : option acell :=
  if live now e then Some (acell_of e) else None.
Definition abs (now : Z) (s : Shard) : gmap bytes acell := omap (abs_entry now) s.

(** ** Well-formed values: no empty collections, integers in range, no NaN scores *)

Definition value_wf (v : Value) : Prop :=
  match v with
  | VString _ | VStream _ => True
  | VInt n => in_i64 n
  | VList l => l <> []
  | VSet X => X <> ∅
  | VHash hs => hs_wf hs /\ hs_map hs <> ∅
  | VZSet m => m <> ∅ /\ map_Forall (fun _ x => x <> S754_nan) m
  end.

Definition shard_wf (s : Shard) : Prop := map_Forall (fun _ e => value_wf (value e)) s.

(** Only [key] may differ. *)
Definition same_but (key : bytes) (s s' : Shard) : Prop :=
  forall k, k <> key -> s' !! k = s !! k.

(** The contract of an operation on [key]: it answers and updates as [spec] says on the
    visible cell, touches no other key, and keeps values well formed. *)
Definition op_refines {R} (rel : R -> R -> Prop) (now : Z) (key : bytes) (s : Shard)
    (res : R * Shard) (spec : option acell -> R * option acell) : Prop :=
  rel res.1 (spec (abs now s !! key)).1 /\
  abs now res.2 = partial_alter (fun _ => (spec (abs now s !! key)).2) key (abs now s) /\
  same_but key s res.2 /\ shard_wf res.2.

(** ** Lemmas *)

Lemma abs_lookup now s k : abs now s !! k = s !! k ≫= abs_entry now.
Proof. unfold abs. by rewrite lookup_omap. Qed.

Lemma abs_insert now s k e : live now e = true ->
  abs now (<[k := e]> s) = <[k := acell_of e]> (abs now s).
Proof.
  intros Hl. unfold abs. rewrite (omap_insert_Some _ _ _ _ (acell_of e)); [done|].
  unfold abs_entry. by rewrite Hl.
Qed.

Lemma abs_insert_any now s k e :
  abs now (<[k := e]> s) = partial_alter (fun _ => abs_entry now e) k (abs now s).
Proof.
  apply map_eq. intros i. rewrite abs_lookup. destruct (decide (i = k)) as [->|].
  - by rewrite lookup_insert_eq, lookup_partial_alter_eq.
  - by rewrite lookup_insert_ne, lookup_partial_alter_ne, abs_lookup.
Qed.

Lemma abs_delete now s k : abs now (delete k s) = delete k (abs now s).
Proof. unfold abs. by rewrite omap_delete. Qed.

Lemma same_but_refl key s : same_but key s s.
Proof. by intros k Hk. Qed.
Lemma same_but_insert key e s s' : same_but key s s' -> same_but key s (<[key := e]> s').
Proof. intros H k Hk. rewrite lookup_insert_ne by done. by apply H. Qed.
Lemma same_but_delete key s s' : same_but key s s' -> same_but key s (delete key s').
Proof. intros H k Hk. rewrite lookup_delete_ne by done. by apply H. Qed.

Lemma shard_wf_insert key e s : shard_wf s -> value_wf (value e) -> shard_wf (<[key := e]> s).
Proof. intros ??. by apply map_Forall_insert_2. Qed.
Lemma shard_wf_delete key s : shard_wf s -> shard_wf (delete key s).
Proof. apply map_Forall_delete. Qed.
Lemma shard_wf_lookup s key e : shard_wf s -> s !! key = Some e -> value_wf (value e).
Proof. intros H Hk. by apply (H key e Hk). Qed.

#[export] Hint Resolve same_but_refl same_but_insert same_but_delete : muon.
#[export] Hint Resolve shard_wf_insert shard_wf_delete : muon.

(** After the expiry check: the same visible state, and the key, if present, is live. *)
Lemma expire_check_spec now s key : shard_wf s ->
  let s' := expire_check now s key in
  abs now s' = abs now s /\ same_but key s s' /\ shard_wf s' /\
  (forall e, s' !! key = Some e -> live now e = true /\ s !! key = Some e) /\
  abs now s !! key = acell_of <$> s' !! key.
Proof.
  intros Hwf. unfold expire_check, is_expired. simpl.
  destruct (s !! key) as [e|] eqn:Hk.
  - assert (Hlive : forall b, live now e = b -> abs now s !! key =
      if b then Some (acell_of e) else None).
    { intros b <-. rewrite abs_lookup, Hk. done. }
    unfold live in Hlive.
    destruct (expires_at e) as [ts|] eqn:He; [destruct (ts <=? now) eqn:Hts|]; simpl.
    + split_and!; auto with muon.
      * rewrite abs_delete, delete_id; [done|]. by apply (Hlive false).
      * intros ?. by rewrite lookup_delete_eq.
      * rewrite lookup_delete_eq. by apply (Hlive false).
    + split_and!; auto with muon.
      * intros e'. rewrite Hk. intros [= <-]. unfold live. by rewrite He, Hts.
      * rewrite Hk. by apply (Hlive true).
    + split_and!; auto with muon.
      * intros e'. rewrite Hk. intros [= <-]. unfold live. by rewrite He.
      * rewrite Hk. by apply (Hlive true).
  - split_and!; auto with muon.
    + intros ?. by rewrite Hk.
    + by rewrite abs_lookup, Hk.
Qed.

Lemma live_set_value now e v : live now (set_value e v) = live now e.
Proof. done. Qed.

(** The four ways an operation ends, as refinement steps. *)
Section Steps.
Context {R : Type} (rel : R -> R -> Prop).

Lemma refines_keep now key s s1 r spec :
  abs now s1 = abs now s -> same_but key s s1 -> shard_wf s1 ->
  rel r (spec (abs now s !! key)).1 ->
  (spec (abs now s !! key)).2 = abs now s !! key ->
  op_refines rel now key s (r, s1) spec.
Proof.
  intros Ha Hs Hw Hr Hc. split_and!; simpl; auto.
  rewrite Hc, partial_alter_self. done.
Qed.

Lemma refines_insert now key s s1 r e spec :
  abs now s1 = abs now s -> same_but key s s1 -> shard_wf s1 ->
  live now e = true -> value_wf (value e) ->
  rel r (spec (abs now s !! key)).1 ->
  (spec (abs now s !! key)).2 = Some (acell_of e) ->
  op_refines rel now key s (r, <[key := e]> s1) spec.
Proof.
  intros Ha Hs Hw Hl Hv Hr Hc. split_and!; simpl; auto with muon.
  rewrite Hc, abs_insert, Ha by done. done.
Qed.

Lemma refines_store now key s r e spec :
  shard_wf s -> value_wf (value e) ->
  rel r (spec (abs now s !! key)).1 ->
  (spec (abs now s !! key)).2 = abs_entry now e ->
  op_refines rel now key s (r, <[key := e]> s) spec.
Proof.
  intros Hw Hv Hr Hc. split_and!; simpl; auto with muon.
  by rewrite Hc, abs_insert_any.
Qed.

Lemma refines_delete now key s s1 r spec :
  abs now s1 = abs now s -> same_but key s s1 -> shard_wf s1 ->
  rel r (spec (abs now s !! key)).1 ->
  (spec (abs now s !! key)).2 = None ->
  op_refines rel now key s (r, delete key s1) spec.
Proof.
  intros Ha Hs Hw Hr Hc. split_and!; simpl; auto with muon.
  rewrite Hc, abs_delete, Ha. done.
Qed.
End Steps.

Arguments op_refines {R} rel now key s res spec : simpl never.

(** Run the expiry check of an operation on [key] and name what it leaves: [s1], the
    entry if there is one, and its visible cell. *)
Ltac op_start now s key Hwf :=
  cbn zeta; let H := fresh in
  pose proof (expire_check_spec now s key Hwf) as H; cbn zeta in H;
  set (s1 := expire_check now s key) in *;
  destruct H as (Habs & Hsame & Hwf1 & Hlive & Hcell);
  clearbody s1;
  let e := fresh "e" in
  destruct (s1 !! key) as [e|] eqn:Hkey; simpl in Hcell;
  [ let Hl := fresh "Hl" in let Hk0 := fresh "Hk0" in
    destruct (Hlive e eq_refl) as [Hl Hk0];
    pose proof (shard_wf_lookup _ _ _ Hwf1 Hkey) as Hvwf;
    destruct e as [[?buf|?n|?l|?X|?hs|?m|?items] ?ex]; simpl in Hvwf
  | ].

(** Finish one ending: choose the step, replace the cell by its value and compute. *)
Ltac op_done :=
  first
    [ apply refines_insert | apply refines_delete | apply refines_keep ];
  cbn [value set_value expires_at]; auto with muon;
  try match goal with H : abs ?now ?s !! ?key = _ |- context [abs ?now ?s !! ?key] =>
        rewrite H end;
  simpl; auto with muon; try done.
