(* ===== verification/ShardString.v ===== *)
(** * ShardString: string and counter operations of a shard

    GET, SET, SETNX, APPEND and the INCR family of [src/muon_cache/store.rs].  A counter is
    kept as a native integer from its first increment on; the refinement lemmas show that
    no client can tell it from its decimal string. *)
From S2P Require Import Prelude.
From S2P Require Import IntCodec.
From S2P Require Import HashStore.
From S2P Require Import Shard.

(** ** Operations *)

Definition get_string (now : Z) (s : Shard) (key : bytes) : Result (option bytes) * Shard :=
  let s := expire_check now s key in
  match value <$> s !! key with
  | Some (VString val) => (Ok (Some val), s)
  | Some (VInt n) => (Ok (Some (write_i64_bytes n)), s)
  | Some _ => (Err, s)
  | None => (Ok None, s)
  end.

Definition set_string (s : Shard) (key v : bytes) (expire_at_ms : option Z) : Shard :=
  Shard.set s key (VString v) expire_at_ms.

Definition set_string_ref (s : Shard) (key v : bytes) (expire_at_ms : option Z) : Shard :=
  match s !! key with
  | Some _ => <[key := MkEntry (VString v) expire_at_ms]> s
  | None => <[key := MkEntry (VString v) expire_at_ms]> s
  end.

Definition set_string_from_slices (s : Shard) (key v : bytes) (expire_at_ms : option Z)
    : Shard := set_string_ref s key v expire_at_ms.

Definition set_nx (now : Z) (s : Shard) (key v : bytes) : Result bool * Shard :=
  let s := expire_check now s key in
  match s !! key with
  | Some _ => (Ok false, s)
  | None => (Ok true, <[key := MkEntry (VString v) None]> s)
  end.

Definition append (now : Z) (s : Shard) (key v : bytes) : Result Z * Shard :=
  let s := expire_check now s key in
  match s !! key with
  | Some entry =>
      match value entry with
      | VString buf =>
          let buf' := buf ++ v in
          (Ok (Z.of_nat (length buf')), <[key := set_value entry (VString buf')]> s)
      | VInt n =>
          let buf' := write_i64_bytes n ++ v in
          (Ok (Z.of_nat (length buf')), <[key := set_value entry (VString buf')]> s)
      | _ => (Err, s)
      end
  | None => (Ok (Z.of_nat (length v)), <[key := MkEntry (VString v) None]> s)
  end.

Definition incr_by (now : Z) (s : Shard) (key : bytes) (delta : Z) : Result Z * Shard :=
  let s := expire_check now s key in
  match s !! key with
  | Some entry =>
      match value entry with
      | VInt n =>
          let next := saturating_add_i64 n delta in
          (Ok next, <[key := set_value entry (VInt next)]> s)
      | VString buf =>
          match parse_i64_bytes buf with
          | Err => (Err, s)
          | Ok n =>
              let next := saturating_add_i64 n delta in
              (Ok next, <[key := set_value entry (VInt next)]> s)
          end
      | _ => (Err, s)
      end
  | None => (Ok delta, <[key := MkEntry (VInt delta) None]> s)
  end.

(** ** What they do to the visible cell *)

Definition spec_get_string (c : option acell) : Result (option bytes) * option acell :=
  (match c with
   | Some (AStr b, _) => Ok (Some b)
   | Some _ => Err
   | None => Ok None
   end, c).

Definition spec_set (now : Z) (v : aval) (ex : option Z) (c : option acell)
    : unit * option acell :=
  (tt, match ex with
       | Some ts => if ts <=? now then None else Some (v, ex)
       | None => Some (v, ex)
       end).

Definition spec_set_nx (v : bytes) (c : option acell) : Result bool * option acell :=
  match c with
  | Some _ => (Ok false, c)
  | None => (Ok true, Some (AStr v, None))
  end.

Definition spec_append (v : bytes) (c : option acell) : Result Z * option acell :=
  match c with
  | Some (AStr b, ex) => (Ok (Z.of_nat (length (b ++ v))), Some (AStr (b ++ v), ex))
  | Some _ => (Err, c)
  | None => (Ok (Z.of_nat (length v)), Some (AStr v, None))
  end.

(** A counter is the decimal reading of a string; it saturates at the [i64] bounds. *)
Definition spec_incr_by (delta : Z) (c : option acell) : Result Z * option acell :=
  match c with
  | Some (AStr b, ex) =>
      match i64_from_str b with
      | Some n =>
          let next := saturating_add_i64 n delta in
          (Ok next, Some (AStr (int_to_string next), ex))
      | None => (Err, c)
      end
  | Some _ => (Err, c)
  | None => (Ok delta, Some (AStr (int_to_string delta), None))
  end.

(** ** Refinement *)

Section Refine.
Context (now : Z) (s : Shard) (key : bytes) (Hwf : shard_wf s).

Lemma get_string_refines :
  op_refines eq now key s (get_string now s key) spec_get_string.
Proof.
  unfold get_string. op_start now s key Hwf; simpl; op_done.
  by rewrite write_i64_bytes_to_string.
Qed.

Lemma set_refines v ex : value_wf v ->
  op_refines eq now key s (tt, Shard.set s key v ex) (spec_set now (aval_of v) ex).
Proof.
  intros Hv. unfold Shard.set. apply refines_store; auto. simpl.
  unfold abs_entry, live, acell_of; simpl. destruct ex as [ts|]; [|done].
  by destruct (ts <=? now).
Qed.

Lemma set_string_ref_set v ex :
  set_string_ref s key v ex = Shard.set s key (VString v) ex.
Proof. unfold set_string_ref, Shard.set. by destruct (s !! key). Qed.

Lemma set_nx_refines v :
  op_refines eq now key s (set_nx now s key v) (spec_set_nx v).
Proof. unfold set_nx. op_start now s key Hwf; simpl; op_done. Qed.

Lemma append_refines v :
  op_refines eq now key s (append now s key v) (spec_append v).
Proof.
  unfold append. op_start now s key Hwf; simpl; op_done.
  all: by rewrite write_i64_bytes_to_string.
Qed.

Lemma incr_by_refines delta : in_i64 delta ->
  op_refines eq now key s (incr_by now s key delta) (spec_incr_by delta).
Proof.
  intros Hd. unfold incr_by.
  op_start now s key Hwf; simpl;
    rewrite ?parse_i64_bytes_from_str;
    try (destruct (i64_from_str buf) as [n|] eqn:Hp; simpl);
    op_done; rewrite ?Hp, ?parse_write_i64 by done; simpl; auto with muon;
    apply clamp_i64_range.
Qed.
End Refine.
