(* ===== verification/ShardList.v ===== *)
(** * ShardList: list operations of a shard

    The list commands of [src/muon_cache/store.rs], with the index arithmetic of LRANGE,
    LINDEX, LSET and LTRIM, the in-place removal loops of LREM, and the two slices in which
    a ring buffer hands out its elements.  Arithmetic is that of a release build: [usize]
    and [i64] wrap; the panic that remains (draining past the end in LTRIM) is [None]. *)
From S2P Require Import Prelude.
From S2P Require Import HashStore.
From S2P Require Import Shard.

(** ** Operations *)

(** The loops of [push_front]s or [push_back]s. *)
Definition push_values (left : bool) (values lst : list bytes) : list bytes :=
  if left then fold_left (fun l v => v :: l) values lst
  else fold_left (fun l v => l ++ [v]) values lst.

Definition zlen {A} (l : list A) : Z := Z.of_nat (length l).

Definition list_push (now : Z) (s : Shard) (key : bytes) (values : list bytes) (left : bool)
    : Result Z * Shard :=
  let s := expire_check now s key in
  match s !! key with
  | Some entry =>
      match value entry with
      | VList lst =>
          let lst := push_values left values lst in
          (Ok (zlen lst), <[key := set_value entry (VList lst)]> s)
      | _ => (Err, s)
      end
  | None =>
      let lst := push_values left values [] in
      (Ok (zlen lst), <[key := MkEntry (VList lst) None]> s)
  end.

(** [VecDeque::pop_back]. *)
Definition pop_back {A} (l : list A) : option A * list A :=
  (last l, take (length l - 1) l).

Definition list_pop (now : Z) (s : Shard) (key : bytes) (left : bool)
    : Result (option bytes) * Shard :=
  let s := expire_check now s key in
  match s !! key with
  | Some entry =>
      match value entry with
      | VList lst =>
          let '(out, lst) :=
            match lst with
            | [] => (None, [])
            | x :: rest => if left then (Some x, rest) else pop_back lst
            end in
          match lst with
          | [] => (Ok out, delete key s)
          | _ => (Ok out, <[key := set_value entry (VList lst)]> s)
          end
      | _ => (Err, s)
      end
  | None => (Ok None, s)
  end.

(** The bounds arithmetic that LRANGE and ZRANGE share; [None] is the early returns. *)
Definition range_bounds (len start stop : Z) : option (Z * Z) :=
  if len =? 0 then None else
  let s := if start <? 0 then len + start else start in
  let e := if stop <? 0 then len + stop else stop in
  let s := if s <? 0 then 0 else s in
  if e <? 0 then None else
  if len <=? s then None else
  let e := if len <=? e then len - 1 else e in
  if e <? s then None else Some (s, e).

(** [&l[a..b]]. *)
Definition slice {A} (l : list A) (a b : nat) : list A := take (b - a) (drop a l).

(** Copying [count] elements from [start_idx] out of the two slices of the ring buffer. *)
Definition slices_range (front back : list bytes) (start_idx count : nat) : list bytes :=
  if (start_idx <? length front)%nat then
    let out := slice front start_idx (Nat.min (start_idx + count) (length front)) in
    if (length out <? count)%nat
    then out ++ take (Nat.min (count - length out) (length back)) back
    else out
  else
    let back_start := (start_idx - length front)%nat in
    slice back back_start (Nat.min (back_start + count) (length back)).

Definition list_range `{RustStd} (now : Z) (s : Shard) (key : bytes) (start stop : Z)
    : Result (list bytes) * Shard :=
  let s := expire_check now s key in
  match value <$> s !! key with
  | Some (VList lst) =>
      (Ok match range_bounds (zlen lst) start stop with
          | None => []
          | Some (s, e) =>
              let n := vd_front_len lst in
              slices_range (take n lst) (drop n lst) (Z.to_nat s) (Z.to_nat (e - s + 1))
          end, s)
  | Some _ => (Err, s)
  | None => (Ok [], s)
  end.

Definition list_len (now : Z) (s : Shard) (key : bytes) : Result Z * Shard :=
  let s := expire_check now s key in
  match value <$> s !! key with
  | Some (VList lst) => (Ok (zlen lst), s)
  | Some _ => (Err, s)
  | None => (Ok 0, s)
  end.

(** The index arithmetic of LINDEX and LSET. *)
Definition resolve_index (len index : Z) : option nat :=
  let idx := if index <? 0 then len + index else index in
  if (idx <? 0) || (len <=? idx) then None else Some (Z.to_nat idx).

Definition list_index (now : Z) (s : Shard) (key : bytes) (index : Z)
    : Result (option bytes) * Shard :=
  let s := expire_check now s key in
  match value <$> s !! key with
  | Some (VList lst) =>
      (Ok match resolve_index (zlen lst) index with
          | None => None
          | Some idx => lst !! idx
          end, s)
  | Some _ => (Err, s)
  | None => (Ok None, s)
  end.

Definition list_set (now : Z) (s : Shard) (key : bytes) (index : Z) (v : bytes)
    : Result unit * Shard :=
  let s := expire_check now s key in
  match s !! key with
  | Some entry =>
      match value entry with
      | VList lst =>
          match resolve_index (zlen lst) index with
          | None => (Err, s)
          | Some idx => (Ok tt, <[key := set_value entry (VList (<[idx := v]> lst))]> s)
          end
      | _ => (Err, s)
      end
  | None => (Err, s)
  end.

(** [VecDeque::insert] at an index up to the length. *)
Definition insert_at {A} (i : nat) (v : A) (l : list A) : list A := take i l ++ v :: drop i l.

Definition bytes_eqb (v w : bytes) : bool := bool_decide (v = w).

Definition list_insert (now : Z) (s : Shard) (key : bytes) (before : bool) (pivot v : bytes)
    : Result Z * Shard :=
  let s := expire_check now s key in
  match s !! key with
  | Some entry =>
      match value entry with
      | VList lst =>
          match position (bytes_eqb pivot) lst with
          | Some idx =>
              let lst := insert_at (if before then idx else S idx) v lst in
              (Ok (zlen lst), <[key := set_value entry (VList lst)]> s)
          | None => (Ok (-1), s)
          end
      | _ => (Err, s)
      end
  | None => (Ok 0, s)
  end.

(** LREM with [count > 0]: [while i < list.len() && removed < count]. *)
Fixpoint rem_front (fuel : nat) (v : bytes) (count : Z) (lst : list bytes) (i : nat)
    (removed : Z) : Z * list bytes :=
  match fuel with
  | O => (removed, lst)
  | S fuel' =>
      if (i <? length lst)%nat && (removed <? count) then
        if match lst !! i with Some x => bytes_eqb v x | None => false end
        then rem_front fuel' v count (delete i lst) i (removed + 1)
        else rem_front fuel' v count lst (S i) removed
      else (removed, lst)
  end.

(** LREM with [count < 0]: [while i > 0 && removed < (-count)]. *)
Fixpoint rem_back (i : nat) (v : bytes) (count : Z) (lst : list bytes) (removed : Z)
    : Z * list bytes :=
  match i with
  | O => (removed, lst)
  | S i' =>
      if removed <? wrap_i64 (- count) then
        if match lst !! i' with Some x => bytes_eqb v x | None => false end
        then rem_back i' v count (delete i' lst) (removed + 1)
        else rem_back i' v count lst removed
      else (removed, lst)
  end.

Definition list_rem (now : Z) (s : Shard) (key : bytes) (count : Z) (v : bytes)
    : Result Z * Shard :=
  let s := expire_check now s key in
  match s !! key with
  | Some entry =>
      match value entry with
      | VList lst =>
          let '(removed, lst) :=
            if count =? 0 then
              (zlen (filter (fun x => bytes_eqb v x = true) lst),
               filter (fun x => bytes_eqb v x = false) lst)
            else if 0 <? count then rem_front (length lst) v count lst 0 0
            else rem_back (length lst) v count lst 0 in
          match lst with
          | [] => (Ok removed, delete key s)
          | _ => (Ok removed, <[key := set_value entry (VList lst)]> s)
          end
      | _ => (Err, s)
      end
  | None => (Ok 0, s)
  end.

Definition list_push_x (now : Z) (s : Shard) (key : bytes) (values : list bytes)
    (left : bool) : Result Z * Shard :=
  let s := expire_check now s key in
  match s !! key with
  | Some entry =>
      match value entry with
      | VList lst =>
          let lst := push_values left values lst in
          (Ok (zlen lst), <[key := set_value entry (VList lst)]> s)
      | _ => (Err, s)
      end
  | None => (Ok 0, s)
  end.

(** [as usize] of a possibly negative [i64], and [usize] addition. *)
Definition as_usize (z : Z) : Z := z `mod` 2 ^ 64.

(** What is left of the list; [None] when [list.drain(..s)] panics. *)
Definition trim (lst : list bytes) (start stop : Z) : option (list bytes) :=
  let len := zlen lst in
  let s := as_usize (if start <? 0 then Z.max (len + start) 0 else Z.min start len) in
  let e := as_usize (if stop <? 0 then Z.max (len + stop) (-1) else Z.min stop (len - 1)) in
  if (e <? s) || (len <=? s) then Some []
  else
    let lst := take (Z.to_nat (as_usize (e + 1))) lst in
    if zlen lst <? s then None else Some (drop (Z.to_nat s) lst).

Definition list_trim (now : Z) (s : Shard) (key : bytes) (start stop : Z)
    : option (Result unit * Shard) :=
  let s := expire_check now s key in
  match s !! key with
  | Some entry =>
      match value entry with
      | VList lst =>
          match trim lst start stop with
          | None => None
          | Some [] => Some (Ok tt, delete key s)
          | Some lst => Some (Ok tt, <[key := set_value entry (VList lst)]> s)
          end
      | _ => Some (Err, s)
      end
  | None => Some (Ok tt, s)
  end.

(** ** What they do to the visible cell *)

(** A list cell; an empty list is no cell. *)
Definition list_cell (l : list bytes) (ex : option Z) : option acell :=
  match l with [] => None | _ => Some (AList l, ex) end.

Definition pushed (left : bool) (values l : list bytes) : list bytes :=
  if left then rev values ++ l else l ++ values.

Definition spec_list_push (values : list bytes) (left : bool) (c : option acell)
    : Result Z * option acell :=
  match c with
  | Some (AList l, ex) =>
      (Ok (zlen l + zlen values), list_cell (pushed left values l) ex)
  | Some _ => (Err, c)
  | None => (Ok (zlen values), list_cell (pushed left values []) None)
  end.

Definition spec_list_push_x (values : list bytes) (left : bool) (c : option acell)
    : Result Z * option acell :=
  match c with
  | Some (AList l, ex) =>
      (Ok (zlen l + zlen values), list_cell (pushed left values l) ex)
  | Some _ => (Err, c)
  | None => (Ok 0, None)
  end.

Definition spec_list_pop (left : bool) (c : option acell)
    : Result (option bytes) * option acell :=
  match c with
  | Some (AList l, ex) =>
      if left then (Ok (head l), list_cell (tail l) ex)
      else (Ok (last l), list_cell (removelast l) ex)
  | Some _ => (Err, c)
  | None => (Ok None, None)
  end.

(** The elements from [start] to [stop], both counted from the end when negative. *)
Definition from_end (len i : Z) : Z := if i <? 0 then len + i else i.
Definition range_spec {A} (l : list A) (start stop : Z) : list A :=
  let s := Z.max 0 (from_end (zlen l) start) in
  let e := from_end (zlen l) stop in
  take (Z.to_nat (e + 1 - s)) (drop (Z.to_nat s) l).

Definition spec_list_range (start stop : Z) (c : option acell)
    : Result (list bytes) * option acell :=
  (match c with
   | Some (AList l, _) => Ok (range_spec l start stop)
   | Some _ => Err
   | None => Ok []
   end, c).

Definition spec_list_len (c : option acell) : Result Z * option acell :=
  (match c with
   | Some (AList l, _) => Ok (zlen l)
   | Some _ => Err
   | None => Ok 0
   end, c).

Definition index_spec {A} (l : list A) (index : Z) : option A :=
  let i := from_end (zlen l) index in
  if i <? 0 then None else l !! Z.to_nat i.

Definition spec_list_index (index : Z) (c : option acell)
    : Result (option bytes) * option acell :=
  (match c with
   | Some (AList l, _) => Ok (index_spec l index)
   | Some _ => Err
   | None => Ok None
   end, c).

Definition spec_list_set (index : Z) (v : bytes) (c : option acell)
    : Result unit * option acell :=
  match c with
  | Some (AList l, ex) =>
      match index_spec l index with
      | Some _ =>
          (Ok tt, Some (AList (<[Z.to_nat (from_end (zlen l) index) := v]> l), ex))
      | None => (Err, c)
      end
  | _ => (Err, c)
  end.

(** Insert next to the first occurrence of the pivot. *)
Fixpoint insert_near (before : bool) (pivot v : bytes) (l : list bytes)
    : option (list bytes) :=
  match l with
  | [] => None
  | x :: l' =>
      if bool_decide (x = pivot)
      then Some (if before then v :: x :: l' else x :: v :: l')
      else cons x <$> insert_near before pivot v l'
  end.

Definition spec_list_insert (before : bool) (pivot v : bytes) (c : option acell)
    : Result Z * option acell :=
  match c with
  | Some (AList l, ex) =>
      match insert_near before pivot v l with
      | Some l' => (Ok (zlen l + 1), Some (AList l', ex))
      | None => (Ok (-1), c)
      end
  | Some _ => (Err, c)
  | None => (Ok 0, None)
  end.

(** Remove the first [n] occurrences of [v]: how many went, and what is left. *)
Fixpoint remove_first (n : Z) (v : bytes) (l : list bytes) : Z * list bytes :=
  match l with
  | [] => (0, [])
  | x :: l' =>
      if n <=? 0 then (0, l)
      else if bool_decide (v = x)
      then let '(k, r) := remove_first (n - 1) v l' in (k + 1, r)
      else let '(k, r) := remove_first n v l' in (k, x :: r)
  end.

Definition rem_spec (count : Z) (v : bytes) (l : list bytes) : Z * list bytes :=
  if count =? 0 then remove_first (zlen l) v l
  else if 0 <? count then remove_first count v l
  else let '(k, r) := remove_first (wrap_i64 (- count)) v (rev l) in (k, rev r).

Definition spec_list_rem (count : Z) (v : bytes) (c : option acell)
    : Result Z * option acell :=
  match c with
  | Some (AList l, ex) =>
      let '(k, r) := rem_spec count v l in (Ok k, list_cell r ex)
  | Some _ => (Err, c)
  | None => (Ok 0, None)
  end.

Definition spec_list_trim (start stop : Z) (c : option acell)
    : Result unit * option acell :=
  match c with
  | Some (AList l, ex) => (Ok tt, list_cell (range_spec l start stop) ex)
  | Some _ => (Err, c)
  | None => (Ok tt, None)
  end.

(** The arguments on which LTRIM panics: [stop] resolves before the first element. *)
Definition trim_panics (start stop : Z) (c : option acell) : Prop :=
  match c with
  | Some (AList l, _) =>
      stop < 0 /\ zlen l + stop < 0 /\ 0 < from_end (zlen l) start < zlen l
  | _ => False
  end.

(** ** Lemmas: each routine computes its reference function *)

Lemma zlen_app {A} (l1 l2 : list A) : zlen (l1 ++ l2) = zlen l1 + zlen l2.
Proof. unfold zlen. rewrite length_app. lia. Qed.
Lemma zlen_cons {A} (x : A) l : zlen (x :: l) = zlen l + 1.
Proof. unfold zlen. simpl. lia. Qed.
Lemma zlen_nonneg {A} (l : list A) : 0 <= zlen l.
Proof. unfold zlen. lia. Qed.

Lemma push_values_spec left values l : push_values left values l = pushed left values l.
Proof.
  unfold push_values, pushed. destruct left; revert l;
    induction values as [|v values IH]; intros l; simpl.
  - done.
  - rewrite IH. by rewrite <- app_assoc.
  - by rewrite app_nil_r.
  - rewrite IH. by rewrite <- app_assoc.
Qed.

Lemma zlen_pushed left values l : zlen (pushed left values l) = zlen l + zlen values.
Proof.
  unfold pushed. destruct left; rewrite zlen_app; unfold zlen; rewrite ?length_rev; lia.
Qed.

Lemma pushed_nonempty left values l : values <> [] \/ l <> [] -> pushed left values l <> [].
Proof.
  unfold pushed. intros H Hn. apply (f_equal length) in Hn.
  assert (Hz : (length values = 0 /\ length l = 0)%nat).
  { destruct left; rewrite length_app, ?length_rev in Hn; simpl in Hn; lia. }
  destruct Hz as [Hv Hl]. apply length_zero_iff_nil in Hv, Hl. tauto.
Qed.

Lemma list_cell_nonempty l ex : l <> [] -> list_cell l ex = Some (AList l, ex).
Proof. by destruct l. Qed.

Lemma pop_back_removelast {A} (l : list A) : pop_back l = (last l, removelast l).
Proof. unfold pop_back. by rewrite removelast_firstn_len, Nat.sub_1_r. Qed.

Lemma slices_range_spec front back start_idx count :
  (start_idx + count <= length (front ++ back))%nat ->
  slices_range front back start_idx count = take count (drop start_idx (front ++ back)).
Proof.
  intros Hle. rewrite length_app in Hle. unfold slices_range, slice.
  destruct (Nat.ltb_spec start_idx (length front)).
  - rewrite drop_app_le by lia.
    replace (length (take (Nat.min (start_idx + count) (length front) - start_idx)
      (drop start_idx front))) with (Nat.min count (length front - start_idx))%nat
      by (rewrite length_take, length_drop; lia).
    destruct (Nat.ltb_spec (Nat.min count (length front - start_idx)) count).
    + rewrite take_app_ge by (rewrite length_drop; lia). rewrite length_drop. f_equal.
      * apply take_ge. rewrite length_drop. lia.
      * f_equal. lia.
    + rewrite take_app_le by (rewrite length_drop; lia). f_equal. lia.
  - rewrite drop_app_ge by lia. f_equal. lia.
Qed.

Lemma range_bounds_spec {A} (l : list A) start stop :
  match range_bounds (zlen l) start stop with
  | None => range_spec l start stop = []
  | Some (s, e) => 0 <= s <= e /\ e < zlen l /\
      range_spec l start stop = take (Z.to_nat (e - s + 1)) (drop (Z.to_nat s) l)
  end.
Proof.
  unfold range_bounds, range_spec, from_end, zlen.
  destruct (Z.eqb_spec (Z.of_nat (length l)) 0) as [E|E].
  { destruct l; [|done]. by rewrite drop_nil, take_nil. }
  set (s := if start <? 0 then _ else start). set (e := if stop <? 0 then _ else stop).
  assert (Hs : (if s <? 0 then 0 else s) = Z.max 0 s)
    by (destruct (Z.ltb_spec s 0); lia).
  rewrite Hs. destruct (Z.ltb_spec e 0).
  { by replace (Z.to_nat (e + 1 - Z.max 0 s)) with 0%nat by lia. }
  destruct (Z.leb_spec (Z.of_nat (length l)) (Z.max 0 s)).
  { rewrite drop_ge by lia. apply take_nil. }
  destruct (Z.leb_spec (Z.of_nat (length l)) e).
  - rewrite (proj2 (Z.ltb_ge _ _)) by lia. split_and!; [lia|lia|lia|].
    rewrite !take_ge; [done|rewrite length_drop; lia|rewrite length_drop; lia].
  - destruct (Z.ltb_spec e (Z.max 0 s)).
    + by replace (Z.to_nat (e + 1 - Z.max 0 s)) with 0%nat by lia.
    + split_and!; [lia|lia|lia|]. f_equal. lia.
Qed.

Lemma list_range_value `{RustStd} l start stop :
  match range_bounds (zlen l) start stop with
  | None => []
  | Some (s, e) =>
      slices_range (take (vd_front_len l) l) (drop (vd_front_len l) l)
        (Z.to_nat s) (Z.to_nat (e - s + 1))
  end = range_spec l start stop.
Proof.
  pose proof (range_bounds_spec l start stop) as Hb.
  destruct (range_bounds _ _ _) as [[s e]|]; [|done]. destruct Hb as (? & He & ->).
  unfold zlen in He. rewrite slices_range_spec; rewrite take_drop; [done|lia].
Qed.

Lemma resolve_index_spec {A} (l : list A) index :
  match resolve_index (zlen l) index with
  | None => index_spec l index = None
  | Some i => index_spec l index = l !! i /\ is_Some (l !! i) /\
      i = Z.to_nat (from_end (zlen l) index)
  end.
Proof.
  unfold resolve_index, index_spec, from_end, zlen.
  set (i := if index <? 0 then _ else index).
  destruct (Z.ltb_spec i 0); simpl; [done|].
  destruct (Z.leb_spec (Z.of_nat (length l)) i).
  - apply lookup_ge_None. lia.
  - split_and!; [done| |done]. apply lookup_lt_is_Some. lia.
Qed.

Lemma insert_near_spec before pivot v l :
  insert_near before pivot v l =
    (fun i => insert_at (if before then i else S i) v l) <$> position (bytes_eqb pivot) l.
Proof.
  induction l as [|x l IH]; simpl; [done|]. unfold bytes_eqb at 1.
  rewrite (bool_decide_ext (x = pivot) (pivot = x)) by (split; congruence).
  case_bool_decide; simpl; [by destruct before|].
  rewrite IH. destruct (position _ l); simpl; [|done].
  by destruct before.
Qed.

Lemma zlen_insert_at {A} i (v : A) l : zlen (insert_at i v l) = zlen l + 1.
Proof.
  unfold insert_at. rewrite zlen_app, zlen_cons.
  rewrite <- (take_drop i l) at 3. rewrite zlen_app. lia.
Qed.

(** *** LREM *)

Lemma rem_front_spec fuel v count : forall pre post removed,
  (length post <= fuel)%nat ->
  rem_front fuel v count (pre ++ post) (length pre) removed =
    let '(k, r) := remove_first (count - removed) v post in (removed + k, pre ++ r).
Proof.
  induction fuel as [|fuel IH]; intros pre post removed Hf.
  { destruct post; [|simpl in Hf; lia]. simpl. by rewrite Z.add_0_r. }
  destruct post as [|x post]; cbn [rem_front remove_first].
  { rewrite app_nil_r, Nat.ltb_irrefl. simpl. by rewrite Z.add_0_r. }
  simpl in Hf. rewrite length_app. simpl length.
  rewrite (proj2 (Nat.ltb_lt _ _)) by lia. simpl.
  rewrite list_lookup_middle by done. unfold bytes_eqb.
  destruct (Z.ltb_spec removed count).
  2: { rewrite (proj2 (Z.leb_le _ _)) by lia. by rewrite Z.add_0_r. }
  rewrite (proj2 (Z.leb_gt _ _)) by lia. case_bool_decide.
  - rewrite delete_middle, IH by lia.
    replace (count - (removed + 1)) with (count - removed - 1) by lia.
    destruct (remove_first _ v post) as [k r]. f_equal. lia.
  - replace (pre ++ x :: post) with ((pre ++ [x]) ++ post) by (by rewrite <- app_assoc).
    replace (S (length pre)) with (length (pre ++ [x])) by (rewrite length_app; simpl; lia).
    rewrite IH by lia. destruct (remove_first _ v post) as [k r].
    by rewrite <- app_assoc.
Qed.

Lemma rem_back_spec v count : forall pre post removed,
  rem_back (length pre) v count (pre ++ post) removed =
    let '(k, r) := remove_first (wrap_i64 (- count) - removed) v (rev pre) in
    (removed + k, rev r ++ post).
Proof.
  induction pre as [|x pre IH] using rev_ind; intros post removed; simpl;
    [by rewrite Z.add_0_r|].
  rewrite length_app, Nat.add_1_r, rev_app_distr. cbn [rem_back rev app remove_first].
  destruct (Z.ltb_spec removed (wrap_i64 (- count))).
  2: { rewrite (proj2 (Z.leb_le _ _)) by lia. rewrite Z.add_0_r. simpl.
       by rewrite rev_involutive. }
  rewrite (proj2 (Z.leb_gt _ _)) by lia.
  rewrite <- app_assoc. cbn [app]. rewrite list_lookup_middle by done. unfold bytes_eqb.
  case_bool_decide; simpl.
  - rewrite delete_middle, IH.
    replace (wrap_i64 (- count) - (removed + 1)) with (wrap_i64 (- count) - removed - 1)
      by lia.
    destruct (remove_first _ v (rev pre)) as [k r]. f_equal. lia.
  - rewrite IH. destruct (remove_first _ v (rev pre)) as [k r]. simpl.
    by rewrite <- app_assoc.
Qed.

Lemma remove_first_all v l n : zlen l <= n ->
  remove_first n v l = (zlen (filter (fun x => bytes_eqb v x = true) l),
                        filter (fun x => bytes_eqb v x = false) l).
Proof.
  revert n. induction l as [|x l IH]; intros n Hn; [done|].
  rewrite zlen_cons in Hn. pose proof (zlen_nonneg l). cbn [remove_first].
  rewrite (proj2 (Z.leb_gt _ _)) by lia. rewrite !filter_cons. unfold bytes_eqb.
  case_bool_decide.
  - rewrite IH by lia. rewrite decide_True, decide_False by done. by rewrite zlen_cons.
  - rewrite IH by lia. by rewrite decide_False, decide_True by done.
Qed.

Lemma list_rem_value count v l :
  (if count =? 0 then (zlen (filter (fun x => bytes_eqb v x = true) l),
                       filter (fun x => bytes_eqb v x = false) l)
   else if 0 <? count then rem_front (length l) v count l 0 0
   else rem_back (length l) v count l 0) = rem_spec count v l.
Proof.
  unfold rem_spec. destruct (count =? 0); [by rewrite remove_first_all by lia|].
  destruct (0 <? count).
  - rewrite (rem_front_spec _ v count [] l 0) by lia. rewrite Z.sub_0_r.
    by destruct (remove_first count v l).
  - pose proof (rem_back_spec v count l [] 0) as H. rewrite app_nil_r, Z.sub_0_r in H. rewrite H.
    destruct (remove_first _ v (rev l)) as [k r]. by rewrite app_nil_r.
Qed.

(** *** LTRIM *)

Lemma as_usize_id z : 0 <= z < 2 ^ 64 -> as_usize z = z.
Proof. apply Z.mod_small. Qed.

(** Where LTRIM does not panic, it keeps the range; where it does, [stop] is before the
    first element and [start] is after it. *)
Lemma trim_spec l start stop : l <> [] -> zlen l < 2 ^ 63 -> in_i64 start ->
  match trim l start stop with
  | Some r => r = range_spec l start stop
  | None => True
  end /\
  (trim l start stop = None <->
     stop < 0 /\ zlen l + stop < 0 /\ 0 < from_end (zlen l) start < zlen l).
Proof.
  intros Hne Hlen Hst. assert (Hpos : 0 < zlen l) by (destruct l; [done|]; unfold zlen; simpl; lia).
  unfold trim. set (s0 := if start <? 0 then Z.max _ 0 else _).
  set (e0 := if stop <? 0 then Z.max _ (-1) else _).
  assert (Hs0 : start < 0 /\ s0 = Z.max (zlen l + start) 0 \/ 0 <= start /\ s0 = Z.min start (zlen l))
    by (unfold s0; destruct (Z.ltb_spec start 0); lia).
  assert (Hfs : start < 0 /\ from_end (zlen l) start = zlen l + start \/
                0 <= start /\ from_end (zlen l) start = start)
    by (unfold from_end; destruct (Z.ltb_spec start 0); lia).
  assert (He0 : stop < 0 /\ e0 = Z.max (zlen l + stop) (-1) \/ 0 <= stop /\ e0 = Z.min stop (zlen l - 1))
    by (unfold e0; destruct (Z.ltb_spec stop 0); lia).
  assert (Hfe : stop < 0 /\ from_end (zlen l) stop = zlen l + stop \/
                0 <= stop /\ from_end (zlen l) stop = stop)
    by (unfold from_end; destruct (Z.ltb_spec stop 0); lia).
  clearbody s0 e0. unfold_ints. rewrite (as_usize_id s0) by lia.
  assert (Hrange : range_spec l start stop =
    take (Z.to_nat (e0 + 1 - s0)) (drop (Z.to_nat s0) l)).
  { unfold range_spec. destruct (decide (zlen l <= s0)).
    { rewrite !drop_ge by (unfold zlen in *; lia). by rewrite !take_nil. }
    replace (Z.max 0 (from_end (zlen l) start)) with s0 by lia.
    destruct (decide (from_end (zlen l) stop < zlen l)); [f_equal; lia|].
    rewrite !take_ge; [done|rewrite length_drop; unfold zlen in *; lia|
      rewrite length_drop; unfold zlen in *; lia]. }
  rewrite Hrange. destruct (decide (e0 = -1)) as [->|Hne0].
  - change (as_usize (-1)) with (2 ^ 64 - 1). change (as_usize (2 ^ 64 - 1 + 1)) with 0.
    rewrite (proj2 (Z.ltb_ge _ _)) by lia. cbn [orb].
    replace (Z.to_nat (-1 + 1 - s0)) with 0%nat by lia. rewrite !take_0.
    destruct (Z.leb_spec (zlen l) s0); [split; [done|]; split; [done|lia]|].
    change (Z.to_nat 0) with 0%nat. rewrite ?take_0. change (zlen (A:=bytes) []) with 0.
    destruct (Z.ltb_spec 0 s0); [split; [done|]; split; [lia|done]|].
    rewrite drop_nil. split; [done|]. split; [done|lia].
  - rewrite (as_usize_id e0), as_usize_id by lia.
    destruct (Z.ltb_spec e0 s0); cbn [orb].
    { replace (Z.to_nat (e0 + 1 - s0)) with 0%nat by lia. split; [done|]. split; [done|lia]. }
    destruct (Z.leb_spec (zlen l) s0).
    { rewrite drop_ge by (unfold zlen in *; lia). rewrite take_nil. split; [done|]. split; [done|lia]. }
    assert (Hzt : zlen (take (Z.to_nat (e0 + 1)) l) = e0 + 1)
      by (unfold zlen in *; rewrite length_take; lia).
    rewrite Hzt, (proj2 (Z.ltb_ge _ _)) by lia. split; [|split; [done|lia]].
    rewrite skipn_firstn_comm. f_equal. lia.
Qed.

(** ** Refinement *)

Lemma shard_wf_list_cell l ex : list_cell l ex = None <-> l = [].
Proof. by destruct l. Qed.

Section Refine.
Context (now : Z) (s : Shard) (key : bytes) (Hwf : shard_wf s).

(** An operation that stores the list [l'], or removes the key when [l'] is empty. *)
Lemma refines_list_store {R} s1 (r : R) e l' spec :
  abs now s1 = abs now s -> same_but key s s1 -> shard_wf s1 -> live now e = true ->
  r = (spec (abs now s !! key)).1 ->
  (spec (abs now s !! key)).2 = list_cell l' (expires_at e) ->
  op_refines eq now key s
    (match l' with
     | [] => (r, delete key s1)
     | _ => (r, <[key := set_value e (VList l')]> s1)
     end) spec.
Proof.
  intros ??????. destruct l' as [|x l'].
  - by apply refines_delete.
  - by apply refines_insert.
Qed.

Lemma list_push_refines values left : values <> [] ->
  op_refines eq now key s (list_push now s key values left) (spec_list_push values left).
Proof.
  intros Hv. unfold list_push. op_start now s key Hwf; simpl; op_done;
    rewrite ?push_values_spec, ?zlen_pushed, ?list_cell_nonempty
      by (apply pushed_nonempty; auto); try done; apply pushed_nonempty; auto.
Qed.

Lemma list_push_x_refines values left :
  op_refines eq now key s (list_push_x now s key values left)
    (spec_list_push_x values left).
Proof.
  unfold list_push_x. op_start now s key Hwf; simpl; op_done;
    rewrite ?push_values_spec, ?zlen_pushed, ?list_cell_nonempty
      by (apply pushed_nonempty; auto); try done; apply pushed_nonempty; auto.
Qed.

Lemma list_pop_refines left :
  op_refines eq now key s (list_pop now s key left) (spec_list_pop left).
Proof.
  unfold list_pop. op_start now s key Hwf; simpl; try solve [op_done].
  destruct l as [|x l]; [done|]. destruct left.
  - apply (refines_list_store s1 _ (MkEntry _ ex)); auto; by rewrite Hcell.
  - rewrite pop_back_removelast.
    apply (refines_list_store s1 _ (MkEntry _ ex)); auto; by rewrite Hcell.
Qed.

Lemma list_range_refines `{RustStd} start stop :
  op_refines eq now key s (list_range now s key start stop) (spec_list_range start stop).
Proof.
  unfold list_range. op_start now s key Hwf; simpl; op_done.
  by rewrite list_range_value.
Qed.

Lemma list_len_refines : op_refines eq now key s (list_len now s key) spec_list_len.
Proof. unfold list_len. op_start now s key Hwf; simpl; op_done. Qed.

Lemma list_index_refines index :
  op_refines eq now key s (list_index now s key index) (spec_list_index index).
Proof.
  unfold list_index. op_start now s key Hwf; simpl; op_done.
  pose proof (resolve_index_spec l index) as Hr.
  destruct (resolve_index _ _); [by destruct Hr as [-> _]|by rewrite Hr].
Qed.

Lemma list_set_refines index v :
  op_refines eq now key s (list_set now s key index v) (spec_list_set index v).
Proof.
  unfold list_set. op_start now s key Hwf; simpl; try solve [op_done].
  pose proof (resolve_index_spec l index) as Hr.
  destruct (resolve_index _ _) as [i|].
  - destruct Hr as (Hi & [x Hx] & ->). op_done; rewrite ?Hi, ?Hx; try done.
    intros Hn%(f_equal length). rewrite length_insert in Hn. by destruct l.
  - op_done; by rewrite Hr.
Qed.

Lemma list_insert_refines before pivot v :
  op_refines eq now key s (list_insert now s key before pivot v)
    (spec_list_insert before pivot v).
Proof.
  unfold list_insert. op_start now s key Hwf; simpl; try solve [op_done].
  pose proof (insert_near_spec before pivot v l) as Hi.
  destruct (position _ l) as [i|]; simpl in Hi.
  - op_done; rewrite ?Hi, ?zlen_insert_at; try done.
    intros Hn%(f_equal zlen). rewrite zlen_insert_at in Hn.
    pose proof (zlen_nonneg l). change (zlen (A:=bytes) []) with 0 in Hn. lia.
  - op_done; by rewrite Hi.
Qed.

Lemma list_rem_refines count v :
  op_refines eq now key s (list_rem now s key count v) (spec_list_rem count v).
Proof.
  unfold list_rem. op_start now s key Hwf; simpl; try solve [op_done].
  rewrite list_rem_value. destruct (rem_spec count v l) as [k r] eqn:Hr.
  apply (refines_list_store s1 _ (MkEntry _ ex)); auto; rewrite Hcell; simpl;
    by rewrite Hr.
Qed.

Lemma list_trim_refines start stop :
  in_i64 start ->
  (forall l ex, abs now s !! key = Some (AList l, ex) -> zlen l < 2 ^ 63) ->
  match list_trim now s key start stop with
  | Some res => op_refines eq now key s res (spec_list_trim start stop)
  | None => True
  end /\
  (list_trim now s key start stop = None <-> trim_panics start stop (abs now s !! key)).
Proof.
  intros Hst Hlen. unfold list_trim.
  op_start now s key Hwf; simpl;
    try (rewrite Hcell; simpl; split; [op_done|split; [done|tauto]]).
  rewrite Hcell. unfold acell_of; simpl.
  destruct (trim_spec l start stop Hvwf (Hlen _ _ Hcell) Hst) as [Hr Hp].
  destruct (trim l start stop) as [r|] eqn:Ht.
  - split; [|rewrite <- Hp; by destruct r].
    assert (Hm : match r with
      | [] => Some (Ok tt, delete key s1)
      | _ => Some (Ok tt, <[key := set_value (MkEntry (VList l) ex) (VList r)]> s1)
      end = Some (match r with
      | [] => (Ok tt, delete key s1)
      | _ => (Ok tt, <[key := set_value (MkEntry (VList l) ex) (VList r)]> s1)
      end)) by (by destruct r).
    rewrite Hm. apply refines_list_store; auto; rewrite Hcell; [done|]. simpl.
    by rewrite Hr.
  - split; [done|]. rewrite <- Hp. done.
Qed.
End Refine.
