(* ===== verification/ShardHash.v ===== *)
(** * ShardHash: hash operations of a shard

    The H* commands of [src/muon_cache/store.rs].  Three variants of HSET exist side by
    side for their different argument types; the lemmas show they are one operation on the
    visible cell, although two of them overwrite an expired entry in place. *)
From S2P Require Import Prelude.
From S2P Require Import IntCodec.
From S2P Require Import Utf8.
From S2P Require Import HashStore.
From S2P Require Import Shard.
From S2P Require Import ShardList.

(** ** Operations *)

(** [entry.expires_at.map_or(false, |ts| ts <= now_ms())]. *)
Definition entry_expired (now : Z) (entry : Entry) : bool :=
  match expires_at entry with Some ts => ts <=? now | None => false end.

Definition hash_set (now : Z) (s : Shard) (key field v : bytes) : Result bool * Shard :=
  match s !! key with
  | Some entry =>
      if entry_expired now entry
      then (Ok true, <[key := MkEntry (VHash (with_single field v)) None]> s)
      else
        match value entry with
        | VHash hs =>
            let '(old, hs) := HashStore.insert hs field v in
            (Ok (match old with Some _ => false | None => true end),
             <[key := set_value entry (VHash hs)]> s)
        | _ => (Err, s)
        end
  | None => (Ok true, <[key := MkEntry (VHash (with_single field v)) None]> s)
  end.

Definition hash_set_ref (now : Z) (s : Shard) (key field v : bytes) : Result bool * Shard :=
  match s !! key with
  | Some entry =>
      if entry_expired now entry
      then (Ok true, <[key := MkEntry (VHash (with_single field v)) None]> s)
      else
        match value entry with
        | VHash hs =>
            match HashStore.get hs field with
            | Some _ =>
                (Ok false,
                 <[key := set_value entry (VHash (HashStore.update hs field v))]> s)
            | None =>
                (Ok true,
                 <[key := set_value entry (VHash (HashStore.insert hs field v).2)]> s)
            end
        | _ => (Err, s)
        end
  | None => (Ok true, <[key := MkEntry (VHash (with_single field v)) None]> s)
  end.

Definition hash_set_bytes (now : Z) (s : Shard) (key field v : bytes)
    : Result bool * Shard :=
  match s !! key with
  | Some entry =>
      if entry_expired now entry
      then (Ok true, <[key := MkEntry (VHash (with_single field v)) None]> s)
      else
        match value entry with
        | VHash hs =>
            let '(old, hs) := HashStore.insert hs field v in
            (Ok (match old with Some _ => false | None => true end),
             <[key := set_value entry (VHash hs)]> s)
        | _ => (Err, s)
        end
  | None => (Ok true, <[key := MkEntry (VHash (with_single field v)) None]> s)
  end.

Definition hash_get (now : Z) (s : Shard) (key field : bytes)
    : Result (option bytes) * Shard :=
  let s := expire_check now s key in
  match value <$> s !! key with
  | Some (VHash hs) => (Ok (HashStore.get hs field), s)
  | Some _ => (Err, s)
  | None => (Ok None, s)
  end.

(** The loop over the fields, with its counter. *)
Fixpoint hash_del_loop (fields : list bytes) (hs : HashStore) (removed : Z)
    : Z * HashStore :=
  match fields with
  | [] => (removed, hs)
  | field :: fields' =>
      let '(old, hs) := HashStore.remove hs field in
      hash_del_loop fields' hs (match old with Some _ => removed + 1 | None => removed end)
  end.

Definition hash_del (now : Z) (s : Shard) (key : bytes) (fields : list bytes)
    : Result Z * Shard :=
  let s := expire_check now s key in
  match s !! key with
  | Some entry =>
      match value entry with
      | VHash hs =>
          let '(removed, hs) := hash_del_loop fields hs 0 in
          if (HashStore.len hs =? 0)%nat then (Ok removed, delete key s)
          else (Ok removed, <[key := set_value entry (VHash hs)]> s)
      | _ => (Err, s)
      end
  | None => (Ok 0, s)
  end.

Definition hash_len (now : Z) (s : Shard) (key : bytes) : Result Z * Shard :=
  let s := expire_check now s key in
  match value <$> s !! key with
  | Some (VHash hs) => (Ok (Z.of_nat (HashStore.len hs)), s)
  | Some _ => (Err, s)
  | None => (Ok 0, s)
  end.

Definition hash_exists (now : Z) (s : Shard) (key field : bytes) : Result bool * Shard :=
  let s := expire_check now s key in
  match value <$> s !! key with
  | Some (VHash hs) => (Ok (HashStore.contains_key hs field), s)
  | Some _ => (Err, s)
  | None => (Ok false, s)
  end.

Definition hash_getall `{RustStd} (now : Z) (s : Shard) (key : bytes)
    : Result (list (bytes * bytes)) * Shard :=
  let s := expire_check now s key in
  match value <$> s !! key with
  | Some (VHash hs) => (Ok (HashStore.iter hs), s)
  | Some _ => (Err, s)
  | None => (Ok [], s)
  end.

Definition hash_incr_by (now : Z) (s : Shard) (key field : bytes) (delta : Z)
    : Result Z * Shard :=
  let s := expire_check now s key in
  match s !! key with
  | Some entry =>
      match value entry with
      | VHash hs =>
          let current :=
            match HashStore.get hs field with
            | Some val =>
                match from_utf8 val with
                | Some txt => i64_from_str txt
                | None => None
                end
            | None => Some 0
            end in
          match current with
          | None => (Err, s)
          | Some current =>
              let new_val := wrapping_add_i64 current delta in
              (Ok new_val,
               <[key := set_value entry
                   (VHash (HashStore.insert hs field (int_to_string new_val)).2)]> s)
          end
      | _ => (Err, s)
      end
  | None =>
      (Ok delta, <[key := MkEntry (VHash (with_single field (int_to_string delta))) None]> s)
  end.

Definition hash_set_nx (now : Z) (s : Shard) (key field v : bytes) : Result bool * Shard :=
  let s := expire_check now s key in
  match s !! key with
  | Some entry =>
      match value entry with
      | VHash hs =>
          if HashStore.contains_key hs field then (Ok false, s)
          else (Ok true, <[key := set_value entry (VHash (HashStore.insert hs field v).2)]> s)
      | _ => (Err, s)
      end
  | None => (Ok true, <[key := MkEntry (VHash (with_single field v)) None]> s)
  end.

(** ** What they do to the visible cell *)

Definition hash_cell (m : gmap bytes bytes) (ex : option Z) : option acell :=
  if bool_decide (m = ∅) then None else Some (AHash m, ex).

Definition spec_hash_set (field v : bytes) (c : option acell)
    : Result bool * option acell :=
  match c with
  | Some (AHash m, ex) =>
      (Ok (bool_decide (m !! field = None)), Some (AHash (<[field := v]> m), ex))
  | Some _ => (Err, c)
  | None => (Ok true, Some (AHash {[field := v]}, None))
  end.

Definition spec_hash_get (field : bytes) (c : option acell)
    : Result (option bytes) * option acell :=
  (match c with
   | Some (AHash m, _) => Ok (m !! field)
   | Some _ => Err
   | None => Ok None
   end, c).

Definition spec_hash_del (fields : list bytes) (c : option acell)
    : Result Z * option acell :=
  match c with
  | Some (AHash m, ex) =>
      let m' := delete_all fields m in (Ok (shrunk m m'), hash_cell m' ex)
  | Some _ => (Err, c)
  | None => (Ok 0, None)
  end.

Definition spec_hash_len (c : option acell) : Result Z * option acell :=
  (match c with
   | Some (AHash m, _) => Ok (Z.of_nat (size m))
   | Some _ => Err
   | None => Ok 0
   end, c).

Definition spec_hash_exists (field : bytes) (c : option acell)
    : Result bool * option acell :=
  (match c with
   | Some (AHash m, _) => Ok (bool_decide (is_Some (m !! field)))
   | Some _ => Err
   | None => Ok false
   end, c).

(** The fields in some order. *)
Definition spec_hash_getall (c : option acell)
    : Result (list (bytes * bytes)) * option acell :=
  (match c with
   | Some (AHash m, _) => Ok (map_to_list m)
   | Some _ => Err
   | None => Ok []
   end, c).

Definition spec_hash_incr_by (field : bytes) (delta : Z) (c : option acell)
    : Result Z * option acell :=
  match c with
  | Some (AHash m, ex) =>
      match match m !! field with Some val => i64_from_str val | None => Some 0 end with
      | Some n =>
          let v := wrapping_add_i64 n delta in
          (Ok v, Some (AHash (<[field := int_to_string v]> m), ex))
      | None => (Err, c)
      end
  | Some _ => (Err, c)
  | None => (Ok delta, Some (AHash {[field := int_to_string delta]}, None))
  end.

Definition spec_hash_set_nx (field v : bytes) (c : option acell)
    : Result bool * option acell :=
  match c with
  | Some (AHash m, ex) =>
      match m !! field with
      | Some _ => (Ok false, c)
      | None => (Ok true, Some (AHash (<[field := v]> m), ex))
      end
  | Some _ => (Err, c)
  | None => (Ok true, Some (AHash {[field := v]}, None))
  end.

(** Equal answers, up to the order of a listing. *)
Definition result_perm {A} (r1 r2 : Result (list A)) : Prop :=
  match r1, r2 with
  | Ok l1, Ok l2 => l1 ≡ₚ l2
  | Err, Err => True
  | _, _ => False
  end.
Lemma result_perm_refl {A} (r : Result (list A)) : result_perm r r.
Proof. unfold result_perm. by destruct r. Qed.
#[export] Hint Resolve result_perm_refl : muon.

(** ** Lemmas *)

Lemma i64_from_str_ascii l n : i64_from_str l = Some n -> utf8_valid l = true.
Proof.
  intros H. apply utf8_valid_ascii. unfold i64_from_str in H.
  destruct (signed_dec true l) as [v|] eqn:Hs; [clear H|done].
  assert (Hd : forall ds v, digits_value ds = Some v -> Forall (fun b => 0 <= b < 128) ds).
  { intros ds w. unfold digits_value. destruct ds; [done|].
    destruct (forallb _ _) eqn:E; [|done]. intros _. apply forallb_digits in E.
    eapply Forall_impl; [exact E|]. simpl. lia. }
  unfold signed_dec in Hs. destruct l as [|b l]; [done|].
  destruct (Z.eqb_spec b c_minus) as [->|].
  { apply fmap_Some in Hs as (w & Hw & _). constructor; [lia|by eapply Hd]. }
  destruct (Z.eqb_spec b c_plus) as [->|]; simpl in Hs.
  { constructor; [lia|by eapply Hd]. }
  by eapply Hd.
Qed.

Lemma incr_current m_field :
  match m_field with
  | Some val => match from_utf8 val with Some txt => i64_from_str txt | None => None end
  | None => Some 0
  end = match m_field with Some val => i64_from_str val | None => Some 0 end.
Proof.
  destruct m_field as [val|]; [|done]. unfold from_utf8.
  destruct (utf8_valid val) eqn:Hv; [done|].
  destruct (i64_from_str val) eqn:Hi; [|done]. apply i64_from_str_ascii in Hi. congruence.
Qed.

Lemma hash_del_loop_spec fields : forall hs removed, hs_wf hs ->
  let r := hash_del_loop fields hs removed in
  r.1 = removed + shrunk (hs_map hs) (delete_all fields (hs_map hs)) /\
  hs_map r.2 = delete_all fields (hs_map hs) /\ hs_wf r.2.
Proof.
  induction fields as [|f fields IH]; intros hs removed Hwf; cbn zeta.
  - simpl. split_and!; [unfold shrunk; lia|done|done].
  - cbn [hash_del_loop]. destruct (remove_map hs f Hwf) as (H1 & H2 & H3).
    destruct (HashStore.remove hs f) as [old hs']; simpl in *.
    destruct (IH hs' (match old with Some _ => removed + 1 | None => removed end) H3)
      as (H4 & H5 & H6).
    change (delete_all (f :: fields) (hs_map hs)) with
      (delete_all fields (delete f (hs_map hs))).
    rewrite H2 in H4, H5. split_and!; [|done|done]. rewrite H4.
    unfold shrunk. rewrite size_delete_Z. subst old.
    destruct (hs_map hs !! f); simpl; lia.
Qed.

Lemma hs_map_len0 hs : hs_wf hs ->
  (HashStore.len hs =? 0)%nat = bool_decide (hs_map hs = ∅).
Proof.
  intros H. rewrite len_map by done. case_bool_decide as E.
  - by rewrite E.
  - apply Nat.eqb_neq. by rewrite map_size_empty_iff.
Qed.

Lemma insert_non_empty' (m : gmap bytes bytes) k v : <[k := v]> m <> ∅.
Proof. apply insert_non_empty. Qed.
#[export] Hint Resolve insert_non_empty' : muon.

Lemma insert_value_wf hs field v : hs_wf hs -> value_wf (VHash (HashStore.insert hs field v).2).
Proof.
  intros H. destruct (insert_map hs field v H) as (_ & E & Hw). simpl. rewrite E.
  auto with muon.
Qed.

Lemma single_value_wf field v : value_wf (VHash (with_single field v)).
Proof. split; [apply with_single_wf|]. simpl. apply insert_non_empty'. Qed.

#[export] Hint Resolve insert_value_wf single_value_wf : muon.

Lemma hs_map_single field v : hs_map (with_single field v) = {[field := v]}.
Proof. done. Qed.

(** ** Refinement *)

(** Overwriting an expired entry in place is removing it first. *)
Lemma inline_expiry {R : Type} (now : Z) (s : Shard) (key : bytes) (r : R) (e0 : Entry)
    (K : Entry -> Shard -> R * Shard) :
  match s !! key with
  | Some e => if entry_expired now e then (r, <[key := e0]> s) else K e s
  | None => (r, <[key := e0]> s)
  end =
  let s := expire_check now s key in
  match s !! key with Some e => K e s | None => (r, <[key := e0]> s) end.
Proof.
  unfold expire_check, is_expired, entry_expired. cbn zeta.
  destruct (s !! key) as [e|] eqn:Hk; [|by rewrite Hk].
  destruct (expires_at e) as [ts|]; [|by rewrite Hk].
  destruct (ts <=? now); [|by rewrite Hk]. simpl. by rewrite lookup_delete_eq, insert_delete_eq.
Qed.

Section Refine.
Context (now : Z) (s : Shard) (key : bytes) (Hwf : shard_wf s).

Lemma hash_set_refines field v :
  op_refines eq now key s (hash_set now s key field v) (spec_hash_set field v).
Proof.
  unfold hash_set. rewrite (inline_expiry now s key (Ok true) _ (fun entry s =>
    match value entry with
    | VHash hs =>
        let '(old, hs) := HashStore.insert hs field v in
        (Ok (match old with Some _ => false | None => true end),
           <[key := set_value entry (VHash hs)]> s)
    | _ => (Err, s)
    end)).
  op_start now s key Hwf; simpl; try solve [op_done].
  destruct Hvwf as [Hv Hne]. destruct (insert_map hs field v Hv) as (H1 & H2 & H3).
  destruct (HashStore.insert hs field v) as [old hs']; simpl in *.
  op_done; unfold acell_of; simpl; rewrite ?H2; auto with muon.
  rewrite H1. by destruct (hs_map hs !! field).
Qed.

(** The other two variants of HSET: the same cell, by another route. *)
Lemma hash_set_bytes_eq field v :
  hash_set_bytes now s key field v = hash_set now s key field v.
Proof. done. Qed.

Lemma hash_set_ref_refines field v :
  op_refines eq now key s (hash_set_ref now s key field v) (spec_hash_set field v).
Proof.
  unfold hash_set_ref. rewrite (inline_expiry now s key (Ok true) _ (fun entry s =>
    match value entry with
    | VHash hs =>
        match HashStore.get hs field with
        | Some _ =>
            (Ok false, <[key := set_value entry (VHash (HashStore.update hs field v))]> s)
        | None =>
            (Ok true, <[key := set_value entry (VHash (HashStore.insert hs field v).2)]> s)
        end
    | _ => (Err, s)
    end)).
  op_start now s key Hwf; simpl; try solve [op_done].
  destruct Hvwf as [Hv Hne]. rewrite get_map by done.
  destruct (hs_map hs !! field) as [w|] eqn:Hf.
  - destruct (update_map hs field v w Hv Hf) as [Hu Hw].
    op_done; unfold acell_of; simpl; rewrite ?Hu, ?Hf; auto with muon.
  - destruct (insert_map hs field v Hv) as (_ & Hu & Hw).
    op_done; unfold acell_of; simpl; rewrite ?Hu, ?Hf; auto with muon.
Qed.

Lemma hash_get_refines field :
  op_refines eq now key s (hash_get now s key field) (spec_hash_get field).
Proof.
  unfold hash_get. op_start now s key Hwf; simpl; op_done. by rewrite get_map by apply Hvwf.
Qed.

Lemma hash_del_refines fields :
  op_refines eq now key s (hash_del now s key fields) (spec_hash_del fields).
Proof.
  unfold hash_del. op_start now s key Hwf; simpl; try solve [op_done].
  destruct (hash_del_loop_spec fields hs 0 (proj1 Hvwf)) as (H1 & H2 & H3).
  destruct (hash_del_loop fields hs 0) as [removed hs']; simpl in *.
  rewrite hs_map_len0, H2 by done. subst removed.
  unfold hash_cell. case_bool_decide as E; op_done; unfold hash_cell;
    rewrite ?bool_decide_true, ?bool_decide_false by done; try done.
  - by rewrite H2.
  - unfold acell_of. simpl. by rewrite H2.
Qed.

Lemma hash_len_refines : op_refines eq now key s (hash_len now s key) spec_hash_len.
Proof.
  unfold hash_len. op_start now s key Hwf; simpl; op_done. by rewrite len_map by apply Hvwf.
Qed.

Lemma hash_exists_refines field :
  op_refines eq now key s (hash_exists now s key field) (spec_hash_exists field).
Proof.
  unfold hash_exists. op_start now s key Hwf; simpl; op_done.
  by rewrite contains_key_map by apply Hvwf.
Qed.

Lemma hash_getall_refines `{RustStd} :
  op_refines result_perm now key s (hash_getall now s key) spec_hash_getall.
Proof.
  unfold hash_getall. op_start now s key Hwf; simpl; op_done.
  apply iter_map, Hvwf.
Qed.

Lemma hash_incr_by_refines field delta :
  op_refines eq now key s (hash_incr_by now s key field delta)
    (spec_hash_incr_by field delta).
Proof.
  unfold hash_incr_by. op_start now s key Hwf; simpl; try solve [op_done].
  destruct Hvwf as [Hv Hne]. rewrite incr_current, get_map by done.
  destruct (match hs_map hs !! field with Some val => _ | None => _ end) as [n|] eqn:Hn.
  - op_done; rewrite ?Hn; auto with muon.
    destruct (insert_map hs field (int_to_string (wrapping_add_i64 n delta)) Hv)
      as (_ & Hu & _). unfold acell_of. simpl. by rewrite Hu.
  - op_done; by rewrite Hn.
Qed.

Lemma hash_set_nx_refines field v :
  op_refines eq now key s (hash_set_nx now s key field v) (spec_hash_set_nx field v).
Proof.
  unfold hash_set_nx. op_start now s key Hwf; simpl; try solve [op_done].
  destruct Hvwf as [Hv Hne]. rewrite contains_key_map by done.
  destruct (hs_map hs !! field) as [w|] eqn:Hf.
  - rewrite bool_decide_true by eauto. op_done; by rewrite Hf.
  - rewrite bool_decide_false by (intros [? ?]; done).
    destruct (insert_map hs field v Hv) as (_ & Hu & Hw).
    op_done; unfold acell_of; simpl; rewrite ?Hf, ?Hu; auto with muon.
Qed.
End Refine.
