(* ===== verification/ShardSet.v ===== *)
(** * ShardSet: set operations of a shard

    The S* commands of [src/muon_cache/store.rs] that touch one key.  SMOVE, SUNION and
    SINTER, which touch several, are in Db. *)
From S2P Require Import Prelude.
From S2P Require Import HashStore.
From S2P Require Import Shard.
From S2P Require Import ShardList.
From S2P Require Import ShardHash.

(** ** Operations *)

(** [HashSet::insert] and [HashSet::remove]. *)
Definition hset_insert (X : gset bytes) (m : bytes) : bool * gset bytes :=
  (bool_decide (m ∉ X), X ∪ {[m]}).
Definition hset_remove (X : gset bytes) (m : bytes) : bool * gset bytes :=
  (bool_decide (m ∈ X), X ∖ {[m]}).

(** The counting loops over the members. *)
Fixpoint set_add_loop (members : list bytes) (set : gset bytes) (added : Z) : Z * gset bytes :=
  match members with
  | [] => (added, set)
  | m :: members' =>
      let '(b, set) := hset_insert set m in
      set_add_loop members' set (if b then added + 1 else added)
  end.

Fixpoint set_remove_loop (members : list bytes) (set : gset bytes) (removed : Z)
    : Z * gset bytes :=
  match members with
  | [] => (removed, set)
  | m :: members' =>
      let '(b, set) := hset_remove set m in
      set_remove_loop members' set (if b then removed + 1 else removed)
  end.

Definition set_add (now : Z) (s : Shard) (key : bytes) (members : list bytes)
    : Result Z * Shard :=
  let s := expire_check now s key in
  match s !! key with
  | Some entry =>
      match value entry with
      | VSet set =>
          let '(added, set) := set_add_loop members set 0 in
          (Ok added, <[key := set_value entry (VSet set)]> s)
      | _ => (Err, s)
      end
  | None =>
      let '(added, set) := set_add_loop members ∅ 0 in
      (Ok added, <[key := MkEntry (VSet set) None]> s)
  end.

Definition set_add_single_bytes (now : Z) (s : Shard) (key member : bytes)
    : Result Z * Shard :=
  let s := expire_check now s key in
  match s !! key with
  | Some entry =>
      match value entry with
      | VSet set =>
          if bool_decide (member ∈ set) then (Ok 0, s)
          else (Ok 1, <[key := set_value entry (VSet (hset_insert set member).2)]> s)
      | _ => (Err, s)
      end
  | None => (Ok 1, <[key := MkEntry (VSet (hset_insert ∅ member).2) None]> s)
  end.

Definition set_remove (now : Z) (s : Shard) (key : bytes) (members : list bytes)
    : Result Z * Shard :=
  let s := expire_check now s key in
  match s !! key with
  | Some entry =>
      match value entry with
      | VSet set =>
          let '(removed, set) := set_remove_loop members set 0 in
          if bool_decide (set = ∅) then (Ok removed, delete key s)
          else (Ok removed, <[key := set_value entry (VSet set)]> s)
      | _ => (Err, s)
      end
  | None => (Ok 0, s)
  end.

Definition set_members `{RustStd} (now : Z) (s : Shard) (key : bytes)
    : Result (list bytes) * Shard :=
  let s := expire_check now s key in
  match value <$> s !! key with
  | Some (VSet set) => (Ok (hset_iter set), s)
  | Some _ => (Err, s)
  | None => (Ok [], s)
  end.

Definition set_is_member (now : Z) (s : Shard) (key member : bytes) : Result bool * Shard :=
  let s := expire_check now s key in
  match value <$> s !! key with
  | Some (VSet set) => (Ok (bool_decide (member ∈ set)), s)
  | Some _ => (Err, s)
  | None => (Ok false, s)
  end.

Definition set_card (now : Z) (s : Shard) (key : bytes) : Result Z * Shard :=
  let s := expire_check now s key in
  match value <$> s !! key with
  | Some (VSet set) => (Ok (Z.of_nat (size set)), s)
  | Some _ => (Err, s)
  | None => (Ok 0, s)
  end.

(** ** What they do to the visible cell *)

Definition zsize (X : gset bytes) : Z := Z.of_nat (size X).
Definition set_cell (X : gset bytes) (ex : option Z) : option acell :=
  if bool_decide (X = ∅) then None else Some (ASet X, ex).

Definition spec_set_add (members : list bytes) (c : option acell)
    : Result Z * option acell :=
  match c with
  | Some (ASet X, ex) =>
      let X' := X ∪ list_to_set members in (Ok (zsize X' - zsize X), Some (ASet X', ex))
  | Some _ => (Err, c)
  | None =>
      let X' := list_to_set members in (Ok (zsize X'), Some (ASet X', None))
  end.

Definition spec_set_remove (members : list bytes) (c : option acell)
    : Result Z * option acell :=
  match c with
  | Some (ASet X, ex) =>
      let X' := X ∖ list_to_set members in (Ok (zsize X - zsize X'), set_cell X' ex)
  | Some _ => (Err, c)
  | None => (Ok 0, None)
  end.

Definition spec_set_members (c : option acell) : Result (list bytes) * option acell :=
  (match c with
   | Some (ASet X, _) => Ok (elements X)
   | Some _ => Err
   | None => Ok []
   end, c).

Definition spec_set_is_member (member : bytes) (c : option acell)
    : Result bool * option acell :=
  (match c with
   | Some (ASet X, _) => Ok (bool_decide (member ∈ X))
   | Some _ => Err
   | None => Ok false
   end, c).

Definition spec_set_card (c : option acell) : Result Z * option acell :=
  (match c with
   | Some (ASet X, _) => Ok (zsize X)
   | Some _ => Err
   | None => Ok 0
   end, c).

(** ** Lemmas *)

Lemma zsize_add X m : zsize (X ∪ {[m]}) = zsize X + (if bool_decide (m ∉ X) then 1 else 0).
Proof.
  unfold zsize. case_bool_decide as E.
  - rewrite size_union by set_solver. rewrite size_singleton. lia.
  - assert (X ∪ {[m]} = X) as -> by set_solver. lia.
Qed.

Lemma zsize_remove X m : zsize (X ∖ {[m]}) = zsize X - (if bool_decide (m ∈ X) then 1 else 0).
Proof.
  unfold zsize. case_bool_decide as E.
  - rewrite size_difference by set_solver. rewrite size_singleton.
    assert (size X <> 0)%nat by (intros H0%size_empty_inv; set_solver). lia.
  - assert (X ∖ {[m]} = X) as -> by set_solver. lia.
Qed.

Lemma set_add_loop_spec members : forall X added,
  set_add_loop members X added =
    (added + (zsize (X ∪ list_to_set members) - zsize X), X ∪ list_to_set members).
Proof.
  induction members as [|m members IH]; intros X added; simpl.
  - rewrite (right_id_L ∅ (∪)). f_equal. lia.
  - rewrite IH, zsize_add, (assoc_L (∪)). f_equal. case_bool_decide; lia.
Qed.

Lemma set_remove_loop_spec members : forall X removed,
  set_remove_loop members X removed =
    (removed + (zsize X - zsize (X ∖ list_to_set members)), X ∖ list_to_set members).
Proof.
  induction members as [|m members IH]; intros X removed; simpl.
  - rewrite difference_empty_L. f_equal. lia.
  - rewrite IH. rewrite difference_difference_l_L, zsize_remove. f_equal.
    case_bool_decide; lia.
Qed.

Lemma list_to_set_non_empty (ms : list bytes) :
  ms <> [] -> (list_to_set ms : gset bytes) <> ∅.
Proof. destruct ms; [done|]. simpl. set_solver. Qed.

(** ** Refinement *)

Section Refine.
Context (now : Z) (s : Shard) (key : bytes) (Hwf : shard_wf s).

Lemma set_add_refines members : members <> [] ->
  op_refines eq now key s (set_add now s key members) (spec_set_add members).
Proof.
  intros Hm%list_to_set_non_empty. unfold set_add.
  op_start now s key Hwf; simpl; rewrite ?set_add_loop_spec; op_done;
    rewrite ?(left_id_L ∅ (∪)); simpl; auto; try set_solver.
  f_equal. change (zsize ∅) with 0. lia.
Qed.

Lemma set_add_single_bytes_refines member :
  op_refines eq now key s (set_add_single_bytes now s key member)
    (spec_set_add [member]).
Proof.
  unfold set_add_single_bytes. op_start now s key Hwf; simpl; try solve [op_done].
  - case_bool_decide as E.
    + op_done; rewrite (right_id_L ∅ (∪)); [f_equal; rewrite zsize_add|];
        rewrite ?bool_decide_false by set_solver; try lia.
      by assert (X ∪ {[member]} = X) as -> by set_solver.
    + op_done; rewrite ?(right_id_L ∅ (∪)); [set_solver|f_equal; rewrite zsize_add|done].
      rewrite bool_decide_true by set_solver. lia.
  - op_done; rewrite ?(left_id_L ∅ (∪)), ?(right_id_L ∅ (∪)); try done; try set_solver.
    unfold zsize. by rewrite size_singleton.
Qed.

Lemma set_remove_refines members :
  op_refines eq now key s (set_remove now s key members) (spec_set_remove members).
Proof.
  unfold set_remove. op_start now s key Hwf; simpl; try solve [op_done].
  rewrite set_remove_loop_spec.
  case_bool_decide as E; op_done; unfold set_cell;
    rewrite ?bool_decide_true, ?bool_decide_false by done; done.
Qed.

Lemma set_members_refines `{RustStd} :
  op_refines result_perm now key s (set_members now s key) spec_set_members.
Proof. unfold set_members. op_start now s key Hwf; simpl; op_done. apply hset_iter_perm. Qed.

Lemma set_is_member_refines member :
  op_refines eq now key s (set_is_member now s key member) (spec_set_is_member member).
Proof. unfold set_is_member. op_start now s key Hwf; simpl; op_done. Qed.

Lemma set_card_refines : op_refines eq now key s (set_card now s key) spec_set_card.
Proof. unfold set_card. op_start now s key Hwf; simpl; op_done. Qed.
End Refine.
