(* ===== verification/ShardZset.v ===== *)
(** * ShardZset: sorted-set and stream operations of a shard

    ZADD, ZREM, ZCARD and ZRANGE, and the X* commands, of [src/muon_cache/store.rs].
    Scores are binary64 numbers; ZRANGE sorts the entries of a hash map with the standard
    library's stable [sort_by] and a comparison that calls unordered scores equal.  Where
    no score is NaN the comparison is a total order on the members, so the listing does not
    depend on the map's iteration order. *)
From Stdlib Require Import SpecFloat.
From S2P Require Import Prelude.
From S2P Require Import IntCodec.
From S2P Require Import HashStore.
From S2P Require Import Shard.
From S2P Require Import ShardList.
From S2P Require Import ShardHash.

(** ** [slice::sort_by] *)

(** A stable sort; [leb x y] is [compare(x, y) != Greater]. *)
Section SortBy.
Context {A : Type} (leb : A -> A -> bool).

Fixpoint insert_by (x : A) (l : list A) : list A :=
  match l with
  | [] => [x]
  | y :: l' => if leb x y then x :: l else y :: insert_by x l'
  end.
Definition sort_by (l : list A) : list A := foldr insert_by [] l.

Lemma insert_by_perm x l : insert_by x l ≡ₚ x :: l.
Proof.
  induction l as [|y l IH]; simpl; [done|]. destruct (leb x y); [done|].
  rewrite IH. apply Permutation_swap.
Qed.

Lemma sort_by_perm l : sort_by l ≡ₚ l.
Proof. induction l as [|x l IH]; simpl; [done|]. by rewrite insert_by_perm, IH. Qed.

(** [leb] need only be total and transitive on the elements that satisfy [P]. *)
Context (P : A -> Prop)
  (total : forall x y, P x -> P y -> leb x y = false -> leb y x = true)
  (trans : forall x y z, P x -> P y -> P z ->
    leb x y = true -> leb y z = true -> leb x z = true).

Lemma insert_by_sorted x l : P x -> Forall P l ->
  StronglySorted (fun x y => leb x y = true) l ->
  StronglySorted (fun x y => leb x y = true) (insert_by x l).
Proof.
  intros Hx Hl Hs. induction Hs as [|y l Hs IH Hy]; simpl; [repeat constructor|].
  apply Forall_cons in Hl as [Py Hl]. destruct (leb x y) eqn:E.
  - constructor; [by constructor|]. constructor; [done|].
    rewrite Forall_forall in Hy, Hl |- *. eauto.
  - constructor; [by apply IH|]. rewrite insert_by_perm. constructor; [by apply total|done].
Qed.

Lemma sort_by_sorted l : Forall P l -> StronglySorted (fun x y => leb x y = true) (sort_by l).
Proof.
  induction 1 as [|x l Hx Hl IH]; simpl; [constructor|].
  apply insert_by_sorted; [done| |done]. by rewrite sort_by_perm.
Qed.
End SortBy.

(** ** Operations on sorted sets *)

(** [a.1.partial_cmp(&b.1).unwrap_or(Equal).then_with(|| a.0.cmp(&b.0)) != Greater]. *)
Definition zentry_leb (a b : bytes * f64) : bool :=
  match default Eq (SFcompare a.2 b.2) with
  | Lt => true
  | Gt => false
  | Eq => bytes_leb a.1 b.1
  end.

Definition zadd (now : Z) (s : Shard) (key : bytes) (score : f64) (member : bytes)
    : Result bool * Shard :=
  let s := expire_check now s key in
  match s !! key with
  | Some entry =>
      match value entry with
      | VZSet items =>
          (Ok (match items !! member with Some _ => false | None => true end),
           <[key := set_value entry (VZSet (<[member := score]> items))]> s)
      | _ => (Err, s)
      end
  | None => (Ok true, <[key := MkEntry (VZSet (<[member := score]> ∅)) None]> s)
  end.

Fixpoint zrem_loop (members : list bytes) (items : gmap bytes f64) (removed : Z)
    : Z * gmap bytes f64 :=
  match members with
  | [] => (removed, items)
  | m :: members' =>
      zrem_loop members' (delete m items)
        (match items !! m with Some _ => removed + 1 | None => removed end)
  end.

Definition zrem (now : Z) (s : Shard) (key : bytes) (members : list bytes)
    : Result Z * Shard :=
  let s := expire_check now s key in
  match s !! key with
  | Some entry =>
      match value entry with
      | VZSet items =>
          let '(removed, items) := zrem_loop members items 0 in
          if bool_decide (items = ∅) then (Ok removed, delete key s)
          else (Ok removed, <[key := set_value entry (VZSet items)]> s)
      | _ => (Err, s)
      end
  | None => (Ok 0, s)
  end.

Definition zcard (now : Z) (s : Shard) (key : bytes) : Result Z * Shard :=
  let s := expire_check now s key in
  match value <$> s !! key with
  | Some (VZSet items) => (Ok (Z.of_nat (size items)), s)
  | Some _ => (Err, s)
  | None => (Ok 0, s)
  end.

Definition zrange `{RustStd} (now : Z) (s : Shard) (key : bytes) (start stop : Z)
    : Result (list bytes) * Shard :=
  let s := expire_check now s key in
  match value <$> s !! key with
  | Some (VZSet items) =>
      let sorted := sort_by zentry_leb (hm_iter items) in
      (Ok match range_bounds (zlen sorted) start stop with
          | None => []
          | Some (s, e) =>
              omap (fun i => fst <$> sorted !! i) (seq (Z.to_nat s) (Z.to_nat (e - s + 1)))
          end, s)
  | Some _ => (Err, s)
  | None => (Ok [], s)
  end.

(** ** Operations on streams *)

Definition stream_id (n : nat) : bytes := int_to_string (Z.of_nat n) ++ b! "-0".

Definition stream_add (now : Z) (s : Shard) (key id : bytes) (fields : list (bytes * bytes))
    : Result bytes * Shard :=
  let s := expire_check now s key in
  if negb (bool_decide (id = b! "*")) then (Err, s)
  else
    match s !! key with
    | Some entry =>
        match value entry with
        | VStream items =>
            let next_id := stream_id (length items + 1) in
            (Ok next_id, <[key := set_value entry (VStream (items ++ [(next_id, fields)]))]> s)
        | _ => (Err, s)
        end
    | None =>
        (Ok (b! "1-0"), <[key := MkEntry (VStream [(b! "1-0", fields)]) None]> s)
    end.

Definition stream_range (now : Z) (s : Shard) (key start end_ : bytes)
    : Result (list StreamItem) * Shard :=
  let s := expire_check now s key in
  match value <$> s !! key with
  | Some (VStream items) =>
      (Ok (if bool_decide (start = b! "-") && bool_decide (end_ = b! "+")
           then items else []), s)
  | Some _ => (Err, s)
  | None => (Ok [], s)
  end.

Definition stream_rev_range (now : Z) (s : Shard) (key start end_ : bytes)
    : Result (list StreamItem) * Shard :=
  let s := expire_check now s key in
  match value <$> s !! key with
  | Some (VStream items) =>
      (Ok (if bool_decide (start = b! "+") && bool_decide (end_ = b! "-")
           then rev items else []), s)
  | Some _ => (Err, s)
  | None => (Ok [], s)
  end.

Definition stream_len (now : Z) (s : Shard) (key : bytes) : Result Z * Shard :=
  let s := expire_check now s key in
  match value <$> s !! key with
  | Some (VStream items) => (Ok (zlen items), s)
  | Some _ => (Err, s)
  | None => (Ok 0, s)
  end.

Definition stream_del (now : Z) (s : Shard) (key : bytes) (ids : list bytes)
    : Result Z * Shard :=
  let s := expire_check now s key in
  match s !! key with
  | Some entry =>
      match value entry with
      | VStream items =>
          let before := zlen items in
          let items := filter (fun it => bool_decide (it.1 ∈ ids) = false) items in
          (Ok (before - zlen items), <[key := set_value entry (VStream items)]> s)
      | _ => (Err, s)
      end
  | None => (Ok 0, s)
  end.

(** ** What they do to the visible cell *)

Definition zset_cell (m : gmap bytes f64) (ex : option Z) : option acell :=
  if bool_decide (m = ∅) then None else Some (AZSet m, ex).

Definition spec_zadd (score : f64) (member : bytes) (c : option acell)
    : Result bool * option acell :=
  match c with
  | Some (AZSet m, ex) =>
      (Ok (bool_decide (m !! member = None)), Some (AZSet (<[member := score]> m), ex))
  | Some _ => (Err, c)
  | None => (Ok true, Some (AZSet {[member := score]}, None))
  end.

Definition spec_zrem (members : list bytes) (c : option acell) : Result Z * option acell :=
  match c with
  | Some (AZSet m, ex) =>
      let m' := delete_all members m in (Ok (shrunk m m'), zset_cell m' ex)
  | Some _ => (Err, c)
  | None => (Ok 0, None)
  end.

Definition spec_zcard (c : option acell) : Result Z * option acell :=
  (match c with
   | Some (AZSet m, _) => Ok (Z.of_nat (size m))
   | Some _ => Err
   | None => Ok 0
   end, c).

(** The members in order of score, then of name. *)
Definition zset_members (m : gmap bytes f64) : list bytes :=
  (sort_by zentry_leb (map_to_list m)).*1.

Definition spec_zrange (start stop : Z) (c : option acell)
    : Result (list bytes) * option acell :=
  (match c with
   | Some (AZSet m, _) => Ok (range_spec (zset_members m) start stop)
   | Some _ => Err
   | None => Ok []
   end, c).

Definition spec_stream_add (id : bytes) (fields : list (bytes * bytes)) (c : option acell)
    : Result bytes * option acell :=
  if bool_decide (id = b! "*") then
    match c with
    | Some (AStream l, ex) =>
        let next := stream_id (length l + 1) in
        (Ok next, Some (AStream (l ++ [(next, fields)]), ex))
    | Some _ => (Err, c)
    | None => (Ok (b! "1-0"), Some (AStream [(b! "1-0", fields)], None))
    end
  else (Err, c).

Definition spec_stream_list (l : list StreamItem -> list StreamItem) (c : option acell)
    : Result (list StreamItem) * option acell :=
  (match c with
   | Some (AStream items, _) => Ok (l items)
   | Some _ => Err
   | None => Ok []
   end, c).

(** Only the full range is answered; any other one is empty. *)
Definition whole_range (start end_ lo hi : bytes) (l : list StreamItem) : list StreamItem :=
  if bool_decide (start = lo) && bool_decide (end_ = hi) then l else [].
Definition spec_stream_range (start end_ : bytes) :=
  spec_stream_list (whole_range start end_ (b! "-") (b! "+")).
Definition spec_stream_rev_range (start end_ : bytes) :=
  spec_stream_list (fun l => whole_range start end_ (b! "+") (b! "-") (rev l)).

Definition spec_stream_len (c : option acell) : Result Z * option acell :=
  (match c with
   | Some (AStream l, _) => Ok (zlen l)
   | Some _ => Err
   | None => Ok 0
   end, c).

Definition spec_stream_del (ids : list bytes) (c : option acell)
    : Result Z * option acell :=
  match c with
  | Some (AStream l, ex) =>
      let l' := filter (fun it => it.1 ∉ ids) l in
      (Ok (zlen l - zlen l'), Some (AStream l', ex))
  | Some _ => (Err, c)
  | None => (Ok 0, None)
  end.

(** ** The order on scores *)

(** Scores other than NaN, embedded in triples compared lexicographically. *)
Definition score_key (x : f64) : Z * Z * Z :=
  match x with
  | S754_infinity true => (-2, 0, 0)
  | S754_finite true m e => (-1, - e, - Zpos m)
  | S754_zero _ | S754_nan => (0, 0, 0)
  | S754_finite false m e => (1, e, Zpos m)
  | S754_infinity false => (2, 0, 0)
  end.

Definition lex_lt (a b : Z * Z * Z) : Prop :=
  a.1.1 < b.1.1 \/ a.1.1 = b.1.1 /\ (a.1.2 < b.1.2 \/ a.1.2 = b.1.2 /\ a.2 < b.2).

Lemma SFcompare_key x y : x <> S754_nan -> y <> S754_nan ->
  match SFcompare x y with
  | Some Lt => lex_lt (score_key x) (score_key y)
  | Some Eq => score_key x = score_key y
  | Some Gt => lex_lt (score_key y) (score_key x)
  | None => False
  end.
Proof.
  unfold lex_lt.
  destruct x as [[]|[]| |[] mx ex], y as [[]|[]| |[] my ey]; intros ??; simpl; try done;
    try lia; destruct (Z.compare_spec ex ey); simpl; try lia;
    change (Pos.compare_cont Eq mx my) with (mx ?= my)%positive;
    destruct (Pos.compare_spec mx my); simpl; subst; try done; lia.
Qed.

Lemma bytes_le_antisym_eq a b : bytes_leb a b = true -> bytes_leb b a = true -> a = b.
Proof. apply bytes_le_antisym. Qed.

Definition not_nan (p : bytes * f64) : Prop := p.2 <> S754_nan.

(** [zentry_leb] read through the keys. *)
Lemma zentry_leb_spec a b : not_nan a -> not_nan b ->
  zentry_leb a b = true <->
  lex_lt (score_key a.2) (score_key b.2) \/
  score_key a.2 = score_key b.2 /\ bytes_leb a.1 b.1 = true.
Proof.
  intros Ha Hb. pose proof (SFcompare_key a.2 b.2 Ha Hb) as H. unfold zentry_leb.
  destruct (SFcompare a.2 b.2) as [[]|]; simpl; [| | |done].
  - split; [auto|]. unfold lex_lt in *. rewrite H. intros [|]; [lia|naive_solver].
  - split; [auto|done].
  - split; [done|]. unfold lex_lt in *. intros [|[E _]]; [lia|rewrite E in H; lia].
Qed.

Lemma lex_trichotomy x y : lex_lt x y \/ x = y \/ lex_lt y x.
Proof.
  destruct x as [[a1 a2] a3], y as [[b1 b2] b3]. unfold lex_lt. simpl.
  destruct (Z.lt_trichotomy a1 b1) as [|[->|]], (Z.lt_trichotomy a2 b2) as [|[->|]],
    (Z.lt_trichotomy a3 b3) as [|[->|]]; auto; lia.
Qed.

Lemma zentry_total a b : not_nan a -> not_nan b ->
  zentry_leb a b = false -> zentry_leb b a = true.
Proof.
  intros Ha Hb Hf. apply not_true_iff_false in Hf. rewrite zentry_leb_spec in Hf by done.
  apply zentry_leb_spec; [done|done|].
  destruct (lex_trichotomy (score_key a.2) (score_key b.2)) as [|[E|]]; [tauto| |tauto].
  right. split; [done|]. destruct (bytes_le_total a.1 b.1); [tauto|done].
Qed.

Lemma zentry_trans a b c : not_nan a -> not_nan b -> not_nan c ->
  zentry_leb a b = true -> zentry_leb b c = true -> zentry_leb a c = true.
Proof.
  intros Ha Hb Hc. rewrite !zentry_leb_spec by done. unfold lex_lt.
  destruct (score_key a.2) as [[??]?], (score_key b.2) as [[??]?],
    (score_key c.2) as [[??]?]; simpl.
  intros [H1|[E1 H1]] [H2|[E2 H2]]; simplify_eq; try (left; lia).
  right. split; [done|]. by eapply bytes_le_trans.
Qed.

Lemma zentry_antisym a b : not_nan a -> not_nan b ->
  zentry_leb a b = true -> zentry_leb b a = true -> a.1 = b.1.
Proof.
  intros Ha Hb. rewrite !zentry_leb_spec by done. unfold lex_lt.
  destruct (score_key a.2) as [[??]?], (score_key b.2) as [[??]?]; simpl.
  intros [H1|[E1 H1]] [H2|[E2 H2]]; simplify_eq; try lia. by apply bytes_le_antisym_eq.
Qed.

(** The sorted listing does not depend on the iteration order of the map. *)
Lemma zset_sort_unique (m : gmap bytes f64) l : map_Forall (fun _ x => x <> S754_nan) m ->
  l ≡ₚ map_to_list m -> sort_by zentry_leb l = sort_by zentry_leb (map_to_list m).
Proof.
  intros Hm Hl.
  assert (Hnn : Forall not_nan (map_to_list m)).
  { apply Forall_forall. intros [k x] Hin%elem_of_map_to_list. by apply (Hm k x). }
  apply (StronglySorted_unique_strong (fun x y => zentry_leb x y = true)).
  - intros [k1 x1] [k2 x2] H1 H2 Hle1 Hle2. rewrite sort_by_perm in H1, H2.
    rewrite Hl in H1. rewrite Forall_forall in Hnn.
    pose proof (zentry_antisym _ _ (Hnn _ H1) (Hnn _ H2) Hle1 Hle2) as E. simpl in E. subst.
    apply elem_of_map_to_list in H1, H2. by simplify_eq.
  - apply (sort_by_sorted zentry_leb not_nan zentry_total zentry_trans). by rewrite Hl.
  - by apply (sort_by_sorted zentry_leb not_nan zentry_total zentry_trans).
  - by rewrite !sort_by_perm.
Qed.

Lemma omap_seq {A} (l : list A) : forall n s,
  omap (fun i => l !! i) (seq s n) = take n (drop s l).
Proof.
  induction n as [|n IH]; intros s; [done|]. cbn [seq].
  change (omap (fun i => l !! i) (s :: seq (S s) n)) with
    (match l !! s with
     | Some y => y :: omap (fun i => l !! i) (seq (S s) n)
     | None => omap (fun i => l !! i) (seq (S s) n)
     end).
  rewrite IH. destruct (l !! s) as [x|] eqn:Hs.
  - by rewrite (drop_S _ _ _ Hs).
  - apply lookup_ge_None in Hs. rewrite !drop_ge by lia. by rewrite take_nil.
Qed.

Lemma zrange_value (sorted : list (bytes * f64)) start stop :
  match range_bounds (zlen sorted) start stop with
  | None => []
  | Some (s, e) =>
      omap (fun i => fst <$> sorted !! i) (seq (Z.to_nat s) (Z.to_nat (e - s + 1)))
  end = range_spec sorted.*1 start stop.
Proof.
  pose proof (range_bounds_spec sorted.*1 start stop) as H.
  assert (Hz : zlen sorted.*1 = zlen sorted) by (unfold zlen; by rewrite length_fmap).
  rewrite Hz in H. destruct (range_bounds _ _ _) as [[s e]|]; [|done].
  destruct H as (_ & _ & ->). rewrite <- omap_seq. apply list_omap_ext.
  apply Forall_Forall2_diag, Forall_true. intros i. by rewrite list_lookup_fmap.
Qed.

Lemma zrem_loop_spec members : forall m removed,
  zrem_loop members m removed =
    (removed + shrunk m (delete_all members m), delete_all members m).
Proof.
  induction members as [|k members IH]; intros m removed; simpl.
  - unfold shrunk. f_equal. simpl. lia.
  - rewrite IH. change (delete_all (k :: members) m) with (delete_all members (delete k m)).
    f_equal. unfold shrunk. rewrite size_delete_Z. destruct (m !! k); simpl; lia.
Qed.

(** ** Refinement *)

Section Refine.
Context (now : Z) (s : Shard) (key : bytes) (Hwf : shard_wf s).

Lemma zadd_refines score member : score <> S754_nan ->
  op_refines eq now key s (zadd now s key score member) (spec_zadd score member).
Proof.
  intros Hs. unfold zadd. op_start now s key Hwf; simpl; try solve [op_done].
  - op_done.
    + split; [apply insert_non_empty|]. by apply map_Forall_insert_2; [|apply Hvwf].
    + by destruct (m !! member).
  - op_done. split; [apply insert_non_empty|].
    apply map_Forall_insert_2; [done|apply map_Forall_empty].
Qed.

Lemma zrem_refines members :
  op_refines eq now key s (zrem now s key members) (spec_zrem members).
Proof.
  unfold zrem. op_start now s key Hwf; simpl; try solve [op_done].
  rewrite zrem_loop_spec. case_bool_decide as E; op_done; unfold zset_cell;
    rewrite ?bool_decide_true, ?bool_decide_false by done; try done.
  split; [done|]. intros k x. rewrite delete_all_lookup. case_bool_decide; [done|].
  apply Hvwf.
Qed.

Lemma zcard_refines : op_refines eq now key s (zcard now s key) spec_zcard.
Proof. unfold zcard. op_start now s key Hwf; simpl; op_done. Qed.

Lemma zrange_refines `{RustStd} start stop :
  op_refines eq now key s (zrange now s key start stop) (spec_zrange start stop).
Proof.
  unfold zrange. op_start now s key Hwf; simpl; op_done.
  rewrite zrange_value. unfold zset_members.
  by rewrite (zset_sort_unique m (hm_iter m) (proj2 Hvwf) (hm_iter_perm m)).
Qed.

Lemma stream_add_refines id fields :
  op_refines eq now key s (stream_add now s key id fields) (spec_stream_add id fields).
Proof.
  unfold stream_add, spec_stream_add. op_start now s key Hwf;
    case_bool_decide; simpl; op_done.
Qed.

Lemma stream_range_refines start end_ :
  op_refines eq now key s (stream_range now s key start end_)
    (spec_stream_range start end_).
Proof. unfold stream_range. op_start now s key Hwf; simpl; op_done. Qed.

Lemma stream_rev_range_refines start end_ :
  op_refines eq now key s (stream_rev_range now s key start end_)
    (spec_stream_rev_range start end_).
Proof. unfold stream_rev_range. op_start now s key Hwf; simpl; op_done. Qed.

Lemma stream_len_refines : op_refines eq now key s (stream_len now s key) spec_stream_len.
Proof. unfold stream_len. op_start now s key Hwf; simpl; op_done. Qed.

Lemma stream_del_refines ids :
  op_refines eq now key s (stream_del now s key ids) (spec_stream_del ids).
Proof.
  unfold stream_del. op_start now s key Hwf; simpl; try solve [op_done].
  assert (Hf : filter (fun it => bool_decide (it.1 ∈ ids) = false) items =
               filter (fun it => it.1 ∉ ids) items).
  { apply list_filter_iff. intros it. by rewrite bool_decide_eq_false. }
  op_done; by rewrite Hf.
Qed.
End Refine.
