(* ===== verification/ShardOps.v ===== *)
(** * ShardOps: every single-key operation of a shard, as one transition system

    [key_op] lists the operations of [impl Shard] that work on one key, [shard_step] runs
    one, and [spec_step] is what it does to the visible cell of the key.  The refinement
    theorem covers all of them; [None] is the panic of LTRIM. *)
From Stdlib Require Import SpecFloat.
From S2P Require Import Prelude.
From S2P Require Import IntCodec.
From S2P Require Import HashStore.
From S2P Require Import Shard.
From S2P Require Import ShardString.
From S2P Require Import ShardList.
From S2P Require Import ShardHash.
From S2P Require Import ShardSet.
From S2P Require Import ShardZset.

(** ** The operations that do not look inside the value *)

Definition spec_remove (c : option acell) : bool * option acell :=
  (bool_decide (is_Some c), None).

Definition spec_exists (c : option acell) : bool * option acell :=
  (bool_decide (is_Some c), c).

Definition spec_ttl (now : Z) (c : option acell) : option Z * option acell :=
  (match c with
   | Some (_, Some ts) => Some (wrap_i64 (ts - now))
   | Some (_, None) => Some (-1)
   | None => None
   end, c).

Definition spec_set_expire (now ttl : Z) (c : option acell) : bool * option acell :=
  match c with
  | Some (v, _) =>
      let ts := saturating_u64 (now + ttl) in
      (true, if ts <=? now then None else Some (v, Some ts))
  | None => (false, None)
  end.

Definition spec_persist (c : option acell) : Z * option acell :=
  match c with
  | Some (v, Some _) => (1, Some (v, None))
  | Some (v, None) => (0, c)
  | None => (0, None)
  end.

Definition type_name (v : aval) : bytes :=
  match v with
  | AStr _ => b! "string"
  | AList _ => b! "list"
  | ASet _ => b! "set"
  | AHash _ => b! "hash"
  | AZSet _ => b! "zset"
  | AStream _ => b! "stream"
  end.
Definition spec_type (c : option acell) : option bytes * option acell :=
  (type_name ∘ fst <$> c, c).

(** ** One operation *)

Inductive key_op :=
  | KSet (v : Value) (ex : option Z)
  | KSetStringRef (v : bytes) (ex : option Z)
  | KRemove | KExists | KTtl | KSetExpire (ttl : Z) | KPersist | KType
  | KGet | KSetNx (v : bytes) | KAppend (v : bytes) | KIncrBy (delta : Z)
  | KListPush (values : list bytes) (left : bool)
  | KListPushX (values : list bytes) (left : bool)
  | KListPop (left : bool) | KListRange (start stop : Z) | KListLen | KListIndex (index : Z)
  | KListSet (index : Z) (v : bytes) | KListInsert (before : bool) (pivot v : bytes)
  | KListRem (count : Z) (v : bytes) | KListTrim (start stop : Z)
  | KHashSet (field v : bytes) | KHashSetRef (field v : bytes) | KHashSetBytes (field v : bytes)
  | KHashGet (field : bytes) | KHashDel (fields : list bytes) | KHashLen
  | KHashExists (field : bytes) | KHashGetall | KHashIncrBy (field : bytes) (delta : Z)
  | KHashSetNx (field v : bytes)
  | KSetAdd (members : list bytes) | KSetAddSingle (member : bytes)
  | KSetRemove (members : list bytes) | KSetMembers | KSetIsMember (member : bytes) | KSetCard
  | KZadd (score : f64) (member : bytes) | KZrem (members : list bytes) | KZcard
  | KZrange (start stop : Z)
  | KStreamAdd (id : bytes) (fields : list (bytes * bytes)) | KStreamRange (start end_ : bytes)
  | KStreamRevRange (start end_ : bytes) | KStreamLen | KStreamDel (ids : list bytes).

Inductive out :=
  | OUnit (u : unit) | OBool (b : bool) | OInt (z : Z)
  | OOptInt (o : option Z) | OOptBytes (o : option bytes)
  | RUnit (r : Result unit) | RBool (r : Result bool) | RInt (r : Result Z)
  | ROpt (r : Result (option bytes)) | RBytes (r : Result bytes)
  | RList (r : Result (list bytes)) | RBag (r : Result (list bytes))
  | RPairs (r : Result (list (bytes * bytes))) | RItems (r : Result (list StreamItem)).

(** Equal answers; listings of sets and hashes up to their order. *)
Definition out_rel (o1 o2 : out) : Prop :=
  match o1, o2 with
  | RBag r1, RBag r2 => result_perm r1 r2
  | RPairs r1, RPairs r2 => result_perm r1 r2
  | _, _ => o1 = o2
  end.

Section Step.
Context `{RustStd} (now : Z).

Definition shard_step (s : Shard) (key : bytes) (op : key_op) : option (out * Shard) :=
  let ret {R} (c : R -> out) (r : R * Shard) := Some (c r.1, r.2) in
  match op with
  | KSet v ex => ret OUnit (tt, Shard.set s key v ex)
  | KSetStringRef v ex => ret OUnit (tt, set_string_ref s key v ex)
  | KRemove => ret OBool (Shard.remove s key)
  | KExists => ret OBool (exists_key now s key)
  | KTtl => ret OOptInt (ttl_ms now s key)
  | KSetExpire ttl => ret OBool (set_expire_ms now s key ttl)
  | KPersist => ret OInt (persist now s key)
  | KType => ret OOptBytes (value_type now s key)
  | KGet => ret ROpt (get_string now s key)
  | KSetNx v => ret RBool (set_nx now s key v)
  | KAppend v => ret RInt (append now s key v)
  | KIncrBy d => ret RInt (incr_by now s key d)
  | KListPush vs l => ret RInt (list_push now s key vs l)
  | KListPushX vs l => ret RInt (list_push_x now s key vs l)
  | KListPop l => ret ROpt (list_pop now s key l)
  | KListRange a b => ret RList (list_range now s key a b)
  | KListLen => ret RInt (list_len now s key)
  | KListIndex i => ret ROpt (list_index now s key i)
  | KListSet i v => ret RUnit (list_set now s key i v)
  | KListInsert b p v => ret RInt (list_insert now s key b p v)
  | KListRem c v => ret RInt (list_rem now s key c v)
  | KListTrim a b => r ← list_trim now s key a b; ret RUnit r
  | KHashSet f v => ret RBool (hash_set now s key f v)
  | KHashSetRef f v => ret RBool (hash_set_ref now s key f v)
  | KHashSetBytes f v => ret RBool (hash_set_bytes now s key f v)
  | KHashGet f => ret ROpt (hash_get now s key f)
  | KHashDel fs => ret RInt (hash_del now s key fs)
  | KHashLen => ret RInt (hash_len now s key)
  | KHashExists f => ret RBool (hash_exists now s key f)
  | KHashGetall => ret RPairs (hash_getall now s key)
  | KHashIncrBy f d => ret RInt (hash_incr_by now s key f d)
  | KHashSetNx f v => ret RBool (hash_set_nx now s key f v)
  | KSetAdd ms => ret RInt (set_add now s key ms)
  | KSetAddSingle m => ret RInt (set_add_single_bytes now s key m)
  | KSetRemove ms => ret RInt (set_remove now s key ms)
  | KSetMembers => ret RBag (set_members now s key)
  | KSetIsMember m => ret RBool (set_is_member now s key m)
  | KSetCard => ret RInt (set_card now s key)
  | KZadd x m => ret RBool (zadd now s key x m)
  | KZrem ms => ret RInt (zrem now s key ms)
  | KZcard => ret RInt (zcard now s key)
  | KZrange a b => ret RList (zrange now s key a b)
  | KStreamAdd id fs => ret RBytes (stream_add now s key id fs)
  | KStreamRange a b => ret RItems (stream_range now s key a b)
  | KStreamRevRange a b => ret RItems (stream_rev_range now s key a b)
  | KStreamLen => ret RInt (stream_len now s key)
  | KStreamDel ids => ret RInt (stream_del now s key ids)
  end.

Definition spec_step (op : key_op) (c : option acell) : out * option acell :=
  let ret {R} (k : R -> out) (r : R * option acell) := (k r.1, r.2) in
  match op with
  | KSet v ex => ret OUnit (spec_set now (aval_of v) ex c)
  | KSetStringRef v ex => ret OUnit (spec_set now (AStr v) ex c)
  | KRemove => ret OBool (spec_remove c)
  | KExists => ret OBool (spec_exists c)
  | KTtl => ret OOptInt (spec_ttl now c)
  | KSetExpire ttl => ret OBool (spec_set_expire now ttl c)
  | KPersist => ret OInt (spec_persist c)
  | KType => ret OOptBytes (spec_type c)
  | KGet => ret ROpt (spec_get_string c)
  | KSetNx v => ret RBool (spec_set_nx v c)
  | KAppend v => ret RInt (spec_append v c)
  | KIncrBy d => ret RInt (spec_incr_by d c)
  | KListPush vs l => ret RInt (spec_list_push vs l c)
  | KListPushX vs l => ret RInt (spec_list_push_x vs l c)
  | KListPop l => ret ROpt (spec_list_pop l c)
  | KListRange a b => ret RList (spec_list_range a b c)
  | KListLen => ret RInt (spec_list_len c)
  | KListIndex i => ret ROpt (spec_list_index i c)
  | KListSet i v => ret RUnit (spec_list_set i v c)
  | KListInsert b p v => ret RInt (spec_list_insert b p v c)
  | KListRem n v => ret RInt (spec_list_rem n v c)
  | KListTrim a b => ret RUnit (spec_list_trim a b c)
  | KHashSet f v | KHashSetRef f v | KHashSetBytes f v => ret RBool (spec_hash_set f v c)
  | KHashGet f => ret ROpt (spec_hash_get f c)
  | KHashDel fs => ret RInt (spec_hash_del fs c)
  | KHashLen => ret RInt (spec_hash_len c)
  | KHashExists f => ret RBool (spec_hash_exists f c)
  | KHashGetall => ret RPairs (spec_hash_getall c)
  | KHashIncrBy f d => ret RInt (spec_hash_incr_by f d c)
  | KHashSetNx f v => ret RBool (spec_hash_set_nx f v c)
  | KSetAdd ms => ret RInt (spec_set_add ms c)
  | KSetAddSingle m => ret RInt (spec_set_add [m] c)
  | KSetRemove ms => ret RInt (spec_set_remove ms c)
  | KSetMembers => ret RBag (spec_set_members c)
  | KSetIsMember m => ret RBool (spec_set_is_member m c)
  | KSetCard => ret RInt (spec_set_card c)
  | KZadd x m => ret RBool (spec_zadd x m c)
  | KZrem ms => ret RInt (spec_zrem ms c)
  | KZcard => ret RInt (spec_zcard c)
  | KZrange a b => ret RList (spec_zrange a b c)
  | KStreamAdd id fs => ret RBytes (spec_stream_add id fs c)
  | KStreamRange a b => ret RItems (spec_stream_range a b c)
  | KStreamRevRange a b => ret RItems (spec_stream_rev_range a b c)
  | KStreamLen => ret RInt (spec_stream_len c)
  | KStreamDel ids => ret RInt (spec_stream_del ids c)
  end.

(** What the callers of an operation guarantee: at least one element where the command's
    arity asks for one, machine integers, no NaN score, a list that fits in memory; and,
    for the two operations that ignore expiry, that the key is not expired. *)
Definition op_ok (s : Shard) (key : bytes) (op : key_op) : Prop :=
  match op with
  | KSet v _ => value_wf v
  | KRemove | KSetExpire _ => is_expired now s key = false
  | KIncrBy d => in_i64 d
  | KListPush vs _ => vs <> []
  | KSetAdd ms => ms <> []
  | KZadd x _ => x <> S754_nan
  | KListTrim a _ => in_i64 a /\
      forall l ex, abs now s !! key = Some (AList l, ex) -> zlen l < 2 ^ 63
  | _ => True
  end.

(** The same without the condition on expiry, on the cell a client sees. *)
Definition op_fits (c : option acell) (op : key_op) : Prop :=
  match op with
  | KSet v _ => value_wf v
  | KIncrBy d => in_i64 d
  | KListPush vs _ => vs <> []
  | KSetAdd ms => ms <> []
  | KZadd x _ => x <> S754_nan
  | KListTrim a _ => in_i64 a /\ forall l ex, c = Some (AList l, ex) -> zlen l < 2 ^ 63
  | _ => True
  end.

(** ** Stored cells

    An expired key stays in its bucket until an operation meets it.  SET, DEL and EXPIRE do not look at
    expiry; every other operation first drops the key when it has expired. *)
Definition ignores_expiry (op : key_op) : bool :=
  match op with KSet _ _ | KSetStringRef _ _ | KRemove | KSetExpire _ => true | _ => false end.

Definition visible (c : option acell) : option acell :=
  match c with
  | Some (v, Some ts) => if ts <=? now then None else c
  | _ => c
  end.

(** What an operation answers and leaves, on the cell that is stored. *)
Definition cell_step (op : key_op) (c : option acell) : out * option acell :=
  match op with
  | KSet v ex => (OUnit tt, Some (aval_of v, ex))
  | KSetStringRef v ex => (OUnit tt, Some (AStr v, ex))
  | KRemove => (OBool (bool_decide (is_Some c)), None)
  | KSetExpire ttl =>
      match c with
      | Some (v, _) => (OBool true, Some (v, Some (saturating_u64 (now + ttl))))
      | None => (OBool false, None)
      end
  | _ => spec_step op (visible c)
  end.
End Step.

(** ** Refinement *)

Section Refine.
Context (now : Z) (s : Shard) (key : bytes) (Hwf : shard_wf s).

Lemma exists_refines : op_refines eq now key s (exists_key now s key) spec_exists.
Proof.
  assert (exists_key now s key =
    let s1 := expire_check now s key in (bool_decide (is_Some (s1 !! key)), s1)) as ->.
  { unfold exists_key, expire_check. destruct (is_expired now s key); [|done].
    simpl. by rewrite lookup_delete_eq. }
  op_start now s key Hwf; op_done.
Qed.

Lemma persist_refines : op_refines eq now key s (persist now s key) spec_persist.
Proof.
  assert (persist now s key =
    let s1 := expire_check now s key in
    match s1 !! key with
    | Some entry =>
        let s' := <[key := MkEntry (value entry) None]> s1 in
        match expires_at entry with Some _ => (1, s') | None => (0, s') end
    | None => (0, s1)
    end) as ->.
  { unfold persist, expire_check. destruct (is_expired now s key); [|done].
    simpl. by rewrite lookup_delete_eq. }
  op_start now s key Hwf; simpl; try destruct ex; op_done.
Qed.

Lemma value_type_refines : op_refines eq now key s (value_type now s key) spec_type.
Proof.
  assert (value_type now s key =
    let s1 := expire_check now s key in
    ((fun e => type_name (aval_of (value e))) <$> s1 !! key, s1)) as ->.
  { unfold value_type, expire_check. destruct (is_expired now s key).
    - simpl. by rewrite lookup_delete_eq.
    - cbn zeta. by destruct (s !! key) as [[[] ?]|]. }
  op_start now s key Hwf; simpl; op_done.
Qed.

Lemma ttl_refines : op_refines eq now key s (ttl_ms now s key) (spec_ttl now).
Proof.
  assert (ttl_ms now s key =
    let s1 := expire_check now s key in
    (match s1 !! key with
     | Some e =>
         match expires_at e with
         | Some ts => Some (wrap_i64 (ts - now))
         | None => Some (-1)
         end
     | None => None
     end, s1)) as ->.
  { unfold ttl_ms, expire_check, is_expired. destruct (s !! key) as [e|] eqn:Hk.
    - destruct (expires_at e) as [ts|] eqn:He; [destruct (ts <=? now)|]; simpl;
        rewrite ?lookup_delete_eq, ?Hk, ?He; done.
    - simpl. by rewrite Hk. }
  op_start now s key Hwf; simpl; op_done.
Qed.

(** The two operations that do not check expiry act like the others on a key that is
    not expired. *)
Lemma settled_cell : is_expired now s key = false ->
  abs now s !! key = acell_of <$> s !! key.
Proof.
  intros Hx. destruct (expire_check_spec now s key Hwf) as (_ & _ & _ & _ & H).
  unfold expire_check in H. by rewrite Hx in H.
Qed.

Lemma remove_refines : is_expired now s key = false ->
  op_refines eq now key s (Shard.remove s key) spec_remove.
Proof.
  intros Hx%settled_cell. unfold Shard.remove. apply refines_delete; auto with muon.
  simpl. rewrite Hx. by destruct (s !! key).
Qed.

Lemma set_expire_refines ttl : is_expired now s key = false ->
  op_refines eq now key s (set_expire_ms now s key ttl) (spec_set_expire now ttl).
Proof.
  intros Hx%settled_cell. unfold set_expire_ms.
  destruct (s !! key) as [e|] eqn:Hk; simpl in Hx.
  - pose proof (shard_wf_lookup _ _ _ Hwf Hk). apply refines_store; auto; rewrite Hx; simpl.
    + done.
    + unfold abs_entry, live. simpl. by destruct (_ <=? now).
  - apply refines_keep; auto with muon; by rewrite Hx.
Qed.

(** Tag an operation's answer with its constructor. *)
Lemma refines_tag {R : Type} (c : R -> out) (rel : R -> R -> Prop) (r : R * Shard)
    (spec : option acell -> R * option acell) :
  (forall x y, rel x y -> out_rel (c x) (c y)) ->
  op_refines rel now key s r spec ->
  op_refines out_rel now key s (c r.1, r.2)
    (fun cell => (c (spec cell).1, (spec cell).2)).
Proof. intros Hc (H1 & H2 & H3 & H4). split_and!; simpl; auto. Qed.

Lemma refines_tag_eq {R : Type} (c : R -> out) (r : R * Shard)
    (spec : option acell -> R * option acell) :
  (forall x, out_rel (c x) (c x)) -> op_refines eq now key s r spec ->
  op_refines out_rel now key s (c r.1, r.2)
    (fun cell => (c (spec cell).1, (spec cell).2)).
Proof. intros Hc. apply refines_tag. by intros x y ->. Qed.

Lemma shard_step_ok `{RustStd} op : op_ok now s key op ->
  match shard_step now s key op with
  | Some res => op_refines out_rel now key s res (spec_step now op)
  | None => exists a b, op = KListTrim a b /\ trim_panics a b (abs now s !! key)
  end.
Proof.
  intros Hok.
  destruct op; simpl in Hok; cbn [shard_step spec_step];
    try match goal with
        | |- op_refines _ _ _ _ (?c ?r.1, _) ?f =>
            first [apply (refines_tag_eq c r); [done|]]
        end.
  all: eauto using set_refines, remove_refines, exists_refines, ttl_refines,
    set_expire_refines, persist_refines, value_type_refines, get_string_refines,
    set_nx_refines, append_refines, incr_by_refines, list_push_refines,
    list_push_x_refines, list_pop_refines, list_range_refines, list_len_refines,
    list_index_refines, list_set_refines, list_insert_refines, list_rem_refines.
  all: eauto using hash_set_refines, hash_set_ref_refines, hash_get_refines,
    hash_del_refines, hash_len_refines, hash_exists_refines, hash_incr_by_refines,
    hash_set_nx_refines, set_add_refines, set_add_single_bytes_refines, set_remove_refines,
    set_is_member_refines, set_card_refines, zadd_refines, zrem_refines, zcard_refines,
    zrange_refines, stream_add_refines, stream_range_refines, stream_rev_range_refines,
    stream_len_refines, stream_del_refines.
  - rewrite set_string_ref_set. by apply (set_refines now s key Hwf (VString v)).
  - cbn [shard_step spec_step]. destruct Hok as [Ha Hl].
    destruct (list_trim_refines now s key Hwf start stop Ha Hl) as [Hr Hp].
    destruct (list_trim now s key start stop) as [r|] eqn:Ht; simpl.
    + by apply (refines_tag_eq RUnit r).
    + exists start, stop. split; [done|]. by apply Hp.
  - apply (refines_tag RPairs result_perm); [done|]. by apply hash_getall_refines.
  - apply (refines_tag RBag result_perm); [done|]. by apply set_members_refines.
Qed.
End Refine.

(** ** Stored cells: nothing expired is left where an operation looked *)

Definition unexpired (now : Z) (s : Shard) (key : bytes) : Prop := is_expired now s key = false.
Section Unexpired.
Context `{RustStd} (now : Z) (key : bytes).
Lemma unexpired_check s : unexpired now (expire_check now s key) key.
Proof.
  unfold unexpired, expire_check. destruct (is_expired now s key) eqn:E; [|done].
  unfold is_expired. simpl. by rewrite lookup_delete_eq.
Qed.
Lemma unexpired_delete s : unexpired now (delete key s) key.
Proof. unfold unexpired, is_expired. by rewrite lookup_delete_eq. Qed.
Lemma unexpired_new s v : unexpired now (<[key := MkEntry v None]> s) key.
Proof. unfold unexpired, is_expired. by rewrite lookup_insert_eq. Qed.
Lemma unexpired_set s e v : unexpired now s key -> s !! key = Some e -> unexpired now (<[key := set_value e v]> s) key.
Proof. unfold unexpired, is_expired. intros Hx E. rewrite E in Hx. by rewrite lookup_insert_eq. Qed.
Lemma unexpired_live s e : s !! key = Some e -> entry_expired now e = false -> unexpired now s key.
Proof. unfold unexpired, is_expired. by intros ->. Qed.
Lemma unexpired_none s : s !! key = None -> unexpired now s key.
Proof. unfold unexpired, is_expired. by intros ->. Qed.
Lemma unexpired_remove s : unexpired now (Shard.remove s key).2 key.
Proof. unfold unexpired, is_expired. simpl. by rewrite lookup_delete_eq. Qed.
Lemma unexpired_step_set s e v : s !! key = Some e -> entry_expired now e = false ->
  unexpired now (<[key := set_value e v]> s) key.
Proof. intros Hk He. apply unexpired_set; [by eapply unexpired_live|done]. Qed.
#[local] Hint Resolve unexpired_delete unexpired_new unexpired_set unexpired_live unexpired_none unexpired_remove
  unexpired_step_set : unexpired.
Lemma ttl_unexpired s : unexpired now (ttl_ms now s key).2 key.
Proof.
  unfold ttl_ms. destruct (s !! key) as [e|] eqn:Hk; [|by eauto with unexpired].
  destruct (expires_at e) as [ts|] eqn:He; [destruct (ts <=? now) eqn:Hle|]; cbn [snd]; eauto with unexpired;
    apply (unexpired_live s e Hk); unfold entry_expired; by rewrite He.
Qed.
Lemma step_unexpired s op o s' : ignores_expiry op = false -> shard_step now s key op = Some (o, s') -> unexpired now s' key.
Proof.
  destruct op; try done; intros _; cbn [shard_step]; intros E;
    try (injection E as _ <-); try apply ttl_unexpired;
    try match goal with
    | |- unexpired _ (snd (?f now _ _)) _ => unfold f
    | |- unexpired _ (snd (?f now _ _ _)) _ => unfold f
    | |- unexpired _ (snd (?f now _ _ _ _)) _ => unfold f
    | |- unexpired _ (snd (?f now _ _ _ _ _)) _ => unfold f
    end; unfold list_trim, list_range, hash_getall, set_members, zrange in *; cbn zeta in *;
    try (pose proof (unexpired_check s) as Hs; set (s1 := expire_check now s key) in *; clearbody s1;
         repeat case_match; simplify_eq/=; eauto with unexpired; fail).
  all: try (destruct (is_expired now s key) eqn:Hx; cbn [snd]; rewrite ?lookup_delete_eq; repeat case_match; simplify_eq/=;
    eauto with unexpired; fail).
  all: try (destruct (s !! key) as [e|] eqn:Hk; [destruct (entry_expired now e) eqn:He|]; repeat case_match; simplify_eq/=;
    eauto with unexpired; fail).
Qed.
End Unexpired.

Lemma visible_cell now s key : visible now (acell_of <$> s !! key) = abs now s !! key.
Proof.
  rewrite abs_lookup. destruct (s !! key) as [e|]; [|done]. cbn. unfold abs_entry, live, acell_of.
  destruct (expires_at e) as [ts|] eqn:He; [|done]. by destruct (ts <=? now).
Qed.

Lemma unexpired_visible now s key : unexpired now s key ->
  acell_of <$> s !! key = abs now s !! key.
Proof.
  unfold unexpired, is_expired. rewrite <- visible_cell. destruct (s !! key) as [e|]; [|done]. cbn.
  unfold acell_of. destruct (expires_at e) as [ts|]; [|done]. by intros ->.
Qed.

(** What a step promises about the cell that is stored, and so about the visible one. *)
Definition step_promise (now : Z) (s : Shard) (key : bytes) (op : key_op) (res : out * Shard) : Prop :=
  let '(o, c) := cell_step now op (acell_of <$> s !! key) in
  out_rel res.1 o /\ acell_of <$> res.2 !! key = c /\
  abs now res.2 = partial_alter (fun _ => visible now c) key (abs now s) /\
  same_but key s res.2 /\ shard_wf res.2.

Section Promise.
Context `{RustStd} (now : Z) (s : Shard) (key : bytes) (Hwf : shard_wf s).

Lemma promise_put (o : out) (e : Entry) op : value_wf (value e) ->
  cell_step now op (acell_of <$> s !! key) = (o, Some (acell_of e)) -> out_rel o o ->
  step_promise now s key op (o, <[key := e]> s).
Proof.
  intros Hv E Ho. unfold step_promise. rewrite E. cbn [fst snd].
  split_and!; [done|by rewrite lookup_insert_eq| |by apply same_but_insert|by apply shard_wf_insert].
  apply map_eq. intros k. destruct (decide (k = key)) as [->|Hne].
  - rewrite lookup_partial_alter_eq, <- visible_cell, lookup_insert_eq. done.
  - by rewrite lookup_partial_alter_ne, !abs_lookup, lookup_insert_ne by done.
Qed.

Lemma promise_seen op : ignores_expiry op = false -> op_fits (abs now s !! key) op ->
  match shard_step now s key op with
  | Some res => step_promise now s key op res
  | None => exists a b, op = KListTrim a b /\ trim_panics a b (abs now s !! key)
  end.
Proof.
  intros Hx Hfit. assert (Hok : op_ok now s key op).
  { destruct op; try done. }
  pose proof (shard_step_ok now s key Hwf op Hok) as Hr.
  destruct (shard_step now s key op) as [[o s']|] eqn:E; [|done]. destruct Hr as (H1 & H2 & H3 & H4).
  assert (Hcell : cell_step now op (acell_of <$> s !! key) = spec_step now op (abs now s !! key))
    by (rewrite <- visible_cell; by destruct op).
  unfold step_promise. rewrite Hcell. cbn [fst snd] in *. destruct (spec_step now op _) as [o' c] eqn:Es. cbn [fst snd] in *.
  pose proof (unexpired_visible _ _ _ (step_unexpired now key s op o s' Hx E)) as Hv.
  assert (Hc : abs now s' !! key = c) by (by rewrite H2, lookup_partial_alter_eq).
  split_and!; [done|congruence| |done|done].
  assert (visible now c = c) as -> by (rewrite <- Hc, <- Hv at 1; by rewrite visible_cell). exact H2.
Qed.

Lemma promise_all op : op_fits (abs now s !! key) op ->
  match shard_step now s key op with
  | Some res => step_promise now s key op res
  | None => exists a b, op = KListTrim a b /\ trim_panics a b (abs now s !! key)
  end.
Proof.
  intros Hfit. destruct (ignores_expiry op) eqn:Hx; [|by apply promise_seen].
  destruct op; try done; cbn [shard_step].
  - unfold Shard.set. by destruct (s !! key); apply promise_put.
  - rewrite set_string_ref_set. unfold Shard.set. by destruct (s !! key); apply promise_put.
  - unfold Shard.remove, step_promise. cbn [fst snd cell_step].
    split_and!; [|by rewrite lookup_delete_eq| |by apply same_but_delete|by apply shard_wf_delete].
    + by destruct (s !! key).
    + apply map_eq. intros k. destruct (decide (k = key)) as [->|Hne].
      * by rewrite lookup_partial_alter_eq, <- visible_cell, lookup_delete_eq.
      * by rewrite lookup_partial_alter_ne, !abs_lookup, lookup_delete_ne by done.
  - unfold set_expire_ms. destruct (s !! key) as [e|] eqn:Hk.
    + apply promise_put; [exact (shard_wf_lookup _ _ _ Hwf Hk)| |done]. by rewrite Hk.
    + unfold step_promise. rewrite Hk. cbn [fst snd cell_step fmap option_fmap option_map]. split_and!; [done|by rewrite Hk| |done|done].
      symmetry. rewrite <- (partial_alter_self (abs now s) key) at 2. by rewrite abs_lookup, Hk.
Qed.
End Promise.

(** ** Properties *)

(** C20: every single-key operation of a shard, on every branch and error path, answers and
    updates exactly as its specification on the key's cell says (listings of sets and hashes up
    to order).  An expired key that is still stored acts as an absent one and is dropped, except
    that SET, DEL and EXPIRE take the stored cell as it is: DEL of such a key answers [true], and
    EXPIRE brings it back.  A native counter acts as its decimal string, both hash layouts act as
    one map; no other key changes and every stored value stays well formed (no empty collection,
    counters within [i64], no NaN score).  The arguments are those the handlers pass: a
    well-formed value for SET, at least one element for a push and for SADD, machine integers,
    a score that is not NaN.  The only operation that does not return is an LTRIM whose [stop]
    lies before the first element. *)
Theorem shard_step_refines `{RustStd} (now : Z) (s : Shard) (key : bytes) (op : key_op)
    (Hwf : shard_wf s) (Hok : op_fits (abs now s !! key) op) :
  match shard_step now s key op with
  | Some (o, s') =>
      let '(o', c) := cell_step now op (acell_of <$> s !! key) in
      out_rel o o' /\ acell_of <$> s' !! key = c /\
      abs now s' = partial_alter (fun _ => visible now c) key (abs now s) /\
      same_but key s s' /\ shard_wf s'
  | None => exists a b, op = KListTrim a b /\ trim_panics a b (abs now s !! key)
  end.
Proof.
  pose proof (promise_all now s key Hwf op Hok) as Hp.
  by destruct (shard_step now s key op) as [[o s']|].
Qed.

Lemma shard_step_refines_witness :
  let s : Shard := {[ b! "k" := MkEntry (VString (b! "old")) (Some 5) ]} in
  (exists s', shard_step 10 s (b! "k") (KListPush [b! "a"; b! "b"] true) =
     Some (RInt (Ok 2), s') /\
   s' !! b! "k" = Some (MkEntry (VList [b! "b"; b! "a"]) None) /\ shard_wf s') /\
  (exists s', shard_step 10 s (b! "k") KRemove = Some (OBool true, s') /\ shard_wf s').
Proof.
  intros s.
  assert (Hwf : shard_wf s) by (apply map_Forall_insert_2; [done|apply map_Forall_empty]).
  split.
  - pose proof (shard_step_refines 10 s (b! "k") (KListPush [b! "a"; b! "b"] true) Hwf ltac:(done)) as H.
    eexists. split; [vm_compute; reflexivity|]. split; [vm_compute; reflexivity|]. apply H.
  - pose proof (shard_step_refines 10 s (b! "k") KRemove Hwf ltac:(done)) as H.
    eexists. split; [vm_compute; reflexivity|]. apply H.
Defined.

(** EXPIRE and PEXPIRE bring a dead key back: [set_expire_ms] does not check expiry,
    so on a key that has expired and was not purged, which no other command can see, it
    answers [true] and the old value is visible again with the new expiry. *)
Theorem set_expire_revives_expired_key (now : Z) (s : Shard) (key : bytes) (e : Entry)
    (ts ttl : Z) (Hk : s !! key = Some e) (Hts : expires_at e = Some ts) (Hdead : ts <= now)
    (Hnow : 0 <= now) (Httl : 0 < ttl) (Hmax : now + ttl <= u64_max) :
  abs now s !! key = None /\ (exists_key now s key).1 = false /\
  (set_expire_ms now s key ttl).1 = true /\
  abs now (set_expire_ms now s key ttl).2 !! key = Some (aval_of (value e), Some (now + ttl)).
Proof.
  assert (Hle : (ts <=? now) = true) by lia.
  unfold set_expire_ms, exists_key, is_expired, saturating_u64.
  rewrite Z.min_r by done. rewrite !abs_lookup, Hk, Hts, Hle. cbn [mbind option_bind].
  split_and!; [unfold abs_entry, live; by rewrite Hts, Hle|done|done|]. cbn [snd].
  rewrite lookup_insert_eq. simpl. unfold abs_entry, live. simpl.
  by rewrite (proj2 (Z.leb_gt _ _)) by lia.
Qed.

Lemma set_expire_revives_expired_key_witness :
  let s : Shard := {[ b! "k" := MkEntry (VString (b! "old")) (Some 5) ]} in
  abs 10 (set_expire_ms 10 s (b! "k") 7).2 !! b! "k" = Some (AStr (b! "old"), Some 17).
Proof.
  by apply (set_expire_revives_expired_key 10
    {[ b! "k" := MkEntry (VString (b! "old")) (Some 5) ]} (b! "k")
    (MkEntry (VString (b! "old")) (Some 5)) 5 7).
Defined.

(** A stream key without expiry, as the operations meet it. *)
Definition stream_at (t : Shard) (key : bytes) (l : list StreamItem) : Shard :=
  <[key := MkEntry (VStream l) None]> t.

Section StreamAt.
Context (now : Z) (t : Shard) (key : bytes) (items : list StreamItem).

Lemma stream_check : expire_check now ((stream_at t key) items) key = (stream_at t key) items.
Proof. unfold expire_check, is_expired, stream_at. by rewrite lookup_insert_eq. Qed.

Lemma stream_add_new fields : t !! key = None ->
  stream_add now t key (b! "*") fields = (Ok (b! "1-0"), (stream_at t key) [(b! "1-0", fields)]).
Proof.
  intros Hn. unfold stream_add, expire_check, is_expired. rewrite Hn. cbn zeta.
  by rewrite bool_decide_true, Hn.
Qed.

Lemma stream_add_at fields :
  stream_add now ((stream_at t key) items) key (b! "*") fields =
    (Ok (stream_id (length items + 1)),
     (stream_at t key) (items ++ [(stream_id (length items + 1), fields)])).
Proof.
  unfold stream_add. rewrite stream_check. cbn zeta. rewrite bool_decide_true by done.
  unfold stream_at. rewrite lookup_insert_eq. cbn [negb value].
  by rewrite insert_insert_eq.
Qed.

Lemma stream_del_at ids :
  (stream_del now ((stream_at t key) items) key ids).2 =
    (stream_at t key) (filter (fun it => bool_decide (it.1 ∈ ids) = false) items).
Proof.
  unfold stream_del. rewrite stream_check. cbn zeta. unfold stream_at.
  rewrite lookup_insert_eq. cbn [value]. by rewrite insert_insert_eq.
Qed.

Lemma stream_range_at :
  (stream_range now ((stream_at t key) items) key (b! "-") (b! "+")).1 = Ok items.
Proof.
  unfold stream_range. rewrite stream_check. cbn zeta. unfold stream_at.
  by rewrite lookup_insert_eq.
Qed.
End StreamAt.

(** stream ids are numbered by the length of the stream, so they are not unique:
    after XADD, XADD, XDEL of the first entry, the next XADD on a fresh key answers the
    id of the entry that is still there, and the stream holds it twice. *)
Theorem xadd_after_xdel_repeats_id (now : Z) (s : Shard) (key : bytes)
    (f1 f2 f3 : list (bytes * bytes)) (Hnew : s !! key = None) :
  let s1 := (stream_add now s key (b! "*") f1).2 in
  let s2 := (stream_add now s1 key (b! "*") f2).2 in
  let s3 := (stream_del now s2 key [b! "1-0"]).2 in
  (stream_add now s2 key (b! "*") f3).1 = Ok (b! "3-0") /\
  (stream_add now s3 key (b! "*") f3).1 = Ok (b! "2-0") /\
  (stream_range now (stream_add now s3 key (b! "*") f3).2 key (b! "-") (b! "+")).1 =
    Ok [(b! "2-0", f2); (b! "2-0", f3)].
Proof.
  cbn zeta. rewrite (stream_add_new now s key f1) by done. cbn [snd].
  rewrite stream_add_at. cbn [fst snd]. rewrite stream_add_at. cbn [fst snd].
  rewrite stream_del_at. cbn [fst snd].
  rewrite stream_add_at. cbn [fst snd]. by rewrite stream_range_at.
Qed.

Lemma xadd_after_xdel_repeats_id_witness :
  (stream_add 0 (stream_del 0 (stream_add 0 (stream_add 0 ∅ [1] (b! "*") []).2
     [1] (b! "*") []).2 [1] [b! "1-0"]).2 [1] (b! "*") []).1 = Ok (b! "2-0").
Proof. apply (xadd_after_xdel_repeats_id 0 ∅ [1] [] [] []). done. Defined.
