(* ===== verification/Db.v ===== *)
(** * Db: the sharded store

    [Db] of [src/muon_cache/store.rs]: 64 shards, each behind a mutex, selected by the
    FNV-1a hash of the key.  An operation on one key, and SMOVE on two, holds the locks it needs
    for its whole duration, so it is a function on the vector of shards; poisoning is the [None]
    of the one operation that can panic.  The operations over all shards and those over several
    sets take one lock after another, and other connections run in between: they have a parameter
    for what those do before each lock, [alone] when there is nobody else.  [db_abs] is the single
    flat map the shards stand for. *)
From Stdlib Require Import SpecFloat.
From S2P Require Import Prelude.
From S2P Require Import IntCodec.
From S2P Require Import HashStore.
From S2P Require Import Glob.
From S2P Require Import Shard.
From S2P Require Import ShardString.
From S2P Require Import ShardList.
From S2P Require Import ShardHash.
From S2P Require Import ShardSet.
From S2P Require Import ShardZset.
From S2P Require Import ShardOps.

(** ** Data *)

Definition NUM_SHARDS : nat := 64.

Record Db := MkDb { shards : list Shard }.

Definition new : Db := MkDb (replicate NUM_SHARDS ∅).

Definition shard_index (key : bytes) : nat :=
  Z.to_nat (fnv_write fnv_offset key `mod` Z.of_nat NUM_SHARDS).

(** [self.shard(key)]: the bucket of [key], read and written back under its lock. *)
Definition shard (db : Db) (key : bytes) : Shard :=
  default ∅ (shards db !! shard_index key).
Definition put_shard (db : Db) (key : bytes) (s : Shard) : Db :=
  MkDb (<[shard_index key := s]> (shards db)).

Definition on_shard {R} (db : Db) (key : bytes) (f : Shard -> R * Shard) : R * Db :=
  let '(r, s) := f (shard db key) in (r, put_shard db key s).

(** ** Single-shard operations *)

Section Delegates.
Context `{RustStd} (now : Z) (db : Db).

Definition set (key : bytes) (v : Value) (ex : option Z) : Db :=
  (on_shard db key (fun s => (tt, Shard.set s key v ex))).2.
Definition set_with_expire_at (key : bytes) (v : Value) (ex : option Z) : Db :=
  (on_shard db key (fun s => (tt, Shard.set_with_expire_at s key v ex))).2.
Definition remove (key : bytes) := on_shard db key (fun s => Shard.remove s key).
Definition exists_key (key : bytes) := on_shard db key (fun s => Shard.exists_key now s key).
Definition ttl_ms (key : bytes) := on_shard db key (fun s => Shard.ttl_ms now s key).
Definition set_expire_ms (key : bytes) (ttl : Z) :=
  on_shard db key (fun s => Shard.set_expire_ms now s key ttl).
Definition persist (key : bytes) := on_shard db key (fun s => Shard.persist now s key).
Definition value_type (key : bytes) := on_shard db key (fun s => Shard.value_type now s key).

Definition get_string (key : bytes) :=
  on_shard db key (fun s => ShardString.get_string now s key).
Definition set_string (key v : bytes) (ex : option Z) : Db :=
  (on_shard db key (fun s => (tt, ShardString.set_string s key v ex))).2.
Definition set_string_ref (key v : bytes) (ex : option Z) : Db :=
  (on_shard db key (fun s => (tt, ShardString.set_string_ref s key v ex))).2.
Definition set_string_from_slices (key v : bytes) (ex : option Z) : Db :=
  (on_shard db key (fun s => (tt, ShardString.set_string_from_slices s key v ex))).2.
Definition set_nx (key v : bytes) :=
  on_shard db key (fun s => ShardString.set_nx now s key v).
Definition append (key v : bytes) :=
  on_shard db key (fun s => ShardString.append now s key v).
Definition incr_by (key : bytes) (delta : Z) :=
  on_shard db key (fun s => ShardString.incr_by now s key delta).

Definition list_push (key : bytes) (values : list bytes) (left : bool) :=
  on_shard db key (fun s => ShardList.list_push now s key values left).
Definition list_pop (key : bytes) (left : bool) :=
  on_shard db key (fun s => ShardList.list_pop now s key left).
Definition list_range (key : bytes) (start stop : Z) :=
  on_shard db key (fun s => ShardList.list_range now s key start stop).
Definition list_len (key : bytes) := on_shard db key (fun s => ShardList.list_len now s key).
Definition list_index (key : bytes) (index : Z) :=
  on_shard db key (fun s => ShardList.list_index now s key index).
Definition list_set (key : bytes) (index : Z) (v : bytes) :=
  on_shard db key (fun s => ShardList.list_set now s key index v).
Definition list_insert (key : bytes) (before : bool) (pivot v : bytes) :=
  on_shard db key (fun s => ShardList.list_insert now s key before pivot v).
Definition list_rem (key : bytes) (count : Z) (v : bytes) :=
  on_shard db key (fun s => ShardList.list_rem now s key count v).
Definition list_push_x (key : bytes) (values : list bytes) (left : bool) :=
  on_shard db key (fun s => ShardList.list_push_x now s key values left).
Definition list_trim (key : bytes) (start stop : Z) : option (Result unit * Db) :=
  '(r, s) ← ShardList.list_trim now (shard db key) key start stop;
  Some (r, put_shard db key s).

Definition hash_set (key field v : bytes) :=
  on_shard db key (fun s => ShardHash.hash_set now s key field v).
Definition hash_set_ref (key field v : bytes) :=
  on_shard db key (fun s => ShardHash.hash_set_ref now s key field v).
Definition hash_set_bytes (key field v : bytes) :=
  on_shard db key (fun s => ShardHash.hash_set_bytes now s key field v).
Definition hash_get (key field : bytes) :=
  on_shard db key (fun s => ShardHash.hash_get now s key field).
Definition hash_del (key : bytes) (fields : list bytes) :=
  on_shard db key (fun s => ShardHash.hash_del now s key fields).
Definition hash_len (key : bytes) := on_shard db key (fun s => ShardHash.hash_len now s key).
Definition hash_exists (key field : bytes) :=
  on_shard db key (fun s => ShardHash.hash_exists now s key field).
Definition hash_getall (key : bytes) :=
  on_shard db key (fun s => ShardHash.hash_getall now s key).
Definition hash_incr_by (key field : bytes) (delta : Z) :=
  on_shard db key (fun s => ShardHash.hash_incr_by now s key field delta).
Definition hash_set_nx (key field v : bytes) :=
  on_shard db key (fun s => ShardHash.hash_set_nx now s key field v).

Definition set_add (key : bytes) (members : list bytes) :=
  on_shard db key (fun s => ShardSet.set_add now s key members).
Definition set_add_single_bytes (key member : bytes) :=
  on_shard db key (fun s => ShardSet.set_add_single_bytes now s key member).
Definition set_remove (key : bytes) (members : list bytes) :=
  on_shard db key (fun s => ShardSet.set_remove now s key members).
Definition set_members (key : bytes) :=
  on_shard db key (fun s => ShardSet.set_members now s key).
Definition set_is_member (key member : bytes) :=
  on_shard db key (fun s => ShardSet.set_is_member now s key member).
Definition set_card (key : bytes) := on_shard db key (fun s => ShardSet.set_card now s key).

Definition zadd (key : bytes) (score : f64) (member : bytes) :=
  on_shard db key (fun s => ShardZset.zadd now s key score member).
Definition zrem (key : bytes) (members : list bytes) :=
  on_shard db key (fun s => ShardZset.zrem now s key members).
Definition zcard (key : bytes) := on_shard db key (fun s => ShardZset.zcard now s key).
Definition zrange (key : bytes) (start stop : Z) :=
  on_shard db key (fun s => ShardZset.zrange now s key start stop).

Definition stream_add (key id : bytes) (fields : list (bytes * bytes)) :=
  on_shard db key (fun s => ShardZset.stream_add now s key id fields).
Definition stream_range (key start end_ : bytes) :=
  on_shard db key (fun s => ShardZset.stream_range now s key start end_).
Definition stream_rev_range (key start end_ : bytes) :=
  on_shard db key (fun s => ShardZset.stream_rev_range now s key start end_).
Definition stream_len (key : bytes) :=
  on_shard db key (fun s => ShardZset.stream_len now s key).
Definition stream_del (key : bytes) (ids : list bytes) :=
  on_shard db key (fun s => ShardZset.stream_del now s key ids).
End Delegates.

(** ** Operations over all shards

    [clk i] is the clock as read in shard [i]; [between i] is what other connections do to the store
    before the lock of shard [i] is taken. *)

Definition alone (i : nat) (db : Db) : Db := db.

(** [for shard in &self.shards]: one shard is locked at a time. *)
Fixpoint each_shard {R} (between : nat -> Db -> Db) (f : nat -> Shard -> R * Shard) (n i : nat) (db : Db)
    : list R * Db :=
  match n with
  | O => ([], db)
  | S n' =>
      let db := between i db in
      let '(r, s) := f i (default ∅ (shards db !! i)) in
      let '(rs, db) := each_shard between f n' (S i) (MkDb (<[i := s]> (shards db))) in
      (r :: rs, db)
  end.

Section AllShards.
Context `{RustStd} (clk : nat -> Z) (between : nat -> Db -> Db) (db : Db).

Definition purge_expired_all : Db :=
  (each_shard between (fun i s => (tt, Shard.purge_expired_all (clk i) s)) (length (shards db)) 0 db).2.

Definition snapshot_items : list (bytes * Value * option Z) * Db :=
  let '(rs, db) :=
    each_shard between (fun i s => Shard.snapshot_items (clk i) s) (length (shards db)) 0 db in
  (concat rs, db).

Definition len : nat * Db :=
  let '(rs, db) := each_shard between (fun i s => Shard.len (clk i) s) (length (shards db)) 0 db in
  (sum_list rs, db).

Definition keys : list bytes * Db :=
  let '(rs, db) := each_shard between (fun i s => Shard.keys (clk i) s) (length (shards db)) 0 db in
  (concat rs, db).

Definition keys_matching (pattern : bytes) : list bytes * Db :=
  let '(rs, db) :=
    each_shard between (fun i s => Shard.keys_matching (clk i) s pattern) (length (shards db)) 0 db in
  (sort_bytes (concat rs), db).

Definition flush : nat * Db :=
  let '(rs, db) := each_shard between (fun _ s => Shard.flush s) (length (shards db)) 0 db in
  (sum_list rs, db).
End AllShards.

(** ** Multi-key operations *)

(** [Shard::set_move], both keys in one bucket; the clock is read once per key. *)
Definition shard_set_move (now1 now2 : Z) (s : Shard) (source dest member : bytes)
    : Result bool * Shard :=
  let s := expire_check now1 s source in
  let s := expire_check now2 s dest in
  match s !! source with
  | None => (Ok false, s)
  | Some entry =>
      match value entry with
      | VSet set =>
          let '(removed, set) := hset_remove set member in
          if negb removed then (Ok false, <[source := set_value entry (VSet set)]> s)
          else
            let s := if bool_decide (set = ∅) then delete source s
                     else <[source := set_value entry (VSet set)]> s in
            match s !! dest with
            | Some entry' =>
                match value entry' with
                | VSet set' =>
                    (Ok true,
                     <[dest := set_value entry' (VSet (hset_insert set' member).2)]> s)
                | _ => (Err, s)
                end
            | None => (Ok true, <[dest := MkEntry (VSet (hset_insert ∅ member).2) None]> s)
            end
      | _ => (Err, s)
      end
  end.

(** [Db::set_move]: the same steps with the two keys in two buckets. *)
Definition set_move (now1 now2 : Z) (db : Db) (source dest member : bytes)
    : Result bool * Db :=
  let si := shard_index source in
  let di := shard_index dest in
  if (si =? di)%nat
  then on_shard db source (fun s => shard_set_move now1 now2 s source dest member)
  else
    let src := expire_check now1 (shard db source) source in
    let dst := expire_check now2 (shard db dest) dest in
    let '(r, src, dst) :=
      match src !! source with
      | None => (Ok false, src, dst)
      | Some entry =>
          match value entry with
          | VSet set =>
              let '(removed, set) := hset_remove set member in
              if negb removed
              then (Ok false, <[source := set_value entry (VSet set)]> src, dst)
              else
                let src := if bool_decide (set = ∅) then delete source src
                           else <[source := set_value entry (VSet set)]> src in
                match dst !! dest with
                | Some entry' =>
                    match value entry' with
                    | VSet set' =>
                        (Ok true, src,
                         <[dest := set_value entry' (VSet (hset_insert set' member).2)]> dst)
                    | _ => (Err, src, dst)
                    end
                | None =>
                    (Ok true, src,
                     <[dest := MkEntry (VSet (hset_insert ∅ member).2) None]> dst)
                end
          | _ => (Err, src, dst)
          end
      end in
    (r, put_shard (put_shard db source src) dest dst).

Section MultiKey.
Context `{RustStd} (clk : nat -> Z) (between : nat -> Db -> Db).

(** The loop of [set_union]; [i] counts the locks taken, and so the clock readings. *)
Fixpoint union_loop (i : nat) (db : Db) (keys : list bytes)
    (result : gset bytes) : Result (gset bytes) * Db :=
  match keys with
  | [] => (Ok result, db)
  | key :: keys' =>
      let '(r, db) := set_members (clk i) (between i db) key in
      match r with
      | Ok members => union_loop (S i) db keys' (result ∪ list_to_set members)
      | Err => (Err, db)
      end
  end.

Definition set_union (db : Db) (keys : list bytes)
    : Result (list bytes) * Db :=
  let '(r, db) := union_loop 0 db keys ∅ in
  (match r with Ok result => Ok (hset_iter result) | Err => Err end, db).

(** Is [member] in every set?  [Ok false] is [continue 'outer]. *)
Fixpoint inter_check (i : nat) (db : Db) (member : bytes)
    (keys : list bytes) : Result bool * nat * Db :=
  match keys with
  | [] => (Ok true, i, db)
  | key :: keys' =>
      let '(r, db) := set_is_member (clk i) (between i db) key member in
      match r with
      | Ok true => inter_check (S i) db member keys'
      | Ok false => (Ok false, S i, db)
      | Err => (Err, S i, db)
      end
  end.

Fixpoint inter_loop (i : nat) (db : Db) (members keys : list bytes)
    (result : list bytes) : Result (list bytes) * Db :=
  match members with
  | [] => (Ok result, db)
  | m :: members' =>
      let '(r, i, db) := inter_check i db m keys in
      match r with
      | Ok b => inter_loop i db members' keys (if b then result ++ [m] else result)
      | Err => (Err, db)
      end
  end.

Definition set_inter (db : Db) (keys : list bytes)
    : Result (list bytes) * Db :=
  match keys with
  | [] => (Ok [], db)
  | first_key :: rest =>
      let '(r, db) := set_members (clk 0%nat) (between 0%nat db) first_key in
      match r with
      | Err => (Err, db)
      | Ok [] => (Ok [], db)
      | Ok first => inter_loop 1 db first rest []
      end
  end.
End MultiKey.

(** ** The flat map *)

Definition db_abs (now : Z) (db : Db) : gmap bytes acell :=
  ⋃ ((fun s => abs now s) <$> shards db).

(** Every key that is stored, expired or not. *)
Definition db_cells (db : Db) : gmap bytes acell := ⋃ ((fun s : Shard => acell_of <$> s) <$> shards db).

Definition shard_at (i : nat) (s : Shard) : Prop :=
  shard_wf s /\ forall k, is_Some (s !! k) -> shard_index k = i.

Definition db_wf (db : Db) : Prop :=
  length (shards db) = NUM_SHARDS /\
  forall i s, shards db !! i = Some s -> shard_at i s.

(** The contract of a [Db] operation on [key]. *)
Definition db_refines {R} (rel : R -> R -> Prop) (now : Z) (key : bytes) (db : Db)
    (res : R * Db) (spec : option acell -> R * option acell) : Prop :=
  rel res.1 (spec (db_abs now db !! key)).1 /\
  db_abs now res.2 =
    partial_alter (fun _ => (spec (db_abs now db !! key)).2) key (db_abs now db) /\
  db_wf res.2.
Arguments db_refines {R} rel now key db res spec : simpl never.

(** ** Lemmas *)

Lemma shard_index_lt key : (shard_index key < NUM_SHARDS)%nat.
Proof.
  unfold shard_index. change NUM_SHARDS with 64%nat.
  pose proof (Z.mod_pos_bound (fnv_write fnv_offset key) (Z.of_nat 64)). lia.
Qed.

(** Alone, the loop over the shards is one function on each of them. *)
Lemma each_shard_alone {R} (f : nat -> Shard -> R * Shard) (ss : list Shard) : forall (done : list Shard),
  each_shard alone f (length ss) (length done) (MkDb (done ++ ss)) =
    let rs := imap (fun i s => f (length done + i)%nat s) ss in (rs.*1, MkDb (done ++ rs.*2)).
Proof.
  induction ss as [|s ss IH]; intros pre; [done|]. cbn [length each_shard]. unfold alone at 1 3. cbn [shards].
  rewrite lookup_app_r by lia. rewrite Nat.sub_diag. cbn [lookup list_lookup default].
  rewrite imap_cons. cbn [fmap list_fmap]. change (default ∅ (Some s)) with s in *. cbn [from_option id].
  rewrite Nat.add_0_r. destruct (f (length pre) s) as [r s'] eqn:E. cbn beta iota zeta.
  rewrite insert_app_r_alt by lia. rewrite Nat.sub_diag. change (<[0%nat:=s']> (s :: ss)) with (s' :: ss).
  specialize (IH (pre ++ [s'])). rewrite length_app in IH. cbn [length] in IH. rewrite Nat.add_1_r in IH.
  rewrite <- app_assoc in IH. cbn [app] in IH. rewrite IH. cbn zeta. rewrite <- app_assoc. cbn [app fst snd].
  assert (Hi : imap (fun i s => f (S (length pre) + i)%nat s) ss =
    imap ((fun i s => f (length pre + i)%nat s) ∘ S) ss)
    by (apply imap_ext; intros; cbn; f_equal; lia).
  by rewrite Hi.
Qed.

Lemma each_shard_same {R} (f : Shard -> R * Shard) (db : Db) :
  each_shard alone (fun _ => f) (length (shards db)) 0 db =
    ((f <$> shards db).*1, MkDb (f <$> shards db).*2).
Proof.
  destruct db as [ss]. pose proof (each_shard_alone (fun _ => f) ss []) as E. cbn [app length] in E.
  cbn [shards]. rewrite E. cbn zeta. change (imap _ ss) with (imap (const f) ss). by rewrite imap_const.
Qed.

Lemma new_wf : db_wf new.
Proof.
  split; [done|]. intros i s Hs. apply lookup_replicate in Hs as [-> _].
  split; [apply map_Forall_empty|]. intros k [? ?]. done.
Qed.

Lemma shard_lookup (db : Db) (key : bytes) : db_wf db ->
  shards db !! shard_index key = Some (shard db key) /\
  shard_at (shard_index key) (shard db key).
Proof.
  intros [Hlen Hs]. unfold shard.
  destruct (lookup_lt_is_Some_2 (shards db) (shard_index key)) as [s E].
  { rewrite Hlen. apply shard_index_lt. }
  rewrite E. simpl. auto.
Qed.

Lemma shard_wf_of (db : Db) (key : bytes) : db_wf db -> shard_wf (shard db key).
Proof. intros Hwf. by apply (shard_lookup db key Hwf). Qed.

(** A key lives in its own bucket only: what the buckets hold together, read by [f]. *)
Lemma union_list_lookup {A} (f : Shard -> gmap bytes A)
    (Hf : forall s k, s !! k = None -> f s !! k = None) (ss : list Shard) : forall (i0 : nat) (k : bytes),
  (forall (i : nat) (s : Shard), ss !! i = Some s -> shard_at (i0 + i) s) ->
  (⋃ (f <$> ss)) !! k =
    match ss !! (shard_index k - i0)%nat with
    | Some s => if (i0 <=? shard_index k)%nat then f s !! k else None
    | None => None
    end.
Proof.
  induction ss as [|s ss IH]; intros i0 k Hat; [by apply lookup_empty|].
  cbn [fmap list_fmap union_list foldr]. change (foldr (∪) ∅ ?l) with (⋃ l).
  rewrite lookup_union.
  assert (Hrec := IH (S i0) k (fun i s' Hs => eq_rect _ (fun n => shard_at n s')
    (Hat (S i) s' Hs) _ (Nat.add_succ_r i0 i))).
  assert (Hs : f s !! k <> None -> shard_index k = i0).
  { intros Hne. destruct (Hat 0%nat s eq_refl) as [_ Hk]. rewrite Nat.add_0_r in Hk.
    apply Hk. destruct (s !! k) eqn:E; [eauto|]. by rewrite (Hf _ _ E) in Hne. }
  destruct (decide (shard_index k = i0)) as [E|E].
  - rewrite E, Nat.sub_diag, Nat.leb_refl. simpl.
    rewrite Hrec, E. replace (S i0 <=? i0)%nat with false by (symmetry; apply Nat.leb_gt; lia).
    assert (forall o : option Shard, f s !! k ∪ match o with
      | Some _ => None | None => None end = f s !! k) as Ho
      by (intros []; by rewrite (right_id None union)).
    apply Ho.
  - assert (f s !! k = None) as -> by (destruct (f s !! k) eqn:?; [|done];
      destruct E; apply Hs; congruence).
    rewrite (left_id None union), Hrec.
    destruct (decide (i0 <= shard_index k)%nat).
    + rewrite !(proj2 (Nat.leb_le _ _)) by lia.
      replace (shard_index k - i0)%nat with (S (shard_index k - S i0)) by lia. done.
    + rewrite !(proj2 (Nat.leb_gt _ _)) by lia. by destruct (ss !! _), ((s :: ss) !! _).
Qed.

Lemma buckets_lookup {A} (f : Shard -> gmap bytes A)
    (Hf : forall s k, s !! k = None -> f s !! k = None) (db : Db) (k : bytes) : db_wf db ->
  (⋃ (f <$> shards db)) !! k = f (shard db k) !! k.
Proof.
  intros Hwf. rewrite (union_list_lookup f Hf _ 0).
  - rewrite Nat.sub_0_r. destruct (shard_lookup db k Hwf) as [-> _]. done.
  - intros i s Hs. by apply Hwf.
Qed.

Lemma abs_absent (now : Z) (s : Shard) (k : bytes) : s !! k = None -> abs now s !! k = None.
Proof. intros E. by rewrite abs_lookup, E. Qed.

Lemma db_abs_lookup (now : Z) (db : Db) (k : bytes) : db_wf db ->
  db_abs now db !! k = abs now (shard db k) !! k.
Proof. apply (buckets_lookup (fun s => abs now s)), abs_absent. Qed.

Lemma db_cells_lookup (db : Db) (k : bytes) : db_wf db ->
  db_cells db !! k = acell_of <$> shard db k !! k.
Proof.
  intros Hwf. unfold db_cells. rewrite (buckets_lookup (fun s : Shard => acell_of <$> s)) by
    (done || (intros s k' E; by rewrite lookup_fmap, E)).
  by rewrite lookup_fmap.
Qed.

Lemma shard_put_eq (db : Db) (key : bytes) (s : Shard) : db_wf db -> shard (put_shard db key s) key = s.
Proof.
  intros [Hlen _]. unfold shard, put_shard; simpl.
  rewrite list_lookup_insert_eq; [done|]. rewrite Hlen. apply shard_index_lt.
Qed.

Lemma shard_put_ne (db : Db) (key k : bytes) (s : Shard) : shard_index k <> shard_index key ->
  shard (put_shard db key s) k = shard db k.
Proof. intros. unfold shard, put_shard; simpl. by rewrite list_lookup_insert_ne. Qed.

Lemma shard_put_same (db : Db) (key k : bytes) (s : Shard) : shard_index k = shard_index key -> db_wf db ->
  shard (put_shard db key s) k = s.
Proof.
  intros E Hwf. pose proof (shard_put_eq db key s Hwf) as H.
  unfold shard in *. by rewrite E.
Qed.

Lemma put_shard_wf (db : Db) (key : bytes) (s : Shard) : db_wf db -> shard_at (shard_index key) s ->
  db_wf (put_shard db key s).
Proof.
  intros [Hlen Hs] Hat. split; [unfold put_shard; simpl; by rewrite length_insert|].
  intros i s' Hi. unfold put_shard in Hi; simpl in Hi.
  apply list_lookup_insert_Some in Hi as [(Ei & Es & _)|[_ Hi]]; [by subst|by apply Hs].
Qed.

Lemma same_but_at (key : bytes) (i : nat) (s s' : Shard) :
  shard_index key = i -> shard_at i s -> same_but key s s' -> shard_wf s' -> shard_at i s'.
Proof.
  intros Hk [_ Hs] Hsame Hwf. split; [done|]. intros k Hx.
  destruct (decide (k = key)) as [->|]; [done|]. apply Hs. by rewrite <- Hsame.
Qed.

(** A shard operation that meets its contract gives a [Db] operation that does. *)
Lemma on_shard_refines {R : Type} (rel : R -> R -> Prop) (now : Z) (key : bytes) (db : Db)
     (f : Shard -> R * Shard)
    (spec : option acell -> R * option acell) : db_wf db ->
  op_refines rel now key (shard db key) (f (shard db key)) spec ->
  db_refines rel now key db (on_shard db key f) spec.
Proof.
  intros Hwf (H1 & H2 & H3 & H4). unfold on_shard.
  destruct (f (shard db key)) as [r s']; simpl in *.
  assert (Hwf' : db_wf (put_shard db key s')).
  { apply put_shard_wf; [done|]. eapply same_but_at; eauto. by apply shard_lookup. }
  split_and!; simpl; [by rewrite db_abs_lookup| |done].
  apply map_eq. intros k. rewrite db_abs_lookup by done.
  destruct (decide (shard_index k = shard_index key)) as [E|E].
  - rewrite shard_put_same, H2 by done. destruct (decide (k = key)) as [->|].
    + by rewrite !lookup_partial_alter_eq, db_abs_lookup.
    + rewrite !lookup_partial_alter_ne by done. rewrite db_abs_lookup by done.
      unfold shard. by rewrite E.
  - rewrite shard_put_ne by done. rewrite lookup_partial_alter_ne by congruence.
    by rewrite db_abs_lookup.
Qed.
