(* ===== verification/DbSpec.v ===== *)
(** * DbSpec: the sharded, lazily expiring store against one flat, eagerly expiring map

    The contract of [Db]: 64 buckets, two integer representations, two hash layouts and
    keys that outlive their expiry until someone looks are all invisible.  Runs of
    single-key operations are compared with runs on a flat map from which expired keys
    vanish by themselves; the multi-key operations have their own specifications. *)
From Stdlib Require Import SpecFloat.
From S2P Require Import Prelude.
From S2P Require Import IntCodec.
From S2P Require Import HashStore.
From S2P Require Import Glob.
From S2P Require Import Shard.
From S2P Require Import ShardString.
From S2P Require Import ShardList.
From S2P Require Import ShardHash.
From S2P Require Import ShardSet.
From S2P Require Import ShardZset.
From S2P Require Import ShardOps.
From S2P Require Import Db.

(** ** Runs *)


(** Time passes: expired cells vanish. *)
Definition cell_live (now : Z) (c : acell) : bool :=
  match c.2 with Some ts => negb (ts <=? now) | None => true end.
Definition tick (now : Z) (a : gmap bytes acell) : gmap bytes acell :=
  filter (fun p => cell_live now p.2 = true) a.

Record request := Request { at_time : Z; on_key : bytes; what : key_op }.

Section Runs.
Context `{RustStd}.

Definition db_step (db : Db) (r : request) : option (out * Db) :=
  let s := shard db (on_key r) in
  '(o, s) ← shard_step (at_time r) s (on_key r) (what r);
  Some (o, put_shard db (on_key r) s).

Fixpoint db_run (db : Db) (rs : list request) : option (list out * Db) :=
  match rs with
  | [] => Some ([], db)
  | r :: rs' =>
      '(o, db1) ← db_step db r;
      '(os, db2) ← db_run db1 rs';
      Some (o :: os, db2)
  end.

Definition flat_step (a : gmap bytes acell) (r : request) : out * gmap bytes acell :=
  let a := tick (at_time r) a in
  let '(o, c) := spec_step (at_time r) (what r) (a !! on_key r) in
  (o, partial_alter (fun _ => c) (on_key r) a).

Fixpoint flat_run (a : gmap bytes acell) (rs : list request) : list out * gmap bytes acell :=
  match rs with
  | [] => ([], a)
  | r :: rs' =>
      let '(o, a1) := flat_step a r in
      let '(os, a2) := flat_run a1 rs' in
      (o :: os, a2)
  end.

(** The same on a flat map that still holds its expired keys, each until an operation meets it. *)
Definition cells_step (a : gmap bytes acell) (r : request) : out * gmap bytes acell :=
  let '(o, c) := cell_step (at_time r) (what r) (a !! on_key r) in
  (o, partial_alter (fun _ => c) (on_key r) a).

Fixpoint cells_run (a : gmap bytes acell) (rs : list request) : list out * gmap bytes acell :=
  match rs with
  | [] => ([], a)
  | r :: rs' =>
      let '(o, a1) := cells_step a r in
      let '(os, a2) := cells_run a1 rs' in
      (o :: os, a2)
  end.

(** Each request has arguments the handlers pass, and LTRIM does not hit its panic: its [stop] is
    not before the first element. *)
Definition fits (a : gmap bytes acell) (r : request) : Prop :=
  let c := visible (at_time r) (a !! on_key r) in
  op_fits c (what r) /\
  match what r with KListTrim start stop => ~ trim_panics start stop c | _ => True end.

Fixpoint run_fits (a : gmap bytes acell) (rs : list request) : Prop :=
  match rs with
  | [] => True
  | r :: rs' => fits a r /\ run_fits (cells_step a r).2 rs'
  end.

(** Time does not go back, and no DEL or EXPIRE meets a key that has expired and is still stored. *)
Fixpoint unnoticed (t : Z) (a : gmap bytes acell) (rs : list request) : Prop :=
  match rs with
  | [] => True
  | r :: rs' =>
      t <= at_time r /\
      match what r with
      | KRemove | KSetExpire _ => visible (at_time r) (a !! on_key r) = a !! on_key r
      | _ => True
      end /\ unnoticed (at_time r) (cells_step a r).2 rs'
  end.

(** Both, said of the store. *)
Fixpoint run_ok (t : Z) (db : Db) (rs : list request) : Prop :=
  match rs with
  | [] => True
  | r :: rs' =>
      t <= at_time r /\ op_ok (at_time r) (shard db (on_key r)) (on_key r) (what r) /\
      match db_step db r with
      | Some (_, db') => run_ok (at_time r) db' rs'
      | None => False
      end
  end.
End Runs.

Definition last_time (t : Z) (rs : list request) : Z :=
  default t (at_time <$> last rs).

(** *** Time *)

Lemma tick_lookup now a k : tick now a !! k =
  match a !! k with
  | Some c => if cell_live now c then Some c else None
  | None => None
  end.
Proof.
  unfold tick. rewrite map_lookup_filter. destruct (a !! k) as [c|]; simpl; [|done].
  by destruct (cell_live now c).
Qed.

Lemma abs_later now now' s : now <= now' -> abs now' s = tick now' (abs now s).
Proof.
  intros Hle. apply map_eq. intros k. rewrite tick_lookup, !abs_lookup.
  destruct (s !! k) as [e|]; simpl; [|done].
  unfold abs_entry, live, cell_live, acell_of. destruct (expires_at e) as [ts|] eqn:He; simpl.
  - destruct (Z.leb_spec ts now), (Z.leb_spec ts now'); simpl; rewrite ?He;
      rewrite ?(proj2 (Z.leb_gt _ _)) by lia; rewrite ?(proj2 (Z.leb_le _ _)) by lia;
      done || lia.
  - done.
Qed.

Lemma db_abs_later now now' db : db_wf db -> now <= now' ->
  db_abs now' db = tick now' (db_abs now db).
Proof.
  intros Hwf Hle. apply map_eq. intros k.
  rewrite tick_lookup, !db_abs_lookup, (abs_later now now'), tick_lookup by done. done.
Qed.

Lemma db_step_ok `{RustStd} db r : db_wf db ->
  op_ok (at_time r) (shard db (on_key r)) (on_key r) (what r) ->
  match db_step db r with
  | Some res =>
      db_refines out_rel (at_time r) (on_key r) db res (spec_step (at_time r) (what r))
  | None => exists a b, what r = KListTrim a b
  end.
Proof.
  intros Hwf Hok. unfold db_step.
  pose proof (shard_step_ok (at_time r) (shard db (on_key r)) (on_key r)
    (shard_wf_of db _ Hwf) (what r) Hok) as Hs.
  destruct (shard_step _ _ _ _) as [[o s']|] eqn:E; simpl.
  - by apply (on_shard_refines out_rel _ _ db (fun _ => (o, s'))).
  - destruct Hs as (a & b & ? & _). eauto.
Qed.

Lemma db_run_refines_flat `{RustStd} rs : forall t db, db_wf db -> run_ok t db rs ->
  exists os db', db_run db rs = Some (os, db') /\
    Forall2 out_rel os (flat_run (db_abs t db) rs).1 /\
    db_abs (last_time t rs) db' = (flat_run (db_abs t db) rs).2 /\ db_wf db'.
Proof.
  induction rs as [|r rs IH]; intros t db Hwf Hrun.
  { exists [], db. simpl. done. }
  destruct Hrun as (Ht & Hok & Hrest). cbn [db_run flat_run].
  pose proof (db_step_ok db r Hwf Hok) as Hs.
  destruct (db_step db r) as [[o db1]|]; [|done]. destruct Hs as (H1 & H2 & Hwf1).
  cbn [mbind option_bind]. simpl in H1, H2, Hwf1. destruct (IH _ _ Hwf1 Hrest) as (os & db2 & -> & H3 & H4 & H5).
  exists (o :: os), db2. split; [done|].
  unfold flat_step. rewrite <- (db_abs_later t) by done.
  destruct (spec_step _ _ _) as [o' c] eqn:Esp. simpl in H1, H2. rewrite <- H2.
  assert (Hl : last_time (at_time r) rs = last_time t (r :: rs)).
  { unfold last_time. destruct rs using rev_ind; [done|].
    by rewrite !app_comm_cons, !last_snoc. }
  rewrite <- Hl.
  destruct (flat_run (db_abs (at_time r) db1) rs) as [os' a']; simpl in *. auto.
Qed.

(** *** The run on stored cells *)

Lemma db_step_cells `{RustStd} db r : db_wf db -> fits (db_cells db) r ->
  exists o db', db_step db r = Some (o, db') /\ db_wf db' /\
    out_rel o (cells_step (db_cells db) r).1 /\ db_cells db' = (cells_step (db_cells db) r).2.
Proof.
  intros Hwf [Hfit Htrim]. unfold db_step, cells_step.
  rewrite db_cells_lookup, visible_cell in Hfit, Htrim by done. rewrite db_cells_lookup by done.
  pose proof (promise_all (at_time r) (shard db (on_key r)) (on_key r) (shard_wf_of db _ Hwf) (what r) Hfit) as Hp.
  destruct (shard_step _ _ _ _) as [[o s']|].
  - unfold step_promise in Hp. destruct (cell_step _ _ _) as [o' c]. destruct Hp as (H1 & H2 & _ & H4 & H5).
    cbn [fst snd] in *. exists o, (put_shard db (on_key r) s'). split; [done|].
    assert (Hwf' : db_wf (put_shard db (on_key r) s')).
    { apply put_shard_wf; [done|]. eapply same_but_at; eauto. by apply shard_lookup. }
    split_and!; [done|done|]. apply map_eq. intros k. rewrite db_cells_lookup by done.
    destruct (decide (k = on_key r)) as [->|Hne].
    + by rewrite lookup_partial_alter_eq, shard_put_eq.
    + rewrite lookup_partial_alter_ne, db_cells_lookup by done.
      destruct (decide (shard_index k = shard_index (on_key r))) as [E|E].
      * rewrite shard_put_same, H4 by done. unfold shard. by rewrite E.
      * by rewrite shard_put_ne.
  - destruct Hp as (a & b & E & Hp). rewrite E in Htrim. by destruct Htrim.
Qed.

Lemma db_run_cells `{RustStd} rs : forall db, db_wf db -> run_fits (db_cells db) rs ->
  exists os db', db_run db rs = Some (os, db') /\ db_wf db' /\
    Forall2 out_rel os (cells_run (db_cells db) rs).1 /\ db_cells db' = (cells_run (db_cells db) rs).2.
Proof.
  induction rs as [|r rs IH]; intros db Hwf Hfit; [by exists [], db|]. destruct Hfit as [Hr Hrest].
  destruct (db_step_cells db r Hwf Hr) as (o & db1 & E & Hwf1 & H1 & H2). cbn [db_run cells_run]. rewrite E.
  destruct (cells_step (db_cells db) r) as [o' a1]. cbn [fst snd] in *. subst a1.
  destruct (IH db1 Hwf1 Hrest) as (os & db2 & E2 & Hwf2 & H3 & H4). cbn [mbind option_bind]. rewrite E2.
  exists (o :: os), db2. destruct (cells_run (db_cells db1) rs) as [os' a2]. by split_and!; [| |constructor|].
Qed.

Lemma unnoticed_ok `{RustStd} rs : forall t db, db_wf db -> run_fits (db_cells db) rs ->
  unnoticed t (db_cells db) rs -> run_ok t db rs.
Proof.
  induction rs as [|r rs IH]; intros t db Hwf Hfit Hun; [done|]. destruct Hfit as [Hr Hrest], Hun as (Ht & Hd & Hun).
  destruct (db_step_cells db r Hwf Hr) as (o & db1 & E & Hwf1 & _ & H2). rewrite <- H2 in Hrest, Hun.
  split; [done|]. rewrite E. split; [|by apply IH]. destruct Hr as [Hr _].
  rewrite db_cells_lookup, ?visible_cell in Hr, Hd by done.
  assert (Hx : visible (at_time r) (acell_of <$> shard db (on_key r) !! on_key r) =
      acell_of <$> shard db (on_key r) !! on_key r ->
    is_expired (at_time r) (shard db (on_key r)) (on_key r) = false).
  { unfold is_expired. destruct (shard db (on_key r) !! on_key r) as [e|]; [|done]. cbn. unfold acell_of.
    destruct (expires_at e) as [ts|]; [|done]. by destruct (ts <=? at_time r). }
  rewrite visible_cell in Hx.
  destruct (what r); cbn [op_ok]; try exact Hr; by apply Hx.
Qed.

(** ** SMOVE, SUNION, SINTER *)

(** SMOVE on the flat map.  When the destination holds another type the member has already
    left the source. *)
Definition spec_set_move (a : gmap bytes acell) (source dest member : bytes)
    : Result bool * gmap bytes acell :=
  match a !! source with
  | None => (Ok false, a)
  | Some (ASet X, ex) =>
      if bool_decide (member ∈ X) then
        let a := partial_alter (fun _ => set_cell (X ∖ {[member]}) ex) source a in
        match a !! dest with
        | Some (ASet Y, ey) => (Ok true, <[dest := (ASet (Y ∪ {[member]}), ey)]> a)
        | Some _ => (Err, a)
        | None => (Ok true, <[dest := (ASet {[member]}, None)]> a)
        end
      else (Ok false, a)
  | Some _ => (Err, a)
  end.

(** The members of a key read as a set; [None] when it holds another type. *)
Definition aset (c : option acell) : option (gset bytes) :=
  match c with
  | None => Some ∅
  | Some (ASet X, _) => Some X
  | Some _ => None
  end.

Definition spec_union (a : gmap bytes acell) (keys : list bytes) : option (gset bytes) :=
  foldr (fun k r => X ← aset (a !! k); Y ← r; Some (X ∪ Y)) (Some ∅) keys.

(** Intersecting with the remaining keys; an empty set so far, or a member refused by an
    earlier key, hides the types of the later ones. *)
Definition all_sets (a : gmap bytes acell) (keys : list bytes) : Prop :=
  Forall (fun k => is_Some (aset (a !! k))) keys.
Definition in_all (a : gmap bytes acell) (m : bytes) (keys : list bytes) : Prop :=
  Forall (fun k => exists X, aset (a !! k) = Some X /\ m ∈ X) keys.

Lemma in_all_cons a m key keys X : aset (a !! key) = Some X ->
  in_all a m (key :: keys) <-> m ∈ X /\ in_all a m keys.
Proof. intros HX. unfold in_all. rewrite Forall_cons, HX. naive_solver. Qed.

Section MultiKey.
Context `{RustStd} (now : Z).

Lemma set_members_read db key : db_wf db ->
  let '(r, db') := set_members now db key in
  db_wf db' /\ db_abs now db' = db_abs now db /\
  match aset (db_abs now db !! key) with
  | Some X => exists l, r = Ok l /\ l ≡ₚ elements X
  | None => r = Err
  end.
Proof.
  intros Hwf. pose proof (on_shard_refines result_perm now key db
    (fun s => ShardSet.set_members now s key) spec_set_members Hwf
    (set_members_refines now (shard db key) key (shard_wf_of _ _ Hwf))) as (H1 & H2 & H3).
  unfold set_members. destruct (on_shard _ _ _) as [r db']; simpl in *.
  split_and!; [done|by rewrite H2, partial_alter_self|].
  destruct (db_abs now db !! key) as [[[] ?]|]; simpl in *; destruct r; try done;
    eexists; split; try done.
Qed.

Lemma set_is_member_read db key m : db_wf db ->
  let '(r, db') := set_is_member now db key m in
  db_wf db' /\ db_abs now db' = db_abs now db /\
  r = match aset (db_abs now db !! key) with
      | Some X => Ok (bool_decide (m ∈ X))
      | None => Err
      end.
Proof.
  intros Hwf. pose proof (on_shard_refines eq now key db
    (fun s => ShardSet.set_is_member now s key m) (spec_set_is_member m) Hwf
    (set_is_member_refines now (shard db key) key (shard_wf_of _ _ Hwf) m)) as (H1 & H2 & H3).
  unfold set_is_member. destruct (on_shard _ _ _) as [r db']; simpl in *.
  split_and!; [done|by rewrite H2, partial_alter_self|].
  rewrite H1. by destruct (db_abs now db !! key) as [[[] ?]|].
Qed.

Lemma union_loop_ok i keys : forall db acc, db_wf db ->
  let '(r, db') := union_loop (fun _ => now) alone i db keys acc in
  db_wf db' /\ db_abs now db' = db_abs now db /\
  r = match spec_union (db_abs now db) keys with
      | Some X => Ok (acc ∪ X)
      | None => Err
      end.
Proof.
  revert i. induction keys as [|key keys IH]; intros i db acc Hwf; cbn [union_loop]; change (alone i db) with db.
  { split_and!; [done|done|]. simpl. by rewrite (right_id_L ∅ (∪)). }
  pose proof (set_members_read db key Hwf) as Hr.
  destruct (set_members now db key) as [r db1]. destruct Hr as (Hwf1 & Ha & Hr).
  cbn [spec_union foldr]. change (foldr ?f (Some ∅) keys) with (spec_union (db_abs now db) keys).
  destruct (aset (db_abs now db !! key)) as [X|]; simpl; [|by subst].
  destruct Hr as (l & -> & Hl).
  specialize (IH (S i) db1 (acc ∪ list_to_set l) Hwf1).
  destruct (union_loop _ _ _ _ _ _) as [r' db2]. destruct IH as (? & Ha2 & ->).
  rewrite Ha2, Ha. split_and!; [done|done|].
  destruct (spec_union (db_abs now db) keys) as [Y|]; simpl; [|done].
  f_equal. assert (list_to_set l = X) as ->; [|set_solver].
  apply set_eq. intros x. rewrite elem_of_list_to_set, Hl. set_solver.
Qed.

Lemma inter_check_ok i keys : forall db m, db_wf db -> all_sets (db_abs now db) keys ->
  let '(r, _, db') := inter_check (fun _ => now) alone i db m keys in
  db_wf db' /\ db_abs now db' = db_abs now db /\
  exists b, r = Ok b /\ (b = true <-> in_all (db_abs now db) m keys).
Proof.
  revert i. induction keys as [|key keys IH]; intros i db m Hwf Hall; cbn [inter_check]; change (alone i db) with db.
  { split_and!; [done|done|]. exists true. split; [done|]. split; [constructor|done]. }
  apply Forall_cons in Hall as [[X HX] Hall].
  pose proof (set_is_member_read db key m Hwf) as Hr.
  destruct (set_is_member now db key m) as [r db1]. destruct Hr as (Hwf1 & Ha & ->).
  rewrite HX. pose proof (in_all_cons (db_abs now db) m key keys X HX) as Hin.
  case_bool_decide as Hm.
  - rewrite <- Ha in Hall. specialize (IH (S i) db1 m Hwf1 Hall).
    destruct (inter_check _ _ _ _ _ _) as [[r' i'] db2]. destruct IH as (? & Ha2 & b & -> & Hb).
    rewrite Ha2, Ha in *. split_and!; [done|done|]. exists b. split; [done|].
    rewrite Hb, Hin. tauto.
  - split_and!; [done|done|]. exists false. split; [done|]. rewrite Hin.
    split; [done|tauto].
Qed.

Lemma inter_loop_ok members : forall i db keys acc,
  db_wf db -> all_sets (db_abs now db) keys ->
  let '(r, db') := inter_loop (fun _ => now) alone i db members keys acc in
  db_wf db' /\ db_abs now db' = db_abs now db /\
  exists l, r = Ok (acc ++ l) /\ l `sublist_of` members /\
    forall m, m ∈ l <-> m ∈ members /\ in_all (db_abs now db) m keys.
Proof.
  induction members as [|m members IH]; intros i db keys acc Hwf Hall; cbn [inter_loop].
  { split_and!; [done|done|]. exists []. rewrite app_nil_r. split_and!; [done|done|].
    intros m. rewrite elem_of_nil. tauto. }
  pose proof (inter_check_ok i keys db m Hwf Hall) as Hc.
  destruct (inter_check _ _ _ _ _ _) as [[r i'] db1]. destruct Hc as (Hwf1 & Ha & b & -> & Hb).
  rewrite <- Ha in Hall. specialize (IH i' db1 keys (if b then acc ++ [m] else acc) Hwf1 Hall).
  destruct (inter_loop _ _ _ _ _ _ _) as [r db2]. destruct IH as (? & Ha2 & l & -> & Hsub & Hl).
  rewrite Ha2, Ha in *. split_and!; [done|done|]. destruct b.
  - exists (m :: l). rewrite <- app_assoc. split_and!; [done|by constructor|].
    intros x. rewrite !elem_of_cons, Hl. naive_solver.
  - exists l. split_and!; [done|by constructor|].
    intros x. rewrite elem_of_cons, Hl. split; [naive_solver|].
    intros [[->|?] Hin]; [by apply Hb in Hin|done].
Qed.
End MultiKey.

(** *** SMOVE as four single-key steps *)

Section Move.
Context (now : Z) (source dest member : bytes).

Definition expire_step (key : bytes) (s : Shard) : unit * Shard :=
  (tt, expire_check now s key).

Definition take_step (s : Shard) : Result bool * Shard :=
  match s !! source with
  | None => (Ok false, s)
  | Some entry =>
      match value entry with
      | VSet set =>
          let '(removed, set) := hset_remove set member in
          if negb removed then (Ok false, <[source := set_value entry (VSet set)]> s)
          else (Ok true, if bool_decide (set = ∅) then delete source s
                         else <[source := set_value entry (VSet set)]> s)
      | _ => (Err, s)
      end
  end.

Definition put_step (s : Shard) : Result bool * Shard :=
  match s !! dest with
  | Some entry' =>
      match value entry' with
      | VSet set' =>
          (Ok true, <[dest := set_value entry' (VSet (hset_insert set' member).2)]> s)
      | _ => (Err, s)
      end
  | None => (Ok true, <[dest := MkEntry (VSet (hset_insert ∅ member).2) None]> s)
  end.

Definition spec_take (c : option acell) : Result bool * option acell :=
  match c with
  | None => (Ok false, c)
  | Some (ASet X, ex) =>
      if bool_decide (member ∈ X) then (Ok true, set_cell (X ∖ {[member]}) ex)
      else (Ok false, c)
  | Some _ => (Err, c)
  end.

Definition spec_put (c : option acell) : Result bool * option acell :=
  match c with
  | None => (Ok true, Some (ASet {[member]}, None))
  | Some (ASet Y, ey) => (Ok true, Some (ASet (Y ∪ {[member]}), ey))
  | Some _ => (Err, c)
  end.

Definition move_steps (db : Db) : Result bool * Db :=
  let db := (on_shard db source (expire_step source)).2 in
  let db := (on_shard db dest (expire_step dest)).2 in
  let '(r, db) := on_shard db source take_step in
  match r with
  | Ok true => on_shard db dest put_step
  | _ => (r, db)
  end.

Lemma put_put_same db k1 k2 s1 s2 : shard_index k1 = shard_index k2 ->
  put_shard (put_shard db k1 s1) k2 s2 = put_shard db k1 s2.
Proof. intros E. unfold put_shard. simpl. by rewrite E, list_insert_insert_eq. Qed.

Lemma set_move_steps db : db_wf db ->
  set_move now now db source dest member = move_steps db.
Proof.
  intros Hwf. unfold set_move, move_steps, on_shard, expire_step. cbn [snd].
  destruct (Nat.eqb_spec (shard_index source) (shard_index dest)) as [E|E].
  - rewrite (shard_put_same _ source dest) by done.
    rewrite put_put_same by done.
    rewrite (shard_put_eq _ source) by done. unfold shard_set_move, take_step, put_step.
    cbn zeta. set (s := expire_check now _ dest).
    destruct (s !! source) as [[[| | |set| | |] ex]|] eqn:Hs; cbn [value];
      rewrite ?put_put_same by done; try done.
    cbn [hset_remove]. destruct (bool_decide (member ∈ set)); cbn [negb];
      rewrite ?put_put_same by done; [|done].
    rewrite (shard_put_same _ source dest) by done.
    destruct (_ !! dest) as [[[]]|]; cbn [value]; rewrite ?put_put_same by done; done.
  - rewrite (shard_put_ne _ source dest) by done.
    rewrite (shard_put_ne _ dest source) by done. rewrite shard_put_eq by done.
    unfold take_step, put_step.
    set (src := expire_check now (shard db source) source).
    set (dst := expire_check now (shard db dest) dest).
    assert (Hput : forall x y, put_shard (put_shard (put_shard db source src) dest x) source y =
      put_shard (put_shard db source y) dest x).
    { intros x y. unfold put_shard. simpl. rewrite list_insert_insert_ne by done.
      by rewrite list_insert_insert_eq. }
    assert (Hdd : forall s x y, put_shard (put_shard s dest x) dest y = put_shard s dest y)
      by (intros; by apply put_put_same).
    assert (Hsh : forall y x, shard (put_shard (put_shard db source y) dest x) dest = x).
    { intros y x. unfold shard, put_shard. simpl. rewrite list_lookup_insert_eq; [done|].
      rewrite length_insert. destruct Hwf as [-> _]. apply shard_index_lt. }
    destruct (src !! source) as [[[| | |set| | |] ex]|] eqn:Hs; cbn [value];
      rewrite ?Hput; try done.
    cbn [hset_remove]. destruct (bool_decide (member ∈ set)); cbn [negb];
      rewrite ?Hput; [|done].
    rewrite Hsh. destruct (dst !! dest) as [[[]]|]; cbn [value]; rewrite ?Hdd; done.
Qed.

(** Each step meets its contract, provided the key it looks at was checked. *)
Definition settled (s : Shard) (key : bytes) : Prop := is_expired now s key = false.

Lemma expire_settled s key : settled (expire_check now s key) key.
Proof.
  unfold settled, expire_check. destruct (is_expired now s key) eqn:E; [|done].
  unfold is_expired. simpl. by rewrite lookup_delete_eq.
Qed.

Lemma settled_ext s s' key : s' !! key = s !! key -> settled s key -> settled s' key.
Proof. unfold settled, is_expired. by intros ->. Qed.

Lemma expire_keeps_settled s k key : settled s k -> settled (expire_check now s key) k.
Proof.
  intros H. destruct (decide (k = key)) as [->|Hne]; [apply expire_settled|].
  apply (settled_ext s); [|done]. unfold expire_check.
  destruct (is_expired now s key); [|done]. simpl. by rewrite lookup_delete_ne.
Qed.

Lemma settled_expire s key : settled s key -> expire_check now s key = s.
Proof. unfold settled, expire_check. by intros ->. Qed.

Lemma expire_refines s key : shard_wf s ->
  op_refines eq now key s (expire_step key s) (fun c => (tt, c)).
Proof.
  intros Hwf. destruct (expire_check_spec now s key Hwf) as (Ha & Hs & Hw & _).
  by apply refines_keep.
Qed.

Lemma take_refines s : shard_wf s -> settled s source ->
  op_refines eq now source s (take_step s) spec_take.
Proof.
  intros Hwf Hset. pose proof (settled_expire _ _ Hset) as E.
  assert (take_step s = take_step (expire_check now s source)) as -> by (by rewrite E).
  clear E. unfold take_step. op_start now s source Hwf; simpl; try solve [op_done].
  destruct (decide (member ∈ X)).
  - rewrite bool_decide_true by done. simpl. case_bool_decide as He; op_done;
      rewrite ?bool_decide_true by done; simpl; unfold set_cell;
      rewrite ?bool_decide_true, ?bool_decide_false by done; done.
  - rewrite bool_decide_false by done. simpl.
    assert (X ∖ {[member]} = X) as -> by set_solver.
    op_done; by rewrite bool_decide_false.
Qed.

Lemma put_refines s : shard_wf s -> settled s dest ->
  op_refines eq now dest s (put_step s) spec_put.
Proof.
  intros Hwf Hset. pose proof (settled_expire _ _ Hset) as E.
  assert (put_step s = put_step (expire_check now s dest)) as -> by (by rewrite E).
  clear E. unfold put_step. op_start now s dest Hwf; simpl; op_done; try set_solver.
  unfold acell_of; simpl. by rewrite (left_id_L ∅ (∪)).
Qed.

Lemma take_keeps_settled s k : settled s source -> settled s k -> settled (take_step s).2 k.
Proof.
  intros Hs Hk. destruct (decide (k = source)) as [->|Hne].
  - unfold take_step. unfold settled, is_expired in *.
    destruct (s !! source) as [[[] ex]|] eqn:E; simpl in *; rewrite ?E; try done.
    destruct (bool_decide (member ∈ set)); simpl; [|by rewrite lookup_insert_eq].
    case_bool_decide; [by rewrite lookup_delete_eq|by rewrite lookup_insert_eq].
  - apply (settled_ext s); [|done]. unfold take_step.
    destruct (s !! source) as [[[] ex]|]; simpl; try done.
    destruct (bool_decide (member ∈ set)); simpl; [|by rewrite lookup_insert_ne].
    case_bool_decide; [by rewrite lookup_delete_ne|by rewrite lookup_insert_ne].
Qed.

Definition db_settled (db : Db) (key : bytes) : Prop := settled (shard db key) key.

Lemma on_shard_settled {R : Type} (db : Db) (key k : bytes) (f : Shard -> R * Shard) :
  db_wf db -> db_settled db k ->
  (forall k', settled (shard db key) k' -> settled (f (shard db key)).2 k') ->
  db_settled (on_shard db key f).2 k.
Proof.
  intros Hwf Hk Hf. unfold db_settled, on_shard in *.
  destruct (f (shard db key)) as [r s'] eqn:E; simpl in *.
  destruct (decide (shard_index k = shard_index key)) as [Ei|Ei].
  - rewrite shard_put_same by done. apply Hf. unfold shard in *. by rewrite <- Ei.
  - by rewrite shard_put_ne.
Qed.

Lemma set_move_spec db : db_wf db ->
  let res := set_move now now db source dest member in
  res.1 = (spec_set_move (db_abs now db) source dest member).1 /\
  db_abs now res.2 = (spec_set_move (db_abs now db) source dest member).2 /\
  db_wf res.2.
Proof.
  intros Hwf. cbn zeta. rewrite set_move_steps by done. unfold move_steps.
  destruct (on_shard_refines eq now source db (expire_step source) (fun c => (tt, c)) Hwf
    (expire_refines _ _ (shard_wf_of _ _ Hwf))) as (_ & Ha1 & Hwf1).
  assert (Hst1 : db_settled (on_shard db source (expire_step source)).2 source).
  { unfold db_settled, on_shard, expire_step. simpl. rewrite shard_put_eq by done.
    apply expire_settled. }
  set (db1 := (on_shard db source (expire_step source)).2) in *. clearbody db1.
  cbn [snd] in Ha1. rewrite partial_alter_self in Ha1.
  destruct (on_shard_refines eq now dest db1 (expire_step dest) (fun c => (tt, c)) Hwf1
    (expire_refines _ _ (shard_wf_of _ _ Hwf1))) as (_ & Ha2 & Hwf2).
  assert (Hst2 : db_settled (on_shard db1 dest (expire_step dest)).2 source).
  { apply on_shard_settled; [done|done|]. intros. by apply expire_keeps_settled. }
  assert (Hsd2 : db_settled (on_shard db1 dest (expire_step dest)).2 dest).
  { unfold db_settled, on_shard, expire_step. simpl. rewrite shard_put_eq by done.
    apply expire_settled. }
  set (db2 := (on_shard db1 dest (expire_step dest)).2) in *. clearbody db2.
  cbn [snd] in Ha2. rewrite partial_alter_self in Ha2. cbn zeta.
  destruct (on_shard_refines eq now source db2 take_step spec_take Hwf2
    (take_refines _ (shard_wf_of _ _ Hwf2) Hst2)) as (Hr3 & Ha3 & Hwf3).
  assert (Hsd3 : db_settled (on_shard db2 source take_step).2 dest).
  { apply on_shard_settled; [done|done|]. intros. by apply take_keeps_settled. }
  destruct (on_shard db2 source take_step) as [r db3]. simpl in Hr3, Ha3, Hwf3, Hsd3.
  rewrite Ha2, Ha1 in Hr3, Ha3. unfold spec_set_move.
  destruct (on_shard_refines eq now dest db3 put_step spec_put Hwf3
    (put_refines _ (shard_wf_of _ _ Hwf3) Hsd3)) as (Hr4 & Ha4 & Hwf4).
  destruct (db_abs now db !! source) as [[[| |X| | |] ex]|] eqn:Hsrc; simpl in Hr3, Ha3;
    subst r; try (simpl; rewrite Ha3, <- Hsrc, partial_alter_self; done).
  revert Ha3. case_bool_decide; simpl; intros Ha3;
    [|split_and!; [done| |]; [|done]; rewrite Ha3, <- Hsrc; by rewrite partial_alter_self].
  rewrite <- Ha3. rewrite Hr4, Ha4.
  destruct (db_abs now db3 !! dest) as [[[] ey]|] eqn:Hd; simpl; split_and!; try done;
    rewrite <- Hd; by rewrite partial_alter_self.
Qed.
End Move.

(** ** Operations over all shards, at one clock reading *)

Lemma purge_lookup (now : Z) (s : Shard) (k : bytes) : Shard.purge_expired_all now s !! k =
  match s !! k with Some e => if live now e then Some e else None | None => None end.
Proof.
  unfold Shard.purge_expired_all. rewrite map_lookup_filter.
  destruct (s !! k) as [e|]; simpl; [|done]. by destruct (live now e).
Qed.

Lemma purge_abs (now : Z) (s : Shard) : abs now (Shard.purge_expired_all now s) = abs now s.
Proof.
  apply map_eq. intros k. rewrite !abs_lookup, purge_lookup.
  destruct (s !! k) as [e|]; [|done]. simpl. unfold abs_entry.
  destruct (live now e) eqn:E; simpl; by rewrite ?E.
Qed.

Lemma purge_at (now : Z) (i : nat) (s : Shard) : shard_at i s -> shard_at i (Shard.purge_expired_all now s).
Proof.
  intros [Hwf Hk]. split.
  - intros k e. rewrite purge_lookup. destruct (s !! k) as [e'|] eqn:E; [|done].
    destruct (live now e'); [|done]. intros [= ->]. by apply (Hwf k).
  - intros k [e He]. apply Hk. rewrite purge_lookup in He.
    destruct (s !! k); [eauto|done].
Qed.

(** Mapping a view-preserving function over the shards. *)
Lemma fmap_shards (now : Z) (db : Db) (f : Shard -> Shard) : db_wf db ->
  (forall (i : nat) (s : Shard), shard_at i s -> shard_at i (f s) /\ abs now (f s) = abs now s) ->
  db_wf (MkDb (f <$> shards db)) /\ db_abs now (MkDb (f <$> shards db)) = db_abs now db.
Proof.
  intros [Hlen Hs] Hf. split.
  - split; [simpl; by rewrite length_fmap|]. simpl. intros i s.
    rewrite list_lookup_fmap. intros (s0 & H0 & ->)%fmap_Some. apply Hf. by apply Hs.
  - unfold db_abs. simpl. rewrite <- list_fmap_compose. f_equal.
    apply list_fmap_ext. intros i s Hi. simpl. eapply Hf. by apply Hs.
Qed.

Definition flat_keys {V} (a : gmap bytes V) : list bytes := (map_to_list a).*1.

Lemma elem_of_flat_keys {V} (a : gmap bytes V) k : k ∈ flat_keys a <-> is_Some (a !! k).
Proof.
  unfold flat_keys. rewrite list_elem_of_fmap. split.
  - intros ([k' v] & -> & Hin). apply elem_of_map_to_list in Hin. eauto.
  - intros [v Hv]. exists (k, v). split; [done|]. by apply elem_of_map_to_list.
Qed.

Section Listing.
Context `{RustStd} (now : Z).

Lemma shard_keys (s : Shard) : (hm_iter (Shard.purge_expired_all now s)).*1 ≡ₚ flat_keys (abs now s).
Proof.
  rewrite (hm_iter_perm (Shard.purge_expired_all now s)).
  apply NoDup_Permutation; [apply NoDup_fst_map_to_list|apply NoDup_fst_map_to_list|].
  intros k. change ((map_to_list ?m).*1) with (flat_keys m).
  rewrite !elem_of_flat_keys, purge_lookup, abs_lookup. destruct (s !! k) as [e|]; [|unfold is_Some; naive_solver].
  simpl. unfold abs_entry. destruct (live now e); simpl; unfold is_Some; naive_solver.
Qed.

Lemma concat_keys_perm (ss : list Shard) : forall (i0 : nat),
  (forall (i : nat) (s : Shard), ss !! i = Some s -> shard_at (i0 + i) s) ->
  concat ((fun s => flat_keys (abs now s)) <$> ss) ≡ₚ
    flat_keys (⋃ ((fun s => abs now s) <$> ss)).
Proof.
  induction ss as [|s ss IH]; intros i0 Hat; [done|].
  assert (Hat' : forall (i : nat) (s' : Shard), ss !! i = Some s' -> shard_at (S i0 + i) s').
  { intros i s' Hi. rewrite Nat.add_succ_comm. by apply (Hat (S i)). }
  assert (Hdisj : forall k, is_Some (abs now s !! k) ->
    (⋃ ((fun s => abs now s) <$> ss) : gmap bytes acell) !! k = None).
  { intros k Hk. rewrite (union_list_lookup (fun s => abs now s) (abs_absent now) ss (S i0) k Hat').
    destruct (Hat 0%nat s eq_refl) as [_ Hs]. rewrite Nat.add_0_r in Hs.
    rewrite (Hs k) by (rewrite abs_lookup in Hk; destruct (s !! k); [eauto|by destruct Hk]).
    rewrite (proj2 (Nat.leb_gt _ _)) by lia. by case_match. }
  cbn [fmap list_fmap concat union_list foldr]. change (foldr (∪) ∅ ?l) with (⋃ l).
  fold (fmap (M := list) (fun s : Shard => flat_keys (abs now s)) ss).
  change (list_fmap _ _ ?f ss) with (f <$> ss).
  rewrite (IH (S i0) Hat'). apply NoDup_Permutation; [|apply NoDup_fst_map_to_list|].
  - apply NoDup_app. split_and!; [apply NoDup_fst_map_to_list| |apply NoDup_fst_map_to_list].
    intros k H1%elem_of_flat_keys H2%elem_of_flat_keys.
    rewrite Hdisj in H2 by done. by destruct H2.
  - intros k. rewrite elem_of_app, !elem_of_flat_keys, lookup_union_is_Some. done.
Qed.

Lemma keys_matching_spec (db : Db) (pattern : bytes) : db_wf db ->
  let r := keys_matching (fun _ => now) alone db pattern in
  StronglySorted bytes_le r.1 /\
  r.1 ≡ₚ filter (fun k => glob_match k pattern = true) (flat_keys (db_abs now db)) /\
  db_abs now r.2 = db_abs now db /\ db_wf r.2.
Proof.
  intros Hwf. assert (keys_matching (fun _ => now) alone db pattern =
    let rs := (fun s => Shard.keys_matching now s pattern) <$> shards db in
    (sort_bytes (concat rs.*1), MkDb rs.*2)) as ->.
  { unfold keys_matching. by rewrite (each_shard_same (fun s => Shard.keys_matching now s pattern)). }
  cbn zeta. cbn [fst snd]. rewrite <- !list_fmap_compose.
  destruct (fmap_shards now db (fun s => (Shard.keys_matching now s pattern).2) Hwf)
    as [H1 H2].
  { intros i s Hs. simpl. split; [by apply purge_at|apply purge_abs]. }
  split_and!; [apply sort_bytes_sorted| |done|done].
  rewrite sort_bytes_perm.
  assert (Hp : concat (((fun r => r.1) ∘ (fun s => Shard.keys_matching now s pattern)) <$>
      shards db) ≡ₚ
    filter (fun k => glob_match k pattern = true)
      (concat ((fun s => flat_keys (abs now s)) <$> shards db))).
  { clear H1 H2 Hwf. induction (shards db) as [|s ss IH]; simpl; [done|].
    rewrite filter_app. apply Permutation_app; [|exact IH].
    rewrite sort_bytes_perm. by rewrite shard_keys. }
  etransitivity; [exact Hp|]. by rewrite (concat_keys_perm _ 0) by apply Hwf.
Qed.

Lemma len_spec (db : Db) : db_wf db ->
  let r := len (fun _ => now) alone db in
  r.1 = size (db_abs now db) /\ db_abs now r.2 = db_abs now db /\ db_wf r.2.
Proof.
  intros Hwf. assert (len (fun _ => now) alone db =
    let rs := (fun s => Shard.len now s) <$> shards db in
    (sum_list rs.*1, MkDb rs.*2)) as ->.
  { unfold len. by rewrite (each_shard_same (fun s => Shard.len now s)). }
  cbn zeta. cbn [fst snd]. rewrite <- !list_fmap_compose.
  destruct (fmap_shards now db (fun s => (Shard.len now s).2) Hwf) as [H1 H2].
  { intros i s Hs. simpl. split; [by apply purge_at|apply purge_abs]. }
  split_and!; [|done|done].
  assert (Hl : sum_list (((fun r => r.1) ∘ (fun s => Shard.len now s)) <$> shards db) =
    length (concat ((fun s => flat_keys (abs now s)) <$> shards db))).
  { clear H1 H2 Hwf. induction (shards db) as [|s ss IH]; simpl; [done|].
    rewrite length_app, <- shard_keys, length_fmap, (Permutation_length (hm_iter_perm _)).
    rewrite length_map_to_list. f_equal. exact IH. }
  etransitivity; [exact Hl|]. rewrite (concat_keys_perm _ 0) by apply Hwf.
  unfold flat_keys. by rewrite length_fmap, length_map_to_list.
Qed.
End Listing.

Lemma flush_spec (now : Z) (db : Db) : db_wf db ->
  db_abs now (flush alone db).2 = ∅ /\ db_wf (flush alone db).2.
Proof.
  intros [Hlen Hs]. unfold flush. rewrite each_shard_same. cbn [snd].
  assert (Hsh : forall i s, (shards (MkDb (Shard.flush <$> shards db).*2)) !! i = Some s -> s = ∅).
  { intros i s. simpl. rewrite !list_lookup_fmap. by destruct (shards db !! i); intros [= <-]. }
  assert (Hwf : db_wf (MkDb (Shard.flush <$> shards db).*2)).
  { split; [simpl; by rewrite !length_fmap|]. intros i s Hi%Hsh. subst.
    split; [apply map_Forall_empty|]. intros k [? ?]. done. }
  split; [|done]. apply map_eq. intros k. rewrite db_abs_lookup by done.
  destruct (shard_lookup _ k Hwf) as [Hl%Hsh _].
  exact (f_equal (fun s => abs now s !! k) Hl).
Qed.

Lemma spec_union_ok a keys :
  match spec_union a keys with
  | Some X => all_sets a keys /\
      forall m, m ∈ X <-> exists k Y, k ∈ keys /\ aset (a !! k) = Some Y /\ m ∈ Y
  | None => ~ all_sets a keys
  end.
Proof.
  unfold all_sets. induction keys as [|k keys IH]; cbn [spec_union foldr].
  - split; [constructor|]. intros m. split; [set_solver|].
    intros (k & Y & Hk & _). by apply elem_of_nil in Hk.
  - change (foldr ?f (Some ∅) keys) with (spec_union a keys).
    destruct (aset (a !! k)) as [X|] eqn:HX; simpl;
      [|rewrite Forall_cons, HX; intros [[? ?] _]; done].
    destruct (spec_union a keys) as [Y|]; simpl; rewrite Forall_cons, HX; [|tauto].
    destruct IH as [Hall IH]. split; [eauto|]. intros m. rewrite elem_of_union, IH. setoid_rewrite elem_of_cons.
    naive_solver.
Qed.

(** SUNION and SINTER, as the command handlers use them. *)
Lemma set_union_ok `{RustStd} (now : Z) (db : Db) (keys : list bytes) : db_wf db ->
  db_wf (set_union (fun _ => now) alone db keys).2 /\
  db_abs now (set_union (fun _ => now) alone db keys).2 = db_abs now db /\
  (set_union (fun _ => now) alone db keys).1 =
    match spec_union (db_abs now db) keys with
    | Some X => Ok (hset_iter X)
    | None => Err
    end.
Proof.
  intros Hwf. unfold set_union. pose proof (union_loop_ok now 0 keys db ∅ Hwf) as Hu.
  destruct (union_loop _ _ _ _ _ _) as [r db']. destruct Hu as (? & Ha & ->).
  split_and!; [done|done|]. destruct (spec_union _ _); [|done].
  by rewrite (left_id_L ∅ (∪)).
Qed.

Definition same_view (now : Z) (db db' : Db) : Prop :=
  db_wf db' /\ db_abs now db' = db_abs now db.

Lemma same_view_trans now db1 db2 db3 :
  same_view now db1 db2 -> same_view now db2 db3 -> same_view now db1 db3.
Proof. unfold same_view. intros [? E1] [? E2]. split; [done|]. by rewrite E2. Qed.

Lemma inter_check_view `{RustStd} (now : Z) keys : forall i db m, db_wf db ->
  same_view now db (inter_check (fun _ => now) alone i db m keys).2.
Proof.
  induction keys as [|key keys IH]; intros i db m Hwf; cbn [inter_check]; change (alone i db) with db; [done|].
  pose proof (set_is_member_read now db key m Hwf) as Hr.
  destruct (set_is_member now db key m) as [r db1]. destruct Hr as (Hwf1 & Ha & _).
  destruct r as [[]|]; [|done..].
  eapply same_view_trans; [|by apply IH]. done.
Qed.

Lemma inter_loop_view `{RustStd} (now : Z) members : forall i db keys acc, db_wf db ->
  same_view now db (inter_loop (fun _ => now) alone i db members keys acc).2.
Proof.
  induction members as [|m members IH]; intros i db keys acc Hwf; cbn [inter_loop]; [done|].
  pose proof (inter_check_view now keys i db m Hwf) as Hc.
  destruct (inter_check _ _ _ _ _ _) as [[r i'] db1]. simpl in Hc.
  destruct r; [|done]. eapply same_view_trans; [exact Hc|]. apply IH. apply Hc.
Qed.

Lemma set_inter_view `{RustStd} (now : Z) (db : Db) (keys : list bytes) : db_wf db ->
  same_view now db (set_inter (fun _ => now) alone db keys).2.
Proof.
  intros Hwf. unfold set_inter. destruct keys as [|k keys]; [done|]. change (alone 0%nat db) with db.
  pose proof (set_members_read now db k Hwf) as Hm.
  destruct (set_members now db k) as [r db1]. destruct Hm as (Hwf1 & Ha & _).
  destruct r as [[|m first]|]; [done| |done].
  eapply same_view_trans; [|by apply inter_loop_view]. done.
Qed.

Lemma set_inter_ok `{RustStd} (now : Z) (db : Db) (keys : list bytes) : db_wf db ->
  all_sets (db_abs now db) keys ->
  db_abs now (set_inter (fun _ => now) alone db keys).2 = db_abs now db /\
  exists l, (set_inter (fun _ => now) alone db keys).1 = Ok l /\ NoDup l /\
    forall m, m ∈ l <-> keys <> [] /\ in_all (db_abs now db) m keys.
Proof.
  intros Hwf Hall. unfold set_inter. destruct keys as [|k keys].
  { split; [done|]. exists []. split_and!; [done|constructor|].
    intros m. rewrite elem_of_nil. naive_solver. }
  apply Forall_cons in Hall as [[X HX] Hall].
  change (alone 0%nat db) with db. pose proof (set_members_read now db k Hwf) as Hm.
  destruct (set_members now db k) as [r db1]. destruct Hm as (Hwf1 & Ha1 & Hm).
  rewrite HX in Hm. destruct Hm as (first & -> & Hf). rewrite <- Ha1 in Hall.
  pose proof (inter_loop_ok now first 1 db1 keys [] Hwf1 Hall) as Hl.
  assert (Hnd : NoDup first) by (rewrite Hf; apply NoDup_elements).
  assert (Hmem : forall m, m ∈ first <-> m ∈ X)
    by (intros m; by rewrite Hf, elem_of_elements).
  destruct first as [|m0 first].
  { split; [done|]. exists []. split_and!; [done|constructor|]. intros m.
    rewrite (in_all_cons _ _ _ _ X) by done. rewrite <- Hmem, elem_of_nil. tauto. }
  destruct (inter_loop _ _ _ _ _ _ _) as [r db2]. destruct Hl as (_ & Ha2 & l & -> & Hsub & Hl).
  split; [simpl; congruence|]. exists l. split_and!; [done|by eapply sublist_NoDup|].
  intros m. rewrite Hl, Ha1, Hmem, (in_all_cons _ _ _ _ X) by done. naive_solver.
Qed.

(** *** Among other connections

    SUNION locks one bucket at a time.  Whatever the others do in between, its answer is the union of the
    sets its keys held when their turns came. *)
Section Among.
Context `{RustStd} (clk : nat -> Z) (between : nat -> Db -> Db)
  (Hbetween : forall i db, db_wf db -> db_wf (between i db)).

Fixpoint seen_cells (i : nat) (db : Db) (keys : list bytes) : list (option acell) :=
  match keys with
  | [] => []
  | key :: keys' =>
      db_abs (clk i) (between i db) !! key ::
      seen_cells (S i) (set_members (clk i) (between i db) key).2 keys'
  end.

Definition union_cells (cs : list (option acell)) : option (gset bytes) :=
  foldr (fun c r => X ← aset c; Y ← r; Some (X ∪ Y)) (Some ∅) cs.

Lemma union_loop_among keys : forall i db acc, db_wf db ->
  let '(r, db') := union_loop clk between i db keys acc in
  db_wf db' /\
  r = match union_cells (seen_cells i db keys) with Some X => Ok (acc ∪ X) | None => Err end.
Proof.
  induction keys as [|key keys IH]; intros i db acc Hwf; cbn [union_loop seen_cells].
  { split; [done|]. cbn. by rewrite (right_id_L ∅ (∪)). }
  pose proof (set_members_read (clk i) (between i db) key (Hbetween _ _ Hwf)) as Hr.
  destruct (set_members (clk i) (between i db) key) as [r db1]. destruct Hr as (Hwf1 & _ & Hr). cbn [snd].
  unfold union_cells in *. cbn [foldr].
  destruct (aset (db_abs (clk i) (between i db) !! key)) as [X|]; cbn [mbind option_bind]; [|by subst].
  destruct Hr as (l & -> & Hl). specialize (IH (S i) db1 (acc ∪ list_to_set l) Hwf1).
  destruct (union_loop _ _ _ _ _ _) as [r' db2]. destruct IH as (? & ->). split; [done|].
  destruct (foldr _ _ _) as [Y|]; cbn [mbind option_bind]; [|done].
  f_equal. assert (list_to_set l = X) as ->; [|set_solver].
  apply set_eq. intros x. rewrite elem_of_list_to_set, Hl. set_solver.
Qed.

Theorem set_union_among (db : Db) (keys : list bytes) (Hwf : db_wf db) :
  db_wf (set_union clk between db keys).2 /\
  (set_union clk between db keys).1 =
    match union_cells (seen_cells 0 db keys) with Some X => Ok (hset_iter X) | None => Err end.
Proof.
  unfold set_union. pose proof (union_loop_among keys 0 db ∅ Hwf) as Hu.
  destruct (union_loop _ _ _ _ _ _) as [r db']. destruct Hu as (H1 & ->). split; [done|].
  destruct (union_cells _) as [X|]; [|done]. by rewrite (left_id_L ∅ (∪)).
Qed.

End Among.

(** ** Properties *)

(** C2: a run of single-key operations on the sharded store never panics and answers what the
    same run answers on one flat map, whatever the clock reads.  An expired key stays in that map
    until an operation meets it: SET, DEL and EXPIRE take it as it is, every other one drops it first.
    When time does not go back and no DEL or EXPIRE meets an expired key, laziness is invisible
    too: the answers are those of the flat map from which expired keys vanish by themselves, and
    the store ends in the state that map stands for.  The 64 buckets, the two representations of
    counters and hashes, and the order of removals inside a bucket never show.  The arguments are
    those the handlers pass (no NaN score, no empty push or SADD), and the [stop] of an LTRIM is
    not before the first element. *)
Theorem db_run_refines `{RustStd} (db : Db) (rs : list request)
    (Hwf : db_wf db) (Hfit : run_fits (db_cells db) rs) :
  exists os db', db_run db rs = Some (os, db') /\ db_wf db' /\
    Forall2 out_rel os (cells_run (db_cells db) rs).1 /\
    db_cells db' = (cells_run (db_cells db) rs).2 /\
    forall t, unnoticed t (db_cells db) rs ->
      Forall2 out_rel os (flat_run (db_abs t db) rs).1 /\
      db_abs (last_time t rs) db' = (flat_run (db_abs t db) rs).2.
Proof.
  destruct (db_run_cells rs db Hwf Hfit) as (os & db' & E & Hwf' & H1 & H2).
  exists os, db'. split_and!; [done..|]. intros t Hun.
  destruct (db_run_refines_flat rs t db Hwf (unnoticed_ok rs t db Hwf Hfit Hun)) as (os' & db2 & E' & H3 & H4 & _).
  rewrite E in E'. by injection E' as <- <-.
Qed.

Definition sample_run : list request :=
  [Request 0 (b! "n") (KSetStringRef (b! "41") (Some 100));
   Request 1 (b! "n") (KIncrBy 1);
   Request 2 (b! "n") (KAppend (b! "0"));
   Request 3 (b! "l") (KListPush [b! "a"; b! "b"; b! "c"] true);
   Request 4 (b! "l") (KListPop true);
   Request 99 (b! "n") KGet;
   Request 100 (b! "n") KGet;
   Request 101 (b! "l") (KListRange 0 (-1))].

Lemma db_run_refines_witness :
  fst <$> db_run new sample_run =
    Some [OUnit tt; RInt (Ok 42); RInt (Ok 3); RInt (Ok 3); ROpt (Ok (Some (b! "c")));
          ROpt (Ok (Some (b! "420"))); ROpt (Ok None); RList (Ok [b! "b"; b! "a"])] /\
  exists os db', db_run new sample_run = Some (os, db') /\
    Forall2 out_rel os (flat_run (db_abs 0 new) sample_run).1 /\
    db_abs (last_time 0 sample_run) db' = (flat_run (db_abs 0 new) sample_run).2 /\ db_wf db'.
Proof.
  split; [vm_compute; reflexivity|].
  destruct (db_run_refines new sample_run) as (os & db' & E & Hwf & _ & _ & Hun).
  - apply new_wf.
  - vm_compute. repeat (split; try done).
  - destruct (Hun 0) as [H1 H2]; [vm_compute; repeat (split; try done)|].
    exists os, db'. exact (conj E (conj H1 (conj H2 Hwf))).
Defined.

(** SMOVE, on keys in one bucket or in two and whatever is expired, moves the member on
    the flat map in one step: it answers and updates as [spec_set_move] says and keeps the
    store well formed. *)
Theorem set_move_refines (now : Z) (db : Db) (source dest member : bytes) (Hwf : db_wf db) :
  let res := set_move now now db source dest member in
  res.1 = (spec_set_move (db_abs now db) source dest member).1 /\
  db_abs now res.2 = (spec_set_move (db_abs now db) source dest member).2 /\
  db_wf res.2.
Proof. by apply set_move_spec. Qed.

Definition two_sets : Db :=
  (set_add 0 (set_add 0 new (b! "s") [b! "x"; b! "y"]).2 (b! "t") [b! "z"]).2.

Lemma two_sets_wf : db_wf two_sets.
Proof.
  unfold two_sets, set_add.
  assert (H1 := on_shard_refines eq 0 (b! "s") new
    (fun s => ShardSet.set_add 0 s (b! "s") [b! "x"; b! "y"]) _ new_wf
    (set_add_refines 0 _ (b! "s") (shard_wf_of _ _ new_wf) [b! "x"; b! "y"] ltac:(done))).
  destruct H1 as (_ & _ & H1).
  assert (H2 := on_shard_refines eq 0 (b! "t") _
    (fun s => ShardSet.set_add 0 s (b! "t") [b! "z"]) _ H1
    (set_add_refines 0 _ (b! "t") (shard_wf_of _ _ H1) [b! "z"] ltac:(done))).
  by destruct H2 as (_ & _ & H2).
Qed.

Lemma set_move_refines_witness :
  shard_index (b! "s") <> shard_index (b! "t") /\
  (set_move 0 0 two_sets (b! "s") (b! "t") (b! "x")).1 = Ok true /\
  db_abs 0 (set_move 0 0 two_sets (b! "s") (b! "t") (b! "x")).2 =
    (spec_set_move (db_abs 0 two_sets) (b! "s") (b! "t") (b! "x")).2.
Proof.
  split; [by vm_compute|]. split; [by vm_compute|].
  apply (set_move_refines 0 two_sets (b! "s") (b! "t") (b! "x") two_sets_wf).
Defined.

(** SMOVE loses the member when the destination holds another type: it answers the
    error after it has removed the member from the source, which then no longer exists if
    that was its last member; the destination is unchanged. *)
Theorem set_move_wrongtype_loses_member (now : Z) (db : Db) (source dest member : bytes)
    (X : gset bytes) (ex : option Z) (c : acell) (Hwf : db_wf db) (Hne : source <> dest)
    (Hsrc : db_abs now db !! source = Some (ASet X, ex)) (Hin : member ∈ X)
    (Hdst : db_abs now db !! dest = Some c) (Htype : aset (Some c) = None) :
  let res := set_move now now db source dest member in
  res.1 = Err /\
  db_abs now res.2 !! source = set_cell (X ∖ {[member]}) ex /\
  db_abs now res.2 !! dest = Some c.
Proof.
  cbn zeta. destruct (set_move_spec now source dest member db Hwf) as (-> & -> & _).
  unfold spec_set_move. rewrite Hsrc, bool_decide_true by done. cbn zeta.
  set (a := partial_alter _ source (db_abs now db)).
  assert (E : a !! dest = Some c) by (unfold a; by rewrite lookup_partial_alter_ne).
  assert (E' : a !! source = set_cell (X ∖ {[member]}) ex) by apply lookup_partial_alter_eq.
  clearbody a. rewrite E. destruct c as [[] ey]; done.
Qed.

Definition set_and_string : Db :=
  Db.set (set_add 0 new (b! "s") [b! "x"]).2 (b! "t") (VString (b! "v")) None.

Lemma set_and_string_wf : db_wf set_and_string.
Proof.
  unfold set_and_string, set_add, Db.set.
  assert (H1 := on_shard_refines eq 0 (b! "s") new
    (fun s => ShardSet.set_add 0 s (b! "s") [b! "x"]) _ new_wf
    (set_add_refines 0 _ (b! "s") (shard_wf_of _ _ new_wf) [b! "x"] ltac:(done))).
  destruct H1 as (_ & _ & H1).
  assert (H2 := on_shard_refines eq 0 (b! "t") _
    (fun s => (tt, Shard.set s (b! "t") (VString (b! "v")) None)) _ H1
    (set_refines 0 _ (b! "t") (shard_wf_of _ _ H1) (VString (b! "v")) None I)).
  by destruct H2 as (_ & _ & H2).
Qed.

Lemma set_move_wrongtype_loses_member_witness :
  db_abs 0 (set_move 0 0 set_and_string (b! "s") (b! "t") (b! "x")).2 !! b! "s" = None /\
  (set_move 0 0 set_and_string (b! "s") (b! "t") (b! "x")).1 = Err.
Proof.
  destruct (set_move_wrongtype_loses_member 0 set_and_string (b! "s") (b! "t") (b! "x")
    {[b! "x"]} None (AStr (b! "v"), None) set_and_string_wf) as (H1 & H2 & H3);
    [done|by vm_compute|by vm_compute|by vm_compute|done|].
  split; [by rewrite H2|done].
Defined.

(** SUNION and SINTER over any number of keys answer exactly the union and the
    intersection of the sets the keys hold, an absent or expired key counting as an empty
    set, and change nothing a client can see.  SUNION fails exactly when some key holds
    another type. *)
Theorem set_union_inter_exact `{RustStd} (now : Z) (db : Db) (keys : list bytes)
    (Hwf : db_wf db) :
  db_abs now (set_union (fun _ => now) alone db keys).2 = db_abs now db /\
  match (set_union (fun _ => now) alone db keys).1 with
  | Ok l => all_sets (db_abs now db) keys /\ NoDup l /\
      forall m, m ∈ l <-> exists k X, k ∈ keys /\ aset (db_abs now db !! k) = Some X /\ m ∈ X
  | Err => ~ all_sets (db_abs now db) keys
  end /\
  (all_sets (db_abs now db) keys ->
   db_abs now (set_inter (fun _ => now) alone db keys).2 = db_abs now db /\
   exists l, (set_inter (fun _ => now) alone db keys).1 = Ok l /\ NoDup l /\
     forall m, m ∈ l <-> keys <> [] /\ in_all (db_abs now db) m keys).
Proof.
  destruct (set_union_ok now db keys Hwf) as [_ Hu].
  destruct Hu as [Ha ->]. split; [done|]. split.
  - pose proof (spec_union_ok (db_abs now db) keys) as Hs.
    destruct (spec_union _ _) as [X|]; [|done]. destruct Hs as [Hall Hs].
    split_and!; [done| |].
    + rewrite hset_iter_perm. apply NoDup_elements.
    + intros m. rewrite hset_iter_perm, elem_of_elements. apply Hs.
  - intros Hall. by apply set_inter_ok.
Qed.

Lemma set_union_inter_exact_witness :
  (set_union (fun _ => 0) alone two_sets [b! "s"; b! "t"; b! "u"]).1 =
    Ok [b! "z"; b! "y"; b! "x"] /\
  db_abs 0 (set_union (fun _ => 0) alone two_sets [b! "s"; b! "t"; b! "u"]).2 = db_abs 0 two_sets.
Proof.
  split; [by vm_compute|].
  exact (proj1 (set_union_inter_exact 0 two_sets [b! "s"; b! "t"; b! "u"] two_sets_wf)).
Defined.

(** KEYS answers exactly the live keys that match the pattern, sorted, each once,
    gathered from all 64 buckets, and DBSIZE counts the live keys; both purge expired keys
    and change nothing a client can see. *)
Theorem keys_matching_exact `{RustStd} (now : Z) (db : Db) (pattern : bytes) (Hwf : db_wf db) :
  let r := keys_matching (fun _ => now) alone db pattern in
  StronglySorted bytes_le r.1 /\ NoDup r.1 /\
  (forall k, k ∈ r.1 <-> is_Some (db_abs now db !! k) /\ Glob pattern 0 k) /\
  db_abs now r.2 = db_abs now db /\ db_wf r.2 /\
  (len (fun _ => now) alone db).1 = size (db_abs now db) /\
  db_abs now (len (fun _ => now) alone db).2 = db_abs now db.
Proof.
  cbn zeta. destruct (keys_matching_spec now db pattern Hwf) as (H1 & H2 & H3 & H4).
  destruct (len_spec now db Hwf) as (H5 & H6 & _).
  split_and!; try done.
  - rewrite H2. apply NoDup_filter. apply NoDup_fst_map_to_list.
  - intros k. rewrite H2, list_elem_of_filter, elem_of_flat_keys.
    unfold glob_match. destruct (glob_match_correct k pattern) as (b & -> & Hb).
    simpl. rewrite <- Hb. tauto.
Qed.

Lemma keys_matching_exact_witness :
  (keys_matching (fun _ => 0) alone two_sets (b! "[a-s]")).1 = [b! "s"] /\
  (forall k, k ∈ (keys_matching (fun _ => 0) alone two_sets (b! "[a-s]")).1 <->
     is_Some (db_abs 0 two_sets !! k) /\ Glob (b! "[a-s]") 0 k).
Proof.
  split; [by vm_compute|].
  apply (keys_matching_exact 0 two_sets (b! "[a-s]") two_sets_wf).
Defined.
