(* ===== verification/Resp.v ===== *)
(** * Resp: the wire protocol

    [src/muon_cache/resp.rs]: the encoder of replies, and the reader, which parses nested
    arrays with an explicit stack of frames instead of recursion and falls back to inline
    commands.  The input is the bytes the client has sent before closing; [read_exact] past
    them is an I/O error ([IoErr]) and a clean end at a value's first byte is [Eof].  The reader
    allocates what a header announces before it has read any of it: [Dies] is the panic of
    [Vec::with_capacity] on a capacity overflow, or the abort when the allocator refuses.
    Allocations of the size of what has been read are taken to succeed. *)
From S2P Require Import Prelude.
From S2P Require Import IntCodec.
From S2P Require Import Utf8.

(** ** Values *)

Inductive RespValue :=
  | Simple (s : bytes)
  | Error (s : bytes)
  | Integer (n : Z)
  | Blob (b : bytes)
  | Null
  | Array (items : list RespValue)
  | StaticSimple (s : bytes)
  | StaticError (s : bytes).

(** Induction through the items of arrays. *)
Section RespInd.
Context (P : RespValue -> Prop)
  (HS : forall s, P (Simple s)) (HE : forall s, P (Error s)) (HI : forall n, P (Integer n))
  (HB : forall b, P (Blob b)) (HN : P Null)
  (HA : forall items, Forall P items -> P (Array items))
  (HSS : forall s, P (StaticSimple s)) (HSE : forall s, P (StaticError s)).

Fixpoint resp_ind (v : RespValue) : P v :=
  match v with
  | Simple s => HS s
  | Error s => HE s
  | Integer n => HI n
  | Blob b => HB b
  | Null => HN
  | Array items => HA items
      ((fix go l : Forall P l :=
          match l with
          | [] => Forall_nil_2 P
          | x :: l' => Forall_cons_2 P x l' (resp_ind x) (go l')
          end) items)
  | StaticSimple s => HSS s
  | StaticError s => HSE s
  end.
End RespInd.

(** ** Encoding *)

(** The [while n > 0] loop of [push_usize] and [push_i64]; [tmp] is the part written. *)
Fixpoint push_digits (fuel : nat) (n : Z) (tmp : bytes) : bytes :=
  match fuel with
  | O => tmp
  | S fuel' => if 0 <? n then push_digits fuel' (n / 10) (c_0 + n `mod` 10 :: tmp) else tmp
  end.

Definition push_usize (n : Z) : bytes := if n =? 0 then [c_0] else push_digits 20 n [].

Definition push_i64 (n : Z) : bytes :=
  if n =? 0 then [c_0]
  else if n <? 0 then c_minus :: push_digits 20 (- n) [] else push_digits 20 n [].

Definition crlf : bytes := [CR; LF].
Definition blen (l : bytes) : Z := Z.of_nat (length l).

Definition encode_blob (b : bytes) : bytes := 36 :: push_usize (blen b) ++ crlf ++ b ++ crlf.

(** What [encode] appends to its buffer. *)
Fixpoint encode (v : RespValue) : bytes :=
  match v with
  | Simple s | StaticSimple s => 43 :: s ++ crlf
  | Error s | StaticError s => 45 :: s ++ crlf
  | Integer n => 58 :: push_i64 n ++ crlf
  | Blob b => encode_blob b
  | Null => [95; CR; LF]
  | Array items =>
      42 :: push_usize (Z.of_nat (length items)) ++ crlf ++ concat (encode <$> items)
  end.

Definition encode_array_of_blobs (items : list bytes) : bytes :=
  42 :: push_usize (Z.of_nat (length items)) ++ crlf ++ concat (encode_blob <$> items).

Fixpoint estimate_encoded_len (v : RespValue) : Z :=
  match v with
  | Simple s | Error s | StaticSimple s | StaticError s => 3 + blen s
  | Integer _ => 24
  | Blob b => 16 + blen b
  | Null => 3
  | Array items => 16 + foldr Z.add 0 (estimate_encoded_len <$> items)
  end.

(** ** Reading *)

(** [parse_i64_bytes] of this file: [checked_mul] and [checked_add] on an [i64]. *)
Fixpoint parse_i64_digits (l : bytes) (value : Z) : option Z :=
  match l with
  | [] => Some value
  | c :: l' =>
      if is_digit c then
        if i64_max <? value * 10 then None
        else
          let value := value * 10 + (c - c_0) in
          if i64_max <? value then None else parse_i64_digits l' value
      else None
  end.

Definition parse_i64_bytes (l : bytes) : option Z :=
  match l with
  | [] => None
  | b :: rest =>
      let negative := b =? c_minus in
      let digits := if negative then rest else l in
      match digits with
      | [] => None
      | _ => (fun v => if negative then - v else v) <$> parse_i64_digits digits 0
      end
  end.

(** [read_until(b'\n')]: up to and including the line feed, or to the end. *)
Fixpoint read_until_lf (input : bytes) : bytes * bytes :=
  match input with
  | [] => ([], [])
  | b :: rest =>
      if b =? LF then ([b], rest)
      else let '(line, rest) := read_until_lf rest in (b :: line, rest)
  end.

(** Strip a trailing CRLF or LF. *)
Definition strip_eol (line : bytes) : bytes :=
  if ends_with crlf line then take (length line - 2) line
  else if ends_with [LF] line then take (length line - 1) line
  else line.

Definition read_line_bytes (input : bytes) : bytes * bytes :=
  let '(line, rest) := read_until_lf input in (strip_eol line, rest).

(** [io::Result<Option<A>>], with the unread input. *)
Inductive Read (A : Type) :=
  | Got (a : A) (rest : bytes)
  | Eof
  | IoErr
  | Dies.
Arguments Got {A} a rest.
Arguments Eof {A}.
Arguments IoErr {A}.
Arguments Dies {A}.

(** What the allocator has to serve before a blob's bytes and an array's items are read:
    [vec![0u8; len]] and [Vec::<RespValue>::with_capacity(len)], which panics when it would take
    more than [isize::MAX] bytes. *)
Definition buffer_ok `{RustStd} (len : Z) : bool := (len =? 0) || alloc_ok len.
Definition capacity_ok `{RustStd} (len : Z) : bool :=
  let size := len * resp_value_size in (size <=? i64_max) && ((size =? 0) || alloc_ok size).

(** [read_exact]. *)
Definition read_exact (n : nat) (input : bytes) : option (bytes * bytes) :=
  if (n <=? length input)%nat then Some (take n input, drop n input) else None.

Definition is_ascii_whitespace (b : Z) : bool :=
  (b =? 32) || (b =? 9) || (b =? 10) || (b =? 12) || (b =? 13).

(** [line.split(..)], keeping the non-empty parts; [cur] is the part being read. *)
Fixpoint split_words (line cur : bytes) : list bytes :=
  match line with
  | [] => match cur with [] => [] | _ => [rev cur] end
  | b :: line' =>
      if is_ascii_whitespace b
      then match cur with
           | [] => split_words line' []
           | _ => rev cur :: split_words line' []
           end
      else split_words line' (b :: cur)
  end.

Definition read_inline_command (first_byte : Z) (input : bytes) : Read RespValue :=
  let '(tail, rest) := read_until_lf input in
  Got (Array (Blob <$> split_words (strip_eol (first_byte :: tail)) [])) rest.

Definition read_array_len (input : bytes) : Z * bytes :=
  let '(line, rest) := read_line_bytes input in
  (default (-1) (parse_i64_bytes line), rest).

(** [ArrayFrame]: how many items are missing, and the ones read. *)
Record ArrayFrame := Frame { remaining : Z; items : list RespValue }.

Section Reader.
Context `{RustStd}.

Definition read_single_element (tag : Z) (allow_inline : bool) (input : bytes)
    : Read RespValue :=
  let '(line, rest) := read_line_bytes input in
  if tag =? 43 then Got (Simple (from_utf8_lossy line)) rest
  else if tag =? 45 then Got (Error (from_utf8_lossy line)) rest
  else if tag =? 58 then Got (Integer (default 0 (parse_i64_bytes line))) rest
  else if tag =? 95 then Got Null rest
  else if tag =? 36 then
    let len := default (-1) (parse_i64_bytes line) in
    if len <? 0 then Got Null rest
    else if negb (buffer_ok len) then Dies
    else
      match read_exact (Z.to_nat len) rest with
      | None => IoErr
      | Some (buf, rest) =>
          match read_exact 2 rest with
          | None => IoErr
          | Some (_, rest) => Got (Blob buf) rest
          end
      end
  else if allow_inline then read_inline_command tag input
  else Got (StaticError (b! "ERR unknown RESP type")) input.

(** [None] when [Vec::with_capacity] does not return. *)
Definition frame_new (len : Z) : option ArrayFrame :=
  if capacity_ok len then Some (Frame len []) else None.
Definition frame_push (f : ArrayFrame) (v : RespValue) : ArrayFrame :=
  Frame (remaining f - 1) (items f ++ [v]).

(** The [loop] of [read_value_from_tag]; the outer [None] is running out of fuel. *)
Fixpoint array_loop (fuel : nat) (input : bytes) (current : ArrayFrame)
    (stack : list ArrayFrame) : option (Read RespValue) :=
  match fuel with
  | O => None
  | S fuel' =>
      if remaining current =? 0 then
        let completed := Array (items current) in
        match stack with
        | parent :: stack => array_loop fuel' input (frame_push parent completed) stack
        | [] => Some (Got completed input)
        end
      else
        match input with
        | [] => Some Eof
        | tag :: input =>
            if tag =? 42 then
              let '(len, input) := read_array_len input in
              if len <? 0 then array_loop fuel' input (frame_push current Null) stack
              else
                match frame_new len with
                | Some frame => array_loop fuel' input frame (current :: stack)
                | None => Some Dies
                end
            else
              match read_single_element tag false input with
              | Got v input => array_loop fuel' input (frame_push current v) stack
              | Eof => Some Eof
              | IoErr => Some IoErr
              | Dies => Some Dies
              end
        end
  end.

(** Enough rounds for [input]: each one consumes a byte or closes a frame. *)
Definition loop_fuel (input : bytes) (stack : list ArrayFrame) : nat :=
  (2 * length input + length stack + 1)%nat.

Definition read_value_from_tag (tag : Z) (input : bytes) : option (Read RespValue) :=
  if negb (tag =? 42) then Some (read_single_element tag true input)
  else
    let '(len, input) := read_array_len input in
    if len <? 0 then Some (Got Null input)
    else
      match frame_new len with
      | Some frame => array_loop (loop_fuel input []) input frame []
      | None => Some Dies
      end.

Definition read_value (input : bytes) : option (Read RespValue) :=
  match input with
  | [] => Some Eof
  | tag :: rest => read_value_from_tag tag rest
  end.
End Reader.

Example read_ex1 :
  read_value (encode (Array [Blob (b! "GET"); Array [Integer (-7); Null]; Array []]) ++ [1]) =
    Some (Got (Array [Blob (b! "GET"); Array [Integer (-7); Null]; Array []]) [1]).
Proof. vm_compute. reflexivity. Qed.
Example read_ex2 : read_value (b! "SET  k v" ++ crlf) =
  Some (Got (Array [Blob (b! "SET"); Blob (b! "k"); Blob (b! "v")]) []).
Proof. vm_compute. reflexivity. Qed.

(** ** Lemmas *)

(** *** Integers *)

Lemma push_digits_write fuel : forall n tmp,
  0 < n -> n < 10 ^ Z.of_nat fuel -> push_digits fuel n tmp = write_digits fuel n tmp.
Proof.
  induction fuel as [|fuel IH]; intros n tmp Hn Hf; [simpl in Hf; lia|].
  cbn [push_digits write_digits]. rewrite (proj2 (Z.ltb_lt _ _)) by done.
  rewrite Nat2Z.inj_succ, Z.pow_succ_r in Hf by lia.
  destruct (Z.eqb_spec (n / 10) 0) as [E|E].
  - rewrite E. by destruct fuel.
  - assert (0 <= n / 10) by (apply Z.div_pos; lia).
    apply IH; [lia|]. apply Z.div_lt_upper_bound; lia.
Qed.

Lemma push_digits_string n : 0 < n < 10 ^ Z.of_nat 20 -> push_digits 20 n [] = int_to_string n.
Proof.
  intros [Hn Hf]. rewrite push_digits_write by done. unfold int_to_string.
  rewrite (proj2 (Z.ltb_ge _ _)) by lia. rewrite Z.abs_eq by lia.
  apply write_digits_fuel; [lia|apply log2_digits; lia|done|done].
Qed.

Lemma push_usize_string n : 0 <= n < 2 ^ 64 -> push_usize n = int_to_string n.
Proof.
  intros H. unfold push_usize. destruct (Z.eqb_spec n 0) as [->|]; [done|].
  apply push_digits_string. change (10 ^ Z.of_nat 20) with 100000000000000000000. lia.
Qed.

Lemma int_to_string_neg n : n < 0 -> int_to_string n = c_minus :: int_to_string (- n).
Proof.
  intros H. unfold int_to_string. rewrite (proj2 (Z.ltb_lt n 0)) by done.
  rewrite (proj2 (Z.ltb_ge (- n) 0)) by lia. by rewrite Z.abs_opp.
Qed.

Lemma push_i64_string n : in_i64 n -> push_i64 n = int_to_string n.
Proof.
  intros H. unfold_ints. unfold push_i64.
  destruct (Z.eqb_spec n 0) as [->|]; [done|].
  destruct (Z.ltb_spec n 0).
  - rewrite int_to_string_neg by done. f_equal. apply push_digits_string.
    change (10 ^ Z.of_nat 20) with 100000000000000000000. lia.
  - apply push_digits_string. change (10 ^ Z.of_nat 20) with 100000000000000000000. lia.
Qed.

Lemma parse_digits_spec l : forall v, 0 <= v <= i64_max ->
  parse_i64_digits l v =
    if forallb is_digit l then
      if dval v l <=? i64_max then Some (dval v l) else None
    else None.
Proof.
  induction l as [|c l IH]; intros v Hv; cbn [parse_i64_digits forallb].
  - simpl. by rewrite (proj2 (Z.leb_le _ _)) by lia.
  - destruct (is_digit c) eqn:Hc; cbn [andb]; [|done]. apply is_digit_spec in Hc.
    change (dval v (c :: l)) with (dval (v * 10 + (c - c_0)) l).
    destruct (Z.ltb_spec i64_max (v * 10)).
    { destruct (forallb is_digit l) eqn:Hl; [|done]. apply forallb_digits in Hl.
      pose proof (dval_ge l (v * 10 + (c - c_0)) Hl ltac:(lia)).
      by rewrite (proj2 (Z.leb_gt _ _)) by lia. }
    destruct (Z.ltb_spec i64_max (v * 10 + (c - c_0))).
    { destruct (forallb is_digit l) eqn:Hl; [|done]. apply forallb_digits in Hl.
      pose proof (dval_ge l (v * 10 + (c - c_0)) Hl ltac:(lia)).
      by rewrite (proj2 (Z.leb_gt _ _)) by lia. }
    apply IH. lia.
Qed.

(** The parser accepts an optional minus sign and digits up to [i64::MAX]. *)
Lemma parse_i64_spec l :
  parse_i64_bytes l =
    match signed_dec false l with
    | Some v => if Z.abs v <=? i64_max then Some v else None
    | None => None
    end.
Proof.
  destruct l as [|b rest]; [done|]. unfold parse_i64_bytes, signed_dec. cbn [andb].
  assert (Hdig : forall ds, ds <> [] -> parse_i64_digits ds 0 =
    match digits_value ds with
    | Some v => if v <=? i64_max then Some v else None
    | None => None
    end).
  { intros ds Hne. rewrite parse_digits_spec by (unfold_ints; lia). unfold digits_value.
    destruct ds; [done|]. by destruct (forallb _ _). }
  destruct (Z.eqb_spec b c_minus) as [->|].
  - destruct rest as [|d rest]; [done|]. rewrite Hdig by done.
    destruct (digits_value (d :: rest)) as [v|] eqn:Hv; [|done].
    apply digits_value_nonneg in Hv. simpl. rewrite Z.abs_opp, Z.abs_eq by done.
    by destruct (v <=? i64_max).
  - rewrite Hdig by done. destruct (digits_value (b :: rest)) as [v|] eqn:Hv; [|done].
    apply digits_value_nonneg in Hv. rewrite Z.abs_eq by done.
    by destruct (v <=? i64_max).
Qed.

Lemma parse_int_string n : Z.abs n <= i64_max -> parse_i64_bytes (int_to_string n) = Some n.
Proof.
  intros H. rewrite parse_i64_spec, signed_dec_to_string. by rewrite (proj2 (Z.leb_le _ _)).
Qed.

(** *** Lines *)

Definition no_lf (l : bytes) : Prop := Forall (fun b => b <> LF) l.

Lemma read_until_app l rest : no_lf l -> read_until_lf (l ++ LF :: rest) = (l ++ [LF], rest).
Proof.
  induction 1 as [|b l Hb Hl IH]; simpl; [done|].
  rewrite (proj2 (Z.eqb_neq _ _)) by done. by rewrite IH.
Qed.

Lemma strip_eol_crlf l : strip_eol (l ++ crlf) = l.
Proof.
  unfold strip_eol, ends_with. rewrite rev_app_distr. simpl.
  rewrite length_app. simpl. rewrite Nat.add_sub, take_app_length. done.
Qed.

Lemma read_line_crlf l rest : no_lf l -> read_line_bytes (l ++ crlf ++ rest) = (l, rest).
Proof.
  intros H. unfold read_line_bytes.
  replace (l ++ crlf ++ rest) with ((l ++ [CR]) ++ LF :: rest) by (by rewrite <- app_assoc).
  rewrite read_until_app by (apply Forall_app; split; [done|by repeat constructor]).
  rewrite <- app_assoc. change ([CR] ++ [LF]) with crlf. by rewrite (strip_eol_crlf l).
Qed.

Lemma int_string_no_lf n : no_lf (int_to_string n).
Proof.
  destruct (int_to_string_shape n) as (ds & -> & Hds & _). unfold no_lf.
  apply Forall_app. split; [destruct (n <? 0); by repeat constructor|].
  eapply Forall_impl; [exact Hds|]. simpl. lia.
Qed.

Lemma read_until_length input :
  let '(line, rest) := read_until_lf input in (length line + length rest = length input)%nat.
Proof.
  induction input as [|b input IH]; simpl; [done|]. destruct (b =? LF); [done|].
  destruct (read_until_lf input). simpl. lia.
Qed.

Lemma read_line_rest input : (length (read_line_bytes input).2 <= length input)%nat.
Proof.
  unfold read_line_bytes. pose proof (read_until_length input).
  destruct (read_until_lf input). simpl. lia.
Qed.

(** *** Encodable values, and what is read back *)

(** A [String] of a reply is UTF-8 without a line feed; integers avoid [i64::MIN]; lengths
    fit an [i64]. *)
Fixpoint resp_ok (v : RespValue) : Prop :=
  match v with
  | Simple s | StaticSimple s | Error s | StaticError s => no_lf s /\ utf8_valid s = true
  | Integer n => Z.abs n <= i64_max
  | Blob b => blen b <= i64_max
  | Null => True
  | Array items =>
      Z.of_nat (length items) <= i64_max /\ foldr and True (resp_ok <$> items)
  end.

(** The static variants are read as the owned ones. *)
Fixpoint owned (v : RespValue) : RespValue :=
  match v with
  | StaticSimple s => Simple s
  | StaticError s => Error s
  | Array items => Array (owned <$> items)
  | _ => v
  end.

(** Does the allocator serve the buffers the reader asks for? *)
Fixpoint fits `{RustStd} (v : RespValue) : bool :=
  match v with
  | Blob b => buffer_ok (blen b)
  | Array items => capacity_ok (Z.of_nat (length items)) && forallb id (fits <$> items)
  | _ => true
  end.

(** Rounds of the loop that one value takes. *)
Fixpoint rounds (v : RespValue) : nat :=
  match v with
  | Array items => (2 + foldr Nat.add 0 (rounds <$> items))%nat
  | _ => 1
  end.

Section ReaderLemmas.
Context `{Hstd : RustStd}.

Lemma read_blob b rest allow : blen b <= i64_max ->
  read_single_element 36 allow (push_usize (blen b) ++ crlf ++ b ++ crlf ++ rest) =
    if fits (Blob b) then Got (Blob b) rest else Dies.
Proof.
  intros Hb. unfold read_single_element.
  assert (0 <= blen b) by (unfold blen; lia).
  rewrite push_usize_string by (unfold_ints; lia).
  rewrite read_line_crlf by apply int_string_no_lf. cbn [Z.eqb Pos.eqb].
  rewrite parse_int_string by lia. unfold default, id.
  rewrite (proj2 (Z.ltb_ge _ _)) by done. cbn [fits]. destruct (buffer_ok (blen b)); [|done].
  cbn [negb]. unfold read_exact, blen.
  rewrite Nat2Z.id, (proj2 (Nat.leb_le _ _)) by (rewrite length_app; lia).
  rewrite take_app_length, drop_app_length. simpl. done.
Qed.

Lemma read_len n rest : 0 <= n <= i64_max ->
  read_array_len (push_usize n ++ crlf ++ rest) = (n, rest).
Proof.
  intros Hn. unfold read_array_len. rewrite push_usize_string by (unfold_ints; lia).
  rewrite read_line_crlf by apply int_string_no_lf. by rewrite parse_int_string by lia.
Qed.

(** Every value but an array is one element; its tag is not ['*']. *)
Lemma read_element v rest allow : resp_ok v -> (forall l, v <> Array l) ->
  exists tag body, encode v = tag :: body /\ tag <> 42 /\
    read_single_element tag allow (body ++ rest) = if fits v then Got (owned v) rest else Dies.
Proof.
  intros Hok Hna. destruct v; cbn [encode resp_ok owned] in *; try by destruct (Hna items0).
  all: try (destruct Hok as [Hlf Hu]; eexists _, _; split_and!; [done|lia|];
    unfold read_single_element; rewrite <- app_assoc, read_line_crlf by done;
    cbn [Z.eqb Pos.eqb]; by rewrite from_utf8_lossy_valid).
  - eexists _, _. split_and!; [done|lia|]. unfold read_single_element.
    rewrite push_i64_string by (unfold_ints; lia).
    rewrite <- app_assoc, read_line_crlf by apply int_string_no_lf.
    cbn [Z.eqb Pos.eqb]. by rewrite parse_int_string.
  - unfold encode_blob. eexists _, _. split_and!; [done|lia|].
    rewrite <- !app_assoc. by apply read_blob.
  - exists 95, crlf. split_and!; [done|lia|]. unfold read_single_element.
    assert (E : read_line_bytes (crlf ++ rest) = ([], rest))
      by (apply (read_line_crlf []); constructor).
    by rewrite E.
Qed.

(** One value in the middle of an array: it is pushed on the current frame. *)
Definition loop_reads (v : RespValue) : Prop :=
  forall fuel rest cur stack, resp_ok v -> 0 < remaining cur ->
    array_loop (rounds v + fuel) (encode v ++ rest) cur stack =
      if fits v then array_loop fuel rest (frame_push cur (owned v)) stack else Some Dies.

Lemma loop_items l : Forall loop_reads l -> forall fuel rest cur stack,
  foldr and True (resp_ok <$> l) -> remaining cur = Z.of_nat (length l) ->
  array_loop (foldr Nat.add 0 (rounds <$> l) + fuel)%nat (concat (encode <$> l) ++ rest)
    cur stack =
  if forallb id (fits <$> l) then array_loop fuel rest (Frame 0 (items cur ++ (owned <$> l))) stack
  else Some Dies.
Proof.
  induction 1 as [|v l Hv Hl IH]; intros fuel rest cur stack Hok Hrem.
  - simpl. rewrite app_nil_r. destruct cur. simpl in *. by subst.
  - cbn [fmap list_fmap foldr concat] in *. destruct Hok as [Hok1 Hok2].
    rewrite <- app_assoc, <- Nat.add_assoc.
    rewrite (Hv _ _ cur stack Hok1) by (rewrite Hrem; simpl; lia).
    cbn [forallb id]. destruct (fits v); cbn [andb]; [|done].
    rewrite IH; [|done|simpl in *; lia].
    simpl. by rewrite <- app_assoc.
Qed.

Lemma loop_reads_all v : loop_reads v.
Proof.
  induction v as [s|s|n|b| |l Hl|s|s] using resp_ind; unfold loop_reads; intros fuel rest cur stack Hok Hrem;
    cbn [rounds].
  6: {
    cbn [resp_ok] in Hok. destruct Hok as [Hlen Hok]. cbn [encode owned rounds].
    replace (2 + foldr Nat.add 0 (rounds <$> l) + fuel)%nat with
      (S (foldr Nat.add 0 (rounds <$> l) + S fuel))%nat by lia.
    cbn [array_loop app]. rewrite (proj2 (Z.eqb_neq _ _)) by lia.
    cbn [Z.eqb Pos.eqb]. rewrite <- !app_assoc, read_len by lia. cbn [fst snd].
    rewrite (proj2 (Z.ltb_ge _ _)) by lia.
    cbn [fits]. unfold frame_new. destruct (capacity_ok _); cbn [andb]; [|done].
    rewrite (loop_items l Hl (S fuel) rest (Frame (Z.of_nat (length l)) [])) by done.
    by destruct (forallb _ _). }
  all: match goal with |- array_loop _ (encode ?v ++ _) _ _ = _ =>
         destruct (read_element v rest false Hok ltac:(done)) as (tag & body & -> & Hne & Hr) end;
       cbn [Nat.add array_loop app]; rewrite (proj2 (Z.eqb_neq (remaining cur) 0)) by lia;
       rewrite (proj2 (Z.eqb_neq tag 42)) by done; rewrite Hr; by destruct (fits _).
Qed.

(** *** Termination *)

Lemma read_exact_length n input a b :
  read_exact n input = Some (a, b) -> (length b <= length input)%nat.
Proof.
  unfold read_exact. case_match; intros; simplify_eq. rewrite length_drop. lia.
Qed.

Lemma read_element_length tag allow input v rest :
  read_single_element tag allow input = Got v rest -> (length rest <= length input)%nat.
Proof.
  unfold read_single_element, read_inline_command.
  pose proof (read_line_rest input) as Hl. pose proof (read_until_length input) as Hu.
  destruct (read_line_bytes input) as [line r], (read_until_lf input) as [l1 r1]; simpl in Hl.
  repeat (case_match; simplify_eq); intros; simplify_eq; try lia.
  repeat match goal with
         | H : read_exact _ _ = Some (_, _) |- _ => apply read_exact_length in H
         end.
  lia.
Qed.

Lemma array_loop_terminates fuel : forall input cur stack,
  (2 * length input + length stack < fuel)%nat ->
  is_Some (array_loop fuel input cur stack).
Proof.
  induction fuel as [|fuel IH]; intros input cur stack Hf; [lia|]. cbn [array_loop].
  destruct (remaining cur =? 0).
  { destruct stack as [|parent stack]; [by eexists|]. apply IH. simpl in Hf. lia. }
  destruct input as [|tag input]; [by eexists|]. simpl in Hf.
  destruct (tag =? 42).
  - unfold read_array_len. pose proof (read_line_rest input) as Hl.
    destruct (read_line_bytes input) as [line rest]. simpl in Hl.
    case_match; [apply IH; simpl; lia|]. destruct (frame_new _); [apply IH; simpl; lia|by eexists].
  - destruct (read_single_element tag false input) as [v rest| | |] eqn:Hr; [|by eexists..].
    apply read_element_length in Hr. apply IH. lia.
Qed.

(** More fuel does not change an answer. *)
Lemma array_loop_more fuel : forall k input cur stack r,
  array_loop fuel input cur stack = Some r -> array_loop (fuel + k) input cur stack = Some r.
Proof.
  induction fuel as [|fuel IH]; intros k input cur stack r; [done|]. cbn [Nat.add array_loop].
  repeat (case_match; try done); apply IH.
Qed.

Lemma array_loop_agree f g input cur stack r :
  (2 * length input + length stack < f)%nat ->
  array_loop g input cur stack = Some r -> array_loop f input cur stack = Some r.
Proof.
  intros Hf Hg. destruct (array_loop_terminates f input cur stack Hf) as [r' Hr'].
  pose proof (array_loop_more _ g _ _ _ _ Hr') as H1.
  pose proof (array_loop_more _ f _ _ _ _ Hg) as H2.
  rewrite Nat.add_comm in H2. congruence.
Qed.

Lemma read_value_encode v rest : resp_ok v ->
  read_value (encode v ++ rest) = Some (if fits v then Got (owned v) rest else Dies).
Proof.
  intros Hok. assert ((forall l, v <> Array l) \/ exists l, v = Array l) as [Hna|[l ->]]
    by (destruct v; naive_solver).
  - destruct (read_element v rest true Hok Hna) as (tag & body & -> & Hne & Hr).
    simpl. unfold read_value_from_tag. rewrite (proj2 (Z.eqb_neq tag 42)) by done. simpl.
    by rewrite Hr.
  - cbn [resp_ok] in Hok. destruct Hok as [Hlen Hok].
    cbn [encode app read_value]. unfold read_value_from_tag. cbn [Z.eqb Pos.eqb negb].
    rewrite <- !app_assoc, read_len by lia. rewrite (proj2 (Z.ltb_ge _ _)) by lia.
    unfold frame_new. cbn [fits]. destruct (capacity_ok _); cbn [andb]; [|done].
    eapply (array_loop_agree _ (foldr Nat.add 0 (rounds <$> l) + 1)%nat).
    { unfold loop_fuel. simpl. lia. }
    rewrite (loop_items l); [by destruct (forallb _ _)| |done|done].
    apply Forall_forall. intros. apply loop_reads_all.
Qed.

(** *** Sizes *)

Lemma digits_length n k : (k <> 0)%nat -> 0 <= n < 10 ^ Z.of_nat k ->
  (length (int_to_string n) <= k)%nat.
Proof.
  intros Hk Hn. unfold int_to_string. rewrite (proj2 (Z.ltb_ge n 0)), Z.abs_eq by lia.
  rewrite (write_digits_fuel _ k) by (try done; split; [lia|apply log2_digits; lia] ||
    (try apply log2_digits); lia).
  destruct (write_digits_spec k n [] Hk Hn) as (ds & -> & _ & _ & _ & Hl).
  by rewrite app_nil_r.
Qed.

Lemma push_usize_length n k : (k <> 0)%nat -> (k <= 19)%nat -> 0 <= n < 10 ^ Z.of_nat k ->
  blen (push_usize n) <= Z.of_nat k.
Proof.
  intros Hk Hk19 Hn. unfold blen. rewrite push_usize_string.
  - pose proof (digits_length n k Hk Hn). lia.
  - split; [lia|]. eapply Z.lt_trans; [apply Hn|].
    apply Z.le_lt_trans with (10 ^ 19); [apply Z.pow_le_mono_r; lia|done].
Qed.

Lemma push_i64_length n : in_i64 n -> blen (push_i64 n) <= 20.
Proof.
  intros H. unfold blen. rewrite push_i64_string by done. unfold_ints.
  change 20 with (Z.of_nat 20). apply inj_le. destruct (decide (n < 0)).
  - rewrite int_to_string_neg by done. cbn [length]. apply le_n_S.
    apply digits_length; [done|]. change (10 ^ Z.of_nat 19) with 10000000000000000000. lia.
  - apply digits_length; [done|]. change (10 ^ Z.of_nat 20) with 100000000000000000000. lia.
Qed.

(** Blobs and arrays of fewer than [10^11] bytes or items. *)
Fixpoint resp_small (v : RespValue) : Prop :=
  match v with
  | Integer n => in_i64 n
  | Blob b => blen b < 10 ^ 11
  | Array items => Z.of_nat (length items) < 10 ^ 11 /\ foldr and True (resp_small <$> items)
  | _ => True
  end.

Lemma blen_app a b : blen (a ++ b) = blen a + blen b.
Proof. unfold blen. rewrite length_app. lia. Qed.
Lemma blen_cons x b : blen (x :: b) = blen b + 1.
Proof. unfold blen. simpl. lia. Qed.

Lemma encode_length v : resp_small v -> blen (encode v) <= estimate_encoded_len v.
Proof.
  induction v as [s|s|n|b| |l Hl|s|s] using resp_ind; intros Hs;
    cbn [encode estimate_encoded_len resp_small] in *.
  3: { rewrite blen_cons, blen_app. pose proof (push_i64_length n Hs).
       change (blen crlf) with 2. lia. }
  3: { unfold encode_blob. rewrite blen_cons, !blen_app. change (blen crlf) with 2.
       pose proof (push_usize_length (blen b) 11) as H. change (10 ^ Z.of_nat 11) with (10 ^ 11) in H.
       assert (0 <= blen b) by (unfold blen; lia). lia. }
  3: done.
  3: { destruct Hs as [Hlen Hs]. rewrite blen_cons, !blen_app. change (blen crlf) with 2.
       pose proof (push_usize_length (Z.of_nat (length l)) 11) as H.
       change (10 ^ Z.of_nat 11) with (10 ^ 11) in H.
       assert (Hsum : blen (concat (encode <$> l)) <=
         foldr Z.add 0 (estimate_encoded_len <$> l)); [|lia].
       clear H Hlen. induction Hl as [|v l Hv Hl IH]; [done|].
       destruct Hs as [Hs1 Hs2]. rewrite !fmap_cons. cbn [concat foldr].
       rewrite blen_app. specialize (Hv Hs1). specialize (IH Hs2). lia. }
  all: rewrite blen_cons, blen_app; change (blen crlf) with 2; lia.
Qed.

Lemma encode_blobs items : encode_array_of_blobs items = encode (Array (Blob <$> items)).
Proof.
  unfold encode_array_of_blobs. cbn [encode].
  rewrite length_fmap, <- list_fmap_compose. done.
Qed.

(** *** Inline commands *)

Definition word (w : bytes) : Prop :=
  w <> [] /\ Forall (fun b => is_ascii_whitespace b = false) w.

Fixpoint unwords (ws : list bytes) : bytes :=
  match ws with
  | [] => []
  | [w] => w
  | w :: ws' => w ++ 32 :: unwords ws'
  end.

Lemma split_word_end w : forall cur, Forall (fun b => is_ascii_whitespace b = false) w ->
  split_words w cur = match rev cur ++ w with [] => [] | x => [x] end.
Proof.
  induction w as [|b w IH]; intros cur Hw; cbn [split_words].
  - rewrite app_nil_r. destruct cur as [|c cur]; [done|]. simpl.
    by destruct (rev cur ++ [c]) eqn:E; [by destruct (rev cur)|].
  - apply Forall_cons in Hw as [-> Hw]. rewrite IH by done. simpl. by rewrite <- app_assoc.
Qed.

Lemma split_word_space w rest : forall cur, Forall (fun b => is_ascii_whitespace b = false) w ->
  rev cur ++ w <> [] ->
  split_words (w ++ 32 :: rest) cur = (rev cur ++ w) :: split_words rest [].
Proof.
  induction w as [|b w IH]; intros cur Hw Hne; cbn [split_words app].
  - rewrite app_nil_r in *. cbn. by destruct cur.
  - apply Forall_cons in Hw as [-> Hw]. rewrite IH; [|done|].
    + simpl. by rewrite <- app_assoc.
    + simpl. rewrite <- app_assoc. simpl. intros E. by apply app_eq_nil in E as [_ ?].
Qed.

Lemma split_unwords ws : Forall word ws -> split_words (unwords ws) [] = ws.
Proof.
  induction 1 as [|w ws [Hne Hw] Hws IH]; [done|]. destruct ws as [|w' ws].
  - cbn [unwords]. rewrite split_word_end by done. simpl. by destruct w.
  - cbn [unwords]. rewrite split_word_space by done. simpl. f_equal. exact IH.
Qed.

Lemma unwords_no_lf ws : Forall word ws -> no_lf (unwords ws).
Proof.
  assert (Hno : forall w, word w -> no_lf w).
  { intros w [_ Hw]. eapply Forall_impl; [exact Hw|]. intros b Hb ->. done. }
  induction 1 as [|w ws Hw Hws IH]; [constructor|]. destruct ws as [|w' ws].
  - by apply Hno.
  - cbn [unwords]. apply Forall_app. split; [by apply Hno|]. constructor; [lia|exact IH].
Qed.

Lemma read_value_length input v rest :
  read_value input = Some (Got v rest) -> (length rest < length input)%nat.
Proof.
  assert (Hloop : forall fuel input cur stack v rest,
    array_loop fuel input cur stack = Some (Got v rest) -> (length rest <= length input)%nat).
  { clear. induction fuel as [|fuel IH]; intros input cur stack v rest; [done|].
    cbn [array_loop]. destruct (remaining cur =? 0).
    { destruct stack; [intros [= _ ->]; done|]. apply IH. }
    destruct input as [|tag input]; [done|]. destruct (tag =? 42).
    - unfold read_array_len. pose proof (read_line_rest input) as Hl.
      destruct (read_line_bytes input) as [line r]. simpl in Hl.
      destruct (_ <? 0); [intros Hi%IH; simpl; lia|].
      destruct (frame_new _); [intros Hi%IH; simpl; lia|done].
    - destruct (read_single_element tag false input) as [w r| | |] eqn:Hr; [|done..].
      apply read_element_length in Hr. intros Hi%IH. simpl. lia. }
  destruct input as [|tag input]; [done|]. cbn [read_value]. unfold read_value_from_tag.
  destruct (Z.eqb_spec tag 42) as [->|Hne]; cbn [negb].
  - unfold read_array_len. pose proof (read_line_rest input) as Hl.
    destruct (read_line_bytes input) as [line r]. simpl in Hl. destruct (_ <? 0).
    + intros [= _ ->]. simpl. lia.
    + destruct (frame_new _); [|done]. intros Hi%Hloop. simpl. lia.
  - intros [= Hi]. cbn [length]. apply read_element_length in Hi. lia.
Qed.

Lemma read_value_some (input : bytes) : is_Some (read_value input).
Proof.
  destruct input as [|tag input]; [by eexists|]. cbn [read_value]. unfold read_value_from_tag.
  destruct (negb _); [by eexists|]. destruct (read_array_len input) as [len rest].
  destruct (len <? 0); [by eexists|]. destruct (frame_new len); [|by eexists].
  apply array_loop_terminates. unfold loop_fuel. simpl. lia.
Qed.
End ReaderLemmas.

(** ** Properties *)

(** C21: whatever reply the server encodes, arrays nested to any depth included, its own
    reader parses back to the same value (static strings as owned ones) and leaves exactly
    the bytes that follow, so pipelined values never run into each other, as long as the
    allocator serves the buffers the lengths ask for; if it refuses one, the reader dies there.
    The reply's strings are UTF-8 without a line feed and its integers are not [i64::MIN]. *)
Theorem resp_roundtrip `{RustStd} (v : RespValue) (rest : bytes) (Hok : resp_ok v) :
  read_value (encode v ++ rest) = Some (if fits v then Got (owned v) rest else Dies).
Proof. by apply read_value_encode. Qed.

Lemma resp_roundtrip_witness :
  let v := Array [StaticSimple (b! "OK"); Array [Blob [13; 10; 0]; Null]; Integer (-42)] in
  read_value (encode v ++ [36]) = Some (Got (owned v) [36]).
Proof.
  intros v. assert (Hf : fits v = true) by (vm_compute; reflexivity).
  assert (Hok : resp_ok v) by (vm_compute; repeat (split; try done); repeat constructor; done).
  pose proof (resp_roundtrip v [36] Hok) as H. rewrite Hf in H. exact H.
Defined.

(** an array header that announces more than [isize::MAX] bytes kills the reader, whatever
    follows it: 21 bytes from a client are enough. *)
Theorem huge_header_kills `{RustStd} (rest : bytes) (Hsize : 2 <= resp_value_size) :
  read_value (b! "*9223372036854775807" ++ crlf ++ rest) = Some Dies.
Proof.
  assert (E : read_array_len (b! "9223372036854775807" ++ crlf ++ rest) = (i64_max, rest)).
  { unfold read_array_len. rewrite read_line_crlf by (repeat constructor; done). by vm_compute. }
  change (b! "*9223372036854775807" ++ crlf ++ rest) with (42 :: b! "9223372036854775807" ++ crlf ++ rest).
  cbn [read_value]. unfold read_value_from_tag. change (negb (42 =? 42)) with false. cbn iota. rewrite E.
  change (i64_max <? 0) with false. cbn iota. unfold frame_new, capacity_ok.
  rewrite (proj2 (Z.leb_gt _ _)); [done|]. unfold i64_max in *. lia.
Qed.

(** the reader always ends, whatever bytes a client sends: its loop over nested
    arrays needs at most two rounds per byte of input.  A value it delivers consumed at
    least one byte, so a connection's read loop makes progress. *)
Theorem read_value_terminates `{RustStd} (input : bytes) :
  is_Some (read_value input) /\
  forall v rest, read_value input = Some (Got v rest) -> (length rest < length input)%nat.
Proof.
  split; [apply read_value_some|intros; by eapply read_value_length].
Qed.

(** the specialised encoder for arrays of blobs (LRANGE) writes the same bytes as the
    general one, and the capacity reserved for a reply is enough for it: encoding never
    reallocates for blobs and arrays below [10^11] bytes or items. *)
Theorem encode_fast_path_and_capacity (items : list bytes) (v : RespValue)
    (Hsmall : resp_small v) :
  encode_array_of_blobs items = encode (Array (Blob <$> items)) /\
  blen (encode v) <= estimate_encoded_len v.
Proof.
  split; [apply encode_blobs|by apply encode_length].
Qed.

Lemma encode_fast_path_and_capacity_witness :
  blen (encode (Array [Integer i64_min; Blob (b! "abc")])) = 36 /\
  blen (encode (Array [Integer i64_min; Blob (b! "abc")])) <= 59.
Proof.
  split; [by vm_compute|].
  apply (encode_fast_path_and_capacity [] (Array [Integer i64_min; Blob (b! "abc")])).
  vm_compute. repeat (split; try done).
Defined.

(** an inline command, words separated by single spaces and ended by CRLF, is read as
    the array of its words; the first byte must not be one of the protocol's tags. *)
Theorem inline_command_words `{RustStd} (w : bytes) (ws : list bytes) (rest : bytes)
    (Hw : Forall word (w :: ws)) (Htag : head w ∉ Some <$> [42; 43; 45; 58; 95; 36]) :
  read_value (unwords (w :: ws) ++ crlf ++ rest) =
    Some (Got (Array (Blob <$> (w :: ws))) rest).
Proof.
  pose proof (unwords_no_lf _ Hw) as Hlf. pose proof (split_unwords _ Hw) as Hs.
  assert (exists b l, unwords (w :: ws) = b :: l /\ head w = Some b) as (b & l & E & Hb).
  { apply Forall_cons in Hw as [[Hne _] _]. destruct w as [|b w]; [done|].
    exists b. destruct ws; eexists; split; done. }
  rewrite Hb in Htag. rewrite E in *. cbn [app read_value]. unfold read_value_from_tag.
  cbn [fmap list_fmap] in Htag. rewrite !not_elem_of_cons in Htag.
  destruct Htag as (? & ? & ? & ? & ? & ? & _).
  rewrite (proj2 (Z.eqb_neq b 42)) by congruence. cbn [negb].
  unfold read_single_element. destruct (read_line_bytes (l ++ crlf ++ rest)).
  do 5 rewrite (proj2 (Z.eqb_neq b _)) by congruence.
  unfold read_inline_command. apply Forall_cons in Hlf as [_ Hlf].
  replace (l ++ crlf ++ rest) with ((l ++ [CR]) ++ LF :: rest) by (by rewrite <- app_assoc).
  rewrite read_until_app by (apply Forall_app; split; [done|by repeat constructor]).
  rewrite <- app_assoc. change ([CR] ++ [LF]) with crlf.
  change (b :: l ++ crlf) with ((b :: l) ++ crlf). rewrite (strip_eol_crlf (b :: l)), Hs. done.
Qed.

Lemma inline_command_words_witness :
  read_value (b! "PING hello" ++ crlf ++ [42]) =
    Some (Got (Array [Blob (b! "PING"); Blob (b! "hello")]) [42]).
Proof.
  apply (inline_command_words (b! "PING") [b! "hello"] [42]).
  - repeat constructor; done.
  - apply (bool_decide_unpack _). by vm_compute.
Defined.

(** the smallest integer does not survive the protocol: the encoder writes
    [i64::MIN], and the reader, whose accumulator is a non-negative [i64], takes the
    digits for an overflow and delivers 0. *)
Theorem i64_min_reads_as_zero `{RustStd} (rest : bytes) :
  read_value (encode (Integer i64_min) ++ rest) = Some (Got (Integer 0) rest).
Proof.
  cbn [encode app read_value]. unfold read_value_from_tag. cbn [Z.eqb Pos.eqb negb].
  unfold read_single_element. rewrite <- app_assoc.
  rewrite push_i64_string by by vm_compute.
  rewrite read_line_crlf by apply int_string_no_lf. done.
Qed.
