(* ===== verification/ServerArgs.v ===== *)
(** * ServerArgs: from a request to a command and its arguments

    The argument parsers of [src/muon_cache/server.rs]: [value_to_args], [parse_command],
    [to_upper_ascii], [parse_set_args] and the wrappers around [str::parse], with the
    decimal-to-binary64 conversion that ZADD's scores go through. *)
From Stdlib Require Import SpecFloat.
From S2P Require Import Prelude.
From S2P Require Import IntCodec.
From S2P Require Import Utf8.
From S2P Require Import HashStore.
From S2P Require Import Shard.
From S2P Require Import Resp.

(** ** Numbers *)

Definition parse_usize (input : bytes) : option Z := from_utf8 input ≫= u64_from_str.
Definition parse_u64 (input : bytes) : option Z := from_utf8 input ≫= u64_from_str.
Definition parse_i64 (input : bytes) : option Z := from_utf8 input ≫= i64_from_str.

(** [str::parse::<f64>]: an optional sign, then [inf], [infinity], [nan] in any case, or
    digits with an optional point and an optional exponent, rounded to nearest even. *)
Fixpoint take_digits (l : bytes) : bytes * bytes :=
  match l with
  | b :: l' => if is_digit b then let '(ds, r) := take_digits l' in (b :: ds, r) else ([], l)
  | [] => ([], [])
  end.

Lemma take_digits_all (ds rest : bytes) : digits ds -> (match rest with b :: _ => is_digit b = false | [] => True end) ->
  take_digits (ds ++ rest) = (ds, rest).
Proof.
  intros Hds Hr. induction Hds as [|d ds Hd _ IH]; cbn [app take_digits].
  - destruct rest as [|b rest]; [done|]. cbn [take_digits]. by rewrite Hr.
  - apply is_digit_spec in Hd. by rewrite Hd, IH.
Qed.

Definition f64_sign (l : bytes) : bool * bytes :=
  match l with
  | b :: l' => if b =? c_minus then (true, l') else if b =? c_plus then (false, l') else (false, l)
  | [] => (false, [])
  end.

(** The value [(-1)^neg * m * 10^e], rounded to nearest even. *)
Definition f64_round (neg : bool) (m e : Z) : spec_float :=
  match m with
  | Zpos p =>
      if 0 <=? e then binary_normalize 53 1024 (if neg then - (m * 10 ^ e) else m * 10 ^ e) 0 neg
      else
        match 10 ^ (- e) with
        | Zpos q =>
            let '(mz, ez, lz) := SFdiv_core_binary 53 1024 (Zpos p) 0 (Zpos q) 0 in
            binary_round_aux 53 1024 neg mz ez lz
        | _ => S754_nan
        end
  | _ => S754_zero neg
  end.

Definition f64_exponent (l : bytes) : option Z :=
  match l with
  | [] => Some 0
  | b :: l' =>
      if (b =? 101) || (b =? 69) then
        let '(neg, l') := f64_sign l' in
        v ← digits_value l'; Some (if neg : bool then - v else v)
      else None
  end.

Definition f64_number (neg : bool) (l : bytes) : option spec_float :=
  let '(whole, l) := take_digits l in
  let '(frac, l) :=
    match l with
    | b :: l' => if b =? 46 then take_digits l' else ([], l)
    | [] => ([], [])
    end in
  match whole ++ frac with
  | [] => None
  | ds => e ← f64_exponent l; Some (f64_round neg (dval 0 ds) (e - Z.of_nat (length frac)))
  end.

Definition f64_from_str (l : bytes) : option spec_float :=
  let '(neg, rest) := f64_sign l in
  let up := to_ascii_uppercase <$> rest in
  if bool_decide (up = b! "INF") || bool_decide (up = b! "INFINITY")
  then Some (S754_infinity neg)
  else if bool_decide (up = b! "NAN") then Some S754_nan
  else f64_number neg rest.

Definition parse_f64 (input : bytes) : option spec_float := from_utf8 input ≫= f64_from_str.

Example f64_ex1 : parse_f64 (b! "0.1") = Some (S754_finite false 7205759403792794 (-56)).
Proof. vm_compute. reflexivity. Qed.
Example f64_ex2 : parse_f64 (b! "-2.5e1") = parse_f64 (b! "-25").
Proof. vm_compute. reflexivity. Qed.
Example f64_ex3 : parse_f64 (b! "NaN") = Some S754_nan.
Proof. vm_compute. reflexivity. Qed.

(** ** Requests *)

(** A request's items as byte strings; [None] is the error reply. *)
Definition arg_of_item (item : RespValue) : option bytes :=
  match item with
  | Blob b => Some b
  | Simple s | StaticSimple s => Some s
  | Integer n => Some (int_to_string n)
  | _ => None
  end.

Definition value_to_args (val : RespValue) : list bytes + bytes :=
  match val with
  | Array items =>
      match mapM arg_of_item items with
      | Some args => inl args
      | None => inr (b! "ERR invalid array item")
      end
  | Simple s | StaticSimple s => inl [s]
  | Blob b => inl [b]
  | _ => inr (b! "ERR invalid request")
  end.

Definition COMMANDS : list bytes := bytes_of_string <$> [
  "PING"; "ECHO"; "SELECT"; "DBSIZE"; "GET"; "SET"; "SETNX"; "MSET"; "MGET"; "GETSET";
  "APPEND"; "INCR"; "INCRBY"; "DECR"; "DECRBY"; "STRLEN"; "HSET"; "HGET"; "HDEL"; "HGETALL";
  "HLEN"; "HEXISTS"; "LPUSH"; "RPUSH"; "LPOP"; "RPOP"; "LRANGE"; "LLEN"; "LINDEX"; "LSET";
  "LINSERT"; "LREM"; "LPUSHX"; "RPUSHX"; "LTRIM"; "SADD"; "SREM"; "SMEMBERS"; "SISMEMBER";
  "SCARD"; "SMOVE"; "SUNION"; "SINTER"; "ZADD"; "ZRANGE";
  "ZREM"; "ZCARD"; "XADD"; "XRANGE"; "XREVRANGE"; "XLEN"; "XDEL"; "HINCRBY"; "HSETNX";
  "DEL"; "EXISTS"; "EXPIRE"; "PEXPIRE"; "PERSIST"; "TTL";
  "PTTL"; "TYPE"; "KEYS"; "SCAN"; "FLUSHDB"; "FLUSHALL"; "INFO"; "EVAL"; "EVALSHA"; "SCRIPT";
  "CONFIG"; "FUNCTION"; "CLIENT"; "SLOWLOG"; "SAVE"; "BGSAVE"; "REPLICAOF"; "QUIT"; "MULTI";
  "EXEC"; "DISCARD"; "SUBSCRIBE"; "PUBLISH" ]%string.

Definition parse_command (input : bytes) : option bytes :=
  if (16 <? length input)%nat then None
  else
    let up := to_ascii_uppercase <$> input in
    if bool_decide (up ∈ COMMANDS) then Some up else None.

(** [char]s of the bytes, as UTF-8: what [to_upper_ascii] builds when it cannot borrow. *)
Definition char_utf8 (b : Z) : bytes :=
  if b <? 128 then [b] else [192 + b / 64; 128 + b `mod` 64].

Definition to_upper_ascii (input : bytes) : bytes :=
  let has_lower := existsb (fun b => (97 <=? b) && (b <=? 122)) input in
  if negb has_lower && utf8_valid input then input
  else concat ((fun b => char_utf8 (to_ascii_uppercase b)) <$> input).

(** The option loop of [parse_set_args]. *)
Fixpoint set_options (fuel : nat) (opts : list bytes) (expire_ms : option Z)
    : option (option Z) :=
  match fuel with
  | O => None
  | S fuel' =>
      match opts with
      | [] => Some expire_ms
      | o :: opts' =>
          let opt := to_upper_ascii o in
          if bool_decide (opt = b! "EX") then
            match opts' with
            | sec :: rest =>
                set_options fuel' rest
                  (Some (saturating_u64 (default 0 (parse_u64 sec) * 1000)))
            | [] => None
            end
          else if bool_decide (opt = b! "PX") then
            match opts' with
            | ms :: rest => set_options fuel' rest (Some (default 0 (parse_u64 ms)))
            | [] => None
            end
          else None
      end
  end.

Definition parse_set_args (args : list bytes) : (bytes * bytes * option Z) + bytes :=
  match args with
  | key :: v :: opts =>
      match set_options (S (length opts)) opts None with
      | Some expire_ms => inl (key, v, expire_ms)
      | None => inr (b! "ERR syntax error")
      end
  | _ => inr (b! "ERR wrong number of arguments for 'SET'")
  end.

(** ** Lemmas *)

Lemma i64_from_str_range l n : i64_from_str l = Some n -> in_i64 n.
Proof.
  unfold i64_from_str. destruct (signed_dec true l); [|done]. simpl.
  case_bool_decide; [by intros [= <-]|done].
Qed.

Lemma parse_i64_range l n : parse_i64 l = Some n -> in_i64 n.
Proof.
  unfold parse_i64. destruct (from_utf8 l); [|done]. apply i64_from_str_range.
Qed.

Lemma default_parse_range l d : in_i64 d -> in_i64 (default d (parse_i64 l)).
Proof.
  intros Hd. destruct (parse_i64 l) as [n|] eqn:E; simpl; [by eapply parse_i64_range|done].
Qed.

Lemma u64_from_str_range l n : u64_from_str l = Some n -> 0 <= n <= u64_max.
Proof.
  unfold u64_from_str. destruct l as [|b l]; [done|].
  destruct (b =? c_minus) eqn:Hb; [done|].
  destruct (signed_dec true (b :: l)) as [v|] eqn:Hv; [|done]. cbn [mbind option_bind].
  destruct (Z.leb_spec v u64_max); [|done]. intros [= <-]. split; [|done].
  unfold signed_dec in Hv. rewrite Hb in Hv.
  destruct (true && (b =? c_plus)); by eapply digits_value_nonneg.
Qed.

Lemma parse_u64_range l n : parse_u64 l = Some n -> 0 <= n <= u64_max.
Proof. unfold parse_u64. destruct (from_utf8 l); [|done]. apply u64_from_str_range. Qed.

(** The option loop consumes an option per round. *)
Lemma set_options_fuel f : forall g opts e, (length opts < f)%nat -> (length opts < g)%nat ->
  set_options f opts e = set_options g opts e.
Proof.
  induction f as [|f IH]; intros [|g] opts e Hf Hg; try lia. cbn [set_options].
  destruct opts as [|o [|x opts]]; simpl in *; [done|by repeat case_match|].
  repeat (case_match; try done); apply IH; lia.
Qed.
