(* ===== verification/Persist.v ===== *)
(** * Persist: the append-only log

    [src/muon_cache/persist.rs] as the command handlers use it: a command is encoded as a
    RESP array and sent to the queue of the AOF worker.  The worker, the SQL tables and the
    snapshot are libsql calls and are not modelled; the queue is the list of the entries
    sent to it, [open] until the worker drops its receiver.  A full queue blocks the sender
    until there is room, so a send to an open queue always arrives. *)
From S2P Require Import Prelude.
From S2P Require Import IntCodec.
From S2P Require Import Utf8.
From S2P Require Import Resp.

Record AofEntry := MkAof { aof_db : Z; encoded : bytes }.

Record AofSender := MkSender { is_open : bool; sent : list AofEntry }.

Record LibsqlPersist := MkLibsql { libsql_aof : bool; aof_tx : option AofSender }.

Inductive Persist :=
  | Noop
  | Libsql (p : LibsqlPersist).

Definition aof_enabled (p : Persist) : bool :=
  match p with
  | Noop => false
  | Libsql p => libsql_aof p
  end.

Definition encode_cmd (cmd : bytes) (args : list bytes) : bytes :=
  b! "*" ++ int_to_string (Z.of_nat (length args) + 1) ++ crlf ++
  b! "$" ++ int_to_string (blen cmd) ++ crlf ++ cmd ++ crlf ++
  concat ((fun item => b! "$" ++ int_to_string (blen item) ++ crlf ++ item ++ crlf) <$> args).

Definition libsql_log (p : LibsqlPersist) (db : Z) (cmd : bytes) (args : list bytes)
    : Result unit * LibsqlPersist :=
  if negb (libsql_aof p) then (Ok tt, p)
  else
    match aof_tx p with
    | Some tx =>
        let entry := MkAof db (encode_cmd cmd args) in
        if is_open tx
        then (Ok tt, MkLibsql (libsql_aof p) (Some (MkSender true (sent tx ++ [entry]))))
        else (Err, p)
    | None => (Err, p)
    end.

Definition log_command_nowait (p : Persist) (db : Z) (cmd : bytes) (args : list bytes)
    : Result unit * Persist :=
  match p with
  | Noop => (Ok tt, Noop)
  | Libsql p => let '(r, p) := libsql_log p db cmd args in (r, Libsql p)
  end.

(** The entries sent so far. *)
Definition logged (p : option Persist) : list AofEntry :=
  match p with
  | Some (Libsql p) => default [] (sent <$> aof_tx p)
  | _ => []
  end.

(** The log takes entries: enabled, and its worker runs. *)
Definition recording (p : option Persist) : Prop :=
  exists l, p = Some (Libsql (MkLibsql true (Some (MkSender true l)))).

(** ** Lemmas *)

Lemma encode_cmd_array (cmd : bytes) (args : list bytes) :
  Z.of_nat (length args) < i64_max ->
  Forall (fun a => blen a <= i64_max) (cmd :: args) ->
  encode_cmd cmd args = encode (Array (Blob <$> (cmd :: args))).
Proof.
  intros Hlen [Hcmd Hargs]%Forall_cons. unfold encode_cmd. cbn [encode].
  assert (Hblob : forall a, blen a <= i64_max ->
    b! "$" ++ int_to_string (blen a) ++ crlf ++ a ++ crlf = encode (Blob a)).
  { intros a Ha. cbn [encode]. unfold encode_blob. rewrite push_usize_string; [done|].
    unfold_ints. unfold blen in *. lia. }
  rewrite length_fmap, fmap_cons. cbn [length fmap list_fmap concat].
  rewrite push_usize_string by (unfold_ints; lia).
  rewrite <- (Hblob cmd Hcmd). change (b! "*") with [42]. cbn [app].
  replace (Z.of_nat (S (length args))) with (Z.of_nat (length args) + 1) by lia.
  do 3 f_equal. rewrite <- !app_assoc. do 5 f_equal.
  change (list_fmap _ _ Blob args) with (Blob <$> args).
  rewrite <- list_fmap_compose. f_equal. apply list_fmap_ext. intros i a Ha.
  apply Hblob. by eapply Forall_lookup_1 in Hargs.
Qed.

Lemma log_recording p db cmd args : recording p ->
  exists p', p = Some p' /\ aof_enabled p' = true /\
    recording (Some (log_command_nowait p' db cmd args).2) /\
    logged (Some (log_command_nowait p' db cmd args).2) =
      logged p ++ [MkAof db (encode_cmd cmd args)].
Proof. intros [l ->]. eexists. split_and!; try done. by eexists. Qed.

(** ** Properties *)

(** the log can be replayed: an entry is exactly the RESP array of the command's name
    and its arguments, and the server's own reader parses entries written one after the
    other back to the commands that were logged, whatever bytes the arguments hold, when the allocator serves their lengths. *)
Theorem encode_cmd_replayable `{RustStd} (cmd : bytes) (args : list bytes) (rest : bytes)
    (Hlen : Z.of_nat (length args) < i64_max)
    (Hargs : Forall (fun a => blen a <= i64_max) (cmd :: args))
    (Hfits : fits (Array (Blob <$> (cmd :: args))) = true) :
  read_value (encode_cmd cmd args ++ rest) = Some (Got (Array (Blob <$> (cmd :: args))) rest).
Proof.
  rewrite encode_cmd_array by done. rewrite read_value_encode.
  - rewrite Hfits. cbn [owned]. do 4 f_equal. rewrite <- list_fmap_compose. done.
  - cbn [resp_ok]. rewrite length_fmap. split; [simpl; lia|].
    clear Hlen Hfits. induction Hargs; simpl; auto.
Qed.

Lemma encode_cmd_replayable_witness :
  read_value (encode_cmd (b! "SET") [[13; 10]; []] ++ encode_cmd (b! "DEL") []) =
    Some (Got (Array [Blob (b! "SET"); Blob [13; 10]; Blob []]) (encode_cmd (b! "DEL") [])).
Proof.
  apply (encode_cmd_replayable (b! "SET") [[13; 10]; []]); [done| |by vm_compute].
  repeat constructor; done.
Defined.
