(* ===== verification/Calls.v ===== *)
(** * Calls: what a command handler can do, on the store and on the flat map

    A handler of [src/muon_cache/cmd_handlers.rs] is a program ([Prog]) that calls the
    store, reads the clock, logs the command and answers.  [run] interprets the calls with
    the operations of the sharded [Db] and the append-only log.  [wp] is the abstract
    semantics: the same program on one flat map from which expired keys vanish, as a
    predicate transformer.  [run_sound] relates the two for every program, so properties of
    handlers are proved on the flat map and hold of the server. *)
From Stdlib Require Import SpecFloat.
From S2P Require Import Prelude.
From S2P Require Import IntCodec.
From S2P Require Import HashStore.
From S2P Require Import Glob.
From S2P Require Import Shard.
From S2P Require Import ShardString.
From S2P Require Import ShardList.
From S2P Require Import ShardHash.
From S2P Require Import ShardSet.
From S2P Require Import ShardZset.
From S2P Require Import ShardOps.
From S2P Require Import Db.
From S2P Require Import DbSpec.
From S2P Require Import Persist.

(** ** Programs *)

Inductive DbCall : Type -> Type :=
  | OnKey (key : bytes) (op : key_op) : DbCall out
  | SetMove (source dest member : bytes) : DbCall (Result bool)
  | SetUnion (keys : list bytes) : DbCall (Result (list bytes))
  | SetInter (keys : list bytes) : DbCall (Result (list bytes))
  | KeysMatching (pattern : bytes) : DbCall (list bytes)
  | DbLen : DbCall nat
  | DbFlush : DbCall nat
  | NowMs : DbCall Z
  | LogCmd (cmd : bytes) (args : list bytes) : DbCall unit.

(** [Panic] is a Rust panic of the handler itself. *)
Inductive Prog (A : Type) : Type :=
  | Ret (a : A)
  | Do {R : Type} (c : DbCall R) (k : R -> Prog A)
  | Panic.
Arguments Ret {A} a.
Arguments Do {A R} c k.
Arguments Panic {A}.

Fixpoint prog_bind {A B} (f : A -> Prog B) (p : Prog A) : Prog B :=
  match p with
  | Ret a => f a
  | Do c k => Do c (fun r => prog_bind f (k r))
  | Panic => Panic
  end.
#[export] Instance prog_mbind : MBind Prog := @prog_bind.
#[export] Instance prog_mret : MRet Prog := @Ret.

Definition call {R} (c : DbCall R) : Prog R := Do c Ret.

(** The answer of a key operation, by its type; the other constructors do not occur. *)
Definition key_call {R} (key : bytes) (op : key_op) (as_r : out -> option R) : Prog R :=
  Do (OnKey key op) (fun o => match as_r o with Some r => Ret r | None => Panic end).

Definition as_unit (o : out) := if o is OUnit u then Some u else None.
Definition as_bool (o : out) := if o is OBool b then Some b else None.
Definition as_int (o : out) := if o is OInt z then Some z else None.
Definition as_opt_int (o : out) := if o is OOptInt z then Some z else None.
Definition as_opt_bytes (o : out) := if o is OOptBytes z then Some z else None.
Definition as_runit (o : out) := if o is RUnit r then Some r else None.
Definition as_rbool (o : out) := if o is RBool r then Some r else None.
Definition as_rint (o : out) := if o is RInt r then Some r else None.
Definition as_ropt (o : out) := if o is ROpt r then Some r else None.
Definition as_rbytes (o : out) := if o is RBytes r then Some r else None.
Definition as_rlist (o : out) := if o is RList r then Some r else None.
Definition as_rbag (o : out) := if o is RBag r then Some r else None.
Definition as_rpairs (o : out) := if o is RPairs r then Some r else None.
Definition as_ritems (o : out) := if o is RItems r then Some r else None.

(** ** Running on the sharded store *)

Record Env := MkEnv { env_db : Db; env_persist : option Persist; env_tick : nat }.

(** [log_cmd] of cmd_handlers.rs: what it leaves of the persistence state. *)
Definition log_cmd (persist_state : option Persist) (db_index : Z) (cmd : bytes)
    (args : list bytes) (skip_aof : bool) : option Persist :=
  if negb skip_aof then
    match persist_state with
    | Some p =>
        if aof_enabled p
        then Some (log_command_nowait p db_index cmd args).2
        else Some p
    | None => None
    end
  else persist_state.

(** [now n] is the clock during the [n]-th call, in which it does not advance; logging does
    not look at the clock. *)
Section Run.
Context `{RustStd} (now : nat -> Z) (db_index : Z) (skip_aof : bool).

Definition db_call {R} (c : DbCall R) (e : Env) : option (R * Env) :=
  let t := now (env_tick e) in
  let db := env_db e in
  let next (db : Db) := MkEnv db (env_persist e) (S (env_tick e)) in
  match c in DbCall R return option (R * Env) with
  | OnKey key op => '(o, db) ← db_step db (Request t key op); Some (o, next db)
  | SetMove source dest member =>
      let r := Db.set_move t t db source dest member in Some (r.1, next r.2)
  | SetUnion keys => let r := Db.set_union (fun _ => t) alone db keys in Some (r.1, next r.2)
  | SetInter keys => let r := Db.set_inter (fun _ => t) alone db keys in Some (r.1, next r.2)
  | KeysMatching pattern =>
      let r := Db.keys_matching (fun _ => t) alone db pattern in Some (r.1, next r.2)
  | DbLen => let r := Db.len (fun _ => t) alone db in Some (r.1, next r.2)
  | DbFlush => let r := Db.flush alone db in Some (r.1, next r.2)
  | NowMs => Some (t, next db)
  | LogCmd cmd args =>
      Some (tt, MkEnv db (log_cmd (env_persist e) db_index cmd args skip_aof) (env_tick e))
  end.

Fixpoint run {A} (p : Prog A) (e : Env) : option (A * Env) :=
  match p with
  | Ret a => Some (a, e)
  | Do c k => '(r, e') ← db_call c e; run (k r) e'
  | Panic => None
  end.
End Run.

(** ** On the flat map *)

(** The commands logged so far are kept beside the map. *)
Record Flat := MkFlat
  { fl_tick : nat; fl_time : Z; fl_map : gmap bytes acell; fl_log : list (bytes * list bytes) }.

Definition key_pre (op : key_op) (c : option acell) : Prop :=
  match op with
  | KSet v _ => value_wf v
  | KIncrBy d => in_i64 d
  | KListPush vs _ => vs <> []
  | KSetAdd ms => ms <> []
  | KZadd x _ => x <> S754_nan
  | KListTrim a b =>
      in_i64 a /\ ~ trim_panics a b c /\
      forall l ex, c = Some (AList l, ex) -> zlen l < 2 ^ 63
  | _ => True
  end.

(** DEL and EXPIRE do not check expiry: on a key that looks absent they may answer as if it
    were there, and EXPIRE may bring some value back. *)
Definition key_post (now : Z) (op : key_op) (c : option acell) (o : out)
    (c' : option acell) : Prop :=
  match op with
  | KRemove => c' = None /\ exists b, o = OBool b /\ (is_Some c -> b = true)
  | KSetExpire ttl =>
      match c with
      | Some _ => o = OBool (spec_set_expire now ttl c).1 /\ c' = (spec_set_expire now ttl c).2
      | None =>
          (o = OBool false /\ c' = None) \/
          (o = OBool true /\ forall v ex, c' = Some (v, ex) -> ex = Some (saturating_u64 (now + ttl)))
      end
  | _ => out_rel o (spec_step now op c).1 /\ c' = (spec_step now op c).2
  end.

Section Flat.
Context (now : nat -> Z).

(** The state in which the next call runs. *)
Definition at_call (f : Flat) : Flat :=
  let t := now (fl_tick f) in MkFlat (fl_tick f) t (tick t (fl_map f)) (fl_log f).
Definition after (f : Flat) (a : gmap bytes acell) : Flat :=
  MkFlat (S (fl_tick f)) (fl_time f) a (fl_log f).
Definition after_log (f : Flat) (cmd : bytes) (args : list bytes) : Flat :=
  MkFlat (fl_tick f) (fl_time f) (fl_map f) (fl_log f ++ [(cmd, args)]).

Definition call_spec {R} (c : DbCall R) (f0 : Flat) : (R -> Flat -> Prop) -> Prop :=
  let f := at_call f0 in
  let a := fl_map f in
  match c in DbCall R return (R -> Flat -> Prop) -> Prop with
  | OnKey key op => fun K =>
      key_pre op (a !! key) /\
      forall o c', key_post (fl_time f) op (a !! key) o c' ->
        K o (after f (partial_alter (fun _ => c') key a))
  | SetMove source dest member => fun K =>
      K (spec_set_move a source dest member).1
        (after f (spec_set_move a source dest member).2)
  | SetUnion keys => fun K =>
      forall r, match spec_union a keys with
                | Some X => exists l, r = Ok l /\ l ≡ₚ elements X
                | None => r = Err
                end -> K r (after f a)
  | SetInter keys => fun K =>
      forall r, (all_sets a keys -> exists l, r = Ok l /\ NoDup l /\
                   forall m, m ∈ l <-> keys <> [] /\ in_all a m keys) -> K r (after f a)
  | KeysMatching pattern => fun K =>
      forall ks, StronglySorted bytes_le ks ->
        ks ≡ₚ filter (fun k => glob_match k pattern = true) (flat_keys a) -> K ks (after f a)
  | DbLen => fun K => K (size a) (after f a)
  | DbFlush => fun K => forall n, K n (after f ∅)
  | NowMs => fun K => K (fl_time f) (after f a)
  | LogCmd cmd args => fun K => K tt (after_log f cmd args)
  end.

(** The weakest precondition: every run of the program on the flat map ends, without a
    panic, in an answer and a state that satisfy [Q]. *)
Fixpoint wp {A} (p : Prog A) (f : Flat) (Q : A -> Flat -> Prop) : Prop :=
  match p with
  | Ret x => Q x f
  | Do c k => call_spec c f (fun r f' => wp (k r) f' Q)
  | Panic => False
  end.
End Flat.

Definition after_logs (db_index : Z) (skip_aof : bool) (p : option Persist)
    (log : list (bytes * list bytes)) : option Persist :=
  foldl (fun p c => log_cmd p db_index c.1 c.2 skip_aof) p log.

(** [f] is what clients see of [e], when the log started from [p0]. *)
Definition represents (now : nat -> Z) (db_index : Z) (skip_aof : bool) (p0 : option Persist)
    (e : Env) (f : Flat) : Prop :=
  env_tick e = fl_tick f /\ db_wf (env_db e) /\
  db_abs (fl_time f) (env_db e) = fl_map f /\ fl_time f <= now (fl_tick f) /\
  env_persist e = after_logs db_index skip_aof p0 (fl_log f).

(** ** Lemmas *)

Section WpRules.
Context (now : nat -> Z).

Lemma call_spec_mono {R} (c : DbCall R) (f : Flat) (K1 K2 : R -> Flat -> Prop) :
  (forall r f', K1 r f' -> K2 r f') -> call_spec now c f K1 -> call_spec now c f K2.
Proof.
  intros HK. destruct c; cbn [call_spec]; cbv zeta; auto; naive_solver.
Qed.

Lemma wp_mono {A} (p : Prog A) : forall (f : Flat) (Q1 Q2 : A -> Flat -> Prop),
  (forall r f', Q1 r f' -> Q2 r f') -> wp now p f Q1 -> wp now p f Q2.
Proof.
  induction p as [a|R c k IH|]; intros f Q1 Q2 HQ; cbn [wp]; [apply HQ| |done].
  apply call_spec_mono. intros r f'. by apply IH.
Qed.

Lemma wp_bind {A B} (p : Prog A) (k : A -> Prog B) : forall (f : Flat) (Q : B -> Flat -> Prop),
  wp now p f (fun x f' => wp now (k x) f' Q) -> wp now (p ≫= k) f Q.
Proof.
  induction p as [a|R c k' IH|]; intros f Q; cbn [wp mbind prog_mbind prog_bind]; [done| |done].
  apply call_spec_mono. intros r f'. apply IH.
Qed.

Lemma wp_bind_inv {A B} (p : Prog A) (k : A -> Prog B) : forall (f : Flat) (Q : B -> Flat -> Prop),
  wp now (p ≫= k) f Q -> wp now p f (fun x f' => wp now (k x) f' Q).
Proof.
  induction p as [a|R c k' IH|]; intros f Q; cbn [wp mbind prog_mbind prog_bind]; [done| |done].
  apply call_spec_mono. intros r f'. apply IH.
Qed.

(** A key operation, its answer read with [as_r]. *)
Lemma wp_key_call {R A} (key : bytes) (op : key_op) (as_r : out -> option R) (k : R -> Prog A)
    (f : Flat) (Q : A -> Flat -> Prop) :
  let c := fl_map (at_call now f) !! key in
  key_pre op c ->
  (forall o c', key_post (fl_time (at_call now f)) op c o c' -> exists r, as_r o = Some r /\
     wp now (k r) (after (at_call now f)
       (partial_alter (fun _ => c') key (fl_map (at_call now f)))) Q) ->
  wp now (key_call key op as_r ≫= k) f Q.
Proof.
  cbn zeta. intros Hpre Hk. unfold key_call. cbn [mbind prog_mbind prog_bind wp call_spec].
  split; [done|]. intros o c' Ho. destruct (Hk o c' Ho) as (r & -> & Hw). done.
Qed.
End WpRules.

Lemma out_rel_bool (o : out) (b : bool) : out_rel o (OBool b) -> o = OBool b.
Proof. by destruct o. Qed.

Lemma on_shard_eq {R} (db : Db) (key : bytes) (f : Shard -> R * Shard) :
  on_shard db key f = ((f (shard db key)).1, put_shard db key (f (shard db key)).2).
Proof. unfold on_shard. by destruct (f _). Qed.

(** *** Soundness *)

Section Sound.
Context `{RustStd} (now : nat -> Z) (db_index : Z) (skip_aof : bool) (p0 : option Persist).
Hypothesis Hmono : forall t, now t <= now (S t).

Lemma key_step_sound (t : Z) (db : Db) (key : bytes) (op : key_op) : db_wf db ->
  key_pre op (db_abs t db !! key) ->
  exists o db' c', db_step db (Request t key op) = Some (o, db') /\ db_wf db' /\
    key_post t op (db_abs t db !! key) o c' /\
    db_abs t db' = partial_alter (fun _ => c') key (db_abs t db).
Proof.
  intros Hwf Hpre. pose proof (shard_wf_of db key Hwf) as Hs.
  assert (Hcell : db_abs t db !! key = abs t (shard db key) !! key) by by apply db_abs_lookup.
  assert (Hgen : op_ok t (shard db key) key op ->
    (forall o c', out_rel o (spec_step t op (db_abs t db !! key)).1 ->
       c' = (spec_step t op (db_abs t db !! key)).2 ->
       key_post t op (db_abs t db !! key) o c') ->
    exists o db' c', db_step db (Request t key op) = Some (o, db') /\ db_wf db' /\
    key_post t op (db_abs t db !! key) o c' /\
    db_abs t db' = partial_alter (fun _ => c') key (db_abs t db)).
  { intros Hok Hpost. pose proof (shard_step_ok t (shard db key) key Hs op Hok) as Hstep.
    unfold db_step. cbn [on_key at_time what].
    destruct (shard_step t (shard db key) key op) as [[o s']|].
    - destruct (on_shard_refines out_rel t key db (fun _ => (o, s')) (spec_step t op) Hwf Hstep)
        as (H1 & H2 & H3).
      eexists _, _, _. split; [reflexivity|]. split_and!; [done|by apply Hpost|done].
    - destruct Hstep as (a & b & -> & Ht). rewrite <- Hcell in Ht.
      destruct Hpre as (_ & Hn & _). by destruct Hn. }
  assert (Hdead : is_expired t (shard db key) key = true -> db_abs t db !! key = None).
  { intros Hx. rewrite Hcell, abs_lookup. unfold is_expired in Hx.
    destruct (shard db key !! key) as [e|] eqn:E; [|done]. simpl.
    unfold abs_entry, live. destruct (expires_at e); [|done]. by rewrite Hx. }
  destruct op; try (apply Hgen; [done|intros ? ? ? ->; done]).
  - (* KRemove *)
    destruct (is_expired t (shard db key) key) eqn:Hx.
    + unfold db_step. cbn [on_key at_time what shard_step].
      pose proof (on_shard_refines eq t key db (fun s => Shard.remove s key)
        (fun _ => (bool_decide (is_Some (shard db key !! key)), None)) Hwf) as Hr.
      destruct Hr as (_ & Hr & Hw).
      { unfold Shard.remove. apply refines_delete; auto with muon. }
      eexists _, _, None. split; [reflexivity|]. split_and!; [exact Hw| |exact Hr].
      split; [done|]. eexists. split; [done|]. intros [? Hc]. by rewrite (Hdead eq_refl) in Hc.
    + apply Hgen; [done|]. cbn [key_post spec_step snd]. intros o c' Ho ->. split; [done|].
      apply out_rel_bool in Ho as ->. eexists. split; [done|].
      intros. by apply bool_decide_eq_true.
  - (* KSetExpire *)
    destruct (is_expired t (shard db key) key) eqn:Hx.
    + unfold db_step. cbn [on_key at_time what shard_step]. pose proof (Hdead eq_refl) as Hd.
      pose proof (on_shard_refines eq t key db (fun s => Shard.set_expire_ms t s key ttl)
        (fun _ => (true, shard db key !! key ≫= fun e =>
           abs_entry t (MkEntry (value e) (Some (saturating_u64 (t + ttl)))))) Hwf) as Hr.
      unfold is_expired in Hx. destruct (shard db key !! key) as [e|] eqn:E; [|done].
      destruct Hr as (_ & Hr & Hw).
      { unfold Shard.set_expire_ms. rewrite E. apply refines_store; auto.
        exact (shard_wf_lookup _ _ _ Hs E). }
      rewrite on_shard_eq in Hr, Hw. cbn [fst snd mbind option_bind] in Hr, Hw.
      eexists _, _, _. split; [reflexivity|]. split; [exact Hw|]. split; [|exact Hr].
      cbn [key_post]. rewrite Hd. right. unfold Shard.set_expire_ms. rewrite E. split; [done|].
      intros v ex. cbn [snd mbind option_bind]. unfold abs_entry, live, acell_of.
      cbn [expires_at value]. destruct (negb _); [|done]. by intros [= _ <-].
    + apply Hgen; [done|]. cbn [key_post spec_step fst snd]. intros o c' Ho ->.
      apply out_rel_bool in Ho as ->. destruct (db_abs t db !! key); [done|]. by left.
  - (* KListTrim *)
    destruct Hpre as (Ha & _ & Hl). apply Hgen; [|intros ? ? ? ->; done].
    split; [done|]. by rewrite <- Hcell.
Qed.

Lemma at_call_represents (e : Env) (f : Flat) : represents now db_index skip_aof p0 e f ->
  represents now db_index skip_aof p0 e (at_call now f) /\
  fl_time (at_call now f) = now (env_tick e).
Proof.
  intros (Ht & Hwf & Ha & Hle & Hp). unfold represents, at_call. cbn [fl_tick fl_time fl_map fl_log].
  rewrite <- Ha, <- (db_abs_later (fl_time f) (now (fl_tick f))), <- Ht by done.
  rewrite <- Ht in Hle. split_and!; auto. done.
Qed.

Lemma represents_next (e : Env) (f : Flat) (db : Db) (a : gmap bytes acell) :
  represents now db_index skip_aof p0 e f -> fl_time f = now (env_tick e) ->
  db_wf db -> db_abs (fl_time f) db = a ->
  represents now db_index skip_aof p0 (MkEnv db (env_persist e) (S (env_tick e))) (after f a).
Proof.
  intros (Ht & _ & _ & _ & Hp) Htime Hwf Ha. unfold represents, after. simpl.
  rewrite <- Ht. split_and!; [done|done|done|by rewrite Htime|done].
Qed.

(** One call: the store and the log do what the flat map and the list of logged commands
    do. *)
Lemma call_sound {R} (c : DbCall R) (e : Env) (f : Flat) (K : R -> Flat -> Prop) :
  represents now db_index skip_aof p0 e f -> call_spec now c f K ->
  exists r e' f', db_call now db_index skip_aof c e = Some (r, e') /\
    represents now db_index skip_aof p0 e' f' /\ K r f'.
Proof.
  intros Hrep HK. destruct (at_call_represents e f Hrep) as [Hrep' Htime].
  unfold call_spec in HK. cbn zeta in HK. revert HK Hrep' Htime.
  generalize (at_call now f). intros g HK Hg Htime. clear Hrep.
  pose proof Hg as (Ht & Hwf & Ha & Hle & Hp). unfold db_call. cbn zeta. rewrite <- Htime.
  destruct c as [key op|src dst m|keys|keys|pattern| | | |cmd args].
  - destruct HK as [Hpre HK]. rewrite <- Ha in Hpre, HK.
    destruct (key_step_sound (fl_time g) (env_db e) key op Hwf Hpre)
      as (o & db' & c' & -> & Hwf' & Hpost & Ha').
    eexists _, _, _. split; [reflexivity|]. split; [|by apply HK].
    by apply represents_next.
  - destruct (set_move_spec (fl_time g) src dst m (env_db e) Hwf) as (E1 & E2 & E3).
    eexists _, _, _. split; [reflexivity|]. split; [|rewrite E1, Ha; exact HK].
    rewrite <- Ha. by apply represents_next.
  - destruct (set_union_ok (fl_time g) (env_db e) keys Hwf) as (E1 & E2 & E3).
    eexists _, _, _. split; [reflexivity|]. split; [apply represents_next; [done..|by rewrite E2]|].
    apply HK. rewrite E3, Ha. destruct (spec_union _ _) as [X|]; [|done].
      exists (hset_iter X). split; [done|apply hset_iter_perm].
  - destruct (set_inter_view (fl_time g) (env_db e) keys Hwf) as [E1 E2].
    eexists _, _, _. split; [reflexivity|]. split; [apply represents_next; [done..|by rewrite E2]|].
    apply HK. intros Hall. rewrite <- Ha in Hall |- *.
      by destruct (set_inter_ok (fl_time g) (env_db e) keys Hwf Hall) as (_ & Hl).
  - destruct (keys_matching_spec (fl_time g) (env_db e) pattern Hwf) as (E1 & E2 & E3 & E4).
    eexists _, _, _. split; [reflexivity|]. split; [apply represents_next; [done..|by rewrite E3]|].
    apply HK; [done|]. by rewrite E2, Ha.
  - destruct (len_spec (fl_time g) (env_db e) Hwf) as (E1 & E2 & E3).
    eexists _, _, _. split; [reflexivity|]. split; [apply represents_next; [done..|by rewrite E2]|].
    by rewrite E1, Ha.
  - destruct (flush_spec (fl_time g) (env_db e) Hwf) as (E1 & E2).
    eexists _, _, _. split; [reflexivity|]. split; [|apply HK].
    by apply represents_next.
  - eexists _, _, _. split; [reflexivity|]. split; [|exact HK].
    by apply represents_next.
  - eexists _, _, _. split; [reflexivity|]. split; [|exact HK].
    unfold represents, after_log. simpl. rewrite <- Ht, Htime. split_and!; [done| | | |].
    + done.
    + by rewrite <- Htime.
    + done.
    + unfold after_logs. rewrite foldl_snoc. simpl. f_equal. exact Hp.
Qed.

Lemma run_sound {A} (p : Prog A) : forall (e : Env) (f : Flat) (Q : A -> Flat -> Prop),
  represents now db_index skip_aof p0 e f -> wp now p f Q ->
  exists x e' f', run now db_index skip_aof p e = Some (x, e') /\
    represents now db_index skip_aof p0 e' f' /\ Q x f'.
Proof.
  induction p as [a|R c k IH|]; intros e f Q Hrep Hwp; cbn [wp run] in *; [|  |done].
  { eexists _, _, _. done. }
  destruct (call_sound c e f _ Hrep Hwp) as (r & e1 & f1 & -> & Hrep1 & Hk). simpl.
  by apply (IH r e1 f1).
Qed.
End Sound.
