(* ===== verification/Handlers.v ===== *)
(** * Handlers: the data commands

    [src/muon_cache/cmd_handlers.rs]: one definition per command, in the groups of the
    source.  A handler gets the command's name and the arguments after it, and is a program
    over the calls of [Calls]; [None] of a group is "not my command".  The [Arc]s and
    clones of the source are the values. *)
From Stdlib Require Import SpecFloat.
From S2P Require Import Prelude.
From S2P Require Import IntCodec.
From S2P Require Import Utf8.
From S2P Require Import HashStore.
From S2P Require Import Glob.
From S2P Require Import Shard.
From S2P Require Import ShardOps.
From S2P Require Import Resp.
From S2P Require Import ServerArgs.
From S2P Require Import Calls.

(** ** The store's operations, as calls *)

Definition set_string key v ex := key_call key (KSet (VString v) ex) as_unit.
Definition set_string_ref key v ex := key_call key (KSetStringRef v ex) as_unit.
Definition remove key := key_call key KRemove as_bool.
Definition exists_key key := key_call key KExists as_bool.
Definition ttl_ms key := key_call key KTtl as_opt_int.
Definition set_expire_ms key ttl := key_call key (KSetExpire ttl) as_bool.
Definition persist key := key_call key KPersist as_int.
Definition value_type key := key_call key KType as_opt_bytes.
Definition get_string key := key_call key KGet as_ropt.
Definition set_nx key v := key_call key (KSetNx v) as_rbool.
Definition append key v := key_call key (KAppend v) as_rint.
Definition incr_by key delta := key_call key (KIncrBy delta) as_rint.
Definition list_push key vs left := key_call key (KListPush vs left) as_rint.
Definition list_push_x key vs left := key_call key (KListPushX vs left) as_rint.
Definition list_pop key left := key_call key (KListPop left) as_ropt.
Definition list_range key start stop := key_call key (KListRange start stop) as_rlist.
Definition list_len key := key_call key KListLen as_rint.
Definition list_index key index := key_call key (KListIndex index) as_ropt.
Definition list_set key index v := key_call key (KListSet index v) as_runit.
Definition list_insert key before pivot v := key_call key (KListInsert before pivot v) as_rint.
Definition list_rem key count v := key_call key (KListRem count v) as_rint.
Definition list_trim key start stop := key_call key (KListTrim start stop) as_runit.
Definition hash_set_ref key field v := key_call key (KHashSetRef field v) as_rbool.
Definition hash_get key field := key_call key (KHashGet field) as_ropt.
Definition hash_del key fields := key_call key (KHashDel fields) as_rint.
Definition hash_len key := key_call key KHashLen as_rint.
Definition hash_exists key field := key_call key (KHashExists field) as_rbool.
Definition hash_getall key := key_call key KHashGetall as_rpairs.
Definition hash_incr_by key field delta := key_call key (KHashIncrBy field delta) as_rint.
Definition hash_set_nx key field v := key_call key (KHashSetNx field v) as_rbool.
Definition set_add key members := key_call key (KSetAdd members) as_rint.
Definition set_remove key members := key_call key (KSetRemove members) as_rint.
Definition set_members key := key_call key KSetMembers as_rbag.
Definition set_is_member key member := key_call key (KSetIsMember member) as_rbool.
Definition set_card key := key_call key KSetCard as_rint.
Definition zadd key score member := key_call key (KZadd score member) as_rbool.
Definition zrem key members := key_call key (KZrem members) as_rint.
Definition zcard key := key_call key KZcard as_rint.
Definition zrange key start stop := key_call key (KZrange start stop) as_rlist.
Definition stream_add key id fields := key_call key (KStreamAdd id fields) as_rbytes.
Definition stream_range key start end_ := key_call key (KStreamRange start end_) as_ritems.
Definition stream_rev_range key start end_ :=
  key_call key (KStreamRevRange start end_) as_ritems.
Definition stream_len key := key_call key KStreamLen as_rint.
Definition stream_del key ids := key_call key (KStreamDel ids) as_rint.

(** ** Replies *)

Definition WRONGTYPE_TEXT : bytes :=
  b! "WRONGTYPE Operation against a key holding the wrong kind of value".
Definition WRONGTYPE : RespValue := StaticError WRONGTYPE_TEXT.
Definition wrong_args (cmd : bytes) : bytes :=
  b! "ERR wrong number of arguments for '" ++ cmd ++ b! "'".
Definition NOT_INTEGER : RespValue :=
  StaticError (b! "ERR value is not an integer or out of range").
Definition OK : RespValue := StaticSimple (b! "OK").
Definition flag (b : bool) : RespValue := Integer (if b then 1 else 0).
Definition blob_or_null (o : option bytes) : RespValue :=
  match o with Some v => Blob v | None => Null end.

(** The fields and values of [items], one after the other. *)
Fixpoint flatten (items : list (bytes * bytes)) : list RespValue :=
  match items with
  | [] => []
  | (field, v) :: items' => Blob field :: Blob v :: flatten items'
  end.

(** The arguments taken two by two; an odd one at the end is left out. *)
Fixpoint pairs (args : list bytes) : list (bytes * bytes) :=
  match args with
  | a :: b :: args' => (a, b) :: pairs args'
  | _ => []
  end.

(** ** String commands *)

Section StringCmds.
Context (cmd : bytes) (args : list bytes).

Definition log : Prog unit := call (LogCmd cmd args).

Definition cmd_DBSIZE : Prog RespValue := n ← call DbLen; Ret (Integer (Z.of_nat n)).

Definition cmd_GET : Prog RespValue :=
  match args with
  | key :: _ =>
      r ← get_string key;
      Ret match r with
          | Ok (Some v) => Blob v
          | Ok None => Null
          | Err => WRONGTYPE
          end
  | [] => Ret (StaticError (wrong_args (b! "GET")))
  end.

Definition cmd_SETNX : Prog RespValue :=
  match args with
  | key :: v :: _ =>
      r ← set_nx key v;
      match r with
      | Ok set => _ ← (if set then log else Ret tt); Ret (flag set)
      | Err => Ret WRONGTYPE
      end
  | _ => Ret (StaticError (wrong_args (b! "SETNX")))
  end.

Fixpoint mset_loop (kvs : list (bytes * bytes)) : Prog unit :=
  match kvs with
  | [] => Ret tt
  | (key, v) :: kvs' => _ ← set_string key v None; mset_loop kvs'
  end.

Definition cmd_MSET : Prog RespValue :=
  if (length args <? 2)%nat || negb (Nat.even (length args))
  then Ret (StaticError (wrong_args (b! "MSET")))
  else _ ← mset_loop (pairs args); _ ← log; Ret OK.

Fixpoint mget_loop (keys : list bytes) (out : list RespValue) : Prog RespValue :=
  match keys with
  | [] => Ret (Array out)
  | key :: keys' =>
      r ← get_string key;
      match r with
      | Ok o => mget_loop keys' (out ++ [blob_or_null o])
      | Err => Ret WRONGTYPE
      end
  end.

Definition cmd_MGET : Prog RespValue :=
  match args with
  | [] => Ret (StaticError (wrong_args (b! "MGET")))
  | _ => mget_loop args []
  end.

Definition cmd_GETSET : Prog RespValue :=
  match args with
  | key :: v :: _ =>
      prev ← get_string key;
      match prev with
      | Err => Ret WRONGTYPE
      | Ok prev =>
          _ ← set_string key v None;
          _ ← log;
          Ret (blob_or_null prev)
      end
  | _ => Ret (StaticError (wrong_args (b! "GETSET")))
  end.

Definition cmd_APPEND : Prog RespValue :=
  match args with
  | key :: v :: _ =>
      r ← append key v;
      match r with
      | Ok len => _ ← log; Ret (Integer len)
      | Err => Ret WRONGTYPE
      end
  | _ => Ret (StaticError (wrong_args (b! "APPEND")))
  end.

Definition incr_and_log (key : bytes) (delta : Z) : Prog RespValue :=
  r ← incr_by key delta;
  match r with
  | Ok val => _ ← log; Ret (Integer val)
  | Err => Ret NOT_INTEGER
  end.

Definition cmd_INCR : Prog RespValue :=
  match args with
  | key :: _ => incr_and_log key 1
  | [] => Ret (StaticError (wrong_args (b! "INCR")))
  end.

Definition cmd_INCRBY : Prog RespValue :=
  match args with
  | key :: delta :: _ => incr_and_log key (default 0 (parse_i64 delta))
  | _ => Ret (StaticError (wrong_args (b! "INCRBY")))
  end.

Definition cmd_DECR : Prog RespValue :=
  match args with
  | key :: _ => incr_and_log key (-1)
  | [] => Ret (StaticError (wrong_args (b! "DECR")))
  end.

(** The negation wraps at [i64::MIN], as in a release build. *)
Definition cmd_DECRBY : Prog RespValue :=
  match args with
  | key :: delta :: _ => incr_and_log key (wrap_i64 (- default 0 (parse_i64 delta)))
  | _ => Ret (StaticError (wrong_args (b! "DECRBY")))
  end.

Definition cmd_STRLEN : Prog RespValue :=
  match args with
  | key :: _ =>
      r ← get_string key;
      Ret match r with
          | Ok (Some v) => Integer (blen v)
          | Ok None => Integer 0
          | Err => WRONGTYPE
          end
  | [] => Ret (StaticError (wrong_args (b! "STRLEN")))
  end.
End StringCmds.

(** ** Hash commands *)

Section HashCmds.
Context (cmd : bytes) (args : list bytes).
Let log : Prog unit := log cmd args.

(** [None] is the early return on a wrong type. *)
Fixpoint hset_loop (key : bytes) (fvs : list (bytes * bytes)) (added : Z) : Prog (option Z) :=
  match fvs with
  | [] => Ret (Some added)
  | (field, v) :: fvs' =>
      r ← hash_set_ref key field v;
      match r with
      | Ok is_new => hset_loop key fvs' (if is_new : bool then added + 1 else added)
      | Err => Ret None
      end
  end.

Definition cmd_HSET : Prog RespValue :=
  if (length args <? 3)%nat || Nat.even (length args)
  then Ret (StaticError (wrong_args (b! "HSET")))
  else
    match args with
    | key :: rest =>
        r ← hset_loop key (pairs rest) 0;
        match r with
        | Some added => _ ← log; Ret (Integer added)
        | None => Ret WRONGTYPE
        end
    | [] => Panic
    end.

Definition cmd_HGET : Prog RespValue :=
  match args with
  | key :: field :: _ =>
      r ← hash_get key field;
      Ret match r with
          | Ok (Some v) => Blob v
          | Ok None => Null
          | Err => WRONGTYPE
          end
  | _ => Ret (StaticError (wrong_args (b! "HGET")))
  end.

Definition cmd_HDEL : Prog RespValue :=
  match args with
  | key :: (_ :: _) as fields =>
      r ← hash_del key fields;
      match r with
      | Ok removed => _ ← log; Ret (Integer removed)
      | Err => Ret WRONGTYPE
      end
  | _ => Ret (StaticError (wrong_args (b! "HDEL")))
  end.

Definition cmd_HGETALL : Prog RespValue :=
  match args with
  | key :: _ =>
      r ← hash_getall key;
      Ret match r with
          | Ok items => Array (flatten items)
          | Err => WRONGTYPE
          end
  | [] => Ret (StaticError (wrong_args (b! "HGETALL")))
  end.

Definition cmd_HLEN : Prog RespValue :=
  match args with
  | key :: _ =>
      r ← hash_len key;
      Ret match r with Ok len => Integer len | Err => WRONGTYPE end
  | [] => Ret (StaticError (wrong_args (b! "HLEN")))
  end.

Definition cmd_HEXISTS : Prog RespValue :=
  match args with
  | key :: field :: _ =>
      r ← hash_exists key field;
      Ret match r with Ok b => flag b | Err => WRONGTYPE end
  | _ => Ret (StaticError (wrong_args (b! "HEXISTS")))
  end.

Definition cmd_HINCRBY : Prog RespValue :=
  match args with
  | key :: field :: delta :: _ =>
      match parse_i64 delta with
      | Some delta =>
          r ← hash_incr_by key field delta;
          match r with
          | Ok val => _ ← log; Ret (Integer val)
          | Err => Ret (StaticError (b! "ERR hash value is not an integer"))
          end
      | None => Ret NOT_INTEGER
      end
  | _ => Ret (StaticError (wrong_args (b! "HINCRBY")))
  end.

Definition cmd_HSETNX : Prog RespValue :=
  match args with
  | key :: field :: v :: _ =>
      r ← hash_set_nx key field v;
      match r with
      | Ok inserted => _ ← (if inserted then log else Ret tt); Ret (flag inserted)
      | Err => Ret WRONGTYPE
      end
  | _ => Ret (StaticError (wrong_args (b! "HSETNX")))
  end.
End HashCmds.

(** ** List commands *)

Section ListCmds.
Context (cmd : bytes) (args : list bytes).
Let log : Prog unit := log cmd args.

(** LPUSH and RPUSH. *)
Definition cmd_LPUSH : Prog RespValue :=
  match args with
  | key :: (_ :: _) as values =>
      r ← list_push key values (bool_decide (cmd = b! "LPUSH"));
      match r with
      | Ok len => _ ← log; Ret (Integer len)
      | Err => Ret WRONGTYPE
      end
  | _ => Ret (Error (wrong_args cmd))
  end.

(** [for _ in 0..count]; [None] is the early return on a wrong type. *)
Fixpoint pop_loop (count : nat) (key : bytes) (left : bool) (out : list RespValue)
    : Prog (option (list RespValue)) :=
  match count with
  | O => Ret (Some out)
  | S count' =>
      r ← list_pop key left;
      match r with
      | Ok (Some v) => pop_loop count' key left (out ++ [Blob v])
      | Ok None => Ret (Some out)
      | Err => Ret None
      end
  end.

(** LPOP and RPOP. *)
Definition cmd_LPOP : Prog RespValue :=
  let left := bool_decide (cmd = b! "LPOP") in
  match args with
  | [key] =>
      r ← list_pop key left;
      match r with
      | Ok (Some v) => _ ← log; Ret (Blob v)
      | Ok None => Ret Null
      | Err => Ret (Error WRONGTYPE_TEXT)
      end
  | [key; count] =>
      let n := default 0 (parse_i64 count) in
      if n <=? 0 then Ret NOT_INTEGER
      else
        r ← pop_loop (Z.to_nat n) key left [];
        match r with
        | None => Ret (Error WRONGTYPE_TEXT)
        | Some [] => Ret Null
        | Some out => _ ← log; Ret (Array out)
        end
  | _ => Ret (Error (wrong_args cmd))
  end.

Definition cmd_LRANGE : Prog RespValue :=
  match args with
  | key :: start :: stop :: _ =>
      r ← list_range key (default 0 (parse_i64 start)) (default (-1) (parse_i64 stop));
      Ret match r with
          | Ok items => Array (Blob <$> items)
          | Err => WRONGTYPE
          end
  | _ => Ret (StaticError (wrong_args (b! "LRANGE")))
  end.

Definition cmd_LLEN : Prog RespValue :=
  match args with
  | key :: _ =>
      r ← list_len key;
      Ret match r with Ok len => Integer len | Err => WRONGTYPE end
  | [] => Ret (StaticError (wrong_args (b! "LLEN")))
  end.

Definition cmd_LINDEX : Prog RespValue :=
  match args with
  | key :: index :: _ =>
      match parse_i64 index with
      | None => Ret NOT_INTEGER
      | Some idx =>
          r ← list_index key idx;
          Ret match r with
              | Ok (Some v) => Blob v
              | Ok None => Null
              | Err => WRONGTYPE
              end
      end
  | _ => Ret (StaticError (wrong_args (b! "LINDEX")))
  end.

Definition cmd_LSET : Prog RespValue :=
  match args with
  | key :: index :: v :: _ =>
      match parse_i64 index with
      | None => Ret NOT_INTEGER
      | Some idx =>
          r ← list_set key idx v;
          match r with
          | Ok _ => _ ← log; Ret OK
          | Err => Ret WRONGTYPE
          end
      end
  | _ => Ret (StaticError (wrong_args (b! "LSET")))
  end.

Definition insert_before (pos : bytes) : option bool :=
  let up := to_ascii_uppercase <$> pos in
  if bool_decide (up = b! "BEFORE") then Some true
  else if bool_decide (up = b! "AFTER") then Some false else None.

Definition cmd_LINSERT : Prog RespValue :=
  match args with
  | key :: pos :: pivot :: v :: _ =>
      match insert_before pos with
      | None => Ret (StaticError (b! "ERR syntax error"))
      | Some before =>
          r ← list_insert key before pivot v;
          match r with
          | Ok len => _ ← (if 0 <? len then log else Ret tt); Ret (Integer len)
          | Err => Ret WRONGTYPE
          end
      end
  | _ => Ret (StaticError (wrong_args (b! "LINSERT")))
  end.

Definition cmd_LREM : Prog RespValue :=
  match args with
  | key :: count :: v :: _ =>
      match parse_i64 count with
      | None => Ret NOT_INTEGER
      | Some cnt =>
          r ← list_rem key cnt v;
          match r with
          | Ok removed => _ ← (if 0 <? removed then log else Ret tt); Ret (Integer removed)
          | Err => Ret WRONGTYPE
          end
      end
  | _ => Ret (StaticError (wrong_args (b! "LREM")))
  end.

(** LPUSHX and RPUSHX. *)
Definition cmd_LPUSHX : Prog RespValue :=
  match args with
  | key :: (_ :: _) as values =>
      r ← list_push_x key values (bool_decide (cmd = b! "LPUSHX"));
      match r with
      | Ok len => _ ← (if 0 <? len then log else Ret tt); Ret (Integer len)
      | Err => Ret WRONGTYPE
      end
  | _ => Ret (Error (wrong_args cmd))
  end.

Definition cmd_LTRIM : Prog RespValue :=
  match args with
  | key :: start :: stop :: _ =>
      r ← list_trim key (default 0 (parse_i64 start)) (default (-1) (parse_i64 stop));
      match r with
      | Ok _ => _ ← log; Ret OK
      | Err => Ret WRONGTYPE
      end
  | _ => Ret (StaticError (wrong_args (b! "LTRIM")))
  end.
End ListCmds.

(** ** Set commands *)

Section SetCmds.
Context (cmd : bytes) (args : list bytes).
Let log : Prog unit := log cmd args.

Definition cmd_SADD : Prog RespValue :=
  match args with
  | key :: (_ :: _) as members =>
      r ← set_add key members;
      match r with
      | Ok added => _ ← log; Ret (Integer added)
      | Err => Ret WRONGTYPE
      end
  | _ => Ret (StaticError (wrong_args (b! "SADD")))
  end.

Definition cmd_SREM : Prog RespValue :=
  match args with
  | key :: (_ :: _) as members =>
      r ← set_remove key members;
      match r with
      | Ok removed => _ ← log; Ret (Integer removed)
      | Err => Ret WRONGTYPE
      end
  | _ => Ret (StaticError (wrong_args (b! "SREM")))
  end.

Definition cmd_SMEMBERS : Prog RespValue :=
  match args with
  | key :: _ =>
      r ← set_members key;
      Ret match r with Ok members => Array (Blob <$> members) | Err => WRONGTYPE end
  | [] => Ret (StaticError (wrong_args (b! "SMEMBERS")))
  end.

Definition cmd_SISMEMBER : Prog RespValue :=
  match args with
  | key :: member :: _ =>
      r ← set_is_member key member;
      Ret match r with Ok b => flag b | Err => WRONGTYPE end
  | _ => Ret (StaticError (wrong_args (b! "SISMEMBER")))
  end.

Definition cmd_SCARD : Prog RespValue :=
  match args with
  | key :: _ =>
      r ← set_card key;
      Ret match r with Ok len => Integer len | Err => WRONGTYPE end
  | [] => Ret (StaticError (wrong_args (b! "SCARD")))
  end.

Definition cmd_SMOVE : Prog RespValue :=
  match args with
  | source :: dest :: member :: _ =>
      r ← call (SetMove source dest member);
      match r with
      | Ok moved => _ ← (if moved then log else Ret tt); Ret (flag moved)
      | Err => Ret WRONGTYPE
      end
  | _ => Ret (StaticError (wrong_args (b! "SMOVE")))
  end.

Definition cmd_SUNION : Prog RespValue :=
  match args with
  | [] => Ret (StaticError (wrong_args (b! "SUNION")))
  | _ =>
      r ← call (SetUnion args);
      Ret match r with Ok members => Array (Blob <$> members) | Err => WRONGTYPE end
  end.

Definition cmd_SINTER : Prog RespValue :=
  match args with
  | [] => Ret (StaticError (wrong_args (b! "SINTER")))
  | _ =>
      r ← call (SetInter args);
      Ret match r with Ok members => Array (Blob <$> members) | Err => WRONGTYPE end
  end.
End SetCmds.

(** ** Sorted-set commands *)

Section ZsetCmds.
Context (cmd : bytes) (args : list bytes).
Let log : Prog unit := log cmd args.

Definition zadd_score (arg : bytes) : f64 := default (S754_zero false) (parse_f64 arg).

Fixpoint zadd_loop (key : bytes) (sms : list (bytes * bytes)) (added : Z) : Prog (option Z) :=
  match sms with
  | [] => Ret (Some added)
  | (score, member) :: sms' =>
      r ← zadd key (zadd_score score) member;
      match r with
      | Ok is_new => zadd_loop key sms' (if is_new : bool then added + 1 else added)
      | Err => Ret None
      end
  end.

Definition cmd_ZADD : Prog RespValue :=
  if (length args <? 3)%nat || negb (Nat.even (length args - 1))
  then Ret (StaticError (wrong_args (b! "ZADD")))
  else
    match args with
    | key :: rest =>
        r ← zadd_loop key (pairs rest) 0;
        match r with
        | Some added => _ ← log; Ret (Integer added)
        | None => Ret WRONGTYPE
        end
    | [] => Panic
    end.

Definition cmd_ZRANGE : Prog RespValue :=
  match args with
  | key :: start :: stop :: _ =>
      r ← zrange key (default 0 (parse_i64 start)) (default (-1) (parse_i64 stop));
      Ret match r with Ok items => Array (Blob <$> items) | Err => WRONGTYPE end
  | _ => Ret (StaticError (wrong_args (b! "ZRANGE")))
  end.

Definition cmd_ZREM : Prog RespValue :=
  match args with
  | key :: (_ :: _) as members =>
      r ← zrem key members;
      match r with
      | Ok removed => _ ← (if 0 <? removed then log else Ret tt); Ret (Integer removed)
      | Err => Ret WRONGTYPE
      end
  | _ => Ret (StaticError (wrong_args (b! "ZREM")))
  end.

Definition cmd_ZCARD : Prog RespValue :=
  match args with
  | key :: _ =>
      r ← zcard key;
      Ret match r with Ok len => Integer len | Err => WRONGTYPE end
  | [] => Ret (StaticError (wrong_args (b! "ZCARD")))
  end.
End ZsetCmds.

(** ** Stream commands *)

Section StreamCmds.
Context (cmd : bytes) (args : list bytes).
Let log : Prog unit := log cmd args.

Definition cmd_XADD : Prog RespValue :=
  if (length args <? 4)%nat || negb (Nat.even (length args))
  then Ret (StaticError (wrong_args (b! "XADD")))
  else
    match args with
    | key :: id :: fields =>
        match from_utf8 id with
        | None => Ret (StaticError (b! "ERR invalid stream ID"))
        | Some id =>
            r ← stream_add key id (pairs fields);
            match r with
            | Ok new_id => _ ← log; Ret (Blob new_id)
            | Err => Ret (StaticError (b! "ERR invalid stream ID"))
            end
        end
    | _ => Panic
    end.

Definition item_reply (item : StreamItem) : RespValue :=
  Array [Blob item.1; Array (flatten item.2)].

Definition cmd_XRANGE : Prog RespValue :=
  match args with
  | key :: start :: end_ :: _ =>
      r ← stream_range key (default (b! "-") (from_utf8 start))
            (default (b! "+") (from_utf8 end_));
      Ret match r with Ok items => Array (item_reply <$> items) | Err => WRONGTYPE end
  | _ => Ret (StaticError (wrong_args (b! "XRANGE")))
  end.

Definition cmd_XREVRANGE : Prog RespValue :=
  match args with
  | key :: end_arg :: start_arg :: _ =>
      r ← stream_rev_range key (default (b! "+") (from_utf8 end_arg))
            (default (b! "-") (from_utf8 start_arg));
      Ret match r with Ok items => Array (item_reply <$> items) | Err => WRONGTYPE end
  | _ => Ret (StaticError (wrong_args (b! "XREVRANGE")))
  end.

Definition cmd_XLEN : Prog RespValue :=
  match args with
  | key :: _ =>
      r ← stream_len key;
      Ret match r with Ok len => Integer len | Err => WRONGTYPE end
  | [] => Ret (StaticError (wrong_args (b! "XLEN")))
  end.

(** Arguments that are not UTF-8 are left out. *)
Definition cmd_XDEL : Prog RespValue :=
  match args with
  | key :: (_ :: _) as ids =>
      r ← stream_del key (omap from_utf8 ids);
      match r with
      | Ok deleted => _ ← log; Ret (Integer deleted)
      | Err => Ret WRONGTYPE
      end
  | _ => Ret (StaticError (wrong_args (b! "XDEL")))
  end.
End StreamCmds.

(** ** Key commands *)

Section KeyCmds.
Context (cmd : bytes) (args : list bytes).
Let log : Prog unit := log cmd args.

Definition cmd_SET : Prog RespValue :=
  match args with
  | [key; v] => _ ← set_string_ref key v None; _ ← log; Ret OK
  | _ =>
      match parse_set_args args with
      | inl (key, v, expire_ms) =>
          expire_at ←
            match expire_ms with
            | Some ms => t ← call NowMs; Ret (Some (saturating_u64 (t + ms)))
            | None => Ret None
            end;
          _ ← set_string_ref key v expire_at;
          _ ← log;
          Ret OK
      | inr e => Ret (Error e)
      end
  end.

Fixpoint del_loop (keys : list bytes) (removed : Z) : Prog Z :=
  match keys with
  | [] => Ret removed
  | key :: keys' => b ← remove key; del_loop keys' (if b : bool then removed + 1 else removed)
  end.

Definition cmd_DEL : Prog RespValue :=
  removed ← del_loop args 0; _ ← log; Ret (Integer removed).

Fixpoint exists_loop (keys : list bytes) (count : Z) : Prog Z :=
  match keys with
  | [] => Ret count
  | key :: keys' =>
      b ← exists_key key; exists_loop keys' (if b : bool then count + 1 else count)
  end.

Definition cmd_EXISTS : Prog RespValue := count ← exists_loop args 0; Ret (Integer count).

Definition expire_and_log (key : bytes) (ms : Z) : Prog RespValue :=
  ok ← set_expire_ms key ms; _ ← (if ok : bool then log else Ret tt); Ret (flag ok).

Definition cmd_EXPIRE : Prog RespValue :=
  match args with
  | key :: sec :: _ =>
      expire_and_log key (saturating_u64 (default 0 (parse_u64 sec) * 1000))
  | _ => Ret (StaticError (wrong_args (b! "EXPIRE")))
  end.

Definition cmd_PEXPIRE : Prog RespValue :=
  match args with
  | key :: ms :: _ => expire_and_log key (default 0 (parse_u64 ms))
  | _ => Ret (StaticError (wrong_args (b! "PEXPIRE")))
  end.

Definition cmd_PERSIST : Prog RespValue :=
  match args with
  | key :: _ =>
      removed ← persist key;
      _ ← (if removed =? 1 then log else Ret tt);
      Ret (Integer removed)
  | [] => Ret (StaticError (wrong_args (b! "PERSIST")))
  end.

Definition cmd_TTL : Prog RespValue :=
  match args with
  | key :: _ =>
      r ← ttl_ms key;
      Ret match r with
          | Some ms => if 0 <=? ms then Integer (ms `quot` 1000) else Integer ms
          | None => Integer (-2)
          end
  | [] => Ret (StaticError (wrong_args (b! "TTL")))
  end.

Definition cmd_PTTL : Prog RespValue :=
  match args with
  | key :: _ =>
      r ← ttl_ms key;
      Ret match r with Some ms => Integer ms | None => Integer (-2) end
  | [] => Ret (StaticError (wrong_args (b! "PTTL")))
  end.

Definition cmd_TYPE : Prog RespValue :=
  match args with
  | key :: _ =>
      r ← value_type key;
      Ret match r with Some t => Simple t | None => Simple (b! "none") end
  | [] => Ret (StaticError (wrong_args (b! "TYPE")))
  end.

Definition cmd_KEYS : Prog RespValue :=
  match args with
  | pattern :: _ => keys ← call (KeysMatching pattern); Ret (Array (Blob <$> keys))
  | [] => Ret (StaticError (wrong_args (b! "KEYS")))
  end.

(** The options of SCAN after the cursor: the pattern and the count, or the error. *)
Fixpoint scan_options (opts : list bytes) (pattern : bytes) (count : Z)
    : bytes * Z + RespValue :=
  match opts with
  | [] => inl (pattern, count)
  | o :: rest =>
      let opt := to_ascii_uppercase <$> o in
      if bool_decide (opt = b! "MATCH") then
        match rest with
        | p :: rest' => scan_options rest' p count
        | [] => inr (StaticError (b! "ERR syntax error"))
        end
      else if bool_decide (opt = b! "COUNT") then
        match rest with
        | c :: rest' =>
            match from_utf8 c ≫= u64_from_str with
            | Some n => scan_options rest' pattern n
            | None => inr (StaticError (b! "ERR invalid COUNT"))
            end
        | [] => inr (StaticError (b! "ERR syntax error"))
        end
      else inr (StaticError (b! "ERR syntax error"))
  end.

(** The page at the cursor and the next cursor.  [cursor_val + count] wraps in [usize], as
    in a release build, and a slice that ends before it starts panics. *)
Definition scan_page (keys : list bytes) (cursor_val count : Z) : option (Z * list bytes) :=
  let klen := Z.of_nat (length keys) in
  let cursor_val := if klen <? cursor_val then klen else cursor_val in
  let end_ := Z.min ((cursor_val + count) `mod` 2 ^ 64) klen in
  if end_ <? cursor_val then None
  else
    let batch := take (Z.to_nat (end_ - cursor_val)) (drop (Z.to_nat cursor_val) keys) in
    Some (if klen <=? end_ then 0 else end_, batch).

Definition cmd_SCAN : Prog RespValue :=
  match args with
  | cursor :: opts =>
      match from_utf8 cursor ≫= u64_from_str with
      | None => Ret (StaticError (b! "ERR invalid cursor"))
      | Some cursor_val =>
          match scan_options opts (b! "*") 10 with
          | inr e => Ret e
          | inl (pattern, count) =>
              keys ← call (KeysMatching pattern);
              match scan_page keys cursor_val count with
              | Some (next_cursor, batch) =>
                  Ret (Array [Blob (int_to_string next_cursor); Array (Blob <$> batch)])
              | None => Panic
              end
          end
      end
  | [] => Ret (StaticError (wrong_args (b! "SCAN")))
  end.

Definition cmd_FLUSHDB : Prog RespValue :=
  match args with
  | [] => _ ← call DbFlush; _ ← log; Ret OK
  | _ => Ret (StaticError (wrong_args (b! "FLUSHDB")))
  end.
End KeyCmds.

(** ** The groups *)

(** [match cmd { name => arm, .., _ => return None }] *)
Fixpoint dispatch {A} (cmd : bytes) (arms : list (string * A)) : option A :=
  match arms with
  | [] => None
  | (name, arm) :: arms' =>
      if bool_decide (cmd = bytes_of_string name) then Some arm else dispatch cmd arms'
  end.

Section Groups.
Context (cmd : bytes) (args : list bytes).

Definition string_arms : list (string * Prog RespValue) :=
  [("DBSIZE", cmd_DBSIZE); ("GET", cmd_GET args); ("SETNX", cmd_SETNX cmd args);
   ("MSET", cmd_MSET cmd args); ("MGET", cmd_MGET args); ("GETSET", cmd_GETSET cmd args);
   ("APPEND", cmd_APPEND cmd args); ("INCR", cmd_INCR cmd args);
   ("INCRBY", cmd_INCRBY cmd args); ("DECR", cmd_DECR cmd args);
   ("DECRBY", cmd_DECRBY cmd args); ("STRLEN", cmd_STRLEN args)]%string.
Definition string_cmds : option (Prog RespValue) := dispatch cmd string_arms.

Definition hash_arms : list (string * Prog RespValue) :=
  [("HSET", cmd_HSET cmd args); ("HGET", cmd_HGET args); ("HDEL", cmd_HDEL cmd args);
   ("HGETALL", cmd_HGETALL args); ("HLEN", cmd_HLEN args); ("HEXISTS", cmd_HEXISTS args);
   ("HINCRBY", cmd_HINCRBY cmd args); ("HSETNX", cmd_HSETNX cmd args)]%string.
Definition hash_cmds : option (Prog RespValue) := dispatch cmd hash_arms.

Definition list_arms : list (string * Prog RespValue) :=
  [("LPUSH", cmd_LPUSH cmd args); ("RPUSH", cmd_LPUSH cmd args);
   ("LPOP", cmd_LPOP cmd args); ("RPOP", cmd_LPOP cmd args);
   ("LRANGE", cmd_LRANGE args); ("LLEN", cmd_LLEN args); ("LINDEX", cmd_LINDEX args);
   ("LSET", cmd_LSET cmd args); ("LINSERT", cmd_LINSERT cmd args);
   ("LREM", cmd_LREM cmd args); ("LPUSHX", cmd_LPUSHX cmd args);
   ("RPUSHX", cmd_LPUSHX cmd args); ("LTRIM", cmd_LTRIM cmd args)]%string.
Definition list_cmds : option (Prog RespValue) := dispatch cmd list_arms.

Definition set_arms : list (string * Prog RespValue) :=
  [("SADD", cmd_SADD cmd args); ("SREM", cmd_SREM cmd args); ("SMEMBERS", cmd_SMEMBERS args);
   ("SISMEMBER", cmd_SISMEMBER args); ("SCARD", cmd_SCARD args);
   ("SMOVE", cmd_SMOVE cmd args); ("SUNION", cmd_SUNION args);
   ("SINTER", cmd_SINTER args)]%string.
Definition set_cmds : option (Prog RespValue) := dispatch cmd set_arms.

Definition zset_arms : list (string * Prog RespValue) :=
  [("ZADD", cmd_ZADD cmd args); ("ZRANGE", cmd_ZRANGE args); ("ZREM", cmd_ZREM cmd args);
   ("ZCARD", cmd_ZCARD args)]%string.
Definition zset_cmds : option (Prog RespValue) := dispatch cmd zset_arms.

Definition stream_arms : list (string * Prog RespValue) :=
  [("XADD", cmd_XADD cmd args); ("XRANGE", cmd_XRANGE args);
   ("XREVRANGE", cmd_XREVRANGE args); ("XLEN", cmd_XLEN args);
   ("XDEL", cmd_XDEL cmd args)]%string.
Definition stream_cmds : option (Prog RespValue) := dispatch cmd stream_arms.

Definition key_arms : list (string * Prog RespValue) :=
  [("SET", cmd_SET cmd args); ("DEL", cmd_DEL cmd args); ("EXISTS", cmd_EXISTS args);
   ("EXPIRE", cmd_EXPIRE cmd args); ("PEXPIRE", cmd_PEXPIRE cmd args);
   ("PERSIST", cmd_PERSIST cmd args); ("TTL", cmd_TTL args); ("PTTL", cmd_PTTL args);
   ("TYPE", cmd_TYPE args); ("KEYS", cmd_KEYS args); ("SCAN", cmd_SCAN args);
   ("FLUSHDB", cmd_FLUSHDB cmd args)]%string.
Definition key_cmds : option (Prog RespValue) := dispatch cmd key_arms.
End Groups.
