(* ===== verification/HandlerSpec.v ===== *)
(** * HandlerSpec: what the command handlers do, and what they log

    Properties of the handlers of [Handlers], proved on the flat map with [wp] and
    transferred to the sharded store with [run_sound]. *)
From Stdlib Require Import SpecFloat.
From S2P Require Import Prelude.
From S2P Require Import IntCodec.
From S2P Require Import Utf8.
From S2P Require Import HashStore.
From S2P Require Import Glob.
From S2P Require Import Shard.
From S2P Require Import ShardString.
From S2P Require Import ShardList.
From S2P Require Import ShardHash.
From S2P Require Import ShardSet.
From S2P Require Import ShardZset.
From S2P Require Import ShardOps.
From S2P Require Import Db.
From S2P Require Import DbSpec.
From S2P Require Import Resp.
From S2P Require Import ServerArgs.
From S2P Require Import Persist.
From S2P Require Import Calls.
From S2P Require Import Handlers.

(** The seven groups in the order in which [handle_command] asks them. *)
Definition data_command (cmd : bytes) (args : list bytes) : option (Prog RespValue) :=
  match key_cmds cmd args with
  | Some p => Some p
  | None =>
  match string_cmds cmd args with
  | Some p => Some p
  | None =>
  match hash_cmds cmd args with
  | Some p => Some p
  | None =>
  match list_cmds cmd args with
  | Some p => Some p
  | None =>
  match set_cmds cmd args with
  | Some p => Some p
  | None =>
  match zset_cmds cmd args with
  | Some p => Some p
  | None => stream_cmds cmd args
  end end end end end end.

Example rpush_tail :
  cmd_LPUSH (b! "RPUSH") [b! "k"; b! "x"; b! "y"] =
    (r ← Handlers.list_push (b! "k") [b! "x"; b! "y"] false;
     match r with
     | Ok len => _ ← log (b! "RPUSH") [b! "k"; b! "x"; b! "y"]; Ret (Integer len)
     | Err => Ret WRONGTYPE
     end).
Proof. reflexivity. Qed.

(** ** Answers that announce no change *)

Definition read_op (op : key_op) : bool :=
  match op with
  | KExists | KTtl | KType | KGet | KListRange _ _ | KListLen | KListIndex _
  | KHashGet _ | KHashLen | KHashExists _ | KHashGetall
  | KSetMembers | KSetIsMember _ | KSetCard | KZcard | KZrange _ _
  | KStreamRange _ _ | KStreamRevRange _ _ | KStreamLen => true
  | _ => false
  end.

Definition err_out (o : out) : bool :=
  match o with
  | RUnit Err | RBool Err | RInt Err | ROpt Err | RBytes Err | RList Err | RBag Err
  | RPairs Err | RItems Err => true
  | _ => false
  end.

Definition silent (op : key_op) (o : out) : bool :=
  read_op op || err_out o ||
  match op, o with
  | KSetNx _, RBool (Ok b) | KHashSetNx _ _, RBool (Ok b) => negb b
  | KSetExpire _, OBool b => negb b
  | KPersist, OInt n => negb (n =? 1)
  | KListPop _, ROpt (Ok None) => true
  | KListInsert _ _ _, RInt (Ok n) | KListRem _ _, RInt (Ok n)
  | KListPushX _ _, RInt (Ok n) | KZrem _, RInt (Ok n) => n <=? 0
  | _, _ => false
  end.

Lemma out_rel_inv (o x : out) : out_rel o x ->
  match x with
  | RBag (Ok l) => exists l', o = RBag (Ok l') /\ l' ≡ₚ l
  | RPairs (Ok l) => exists l', o = RPairs (Ok l') /\ l' ≡ₚ l
  | _ => o = x
  end.
Proof.
  destruct o as [| | | | | | | | | | |[|]|[|]|], x as [| | | | | | | | | | |[|]|[|]|];
    simpl; try done; eauto; naive_solver.
Qed.

(** Visible collections are never empty. *)
Definition cell_wf (c : option acell) : Prop :=
  match c with
  | Some (AList l, _) => l <> []
  | Some (ASet X, _) => X <> ∅
  | Some (AHash m, _) => m <> ∅
  | Some (AZSet m, _) => m <> ∅
  | _ => True
  end.

Lemma db_cell_wf (now : Z) (db : Db) (key : bytes) : db_wf db ->
  cell_wf (db_abs now db !! key).
Proof.
  intros Hwf. rewrite db_abs_lookup, abs_lookup by done.
  pose proof (shard_wf_of db key Hwf) as Hs.
  destruct (shard db key !! key) as [e|] eqn:E; [|done]. simpl.
  apply (shard_wf_lookup _ _ _ Hs) in E. unfold abs_entry, acell_of.
  destruct (live now e); [|done]. destruct (value e); simpl in *; tauto.
Qed.

Lemma remove_first_zero (v : bytes) (l : list bytes) : forall n,
  0 <= (remove_first n v l).1 /\
  ((remove_first n v l).1 = 0 -> (remove_first n v l).2 = l).
Proof.
  induction l as [|x l IH]; intros n; cbn [remove_first]; [done|].
  destruct (n <=? 0); [done|]. case_bool_decide.
  - destruct (IH (n - 1)) as [H1 _]. destruct (remove_first (n - 1) v l). simpl in *. lia.
  - destruct (IH n) as [H1 H2]. destruct (remove_first n v l). simpl in *.
    split; [done|]. intros E. by rewrite H2.
Qed.

Lemma rem_spec_zero (count : Z) (v : bytes) (l : list bytes) :
  (rem_spec count v l).1 <= 0 -> (rem_spec count v l).2 = l.
Proof.
  unfold rem_spec.
  assert (Hz : forall n l', (remove_first n v l').1 <= 0 -> (remove_first n v l').2 = l').
  { intros n l' H. destruct (remove_first_zero v l' n) as [H1 H2]. apply H2. lia. }
  destruct (count =? 0); [apply Hz|]. destruct (0 <? count); [apply Hz|].
  pose proof (Hz (wrap_i64 (- count)) (rev l)) as H.
  destruct (remove_first _ _ (rev l)) as [k r]. simpl in *. intros Hk.
  rewrite H by done. apply rev_involutive.
Qed.

Lemma delete_all_subseteq {V} (ks : list bytes) (m : gmap bytes V) : delete_all ks m ⊆ m.
Proof.
  rewrite map_subseteq_spec. intros k v. rewrite delete_all_lookup. by case_bool_decide.
Qed.

Lemma shrunk_zero {V} (ks : list bytes) (m : gmap bytes V) :
  shrunk m (delete_all ks m) <= 0 -> delete_all ks m = m.
Proof.
  unfold shrunk. intros Hs. apply map_subseteq_size_eq; [apply delete_all_subseteq|lia].
Qed.

Lemma list_cell_wf (l : list bytes) (ex : option Z) : l <> [] -> list_cell l ex = Some (AList l, ex).
Proof. by destruct l. Qed.

(** An operation that announces no change made none. *)
Lemma silent_unchanged (now : Z) (op : key_op) (c : option acell) (o : out) (c' : option acell) :
  cell_wf c -> key_post now op c o c' -> silent op o = true -> c' = c.
Proof.
  intros Hwf Hpost Hs. unfold silent in Hs.
  destruct op; cbn [key_post spec_step fst snd read_op orb] in *;
    try (destruct Hpost as [_ ->]; reflexivity);
    try (destruct Hpost as [Hrel ->]; apply out_rel_inv in Hrel; simpl in Hrel; subst o).
  all: destruct c as [[[sb|sl|sX|sh|sz|st] cex]|]; cbn in Hs |- *; try done.
  all: try (unfold spec_stream_add in *; case_bool_decide; simpl in *; done).
  all: try (repeat case_match; simplify_eq/=; done).
  all: try (destruct Hpost as [-> (b & -> & _)]; done).
  all: try (destruct Hpost as [[-> ->]|[-> _]]; done).
  all: try (destruct Hpost as [-> _]; done).
  - cbn [cell_wf] in Hwf. destruct sl; [done|]. exfalso. unfold zlen in Hs. cbn [length] in Hs.
    apply Z.leb_le in Hs. lia.
  - cbn [cell_wf] in Hwf. destruct left; [by destruct sl|].
    destruct sl as [|x sl _] using rev_ind; [done|]. simpl in Hs. by rewrite last_snoc in Hs.
  - destruct (insert_near before pivot v sl); [|done]. exfalso. simpl in Hs. unfold zlen in Hs.
    apply Z.leb_le in Hs. lia.
  - pose proof (rem_spec_zero count v sl) as Hz. destruct (rem_spec count v sl) as [k r].
    simpl in *. rewrite Hz by lia. by apply list_cell_wf.
  - cbn [cell_wf] in Hwf. unfold zset_cell. rewrite shrunk_zero by lia.
    by rewrite bool_decide_false.
Qed.

(** ** Quiet steps *)

Section Quiet.
Context (now : nat -> Z).
Hypothesis Hmono : forall t, now t <= now (S t).

(** The map holds nothing expired, no empty collection, and the clock is not behind. *)
Definition settled (f : Flat) : Prop :=
  tick (fl_time f) (fl_map f) = fl_map f /\ fl_time f <= now (fl_tick f) /\
  forall key, cell_wf (fl_map f !! key).

(** From [f] to [f'] only time has passed. *)
Definition quiet (f f' : Flat) : Prop :=
  fl_time f <= fl_time f' /\ fl_time f' <= now (fl_tick f') /\
  fl_map f' = tick (fl_time f') (fl_map f) /\ fl_log f' = fl_log f.

(** From [f] to [f'] the command was logged once, after any number of changes. *)
Definition noted (cmd : bytes) (args : list bytes) (f f' : Flat) : Prop :=
  fl_log f' = fl_log f ++ [(cmd, args)].

Lemma tick_tick (t1 t2 : Z) (a : gmap bytes acell) : t1 <= t2 -> tick t2 (tick t1 a) = tick t2 a.
Proof.
  intros Hle. apply map_eq. intros k. rewrite !tick_lookup. unfold cell_live.
  destruct (a !! k) as [[v [ts|]]|]; simpl; [|done..].
  destruct (Z.leb_spec ts t1); simpl.
  - by rewrite (proj2 (Z.leb_le ts t2)) by lia.
  - by destruct (Z.leb_spec ts t2); simpl; rewrite ?(proj2 (Z.leb_gt ts t1)) by lia.
Qed.

Lemma quiet_refl (f : Flat) : settled f -> quiet f f.
Proof. intros (H1 & H2 & _). unfold quiet. rewrite H1. split_and!; [lia|done..]. Qed.

Lemma quiet_trans (f1 f2 f3 : Flat) : quiet f1 f2 -> quiet f2 f3 -> quiet f1 f3.
Proof.
  intros (H1 & H2 & H3 & H4) (H5 & H6 & H7 & H8). unfold quiet.
  split_and!; [lia|done| |congruence]. by rewrite H7, H3, tick_tick.
Qed.

Lemma tick_cell_wf (t : Z) (a : gmap bytes acell) (key : bytes) :
  cell_wf (a !! key) -> cell_wf (tick t a !! key).
Proof. rewrite tick_lookup. destruct (a !! key); [|done]. by destruct (cell_live _ _). Qed.

Lemma quiet_settled (f f' : Flat) : settled f -> quiet f f' -> settled f'.
Proof.
  intros (_ & _ & Hc) (_ & H2 & H3 & _). unfold settled. rewrite H3. split_and!; [|done|].
  - by apply tick_tick.
  - intros key. by apply tick_cell_wf.
Qed.

Lemma quiet_step (f : Flat) : settled f ->
  quiet f (after (at_call now f) (fl_map (at_call now f))).
Proof. intros (H1 & H2 & _). unfold quiet, after, at_call. simpl. auto. Qed.

Lemma quiet_after (f : Flat) (key : bytes) (c' : option acell) : settled f ->
  c' = fl_map (at_call now f) !! key ->
  quiet f (after (at_call now f) (partial_alter (fun _ => c') key (fl_map (at_call now f)))).
Proof. intros Hf ->. rewrite partial_alter_self. by apply quiet_step. Qed.

(** An operation whose answer [as_r] reads. *)
Definition reads {R} (op : key_op) (as_r : out -> option R) : Prop :=
  forall t c o c', key_post t op c o c' -> is_Some (as_r o).

(** One key operation: the answer either announces a change or nothing happened. *)
Lemma wp_op {R A} (key : bytes) (op : key_op) (as_r : out -> option R) (k : R -> Prog A)
    (f : Flat) (Q : A -> Flat -> Prop) :
  settled f -> reads op as_r -> key_pre op (fl_map (at_call now f) !! key) ->
  (forall o r f', as_r o = Some r ->
     fl_log f' = fl_log f -> (silent op o = true -> quiet f f') -> wp now (k r) f' Q) ->
  wp now (key_call key op as_r ≫= k) f Q.
Proof.
  intros Hf Hr Hpre Hk. apply wp_key_call; [done|]. intros o c' Hpost.
  destruct (Hr _ _ _ _ Hpost) as [r Ho]. exists r. split; [done|].
  apply (Hk o r); [done|done|]. intros Hs. apply quiet_after; [done|].
  eapply silent_unchanged; [|done..]. apply tick_cell_wf. apply Hf.
Qed.

(** A key operation after which the command will be logged whatever it answers. *)
Lemma wp_any {R A} (key : bytes) (op : key_op) (as_r : out -> option R) (k : R -> Prog A)
    (f : Flat) (Q : A -> Flat -> Prop) :
  reads op as_r -> key_pre op (fl_map (at_call now f) !! key) ->
  (forall r f', fl_log f' = fl_log f -> wp now (k r) f' Q) ->
  wp now (key_call key op as_r ≫= k) f Q.
Proof.
  intros Hr Hpre Hk. apply wp_key_call; [done|]. intros o c' Hpost.
  destruct (Hr _ _ _ _ Hpost) as [r Ho]. exists r. split; [done|]. by apply Hk.
Qed.

(** What every handler but SMOVE's does. *)
Definition quiet_or_noted (cmd : bytes) (args : list bytes) (f f' : Flat) : Prop :=
  quiet f f' \/ noted cmd args f f'.

Lemma wp_log {A} (cmd : bytes) (args : list bytes) (x : A) (f f0 : Flat) :
  fl_log f = fl_log f0 ->
  wp now (_ ← log cmd args; Ret x) f (fun _ f' => quiet_or_noted cmd args f0 f').
Proof. intros Hl. right. unfold noted, at_call, after_log. simpl. by rewrite Hl. Qed.

Lemma wp_log_if {A} (b : bool) (cmd : bytes) (args : list bytes) (x : A) (f f0 : Flat) :
  fl_log f = fl_log f0 -> (b = false -> quiet f0 f) ->
  wp now (_ ← (if b then log cmd args else Ret tt); Ret x) f
    (fun _ f' => quiet_or_noted cmd args f0 f').
Proof.
  intros Hl Hq. destruct b; [by apply wp_log|]. left. by apply Hq.
Qed.

(** A read. *)
Lemma wp_read {R A} (key : bytes) (op : key_op) (as_r : out -> option R) (k : R -> Prog A)
    (f : Flat) (Q : A -> Flat -> Prop) :
  settled f -> reads op as_r -> key_pre op (fl_map (at_call now f) !! key) ->
  read_op op = true -> (forall r f', quiet f f' -> wp now (k r) f' Q) ->
  wp now (key_call key op as_r ≫= k) f Q.
Proof.
  intros Hf Hr Hpre Hread Hk. apply wp_op; [done..|]. intros o r f' _ _ Hs. apply Hk, Hs.
  unfold silent. by rewrite Hread.
Qed.
End Quiet.

(** Solves [reads op as_r]. *)
Ltac reads_tac :=
  let t := fresh in let c := fresh in let o := fresh in let c' := fresh in
  let H := fresh in
  intros t c o c' H; cbn [key_post spec_step fst snd] in H;
  repeat match type of H with
         | _ /\ _ => destruct H as [H ?]
         | _ \/ _ => destruct H as [H|H]
         | match ?c with _ => _ end => destruct c
         end; naive_solver || (destruct o; done || (eexists; done)).

(** ** The handlers *)

(** What a command needs not to panic or leave the model: scores that are numbers, a list
    LTRIM can cut, and a SCAN position that fits [usize]. *)
Definition scores_ok (args : list bytes) : Prop :=
  Forall (fun sm => zadd_score sm.1 <> S754_nan) (pairs (tail args)).
Definition trim_ok (args : list bytes) (a : gmap bytes acell) : Prop :=
  match args with
  | key :: start :: stop :: _ =>
      ~ trim_panics (default 0 (parse_i64 start)) (default (-1) (parse_i64 stop)) (a !! key) /\
      forall l ex, a !! key = Some (AList l, ex) -> zlen l < 2 ^ 63
  | _ => True
  end.
Definition scan_ok (args : list bytes) : Prop :=
  match args with
  | cursor :: opts =>
      forall c pattern n, from_utf8 cursor ≫= u64_from_str = Some c ->
        scan_options opts (b! "*") 10 = inl (pattern, n) -> c + n < 2 ^ 64
  | [] => True
  end.
Definition command_ok (cmd : bytes) (args : list bytes) (a : gmap bytes acell) : Prop :=
  (cmd = b! "ZADD" -> scores_ok args) /\ (cmd = b! "LTRIM" -> trim_ok args a) /\
  (cmd = b! "SCAN" -> scan_ok args).

Section Handlers.
Context (now : nat -> Z).
Hypothesis Hmono : forall t, now t <= now (S t).

(** The handler of [cmd] either logs the command once or does nothing visible, and it does
    not panic. *)
Definition logs_changes (cmd : bytes) (args : list bytes) (f : Flat) (p : Prog RespValue)
    : Prop := wp now p f (fun _ f' => quiet_or_noted now cmd args f f').

Ltac no_call := left; by apply quiet_refl.
Ltac silent_tac :=
  match goal with
  | Hs : silent _ ?o = true -> quiet _ ?f ?f' |- quiet _ ?f ?f' =>
      apply Hs; destruct o; simplify_eq/=; unfold silent; simpl; subst; rewrite ?orb_true_r;
      first [done|by apply Z.leb_le, Z.ltb_ge|by apply negb_true_iff]
  end.
Ltac one_read :=
  apply wp_read; [done|done|reads_tac|done|done|intros; left; assumption].
Ltac one_op :=
  apply wp_op; [done|done|reads_tac|done|];
  let o := fresh "o" in let r := fresh "r" in let f' := fresh "f'" in
  let Ho := fresh "Ho" in let Hl := fresh "Hl" in let Hs := fresh "Hs" in
  intros o r f' Ho Hl Hs; try destruct r;
  try (left; silent_tac);
  first [ by apply wp_log
        | apply wp_log_if; [done|intros ?; silent_tac] | idtac ].

(** A handler of at most one operation, by cases on its arguments. *)
Ltac split_args :=
  repeat match goal with
         | |- wp _ (match ?x with _ => _ end) _ _ => destruct x
         end.
Ltac one_call := split_args; first [no_call | one_read | one_op].

Section Loops.
Context (cmd : bytes) (args : list bytes) (f : Flat).
Hypothesis Hf : settled now f.

Lemma mset_loop_ok (l : list (bytes * bytes)) : forall f1,
  wp now (mset_loop l) f1 (fun _ f2 => fl_log f2 = fl_log f1).
Proof.
  induction l as [|[key v] l IH]; intros f1; cbn [mset_loop]; [done|].
  apply wp_any; [reads_tac|exact I|]. intros [] f2 Hl.
  eapply wp_mono; [|apply IH]. simpl. congruence.
Qed.

Lemma MSET_ok : logs_changes cmd args f (cmd_MSET cmd args).
Proof.
  unfold logs_changes, cmd_MSET. split_args; [no_call|].
  apply wp_bind. eapply wp_mono; [|apply mset_loop_ok]. intros r f2 Hl. by apply wp_log.
Qed.

Lemma mget_loop_ok (keys : list bytes) : forall f1 out, settled now f1 ->
  wp now (mget_loop keys out) f1 (fun _ f2 => quiet now f1 f2).
Proof.
  induction keys as [|key keys IH]; intros f1 out Hf1; cbn [mget_loop]; [by apply quiet_refl|].
  apply wp_read; [done|done|reads_tac|done|done|]. intros [o|] f2 Hq; [|done].
  eapply wp_mono; [|apply IH; by eapply quiet_settled]. intros. by eapply quiet_trans.
Qed.

Lemma MGET_ok : logs_changes cmd args f (cmd_MGET args).
Proof.
  unfold logs_changes, cmd_MGET. destruct args as [|k ks] eqn:E; [no_call|].
  rewrite <- E. eapply wp_mono; [|by apply mget_loop_ok]. by left.
Qed.

Lemma GETSET_ok : logs_changes cmd args f (cmd_GETSET cmd args).
Proof.
  unfold logs_changes, cmd_GETSET. split_args; try no_call.
  apply wp_read; [done|done|reads_tac|done|done|]. intros [o|] f2 Hq2; [|by left].
  apply wp_any; [reads_tac|exact I|]. intros u f3 Hl.
  apply wp_log. rewrite Hl. apply Hq2.
Qed.

Lemma exists_loop_ok (keys : list bytes) : forall f1 n, settled now f1 ->
  wp now (exists_loop keys n) f1 (fun _ f2 => quiet now f1 f2).
Proof.
  induction keys as [|key keys IH]; intros f1 n Hf1; cbn [exists_loop]; [by apply quiet_refl|].
  apply wp_read; [done|done|reads_tac|done|done|]. intros b f2 Hq.
  eapply wp_mono; [|apply IH; by eapply quiet_settled]. intros. by eapply quiet_trans.
Qed.

Lemma EXISTS_ok : logs_changes cmd args f (cmd_EXISTS args).
Proof. apply wp_bind. eapply wp_mono; [|by apply exists_loop_ok]. by left. Qed.

Lemma del_loop_ok (keys : list bytes) : forall f1 n,
  wp now (del_loop keys n) f1 (fun _ f2 => fl_log f2 = fl_log f1).
Proof.
  induction keys as [|key keys IH]; intros f1 n; cbn [del_loop]; [done|].
  apply wp_any; [reads_tac|exact I|]. intros b f2 Hl.
  eapply wp_mono; [|apply IH]. simpl. congruence.
Qed.

Lemma DEL_ok : logs_changes cmd args f (cmd_DEL cmd args).
Proof. apply wp_bind. eapply wp_mono; [|apply del_loop_ok]. intros. by apply wp_log. Qed.

(** In a loop that adds to a collection only the first step can meet another type. *)
Lemma hset_loop_ok (key : bytes) (fvs : list (bytes * bytes)) : forall f1 n,
  match fl_map f1 !! key with None | Some (AHash _, _) => True | _ => False end ->
  wp now (hset_loop key fvs n) f1 (fun r f2 => is_Some r /\ fl_log f2 = fl_log f1).
Proof.
  induction fvs as [|[field v] fvs IH]; intros f1 n Hc; cbn [hset_loop]; [by eauto|].
  apply wp_key_call; [done|]. intros o c' [Ho ->]%(id (A := _ /\ _)). apply out_rel_inv in Ho.
  assert (Hc1 : match fl_map (at_call now f1) !! key with
                | None | Some (AHash _, _) => True | _ => False end).
  { simpl. rewrite tick_lookup. destruct (fl_map f1 !! key) as [c|]; [|done].
    by destruct (cell_live _ c). }
  destruct (fl_map (at_call now f1) !! key) as [[[] ex]|]; try done; simpl in Ho; subst o;
    eexists; (split; [done|]); simpl;
    (eapply wp_mono; [|apply IH; simpl; by rewrite lookup_partial_alter_eq]); simpl; tauto.
Qed.

Lemma hset_loop_first (key : bytes) (l : list (bytes * bytes)) (f1 : Flat) (n : Z) :
  settled now f1 ->
  wp now (hset_loop key l n) f1
    (fun r f2 => fl_log f2 = fl_log f1 /\ (r = None -> quiet now f1 f2)).
Proof.
  intros Hf1. destruct l as [|[a b] l]; cbn [hset_loop]; [done|].
  apply wp_key_call; [done|]. intros o c' [Ho ->]%(id (A := _ /\ _)). apply out_rel_inv in Ho.
  destruct (fl_map (at_call now f1) !! key) as [c|] eqn:E; [destruct c as [[] ex]|];
    simpl in Ho; subst o; eexists; (split; [done|]);
    first [ split; [done|]; intros _; by apply quiet_after
          | eapply wp_mono; [|apply hset_loop_ok; [simpl; by rewrite lookup_partial_alter_eq]];
            intros r f2 [[? ->] ?]; done ].
Qed.

Lemma zadd_loop_ok (key : bytes) (sms : list (bytes * bytes)) : forall f1 n,
  Forall (fun sm => zadd_score sm.1 <> S754_nan) sms ->
  match fl_map f1 !! key with None | Some (AZSet _, _) => True | _ => False end ->
  wp now (zadd_loop key sms n) f1 (fun r f2 => is_Some r /\ fl_log f2 = fl_log f1).
Proof.
  induction sms as [|[score member] sms IH]; intros f1 n Hs Hc; cbn [zadd_loop]; [by eauto|].
  apply Forall_cons in Hs as [Hs1 Hs].
  apply wp_key_call; [done|]. intros o c' [Ho ->]%(id (A := _ /\ _)). apply out_rel_inv in Ho.
  assert (Hc1 : match fl_map (at_call now f1) !! key with
                | None | Some (AZSet _, _) => True | _ => False end).
  { simpl. rewrite tick_lookup. destruct (fl_map f1 !! key) as [c|]; [|done].
    by destruct (cell_live _ c). }
  destruct (fl_map (at_call now f1) !! key) as [[[] ex]|]; try done; simpl in Ho; subst o;
    eexists; (split; [done|]); simpl;
    (eapply wp_mono; [|apply IH; [done|simpl; by rewrite lookup_partial_alter_eq]]); simpl; tauto.
Qed.

Lemma zadd_loop_first (key : bytes) (l : list (bytes * bytes)) (f1 : Flat) (n : Z) :
  settled now f1 ->
  Forall (fun sm => zadd_score sm.1 <> S754_nan) l ->
  wp now (zadd_loop key l n) f1
    (fun r f2 => fl_log f2 = fl_log f1 /\ (r = None -> quiet now f1 f2)).
Proof.
  intros Hf1 Hs. destruct l as [|[a b] l]; cbn [zadd_loop]; [done|].
  apply Forall_cons in Hs as [Hs1 Hs]. apply wp_key_call; [done|]. intros o c' [Ho ->]%(id (A := _ /\ _)). apply out_rel_inv in Ho.
  destruct (fl_map (at_call now f1) !! key) as [c|] eqn:E; [destruct c as [[] ex]|];
    simpl in Ho; subst o; eexists; (split; [done|]);
    first [ split; [done|]; intros _; by apply quiet_after
          | eapply wp_mono; [|apply zadd_loop_ok; [done|simpl; by rewrite lookup_partial_alter_eq]];
            intros r f2 [[? ->] ?]; done ].
Qed.

Lemma HSET_ok : logs_changes cmd args f (cmd_HSET cmd args).
Proof.
  unfold logs_changes, cmd_HSET. cbv zeta. destruct (_ || _) eqn:E; [no_call|].
  destruct args as [|key rest]; [done|]. apply wp_bind.
  eapply wp_mono; [|by apply hset_loop_first]. intros [n|] f2 [Hl Hq]; [by apply wp_log|].
  left. by apply Hq.
Qed.

Lemma ZADD_ok : scores_ok args -> logs_changes cmd args f (cmd_ZADD cmd args).
Proof.
  intros Hs. unfold logs_changes, cmd_ZADD. cbv zeta. destruct (_ || _) eqn:E; [no_call|].
  destruct args as [|key rest]; [done|]. apply wp_bind.
  eapply wp_mono; [|by apply zadd_loop_first]. intros [n|] f2 [Hl Hq]; [by apply wp_log|].
  left. by apply Hq.
Qed.

Lemma list_cell_shape (l : list bytes) (ex : option Z) :
  match list_cell l ex with None => True | Some (AList l, _) => l <> [] | _ => False end.
Proof. by destruct l. Qed.

Lemma pop_some (left : bool) (l : list bytes) (ex : option Z) : l <> [] ->
  exists v, (if left then (Ok (head l), list_cell (tail l) ex)
             else (Ok (last l), list_cell (removelast l) ex)).1 = Ok (Some v).
Proof.
  intros Hl. destruct left; simpl; [destruct l; [done|eauto]|].
  destruct l using rev_ind; [done|]. rewrite last_snoc. eauto.
Qed.

(** Once an element was popped the key holds a list or nothing. *)
Lemma pop_loop_ok (key : bytes) (left : bool) (count : nat) : forall f1 out,
  match fl_map f1 !! key with None => True | Some (AList l, _) => l <> [] | _ => False end ->
  wp now (pop_loop count key left out) f1
    (fun r f2 => fl_log f2 = fl_log f1 /\ exists out', r = Some (out ++ out')).
Proof.
  induction count as [|count IH]; intros f1 out Hc; cbn [pop_loop].
  { split; [done|]. exists []. by rewrite app_nil_r. }
  apply wp_key_call; [done|]. intros o c' [Ho ->]%(id (A := _ /\ _)). apply out_rel_inv in Ho.
  assert (Hc1 : match fl_map (at_call now f1) !! key with
                | None => True | Some (AList l, _) => l <> [] | _ => False end).
  { simpl. rewrite tick_lookup. destruct (fl_map f1 !! key) as [c|]; [|done].
    by destruct (cell_live _ c). }
  destruct (fl_map (at_call now f1) !! key) as [[[] ex]|]; try done; simpl in Ho; subst o;
    eexists; (split; [done|]).
  - destruct (pop_some left l ex Hc1) as [v ->].
    eapply wp_mono; [|apply IH].
    + intros r f2 [Hl [out' ->]]. split; [done|]. exists (Blob v :: out'). by rewrite <- app_assoc.
    + simpl. rewrite lookup_partial_alter_eq. destruct left; apply list_cell_shape.
  - split; [done|]. exists []. by rewrite app_nil_r.
Qed.

Lemma pop_loop_first (key : bytes) (left : bool) (count : nat) (f1 : Flat) :
  settled now f1 ->
  wp now (pop_loop count key left []) f1
    (fun r f2 => fl_log f2 = fl_log f1 /\ (r = None \/ r = Some [] -> quiet now f1 f2)).
Proof.
  intros Hf1. destruct count as [|count]; cbn [pop_loop]; [split; [done|by intros; apply quiet_refl]|].
  apply wp_key_call; [done|]. intros o c' [Ho ->]%(id (A := _ /\ _)). apply out_rel_inv in Ho.
  assert (Hc1 : cell_wf (fl_map (at_call now f1) !! key)) by (apply tick_cell_wf; apply Hf1).
  destruct (fl_map (at_call now f1) !! key) as [c|] eqn:E; [destruct c as [[] ex]|];
    simpl in Ho; subst o; eexists; (split; [done|]);
    try (split; [done|]; intros _; by apply quiet_after).
  destruct (pop_some left l ex Hc1) as [v ->].
  eapply wp_mono; [|apply pop_loop_ok].
  - intros r f2 [Hl [out' ->]]. split; [done|]. intros [?|?]; done.
  - simpl. rewrite lookup_partial_alter_eq. destruct left; apply list_cell_shape.
Qed.

Lemma LPOP_ok : logs_changes cmd args f (cmd_LPOP cmd args).
Proof.
  unfold logs_changes, cmd_LPOP. cbv zeta.
  destruct args as [|key [|count [|? ?]]]; [no_call| | |no_call].
  - apply wp_op; [done|done|reads_tac|done|]. intros o r f2 Ho Hl Hs.
    destruct r as [[v|]|]; [by apply wp_log|left; silent_tac..].
  - destruct (_ <=? 0); [no_call|]. apply wp_bind.
    eapply wp_mono; [|by apply pop_loop_first]. intros r f2 [Hl Hq].
    destruct r as [[|v out]|]; [left; apply Hq; by right|by apply wp_log|left; apply Hq; by left].
Qed.

(** The other calls. *)
Lemma DBSIZE_ok : logs_changes cmd args f cmd_DBSIZE.
Proof. left. by apply quiet_step. Qed.

Lemma KEYS_ok : logs_changes cmd args f (cmd_KEYS args).
Proof.
  unfold logs_changes, cmd_KEYS. split_args; [no_call|]. intros ks _ _. left.
  by apply quiet_step.
Qed.

Lemma SUNION_ok : logs_changes cmd args f (cmd_SUNION args).
Proof.
  unfold logs_changes, cmd_SUNION. split_args; [no_call|]. intros r _. left.
  by apply quiet_step.
Qed.

Lemma SINTER_ok : logs_changes cmd args f (cmd_SINTER args).
Proof.
  unfold logs_changes, cmd_SINTER. split_args; [no_call|]. intros r _. left.
  by apply quiet_step.
Qed.

Lemma FLUSHDB_ok : logs_changes cmd args f (cmd_FLUSHDB cmd args).
Proof.
  unfold logs_changes, cmd_FLUSHDB. split_args; [|no_call]. intros n. by apply wp_log.
Qed.

Lemma scan_options_range (opts : list bytes) : forall pattern count p n,
  0 <= count -> scan_options opts pattern count = inl (p, n) -> 0 <= n.
Proof.
  assert (Hgo : forall k (opts : list bytes), (length opts < k)%nat -> forall pattern count p n,
    0 <= count -> scan_options opts pattern count = inl (p, n) -> 0 <= n); [|exact (Hgo (S (length opts)) opts (le_n _))].
  induction k as [|k IH]; intros [|o [|x l]] Hk pattern count p n Hc; cbn [scan_options];
    simpl in Hk; try lia; try (repeat case_bool_decide; done); try (intros; by simplify_eq).
  repeat case_bool_decide; [apply IH; [lia|done]| |done].
  destruct (from_utf8 x ≫= u64_from_str) as [c|] eqn:E; [|done]. apply IH; [lia|].
  destruct (from_utf8 x); [|done]. simpl in E. by apply u64_from_str_range in E as [? _].
Qed.

Lemma scan_page_some (keys : list bytes) (cursor count : Z) :
  0 <= cursor -> 0 <= count -> cursor + count < 2 ^ 64 ->
  let len := Z.of_nat (length keys) in
  let start := Z.min cursor len in
  let stop := Z.min (cursor + count) len in
  scan_page keys cursor count =
    Some (if len <=? stop then 0 else stop,
          take (Z.to_nat (stop - start)) (drop (Z.to_nat start) keys)).
Proof.
  intros Hc Hn Hfit. cbv zeta. unfold scan_page. cbv zeta.
  assert (Hs : (if Z.of_nat (length keys) <? cursor then Z.of_nat (length keys) else cursor) =
    Z.min cursor (Z.of_nat (length keys))) by (destruct (Z.ltb_spec (Z.of_nat (length keys)) cursor); lia).
  rewrite Hs. rewrite Z.mod_small by lia.
  assert (He : Z.min (Z.min cursor (Z.of_nat (length keys)) + count) (Z.of_nat (length keys)) =
    Z.min (cursor + count) (Z.of_nat (length keys))) by lia.
  rewrite He, (proj2 (Z.ltb_ge _ _)) by lia. done.
Qed.

Lemma SCAN_ok : scan_ok args -> logs_changes cmd args f (cmd_SCAN args).
Proof.
  intros Hok. unfold logs_changes, cmd_SCAN. destruct args as [|cursor opts]; [no_call|].
  destruct (from_utf8 cursor ≫= u64_from_str) as [c|] eqn:Ec; [|no_call].
  destruct (scan_options opts (b! "*") 10) as [[pattern n]|e] eqn:Eo; [|no_call].
  intros keys _ _. simpl in Hok. specialize (Hok _ _ _ Ec Eo).
  assert (0 <= c).
  { destruct (from_utf8 cursor); [|done]. simpl in Ec. by apply u64_from_str_range in Ec as [? _]. }
  cbn [prog_mbind prog_bind wp]. rewrite scan_page_some;
    [|done|eapply scan_options_range; [|exact Eo]; lia|done].
  left. by apply quiet_step.
Qed.

Lemma SET_ok : logs_changes cmd args f (cmd_SET cmd args).
Proof.
  assert (Hset : forall f1 key v ex, fl_log f1 = fl_log f ->
    wp now (_ ← Handlers.set_string_ref key v ex; _ ← log cmd args; Ret OK) f1
      (fun _ f' => quiet_or_noted now cmd args f f')).
  { intros f1 key v ex Hl. apply wp_any; [reads_tac|exact I|]. intros u f2 Hl2.
    apply wp_log. congruence. }
  assert (Hgen : wp now
    match parse_set_args args with
    | inl (key, v, expire_ms) =>
        expire_at ←
          match expire_ms with
          | Some ms => t ← call NowMs; Ret (Some (saturating_u64 (t + ms)))
          | None => Ret None
          end;
        _ ← Handlers.set_string_ref key v expire_at; _ ← log cmd args; Ret OK
    | inr e => Ret (Error e)
    end f (fun _ f' => quiet_or_noted now cmd args f f')).
  { destruct (parse_set_args args) as [[[key v] ex]|e]; [|no_call].
    destruct ex as [ms|]; apply wp_bind; [|by apply Hset].
    exact (Hset (after (at_call now f) _) key v _ eq_refl). }
  unfold logs_changes, cmd_SET. destruct args as [|key [|v [|o opts]]]; [exact Hgen..| |exact Hgen].
  by apply Hset.
Qed.

Lemma incr_ok (key : bytes) (delta : Z) : in_i64 delta ->
  logs_changes cmd args f (incr_and_log cmd args key delta).
Proof. intros Hd. unfold logs_changes, incr_and_log. one_op. Qed.

Lemma LTRIM_ok : trim_ok args (fl_map f) -> logs_changes cmd args f (cmd_LTRIM cmd args).
Proof.
  intros Hok. unfold logs_changes, cmd_LTRIM. cbv zeta.
  destruct args as [|key [|start [|stop rest]]]; [no_call..|]. destruct Hok as [Hp Hl].
  apply wp_op; [done|done|reads_tac| |].
  - split; [by apply default_parse_range|]. simpl. rewrite tick_lookup.
    destruct (fl_map f !! key) as [c|]; [|split; [by intros []|done]]. destruct (cell_live _ c); [|split; [by intros []|done]]. done.
  - intros o r f2 Ho Hl2 Hs. destruct r; [by apply wp_log|]. left. silent_tac.
Qed.

Lemma push_ok : logs_changes cmd args f (cmd_LPUSH cmd args).
Proof.
  unfold logs_changes, cmd_LPUSH. cbv zeta. destruct args as [|key [|v vs]]; [no_call..|].
  one_op.
Qed.
End Loops.

(** *** The groups *)

(** Every arm of a group, up to the first name that matches. *)
Lemma dispatch_arms {A} (P : bytes -> A -> Prop) (arms : list (string * A)) (cmd : bytes) (p : A) :
  Forall (fun arm => cmd = bytes_of_string arm.1 -> P cmd arm.2) arms ->
  dispatch cmd arms = Some p -> P cmd p.
Proof.
  induction 1 as [|[name arm] arms H _ IH]; cbn [dispatch]; [done|].
  case_bool_decide as E; [|done]. intros [= <-]. by apply H.
Qed.

Section Groups.
Context (cmd : bytes) (args : list bytes) (f : Flat).
Hypothesis Hf : settled now f.
Hypothesis Hok : command_ok cmd args (fl_map f).

Ltac arms_tac := apply (dispatch_arms (fun c p => logs_changes c args f p));
  repeat (apply Forall_cons; split; [intros E; cbn [fst snd] in *|]); [..|by apply Forall_nil].

Lemma string_cmds_ok (p : Prog RespValue) :
  string_cmds cmd args = Some p -> logs_changes cmd args f p.
Proof.
  arms_tac; first [by apply DBSIZE_ok|by apply MSET_ok|by apply MGET_ok|by apply GETSET_ok|idtac];
    clear Hok E; unfold logs_changes.
  - unfold cmd_GET. one_call.
  - unfold cmd_SETNX. one_call.
  - unfold cmd_APPEND. one_call.
  - unfold cmd_INCR. split_args; [no_call|]. by apply incr_ok.
  - unfold cmd_INCRBY. split_args; [no_call..|]. apply incr_ok; [done|].
    by apply default_parse_range.
  - unfold cmd_DECR. split_args; [no_call|]. by apply incr_ok.
  - unfold cmd_DECRBY. split_args; [no_call..|]. apply incr_ok; [done|]. apply wrap_i64_range.
  - unfold cmd_STRLEN. one_call.
Qed.

Lemma hash_cmds_ok (p : Prog RespValue) :
  hash_cmds cmd args = Some p -> logs_changes cmd args f p.
Proof.
  arms_tac; first [by apply HSET_ok|idtac]; clear Hok E; unfold logs_changes;
    unfold cmd_HGET, cmd_HDEL, cmd_HGETALL, cmd_HLEN, cmd_HEXISTS, cmd_HINCRBY, cmd_HSETNX;
    cbv zeta; one_call.
Qed.

Lemma list_cmds_ok (p : Prog RespValue) :
  list_cmds cmd args = Some p -> logs_changes cmd args f p.
Proof.
  arms_tac; first [by apply push_ok|by apply LPOP_ok|by apply LTRIM_ok; [|by apply Hok]|idtac];
    clear Hok E; unfold logs_changes;
    unfold cmd_LRANGE, cmd_LLEN, cmd_LINDEX, cmd_LSET, cmd_LINSERT, cmd_LREM, cmd_LPUSHX;
    cbv zeta; one_call.
Qed.

Lemma set_cmds_ok (p : Prog RespValue) : cmd <> b! "SMOVE" ->
  set_cmds cmd args = Some p -> logs_changes cmd args f p.
Proof.
  intros Hne.
  arms_tac; first [done|by apply SUNION_ok|by apply SINTER_ok|idtac]; clear Hok E Hne;
    unfold logs_changes;
    unfold cmd_SADD, cmd_SREM, cmd_SMEMBERS, cmd_SISMEMBER, cmd_SCARD; cbv zeta; one_call.
Qed.

Lemma zset_cmds_ok (p : Prog RespValue) :
  zset_cmds cmd args = Some p -> logs_changes cmd args f p.
Proof.
  arms_tac; first [by apply ZADD_ok; [|by apply Hok]|idtac]; clear Hok E; unfold logs_changes;
    unfold cmd_ZRANGE, cmd_ZREM, cmd_ZCARD; cbv zeta; one_call.
Qed.

Lemma stream_cmds_ok (p : Prog RespValue) :
  stream_cmds cmd args = Some p -> logs_changes cmd args f p.
Proof.
  arms_tac; clear Hok E; unfold logs_changes;
    unfold cmd_XADD, cmd_XRANGE, cmd_XREVRANGE, cmd_XLEN, cmd_XDEL; cbv zeta; try one_call.
  destruct (_ || _) eqn:E; [no_call|]. destruct args as [|key [|id fields]]; [done..|]. one_call.
Qed.

Lemma key_cmds_ok (p : Prog RespValue) :
  key_cmds cmd args = Some p -> logs_changes cmd args f p.
Proof.
  arms_tac; first [by apply SET_ok|by apply DEL_ok|by apply EXISTS_ok|by apply KEYS_ok
    |by apply SCAN_ok; [|by apply Hok]|by apply FLUSHDB_ok|idtac]; clear Hok E;
    unfold logs_changes;
    unfold cmd_EXPIRE, cmd_PEXPIRE, cmd_PERSIST, cmd_TTL, cmd_PTTL, cmd_TYPE, expire_and_log;
    cbv zeta; try one_call.
Qed.

Lemma data_command_ok (p : Prog RespValue) : cmd <> b! "SMOVE" ->
  data_command cmd args = Some p -> logs_changes cmd args f p.
Proof.
  intros Hne. unfold data_command.
  destruct (key_cmds cmd args) as [q|] eqn:E1; [intros [= <-]; by apply key_cmds_ok|].
  destruct (string_cmds cmd args) as [q|] eqn:E2; [intros [= <-]; by apply string_cmds_ok|].
  destruct (hash_cmds cmd args) as [q|] eqn:E3; [intros [= <-]; by apply hash_cmds_ok|].
  destruct (list_cmds cmd args) as [q|] eqn:E4; [intros [= <-]; by apply list_cmds_ok|].
  destruct (set_cmds cmd args) as [q|] eqn:E5; [intros [= <-]; by apply set_cmds_ok|].
  destruct (zset_cmds cmd args) as [q|] eqn:E6; [intros [= <-]; by apply zset_cmds_ok|].
  by apply stream_cmds_ok.
Qed.
End Groups.
End Handlers.

(** ** From the flat map back to the store *)

Definition flat_of (now : nat -> Z) (e : Env) : Flat :=
  MkFlat (env_tick e) (now (env_tick e)) (db_abs (now (env_tick e)) (env_db e)) [].

Section Transfer.
Context `{RustStd} (now : nat -> Z) (db_index : Z) (skip_aof : bool).
Hypothesis Hmono : forall t, now t <= now (S t).

Lemma flat_of_settled (e : Env) : db_wf (env_db e) -> settled now (flat_of now e).
Proof.
  intros Hwf. unfold settled, flat_of. simpl. split_and!; [|done|].
  - by rewrite <- (db_abs_later (now (env_tick e))) by done.
  - intros key. by apply db_cell_wf.
Qed.

Lemma flat_of_represents (e : Env) : db_wf (env_db e) ->
  represents now db_index skip_aof (env_persist e) e (flat_of now e).
Proof. intros Hwf. unfold represents, flat_of. simpl. split_and!; done. Qed.

(** A postcondition on the flat map holds of the answer and of what is visible after. *)
Lemma run_wp {A} (p : Prog A) (e : Env) (Q : A -> Flat -> Prop) :
  db_wf (env_db e) -> wp now p (flat_of now e) Q ->
  exists x e' f', run now db_index skip_aof p e = Some (x, e') /\ Q x f' /\
    db_wf (env_db e') /\ fl_map f' = db_abs (fl_time f') (env_db e') /\
    fl_time f' <= now (env_tick e') /\ fl_tick f' = env_tick e' /\
    env_persist e' = after_logs db_index skip_aof (env_persist e) (fl_log f').
Proof.
  intros Hwf Hwp.
  destruct (run_sound now db_index skip_aof (env_persist e) Hmono p e _ Q
    (flat_of_represents e Hwf) Hwp) as (x & e' & f' & Hr & (H1 & H2 & H3 & H4 & H5) & HQ).
  exists x, e', f'. rewrite H1. split_and!; done.
Qed.
End Transfer.

(** ** Properties *)

(** C1: what a client can see changes only together with the log.  For every data command
    except SMOVE, whatever the arguments, with the append-only log on, the handler returns,
    keeps the store well formed, and either appends exactly one entry, the encoding of that
    command and its arguments, or appends nothing and leaves every visible key, value and
    expiry as it was, at every later time.  The side conditions are numeric scores for ZADD, and no panic of LTRIM
    and SCAN. *)
Theorem changes_are_logged `{RustStd} (now : nat -> Z) (db_index : Z) (cmd : bytes)
    (args : list bytes) (p : Prog RespValue) (e : Env)
    (Hmono : forall t, now t <= now (S t)) (Hwf : db_wf (env_db e))
    (Hrec : recording (env_persist e)) (Hcmd : data_command cmd args = Some p)
    (Hne : cmd <> b! "SMOVE")
    (Hok : command_ok cmd args (db_abs (now (env_tick e)) (env_db e))) :
  exists r e', run now db_index false p e = Some (r, e') /\ db_wf (env_db e') /\
    (logged (env_persist e') = logged (env_persist e) ++ [MkAof db_index (encode_cmd cmd args)] \/
     logged (env_persist e') = logged (env_persist e) /\
     forall t, now (env_tick e') <= t -> db_abs t (env_db e') = db_abs t (env_db e)).
Proof.
  pose proof (data_command_ok now Hmono cmd args _ (flat_of_settled now e Hwf) Hok p Hne Hcmd)
    as Hwp.
  destruct (run_wp now db_index false Hmono p e _ Hwf Hwp)
    as (r & e' & f' & Hr & HQ & Hwf' & Hmap & Hle & Htick & Hp).
  exists r, e'. split_and!; [done|done|]. destruct HQ as [(H1 & H2 & H3 & H4)|Hn].
  - right. rewrite Hp, H4. split; [done|]. intros t Ht. simpl in H1, H3.
    rewrite (db_abs_later (fl_time f') t) by (done || lia). rewrite <- Hmap, H3.
    rewrite <- (db_abs_later (now (env_tick e))) by done. rewrite <- db_abs_later by (done || lia).
    done.
  - left. rewrite Hp, Hn. simpl. destruct Hrec as [l ->]. done.
Qed.

Definition aof_on : option Persist := Some (Libsql (MkLibsql true (Some (MkSender true [])))).
Definition start : Env := MkEnv Db.new aof_on 0.

Lemma changes_are_logged_witness :
  exists r e', run (fun t => Z.of_nat t) 3 false
      (cmd_LPUSH (b! "RPUSH") [b! "k"; b! "x"; b! "y"]) start = Some (r, e') /\
    db_wf (env_db e') /\
    (logged (env_persist e') =
       [] ++ [MkAof 3 (encode_cmd (b! "RPUSH") [b! "k"; b! "x"; b! "y"])] \/
     logged (env_persist e') = [] /\
     forall t, Z.of_nat (env_tick e') <= t -> db_abs t (env_db e') = db_abs t Db.new).
Proof.
  apply (changes_are_logged (fun t => Z.of_nat t) 3 (b! "RPUSH") [b! "k"; b! "x"; b! "y"]
    _ start).
  - intros t. lia.
  - apply new_wf.
  - by eexists.
  - reflexivity.
  - done.
  - split_and!; intros E; done.
Defined.
