(* ===== verification/CommandSpec.v ===== *)
(** * CommandSpec: the functional behaviour of commands, alone and in sequence

    What a client reads back: SET with an expiry then GET, MSET then MGET, LPOP with a
    count, a whole SCAN iteration; that no handler panics; and what SMOVE does not log. *)
From Stdlib Require Import SpecFloat.
From S2P Require Import Prelude.
From S2P Require Import IntCodec.
From S2P Require Import Utf8.
From S2P Require Import HashStore.
From S2P Require Import Glob.
From S2P Require Import Shard.
From S2P Require Import ShardString.
From S2P Require Import ShardList.
From S2P Require Import ShardHash.
From S2P Require Import ShardSet.
From S2P Require Import ShardZset.
From S2P Require Import ShardOps.
From S2P Require Import Db.
From S2P Require Import DbSpec.
From S2P Require Import Resp.
From S2P Require Import ServerArgs.
From S2P Require Import Persist.
From S2P Require Import Calls.
From S2P Require Import Handlers.
From S2P Require Import HandlerSpec.

(** ** Reading a cell when its answer is known *)

Section Steps.
Context (now : nat -> Z).

(** A key operation other than DEL's and EXPIRE's, with the answer it gives. *)
Definition plain (op : key_op) : bool :=
  match op with KRemove | KSetExpire _ => false | _ => true end.

Lemma plain_post (t : Z) (op : key_op) (c : option acell) (o : out) (c' : option acell) :
  plain op = true -> key_post t op c o c' ->
  out_rel o (spec_step t op c).1 /\ c' = (spec_step t op c).2.
Proof. by destruct op. Qed.

Lemma wp_step {R A} (key : bytes) (op : key_op) (as_r : out -> option R) (k : R -> Prog A)
    (f : Flat) (Q : A -> Flat -> Prop) :
  let f1 := at_call now f in
  let c := fl_map f1 !! key in
  plain op = true -> key_pre op c ->
  (forall o, out_rel o (spec_step (fl_time f1) op c).1 -> exists r, as_r o = Some r /\
     wp now (k r) (after f1
       (partial_alter (fun _ => (spec_step (fl_time f1) op c).2) key (fl_map f1))) Q) ->
  wp now (key_call key op as_r ≫= k) f Q.
Proof.
  cbv zeta. intros Hp Hpre Hk. apply wp_key_call; [done|].
  intros o c' [Ho ->]%plain_post; [|done]. by apply Hk.
Qed.

Lemma wp_seq {A B} (p : Prog A) (q : Prog B) (f : Flat) (Q : B -> Flat -> Prop) :
  wp now p f (fun _ f' => wp now q f' Q) -> wp now (_ ← p; q) f Q.
Proof. apply wp_bind. Qed.

(** A cell that never expires is there at the next call. *)
Lemma at_call_persistent (f : Flat) (key : bytes) (v : aval) :
  fl_map f !! key = Some (v, None) -> fl_map (at_call now f) !! key = Some (v, None).
Proof. intros E. simpl. by rewrite tick_lookup, E. Qed.
End Steps.

(** ** SMOVE and the log *)

Lemma smove_wp (now : nat -> Z) (cmd source dest member : bytes) (f : Flat) :
  let res := spec_set_move (tick (now (fl_tick f)) (fl_map f)) source dest member in
  wp now (cmd_SMOVE cmd [source; dest; member]) f (fun r f' =>
    match res.1 with
    | Ok b => r = flag b
    | Err =>
        r = WRONGTYPE /\ fl_map f' = res.2 /\ fl_time f' = now (fl_tick f) /\
        fl_log f' = fl_log f
    end).
Proof.
  cbv zeta. unfold cmd_SMOVE. cbn [call mbind prog_mbind prog_bind wp call_spec at_call fl_map
    fl_time fl_tick].
  destruct (spec_set_move _ _ _ _) as [[[]|] a']; done.
Qed.

Lemma smove_total (now : nat -> Z) (cmd : bytes) (args : list bytes) (f : Flat) :
  wp now (cmd_SMOVE cmd args) f (fun _ _ => True).
Proof.
  destruct args as [|source [|dest [|member rest]]]; [done..|]. unfold cmd_SMOVE.
  cbn [call mbind prog_mbind prog_bind wp call_spec at_call].
  destruct (spec_set_move _ _ _ _) as [[[]|] a']; done.
Qed.

(** ** Sequences of commands *)

Section Sequences.
Context (now : nat -> Z).
Hypothesis Hmono : forall t, now t <= now (S t).

(** What GET answers on a cell. *)
Lemma get_wp (key : bytes) (f : Flat) (c : option acell) :
  fl_map (at_call now f) !! key = c ->
  wp now (cmd_GET [key]) f (fun r _ =>
    r = match c with Some (AStr v, _) => Blob v | None => Null | _ => WRONGTYPE end).
Proof.
  intros Hc. unfold cmd_GET. apply wp_step; [done|done|]. intros o Ho%out_rel_inv.
  simpl in Ho. simpl in Hc. rewrite Hc in Ho. subst o. eexists. split; [done|].
  by destruct c as [[[] ?]|].
Qed.

Lemma set_px_shape (cmd key v : bytes) (args : list bytes) (ms : Z) :
  parse_set_args args = inl (key, v, Some ms) ->
  cmd_SET cmd args =
    Do NowMs (fun t =>
      _ ← Handlers.set_string_ref key v (Some (saturating_u64 (t + ms)));
      _ ← log cmd args; Ret OK).
Proof.
  intros Hargs. unfold cmd_SET. cbv zeta.
  destruct args as [|a [|b [|o opts]]]; [done|done|done|]. by rewrite Hargs.
Qed.

Lemma set_then_get_wp (cmd key v : bytes) (args : list bytes) (ms : Z) (f : Flat) :
  parse_set_args args = inl (key, v, Some ms) ->
  let n := fl_tick f in
  wp now (_ ← cmd_SET cmd args; cmd_GET [key]) f (fun r _ =>
    r = if saturating_u64 (now n + ms) <=? now (S (S n)) then Null else Blob v).
Proof.
  intros Hargs. cbv zeta. apply wp_seq. rewrite (set_px_shape _ key v _ ms) by done.
  cbn [call mbind prog_mbind prog_bind wp call_spec].
  apply wp_step; [done|done|]. intros o Ho%out_rel_inv. cbn in Ho. subst o.
  eexists. split; [done|]. cbn [log call mbind prog_mbind prog_bind wp call_spec].
  eapply wp_mono; [|by apply get_wp]. intros r f' ->.
  simpl. rewrite tick_lookup, tick_lookup, lookup_partial_alter_eq. cbn.
  destruct (Z.leb_spec (saturating_u64 (now (fl_tick f) + ms)) (now (S (fl_tick f)))) as [Hle|Hgt].
  - rewrite (proj2 (Z.leb_le _ _)); [done|]. pose proof (Hmono (S (fl_tick f))). lia.
  - unfold cell_live. cbn [snd].
    destruct (Z.leb_spec (saturating_u64 (now (fl_tick f) + ms)) (now (S (S (fl_tick f)))));
      simpl; [done|]. by rewrite (proj2 (Z.leb_gt _ _)) by lia.
Qed.

(** *** MSET, then MGET *)

(** The key holds the last value written to it, without expiry. *)
Definition holds (f : Flat) (key v : bytes) : Prop := fl_map f !! key = Some (AStr v, None).

(** The last value a list of writes gives a key. *)
Definition last_write (kvs : list (bytes * bytes)) (key : bytes) : option bytes :=
  snd <$> last (filter (fun kv => kv.1 = key) kvs).

Lemma last_write_cons (kv : bytes * bytes) (kvs : list (bytes * bytes)) (key : bytes) :
  last_write (kv :: kvs) key =
    match last_write kvs key with
    | Some v => Some v
    | None => if decide (kv.1 = key) then Some kv.2 else None
    end.
Proof.
  unfold last_write. rewrite filter_cons. repeat case_decide; try done.
  - destruct (filter _ kvs) as [|x l] using rev_ind; [done|].
    by rewrite app_comm_cons, !last_snoc.
  - by destruct (last _).
Qed.

Lemma mset_loop_wp (kvs : list (bytes * bytes)) : forall f,
  wp now (mset_loop kvs) f (fun _ f' => forall key v,
    match last_write kvs key with Some w => w = v | None => holds f key v end -> holds f' key v).
Proof.
  induction kvs as [|[k w] kvs IH]; intros f; cbn [mset_loop]; [intros key v Hv; exact Hv|].
  apply wp_step; [done|done|]. intros o Ho%out_rel_inv. cbn in Ho. subst o.
  eexists. split; [done|]. eapply wp_mono; [|apply IH]. intros [] f' Hf' key v.
  rewrite last_write_cons. cbn [fst snd]. intros Hv. apply Hf'.
  destruct (last_write kvs key); [done|]. unfold holds, after. cbn [fl_map].
  case_decide as Hk.
  - subst. rewrite lookup_partial_alter_eq. done.
  - rewrite lookup_partial_alter_ne by done. by apply at_call_persistent.
Qed.

Lemma mget_loop_wp (kvs : list (bytes * bytes)) : forall f out,
  (forall key v, (key, v) ∈ kvs -> holds f key v) ->
  wp now (mget_loop kvs.*1 out) f (fun r _ => r = Array (out ++ (Blob <$> kvs.*2))).
Proof.
  induction kvs as [|[k w] kvs IH]; intros f out Hf; cbn [mget_loop fmap list_fmap fst snd].
  { by rewrite app_nil_r. }
  apply wp_step; [done|done|]. intros o Ho%out_rel_inv. revert Ho.
  rewrite (at_call_persistent now f k (AStr w)) by (apply Hf; left).
  intros Ho. cbn in Ho. subst o. eexists. split; [done|]. cbn iota.
  eapply wp_mono; [|apply IH].
  - intros r f' ->. by rewrite <- app_assoc.
  - intros key v Hin. unfold holds, after. cbn [fl_map].
    assert (Hv : holds f key v) by (apply Hf; by right).
    assert (Hw : holds f k w) by (apply Hf; by left).
    destruct (decide (k = key)) as [->|Hne].
    + rewrite lookup_partial_alter_eq. cbn. congruence.
    + rewrite lookup_partial_alter_ne by done. by apply at_call_persistent.
Qed.

Lemma pairs_flat (kvs : list (bytes * bytes)) :
  pairs (kvs ≫= fun kv => [kv.1; kv.2]) = kvs.
Proof. induction kvs as [|[k v] kvs IH]; [done|]. cbn. f_equal. exact IH. Qed.

Lemma fst_fmap_pair {A B C} (g : A * B -> C) (l : list (A * B)) :
  ((fun kv => (kv.1, g kv)) <$> l).*1 = l.*1.
Proof. induction l as [|kv l IH]; [done|]. cbn. by f_equal. Qed.

Lemma last_write_some (kvs : list (bytes * bytes)) (kv : bytes * bytes) :
  kv ∈ kvs -> exists v, last_write kvs kv.1 = Some v.
Proof.
  induction kvs as [|x l IH]; [by intros ?%elem_of_nil|].
  rewrite last_write_cons. intros [->|Hin]%elem_of_cons.
  - destruct (last_write l _); [by eauto|]. rewrite decide_True by done. by eauto.
  - destruct (IH Hin) as [v ->]. by eauto.
Qed.

Lemma length_flat (kvs : list (bytes * bytes)) :
  length (kvs ≫= fun kv => [kv.1; kv.2]) = (2 * length kvs)%nat.
Proof.
  induction kvs as [|kv l IH]; [done|]. rewrite bind_cons, length_app, IH. simpl. lia.
Qed.

Lemma mset_mget_wp (cmd : bytes) (kvs : list (bytes * bytes)) (f : Flat) : kvs <> [] ->
  wp now (_ ← cmd_MSET cmd (kvs ≫= fun kv => [kv.1; kv.2]); cmd_MGET kvs.*1) f (fun r _ =>
    r = Array ((fun kv => blob_or_null (last_write kvs kv.1)) <$> kvs)).
Proof.
  intros Hne. pose (final := (fun kv => (kv.1, default [] (last_write kvs kv.1))) <$> kvs).
  apply wp_seq. unfold cmd_MSET. rewrite pairs_flat, length_flat, (Nat.even_mul 2).
  rewrite (proj2 (Nat.ltb_ge _ _)) by (destruct kvs; simpl; [done|lia]). cbn [orb negb Nat.even].
  apply wp_bind. eapply wp_mono; [|apply mset_loop_wp]. intros [] f1 Hf1.
  cbn [log call mbind prog_mbind prog_bind wp call_spec].
  assert (Hmget : cmd_MGET kvs.*1 = mget_loop final.*1 []).
  { unfold final. rewrite fst_fmap_pair. by destruct kvs. }
  rewrite Hmget. eapply wp_mono; [|apply (mget_loop_wp final)].
  - intros r f2 ->. f_equal. unfold final. rewrite <- !list_fmap_compose.
    apply list_fmap_ext. intros i kv Hi. apply list_elem_of_lookup_2 in Hi.
    destruct (last_write_some kvs kv Hi) as [v Hv]. cbn. by rewrite Hv.
  - intros key v. unfold final. rewrite list_elem_of_fmap. intros (kv & [= -> ->] & Hi).
    destruct (last_write_some kvs kv Hi) as [v Hv]. apply at_call_persistent, Hf1. by rewrite Hv.
Qed.

(** *** LPOP with a count *)

Lemma pop_loop_wp (key : bytes) (n : nat) : forall f out (l : list bytes),
  l <> [] -> fl_map f !! key = Some (AList l, None) ->
  wp now (pop_loop n key true out) f (fun r f' =>
    r = Some (out ++ (Blob <$> take n l)) /\ fl_map f' !! key = list_cell (drop n l) None).
Proof.
  induction n as [|n IH]; intros f out l Hl Hc; cbn [pop_loop].
  { rewrite take_0, drop_0, app_nil_r. split; [done|]. rewrite Hc. by destruct l. }
  apply wp_step; [done|done|]. rewrite (at_call_persistent now f key (AList l)) by done.
  intros o Ho%out_rel_inv. destruct l as [|x l]; [done|]. cbn in Ho. subst o.
  eexists. split; [done|]. cbn iota. destruct l as [|y l].
  - destruct n as [|n]; cbn [pop_loop].
    + split; [done|]. by apply lookup_partial_alter_eq.
    + apply wp_step; [done|done|]. intros o Ho%out_rel_inv. cbn [fl_map after] in Ho.
      cbn in Ho. rewrite tick_lookup, lookup_partial_alter_eq in Ho. cbn in Ho. subst o.
      eexists. split; [done|]. cbn iota. split.
      * done.
      * cbn. rewrite tick_lookup, lookup_partial_alter_eq. cbn.
        by rewrite lookup_partial_alter_eq.
  - eapply wp_mono; [|apply (IH _ _ (y :: l)); [done|]].
    + intros r f' [-> Hf']. split; [|exact Hf']. by rewrite <- app_assoc.
    + cbn [after fl_map]. rewrite lookup_partial_alter_eq. done.
Qed.
End Sequences.

Lemma data_command_runs `{RustStd} (now : nat -> Z) (db_index : Z) (skip_aof : bool)
    (cmd : bytes) (args : list bytes) (p : Prog RespValue) (e : Env)
    (Hmono : forall t, now t <= now (S t)) (Hwf : db_wf (env_db e))
    (Hcmd : data_command cmd args = Some p)
    (Hok : command_ok cmd args (db_abs (now (env_tick e)) (env_db e))) :
  exists r e', run now db_index skip_aof p e = Some (r, e') /\ db_wf (env_db e').
Proof.
  assert (Hwp : wp now p (flat_of now e) (fun _ _ => True)).
  { destruct (decide (cmd = b! "SMOVE")) as [->|Hne].
    - assert (E : data_command (b! "SMOVE") args = Some (cmd_SMOVE (b! "SMOVE") args))
        by reflexivity.
      rewrite E in Hcmd. injection Hcmd as <-. apply smove_total.
    - eapply wp_mono; [|by eapply (data_command_ok now Hmono cmd args _
        (flat_of_settled now e Hwf))]. done. }
  destruct (run_wp now db_index skip_aof Hmono p e _ Hwf Hwp)
    as (r & e' & f' & Hr & _ & Hwf' & _). by exists r, e'.
Qed.

(** ** Properties *)

(** no data command panics, whatever its name, its arguments (bytes that are not
    UTF-8, numbers that do not parse, a wrong count), the state of the keys and of the log,
    and whether the log is on: the handler returns an answer and leaves a well-formed
    store.  LTRIM and SCAN have the side conditions of [command_ok]. *)
Theorem data_command_total `{RustStd} (now : nat -> Z) (db_index : Z) (skip_aof : bool)
    (cmd : bytes) (args : list bytes) (p : Prog RespValue) (e : Env)
    (Hmono : forall t, now t <= now (S t)) (Hwf : db_wf (env_db e))
    (Hcmd : data_command cmd args = Some p)
    (Hok : command_ok cmd args (db_abs (now (env_tick e)) (env_db e))) :
  exists r e', run now db_index skip_aof p e = Some (r, e') /\ db_wf (env_db e').
Proof. by apply (data_command_runs now db_index skip_aof cmd args). Qed.

Lemma data_command_total_witness :
  exists r e', run (fun _ => 0) 0 true (cmd_SCAN [b! "7"; b! "count"; b! "0"]) start =
    Some (r, e') /\ db_wf (env_db e').
Proof.
  apply (data_command_total (fun _ => 0) 0 true (b! "SCAN") [b! "7"; b! "count"; b! "0"]
    _ start).
  - done.
  - apply new_wf.
  - reflexivity.
  - split; [intros E; done|]. split; [intros E; done|].
    intros _ c pattern n Hc Ho. vm_compute in Hc, Ho. simplify_eq. done.
Defined.

(** SMOVE is the exception to the log: when the destination holds another type the
    member has left the source, the answer is the error, and the log does not know. *)
Theorem smove_error_not_logged `{RustStd} (now : nat -> Z) (db_index : Z) (e : Env)
    (source dest member : bytes) (X : gset bytes) (ex : option Z) (c : acell)
    (Hmono : forall t, now t <= now (S t)) (Hwf : db_wf (env_db e)) (Hne : source <> dest)
    (Hsrc : db_abs (now (env_tick e)) (env_db e) !! source = Some (ASet X, ex))
    (Hin : member ∈ X)
    (Hdst : db_abs (now (env_tick e)) (env_db e) !! dest = Some c)
    (Htype : aset (Some c) = None) :
  exists e', run now db_index false (cmd_SMOVE (b! "SMOVE") [source; dest; member]) e =
      Some (WRONGTYPE, e') /\
    env_persist e' = env_persist e /\
    db_abs (now (env_tick e)) (env_db e') !! source = set_cell (X ∖ {[member]}) ex.
Proof.
  pose proof (flat_of_settled now e Hwf) as (Htick & _ & _). simpl in Htick.
  destruct (run_wp now db_index false Hmono _ e _ Hwf
    (smove_wp now (b! "SMOVE") source dest member (flat_of now e)))
    as (r & e' & f' & Hr & HQ & Hwf' & Hmap & _ & _ & Hp).
  simpl in HQ. rewrite Htick in HQ. unfold spec_set_move in HQ.
  rewrite Hsrc, bool_decide_true in HQ by done. cbv zeta in HQ.
  rewrite lookup_partial_alter_ne, Hdst in HQ by done.
  destruct c as [[] ey]; simpl in Htype; try done; destruct HQ as (-> & Hm & Ht & Hl);
    exists e'; (split; [done|]); rewrite Hp, Hl, <- Ht, <- Hmap, Hm; (split; [done|]);
    simpl; by rewrite lookup_partial_alter_eq.
Qed.

Definition set_and_list : Env :=
  MkEnv (MkDb (<[Db.shard_index (b! "s") := {[ b! "s" := MkEntry (VSet {[b! "x"]}) None ]}]>
    (<[Db.shard_index (b! "l") := {[ b! "l" := MkEntry (VList [b! "y"]) None ]}]>
       (shards Db.new)))) aof_on 0.

Lemma single_at (key : bytes) (v : Value) : value_wf v ->
  shard_at (Db.shard_index key) {[ key := MkEntry v None ]}.
Proof.
  intros Hv. split; [by apply map_Forall_insert_2; [|apply map_Forall_empty]|].
  intros k Hk. destruct (decide (key = k)) as [->|]; [done|].
  rewrite lookup_singleton_ne in Hk by done. by destruct Hk.
Qed.

Lemma set_and_list_wf : db_wf (env_db set_and_list).
Proof.
  apply (put_shard_wf (put_shard Db.new (b! "l") _) (b! "s")).
  - apply put_shard_wf; [apply new_wf|]. by apply single_at.
  - apply single_at. simpl. set_solver.
Qed.

Lemma smove_error_not_logged_witness :
  exists e', run (fun _ => 0) 0 false (cmd_SMOVE (b! "SMOVE") [b! "s"; b! "l"; b! "x"])
      set_and_list = Some (WRONGTYPE, e') /\
    env_persist e' = env_persist set_and_list /\
    db_abs 0 (env_db e') !! b! "s" = None.
Proof.
  destruct (smove_error_not_logged (fun _ => 0) 0 set_and_list (b! "s") (b! "l") (b! "x")
    {[b! "x"]} None (AList [b! "y"], None) (fun _ => Z.le_refl 0) set_and_list_wf)
    as (e' & H1 & H2 & H3); [done|by vm_compute|by vm_compute|by vm_compute|done|].
  exists e'. split; [exact H1|]. split; [exact H2|]. by rewrite H3.
Defined.

(** SET with an expiry, however the option is written, then GET: the value is there
    exactly as long as the clock of the GET has not reached the instant the SET computed
    from its own clock, saturated at [u64::MAX]; from then on the key is gone. *)
Theorem set_with_expiry_then_get `{RustStd} (now : nat -> Z) (db_index : Z) (skip_aof : bool)
    (args : list bytes) (key v : bytes) (ms : Z) (e : Env)
    (Hmono : forall t, now t <= now (S t)) (Hwf : db_wf (env_db e))
    (Hargs : parse_set_args args = inl (key, v, Some ms)) :
  let set_time := now (env_tick e) in
  let get_time := now (env_tick e + 2)%nat in
  exists e', run now db_index skip_aof (_ ← cmd_SET (b! "SET") args; cmd_GET [key]) e =
    Some (if saturating_u64 (set_time + ms) <=? get_time then Null else Blob v, e').
Proof.
  cbv zeta. replace (env_tick e + 2)%nat with (S (S (env_tick e))) by lia.
  destruct (run_wp now db_index skip_aof Hmono _ e _ Hwf
    (set_then_get_wp now Hmono (b! "SET") key v args ms (flat_of now e) Hargs))
    as (r & e' & f' & Hr & -> & _).
  by exists e'.
Qed.

Lemma set_with_expiry_then_get_witness :
  exists e', run (fun t => 1000 * Z.of_nat t) 0 false
    (_ ← cmd_SET (b! "SET") [b! "k"; b! "v"; b! "eX"; b! "2"]; cmd_GET [b! "k"]) start =
    Some (Null, e').
Proof.
  apply (set_with_expiry_then_get (fun t => 1000 * Z.of_nat t) 0 false
    [b! "k"; b! "v"; b! "eX"; b! "2"] (b! "k") (b! "v") 2000 start);
    [intros t; lia|apply new_wf|reflexivity].
Defined.

(** MSET then MGET reads back, in order, the last value written to each key, whatever
    the keys held before (another type and a pending expiry included) and however much time
    passes. *)
Theorem mset_then_mget `{RustStd} (now : nat -> Z) (db_index : Z) (skip_aof : bool)
    (kvs : list (bytes * bytes)) (e : Env)
    (Hmono : forall t, now t <= now (S t)) (Hwf : db_wf (env_db e)) (Hne : kvs <> []) :
  exists e', run now db_index skip_aof
      (_ ← cmd_MSET (b! "MSET") (kvs ≫= fun kv => [kv.1; kv.2]); cmd_MGET kvs.*1) e =
    Some (Array ((fun kv => blob_or_null (last_write kvs kv.1)) <$> kvs), e').
Proof.
  destruct (run_wp now db_index skip_aof Hmono _ e _ Hwf
    (mset_mget_wp now (b! "MSET") kvs (flat_of now e) Hne)) as (r & e' & f' & Hr & -> & _).
  by exists e'.
Qed.

Lemma mset_then_mget_witness :
  exists e', run (fun _ => 5) 0 false
      (_ ← cmd_MSET (b! "MSET") [b! "a"; b! "1"; b! "b"; b! "2"; b! "a"; b! "3"];
       cmd_MGET [b! "a"; b! "b"; b! "a"]) start =
    Some (Array [Blob (b! "3"); Blob (b! "2"); Blob (b! "3")], e').
Proof.
  apply (mset_then_mget (fun _ => 5) 0 false
    [(b! "a", b! "1"); (b! "b", b! "2"); (b! "a", b! "3")] start); [done|apply new_wf|done].
Defined.

(** LPOP with a count, on a list without expiry, answers its first elements in order,
    at most [count] of them, and leaves the rest; the key goes with its last element. *)
Theorem lpop_count_takes_prefix `{RustStd} (now : nat -> Z) (db_index : Z) (skip_aof : bool)
    (key count : bytes) (n : Z) (l : list bytes) (e : Env)
    (Hmono : forall t, now t <= now (S t)) (Hwf : db_wf (env_db e))
    (Hn : parse_i64 count = Some n) (Hpos : 0 < n)
    (Hl : db_abs (now (env_tick e)) (env_db e) !! key = Some (AList l, None)) :
  exists e' t, run now db_index skip_aof (cmd_LPOP (b! "LPOP") [key; count]) e =
      Some (Array (Blob <$> take (Z.to_nat n) l), e') /\
    db_abs t (env_db e') !! key = list_cell (drop (Z.to_nat n) l) None.
Proof.
  assert (Hne : l <> []) by (pose proof (db_cell_wf (now (env_tick e)) (env_db e) key Hwf) as Hc;
    by rewrite Hl in Hc).
  assert (Hwp : wp now (cmd_LPOP (b! "LPOP") [key; count]) (flat_of now e) (fun r f' =>
    r = Array (Blob <$> take (Z.to_nat n) l) /\
    fl_map f' !! key = list_cell (drop (Z.to_nat n) l) None)).
  { unfold cmd_LPOP. cbv zeta. rewrite Hn. cbn [default].
    rewrite (proj2 (Z.leb_gt _ _)) by done. apply wp_bind.
    eapply wp_mono; [|by apply (pop_loop_wp now key (Z.to_nat n) _ [] l)].
    intros r f1 [-> Hf1]. cbn [app]. destruct (Z.to_nat n) as [|k] eqn:Ek; [lia|].
    destruct l as [|x l]; [done|]. cbn [take fmap list_fmap].
    cbn [log call mbind prog_mbind prog_bind wp call_spec]. split; [done|].
    cbn [at_call after_log fl_map]. rewrite tick_lookup, Hf1.
    by destruct (drop (S k) (x :: l)). }
  destruct (run_wp now db_index skip_aof Hmono _ e _ Hwf Hwp)
    as (r & e' & f' & Hr & [-> Hf'] & _ & Hmap & _).
  exists e', (fl_time f'). split; [done|]. by rewrite <- Hmap.
Qed.

Definition three_list : Env :=
  MkEnv (put_shard Db.new (b! "l")
    {[ b! "l" := MkEntry (VList [b! "a"; b! "b"; b! "c"]) None ]}) aof_on 0.

Lemma three_list_wf : db_wf (env_db three_list).
Proof. apply put_shard_wf; [apply new_wf|]. by apply single_at. Qed.

Lemma lpop_count_takes_prefix_witness :
  exists e' t, run (fun _ => 0) 0 false (cmd_LPOP (b! "LPOP") [b! "l"; b! "2"]) three_list =
      Some (Array [Blob (b! "a"); Blob (b! "b")], e') /\
    db_abs t (env_db e') !! b! "l" = Some (AList [b! "c"], None).
Proof.
  apply (lpop_count_takes_prefix (fun _ => 0) 0 false (b! "l") (b! "2") 2
    [b! "a"; b! "b"; b! "c"] three_list);
    [done|apply three_list_wf|reflexivity|done|by vm_compute].
Defined.

(** ** A whole SCAN iteration *)

Lemma int_to_string_utf8 (n : Z) : from_utf8 (int_to_string n) = Some (int_to_string n).
Proof.
  unfold from_utf8. rewrite utf8_valid_ascii; [done|].
  destruct (int_to_string_shape n) as (ds & -> & Hds & _).
  apply Forall_app. split; [destruct (n <? 0); repeat constructor; lia|].
  eapply Forall_impl; [exact Hds|]. simpl. lia.
Qed.

Lemma u64_int_to_string (n : Z) : 0 <= n <= u64_max -> u64_from_str (int_to_string n) = Some n.
Proof.
  intros Hn. unfold u64_from_str. pose proof (signed_dec_to_string true n) as Hs.
  destruct (int_to_string_shape n) as (ds & E & Hds & Hne & _).
  rewrite (proj2 (Z.ltb_ge n 0)) in E by lia. cbn [app] in E. rewrite E in *.
  destruct ds as [|d ds]; [done|]. destruct (digits_head_ne _ d ds Hds eq_refl) as [-> _].
  rewrite Hs. cbn. by rewrite (proj2 (Z.leb_le _ _)) by lia.
Qed.

Lemma parse_cursor (n : Z) : 0 <= n <= u64_max ->
  from_utf8 (int_to_string n) ≫= u64_from_str = Some n.
Proof. intros Hn. rewrite int_to_string_utf8. by apply u64_int_to_string. Qed.

Section ScanClient.
Context `{RustStd} (now : nat -> Z) (db_index : Z) (skip_aof : bool) (pattern : bytes) (count : Z).

Definition scan_args (cursor : bytes) : list bytes :=
  [cursor; b! "MATCH"; pattern; b! "COUNT"; int_to_string count].

(** A client that follows the cursor until it is 0. *)
Fixpoint scan_client (fuel : nat) (cursor : bytes) (e : Env) : option (list RespValue * Env) :=
  match fuel with
  | O => None
  | S fuel' =>
      '(r, e1) ← run now db_index skip_aof (cmd_SCAN (scan_args cursor)) e;
      match r with
      | Array [Blob next; Array batch] =>
          if bool_decide (next = b! "0") then Some (batch, e1)
          else '(rest, e2) ← scan_client fuel' next e1; Some (batch ++ rest, e2)
      | _ => None
      end
  end.

Hypothesis Hcount : 1 <= count.

Lemma scan_args_options : count <= u64_max ->
  scan_options [b! "MATCH"; pattern; b! "COUNT"; int_to_string count] (b! "*") 10 =
    inl (pattern, count).
Proof.
  intros Hc. cbn [scan_options].
  rewrite bool_decide_true by reflexivity. rewrite bool_decide_false by done.
  rewrite bool_decide_true by reflexivity. by rewrite parse_cursor by lia.
Qed.

(** The visible keys that match, in order. *)
Definition sorted_matches (a : gmap bytes acell) (L : list bytes) : Prop :=
  StronglySorted bytes_le L /\
  L ≡ₚ filter (fun k => glob_match k pattern = true) (flat_keys a).

Lemma sorted_matches_unique (a : gmap bytes acell) (L L' : list bytes) :
  sorted_matches a L -> sorted_matches a L' -> L = L'.
Proof.
  intros [H1 H2] [H3 H4]. apply (StronglySorted_unique bytes_le); [done..|]. by rewrite H2, H4.
Qed.

Lemma sorted_matches_exists (t : Z) (db : Db) : db_wf db -> exists L, sorted_matches (db_abs t db) L.
Proof.
  intros Hwf. destruct (keys_matching_spec t db pattern Hwf) as (H1 & H2 & _).
  by eexists.
Qed.

Lemma sorted_matches_length (a : gmap bytes acell) (L : list bytes) :
  sorted_matches a L -> (length L <= size a)%nat.
Proof.
  intros [_ HL]. rewrite HL. etransitivity; [apply length_filter|].
  unfold flat_keys. by rewrite length_fmap, length_map_to_list.
Qed.

(** The clock moves, and no key that is there expires before [last]. *)
Context (last : Z) (a : gmap bytes acell).
Hypothesis Hmono : forall n, now n <= now (S n).
Hypothesis Hlast : forall n, now n <= last.
Hypothesis Hstay : tick last a = a.

Lemma tick_stays (t : Z) : t <= last -> tick t a = a.
Proof.
  intros Ht. apply map_eq. intros k. pose proof (tick_lookup last a k) as Hk. rewrite Hstay in Hk.
  rewrite tick_lookup. destruct (a !! k) as [c|]; [|done]. unfold cell_live in *.
  destruct (c.2) as [ts|]; [|done]. destruct (Z.leb_spec ts last); [done|]. by rewrite (proj2 (Z.leb_gt _ _)) by lia.
Qed.

Definition shows (e : Env) : Prop := db_wf (env_db e) /\ db_abs (now (env_tick e)) (env_db e) = a.

(** One round, at a cursor the client got. *)
Lemma scan_round (L : list bytes) (c : Z) (e : Env) :
  shows e -> sorted_matches a L ->
  0 <= c <= Z.of_nat (length L) -> Z.of_nat (length L) + count < 2 ^ 64 ->
  let len := Z.of_nat (length L) in
  let stop := Z.min (c + count) len in
  exists e1, run now db_index skip_aof (cmd_SCAN (scan_args (int_to_string c))) e =
      Some (Array [Blob (int_to_string (if len <=? stop then 0 else stop));
                   Array (Blob <$> take (Z.to_nat (stop - c)) (drop (Z.to_nat c) L))], e1) /\
    shows e1.
Proof.
  intros [Hwf Ha] HL Hc Hfit. cbv zeta.
  assert (Hwp : wp now (cmd_SCAN (scan_args (int_to_string c))) (flat_of now e)
    (fun r f' => r = Array [Blob (int_to_string
        (if Z.of_nat (length L) <=? Z.min (c + count) (Z.of_nat (length L)) then 0
         else Z.min (c + count) (Z.of_nat (length L))));
        Array (Blob <$> take (Z.to_nat (Z.min (c + count) (Z.of_nat (length L)) - c))
          (drop (Z.to_nat c) L))] /\ fl_map f' = a)).
  { unfold cmd_SCAN, scan_args. rewrite parse_cursor by (unfold_ints; lia).
    rewrite scan_args_options by (unfold_ints; lia).
    intros ks Hs Hp. simpl in Hp. rewrite Ha, tick_stays in Hp by apply Hlast.
    assert (ks = L) as -> by by apply (sorted_matches_unique a).
    cbn [prog_mbind prog_bind wp]. rewrite scan_page_some by (unfold_ints; lia). cbv zeta.
    rewrite (Z.min_l c) by lia. split; [done|]. simpl. rewrite Ha. apply tick_stays, Hlast. }
  destruct (run_wp now db_index skip_aof Hmono _ e _ Hwf Hwp)
    as (r & e' & f' & Hr & (-> & Hm) & Hwf' & Hmap & Hle & _).
  exists e'. split; [done|]. split; [done|]. rewrite (db_abs_later _ _ _ Hwf' Hle), <- Hmap, Hm.
  apply tick_stays, Hlast.
Qed.

Lemma scan_client_from (L : list bytes) (fuel : nat) : forall (c : Z) (e : Env),
  shows e -> sorted_matches a L ->
  0 <= c <= Z.of_nat (length L) -> Z.of_nat (length L) + count < 2 ^ 64 ->
  Z.of_nat (length L) - c < Z.of_nat fuel ->
  exists e', scan_client fuel (int_to_string c) e = Some (Blob <$> drop (Z.to_nat c) L, e') /\ shows e'.
Proof.
  induction fuel as [|fuel IH]; intros c e He HL Hc Hfit Hfuel; [lia|]. cbn [scan_client].
  destruct (scan_round L c e He HL Hc Hfit) as (e1 & -> & He1). cbn [mbind option_bind].
  destruct (Z.leb_spec (Z.of_nat (length L)) (Z.min (c + count) (Z.of_nat (length L)))).
  - rewrite bool_decide_true by done. exists e1. split; [|done].
    do 3 f_equal. apply take_ge. rewrite length_drop. lia.
  - rewrite bool_decide_false.
    2: { intros E. apply (f_equal u64_from_str) in E.
         rewrite u64_int_to_string in E by (unfold_ints; lia).
         change (u64_from_str (b! "0")) with (Some 0) in E. simplify_eq. lia. }
    destruct (IH (Z.min (c + count) (Z.of_nat (length L))) e1 He1 HL) as (e2 & -> & He2);
      [lia|lia|lia|].
    cbn [mbind option_bind]. exists e2. split; [|done].
    do 2 f_equal. rewrite <- fmap_app. f_equal.
    rewrite <- (take_drop (Z.to_nat (Z.min (c + count) (Z.of_nat (length L)) - c))
      (drop (Z.to_nat c) L)) at 2.
    f_equal. rewrite drop_drop. f_equal. lia.
Qed.
End ScanClient.

(** C27: a SCAN iteration is complete.  A client that starts at cursor 0 and follows the
    cursors it is given, while nothing else touches the store and no key expires until it is
    through ([last] bounds the clock; a key that expires in between moves the positional cursor
    past a live one), ends, and has then seen every live key that matches the pattern exactly
    once, in order, and nothing else, whatever batch size from 1 it asks for; scanning changes
    nothing a client can see.  Keys and batch size together stay below 2^64. *)
Theorem scan_iteration_complete `{RustStd} (now : nat -> Z) (db_index : Z) (skip_aof : bool)
    (pattern : bytes) (count : Z) (e : Env) (last : Z) (Hmono : forall n, now n <= now (S n))
    (Hlast : forall n, now n <= last) (Hcount : 1 <= count) (Hwf : db_wf (env_db e))
    (Hstay : db_abs last (env_db e) = db_abs (now (env_tick e)) (env_db e))
    (Hfit : Z.of_nat (size (db_abs last (env_db e))) + count < 2 ^ 64) :
  exists ks e',
    scan_client now db_index skip_aof pattern count (S (size (db_abs last (env_db e)))) (b! "0") e =
      Some (Blob <$> ks, e') /\
    StronglySorted bytes_le ks /\ NoDup ks /\
    (forall k, k ∈ ks <-> is_Some (db_abs last (env_db e) !! k) /\ Glob pattern 0 k) /\
    db_abs (now (env_tick e')) (env_db e') = db_abs (now (env_tick e)) (env_db e).
Proof.
  destruct (sorted_matches_exists pattern last (env_db e) Hwf) as [L HL].
  pose proof (sorted_matches_length pattern _ L HL) as Hlen.
  assert (Ht : tick last (db_abs last (env_db e)) = db_abs last (env_db e))
    by (by rewrite <- (db_abs_later last last) by done).
  destruct (scan_client_from now db_index skip_aof pattern count Hcount last (db_abs last (env_db e))
    Hmono Hlast Ht L (S (size (db_abs last (env_db e)))) 0 e) as (e' & Hr & Hwf' & Ha); [done|done|lia|lia|lia|].
  exists L, e'. split; [exact Hr|]. destruct HL as [Hs Hp]. split_and!; [done| | |congruence].
  - rewrite Hp. apply NoDup_filter, NoDup_fst_map_to_list.
  - intros k. rewrite Hp, list_elem_of_filter, elem_of_flat_keys.
    unfold glob_match. destruct (glob_match_correct k pattern) as (b & -> & Hb).
    simpl. rewrite <- Hb. tauto.
Qed.

(** The clock of the witness moves from 0 to 9. *)
Definition ten_ticks (n : nat) : Z := Z.min (Z.of_nat n) 9.

Lemma scan_iteration_complete_witness :
  exists ks e', scan_client ten_ticks 0 false (b! "*") 1 3 (b! "0") set_and_list = Some (Blob <$> ks, e') /\
    StronglySorted bytes_le ks /\ NoDup ks /\
    (forall k, k ∈ ks <->
       is_Some (db_abs 9 (env_db set_and_list) !! k) /\ Glob (b! "*") 0 k) /\
    db_abs (ten_ticks (env_tick e')) (env_db e') = db_abs (ten_ticks (env_tick set_and_list)) (env_db set_and_list).
Proof.
  apply (scan_iteration_complete ten_ticks 0 false (b! "*") 1 set_and_list 9);
    [unfold ten_ticks; lia|unfold ten_ticks; lia|done|apply set_and_list_wf|by vm_compute|by vm_compute].
Defined.
