(* ===== verification/Scripts.v ===== *)
(** * Scripts: the script cache

    [SCRIPT], [FUNCTION] and the lookup of [EVALSHA] in [src/muon_cache/server.rs], with the
    SHA-1 that names the cached scripts. *)
From S2P Require Import Prelude.
From S2P Require Import IntCodec.
From S2P Require Import Utf8.
From S2P Require Import Resp.
From S2P Require Import ServerArgs.
From S2P Require Import Handlers.

(** ** SHA-1 *)

Definition u32_add (a b : Z) : Z := (a + b) `mod` 2 ^ 32.
Definition rotate_left (x n : Z) : Z :=
  Z.lor (Z.shiftl x n `mod` 2 ^ 32) (Z.shiftr x (32 - n)).
(** [!b] of a [u32]. *)
Definition u32_not (x : Z) : Z := 2 ^ 32 - 1 - x.

(** [while (msg.len() % 64) != 56 { msg.push(0); }] *)
Fixpoint pad_zeros (fuel : nat) (msg : bytes) : bytes :=
  match fuel with
  | O => msg
  | S fuel' =>
      if (length msg mod 64 =? 56)%nat then msg else pad_zeros fuel' (msg ++ [0])
  end.

Fixpoint to_be_bytes (n : nat) (x : Z) : bytes :=
  match n with
  | O => []
  | S n' => to_be_bytes n' (x / 256) ++ [x `mod` 256]
  end.

Definition sha1_padded (input : bytes) : bytes :=
  let bit_len := (blen input * 8) `mod` 2 ^ 64 in
  pad_zeros 64 (input ++ [128]) ++ to_be_bytes 8 bit_len.

Fixpoint chunks (fuel : nat) (msg : bytes) : list bytes :=
  match fuel with
  | O => []
  | S fuel' =>
      match msg with
      | [] => []
      | _ => take 64 msg :: chunks fuel' (drop 64 msg)
      end
  end.

Definition be_word (chunk : bytes) (i : nat) : Z :=
  let byte k := nth (4 * i + k) chunk 0 in
  byte 0%nat * 2 ^ 24 + byte 1%nat * 2 ^ 16 + byte 2%nat * 2 ^ 8 + byte 3%nat.

(** The words 16 to 79; [w] holds the ones before. *)
Fixpoint expand (n : nat) (w : list Z) : list Z :=
  match n with
  | O => w
  | S n' =>
      let i := length w in
      let v := Z.lxor (Z.lxor (nth (i - 3) w 0) (nth (i - 8) w 0))
                 (Z.lxor (nth (i - 14) w 0) (nth (i - 16) w 0)) in
      expand n' (w ++ [rotate_left v 1])
  end.

Definition schedule (chunk : bytes) : list Z := expand 64 (be_word chunk <$> seq 0 16).

Definition sha_state : Type := Z * Z * Z * Z * Z.

Definition round_fk (i : nat) (b c d : Z) : Z * Z :=
  if (i <=? 19)%nat then (Z.lor (Z.land b c) (Z.land (u32_not b) d), 0x5A827999)
  else if (i <=? 39)%nat then (Z.lxor (Z.lxor b c) d, 0x6ED9EBA1)
  else if (i <=? 59)%nat
  then (Z.lor (Z.lor (Z.land b c) (Z.land b d)) (Z.land c d), 0x8F1BBCDC)
  else (Z.lxor (Z.lxor b c) d, 0xCA62C1D6).

Definition sha_round (s : sha_state) (iw : nat * Z) : sha_state :=
  let '(a, b, c, d, e) := s in
  let '(i, w) := iw in
  let '(f, k) := round_fk i b c d in
  let temp := u32_add (u32_add (u32_add (u32_add (rotate_left a 5) f) e) k) w in
  (temp, a, rotate_left b 30, c, d).

Definition sha_block (h : sha_state) (chunk : bytes) : sha_state :=
  let '(h0, h1, h2, h3, h4) := h in
  let '(a, b, c, d, e) := foldl sha_round h (imap pair (schedule chunk)) in
  (u32_add h0 a, u32_add h1 b, u32_add h2 c, u32_add h3 d, u32_add h4 e).

Definition sha_init : sha_state :=
  (0x67452301, 0xEFCDAB89, 0x98BADCFE, 0x10325476, 0xC3D2E1F0).

(** [{:08x}] of a [u32]. *)
Definition hex_digit (n : Z) : Z := if n <? 10 then 48 + n else 87 + n.
Fixpoint hex (n : nat) (x : Z) : bytes :=
  match n with
  | O => []
  | S n' => hex n' (x / 16) ++ [hex_digit (x `mod` 16)]
  end.

Definition sha1_hex (input : bytes) : bytes :=
  let msg := sha1_padded input in
  let '(h0, h1, h2, h3, h4) := foldl sha_block sha_init (chunks (length msg) msg) in
  hex 8 h0 ++ hex 8 h1 ++ hex 8 h2 ++ hex 8 h3 ++ hex 8 h4.

Example sha1_abc : sha1_hex (b! "abc") = b! "a9993e364706816aba3e25717850c26c9cd0d89d".
Proof. vm_compute. reflexivity. Qed.
Example sha1_empty : sha1_hex [] = b! "da39a3ee5e6b4b0d3255bfef95601890afd80709".
Proof. vm_compute. reflexivity. Qed.
Example sha1_two_blocks :
  sha1_hex (b! "abcdbcdecdefdefgefghfghighijhijkijkljklmklmnlmnomnopnopq") =
    b! "84983e441c3bd26ebaae4aa1f95129e5e54670f1".
Proof. vm_compute. reflexivity. Qed.

(** ** Commands *)

(** The cache: SHA-1 to script. *)
Abbreviation ScriptCache := (gmap bytes bytes) (only parsing).

(** [script.find('\n')] *)
Definition strip_lua_shebang (script : bytes) : bytes :=
  if starts_with (b! "#!") script then
    match position (fun b => b =? LF) script with
    | Some nl => drop (nl + 1) script
    | None => []
    end
  else script.

Definition handle_script_command (cache : ScriptCache) (args : list bytes)
    : RespValue * ScriptCache :=
  match args with
  | [] => (StaticError (wrong_args (b! "SCRIPT")), cache)
  | sub :: rest =>
      let sub := to_upper_ascii sub in
      if bool_decide (sub = b! "LOAD") then
        match rest with
        | [body] =>
            match from_utf8 body with
            | None => (StaticError (b! "ERR invalid script"), cache)
            | Some script =>
                let sha := sha1_hex script in (Blob sha, <[sha := script]> cache)
            end
        | _ => (StaticError (wrong_args (b! "SCRIPT LOAD")), cache)
        end
      else if bool_decide (sub = b! "EXISTS") then
        match rest with
        | [] => (StaticError (wrong_args (b! "SCRIPT EXISTS")), cache)
        | _ =>
            (Array ((fun sha =>
               flag (bool_decide (is_Some (cache !! default [] (from_utf8 sha))))) <$> rest), cache)
        end
      else if bool_decide (sub = b! "FLUSH") then (OK, ∅)
      else (StaticError (b! "ERR unknown subcommand for SCRIPT"), cache)
  end.

Definition handle_function_command (cache : ScriptCache) (args : list bytes)
    : RespValue * ScriptCache :=
  match args with
  | [] => (StaticError (wrong_args (b! "FUNCTION")), cache)
  | sub :: rest =>
      let sub := to_upper_ascii sub in
      if bool_decide (sub = b! "LIST") then (Array [], cache)
      else if bool_decide (sub = b! "FLUSH") then (OK, ∅)
      else if bool_decide (sub = b! "LOAD") then
        match rest with
        | [] => (StaticError (wrong_args (b! "FUNCTION LOAD")), cache)
        | first :: more =>
            let body_arg :=
              match more with
              | [second] =>
                  if bool_decide (to_upper_ascii first = b! "REPLACE") then second else first
              | _ => first
              end in
            match from_utf8 body_arg with
            | None => (StaticError (b! "ERR invalid function"), cache)
            | Some script =>
                let js_body := strip_lua_shebang script in
                (OK, <[sha1_hex js_body := js_body]> cache)
            end
        end
      else (StaticError (b! "ERR unknown subcommand for FUNCTION"), cache)
  end.

(** EVAL up to the run of the script: the script and the arguments after it, or the error,
    and the cache. *)
Definition eval_script (cache : ScriptCache) (args : list bytes)
    : (bytes * list bytes + RespValue) * ScriptCache :=
  match args with
  | body :: (_ :: _) as rest =>
      match from_utf8 body with
      | None => (inr (StaticError (b! "ERR invalid script")), cache)
      | Some script => (inl (script, rest), <[sha1_hex script := script]> cache)
      end
  | _ => (inr (StaticError (wrong_args (b! "EVAL"))), cache)
  end.

Definition eval_script_sha (cache : ScriptCache) (args : list bytes)
    : bytes * list bytes + RespValue :=
  match args with
  | sha :: (_ :: _) as rest =>
      match from_utf8 sha with
      | None => inr (StaticError (b! "ERR invalid script"))
      | Some sha =>
          match cache !! sha with
          | Some script => inl (script, rest)
          | None => inr (StaticError (b! "NOSCRIPT No matching script. Please use EVAL."))
          end
      end
  | _ => inr (StaticError (wrong_args (b! "EVALSHA")))
  end.

(** The start of [eval_wrapped_script]: KEYS and ARGV, or the error.  [1 + numkeys] wraps
    in [usize], as in a release build, and the slice [1..1 + numkeys] then panics ([None]). *)
Definition split_keys (args : list bytes) : option (list bytes * list bytes + RespValue) :=
  let invalid := inr (StaticError (b! "ERR invalid number of keys")) in
  match head args ≫= parse_usize with
  | None => Some invalid
  | Some numkeys =>
      let stop := (1 + numkeys) `mod` 2 ^ 64 in
      if Z.of_nat (length args) <? stop then Some invalid
      else if stop <? 1 then None
      else Some (inl (drop 1 (take (Z.to_nat stop) args), drop (Z.to_nat stop) args))
  end.

(** ** Lemmas *)

Lemma hex_spec (n : nat) : forall x,
  length (hex n x) = n /\ Forall (fun d => 48 <= d <= 57 \/ 97 <= d <= 102) (hex n x).
Proof.
  induction n as [|n IH]; intros x; cbn [hex]; [by split; constructor|].
  destruct (IH (x / 16)) as [Hl Hf]. rewrite length_app, Hl. split; [simpl; lia|].
  apply Forall_app. split; [done|]. constructor; [|constructor]. unfold hex_digit.
  pose proof (Z.mod_pos_bound x 16). destruct (Z.ltb_spec (x `mod` 16) 10); lia.
Qed.

Lemma sha1_hex_spec (input : bytes) : length (sha1_hex input) = 40%nat /\
  Forall (fun d => 48 <= d <= 57 \/ 97 <= d <= 102) (sha1_hex input).
Proof.
  unfold sha1_hex. cbv zeta. destruct (foldl _ _ _) as [[[[h0 h1] h2] h3] h4].
  rewrite !length_app, !Forall_app. split.
  - by rewrite !(proj1 (hex_spec _ _)).
  - split_and!; apply hex_spec.
Qed.

Lemma sha1_hex_utf8 (input : bytes) : from_utf8 (sha1_hex input) = Some (sha1_hex input).
Proof.
  unfold from_utf8. rewrite utf8_valid_ascii; [done|].
  eapply Forall_impl; [apply sha1_hex_spec|]. simpl. lia.
Qed.

Lemma pad_zeros_spec (fuel : nat) : forall msg,
  (fuel + (length msg + 8) mod 64 >= 64)%nat \/ (length msg mod 64 = 56)%nat ->
  exists k, pad_zeros fuel msg = msg ++ replicate k 0 /\
    ((length msg + k) mod 64 = 56)%nat /\ (k <= fuel)%nat.
Proof.
  induction fuel as [|fuel IH]; intros msg Hf; cbn [pad_zeros].
  { exists 0%nat. rewrite app_nil_r. split; [done|]. rewrite Nat.add_0_r.
    pose proof (Nat.mod_upper_bound (length msg + 8) 64). lia. }
  destruct (Nat.eqb_spec (length msg mod 64) 56) as [E|E].
  { exists 0%nat. rewrite app_nil_r, Nat.add_0_r. split_and!; [done|done|lia]. }
  destruct (IH (msg ++ [0])) as (k & -> & Hk & Hle).
  - rewrite length_app. cbn [length]. destruct Hf as [Hf|]; [|done].
    pose proof (Nat.div_mod_eq (length msg) 64). pose proof (Nat.mod_upper_bound (length msg) 64).
    pose proof (Nat.div_mod_eq (length msg + 8) 64).
    pose proof (Nat.mod_upper_bound (length msg + 8) 64).
    pose proof (Nat.div_mod_eq (length msg + 1) 64).
    pose proof (Nat.mod_upper_bound (length msg + 1) 64).
    pose proof (Nat.div_mod_eq (length msg + 1 + 8) 64).
    pose proof (Nat.mod_upper_bound (length msg + 1 + 8) 64). lia.
  - exists (S k). rewrite <- app_assoc. rewrite length_app in Hk. cbn [length] in Hk.
    split_and!; [done| |lia]. by replace (length msg + S k)%nat with (length msg + 1 + k)%nat by lia.
Qed.

Lemma to_be_bytes_length (n : nat) : forall x, length (to_be_bytes n x) = n.
Proof.
  induction n as [|n IH]; intros x; cbn [to_be_bytes]; [done|].
  rewrite length_app, IH. simpl. lia.
Qed.

(** ** Properties *)

(** the message SHA-1 processes is well formed for every input: the padding loop ends
    within 64 rounds, the padded message is the input, a 0x80 byte, zeros and the 64-bit
    big-endian bit length, it is a whole number of 64-byte blocks, and the name it gives is
    always 40 lower-case hexadecimal digits. *)
Theorem sha1_padding_and_shape (input : bytes) :
  (exists k, sha1_padded input =
     input ++ [128] ++ replicate k 0 ++ to_be_bytes 8 ((blen input * 8) `mod` 2 ^ 64) /\
     (k <= 64)%nat) /\
  (length (sha1_padded input) mod 64 = 0)%nat /\
  length (sha1_hex input) = 40%nat /\
  Forall (fun d => 48 <= d <= 57 \/ 97 <= d <= 102) (sha1_hex input).
Proof.
  unfold sha1_padded. cbv zeta.
  destruct (pad_zeros_spec 64 (input ++ [128])) as (k & E & Hk & Hle); [lia|].
  rewrite E. split; [|split; [|apply sha1_hex_spec]].
  - exists k. by rewrite <- !app_assoc.
  - rewrite length_app, to_be_bytes_length, (length_app (input ++ [128])), length_replicate.
    pose proof (Nat.div_mod_eq (length (input ++ [128]) + k) 64).
    rewrite Nat.Div0.add_mod, Hk. done.
Qed.

(** a script that was loaded is the one that runs: SCRIPT LOAD, in any case, answers a
    name under which EVALSHA then finds exactly the loaded text, SCRIPT EXISTS answers 1 and
    EVAL of the same text caches the same entry; after SCRIPT FLUSH the name is unknown. *)
Theorem script_load_then_evalsha (cache : gmap bytes bytes) (sub script : bytes)
    (rest : list bytes) (Hsub : to_upper_ascii sub = b! "LOAD")
    (Hutf8 : utf8_valid script = true) (Hrest : rest <> []) :
  let sha := sha1_hex script in
  let cache' := (handle_script_command cache [sub; script]).2 in
  (handle_script_command cache [sub; script]).1 = Blob sha /\
  eval_script_sha cache' (sha :: rest) = inl (script, rest) /\
  (handle_script_command cache' [b! "EXISTS"; sha]).1 = Array [Integer 1] /\
  eval_script cache (script :: rest) = (inl (script, rest), cache') /\
  eval_script_sha (handle_script_command cache' [b! "flush"]).2 (sha :: rest) =
    inr (StaticError (b! "NOSCRIPT No matching script. Please use EVAL.")).
Proof.
  cbv zeta. assert (Hbody : from_utf8 script = Some script) by (unfold from_utf8; by rewrite Hutf8).
  assert (Hload : handle_script_command cache [sub; script] =
    (Blob (sha1_hex script), <[sha1_hex script := script]> cache)).
  { cbn [handle_script_command]. rewrite Hsub, bool_decide_true, Hbody by done. done. }
  rewrite Hload. cbn [fst snd]. destruct rest as [|r rest]; [done|]. split_and!; [done| | | |].
  - cbn [eval_script_sha]. by rewrite sha1_hex_utf8, lookup_insert_eq.
  - cbn [handle_script_command]. rewrite bool_decide_false by done.
    rewrite bool_decide_true by done. cbn [fmap list_fmap fst].
    rewrite sha1_hex_utf8. cbn [default]. by rewrite lookup_insert_eq.
  - cbn [eval_script]. by rewrite Hbody.
  - cbn [handle_script_command]. do 2 rewrite bool_decide_false by done.
    rewrite bool_decide_true by done. cbn [snd eval_script_sha].
    by rewrite sha1_hex_utf8, lookup_empty.
Qed.

Lemma script_load_then_evalsha_witness :
  (handle_script_command ∅ [b! "load"; b! "return 1"]).1 = Blob (sha1_hex (b! "return 1")) /\
  eval_script_sha (handle_script_command ∅ [b! "load"; b! "return 1"]).2
    [sha1_hex (b! "return 1"); b! "0"] = inl (b! "return 1", [b! "0"]).
Proof.
  destruct (script_load_then_evalsha ∅ (b! "load") (b! "return 1") [b! "0"]) as (H1 & H2 & _);
    [by vm_compute|by vm_compute|done|]. by split.
Defined.

(** EVAL and EVALSHA with the number of keys [usize::MAX] panic: [1 + numkeys] wraps to
    0, which passes the length check, and the slice from 1 to 0 is out of range.  For every
    other number that parses, the keys and the arguments are split at it or the error is
    answered. *)
Theorem eval_numkeys_split (n : bytes) (rest : list bytes) (numkeys : Z)
    (Hn : parse_usize n = Some numkeys) :
  (split_keys (n :: rest) = None <-> numkeys = u64_max) /\
  (numkeys < u64_max ->
   split_keys (n :: rest) =
     Some (if Z.of_nat (length rest) <? numkeys
           then inr (StaticError (b! "ERR invalid number of keys"))
           else inl (take (Z.to_nat numkeys) rest, drop (Z.to_nat numkeys) rest))).
Proof.
  assert (Hr : 0 <= numkeys <= u64_max).
  { unfold parse_usize in Hn. destruct (from_utf8 n); [|done]. by apply u64_from_str_range in Hn. }
  assert (Hlt : numkeys < u64_max -> split_keys (n :: rest) =
     Some (if Z.of_nat (length rest) <? numkeys
           then inr (StaticError (b! "ERR invalid number of keys"))
           else inl (take (Z.to_nat numkeys) rest, drop (Z.to_nat numkeys) rest))).
  { intros Hlt. unfold split_keys. cbn [head mbind option_bind]. rewrite Hn. cbv zeta.
    rewrite Z.mod_small by (unfold_ints; lia). cbn [length].
    destruct (Z.ltb_spec (Z.of_nat (length rest)) numkeys).
    - by rewrite (proj2 (Z.ltb_lt _ _)) by lia.
    - rewrite (proj2 (Z.ltb_ge _ _)) by lia. rewrite (proj2 (Z.ltb_ge _ _)) by lia.
      by replace (Z.to_nat (1 + numkeys)) with (S (Z.to_nat numkeys)) by lia. }
  split; [|exact Hlt]. split.
  - intros Hnone. destruct (decide (numkeys = u64_max)) as [|Hne]; [done|].
    rewrite Hlt in Hnone by lia. done.
  - intros ->. unfold split_keys. cbn [head mbind option_bind]. by rewrite Hn.
Qed.

Lemma eval_numkeys_split_witness :
  split_keys [b! "18446744073709551615"] = None /\
  split_keys [b! "1"; b! "k"; b! "v"] = Some (inl ([b! "k"], [b! "v"])).
Proof.
  split.
  - by apply (eval_numkeys_split (b! "18446744073709551615") [] u64_max).
  - exact (proj2 (eval_numkeys_split (b! "1") [b! "k"; b! "v"] 1 eq_refl) eq_refl).
Defined.
