(* ===== verification/Server.v ===== *)
(** * Server: connections

    [handle_client] of [src/muon_cache/server.rs] and what it calls: the commands that do
    not touch a database, the fast paths, MULTI/EXEC/DISCARD, publish/subscribe, and the
    dispatch to the handlers.  One iteration of the read loop is [client_step], a function of
    the connection, the shared state and the value read; [None] is a panic, which ends the
    connection.  What a script run does and what the snapshot of the SQL library answers are
    arguments. *)
From Stdlib Require Import SpecFloat.
From S2P Require Import Prelude.
From S2P Require Import IntCodec.
From S2P Require Import Utf8.
From S2P Require Import HashStore.
From S2P Require Import Glob.
From S2P Require Import Shard.
From S2P Require Import ShardOps.
From S2P Require Import Db.
From S2P Require Import DbSpec.
From S2P Require Import Resp.
From S2P Require Import ServerArgs.
From S2P Require Import Persist.
From S2P Require Import Calls.
From S2P Require Import Handlers.
From S2P Require Import HandlerSpec.
From S2P Require Import Scripts.

(** ** State *)

(** What the connections share.  [subs] holds, per channel, the subscribed connections, one
    entry per SUBSCRIBE; [boxes] the messages not yet written to each open connection. *)
Record World := MkWorld
  { dbs : list Db;
    persist_state : option Persist;
    scripts : gmap bytes bytes;
    subs : gmap bytes (list nat);
    boxes : gmap nat (list RespValue);
    ticks : nat }.

(** The local variables of [handle_client]. *)
Record Client := MkClient
  { client_id : nat; current_db : nat; in_multi : bool;
    queued : list (bytes * list bytes) }.

Definition new_client (id : nat) : Client := MkClient id 0 false [].

Definition PUBSUB_CHANNEL_CAPACITY : nat := 1024.

Inductive FastResponse :=
  | FValue (v : RespValue)
  | FBlobArray (items : list bytes).

(** What the writer appends. *)
Definition write_response (r : FastResponse) : bytes :=
  match r with
  | FValue v => encode v
  | FBlobArray items => encode_array_of_blobs items
  end.

(** ** Publish and subscribe *)

Definition handle_subscribe (w : World) (id : nat) (channels : list bytes) : RespValue * World :=
  match channels with
  | [] => (StaticError (wrong_args (b! "SUBSCRIBE")), w)
  | channel :: _ =>
      let subs' := foldl (fun m ch => <[ch := default [] (m !! ch) ++ [id]]> m) (subs w) channels in
      (Array [Blob (b! "subscribe"); Blob channel; Integer (Z.of_nat (length channels))],
       MkWorld (dbs w) (persist_state w) (scripts w) subs' (boxes w) (ticks w))
  end.

(** [tx.try_send]: fails when the box is full or the connection is gone. *)
Definition try_send (boxes : gmap nat (list RespValue)) (id : nat) (msg : RespValue)
    : bool * gmap nat (list RespValue) :=
  match boxes !! id with
  | Some box =>
      if (length box <? PUBSUB_CHANNEL_CAPACITY)%nat
      then (true, <[id := box ++ [msg]]> boxes)
      else (false, boxes)
  | None => (false, boxes)
  end.

Fixpoint publish_loop (ids : list nat) (msg : RespValue) (boxes : gmap nat (list RespValue))
    (delivered : Z) : Z * gmap nat (list RespValue) :=
  match ids with
  | [] => (delivered, boxes)
  | id :: ids' =>
      let '(ok, boxes) := try_send boxes id msg in
      publish_loop ids' msg boxes (if ok : bool then delivered + 1 else delivered)
  end.

Definition handle_publish (w : World) (args : list bytes) : RespValue * World :=
  match args with
  | [channel; message] =>
      let msg := Array [Blob (b! "message"); Blob channel; Blob message] in
      let '(delivered, boxes') :=
        publish_loop (default [] (subs w !! channel)) msg (boxes w) 0 in
      (Integer delivered,
       MkWorld (dbs w) (persist_state w) (scripts w) (subs w) boxes' (ticks w))
  | _ => (StaticError (wrong_args (b! "PUBLISH")), w)
  end.

(** ** Commands without a database *)

Section NoDb.
Context (cmd : bytes) (args : list bytes) (cache : gmap bytes bytes) (db_index db_count : nat).

Definition cmd_PING : RespValue :=
  match args with arg :: _ => Blob arg | [] => StaticSimple (b! "PONG") end.

Definition cmd_ECHO : RespValue :=
  match args with arg :: _ => Blob arg | [] => StaticError (wrong_args (b! "ECHO")) end.

Definition cmd_SELECT : RespValue * nat :=
  match head args ≫= parse_usize with
  | Some idx =>
      if idx <? Z.of_nat db_count then (OK, Z.to_nat idx)
      else (StaticError (b! "ERR invalid DB index"), db_index)
  | None => (StaticError (b! "ERR invalid DB index"), db_index)
  end.

(** CONFIG, SLOWLOG and CLIENT: one known subcommand. *)
Definition subcommand (name : bytes) (reply : RespValue) : RespValue :=
  match args with
  | sub :: _ =>
      if bool_decide (to_upper_ascii sub = name) then reply
      else StaticError (b! "ERR syntax error")
  | [] => StaticError (b! "ERR syntax error")
  end.

Definition INFO_REPLY : RespValue := Blob (b! "muoncache:1" ++ crlf).
Definition CLIENT_REPLY : RespValue := Blob (b! "id=1 addr=127.0.0.1:0").

(** The reply, the database index and the script cache. *)
Definition handle_no_db_command : option (RespValue * nat * gmap bytes bytes) :=
  let pure (r : RespValue) := (r, db_index, cache) in
  let script (rc : RespValue * gmap bytes bytes) := (rc.1, db_index, rc.2) in
  dispatch cmd
    [("PING", pure cmd_PING); ("ECHO", pure cmd_ECHO);
     ("SELECT", (cmd_SELECT.1, cmd_SELECT.2, cache)); ("INFO", pure INFO_REPLY);
     ("SCRIPT", script (handle_script_command cache args));
     ("CONFIG", pure (subcommand (b! "GET") (Array [])));
     ("FUNCTION", script (handle_function_command cache args));
     ("CLIENT", pure (subcommand (b! "LIST") CLIENT_REPLY));
     ("SLOWLOG", pure (subcommand (b! "GET") (Array [])));
     ("REPLICAOF", pure (StaticError (b! "ERR replication not implemented")));
     ("QUIT", pure OK)]%string.

(** The end of [handle_command], after the seven groups; [None] is its last arm. *)
Definition handle_meta_command (persist_state : option Persist)
    : option (RespValue * gmap bytes bytes) :=
  let pure (r : RespValue) := (r, cache) in
  dispatch cmd
    [("FLUSHALL", pure (StaticError (b! "ERR FLUSHALL requires async context")));
     ("INFO", pure INFO_REPLY);
     ("EVAL", pure (StaticError (b! "ERR EVAL cannot be used recursively")));
     ("EVALSHA", pure (StaticError (b! "ERR EVAL cannot be used recursively")));
     ("SCRIPT", handle_script_command cache args);
     ("CONFIG", pure (subcommand (b! "GET") (Array [])));
     ("FUNCTION", handle_function_command cache args);
     ("CLIENT", pure (subcommand (b! "LIST") CLIENT_REPLY));
     ("SLOWLOG", pure (subcommand (b! "GET") (Array [])));
     ("SAVE", pure (StaticError (b! "ERR SAVE requires async context")));
     ("BGSAVE", pure (match persist_state with
                      | Some _ => Simple (b! "Background saving started")
                      | None => StaticError (b! "ERR persistence not configured")
                      end));
     ("REPLICAOF", pure (StaticError (b! "ERR replication not implemented")));
     ("QUIT", pure OK)]%string.
End NoDb.

Definition unknown_command (name : bytes) : RespValue :=
  Error (b! "ERR unknown command '" ++ name ++ b! "'").

(** ** Fast paths *)

Definition fast_SET (args : list bytes) : option (Prog FastResponse) :=
  match args with
  | [key; v] => Some (_ ← set_string_ref key v None; Ret (FValue OK))
  | _ => None
  end.

Definition fast_GET (args : list bytes) : option (Prog FastResponse) :=
  match args with
  | [key] =>
      Some (r ← get_string key;
            Ret match r with
                | Ok (Some v) => FValue (Blob v)
                | Ok None => FValue Null
                | Err => FValue WRONGTYPE
                end)
  | _ => None
  end.

Definition fast_HSET (args : list bytes) : option (Prog FastResponse) :=
  match args with
  | [key; field; v] =>
      Some (r ← hash_set_ref key field v;
            Ret match r with Ok is_new => FValue (flag is_new) | Err => FValue WRONGTYPE end)
  | _ => None
  end.

Definition handle_lrange_fast (args : list bytes) : Prog FastResponse :=
  match args with
  | key :: start :: stop :: _ =>
      r ← list_range key (default 0 (parse_i64 start)) (default (-1) (parse_i64 stop));
      Ret match r with
          | Ok items => FBlobArray items
          | Err => FValue (Error WRONGTYPE_TEXT)
          end
  | _ => Ret (FValue (StaticError (wrong_args (b! "LRANGE"))))
  end.

(** The fast path of a command outside MULTI, if it has one; SET's and HSET's need that
    nothing is persisted. *)
Definition fast_command (no_persist : bool) (cmd : bytes) (args : list bytes)
    : option (Prog FastResponse) :=
  if bool_decide (cmd = b! "SET") && no_persist then fast_SET args
  else if bool_decide (cmd = b! "GET") then fast_GET args
  else if bool_decide (cmd = b! "HSET") && no_persist then fast_HSET args
  else if bool_decide (cmd = b! "LRANGE") then Some (handle_lrange_fast args)
  else None.

(** ** Commands over the shared state *)

(** What [LibsqlPersist::snapshot] answers. *)
Inductive SnapResult := SnapOk | SnapNotFound | SnapFailed (msg : bytes).

(** One database's copy for the snapshot; reading it purges what is expired. *)
Definition snapshot_db `{RustStd} (now : Z) (db : Db) : Db * Db :=
  let '(items, db) := Db.snapshot_items (fun _ => now) alone db in
  (foldl (fun cloned item => Db.set_with_expire_at cloned item.1.1 item.1.2 item.2) Db.new items,
   db).

Section Commands.
Context `{RustStd} (now : nat -> Z) (libsql_snapshot : list Db -> SnapResult).
(** The script runtime of a connection, and a run of a script with its KEYS and ARGV. *)
Context {JS : Type} (js_new : JS)
  (js_eval : bytes -> list bytes -> list bytes -> World -> nat -> JS ->
     option (RespValue * World * nat * JS)).

Definition no_persist (w : World) : bool :=
  match persist_state w with Some _ => false | None => true end.

Definition with_scripts (w : World) (cache : gmap bytes bytes) : World :=
  MkWorld (dbs w) (persist_state w) cache (subs w) (boxes w) (ticks w).

(** Run a program on one database; indexing out of range panics. *)
Definition run_on {A} (w : World) (db_index : nat) (p : Prog A) : option (A * World) :=
  db ← dbs w !! db_index;
  '(r, e) ← run now (Z.of_nat db_index) (no_persist w) p (MkEnv db (persist_state w) (ticks w));
  Some (r, MkWorld (<[db_index := env_db e]> (dbs w)) (env_persist e) (scripts w) (subs w)
             (boxes w) (env_tick e)).

Definition snapshot_dbs_for_persistence (w : World) : list Db * World :=
  let clones := imap (fun i db => snapshot_db (now (ticks w + i)%nat) db) (dbs w) in
  (clones.*1, MkWorld clones.*2 (persist_state w) (scripts w) (subs w) (boxes w)
                (ticks w + length (dbs w))).

Definition handle_save_like_command (w : World) (cmd : bytes) (args : list bytes)
    : option (RespValue * World) :=
  if negb (bool_decide (cmd = b! "SAVE") || bool_decide (cmd = b! "BGSAVE")) then None
  else
    match args with
    | _ :: _ => Some (Error (wrong_args cmd), w)
    | [] =>
        let '(snapshot_dbs, w) := snapshot_dbs_for_persistence w in
        Some (match persist_state w with
              | None => StaticError (b! "ERR persistence not configured")
              | Some Noop => OK
              | Some (Libsql _) =>
                  match libsql_snapshot snapshot_dbs with
                  | SnapOk => OK
                  | SnapNotFound => StaticError (b! "ERR persistence not configured")
                  | SnapFailed msg => Error (b! "ERR persistence failed: " ++ msg)
                  end
              end, w)
    end.

Definition handle_flushall_command (w : World) (args : list bytes) : RespValue * World :=
  match args with
  | _ :: _ => (StaticError (wrong_args (b! "FLUSHALL")), w)
  | [] =>
      (OK, MkWorld ((fun db => (Db.flush alone db).2) <$> dbs w)
             (log_cmd (persist_state w) 0 (b! "FLUSHALL") args (no_persist w))
             (scripts w) (subs w) (boxes w) (ticks w))
  end.

Definition handle_eval_command (w : World) (db_index : nat) (script : option JS) (cmd : bytes)
    (args : list bytes) : option (RespValue * World * nat * option JS) :=
  let runtime := default js_new script in
  let '(prepared, cache) :=
    if bool_decide (cmd = b! "EVAL") then eval_script (scripts w) args
    else (eval_script_sha (scripts w) args, scripts w) in
  let w := with_scripts w cache in
  match prepared with
  | inr err => Some (err, w, db_index, Some runtime)
  | inl (source, rest) =>
      keys_argv ← split_keys rest;
      match keys_argv with
      | inr err => Some (err, w, db_index, Some runtime)
      | inl (keys, argv) =>
          '(r, w, db_index, runtime) ← js_eval source keys argv w db_index runtime;
          Some (r, w, db_index, Some runtime)
      end
  end.

Definition handle_command (w : World) (db_index : nat) (cmd : bytes) (args : list bytes)
    : option (RespValue * World) :=
  match data_command cmd args with
  | Some p => run_on w db_index p
  | None =>
      match handle_meta_command cmd args (scripts w) (persist_state w) with
      | Some (r, cache) => Some (r, with_scripts w cache)
      | None => Some (unknown_command cmd, w)
      end
  end.

(** The chain that runs a command, directly and for each queued command of EXEC. *)
Definition run_command (w : World) (db_index : nat) (script : option JS) (cmd : bytes)
    (args : list bytes) : option (RespValue * World * nat * option JS) :=
  match handle_save_like_command w cmd args with
  | Some (r, w) => Some (r, w, db_index, script)
  | None =>
      match handle_no_db_command cmd args (scripts w) db_index (length (dbs w)) with
      | Some (r, db_index, cache) => Some (r, with_scripts w cache, db_index, script)
      | None =>
          if bool_decide (cmd = b! "FLUSHALL") then
            let '(r, w) := handle_flushall_command w args in Some (r, w, db_index, script)
          else if bool_decide (cmd = b! "EVAL") || bool_decide (cmd = b! "EVALSHA") then
            handle_eval_command w db_index script cmd args
          else
            '(r, w) ← handle_command w db_index cmd args; Some (r, w, db_index, script)
      end
  end.

(** The loop of EXEC. *)
Fixpoint exec_queue (w : World) (db_index : nat) (script : option JS)
    (queue : list (bytes * list bytes)) : option (list RespValue * World * nat * option JS) :=
  match queue with
  | [] => Some ([], w, db_index, script)
  | (qcmd, qargs) :: queue' =>
      '(r, w, db_index, script) ← run_command w db_index script qcmd qargs;
      '(rs, w, db_index, script) ← exec_queue w db_index script queue';
      Some (r :: rs, w, db_index, script)
  end.

(** ** One iteration of the read loop *)

(** The connection and its script runtime. *)
Definition Conn : Type := Client * option JS.

Definition set_multi (c : Client) (multi : bool) (queue : list (bytes * list bytes)) : Client :=
  MkClient (client_id c) (current_db c) multi queue.
Definition set_db (c : Client) (db_index : nat) : Client :=
  MkClient (client_id c) db_index (in_multi c) (queued c).

(** The chain of [if]s that computes the response. *)
Definition respond (c : Client) (script : option JS) (w : World) (cmd : bytes)
    (args : list bytes) : option (FastResponse * Conn * World) :=
  let value (r : RespValue) (c : Client) (w : World) := Some (FValue r, (c, script), w) in
  if bool_decide (cmd = b! "SUBSCRIBE") then
    let '(r, w) := handle_subscribe w (client_id c) args in value r c w
  else if bool_decide (cmd = b! "PUBLISH") then
    let '(r, w) := handle_publish w args in value r c w
  else
    match (if in_multi c then None else fast_command (no_persist w) cmd args) with
    | Some p => '(r, w) ← run_on w (current_db c) p; Some (r, (c, script), w)
    | None =>
        if in_multi c && negb (bool_decide (cmd ∈ [b! "EXEC"; b! "DISCARD"; b! "MULTI"])) then
          value (StaticSimple (b! "QUEUED")) (set_multi c true (queued c ++ [(cmd, args)])) w
        else if bool_decide (cmd = b! "MULTI") then
          if in_multi c then value (StaticError (b! "ERR MULTI calls can not be nested")) c w
          else value OK (set_multi c true []) w
        else if bool_decide (cmd = b! "DISCARD") then
          if in_multi c then value OK (set_multi c false []) w
          else value (StaticError (b! "ERR DISCARD without MULTI")) c w
        else if bool_decide (cmd = b! "EXEC") then
          if in_multi c then
            '(rs, w, db_index, script) ← exec_queue w (current_db c) script (queued c);
            Some (FValue (Array rs), (set_db (set_multi c false []) db_index, script), w)
          else value (StaticError (b! "ERR EXEC without MULTI")) c w
        else
          '(r, w, db_index, script) ← run_command w (current_db c) script cmd args;
          Some (FValue r, (set_db c db_index, script), w)
    end.

(** [while let Ok(msg) = pub_rx.try_recv()]: the waiting messages are written out. *)
Definition drain (w : World) (id : nat) : bytes * World :=
  (concat (encode <$> default [] (boxes w !! id)),
   MkWorld (dbs w) (persist_state w) (scripts w) (subs w)
     (match boxes w !! id with Some _ => <[id := []]> (boxes w) | None => boxes w end) (ticks w)).

(** The bytes written, the next states, and whether the connection goes on. *)
Definition client_step (conn : Conn) (w : World) (val : RespValue)
    : option (bytes * Conn * World * bool) :=
  match value_to_args val with
  | inr err => Some (encode (Error err), conn, w, true)
  | inl [] => Some (encode (StaticError (b! "ERR empty command")), conn, w, true)
  | inl (name :: args) =>
      match parse_command name with
      | None => Some (encode (unknown_command (from_utf8_lossy name)), conn, w, true)
      | Some cmd =>
          '(resp, conn, w) ← respond conn.1 conn.2 w cmd args;
          let '(messages, w) := drain w (client_id conn.1) in
          Some (write_response resp ++ messages, conn, w, negb (bool_decide (cmd = b! "QUIT")))
      end
  end.

(** [handle_client]: the bytes written until the end of the input, QUIT, or an I/O error;
    [None] is a panic, of the reader or of a command. *)
Fixpoint handle_client (fuel : nat) (conn : Conn) (w : World) (input : bytes)
    : option (bytes * World) :=
  match fuel with
  | O => None
  | S fuel' =>
      r ← read_value input;
      match r with
      | Eof | IoErr => Some ([], w)
      | Dies => None
      | Got val rest =>
          '(out, conn, w, go_on) ← client_step conn w val;
          if go_on : bool then '(out', w) ← handle_client fuel' conn w rest; Some (out ++ out', w)
          else Some (out, w)
      end
  end.
End Commands.
