(* ===== verification/ServerSpec.v ===== *)
(** * ServerSpec: what a connection can rely on

    The fast paths, MULTI/EXEC, pipelining, isolation of the databases, the snapshot copy,
    and the reply to an unknown command. *)
From Stdlib Require Import SpecFloat.
From S2P Require Import Prelude.
From S2P Require Import IntCodec.
From S2P Require Import Utf8.
From S2P Require Import HashStore.
From S2P Require Import Glob.
From S2P Require Import Shard.
From S2P Require Import ShardOps.
From S2P Require Import Db.
From S2P Require Import DbSpec.
From S2P Require Import Resp.
From S2P Require Import ServerArgs.
From S2P Require Import Persist.
From S2P Require Import Calls.
From S2P Require Import Handlers.
From S2P Require Import HandlerSpec.
From S2P Require Import Scripts.
From S2P Require Import Server.

(** ** Fast paths *)

Section Fast.
Context `{RustStd} (now : nat -> Z).

(** A key operation, run. *)
Lemma run_key_call {R A} (db_index : Z) (skip : bool) (key : bytes) (op : key_op)
    (as_r : out -> option R) (k : R -> Prog A) (e : Env) :
  run now db_index skip (key_call key op as_r ≫= k) e =
    ('(o, db) ← db_step (env_db e) (Request (now (env_tick e)) key op);
     r ← as_r o;
     run now db_index skip (k r) (MkEnv db (env_persist e) (S (env_tick e)))).
Proof.
  unfold key_call. cbn [mbind prog_mbind prog_bind run db_call].
  destruct (db_step _ _) as [[o db]|]; [|done]. cbn [mbind option_bind].
  by destruct (as_r o).
Qed.

Lemma run_bind {A B} (db_index : Z) (skip : bool) (p : Prog A) (k : A -> Prog B) : forall e,
  run now db_index skip (p ≫= k) e =
    ('(x, e') ← run now db_index skip p e; run now db_index skip (k x) e').
Proof.
  induction p as [a|R c k' IH|]; intros e; cbn [mbind prog_mbind prog_bind run]; [done| |done].
  destruct (db_call _ _ _ c e) as [[r e']|]; [|done]. cbn [mbind option_bind]. apply IH.
Qed.

(** With nothing persisted, logging does nothing. *)
Lemma run_log_skip {A} (db_index : Z) (cmd : bytes) (args : list bytes) (x : A) (e : Env) :
  run now db_index true (_ ← log cmd args; Ret x) e = Some (x, e).
Proof. by destruct e. Qed.

(** Two programs that do the same and answer the same bytes. *)
Definition same_reply (a : option (FastResponse * Env)) (b : option (RespValue * Env)) : Prop :=
  match a, b with
  | Some (fr, e1), Some (r, e2) => write_response fr = encode r /\ e1 = e2
  | None, None => True
  | _, _ => False
  end.

Lemma fast_command_agrees (db_index : Z) (np : bool) (cmd : bytes) (args : list bytes)
    (p : Prog FastResponse) : fast_command np cmd args = Some p ->
  exists q, data_command cmd args = Some q /\
    forall e, same_reply (run now db_index np p e) (run now db_index np q e).
Proof.
  unfold fast_command.
  destruct (bool_decide (cmd = b! "SET") && np) eqn:E1.
  { apply andb_prop in E1 as [->%bool_decide_eq_true ->].
    destruct args as [|key [|v [|? ?]]]; try done. intros Hp.
    assert (p = (_ ← set_string_ref key v None; Ret (FValue OK))) as -> by by injection Hp.
    exists (cmd_SET (b! "SET") [key; v]). split; [reflexivity|]. intros e.
    unfold cmd_SET, set_string_ref. rewrite !run_key_call.
    destruct (db_step _ _) as [[o db]|]; [|exact I]. cbn [mbind option_bind].
    destruct (as_unit o); [|exact I]. cbn [mbind option_bind]. by rewrite run_log_skip. }
  destruct (bool_decide (cmd = b! "GET")) eqn:E2.
  { apply bool_decide_eq_true in E2 as ->. destruct args as [|key [|? ?]]; try done. intros Hp.
    assert (p = (r ← get_string key;
      Ret match r with
          | Ok (Some v) => FValue (Blob v) | Ok None => FValue Null | Err => FValue WRONGTYPE
          end)) as -> by by injection Hp.
    exists (cmd_GET [key]). split; [reflexivity|]. intros e.
    unfold cmd_GET, get_string. rewrite !run_key_call.
    destruct (db_step _ _) as [[o db]|]; [|exact I]. cbn [mbind option_bind].
    destruct (as_ropt o) as [[[v|]|]|]; exact I || by split. }
  destruct (bool_decide (cmd = b! "HSET") && np) eqn:E3.
  { apply andb_prop in E3 as [->%bool_decide_eq_true ->].
    destruct args as [|key [|field [|v [|? ?]]]]; try done. intros Hp.
    assert (p = (r ← hash_set_ref key field v;
      Ret match r with Ok is_new => FValue (flag is_new) | Err => FValue WRONGTYPE end))
      as -> by by injection Hp.
    exists (cmd_HSET (b! "HSET") [key; field; v]). split; [reflexivity|]. intros e.
    unfold cmd_HSET. cbv zeta. cbn [length Nat.ltb Nat.leb Nat.even orb pairs].
    unfold hash_set_ref. rewrite run_key_call. rewrite (run_bind _ _ (hset_loop _ _ _)).
    cbn [hset_loop]. unfold hash_set_ref. rewrite run_key_call.
    destruct (db_step _ _) as [[o db]|]; [|exact I]. cbn [mbind option_bind].
    destruct (as_rbool o) as [[b|]|]; [|by split|exact I].
    cbn [mbind option_bind run hset_loop]. rewrite run_log_skip. by destruct b. }
  destruct (bool_decide (cmd = b! "LRANGE")) eqn:E4; [|done].
  apply bool_decide_eq_true in E4 as ->. intros Hp.
  assert (p = handle_lrange_fast args) as -> by by injection Hp.
  exists (cmd_LRANGE args). split; [reflexivity|]. intros e. unfold handle_lrange_fast, cmd_LRANGE.
  destruct args as [|key [|start [|stop rest]]]; try by split.
  unfold list_range. rewrite !run_key_call.
  destruct (db_step _ _) as [[o db]|]; [|exact I]. cbn [mbind option_bind].
  destruct (as_rlist o) as [[items|]|]; [|by split|exact I].
  split; [|done]. cbn [write_response]. apply encode_blobs.
Qed.
End Fast.

Lemma fast_command_name (np : bool) (cmd : bytes) (args : list bytes) (p : Prog FastResponse) :
  fast_command np cmd args = Some p ->
  cmd = b! "SET" \/ cmd = b! "GET" \/ cmd = b! "HSET" \/ cmd = b! "LRANGE".
Proof.
  unfold fast_command.
  destruct (bool_decide (cmd = b! "SET")) eqn:E1; [apply bool_decide_eq_true in E1; auto|].
  destruct (bool_decide (cmd = b! "GET")) eqn:E2; [apply bool_decide_eq_true in E2; auto|].
  destruct (bool_decide (cmd = b! "HSET")) eqn:E3; [apply bool_decide_eq_true in E3; auto|].
  destruct (bool_decide (cmd = b! "LRANGE")) eqn:E4; [apply bool_decide_eq_true in E4; auto|done].
Qed.

Section Server.
Context `{RustStd} (now : nat -> Z) (libsql_snapshot : list Db -> SnapResult).
Context {JS : Type} (js_new : JS)
  (js_eval : bytes -> list bytes -> list bytes -> World -> nat -> JS ->
     option (RespValue * World * nat * JS)).
Let run_command := run_command now libsql_snapshot js_new js_eval.
Let exec_queue := exec_queue now libsql_snapshot js_new js_eval.
Let respond := respond now libsql_snapshot js_new js_eval.
Let client_step := client_step now libsql_snapshot js_new js_eval.

(** A data command goes through the whole chain to its handler. *)
Definition chained (cmd : bytes) : bool :=
  bool_decide (cmd ∈ [b! "SAVE"; b! "BGSAVE"; b! "FLUSHALL"; b! "EVAL"; b! "EVALSHA"]).

Definition no_db_names : list bytes :=
  [b! "PING"; b! "ECHO"; b! "SELECT"; b! "INFO"; b! "SCRIPT"; b! "CONFIG"; b! "FUNCTION";
   b! "CLIENT"; b! "SLOWLOG"; b! "REPLICAOF"; b! "QUIT"].

Lemma dispatch_none {A} (cmd : bytes) (arms : list (string * A)) :
  cmd ∉ (bytes_of_string ∘ fst <$> arms) -> dispatch cmd arms = None.
Proof.
  induction arms as [|[name arm] arms IH]; [done|]. cbn [fmap list_fmap dispatch compose fst].
  rewrite not_elem_of_cons. intros [Hne Hin]. rewrite bool_decide_false by done. by apply IH.
Qed.

Lemma run_command_data (w : World) (db_index : nat) (script : option JS) (cmd : bytes)
    (args : list bytes) (p : Prog RespValue) :
  data_command cmd args = Some p -> chained cmd = false -> cmd ∉ no_db_names ->
  run_command w db_index script cmd args =
    ('(r, w) ← run_on now w db_index p; Some (r, w, db_index, script)).
Proof.
  intros Hp Hc Hn. unfold chained in Hc. apply bool_decide_eq_false in Hc.
  rewrite !not_elem_of_cons in Hc. destruct Hc as (H1 & H2 & H3 & H4 & H5 & _).
  unfold run_command, Server.run_command, handle_save_like_command.
  rewrite !(bool_decide_false (cmd = _)) by done. cbn [orb negb].
  unfold handle_no_db_command. rewrite dispatch_none by done.
  unfold handle_command. by rewrite Hp.
Qed.

Lemma fast_path_sound (w : World) (db_index : nat) (script : option JS) (cmd : bytes)
    (args : list bytes) (p : Prog FastResponse) :
  fast_command (no_persist w) cmd args = Some p ->
  match run_on now w db_index p, run_command w db_index script cmd args with
  | Some (fr, w1), Some (r, w2, db_index', script') =>
      write_response fr = encode r /\ w1 = w2 /\ db_index' = db_index /\ script' = script
  | None, None => True
  | _, _ => False
  end.
Proof.
  intros Hp. destruct (fast_command_agrees now (Z.of_nat db_index) _ _ _ _ Hp) as (q & Hq & Hsame).
  rewrite (run_command_data _ _ _ _ _ q Hq).
  2: by destruct (fast_command_name _ _ _ _ Hp) as [-> | [-> | [-> | ->]]].
  2: { apply (bool_decide_unpack _). by destruct (fast_command_name _ _ _ _ Hp) as [-> | [-> | [-> | ->]]]. }
  unfold run_on. destruct (dbs w !! db_index) as [db|]; [|exact I]. cbn [mbind option_bind].
  specialize (Hsame (MkEnv db (persist_state w) (ticks w))). unfold same_reply in Hsame.
  destruct (run _ _ _ p _) as [[fr e1]|], (run _ _ _ q _) as [[r e2]|]; try done.
  destruct Hsame as [H1 ->]. cbn. done.
Qed.

(** *** A sequence of requests *)

(** The requests of one connection, in order: what is written for each. *)
Fixpoint client_run (conn : Conn (JS := JS)) (w : World) (vals : list RespValue)
    : option (list bytes * Conn (JS := JS) * World) :=
  match vals with
  | [] => Some ([], conn, w)
  | val :: vals' =>
      '(out, conn, w, go_on) ← client_step conn w val;
      if go_on : bool then
        '(outs, conn, w) ← client_run conn w vals'; Some (out :: outs, conn, w)
      else Some ([out], conn, w)
  end.

Definition request (c : bytes * list bytes) : RespValue := Array (Blob <$> (c.1 :: c.2)).

Lemma value_to_args_blobs (l : list bytes) : value_to_args (Array (Blob <$> l)) = inl l.
Proof.
  cbn [value_to_args]. assert (mapM arg_of_item (Blob <$> l) = Some l) as ->; [|done].
  induction l as [|x l IH]; [done|]. rewrite fmap_cons. cbn [mapM]. cbn. by rewrite IH.
Qed.

Lemma known_command (cmd : bytes) : cmd ∈ COMMANDS -> parse_command cmd = Some cmd.
Proof.
  assert (Hall : Forall (fun c : bytes => parse_command c = Some c) COMMANDS)
    by (apply (bool_decide_unpack _); vm_compute; reflexivity).
  rewrite Forall_forall in Hall. apply Hall.
Qed.

(** Commands that only the shared state and the current database answer. *)
Definition plain_command (cmd : bytes) : Prop :=
  cmd ∈ COMMANDS /\
  cmd ∉ [b! "MULTI"; b! "EXEC"; b! "DISCARD"; b! "SUBSCRIBE"; b! "PUBLISH"; b! "QUIT";
         b! "EVAL"; b! "EVALSHA"].

Lemma run_on_boxes {A} (w w' : World) (db_index : nat) (p : Prog A) (r : A) :
  run_on now w db_index p = Some (r, w') -> boxes w' = boxes w.
Proof.
  unfold run_on. destruct (dbs w !! db_index) as [db|]; [|done]. cbn [mbind option_bind].
  destruct (run _ _ _ p _) as [[r' e]|]; [|done]. cbn. by intros [= _ <-].
Qed.

Lemma run_command_boxes (w w' : World) (db_index db_index' : nat) (script script' : option JS)
    (cmd : bytes) (args : list bytes) (r : RespValue) :
  cmd <> b! "EVAL" -> cmd <> b! "EVALSHA" ->
  run_command w db_index script cmd args = Some (r, w', db_index', script') ->
  boxes w' = boxes w.
Proof.
  intros H1 H2. unfold run_command, Server.run_command.
  destruct (handle_save_like_command _ _ w cmd args) as [[r1 w1]|] eqn:E1.
  { intros [= _ <- _ _]. unfold handle_save_like_command in E1.
    destruct (negb _); [done|]. destruct args; [|by injection E1 as _ <-].
    destruct (snapshot_dbs_for_persistence now w) as [l w2] eqn:E2.
    injection E1 as _ <-. unfold snapshot_dbs_for_persistence in E2. by injection E2 as _ <-. }
  destruct (handle_no_db_command _ _ _ _ _) as [[[r1 i1] c1]|]; [by intros [= _ <- _ _]|].
  case_bool_decide as E3.
  { unfold handle_flushall_command. destruct args; by intros [= _ <- _ _]. }
  rewrite !bool_decide_false by done. cbn [orb]. unfold handle_command.
  destruct (data_command cmd args) as [p|].
  { destruct (run_on now w db_index p) as [[r1 w1]|] eqn:E4; [|done]. cbn.
    intros [= _ <- _ _]. by eapply run_on_boxes. }
  destruct (handle_meta_command _ _ _ _) as [[r1 c1]|]; by intros [= _ <- _ _].
Qed.

Definition no_messages (w : World) (id : nat) : Prop := default [] (boxes w !! id) = [].

Lemma drain_empty (w : World) (id : nat) : no_messages w id -> drain w id = ([], w).
Proof.
  unfold no_messages, drain. destruct w as [d p s sb bx t]. cbn.
  destruct (bx !! id) as [box|] eqn:E; [|done]. cbn. intros ->. by rewrite insert_id.
Qed.

(** A plain command outside MULTI: the chain, whatever fast path it has. *)
Lemma direct_step (c : Client) (script : option JS) (w : World) (cmd : bytes)
    (args : list bytes) :
  plain_command cmd -> in_multi c = false -> no_messages w (client_id c) ->
  client_step (c, script) w (request (cmd, args)) =
    ('(r, w', db_index, script') ← run_command w (current_db c) script cmd args;
     Some (encode r, (set_db c db_index, script'), w', true)).
Proof.
  intros [Hknown Hplain] Hm Hbox. rewrite !not_elem_of_cons in Hplain.
  destruct Hplain as (H1 & H2 & H3 & H4 & H5 & H6 & H7 & H8 & _).
  unfold client_step, Server.client_step, request. cbn [fst snd].
  rewrite value_to_args_blobs, (known_command cmd) by done. cbn [fst snd].
  unfold Server.respond. rewrite (bool_decide_false (cmd = b! "SUBSCRIBE")) by done.
  rewrite (bool_decide_false (cmd = b! "PUBLISH")) by done. rewrite Hm.
  rewrite (bool_decide_false (cmd = b! "QUIT")) by done. cbn [andb negb].
  destruct (fast_command (no_persist w) cmd args) as [p|] eqn:Hfast.
  - pose proof (fast_path_sound w (current_db c) script cmd args p Hfast) as Hs.
    destruct (run_on now w (current_db c) p) as [[fr w1]|] eqn:Hr,
      (run_command w (current_db c) script cmd args) as [[[[r w2] i2] s2]|]; try done.
    destruct Hs as (He & -> & -> & ->). cbn [mbind option_bind fst snd].
    rewrite drain_empty by (unfold no_messages; by rewrite (run_on_boxes _ _ _ _ _ Hr)).
    rewrite He, app_nil_r. by destruct c.
  - rewrite (bool_decide_false (cmd = b! "MULTI")), (bool_decide_false (cmd = b! "DISCARD")),
      (bool_decide_false (cmd = b! "EXEC")) by done.
    fold run_command.
    destruct (run_command w (current_db c) script cmd args) as [[[[r w2] i2] s2]|] eqn:Hr; [|done].
    cbn [mbind option_bind fst snd set_db client_id].
    rewrite drain_empty; [by rewrite app_nil_r|]. unfold no_messages.
    by rewrite (run_command_boxes _ _ _ _ _ _ _ _ _ H7 H8 Hr).
Qed.

(** Inside MULTI it is queued. *)
Lemma queue_step (c : Client) (script : option JS) (w : World) (cmd : bytes)
    (args : list bytes) :
  plain_command cmd -> in_multi c = true -> no_messages w (client_id c) ->
  client_step (c, script) w (request (cmd, args)) =
    Some (encode (StaticSimple (b! "QUEUED")),
          (set_multi c true (queued c ++ [(cmd, args)]), script), w, true).
Proof.
  intros [Hknown Hplain] Hm Hbox. rewrite !not_elem_of_cons in Hplain.
  destruct Hplain as (H1 & H2 & H3 & H4 & H5 & H6 & H7 & H8 & _).
  unfold client_step, Server.client_step, request. cbn [fst snd].
  rewrite value_to_args_blobs, (known_command cmd) by done. cbn [fst snd].
  unfold Server.respond. rewrite (bool_decide_false (cmd = b! "SUBSCRIBE")) by done.
  rewrite (bool_decide_false (cmd = b! "PUBLISH")) by done. rewrite Hm.
  rewrite (bool_decide_false (cmd = b! "QUIT")) by done.
  rewrite (bool_decide_false (cmd ∈ _)) by set_solver. cbn [andb negb mbind option_bind].
  cbn [fst snd set_multi client_id]. rewrite drain_empty by done. by rewrite app_nil_r.
Qed.

Lemma run_queued (cmds : list (bytes * list bytes)) : forall (c : Client) (script : option JS) (w : World),
  Forall (fun q => plain_command q.1) cmds -> in_multi c = true -> no_messages w (client_id c) ->
  client_run (c, script) w (request <$> cmds) =
    Some ((fun _ => encode (StaticSimple (b! "QUEUED"))) <$> cmds,
          (set_multi c true (queued c ++ cmds), script), w).
Proof.
  induction cmds as [|[cmd args] cmds IH]; intros c script w Hall Hm Hbox.
  { cbn. rewrite app_nil_r. destruct c; simpl in *; by subst. }
  apply Forall_cons in Hall as [Hcmd Hall]. rewrite !fmap_cons. cbn [client_run].
  rewrite queue_step by done. cbn [mbind option_bind].
  rewrite IH by done. cbn. by rewrite <- app_assoc.
Qed.

Lemma run_direct (cmds : list (bytes * list bytes)) : forall (c : Client) (script : option JS) (w : World),
  Forall (fun q => plain_command q.1) cmds -> in_multi c = false -> no_messages w (client_id c) ->
  client_run (c, script) w (request <$> cmds) =
    match exec_queue w (current_db c) script cmds with
    | Some (rs, w', db_index, script') =>
        Some (map encode rs, (set_db c db_index, script'), w')
    | None => None
    end.
Proof.
  induction cmds as [|[cmd args] cmds IH]; intros c script w Hall Hm Hbox.
  { cbn. by destruct c. }
  apply Forall_cons in Hall as [Hcmd Hall]. rewrite fmap_cons. cbn [client_run].
  rewrite direct_step by done. unfold exec_queue. cbn [Server.exec_queue]. fold run_command.
  destruct (run_command w (current_db c) script cmd args) as [[[[r w1] i1] s1]|] eqn:Hr; [|done].
  cbn [mbind option_bind].
  assert (Hbox1 : no_messages w1 (client_id c)).
  { destruct Hcmd as [_ Hplain]. unfold no_messages.
    erewrite run_command_boxes; [exact Hbox| | |exact Hr]; intros ->; apply Hplain; set_solver. }
  rewrite IH by done. change (current_db (set_db c i1)) with i1. fold exec_queue.
  by destruct (exec_queue w1 i1 s1 cmds) as [[[[rs w2] i2] s2]|].
Qed.

Lemma exec_queue_boxes (cmds : list (bytes * list bytes)) : forall w db_index script r,
  Forall (fun q => plain_command q.1) cmds ->
  exec_queue w db_index script cmds = Some r -> boxes r.1.1.2 = boxes w.
Proof.
  unfold exec_queue.
  induction cmds as [|[cmd args] cmds IH]; intros w db_index script r Hall;
    cbn [Server.exec_queue]; [by intros [= <-]|].
  apply Forall_cons in Hall as [[_ Hplain] Hall]. fold run_command.
  destruct (run_command w db_index script cmd args) as [[[[x w1] i1] s1]|] eqn:Hr; [|done].
  cbn [mbind option_bind].
  destruct (Server.exec_queue _ _ _ _ w1 i1 s1 cmds) as [[[[rs w2] i2] s2]|] eqn:He; [|done].
  cbn. intros [= <-]. cbn. apply IH in He; [|done]. cbn in He. rewrite He.
  eapply run_command_boxes; [| |exact Hr]; intros ->; apply Hplain; set_solver.
Qed.

Lemma multi_step (c : Client) (script : option JS) (w : World) :
  in_multi c = false -> no_messages w (client_id c) ->
  client_step (c, script) w (request (b! "MULTI", [])) =
    Some (encode OK, (set_multi c true [], script), w, true).
Proof.
  intros Hm Hbox. unfold client_step, Server.client_step, request. cbn [fst snd].
  rewrite value_to_args_blobs, known_command by (apply (bool_decide_unpack _); by vm_compute).
  unfold Server.respond. cbn [fst snd]. rewrite Hm.
  rewrite (bool_decide_false (b! "MULTI" = b! "SUBSCRIBE")),
    (bool_decide_false (b! "MULTI" = b! "PUBLISH")),
    (bool_decide_true (b! "MULTI" = b! "MULTI")),
    (bool_decide_false (b! "MULTI" = b! "QUIT")) by done.
  change (fast_command (no_persist w) (b! "MULTI") []) with (@None (Prog FastResponse)).
  cbn [andb negb mbind option_bind fst snd set_multi client_id].
  rewrite drain_empty by done. by rewrite app_nil_r.
Qed.

Lemma discard_step (c : Client) (script : option JS) (w : World) :
  in_multi c = true -> no_messages w (client_id c) ->
  client_step (c, script) w (request (b! "DISCARD", [])) =
    Some (encode OK, (set_multi c false [], script), w, true).
Proof.
  intros Hm Hbox. unfold client_step, Server.client_step, request. cbn [fst snd].
  rewrite value_to_args_blobs, known_command by (apply (bool_decide_unpack _); by vm_compute).
  unfold Server.respond. cbn [fst snd]. rewrite Hm.
  rewrite (bool_decide_false (b! "DISCARD" = b! "SUBSCRIBE")),
    (bool_decide_false (b! "DISCARD" = b! "PUBLISH")),
    (bool_decide_false (b! "DISCARD" = b! "MULTI")),
    (bool_decide_true (b! "DISCARD" = b! "DISCARD")),
    (bool_decide_false (b! "DISCARD" = b! "QUIT")) by done.
  rewrite bool_decide_true by (apply (bool_decide_unpack _); by vm_compute).
  cbn [andb negb mbind option_bind fst snd set_multi client_id].
  rewrite drain_empty by done. by rewrite app_nil_r.
Qed.

Lemma exec_step (c : Client) (script : option JS) (w : World) :
  in_multi c = true -> no_messages w (client_id c) ->
  Forall (fun q => plain_command q.1) (queued c) ->
  client_step (c, script) w (request (b! "EXEC", [])) =
    match exec_queue w (current_db c) script (queued c) with
    | Some (rs, w', db_index, script') =>
        Some (encode (Array rs), (set_db (set_multi c false []) db_index, script'), w', true)
    | None => None
    end.
Proof.
  intros Hm Hbox Hall. unfold client_step, Server.client_step, request. cbn [fst snd].
  rewrite value_to_args_blobs, known_command by (apply (bool_decide_unpack _); by vm_compute).
  unfold Server.respond. cbn [fst snd]. rewrite Hm.
  rewrite (bool_decide_false (b! "EXEC" = b! "SUBSCRIBE")),
    (bool_decide_false (b! "EXEC" = b! "PUBLISH")),
    (bool_decide_false (b! "EXEC" = b! "MULTI")),
    (bool_decide_false (b! "EXEC" = b! "DISCARD")),
    (bool_decide_true (b! "EXEC" = b! "EXEC")),
    (bool_decide_false (b! "EXEC" = b! "QUIT")) by done.
  rewrite bool_decide_true by (apply (bool_decide_unpack _); by vm_compute).
  cbn [andb negb]. fold exec_queue.
  destruct (exec_queue w (current_db c) script (queued c)) as [[[[rs w'] i'] s']|] eqn:He; [|done].
  cbn [mbind option_bind fst snd set_db set_multi client_id].
  rewrite drain_empty; [by rewrite app_nil_r|]. unfold no_messages.
  pose proof (exec_queue_boxes _ _ _ _ _ Hall He) as Hb. cbn in Hb. by rewrite Hb.
Qed.

Lemma client_run_app (l1 l2 : list RespValue) : forall (conn : Conn (JS := JS)) (w : World)
    outs conn1 w1,
  client_run conn w l1 = Some (outs, conn1, w1) ->
  Forall (fun v => forall conn w r, client_step conn w v = Some r -> r.2 = true) l1 ->
  client_run conn w (l1 ++ l2) =
    match client_run conn1 w1 l2 with
    | Some (outs2, conn2, w2) => Some (outs ++ outs2, conn2, w2)
    | None => None
    end.
Proof.
  induction l1 as [|v l1 IH]; intros conn w outs conn1 w1 Hr Hall; cbn [app client_run] in *.
  { injection Hr as <- <- <-. by destruct (client_run _ _ l2) as [[[? ?] ?]|]. }
  apply Forall_cons in Hall as [Hv Hall].
  destruct (client_step conn w v) as [[[[out c1] w2] go]|] eqn:Hs; [|done].
  apply Hv in Hs. cbn in Hs. subst go. cbn [mbind option_bind] in *.
  destruct (client_run c1 w2 l1) as [[[outs' c2] w3]|] eqn:Hr1; [|done]. cbn in Hr.
  injection Hr as <- <- <-. rewrite (IH _ _ _ _ _ Hr1) by done.
  by destruct (client_run c2 w3 l2) as [[[? ?] ?]|].
Qed.

Lemma goes_on (cmd : bytes) (args : list bytes) (conn : Conn (JS := JS)) (w : World) r :
  cmd ∈ COMMANDS -> cmd <> b! "QUIT" ->
  client_step conn w (request (cmd, args)) = Some r -> r.2 = true.
Proof.
  intros Hknown Hquit. unfold client_step, Server.client_step, request. cbn [fst snd].
  rewrite value_to_args_blobs, (known_command cmd) by done.
  destruct (Server.respond _ _ _ _ _ _ _ _ _) as [[[resp c1] w1]|]; [|done].
  cbn [mbind option_bind]. destruct (drain w1 (client_id c1.1)) as [m w2].
  rewrite (bool_decide_false (cmd = b! "QUIT")) by done.
  by intros [= <-].
Qed.

Lemma plain_goes_on (cmds : list (bytes * list bytes)) :
  Forall (fun q => plain_command q.1) cmds ->
  Forall (fun v => forall conn w r, client_step conn w v = Some r -> r.2 = true)
    (request <$> cmds).
Proof.
  intros Hall. apply Forall_fmap. eapply Forall_impl; [exact Hall|].
  intros [cmd args] [Hk Hp] conn w1 r. apply goes_on; [done|].
  intros H1. apply Hp. cbn in *. subst cmd. set_solver.
Qed.

(** A run of one value. *)
Lemma client_run_one (conn : Conn (JS := JS)) (w : World) (v : RespValue) :
  client_run conn w [v] = option_map (fun r => ([r.1.1.1], r.1.1.2, r.1.2)) (client_step conn w v).
Proof.
  cbn [client_run]. by destruct (client_step conn w v) as [[[[out c1] w1] []]|].
Qed.

(** MULTI, the queued commands, and what ends the transaction. *)
Lemma multi_tail (c : Client) (script : option JS) (w : World)
    (cmds : list (bytes * list bytes)) (v : RespValue) :
  Forall (fun q => plain_command q.1) cmds -> in_multi c = false -> no_messages w (client_id c) ->
  client_run (c, script) w (request (b! "MULTI", []) :: (request <$> cmds) ++ [v]) =
    match client_run (set_multi c true cmds, script) w [v] with
    | Some (outs, conn, w') =>
        Some (encode OK :: ((fun _ => encode (StaticSimple (b! "QUEUED"))) <$> cmds) ++ outs,
              conn, w')
    | None => None
    end.
Proof.
  intros Hall Hm Hbox.
  change (request (b! "MULTI", []) :: (request <$> cmds) ++ [v]) with
    ([request (b! "MULTI", [])] ++ (request <$> cmds) ++ [v]).
  erewrite client_run_app;
    [|by rewrite client_run_one, multi_step by done|
      apply Forall_singleton; intros; eapply goes_on; [| |done]; [|done];
      apply (bool_decide_unpack _); by vm_compute].
  erewrite client_run_app; [|by apply run_queued|by apply plain_goes_on].
  change (queued (set_multi c true []) ++ cmds) with cmds.
  change (set_multi (set_multi c true []) true cmds) with (set_multi c true cmds).
  cbn [fst snd]. by destruct (client_run (set_multi c true cmds, script) w [v]) as [[[? ?] ?]|].
Qed.
End Server.

(** ** Properties *)

(** C23: the shortcuts of the connection loop for SET, GET, HSET and LRANGE are
    indistinguishable from the full chain and the handlers they bypass: on every database,
    for every argument and every stored type they write the same bytes, leave the same
    shared state (nothing is logged when nothing is persisted), and panic in the same
    cases. *)
Theorem fast_path_equals_handler `{RustStd} (now : nat -> Z)
    (libsql_snapshot : list Db -> SnapResult) {JS : Type} (js_new : JS)
    (js_eval : bytes -> list bytes -> list bytes -> World -> nat -> JS ->
       option (RespValue * World * nat * JS))
    (w : World) (db_index : nat) (script : option JS) (cmd : bytes) (args : list bytes)
    (p : Prog FastResponse) (Hfast : fast_command (no_persist w) cmd args = Some p) :
  match run_on now w db_index p,
    run_command now libsql_snapshot js_new js_eval w db_index script cmd args with
  | Some (fr, w1), Some (r, w2, db_index', script') =>
      write_response fr = encode r /\ w1 = w2 /\ db_index' = db_index /\ script' = script
  | None, None => True
  | _, _ => False
  end.
Proof. by apply fast_path_sound. Qed.

Definition empty_world : World := MkWorld (replicate 16 Db.new) None ∅ ∅ ∅ 0.
Definition no_js (_ : bytes) (_ _ : list bytes) (w : World) (i : nat) (u : unit) :
  option (RespValue * World * nat * unit) := Some (Null, w, i, u).

Lemma fast_path_equals_handler_witness :
  exists fr r w1 s',
    run_on (fun _ => 7) empty_world 3 (handle_lrange_fast [b! "k"; b! "0"; b! "-1"]) = Some (fr, w1) /\
    run_command (fun _ => 7) (fun _ => SnapOk) tt no_js empty_world 3 None (b! "LRANGE")
      [b! "k"; b! "0"; b! "-1"] = Some (r, w1, 3%nat, s') /\ write_response fr = encode r.
Proof.
  pose proof (fast_path_equals_handler (fun _ => 7) (fun _ => SnapOk) tt no_js empty_world 3 None
    (b! "LRANGE") [b! "k"; b! "0"; b! "-1"] _ eq_refl) as Hp.
  destruct (run_on _ _ _ _) as [[fr w1]|] eqn:E1; [|vm_compute in E1; done].
  destruct (run_command _ _ _ _ _ _ _ _ _) as [[[[r w2] i2] s2]|]; [|done].
  destruct Hp as (H1 & -> & -> & ->). by exists fr, r, w2, None.
Defined.

(** C19: a transaction is the commands in order.  For a connection outside MULTI with no message
    waiting, and any list of known commands other than MULTI, EXEC, DISCARD and QUIT, SUBSCRIBE and
    PUBLISH, EVAL and EVALSHA: between MULTI and EXEC every one is answered QUEUED and touches
    nothing; EXEC answers the array of exactly the replies the same commands give when they are
    sent directly, in the same order, and leaves the same connection and the same shared state (a
    queued SELECT moves the later commands to its database), and it panics exactly when the direct
    run does; DISCARD instead forgets the queue and leaves everything as before MULTI. *)
Theorem multi_exec_is_the_sequence `{RustStd} (now : nat -> Z)
    (libsql_snapshot : list Db -> SnapResult) {JS : Type} (js_new : JS)
    (js_eval : bytes -> list bytes -> list bytes -> World -> nat -> JS ->
       option (RespValue * World * nat * JS))
    (c : Client) (script : option JS) (w : World) (cmds : list (bytes * list bytes))
    (Hplain : Forall (fun q => plain_command q.1) cmds) (Hm : in_multi c = false)
    (Hq : queued c = []) (Hbox : no_messages w (client_id c)) :
  let run := client_run now libsql_snapshot js_new js_eval (c, script) w in
  let queued_replies := (fun _ => encode (StaticSimple (b! "QUEUED"))) <$> cmds in
  match run (request <$> cmds) with
  | Some (rs, conn', w') => exists replies, rs = map encode replies /\
      run (request (b! "MULTI", []) :: (request <$> cmds) ++ [request (b! "EXEC", [])]) =
        Some (encode OK :: queued_replies ++ [encode (Array replies)], conn', w')
  | None => run (request (b! "MULTI", []) :: (request <$> cmds) ++ [request (b! "EXEC", [])]) = None
  end /\
  run (request (b! "MULTI", []) :: (request <$> cmds) ++ [request (b! "DISCARD", [])]) =
    Some (encode OK :: queued_replies ++ [encode OK], (c, script), w).
Proof.
  cbv zeta. rewrite run_direct by done. rewrite !multi_tail by done.
  rewrite client_run_one, client_run_one, exec_step, discard_step by done.
  change (queued (set_multi c true cmds)) with cmds.
  change (current_db (set_multi c true cmds)) with (current_db c).
  assert (Hback : set_multi (set_multi c true cmds) false [] = c)
    by (destruct c; cbn in *; by subst). rewrite !Hback. split; [|done].
  destruct (exec_queue _ _ _ _ w (current_db c) script cmds) as [[[[replies w1] i1] s1]|]; [|done].
  by exists replies.
Qed.

(** The queue may hold any command that is not about the connection itself. *)
Lemma multi_exec_is_the_sequence_witness :
  exists replies w',
    client_run (fun _ => 7) (fun _ => SnapOk) tt no_js (new_client 1, None) empty_world
      [request (b! "MULTI", []); request (b! "SELECT", [b! "2"]);
       request (b! "RPUSH", [b! "k"; b! "a"]); request (b! "EXEC", [])] =
    Some ([encode OK; encode (StaticSimple (b! "QUEUED")); encode (StaticSimple (b! "QUEUED"));
           encode (Array replies)], (MkClient 1 2 false [], None), w').
Proof.
  destruct (client_run (fun _ => 7) (fun _ => SnapOk) tt no_js (new_client 1, None) empty_world
      (request <$> [(b! "SELECT", [b! "2"]); (b! "RPUSH", [b! "k"; b! "a"])])) as [[[rs cn] w']|]
    eqn:E; [|vm_compute in E; done].
  pose proof (multi_exec_is_the_sequence (fun _ => 7) (fun _ => SnapOk) tt no_js (new_client 1) None
    empty_world [(b! "SELECT", [b! "2"]); (b! "RPUSH", [b! "k"; b! "a"])]) as Hc.
  cbv zeta in Hc. rewrite E in Hc. destruct Hc as [(replies & Hrs & Hrun) _].
  - apply (bool_decide_unpack _). by vm_compute.
  - done.
  - done.
  - done.
  - exists replies, w'.
    assert (cn = (MkClient 1 2 false [], None)) as <-; [|exact Hrun].
    assert (Hcn : (snd ∘ fst <$> client_run (fun _ => 7) (fun _ => SnapOk) tt no_js
      (new_client 1, None) empty_world
      (request <$> [(b! "SELECT", [b! "2"]); (b! "RPUSH", [b! "k"; b! "a"])])) =
      Some (MkClient 1 2 false [], None)) by by vm_compute.
    rewrite E in Hcn. by injection Hcn.
Defined.
