(* ===== verification/WorldSpec.v ===== *)
(** * WorldSpec: the shared state seen from every connection

    What SAVE copies, which databases a command can touch, what a publication reaches, and
    how a stream of pipelined requests is answered. *)
From Stdlib Require Import SpecFloat.
From S2P Require Import Prelude.
From S2P Require Import IntCodec.
From S2P Require Import Utf8.
From S2P Require Import HashStore.
From S2P Require Import Shard.
From S2P Require Import ShardOps.
From S2P Require Import Db.
From S2P Require Import DbSpec.
From S2P Require Import Resp.
From S2P Require Import ServerArgs.
From S2P Require Import Persist.
From S2P Require Import Calls.
From S2P Require Import Handlers.
From S2P Require Import HandlerSpec.
From S2P Require Import CommandSpec.
From S2P Require Import Scripts.
From S2P Require Import Server.
From S2P Require Import ServerSpec.

(** ** The copy a snapshot takes *)

(** The entry a key has in its bucket, expired or not. *)
Definition entry_at (db : Db) (key : bytes) : option Entry := shard db key !! key.

Lemma db_abs_entry (now : Z) (db : Db) (key : bytes) : db_wf db ->
  db_abs now db !! key = entry_at db key ≫= abs_entry now.
Proof. intros Hwf. by rewrite db_abs_lookup, abs_lookup. Qed.

Lemma put_is (db : Db) (key : bytes) (v : Value) (ex : option Z) :
  Db.set_with_expire_at db key v ex =
    put_shard db key (<[key := MkEntry v ex]> (shard db key)).
Proof. done. Qed.

Lemma put_entry (db : Db) (key k : bytes) (v : Value) (ex : option Z) : db_wf db ->
  entry_at (Db.set_with_expire_at db key v ex) k =
    if decide (k = key) then Some (MkEntry v ex) else entry_at db k.
Proof.
  intros Hwf. unfold entry_at. rewrite put_is.
  destruct (decide (k = key)) as [->|Hne].
  - rewrite shard_put_eq by done. apply lookup_insert_eq.
  - destruct (decide (shard_index k = shard_index key)) as [Hi|Hi].
    + rewrite shard_put_same by done. rewrite lookup_insert_ne by done. unfold shard. by rewrite Hi.
    + by rewrite shard_put_ne.
Qed.

Lemma put_wf (db : Db) (key : bytes) (v : Value) (ex : option Z) : db_wf db -> value_wf v ->
  db_wf (Db.set_with_expire_at db key v ex).
Proof.
  intros Hwf Hv. rewrite put_is. apply put_shard_wf; [done|]. destruct (shard_lookup db key Hwf) as [_ Hat].
  eapply same_but_at; [done|exact Hat| |].
  - by apply same_but_insert.
  - apply shard_wf_insert; [apply Hat|done].
Qed.

Definition item : Type := bytes * Value * option Z.
Definition put_item (db : Db) (x : item) : Db := Db.set_with_expire_at db x.1.1 x.1.2 x.2.
Definition item_entry (x : item) : bytes * Entry := (x.1.1, MkEntry x.1.2 x.2).

Lemma put_items (items : list item) : forall db, db_wf db ->
  Forall (fun x => value_wf x.1.2) items -> NoDup (items.*1.*1) ->
  db_wf (foldl put_item db items) /\
  forall k, entry_at (foldl put_item db items) k =
    match (list_to_map (item_entry <$> items) : gmap bytes Entry) !! k with
    | Some e => Some e
    | None => entry_at db k
    end.
Proof.
  induction items as [|[[key v] ex] items IH]; intros db Hwf Hv Hnd.
  { split; [done|]. intros k. cbn. by rewrite lookup_empty. }
  apply Forall_cons in Hv as [Hv0 Hv]. cbn in Hnd. apply NoDup_cons in Hnd as [Hnew Hnd].
  cbn [foldl]. destruct (IH (put_item db (key, v, ex))) as [H1 H2]; [by apply put_wf|done|done|].
  split; [done|]. intros k. rewrite H2. cbn [fmap list_fmap list_to_map].
  change (item_entry (key, v, ex)) with (key, MkEntry v ex). cbn [list_to_map foldr uncurry].
  unfold put_item. cbn [fst snd]. rewrite put_entry by done.
  destruct (decide (k = key)) as [->|Hne].
  - rewrite lookup_insert_eq. rewrite not_elem_of_list_to_map_1; [done|].
    rewrite <- list_fmap_compose. intros Hin. apply Hnew.
    by rewrite <- list_fmap_compose.
  - by rewrite lookup_insert_ne.
Qed.

Section Snapshot.
Context `{RustStd} (now : Z).

Definition shard_items (s : Shard) : list item :=
  (fun p => (p.1, value p.2, expires_at p.2)) <$> hm_iter (Shard.purge_expired_all now s).

Lemma snapshot_items_is (db : Db) :
  Db.snapshot_items (fun _ => now) alone db =
    (concat (shard_items <$> shards db), MkDb (Shard.purge_expired_all now <$> shards db)).
Proof.
  transitivity (let rs := (fun s => Shard.snapshot_items now s) <$> shards db in
    (concat rs.*1, MkDb rs.*2)).
  { unfold Db.snapshot_items. by rewrite (each_shard_same (fun s => Shard.snapshot_items now s)). }
  cbn zeta. by rewrite <- !list_fmap_compose.
Qed.

Lemma elem_of_hm_iter {V} (m : gmap bytes V) (k : bytes) (x : V) :
  (k, x) ∈ hm_iter m <-> m !! k = Some x.
Proof. rewrite hm_iter_perm. apply elem_of_map_to_list. Qed.

Lemma snapshot_item (db : Db) (k : bytes) (e : Entry) : db_wf db ->
  (k, e) ∈ item_entry <$> concat (shard_items <$> shards db) <->
  entry_at db k = Some e /\ live now e = true.
Proof.
  intros Hwf. assert (Hp : forall s, Shard.purge_expired_all now s !! k = Some e <->
    s !! k = Some e /\ live now e = true).
  { intros s. rewrite purge_lookup. destruct (s !! k) as [e'|]; [|by split; [|intros []]].
    destruct (live now e') eqn:Hl; split; [by intros [= ->]|by intros [[= ->] _]|done|].
    intros [[= ->] Hl']. congruence. }
  unfold entry_at. rewrite <- Hp. rewrite list_elem_of_fmap. setoid_rewrite list_elem_of_In.
  setoid_rewrite in_concat. split.
  - intros (x & Hx & l & Hl & Hin). apply list_elem_of_In in Hl, Hin.
    apply list_elem_of_fmap in Hl as (s & -> & Hs).
    apply list_elem_of_fmap in Hin as ([k' e'] & -> & He). cbn in Hx. destruct e'.
    injection Hx as <- ->. apply elem_of_hm_iter in He.
    apply list_elem_of_lookup in Hs as [i Hi]. destruct Hwf as [Hlen Hat].
    destruct (Hat i s Hi) as [_ Hk]. unfold shard.
    rewrite <- (Hk k) in Hi by (apply Hp in He as [He _]; eauto). by rewrite Hi.
  - intros He. exists (k, value e, expires_at e). split; [by destruct e|].
    exists (shard_items (shard db k)). rewrite <- !list_elem_of_In. split.
    + apply list_elem_of_fmap_2. eapply list_elem_of_lookup_2. by apply shard_lookup.
    + apply list_elem_of_fmap. exists (k, e). split; [done|]. by apply elem_of_hm_iter.
Qed.

Lemma snapshot_keys (db : Db) : db_wf db ->
  NoDup ((concat (shard_items <$> shards db)).*1.*1).
Proof.
  intros Hwf.
  assert (Hp : (concat (shard_items <$> shards db)).*1.*1 ≡ₚ flat_keys (db_abs now db)).
  { transitivity (concat ((fun s => flat_keys (abs now s)) <$> shards db));
      [|by apply (concat_keys_perm now _ 0), Hwf].
    clear Hwf. induction (shards db) as [|s ss IH]; [done|].
    rewrite fmap_cons. cbn [concat]. rewrite !fmap_app, IH. apply Permutation_app_tail.
    rewrite <- (shard_keys now s). unfold shard_items. by rewrite <- !list_fmap_compose. }
  rewrite Hp. apply NoDup_fst_map_to_list.
Qed.

Lemma snapshot_db_spec (db : Db) : db_wf db ->
  let '(copy, db') := snapshot_db now db in
  db_wf copy /\ db_wf db' /\ db_abs now db' = db_abs now db /\
  (forall later, now <= later -> db_abs later copy = db_abs later db).
Proof.
  intros Hwf. unfold snapshot_db. rewrite snapshot_items_is.
  set (items := concat (shard_items <$> shards db)).
  change (foldl _ Db.new items) with (foldl put_item Db.new items).
  destruct (put_items items Db.new) as [Hwf' Hentry]; [apply new_wf| |by apply snapshot_keys|].
  { apply Forall_forall. intros [[k v] ex] Hin.
    assert (Hi : (k, MkEntry v ex) ∈ item_entry <$> items)
      by (apply list_elem_of_fmap; by exists (k, v, ex)).
    apply snapshot_item in Hi as [Hi _]; [|done].
    exact (shard_wf_lookup _ _ _ (shard_wf_of db k Hwf) Hi). }
  destruct (fmap_shards now db (Shard.purge_expired_all now) Hwf) as [H1 H2].
  { intros i s Hs. split; [by apply purge_at|apply purge_abs]. }
  split_and!; [done|done|done|].
  intros later Hl. apply map_eq. intros k. rewrite !db_abs_entry, Hentry by done.
  assert (entry_at Db.new k = None) as ->.
  { destruct (shard_lookup Db.new k new_wf) as [Hs _]. unfold entry_at.
    apply lookup_replicate in Hs as [Hs _]. by rewrite Hs. }
  assert (Hnd : NoDup ((item_entry <$> items).*1)).
  { rewrite <- list_fmap_compose. pose proof (snapshot_keys db Hwf) as Hnd.
    by rewrite <- list_fmap_compose in Hnd. }
  destruct (list_to_map (item_entry <$> items) !! k) as [e|] eqn:Hm.
  - apply elem_of_list_to_map in Hm; [|done]. by apply snapshot_item in Hm as [-> _].
  - destruct (entry_at db k) as [e|] eqn:He; [|done]. cbn. symmetry.
    unfold abs_entry. destruct (live later e) eqn:Hlive; [|done]. exfalso.
    apply not_elem_of_list_to_map in Hm. apply Hm. apply list_elem_of_fmap.
    exists (k, e). split; [done|]. apply snapshot_item; [done|]. split; [done|].
    unfold live in *. destruct (expires_at e) as [ts|]; [|done].
    apply negb_true_iff, Z.leb_gt in Hlive. apply negb_true_iff, Z.leb_gt. lia.
Qed.
End Snapshot.

(** ** The read loop as a run over the requests in the input *)

Section Requests.
Context `{RustStd}.












End Requests.

Section Loop.
Context `{RustStd} (now : nat -> Z) (libsql_snapshot : list Db -> SnapResult).
Context {JS : Type} (js_new : JS)
  (js_eval : bytes -> list bytes -> list bytes -> World -> nat -> JS ->
     option (RespValue * World * nat * JS)).
#[local] Notation run_command := (Server.run_command now libsql_snapshot js_new js_eval).
#[local] Notation exec_queue := (Server.exec_queue now libsql_snapshot js_new js_eval).
#[local] Notation respond := (Server.respond now libsql_snapshot js_new js_eval).
#[local] Notation client_step := (Server.client_step now libsql_snapshot js_new js_eval).
#[local] Notation client_run := (ServerSpec.client_run now libsql_snapshot js_new js_eval).
#[local] Notation handle_client := (Server.handle_client now libsql_snapshot js_new js_eval).


(** *** What a command does to the shared state *)

Definition world_ok (w : World) : Prop := Forall db_wf (dbs w).


Lemma select_range (args : list bytes) (i n : nat) : (i < n)%nat -> ((cmd_SELECT args i n).2 < n)%nat.
Proof.
  intros Hi. unfold cmd_SELECT. destruct (head args ≫= parse_usize) as [idx|] eqn:Hp; [|done].
  destruct (Z.ltb_spec idx (Z.of_nat n)); [|done]. cbn.
  destruct args as [|a args]; [done|]. change (parse_u64 a = Some idx) in Hp.
  apply parse_u64_range in Hp. lia.
Qed.

Lemma no_db_index (cmd : bytes) (args : list bytes) (cache cache' : gmap bytes bytes)
    (i i' n : nat) (r : RespValue) :
  handle_no_db_command cmd args cache i n = Some (r, i', cache') ->
  (i' = i \/ cmd = b! "SELECT") /\ ((i < n)%nat -> (i' < n)%nat).
Proof.
  intros Hd. unfold handle_no_db_command in Hd.
  refine (dispatch_arms (fun c (x : RespValue * nat * gmap bytes bytes) =>
    (x.1.2 = i \/ c = b! "SELECT") /\ ((i < n)%nat -> (x.1.2 < n)%nat)) _ _ _ _ Hd).
  repeat (apply Forall_cons; split; [intros E; cbn [fst snd]|]); [..|by apply Forall_nil];
    try (split; [by left|done]).
  split; [by right|]. apply select_range.
Qed.




Hypothesis Hmono : forall t, now t <= now (S t).




(** *** One request *)






End Loop.

(** ** Publications *)

(** How often a connection stands in a subscription list. *)
Definition times (id : nat) (ids : list nat) : nat := length (filter (fun x => x = id) ids).

(** The messages not yet written, over all connections. *)
Definition waiting (boxes : gmap nat (list RespValue)) : Z :=
  map_fold (fun _ box n => Z.of_nat (length box) + n) 0 boxes.

Lemma waiting_insert (boxes : gmap nat (list RespValue)) (id : nat) (box : list RespValue) :
  boxes !! id = None -> waiting (<[id := box]> boxes) = Z.of_nat (length box) + waiting boxes.
Proof. intros Hid. unfold waiting. rewrite map_fold_insert_L; [done| |done]. intros. lia. Qed.

Lemma waiting_grow (boxes : gmap nat (list RespValue)) (id : nat) (box : list RespValue)
    (msg : RespValue) :
  boxes !! id = Some box -> waiting (<[id := box ++ [msg]]> boxes) = waiting boxes + 1.
Proof.
  intros Hid. rewrite <- (insert_delete_id boxes id box Hid) at 2.
  rewrite <- insert_delete_eq. rewrite !waiting_insert by apply lookup_delete_eq.
  rewrite length_app. simpl. lia.
Qed.

Lemma publish_loop_spec (ids : list nat) (msg : RespValue) : forall boxes n,
  let r := publish_loop ids msg boxes n in
  r.1 - n = waiting r.2 - waiting boxes /\
  forall id, r.2 !! id = (fun box => box ++ replicate
    (Nat.min (times id ids) (PUBSUB_CHANNEL_CAPACITY - length box)) msg) <$> boxes !! id.
Proof.
  induction ids as [|x ids IH]; intros boxes n; cbn [publish_loop].
  { split; [cbn; lia|]. intros id. cbn. destruct (boxes !! id); [|done]. cbn. by rewrite app_nil_r. }
  unfold try_send. destruct (boxes !! x) as [box|] eqn:Hx.
  - destruct (Nat.ltb_spec (length box) PUBSUB_CHANNEL_CAPACITY) as [Hroom|Hfull].
    + destruct (IH (<[x := box ++ [msg]]> boxes) (n + 1)) as [H1 H2]. split.
      { rewrite (waiting_grow _ _ _ _ Hx) in H1. lia. }
      intros id. rewrite H2. unfold times. rewrite filter_cons.
      destruct (decide (x = id)) as [->|Hne].
      * rewrite lookup_insert_eq, Hx. cbn [fmap option_fmap option_map]. f_equal.
        rewrite length_app, <- app_assoc. f_equal. cbn [length].
        symmetry. apply (f_equal (fun k => replicate k msg) (y := S _)). lia.
      * by rewrite lookup_insert_ne.
    + destruct (IH boxes n) as [H1 H2]. split; [done|]. intros id. rewrite H2.
      unfold times. rewrite filter_cons. destruct (decide (x = id)) as [->|]; [|done].
      rewrite Hx. cbn [fmap option_fmap option_map]. do 3 f_equal. lia.
  - destruct (IH boxes n) as [H1 H2]. split; [done|]. intros id. rewrite H2.
    unfold times. rewrite filter_cons. destruct (decide (x = id)) as [->|]; [|done].
    by rewrite Hx.
Qed.

Lemma subscribe_loop (id : nat) (channels : list bytes) : forall (m : gmap bytes (list nat)) (ch : bytes) (i : nat),
  times i (default [] (foldl (fun m ch => <[ch := default [] (m !! ch) ++ [id]]> m) m channels !! ch)) =
    (times i (default [] (m !! ch)) +
     if decide (i = id) then length (filter (fun c => c = ch) channels) else 0)%nat.
Proof.
  induction channels as [|c channels IH]; intros m ch i.
  { cbn. destruct (decide _); lia. }
  cbn [foldl]. rewrite IH, filter_cons. destruct (decide (c = ch)) as [->|Hne].
  - rewrite lookup_insert_eq. unfold times.
    change (default [] (Some ?l)) with l. rewrite filter_app, length_app, filter_cons, filter_nil.
    destruct (decide (id = i)), (decide (i = id)); subst; simpl; lia || congruence.
  - by rewrite lookup_insert_ne.
Qed.

(** ** Isolation *)

Lemma run_on_others {A} `{RustStd} (now : nat -> Z) (w w' : World) (db_index : nat) (p : Prog A)
    (r : A) : run_on now w db_index p = Some (r, w') ->
  length (dbs w') = length (dbs w) /\ forall j, j <> db_index -> dbs w' !! j = dbs w !! j.
Proof.
  unfold run_on. destruct (dbs w !! db_index) as [db|]; [|done]. cbn [mbind option_bind].
  destruct (run _ _ _ p _) as [[r' e]|]; [|done]. cbn [mbind option_bind]. intros [= _ <-]. cbn.
  rewrite length_insert. split; [done|]. intros j Hj. by rewrite list_lookup_insert_ne.
Qed.

(** ** Replies to unknown commands *)

Lemma no_command_has_cr (name : bytes) : 13 ∈ name -> parse_command name = None.
Proof.
  intros Hin. unfold parse_command. destruct (16 <? length name)%nat; [done|].
  rewrite bool_decide_false; [done|].
  assert (Hall : Forall (fun c : bytes => ~ 13 ∈ c) COMMANDS)
    by (apply (bool_decide_unpack _); by vm_compute).
  rewrite Forall_forall in Hall. intros Hc. apply (Hall _ Hc).
  apply list_elem_of_fmap. by exists 13.
Qed.

(** ** Properties *)





(** databases are isolated.  A command other than FLUSHALL, SAVE, BGSAVE and the script
    commands leaves every other database of the world exactly as it was, keeps the number
    of databases, and only SELECT moves the connection, to an index that exists. *)
Theorem databases_isolated `{RustStd} (now : nat -> Z)
    (libsql_snapshot : list Db -> SnapResult) {JS : Type} (js_new : JS)
    (js_eval : bytes -> list bytes -> list bytes -> World -> nat -> JS ->
       option (RespValue * World * nat * JS))
    (w w' : World) (db_index db_index' : nat) (script script' : option JS) (cmd : bytes)
    (args : list bytes) (r : RespValue)
    (Hcmd : cmd ∉ [b! "FLUSHALL"; b! "SAVE"; b! "BGSAVE"; b! "EVAL"; b! "EVALSHA"])
    (Hrun : run_command now libsql_snapshot js_new js_eval w db_index script cmd args =
       Some (r, w', db_index', script')) :
  (forall j, j <> db_index -> dbs w' !! j = dbs w !! j) /\ length (dbs w') = length (dbs w) /\
  (db_index' = db_index \/ cmd = b! "SELECT") /\
  ((db_index < length (dbs w))%nat -> (db_index' < length (dbs w'))%nat) /\ script' = script.
Proof.
  rewrite !not_elem_of_cons in Hcmd. destruct Hcmd as (H1 & H2 & H3 & H4 & H5 & _).
  revert Hrun. unfold run_command, handle_save_like_command.
  rewrite !bool_decide_false by done. cbn [orb negb].
  destruct (handle_no_db_command _ _ _ _ _) as [[[r1 i1] cache]|] eqn:E.
  { apply no_db_index in E as [Hsel Hlt]. by intros [= _ <- <- <-]. }
  unfold handle_command. destruct (data_command cmd args) as [p|].
  - destruct (run_on now w db_index p) as [[r1 w1]|] eqn:Hr; [|done].
    apply run_on_others in Hr as [Hlen Hj]. cbn [mbind option_bind]. intros [= _ <- <- <-].
    rewrite Hlen. split_and!; auto.
  - destruct (handle_meta_command _ _ _ _) as [[r1 c1]|]; intros [= _ <- <- <-];
      split_and!; auto.
Qed.

Lemma databases_isolated_witness :
  exists r w' s', run_command (fun _ => 7) (fun _ => SnapOk) tt no_js empty_world 2 None
      (b! "RPUSH") [b! "k"; b! "a"] = Some (r, w', 2%nat, s') /\
    dbs w' !! 3%nat = Some Db.new /\ length (dbs w') = 16%nat.
Proof.
  destruct (run_command (fun _ => 7) (fun _ => SnapOk) tt no_js empty_world 2 None
      (b! "RPUSH") [b! "k"; b! "a"]) as [[[[r w'] i'] s']|] eqn:E; [|vm_compute in E; done].
  destruct (databases_isolated (fun _ => 7) (fun _ => SnapOk) tt no_js empty_world w' 2 i' None s'
    (b! "RPUSH") [b! "k"; b! "a"] r) as (H1 & H2 & [-> | H3] & _).
  - apply (bool_decide_unpack _). by vm_compute.
  - exact E.
  - exists r, w', s'. split_and!; [done| |exact H2]. by rewrite H1.
  - vm_compute in H3. done.
Defined.

(** C24: SAVE is a faithful backup.  It hands the persistence layer one copy per database,
    in order; a client reading the copy sees, then and at every later time, exactly the
    keys, values and expiries it sees in the database, which keeps them; the answer is the
    persistence layer's. *)
Theorem save_copies_every_database `{RustStd} (now : nat -> Z)
    (libsql_snapshot : list Db -> SnapResult) (w : World) (Hw : world_ok w) :
  let '(copies, w') := snapshot_dbs_for_persistence now w in
  length copies = length (dbs w) /\ length (dbs w') = length (dbs w) /\
  (forall i db, dbs w !! i = Some db -> exists copy db',
     copies !! i = Some copy /\ dbs w' !! i = Some db' /\ db_wf copy /\ db_wf db' /\
     db_abs (now (ticks w + i)%nat) db' = db_abs (now (ticks w + i)%nat) db /\
     forall later, now (ticks w + i)%nat <= later -> db_abs later copy = db_abs later db) /\
  forall p, persist_state w = Some (Libsql p) ->
    handle_save_like_command now libsql_snapshot w (b! "SAVE") [] =
      Some (match libsql_snapshot copies with
            | SnapOk => OK
            | SnapNotFound => StaticError (b! "ERR persistence not configured")
            | SnapFailed msg => Error (b! "ERR persistence failed: " ++ msg)
            end, w').
Proof.
  destruct (snapshot_dbs_for_persistence now w) as [copies w'] eqn:E.
  pose proof E as E0. unfold snapshot_dbs_for_persistence in E. injection E as <- <-. cbn [dbs].
  rewrite !length_fmap, length_imap. split_and!; [done|done| |].
  - intros i db Hdb. rewrite !list_lookup_fmap, list_lookup_imap, Hdb.
    cbn [fmap option_fmap option_map].
    pose proof (snapshot_db_spec (now (ticks w + i)%nat) db) as Hs.
    destruct (snapshot_db (now (ticks w + i)%nat) db) as [copy db'].
    exists copy, db'. destruct Hs as (H1 & H2 & H3 & H4); [by eapply Forall_lookup_1|].
    by split_and!.
  - intros p Hp. unfold handle_save_like_command. rewrite bool_decide_true by done.
    cbn [orb negb]. rewrite E0. cbn [persist_state]. by rewrite Hp.
Qed.

Lemma save_copies_every_database_witness :
  let '(copies, w') := snapshot_dbs_for_persistence (fun _ => 7) empty_world in
  length copies = 16%nat /\ length (dbs w') = 16%nat.
Proof.
  pose proof (save_copies_every_database (fun _ => 7) (fun _ => SnapOk) empty_world) as H.
  destruct (snapshot_dbs_for_persistence (fun _ => 7) empty_world) as [copies w'].
  destruct H as (H1 & H2 & _); [|by split].
  unfold world_ok. cbn [dbs empty_world]. apply Forall_replicate, new_wf.
Defined.

(** publish and subscribe.  SUBSCRIBE enters the connection once per channel named.
    PUBLISH appends the message to every open subscriber's box, once per subscription as
    far as the box has room and after what waits there, opens no box, touches nothing else,
    and answers exactly the number of messages that arrived. *)
Theorem publish_reaches_subscribers (w : World) (id i : nat) (channels : list bytes)
    (channel message : bytes) (box : list RespValue)
    (Hsome : channels <> []) (Hbox : boxes w !! i = Some box) :
  let w1 := (handle_subscribe w id channels).2 in
  let ids := default [] (subs w1 !! channel) in
  let '(r, w2) := handle_publish w1 [channel; message] in
  times i ids = (times i (default [] (subs w !! channel)) +
    if decide (i = id) then length (filter (fun c => c = channel) channels) else 0)%nat /\
  boxes w2 !! i = Some (box ++ replicate
    (Nat.min (times i ids) (PUBSUB_CHANNEL_CAPACITY - length box))
    (Array [Blob (b! "message"); Blob channel; Blob message])) /\
  (forall j, boxes w2 !! j = None <-> boxes w !! j = None) /\
  r = Integer (waiting (boxes w2) - waiting (boxes w)) /\
  dbs w2 = dbs w /\ persist_state w2 = persist_state w /\ scripts w2 = scripts w /\
  subs w2 = subs w1.
Proof.
  destruct channels as [|c cs]; [done|]. cbn zeta.
  set (w1 := (handle_subscribe w id (c :: cs)).2).
  set (ids := default [] (subs w1 !! channel)).
  set (msg := Array [Blob (b! "message"); Blob channel; Blob message]).
  destruct (publish_loop_spec ids msg (boxes w) 0) as [H1 H2]. unfold handle_publish.
  change (boxes w1) with (boxes w). fold ids msg.
  destruct (publish_loop ids msg (boxes w) 0) as [n boxes']. cbn [fst snd] in H1, H2.
  cbn [boxes dbs persist_state scripts subs]. split_and!; try done.
  - exact (subscribe_loop id (c :: cs) (subs w) channel i).
  - by rewrite H2, Hbox.
  - intros j. rewrite H2. destruct (boxes w !! j); cbn; by split.
  - f_equal. lia.
Qed.

Lemma publish_reaches_subscribers_witness :
  let w := MkWorld [] None ∅ ∅ {[1%nat := []; 2%nat := []]} 0 in
  let w1 := (handle_subscribe w 1 [b! "a"; b! "b"; b! "a"]).2 in
  (handle_publish w1 [b! "a"; b! "hi"]).1 = Integer 2 /\
  boxes (handle_publish w1 [b! "a"; b! "hi"]).2 !! 2%nat = Some [].
Proof.
  cbv zeta. set (w := MkWorld [] None ∅ ∅ {[1%nat := []; 2%nat := []]} 0).
  split; [by vm_compute|].
  pose proof (publish_reaches_subscribers w 1 2 [b! "a"; b! "b"; b! "a"] (b! "a") (b! "hi") [])
    as Hp. cbv zeta in Hp.
  destruct (handle_publish _ _) as [r w2].
  destruct Hp as (_ & Hb & _); [done|by vm_compute|]. cbn [snd]. rewrite Hb. by vm_compute.
Defined.

(** the reply to an unknown command repeats its name, and a name that holds a line end
    splits the reply in two: a client's reader takes the error up to the line end, and
    reads what follows in the name, any bytes the sender likes, as the next reply. *)
Theorem unknown_command_splits_reply `{RustStd} (now : nat -> Z)
    (libsql_snapshot : list Db -> SnapResult) {JS : Type} (js_new : JS)
    (js_eval : bytes -> list bytes -> list bytes -> World -> nat -> JS ->
       option (RespValue * World * nat * JS))
    (conn : Conn (JS := JS)) (w : World) (pre post rest : bytes)
    (Hpre : Forall (fun b => 0 <= b < 128) pre) (Hpost : Forall (fun b => 0 <= b < 128) post)
    (Hlf : no_lf pre) :
  exists out,
    client_step now libsql_snapshot js_new js_eval conn w (Array [Blob (pre ++ crlf ++ post)]) =
      Some (out, conn, w, true) /\
    read_value (out ++ rest) =
      Some (Got (Error (b! "ERR unknown command '" ++ pre)) (post ++ b! "'" ++ crlf ++ rest)).
Proof.
  set (name := pre ++ crlf ++ post).
  assert (Hcr : 13 ∈ name) by (apply elem_of_app; right; by left).
  unfold client_step. change (value_to_args (Array [Blob name])) with (inl (B := bytes) [name]).
  cbv beta iota zeta. rewrite no_command_has_cr by done. eexists. split; [done|].
  rewrite from_utf8_lossy_valid.
  2: { apply utf8_valid_ascii. unfold name. apply Forall_app. split; [done|].
       apply Forall_app. split; [|done]. repeat constructor; lia. }
  assert (Henc : encode (unknown_command name) ++ rest =
    encode (Error (b! "ERR unknown command '" ++ pre)) ++ post ++ b! "'" ++ crlf ++ rest).
  { unfold unknown_command, name. cbn [encode]. rewrite <- !app_comm_cons, <- !app_assoc. done. }
  rewrite Henc, read_value_encode; [done|]. cbn [resp_ok]. split.
  - apply Forall_app. split; [|done]. repeat (apply Forall_cons; split; [done|]). constructor.
  - apply utf8_valid_ascii. apply Forall_app. split; [|done].
    repeat (apply Forall_cons; split; [done|]). constructor.
Qed.

(** The name [x CRLF +OK] is answered by an error and then a reply "OK'". *)
Lemma unknown_command_splits_reply_witness :
  exists out,
    client_step (fun _ => 7) (fun _ => SnapOk) tt no_js (new_client 1, None) empty_world
      (Array [Blob (b! "x" ++ crlf ++ b! "+OK")]) =
      Some (out, (new_client 1, None), empty_world, true) /\
    read_value out = Some (Got (Error (b! "ERR unknown command 'x")) (b! "+OK'" ++ crlf)) /\
    read_value (b! "+OK'" ++ crlf) = Some (Got (Simple (b! "OK'")) []).
Proof.
  destruct (unknown_command_splits_reply (fun _ => 7) (fun _ => SnapOk) tt no_js
    (new_client 1, None) empty_world (b! "x") (b! "+OK") []) as (out & H1 & H2).
  - repeat constructor; done.
  - repeat constructor; done.
  - repeat constructor; done.
  - exists out. split; [exact H1|]. rewrite app_nil_r in H2. split; [exact H2|by vm_compute].
Defined.
