(* ===== verification/Core.v ===== *)
(** * Core: the embedded executor

    [src/muon_cache/core.rs]: the typed commands that an embedding program (or the WASM
    bindings) runs on the store without a socket, with the counters and the latency window
    kept beside them.  Time is the two clocks of the code: [now], the wall clock in
    milliseconds that the store's expiry reads, and [us], the monotonic clock in
    microseconds of [now_us]; a state counts the readings it has made.  [u64] counters
    wrap, as in a release build. *)
From Stdlib Require Import SpecFloat.
From S2P Require Import Prelude.
From S2P Require Import IntCodec.
From S2P Require Import Utf8.
From S2P Require Import HashStore.
From S2P Require Import Shard.
From S2P Require Import Db.
From S2P Require Import ServerArgs.

(** ** Commands and responses *)

Definition WRONGTYPE : bytes :=
  b! "WRONGTYPE Operation against a key holding the wrong kind of value".
Definition ERR_HASH_INT : bytes := b! "ERR hash value is not an integer".
Definition MAX_LATENCY_SAMPLES : nat := Z.to_nat 4096.

Inductive CoreCommand :=
  | CSet (key v : bytes)
  | CGet (key : bytes)
  | CHset (key field v : bytes)
  | CHget (key field : bytes)
  | CHincrby (key field : bytes) (delta : Z)
  | CZadd (key : bytes) (score : f64) (member : bytes)
  | CZrange (key : bytes) (start stop : Z)
  | CZcard (key : bytes)
  | CDel (keys : list bytes)
  | CFlushdb.

Inductive CoreData :=
  | CNull
  | CInteger (n : Z)
  | CString (s : bytes)
  | CStrings (l : list bytes).

Record CoreResponse := MkResponse
  { resp_ok : bool; resp_data : option CoreData; resp_error : option bytes }.

Definition ok (data : CoreData) : CoreResponse := MkResponse true (Some data) None.
Definition err (msg : bytes) : CoreResponse := MkResponse false None (Some msg).

(** ** Metrics *)

Definition add_u64 (a b : Z) : Z := (a + b) `mod` 2 ^ 64.

Record CoreMetrics := MkMetrics
  { ops_total : Z; errors_total : Z; command_mix : gmap bytes Z;
    op_timestamps_us : list Z; latencies_us : list Z;
    queue_depth : Z; batch_ops_total : Z; batch_count : Z }.

Definition metrics_default : CoreMetrics := MkMetrics 0 0 ∅ [] [] 0 0 0.

Definition record_batch (m : CoreMetrics) (size : nat) : CoreMetrics :=
  if (0 <? size)%nat then
    MkMetrics (ops_total m) (errors_total m) (command_mix m) (op_timestamps_us m)
      (latencies_us m) (queue_depth m) (add_u64 (batch_ops_total m) (Z.of_nat size))
      (add_u64 (batch_count m) 1)
  else m.

(** [while let Some(front) = ... { if front >= cutoff { break; } pop_front(); }] *)
Fixpoint pop_old (cutoff : Z) (ts : list Z) : list Z :=
  match ts with
  | front :: ts' => if cutoff <=? front then ts else pop_old cutoff ts'
  | [] => []
  end.

(** [while len > MAX_LATENCY_SAMPLES { pop_front(); }] *)
Fixpoint pop_excess (l : list Z) : list Z :=
  match l with
  | _ :: l' => if (MAX_LATENCY_SAMPLES <? length l)%nat then pop_excess l' else l
  | [] => []
  end.

Definition u32_max : Z := 2 ^ 32 - 1.

Definition record_op (m : CoreMetrics) (now_us : Z) (command : bytes) (latency_us : Z)
    (is_error : bool) : CoreMetrics :=
  let cutoff := Z.max 0 (now_us - 1000000) in
  MkMetrics (add_u64 (ops_total m) 1)
    (if is_error then add_u64 (errors_total m) 1 else errors_total m)
    (<[command := add_u64 (default 0 (command_mix m !! command)) 1]> (command_mix m))
    (pop_old cutoff (op_timestamps_us m ++ [now_us]))
    (pop_excess (latencies_us m ++ [Z.min latency_us u32_max]))
    (queue_depth m) (batch_ops_total m) (batch_count m).

(** *** Percentiles: [((len - 1) as f64 * p).round() as usize] *)

Definition f64_of_Z (n : Z) : f64 := binary_normalize 53 1024 n 0 false.
Definition f64_mul (x y : f64) : f64 := SFmul 53 1024 x y.
Definition f64_div (x y : f64) : f64 := SFdiv 53 1024 x y.

(** [x.round() as usize]: halves away from zero; the cast saturates, NaN is 0. *)
Definition f64_round_usize (x : f64) : Z :=
  match x with
  | S754_finite false m e =>
      if 0 <=? e then Z.min u64_max (Zpos m * 2 ^ e)
      else Z.min u64_max ((2 * Zpos m + 2 ^ (- e)) / (2 * 2 ^ (- e)))
  | S754_infinity false => u64_max
  | _ => 0
  end.

Definition percentile (samples : list Z) (p : f64) : Z :=
  match samples with
  | [] => 0
  | _ =>
      let last := Z.of_nat (length samples) - 1 in
      let idx := f64_round_usize (f64_mul (f64_of_Z last) p) in
      nth (Z.to_nat (Z.min idx last)) samples 0
  end.

Definition P50 : f64 := f64_round false 50 (-2).
Definition P95 : f64 := f64_round false 95 (-2).
Definition P99 : f64 := f64_round false 99 (-2).

Record CoreMetricsSnapshot := MkSnapshot
  { snap_ops_total : Z; snap_ops_window_1s : Z; snap_batch_size_avg : f64;
    latency_p50_us : Z; latency_p95_us : Z; latency_p99_us : Z;
    snap_queue_depth : Z; snap_errors_total : Z; snap_command_mix : gmap bytes Z }.

Definition snapshot (m : CoreMetrics) : CoreMetricsSnapshot :=
  let latencies := merge_sort Z.le (latencies_us m) in
  MkSnapshot (ops_total m) (Z.of_nat (length (op_timestamps_us m)))
    (if 0 <? batch_count m
     then f64_div (f64_of_Z (batch_ops_total m)) (f64_of_Z (batch_count m))
     else S754_zero false)
    (percentile latencies P50) (percentile latencies P95) (percentile latencies P99)
    (queue_depth m) (errors_total m) (command_mix m).

Example percentile_ex :
  percentile [1; 2; 3; 4; 5; 6; 7; 8; 9; 10] P95 = 10 /\
  percentile [1; 2; 3; 4; 5; 6; 7; 8; 9; 10] P50 = 6.
Proof. by vm_compute. Qed.

(** ** The executor *)

Record CoreExecutor := MkExecutor
  { core_dbs : list Db; core_current : nat; core_metrics : CoreMetrics;
    core_start : Z; core_reads : nat }.

Section Executor.
Context `{RustStd} (now us : nat -> Z).

(** [new] and [reset] read the monotonic clock once. *)
Definition new (databases reads : nat) : CoreExecutor :=
  MkExecutor (replicate (Nat.max databases 1) Db.new) 0 metrics_default (us reads) (S reads).

Definition reset (x : CoreExecutor) : CoreExecutor :=
  new (Nat.max (length (core_dbs x)) 1) (core_reads x).

Definition with_metrics (x : CoreExecutor) (m : CoreMetrics) : CoreExecutor :=
  MkExecutor (core_dbs x) (core_current x) m (core_start x) (core_reads x).

Definition set_queue_depth (x : CoreExecutor) (depth : Z) : CoreExecutor :=
  let m := core_metrics x in
  with_metrics x (MkMetrics (ops_total m) (errors_total m) (command_mix m)
    (op_timestamps_us m) (latencies_us m) depth (batch_ops_total m) (batch_count m)).

Definition metrics_snapshot (x : CoreExecutor) : CoreMetricsSnapshot := snapshot (core_metrics x).

Definition now_us (x : CoreExecutor) : Z * CoreExecutor :=
  (us (core_reads x) - core_start x,
   MkExecutor (core_dbs x) (core_current x) (core_metrics x) (core_start x) (S (core_reads x))).

Fixpoint del_loop (db : Db) (keys : list bytes) (removed : Z) : Z * Db :=
  match keys with
  | [] => (removed, db)
  | key :: keys' =>
      let '(b, db) := Db.remove db key in
      del_loop db keys' (if b : bool then removed + 1 else removed)
  end.

(** The arms of [execute_inner] on the current database, at one reading of the wall
    clock. *)
Definition run_core (t : Z) (db : Db) (cmd : CoreCommand) : CoreResponse * bytes * Db :=
  match cmd with
  | CSet key v =>
      (ok (CString (b! "OK")), b! "SET", Db.set_string_from_slices db key v None)
  | CGet key =>
      let '(r, db) := Db.get_string t db key in
      (match r with
       | Ok (Some v) => ok (CString (from_utf8_lossy v))
       | Ok None => ok CNull
       | Err => err WRONGTYPE
       end, b! "GET", db)
  | CHset key field v =>
      let '(r, db) := Db.hash_set_bytes t db key field v in
      (match r with
       | Ok inserted => ok (CInteger (if inserted : bool then 1 else 0))
       | Err => err WRONGTYPE
       end, b! "HSET", db)
  | CHget key field =>
      let '(r, db) := Db.hash_get t db key field in
      (match r with
       | Ok (Some v) => ok (CString (from_utf8_lossy v))
       | Ok None => ok CNull
       | Err => err WRONGTYPE
       end, b! "HGET", db)
  | CHincrby key field delta =>
      let '(r, db) := Db.hash_incr_by t db key field delta in
      (match r with Ok v => ok (CInteger v) | Err => err ERR_HASH_INT end, b! "HINCRBY", db)
  | CZadd key score member =>
      let '(r, db) := Db.zadd t db key score member in
      (match r with
       | Ok inserted => ok (CInteger (if inserted : bool then 1 else 0))
       | Err => err WRONGTYPE
       end, b! "ZADD", db)
  | CZrange key start stop =>
      let '(r, db) := Db.zrange t db key start stop in
      (match r with
       | Ok items => ok (CStrings (from_utf8_lossy <$> items))
       | Err => err WRONGTYPE
       end, b! "ZRANGE", db)
  | CZcard key =>
      let '(r, db) := Db.zcard t db key in
      (match r with Ok card => ok (CInteger card) | Err => err WRONGTYPE end, b! "ZCARD", db)
  | CDel keys =>
      let '(removed, db) := del_loop db keys 0 in (ok (CInteger removed), b! "DEL", db)
  | CFlushdb => (ok (CString (b! "OK")), b! "FLUSHDB", (Db.flush alone db).2)
  end.

(** Indexing [dbs] out of range panics. *)
Definition execute_inner (x : CoreExecutor) (cmd : CoreCommand)
    : option (CoreResponse * bytes * CoreExecutor) :=
  db ← core_dbs x !! core_current x;
  let '(resp, name, db) := run_core (now (core_reads x)) db cmd in
  Some (resp, name,
        MkExecutor (<[core_current x := db]> (core_dbs x)) (core_current x) (core_metrics x)
          (core_start x) (S (core_reads x))).

Definition execute (x : CoreExecutor) (cmd : CoreCommand)
    : option (CoreResponse * CoreExecutor) :=
  let '(start_us, x) := now_us x in
  '(resp, name, x) ← execute_inner x cmd;
  let '(end_us, x) := now_us x in
  let elapsed_us := Z.max 0 (end_us - start_us) in
  let '(at_us, x) := now_us x in
  Some (resp,
        with_metrics x (record_op (core_metrics x) at_us name elapsed_us (negb (resp_ok resp)))).

Fixpoint inner_loop (x : CoreExecutor) (cmds : list CoreCommand)
    : option (list CoreResponse * list (bytes * bool) * CoreExecutor) :=
  match cmds with
  | [] => Some ([], [], x)
  | cmd :: cmds' =>
      '(resp, name, x) ← execute_inner x cmd;
      '(out, names, x) ← inner_loop x cmds';
      Some (resp :: out, (name, negb (resp_ok resp)) :: names, x)
  end.

Definition record_names (m : CoreMetrics) (at_us per_cmd_us : Z) (names : list (bytes * bool))
    : CoreMetrics :=
  foldl (fun m n => record_op m at_us n.1 per_cmd_us n.2) m names.

Definition execute_batch (x : CoreExecutor) (cmds : list CoreCommand)
    : option (list CoreResponse * CoreExecutor) :=
  let x := with_metrics x (record_batch (core_metrics x) (length cmds)) in
  let '(batch_start, x) := now_us x in
  '(out, names, x) ← inner_loop x cmds;
  let '(batch_end, x) := now_us x in
  let batch_elapsed := Z.max 0 (batch_end - batch_start) in
  let per_cmd_us :=
    match cmds with [] => 0 | _ => batch_elapsed / Z.of_nat (length cmds) end in
  let '(at_us, x) := now_us x in
  Some (out, with_metrics x (record_names (core_metrics x) at_us per_cmd_us names)).
End Executor.
