(* ===== verification/CoreSpec.v ===== *)
(** * CoreSpec: the embedded executor against the server

    The executor of [Core] answers like the server's handlers and changes the store like
    them; its counters add up, its windows are bounded, and its percentiles are samples. *)
From Stdlib Require Import SpecFloat.
From S2P Require Import Prelude.
From S2P Require Import IntCodec.
From S2P Require Import Utf8.
From S2P Require Import HashStore.
From S2P Require Import Shard.
From S2P Require Import ShardOps.
From S2P Require Import Db.
From S2P Require Import DbSpec.
From S2P Require Import Resp.
From S2P Require Import ServerArgs.
From S2P Require Import Persist.
From S2P Require Import Calls.
From S2P Require Import Handlers.
From S2P Require Import HandlerSpec.
From S2P Require Import ServerSpec.
From S2P Require Import Core.

(** ** The windows *)

Definition in_u32 (z : Z) : Prop := 0 <= z <= u32_max.

Lemma pop_excess_bound (l : list Z) : (length (pop_excess l) <= MAX_LATENCY_SAMPLES)%nat.
Proof.
  induction l as [|z l IH]; cbn [pop_excess]; [simpl; lia|].
  destruct (Nat.ltb_spec MAX_LATENCY_SAMPLES (length (z :: l))); [done|]. lia.
Qed.

Lemma pop_excess_suffix (l : list Z) : pop_excess l `suffix_of` l.
Proof.
  induction l as [|z l IH]; cbn [pop_excess]; [done|].
  destruct (_ <? _)%nat; [by apply suffix_cons_r|done].
Qed.

Lemma filter_all (P : Z -> Prop) `{forall x, Decision (P x)} (l : list Z) : Forall P l -> filter P l = l.
Proof. induction 1 as [|x l Hx _ IH]; [done|]. by rewrite filter_cons_True, IH. Qed.

Lemma filter_same (P Q : Z -> Prop) `{forall x, Decision (P x), forall x, Decision (Q x)} (l : list Z) :
  Forall (fun x => P x <-> Q x) l -> filter P l = filter Q l.
Proof.
  induction 1 as [|x l Hx _ IH]; [done|]. rewrite !filter_cons, IH.
  repeat case_decide; tauto.
Qed.

Lemma filter_keeps (P Q : Z -> Prop) `{forall x, Decision (P x)} (l : list Z) :
  Forall Q l -> Forall Q (filter P l).
Proof.
  induction 1 as [|x l Hx _ IH]; [constructor|]. rewrite filter_cons.
  case_decide; [by constructor|done].
Qed.

Lemma pop_old_filter (cutoff : Z) (ts : list Z) : StronglySorted Z.le ts ->
  pop_old cutoff ts = filter (fun t => cutoff <= t) ts.
Proof.
  induction 1 as [|t ts Hs IH Hall]; [done|]. cbn [pop_old].
  destruct (Z.leb_spec cutoff t).
  - rewrite filter_cons_True by done. f_equal. symmetry. apply filter_all.
    eapply Forall_impl; [exact Hall|]. cbn. lia.
  - by rewrite filter_cons_False by lia.
Qed.

Lemma sorted_snoc (ts : list Z) (t : Z) : StronglySorted Z.le ts -> Forall (fun x => x <= t) ts ->
  StronglySorted Z.le (ts ++ [t]).
Proof.
  induction 1 as [|x ts Hs IH Hall]; intros Ht; [by repeat constructor|].
  apply Forall_cons in Ht as [Hx Ht]. cbn. constructor; [by apply IH|].
  apply Forall_app. by split; [|repeat constructor].
Qed.

Lemma sorted_filter (P : Z -> Prop) `{forall x, Decision (P x)} (ts : list Z) :
  StronglySorted Z.le ts -> StronglySorted Z.le (filter P ts).
Proof.
  induction 1 as [|x ts Hs IH Hall]; [constructor|]. rewrite filter_cons.
  destruct (decide (P x)); [|done]. constructor; [done|]. by apply filter_keeps.
Qed.

(** ** The counters *)

(** The operations of the mix, all names together. *)
Definition mix_total (mix : gmap bytes Z) : Z := map_fold (fun _ n acc => n + acc) 0 mix.

Lemma mix_total_insert (mix : gmap bytes Z) (name : bytes) (n : Z) :
  mix_total (<[name := n]> mix) = mix_total mix - default 0 (mix !! name) + n.
Proof.
  assert (Hnew : forall (m : gmap bytes Z) k v, m !! k = None -> mix_total (<[k := v]> m) = v + mix_total m).
  { intros m k v Hk. unfold mix_total. rewrite map_fold_insert_L; [done| |done]. intros. lia. }
  destruct (mix !! name) as [old|] eqn:Hn.
  - rewrite <- (insert_delete_id mix name old Hn) at 2.
    rewrite <- insert_delete_eq, !Hnew by apply lookup_delete_eq. cbn. lia.
  - rewrite Hnew by done. cbn. lia.
Qed.

(** Well-formed metrics: every counter in step with [ops_total]; the latest recording was
    at [at_us]. *)
Record metrics_ok (m : CoreMetrics) (at_us : Z) : Prop := {
  m_latencies : (length (latencies_us m) <= MAX_LATENCY_SAMPLES)%nat;
  m_range : Forall in_u32 (latencies_us m);
  m_sorted : StronglySorted Z.le (op_timestamps_us m);
  m_past : Forall (fun t => 0 <= t <= at_us) (op_timestamps_us m);
  m_errors : 0 <= errors_total m <= ops_total m;
  m_small : ops_total m < 2 ^ 64;
  m_mix : mix_total (command_mix m) = ops_total m;
  m_mix_nonneg : map_Forall (fun _ n => 0 <= n) (command_mix m) }.

Lemma mix_total_nonneg (mix : gmap bytes Z) :
  map_Forall (fun _ n => 0 <= n) mix -> 0 <= mix_total mix.
Proof.
  induction mix as [|k n mix Hk IH] using map_ind; [done|].
  intros Hall. apply map_Forall_insert in Hall as [Hn Hall]; [|done].
  rewrite mix_total_insert, Hk. cbn. specialize (IH Hall). lia.
Qed.

Lemma mix_entry_le (mix : gmap bytes Z) (name : bytes) (n : Z) :
  map_Forall (fun _ n => 0 <= n) mix -> mix !! name = Some n -> n <= mix_total mix.
Proof.
  intros Hall Hn. rewrite <- (insert_delete_id mix name n Hn).
  rewrite mix_total_insert, lookup_delete_eq. cbn.
  assert (0 <= mix_total (delete name mix)); [|lia].
  by apply mix_total_nonneg, map_Forall_delete.
Qed.

Lemma add_u64_id (a b : Z) : 0 <= a -> 0 <= b -> a + b < 2 ^ 64 -> add_u64 a b = a + b.
Proof. intros. unfold add_u64. apply Z.mod_small. lia. Qed.

Lemma record_op_ok (m : CoreMetrics) (prev at_us : Z) (name : bytes) (lat : Z) (e : bool) :
  metrics_ok m prev -> 0 <= prev <= at_us -> 0 <= lat -> ops_total m + 1 < 2 ^ 64 ->
  let m' := record_op m at_us name lat e in
  metrics_ok m' at_us /\ ops_total m' = ops_total m + 1 /\
  errors_total m' = errors_total m + (if e then 1 else 0) /\
  op_timestamps_us m' = filter (fun t => at_us - 1000000 <= t) (op_timestamps_us m ++ [at_us]) /\
  queue_depth m' = queue_depth m /\ batch_ops_total m' = batch_ops_total m /\
  batch_count m' = batch_count m.
Proof.
  intros [H1 H2 H3 H4 H5 H6 H7 H8] Hat Hlat Hroom m'.
  assert (Hle : Forall (fun t => t <= at_us) (op_timestamps_us m))
    by (eapply Forall_impl; [exact H4|]; cbn; lia).
  assert (Hs : StronglySorted Z.le (op_timestamps_us m ++ [at_us])) by by apply sorted_snoc.
  assert (Hops : ops_total m' = ops_total m + 1) by (apply add_u64_id; lia).
  assert (Herr : errors_total m' = errors_total m + (if e then 1 else 0)).
  { cbn. destruct e; [apply add_u64_id; lia|lia]. }
  assert (Hpos : Forall (fun t => 0 <= t <= at_us) (op_timestamps_us m ++ [at_us])).
  { apply Forall_app. split; [|repeat constructor; lia].
    eapply Forall_impl; [exact H4|]. cbn. lia. }
  assert (Hts : op_timestamps_us m' =
    filter (fun t => at_us - 1000000 <= t) (op_timestamps_us m ++ [at_us])).
  { cbn. rewrite pop_old_filter by done. apply filter_same.
    eapply Forall_impl; [exact Hpos|]. cbn. lia. }
  assert (Hmix : add_u64 (default 0 (command_mix m !! name)) 1 =
    default 0 (command_mix m !! name) + 1).
  { destruct (command_mix m !! name) as [n|] eqn:Hn; [|done]. cbn.
    pose proof (mix_entry_le _ _ _ H8 Hn). apply H8 in Hn. apply add_u64_id; lia. }
  split_and!; try done. constructor.
  - apply pop_excess_bound.
  - destruct (pop_excess_suffix (latencies_us m ++ [Z.min lat u32_max])) as [k Hk].
    assert (Hall : Forall in_u32 (latencies_us m ++ [Z.min lat u32_max])).
    { apply Forall_app. split; [done|]. repeat constructor; unfold u32_max; lia. }
    rewrite Hk in Hall. by apply Forall_app in Hall as [_ Hall].
  - rewrite Hts. by apply sorted_filter.
  - rewrite Hts. by apply filter_keeps.
  - destruct e; lia.
  - lia.
  - cbn. rewrite Hmix, mix_total_insert. fold (ops_total m') in *. cbn in Hops. lia.
  - cbn. rewrite Hmix. apply map_Forall_insert_2; [|done].
    destruct (command_mix m !! name) eqn:Hn; cbn; [apply H8 in Hn; lia|lia].
Qed.

(** ** Percentile ranks *)

(** The rank of the [k]-th percentile among [n + 1] samples: [k * n / 100] to the nearest,
    halves up. *)
Definition rank (k n : Z) : Z := (2 * k * n + 100) / 200.

Definition rank_exact (p : f64) (k n : Z) : bool :=
  f64_round_usize (f64_mul (f64_of_Z n) p) =? rank k n.

(** The binary64 computation gives the exact rank for every size of the window. *)
Lemma ranks_exact :
  forallb (fun n => rank_exact P50 50 n && rank_exact P95 95 n && rank_exact P99 99 n)
    (seqZ 0 4096) = true.
Proof. vm_compute. reflexivity. Qed.

Lemma ranks_exact_at (n : Z) : 0 <= n < 4096 ->
  f64_round_usize (f64_mul (f64_of_Z n) P50) = rank 50 n /\
  f64_round_usize (f64_mul (f64_of_Z n) P95) = rank 95 n /\
  f64_round_usize (f64_mul (f64_of_Z n) P99) = rank 99 n.
Proof.
  intros Hn. pose proof ranks_exact as Hall. rewrite forallb_forall in Hall.
  specialize (Hall n). rewrite !andb_true_iff in Hall.
  destruct Hall as [[H1 H2] H3]; [apply list_elem_of_In, elem_of_seqZ; lia|].
  unfold rank_exact in *. by rewrite Z.eqb_eq in H1, H2, H3.
Qed.

Lemma rank_le (k n : Z) : 0 <= k <= 100 -> 0 <= n -> 0 <= rank k n <= n.
Proof.
  intros Hk Hn. unfold rank. split; [apply Z.div_pos; nia|].
  apply Z.lt_succ_r, Z.div_lt_upper_bound; nia.
Qed.

Lemma rank_mono (k1 k2 n : Z) : k1 <= k2 -> 0 <= n -> rank k1 n <= rank k2 n.
Proof. intros Hk Hn. unfold rank. apply Z.div_le_mono; nia. Qed.

Lemma percentile_rank (samples : list Z) (p : f64) (k : Z) : samples <> [] -> 0 <= k <= 100 ->
  f64_round_usize (f64_mul (f64_of_Z (Z.of_nat (length samples) - 1)) p) =
    rank k (Z.of_nat (length samples) - 1) ->
  samples !! Z.to_nat (rank k (Z.of_nat (length samples) - 1)) = Some (percentile samples p).
Proof.
  intros Hne Hk Hr. unfold percentile. destruct samples as [|z zs] eqn:E; [done|].
  rewrite <- E in *. clear E. rewrite Hr.
  assert (Hlen : (0 < length samples)%nat) by (destruct samples; [done|simpl; lia]).
  pose proof (rank_le k (Z.of_nat (length samples) - 1) Hk ltac:(lia)) as Hrk.
  rewrite Z.min_l by lia. rewrite nth_lookup.
  destruct (lookup_lt_is_Some_2 samples (Z.to_nat (rank k (Z.of_nat (length samples) - 1))))
    as [x Hx]; [lia|]. by rewrite Hx.
Qed.

Lemma sorted_lookup_le (l : list Z) (i j : nat) (x y : Z) : StronglySorted Z.le l ->
  (i <= j)%nat -> l !! i = Some x -> l !! j = Some y -> x <= y.
Proof.
  intros Hs. revert i j. induction Hs as [|z l Hs IH Hall]; intros i j Hij Hi Hj; [done|].
  destruct i as [|i], j as [|j]; simpl in *; try lia.
  - injection Hi as <-. injection Hj as <-. lia.
  - injection Hi as <-. by eapply Forall_lookup_1 in Hall.
  - eapply IH; [|done|done]. lia.
Qed.

(** ** Batches *)

Section Batches.
Context `{RustStd} (now us : nat -> Z).

Definition failed (out : list CoreResponse) : nat :=
  length (filter (fun r => resp_ok r = false) out).

Definition counted (names : list (bytes * bool)) : Z :=
  Z.of_nat (length (filter (fun n => n.2 = true) names)).

Lemma record_names_ok (names : list (bytes * bool)) (at_us lat : Z) : forall m prev,
  metrics_ok m prev -> 0 <= prev <= at_us -> 0 <= lat ->
  ops_total m + Z.of_nat (length names) < 2 ^ 64 ->
  let m' := record_names m at_us lat names in
  (names <> [] -> metrics_ok m' at_us /\
     Forall (fun t => at_us - 1000000 <= t) (op_timestamps_us m')) /\
  ops_total m' = ops_total m + Z.of_nat (length names) /\
  errors_total m' = errors_total m + counted names /\
  queue_depth m' = queue_depth m /\ batch_ops_total m' = batch_ops_total m /\
  batch_count m' = batch_count m.
Proof.
  induction names as [|[name e] names IH]; intros m prev Hm Hat Hlat Hroom.
  { split_and!; cbn; try done; unfold counted; simpl; lia. }
  cbn [length] in Hroom.
  destruct (record_op_ok m prev at_us name lat e Hm Hat Hlat) as (H1 & H2 & H3 & H4 & H5 & H6 & H7);
    [lia|].
  destruct (IH (record_op m at_us name lat e) at_us H1) as (H8 & H9 & H10 & H11 & H12 & H13);
    [lia|done|lia|].
  change (record_names m at_us lat ((name, e) :: names)) with
    (record_names (record_op m at_us name lat e) at_us lat names).
  split_and!; try congruence.
  - intros _. destruct names as [|n names]; [|by apply H8]. split; [exact H1|].
    cbn [record_names foldl]. rewrite H4. apply Forall_forall. intros t Ht.
    by apply list_elem_of_filter in Ht as [Ht _].
  - rewrite H9, H2. cbn [length]. lia.
  - rewrite H10, H3. unfold counted. rewrite filter_cons. destruct e; case_decide; simpl in *; try done; lia.
Qed.

Definition dbs_ok (x : CoreExecutor) : Prop :=
  (core_current x < length (core_dbs x))%nat /\ Forall db_wf (core_dbs x).

End Batches.

(** ** The server's commands *)

(** The text a client would send for a command; [text] prints scores. *)
Definition wire (text : f64 -> bytes) (cmd : CoreCommand) : list bytes :=
  match cmd with
  | CSet key v => [key; v]
  | CGet key => [key]
  | CHset key field v => [key; field; v]
  | CHget key field => [key; field]
  | CHincrby key field delta => [key; field; int_to_string delta]
  | CZadd key score member => [key; text score; member]
  | CZrange key start stop => [key; int_to_string start; int_to_string stop]
  | CZcard key => [key]
  | CDel keys => keys
  | CFlushdb => []
  end.

(** What the executor's caller sees for a RESP reply. *)
Definition blob_text (v : RespValue) : bytes :=
  match v with Blob b => from_utf8_lossy b | _ => [] end.
Definition reply_of (r : RespValue) : CoreResponse :=
  match r with
  | Blob b => ok (CString (from_utf8_lossy b))
  | Simple s | StaticSimple s => ok (CString s)
  | Integer n => ok (CInteger n)
  | Null => ok CNull
  | Array items => ok (CStrings (blob_text <$> items))
  | Error s | StaticError s => err s
  end.

(** The fields' Rust types, and a score that is a number. *)
Definition core_typed (text : f64 -> bytes) (cmd : CoreCommand) : Prop :=
  match cmd with
  | CHincrby _ _ delta => in_i64 delta
  | CZadd _ score _ => score <> S754_nan /\ parse_f64 (text score) = Some score
  | CZrange _ start stop => in_i64 start /\ in_i64 stop
  | _ => True
  end.

Lemma int_to_string_ascii (n : Z) : Forall (fun b => 0 <= b < 128) (int_to_string n).
Proof.
  destruct (int_to_string_shape n) as (ds & -> & Hds & _). apply Forall_app. split.
  - destruct (n <? 0); repeat constructor; done.
  - eapply Forall_impl; [exact Hds|]. cbn. lia.
Qed.

Lemma parse_i64_text (n : Z) : in_i64 n -> parse_i64 (int_to_string n) = Some n.
Proof.
  intros Hn. unfold parse_i64, from_utf8.
  rewrite utf8_valid_ascii by apply int_to_string_ascii. by apply parse_write_i64.
Qed.

Section Agree.
Context `{RustStd} (t : Z) (db_index : Z).
#[local] Notation run := (Calls.run (fun _ => t) db_index true).

Lemma del_loops (keys : list bytes) : forall db p k n,
  exists k', run (Handlers.del_loop keys n) (MkEnv db p k) =
    Some ((Core.del_loop db keys n).1, MkEnv (Core.del_loop db keys n).2 p k').
Proof.
  induction keys as [|key keys IH]; intros db p k n; [by exists k|].
  cbn [Handlers.del_loop Core.del_loop]. unfold Handlers.remove. rewrite run_key_call.
  unfold db_step. cbn [on_key at_time what shard_step env_db mbind option_bind as_bool].
  unfold Db.remove. rewrite on_shard_eq. apply IH.
Qed.

Lemma del_loop_wf (keys : list bytes) : forall db n, db_wf db -> db_wf (Core.del_loop db keys n).2.
Proof.
  induction keys as [|key keys IH]; intros db n Hwf; [done|]. cbn [Core.del_loop].
  destruct (key_step_sound t db key KRemove Hwf I) as (o & d & c & Hs & Hw & _).
  unfold db_step in Hs. cbn [on_key at_time what shard_step mbind option_bind] in Hs.
  injection Hs as _ Hd. unfold Db.remove. rewrite on_shard_eq.
  unfold Shard.remove. cbn [fst snd]. rewrite Hd. by apply IH.
Qed.

(** Both hash writers do the same to what a client sees. *)
Lemma hset_same (db : Db) (key field v : bytes) : db_wf db ->
  exists r db1 db2,
    db_step db (Request t key (KHashSetRef field v)) = Some (RBool r, db1) /\
    Db.hash_set_bytes t db key field v = (r, db2) /\
    db_wf db1 /\ db_wf db2 /\ db_abs t db1 = db_abs t db2.
Proof.
  intros Hwf.
  destruct (key_step_sound t db key (KHashSetRef field v) Hwf I) as (o1 & d1 & c1 & S1 & W1 & [P1 Q1] & A1).
  destruct (key_step_sound t db key (KHashSetBytes field v) Hwf I) as (o2 & d2 & c2 & S2 & W2 & [P2 Q2] & A2).
  cbn [spec_step] in *. unfold db_step in S1, S2. cbn [on_key at_time what shard_step mbind option_bind] in S1, S2.
  injection S1 as S1o S1d. injection S2 as S2o S2d. subst o1 o2 c1 c2. cbn in P1, P2.
  injection P1 as P1. injection P2 as P2.
  eexists _, d1, d2. split; [|split; [|split_and!; [exact W1|exact W2|congruence]]].
  - unfold db_step. cbn [on_key at_time what shard_step mbind option_bind]. rewrite S1d. reflexivity.
  - unfold Db.hash_set_bytes. rewrite on_shard_eq, S2d. f_equal. congruence.
Qed.

(** The whole contract between the two front ends, for one command. *)
Definition agrees (text : f64 -> bytes) (db : Db) (k : nat) (cmd : CoreCommand) : Prop :=
  let '(resp, name, db') := run_core t db cmd in
  exists p r db2 k', data_command name (wire text cmd) = Some p /\
    run p (MkEnv db None k) = Some (r, MkEnv db2 None k') /\
    resp = reply_of r /\ db_wf db2 /\ db_wf db' /\ db_abs t db2 = db_abs t db'.

(** Commands that are the same operation of the store on both sides. *)
Lemma agrees_same_op {R} (text : f64 -> bytes) (db : Db) (k : nat) (cmd : CoreCommand)
    (key : bytes) (op : key_op) (f : Shard -> R * Shard) (c : R -> out) (as_r : out -> option R)
    (core_reply : R -> CoreResponse) (name : bytes) (p : Prog RespValue)
    (server_reply : R -> RespValue) : db_wf db ->
  key_pre op (db_abs t db !! key) ->
  shard_step t (shard db key) key op = Some (c (f (shard db key)).1, (f (shard db key)).2) ->
  (forall r, as_r (c r) = Some r) ->
  run_core t db cmd =
    (core_reply (on_shard db key f).1, name, (on_shard db key f).2) ->
  data_command name (wire text cmd) = Some p ->
  (forall e, run p e = run (r ← key_call key op as_r; Ret (server_reply r)) e) ->
  (forall r, core_reply r = reply_of (server_reply r)) ->
  agrees text db k cmd.
Proof.
  intros Hwf Hpre Hstep Has Hcore Hdata Hrun Hreply. unfold agrees. rewrite Hcore.
  exists p, (server_reply (on_shard db key f).1), (on_shard db key f).2, (S k).
  destruct (key_step_sound t db key op Hwf Hpre) as (o & db' & c' & Hs & Hw & _).
  unfold db_step in Hs. cbn [on_key at_time what] in Hs. rewrite Hstep in Hs.
  cbn [mbind option_bind] in Hs. injection Hs as _ Hd. rewrite on_shard_eq.
  split_and!; [done| |apply Hreply|cbn [snd]; by rewrite Hd|cbn [snd]; by rewrite Hd|done].
  rewrite Hrun, run_key_call. unfold db_step. cbn [on_key at_time what env_db].
  rewrite Hstep. cbn [mbind option_bind]. rewrite Has. done.
Qed.

(** The bookkeeping of [agrees_same_op]: unfold the operation, run both programs. *)
Ltac same_op_tac :=
  match goal with
  | |- run_core _ _ _ = _ =>
      cbn [run_core]; match goal with |- context [Db.zrange] => unfold Db.zrange | _ => idtac end;
      unfold Db.get_string, Db.hash_get, Db.hash_incr_by, Db.zadd, Db.zcard;
      by destruct (on_shard _ _ _) as [[?|] ?]
  | |- forall e, Calls.run _ _ _ _ e = _ =>
      let e := fresh in
      intros e; cbn [pairs length Nat.ltb Nat.leb Nat.even Nat.sub negb orb zadd_loop];
      try (rewrite (run_bind _ _ _ (_ ≫= _)));
      unfold Handlers.get_string, Handlers.hash_get, Handlers.hash_incr_by, Handlers.zadd,
        Handlers.zrange, Handlers.zcard;
      rewrite !run_key_call; destruct (db_step _ _) as [[o d]|]; [|done];
      cbn [mbind option_bind]; by destruct o as [| | | | | |[]|[]|[]| |[]| | |]
  | |- forall r, _ = reply_of _ => by intros [[]|]
  | _ => done
  end.

Lemma agrees_all (text : f64 -> bytes) (db : Db) (k : nat) (cmd : CoreCommand) : db_wf db ->
  core_typed text cmd -> agrees text db k cmd.
Proof.
  intros Hwf Htyped.
  destruct cmd as [key v|key|key field v|key field|key field delta|key score member|
    key start stop|key|keys|]; cbn [core_typed] in Htyped.
  - unfold agrees. cbn [run_core]. eexists _, OK, _, (S k).
    destruct (key_step_sound t db key (KSetStringRef v None) Hwf I) as (o & d & c & Hs & Hw & _).
    split; [reflexivity|]. cbn [wire cmd_SET]. unfold Handlers.set_string_ref.
    rewrite run_key_call. unfold db_step in *. cbn [on_key at_time what shard_step env_db mbind option_bind] in *.
    apply (inj Some), (f_equal snd) in Hs. cbn [snd] in Hs. rewrite <- Hs in Hw.
    split; [reflexivity|]. by split_and!.
  - apply (agrees_same_op text db k _ key KGet (fun s => ShardString.get_string t s key)
      ROpt as_ropt (fun r => match r with
         | Ok (Some v) => ok (CString (from_utf8_lossy v)) | Ok None => ok CNull
         | Err => err Core.WRONGTYPE end) (b! "GET") (cmd_GET [key])
      (fun r => match r with Ok (Some v) => Blob v | Ok None => Null | Err => Handlers.WRONGTYPE end));
      same_op_tac.
  - unfold agrees. cbn [run_core].
    destruct (hset_same db key field v Hwf) as (r & d1 & d2 & H1 & -> & H3 & H4 & H5).
    eexists _, (match r with Ok b => flag b | Err => Handlers.WRONGTYPE end), d1, (S k).
    split; [reflexivity|]. split; [|by destruct r as [[]|]].
    cbn [wire]. unfold cmd_HSET. cbn [length Nat.ltb Nat.leb Nat.even orb pairs hset_loop].
    rewrite (run_bind _ _ _ (_ ≫= _)). unfold Handlers.hash_set_ref. rewrite run_key_call.
    cbn [env_db env_tick]. rewrite H1. by destruct r as [[]|].
  - apply (agrees_same_op text db k _ key (KHashGet field)
      (fun s => ShardHash.hash_get t s key field) ROpt as_ropt
      (fun r => match r with
         | Ok (Some v) => ok (CString (from_utf8_lossy v)) | Ok None => ok CNull
         | Err => err Core.WRONGTYPE end) (b! "HGET") (cmd_HGET [key; field])
      (fun r => match r with Ok (Some v) => Blob v | Ok None => Null | Err => Handlers.WRONGTYPE end));
      same_op_tac.
  - apply (agrees_same_op text db k _ key (KHashIncrBy field delta)
      (fun s => ShardHash.hash_incr_by t s key field delta) RInt as_rint
      (fun r => match r with Ok v => ok (CInteger v) | Err => err ERR_HASH_INT end)
      (b! "HINCRBY") (cmd_HINCRBY (b! "HINCRBY") [key; field; int_to_string delta])
      (fun r => match r with Ok v => Integer v | Err => StaticError ERR_HASH_INT end));
      try same_op_tac.
    unfold cmd_HINCRBY. rewrite parse_i64_text by done. same_op_tac.
  - destruct Htyped as [Hnan Htext].
    apply (agrees_same_op text db k _ key (KZadd score member)
      (fun s => ShardZset.zadd t s key score member) RBool as_rbool
      (fun r => match r with
         | Ok inserted => ok (CInteger (if inserted : bool then 1 else 0))
         | Err => err Core.WRONGTYPE end)
      (b! "ZADD") (cmd_ZADD (b! "ZADD") [key; text score; member])
      (fun r => match r with Ok b => flag b | Err => Handlers.WRONGTYPE end)); try same_op_tac.
    unfold cmd_ZADD. cbn [length Nat.ltb Nat.leb Nat.even Nat.sub negb orb pairs zadd_loop].
    unfold zadd_score. rewrite Htext. same_op_tac.
  - destruct Htyped as [Hstart Hstop].
    apply (agrees_same_op text db k _ key (KZrange start stop)
      (fun s => ShardZset.zrange t s key start stop) RList as_rlist
      (fun r => match r with
         | Ok items => ok (CStrings (from_utf8_lossy <$> items)) | Err => err Core.WRONGTYPE end)
      (b! "ZRANGE") (cmd_ZRANGE [key; int_to_string start; int_to_string stop])
      (fun r => match r with Ok items => Array (Blob <$> items) | Err => Handlers.WRONGTYPE end));
      try same_op_tac.
    + unfold cmd_ZRANGE. rewrite !parse_i64_text by done. same_op_tac.
    + intros [items|]; [|done]. cbn. by rewrite <- list_fmap_compose.
  - apply (agrees_same_op text db k _ key KZcard (fun s => ShardZset.zcard t s key)
      RInt as_rint
      (fun r => match r with Ok card => ok (CInteger card) | Err => err Core.WRONGTYPE end)
      (b! "ZCARD") (cmd_ZCARD [key])
      (fun r => match r with Ok len => Integer len | Err => Handlers.WRONGTYPE end));
      same_op_tac.
  - unfold agrees. cbn [run_core].
    destruct (del_loops keys db None k 0) as (k' & Hk).
    destruct (Core.del_loop db keys 0) as [n db'] eqn:Hd. cbn [fst snd] in Hk.
    eexists _, (Integer n), db', k'. split; [reflexivity|]. split.
    { cbn [wire]. unfold cmd_DEL. by rewrite run_bind, Hk. }
    assert (Hwf' : db_wf db') by (pose proof (del_loop_wf keys db 0 Hwf) as Hw; by rewrite Hd in Hw).
    by split_and!.
  - unfold agrees. cbn [run_core]. eexists _, OK, (Db.flush alone db).2, (S k).
    split; [reflexivity|]. split; [reflexivity|].
    assert (Hw : db_wf (Db.flush alone db).2) by by apply (flush_spec 0). by split_and!.
Qed.
End Agree.

(** ** A batch *)

Section BatchRun.
Context `{RustStd} (now us : nat -> Z).
Hypothesis Hus : forall k, us k <= us (S k).

(** What every state of an executor keeps. *)
Definition executor_ok (x : CoreExecutor) : Prop :=
  (core_current x < length (core_dbs x))%nat /\ Forall db_wf (core_dbs x) /\
  core_start x <= us (core_reads x) /\
  metrics_ok (core_metrics x) (us (core_reads x) - core_start x).

Lemma inner_total (text : f64 -> bytes) (x : CoreExecutor) (cmd : CoreCommand) :
  (core_current x < length (core_dbs x))%nat -> Forall db_wf (core_dbs x) -> core_typed text cmd ->
  exists resp name x', execute_inner now x cmd = Some (resp, name, x') /\
    (core_current x' < length (core_dbs x'))%nat /\ Forall db_wf (core_dbs x') /\
    core_metrics x' = core_metrics x /\ core_start x' = core_start x /\
    core_reads x' = S (core_reads x).
Proof.
  intros Hi Hall Htyped. unfold execute_inner.
  destruct (lookup_lt_is_Some_2 _ _ Hi) as [db Hdb]. rewrite Hdb. cbn [mbind option_bind].
  pose proof (agrees_all (now (core_reads x)) 0 text db 0 cmd
    (Forall_lookup_1 _ _ _ _ Hall Hdb) Htyped) as Ha.
  unfold agrees in Ha. destruct (run_core (now (core_reads x)) db cmd) as [[resp name] db'].
  destruct Ha as (_ & _ & _ & _ & _ & _ & _ & _ & Hwf & _).
  eexists _, _, _. split; [done|]. cbn. rewrite length_insert. split_and!; try done.
  by apply Forall_insert.
Qed.

Lemma inner_loop_total (text : f64 -> bytes) (cmds : list CoreCommand) : forall x,
  (core_current x < length (core_dbs x))%nat -> Forall db_wf (core_dbs x) ->
  Forall (core_typed text) cmds ->
  exists out names x', inner_loop now x cmds = Some (out, names, x') /\
    (core_current x' < length (core_dbs x'))%nat /\ Forall db_wf (core_dbs x') /\
    core_metrics x' = core_metrics x /\ core_start x' = core_start x /\
    core_reads x' = (length cmds + core_reads x)%nat /\
    length out = length cmds /\ length names = length cmds /\
    counted names = Z.of_nat (failed out).
Proof.
  induction cmds as [|cmd cmds IH]; intros x Hi Hall Htyped; [by exists [], [], x|].
  apply Forall_cons in Htyped as [Hc Htyped]. cbn [inner_loop].
  destruct (inner_total text x cmd Hi Hall Hc) as (r & name & x1 & -> & H1 & H2 & H3 & H4 & H5).
  cbn [mbind option_bind].
  destruct (IH x1 H1 H2 Htyped) as (out & names & x2 & -> & H6 & H7 & H8 & H9 & H10 & H11 & H12 & H13).
  eexists _, _, x2. split; [done|]. split_and!; try congruence; try (cbn; lia).
  unfold counted, failed in *. rewrite !filter_cons. cbn [snd].
  destruct (resp_ok r) eqn:Hr; repeat case_decide; simpl in *; try done; lia.
Qed.

Lemma us_mono (a b : nat) : (a <= b)%nat -> us a <= us b.
Proof. induction 1 as [|b _ IH]; [lia|]. pose proof (Hus b). lia. Qed.

Lemma metrics_later (m : CoreMetrics) (a b : Z) : a <= b -> metrics_ok m a -> metrics_ok m b.
Proof.
  intros Hab [H1 H2 H3 H4 H5 H6 H7 H8]. constructor; try done.
  eapply Forall_impl; [exact H4|]. cbn. lia.
Qed.

Lemma batch_spec (text : f64 -> bytes) (x : CoreExecutor) (cmds : list CoreCommand) :
  executor_ok x -> Forall (core_typed text) cmds ->
  ops_total (core_metrics x) + Z.of_nat (length cmds) < 2 ^ 64 ->
  0 <= batch_ops_total (core_metrics x) /\
  batch_ops_total (core_metrics x) + Z.of_nat (length cmds) < 2 ^ 64 ->
  exists out x', execute_batch now us x cmds = Some (out, x') /\ executor_ok x' /\
    length out = length cmds /\
    ops_total (core_metrics x') = ops_total (core_metrics x) + Z.of_nat (length cmds) /\
    errors_total (core_metrics x') = errors_total (core_metrics x) + Z.of_nat (failed out) /\
    batch_ops_total (core_metrics x') =
      batch_ops_total (core_metrics x) + Z.of_nat (length cmds).
Proof.
  intros (Hi & Hall & Hst & Hm) Htyped Hroom [Hb0 Hb]. unfold execute_batch.
  set (x0 := with_metrics x (record_batch (core_metrics x) (length cmds))).
  cbn [now_us].
  set (x1 := MkExecutor (core_dbs x0) (core_current x0) (core_metrics x0) (core_start x0)
    (S (core_reads x0))).
  destruct (inner_loop_total text cmds x1 Hi Hall Htyped)
    as (out & names & x2 & -> & H1 & H2 & H3 & H4 & H5 & H6 & H7 & H8).
  cbn [mbind option_bind now_us core_reads core_start core_metrics core_dbs core_current].
  assert (Hm0 : metrics_ok (core_metrics x2) (us (core_reads x) - core_start x) /\
    ops_total (core_metrics x2) = ops_total (core_metrics x) /\
    errors_total (core_metrics x2) = errors_total (core_metrics x) /\
    batch_ops_total (core_metrics x2) =
      batch_ops_total (core_metrics x) + Z.of_nat (length cmds)).
  { rewrite H3. subst x1 x0. cbn [core_metrics with_metrics]. unfold record_batch.
    destruct (Nat.ltb_spec 0 (length cmds)).
    - split_and!; try done; [|by apply add_u64_id; lia].
      destruct Hm; by constructor.
    - split_and!; try done. lia. }
  destruct Hm0 as (Hm2 & Ho & He & Hbt).
  set (lat := match cmds with [] => 0 | _ => _ end).
  assert (Hlat : 0 <= lat).
  { subst lat. destruct cmds; [done|]. apply Z.div_pos; [lia|]. cbn. lia. }
  assert (Hstart : core_start x2 = core_start x) by done.
  set (at_us := us (S (core_reads x2)) - core_start x2).
  assert (Hat : 0 <= us (core_reads x) - core_start x <= at_us).
  { subst at_us. rewrite Hstart. pose proof (us_mono (core_reads x) (S (core_reads x2))).
    rewrite H5 in *. subst x1 x0. cbn in *. lia. }
  destruct (record_names_ok names at_us lat (core_metrics x2) _ Hm2 Hat Hlat)
    as (R1 & R2 & R3 & R4 & R5 & R6); [lia|].
  eexists out, _. split; [reflexivity|]. cbn [with_metrics core_metrics core_start core_reads].
  assert (Hlater : at_us <= us (S (S (core_reads x2))) - core_start x2)
    by (subst at_us; pose proof (Hus (S (core_reads x2))); lia).
  split_and!; [..|done|rewrite R2; lia|rewrite R3; lia|rewrite R5; lia].
  split_and!; [done|done|cbn; lia|]. cbn [core_metrics core_start core_reads with_metrics].
  destruct names as [|n names].
  - cbn. eapply metrics_later; [|exact Hm2]. lia.
  - eapply metrics_later; [exact Hlater|]. by apply R1.
Qed.
End BatchRun.

(** ** Properties *)

(** C26: the embedded executor is the server without the socket.  For every typed command on
    every well-formed database, the server has a handler for the command's name, the
    handler run on the command's text ends, its reply read as the executor reports replies
    is exactly the executor's response (wrong-type and integer errors included), and both
    leave databases that no client can tell apart. *)
Theorem core_agrees_with_server `{RustStd} (t db_index : Z) (text : f64 -> bytes) (db : Db)
    (k : nat) (cmd : CoreCommand) (Hwf : db_wf db) (Htyped : core_typed text cmd) :
  let '(resp, name, db') := run_core t db cmd in
  exists p r db2 k', data_command name (wire text cmd) = Some p /\
    run (fun _ => t) db_index true p (MkEnv db None k) = Some (r, MkEnv db2 None k') /\
    resp = reply_of r /\ db_wf db2 /\ db_wf db' /\ db_abs t db2 = db_abs t db'.
Proof. exact (agrees_all t db_index text db k cmd Hwf Htyped). Qed.

Lemma core_agrees_with_server_witness :
  exists p r db2 k', data_command (b! "HINCRBY") [b! "h"; b! "f"; b! "-7"] = Some p /\
    run (fun _ => 0) 0 true p (MkEnv Db.new None 0) = Some (r, MkEnv db2 None k') /\
    fst (fst (run_core 0 Db.new (CHincrby (b! "h") (b! "f") (-7)))) = reply_of r.
Proof.
  pose proof (core_agrees_with_server 0 0 (fun _ => []) Db.new 0
    (CHincrby (b! "h") (b! "f") (-7)) new_wf ltac:(done)) as Hp.
  destruct (run_core 0 Db.new (CHincrby (b! "h") (b! "f") (-7))) as [[resp name] db'] eqn:E.
  assert (name = b! "HINCRBY") as ->
    by (cbn [run_core] in E; destruct (Db.hash_incr_by _ _ _ _ _); by injection E).
  destruct Hp as (p & r & db2 & k' & H1 & H2 & H3 & _). by exists p, r, db2, k'.
Defined.

(** the executor's books are kept.  From every well-formed state a batch of any length
    runs without a panic, answers every command, adds exactly the batch to the operations,
    exactly its failures to the errors, and keeps the invariant: the per-command counts add
    up to the operations, at most 4096 latencies are kept, each in 32 bits, and the
    timestamps are sorted and not in the future. *)
Theorem core_batch_accounts `{RustStd} (now us : nat -> Z) (text : f64 -> bytes)
    (x : CoreExecutor) (cmds : list CoreCommand) (Hus : forall k, us k <= us (S k))
    (Hx : executor_ok us x) (Htyped : Forall (core_typed text) cmds)
    (Hroom : ops_total (core_metrics x) + Z.of_nat (length cmds) < 2 ^ 64)
    (Hbatch : 0 <= batch_ops_total (core_metrics x) /\
       batch_ops_total (core_metrics x) + Z.of_nat (length cmds) < 2 ^ 64) :
  exists out x', execute_batch now us x cmds = Some (out, x') /\ executor_ok us x' /\
    length out = length cmds /\
    ops_total (core_metrics x') = ops_total (core_metrics x) + Z.of_nat (length cmds) /\
    errors_total (core_metrics x') = errors_total (core_metrics x) + Z.of_nat (failed out) /\
    batch_ops_total (core_metrics x') =
      batch_ops_total (core_metrics x) + Z.of_nat (length cmds).
Proof. by apply (batch_spec now us Hus text). Qed.

Lemma core_batch_accounts_witness :
  let cmds := [CSet (b! "k") (b! "v"); CHget (b! "k") (b! "f"); CGet (b! "k")] in
  exists out x', execute_batch (fun _ => 0) (fun k => Z.of_nat k) (Core.new (fun k => Z.of_nat k) 1 0) cmds =
      Some (out, x') /\ length out = 3%nat /\ ops_total (core_metrics x') = 3 /\
    errors_total (core_metrics x') = Z.of_nat (failed out).
Proof.
  intros cmds.
  destruct (core_batch_accounts (fun _ => 0) (fun k => Z.of_nat k) (fun _ => [])
    (Core.new (fun k => Z.of_nat k) 1 0) cmds)
    as (out & x' & H1 & _ & H2 & H3 & H4 & _).
  - intros k. lia.
  - split_and!; [simpl; lia|apply Forall_replicate, new_wf|simpl; lia|].
    constructor; cbn; try done; try lia; constructor.
  - by repeat constructor.
  - done.
  - done.
  - exists out, x'. by split_and!.
Defined.

(** the reported percentiles are real samples of the right rank.  Although the code
    computes positions in binary64, for every window it can hold (1 to 4096 samples) the
    50th, 95th and 99th percentile are exactly the samples whose rank in sorted order is
    [p * (n - 1) / 100] to the nearest, halves up; so they never index out of range and
    p50 <= p95 <= p99. *)
Theorem percentiles_are_ranked_samples (m : CoreMetrics) (Hne : latencies_us m <> [])
    (Hlen : (length (latencies_us m) <= MAX_LATENCY_SAMPLES)%nat) :
  let sorted := merge_sort Z.le (latencies_us m) in
  let last := Z.of_nat (length (latencies_us m)) - 1 in
  let s := snapshot m in
  sorted !! Z.to_nat (rank 50 last) = Some (latency_p50_us s) /\
  sorted !! Z.to_nat (rank 95 last) = Some (latency_p95_us s) /\
  sorted !! Z.to_nat (rank 99 last) = Some (latency_p99_us s) /\
  latency_p50_us s <= latency_p95_us s <= latency_p99_us s.
Proof.
  cbn zeta. set (sorted := merge_sort Z.le (latencies_us m)).
  assert (Hp : sorted ≡ₚ latencies_us m) by apply merge_sort_Permutation.
  assert (Hl : length (latencies_us m) = length sorted) by by rewrite Hp.
  assert (Hs : StronglySorted Z.le sorted) by apply (StronglySorted_merge_sort Z.le).
  assert (Hn : sorted <> []) by (intros E; rewrite E in Hp; by apply Permutation_nil_l in Hp).
  rewrite Hl in *. change MAX_LATENCY_SAMPLES with (Z.to_nat 4096) in Hlen.
  assert (Hpos : (0 < length sorted)%nat) by (destruct sorted; [done|simpl; lia]).
  destruct (ranks_exact_at (Z.of_nat (length sorted) - 1)) as (R1 & R2 & R3); [lia|].
  pose proof (percentile_rank sorted P50 50 Hn ltac:(lia) R1) as Q1.
  pose proof (percentile_rank sorted P95 95 Hn ltac:(lia) R2) as Q2.
  pose proof (percentile_rank sorted P99 99 Hn ltac:(lia) R3) as Q3.
  assert (M : rank 50 (Z.of_nat (length sorted) - 1) <= rank 95 (Z.of_nat (length sorted) - 1) <=
    rank 99 (Z.of_nat (length sorted) - 1)) by (split; apply rank_mono; lia).
  split_and!; [exact Q1|exact Q2|exact Q3| |];
    (eapply sorted_lookup_le; [exact Hs| |eassumption|eassumption]; lia).
Qed.

Lemma percentiles_are_ranked_samples_witness :
  let s := snapshot (record_op (record_op metrics_default 5 [] 30 false) 6 [] 10 true) in
  latency_p50_us s <= latency_p95_us s <= latency_p99_us s.
Proof.
  intros s. apply (percentiles_are_ranked_samples
    (record_op (record_op metrics_default 5 [] 30 false) 6 [] 10 true)).
  - done.
  - apply pop_excess_bound.
Defined.
