(* ===== verification/JsValue.v ===== *)
(** * JsValue: tagged words

    [src/value.rs]: a JavaScript value is one machine word, an integer shifted left by one,
    a pointer with tag 1, or a special constant.  The word's width is a parameter, 64 or 32
    bits, as [usize] is; [JsHeap] uses 64. *)
From S2P Require Import Prelude.

(** ** Words *)

Section Word.
(** The number of bytes of a word. *)
Context (WORD_BYTES : Z).

Definition word_bits : Z := 8 * WORD_BYTES.
Definition wrap (z : Z) : Z := z `mod` 2 ^ word_bits.
(** [as isize] *)
Definition signed (v : Z) : Z := if v <? 2 ^ (word_bits - 1) then v else v - 2 ^ word_bits.
(** [as i32] *)
Definition as_i32 (z : Z) : Z := (z + 2 ^ 31) `mod` 2 ^ 32 - 2 ^ 31.

Definition PTR_MASK : Z := WORD_BYTES - 1.
Definition TAG_INT : Z := 0.
Definition TAG_PTR : Z := 1.
Definition TAG_SPECIAL : Z := 3.

Definition TAG_BOOL : Z := Z.lor TAG_SPECIAL (Z.shiftl 0 2).
Definition TAG_NULL : Z := Z.lor TAG_SPECIAL (Z.shiftl 1 2).
Definition TAG_UNDEFINED : Z := Z.lor TAG_SPECIAL (Z.shiftl 2 2).
Definition TAG_EXCEPTION : Z := Z.lor TAG_SPECIAL (Z.shiftl 3 2).
Definition TAG_SHORT_FUNC : Z := Z.lor TAG_SPECIAL (Z.shiftl 4 2).
Definition TAG_UNINITIALIZED : Z := Z.lor TAG_SPECIAL (Z.shiftl 5 2).
Definition TAG_STRING_CHAR : Z := Z.lor TAG_SPECIAL (Z.shiftl 6 2).
Definition TAG_CATCH_OFFSET : Z := Z.lor TAG_SPECIAL (Z.shiftl 7 2).
Definition TAG_SPECIAL_BITS : Z := 5.

(** [v << TAG_SPECIAL_BITS] drops the bits that leave the word. *)
Definition make_special (tag v : Z) : Z := Z.lor tag (wrap (Z.shiftl v TAG_SPECIAL_BITS)).

Definition NULL : Z := make_special TAG_NULL 0.
Definition UNDEFINED : Z := make_special TAG_UNDEFINED 0.
Definition UNINITIALIZED : Z := make_special TAG_UNINITIALIZED 0.
Definition FALSE : Z := make_special TAG_BOOL 0.
Definition TRUE : Z := make_special TAG_BOOL 1.
Definition EXCEPTION : Z := make_special TAG_EXCEPTION 0.

Definition is_int (v : Z) : bool := Z.land v 1 =? TAG_INT.
Definition is_ptr (v : Z) : bool := Z.land v PTR_MASK =? TAG_PTR.
Definition special_tag (v : Z) : Z := Z.land v (Z.shiftl 1 TAG_SPECIAL_BITS - 1).
Definition special_value (v : Z) : Z := Z.shiftr v TAG_SPECIAL_BITS.
Definition is_bool (v : Z) : bool := special_tag v =? TAG_BOOL.
Definition is_null (v : Z) : bool := v =? NULL.
Definition is_undefined (v : Z) : bool := v =? UNDEFINED.
Definition is_uninitialized (v : Z) : bool := v =? UNINITIALIZED.
Definition is_exception (v : Z) : bool := v =? EXCEPTION.
Definition is_number (v : Z) : bool := is_int v.

(** [v as isize as usize] is [wrap v]. *)
Definition from_int32 (v : Z) : Z := Z.lor (wrap (Z.shiftl (wrap v) 1)) TAG_INT.
Definition int32 (v : Z) : option Z :=
  if is_int v then Some (as_i32 (Z.shiftr (signed v) 1)) else None.

Definition from_ptr (ptr : Z) : Z := Z.lor ptr TAG_PTR.
Definition as_ptr (v : Z) : Z := Z.land v (wrap (Z.lnot PTR_MASK)).

Definition new_bool (val : bool) : Z := if val then TRUE else FALSE.
End Word.

Definition in_i32 (z : Z) : Prop := - 2 ^ 31 <= z < 2 ^ 31.
#[export] Instance in_i32_dec z : Decision (in_i32 z).
Proof. unfold in_i32. apply _. Defined.

Example int_ex : int32 8 (from_int32 8 (-5)) = Some (-5) /\ from_int32 8 (-1) = 2 ^ 64 - 2.
Proof. by vm_compute. Qed.

(** ** Lemmas *)

Lemma as_i32_id (z : Z) : in_i32 z -> as_i32 z = z.
Proof. unfold in_i32, as_i32. intros. rewrite Z.mod_small; lia. Qed.

(** The two widths of the targets the code runs on: 64 and 32 bits. *)
Definition word_size (W : Z) : Prop := W = 8 \/ W = 4.

(** Case analysis on the width, its powers evaluated. *)
Ltac by_width :=
  match goal with H : word_size _ |- _ => destruct H as [-> | ->] end;
  change (2 ^ (8 * 8)) with 18446744073709551616 in *;
  change (2 ^ (8 * 4)) with 4294967296 in *;
  change (2 ^ (8 * 8 - 5)) with 576460752303423488 in *;
  change (2 ^ (8 * 4 - 5)) with 134217728 in *.

Lemma lor_disjoint (a b : Z) : Z.land a b = 0 -> Z.lor a b = a + b.
Proof. intros H. by rewrite Z.add_nocarry_lxor, Z.lxor_lor. Qed.

Lemma land_low (a b k : Z) : 0 <= k -> 0 <= b < 2 ^ k -> Z.land (a * 2 ^ k) b = 0.
Proof.
  intros Hk Hb. apply Z.bits_inj'. intros i Hi. rewrite Z.land_spec, Z.bits_0.
  destruct (Z.lt_ge_cases i k).
  - by rewrite Z.mul_pow2_bits_low.
  - rewrite <- (Z.mod_small b (2 ^ k)) by exact Hb.
    rewrite Z.mod_pow2_bits_high by (split; assumption). apply andb_false_r.
Qed.

Lemma from_int32_eq (W v : Z) : word_size W -> from_int32 W v = (2 * v) `mod` 2 ^ (8 * W).
Proof.
  intros HW. unfold from_int32, wrap, TAG_INT, word_bits. rewrite Z.lor_0_r.
  rewrite Z.shiftl_mul_pow2 by lia. change (2 ^ 1) with 2.
  rewrite Z.mul_mod_idemp_l by (destruct HW; subst; done). by rewrite Z.mul_comm.
Qed.

Lemma land_1 (v : Z) : Z.land v 1 = v mod 2.
Proof. change 1 with (Z.ones 1) at 1. by rewrite Z.land_ones. Qed.

Lemma from_int32_even (W v : Z) : word_size W -> from_int32 W v mod 2 = 0.
Proof. intros HW. rewrite from_int32_eq by done. by_width; Z.to_euclidean_division_equations; lia. Qed.

Lemma int32_from (W v : Z) : word_size W ->
  int32 W (from_int32 W v) =
    Some (as_i32 (signed W ((2 * v) `mod` 2 ^ (8 * W)) / 2)).
Proof.
  intros HW. unfold int32, is_int. rewrite land_1, from_int32_even by done. cbn [Z.eqb].
  rewrite from_int32_eq, Z.shiftr_div_pow2 by (done || lia). done.
Qed.

Lemma make_special_eq (W tag v : Z) : word_size W -> 0 <= tag < 32 -> 0 <= v < 2 ^ (8 * W - 5) ->
  make_special W tag v = tag + v * 32.
Proof.
  intros HW Ht Hv. unfold make_special, wrap, word_bits. rewrite Z.shiftl_mul_pow2 by done.
  change (2 ^ TAG_SPECIAL_BITS) with 32. rewrite Z.mod_small by (by_width; lia).
  rewrite lor_disjoint; [lia|]. rewrite Z.land_comm. by apply (land_low v tag 5).
Qed.

Lemma special_tag_eq (v : Z) : special_tag v = v `mod` 32.
Proof. unfold special_tag. change (Z.shiftl 1 TAG_SPECIAL_BITS - 1) with (Z.ones 5). by rewrite Z.land_ones. Qed.

Lemma mask_eq (W v : Z) : word_size W -> Z.land v (PTR_MASK W) = v `mod` W.
Proof.
  intros [-> | ->]; [change (PTR_MASK 8) with (Z.ones 3)|change (PTR_MASK 4) with (Z.ones 2)];
    by rewrite Z.land_ones.
Qed.

(** A pointer the encoding can hold: aligned to the word. *)
Definition aligned (W ptr : Z) : Prop := ptr `mod` W = 0.

Lemma from_ptr_eq (W ptr : Z) : word_size W -> aligned W ptr -> from_ptr ptr = ptr + 1.
Proof.
  intros HW Ha. unfold from_ptr. apply lor_disjoint. unfold TAG_PTR. rewrite land_1.
  unfold aligned in Ha. by_width; Z.to_euclidean_division_equations; lia.
Qed.

Lemma as_ptr_eq (W v : Z) : word_size W -> 0 <= v < 2 ^ (8 * W) -> as_ptr W v = v - v `mod` W.
Proof.
  intros HW Hv. unfold as_ptr.
  assert (Hlow : forall k, 0 < k < 8 * W -> wrap W (Z.lnot (Z.ones k)) = Z.land (Z.lnot (Z.ones k)) (Z.ones (8 * W)))
    by (intros k Hk; by rewrite Z.land_ones by lia).
  assert (Hgen : forall k, 0 < k < 8 * W -> Z.land v (wrap W (Z.lnot (Z.ones k))) = v - v `mod` 2 ^ k).
  { intros k Hk. rewrite Hlow, (Z.land_comm (Z.lnot _)), Z.land_assoc, Z.land_ones by lia.
    rewrite (Z.mod_small v) by done. rewrite <- Z.ldiff_land, Z.ldiff_ones_r by lia.
    rewrite Z.shiftl_mul_pow2, Z.shiftr_div_pow2 by lia.
    rewrite Z.mod_eq by (apply Z.pow_nonzero; lia). lia. }
  destruct HW as [-> | ->].
  - apply (Hgen 3). lia.
  - apply (Hgen 2). lia.
Qed.

Lemma int32_roundtrip (W i : Z) : word_size W -> in_i32 i ->
  int32 W (from_int32 W i) = Some i <-> W = 8 \/ - 2 ^ 30 <= i < 2 ^ 30.
Proof.
  intros HW Hi. rewrite int32_from by done. unfold as_i32, signed, word_bits, in_i32 in *.
  by_width; change (2 ^ (8 * 8 - 1)) with 9223372036854775808; change (2 ^ (8 * 4 - 1)) with 2147483648;
    change (2 ^ 31) with 2147483648 in *; change (2 ^ 32) with 4294967296 in *;
    change (2 ^ 30) with 1073741824;
    (match goal with |- context [?a <? ?b] => destruct (Z.ltb_spec a b) as [Hlt | Hge] end);
    (split; [intros [= E] | intros H; f_equal]);
    Z.to_euclidean_division_equations; lia.
Qed.

Lemma is_int_mod (v : Z) : is_int v = (v `mod` 2 =? 0).
Proof. unfold is_int. by rewrite land_1. Qed.

Lemma is_ptr_mod (W v : Z) : word_size W -> is_ptr W v = (v `mod` W =? 1).
Proof. intros. unfold is_ptr. by rewrite mask_eq. Qed.

Lemma from_ptr_is_ptr (W ptr : Z) : word_size W -> aligned W ptr -> is_ptr W (from_ptr ptr) = true.
Proof.
  intros HW Ha. rewrite is_ptr_mod, (from_ptr_eq W) by done. unfold aligned in Ha.
  apply Z.eqb_eq. by_width; Z.to_euclidean_division_equations; lia.
Qed.

Lemma as_ptr_from_ptr (W ptr : Z) : word_size W -> aligned W ptr -> 0 <= ptr < 2 ^ (8 * W) ->
  as_ptr W (from_ptr ptr) = ptr.
Proof.
  intros HW Ha Hr. rewrite (from_ptr_eq W) by done. unfold aligned in Ha.
  rewrite as_ptr_eq; [|done|]; by_width; Z.to_euclidean_division_equations; lia.
Qed.

(** Words that are not pointers: an integer and a special constant. *)
Lemma even_not_ptr (W v : Z) : word_size W -> is_int v = true -> is_ptr W v = false.
Proof.
  intros HW. rewrite is_int_mod, is_ptr_mod, Z.eqb_eq, Z.eqb_neq by done.
  by_width; intros; Z.to_euclidean_division_equations; lia.
Qed.

(** The tags of [special_tag] a [Value] constant carries. *)
Definition special_tags : list Z :=
  [TAG_BOOL; TAG_NULL; TAG_UNDEFINED; TAG_EXCEPTION; TAG_SHORT_FUNC; TAG_UNINITIALIZED;
   TAG_STRING_CHAR; TAG_CATCH_OFFSET].

Lemma special_tags_range (tag : Z) : tag ∈ special_tags -> 0 <= tag < 32 /\ tag `mod` 4 = 3.
Proof. intros H. repeat (apply elem_of_cons in H as [-> | H]; [done|]). by apply elem_of_nil in H. Qed.

Lemma special_parts (W tag v : Z) :
  word_size W -> tag ∈ special_tags -> 0 <= v < 2 ^ (8 * W - 5) ->
  special_tag (make_special W tag v) = tag /\ special_value (make_special W tag v) = v /\
  is_int (make_special W tag v) = false /\ is_ptr W (make_special W tag v) = false.
Proof.
  intros HW (Ht & Hm)%special_tags_range Hv. rewrite make_special_eq by done.
  rewrite special_tag_eq, is_int_mod, is_ptr_mod, !Z.eqb_neq by done.
  unfold special_value. rewrite Z.shiftr_div_pow2 by done. change (2 ^ TAG_SPECIAL_BITS) with 32.
  by_width; repeat split; Z.to_euclidean_division_equations; lia.
Qed.

(** A tagged word decodes to what it was built from, on 64- and on 32-bit targets: a pointer
    aligned to the word comes back from [from_ptr]/[as_ptr] and is no integer, a special
    constant gives back its tag and payload and is neither integer nor pointer, and no
    integer is a pointer; [from_int32] followed by [int32] is the identity on every [i32]
    with 64-bit words, and with 32-bit words exactly on [-2^30, 2^30): outside it the top bit
    is shifted out. *)
Theorem value_tagging (W i ptr tag v : Z)
    (HW : word_size W) (Hi : in_i32 i)
    (Hp : aligned W ptr /\ 0 <= ptr < 2 ^ (8 * W))
    (Hs : tag ∈ special_tags /\ 0 <= v < 2 ^ (8 * W - 5)) :
  (int32 W (from_int32 W i) = Some i <-> W = 8 \/ - 2 ^ 30 <= i < 2 ^ 30) /\
  (is_ptr W (from_int32 W i) = false /\ is_int (from_int32 W i) = true) /\
  (as_ptr W (from_ptr ptr) = ptr /\ is_ptr W (from_ptr ptr) = true /\ is_int (from_ptr ptr) = false) /\
  (special_tag (make_special W tag v) = tag /\ special_value (make_special W tag v) = v /\
   is_int (make_special W tag v) = false /\ is_ptr W (make_special W tag v) = false).
Proof.
  destruct Hp as [Ha Hr], Hs as [Ht Hv].
  assert (He : is_int (from_int32 W i) = true) by (by rewrite is_int_mod, from_int32_even).
  pose proof (from_ptr_is_ptr W ptr HW Ha) as Hip.
  repeat split; try apply special_parts; try apply int32_roundtrip; auto using even_not_ptr, as_ptr_from_ptr.
  destruct (is_int (from_ptr ptr)) eqn:E; [|done].
  by rewrite (even_not_ptr W) in Hip.
Qed.

(** On 32-bit words [1 << 30] comes back as a negative number; pointers and constants do not. *)
Lemma value_tagging_witness :
  (int32 4 (from_int32 4 (2 ^ 30)) = Some (- 2 ^ 30)) /\
  int32 8 (from_int32 8 (- 2 ^ 31)) = Some (- 2 ^ 31) /\ as_ptr 8 (from_ptr 4096) = 4096.
Proof.
  split; [by vm_compute|].
  destruct (value_tagging 8 (- 2 ^ 31) 4096 TAG_NULL 0) as (Hi & _ & (Hp & _) & _).
  - by left.
  - by vm_compute.
  - by vm_compute.
  - split; [right; left|by vm_compute].
  - split; [apply Hi; by left | exact Hp].
Defined.
