(* ===== verification/JsMem.v ===== *)
(** * JsMem: the bump-allocated heap of the interpreter

    [src/context.rs]: [MemoryRegion] hands out addresses of one buffer and never takes one
    back; a heap object, a property node, a string, a float and an element block are the
    things the code writes at these addresses.  The heap is a finite map from the address of
    a block to what it holds, so a pointer is the address it is in the code, shared and
    followed as the code does.  Words have 64 bits.

    Reading through a pointer to no block (undefined behaviour of the unsafe code) gives a
    default here; [heap_ok] of this file is the invariant under which it does not happen. *)
From S2P Require Import Prelude JsValue.

Abbreviation Value := Z.
Abbreviation W := 8 (only parsing).

(** ** Blocks *)

Definition HEAP_TAG_STRING : Z := 1.
Definition HEAP_TAG_OBJECT : Z := 2.
Definition HEAP_TAG_ARRAY : Z := 3.
Definition HEAP_TAG_FLOAT : Z := 4.

Definition CLASS_OBJECT : Z := 0.
Definition CLASS_ARRAY : Z := 1.
Definition CLASS_CFUNCTION : Z := 2.

Record HeapObject := {
  tag : Z;
  class_id : Z;
  proto : Value;
  prop_head : Z;
  prop_tail : Z;
  prop_count : Z;
  array_len : Z;
  array_cap : Z;
  elements : Z;
  opaque : Z;
  func_idx : Z;
  func_params : Value
}.

Record Property := { next : Z; key_kind : Z; key : Z; value : Value }.

(** A block by what was written to it: a string's [StringHeader] length and bytes, the bits
    of a float, an object, a property node, an element block. *)
Inductive Cell :=
  | CString (len : Z) (data : bytes)
  | CFloat (bits : Z)
  | CObject (o : HeapObject)
  | CProperty (p : Property)
  | CElements (vs : list Value).

(** [size_of::<HeapObject>()] and the others, and the sizes the blocks are allocated with. *)
Definition SIZE_STRING_HEADER : Z := 8.
Definition SIZE_FLOAT : Z := 16.
Definition SIZE_OBJECT : Z := 80.
Definition SIZE_PROPERTY : Z := 24.
Definition SIZE_VALUE : Z := 8.

Definition cell_size (c : Cell) : Z :=
  match c with
  | CString _ data => SIZE_STRING_HEADER + Z.of_nat (length data) + 1
  | CFloat _ => SIZE_FLOAT
  | CObject _ => SIZE_OBJECT
  | CProperty _ => SIZE_PROPERTY
  | CElements vs => Z.of_nat (length vs) * SIZE_VALUE
  end.

(** ** The region, the atom table and the heap *)

Record MemoryRegion := { start : Z; size : Z; offset : Z }.

Definition align_up (value align : Z) : Z :=
  if align =? 0 then value
  else Z.land (wrap W (value + align - 1)) (wrap W (Z.lnot (align - 1))).

Definition alloc (m : MemoryRegion) (sz align : Z) : option (Z * MemoryRegion) :=
  let aligned := align_up (offset m) align in
  let new_offset := aligned + sz in
  if 2 ^ 64 <=? new_offset then None
  else if size m <? new_offset then None
  else Some (start m + aligned, {| start := start m; size := size m; offset := new_offset |}).

Record AtomEntry := { entry_bytes : Z; ref_count : Z }.
Record AtomTable := { entries : list AtomEntry; index : gmap Z Z }.

(** The fields of [Context] the heap operations use. *)
Record JsHeap := {
  mem : MemoryRegion;
  gc_objects : list Z;
  cells : gmap Z Cell;
  atoms : AtomTable;
  prop_maps : gmap Z (gmap Z Value);
  object_proto : Value;
  array_proto : Value;
  array_push_fn : Value;
  array_pop_fn : Value
}.

Definition with_mem (m : MemoryRegion) (h : JsHeap) : JsHeap :=
  {| mem := m; gc_objects := gc_objects h; cells := cells h; atoms := atoms h;
     prop_maps := prop_maps h; object_proto := object_proto h; array_proto := array_proto h;
     array_push_fn := array_push_fn h; array_pop_fn := array_pop_fn h |}.
Definition with_cells (cs : gmap Z Cell) (h : JsHeap) : JsHeap :=
  {| mem := mem h; gc_objects := gc_objects h; cells := cs; atoms := atoms h;
     prop_maps := prop_maps h; object_proto := object_proto h; array_proto := array_proto h;
     array_push_fn := array_push_fn h; array_pop_fn := array_pop_fn h |}.
Definition with_atoms (t : AtomTable) (h : JsHeap) : JsHeap :=
  {| mem := mem h; gc_objects := gc_objects h; cells := cells h; atoms := t;
     prop_maps := prop_maps h; object_proto := object_proto h; array_proto := array_proto h;
     array_push_fn := array_push_fn h; array_pop_fn := array_pop_fn h |}.
Definition with_prop_maps (pm : gmap Z (gmap Z Value)) (h : JsHeap) : JsHeap :=
  {| mem := mem h; gc_objects := gc_objects h; cells := cells h; atoms := atoms h;
     prop_maps := pm; object_proto := object_proto h; array_proto := array_proto h;
     array_push_fn := array_push_fn h; array_pop_fn := array_pop_fn h |}.
(** [gc_objects.push(raw)] *)
Definition register (raw : Z) (h : JsHeap) : JsHeap :=
  {| mem := mem h; gc_objects := gc_objects h ++ [raw]; cells := cells h; atoms := atoms h;
     prop_maps := prop_maps h; object_proto := object_proto h; array_proto := array_proto h;
     array_push_fn := array_push_fn h; array_pop_fn := array_pop_fn h |}.

Definition write_cell (a : Z) (c : Cell) (h : JsHeap) : JsHeap := with_cells (<[a := c]> (cells h)) h.

(** [self.mem.alloc(size, align)] *)
Definition mem_alloc (sz align : Z) (h : JsHeap) : option (Z * JsHeap) :=
  match alloc (mem h) sz align with
  | Some (raw, m) => Some (raw, with_mem m h)
  | None => None
  end.

Definition memory_usage (h : JsHeap) : Z * Z := (offset (mem h), size (mem h)).

(** ** Reading blocks *)

Definition null_object : HeapObject :=
  {| tag := 0; class_id := 0; proto := 0; prop_head := 0; prop_tail := 0; prop_count := 0;
     array_len := 0; array_cap := 0; elements := 0; opaque := 0; func_idx := 0; func_params := 0 |}.
Definition null_property : Property := {| next := 0; key_kind := 0; key := 0; value := 0 |}.

(** [*(obj as *const HeapObject)], [*(cur as *const Property)], the block [elements] points to. *)
Definition obj_at (h : JsHeap) (a : Z) : HeapObject :=
  match cells h !! a with Some (CObject o) => o | _ => null_object end.
Definition prop_at (h : JsHeap) (a : Z) : Property :=
  match cells h !! a with Some (CProperty p) => p | _ => null_property end.
Definition elems_at (h : JsHeap) (a : Z) : list Value :=
  match cells h !! a with Some (CElements vs) => vs | _ => [] end.

(** [*(ptr as *const u32)]: the tag a block with a header starts with. *)
Definition tag_at (h : JsHeap) (a : Z) : Z :=
  match cells h !! a with
  | Some (CString _ _) => HEAP_TAG_STRING
  | Some (CFloat _) => HEAP_TAG_FLOAT
  | Some (CObject o) => tag o
  | _ => 0
  end.

(** The slice of a string header at [a]. *)
Definition str_at (h : JsHeap) (a : Z) : option bytes :=
  match cells h !! a with
  | Some (CString len data) => Some (take (Z.to_nat len) data)
  | _ => None
  end.

Definition object_ptr (h : JsHeap) (val : Value) : option Z :=
  if negb (is_ptr W val) then None
  else
    let ptr := as_ptr W val in
    if ptr =? 0 then None
    else if (tag_at h ptr =? HEAP_TAG_OBJECT) || (tag_at h ptr =? HEAP_TAG_ARRAY) then Some ptr
    else None.

Definition string_bytes (h : JsHeap) (val : Value) : option bytes :=
  if negb (is_ptr W val) then None else str_at h (as_ptr W val).

Definition float_value (h : JsHeap) (val : Value) : option Z :=
  if negb (is_ptr W val) then None
  else match cells h !! as_ptr W val with Some (CFloat bits) => Some bits | _ => None end.

(** ** Updating the fields of an object *)

Definition upd_obj (f : HeapObject -> HeapObject) (a : Z) (h : JsHeap) : JsHeap :=
  write_cell a (CObject (f (obj_at h a))) h.

Definition with_proto (p : Value) (o : HeapObject) : HeapObject :=
  {| tag := tag o; class_id := class_id o; proto := p; prop_head := prop_head o;
     prop_tail := prop_tail o; prop_count := prop_count o; array_len := array_len o;
     array_cap := array_cap o; elements := elements o; opaque := opaque o;
     func_idx := func_idx o; func_params := func_params o |}.
Definition with_list (hd tl n : Z) (o : HeapObject) : HeapObject :=
  {| tag := tag o; class_id := class_id o; proto := proto o; prop_head := hd;
     prop_tail := tl; prop_count := n; array_len := array_len o;
     array_cap := array_cap o; elements := elements o; opaque := opaque o;
     func_idx := func_idx o; func_params := func_params o |}.
Definition with_array (len cap elems : Z) (o : HeapObject) : HeapObject :=
  {| tag := tag o; class_id := class_id o; proto := proto o; prop_head := prop_head o;
     prop_tail := prop_tail o; prop_count := prop_count o; array_len := len;
     array_cap := cap; elements := elems; opaque := opaque o;
     func_idx := func_idx o; func_params := func_params o |}.
Definition with_array_len (len : Z) (o : HeapObject) : HeapObject :=
  with_array len (array_cap o) (elements o) o.
Definition with_opaque (p : Z) (o : HeapObject) : HeapObject :=
  {| tag := tag o; class_id := class_id o; proto := proto o; prop_head := prop_head o;
     prop_tail := prop_tail o; prop_count := prop_count o; array_len := array_len o;
     array_cap := array_cap o; elements := elements o; opaque := p;
     func_idx := func_idx o; func_params := func_params o |}.
Definition with_func (i : Z) (ps : Value) (o : HeapObject) : HeapObject :=
  {| tag := tag o; class_id := class_id o; proto := proto o; prop_head := prop_head o;
     prop_tail := prop_tail o; prop_count := prop_count o; array_len := array_len o;
     array_cap := array_cap o; elements := elements o; opaque := opaque o;
     func_idx := i; func_params := ps |}.

(** ** Allocating blocks *)

Definition as_u32 (z : Z) : Z := z `mod` 2 ^ 32.

Definition alloc_string (bs : bytes) (h : JsHeap) : option Z * JsHeap :=
  let total := SIZE_STRING_HEADER + Z.of_nat (length bs) + 1 in
  match mem_alloc total W h with
  | None => (None, h)
  | Some (raw, h) =>
      (Some raw, write_cell raw (CString (as_u32 (Z.of_nat (length bs))) bs) (register raw h))
  end.

(** The caller passes a string value: the code dereferences it without the [is_ptr] test. *)
Definition alloc_string_concat_val (str_val : Value) (extra : bytes) (h : JsHeap) : option Z * JsHeap :=
  match str_at h (as_ptr W str_val) with
  | None => (None, h)
  | Some a =>
      let total_len := Z.of_nat (length a) + Z.of_nat (length extra) in
      match mem_alloc (SIZE_STRING_HEADER + total_len + 1) W h with
      | None => (None, h)
      | Some (raw, h) =>
          (Some raw, write_cell raw (CString (as_u32 total_len) (a ++ extra)) (register raw h))
      end
  end.

Definition alloc_float (bits : Z) (h : JsHeap) : option Z * JsHeap :=
  match mem_alloc SIZE_FLOAT W h with
  | None => (None, h)
  | Some (raw, h) => (Some raw, write_cell raw (CFloat bits) (register raw h))
  end.

Definition new_heap_object (class_id : Z) : HeapObject :=
  {| tag := if class_id =? CLASS_ARRAY then HEAP_TAG_ARRAY else HEAP_TAG_OBJECT;
     class_id := class_id; proto := NULL W; prop_head := 0; prop_tail := 0; prop_count := 0;
     array_len := 0; array_cap := 0; elements := 0; opaque := 0; func_idx := 0;
     func_params := UNDEFINED W |}.

Definition alloc_object (class_id : Z) (h : JsHeap) : option Z * JsHeap :=
  match mem_alloc SIZE_OBJECT W h with
  | None => (None, h)
  | Some (raw, h) => (Some raw, write_cell raw (CObject (new_heap_object class_id)) (register raw h))
  end.

(** [cap * size_of::<Value>()] checked, then [cap] words set to [undefined]. *)
Definition alloc_elements (cap : Z) (h : JsHeap) : option (Z * JsHeap) :=
  if 2 ^ 64 <=? cap * SIZE_VALUE then None
  else
    match mem_alloc (cap * SIZE_VALUE) W h with
    | None => None
    | Some (raw, h) => Some (raw, write_cell raw (CElements (replicate (Z.to_nat cap) (UNDEFINED W))) h)
    end.

Definition alloc_array (initial_len : Z) (h : JsHeap) : option Z * JsHeap :=
  match alloc_object CLASS_ARRAY h with
  | (None, h) => (None, h)
  | (Some obj, h) =>
      if initial_len =? 0 then (Some obj, upd_obj (with_array (as_u32 initial_len) (as_u32 initial_len) 0) obj h)
      else
        match alloc_elements initial_len h with
        | None => (None, h)
        | Some (elems, h) =>
            (Some obj, upd_obj (with_array (as_u32 initial_len) (as_u32 initial_len) elems) obj h)
        end
  end.

(** A null pointer stands for the failed allocation, as in the code. *)
Definition alloc_property (kind k : Z) (v : Value) (h : JsHeap) : Z * JsHeap :=
  match mem_alloc SIZE_PROPERTY W h with
  | None => (0, h)
  | Some (raw, h) =>
      (raw, write_cell raw (CProperty {| next := 0; key_kind := kind; key := k; value := v |}) h)
  end.

(** ** The layout invariant: every block inside the region, no two overlapping

    The region is at most 4 GiB, the range of the code's [u32] lengths. *)

Record layout_ok (h : JsHeap) : Prop := {
  lo_start : 0 < start (mem h) /\ start (mem h) `mod` 8 = 0;
  lo_offset : 0 <= offset (mem h) <= size (mem h);
  lo_size : size (mem h) < 2 ^ 32 /\ start (mem h) + size (mem h) <= 2 ^ 64;
  lo_cells : forall a c, cells h !! a = Some c ->
    a `mod` 8 = 0 /\ start (mem h) <= a /\ 0 < cell_size c /\
    a + cell_size c <= start (mem h) + offset (mem h);
  lo_disjoint : forall a b c d, cells h !! a = Some c -> cells h !! b = Some d -> a < b ->
    a + cell_size c <= b
}.

(** The empty heap over a buffer of [sz] bytes at [st]. *)
Definition empty_heap (st sz : Z) : JsHeap :=
  {| mem := {| start := st; size := sz; offset := 0 |}; gc_objects := []; cells := ∅;
     atoms := {| entries := [{| entry_bytes := 0; ref_count := 1 |}]; index := ∅ |};
     prop_maps := ∅; object_proto := UNDEFINED W; array_proto := UNDEFINED W;
     array_push_fn := UNDEFINED W; array_pop_fn := UNDEFINED W |}.

Lemma empty_layout_ok (st sz : Z) :
  0 < st -> st `mod` 8 = 0 -> 0 <= sz < 2 ^ 32 -> st + sz <= 2 ^ 64 -> layout_ok (empty_heap st sz).
Proof. intros. split; simpl; try lia; intros *; by rewrite lookup_empty. Qed.

Lemma align_up_8 (v : Z) : 0 <= v < 2 ^ 64 - 8 -> align_up v W = (v + 7) - (v + 7) `mod` 8.
Proof.
  intros Hv. unfold align_up. change (W =? 0) with false. cbn [negb].
  assert (Hw : wrap W (v + W - 1) = v + 7) by (unfold wrap, word_bits; rewrite Z.mod_small; lia).
  rewrite Hw. apply (as_ptr_eq W (v + 7)); [by left|]. change (2 ^ (8 * 8)) with (2 ^ 64). lia.
Qed.

Lemma mem_alloc_spec (sz : Z) (h h' : JsHeap) (raw : Z) :
  layout_ok h -> 0 < sz -> mem_alloc sz W h = Some (raw, h') ->
  raw `mod` 8 = 0 /\ start (mem h) + offset (mem h) <= raw /\ 0 < raw /\
  raw + sz <= start (mem h) + size (mem h) /\
  h' = with_mem {| start := start (mem h); size := size (mem h);
                   offset := raw + sz - start (mem h) |} h.
Proof.
  intros [[? Ha] ? [? ?] _ _] Hsz. unfold mem_alloc, alloc. rewrite align_up_8 by lia.
  destruct (Z.leb_spec (2 ^ 64) (offset (mem h) + 7 - (offset (mem h) + 7) `mod` 8 + sz)); [done|].
  destruct (Z.ltb_spec (size (mem h)) (offset (mem h) + 7 - (offset (mem h) + 7) `mod` 8 + sz)); [done|].
  intros [= <- <-].
  split; [Z.to_euclidean_division_equations; lia|].
  split; [Z.to_euclidean_division_equations; lia|].
  split; [Z.to_euclidean_division_equations; lia|].
  split; [lia|]. f_equal. f_equal. lia.
Qed.

(** A failed allocation is exactly a full region. *)
Lemma mem_alloc_None (sz : Z) (h : JsHeap) :
  layout_ok h -> 0 < sz ->
  (mem_alloc sz W h = None <-> size (mem h) < offset (mem h) + 7 - (offset (mem h) + 7) `mod` 8 + sz).
Proof.
  intros [_ ? ? _ _] Hsz. unfold mem_alloc, alloc. rewrite align_up_8 by lia.
  set (n := offset (mem h) + 7 - (offset (mem h) + 7) `mod` 8 + sz).
  destruct (Z.leb_spec (2 ^ 64) n); [split; [lia|done]|].
  destruct (Z.ltb_spec (size (mem h)) n); split; (done || lia).
Qed.

(** An address past the allocated part of the region holds no block. *)
Lemma fresh_addr (h : JsHeap) (a : Z) :
  layout_ok h -> start (mem h) + offset (mem h) <= a -> cells h !! a = None.
Proof.
  intros Hlo Ha. destruct (cells h !! a) as [c|] eqn:E; [|done].
  destruct (lo_cells h Hlo a c E) as (? & ? & ? & ?). lia.
Qed.

Lemma cell_nonnull (h : JsHeap) (a : Z) (c : Cell) : layout_ok h -> cells h !! a = Some c -> 0 < a.
Proof. intros Hlo E. pose proof (lo_start h Hlo). destruct (lo_cells h Hlo a c E). lia. Qed.

(** Allocating a block and writing it keeps the layout, and moves nothing. *)
Lemma alloc_write_layout (sz : Z) (c : Cell) (h h1 : JsHeap) (raw : Z) :
  layout_ok h -> cell_size c = sz -> 0 < sz -> mem_alloc sz W h = Some (raw, h1) ->
  layout_ok (write_cell raw c h1).
Proof.
  intros Hlo Hc Hsz Hal. pose proof (fun a => fresh_addr h a Hlo) as Hfr.
  destruct (mem_alloc_spec sz h h1 raw Hlo Hsz Hal) as (Hr8 & Hge & Hr0 & Hle & ->).
  destruct Hlo as [Hs Ho Hz Hcs Hd]. split; simpl; try done; try lia.
  - intros a d [[<- <-] | [Hne Hl]]%lookup_insert_Some; [lia|].
    destruct (Hcs a d Hl) as (? & ? & ? & ?). lia.
  - intros a b d e [[<- <-] | [Hna Hla]]%lookup_insert_Some [[<- <-] | [Hnb Hlb]]%lookup_insert_Some Hlt.
    + lia.
    + destruct (Hcs b e Hlb) as (? & ? & ? & ?). lia.
    + destruct (Hcs a d Hla) as (? & ? & ? & ?). lia.
    + by apply (Hd a b d e).
Qed.

(** Overwriting a block with one of the same size. *)
Lemma write_layout (a : Z) (c c' : Cell) (h : JsHeap) :
  layout_ok h -> cells h !! a = Some c -> cell_size c' = cell_size c -> layout_ok (write_cell a c' h).
Proof.
  intros Hlo Ha Hsz. pose proof Hlo as [Hs Ho Hz Hcs Hd]. split; simpl; try done.
  - intros b d [[<- <-] | [Hne Hl]]%lookup_insert_Some; [|by apply Hcs].
    rewrite Hsz. by apply Hcs.
  - intros b e d f [[<- <-] | [Hna Hla]]%lookup_insert_Some [[<- <-] | [Hnb Hlb]]%lookup_insert_Some Hlt.
    + lia.
    + rewrite Hsz. by apply (Hd a e c f).
    + by apply (Hd b a d c).
    + by apply (Hd b e d f).
Qed.

(** The layout reads the region and the blocks only. *)
Lemma layout_ext (h h' : JsHeap) : mem h' = mem h -> cells h' = cells h -> layout_ok h -> layout_ok h'.
Proof. intros Hm Hc [? ? ? ? ?]. split; rewrite ?Hm, ?Hc; assumption. Qed.
Lemma register_layout (a : Z) (h : JsHeap) : layout_ok h -> layout_ok (register a h).
Proof. by apply layout_ext. Qed.
Lemma with_atoms_layout (t : AtomTable) (h : JsHeap) : layout_ok h -> layout_ok (with_atoms t h).
Proof. by apply layout_ext. Qed.
Lemma with_prop_maps_layout (pm : gmap Z (gmap Z Value)) (h : JsHeap) :
  layout_ok h -> layout_ok (with_prop_maps pm h).
Proof. by apply layout_ext. Qed.

(** ** Allocation of a registered block: strings, floats and objects *)

Record alloc_step (h h' : JsHeap) (raw : Z) (c : Cell) : Prop := {
  al_layout : layout_ok h';
  al_fresh : cells h !! raw = None;
  al_addr : 0 < raw < 2 ^ 64 /\ raw `mod` 8 = 0;
  al_cells : cells h' = <[raw := c]> (cells h);
  al_mem : start (mem h') = start (mem h) /\ size (mem h') = size (mem h) /\
    offset (mem h) + cell_size c <= offset (mem h');
  al_rest : h' = with_mem (mem h') (with_cells (cells h') (register raw h))
}.

(** The shape of the allocators: reserve, register, write. *)
Definition alloc_cell (c : Cell) (h : JsHeap) : option Z * JsHeap :=
  match mem_alloc (cell_size c) W h with
  | None => (None, h)
  | Some (raw, h) => (Some raw, write_cell raw c (register raw h))
  end.

Lemma alloc_cell_spec (c : Cell) (h : JsHeap) : layout_ok h -> 0 < cell_size c ->
  match alloc_cell c h with
  | (None, h') => h' = h /\ mem_alloc (cell_size c) W h = None
  | (Some raw, h') => alloc_step h h' raw c
  end.
Proof.
  intros Hlo Hc. unfold alloc_cell.
  destruct (mem_alloc (cell_size c) W h) as [[raw h1]|] eqn:Hal; [|done].
  pose proof (alloc_write_layout _ c h h1 raw Hlo eq_refl Hc Hal) as Hlo'.
  destruct (mem_alloc_spec _ _ _ _ Hlo Hc Hal) as (? & Hge & ? & Hle & ->).
  pose proof (lo_size _ Hlo). split; try done.
  - exact (register_layout raw _ Hlo').
  - by apply fresh_addr.
  - split; [lia|done].
  - simpl. split; [done|]. split; [done|]. lia.
Qed.

Lemma alloc_float_cell (bits : Z) (h : JsHeap) : alloc_float bits h = alloc_cell (CFloat bits) h.
Proof. done. Qed.

Lemma alloc_object_cell (cls : Z) (h : JsHeap) : alloc_object cls h = alloc_cell (CObject (new_heap_object cls)) h.
Proof. done. Qed.

(** A string's [u32] length is its length, in a region this size. *)
Lemma alloc_string_spec (bs : bytes) (h : JsHeap) : layout_ok h ->
  match alloc_string bs h with
  | (None, h') => h' = h /\ mem_alloc (SIZE_STRING_HEADER + Z.of_nat (length bs) + 1) W h = None
  | (Some raw, h') => alloc_step h h' raw (CString (Z.of_nat (length bs)) bs)
  end.
Proof.
  intros Hlo. pose proof (alloc_cell_spec (CString (as_u32 (Z.of_nat (length bs))) bs) h Hlo) as Hs.
  assert (E : alloc_string bs h = alloc_cell (CString (as_u32 (Z.of_nat (length bs))) bs) h) by done.
  rewrite E. specialize (Hs ltac:(simpl; unfold SIZE_STRING_HEADER; lia)).
  destruct (alloc_cell _ h) as [[raw|] h']; [|exact Hs].
  assert (Hlen : as_u32 (Z.of_nat (length bs)) = Z.of_nat (length bs)); [|by rewrite Hlen in Hs].
  pose proof (al_mem _ _ _ _ Hs) as (? & Hsz & Hof). simpl in Hof. pose proof (al_layout _ _ _ _ Hs) as Hlo'.
  pose proof (lo_offset _ Hlo'). pose proof (lo_size _ Hlo'). pose proof (lo_offset _ Hlo).
  unfold as_u32, SIZE_STRING_HEADER in *. rewrite Z.mod_small; lia.
Qed.

(** What was there stays where and as it was. *)
Lemma alloc_step_mono (h h' : JsHeap) (raw : Z) (c : Cell) (a : Z) (d : Cell) :
  alloc_step h h' raw c -> cells h !! a = Some d -> cells h' !! a = Some d.
Proof.
  intros Hst Ha. rewrite (al_cells _ _ _ _ Hst). rewrite lookup_insert_ne; [done|].
  intros ->. pose proof (al_fresh _ _ _ _ Hst). congruence.
Qed.

Lemma alloc_step_new (h h' : JsHeap) (raw : Z) (c : Cell) : alloc_step h h' raw c -> cells h' !! raw = Some c.
Proof. intros Hst. rewrite (al_cells _ _ _ _ Hst). by rewrite lookup_insert_eq. Qed.
