(* ===== verification/JsProps.v ===== *)
(** * JsProps: the property tables of heap objects

    [src/context.rs]: an object's properties are a singly linked list of nodes in insertion
    order, with a tail pointer and a count; when the count passes [PROP_MAP_THRESHOLD] the
    first insertion builds a hash map of the list's contents, kept outside the heap under the
    object's address, and look-ups go there while the count stays above the threshold.

    The loops over a list run on as many steps as the heap has blocks: the nodes of a list
    are distinct blocks, so in a well-formed heap
    ([heap_ok]) the fuel never runs out. *)
From S2P Require Import Prelude JsValue JsMem.

Definition PROP_KEY_ATOM : Z := 0.
Definition PROP_KEY_INDEX : Z := 1.
Definition PROP_MAP_THRESHOLD : Z := 8.

(** ** Operations *)

Definition prop_map_key (kind k : Z) : Z := Z.lor (Z.shiftl kind 32) k.

Definition heap_fuel (h : JsHeap) : nat := S (base.size (cells h)).

(** The search loop of the list operations: the node with the key and the node before it,
    0 (null) when there is none. *)
Fixpoint scan (fuel : nat) (h : JsHeap) (kind k prev cur : Z) : Z * Z :=
  match fuel with
  | O => (prev, 0)
  | S fuel' =>
      if cur =? 0 then (prev, 0)
      else if (key_kind (prop_at h cur) =? kind) && (key (prop_at h cur) =? k) then (prev, cur)
      else scan fuel' h kind k cur (next (prop_at h cur))
  end.

Definition scan_obj (h : JsHeap) (obj kind k : Z) : Z * Z :=
  scan (heap_fuel h) h kind k 0 (prop_head (obj_at h obj)).

(** The overflow map an operation consults. *)
Definition overflow_map (h : JsHeap) (obj : Z) : option (gmap Z Value) :=
  if PROP_MAP_THRESHOLD <? prop_count (obj_at h obj) then prop_maps h !! obj else None.

Definition find_prop_value (h : JsHeap) (obj kind k : Z) : option Value :=
  match overflow_map h obj with
  | Some map => map !! prop_map_key kind k
  | None =>
      let cur := (scan_obj h obj kind k).2 in
      if cur =? 0 then None else Some (value (prop_at h cur))
  end.

Definition with_next (n : Z) (p : Property) : Property :=
  {| next := n; key_kind := key_kind p; key := key p; value := value p |}.
Definition with_value (v : Value) (p : Property) : Property :=
  {| next := next p; key_kind := key_kind p; key := key p; value := v |}.
Definition upd_prop (f : Property -> Property) (a : Z) (h : JsHeap) : JsHeap :=
  write_cell a (CProperty (f (prop_at h a))) h.

Definition saturating_add_u32 (a b : Z) : Z := Z.min (2 ^ 32 - 1) (a + b).
Definition saturating_sub_u32 (a b : Z) : Z := Z.max 0 (a - b).

(** The insertion both paths of [set_prop_value] end with: a new node at the tail. *)
Definition append_prop (obj kind k : Z) (v : Value) (h : JsHeap) : bool * JsHeap :=
  let '(prop, h) := alloc_property kind k v h in
  if prop =? 0 then (false, h)
  else
    let tail := prop_tail (obj_at h obj) in
    let h :=
      if tail =? 0
      then upd_obj (fun o => with_list prop (prop_tail o) (prop_count o) o) obj h
      else upd_prop (with_next prop) tail h in
    (true, upd_obj (fun o => with_list (prop_head o) prop (saturating_add_u32 (prop_count o) 1) o) obj h).

(** The loop that fills a new overflow map from the list. *)
Fixpoint build_map (fuel : nat) (h : JsHeap) (c : Z) (map : gmap Z Value) : gmap Z Value :=
  match fuel with
  | O => map
  | S fuel' =>
      if c =? 0 then map
      else
        let p := prop_at h c in
        build_map fuel' h (next p) (<[prop_map_key (key_kind p) (key p) := value p]> map)
  end.

Definition set_prop_value (obj kind k : Z) (v : Value) (h : JsHeap) : bool * JsHeap :=
  let mk := prop_map_key kind k in
  match overflow_map h obj with
  | Some map =>
      let h' := with_prop_maps (<[obj := <[mk := v]> map]> (prop_maps h)) h in
      match map !! mk with
      | Some _ =>
          let cur := (scan_obj h' obj kind k).2 in
          if cur =? 0 then (true, h') else (true, upd_prop (with_value v) cur h')
      | None => append_prop obj kind k v h'
      end
  | None =>
      let cur := (scan_obj h obj kind k).2 in
      if negb (cur =? 0) then (true, upd_prop (with_value v) cur h)
      else
        match append_prop obj kind k v h with
        | (false, h) => (false, h)
        | (true, h) =>
            if PROP_MAP_THRESHOLD <? prop_count (obj_at h obj) then
              match prop_maps h !! obj with
              | Some _ => (true, h)
              | None =>
                  let map := build_map (heap_fuel h) h (prop_head (obj_at h obj)) ∅ in
                  (true, with_prop_maps (<[obj := map]> (prop_maps h)) h)
              end
            else (true, h)
        end
  end.

(** The relinking of [delete_prop_value]: the node before the removed one, 0 at the head, is
    made to point to [nxt], and becomes the tail when [nxt] is null. *)
Definition unlink (obj prev nxt : Z) (h : JsHeap) : JsHeap :=
  let h :=
    if prev =? 0
    then upd_obj (fun o => with_list nxt (prop_tail o) (prop_count o) o) obj h
    else upd_prop (with_next nxt) prev h in
  let h :=
    if nxt =? 0
    then upd_obj (fun o => with_list (prop_head o) prev (prop_count o) o) obj h
    else h in
  upd_obj (fun o => with_list (prop_head o) (prop_tail o) (saturating_sub_u32 (prop_count o) 1) o) obj h.

Definition delete_prop_value (obj kind k : Z) (h : JsHeap) : bool * JsHeap :=
  let h :=
    match overflow_map h obj with
    | Some map =>
        with_prop_maps (<[obj := delete (prop_map_key kind k) map]> (prop_maps h)) h
    | None => h
    end in
  let '(prev, cur) := scan_obj h obj kind k in
  if cur =? 0 then (false, h)
  else (true, unlink obj prev (next (prop_at h cur)) h).

(** ** The list as data: what the pointers spell *)

(** A node's address, its key (kind and number) and its value. *)
Abbreviation Entry := ((Z * Z) * Value)%type.
Abbreviation Node := (Z * Entry)%type.

Fixpoint read_list (fuel : nat) (h : JsHeap) (cur : Z) : list Node :=
  match fuel with
  | O => []
  | S fuel' =>
      if cur =? 0 then []
      else
        let p := prop_at h cur in
        (cur, (key_kind p, key p, value p)) :: read_list fuel' h (next p)
  end.

(** The properties of the object at [a], in the order of [Object.keys]. *)
Definition obj_props (h : JsHeap) (a : Z) : list Entry :=
  snd <$> read_list (heap_fuel h) h (prop_head (obj_at h a)).

(** ** The ordered map the list implements *)

Definition has_key (kk : Z * Z) (e : Entry) : bool := bool_decide (e.1 = kk).

Definition table_get (t : list Entry) (kk : Z * Z) : option Value :=
  i ← position (has_key kk) t; snd <$> t !! i.
Definition table_set (t : list Entry) (kk : Z * Z) (v : Value) : list Entry :=
  match position (has_key kk) t with
  | Some i => <[i := (kk, v)]> t
  | None => t ++ [(kk, v)]
  end.
Definition table_delete (t : list Entry) (kk : Z * Z) : list Entry :=
  match position (has_key kk) t with
  | Some i => delete i t
  | None => t
  end.
