(* ===== verification/JsTable.v ===== *)
(** * JsTable: the property list of an object implements an ordered map

    [list_ok] ties an object's head, tail and count to the nodes its list consists of;
    [table_step] says what one table operation may change.  The lemmas show that
    [find_prop_value], [set_prop_value] and [delete_prop_value] compute [table_get],
    [table_set] and [table_delete] when the object's overflow map is in step with its list
    ([in_sync]), and that [set_prop_value] keeps it in step. *)
From S2P Require Import Prelude JsValue JsMem JsProps.

(** ** Segments *)

Definition hd_addr (ns : list Node) (nxt : Z) : Z :=
  match ns with [] => nxt | (a, _) :: _ => a end.
Definition tl_addr (ns : list Node) : Z :=
  match last ns with Some (a, _) => a | None => 0 end.

Definition node_cell (nxt : Z) (e : Entry) : Cell :=
  CProperty {| next := nxt; key_kind := e.1.1; key := e.1.2; value := e.2 |}.

Fixpoint pseg (cs : gmap Z Cell) (ns : list Node) (nxt : Z) : Prop :=
  match ns with
  | [] => True
  | (a, e) :: ns' => 0 < a /\ cs !! a = Some (node_cell (hd_addr ns' nxt) e) /\ pseg cs ns' nxt
  end.

Lemma hd_addr_app (l1 l2 : list Node) (nxt : Z) : hd_addr (l1 ++ l2) nxt = hd_addr l1 (hd_addr l2 nxt).
Proof. by destruct l1 as [|[]]. Qed.

Lemma pseg_app (cs : gmap Z Cell) (l1 l2 : list Node) (nxt : Z) :
  pseg cs (l1 ++ l2) nxt <-> pseg cs l1 (hd_addr l2 nxt) /\ pseg cs l2 nxt.
Proof.
  induction l1 as [|[a e] l1 IH]; simpl; [tauto|]. rewrite IH, hd_addr_app. tauto.
Qed.

(** A segment depends on its own blocks only. *)
Lemma pseg_frame (cs cs' : gmap Z Cell) (ns : list Node) (nxt : Z) :
  (forall a, a ∈ ns.*1 -> cs' !! a = cs !! a) -> pseg cs ns nxt -> pseg cs' ns nxt.
Proof.
  induction ns as [|[a e] ns IH]; simpl; [done|]. intros Hf (? & Ha & Hs).
  split; [done|]. split.
  - rewrite Hf; [done|]. by left.
  - apply IH; [|done]. intros b Hb. apply Hf. by right.
Qed.

Lemma pseg_insert_frame (cs : gmap Z Cell) (ns : list Node) (nxt b : Z) (c : Cell) :
  b ∉ ns.*1 -> pseg cs ns nxt -> pseg (<[b := c]> cs) ns nxt.
Proof.
  intros Hb. apply pseg_frame. intros a Ha. apply lookup_insert_ne. by intros ->.
Qed.

Lemma pseg_lookup (cs : gmap Z Cell) (ns : list Node) (nxt a : Z) :
  pseg cs ns nxt -> a ∈ ns.*1 -> 0 < a /\ exists p, cs !! a = Some (CProperty p).
Proof.
  induction ns as [|[b e] ns IH]; simpl; [intros _ []%elem_of_nil|].
  intros (? & Hb & Hs) [-> | Ha]%elem_of_cons; [|by apply IH].
  split; [done|]. eexists. exact Hb.
Qed.

Lemma tl_addr_snoc (ns : list Node) (a : Z) (e : Entry) : tl_addr (ns ++ [(a, e)]) = a.
Proof. unfold tl_addr. by rewrite last_snoc. Qed.

Lemma tl_addr_zero (cs : gmap Z Cell) (ns : list Node) (nxt : Z) :
  pseg cs ns nxt -> (tl_addr ns = 0 <-> ns = []).
Proof.
  intros Hs. split; [|by intros ->]. destruct ns as [|[a e] ns _] using rev_ind; [done|].
  rewrite tl_addr_snoc. intros ->. apply pseg_app in Hs as [_ [? _]]. lia.
Qed.

(** *** Overwriting one node *)

Lemma fst_disjoint (l1 l2 : list Node) (a : Z) (e : Entry) :
  NoDup (l1 ++ (a, e) :: l2).*1 -> a ∉ l1.*1 /\ a ∉ l2.*1.
Proof.
  rewrite fmap_app, fmap_cons. simpl. intros (_ & Hd & [? _]%NoDup_cons)%NoDup_app.
  split; [|done]. intros Ha. apply (Hd a Ha). by left.
Qed.

(** The node at [a] gets a new value. *)
Lemma pseg_update (cs : gmap Z Cell) (l1 l2 : list Node) (a nxt : Z) (e e' : Entry) :
  NoDup (l1 ++ (a, e) :: l2).*1 -> pseg cs (l1 ++ (a, e) :: l2) nxt ->
  pseg (<[a := node_cell (hd_addr l2 nxt) e']> cs) (l1 ++ (a, e') :: l2) nxt.
Proof.
  intros [Hn1 Hn2]%fst_disjoint [Hl1 (Ha & Hc & Hl2)]%pseg_app.
  apply pseg_app. split; [by apply pseg_insert_frame|]. simpl.
  split; [done|]. split; [by rewrite lookup_insert_eq|]. by apply pseg_insert_frame.
Qed.

(** The last node of a segment is made to point elsewhere. *)
Lemma pseg_relink (cs : gmap Z Cell) (l : list Node) (a nxt nxt' : Z) (e : Entry) :
  NoDup (l ++ [(a, e)]).*1 -> pseg cs (l ++ [(a, e)]) nxt ->
  pseg (<[a := node_cell nxt' e]> cs) (l ++ [(a, e)]) nxt'.
Proof.
  intros [Hn _]%fst_disjoint [Hl (Ha & Hc & _)]%pseg_app.
  apply pseg_app. split; [by apply pseg_insert_frame|]. simpl. by rewrite lookup_insert_eq.
Qed.

(** ** Reading and searching *)

(** [cells h] read as a property at the head of a segment. *)
Lemma prop_at_node (h : JsHeap) (a nxt : Z) (e : Entry) :
  cells h !! a = Some (node_cell nxt e) ->
  prop_at h a = {| next := nxt; key_kind := e.1.1; key := e.1.2; value := e.2 |}.
Proof. unfold prop_at. by intros ->. Qed.

Lemma node_cell_at (h : JsHeap) (a nxt : Z) (e : Entry) (f : Property -> Property) :
  cells h !! a = Some (node_cell nxt e) ->
  cells (upd_prop f a h) =
    <[a := CProperty (f {| next := nxt; key_kind := e.1.1; key := e.1.2; value := e.2 |})]> (cells h).
Proof. intros Ha. unfold upd_prop. by rewrite (prop_at_node h a nxt e Ha). Qed.

Lemma read_list_nodes (h : JsHeap) (ns : list Node) (fuel : nat) :
  pseg (cells h) ns 0 -> (length ns < fuel)%nat -> read_list fuel h (hd_addr ns 0) = ns.
Proof.
  revert fuel. induction ns as [|[a [[kd k] v]] ns IH]; intros [|fuel] Hs Hf; simpl in *; try lia; [done|].
  destruct Hs as (Ha & Hc & Hs). destruct (Z.eqb_spec a 0); [lia|].
  rewrite (prop_at_node _ _ _ _ Hc). simpl. f_equal. apply IH; [done|lia].
Qed.

(** Searching: the first node with the key, and the one before it. *)
Lemma scan_nodes (h : JsHeap) (kind k : Z) (ns : list Node) (fuel : nat) (prev : Z) :
  pseg (cells h) ns 0 -> (length ns < fuel)%nat ->
  (exists l1 a v l2, ns = l1 ++ (a, (kind, k, v)) :: l2 /\ Forall (fun n => n.2.1 <> (kind, k)) l1 /\
     scan fuel h kind k prev (hd_addr ns 0) = (default prev (fst <$> last l1), a) /\ 0 < a) \/
  (Forall (fun n => n.2.1 <> (kind, k)) ns /\
   scan fuel h kind k prev (hd_addr ns 0) = (default prev (fst <$> last ns), 0)).
Proof.
  revert fuel prev.
  induction ns as [|[a [[kd kk] v]] ns IH]; intros [|fuel] prev Hs Hf; simpl in Hf; try lia.
  { right. split; [constructor|done]. }
  destruct Hs as (Ha & Hc & Hs). simpl. destruct (Z.eqb_spec a 0); [lia|].
  rewrite (prop_at_node _ _ _ _ Hc). simpl.
  destruct ((kd =? kind) && (kk =? k)) eqn:E.
  { apply andb_true_iff in E as [->%Z.eqb_eq ->%Z.eqb_eq]. left.
    exists [], a, v, ns. split_and!; [done|constructor|done|lia]. }
  assert (Hne : (kd, kk) <> (kind, k)) by (intros [= -> ->]; by rewrite !Z.eqb_refl in E).
  destruct (IH fuel a Hs) as [(l1 & b & w & l2 & -> & Hl1 & Hsc & Hb) | [Hns Hsc]]; [lia| |].
  - left. exists ((a, (kd, kk, v)) :: l1), b, w, l2. split_and!; [done|by constructor| |done].
    rewrite Hsc. destruct l1 as [|n1 l1]; [done|].
    change (last ((a, (kd, kk, v)) :: n1 :: l1)) with (last (n1 :: l1)).
    by destruct (last (n1 :: l1)) eqn:E1; [|apply last_None in E1].
  - right. split; [by constructor|]. rewrite Hsc. destruct ns as [|n1 l1]; [done|].
    change (last ((a, (kd, kk, v)) :: n1 :: l1)) with (last (n1 :: l1)).
    by destruct (last (n1 :: l1)) eqn:E1; [|apply last_None in E1].
Qed.

(** Nodes are distinct blocks, so the fuel of the loops covers a list. *)
Lemma nodes_fit (h : JsHeap) (ns : list Node) (nxt : Z) :
  pseg (cells h) ns nxt -> NoDup ns.*1 -> (length ns < heap_fuel h)%nat.
Proof.
  intros Hs Hnd. unfold heap_fuel. apply le_n_S. rewrite <- (length_fmap fst), <- size_dom.
  rewrite <- (size_list_to_set (C := gset Z) ns.*1) by done. apply subseteq_size.
  intros a Ha%elem_of_list_to_set. destruct (pseg_lookup _ _ _ _ Hs Ha) as (_ & p & Hp).
  by apply elem_of_dom_2 in Hp.
Qed.

(** The loop that fills an overflow map. *)
Lemma build_map_nodes (h : JsHeap) (ns : list Node) (fuel : nat) (m : gmap Z Value) :
  pseg (cells h) ns 0 -> (length ns < fuel)%nat ->
  build_map fuel h (hd_addr ns 0) m =
    fold_left (fun m n => <[prop_map_key n.2.1.1 n.2.1.2 := n.2.2]> m) ns m.
Proof.
  revert fuel m. induction ns as [|[a [[kd k] v]] ns IH]; intros [|fuel] m Hs Hf; simpl in *; try lia; [done|].
  destruct Hs as (Ha & Hc & Hs). destruct (Z.eqb_spec a 0); [lia|].
  rewrite (prop_at_node _ _ _ _ Hc). simpl. apply IH; [done|lia].
Qed.

(** ** Ordered maps as lists *)

Lemma has_key_split (kk : Z * Z) (l1 l2 : list Entry) (v : Value) :
  Forall (fun e => e.1 <> kk) l1 -> position (has_key kk) (l1 ++ (kk, v) :: l2) = Some (length l1).
Proof.
  induction 1 as [|e l1 He _ IH]; simpl.
  - unfold has_key. simpl. by rewrite bool_decide_eq_true_2.
  - unfold has_key at 1. rewrite bool_decide_eq_false_2 by done. by rewrite IH.
Qed.

Lemma has_key_none (kk : Z * Z) (t : list Entry) :
  Forall (fun e => e.1 <> kk) t -> position (has_key kk) t = None.
Proof.
  intros H. apply position_None. eapply Forall_impl; [exact H|].
  intros e He. by apply bool_decide_eq_false_2.
Qed.

Section TableSplit.
Context (kk : Z * Z) (l1 l2 : list Entry) (v : Value).
Context (Hl1 : Forall (fun e => e.1 <> kk) l1).

Lemma table_get_split : table_get (l1 ++ (kk, v) :: l2) kk = Some v.
Proof. unfold table_get. rewrite has_key_split by done. simpl. by rewrite list_lookup_middle. Qed.

Lemma table_set_split (v' : Value) : table_set (l1 ++ (kk, v) :: l2) kk v' = l1 ++ (kk, v') :: l2.
Proof.
  unfold table_set. rewrite has_key_split by done.
  by rewrite (insert_app_r_alt l1 _ (length l1)), Nat.sub_diag by lia.
Qed.

Lemma table_delete_split : table_delete (l1 ++ (kk, v) :: l2) kk = l1 ++ l2.
Proof. unfold table_delete. rewrite has_key_split by done. by rewrite delete_middle. Qed.

End TableSplit.

Section TableNone.
Context (kk : Z * Z) (t : list Entry) (Ht : Forall (fun e => e.1 <> kk) t).

Lemma table_get_none : table_get t kk = None.
Proof. unfold table_get. by rewrite has_key_none. Qed.
Lemma table_set_none (v : Value) : table_set t kk v = t ++ [(kk, v)].
Proof. unfold table_set. by rewrite has_key_none. Qed.
Lemma table_delete_none : table_delete t kk = t.
Proof. unfold table_delete. by rewrite has_key_none. Qed.

End TableNone.

(** Every key of a table is there or it is not, the first one deciding. *)
Lemma table_cases (kk : Z * Z) (t : list Entry) :
  (exists l1 v l2, t = l1 ++ (kk, v) :: l2 /\ Forall (fun e => e.1 <> kk) l1) \/
  Forall (fun e => e.1 <> kk) t.
Proof.
  induction t as [|[k' v] t IH]; [right; constructor|].
  destruct (decide (k' = kk)) as [-> | Hne]; [left; by exists [], v, t|].
  destruct IH as [(l1 & w & l2 & -> & H) | H]; [left|right; by constructor].
  exists ((k', v) :: l1), w, l2. split; [done|by constructor].
Qed.

(** The laws of an ordered map. *)
Lemma table_get_cons (e : Entry) (t : list Entry) (kk : Z * Z) :
  table_get (e :: t) kk = if decide (e.1 = kk) then Some e.2 else table_get t kk.
Proof.
  unfold table_get. simpl. unfold has_key at 1.
  destruct (decide (e.1 = kk)); [by rewrite bool_decide_eq_true_2|].
  rewrite bool_decide_eq_false_2 by done. by destruct (position (has_key kk) t).
Qed.

Lemma table_get_app (t1 t2 : list Entry) (kk : Z * Z) :
  table_get (t1 ++ t2) kk = match table_get t1 kk with Some v => Some v | None => table_get t2 kk end.
Proof.
  induction t1 as [|e t1 IH]; [done|]. simpl. rewrite !table_get_cons, IH.
  by destruct (decide (e.1 = kk)).
Qed.

Lemma table_get_set (t : list Entry) (kk kk' : Z * Z) (v : Value) :
  table_get (table_set t kk v) kk' = if decide (kk = kk') then Some v else table_get t kk'.
Proof.
  destruct (table_cases kk t) as [(l1 & w & l2 & -> & Hl1) | Ht].
  - rewrite table_set_split by done. rewrite !table_get_app, !table_get_cons. cbn [fst snd].
    destruct (decide (kk = kk')) as [<- | Hne]; [|done]. by rewrite table_get_none.
  - rewrite table_set_none, table_get_app, table_get_cons by done. cbn [fst snd].
    destruct (decide (kk = kk')) as [<- | Hne]; [by rewrite table_get_none|].
    by destruct (table_get t kk').
Qed.

Lemma table_absent (t : list Entry) (kk : Z * Z) : kk ∉ t.*1 <-> Forall (fun e => e.1 <> kk) t.
Proof.
  rewrite Forall_forall. split.
  - intros Hk e He <-. apply Hk. by apply list_elem_of_fmap_2.
  - intros Hf (e & -> & He)%list_elem_of_fmap. by apply (Hf e He).
Qed.

Lemma table_get_delete (t : list Entry) (kk kk' : Z * Z) : NoDup t.*1 ->
  table_get (table_delete t kk) kk' = if decide (kk = kk') then None else table_get t kk'.
Proof.
  intros Hnd. destruct (table_cases kk t) as [(l1 & w & l2 & -> & Hl1) | Ht].
  - rewrite table_delete_split by done. rewrite fmap_app, fmap_cons in Hnd.
    apply NoDup_app in Hnd as (_ & _ & [Hk%table_absent _]%NoDup_cons).
    rewrite !table_get_app, table_get_cons. cbn [fst snd].
    destruct (decide (kk = kk')) as [<- | Hne]; [|done]. by rewrite !table_get_none.
  - rewrite table_delete_none by done.
    destruct (decide (kk = kk')) as [<- | Hne]; [by rewrite table_get_none|done].
Qed.

Lemma table_set_keys (t : list Entry) (kk : Z * Z) (v : Value) :
  (table_set t kk v).*1 = if bool_decide (kk ∈ t.*1) then t.*1 else t.*1 ++ [kk].
Proof.
  destruct (table_cases kk t) as [(l1 & w & l2 & -> & Hl1) | Ht].
  - rewrite table_set_split, bool_decide_eq_true_2; [by rewrite !fmap_app|rewrite fmap_app; set_solver|done].
  - rewrite table_set_none, bool_decide_eq_false_2; [by rewrite fmap_app|by apply table_absent|done].
Qed.

(** ** The invariant of a property list *)

(** A key as the callers make them: an atom id or an array index, 32 bits. *)
Definition key_ok (kk : Z * Z) : Prop :=
  (kk.1 = PROP_KEY_ATOM \/ kk.1 = PROP_KEY_INDEX) /\ 0 <= kk.2 < 2 ^ 32.

Lemma prop_map_key_eq (kind k : Z) : key_ok (kind, k) -> prop_map_key kind k = kind * 2 ^ 32 + k.
Proof.
  intros [_ Hk]. unfold prop_map_key. rewrite Z.shiftl_mul_pow2 by done.
  apply lor_disjoint. by apply land_low.
Qed.

Lemma prop_map_key_inj (k1 k2 : Z * Z) : key_ok k1 -> key_ok k2 ->
  prop_map_key k1.1 k1.2 = prop_map_key k2.1 k2.2 -> k1 = k2.
Proof.
  destruct k1 as [a b], k2 as [c d]. intros H1 H2. simpl.
  rewrite !prop_map_key_eq by done. destruct H1 as [_ ?], H2 as [_ ?]. simpl in *.
  intros. f_equal; lia.
Qed.

Record list_ok (h : JsHeap) (o : HeapObject) (ns : list Node) : Prop := {
  li_seg : pseg (cells h) ns 0;
  li_nodup : NoDup ns.*1;
  li_keys : NoDup ns.*2.*1;
  li_keyok : Forall key_ok ns.*2.*1;
  li_head : prop_head o = hd_addr ns 0;
  li_tail : prop_tail o = tl_addr ns;
  li_count : prop_count o = Z.of_nat (length ns);
  li_room : SIZE_PROPERTY * Z.of_nat (length ns) <= offset (mem h)
}.

Lemma obj_at_cell (h : JsHeap) (a : Z) (o : HeapObject) : cells h !! a = Some (CObject o) -> obj_at h a = o.
Proof. unfold obj_at. by intros ->. Qed.

Lemma obj_props_nodes (h : JsHeap) (a : Z) (o : HeapObject) (ns : list Node) :
  cells h !! a = Some (CObject o) -> list_ok h o ns -> obj_props h a = ns.*2.
Proof.
  intros Ha Hl. unfold obj_props. rewrite (obj_at_cell _ _ _ Ha), (li_head _ _ _ Hl).
  rewrite read_list_nodes; [done|apply Hl|]. eapply nodes_fit; apply Hl.
Qed.

(** What the search finds, in terms of the table. *)
Lemma scan_obj_cases (h : JsHeap) (a kind k : Z) (o : HeapObject) (ns : list Node) :
  cells h !! a = Some (CObject o) -> list_ok h o ns ->
  (exists l1 b v l2, ns = l1 ++ (b, ((kind, k), v)) :: l2 /\
     Forall (fun e => e.1 <> (kind, k)) l1.*2 /\ scan_obj h a kind k = (tl_addr l1, b) /\ 0 < b) \/
  (Forall (fun e => e.1 <> (kind, k)) ns.*2 /\ scan_obj h a kind k = (tl_addr ns, 0)).
Proof.
  intros Ha Hl. unfold scan_obj. rewrite (obj_at_cell _ _ _ Ha), (li_head _ _ _ Hl).
  assert (Hd : forall l : list Node, default 0 (fst <$> last l) = tl_addr l)
    by (intros l; unfold tl_addr; by destruct (last l) as [[]|]).
  assert (Hf : forall l : list Node, Forall (fun n => n.2.1 <> (kind, k)) l ->
    Forall (fun e : Entry => e.1 <> (kind, k)) l.*2) by (intros l; by rewrite Forall_fmap).
  destruct (scan_nodes h kind k ns (heap_fuel h) 0 (li_seg _ _ _ Hl)) as
    [(l1 & b & v & l2 & -> & Hl1 & Hs & Hb) | [Hns Hs]].
  - eapply nodes_fit; apply Hl.
  - left. exists l1, b, v, l2. rewrite Hs, Hd. auto.
  - right. rewrite Hs, Hd. auto.
Qed.

(** ** Keeping the overflow map in step *)

(** The overflow map of [a], when there is one, holds the list's contents, and it is
    consulted: the count is past the threshold. *)
Definition in_sync (h : JsHeap) (a : Z) : Prop :=
  match prop_maps h !! a with
  | None => True
  | Some m =>
      PROP_MAP_THRESHOLD < prop_count (obj_at h a) /\
      forall kk, key_ok kk -> m !! prop_map_key kk.1 kk.2 = table_get (obj_props h a) kk
  end.

Lemma overflow_map_sync (h : JsHeap) (a : Z) : in_sync h a ->
  (overflow_map h a = prop_maps h !! a) /\
  (forall m kk, prop_maps h !! a = Some m -> key_ok kk ->
     m !! prop_map_key kk.1 kk.2 = table_get (obj_props h a) kk).
Proof.
  unfold in_sync, overflow_map. destruct (prop_maps h !! a) as [m|]; intros Hs.
  - destruct Hs as [Hc Hm]. split; [|by intros m' kk [= <-] ?; apply Hm].
    by destruct (Z.ltb_spec PROP_MAP_THRESHOLD (prop_count (obj_at h a))); [|lia].
  - split; [by destruct (_ <? _)|done].
Qed.

Lemma find_prop_value_table (h : JsHeap) (a kind k : Z) (o : HeapObject) (ns : list Node) :
  cells h !! a = Some (CObject o) -> list_ok h o ns -> in_sync h a -> key_ok (kind, k) ->
  find_prop_value h a kind k = table_get (obj_props h a) (kind, k).
Proof.
  intros Ha Hl [Hov Hm]%overflow_map_sync Hk. unfold find_prop_value. rewrite Hov.
  destruct (prop_maps h !! a) as [m|]; [by apply (Hm m (kind, k))|].
  rewrite (obj_props_nodes h a o ns) by done.
  destruct (scan_obj_cases h a kind k o ns Ha Hl) as [(l1 & b & v & l2 & -> & Hf & -> & Hb) | [Hf ->]]; simpl.
  - destruct (Z.eqb_spec b 0); [lia|]. rewrite fmap_app, fmap_cons. simpl.
    rewrite table_get_split by done. destruct (proj1 (pseg_app _ _ _ _) (li_seg _ _ _ Hl)) as [_ (_ & Hc & _)].
    by rewrite (prop_at_node _ _ _ _ Hc).
  - by rewrite table_get_none.
Qed.

(** ** One table operation *)

Definition relist (ns : list Node) (o : HeapObject) : HeapObject :=
  with_list (hd_addr ns 0) (tl_addr ns) (Z.of_nat (length ns)) o.

(** [h'] is [h] after the object at [a] had its list changed from [ns] to [ns']. *)
Record table_step (h h' : JsHeap) (a : Z) (o : HeapObject) (ns ns' : list Node) : Prop := {
  ts_layout : layout_ok h';
  ts_obj : cells h' !! a = Some (CObject (relist ns' o));
  ts_list : list_ok h' (relist ns' o) ns';
  ts_frame : forall b c, cells h !! b = Some c -> b <> a -> b ∉ ns.*1 -> cells h' !! b = Some c;
  ts_nodes : forall b, b ∈ ns'.*1 -> b ∈ ns.*1 \/ cells h !! b = None;
  ts_kind : forall b, b ∈ ns.*1 \/ cells h !! b = None ->
    cells h' !! b = None \/ exists p, cells h' !! b = Some (CProperty p);
  ts_rest : exists off cs pm,
    h' = with_mem {| start := start (mem h); size := size (mem h); offset := off |}
           (with_cells cs (with_prop_maps pm h)) /\
    offset (mem h) <= off;
  ts_maps : forall b, b <> a -> prop_maps h' !! b = prop_maps h !! b
}.

Lemma upd_obj_cells (f : HeapObject -> HeapObject) (a : Z) (o : HeapObject) (h : JsHeap) :
  cells h !! a = Some (CObject o) -> cells (upd_obj f a h) = <[a := CObject (f o)]> (cells h).
Proof. intros Ha. unfold upd_obj. by rewrite (obj_at_cell _ _ _ Ha). Qed.

Lemma upd_obj_layout (f : HeapObject -> HeapObject) (a : Z) (o : HeapObject) (h : JsHeap) :
  layout_ok h -> cells h !! a = Some (CObject o) -> layout_ok (upd_obj f a h).
Proof. intros Hlo Ha. by apply (write_layout a (CObject o)). Qed.

Lemma upd_prop_layout (f : Property -> Property) (a : Z) (p : Property) (h : JsHeap) :
  layout_ok h -> cells h !! a = Some (CProperty p) -> layout_ok (upd_prop f a h).
Proof. intros Hlo Ha. by apply (write_layout a (CProperty p)). Qed.

Lemma relist_id (h : JsHeap) (o : HeapObject) (ns : list Node) : list_ok h o ns -> relist ns o = o.
Proof.
  intros Hl. unfold relist. rewrite <- (li_head _ _ _ Hl), <- (li_tail _ _ _ Hl), <- (li_count _ _ _ Hl).
  by destruct o.
Qed.

(** An object is no node of its own list. *)
Lemma obj_not_node (h : JsHeap) (a : Z) (o : HeapObject) (ns : list Node) (nxt : Z) :
  cells h !! a = Some (CObject o) -> pseg (cells h) ns nxt -> a ∉ ns.*1.
Proof. intros Ha Hs Hin. destruct (pseg_lookup _ _ _ _ Hs Hin) as (_ & p & Hp). congruence. Qed.

(** A step that changes blocks of the object and its list only. *)
Lemma table_step_same_mem (h : JsHeap) (a : Z) (o : HeapObject) (ns ns' : list Node)
    (cs : gmap Z Cell) :
  layout_ok (with_cells cs h) ->
  cs !! a = Some (CObject (relist ns' o)) -> pseg cs ns' 0 ->
  NoDup ns'.*1 -> NoDup ns'.*2.*1 -> Forall key_ok ns'.*2.*1 ->
  SIZE_PROPERTY * Z.of_nat (length ns') <= offset (mem h) ->
  (forall b, b <> a -> b ∉ ns.*1 -> cs !! b = cells h !! b) ->
  (forall b, b ∈ ns'.*1 -> b ∈ ns.*1) ->
  (forall b, b ∈ ns.*1 -> exists p, cs !! b = Some (CProperty p)) ->
  cells h !! a = Some (CObject o) ->
  table_step h (with_cells cs h) a o ns ns'.
Proof.
  intros Hlo Ha Hs Hn Hk Hok Hroom Hfr Hsub Hkind Ha0. split; simpl; try done.
  - intros b c Hb Hne Hnin. by rewrite Hfr.
  - auto.
  - intros b Hb. destruct (decide (b ∈ ns.*1)) as [Hin | Hnin]; [right; by apply Hkind|].
    destruct Hb as [Hb | Hb]; [done|]. left.
    destruct (decide (b = a)) as [-> | Hne]; [congruence|]. by rewrite Hfr.
  - exists (offset (mem h)), cs, (prop_maps h). split; [|lia]. by destruct h as [[] ? ? ? ? ? ? ? ?].
Qed.

Lemma node_mem (l1 l2 : list Node) (b : Z) (e : Entry) : b ∈ (l1 ++ (b, e) :: l2).*1.
Proof. rewrite fmap_app. apply elem_of_app. right. by left. Qed.

(** A key of the table gets a new value. *)
Lemma update_step (h : JsHeap) (a b kind k : Z) (v v' : Value) (o : HeapObject) (l1 l2 : list Node) :
  layout_ok h -> cells h !! a = Some (CObject o) ->
  list_ok h o (l1 ++ (b, ((kind, k), v)) :: l2) ->
  table_step h (upd_prop (with_value v') b h) a o
    (l1 ++ (b, ((kind, k), v)) :: l2) (l1 ++ (b, ((kind, k), v')) :: l2).
Proof.
  intros Hlo Ha Hl. pose proof (li_seg _ _ _ Hl) as Hs. pose proof (li_nodup _ _ _ Hl) as Hn.
  assert (Hab : a <> b).
  { intros ->. apply (obj_not_node h b o _ _ Ha Hs), node_mem. }
  assert (Hc : cells h !! b = Some (node_cell (hd_addr l2 0) ((kind, k), v))) by (by apply pseg_app in Hs as (_ & _ & ? & _)).
  assert (Haddr : (l1 ++ (b, ((kind, k), v')) :: l2).*1 = (l1 ++ (b, ((kind, k), v)) :: l2).*1)
    by (by rewrite !fmap_app).
  assert (Hkeys : (l1 ++ (b, ((kind, k), v')) :: l2).*2.*1 = (l1 ++ (b, ((kind, k), v)) :: l2).*2.*1)
    by (by rewrite !fmap_app).
  assert (Hre : relist (l1 ++ (b, ((kind, k), v')) :: l2) o = o).
  { rewrite <- (relist_id h o _ Hl) at 2. unfold relist, tl_addr.
    rewrite !hd_addr_app, !last_app, !length_app. by destruct l2. }
  unfold upd_prop. rewrite (prop_at_node _ _ _ _ Hc).
  apply table_step_same_mem; rewrite ?Hre, ?Haddr, ?Hkeys; try apply Hl; try done.
  - by apply (write_layout b (node_cell (hd_addr l2 0) ((kind, k), v))).
  - by rewrite lookup_insert_ne.
  - by apply (pseg_update _ l1 l2 b 0 ((kind, k), v) ((kind, k), v')).
  - pose proof (li_room _ _ _ Hl) as Hr. by rewrite length_app in *.
  - intros c Hca Hcn. rewrite lookup_insert_ne; [done|]. intros <-. apply Hcn, node_mem.
  - intros c Hin. destruct (decide (c = b)) as [-> | Hne]; [rewrite lookup_insert_eq; eauto|].
    rewrite lookup_insert_ne by done. by destruct (pseg_lookup _ _ _ _ Hs Hin).
Qed.

(** *** Removing a key *)

Lemma fmap_sublist {A B} (f : A -> B) (l1 l2 : list A) : l1 `sublist_of` l2 -> f <$> l1 `sublist_of` f <$> l2.
Proof. induction 1; simpl; by constructor. Qed.

Lemma upd_obj_twice (f g : HeapObject -> HeapObject) (a : Z) (o : HeapObject) (h : JsHeap) :
  cells h !! a = Some (CObject o) -> upd_obj g a (upd_obj f a h) = upd_obj (fun x => g (f x)) a h.
Proof.
  intros Ha. unfold upd_obj at 1. unfold write_cell, with_cells.
  rewrite (obj_at_cell _ a (f o)) by (rewrite (upd_obj_cells f a o h Ha); by rewrite lookup_insert_eq).
  unfold upd_obj, write_cell, with_cells. simpl. rewrite insert_insert_eq.
  by rewrite (obj_at_cell h a o Ha).
Qed.

Lemma upd_obj_ext (f g : HeapObject -> HeapObject) (a : Z) (o : HeapObject) (h : JsHeap) :
  cells h !! a = Some (CObject o) -> f o = g o -> upd_obj f a h = upd_obj g a h.
Proof. intros Ha E. unfold upd_obj. by rewrite (obj_at_cell _ _ _ Ha), E. Qed.

(** [unlink] is one update of the object, after the predecessor's. *)
Lemma unlink_cells (a nxt : Z) (o : HeapObject) (h : JsHeap) (l1 l2 : list Node) (e : Node) :
  cells h !! a = Some (CObject o) -> list_ok h o (l1 ++ e :: l2) -> nxt = hd_addr l2 0 ->
  unlink a (tl_addr l1) nxt h =
    upd_obj (relist (l1 ++ l2)) a
      (if tl_addr l1 =? 0 then h else upd_prop (with_next nxt) (tl_addr l1) h).
Proof.
  intros Ha Hl ->. pose proof (li_seg _ _ _ Hl) as Hs. destruct e as [b e].
  assert (Hl1 : tl_addr l1 = 0 <-> l1 = []) by (apply pseg_app in Hs as [Hs _]; by eapply tl_addr_zero).
  assert (Hl2 : hd_addr l2 0 = 0 <-> l2 = []).
  { destruct l2 as [|[c d] l2]; [done|]. apply pseg_app in Hs as (_ & _ & _ & ? & _). split; [simpl; lia|done]. }
  assert (Htl : prop_tail o = tl_addr (l1 ++ (b, e) :: l2)) by apply Hl.
  assert (Hhd : prop_head o = hd_addr (l1 ++ (b, e) :: l2) 0) by apply Hl.
  assert (Hct : prop_count o = Z.of_nat (length (l1 ++ (b, e) :: l2))) by apply Hl.
  assert (Ha0 : tl_addr l1 <> 0 -> cells (upd_prop (with_next (hd_addr l2 0)) (tl_addr l1) h) !! a = Some (CObject o)).
  { intros Hne. unfold upd_prop, write_cell. simpl. rewrite lookup_insert_ne; [done|]. intros E.
    apply (obj_not_node h a o _ _ Ha Hs). destruct l1 as [|[c d] l1' _] using rev_ind; [done|].
    rewrite tl_addr_snoc in E. subst c. rewrite <- (app_assoc l1'). apply node_mem. }
  assert (Hsat : saturating_sub_u32 (prop_count o) 1 = Z.of_nat (length (l1 ++ l2))).
  { rewrite Hct. unfold saturating_sub_u32. rewrite !length_app. simpl. lia. }
  assert (Hlast : l2 <> [] -> tl_addr (l1 ++ l2) = prop_tail o).
  { intros Hne. rewrite Htl. unfold tl_addr. rewrite !last_app, last_cons. by destruct (last l2) eqn:E; [|apply last_None in E]. }
  unfold unlink.
  destruct (Z.eqb_spec (tl_addr l1) 0) as [E1 | E1]; destruct (Z.eqb_spec (hd_addr l2 0) 0) as [E2 | E2];
    rewrite ?(upd_obj_twice _ _ a o h Ha), ?(upd_obj_twice _ _ a o _ (Ha0 E1)); apply (upd_obj_ext _ _ a o); auto;
    unfold relist, with_list; simpl; rewrite Hsat.
  - apply Hl1 in E1 as ->. by apply Hl2 in E2 as ->.
  - apply Hl1 in E1 as ->. rewrite <- Hlast; [done|]. by intros ->.
  - apply Hl2 in E2 as ->. rewrite app_nil_r, Hhd, hd_addr_app. f_equal. by destruct l1 as [|[]].
  - rewrite Hlast by (by intros ->). rewrite Hhd, !hd_addr_app. f_equal. by destruct l1 as [|[]].
Qed.

Lemma delete_step (h : JsHeap) (a b kind k : Z) (v : Value) (o : HeapObject) (l1 l2 : list Node) :
  layout_ok h -> cells h !! a = Some (CObject o) ->
  list_ok h o (l1 ++ (b, ((kind, k), v)) :: l2) ->
  table_step h (unlink a (tl_addr l1) (hd_addr l2 0) h) a o
    (l1 ++ (b, ((kind, k), v)) :: l2) (l1 ++ l2).
Proof.
  intros Hlo Ha Hl. pose proof (li_seg _ _ _ Hl) as Hs. pose proof (li_nodup _ _ _ Hl) as Hn.
  rewrite (unlink_cells a _ o h l1 l2 (b, ((kind, k), v))) by done.
  pose proof (obj_not_node h a o _ _ Ha Hs) as Hnot.
  assert (Hsub : (l1 ++ l2) `sublist_of` (l1 ++ (b, ((kind, k), v)) :: l2)).
  { apply sublist_app; [done|]. by constructor. }
  set (h0 := if tl_addr l1 =? 0 then h else upd_prop (with_next (hd_addr l2 0)) (tl_addr l1) h).
  assert (H0 : exists cs, h0 = with_cells cs h /\ layout_ok h0 /\ cs !! a = Some (CObject o) /\ pseg cs (l1 ++ l2) 0 /\
      (forall c, c ∉ (l1 ++ (b, ((kind, k), v)) :: l2).*1 -> cs !! c = cells h !! c) /\
      (forall c, c ∈ (l1 ++ (b, ((kind, k), v)) :: l2).*1 -> exists p, cs !! c = Some (CProperty p))).
  { unfold h0. destruct l1 as [|[p e] l1' _] using rev_ind.
    - exists (cells h). split_and!; try done; [by destruct h|by apply Hs|].
      intros c Hc. by apply (pseg_lookup _ _ _ _ Hs).
    - rewrite tl_addr_snoc.
      assert (Heq : forall l, (l1' ++ [(p, e)]) ++ l = l1' ++ (p, e) :: l) by (intros; by rewrite <- app_assoc).
      rewrite !Heq in Hs, Hn, Hnot |- *.
      pose proof Hs as (Hs1 & Hp0 & Hp & Hb0 & Hb & Hs2)%pseg_app.
      destruct (Z.eqb_spec p 0); [lia|].
      unfold upd_prop. rewrite (prop_at_node _ _ _ _ Hp).
      exists (<[p := node_cell (hd_addr l2 0) e]> (cells h)).
      assert (Hpa : p <> a) by (intros ->; apply Hnot, node_mem).
      split_and!.
      + done.
      + by apply (write_layout p (node_cell b e)).
      + by rewrite lookup_insert_ne.
      + apply fst_disjoint in Hn as Hd. destruct Hd as [Hd1 Hd2]. rewrite fmap_cons in Hd2. simpl in Hd2.
        apply not_elem_of_cons in Hd2 as [_ Hd2].
        apply pseg_app. split; [by apply pseg_insert_frame|]. simpl.
        split; [done|]. split; [by rewrite lookup_insert_eq|]. by apply pseg_insert_frame.
      + intros c Hc. rewrite Heq in Hc. rewrite lookup_insert_ne; [done|]. intros <-. apply Hc, node_mem.
      + intros c Hc. rewrite Heq in Hc. destruct (decide (c = p)) as [-> | Hne]; [rewrite lookup_insert_eq; by eexists|].
        rewrite lookup_insert_ne by done. by apply (pseg_lookup _ _ _ _ Hs). }
  destruct H0 as (cs & E & Hlo0 & Ha0 & Hs0 & Hfr & Hk). rewrite E in *. clear E h0.
  unfold upd_obj, write_cell. rewrite (obj_at_cell _ a o) by done.
  change (with_cells (<[a := CObject (relist (l1 ++ l2) o)]> (cells (with_cells cs h))) (with_cells cs h))
    with (with_cells (<[a := CObject (relist (l1 ++ l2) o)]> cs) h).
  apply table_step_same_mem; try done.
  - apply (write_layout a (CObject o) (CObject (relist (l1 ++ l2) o)) (with_cells cs h)); done.
  - by rewrite lookup_insert_eq.
  - apply pseg_insert_frame; [|done]. intros Hin. apply Hnot.
    by eapply elem_of_sublist; [|apply fmap_sublist].
  - eapply sublist_NoDup; [exact Hn|]. by apply fmap_sublist.
  - eapply sublist_NoDup; [exact (li_keys _ _ _ Hl)|]. by do 2 apply fmap_sublist.
  - apply Forall_forall. intros kk Hkk. apply (proj1 (Forall_forall _ _) (li_keyok _ _ _ Hl)).
    eapply elem_of_sublist; [exact Hkk|]. by do 2 apply fmap_sublist.
  - pose proof (li_room _ _ _ Hl) as Hr. rewrite length_app in *. simpl in Hr. unfold SIZE_PROPERTY in *. lia.
  - intros c Hca Hcn. rewrite lookup_insert_ne by done. by apply Hfr.
  - intros c Hc. eapply elem_of_sublist; [exact Hc|]. by apply fmap_sublist.
  - intros c Hin. rewrite lookup_insert_ne by (intros ->; by apply Hnot). by apply Hk.
Qed.

(** *** Appending a key *)

(** The node linked behind the list, and the object's new tail and count. *)
Lemma append_link (h : JsHeap) (a raw : Z) (e : Entry) (o : HeapObject) (ns : list Node) (cs : gmap Z Cell) :
  pseg cs ns 0 -> NoDup ns.*1 -> cs !! a = Some (CObject o) -> raw ∉ ns.*1 -> 0 < raw ->
  cs !! raw = Some (node_cell 0 e) -> a <> raw ->
  exists cs', pseg cs' (ns ++ [(raw, e)]) 0 /\ cs' !! a = Some (CObject o) /\
    (forall c, c ∉ ns.*1 -> cs' !! c = cs !! c) /\
    (forall c, c ∈ ns.*1 -> exists p, cs' !! c = Some (CProperty p)) /\
    cs' = match last ns with Some (t, et) => <[t := node_cell raw et]> cs | None => cs end.
Proof.
  intros Hs Hn Ha Hraw Hpos Hr Hne.
  destruct ns as [|[t et] ns _] using rev_ind.
  { exists cs. split_and!; try done. by intros c ?%elem_of_nil. }
  rewrite last_snoc. eexists. split_and!; [..|done].
  - apply pseg_app. split; [by eapply pseg_relink|]. simpl.
    split; [done|]. split; [|done]. rewrite lookup_insert_ne; [done|]. intros ->. apply Hraw, node_mem.
  - rewrite lookup_insert_ne; [done|]. intros ->.
    destruct (pseg_lookup _ _ _ _ Hs (node_mem ns [] a et)) as (_ & p & Hp). congruence.
  - intros c Hc. rewrite lookup_insert_ne; [done|]. intros <-. apply Hc, node_mem.
  - intros c Hc. destruct (decide (c = t)) as [-> | Hct]; [rewrite lookup_insert_eq; by eexists|].
    rewrite lookup_insert_ne by done. by apply (pseg_lookup _ _ _ _ Hs).
Qed.

Lemma append_step (h : JsHeap) (a kind k : Z) (v : Value) (o : HeapObject) (ns : list Node) :
  layout_ok h -> cells h !! a = Some (CObject o) -> list_ok h o ns ->
  key_ok (kind, k) -> Forall (fun e => e.1 <> (kind, k)) ns.*2 ->
  (append_prop a kind k v h = (false, h) /\ mem_alloc SIZE_PROPERTY W h = None) \/
  exists raw h', append_prop a kind k v h = (true, h') /\ prop_maps h' = prop_maps h /\
    table_step h h' a o ns (ns ++ [(raw, ((kind, k), v))]).
Proof.
  intros Hlo Ha Hl Hk Hfresh. pose proof (li_seg _ _ _ Hl) as Hs. pose proof (li_nodup _ _ _ Hl) as Hn.
  unfold append_prop, alloc_property.
  destruct (mem_alloc SIZE_PROPERTY W h) as [[raw h1]|] eqn:Hal; [|by left].
  right. exists raw.
  destruct (mem_alloc_spec SIZE_PROPERTY _ _ _ Hlo eq_refl Hal) as (Hr8 & Hge & Hpos & Hle & ->).
  set (off := raw + SIZE_PROPERTY - start (mem h)) in *.
  set (pc := CProperty {| next := 0; key_kind := kind; key := k; value := v |}).
  assert (Hnew : cells h !! raw = None) by (by apply fresh_addr).
  assert (Har : a <> raw) by congruence.
  assert (Hraw : raw ∉ ns.*1).
  { intros Hin. destruct (pseg_lookup _ _ _ _ Hs Hin) as (_ & p & Hp). congruence. }
  pose proof (alloc_write_layout SIZE_PROPERTY pc h _ raw Hlo eq_refl eq_refl Hal) as Hlo1.
  destruct (append_link h a raw ((kind, k), v) o ns (<[raw := pc]> (cells h))) as
    (cs & Hcs & Hcsa & Hfr & Hkd & Hdef); try done.
  { by apply pseg_insert_frame. }
  { by rewrite lookup_insert_ne. }
  { by rewrite lookup_insert_eq. }
  destruct (Z.eqb_spec raw 0); [lia|].
  set (m := {| start := start (mem h); size := size (mem h); offset := off |}) in *.
  set (ns' := ns ++ [(raw, ((kind, k), v))]).
  set (h1 := write_cell raw pc (with_mem m h)) in *.
  assert (Ha1 : cells h1 !! a = Some (CObject o)) by (unfold h1; simpl; by rewrite lookup_insert_ne).
  set (cs' := <[a := CObject (relist ns' o)]> cs).
  assert (Hcount : saturating_add_u32 (prop_count o) 1 = Z.of_nat (length ns')).
  { unfold ns', saturating_add_u32. rewrite (li_count _ _ _ Hl), length_app. simpl.
    pose proof (li_room _ _ _ Hl). pose proof (lo_size _ Hlo). pose proof (lo_offset _ Hlo).
    unfold SIZE_PROPERTY in *. lia. }
  match goal with |- exists h', (true, ?t) = _ /\ _ => assert (Hfin : t = with_cells cs' h1) end.
  { rewrite (obj_at_cell _ _ _ Ha1), (li_tail _ _ _ Hl). unfold cs'. rewrite Hdef.
    pose proof (li_head _ _ _ Hl) as Hhd.
    assert (Hrel : forall hd, hd = hd_addr ns' 0 -> with_list hd raw (saturating_add_u32 (prop_count o) 1) o = relist ns' o).
    { intros hd ->. unfold relist. rewrite Hcount. unfold ns'. by rewrite tl_addr_snoc. }
    destruct ns as [|[t et] ns1 _] using rev_ind.
    - simpl. rewrite (upd_obj_twice _ _ a o h1 Ha1). unfold upd_obj, write_cell.
      rewrite (obj_at_cell _ _ _ Ha1), <- (Hrel raw eq_refl). reflexivity.
    - rewrite tl_addr_snoc, last_snoc.
      apply pseg_app in Hs as Hs'. destruct Hs' as [_ (Ht0 & Ht & _)]. destruct (Z.eqb_spec t 0); [lia|].
      assert (Ht1 : cells h1 !! t = Some (node_cell 0 et)).
      { unfold h1. simpl. rewrite lookup_insert_ne; [done|]. intros <-. apply Hraw, node_mem. }
      assert (Hta : t <> a) by (intros ->; unfold node_cell in Ht; congruence).
      unfold upd_prop, upd_obj. rewrite (prop_at_node _ _ _ _ Ht1).
      rewrite (obj_at_cell _ a o) by (simpl; by rewrite lookup_insert_ne).
      rewrite <- (Hrel (prop_head o)); [reflexivity|].
      rewrite Hhd. unfold ns'. rewrite !hd_addr_app. by destruct ns1 as [|[]]. }
  exists (with_cells cs' h1). rewrite Hfin. split; [done|]. split; [done|].
  assert (Hcs' : forall c, c <> a -> cs' !! c = cs !! c) by (intros c Hc; by apply lookup_insert_ne).
  assert (Hseg : pseg cs' ns' 0).
  { apply pseg_insert_frame; [|done]. unfold ns'. rewrite fmap_app. intros [Hin | Hin]%elem_of_app.
    - by apply (obj_not_node h a o ns 0).
    - apply list_elem_of_singleton in Hin. by apply Har. }
  assert (Hlo' : layout_ok (with_cells cs' h1)).
  { apply (write_layout a (CObject o) (CObject (relist ns' o)) (with_cells cs h1)); [|done|done].
    rewrite Hdef. destruct ns as [|[t et] ns1 _] using rev_ind; [done|]. rewrite last_snoc.
    apply pseg_app in Hs as (_ & Ht0 & Ht & _).
    apply (write_layout t (node_cell 0 et)); [done| |done].
    simpl. rewrite lookup_insert_ne; [done|]. intros <-. apply Hraw, node_mem. }
  assert (Hlist : list_ok (with_cells cs' h1) (relist ns' o) ns').
  { split; try done; unfold ns'; rewrite ?fmap_app, ?length_app.
    - apply NoDup_app. split; [done|]. split; [|apply NoDup_singleton].
      intros b Hb ->%list_elem_of_singleton. done.
    - apply NoDup_app. split; [apply Hl|]. split; [|apply NoDup_singleton].
      intros kk Hkk ->%list_elem_of_singleton. by apply (table_absent ns.*2) in Hfresh.
    - apply Forall_app. split; [apply Hl|]. by apply Forall_singleton.
    - pose proof (li_room _ _ _ Hl). simpl. unfold off, SIZE_PROPERTY in *. lia. }
  split; try done.
  - simpl. unfold cs'. by rewrite lookup_insert_eq.
  - intros b c Hb Hne Hnin. simpl. rewrite Hcs', Hfr by done. rewrite lookup_insert_ne; [done|congruence].
  - unfold ns'. rewrite fmap_app. intros b [Hb | ->%list_elem_of_singleton]%elem_of_app; auto.
  - intros b Hb. simpl. assert (b <> a).
    { intros ->. destruct Hb as [Hb | Hb]; [|congruence]. by apply (obj_not_node h a o ns 0). }
    rewrite Hcs' by done. destruct (decide (b ∈ ns.*1)) as [Hin | Hnin]; [right; by apply Hkd|].
    destruct Hb as [Hb | Hb]; [done|]. rewrite Hfr by done.
    destruct (decide (b = raw)) as [-> | Hbr]; [right; rewrite lookup_insert_eq; by eexists|].
    left. by rewrite lookup_insert_ne.
  - exists off, cs', (prop_maps h). split; [reflexivity|]. unfold off, SIZE_PROPERTY in *. lia.
Qed.

(** ** The operations *)

Lemma list_ok_maps (pm : gmap Z (gmap Z Value)) (h : JsHeap) (o : HeapObject) (ns : list Node) :
  list_ok h o ns -> list_ok (with_prop_maps pm h) o ns.
Proof. by intros []. Qed.

Lemma table_step_maps_before (pm0 : gmap Z (gmap Z Value)) (h h' : JsHeap) (a : Z) (o : HeapObject) (ns ns' : list Node) :
  (forall b, b <> a -> pm0 !! b = prop_maps h !! b) ->
  table_step (with_prop_maps pm0 h) h' a o ns ns' -> table_step h h' a o ns ns'.
Proof.
  intros Hpm0 [? ? ? ? ? ? (off & cs & pm & -> & ?) Hpm]. split; try done.
  - exists off, cs, pm. done.
  - intros b Hb. rewrite Hpm by done. by apply Hpm0.
Qed.

Lemma table_step_maps_after (m : gmap Z Value) (h h' : JsHeap) (a : Z) (o : HeapObject) (ns ns' : list Node) :
  table_step h h' a o ns ns' ->
  table_step h (with_prop_maps (<[a := m]> (prop_maps h')) h') a o ns ns'.
Proof.
  intros [? ? ? ? ? ? (off & cs & pm & -> & ?) Hpm]. split; try done.
  - by apply with_prop_maps_layout.
  - by apply list_ok_maps.
  - exists off, cs. eexists. split; [|done]. reflexivity.
  - intros b Hb. simpl. rewrite lookup_insert_ne by done. by apply Hpm.
Qed.

(** After a step the table is the new list's. *)
Lemma table_step_props (h h' : JsHeap) (a : Z) (o : HeapObject) (ns ns' : list Node) :
  table_step h h' a o ns ns' ->
  obj_props h' a = ns'.*2 /\ prop_count (obj_at h' a) = Z.of_nat (length ns').
Proof.
  intros Hst. split; [by eapply obj_props_nodes; apply Hst|].
  by rewrite (obj_at_cell _ _ _ (ts_obj _ _ _ _ _ _ Hst)).
Qed.

Lemma in_sync_none (h : JsHeap) (a : Z) : prop_maps h !! a = None -> in_sync h a.
Proof. unfold in_sync. by intros ->. Qed.

(** The map the code keeps is the table's after the same insertion. *)
Lemma in_sync_set (h h' : JsHeap) (a : Z) (o : HeapObject) (ns ns' : list Node) (m : gmap Z Value) (kk : Z * Z) (v : Value) :
  table_step h h' a o ns ns' -> ns'.*2 = table_set ns.*2 kk v -> key_ok kk ->
  PROP_MAP_THRESHOLD < Z.of_nat (length ns) ->
  (forall k', key_ok k' -> m !! prop_map_key k'.1 k'.2 = table_get ns.*2 k') ->
  prop_maps h' !! a = Some (<[prop_map_key kk.1 kk.2 := v]> m) -> in_sync h' a.
Proof.
  intros Hst Hns' Hk Hct Hm Hpm. unfold in_sync. rewrite Hpm.
  destruct (table_step_props _ _ _ _ _ _ Hst) as [-> ->]. rewrite Hns'. split.
  - assert (Hlen : length ns'.*2 = length (table_set ns.*2 kk v)) by (by rewrite Hns').
    assert (Hk' : (length ns <= length (table_set ns.*2 kk v).*1)%nat)
      by (rewrite table_set_keys; case_bool_decide; rewrite ?length_app, !length_fmap; lia).
    rewrite !length_fmap in *. lia.
  - intros k' Hk'. rewrite table_get_set. destruct (decide (kk = k')) as [<- | Hne].
    + by rewrite lookup_insert_eq.
    + rewrite lookup_insert_ne; [by apply Hm|]. intros E. by apply Hne, prop_map_key_inj.
Qed.

Lemma build_map_table (ns : list Node) (m : gmap Z Value) (kk : Z * Z) :
  NoDup ns.*2.*1 -> Forall key_ok ns.*2.*1 -> key_ok kk ->
  fold_left (fun m n => <[prop_map_key n.2.1.1 n.2.1.2 := n.2.2]> m) ns m !! prop_map_key kk.1 kk.2 =
    match table_get ns.*2 kk with Some v => Some v | None => m !! prop_map_key kk.1 kk.2 end.
Proof.
  revert m. induction ns as [|[a [k1 v]] ns IH]; intros m Hn Ho Hk; [done|].
  rewrite !fmap_cons in *. simpl in Hn, Ho |- *.
  apply NoDup_cons in Hn as [Hnin Hn]. apply Forall_cons in Ho as [Hk1 Ho].
  rewrite IH, table_get_cons by done. simpl. destruct (decide (k1 = kk)) as [<- | Hne].
  - rewrite table_get_none by (by apply table_absent). by rewrite lookup_insert_eq.
  - destruct (table_get ns.*2 kk); [done|]. rewrite lookup_insert_ne; [done|].
    intros E. by apply Hne, prop_map_key_inj.
Qed.

(** [set_prop_value] is [table_set], or fails for want of memory. *)
Lemma set_prop_value_step (h : JsHeap) (a kind k : Z) (v : Value) (o : HeapObject) (ns : list Node) :
  layout_ok h -> cells h !! a = Some (CObject o) -> list_ok h o ns -> in_sync h a -> key_ok (kind, k) ->
  (exists h' ns', set_prop_value a kind k v h = (true, h') /\ table_step h h' a o ns ns' /\
     ns'.*2 = table_set ns.*2 (kind, k) v /\ in_sync h' a) \/
  (exists h', set_prop_value a kind k v h = (false, h') /\ mem_alloc SIZE_PROPERTY W h = None /\
     cells h' = cells h /\ table_get ns.*2 (kind, k) = None).
Proof.
  intros Hlo Ha Hl Hsync Hk. pose proof (overflow_map_sync _ _ Hsync) as [Hov Hm].
  rewrite (obj_props_nodes h a o ns Ha Hl) in Hm. unfold set_prop_value. rewrite Hov.
  destruct (prop_maps h !! a) as [m|] eqn:Hpm.
  - assert (Hct : PROP_MAP_THRESHOLD < Z.of_nat (length ns)).
    { unfold in_sync in Hsync. rewrite Hpm, (obj_at_cell _ _ _ Ha), (li_count _ _ _ Hl) in Hsync. apply Hsync. }
    specialize (fun k' => Hm m k' eq_refl).
    set (h1 := with_prop_maps (<[a := <[prop_map_key kind k := v]> m]> (prop_maps h)) h).
    assert (Hl1 : list_ok h1 o ns) by (by apply list_ok_maps).
    assert (Hlo1 : layout_ok h1) by (by apply with_prop_maps_layout).
    pose proof (Hm (kind, k) Hk) as Hmk. simpl in Hmk. rewrite Hmk.
    destruct (scan_obj_cases h1 a kind k o ns Ha Hl1) as [(l1 & b & w & l2 & -> & Hf & -> & Hb) | [Hf Hsc]]; simpl.
    + left. assert (Hg : table_get (l1 ++ (b, ((kind, k), w)) :: l2).*2 (kind, k) = Some w)
        by (rewrite fmap_app, fmap_cons; simpl; by rewrite table_get_split).
      rewrite Hg. clear Hg.
      destruct (Z.eqb_spec b 0); [lia|]. eexists. exists (l1 ++ (b, ((kind, k), v)) :: l2).
      assert (Hst : table_step h (upd_prop (with_value v) b h1) a o (l1 ++ (b, ((kind, k), w)) :: l2)
        (l1 ++ (b, ((kind, k), v)) :: l2)) by (eapply table_step_maps_before; [|by apply update_step]; intros c Hc; by apply lookup_insert_ne).
      assert (Htb : (l1 ++ (b, ((kind, k), v)) :: l2).*2 =
        table_set (l1 ++ (b, ((kind, k), w)) :: l2).*2 (kind, k) v)
        by (rewrite !fmap_app, !fmap_cons; simpl; by rewrite table_set_split).
      split_and!; [done..|]. eapply in_sync_set; [exact Hst|exact Htb|done|done|exact Hm|].
      simpl. by rewrite lookup_insert_eq.
    + rewrite table_get_none by done.
      destruct (append_step h1 a kind k v o ns Hlo1 Ha Hl1 Hk Hf) as [[E Hal] | (raw & h' & E & Hpm' & Hst)].
      * right. exists h1. split_and!; try done. unfold mem_alloc in *. by destruct (alloc _ _ _) as [[]|].
      * left. exists h', (ns ++ [(raw, ((kind, k), v))]).
        assert (Hst' : table_step h h' a o ns (ns ++ [(raw, ((kind, k), v))])) by (eapply table_step_maps_before; [|exact Hst]; intros c Hc; by apply lookup_insert_ne).
        assert (Htb : (ns ++ [(raw, ((kind, k), v))]).*2 = table_set ns.*2 (kind, k) v)
          by (rewrite fmap_app, table_set_none; done).
        split_and!; [done..|]. eapply in_sync_set; [exact Hst'|exact Htb|done|done|exact Hm|].
        rewrite Hpm'. simpl. by rewrite lookup_insert_eq.
  - destruct (scan_obj_cases h a kind k o ns Ha Hl) as [(l1 & b & w & l2 & -> & Hf & -> & Hb) | [Hf ->]]; cbn [snd Z.eqb negb].
    + left. destruct (Z.eqb_spec b 0); [lia|]. cbn [negb]. eexists. exists (l1 ++ (b, ((kind, k), v)) :: l2).
      split_and!; [done|by apply update_step| |by apply in_sync_none].
      rewrite !fmap_app, !fmap_cons. simpl. by rewrite table_set_split.
    + destruct (append_step h a kind k v o ns Hlo Ha Hl Hk Hf) as [[-> Hal] | (raw & h' & -> & Hpm' & Hst)].
      { right. exists h. split_and!; try done. by rewrite table_get_none. }
      left. set (ns' := ns ++ [(raw, ((kind, k), v))]) in *.
      assert (Htb : ns'.*2 = table_set ns.*2 (kind, k) v)
        by (unfold ns'; rewrite fmap_app, table_set_none; done).
      destruct (table_step_props _ _ _ _ _ _ Hst) as [Hp Hc]. rewrite Hc, Hpm', Hpm.
      destruct (Z.ltb_spec PROP_MAP_THRESHOLD (Z.of_nat (length ns'))) as [Hlt | Hge].
      2:{ exists h', ns'. split_and!; try done. apply in_sync_none. by rewrite Hpm'. }
      rewrite (obj_at_cell _ _ _ (ts_obj _ _ _ _ _ _ Hst)). change (prop_head (relist ns' o)) with (hd_addr ns' 0).
      pose proof (ts_list _ _ _ _ _ _ Hst) as Hl'.
      rewrite (build_map_nodes h' ns') by (apply Hl' || (eapply nodes_fit; apply Hl')).
      set (map := fold_left _ _ _). rewrite <- Hpm'.
      pose proof (table_step_maps_after map _ _ _ _ _ _ Hst) as Hst2.
      destruct (table_step_props _ _ _ _ _ _ Hst2) as [Hp2 Hc2].
      eexists. exists ns'. split_and!; [done|exact Hst2|done|].
      unfold in_sync. rewrite Hp2, Hc2. simpl. rewrite lookup_insert_eq. split; [done|].
      intros k' Hk'. unfold map. rewrite build_map_table by (done || apply Hl').
      destruct (table_get ns'.*2 k'); [done|]. apply lookup_empty.
Qed.

Lemma with_prop_maps_same (h : JsHeap) : with_prop_maps (prop_maps h) h = h.
Proof. by destruct h. Qed.

Lemma unlink_maps (a prev nxt : Z) (h : JsHeap) : prop_maps (unlink a prev nxt h) = prop_maps h.
Proof. unfold unlink. by destruct (prev =? 0), (nxt =? 0). Qed.

(** [delete_prop_value] is [table_delete]; the overflow map stays in step unless the object
    goes from nine properties to eight, where the code keeps a map it no longer consults. *)
Lemma delete_prop_value_step (h : JsHeap) (a kind k : Z) (o : HeapObject) (ns : list Node) :
  layout_ok h -> cells h !! a = Some (CObject o) -> list_ok h o ns -> in_sync h a -> key_ok (kind, k) ->
  (table_get ns.*2 (kind, k) = None /\ delete_prop_value a kind k h = (false, h)) \/
  (exists v h' ns', table_get ns.*2 (kind, k) = Some v /\ delete_prop_value a kind k h = (true, h') /\
     table_step h h' a o ns ns' /\ ns'.*2 = table_delete ns.*2 (kind, k) /\
     (Z.of_nat (length ns) <> PROP_MAP_THRESHOLD + 1 -> in_sync h' a)).
Proof.
  intros Hlo Ha Hl Hsync Hk. pose proof (overflow_map_sync _ _ Hsync) as [Hov Hm].
  rewrite (obj_props_nodes h a o ns Ha Hl) in Hm. unfold delete_prop_value. rewrite Hov.
  set (h1 := match prop_maps h !! a with Some _ => _ | None => _ end).
  assert (H1 : exists pm, h1 = with_prop_maps pm h /\ (forall b, b <> a -> pm !! b = prop_maps h !! b) /\
    match prop_maps h !! a with
    | Some m => pm !! a = Some (delete (prop_map_key kind k) m) /\
        (m !! prop_map_key kind k = None -> pm = prop_maps h)
    | None => pm = prop_maps h
    end).
  { unfold h1. destruct (prop_maps h !! a) as [m|] eqn:Hpm; [|exists (prop_maps h); by rewrite with_prop_maps_same].
    - eexists. split; [done|]. simpl. split; [intros b Hb; by apply lookup_insert_ne|]. split; [by apply lookup_insert_eq|].
      intros Hd. rewrite delete_id by done. by apply insert_id.
  }
  destruct H1 as (pm & E & Hpmo & Hpma). rewrite E. clear E h1.
  assert (Hl1 : list_ok (with_prop_maps pm h) o ns) by (by apply list_ok_maps).
  assert (Hlo1 : layout_ok (with_prop_maps pm h)) by (by apply with_prop_maps_layout).
  destruct (scan_obj_cases (with_prop_maps pm h) a kind k o ns Ha Hl1)
    as [(l1 & b & w & l2 & -> & Hf & -> & Hb) | [Hf ->]]; cbn [snd].
  - right. destruct (Z.eqb_spec b 0); [lia|]. exists w, (unlink a (tl_addr l1) (hd_addr l2 0) (with_prop_maps pm h)), (l1 ++ l2).
    pose proof (delete_step _ a b kind k w o l1 l2 Hlo1 Ha Hl1) as Hst.
    assert (Hnx : next (prop_at (with_prop_maps pm h) b) = hd_addr l2 0).
    { pose proof (li_seg _ _ _ Hl1) as (_ & _ & Hc & _)%pseg_app. by rewrite (prop_at_node _ _ _ _ Hc). }
    rewrite Hnx. rewrite !fmap_app, !fmap_cons in *. cbn [snd] in *.
    set (h' := unlink a (tl_addr l1) (hd_addr l2 0) (with_prop_maps pm h)) in *.
    assert (Hst' : table_step h h' a o (l1 ++ (b, (kind, k, w)) :: l2) (l1 ++ l2)).
    { by apply (table_step_maps_before pm). }
    split_and!; [by rewrite table_get_split|done|done|by rewrite table_delete_split|].
    intros Hne. assert (Hpm' : prop_maps h' !! a = pm !! a) by (unfold h'; by rewrite unlink_maps).
    unfold in_sync in *. destruct (table_step_props _ _ _ _ _ _ Hst') as [Hp Hc]. rewrite Hpm', Hp, Hc.
    rewrite (obj_at_cell _ _ _ Ha), (li_count _ _ _ Hl) in Hsync.
    destruct (prop_maps h !! a) as [m|] eqn:Epm; [|by rewrite Hpma, Epm].
    destruct Hpma as [-> _]. destruct Hsync as [Hct _]. split.
    { rewrite length_app in *. simpl in *. unfold PROP_MAP_THRESHOLD in *. lia. }
    pose proof (li_keys _ _ _ Hl) as Hnd. rewrite !fmap_app, !fmap_cons in Hnd. cbn [snd] in Hnd.
    intros k' Hk'. rewrite fmap_app.
    rewrite <- (table_delete_split (kind, k) l1.*2 l2.*2 w Hf), table_get_delete by (by rewrite fmap_app, fmap_cons).
    destruct (decide ((kind, k) = k')) as [<- | Hkne]; [apply lookup_delete_eq|].
    rewrite lookup_delete_ne; [by apply Hm|]. intros E. by apply Hkne, prop_map_key_inj.
  - left. rewrite Z.eqb_refl, table_get_none by done. split; [done|]. f_equal.
    destruct (prop_maps h !! a) as [m|].
    + destruct Hpma as [_ ->]; [apply with_prop_maps_same|].
      rewrite <- (table_get_none (kind, k) ns.*2 Hf). by apply (Hm m (kind, k)).
    + rewrite Hpma. apply with_prop_maps_same.
Qed.
