(* ===== verification/JsArray.v ===== *)
(** * JsArray: the elements of array objects

    [src/context.rs]: an array's elements live in a block of their own of [array_cap] words,
    of which the first [array_len] are in use; a write past the capacity allocates a larger
    block and copies.  A [Result<(), ()>] is a [bool] here, [true] for [Ok(())].

    [array_ok] is the invariant of the three fields and the block, and the lemmas say what
    each operation makes of the list [elems_of] of the elements in use. *)
From S2P Require Import Prelude JsValue JsMem.

(** ** Operations *)

(** [*elements.add(i)], read and written. *)
Definition elem_at (h : JsHeap) (elems i : Z) : Value :=
  default (UNDEFINED W) (elems_at h elems !! Z.to_nat i).
Definition upd_elems (f : list Value -> list Value) (elems : Z) (h : JsHeap) : JsHeap :=
  write_cell elems (CElements (f (elems_at h elems))) h.

(** [for i in from..to { elements[i] = undefined }] *)
Definition fill (from to : Z) (vs : list Value) : list Value :=
  fold_left (fun vs i => <[i := UNDEFINED W]> vs) (seq (Z.to_nat from) (Z.to_nat to - Z.to_nat from)) vs.

(** [for i in 0..n { new_elems[i] = elements[i] }] *)
Definition copy_elems (n : Z) (old new_elems : list Value) : list Value :=
  fold_left (fun vs i => <[i := default (UNDEFINED W) (old !! i)]> vs) (seq 0 (Z.to_nat n)) new_elems.

Definition array_get (h : JsHeap) (obj idx : Z) : Value :=
  let o := obj_at h obj in
  if array_len o <=? idx then UNDEFINED W
  else if elements o =? 0 then UNDEFINED W
  else elem_at h (elements o) idx.

Definition array_grow (obj needed : Z) (h : JsHeap) : bool * JsHeap :=
  let current := array_cap (obj_at h obj) in
  let new_cap := if current =? 0 then 4 else current * 2 in
  let new_cap := if new_cap <? needed then needed else new_cap in
  match alloc_elements new_cap h with
  | None => (false, h)
  | Some (new_elems, h) =>
      let o := obj_at h obj in
      let h :=
        if elements o =? 0 then h
        else upd_elems (copy_elems (array_len o) (elems_at h (elements o))) new_elems h in
      (true, upd_obj (fun o => with_array (array_len o) (as_u32 new_cap) new_elems o) obj h)
  end.

Definition array_set (obj idx : Z) (v : Value) (h : JsHeap) : bool * JsHeap :=
  let len := array_len (obj_at h obj) in
  if len <=? idx then
    let new_len := idx + 1 in
    match (if array_cap (obj_at h obj) <? new_len then array_grow obj new_len h else (true, h)) with
    | (false, h) => (false, h)
    | (true, h) =>
        let elems := elements (obj_at h obj) in
        if elems =? 0 then (false, h)
        else
          let h := upd_elems (fill len idx) elems h in
          let h := upd_elems (fun vs => <[Z.to_nat idx := v]> vs) elems h in
          (true, upd_obj (with_array_len (as_u32 new_len)) obj h)
    end
  else
    let elems := elements (obj_at h obj) in
    if elems =? 0 then (false, h)
    else (true, upd_elems (fun vs => <[Z.to_nat idx := v]> vs) elems h).

Definition array_set_length (obj : Z) (v : Value) (h : JsHeap) : bool * JsHeap :=
  match int32 W v with
  | None => (false, h)
  | Some n =>
      if n <? 0 then (false, h)
      else
        let new_len := n in
        let current := array_len (obj_at h obj) in
        match
          (if current <? new_len then
             match (if array_cap (obj_at h obj) <? new_len then array_grow obj new_len h else (true, h)) with
             | (false, h) => (false, h)
             | (true, h) =>
                 let elems := elements (obj_at h obj) in
                 (true, if elems =? 0 then h else upd_elems (fill current new_len) elems h)
             end
           else if new_len <? current then
             let elems := elements (obj_at h obj) in
             (true, if elems =? 0 then h else upd_elems (fill new_len current) elems h)
           else (true, h))
        with
        | (false, h) => (false, h)
        | (true, h) => (true, upd_obj (with_array_len (as_u32 new_len)) obj h)
        end
  end.

(** The methods on a value. *)
Definition is_array (h : JsHeap) (obj : Z) : bool := tag (obj_at h obj) =? HEAP_TAG_ARRAY.

Definition array_push (val elem : Value) (h : JsHeap) : option Z * JsHeap :=
  match object_ptr h val with
  | None => (None, h)
  | Some obj =>
      if negb (is_array h obj) then (None, h)
      else
        match array_set obj (array_len (obj_at h obj)) elem h with
        | (false, h) => (None, h)
        | (true, h) => (Some (array_len (obj_at h obj)), h)
        end
  end.

Definition array_pop (val : Value) (h : JsHeap) : option Value * JsHeap :=
  match object_ptr h val with
  | None => (None, h)
  | Some obj =>
      if negb (is_array h obj) then (None, h)
      else
        let len := array_len (obj_at h obj) in
        if len =? 0 then (Some (UNDEFINED W), h)
        else
          let idx := len - 1 in
          let v := array_get h obj idx in
          (Some v, upd_obj (with_array_len idx) obj h)
  end.

Definition array_direct_len (h : JsHeap) (val : Value) : option Z :=
  obj ← object_ptr h val; if negb (is_array h obj) then None else Some (array_len (obj_at h obj)).

Definition array_direct_get (h : JsHeap) (val : Value) (idx : Z) : option Value :=
  obj ← object_ptr h val; if negb (is_array h obj) then None else Some (array_get h obj idx).

Definition array_direct_set (val : Value) (idx : Z) (elem : Value) (h : JsHeap) : bool * JsHeap :=
  match object_ptr h val with
  | None => (false, h)
  | Some obj => if negb (is_array h obj) then (false, h) else array_set obj idx elem h
  end.

(** ** The elements as data *)

Definition elems_of (h : JsHeap) (o : HeapObject) : list Value :=
  take (Z.to_nat (array_len o)) (elems_at h (elements o)).
Definition obj_elems (h : JsHeap) (a : Z) : list Value := elems_of h (obj_at h a).

(** What the operations compute on the list. *)
Definition list_set (vs : list Value) (idx : nat) (v : Value) : list Value :=
  if (idx <? length vs)%nat then <[idx := v]> vs
  else vs ++ replicate (idx - length vs) (UNDEFINED W) ++ [v].
Definition list_resize (vs : list Value) (n : nat) : list Value :=
  take n vs ++ replicate (n - length vs) (UNDEFINED W).

(** ** The loops *)

Lemma fill_length (from to : Z) (vs : list Value) : length (fill from to vs) = length vs.
Proof.
  unfold fill. generalize (seq (Z.to_nat from) (Z.to_nat to - Z.to_nat from)). intros l. revert vs.
  induction l as [|i l IH]; intros vs; simpl; [done|]. by rewrite IH, length_insert.
Qed.

Lemma insert_loop_lookup (f : nat -> Value) (n s i : nat) (vs : list Value) :
  fold_left (fun vs i => <[i := f i]> vs) (seq s n) vs !! i =
    if decide (s <= i < s + n)%nat then (fun _ => f i) <$> vs !! i else vs !! i.
Proof.
  revert s vs. induction n as [|n IH]; intros s vs; simpl; [by rewrite decide_False by lia|].
  rewrite IH. destruct (decide (i = s)) as [-> | Hne].
  - rewrite decide_False, decide_True by lia. destruct (vs !! s) as [x|] eqn:E; simpl.
    + rewrite list_lookup_insert_eq; [done|]. by eapply lookup_lt_Some.
    + rewrite lookup_ge_None in *. by rewrite length_insert.
  - rewrite list_lookup_insert_ne by done.
    by destruct (decide (S s <= i < S s + n)%nat), (decide (s <= i < s + S n)%nat); (lia || done).
Qed.

Lemma fill_lookup (from to : Z) (vs : list Value) (i : nat) :
  0 <= from -> fill from to vs !! i =
    if decide (from <= Z.of_nat i < to) then (fun _ => UNDEFINED W) <$> vs !! i else vs !! i.
Proof.
  intros Hf. unfold fill. rewrite (insert_loop_lookup (fun _ => UNDEFINED W)).
  by destruct (decide (Z.to_nat from <= i < _)%nat), (decide (from <= Z.of_nat i < to)); (lia || done).
Qed.

Lemma copy_elems_length (n : Z) (old new_elems : list Value) :
  length (copy_elems n old new_elems) = length new_elems.
Proof.
  unfold copy_elems. generalize (seq 0 (Z.to_nat n)). intros l. revert new_elems.
  induction l as [|i l IH]; intros vs; simpl; [done|]. by rewrite IH, length_insert.
Qed.

Lemma copy_elems_take (n : Z) (old new_elems : list Value) :
  (Z.to_nat n <= length old)%nat -> (Z.to_nat n <= length new_elems)%nat ->
  take (Z.to_nat n) (copy_elems n old new_elems) = take (Z.to_nat n) old.
Proof.
  intros Ho Hn. apply list_eq. intros i. destruct (decide (i < Z.to_nat n)%nat) as [Hi | Hi].
  - rewrite !lookup_take_lt by done. unfold copy_elems.
    rewrite (insert_loop_lookup (fun i => default (UNDEFINED W) (old !! i))), decide_True by lia.
    destruct (lookup_lt_is_Some_2 new_elems i) as [x ->]; [lia|].
    by destruct (lookup_lt_is_Some_2 old i) as [y ->]; [lia|].
  - by rewrite !lookup_take_ge by lia.
Qed.

(** Growing the list in place. *)
Lemma fill_set_take (len idx : Z) (v : Value) (vs : list Value) :
  0 <= len <= idx -> idx < Z.of_nat (length vs) ->
  take (Z.to_nat (idx + 1)) (<[Z.to_nat idx := v]> (fill len idx vs)) =
    list_set (take (Z.to_nat len) vs) (Z.to_nat idx) v.
Proof.
  intros Hl Hi. unfold list_set. rewrite length_take, Nat.min_l by lia.
  destruct (Nat.ltb_spec (Z.to_nat idx) (Z.to_nat len)); [lia|].
  apply list_eq. intros i.
  destruct (decide (i <= Z.to_nat idx)%nat) as [Hle | Hgt].
  - rewrite lookup_take_lt by lia. destruct (decide (i = Z.to_nat idx)) as [-> | Hne].
    + rewrite list_lookup_insert_eq by (rewrite fill_length; lia).
      rewrite lookup_app_r, length_take, Nat.min_l by (rewrite ?length_take; lia).
      rewrite lookup_app_r by (rewrite length_replicate; lia).
      by rewrite length_replicate, Nat.sub_diag.
    + rewrite list_lookup_insert_ne, fill_lookup by lia.
      destruct (lookup_lt_is_Some_2 vs i) as [x Hx]; [lia|].
      destruct (decide (i < Z.to_nat len)%nat).
      * rewrite decide_False by lia. rewrite lookup_app_l by (rewrite length_take; lia).
        by rewrite lookup_take_lt.
      * rewrite decide_True by lia. rewrite Hx.
        rewrite lookup_app_r, length_take, Nat.min_l by (rewrite ?length_take; lia).
        rewrite lookup_app_l by (rewrite length_replicate; lia).
        by rewrite lookup_replicate_2 by lia.
  - rewrite lookup_take_ge by lia. symmetry. apply lookup_ge_None.
    rewrite !length_app, length_take, length_replicate. simpl. lia.
Qed.

Lemma fill_resize_take (len n : Z) (vs : list Value) :
  0 <= len <= n -> n <= Z.of_nat (length vs) ->
  take (Z.to_nat n) (fill len n vs) = list_resize (take (Z.to_nat len) vs) (Z.to_nat n).
Proof.
  intros Hl Hn. unfold list_resize. rewrite take_take, length_take, Nat.min_r, Nat.min_l by lia.
  apply list_eq. intros i. destruct (decide (i < Z.to_nat n)%nat).
  - rewrite lookup_take_lt, fill_lookup by lia. destruct (lookup_lt_is_Some_2 vs i) as [x Hx]; [lia|].
    destruct (decide (i < Z.to_nat len)%nat).
    + rewrite decide_False by lia. rewrite lookup_app_l by (rewrite length_take; lia). by rewrite lookup_take_lt.
    + rewrite decide_True, Hx by lia. rewrite lookup_app_r, length_take, Nat.min_l by (rewrite ?length_take; lia).
      by rewrite lookup_replicate_2 by lia.
  - rewrite lookup_take_ge by lia. symmetry. apply lookup_ge_None.
    rewrite length_app, length_take, length_replicate. lia.
Qed.

Lemma fill_shrink_take (len n : Z) (vs : list Value) :
  0 <= n <= len -> len <= Z.of_nat (length vs) ->
  take (Z.to_nat n) (fill n len vs) = list_resize (take (Z.to_nat len) vs) (Z.to_nat n).
Proof.
  intros Hl Hn. unfold list_resize. rewrite take_take, length_take, !Nat.min_l by lia.
  replace (Z.to_nat n - Z.to_nat len)%nat with O by lia. simpl. rewrite app_nil_r.
  apply list_eq. intros i. destruct (decide (i < Z.to_nat n)%nat).
  - rewrite !lookup_take_lt, fill_lookup by lia. by rewrite decide_False by lia.
  - by rewrite !lookup_take_ge by lia.
Qed.

(** ** The invariant, and one array operation *)

Record array_ok (h : JsHeap) (o : HeapObject) : Prop := {
  ao_len : 0 <= array_len o <= array_cap o;
  ao_block : (elements o = 0 /\ array_cap o = 0) \/
    exists vs, cells h !! elements o = Some (CElements vs) /\ Z.of_nat (length vs) = array_cap o
}.

(** [h'] is [h] after the object at [a] had its array fields changed to those of [o']. *)
Record array_step (h h' : JsHeap) (a : Z) (o o' : HeapObject) : Prop := {
  as_layout : layout_ok h';
  as_obj : cells h' !! a = Some (CObject o');
  as_same : o' = with_array (array_len o') (array_cap o') (elements o') o;
  as_array : array_ok h' o';
  as_frame : forall b c, cells h !! b = Some c -> b <> a -> b <> elements o -> cells h' !! b = Some c;
  as_block : elements o' = elements o \/ cells h !! elements o' = None;
  as_kind : forall b, b = elements o \/ cells h !! b = None ->
    cells h' !! b = cells h !! b \/ exists vs, cells h' !! b = Some (CElements vs);
  as_rest : exists off cs,
    h' = with_mem {| start := start (mem h); size := size (mem h); offset := off |} (with_cells cs h) /\
    offset (mem h) <= off
}.

Lemma obj_at_eq (h : JsHeap) (a : Z) (o : HeapObject) : cells h !! a = Some (CObject o) -> obj_at h a = o.
Proof. unfold obj_at. by intros ->. Qed.

Lemma elems_at_eq (h : JsHeap) (a : Z) (vs : list Value) : cells h !! a = Some (CElements vs) -> elems_at h a = vs.
Proof. unfold elems_at. by intros ->. Qed.

Lemma upd_elems_eq (f : list Value -> list Value) (e : Z) (vs : list Value) (h : JsHeap) :
  cells h !! e = Some (CElements vs) -> upd_elems f e h = write_cell e (CElements (f vs)) h.
Proof. intros He. unfold upd_elems. by rewrite (elems_at_eq _ _ _ He). Qed.

Lemma upd_obj_eq (f : HeapObject -> HeapObject) (a : Z) (o : HeapObject) (h : JsHeap) :
  cells h !! a = Some (CObject o) -> upd_obj f a h = write_cell a (CObject (f o)) h.
Proof. intros Ha. unfold upd_obj. by rewrite (obj_at_eq _ _ _ Ha). Qed.

Lemma write_cell_twice (a : Z) (c1 c2 : Cell) (h : JsHeap) : write_cell a c2 (write_cell a c1 h) = write_cell a c2 h.
Proof. unfold write_cell, with_cells. simpl. by rewrite insert_insert_eq. Qed.

(** The whole of an update in place: new contents of the block and a new length. *)
Lemma array_update_step (h : JsHeap) (a : Z) (o : HeapObject) (vs vs' : list Value) (len : Z) :
  layout_ok h -> cells h !! a = Some (CObject o) -> cells h !! elements o = Some (CElements vs) ->
  Z.of_nat (length vs) = array_cap o -> length vs' = length vs -> 0 <= len <= array_cap o ->
  array_step h
    (write_cell a (CObject (with_array_len len o)) (write_cell (elements o) (CElements vs') h)) a o
    (with_array_len len o).
Proof.
  intros Hlo Ha He Hcap Hlen Hl.
  assert (Hae : a <> elements o) by congruence.
  assert (He' : cells (write_cell a (CObject (with_array_len len o)) (write_cell (elements o) (CElements vs') h))
    !! elements o = Some (CElements vs')).
  { simpl. by rewrite lookup_insert_ne, lookup_insert_eq. }
  split; simpl.
  - apply (write_layout a (CObject o)); [|simpl; by rewrite lookup_insert_ne|done].
    apply (write_layout (elements o) (CElements vs)); [done..|]. simpl. by rewrite Hlen.
  - by rewrite lookup_insert_eq.
  - done.
  - split; [done|]. right. exists vs'. split; [exact He'|]. simpl. lia.
  - intros b c Hb Hba Hbe. by rewrite !lookup_insert_ne.
  - by left.
  - intros b [-> | Hb]; [right; exists vs'; exact He'|]. left. rewrite !lookup_insert_ne; congruence.
  - exists (offset (mem h)), (<[a := CObject (with_array_len len o)]> (<[elements o := CElements vs']> (cells h))).
    split; [|lia]. by destruct h as [[] ? ? ? ? ? ? ? ?].
Qed.

Lemma array_step_trans (h1 h2 h3 : JsHeap) (a : Z) (o1 o2 o3 : HeapObject) :
  cells h1 !! a = Some (CObject o1) -> a <> elements o1 ->
  array_step h1 h2 a o1 o2 -> array_step h2 h3 a o2 o3 -> array_step h1 h3 a o1 o3.
Proof.
  intros Ha Hae S1 S2. pose proof (as_kind _ _ _ _ _ S1) as K1. pose proof (as_kind _ _ _ _ _ S2) as K2. split.
  - apply S2.
  - apply S2.
  - rewrite (as_same _ _ _ _ _ S2), (as_same _ _ _ _ _ S1). done.
  - apply S2.
  - intros b c Hb Hba Hbe. apply (as_frame _ _ _ _ _ S2); [by apply (as_frame _ _ _ _ _ S1)|done|].
    destruct (as_block _ _ _ _ _ S1) as [-> | Hn]; [done|congruence].
  - destruct (as_block _ _ _ _ _ S2) as [-> | Hn]; [apply S1|]. right.
    destruct (cells h1 !! elements o3) as [c|] eqn:E; [|done].
    destruct (decide (elements o3 = a)) as [E3 | Hne]; [rewrite E3, (as_obj _ _ _ _ _ S1) in Hn; congruence|].
    destruct (decide (elements o3 = elements o1)) as [E3 | Hne1].
    + destruct (K1 (elements o3)) as [Hk | [vs Hk]]; [by left|congruence..].
    + rewrite (as_frame _ _ _ _ _ S1 _ c) in Hn; congruence.
  - intros b Hb. destruct (K1 b Hb) as [Hk | [vs Hk]].
    + destruct (cells h1 !! b) as [c|] eqn:E.
      * destruct (decide (b = elements o2)) as [-> | Hne].
        -- destruct (K2 (elements o2)) as [? | ?]; [by left|left; congruence|by right].
        -- left. rewrite <- Hk. rewrite Hk. apply (as_frame _ _ _ _ _ S2); [congruence| |done].
           intros ->. destruct Hb as [Hb | Hb]; congruence.
      * destruct (K2 b) as [? | ?]; [right; congruence|left; congruence|by right].
    + destruct (decide (b = elements o2)) as [-> | Hne].
      * destruct (K2 (elements o2)) as [? | ?]; [by left|right; exists vs; congruence|by right].
      * right. exists vs. apply (as_frame _ _ _ _ _ S2); [done| |done].
        intros ->. rewrite (as_obj _ _ _ _ _ S1) in Hk. congruence.
  - destruct (as_rest _ _ _ _ _ S1) as (off1 & cs1 & -> & ?), (as_rest _ _ _ _ _ S2) as (off2 & cs2 & -> & ?).
    simpl in *. exists off2, cs2. split; [done|lia].
Qed.

(** ** The operations on the list *)

Lemma alloc_elements_spec (cap : Z) (h h1 : JsHeap) (raw : Z) :
  layout_ok h -> 0 < cap -> alloc_elements cap h = Some (raw, h1) ->
  layout_ok h1 /\ cells h !! raw = None /\ 0 < raw /\ cap < 2 ^ 29 /\
  exists off, h1 = with_mem {| start := start (mem h); size := size (mem h); offset := off |}
      (with_cells (<[raw := CElements (replicate (Z.to_nat cap) (UNDEFINED W))]> (cells h)) h) /\
    offset (mem h) <= off.
Proof.
  intros Hlo Hc. unfold alloc_elements.
  destruct (Z.leb_spec (2 ^ 64) (cap * SIZE_VALUE)); [done|].
  destruct (mem_alloc (cap * SIZE_VALUE) W h) as [[r h2]|] eqn:Hal; [|done]. intros [= <- <-].
  assert (Hpos : 0 < cap * SIZE_VALUE) by (unfold SIZE_VALUE; lia).
  destruct (mem_alloc_spec _ _ _ _ Hlo Hpos Hal) as (? & Hge & ? & Hle & Hm).
  split_and!; [|by apply fresh_addr|done| |].
  - eapply alloc_write_layout; [exact Hlo| |exact Hpos|exact Hal].
    simpl. rewrite length_replicate. unfold SIZE_VALUE. lia.
  - pose proof (lo_size _ Hlo). pose proof (lo_offset _ Hlo). unfold SIZE_VALUE in *. lia.
  - rewrite Hm. exists (r + cap * SIZE_VALUE - start (mem h)). split; [done|lia].
Qed.

(** Growing keeps the list and makes room. *)
Lemma array_grow_step (h : JsHeap) (a needed : Z) (o : HeapObject) :
  layout_ok h -> cells h !! a = Some (CObject o) -> array_ok h o -> 0 < needed ->
  match array_grow a needed h with
  | (false, h') => h' = h
  | (true, h') => exists o', array_step h h' a o o' /\ elems_of h' o' = elems_of h o /\
      array_len o' = array_len o /\ needed <= array_cap o' /\ array_cap o <= array_cap o' /\
      elements o' <> 0 /\ array_cap o' < 2 ^ 29
  end.
Proof.
  intros Hlo Ha [Hlen Hblk] Hn. unfold array_grow. rewrite (obj_at_eq _ _ _ Ha).
  set (cap := if _ <? needed then needed else _).
  assert (Hcap : needed <= cap /\ array_cap o <= cap).
  { unfold cap. destruct (Z.eqb_spec (array_cap o) 0);
      match goal with |- context [?x <? needed] => destruct (Z.ltb_spec x needed) end; lia. }
  destruct (alloc_elements cap h) as [[raw h1]|] eqn:Hal; [|done].
  apply alloc_elements_spec in Hal as (Hlo1 & Hnew & Hr0 & Hcl & off & Hh1 & Hoff); [|done|lia].
  assert (Hra : raw <> a) by congruence.
  assert (Ha1 : cells h1 !! a = Some (CObject o)) by (rewrite Hh1; simpl; by rewrite lookup_insert_ne).
  assert (Hr1 : cells h1 !! raw = Some (CElements (replicate (Z.to_nat cap) (UNDEFINED W))))
    by (rewrite Hh1; simpl; by rewrite lookup_insert_eq).
  rewrite (obj_at_eq _ _ _ Ha1).
  assert (Hcap32 : as_u32 cap = cap) by (unfold as_u32; apply Z.mod_small; lia).
  set (o' := with_array (array_len o) (as_u32 cap) raw o).
  (* the new block, with the elements in use copied *)
  assert (Hcopy : exists vs', length vs' = Z.to_nat cap /\
      take (Z.to_nat (array_len o)) vs' = elems_of h o /\
      (if elements o =? 0 then h1
       else upd_elems (copy_elems (array_len o) (elems_at h1 (elements o))) raw h1) =
        write_cell raw (CElements vs') h1).
  { unfold elems_of. destruct Hblk as [[He Hc0] | (vs & Hvs & Hvl)].
    - exists (replicate (Z.to_nat cap) (UNDEFINED W)). rewrite He, Z.eqb_refl, length_replicate.
      replace (array_len o) with 0 by lia. split_and!; [done..|].
      rewrite Hh1. unfold write_cell, with_cells, with_mem. simpl. by rewrite insert_insert_eq.
    - destruct (Z.eqb_spec (elements o) 0) as [E | E].
      { rewrite E in Hvs. pose proof (cell_nonnull _ _ _ Hlo Hvs). lia. }
      assert (Hne : raw <> elements o) by congruence.
      assert (Hvs1 : cells h1 !! elements o = Some (CElements vs)) by (rewrite Hh1; simpl; by rewrite lookup_insert_ne).
      rewrite (elems_at_eq _ _ _ Hvs1), (elems_at_eq _ _ _ Hvs).
      unfold upd_elems. rewrite (elems_at_eq _ _ _ Hr1).
      eexists. split_and!; [| |done]; [by rewrite copy_elems_length, length_replicate|].
      apply copy_elems_take; rewrite ?length_replicate; lia. }
  destruct Hcopy as (vs' & Hl' & Htake & ->).
  set (h2 := write_cell raw (CElements vs') h1).
  assert (Ha2 : cells h2 !! a = Some (CObject o)) by (unfold h2; simpl; by rewrite lookup_insert_ne).
  assert (Hlo2 : layout_ok h2).
  { apply (write_layout raw _ _ _ Hlo1 Hr1). simpl. by rewrite Hl', length_replicate. }
  unfold upd_obj. rewrite (obj_at_eq _ _ _ Ha2). fold o'.
  assert (Hel : cells (write_cell a (CObject o') h2) !! raw = Some (CElements vs')).
  { simpl. by rewrite lookup_insert_ne, lookup_insert_eq. }
  exists o'. split_and!; try (simpl; rewrite ?Hcap32; lia).
  - split; simpl.
    + by apply (write_layout a (CObject o)).
    + by rewrite lookup_insert_eq.
    + done.
    + split; simpl; [lia|]. right. exists vs'. split; [exact Hel|lia].
    + intros b c Hb Hba Hbe. assert (b <> raw) by congruence.
      rewrite !lookup_insert_ne by done. rewrite Hh1. simpl. by rewrite lookup_insert_ne.
    + by right.
    + intros b Hb. destruct (decide (b = raw)) as [-> | Hbr]; [right; by exists vs'|].
      destruct (decide (b = a)) as [-> | Hba].
      { exfalso. destruct Hb as [Hb | Hb]; [|congruence].
        destruct Hblk as [[He _] | (vs & Hvs & _)]; [|congruence].
        pose proof (cell_nonnull _ _ _ Hlo Ha). lia. }
      left. rewrite !lookup_insert_ne by done. rewrite Hh1. simpl. by rewrite lookup_insert_ne.
    + exists off. eexists. split; [|exact Hoff]. unfold h2. rewrite Hh1. reflexivity.
  - unfold elems_of at 1. simpl. by rewrite (elems_at_eq _ _ _ Hel).
Qed.

Lemma cap_bound (h : JsHeap) (o : HeapObject) : layout_ok h -> array_ok h o -> array_cap o < 2 ^ 29.
Proof.
  intros Hlo [_ [[_ ->] | (vs & Hvs & <-)]]; [done|].
  destruct (lo_cells _ Hlo _ _ Hvs) as (_ & ? & _ & Hle). simpl in Hle.
  pose proof (lo_size _ Hlo). pose proof (lo_offset _ Hlo). unfold SIZE_VALUE in *. lia.
Qed.

Lemma array_block (h : JsHeap) (o : HeapObject) : layout_ok h -> array_ok h o -> 0 < array_cap o ->
  elements o <> 0 /\ exists vs, cells h !! elements o = Some (CElements vs) /\
    Z.of_nat (length vs) = array_cap o /\ elems_of h o = take (Z.to_nat (array_len o)) vs.
Proof.
  intros Hlo [_ [[_ Hc] | (vs & Hvs & Hl)]] Hpos; [lia|]. split.
  - intros E. rewrite E in Hvs. pose proof (cell_nonnull _ _ _ Hlo Hvs). lia.
  - exists vs. unfold elems_of. by rewrite (elems_at_eq _ _ _ Hvs).
Qed.

Lemma elems_of_length (h : JsHeap) (o : HeapObject) : array_ok h o ->
  length (elems_of h o) = Z.to_nat (array_len o).
Proof.
  intros [Hl Hb]. unfold elems_of. rewrite length_take. destruct Hb as [[_ Hc] | (vs & Hvs & Hlen)].
  - replace (Z.to_nat (array_len o)) with O by lia. done.
  - rewrite (elems_at_eq _ _ _ Hvs). lia.
Qed.

(** [if new_len > array_cap { self.array_grow(obj, new_len)?; }] *)
Definition ensure_cap (obj needed : Z) (h : JsHeap) : bool * JsHeap :=
  if array_cap (obj_at h obj) <? needed then array_grow obj needed h else (true, h).

(** After it there is a block with room, holding the same list. *)
Lemma ensure_cap_step (h : JsHeap) (a needed : Z) (o : HeapObject) :
  layout_ok h -> cells h !! a = Some (CObject o) -> array_ok h o -> 0 < needed ->
  match ensure_cap a needed h with
  | (false, h') => h' = h
  | (true, h') => exists o', (h' = h /\ o' = o \/ array_step h h' a o o') /\
      layout_ok h' /\ cells h' !! a = Some (CObject o') /\ array_ok h' o' /\
      elems_of h' o' = elems_of h o /\ array_len o' = array_len o /\ needed <= array_cap o'
  end.
Proof.
  intros Hlo Ha Hok Hn. unfold ensure_cap. rewrite (obj_at_eq _ _ _ Ha).
  destruct (Z.ltb_spec (array_cap o) needed).
  - pose proof (array_grow_step h a needed o Hlo Ha Hok Hn) as Hg.
    destruct (array_grow a needed h) as [[] h1]; [|done].
    destruct Hg as (o' & Hst & He & Hl & Hc & _). exists o'. split_and!; try done; [by right|apply Hst..].
  - exists o. split_and!; try done; by left.
Qed.

(** A grown array updated in place is one step. *)
Lemma grown_update_step (h h1 : JsHeap) (a : Z) (o o1 : HeapObject) (vs vs' : list Value) (len : Z) :
  layout_ok h -> cells h !! a = Some (CObject o) -> array_ok h o ->
  (h1 = h /\ o1 = o \/ array_step h h1 a o o1) ->
  layout_ok h1 -> cells h1 !! a = Some (CObject o1) ->
  cells h1 !! elements o1 = Some (CElements vs) -> Z.of_nat (length vs) = array_cap o1 ->
  length vs' = length vs -> 0 <= len <= array_cap o1 ->
  let h' := write_cell a (CObject (with_array_len len o1)) (write_cell (elements o1) (CElements vs') h1) in
  array_step h h' a o (with_array_len len o1) /\
  elems_of h' (with_array_len len o1) = take (Z.to_nat len) vs'.
Proof.
  intros Hlo Ha Hok Hor Hlo1 Ha1 Hvs Hl Hl' Hlen h'.
  pose proof (array_update_step h1 a o1 vs vs' len Hlo1 Ha1 Hvs Hl Hl' Hlen) as Hst.
  split.
  - destruct Hor as [[-> ->] | Hst1]; [exact Hst|].
    apply (array_step_trans h h1 h' a o o1); try done. intros E.
    destruct Hok as [_ [[E0 _] | (ws & Hws & _)]]; [|congruence].
    pose proof (cell_nonnull _ _ _ Hlo Ha). lia.
  - unfold elems_of. simpl. unfold h', elems_at. simpl.
    by rewrite lookup_insert_ne, lookup_insert_eq by congruence.
Qed.

Lemma array_set_step (h : JsHeap) (a idx : Z) (v : Value) (o : HeapObject) :
  layout_ok h -> cells h !! a = Some (CObject o) -> array_ok h o -> 0 <= idx ->
  match array_set a idx v h with
  | (false, h') => h' = h /\ array_len o <= idx
  | (true, h') => exists o', array_step h h' a o o' /\
      elems_of h' o' = list_set (elems_of h o) (Z.to_nat idx) v
  end.
Proof.
  intros Hlo Ha Hok Hi. pose proof (ao_len _ _ Hok) as Hlen. unfold array_set. rewrite (obj_at_eq _ _ _ Ha).
  destruct (Z.leb_spec (array_len o) idx) as [Hge | Hlt].
  - pose proof (ensure_cap_step h a (idx + 1) o Hlo Ha Hok) as He. unfold ensure_cap in He.
    rewrite (obj_at_eq _ _ _ Ha) in He.
    destruct (if array_cap o <? idx + 1 then array_grow a (idx + 1) h else (true, h)) as [[] h1].
    2:{ split; [apply He; lia|done]. }
    destruct He as (o1 & Hor & Hlo1 & Ha1 & Hok1 & Hels & Hlo1' & Hc); [lia|].
    pose proof (cap_bound _ _ Hlo1 Hok1) as Hcb.
    destruct (array_block h1 o1 Hlo1 Hok1) as (Hnz & vs & Hvs & Hvl & Hev); [lia|].
    rewrite (obj_at_eq _ _ _ Ha1). destruct (Z.eqb_spec (elements o1) 0); [done|].
    assert (Hne : a <> elements o1) by congruence.
    rewrite (upd_elems_eq _ _ vs h1 Hvs).
    rewrite (upd_elems_eq _ _ (fill (array_len o) idx vs)) by (simpl; by rewrite lookup_insert_eq).
    rewrite write_cell_twice, (upd_obj_eq _ a o1) by (simpl; by rewrite lookup_insert_ne).
    replace (as_u32 (idx + 1)) with (idx + 1) by (symmetry; apply Z.mod_small; lia).
    destruct (grown_update_step h h1 a o o1 vs (<[Z.to_nat idx := v]> (fill (array_len o) idx vs)) (idx + 1))
      as [Hst Hel]; try done; [by rewrite length_insert, fill_length|lia|].
    rewrite <- Hlo1', fill_set_take, <- Hev, Hels, Hlo1' in Hel by lia.
    exists (with_array_len (idx + 1) o1). split; [exact Hst | exact Hel].
  - destruct (array_block h o Hlo Hok) as (Hnz & vs & Hvs & Hvl & Hev); [lia|].
    destruct (Z.eqb_spec (elements o) 0); [done|]. unfold upd_elems. rewrite (elems_at_eq _ _ _ Hvs).
    destruct (grown_update_step h h a o o vs (<[Z.to_nat idx := v]> vs) (array_len o)) as [Hst Hel]; try done.
    { by left. }
    { by rewrite length_insert. }
    assert (Ho : with_array_len (array_len o) o = o) by (by destruct o).
    rewrite Ho in Hst, Hel.
    assert (Hw : write_cell a (CObject o) (write_cell (elements o) (CElements (<[Z.to_nat idx := v]> vs)) h) =
      write_cell (elements o) (CElements (<[Z.to_nat idx := v]> vs)) h).
    { assert (a <> elements o) by congruence. unfold write_cell, with_cells. simpl. f_equal.
      apply insert_id. by rewrite lookup_insert_ne. }
    rewrite Hw in Hst, Hel. exists o. split; [done|]. rewrite Hel, Hev. unfold list_set.
    rewrite length_take. destruct (Nat.ltb_spec (Z.to_nat idx) (Z.to_nat (array_len o) `min` length vs)); [|lia].
    rewrite take_insert_lt by lia. done.
Qed.

Lemma write_cell_id (a : Z) (c : Cell) (h : JsHeap) : cells h !! a = Some c -> write_cell a c h = h.
Proof. intros Ha. unfold write_cell. rewrite insert_id by done. by destruct h. Qed.

Lemma array_step_refl (h : JsHeap) (a : Z) (o : HeapObject) :
  layout_ok h -> cells h !! a = Some (CObject o) -> array_ok h o -> array_step h h a o o.
Proof.
  intros Hlo Ha Hok. split; auto; [by destruct o|].
  exists (offset (mem h)), (cells h). split; [by destruct h as [[] ? ? ? ? ? ? ? ?]|lia].
Qed.

Lemma with_array_len_id (o : HeapObject) : with_array_len (array_len o) o = o.
Proof. by destruct o. Qed.

Lemma array_set_length_step (h : JsHeap) (a n : Z) (v : Value) (o : HeapObject) :
  layout_ok h -> cells h !! a = Some (CObject o) -> array_ok h o -> int32 W v = Some n -> 0 <= n ->
  match array_set_length a v h with
  | (false, h') => h' = h /\ array_len o < n
  | (true, h') => exists o', array_step h h' a o o' /\
      elems_of h' o' = list_resize (elems_of h o) (Z.to_nat n)
  end.
Proof.
  intros Hlo Ha Hok Hv Hn. pose proof (ao_len _ _ Hok) as Hlen. unfold array_set_length. rewrite Hv.
  destruct (Z.ltb_spec n 0); [lia|]. rewrite (obj_at_eq _ _ _ Ha).
  destruct (Z.ltb_spec (array_len o) n) as [Hgrow | Hle].
  - pose proof (ensure_cap_step h a n o Hlo Ha Hok) as He. unfold ensure_cap in He.
    rewrite (obj_at_eq _ _ _ Ha) in He.
    destruct (if array_cap o <? n then array_grow a n h else (true, h)) as [[] h1].
    2:{ split; [apply He; lia|done]. }
    destruct He as (o1 & Hor & Hlo1 & Ha1 & Hok1 & Hels & Hlo1' & Hc); [lia|].
    pose proof (cap_bound _ _ Hlo1 Hok1) as Hcb.
    destruct (array_block h1 o1 Hlo1 Hok1) as (Hnz & vs & Hvs & Hvl & Hev); [lia|].
    rewrite (obj_at_eq _ _ _ Ha1). destruct (Z.eqb_spec (elements o1) 0); [done|].
    assert (Hne : a <> elements o1) by congruence.
    rewrite (upd_elems_eq _ _ vs h1 Hvs), (upd_obj_eq _ a o1) by (simpl; by rewrite lookup_insert_ne).
    replace (as_u32 n) with n by (symmetry; apply Z.mod_small; lia).
    destruct (grown_update_step h h1 a o o1 vs (fill (array_len o) n vs) n) as [Hst Hel]; try done.
    { by rewrite fill_length. }
    rewrite <- Hlo1', fill_resize_take, <- Hev, Hels, Hlo1' in Hel by lia.
    exists (with_array_len n o1). split; [exact Hst | exact Hel].
  - pose proof (cap_bound _ _ Hlo Hok) as Hcb.
    replace (as_u32 n) with n by (symmetry; apply Z.mod_small; lia).
    destruct (Z.ltb_spec n (array_len o)) as [Hsh | Hge].
    + destruct (array_block h o Hlo Hok) as (Hnz & vs & Hvs & Hvl & Hev); [lia|].
      destruct (Z.eqb_spec (elements o) 0); [done|].
      assert (Hne : a <> elements o) by congruence.
      rewrite (upd_elems_eq _ _ vs h Hvs), (upd_obj_eq _ a o) by (simpl; by rewrite lookup_insert_ne).
      destruct (grown_update_step h h a o o vs (fill n (array_len o) vs) n) as [Hst Hel]; try done.
      { by left. }
      { by rewrite fill_length. }
      { lia. }
      rewrite fill_shrink_take, <- Hev in Hel by lia.
      exists (with_array_len n o). split; [exact Hst | exact Hel].
    + assert (n = array_len o) as -> by lia.
      rewrite (upd_obj_eq _ a o), with_array_len_id, write_cell_id by done.
      exists o. split; [by apply array_step_refl|]. unfold list_resize.
      rewrite elems_of_length, Nat.sub_diag by done. simpl. rewrite app_nil_r.
      rewrite take_ge; [done|]. by rewrite elems_of_length.
Qed.

(** Reading in range. *)
Lemma array_get_elems (h : JsHeap) (a idx : Z) (o : HeapObject) :
  layout_ok h -> cells h !! a = Some (CObject o) -> array_ok h o -> 0 <= idx ->
  array_get h a idx = default (UNDEFINED W) (elems_of h o !! Z.to_nat idx).
Proof.
  intros Hlo Ha Hok Hi. pose proof (ao_len _ _ Hok) as Hlen. unfold array_get. rewrite (obj_at_eq _ _ _ Ha).
  destruct (Z.leb_spec (array_len o) idx).
  - rewrite (lookup_ge_None_2 (elems_of h o)); [done|]. rewrite elems_of_length by done. lia.
  - destruct (array_block h o Hlo Hok) as (Hnz & vs & Hvs & Hvl & Hev); [lia|].
    destruct (Z.eqb_spec (elements o) 0); [done|]. unfold elem_at.
    rewrite Hev, (elems_at_eq _ _ _ Hvs), lookup_take_lt by lia. done.
Qed.

(** [array_pop] shortens the list by its last element, which stays in the block. *)
Lemma array_pop_step (h : JsHeap) (a : Z) (o : HeapObject) :
  layout_ok h -> cells h !! a = Some (CObject o) -> array_ok h o -> 0 < array_len o ->
  let h' := upd_obj (with_array_len (array_len o - 1)) a h in
  array_step h h' a o (with_array_len (array_len o - 1) o) /\
  elems_of h o = elems_of h' (with_array_len (array_len o - 1) o) ++ [array_get h a (array_len o - 1)].
Proof.
  intros Hlo Ha Hok Hpos h'. pose proof (ao_len _ _ Hok) as Hlen.
  destruct (array_block h o Hlo Hok) as (Hnz & vs & Hvs & Hvl & Hev); [lia|].
  destruct (grown_update_step h h a o o vs vs (array_len o - 1)) as [Hst Hel]; try done; [by left|lia|].
  rewrite (write_cell_id (elements o) _ h Hvs) in Hst, Hel.
  rewrite <- (upd_obj_eq _ a o h Ha) in Hst, Hel. fold h' in Hst, Hel. split; [done|].
  rewrite Hel, (array_get_elems h a _ o), Hev by (done || lia).
  destruct (lookup_lt_is_Some_2 vs (Z.to_nat (array_len o - 1))) as [x Hx]; [lia|].
  rewrite lookup_take_lt, Hx by lia. simpl. rewrite <- take_S_r by done. f_equal. lia.
Qed.
