(* ===== verification/JsAtom.v ===== *)
(** * JsAtom: interned property names

    [AtomTable] of [src/context.rs]: an atom is an index into a vector of entries that point
    at strings of the heap; a hash index over FNV-1a of the bytes finds one, and a scan of
    the entries backs it up when two names share a hash and the later took the slot. *)
From S2P Require Import Prelude JsValue JsMem HashStore.

(** ** Operations *)

Definition fnv1a_hash (bs : bytes) : Z := fnv_write fnv_offset bs.

Definition bytes_equal (h : JsHeap) (e : AtomEntry) (bs : bytes) : bool :=
  if entry_bytes e =? 0 then false
  else
    match cells h !! entry_bytes e with
    | Some (CString len data) =>
        if negb (len =? Z.of_nat (length bs)) then false
        else bool_decide (take (Z.to_nat len) data = bs)
    | _ => false
    end.

Definition find_atom (h : JsHeap) (bs : bytes) : option Z :=
  let t := atoms h in
  match index t !! fnv1a_hash bs with
  | Some id =>
      match entries t !! Z.to_nat id with
      | Some e =>
          if bytes_equal h e bs then Some id
          else as_u32 ∘ Z.of_nat <$> position (fun e => bytes_equal h e bs) (entries t)
      | None => as_u32 ∘ Z.of_nat <$> position (fun e => bytes_equal h e bs) (entries t)
      end
  | None => None
  end.

Definition push_atom (e : AtomEntry) (h : JsHeap) : Z * JsHeap :=
  let t := atoms h in
  let id := as_u32 (Z.of_nat (length (entries t))) in
  let idx :=
    if entry_bytes e =? 0 then index t
    else match str_at h (entry_bytes e) with
         | Some bs => <[fnv1a_hash bs := id]> (index t)
         | None => index t
         end in
  (id, with_atoms {| entries := entries t ++ [e]; index := idx |} h).

Definition saturating_succ_u32 (n : Z) : Z := Z.min (2 ^ 32 - 1) (n + 1).

Definition add_ref (id : Z) (h : JsHeap) : bool * JsHeap :=
  let t := atoms h in
  match entries t !! Z.to_nat id with
  | Some e =>
      let e' := {| entry_bytes := entry_bytes e; ref_count := saturating_succ_u32 (ref_count e) |} in
      (true, with_atoms {| entries := <[Z.to_nat id := e']> (entries t); index := index t |} h)
  | None => (false, h)
  end.

Definition release (id : Z) (h : JsHeap) : JsHeap :=
  let t := atoms h in
  match entries t !! Z.to_nat id with
  | Some e =>
      if 0 <? ref_count e then
        let e' := {| entry_bytes := entry_bytes e; ref_count := ref_count e - 1 |} in
        with_atoms {| entries := <[Z.to_nat id := e']> (entries t); index := index t |} h
      else h
  | None => h
  end.

(** The strings the table keeps alive, in the order they are pushed. *)
Definition mark_live (h : JsHeap) : list Value :=
  from_ptr ∘ entry_bytes <$>
    filter (fun e => (0 <? ref_count e) && negb (entry_bytes e =? 0)) (entries (atoms h)).

Definition intern_string (bs : bytes) (h : JsHeap) : option Z * JsHeap :=
  match find_atom h bs with
  | Some id => (Some id, (add_ref id h).2)
  | None =>
      match alloc_string bs h with
      | (None, h) => (None, h)
      | (Some header, h) =>
          let '(id, h) := push_atom {| entry_bytes := header; ref_count := 1 |} h in
          (Some id, h)
      end
  end.

Definition atom_bytes (h : JsHeap) (id : Z) : option bytes :=
  e ← entries (atoms h) !! Z.to_nat id; str_at h (entry_bytes e).

Definition atom_dup (id : Z) (h : JsHeap) : bool * JsHeap := add_ref id h.
Definition atom_free (id : Z) (h : JsHeap) : JsHeap := release id h.

(** ** The invariant *)

(** A string block as [alloc_string] writes it in a region of less than 4 GiB. *)
Definition is_string (h : JsHeap) (a : Z) (bs : bytes) : Prop :=
  cells h !! a = Some (CString (Z.of_nat (length bs)) bs) /\ a <> 0.

Record atoms_ok (h : JsHeap) : Prop := {
  at_null : exists n, entries (atoms h) !! O = Some {| entry_bytes := 0; ref_count := n |};
  at_string : forall i e, entries (atoms h) !! S i = Some e -> exists bs, is_string h (entry_bytes e) bs;
  at_distinct : forall i j ei ej bs, entries (atoms h) !! i = Some ei -> entries (atoms h) !! j = Some ej ->
    is_string h (entry_bytes ei) bs -> is_string h (entry_bytes ej) bs -> i = j;
  at_index : forall i e bs, entries (atoms h) !! i = Some e -> is_string h (entry_bytes e) bs ->
    is_Some (index (atoms h) !! fnv1a_hash bs);
  at_ids : forall hash id, index (atoms h) !! hash = Some id -> 0 <= id;
  at_room : 9 * (Z.of_nat (length (entries (atoms h))) - 1) <= offset (mem h)
}.

Lemma bytes_equal_spec (h : JsHeap) (e : AtomEntry) (bs bs' : bytes) :
  is_string h (entry_bytes e) bs' -> bytes_equal h e bs = bool_decide (bs' = bs).
Proof.
  intros [Hs Hz]. unfold bytes_equal. destruct (Z.eqb_spec (entry_bytes e) 0); [done|]. rewrite Hs.
  rewrite Nat2Z.id, take_ge by done.
  destruct (Z.eqb_spec (Z.of_nat (length bs')) (Z.of_nat (length bs))) as [|Hne]; [done|]. simpl.
  rewrite bool_decide_eq_false_2; [done|]. by intros ->.
Qed.

Lemma is_string_str_at (h : JsHeap) (a : Z) (bs : bytes) : is_string h a bs -> str_at h a = Some bs.
Proof. intros [Hs _]. unfold str_at. by rewrite Hs, Nat2Z.id, take_ge. Qed.

Lemma is_string_inj (h : JsHeap) (a : Z) (b1 b2 : bytes) : is_string h a b1 -> is_string h a b2 -> b1 = b2.
Proof. intros [H1 _] [H2 _]. rewrite H1 in H2. by injection H2. Qed.

(** The entry holding [bs]. *)
Lemma bytes_equal_true (h : JsHeap) (i : nat) (e : AtomEntry) (bs : bytes) :
  atoms_ok h -> entries (atoms h) !! i = Some e -> bytes_equal h e bs = true ->
  is_string h (entry_bytes e) bs /\ (0 < i)%nat.
Proof.
  intros Hok He Hb. destruct i as [|i].
  - destruct (at_null _ Hok) as [n Hn]. rewrite Hn in He. injection He as <-. done.
  - destruct (at_string _ Hok i e He) as [bs' Hs]. rewrite (bytes_equal_spec _ _ _ bs' Hs) in Hb.
    apply bool_decide_eq_true_1 in Hb as ->. split; [done|lia].
Qed.

Lemma entries_bound (h : JsHeap) : layout_ok h -> atoms_ok h -> Z.of_nat (length (entries (atoms h))) < 2 ^ 32.
Proof.
  intros Hlo Hok. pose proof (at_room _ Hok). pose proof (lo_offset _ Hlo). pose proof (lo_size _ Hlo). lia.
Qed.

(** The look-up finds the entry holding the bytes, whatever the hashes. *)
Lemma find_atom_spec (h : JsHeap) (bs : bytes) : layout_ok h -> atoms_ok h ->
  match find_atom h bs with
  | Some id => exists e, entries (atoms h) !! Z.to_nat id = Some e /\ is_string h (entry_bytes e) bs /\
      0 < id < Z.of_nat (length (entries (atoms h)))
  | None => forall i e, entries (atoms h) !! i = Some e -> ~ is_string h (entry_bytes e) bs
  end.
Proof.
  intros Hlo Hok. pose proof (entries_bound h Hlo Hok) as Hb. unfold find_atom.
  assert (Hscan : match as_u32 ∘ Z.of_nat <$> position (fun e => bytes_equal h e bs) (entries (atoms h)) with
    | Some id => exists e, entries (atoms h) !! Z.to_nat id = Some e /\ is_string h (entry_bytes e) bs /\
        0 < id < Z.of_nat (length (entries (atoms h)))
    | None => forall i e, entries (atoms h) !! i = Some e -> ~ is_string h (entry_bytes e) bs
    end).
  { destruct (position _ _) as [i|] eqn:Hp; simpl.
    - apply position_Some in Hp as (e & He & Hbe & _). pose proof (lookup_lt_Some _ _ _ He).
      destruct (bytes_equal_true h i e bs Hok He Hbe) as [Hs Hi]. unfold as_u32. rewrite Z.mod_small by lia.
      exists e. rewrite Nat2Z.id. split; [done|]. split; [done|lia].
    - intros i e He Hs. apply position_None in Hp. rewrite Forall_forall in Hp.
      assert (Hin : e ∈ entries (atoms h)) by (by eapply list_elem_of_lookup_2).
      specialize (Hp e Hin). simpl in Hp. rewrite (bytes_equal_spec _ _ _ bs Hs) in Hp.
      by rewrite bool_decide_eq_true_2 in Hp. }
  destruct (index (atoms h) !! fnv1a_hash bs) as [id|] eqn:Hi.
  - pose proof (at_ids _ Hok _ _ Hi) as Hid.
    destruct (entries (atoms h) !! Z.to_nat id) as [e|] eqn:He; [|done].
    destruct (bytes_equal h e bs) eqn:Hbe; [|done].
    destruct (bytes_equal_true h _ e bs Hok He Hbe) as [Hs Hpos]. pose proof (lookup_lt_Some _ _ _ He).
    exists e. split; [done|]. split; [done|lia].
  - intros i e He Hs. destruct (at_index _ Hok i e bs He Hs). congruence.
Qed.

(** ** The operations keep the invariant *)

(** An invariant of the table reads its strings and the amount of memory used. *)
Lemma atoms_ok_mono (h h' : JsHeap) :
  atoms h' = atoms h -> offset (mem h) <= offset (mem h') ->
  (forall a n bs, cells h !! a = Some (CString n bs) -> cells h' !! a = Some (CString n bs)) ->
  atoms_ok h -> atoms_ok h'.
Proof.
  intros Ht Hof Hc [Hn Hs Hd Hi Hids Hr].
  assert (Hfwd : forall a bs, is_string h a bs -> is_string h' a bs) by (intros a bs [? ?]; split; [by apply Hc|done]).
  assert (Hback : forall i e bs, entries (atoms h) !! i = Some e -> is_string h' (entry_bytes e) bs ->
    is_string h (entry_bytes e) bs).
  { intros [|i] e bs He [Hb Hz].
    - destruct Hn as [n Hn]. rewrite Hn in He. injection He as <-. done.
    - destruct (Hs i e He) as [bs' Hbs]. pose proof (Hfwd _ _ Hbs) as [Hb' _]. rewrite Hb' in Hb.
      injection Hb as _ <-. done. }
  split; rewrite ?Ht.
  - done.
  - intros i e He. destruct (Hs i e He) as [bs Hbs]. exists bs. by apply Hfwd.
  - intros i j ei ej bs Hi' Hj Hei Hej. apply (Hd i j ei ej bs Hi' Hj); by eapply Hback.
  - intros i e bs He Hbs. by eapply Hi, Hback.
  - done.
  - lia.
Qed.

(** Changing a reference count. *)
Lemma atoms_ok_count (h : JsHeap) (i : nat) (e : AtomEntry) (n : Z) :
  atoms_ok h -> entries (atoms h) !! i = Some e ->
  atoms_ok (with_atoms {| entries := <[i := {| entry_bytes := entry_bytes e; ref_count := n |}]> (entries (atoms h));
                          index := index (atoms h) |} h).
Proof.
  intros [[m Hn] Hs Hd Hi Hids Hr] He.
  assert (Hl : forall j e', <[i := {| entry_bytes := entry_bytes e; ref_count := n |}]> (entries (atoms h)) !! j = Some e' ->
    exists e0, entries (atoms h) !! j = Some e0 /\ entry_bytes e' = entry_bytes e0).
  { intros j e' [(-> & <- & _) | (Hne & Hj)]%list_lookup_insert_Some; eauto. }
  assert (Hst : forall a bs t, is_string (with_atoms t h) a bs <-> is_string h a bs) by done.
  split; simpl; try setoid_rewrite Hst.
  - destruct i as [|i].
    + rewrite Hn in He. injection He as <-. exists n. simpl. rewrite list_lookup_insert_eq; [done|].
      by eapply lookup_lt_Some.
    + exists m. by rewrite list_lookup_insert_ne.
  - intros j e' (e0 & Hj & ->)%Hl. by apply (Hs j e0).
  - intros j k ej ek bs (e1 & H1 & ->)%Hl (e2 & H2 & ->)%Hl. by apply (Hd j k e1 e2).
  - intros j e' bs (e0 & Hj & ->)%Hl. by apply (Hi j e0).
  - done.
  - by rewrite length_insert.
Qed.

Lemma add_ref_ok (h : JsHeap) (id : Z) : atoms_ok h -> atoms_ok (add_ref id h).2.
Proof.
  intros Hok. unfold add_ref. destruct (entries (atoms h) !! Z.to_nat id) as [e|] eqn:He; [|done].
  by apply atoms_ok_count.
Qed.

Lemma release_ok (h : JsHeap) (id : Z) : atoms_ok h -> atoms_ok (release id h).
Proof.
  intros Hok. unfold release. destruct (entries (atoms h) !! Z.to_nat id) as [e|] eqn:He; [|done].
  destruct (0 <? ref_count e); [|done]. by apply atoms_ok_count.
Qed.

(** Reference counting leaves every name in place: an atom is never given back. *)
Lemma add_ref_bytes (h : JsHeap) (id id' : Z) : atom_bytes (add_ref id h).2 id' = atom_bytes h id'.
Proof.
  unfold add_ref, atom_bytes. destruct (entries (atoms h) !! Z.to_nat id) as [e|] eqn:He; [|done]. simpl.
  destruct (decide (Z.to_nat id = Z.to_nat id')) as [E | E].
  - rewrite <- E, He, list_lookup_insert_eq by (by eapply lookup_lt_Some). done.
  - by rewrite list_lookup_insert_ne.
Qed.

Lemma release_bytes (h : JsHeap) (id id' : Z) : atom_bytes (release id h) id' = atom_bytes h id'.
Proof.
  unfold release, atom_bytes. destruct (entries (atoms h) !! Z.to_nat id) as [e|] eqn:He; [|done].
  destruct (0 <? ref_count e); [|done]. simpl.
  destruct (decide (Z.to_nat id = Z.to_nat id')) as [E | E].
  - rewrite <- E, He, list_lookup_insert_eq by (by eapply lookup_lt_Some). done.
  - by rewrite list_lookup_insert_ne.
Qed.

(** A new name. *)
Lemma push_atom_ok (h h' : JsHeap) (raw : Z) (bs : bytes) :
  layout_ok h -> atoms_ok h -> alloc_step h h' raw (CString (Z.of_nat (length bs)) bs) ->
  (forall i e, entries (atoms h) !! i = Some e -> ~ is_string h (entry_bytes e) bs) ->
  let '(id, h'') := push_atom {| entry_bytes := raw; ref_count := 1 |} h' in
  atoms_ok h'' /\ id = Z.of_nat (length (entries (atoms h))) /\
  h'' = with_atoms (atoms h'') h' /\ 
  entries (atoms h'') = entries (atoms h) ++ [{| entry_bytes := raw; ref_count := 1 |}].
Proof.
  intros Hlo Hok Hst Hnew. pose proof (entries_bound h Hlo Hok) as Hb.
  assert (Hat : atoms h' = atoms h) by (rewrite (al_rest _ _ _ _ Hst); done).
  assert (Hraw : raw <> 0) by (pose proof (al_addr _ _ _ _ Hst); lia).
  assert (Hstr : is_string h' raw bs) by (split; [by apply (alloc_step_new _ _ _ _ Hst)|done]).
  assert (Hok' : atoms_ok h').
  { apply (atoms_ok_mono h); [done| | |done].
    - pose proof (al_mem _ _ _ _ Hst) as (_ & _ & ?). simpl in *. unfold SIZE_STRING_HEADER in *. lia.
    - intros a n b. by apply (alloc_step_mono _ _ _ _ _ _ Hst). }
  unfold push_atom. simpl. destruct (Z.eqb_spec raw 0); [done|].
  rewrite (is_string_str_at _ _ _ Hstr), Hat. unfold as_u32. rewrite Z.mod_small by lia.
  split; [|done].
  destruct Hok' as [[n0 Hn] Hs Hd Hi Hids Hr]. rewrite Hat in *.
  assert (Hne : forall i e, entries (atoms h) !! i = Some e -> ~ is_string h' (entry_bytes e) bs).
  { intros i e He Hs'. apply (Hnew i e He). destruct i as [|i].
    - rewrite Hn in He. injection He as <-. by destruct Hs'.
    - destruct (at_string _ Hok i e He) as [b0 [Hb0 Hz]]. destruct Hs' as [Hs' _].
      rewrite (alloc_step_mono _ _ _ _ _ _ Hst Hb0) in Hs'. injection Hs' as _ <-. done. }
  split; simpl.
  - exists n0. rewrite lookup_app_l by (by eapply lookup_lt_Some). done.
  - intros i e [He | [_ He]]%lookup_app_Some; [by apply (Hs i)|].
    apply list_lookup_singleton_Some in He as [_ <-]. by exists bs.
  - intros i j ei ej b [Hei | [Hi0 Hei]]%lookup_app_Some [Hej | [Hj0 Hej]]%lookup_app_Some Hsi Hsj.
    + by apply (Hd i j ei ej b).
    + apply list_lookup_singleton_Some in Hej as [_ <-]. simpl in Hsj.
      assert (b = bs) as -> by exact (is_string_inj h' raw b bs Hsj Hstr). by destruct (Hne i ei Hei).
    + apply list_lookup_singleton_Some in Hei as [_ <-]. simpl in Hsi.
      assert (b = bs) as -> by exact (is_string_inj h' raw b bs Hsi Hstr). by destruct (Hne j ej Hej).
    + apply list_lookup_singleton_Some in Hei as [Ei _], Hej as [Ej _]. lia.
  - intros i e b [He | [_ He]]%lookup_app_Some Hb0.
    + destruct (decide (fnv1a_hash bs = fnv1a_hash b)) as [<- | Hh]; [by rewrite lookup_insert_eq|].
      rewrite lookup_insert_ne by done. by apply (Hi i e b).
    + apply list_lookup_singleton_Some in He as [_ <-]. simpl in Hb0.
      assert (b = bs) as -> by exact (is_string_inj h' raw b bs Hb0 Hstr). by rewrite lookup_insert_eq.
  - intros hash id [[_ <-] | [_ Hid]]%lookup_insert_Some; [lia|by apply (Hids hash)].
  - rewrite length_app. simpl. pose proof (al_mem _ _ _ _ Hst) as (_ & _ & Hof). simpl in Hof.
    pose proof (at_room _ Hok). unfold SIZE_STRING_HEADER in *. lia.
Qed.

(** Every atom of [h] still names what it named. *)
Definition names_kept (h h' : JsHeap) : Prop :=
  forall id bs, 0 <= id -> atom_bytes h id = Some bs -> atom_bytes h' id = Some bs.

Lemma names_kept_trans (h1 h2 h3 : JsHeap) : names_kept h1 h2 -> names_kept h2 h3 -> names_kept h1 h3.
Proof. intros H1 H2 id bs Hid Hb. auto. Qed.

Lemma names_kept_mono (h h' : JsHeap) :
  atoms h' = atoms h ->
  (forall a n bs, cells h !! a = Some (CString n bs) -> cells h' !! a = Some (CString n bs)) ->
  names_kept h h'.
Proof.
  intros Ht Hc id bs _. unfold atom_bytes. rewrite Ht. destruct (entries (atoms h) !! Z.to_nat id) as [e|]; [|done].
  simpl. unfold str_at. destruct (cells h !! entry_bytes e) as [[n d| | | |]|] eqn:E; try done. by rewrite (Hc _ _ _ E).
Qed.

(** A name has one atom. *)
Lemma atom_bytes_inj (h : JsHeap) (i j : Z) (bs : bytes) : layout_ok h -> atoms_ok h -> 0 <= i -> 0 <= j ->
  atom_bytes h i = Some bs -> atom_bytes h j = Some bs -> i = j.
Proof.
  intros Hlo Hok Hi Hj.
  assert (Hstr : forall n e, entries (atoms h) !! n = Some e -> str_at h (entry_bytes e) = Some bs ->
    is_string h (entry_bytes e) bs).
  { intros [|n] e He Hs.
    - destruct (at_null _ Hok) as [m Hn]. rewrite Hn in He. injection He as <-. unfold str_at in Hs. simpl in Hs.
      destruct (cells h !! 0) as [c|] eqn:E0; [|done]. pose proof (cell_nonnull _ _ _ Hlo E0). lia.
    - destruct (at_string _ Hok n e He) as [b0 Hb0]. rewrite (is_string_str_at _ _ _ Hb0) in Hs.
      by injection Hs as ->. }
  intros (ei & Hei & Hsi)%bind_Some (ej & Hej & Hsj)%bind_Some.
  pose proof (at_distinct _ Hok _ _ ei ej bs Hei Hej (Hstr _ _ Hei Hsi) (Hstr _ _ Hej Hsj)). lia.
Qed.

(** A step that adds strings and atoms and touches nothing else. *)
Record str_step (h h' : JsHeap) : Prop := {
  ss_layout : layout_ok h';
  ss_atoms : atoms_ok h';
  ss_frame : forall b c, cells h !! b = Some c -> cells h' !! b = Some c;
  ss_new : forall b, cells h !! b = None -> cells h' !! b = None \/ exists n d, cells h' !! b = Some (CString n d);
  ss_rest : exists off gcs cs t, h' = {| mem := {| start := start (mem h); size := size (mem h); offset := off |};
      gc_objects := gcs; cells := cs; atoms := t; prop_maps := prop_maps h; object_proto := object_proto h;
      array_proto := array_proto h; array_push_fn := array_push_fn h; array_pop_fn := array_pop_fn h |} /\
      offset (mem h) <= off;
  ss_names : names_kept h h'
}.

(** [intern_string]: the name's one atom, made when there is none. *)
Lemma intern_string_step (bs : bytes) (h : JsHeap) : layout_ok h -> atoms_ok h ->
  match intern_string bs h with
  | (Some id, h') => str_step h h' /\ 0 < id < 2 ^ 32 /\ atom_bytes h' id = Some bs
  | (None, h') => h' = h /\ forall id, atom_bytes h id <> Some bs
  end.
Proof.
  intros Hlo Hok. pose proof (find_atom_spec h bs Hlo Hok) as Hf. pose proof (entries_bound h Hlo Hok) as Hb.
  unfold intern_string. destruct (find_atom h bs) as [id|].
  - destruct Hf as (e & He & Hs & Hid). split; [|split; [lia|]].
    + assert (Hr : exists t, (add_ref id h).2 = with_atoms t h).
      { unfold add_ref. rewrite He. by eexists. }
      assert (Hsame : cells (add_ref id h).2 = cells h) by (destruct Hr as [t ->]; done).
      split.
      * destruct Hr as [t ->]. by apply with_atoms_layout.
      * by apply add_ref_ok.
      * by rewrite Hsame.
      * rewrite Hsame. auto.
      * destruct Hr as [t ->]. exists (offset (mem h)), (gc_objects h), (cells h), t.
        split; [|lia]. by destruct h as [[] ? ? ? ? ? ? ? ?].
      * intros id' b' _ Hid'. by rewrite add_ref_bytes.
    + rewrite add_ref_bytes. unfold atom_bytes. rewrite He. by apply is_string_str_at.
  - pose proof (alloc_string_spec bs h Hlo) as Ha. destruct (alloc_string bs h) as [[raw|] h1].
    + pose proof (push_atom_ok h h1 raw bs Hlo Hok Ha Hf) as Hp.
      destruct (push_atom _ h1) as [id h2]. destruct Hp as (Hok2 & -> & Hh2 & Hent).
      assert (Hcs : cells h2 = cells h1) by (rewrite Hh2; done).
      assert (Hlook : forall id' b', atom_bytes h id' = Some b' -> atom_bytes h2 id' = Some b').
      { intros id' b' (e & He & Hb')%bind_Some. apply bind_Some. exists e. split.
        - rewrite Hent, lookup_app_l by (by eapply lookup_lt_Some). done.
        - unfold str_at in *. rewrite Hcs. destruct (cells h !! entry_bytes e) as [c|] eqn:Ec; [|done].
          by rewrite (alloc_step_mono _ _ _ _ _ _ Ha Ec). }
      assert (Hpos : (0 < length (entries (atoms h)))%nat).
      { destruct (at_null _ Hok) as [n Hn]. by apply lookup_lt_Some in Hn. }
      split; [|split; [lia|]].
      * split; [| |rewrite Hcs; intros b c; by apply (alloc_step_mono _ _ _ _ _ _ Ha)| | |intros id' b' _; apply Hlook].
        -- rewrite Hh2. apply with_atoms_layout, Ha.
        -- done.
        -- intros b Hbn. rewrite Hcs, (al_cells _ _ _ _ Ha).
           destruct (decide (b = raw)) as [-> | Hne]; [right; rewrite lookup_insert_eq; by eauto|].
           left. by rewrite lookup_insert_ne.
        -- pose proof (al_mem _ _ _ _ Ha) as (Hm1 & Hm2 & Hm3).
           exists (offset (mem h1)), (gc_objects h ++ [raw]), (cells h1), (atoms h2). split.
           ++ transitivity (with_atoms (atoms h2) (with_mem (mem h1) (with_cells (cells h1) (register raw h)))).
              ** by rewrite <- (al_rest _ _ _ _ Ha).
              ** unfold with_atoms, with_mem, with_cells, register. simpl. rewrite <- Hm1, <- Hm2.
                 by destruct (mem h1).
           ++ simpl in Hm3. unfold SIZE_STRING_HEADER in *. lia.
      * unfold atom_bytes. rewrite Hent, Nat2Z.id, list_lookup_middle by done. simpl.
        unfold str_at. rewrite Hcs, (alloc_step_new _ _ _ _ Ha), Nat2Z.id, take_ge by done. done.
    + split; [apply Ha|]. intros id (e & He & Hb')%bind_Some. destruct (Z.to_nat id) as [|i] eqn:Ei.
      * destruct (at_null _ Hok) as [n Hn]. rewrite Hn in He. injection He as <-. unfold str_at in Hb'. simpl in Hb'.
        destruct (cells h !! 0) as [c|] eqn:E0; [|done]. pose proof (cell_nonnull _ _ _ Hlo E0). lia.
      * destruct (at_string _ Hok i e He) as [b0 Hb0]. rewrite (is_string_str_at _ _ _ Hb0) in Hb'.
        injection Hb' as ->. exact (Hf (S i) e He Hb0).
Qed.
