(* ===== verification/JsObject.v ===== *)
(** * JsObject: property access on values

    The methods of [Context] of [src/context.rs] that take a [Value]: creating objects,
    arrays and native functions, and reading, writing, deleting and listing properties by
    name, atom or index.  A method that interns its name ([&mut self]) returns the heap. *)
From S2P Require Import Prelude IntCodec Utf8 JsValue JsMem JsProps JsArray JsAtom.

Definition PROTO_SEARCH_LIMIT : nat := 64.

(** [parse_index]: decimal digits that fit a [u32]. *)
Fixpoint parse_index_loop (name : bytes) (value : Z) : option Z :=
  match name with
  | [] => Some value
  | b :: rest =>
      if negb (is_digit b) then None
      else
        let digit := b - c_0 in
        if 2 ^ 32 <=? value * 10 then None
        else if 2 ^ 32 <=? value * 10 + digit then None
        else parse_index_loop rest (value * 10 + digit)
  end.
Definition parse_index (name : bytes) : option Z :=
  match name with [] => None | _ => parse_index_loop name 0 end.

Definition s_length : bytes := b! "length".
Definition bytes_eqb (a b : bytes) : bool := bool_decide (a = b).

(** [as i32], then tagged. *)
Definition len_value (n : Z) : Value := from_int32 W (as_i32 n).

(** ** Reading *)

(** One step up the prototype chain, unless it ends. *)
Definition proto_end (p : Value) : bool := is_null W p || is_undefined W p.

Fixpoint has_atom_loop (n : nat) (h : JsHeap) (cur : Value) (atom : Z) (name : bytes) : bool :=
  match n with
  | O => false
  | S n' =>
      match object_ptr h cur with
      | None => false
      | Some obj =>
          if is_array h obj && bytes_eqb name s_length then true
          else
            match find_prop_value h obj PROP_KEY_ATOM atom with
            | Some _ => true
            | None =>
                let p := proto (obj_at h obj) in
                if proto_end p then false else has_atom_loop n' h p atom name
            end
      end
  end.

Fixpoint has_index_loop (n : nat) (h : JsHeap) (cur : Value) (idx : Z) : bool :=
  match n with
  | O => false
  | S n' =>
      match object_ptr h cur with
      | None => false
      | Some obj =>
          if is_array h obj && (idx <? array_len (obj_at h obj)) then true
          else
            match find_prop_value h obj PROP_KEY_INDEX idx with
            | Some _ => true
            | None =>
                let p := proto (obj_at h obj) in
                if proto_end p then false else has_index_loop n' h p idx
            end
      end
  end.

Definition has_property_index (h : JsHeap) (val : Value) (idx : Z) : bool :=
  has_index_loop PROTO_SEARCH_LIMIT h val idx.

Definition has_property_str (val : Value) (name : bytes) (h : JsHeap) : bool * JsHeap :=
  if bytes_eqb name s_length && bool_decide (is_Some (string_bytes h val)) then (true, h)
  else
    match parse_index name with
    | Some idx => (has_property_index h val idx, h)
    | None =>
        match intern_string name h with
        | (None, h) => (false, h)
        | (Some atom, h) => (has_atom_loop PROTO_SEARCH_LIMIT h val atom name, h)
        end
    end.

Fixpoint get_atom_loop (n : nat) (h : JsHeap) (cur : Value) (atom : Z) (name : bytes) : option Value :=
  match n with
  | O => Some (UNDEFINED W)
  | S n' =>
      match object_ptr h cur with
      | None => None
      | Some obj =>
          if is_array h obj && bytes_eqb name s_length then Some (len_value (array_len (obj_at h obj)))
          else
            match find_prop_value h obj PROP_KEY_ATOM atom with
            | Some found => Some found
            | None =>
                let p := proto (obj_at h obj) in
                if proto_end p then Some (UNDEFINED W) else get_atom_loop n' h p atom name
            end
      end
  end.

Definition get_property_atom (h : JsHeap) (val : Value) (atom : Z) (name : bytes) : option Value :=
  get_atom_loop PROTO_SEARCH_LIMIT h val atom name.

Fixpoint get_atom_id_loop (n : nat) (h : JsHeap) (cur : Value) (atom : Z) : option Value :=
  match n with
  | O => Some (UNDEFINED W)
  | S n' =>
      match object_ptr h cur with
      | None => None
      | Some obj =>
          match find_prop_value h obj PROP_KEY_ATOM atom with
          | Some found => Some found
          | None =>
              let p := proto (obj_at h obj) in
              if proto_end p then Some (UNDEFINED W) else get_atom_id_loop n' h p atom
          end
      end
  end.
Definition get_property_atom_id (h : JsHeap) (val : Value) (atom : Z) : option Value :=
  get_atom_id_loop PROTO_SEARCH_LIMIT h val atom.

Fixpoint get_index_loop (n : nat) (h : JsHeap) (cur : Value) (idx : Z) : option Value :=
  match n with
  | O => Some (UNDEFINED W)
  | S n' =>
      match object_ptr h cur with
      | None => None
      | Some obj =>
          if is_array h obj && (idx <? array_len (obj_at h obj)) then Some (array_get h obj idx)
          else
            match find_prop_value h obj PROP_KEY_INDEX idx with
            | Some found => Some found
            | None =>
                let p := proto (obj_at h obj) in
                if proto_end p then Some (UNDEFINED W) else get_index_loop n' h p idx
            end
      end
  end.
Definition get_property_index (h : JsHeap) (val : Value) (idx : Z) : option Value :=
  get_index_loop PROTO_SEARCH_LIMIT h val idx.

(** What a name means on a value before it is looked up: a string's length, an index, an atom. *)
Definition get_property_str (val : Value) (name : bytes) (h : JsHeap) : option Value * JsHeap :=
  match (if bytes_eqb name s_length then string_bytes h val else None) with
  | Some bs => (Some (len_value (Z.of_nat (length bs))), h)
  | None =>
      match parse_index name with
      | Some idx => (get_property_index h val idx, h)
      | None =>
          match intern_string name h with
          | (None, h) => (None, h)
          | (Some atom, h) => (get_property_atom h val atom name, h)
          end
      end
  end.

(** ** Writing and deleting *)

Definition set_property_index (val : Value) (idx : Z) (v : Value) (h : JsHeap) : bool * JsHeap :=
  match object_ptr h val with
  | None => (false, h)
  | Some obj =>
      if is_array h obj then array_set obj idx v h
      else set_prop_value obj PROP_KEY_INDEX idx v h
  end.

Definition set_property_str (val : Value) (name : bytes) (v : Value) (h : JsHeap) : bool * JsHeap :=
  match object_ptr h val with
  | None => (false, h)
  | Some obj =>
      match parse_index name with
      | Some idx => set_property_index val idx v h
      | None =>
          if is_array h obj && bytes_eqb name s_length then array_set_length obj v h
          else
            match intern_string name h with
            | (None, h) => (false, h)
            | (Some atom, h) => set_prop_value obj PROP_KEY_ATOM atom v h
            end
      end
  end.

Definition set_property_atom_id (val : Value) (atom : Z) (v : Value) (h : JsHeap) : bool * JsHeap :=
  match object_ptr h val with
  | None => (false, h)
  | Some obj => set_prop_value obj PROP_KEY_ATOM atom v h
  end.

Definition delete_property_index (val : Value) (idx : Z) (h : JsHeap) : bool * JsHeap :=
  match object_ptr h val with
  | None => (false, h)
  | Some obj =>
      if is_array h obj && (idx <? array_len (obj_at h obj)) then
        let elems := elements (obj_at h obj) in
        (true, if elems =? 0 then h else upd_elems (fun vs => <[Z.to_nat idx := UNDEFINED W]> vs) elems h)
      else delete_prop_value obj PROP_KEY_INDEX idx h
  end.

Definition delete_property_str (val : Value) (name : bytes) (h : JsHeap) : bool * JsHeap :=
  match object_ptr h val with
  | None => (false, h)
  | Some obj =>
      match parse_index name with
      | Some idx => delete_property_index val idx h
      | None =>
          match intern_string name h with
          | (None, h) => (false, h)
          | (Some atom, h) => delete_prop_value obj PROP_KEY_ATOM atom h
          end
      end
  end.

(** ** Creating *)

Definition new_object (cls : Z) (h : JsHeap) : option Value * JsHeap :=
  match alloc_object cls h with
  | (None, h) => (None, h)
  | (Some obj, h) =>
      let h :=
        if (cls =? CLASS_OBJECT) && negb (is_undefined W (object_proto h))
        then upd_obj (with_proto (object_proto h)) obj h else h in
      (Some (from_ptr obj), h)
  end.

Definition new_array_bare (initial_len : Z) (h : JsHeap) : option Value * JsHeap :=
  match alloc_array initial_len h with
  | (None, h) => (None, h)
  | (Some obj, h) =>
      let h :=
        if negb (is_undefined W (array_proto h))
        then upd_obj (with_proto (array_proto h)) obj h else h in
      (Some (from_ptr obj), h)
  end.

Definition new_array (initial_len : Z) (h : JsHeap) : option Value * JsHeap :=
  match new_array_bare initial_len h with
  | (None, h) => (None, h)
  | (Some val, h) =>
      if is_undefined W (array_proto h) then
        let h := if negb (is_undefined W (array_push_fn h))
                 then (set_property_str val (b! "push") (array_push_fn h) h).2 else h in
        let h := if negb (is_undefined W (array_pop_fn h))
                 then (set_property_str val (b! "pop") (array_pop_fn h) h).2 else h in
        (Some val, h)
      else (Some val, h)
  end.

Definition new_c_function (idx : Z) (params : Value) (h : JsHeap) : option Value * JsHeap :=
  match alloc_object CLASS_CFUNCTION h with
  | (None, h) => (None, h)
  | (Some obj, h) => (Some (from_ptr obj), upd_obj (with_func idx params) obj h)
  end.

Definition c_function_info (h : JsHeap) (val : Value) : option (Z * Value) :=
  obj ← object_ptr h val;
  let o := obj_at h obj in
  if negb (class_id o =? CLASS_CFUNCTION) then None else Some (func_idx o, func_params o).

Definition object_class_id (h : JsHeap) (val : Value) : option Z :=
  obj ← object_ptr h val; Some (class_id (obj_at h obj)).

Definition set_object_opaque (val : Value) (p : Z) (h : JsHeap) : bool * JsHeap :=
  match object_ptr h val with
  | None => (false, h)
  | Some obj => (true, upd_obj (with_opaque p) obj h)
  end.
Definition get_object_opaque (h : JsHeap) (val : Value) : Z :=
  match object_ptr h val with None => 0 | Some obj => opaque (obj_at h obj) end.

Definition set_object_proto (val p : Value) (h : JsHeap) : bool * JsHeap :=
  match object_ptr h val with
  | None => (false, h)
  | Some obj => (true, upd_obj (with_proto p) obj h)
  end.
Definition object_proto_of (h : JsHeap) (val : Value) : option Value :=
  obj ← object_ptr h val; Some (proto (obj_at h obj)).

(** ** Listing *)

(** The name of one property: an index in decimal, an atom's bytes when they are UTF-8. *)
Definition key_name (h : JsHeap) (kk : Z * Z) : option bytes :=
  if kk.1 =? PROP_KEY_INDEX then Some (int_to_string kk.2)
  else bs ← atom_bytes h kk.2; from_utf8 bs.

Definition object_keys (h : JsHeap) (val : Value) : option (list bytes) :=
  obj ← object_ptr h val;
  let idxs :=
    if is_array h obj
    then int_to_string ∘ Z.of_nat <$> seq 0 (Z.to_nat (array_len (obj_at h obj))) else [] in
  Some (idxs ++ omap (fun e : Entry => key_name h e.1) (obj_props h obj)).
