(* ===== verification/JsInv.v ===== *)
(** * JsInv: the heap invariant and what each primitive step changes

    [heap_ok] collects the invariants of the layout, the property lists, the element blocks
    and the atom table, and says that no two objects share a node or an element block.
    [obj_view] is an object as a JavaScript program sees it.  Each primitive step (an
    allocation, an interning, a table operation, an array operation, a field update) keeps
    the invariant and changes the view of one object at most. *)
From S2P Require Import Prelude JsValue JsMem JsProps JsTable JsArray JsAtom.

(** ** The view *)

Record JObject := {
  j_class : Z;
  j_array : bool;
  j_proto : Value;
  j_props : list Entry;
  j_elems : list Value;
  j_opaque : Z;
  j_func : Z * Value
}.

Definition view_of (h : JsHeap) (a : Z) (o : HeapObject) : JObject :=
  {| j_class := class_id o; j_array := tag o =? HEAP_TAG_ARRAY; j_proto := proto o;
     j_props := obj_props h a; j_elems := elems_of h o; j_opaque := opaque o;
     j_func := (func_idx o, func_params o) |}.

Definition obj_view (h : JsHeap) (a : Z) : option JObject :=
  match cells h !! a with Some (CObject o) => Some (view_of h a o) | _ => None end.

Definition with_jprops (t : list Entry) (j : JObject) : JObject :=
  {| j_class := j_class j; j_array := j_array j; j_proto := j_proto j; j_props := t;
     j_elems := j_elems j; j_opaque := j_opaque j; j_func := j_func j |}.
Definition with_jelems (l : list Value) (j : JObject) : JObject :=
  {| j_class := j_class j; j_array := j_array j; j_proto := j_proto j; j_props := j_props j;
     j_elems := l; j_opaque := j_opaque j; j_func := j_func j |}.

(** ** The invariant *)

Definition nodes_of (h : JsHeap) (a : Z) : list Node :=
  read_list (heap_fuel h) h (prop_head (obj_at h a)).

Record heap_ok (h : JsHeap) : Prop := {
  hk_layout : layout_ok h;
  hk_atoms : atoms_ok h;
  hk_list : forall a o, cells h !! a = Some (CObject o) -> list_ok h o (nodes_of h a);
  hk_array : forall a o, cells h !! a = Some (CObject o) -> array_ok h o;
  hk_tag : forall a o, cells h !! a = Some (CObject o) ->
    tag o = if class_id o =? CLASS_ARRAY then HEAP_TAG_ARRAY else HEAP_TAG_OBJECT;
  hk_nodes : forall a b oa ob, cells h !! a = Some (CObject oa) -> cells h !! b = Some (CObject ob) ->
    a <> b -> (nodes_of h a).*1 ## (nodes_of h b).*1;
  hk_elems : forall a b oa ob, cells h !! a = Some (CObject oa) -> cells h !! b = Some (CObject ob) ->
    a <> b -> elements oa = elements ob -> elements oa = 0
}.

(** The overflow maps are in step, and there are none for other addresses. *)
Definition maps_ok (h : JsHeap) : Prop :=
  forall a, match cells h !! a with Some (CObject _) => in_sync h a | _ => prop_maps h !! a = None end.

(** The nodes an object's list consists of are the ones read. *)
Lemma nodes_of_list (h : JsHeap) (a : Z) (o : HeapObject) (ns : list Node) :
  cells h !! a = Some (CObject o) -> list_ok h o ns -> nodes_of h a = ns.
Proof.
  intros Ha Hl. unfold nodes_of. rewrite (obj_at_cell _ _ _ Ha), (li_head _ _ _ Hl).
  apply read_list_nodes; [apply Hl|]. eapply nodes_fit; apply Hl.
Qed.

Lemma obj_props_of_nodes (h : JsHeap) (a : Z) : obj_props h a = (nodes_of h a).*2.
Proof. done. Qed.

(** ** An object none of whose blocks changed *)

Record untouched (h h' : JsHeap) (a : Z) (o : HeapObject) : Prop := {
  un_obj : cells h' !! a = Some (CObject o);
  un_nodes : forall b, b ∈ (nodes_of h a).*1 -> cells h' !! b = cells h !! b;
  un_elems : elements o <> 0 -> cells h' !! elements o = cells h !! elements o;
  un_offset : offset (mem h) <= offset (mem h')
}.

Section Untouched.
Context (h h' : JsHeap) (a : Z) (o : HeapObject).
Context (Hlo : layout_ok h) (Hlo' : layout_ok h').
Context (Ha : cells h !! a = Some (CObject o)) (Hl : list_ok h o (nodes_of h a)) (Har : array_ok h o).
Context (Hu : untouched h h' a o).

Lemma untouched_list : list_ok h' o (nodes_of h a).
Proof.
  destruct Hl. split; try done.
  - apply (pseg_frame (cells h)); [apply (un_nodes _ _ _ _ Hu)|assumption].
  - pose proof (un_offset _ _ _ _ Hu). lia.
Qed.

Lemma untouched_nodes : nodes_of h' a = nodes_of h a.
Proof. exact (nodes_of_list h' a o _ (un_obj _ _ _ _ Hu) untouched_list). Qed.

Lemma cells_null (g : JsHeap) : layout_ok g -> cells g !! 0 = None.
Proof.
  intros Hg. destruct (cells g !! 0) as [c|] eqn:E; [|done]. pose proof (cell_nonnull _ _ _ Hg E). lia.
Qed.

Lemma untouched_elems_cell : cells h' !! elements o = cells h !! elements o.
Proof.
  destruct (decide (elements o = 0)) as [E | E]; [|by apply (un_elems _ _ _ _ Hu)]. rewrite E. by rewrite !cells_null.
Qed.

Lemma untouched_array : array_ok h' o.
Proof. destruct Har as [? Hb]. split; [done|]. by rewrite untouched_elems_cell. Qed.

Lemma untouched_view : obj_view h' a = obj_view h a.
Proof.
  unfold obj_view. rewrite (un_obj _ _ _ _ Hu), Ha. f_equal. unfold view_of.
  rewrite !obj_props_of_nodes, untouched_nodes. f_equal.
  unfold elems_of, elems_at. by rewrite untouched_elems_cell.
Qed.

Lemma untouched_sync : prop_maps h' !! a = prop_maps h !! a -> in_sync h a -> in_sync h' a.
Proof.
  intros Hpm. unfold in_sync. rewrite Hpm, !obj_props_of_nodes, untouched_nodes.
  by rewrite (obj_at_cell h' a o (un_obj _ _ _ _ Hu)), (obj_at_cell h a o Ha).
Qed.

End Untouched.

(** ** Preserving the invariant

    Every step below leaves all objects but [a] untouched, and makes no object but [a]. *)

Record local_step (h h' : JsHeap) (a : Z) : Prop := {
  ls_layout : layout_ok h';
  ls_atoms : atoms_ok h';
  ls_names : names_kept h h';
  ls_others : forall b o, b <> a -> cells h !! b = Some (CObject o) -> untouched h h' b o;
  ls_back : forall b o, b <> a -> cells h' !! b = Some (CObject o) -> cells h !! b = Some (CObject o)
}.

(** What is left to show of the object that changed. *)
Record local_obj (h h' : JsHeap) (a : Z) (o' : HeapObject) : Prop := {
  lc_list : list_ok h' o' (nodes_of h' a);
  lc_array : array_ok h' o';
  lc_tag : tag o' = if class_id o' =? CLASS_ARRAY then HEAP_TAG_ARRAY else HEAP_TAG_OBJECT;
  lc_nodes : forall b o, b <> a -> cells h !! b = Some (CObject o) -> (nodes_of h' a).*1 ## (nodes_of h b).*1;
  lc_elems : forall b o, b <> a -> cells h !! b = Some (CObject o) -> elements o' = elements o -> elements o = 0
}.

Lemma local_step_nodes (h h' : JsHeap) (a b : Z) (o : HeapObject) :
  heap_ok h -> local_step h h' a -> b <> a -> cells h !! b = Some (CObject o) -> nodes_of h' b = nodes_of h b.
Proof.
  intros Hok Hst Hne Hb.
  exact (untouched_nodes h h' b o (hk_list _ Hok b o Hb) (ls_others _ _ _ Hst b o Hne Hb)).
Qed.

Lemma local_step_ok (h h' : JsHeap) (a : Z) :
  heap_ok h -> local_step h h' a ->
  (forall o', cells h' !! a = Some (CObject o') -> local_obj h h' a o') ->
  heap_ok h'.
Proof.
  intros Hok Hst Hobj. pose proof (hk_layout _ Hok) as Hlo. pose proof (ls_layout _ _ _ Hst) as Hlo'.
  split; try apply Hst.
  - intros b o Hb. destruct (decide (b = a)) as [-> | Hne]; [by apply Hobj|].
    pose proof (ls_back _ _ _ Hst b o Hne Hb) as Hb0. rewrite (local_step_nodes h h' a b o) by done.
    exact (untouched_list h h' b o (hk_list _ Hok b o Hb0) (ls_others _ _ _ Hst b o Hne Hb0)).
  - intros b o Hb. destruct (decide (b = a)) as [-> | Hne]; [by apply Hobj|].
    pose proof (ls_back _ _ _ Hst b o Hne Hb) as Hb0.
    exact (untouched_array h h' b o Hlo Hlo' (hk_array _ Hok b o Hb0) (ls_others _ _ _ Hst b o Hne Hb0)).
  - intros b o Hb. destruct (decide (b = a)) as [-> | Hne]; [by apply Hobj|].
    by apply (hk_tag _ Hok b), (ls_back _ _ _ Hst b o Hne).
  - intros b c ob oc Hb Hc Hbc.
    destruct (decide (b = a)) as [-> | Hnb]; [|destruct (decide (c = a)) as [-> | Hnc]].
    + pose proof (ls_back _ _ _ Hst c oc (not_eq_sym Hbc) Hc) as Hc0.
      rewrite (local_step_nodes h h' a c oc) by done. by eapply lc_nodes; [apply Hobj| |].
    + pose proof (ls_back _ _ _ Hst b ob Hnb Hb) as Hb0. rewrite (local_step_nodes h h' a b ob) by done.
      intros x Hx1 Hx2. exact (lc_nodes _ _ _ _ (Hobj oc Hc) b ob Hnb Hb0 x Hx2 Hx1).
    + pose proof (ls_back _ _ _ Hst b ob Hnb Hb) as Hb0. pose proof (ls_back _ _ _ Hst c oc Hnc Hc) as Hc0.
      rewrite (local_step_nodes h h' a b ob), (local_step_nodes h h' a c oc) by done. by eapply hk_nodes.
  - intros b c ob oc Hb Hc Hbc He.
    destruct (decide (b = a)) as [-> | Hnb]; [|destruct (decide (c = a)) as [-> | Hnc]].
    + pose proof (ls_back _ _ _ Hst c oc (not_eq_sym Hbc) Hc) as Hc0. rewrite He.
      by eapply lc_elems; [apply Hobj| | |].
    + pose proof (ls_back _ _ _ Hst b ob Hnb Hb) as Hb0.
      by eapply lc_elems; [apply Hobj| | |].
    + pose proof (ls_back _ _ _ Hst b ob Hnb Hb) as Hb0. pose proof (ls_back _ _ _ Hst c oc Hnc Hc) as Hc0.
      by eapply (hk_elems _ Hok b c).
Qed.

Lemma local_step_view (h h' : JsHeap) (a b : Z) :
  heap_ok h -> local_step h h' a -> b <> a -> obj_view h' b = obj_view h b.
Proof.
  intros Hok Hst Hne. pose proof (hk_layout _ Hok). pose proof (ls_layout _ _ _ Hst).
  destruct (cells h !! b) as [[| |o| |]|] eqn:Hb.
  3:{ apply (untouched_view h h' b o); auto using hk_list; by apply (ls_others _ _ _ Hst). }
  all: unfold obj_view; rewrite Hb; destruct (cells h' !! b) as [[| |o'| |]|] eqn:Hb'; try done;
    by rewrite (ls_back _ _ _ Hst b o' Hne Hb') in Hb.
Qed.

Lemma local_step_maps (h h' : JsHeap) (a : Z) :
  heap_ok h -> maps_ok h -> local_step h h' a ->
  (forall b, b <> a -> prop_maps h' !! b = prop_maps h !! b) ->
  match cells h' !! a with Some (CObject _) => in_sync h' a | _ => prop_maps h' !! a = None end ->
  maps_ok h'.
Proof.
  intros Hok Hm Hst Hpm Ha b. destruct (decide (b = a)) as [-> | Hne]; [done|].
  pose proof (hk_layout _ Hok). pose proof (ls_layout _ _ _ Hst). specialize (Hm b).
  destruct (cells h !! b) as [[| |o| |]|] eqn:Hb.
  3:{ pose proof (ls_others _ _ _ Hst b o Hne Hb) as Hu. rewrite (un_obj _ _ _ _ Hu).
      apply (untouched_sync h h' b o); auto using hk_list. }
  all: rewrite Hpm by done; destruct (cells h' !! b) as [[| |o'| |]|] eqn:Hb'; try done;
    by rewrite (ls_back _ _ _ Hst b o' Hne Hb') in Hb.
Qed.

(** ** The primitive steps *)

(** The outcome of a step on the object at [a], which becomes [j]. *)
Record heap_step_ok (h h' : JsHeap) (a : Z) (j : JObject) : Prop := {
  hs_ok : heap_ok h';
  hs_maps : maps_ok h -> maps_ok h';
  hs_view : obj_view h' a = Some j;
  hs_others : forall b, b <> a -> obj_view h' b = obj_view h b;
  hs_names : names_kept h h'
}.

Lemma heap_step_intro (h h' : JsHeap) (a : Z) (o' : HeapObject) :
  heap_ok h -> local_step h h' a -> cells h' !! a = Some (CObject o') -> local_obj h h' a o' ->
  (forall b, b <> a -> prop_maps h' !! b = prop_maps h !! b) -> (maps_ok h -> in_sync h' a) ->
  heap_step_ok h h' a (view_of h' a o').
Proof.
  intros Hok Hst Ha Hobj Hpm Hsync. split.
  - apply (local_step_ok h h' a); [done..|]. intros o2 Ho2. by assert (o2 = o') as -> by congruence.
  - intros Hm. apply (local_step_maps h h' a); try done. rewrite Ha. by apply Hsync.
  - unfold obj_view. by rewrite Ha.
  - intros b Hb. by apply (local_step_view h h' a).
  - apply Hst.
Qed.

(** A node of a list is a property block, so it is no object and no element block. *)
Lemma node_is_prop (h : JsHeap) (a b : Z) (o : HeapObject) :
  heap_ok h -> cells h !! a = Some (CObject o) -> b ∈ (nodes_of h a).*1 ->
  exists p, cells h !! b = Some (CProperty p).
Proof. intros Hok Ha Hb. by apply (pseg_lookup _ _ _ _ (li_seg _ _ _ (hk_list _ Hok a o Ha)) Hb). Qed.

Lemma elems_is_block (h : JsHeap) (a : Z) (o : HeapObject) :
  heap_ok h -> cells h !! a = Some (CObject o) -> elements o <> 0 ->
  exists vs, cells h !! elements o = Some (CElements vs).
Proof. intros Hok Ha Hz. destruct (ao_block _ _ (hk_array _ Hok a o Ha)) as [[? _] | (vs & ? & _)]; eauto. done. Qed.

Section TableStep.
Context (h h' : JsHeap) (a : Z) (o : HeapObject) (ns' : list Node).
Context (Hok : heap_ok h) (Ha : cells h !! a = Some (CObject o)).
Context (Hst : table_step h h' a o (nodes_of h a) ns').

Lemma table_local : local_step h h' a.
Proof.
  pose proof (ts_frame _ _ _ _ _ _ Hst) as Hfr.
  assert (Hat : atoms h' = atoms h) by (by destruct (ts_rest _ _ _ _ _ _ Hst) as (? & ? & ? & -> & _)).
  assert (Hstr : forall b n bs, cells h !! b = Some (CString n bs) -> cells h' !! b = Some (CString n bs)).
  { intros b n bs Hb. apply Hfr; [done|congruence|]. intros Hin.
    destruct (node_is_prop h a b o Hok Ha Hin). congruence. }
  split; [apply Hst| |by apply names_kept_mono| |].
  - apply (atoms_ok_mono h); [done| |done|apply Hok].
    destruct (ts_rest _ _ _ _ _ _ Hst) as (? & ? & ? & -> & ?). done.
  - intros b ob Hne Hb. assert (Hnode : b ∉ (nodes_of h a).*1).
    { intros Hin. destruct (node_is_prop h a b o Hok Ha Hin). congruence. }
    split.
    + by apply Hfr.
    + intros c Hc. destruct (node_is_prop h b c ob Hok Hb Hc) as [p Hp]. rewrite Hp. apply Hfr; [done|congruence|].
      intros Hin. exact (hk_nodes _ Hok a b o ob Ha Hb (not_eq_sym Hne) c Hin Hc).
    + intros Hz. destruct (elems_is_block h b ob Hok Hb Hz) as [vs Hvs]. rewrite Hvs. apply Hfr; [done|congruence|].
      intros Hin. destruct (node_is_prop h a _ o Hok Ha Hin). congruence.
    + destruct (ts_rest _ _ _ _ _ _ Hst) as (? & ? & ? & -> & ?). done.
  - intros b ob Hne Hb. destruct (decide (b ∈ (nodes_of h a).*1)) as [Hin | Hnin].
    + destruct (ts_kind _ _ _ _ _ _ Hst b) as [E | [p E]]; [by left|congruence..].
    + destruct (cells h !! b) as [c|] eqn:E.
      * rewrite (Hfr b c) in Hb; congruence.
      * destruct (ts_kind _ _ _ _ _ _ Hst b) as [E' | [p E']]; [by right|congruence..].
Qed.

Lemma table_step_ok : in_sync h' a ->
  heap_step_ok h h' a (with_jprops ns'.*2 (view_of h a o)).
Proof.
  intros Hsync. pose proof (ts_obj _ _ _ _ _ _ Hst) as Ha'. pose proof (ts_list _ _ _ _ _ _ Hst) as Hl'.
  assert (Hns : nodes_of h' a = ns') by (by eapply nodes_of_list).
  assert (Hblk : cells h' !! elements o = cells h !! elements o).
  { destruct (decide (elements o = 0)) as [E | E].
    - rewrite E. rewrite !cells_null; [done|apply Hok|apply Hst].
    - destruct (elems_is_block h a o Hok Ha E) as [vs Hvs]. rewrite Hvs. apply (ts_frame _ _ _ _ _ _ Hst); [done|congruence|].
      intros Hin. destruct (node_is_prop h a _ o Hok Ha Hin). congruence. }
  replace (with_jprops ns'.*2 (view_of h a o)) with (view_of h' a (relist ns' o)).
  2:{ unfold view_of, with_jprops. simpl. rewrite !obj_props_of_nodes, Hns. f_equal.
      unfold elems_of, elems_at. simpl. by rewrite Hblk. }
  apply heap_step_intro; try done; [apply table_local| |apply Hst].
  pose proof (hk_array _ Hok a o Ha) as Har. split; simpl.
  - by rewrite Hns.
  - destruct Har as [? Hb]. split; simpl; [done|]. by rewrite Hblk.
  - by apply (hk_tag _ Hok a).
  - rewrite Hns. intros b ob Hne Hb c Hc Hcb. destruct (ts_nodes _ _ _ _ _ _ Hst c Hc) as [Hin | Hn].
    + exact (hk_nodes _ Hok a b o ob Ha Hb (not_eq_sym Hne) c Hin Hcb).
    + destruct (node_is_prop h b c ob Hok Hb Hcb). congruence.
  - intros b ob Hne Hb He. rewrite <- He. by apply (hk_elems _ Hok a b o ob Ha Hb).
Qed.
End TableStep.

Section ArrayStep.
Context (h h' : JsHeap) (a : Z) (o o' : HeapObject).
Context (Hok : heap_ok h) (Ha : cells h !! a = Some (CObject o)).
Context (Hst : array_step h h' a o o').

Lemma array_local : local_step h h' a.
Proof.
  pose proof (as_frame _ _ _ _ _ Hst) as Hfr.
  assert (Hel : forall b c, cells h !! b = Some c -> (forall vs, c <> CElements vs) -> b <> elements o).
  { intros b c Hb Hc ->. destruct (decide (elements o = 0)) as [E | E].
    - rewrite E in Hb. rewrite cells_null in Hb; [done|apply Hok].
    - destruct (elems_is_block h a o Hok Ha E) as [vs Hvs]. apply (Hc vs). congruence. }
  assert (Hat : atoms h' = atoms h) by (by destruct (as_rest _ _ _ _ _ Hst) as (? & ? & -> & _)).
  assert (Hstr : forall b n bs, cells h !! b = Some (CString n bs) -> cells h' !! b = Some (CString n bs)).
  { intros b n bs Hb. apply Hfr; [done|congruence|by eapply Hel]. }
  split; [apply Hst| |by apply names_kept_mono| |].
  - apply (atoms_ok_mono h); [done| |done|apply Hok].
    destruct (as_rest _ _ _ _ _ Hst) as (? & ? & -> & ?). done.
  - intros b ob Hne Hb. split.
    + apply Hfr; [done|done|by eapply Hel].
    + intros c Hc. destruct (node_is_prop h b c ob Hok Hb Hc) as [p Hp]. rewrite Hp.
      apply Hfr; [done|congruence|by eapply Hel].
    + intros Hz. destruct (elems_is_block h b ob Hok Hb Hz) as [vs Hvs]. rewrite Hvs. apply Hfr; [done|congruence|].
      intros E. apply Hz. by apply (hk_elems _ Hok b a ob o).
    + destruct (as_rest _ _ _ _ _ Hst) as (? & ? & -> & ?). done.
  - intros b ob Hne Hb. destruct (cells h !! b) as [c|] eqn:E.
    + destruct (decide (b = elements o)) as [Eb | Hnb].
      * destruct (as_kind _ _ _ _ _ Hst b) as [E' | [vs E']]; [by left|congruence..].
      * rewrite (Hfr b c) in Hb; congruence.
    + destruct (as_kind _ _ _ _ _ Hst b) as [E' | [vs E']]; [by right|congruence..].
Qed.

Lemma array_step_ok : heap_step_ok h h' a (with_jelems (elems_of h' o') (view_of h a o)).
Proof.
  pose proof (as_obj _ _ _ _ _ Hst) as Ha'. pose proof (hk_list _ Hok a o Ha) as Hl.
  pose proof (hk_layout _ Hok) as Hlo. pose proof (as_same _ _ _ _ _ Hst) as Hsame.
  assert (Hnd : forall b, b ∈ (nodes_of h a).*1 -> cells h' !! b = cells h !! b).
  { intros b Hb. destruct (node_is_prop h a b o Hok Ha Hb) as [p Hp]. rewrite Hp.
    apply (as_frame _ _ _ _ _ Hst); [done|congruence|]. intros ->.
    destruct (decide (elements o = 0)) as [E | E].
    - rewrite E in Hp. by rewrite cells_null in Hp.
    - destruct (elems_is_block h a o Hok Ha E). congruence. }
  assert (Hl' : list_ok h' o' (nodes_of h a)).
  { destruct Hl. rewrite Hsame. split; simpl; try done.
    - by apply (pseg_frame (cells h)).
    - destruct (as_rest _ _ _ _ _ Hst) as (? & ? & -> & ?). simpl. lia. }
  assert (Hns : nodes_of h' a = nodes_of h a) by (by eapply nodes_of_list).
  replace (with_jelems (elems_of h' o') (view_of h a o)) with (view_of h' a o').
  2:{ unfold view_of, with_jelems. simpl. rewrite !obj_props_of_nodes, Hns. rewrite Hsame. done. }
  assert (Hmaps : prop_maps h' = prop_maps h) by (by destruct (as_rest _ _ _ _ _ Hst) as (? & ? & -> & _)).
  apply heap_step_intro; try done; [apply array_local| |by rewrite Hmaps|].
  - split.
    + by rewrite Hns.
    + apply Hst.
    + rewrite Hsame. exact (hk_tag _ Hok a o Ha).
    + rewrite Hns. intros b ob Hne Hb. by apply (hk_nodes _ Hok a b o ob Ha Hb).
    + intros b ob Hne Hb He. destruct (decide (elements ob = 0)) as [|Hz]; [done|].
      destruct (elems_is_block h b ob Hok Hb Hz) as [vs Hvs].
      destruct (as_block _ _ _ _ _ Hst) as [Eb | Eb].
      * rewrite <- He, Eb. apply (hk_elems _ Hok a b o ob Ha Hb); [done|congruence].
      * rewrite <- He in Hvs. congruence.
  - intros Hm. specialize (Hm a). rewrite Ha in Hm. unfold in_sync in *.
    rewrite Hmaps, (obj_at_cell _ _ _ Ha'), !obj_props_of_nodes, Hns.
    rewrite (obj_at_cell _ _ _ Ha) in Hm. rewrite Hsame. done.
Qed.
End ArrayStep.

(** *** Steps that touch no object *)

Record heap_same_ok (h h' : JsHeap) : Prop := {
  sa_ok : heap_ok h';
  sa_maps : maps_ok h -> maps_ok h';
  sa_view : forall b, obj_view h' b = obj_view h b;
  sa_names : names_kept h h'
}.

Lemma heap_same_refl (h : JsHeap) : heap_ok h -> heap_same_ok h h.
Proof. intros Hok. by split; [| | |intros id bs]. Qed.

Lemma quiet_local (h h' : JsHeap) (a : Z) :
  heap_ok h -> layout_ok h' -> atoms_ok h' -> names_kept h h' -> offset (mem h) <= offset (mem h') ->
  (forall b c, cells h !! b = Some c -> cells h' !! b = Some c) ->
  (forall b o, b <> a -> cells h !! b = None -> cells h' !! b <> Some (CObject o)) ->
  local_step h h' a.
Proof.
  intros Hok Hlo Hat Hnm Hof Hfr Hnew. split; try done.
  - intros b o Hne Hb. split; [by apply Hfr| | |done].
    + intros c Hc. destruct (node_is_prop h b c o Hok Hb Hc) as [p Hp]. rewrite Hp. by apply Hfr.
    + intros Hz. destruct (elems_is_block h b o Hok Hb Hz) as [vs Hvs]. rewrite Hvs. by apply Hfr.
  - intros b o Hne Hb. destruct (cells h !! b) as [c|] eqn:E; [|by destruct (Hnew b o Hne E)].
    rewrite (Hfr b c E) in Hb. done.
Qed.

(** A step that makes no object. *)
Lemma quiet_step_ok (h h' : JsHeap) :
  heap_ok h -> layout_ok h' -> atoms_ok h' -> names_kept h h' -> offset (mem h) <= offset (mem h') ->
  (forall b c, cells h !! b = Some c -> cells h' !! b = Some c) ->
  (forall b o, cells h !! b = None -> cells h' !! b <> Some (CObject o)) ->
  prop_maps h' = prop_maps h -> heap_same_ok h h'.
Proof.
  intros Hok Hlo Hat Hnm Hof Hfr Hnew Hpm.
  assert (Hst : local_step h h' 0) by (apply quiet_local; auto).
  assert (H0 : cells h' !! 0 = None) by (by apply cells_null).
  split.
  - apply (local_step_ok h h' 0); [done..|]. intros o' E. congruence.
  - intros Hm. apply (local_step_maps h h' 0); try done; [by rewrite Hpm|]. rewrite H0, Hpm.
    specialize (Hm 0). by rewrite cells_null in Hm by apply Hok.
  - intros b. destruct (decide (b = 0)) as [-> | Hne]; [|by apply (local_step_view h h' 0)].
    unfold obj_view. by rewrite H0, cells_null by apply Hok.
  - done.
Qed.

Lemma str_step_ok (h h' : JsHeap) : heap_ok h -> str_step h h' -> heap_same_ok h h'.
Proof.
  intros Hok Hst. destruct (ss_rest _ _ Hst) as (off & gcs & cs & t & Hh' & Hof).
  apply quiet_step_ok; try apply Hst; try done; try (by rewrite Hh').
  intros b o Hb E. destruct (ss_new _ _ Hst b Hb) as [E' | (n & d & E')]; congruence.
Qed.

Lemma alloc_step_atoms (h h' : JsHeap) (raw : Z) (c : Cell) :
  heap_ok h -> alloc_step h h' raw c -> 0 < cell_size c -> atoms_ok h'.
Proof.
  intros Hok Hst Hc. apply (atoms_ok_mono h); [| | |apply Hok].
  - rewrite (al_rest _ _ _ _ Hst). done.
  - pose proof (al_mem _ _ _ _ Hst). lia.
  - intros a n bs. by apply (alloc_step_mono _ _ _ _ _ _ Hst).
Qed.

Lemma alloc_step_names (h h' : JsHeap) (raw : Z) (c : Cell) : alloc_step h h' raw c -> names_kept h h'.
Proof.
  intros Hst. apply names_kept_mono; [rewrite (al_rest _ _ _ _ Hst); done|].
  intros a n bs. by apply (alloc_step_mono _ _ _ _ _ _ Hst).
Qed.

Lemma alloc_step_maps (h h' : JsHeap) (raw : Z) (c : Cell) : alloc_step h h' raw c -> prop_maps h' = prop_maps h.
Proof. intros Hst. rewrite (al_rest _ _ _ _ Hst). done. Qed.

Lemma alloc_step_quiet (h h' : JsHeap) (raw : Z) (c : Cell) :
  heap_ok h -> alloc_step h h' raw c -> 0 < cell_size c -> (forall o, c <> CObject o) -> heap_same_ok h h'.
Proof.
  intros Hok Hst Hc Hno. apply quiet_step_ok; try done.
  - apply Hst.
  - by eapply alloc_step_atoms.
  - by eapply alloc_step_names.
  - pose proof (al_mem _ _ _ _ Hst). lia.
  - intros b d. by apply (alloc_step_mono _ _ _ _ _ _ Hst).
  - intros b o Hb. rewrite (al_cells _ _ _ _ Hst). destruct (decide (b = raw)) as [-> | Hne].
    + rewrite lookup_insert_eq. intros [= E]. by apply (Hno o).
    + rewrite lookup_insert_ne by done. congruence.
  - by eapply alloc_step_maps.
Qed.

(** A new object: no properties, no elements. *)
Definition new_jobject (cls : Z) : JObject :=
  {| j_class := cls; j_array := cls =? CLASS_ARRAY; j_proto := NULL W; j_props := []; j_elems := [];
     j_opaque := 0; j_func := (0, UNDEFINED W) |}.

Lemma alloc_object_ok (h h' : JsHeap) (raw cls : Z) :
  heap_ok h -> alloc_step h h' raw (CObject (new_heap_object cls)) ->
  heap_step_ok h h' raw (new_jobject cls) /\ obj_view h raw = None.
Proof.
  intros Hok Hst. pose proof (alloc_step_new _ _ _ _ Hst) as Ha.
  assert (Hlo' : layout_ok h') by apply Hst.
  assert (Hpm : prop_maps h' = prop_maps h) by (by eapply alloc_step_maps).
  assert (Hl : list_ok h' (new_heap_object cls) []).
  { split; try done; try constructor. pose proof (lo_offset _ Hlo'). simpl. lia. }
  assert (Hns : nodes_of h' raw = []) by (by eapply nodes_of_list).
  split; [|unfold obj_view; by rewrite (al_fresh _ _ _ _ Hst)].
  replace (new_jobject cls) with (view_of h' raw (new_heap_object cls)).
  2:{ unfold view_of, new_jobject. rewrite obj_props_of_nodes, Hns. simpl. f_equal.
      by destruct (cls =? CLASS_ARRAY). }
  apply heap_step_intro; try done.
  - apply quiet_local; try done.
    + by eapply alloc_step_atoms.
    + by eapply alloc_step_names.
    + pose proof (al_mem _ _ _ _ Hst). simpl in *. unfold SIZE_OBJECT in *. lia.
    + intros b d. by apply (alloc_step_mono _ _ _ _ _ _ Hst).
    + intros b o Hne Hb. rewrite (al_cells _ _ _ _ Hst), lookup_insert_ne by done. congruence.
  - split.
    + by rewrite Hns.
    + split; simpl; [lia|]. by left.
    + done.
    + rewrite Hns. intros b o _ _ c []%elem_of_nil.
    + intros b o _ _. by simpl.
  - by rewrite Hpm.
  - intros Hm. apply in_sync_none. rewrite Hpm. specialize (Hm raw). by rewrite (al_fresh _ _ _ _ Hst) in Hm.
Qed.

(** *** Updates of the other fields *)

Definition same_fields (o o' : HeapObject) : Prop :=
  tag o' = tag o /\ class_id o' = class_id o /\ prop_head o' = prop_head o /\ prop_tail o' = prop_tail o /\
  prop_count o' = prop_count o /\ array_len o' = array_len o /\ array_cap o' = array_cap o /\
  elements o' = elements o.

Lemma update_ok (h : JsHeap) (a : Z) (f : HeapObject -> HeapObject) (o : HeapObject) :
  heap_ok h -> cells h !! a = Some (CObject o) -> same_fields o (f o) ->
  heap_step_ok h (upd_obj f a h) a
    {| j_class := class_id o; j_array := tag o =? HEAP_TAG_ARRAY; j_proto := proto (f o);
       j_props := obj_props h a; j_elems := elems_of h o; j_opaque := opaque (f o);
       j_func := (func_idx (f o), func_params (f o)) |}.
Proof.
  intros Hok Ha (Ht & Hc & Hhd & Htl & Hct & Hln & Hcp & Hel).
  rewrite (upd_obj_eq f a o h Ha). set (h' := write_cell a (CObject (f o)) h).
  pose proof (hk_layout _ Hok) as Hlo.
  assert (Ha' : cells h' !! a = Some (CObject (f o))) by (unfold h'; simpl; by rewrite lookup_insert_eq).
  assert (Hfr : forall b, b <> a -> cells h' !! b = cells h !! b) by (intros b Hb; by apply lookup_insert_ne).
  assert (Hlo' : layout_ok h') by (by apply (write_layout a (CObject o))).
  assert (Hnode : forall b ob c, cells h !! b = Some (CObject ob) -> c ∈ (nodes_of h b).*1 -> cells h' !! c = cells h !! c).
  { intros b ob c Hb Hin. apply Hfr. intros ->. destruct (node_is_prop h b a ob Hok Hb Hin). congruence. }
  assert (Hblk : forall b ob, cells h !! b = Some (CObject ob) -> cells h' !! elements ob = cells h !! elements ob).
  { intros b ob Hb. apply Hfr. intros E. destruct (decide (elements ob = 0)) as [Ez | Ez].
    - rewrite <- E, Ez in Ha. by rewrite cells_null in Ha.
    - destruct (elems_is_block h b ob Hok Hb Ez). congruence. }
  assert (Hl' : list_ok h' (f o) (nodes_of h a)).
  { destruct (hk_list _ Hok a o Ha). split; try congruence; try done.
    apply (pseg_frame (cells h)); [intros c; by apply (Hnode a o)|done]. }
  assert (Hns : nodes_of h' a = nodes_of h a) by (by eapply nodes_of_list).
  match goal with |- heap_step_ok _ _ _ ?j => replace j with (view_of h' a (f o)) end.
  2:{ unfold view_of. rewrite Ht, Hc, !obj_props_of_nodes, Hns. f_equal.
      unfold elems_of, elems_at. by rewrite Hel, Hln, (Hblk a o Ha). }
  apply heap_step_intro; try done.
  - assert (Hstr : forall b n bs, cells h !! b = Some (CString n bs) -> cells h' !! b = Some (CString n bs))
      by (intros b n bs Hb; rewrite Hfr; [done|congruence]).
    split; [done| |by apply names_kept_mono| |].
    + apply (atoms_ok_mono h); [done|simpl; lia|done|apply Hok].
    + intros b ob Hne Hb. split; [by rewrite Hfr|intros c; by apply (Hnode b ob)|intros _; by apply (Hblk b)|simpl; lia].
    + intros b ob Hne. by rewrite Hfr.
  - split.
    + by rewrite Hns.
    + destruct (hk_array _ Hok a o Ha) as [Hl Hb]. split; rewrite ?Hln, ?Hcp, ?Hel; [done|].
      by rewrite (Hblk a o Ha).
    + rewrite Ht, Hc. by apply (hk_tag _ Hok a).
    + rewrite Hns. intros b ob Hne Hb. by apply (hk_nodes _ Hok a b o ob Ha Hb).
    + intros b ob Hne Hb He. rewrite Hel in He. rewrite <- He. by apply (hk_elems _ Hok a b o ob Ha Hb).
  - intros Hm. specialize (Hm a). rewrite Ha in Hm. unfold in_sync in *.
    change (prop_maps h') with (prop_maps h).
    rewrite (obj_at_cell _ _ _ Ha'), (obj_at_cell _ _ _ Ha), !obj_props_of_nodes, Hns, Hct in *. done.
Qed.

(** The empty heap. *)
Lemma empty_heap_ok (st sz : Z) :
  0 < st -> st `mod` 8 = 0 -> 0 <= sz < 2 ^ 32 -> st + sz <= 2 ^ 64 ->
  heap_ok (empty_heap st sz) /\ maps_ok (empty_heap st sz).
Proof.
  intros. split.
  - split; try (simpl; intros *; by rewrite lookup_empty); [by apply empty_layout_ok|].
    split; simpl.
    + by eexists.
    + intros i e. by rewrite lookup_nil.
    + intros i j ei ej bs Hi Hj. destruct i as [|i], j as [|j]; simpl in *; try done.
    + intros i e bs _ [Hs _]. simpl in Hs. by rewrite lookup_empty in Hs.
    + intros hash id. by rewrite lookup_empty.
    + lia.
  - intros a. simpl. rewrite lookup_empty. apply lookup_empty.
Qed.
