(* ===== verification/JsObjectSpec.v ===== *)
(** * JsObjectSpec: the property operations on the heap as a whole

    Every public operation of [JsObject] and [JsArray] keeps [heap_ok], and does to the view
    of its object what the JavaScript operation means, leaving every other object alone.
    [reach] is the heaps a program makes from an empty region by these operations. *)
From S2P Require Import Prelude JsValue JsMem JsProps JsTable JsArray JsAtom JsObject JsInv.

(** ** Pointers to objects *)

Lemma object_ptr_obj (h : JsHeap) (val : Value) (a : Z) :
  object_ptr h val = Some a -> exists o, cells h !! a = Some (CObject o).
Proof.
  unfold object_ptr. destruct (is_ptr W val); [|done]. simpl. destruct (_ =? 0); [done|].
  unfold tag_at. destruct (cells h !! as_ptr W val) as [[| |o| |]|] eqn:E; try done.
  destruct (_ || _); [|done]. intros [= <-]. eauto.
Qed.

(** A step that keeps every object's tag keeps the pointers to objects. *)
Lemma object_ptr_view (h h' : JsHeap) (val : Value) :
  heap_ok h -> heap_ok h' ->
  (forall b, obj_view h b <> None <-> obj_view h' b <> None) -> object_ptr h' val = object_ptr h val.
Proof.
  intros Hok Hok' Hv. unfold object_ptr. destruct (is_ptr W val); [|done]. simpl.
  destruct (as_ptr W val =? 0); [done|]. specialize (Hv (as_ptr W val)). unfold obj_view in Hv. unfold tag_at.
  assert (Htag : forall g a o, heap_ok g -> cells g !! a = Some (CObject o) ->
    (tag o =? HEAP_TAG_OBJECT) || (tag o =? HEAP_TAG_ARRAY) = true).
  { intros g a o Hg Ha. rewrite (hk_tag _ Hg a o Ha). by destruct (class_id o =? CLASS_ARRAY). }
  destruct (cells h !! as_ptr W val) as [[| |o| |]|] eqn:E, (cells h' !! as_ptr W val) as [[| |o'| |]|] eqn:E';
    rewrite ?(Htag h _ o Hok E), ?(Htag h' _ o' Hok' E'); try done; naive_solver.
Qed.

Lemma heap_step_ptr (h h' : JsHeap) (a : Z) (j : JObject) (val : Value) :
  heap_ok h -> obj_view h a <> None -> heap_step_ok h h' a j -> object_ptr h' val = object_ptr h val.
Proof.
  intros Hok Ha Hst. apply object_ptr_view; [done|apply Hst|]. intros b.
  destruct (decide (b = a)) as [-> | Hne]; [by rewrite (hs_view _ _ _ _ Hst)|by rewrite (hs_others _ _ _ _ Hst)].
Qed.

Lemma heap_same_ptr (h h' : JsHeap) (val : Value) :
  heap_ok h -> heap_same_ok h h' -> object_ptr h' val = object_ptr h val.
Proof.
  intros Hok Hst. apply object_ptr_view; [done|apply Hst|]. intros b. by rewrite (sa_view _ _ Hst).
Qed.

Lemma obj_view_obj (h : JsHeap) (a : Z) (o : HeapObject) :
  cells h !! a = Some (CObject o) -> obj_view h a = Some (view_of h a o).
Proof. unfold obj_view. by intros ->. Qed.

Lemma obj_view_inv (h : JsHeap) (a : Z) (j : JObject) :
  obj_view h a = Some j -> exists o, cells h !! a = Some (CObject o) /\ j = view_of h a o.
Proof. unfold obj_view. destruct (cells h !! a) as [[| |o| |]|] eqn:E; naive_solver. Qed.

Lemma maps_sync (h : JsHeap) (a : Z) (o : HeapObject) :
  maps_ok h -> cells h !! a = Some (CObject o) -> in_sync h a.
Proof. intros Hm Ha. specialize (Hm a). by rewrite Ha in Hm. Qed.

(** Two steps, the first touching no object. *)
Lemma same_then_step (h h1 h' : JsHeap) (a : Z) (j : JObject) :
  heap_same_ok h h1 -> heap_step_ok h1 h' a j -> heap_step_ok h h' a j.
Proof.
  intros S1 S2. split; try apply S2.
  - intros Hm. by apply (hs_maps _ _ _ _ S2), (sa_maps _ _ S1).
  - intros b Hb. rewrite (hs_others _ _ _ _ S2) by done. apply S1.
  - eapply names_kept_trans; [apply S1|apply S2].
Qed.

(** ** The table operations *)

Section Table.
Context (h : JsHeap) (a : Z) (j : JObject) (kind k : Z).
Context (Hok : heap_ok h) (Hm : maps_ok h) (Hj : obj_view h a = Some j) (Hk : key_ok (kind, k)).

Lemma find_prop_value_view : find_prop_value h a kind k = table_get (j_props j) (kind, k).
Proof.
  destruct (obj_view_inv _ _ _ Hj) as (o & Ha & ->).
  exact (find_prop_value_table h a kind k o _ Ha (hk_list _ Hok a o Ha) (maps_sync _ _ _ Hm Ha) Hk).
Qed.

Lemma set_prop_value_view (v : Value) :
  match set_prop_value a kind k v h with
  | (true, h') => heap_step_ok h h' a (with_jprops (table_set (j_props j) (kind, k) v) j)
  | (false, h') => mem_alloc SIZE_PROPERTY W h = None /\ table_get (j_props j) (kind, k) = None /\
      (overflow_map h a = None -> heap_same_ok h h')
  end.
Proof.
  destruct (obj_view_inv _ _ _ Hj) as (o & Ha & ->).
  pose proof (maps_sync _ _ _ Hm Ha) as Hs. pose proof (hk_list _ Hok a o Ha) as Hl.
  destruct (set_prop_value_step h a kind k v o _ (hk_layout _ Hok) Ha Hl Hs Hk) as
    [(h' & ns' & -> & Hst & Hns & Hsync) | (h' & E & Hal & Hcs & Hg)].
  - cbn [j_props view_of]. rewrite obj_props_of_nodes, <- Hns. by apply table_step_ok.
  - rewrite E. split; [done|]. split; [done|]. intros Hov.
    assert (h' = h) as ->; [|by apply heap_same_refl].
    unfold set_prop_value in E. rewrite Hov in E.
    destruct (negb _); [done|].
    destruct (append_prop a kind k v h) as [[] h1] eqn:Eap.
    + destruct (_ <? _); [destruct (prop_maps h1 !! a)|]; done.
    + injection E as <-. unfold append_prop, alloc_property in Eap. rewrite Hal in Eap. by injection Eap.
Qed.

Lemma delete_prop_value_view :
  match delete_prop_value a kind k h with
  | (true, h') => is_Some (table_get (j_props j) (kind, k)) /\
      (length (j_props j) <> 9%nat ->
       heap_step_ok h h' a (with_jprops (table_delete (j_props j) (kind, k)) j))
  | (false, h') => h' = h /\ table_get (j_props j) (kind, k) = None
  end.
Proof.
  destruct (obj_view_inv _ _ _ Hj) as (o & Ha & ->).
  pose proof (maps_sync _ _ _ Hm Ha) as Hs. pose proof (hk_list _ Hok a o Ha) as Hl.
  destruct (delete_prop_value_step h a kind k o _ (hk_layout _ Hok) Ha Hl Hs Hk) as
    [[Hg ->] | (v & h' & ns' & Hg & -> & Hst & Hns & Hsync)]; [done|].
  cbn [j_props view_of]. rewrite obj_props_of_nodes. split; [by rewrite Hg|]. intros Hlen. rewrite <- Hns.
  apply table_step_ok; try done. apply Hsync. rewrite length_fmap in Hlen. unfold PROP_MAP_THRESHOLD. lia.
Qed.

End Table.

(** ** The array operations *)

Section Array.
Context (h : JsHeap) (a : Z) (j : JObject).
Context (Hok : heap_ok h) (Hj : obj_view h a = Some j).

Lemma array_set_view (idx : Z) (v : Value) : 0 <= idx ->
  match array_set a idx v h with
  | (true, h') => heap_step_ok h h' a (with_jelems (list_set (j_elems j) (Z.to_nat idx) v) j)
  | (false, h') => h' = h
  end.
Proof.
  intros Hi. destruct (obj_view_inv _ _ _ Hj) as (o & Ha & ->).
  pose proof (array_set_step h a idx v o (hk_layout _ Hok) Ha (hk_array _ Hok a o Ha) Hi) as Hs.
  destruct (array_set a idx v h) as [[] h']; [|apply Hs].
  destruct Hs as (o' & Hst & He). simpl. rewrite <- He. by apply array_step_ok.
Qed.

Lemma array_set_length_view (v : Value) (n : Z) : int32 W v = Some n -> 0 <= n ->
  match array_set_length a v h with
  | (true, h') => heap_step_ok h h' a (with_jelems (list_resize (j_elems j) (Z.to_nat n)) j)
  | (false, h') => h' = h
  end.
Proof.
  intros Hv Hn. destruct (obj_view_inv _ _ _ Hj) as (o & Ha & ->).
  pose proof (array_set_length_step h a n v o (hk_layout _ Hok) Ha (hk_array _ Hok a o Ha) Hv Hn) as Hs.
  destruct (array_set_length a v h) as [[] h']; [|apply Hs].
  destruct Hs as (o' & Hst & He). simpl. rewrite <- He. by apply array_step_ok.
Qed.

(** A length that is no integer, or negative, is rejected. *)
Lemma array_set_length_cases (v : Value) :
  match array_set_length a v h with
  | (true, h') => exists n, int32 W v = Some n /\ 0 <= n /\
      heap_step_ok h h' a (with_jelems (list_resize (j_elems j) (Z.to_nat n)) j)
  | (false, h') => h' = h
  end.
Proof.
  destruct (int32 W v) as [n|] eqn:Hv.
  - destruct (Z.ltb_spec n 0) as [Hneg | Hpos].
    + unfold array_set_length. rewrite Hv. by destruct (Z.ltb_spec n 0); [|lia].
    + pose proof (array_set_length_view v n Hv Hpos) as Hs.
      destruct (array_set_length a v h) as [[] h']; [by exists n|done].
  - unfold array_set_length. by rewrite Hv.
Qed.

Lemma array_get_view (idx : Z) : 0 <= idx ->
  array_get h a idx = default (UNDEFINED W) (j_elems j !! Z.to_nat idx).
Proof.
  intros Hi. destruct (obj_view_inv _ _ _ Hj) as (o & Ha & ->).
  apply array_get_elems; [apply Hok|done|by eapply hk_array|done].
Qed.

Lemma array_len_view : array_len (obj_at h a) = Z.of_nat (length (j_elems j)).
Proof.
  destruct (obj_view_inv _ _ _ Hj) as (o & Ha & ->). rewrite (obj_at_cell _ _ _ Ha). simpl.
  pose proof (hk_array _ Hok a o Ha) as Har. rewrite elems_of_length by done.
  pose proof (ao_len _ _ Har). lia.
Qed.

Lemma is_array_view : is_array h a = j_array j.
Proof. destruct (obj_view_inv _ _ _ Hj) as (o & Ha & ->). unfold is_array. by rewrite (obj_at_cell _ _ _ Ha). Qed.

(** [delete a[i]] of an array keeps its length and leaves [undefined]. *)
Lemma array_clear_view (idx : Z) : 0 <= idx < array_len (obj_at h a) ->
  let elems := elements (obj_at h a) in
  heap_step_ok h (if elems =? 0 then h else upd_elems (fun vs => <[Z.to_nat idx := UNDEFINED W]> vs) elems h) a
    (with_jelems (<[Z.to_nat idx := UNDEFINED W]> (j_elems j)) j).
Proof.
  destruct (obj_view_inv _ _ _ Hj) as (o & Ha & ->). rewrite (obj_at_cell _ _ _ Ha). intros Hi elems.
  pose proof (hk_layout _ Hok) as Hlo. pose proof (hk_array _ Hok a o Ha) as Har.
  pose proof (array_set_step h a idx (UNDEFINED W) o Hlo Ha Har) as Hs.
  unfold array_set in Hs. rewrite (obj_at_cell _ _ _ Ha) in Hs.
  destruct (Z.leb_spec (array_len o) idx); [lia|]. fold elems in Hs.
  destruct (elems =? 0); [destruct Hs; lia|].
  destruct Hs as (o' & Hst & He); [lia|]. simpl.
  replace (<[Z.to_nat idx := UNDEFINED W]> (elems_of h o)) with (elems_of (upd_elems (fun vs => <[Z.to_nat idx := UNDEFINED W]> vs) elems h) o').
  2:{ rewrite He. unfold list_set. rewrite elems_of_length by done.
      by destruct (Nat.ltb_spec (Z.to_nat idx) (Z.to_nat (array_len o))); [|lia]. }
  by apply array_step_ok.
Qed.

End Array.

(** ** The meaning of an access on the view *)

(** What a property access addresses. *)
Inductive JKey := KIndex (idx : Z) | KLength | KAtom (atom : Z).

Definition js_own (j : JObject) (k : JKey) : option Value :=
  match k with
  | KIndex idx =>
      match (if j_array j then j_elems j !! Z.to_nat idx else None) with
      | Some v => Some v
      | None => table_get (j_props j) (PROP_KEY_INDEX, idx)
      end
  | KLength => Some (len_value (Z.of_nat (length (j_elems j))))
  | KAtom atom => table_get (j_props j) (PROP_KEY_ATOM, atom)
  end.

Definition js_put (j : JObject) (k : JKey) (v : Value) : option JObject :=
  match k with
  | KIndex idx =>
      Some (if j_array j then with_jelems (list_set (j_elems j) (Z.to_nat idx) v) j
            else with_jprops (table_set (j_props j) (PROP_KEY_INDEX, idx) v) j)
  | KLength =>
      match int32 W v with
      | Some n => if n <? 0 then None else Some (with_jelems (list_resize (j_elems j) (Z.to_nat n)) j)
      | None => None
      end
  | KAtom atom => Some (with_jprops (table_set (j_props j) (PROP_KEY_ATOM, atom) v) j)
  end.

(** An element of an array is cleared, not removed. *)
Definition js_del (j : JObject) (k : JKey) : option JObject :=
  match k with
  | KIndex idx =>
      if j_array j && (idx <? Z.of_nat (length (j_elems j)))
      then Some (with_jelems (<[Z.to_nat idx := UNDEFINED W]> (j_elems j)) j)
      else
        match table_get (j_props j) (PROP_KEY_INDEX, idx) with
        | Some _ => Some (with_jprops (table_delete (j_props j) (PROP_KEY_INDEX, idx)) j)
        | None => None
        end
  | KLength => None
  | KAtom atom =>
      match table_get (j_props j) (PROP_KEY_ATOM, atom) with
      | Some _ => Some (with_jprops (table_delete (j_props j) (PROP_KEY_ATOM, atom)) j)
      | None => None
      end
  end.

Definition jkey_ok (k : JKey) : Prop :=
  match k with KIndex i => 0 <= i < 2 ^ 32 | KLength => True | KAtom a => 0 <= a < 2 ^ 32 end.

Lemma index_key_ok (idx : Z) : 0 <= idx < 2 ^ 32 -> key_ok (PROP_KEY_INDEX, idx).
Proof. intros. split; [by right|done]. Qed.
Lemma atom_key_ok (atom : Z) : 0 <= atom < 2 ^ 32 -> key_ok (PROP_KEY_ATOM, atom).
Proof. intros. split; [by left|done]. Qed.
#[export] Hint Resolve index_key_ok atom_key_ok : core.

(** The laws that make [js_put] and [js_own] a store. *)
Lemma js_own_put (j j' : JObject) (k : JKey) (v : Value) :
  js_put j k v = Some j' -> k <> KLength -> jkey_ok k -> js_own j' k = Some v.
Proof.
  destruct k as [idx| |atom]; [|done|]; simpl.
  - intros [= <-] _ Hi. destruct (j_array j) eqn:Ea; simpl; rewrite Ea.
    + unfold list_set. destruct (Nat.ltb_spec (Z.to_nat idx) (length (j_elems j))).
      * by rewrite list_lookup_insert_eq.
      * rewrite lookup_app_r, lookup_app_r by (rewrite ?length_replicate; lia).
        by rewrite length_replicate, Nat.sub_diag.
    + by rewrite table_get_set, decide_True.
  - intros [= <-] _ _. simpl. by rewrite table_get_set, decide_True.
Qed.

(** ** Reading *)

(** The own look-up at each object of the prototype chain, at most [n] of them. *)
Fixpoint proto_walk (n : nat) (h : JsHeap) (cur : Value) (own : JObject -> option Value) : option Value :=
  match n with
  | O => Some (UNDEFINED W)
  | S n' =>
      match object_ptr h cur ≫= obj_view h with
      | None => None
      | Some j =>
          match own j with
          | Some v => Some v
          | None => if proto_end (j_proto j) then Some (UNDEFINED W) else proto_walk n' h (j_proto j) own
          end
      end
  end.

(** The key an atom's name addresses on an object. *)
Definition atom_key (name : bytes) (atom : Z) (j : JObject) : JKey :=
  if j_array j && bytes_eqb name s_length then KLength else KAtom atom.

Section Reads.
Context (h : JsHeap) (Hok : heap_ok h) (Hm : maps_ok h).

Lemma object_ptr_view_obj (cur : Value) (a : Z) : object_ptr h cur = Some a ->
  exists o, cells h !! a = Some (CObject o) /\ obj_view h a = Some (view_of h a o) /\ obj_at h a = o.
Proof.
  intros (o & Ha)%object_ptr_obj. exists o. split; [done|]. split; [by apply obj_view_obj|by apply obj_at_cell].
Qed.

Lemma get_index_walk (idx : Z) (Hi : 0 <= idx < 2 ^ 32) (n : nat) (cur : Value) :
  get_index_loop n h cur idx = proto_walk n h cur (fun j => js_own j (KIndex idx)).
Proof.
  revert cur. induction n as [|n IH]; intros cur; [done|]. simpl.
  destruct (object_ptr h cur) as [a|] eqn:Hp; [|done]. simpl.
  destruct (object_ptr_view_obj cur a Hp) as (o & Ha & Hv & Ho). rewrite Hv.
  rewrite (array_len_view h a _ Hok Hv), (is_array_view h a _ Hv), (array_get_view h a _ Hok Hv) by lia.
  rewrite (find_prop_value_view h a _ _ _ Hok Hm Hv (index_key_ok idx Hi)), Ho.
  change (proto o) with (j_proto (view_of h a o)). clear Hv. generalize (view_of h a o) as j. intros j.
  destruct (j_array j); simpl.
  - destruct (Z.ltb_spec idx (Z.of_nat (length (j_elems j)))) as [Hlt | Hge].
    + destruct (lookup_lt_is_Some_2 (j_elems j) (Z.to_nat idx)) as [x ->]; [lia|done].
    + rewrite lookup_ge_None_2 by lia. destruct (table_get _ _); [done|]. by destruct (proto_end _).
  - destruct (table_get _ _); [done|]. by destruct (proto_end _).
Qed.

Lemma get_atom_walk (name : bytes) (atom : Z) (Hat : 0 <= atom < 2 ^ 32) (n : nat) (cur : Value) :
  get_atom_loop n h cur atom name = proto_walk n h cur (fun j => js_own j (atom_key name atom j)).
Proof.
  revert cur. induction n as [|n IH]; intros cur; [done|]. simpl.
  destruct (object_ptr h cur) as [a|] eqn:Hp; [|done]. simpl.
  destruct (object_ptr_view_obj cur a Hp) as (o & Ha & Hv & Ho). rewrite Hv.
  rewrite (is_array_view h a _ Hv), (array_len_view h a _ Hok Hv).
  rewrite (find_prop_value_view h a _ _ _ Hok Hm Hv (atom_key_ok atom Hat)), Ho.
  change (proto o) with (j_proto (view_of h a o)). clear Hv. generalize (view_of h a o) as j. intros j. unfold atom_key.
  destruct (j_array j && bytes_eqb name s_length); simpl; [done|].
  destruct (table_get _ _); [done|]. by destruct (proto_end _).
Qed.

End Reads.

Lemma parse_index_range (name : bytes) (idx : Z) : parse_index name = Some idx -> 0 <= idx < 2 ^ 32.
Proof.
  unfold parse_index. destruct name as [|b name]; [done|]. generalize (b :: name). clear.
  intros l. assert (H0 : 0 <= 0 < 2 ^ 32) by lia. revert H0. generalize 0 at 2 3 4. 
  induction l as [|b l IH]; intros v Hv; simpl; [by intros [= <-]|].
  destruct (is_digit b) eqn:Hd; [|done]. unfold is_digit in Hd. simpl.
  destruct (Z.leb_spec (2 ^ 32) (v * 10)); [done|].
  destruct (Z.leb_spec (2 ^ 32) (v * 10 + (b - c_0))); [done|]. apply IH. lia.
Qed.

(** Interning is a quiet step. *)
Lemma intern_ok (name : bytes) (h : JsHeap) : heap_ok h ->
  match intern_string name h with
  | (Some atom, h') => heap_same_ok h h' /\ 0 < atom < 2 ^ 32 /\ atom_bytes h' atom = Some name /\
      forall a o, cells h !! a = Some (CObject o) ->
        cells h' !! a = Some (CObject o) /\ overflow_map h' a = overflow_map h a
  | (None, h') => h' = h /\ forall id, atom_bytes h id <> Some name
  end.
Proof.
  intros Hok. pose proof (intern_string_step name h (hk_layout _ Hok) (hk_atoms _ Hok)) as Hs.
  destruct (intern_string name h) as [[atom|] h']; [|done].
  destruct Hs as (Hst & Hr & Hb). split; [by apply str_step_ok|]. split; [done|]. split; [done|].
  intros a o Ha. pose proof (ss_frame _ _ Hst _ _ Ha) as Ha'. split; [done|].
  unfold overflow_map. rewrite (obj_at_cell _ _ _ Ha), (obj_at_cell _ _ _ Ha').
  by destruct (ss_rest _ _ Hst) as (? & ? & ? & ? & -> & _).
Qed.

(** [get_property_str]: a string's length, or the walk for the key the name stands for. *)
Lemma get_property_str_walk (val : Value) (name : bytes) (h : JsHeap) : heap_ok h -> maps_ok h ->
  let '(r, h') := get_property_str val name h in
  heap_same_ok h h' /\
  match (if bytes_eqb name s_length then string_bytes h val else None), parse_index name with
  | Some bs, _ => r = Some (len_value (Z.of_nat (length bs)))
  | None, Some idx => r = proto_walk PROTO_SEARCH_LIMIT h' val (fun j => js_own j (KIndex idx))
  | None, None =>
      (r = None /\ forall id, atom_bytes h id <> Some name) \/
      exists atom, 0 < atom < 2 ^ 32 /\ atom_bytes h' atom = Some name /\
        r = proto_walk PROTO_SEARCH_LIMIT h' val (fun j => js_own j (atom_key name atom j))
  end.
Proof.
  intros Hok Hm. unfold get_property_str.
  destruct (if bytes_eqb name s_length then string_bytes h val else None); [split; [by apply heap_same_refl|done]|].
  destruct (parse_index name) as [idx|] eqn:Hp.
  - split; [by apply heap_same_refl|]. apply get_index_walk; try done. by eapply parse_index_range.
  - pose proof (intern_ok name h Hok) as Hi. destruct (intern_string name h) as [[atom|] h'].
    + destruct Hi as (Hs & Hr & Hb & _). split; [done|]. right. exists atom. split; [done|]. split; [done|].
      apply get_atom_walk; [apply Hs|by apply (sa_maps _ _ Hs)|lia].
    + destruct Hi as [-> Hi]. split; [by apply heap_same_refl|by left].
Qed.

(** ** Writing and deleting *)

(** The key a name stands for on an object, once the name is interned in [h]. *)
Definition key_of_name (h : JsHeap) (name : bytes) (j : JObject) (k : JKey) : Prop :=
  match parse_index name with
  | Some idx => k = KIndex idx
  | None =>
      exists atom, k = atom_key name atom j /\
        (k = KLength \/ 0 < atom < 2 ^ 32 /\ atom_bytes h atom = Some name)
  end.

Section Writes.
Context (h : JsHeap) (val : Value) (a : Z) (j : JObject).
Context (Hok : heap_ok h) (Hm : maps_ok h) (Hp : object_ptr h val = Some a) (Hj : obj_view h a = Some j).

Lemma set_property_index_view (idx : Z) (v : Value) : 0 <= idx < 2 ^ 32 ->
  match set_property_index val idx v h with
  | (true, h') => exists j', js_put j (KIndex idx) v = Some j' /\ heap_step_ok h h' a j'
  | (false, h') => overflow_map h a = None -> heap_same_ok h h'
  end.
Proof.
  intros Hi. unfold set_property_index. rewrite Hp, (is_array_view h a j Hj). simpl. destruct (j_array j).
  - pose proof (array_set_view h a j Hok Hj idx v ltac:(lia)) as Hs.
    destruct (array_set a idx v h) as [[] h']; [by eexists|]. subst h'. intros _. by apply heap_same_refl.
  - pose proof (set_prop_value_view h a j PROP_KEY_INDEX idx Hok Hm Hj (index_key_ok idx Hi) v) as Hs.
    destruct (set_prop_value _ _ _ _ _) as [[] h']; [by eexists|]. apply Hs.
Qed.

(** [object_ptr] and the view after an interning. *)
Lemma after_intern (h1 : JsHeap) : heap_same_ok h h1 -> object_ptr h1 val = Some a /\ obj_view h1 a = Some j.
Proof. intros Hs. rewrite (heap_same_ptr h h1 val Hok Hs), (sa_view _ _ Hs). done. Qed.

Lemma set_property_str_view (name : bytes) (v : Value) :
  match set_property_str val name v h with
  | (true, h') => exists k j', key_of_name h' name j k /\ js_put j k v = Some j' /\ heap_step_ok h h' a j'
  | (false, h') => overflow_map h a = None -> heap_same_ok h h'
  end.
Proof.
  unfold set_property_str, key_of_name. rewrite Hp, (is_array_view h a j Hj).
  destruct (parse_index name) as [idx|] eqn:Hidx.
  - pose proof (set_property_index_view idx v (parse_index_range _ _ Hidx)) as Hs.
    destruct (set_property_index val idx v h) as [[] h']; [|done]. destruct Hs as (j' & ? & ?).
    by exists (KIndex idx), j'.
  - unfold atom_key. destruct (j_array j && bytes_eqb name s_length) eqn:Hlen.
    + pose proof (array_set_length_cases h a j Hok Hj v) as Hs.
      destruct (array_set_length a v h) as [[] h']; [|subst h'; intros _; by apply heap_same_refl].
      destruct Hs as (n & Hv & Hn & Hs). exists KLength. eexists.
      split; [exists 0; by split; [|left]|]. split; [|exact Hs].
      simpl. rewrite Hv. by destruct (Z.ltb_spec n 0); [lia|].
    + pose proof (intern_ok name h Hok) as Hi. destruct (intern_string name h) as [[atom|] h1].
      2:{ destruct Hi as [-> _]. intros _. by apply heap_same_refl. }
      destruct Hi as (Hs & Hr & Hb & Hov). destruct (after_intern h1 Hs) as [_ Hj1].
      destruct (obj_view_inv _ _ _ Hj) as (o & Ha & _). destruct (Hov a o Ha) as [_ Hov1].
      pose proof (set_prop_value_view h1 a j PROP_KEY_ATOM atom (sa_ok _ _ Hs) (sa_maps _ _ Hs Hm) Hj1
        (atom_key_ok atom ltac:(lia)) v) as Hset.
      destruct (set_prop_value _ _ _ _ _) as [[] h'].
      * exists (KAtom atom). eexists. split_and!; [|done|by eapply same_then_step].
        exists atom. split; [done|]. right. split; [done|]. by apply (hs_names _ _ _ _ Hset); [lia|].
      * intros Hnone. destruct Hset as (_ & _ & Hsame). rewrite Hov1 in Hsame. specialize (Hsame Hnone).
        split; [apply Hsame|intros; by apply (sa_maps _ _ Hsame), (sa_maps _ _ Hs)| |].
        -- intros b. rewrite (sa_view _ _ Hsame). apply Hs.
        -- eapply names_kept_trans; [apply Hs|apply Hsame].
Qed.

Lemma delete_property_index_view (idx : Z) : 0 <= idx < 2 ^ 32 ->
  match delete_property_index val idx h with
  | (true, h') => exists j', js_del j (KIndex idx) = Some j' /\
      (length (j_props j) <> 9%nat -> heap_step_ok h h' a j')
  | (false, h') => h' = h /\ js_del j (KIndex idx) = None
  end.
Proof.
  intros Hi. unfold delete_property_index. rewrite Hp, (is_array_view h a j Hj). simpl.
  pose proof (array_len_view h a j Hok Hj) as Hlen. rewrite Hlen.
  destruct (j_array j && (idx <? Z.of_nat (length (j_elems j)))) eqn:E.
  - eexists. split; [done|]. intros _. apply array_clear_view; [done..|].
    apply andb_true_iff in E as [_ E%Z.ltb_lt]. lia.
  - pose proof (delete_prop_value_view h a j PROP_KEY_INDEX idx Hok Hm Hj (index_key_ok idx Hi)) as Hd.
    destruct (delete_prop_value _ _ _ _) as [[] h'].
    + destruct Hd as [[v Hv] Hd]. rewrite Hv. by eexists.
    + destruct Hd as [-> ->]. done.
Qed.

Lemma delete_property_str_view (name : bytes) :
  match delete_property_str val name h with
  | (true, h') => exists k j', js_del j k = Some j' /\
      match parse_index name with
      | Some idx => k = KIndex idx
      | None => exists atom, k = KAtom atom /\ (length (j_props j) <> 9%nat -> atom_bytes h' atom = Some name)
      end /\
      (length (j_props j) <> 9%nat -> heap_step_ok h h' a j')
  | (false, h') => heap_same_ok h h'
  end.
Proof.
  unfold delete_property_str. rewrite Hp. destruct (parse_index name) as [idx|] eqn:Hidx.
  - pose proof (delete_property_index_view idx (parse_index_range _ _ Hidx)) as Hd.
    destruct (delete_property_index val idx h) as [[] h'].
    + destruct Hd as (j' & Hj' & Hd). by exists (KIndex idx), j'.
    + destruct Hd as [-> _]. by apply heap_same_refl.
  - pose proof (intern_ok name h Hok) as Hi. destruct (intern_string name h) as [[atom|] h1].
    2:{ destruct Hi as [-> _]. by apply heap_same_refl. }
    destruct Hi as (Hs & Hr & Hb & Hov). destruct (after_intern h1 Hs) as [_ Hj1].
    pose proof (delete_prop_value_view h1 a j PROP_KEY_ATOM atom (sa_ok _ _ Hs) (sa_maps _ _ Hs Hm) Hj1
      (atom_key_ok atom ltac:(lia))) as Hd.
    destruct (delete_prop_value _ _ _ _) as [[] h'].
    + destruct Hd as [[v Hv] Hd]. exists (KAtom atom). simpl. rewrite Hv. eexists. split; [done|].
      split; [exists atom; split; [done|]; intros H9; by apply (hs_names _ _ _ _ (Hd H9)); [lia|]|].
      intros H9. by eapply same_then_step; [|apply Hd].
    + destruct Hd as [-> _]. done.
Qed.

End Writes.
