(* ===== verification/JsHeapSpec.v ===== *)
(** * JsHeapSpec: the reachable heaps, and the properties of the object model

    [exec] runs one public operation of the context; [reach] is what programs reach from an
    empty region.  The properties: the heap invariant, reading back what was written, arrays
    as lists, interned names, and the overflow map that is not rebuilt. *)
From S2P Require Import Prelude JsValue JsMem JsProps JsTable JsArray JsAtom JsObject JsInv JsObjectSpec.

(** ** Creating *)

Lemma heap_step_then (h h1 h2 : JsHeap) (a : Z) (j1 j2 : JObject) :
  heap_step_ok h h1 a j1 -> heap_step_ok h1 h2 a j2 -> heap_step_ok h h2 a j2.
Proof.
  intros S1 S2. split.
  - apply S2.
  - intros Hm. by apply (hs_maps _ _ _ _ S2), (hs_maps _ _ _ _ S1).
  - apply S2.
  - intros b Hb. rewrite (hs_others _ _ _ _ S2) by done. by apply S1.
  - eapply names_kept_trans; [apply S1|apply S2].
Qed.

Lemma alloc_object_view (cls : Z) (h : JsHeap) : heap_ok h ->
  match alloc_object cls h with
  | (Some a, h') => heap_step_ok h h' a (new_jobject cls) /\ obj_view h a = None /\
      cells h' !! a = Some (CObject (new_heap_object cls)) /\ 0 < a < 2 ^ 64 /\ a `mod` 8 = 0
  | (None, h') => h' = h
  end.
Proof.
  intros Hok. pose proof (alloc_cell_spec (CObject (new_heap_object cls)) h (hk_layout _ Hok) eq_refl) as Hs.
  rewrite <- alloc_object_cell in Hs. destruct (alloc_object cls h) as [[a|] h']; [|apply Hs].
  destruct (alloc_object_ok h h' a cls Hok Hs) as [Hst Hnew].
  split; [done|]. split; [done|]. split; [by eapply alloc_step_new|apply Hs].
Qed.

(** A pointer to a new object is a value that designates it. *)
Lemma new_ptr (h : JsHeap) (a : Z) (o : HeapObject) :
  heap_ok h -> cells h !! a = Some (CObject o) -> 0 < a < 2 ^ 64 -> a `mod` 8 = 0 ->
  object_ptr h (from_ptr a) = Some a.
Proof.
  intros Hok Ha Hr Hal. unfold object_ptr.
  assert (HW : word_size W) by (by left).
  rewrite from_ptr_is_ptr by done. rewrite (as_ptr_from_ptr W a) by (done || lia). simpl.
  destruct (Z.eqb_spec a 0); [lia|]. unfold tag_at. rewrite Ha, (hk_tag _ Hok a o Ha).
  by destruct (class_id o =? CLASS_ARRAY).
Qed.

Lemma with_proto_ok (h : JsHeap) (a : Z) (p : Value) (j : JObject) :
  heap_ok h -> obj_view h a = Some j ->
  heap_step_ok h (upd_obj (with_proto p) a h) a
    {| j_class := j_class j; j_array := j_array j; j_proto := p; j_props := j_props j; j_elems := j_elems j;
       j_opaque := j_opaque j; j_func := j_func j |}.
Proof.
  intros Hok (o & Ha & ->)%obj_view_inv. exact (update_ok h a (with_proto p) o Hok Ha ltac:(done)).
Qed.

Lemma new_object_ok (cls : Z) (h : JsHeap) : heap_ok h ->
  match new_object cls h with
  | (Some v, h') => exists a j, heap_step_ok h h' a j /\ obj_view h a = None /\ object_ptr h' v = Some a /\
      j_props j = [] /\ j_elems j = [] /\ j_class j = cls
  | (None, h') => h' = h
  end.
Proof.
  intros Hok. unfold new_object. pose proof (alloc_object_view cls h Hok) as Hs.
  destruct (alloc_object cls h) as [[a|] h1]; [|done].
  destruct Hs as (Hst & Hnew & Ha & Hr & Hal).
  destruct (_ && _).
  - pose proof (with_proto_ok h1 a (object_proto h1) _ (hs_ok _ _ _ _ Hst) (hs_view _ _ _ _ Hst)) as Hst2.
    exists a. eexists. split; [by eapply heap_step_then|]. split; [done|]. split; [|done].
    apply (new_ptr _ a (with_proto (object_proto h1) (new_heap_object cls))); [apply Hst2| |done..].
    rewrite (upd_obj_cells _ a _ _ Ha). by rewrite lookup_insert_eq.
  - exists a, (new_jobject cls). split; [done|]. split; [done|]. split; [|done].
    by apply (new_ptr _ a (new_heap_object cls)); [apply Hst| | |].
Qed.

(** The element block of a new array. *)
Lemma new_elements_step (h h1 : JsHeap) (a n elems : Z) (o : HeapObject) :
  heap_ok h -> cells h !! a = Some (CObject o) -> elements o = 0 -> 0 < n ->
  alloc_elements n h = Some (elems, h1) ->
  array_step h (upd_obj (with_array (as_u32 n) (as_u32 n) elems) a h1) a o (with_array n n elems o) /\
  elems_of (upd_obj (with_array (as_u32 n) (as_u32 n) elems) a h1) (with_array n n elems o) =
    replicate (Z.to_nat n) (UNDEFINED W).
Proof.
  intros Hok Ha Hz Hn Hal. pose proof (hk_layout _ Hok) as Hlo.
  apply alloc_elements_spec in Hal as (Hlo1 & Hnew & Hr0 & Hcl & off & Hh1 & Hoff); [|done..].
  assert (Hra : elems <> a) by congruence.
  assert (H32 : as_u32 n = n) by (unfold as_u32; apply Z.mod_small; lia). rewrite H32.
  assert (Ha1 : cells h1 !! a = Some (CObject o)) by (rewrite Hh1; simpl; by rewrite lookup_insert_ne).
  rewrite (upd_obj_eq _ a o h1 Ha1). set (h2 := write_cell a _ h1).
  assert (He : cells h2 !! elems = Some (CElements (replicate (Z.to_nat n) (UNDEFINED W)))).
  { unfold h2. simpl. rewrite lookup_insert_ne by done. rewrite Hh1. simpl. by rewrite lookup_insert_eq. }
  split.
  - split; try done.
    + by apply (write_layout a (CObject o)).
    + unfold h2. simpl. by rewrite lookup_insert_eq.
    + split; simpl; [lia|]. right. eexists. split; [exact He|]. rewrite length_replicate. lia.
    + intros b c Hb Hba Hbe. unfold h2. simpl. rewrite lookup_insert_ne by done. rewrite Hh1. simpl.
      rewrite lookup_insert_ne; [done|congruence].
    + by right.
    + intros b Hb. destruct (decide (b = elems)) as [-> | Hbr]; [right; by eexists|].
      destruct (decide (b = a)) as [-> | Hba].
      { exfalso. destruct Hb as [Hb | Hb]; [|congruence]. pose proof (cell_nonnull _ _ _ Hlo Ha). lia. }
      left. unfold h2. simpl. rewrite lookup_insert_ne by done. rewrite Hh1. simpl. by rewrite lookup_insert_ne.
    + exists off. eexists. split; [|exact Hoff]. unfold h2. rewrite Hh1. reflexivity.
  - unfold elems_of. simpl. rewrite (elems_at_eq _ _ _ He). rewrite take_ge; [done|]. by rewrite length_replicate.
Qed.

Lemma alloc_array_view (n : Z) (h : JsHeap) : heap_ok h -> 0 <= n ->
  match alloc_array n h with
  | (Some a, h') => heap_step_ok h h' a (with_jelems (replicate (Z.to_nat n) (UNDEFINED W)) (new_jobject CLASS_ARRAY)) /\
      obj_view h a = None /\ 0 < a < 2 ^ 64 /\ a `mod` 8 = 0
  | (None, h') => h' = h \/ exists a, heap_step_ok h h' a (new_jobject CLASS_ARRAY) /\ obj_view h a = None
  end.
Proof.
  intros Hok Hn. unfold alloc_array. pose proof (alloc_object_view CLASS_ARRAY h Hok) as Hs.
  destruct (alloc_object CLASS_ARRAY h) as [[a|] h1]; [|by left].
  destruct Hs as (Hst & Hnew & Ha & Hr & Hal). pose proof (hs_ok _ _ _ _ Hst) as Hok1.
  destruct (Z.eqb_spec n 0) as [-> | Hnz].
  - split; [|done]. rewrite (upd_obj_eq _ a _ h1 Ha).
    change (with_array (as_u32 0) (as_u32 0) 0 (new_heap_object CLASS_ARRAY)) with (new_heap_object CLASS_ARRAY).
    by rewrite (write_cell_id a _ h1 Ha).
  - destruct (alloc_elements n h1) as [[elems h2]|] eqn:Hel; [|right; by exists a].
    destruct (new_elements_step h1 h2 a n elems _ Hok1 Ha eq_refl ltac:(lia) Hel) as [Hst2 He].
    pose proof (array_step_ok h1 _ a _ _ Hok1 Ha Hst2) as Hst3. rewrite He in Hst3.
    split; [|done]. eapply heap_step_then; [exact Hst|].
    assert (Hj : view_of h1 a (new_heap_object CLASS_ARRAY) = new_jobject CLASS_ARRAY).
    { pose proof (hs_view _ _ _ _ Hst) as Hv. rewrite (obj_view_obj _ _ _ Ha) in Hv.
      by apply (inj Some) in Hv. }
    by rewrite Hj in Hst3.
Qed.

(** ** Every operation keeps the invariant *)

Definition good (h : JsHeap) : Prop := heap_ok h /\ maps_ok h.

(** [h'] is good again and has every name [h] had. *)
Definition safe (h h' : JsHeap) : Prop := good h' /\ names_kept h h'.

Lemma safe_step (h h' : JsHeap) (a : Z) (j : JObject) : good h -> heap_step_ok h h' a j -> safe h h'.
Proof. intros [_ Hm] Hst. split; [split; [apply Hst|by apply (hs_maps _ _ _ _ Hst)]|apply Hst]. Qed.
Lemma safe_same (h h' : JsHeap) : good h -> heap_same_ok h h' -> safe h h'.
Proof. intros [_ Hm] Hst. split; [split; [apply Hst|by apply (sa_maps _ _ Hst)]|apply Hst]. Qed.
Lemma safe_refl (h : JsHeap) : good h -> safe h h.
Proof. intros Hg. split; [done|]. by intros id bs. Qed.
Lemma safe_trans (h1 h2 h3 : JsHeap) : safe h1 h2 -> safe h2 h3 -> safe h1 h3.
Proof. intros [_ N1] [G N2]. split; [done|]. by eapply names_kept_trans. Qed.
Lemma safe_good (h h' : JsHeap) : safe h h' -> good h'.
Proof. by intros []. Qed.
#[local] Hint Resolve safe_step safe_same safe_refl : core.

Lemma overflow_map_small (h : JsHeap) (a : Z) (j : JObject) :
  heap_ok h -> obj_view h a = Some j -> (length (j_props j) <= 8)%nat -> overflow_map h a = None.
Proof.
  intros Hok (o & Ha & ->)%obj_view_inv. simpl. rewrite obj_props_of_nodes, length_fmap. intros Hl.
  unfold overflow_map. rewrite (obj_at_cell _ _ _ Ha), (li_count _ _ _ (hk_list _ Hok a o Ha)).
  unfold PROP_MAP_THRESHOLD. by destruct (Z.ltb_spec 8 (Z.of_nat (length (nodes_of h a)))); [lia|].
Qed.

(** A write to an object without an overflow map keeps the invariant even when it fails. *)
Lemma set_property_str_good (h : JsHeap) (val v : Value) (name : bytes) : good h ->
  (set_property_str val name v h).1 = true \/
    (forall a, object_ptr h val = Some a -> overflow_map h a = None) ->
  safe h (set_property_str val name v h).2.
Proof.
  intros Hg Hc. pose proof Hg as [Hok Hm]. destruct (object_ptr h val) as [a|] eqn:Hp.
  - destruct (object_ptr_view_obj h val a Hp) as (o & _ & Hv & _).
    pose proof (set_property_str_view h val a _ Hok Hm Hp Hv name v) as Hs.
    destruct (set_property_str val name v h) as [[] h'].
    + destruct Hs as (k & j' & _ & _ & Hst). eauto.
    + destruct Hc as [|Hc]; [done|]. specialize (Hs (Hc a eq_refl)). eauto.
  - unfold set_property_str. rewrite Hp. auto.
Qed.

Lemma set_property_index_good (h : JsHeap) (val v : Value) (idx : Z) : good h -> 0 <= idx < 2 ^ 32 ->
  (set_property_index val idx v h).1 = true \/
    (forall a, object_ptr h val = Some a -> overflow_map h a = None) ->
  safe h (set_property_index val idx v h).2.
Proof.
  intros Hg Hi Hc. pose proof Hg as [Hok Hm]. destruct (object_ptr h val) as [a|] eqn:Hp.
  - destruct (object_ptr_view_obj h val a Hp) as (o & _ & Hv & _).
    pose proof (set_property_index_view h val a _ Hok Hm Hp Hv idx v Hi) as Hs.
    destruct (set_property_index val idx v h) as [[] h'].
    + destruct Hs as (j' & _ & Hst). eauto.
    + destruct Hc as [|Hc]; [done|]. specialize (Hs (Hc a eq_refl)). eauto.
  - unfold set_property_index. rewrite Hp. auto.
Qed.

Lemma set_property_atom_id_good (h : JsHeap) (val v : Value) (atom : Z) : good h -> 0 <= atom < 2 ^ 32 ->
  (set_property_atom_id val atom v h).1 = true \/
    (forall a, object_ptr h val = Some a -> overflow_map h a = None) ->
  safe h (set_property_atom_id val atom v h).2.
Proof.
  intros Hg Hi Hc. pose proof Hg as [Hok Hm]. unfold set_property_atom_id in *.
  destruct (object_ptr h val) as [a|] eqn:Hp; [|auto].
  destruct (object_ptr_view_obj h val a Hp) as (o & _ & Hv & _).
  pose proof (set_prop_value_view h a _ PROP_KEY_ATOM atom Hok Hm Hv (atom_key_ok atom Hi) v) as Hs.
  destruct (set_prop_value a PROP_KEY_ATOM atom v h) as [[] h']; [eauto|].
  destruct Hc as [|Hc]; [done|]. destruct Hs as (_ & _ & Hs). specialize (Hs (Hc a eq_refl)). eauto.
Qed.

(** A deletion keeps it unless it takes the object from nine properties to eight. *)
Definition not_nine (h : JsHeap) (val : Value) : Prop :=
  forall a, object_ptr h val = Some a -> prop_count (obj_at h a) <> 9.

Lemma not_nine_view (h : JsHeap) (val : Value) (a : Z) (j : JObject) :
  heap_ok h -> not_nine h val -> object_ptr h val = Some a -> obj_view h a = Some j -> length (j_props j) <> 9%nat.
Proof.
  intros Hok Hn Hp (o & Ha & ->)%obj_view_inv. specialize (Hn a Hp).
  rewrite (obj_at_cell _ _ _ Ha), (li_count _ _ _ (hk_list _ Hok a o Ha)) in Hn.
  simpl. rewrite obj_props_of_nodes, length_fmap. lia.
Qed.

Lemma delete_property_str_good (h : JsHeap) (val : Value) (name : bytes) : good h ->
  (delete_property_str val name h).1 = false \/ not_nine h val -> safe h (delete_property_str val name h).2.
Proof.
  intros Hg Hc. pose proof Hg as [Hok Hm]. destruct (object_ptr h val) as [a|] eqn:Hp.
  - destruct (object_ptr_view_obj h val a Hp) as (o & _ & Hv & _).
    pose proof (delete_property_str_view h val a _ Hok Hm Hp Hv name) as Hs.
    destruct (delete_property_str val name h) as [[] h']; [|eauto].
    destruct Hc as [|Hc]; [done|]. pose proof (not_nine_view _ _ _ _ Hok Hc Hp Hv) as H9.
    destruct Hs as (k & j' & _ & _ & Hst). specialize (Hst H9). eauto.
  - unfold delete_property_str. rewrite Hp. auto.
Qed.

Lemma delete_property_index_good (h : JsHeap) (val : Value) (idx : Z) : good h -> 0 <= idx < 2 ^ 32 ->
  (delete_property_index val idx h).1 = false \/ not_nine h val -> safe h (delete_property_index val idx h).2.
Proof.
  intros Hg Hi Hc. pose proof Hg as [Hok Hm]. destruct (object_ptr h val) as [a|] eqn:Hp.
  - destruct (object_ptr_view_obj h val a Hp) as (o & _ & Hv & _).
    pose proof (delete_property_index_view h val a _ Hok Hm Hp Hv idx Hi) as Hs.
    destruct (delete_property_index val idx h) as [[] h']; [|destruct Hs as [-> _]; auto].
    destruct Hc as [|Hc]; [done|]. pose proof (not_nine_view _ _ _ _ Hok Hc Hp Hv) as H9.
    destruct Hs as (j' & _ & Hst). specialize (Hst H9). eauto.
  - unfold delete_property_index. rewrite Hp. auto.
Qed.

Lemma new_array_bare_good (n : Z) (h : JsHeap) : good h -> 0 <= n ->
  match new_array_bare n h with
  | (Some v, h') => safe h h' /\ exists a j, obj_view h a = None /\ object_ptr h' v = Some a /\
      obj_view h' a = Some j /\ j_props j = [] /\ j_elems j = replicate (Z.to_nat n) (UNDEFINED W)
  | (None, h') => safe h h'
  end.
Proof.
  intros Hg Hn. pose proof Hg as [Hok Hm]. unfold new_array_bare.
  pose proof (alloc_array_view n h Hok Hn) as Hs. destruct (alloc_array n h) as [[a|] h1].
  - destruct Hs as (Hst & Hnew & Hr & Hal). destruct (negb _).
    + pose proof (with_proto_ok h1 a (array_proto h1) _ (hs_ok _ _ _ _ Hst) (hs_view _ _ _ _ Hst)) as Hst2.
      split; [exact (safe_trans _ _ _ (safe_step _ _ _ _ Hg Hst)
        (safe_step _ _ _ _ (safe_good _ _ (safe_step _ _ _ _ Hg Hst)) Hst2))|].
      exists a. eexists. split; [done|]. split; [|split; [apply Hst2|done]].
      destruct (obj_view_inv _ _ _ (hs_view _ _ _ _ Hst2)) as (o & Ha & _).
      by apply (new_ptr _ a o); [apply Hst2| | |].
    + split; [eauto|]. exists a. eexists. split; [done|]. split; [|split; [apply Hst|done]].
      destruct (obj_view_inv _ _ _ (hs_view _ _ _ _ Hst)) as (o & Ha & _).
      by apply (new_ptr _ a o); [apply Hst| | |].
  - destruct Hs as [-> | (a & Hst & _)]; [auto|eauto].
Qed.

(** [new_array] adds [push] and [pop] to an array without a prototype: two properties. *)
Lemma new_array_good (n : Z) (h : JsHeap) : good h -> 0 <= n -> safe h (new_array n h).2.
Proof.
  intros Hg Hn. unfold new_array. pose proof (new_array_bare_good n h Hg Hn) as Hs.
  destruct (new_array_bare n h) as [[v|] h1]; [|done].
  destruct Hs as (Hsafe & a & j & _ & Hp & Hv & Hj & _). pose proof (safe_good _ _ Hsafe) as Hg1.
  destruct (is_undefined W (array_proto h1)); [|done]. cbv zeta. cbn [snd].
  assert (Hstep : forall h2 name w (len : nat), good h2 -> object_ptr h2 v = Some a ->
    (exists j2, obj_view h2 a = Some j2 /\ (length (j_props j2) <= len)%nat) -> (len <= 8)%nat ->
    safe h2 (set_property_str v name w h2).2 /\ object_ptr (set_property_str v name w h2).2 v = Some a /\
    exists j2, obj_view (set_property_str v name w h2).2 a = Some j2 /\ (length (j_props j2) <= S len)%nat).
  { intros h2 name w len Hg2 Hp2 (j2 & Hv2 & Hl2) Hlen. pose proof Hg2 as [Hok2 Hm2].
    assert (Hov : overflow_map h2 a = None) by (apply (overflow_map_small h2 a j2); [done..|lia]).
    pose proof (set_property_str_view h2 v a j2 Hok2 Hm2 Hp2 Hv2 name w) as Hs.
    destruct (set_property_str v name w h2) as [[] h3]; simpl.
    - destruct Hs as (k & j3 & _ & Hput & Hst). split; [eauto|].
      rewrite (heap_step_ptr h2 h3 a j3 v Hok2) by (try done; by rewrite Hv2). split; [done|].
      exists j3. split; [apply Hst|].
      destruct k as [idx| |atom]; simpl in Hput.
      + injection Hput as <-. destruct (j_array j2); simpl; [lia|].
        rewrite <- (length_fmap fst), table_set_keys. case_bool_decide; rewrite ?length_app, length_fmap; simpl; lia.
      + destruct (int32 W w) as [m|]; [|done]. destruct (m <? 0); [done|]. injection Hput as <-. simpl. lia.
      + injection Hput as <-. simpl.
        rewrite <- (length_fmap fst), table_set_keys. case_bool_decide; rewrite ?length_app, length_fmap; simpl; lia.
    - specialize (Hs Hov). split; [eauto|]. rewrite (heap_same_ptr h2 h3 v Hok2 Hs). split; [done|].
      exists j2. rewrite (sa_view _ _ Hs). split; [done|lia]. }
  set (h2 := if negb (is_undefined W (array_push_fn h1)) then _ else h1).
  assert (H1 : safe h1 h2 /\ object_ptr h2 v = Some a /\ exists j2, obj_view h2 a = Some j2 /\ (length (j_props j2) <= 1)%nat).
  { unfold h2. destruct (negb _).
    - apply (Hstep h1 (b! "push") (array_push_fn h1) 0%nat); [done..| |lia]. exists j. split; [done|]. rewrite Hj. simpl. lia.
    - split; [auto|]. split; [done|]. exists j. split; [done|]. rewrite Hj. simpl. lia. }
  clearbody h2. destruct H1 as (Hs2 & Hp2 & Hv2). apply (safe_trans h h1); [done|]. apply (safe_trans h1 h2); [done|].
  apply safe_good in Hs2 as Hg2. destruct (negb _); [|auto].
  apply (Hstep h2 (b! "pop") (array_pop_fn h2) 1%nat); try done. lia.
Qed.

(** ** Programs over the heap *)

Inductive heap_op :=
  | OpString (bs : bytes)
  | OpConcat (str : Value) (extra : bytes)
  | OpFloat (bits : Z)
  | OpObject (cls : Z)
  | OpArray (n : Z)
  | OpArrayBare (n : Z)
  | OpFunction (idx : Z) (params : Value)
  | OpSetStr (val : Value) (name : bytes) (v : Value)
  | OpSetIndex (val : Value) (idx : Z) (v : Value)
  | OpSetAtom (val : Value) (atom : Z) (v : Value)
  | OpDelStr (val : Value) (name : bytes)
  | OpDelIndex (val : Value) (idx : Z)
  | OpProto (val p : Value)
  | OpOpaque (val : Value) (p : Z)
  | OpPush (val v : Value)
  | OpPop (val : Value)
  | OpDirectSet (val : Value) (idx : Z) (v : Value)
  | OpGet (val : Value) (name : bytes)
  | OpHas (val : Value) (name : bytes)
  | OpIntern (bs : bytes)
  | OpDup (id : Z)
  | OpFree (id : Z).

Definition exec (op : heap_op) (h : JsHeap) : JsHeap :=
  match op with
  | OpString bs => (alloc_string bs h).2
  | OpConcat str extra => (alloc_string_concat_val str extra h).2
  | OpFloat bits => (alloc_float bits h).2
  | OpObject cls => (new_object cls h).2
  | OpArray n => (new_array n h).2
  | OpArrayBare n => (new_array_bare n h).2
  | OpFunction idx params => (new_c_function idx params h).2
  | OpSetStr val name v => (set_property_str val name v h).2
  | OpSetIndex val idx v => (set_property_index val idx v h).2
  | OpSetAtom val atom v => (set_property_atom_id val atom v h).2
  | OpDelStr val name => (delete_property_str val name h).2
  | OpDelIndex val idx => (delete_property_index val idx h).2
  | OpProto val p => (set_object_proto val p h).2
  | OpOpaque val p => (set_object_opaque val p h).2
  | OpPush val v => (array_push val v h).2
  | OpPop val => (array_pop val h).2
  | OpDirectSet val idx v => (array_direct_set val idx v h).2
  | OpGet val name => (get_property_str val name h).2
  | OpHas val name => (has_property_str val name h).2
  | OpIntern bs => (intern_string bs h).2
  | OpDup id => (atom_dup id h).2
  | OpFree id => atom_free id h
  end.

(** The arguments have the ranges of their types. *)
Definition op_typed (op : heap_op) : Prop :=
  match op with
  | OpArray n | OpArrayBare n => 0 <= n
  | OpSetIndex _ i _ | OpDelIndex _ i | OpDirectSet _ i _ | OpSetAtom _ i _ => 0 <= i < 2 ^ 32
  | _ => True
  end.

(** An operation that leaves the overflow maps in step: no insertion into an object that has
    one fails, and no deletion takes an object from nine properties to eight. *)
Definition no_map (h : JsHeap) (val : Value) : Prop :=
  forall a, object_ptr h val = Some a -> overflow_map h a = None.
Definition calm (h : JsHeap) (op : heap_op) : Prop :=
  match op with
  | OpSetStr val name v => (set_property_str val name v h).1 = true \/ no_map h val
  | OpSetIndex val idx v => (set_property_index val idx v h).1 = true \/ no_map h val
  | OpSetAtom val atom v => (set_property_atom_id val atom v h).1 = true \/ no_map h val
  | OpDelStr val name => (delete_property_str val name h).1 = false \/ not_nine h val
  | OpDelIndex val idx => (delete_property_index val idx h).1 = false \/ not_nine h val
  | _ => True
  end.

(** The same as a computation. *)
Definition no_map_b (h : JsHeap) (val : Value) : bool :=
  match object_ptr h val with
  | Some a => match overflow_map h a with Some _ => false | None => true end
  | None => true
  end.
Definition not_nine_b (h : JsHeap) (val : Value) : bool :=
  match object_ptr h val with Some a => negb (prop_count (obj_at h a) =? 9) | None => true end.
Definition calm_b (h : JsHeap) (op : heap_op) : bool :=
  match op with
  | OpSetStr val name v => (set_property_str val name v h).1 || no_map_b h val
  | OpSetIndex val idx v => (set_property_index val idx v h).1 || no_map_b h val
  | OpSetAtom val atom v => (set_property_atom_id val atom v h).1 || no_map_b h val
  | OpDelStr val name => negb (delete_property_str val name h).1 || not_nine_b h val
  | OpDelIndex val idx => negb (delete_property_index val idx h).1 || not_nine_b h val
  | _ => true
  end.
Definition op_typed_b (op : heap_op) : bool :=
  match op with
  | OpArray n | OpArrayBare n => 0 <=? n
  | OpSetIndex _ i _ | OpDelIndex _ i | OpDirectSet _ i _ | OpSetAtom _ i _ => (0 <=? i) && (i <? 2 ^ 32)
  | _ => true
  end.

Lemma no_map_b_ok (h : JsHeap) (val : Value) : no_map_b h val = true -> no_map h val.
Proof. unfold no_map_b, no_map. intros H a Ha. rewrite Ha in H. by destruct (overflow_map h a). Qed.
Lemma not_nine_b_ok (h : JsHeap) (val : Value) : not_nine_b h val = true -> not_nine h val.
Proof. unfold not_nine_b, not_nine. intros H a Ha. rewrite Ha in H. by apply negb_true_iff, Z.eqb_neq in H. Qed.
Lemma calm_b_ok (h : JsHeap) (op : heap_op) : calm_b h op = true -> calm h op.
Proof.
  destruct op; try done; simpl; intros [H | H]%orb_true_iff; try (by left); try (right; by apply no_map_b_ok);
    try (right; by apply not_nine_b_ok); left; by apply negb_true_iff.
Qed.
Lemma op_typed_b_ok (op : heap_op) : op_typed_b op = true -> op_typed op.
Proof. destruct op; try done; simpl; lia. Qed.

Lemma array_set_good (h : JsHeap) (a idx : Z) (v : Value) (j : JObject) :
  good h -> obj_view h a = Some j -> 0 <= idx -> safe h (array_set a idx v h).2.
Proof.
  intros Hg Hv Hi. pose proof Hg as [Hok _]. pose proof (array_set_view h a j Hok Hv idx v Hi) as Hs.
  destruct (array_set a idx v h) as [[] h']; [eauto|subst; auto].
Qed.

Lemma array_pop_view (h : JsHeap) (val : Value) (a : Z) (j : JObject) :
  heap_ok h -> object_ptr h val = Some a -> obj_view h a = Some j -> j_array j = true ->
  match array_pop val h with
  | (Some v, h') => 
      (j_elems j = [] /\ v = UNDEFINED W /\ h' = h) \/
      (exists l, j_elems j = l ++ [v] /\ heap_step_ok h h' a (with_jelems l j))
  | (None, _) => False
  end.
Proof.
  intros Hok Hp Hv Harr. unfold array_pop. rewrite Hp, (is_array_view h a j Hv), Harr. simpl.
  pose proof (array_len_view h a j Hok Hv) as Hlen. rewrite Hlen.
  destruct (Z.eqb_spec (Z.of_nat (length (j_elems j))) 0) as [E | E].
  - left. split; [|done]. destruct (j_elems j); [done|simpl in E; lia].
  - right. destruct (obj_view_inv _ _ _ Hv) as (o & Ha & ->). rewrite (obj_at_cell _ _ _ Ha) in Hlen.
    rewrite <- Hlen in *.
    destruct (array_pop_step h a o (hk_layout _ Hok) Ha (hk_array _ Hok a o Ha)) as [Hst He].
    { pose proof (ao_len _ _ (hk_array _ Hok a o Ha)). lia. }
    eexists. split; [exact He|]. by apply array_step_ok.
Qed.

Lemma array_push_view (h : JsHeap) (val v : Value) (a : Z) (j : JObject) :
  heap_ok h -> object_ptr h val = Some a -> obj_view h a = Some j -> j_array j = true ->
  match array_push val v h with
  | (Some n, h') => n = Z.of_nat (S (length (j_elems j))) /\ heap_step_ok h h' a (with_jelems (j_elems j ++ [v]) j)
  | (None, h') => h' = h
  end.
Proof.
  intros Hok Hp Hv Harr. unfold array_push. rewrite Hp, (is_array_view h a j Hv), Harr. simpl.
  rewrite (array_len_view h a j Hok Hv).
  pose proof (array_set_view h a j Hok Hv (Z.of_nat (length (j_elems j))) v ltac:(lia)) as Hs.
  destruct (array_set a _ v h) as [[] h']; [|done].
  assert (He : list_set (j_elems j) (Z.to_nat (Z.of_nat (length (j_elems j)))) v = j_elems j ++ [v]).
  { unfold list_set. rewrite Nat2Z.id, Nat.ltb_irrefl, Nat.sub_diag. done. }
  rewrite He in Hs. split; [|done]. rewrite (array_len_view h' a _ (hs_ok _ _ _ _ Hs) (hs_view _ _ _ _ Hs)).
  simpl. rewrite length_app. simpl. lia.
Qed.

Lemma array_push_good (h : JsHeap) (val v : Value) : good h -> safe h (array_push val v h).2.
Proof.
  intros Hg. pose proof Hg as [Hok _]. unfold array_push. destruct (object_ptr h val) as [a|] eqn:Hp; [|auto].
  destruct (object_ptr_view_obj h val a Hp) as (o & Ha & Hv & Ho). destruct (negb _); [auto|].
  pose proof (array_set_good h a (array_len (obj_at h a)) v _ Hg Hv) as Hs.
  destruct (array_set _ _ _ _) as [[] h']; apply Hs; rewrite Ho; apply (ao_len _ _ (hk_array _ Hok a o Ha)).
Qed.

Lemma array_pop_good (h : JsHeap) (val : Value) : good h -> safe h (array_pop val h).2.
Proof.
  intros Hg. pose proof Hg as [Hok _]. destruct (object_ptr h val) as [a|] eqn:Hp.
  - destruct (object_ptr_view_obj h val a Hp) as (o & Ha & Hv & Ho).
    destruct (j_array (view_of h a o)) eqn:Harr.
    + pose proof (array_pop_view h val a _ Hok Hp Hv Harr) as Hs.
      destruct (array_pop val h) as [[v|] h']; [|done].
      destruct Hs as [(_ & _ & ->) | (l & _ & Hst)]; [auto|eauto].
    + unfold array_pop. rewrite Hp, (is_array_view h a _ Hv), Harr. auto.
  - unfold array_pop. rewrite Hp. auto.
Qed.

Lemma upd_good (h : JsHeap) (val : Value) (f : HeapObject -> HeapObject) (a : Z) :
  good h -> object_ptr h val = Some a -> (forall o, same_fields o (f o)) -> safe h (upd_obj f a h).
Proof.
  intros Hg (o & Ha)%object_ptr_obj Hf. eapply safe_step; [exact Hg|]. by apply update_ok; [apply Hg|exact Ha|].
Qed.

Lemma intern_good (bs : bytes) (h : JsHeap) : good h -> safe h (intern_string bs h).2.
Proof.
  intros Hg. pose proof (intern_ok bs h (proj1 Hg)) as Hi. destruct (intern_string bs h) as [[atom|] h'].
  - destruct Hi as (Hs & _). eauto.
  - destruct Hi as [-> _]. auto.
Qed.

(** Reference counts touch the table only. *)
Lemma with_atoms_good (h : JsHeap) (t : AtomTable) :
  good h -> atoms_ok (with_atoms t h) -> (forall id, atom_bytes (with_atoms t h) id = atom_bytes h id) ->
  safe h (with_atoms t h).
Proof.
  intros Hg Hat Hnm. apply (safe_same h); [done|]. pose proof Hg as [Hok _]. apply quiet_step_ok; try done.
  - by apply with_atoms_layout, hk_layout.
  - intros id bs _ Hb. by rewrite Hnm.
  - intros b o Hb. simpl. congruence.
Qed.

Lemma count_good (h h' : JsHeap) : good h -> (exists t, h' = with_atoms t h) ->
  atoms_ok h' -> (forall id, atom_bytes h' id = atom_bytes h id) -> safe h h'.
Proof. intros Hg [t ->]. by apply with_atoms_good. Qed.

Lemma with_atoms_same (h : JsHeap) : h = with_atoms (atoms h) h.
Proof. by destruct h. Qed.

Lemma dup_good (id : Z) (h : JsHeap) : good h -> safe h (atom_dup id h).2.
Proof.
  intros Hg. apply (count_good h); [done| |apply add_ref_ok, Hg|intros; apply add_ref_bytes].
  unfold atom_dup, add_ref. destruct (_ !! _); [by eexists|]. exists (atoms h). apply with_atoms_same.
Qed.

Lemma free_good (id : Z) (h : JsHeap) : good h -> safe h (atom_free id h).
Proof.
  intros Hg. apply (count_good h); [done| |apply release_ok, Hg|intros; apply release_bytes].
  unfold atom_free, release. destruct (_ !! _); [destruct (_ <? _); [by eexists|]|]; exists (atoms h); apply with_atoms_same.
Qed.

Lemma alloc_cell_good (c : Cell) (h : JsHeap) :
  good h -> 0 < cell_size c -> (forall o, c <> CObject o) -> safe h (alloc_cell c h).2.
Proof.
  intros Hg Hc Hno. pose proof (alloc_cell_spec c h (hk_layout _ (proj1 Hg)) Hc) as Hs.
  destruct (alloc_cell c h) as [[raw|] h']; [|destruct Hs as [-> _]; auto].
  apply (safe_same h); [done|]. by apply (alloc_step_quiet h h' raw c (proj1 Hg)).
Qed.

Lemma alloc_string_good (bs : bytes) (h : JsHeap) : good h -> safe h (alloc_string bs h).2.
Proof.
  intros Hg. apply (alloc_cell_good (CString (as_u32 (Z.of_nat (length bs))) bs)); [done| |done].
  simpl. unfold SIZE_STRING_HEADER. lia.
Qed.

Lemma alloc_concat_good (str : Value) (extra : bytes) (h : JsHeap) : good h -> safe h (alloc_string_concat_val str extra h).2.
Proof.
  intros Hg. unfold alloc_string_concat_val. destruct (str_at h (as_ptr W str)) as [a|]; [|auto].
  pose proof (alloc_string_good (a ++ extra) h Hg) as Hs. unfold alloc_string in Hs.
  rewrite length_app, Nat2Z.inj_add in Hs. done.
Qed.

(** One operation. *)
Lemma exec_good (op : heap_op) (h : JsHeap) : good h -> op_typed op -> calm h op -> safe h (exec op h).
Proof.
  intros Hg Ht Hc. pose proof Hg as [Hok Hm]. destruct op; simpl in *.
  - by apply alloc_string_good.
  - by apply alloc_concat_good.
  - by apply (alloc_cell_good (CFloat bits)).
  - pose proof (new_object_ok cls h Hok) as Hs. destruct (new_object cls h) as [[v|] h'].
    + destruct Hs as (a & j & Hst & _). eauto.
    + subst h'. auto.
  - by apply new_array_good.
  - pose proof (new_array_bare_good n h Hg Ht) as Hs. destruct (new_array_bare n h) as [[v|] h']; [apply Hs|done].
  - unfold new_c_function. pose proof (alloc_object_view CLASS_CFUNCTION h Hok) as Hs.
    destruct (alloc_object CLASS_CFUNCTION h) as [[a|] h1]; [|subst h1; auto].
    destruct Hs as (Hst & _ & Ha & _). assert (Hs1 : safe h h1) by eauto.
    apply (safe_trans _ h1); [done|]. apply safe_good in Hs1 as Hg1.
    eapply safe_step; [exact Hg1|]. by apply (update_ok h1 a (with_func idx params) _ (proj1 Hg1) Ha).
  - by apply set_property_str_good.
  - by apply set_property_index_good.
  - by apply set_property_atom_id_good.
  - by apply delete_property_str_good.
  - by apply delete_property_index_good.
  - unfold set_object_proto. destruct (object_ptr h val) as [a|] eqn:Hp; [|auto]. by apply (upd_good h val).
  - unfold set_object_opaque. destruct (object_ptr h val) as [a|] eqn:Hp; [|auto]. by apply (upd_good h val).
  - by apply array_push_good.
  - by apply array_pop_good.
  - unfold array_direct_set. destruct (object_ptr h val) as [a|] eqn:Hp; [|auto].
    destruct (object_ptr_view_obj h val a Hp) as (o & Ha & Hv & Ho). destruct (negb _); [auto|].
    apply (array_set_good h a idx v _ Hg Hv). lia.
  - unfold get_property_str. destruct (if bytes_eqb name s_length then _ else _); [auto|].
    destruct (parse_index name); [auto|]. pose proof (intern_good name h Hg) as Hi.
    by destruct (intern_string name h) as [[]].
  - unfold has_property_str. destruct (_ && _); [auto|].
    destruct (parse_index name); [auto|]. pose proof (intern_good name h Hg) as Hi.
    by destruct (intern_string name h) as [[]].
  - by apply intern_good.
  - by apply dup_good.
  - by apply free_good.
Qed.

(** ** Reachable heaps *)

Inductive reach : JsHeap -> Prop :=
  | reach_new (st sz : Z) :
      0 < st -> st `mod` 8 = 0 -> 0 <= sz < 2 ^ 32 -> st + sz <= 2 ^ 64 -> reach (empty_heap st sz)
  | reach_op (h : JsHeap) (op : heap_op) :
      reach h -> op_typed op -> calm h op -> reach (exec op h).

Lemma reach_good (h : JsHeap) : reach h -> good h.
Proof. induction 1; [by apply empty_heap_ok|]. by eapply safe_good, exec_good. Qed.

(** A program as a list of operations, each of which may be taken. *)
Fixpoint run (ops : list heap_op) (h : JsHeap) : JsHeap :=
  match ops with [] => h | op :: ops' => run ops' (exec op h) end.
Fixpoint calm_run (ops : list heap_op) (h : JsHeap) : bool :=
  match ops with [] => true | op :: ops' => op_typed_b op && calm_b h op && calm_run ops' (exec op h) end.

Lemma run_reach (ops : list heap_op) (h : JsHeap) : reach h -> calm_run ops h = true -> reach (run ops h).
Proof.
  revert h. induction ops as [|op ops IH]; intros h Hr Hc; [done|].
  apply andb_true_iff in Hc as [[Ht Hc]%andb_true_iff Hcs].
  apply IH; [|done]. apply reach_op; [done|by apply op_typed_b_ok|by apply calm_b_ok].
Qed.

(** A region of 64 KiB at 4096, and an object, an array and a string in it. *)
Definition h_empty : JsHeap := empty_heap 4096 65536.
Definition v_obj : Value := from_ptr 4096.
Definition h_obj : JsHeap := exec (OpObject CLASS_OBJECT) h_empty.
Definition num (n : Z) : Value := from_int32 W n.

Example h_obj_ex : (new_object CLASS_OBJECT h_empty).1 = Some v_obj.
Proof. by vm_compute. Qed.

Lemma h_empty_reach : reach h_empty.
Proof. by apply reach_new. Qed.
Lemma h_obj_reach : reach h_obj.
Proof. apply reach_op; [apply h_empty_reach|done..]. Qed.

(** C3: The heap invariant holds of every heap a program reaches: blocks lie inside the region
    and never overlap; each object's property nodes form a list with the head, tail and count
    its fields say and no key twice; its element block has the capacity its fields say; no
    two objects share a node or an element block; atom names are distinct and indexed; and
    every overflow map agrees with its object's list.  Excluded are the steps where the code
    breaks the last part: a deletion from nine properties to eight, and a failed insertion
    into an object that has an overflow map. *)
Theorem heap_invariant (h : JsHeap) (Hr : reach h) :
  heap_ok h /\
  (forall a b c d, cells h !! a = Some c -> cells h !! b = Some d -> a <> b ->
     start (mem h) <= a /\ a + cell_size c <= start (mem h) + offset (mem h) /\
     (a + cell_size c <= b \/ b + cell_size d <= a)) /\
  (forall a o m kk, cells h !! a = Some (CObject o) -> prop_maps h !! a = Some m -> key_ok kk ->
     8 < prop_count o /\ m !! prop_map_key kk.1 kk.2 = table_get (obj_props h a) kk).
Proof.
  apply reach_good in Hr as [Hok Hm]. split; [done|]. split.
  - intros a b c d Ha Hb Hne. pose proof (hk_layout _ Hok) as Hlo.
    destruct (lo_cells _ Hlo a c Ha) as (_ & ? & _ & ?). split; [done|]. split; [done|].
    destruct (Z.lt_ge_cases a b).
    + left. by apply (lo_disjoint _ Hlo a b c d).
    + right. apply (lo_disjoint _ Hlo b a d c); [done..|lia].
  - intros a o m kk Ha Hpm Hk. pose proof (maps_sync _ _ _ Hm Ha) as Hs. unfold in_sync in Hs.
    rewrite Hpm, (obj_at_cell _ _ _ Ha) in Hs. destruct Hs as [Hc Hs]. split; [done|]. by apply Hs.
Qed.

(** Ten properties, one deleted, an array that grew, a string: the invariant holds of it. *)
Definition demo_ops : list heap_op :=
  OpObject CLASS_OBJECT
  :: ((fun n => OpSetStr v_obj [96 + Z.of_nat n] (num (Z.of_nat n))) <$> seq 1 10)
  ++ [OpDelStr v_obj [99]; OpArray 2; OpString (b! "muon")].

Lemma heap_invariant_witness :
  reach (run demo_ops h_empty) /\
  length (obj_props (run demo_ops h_empty) 4096) = 9%nat /\ heap_ok (run demo_ops h_empty).
Proof.
  assert (Hr : reach (run demo_ops h_empty)) by (apply run_reach; [apply h_empty_reach|by vm_compute]).
  split; [exact Hr|]. split; [by vm_compute|]. exact (proj1 (heap_invariant _ Hr)).
Defined.

(** ** Reading back *)

Lemma object_ptr_addr (h : JsHeap) (val : Value) (a : Z) :
  object_ptr h val = Some a -> as_ptr W val = a /\ string_bytes h val = None.
Proof.
  intros Hp. pose proof (object_ptr_obj h val a Hp) as [o Ha]. unfold object_ptr in Hp. unfold string_bytes.
  destruct (is_ptr W val); [|done]. simpl in *. destruct (as_ptr W val =? 0); [done|].
  destruct (_ || _); [|done]. injection Hp as <-. split; [done|]. unfold str_at. by rewrite Ha.
Qed.

(** The own look-up of a name at the object itself. *)
Lemma get_own_first (h : JsHeap) (val : Value) (name : bytes) (a : Z) (j : JObject) (k : JKey) (v : Value) :
  good h -> object_ptr h val = Some a -> obj_view h a = Some j -> key_of_name h name j k ->
  k <> KLength -> js_own j k = Some v -> (get_property_str val name h).1 = Some v.
Proof.
  intros [Hok Hm] Hp Hj Hk Hnl Hown. pose proof (get_property_str_walk val name h Hok Hm) as Hw.
  destruct (get_property_str val name h) as [r h'] eqn:E. destruct Hw as [Hs Hw]. simpl.
  assert (Hp' : object_ptr h' val = Some a) by (by rewrite (heap_same_ptr h h' val Hok Hs)).
  assert (Hj' : obj_view h' a = Some j) by (by rewrite (sa_view _ _ Hs)).
  assert (Hstr : (if bytes_eqb name s_length then string_bytes h val else None) = None).
  { destruct (object_ptr_addr _ _ _ Hp) as [_ ->]. by destruct (bytes_eqb _ _). }
  rewrite Hstr in Hw. unfold key_of_name in Hk. destruct (parse_index name) as [idx|].
  - subst k r. simpl. rewrite Hp'. simpl. rewrite Hj'. by simpl in Hown; rewrite Hown.
  - destruct Hk as (atom & Hkk & [? | [Hr Hb]]); [done|].
    destruct Hw as [[_ Hnone] | (atom' & Hr' & Hb' & ->)]; [by destruct (Hnone atom)|].
    assert (atom' = atom) as ->.
    { apply (atom_bytes_inj h' atom' atom name); try lia; [apply Hs..|done|by apply (sa_names _ _ Hs); [lia|]]. }
    cbn [proto_walk PROTO_SEARCH_LIMIT]. rewrite Hp'. simpl. rewrite Hj'. rewrite <- Hkk. by rewrite Hown.
Qed.

(** C5: Writing a property and reading it back.  In every heap that is reached without the two
    steps that leave an overflow map wrong (a deletion from nine properties to eight and a failed
    insertion into an object that has such a map; after them a write can succeed and the read find
    nothing), when [set_property_str] succeeds, the object becomes what the write means (an own
    property replaced in place or appended at the end, an element stored with holes filled by
    [undefined], an array resized), no other object changes, and [get_property_str] of the same
    name then gives the value, unless the name is an array's [length], which needs memory to read. *)
Theorem property_write_then_read (h h' : JsHeap) (val v : Value) (name : bytes) (a : Z) (j : JObject)
    (Hr : reach h) (Hp : object_ptr h val = Some a) (Hj : obj_view h a = Some j)
    (Hset : set_property_str val name v h = (true, h')) :
  exists k j', key_of_name h' name j k /\ js_put j k v = Some j' /\ obj_view h' a = Some j' /\
    (forall b, b <> a -> obj_view h' b = obj_view h b) /\
    (k <> KLength -> (get_property_str val name h').1 = Some v).
Proof.
  apply reach_good in Hr as Hg. pose proof Hg as [Hok Hm].
  pose proof (set_property_str_view h val a j Hok Hm Hp Hj name v) as Hs. rewrite Hset in Hs.
  destruct Hs as (k & j' & Hk & Hput & Hst). exists k, j'. split_and!; try apply Hst; try done.
  assert (Hp' : object_ptr h' val = Some a) by (rewrite (heap_step_ptr h h' a j' val); congruence || done).
  assert (Harr : j_array j' = j_array j).
  { destruct k as [idx| |atom]; simpl in Hput.
    - injection Hput as <-. by destruct (j_array j) eqn:E; simpl.
    - destruct (int32 W v); [|done]. destruct (_ <? 0); [done|]. by injection Hput as <-.
    - by injection Hput as <-. }
  assert (Hkey : jkey_ok k).
  { unfold key_of_name in Hk. destruct (parse_index name) as [idx|] eqn:E.
    - subst k. by eapply parse_index_range.
    - destruct Hk as (atom & -> & H). unfold atom_key in *. destruct (_ && _); [done|].
      destruct H as [|[? _]]; [done|]. simpl. lia. }
  intros Hnl. eapply (get_own_first h' val name a j' k v); try done;
    [by eapply safe_good, safe_step|apply Hst| |by eapply js_own_put].
  unfold key_of_name, atom_key in *. by rewrite Harr.
Qed.

Lemma property_write_then_read_witness :
  (get_property_str v_obj (b! "x") (run [OpSetStr v_obj (b! "x") (num 7)] h_obj)).1 = Some (num 7).
Proof.
  destruct (property_write_then_read h_obj (run [OpSetStr v_obj (b! "x") (num 7)] h_obj) v_obj (num 7) (b! "x") 4096
    (new_jobject CLASS_OBJECT) h_obj_reach) as (k & j' & Hk & _ & _ & _ & Hget).
  - by vm_compute.
  - by vm_compute.
  - by vm_compute.
  - apply Hget. intros ->. destruct Hk as (atom & Hk & _). by vm_compute in Hk.
Defined.

(** Deleting a property.  On an object that does not have exactly nine properties,
    [delete_property_str] answers [true] exactly when it removed an own property (or cleared
    an array's element), the object becomes what the deletion means, and no other object
    changes; when it answers [false] no object changes at all. *)
Theorem property_delete (h : JsHeap) (val : Value) (name : bytes) (a : Z) (j : JObject)
    (Hr : reach h) (Hp : object_ptr h val = Some a) (Hj : obj_view h a = Some j)
    (H9 : length (j_props j) <> 9%nat) :
  let '(r, h') := delete_property_str val name h in
  (forall b, b <> a -> obj_view h' b = obj_view h b) /\
  match r with
  | true => exists k j', js_del j k = Some j' /\ obj_view h' a = Some j' /\
      match parse_index name with
      | Some idx => k = KIndex idx
      | None => exists atom, k = KAtom atom /\ atom_bytes h' atom = Some name
      end
  | false => obj_view h' a = Some j
  end.
Proof.
  apply reach_good in Hr as Hg. pose proof Hg as [Hok Hm].
  pose proof (delete_property_str_view h val a j Hok Hm Hp Hj name) as Hs.
  destruct (delete_property_str val name h) as [[] h'].
  - destruct Hs as (k & j' & Hdel & Hk & Hst). specialize (Hst H9). split; [apply Hst|].
    exists k, j'. split; [done|]. split; [apply Hst|]. destruct (parse_index name); [done|].
    destruct Hk as (atom & -> & Hb). exists atom. auto.
  - split; [intros b _; apply Hs|]. by rewrite (sa_view _ _ Hs).
Qed.

Lemma property_delete_witness :
  let h := run [OpSetStr v_obj (b! "x") (num 7); OpSetStr v_obj (b! "y") (num 8)] h_obj in
  (delete_property_str v_obj (b! "x") h).1 = true /\
  (forall b, b <> 4096 -> obj_view (delete_property_str v_obj (b! "x") h).2 b = obj_view h b).
Proof.
  intros h. split; [by vm_compute|].
  assert (Hr : reach h) by (apply run_reach; [apply h_obj_reach|by vm_compute]).
  destruct (obj_view h 4096) as [j|] eqn:Hj; [|by vm_compute in Hj].
  pose proof (property_delete h v_obj (b! "x") 4096 j Hr) as Hd.
  destruct (delete_property_str v_obj (b! "x") h) as [r h']. apply Hd; [by vm_compute|done|].
  vm_compute in Hj. by injection Hj as <-.
Defined.

(** ** The overflow map that is kept and not rebuilt *)

(** [p1] .. [p9], then [delete p3], then [q]. *)
Definition nine_ops : list heap_op :=
  (fun n => OpSetStr v_obj [112; 48 + Z.of_nat n] (num (Z.of_nat n))) <$> seq 1 9.
Definition stale_ops : list heap_op :=
  nine_ops ++ [OpDelStr v_obj (b! "p3"); OpSetStr v_obj (b! "q") (num 42)].

(** A property can be written and not read.  After nine properties, one deletion and one
    insertion, the count is past the threshold again and the map built for the first nine is
    consulted, which the insertion did not touch: [set_property_str] has answered [true] and
    [Object.keys] lists the name, yet [get_property_str] gives [undefined], and writing the
    property once more puts the name in the list a second time. *)
Theorem overflow_map_loses_property :
  let h := run (nine_ops ++ [OpDelStr v_obj (b! "p3")]) h_obj in
  let '(r, h1) := set_property_str v_obj (b! "q") (num 42) h in
  r = true /\
  (get_property_str v_obj (b! "q") h1).1 = Some (UNDEFINED W) /\
  (has_property_str v_obj (b! "q") h1).1 = false /\
  filter (fun n => n = b! "q") (default [] (object_keys h1 v_obj)) = [b! "q"] /\
  filter (fun n => n = b! "q") (default [] (object_keys (set_property_str v_obj (b! "q") (num 42) h1).2 v_obj)) =
    [b! "q"; b! "q"].
Proof. vm_compute. done. Qed.

(** ** Arrays *)

Inductive array_op :=
  | APush (v : Value)
  | APop
  | ASet (idx : Z) (v : Value)
  | ALength (n : Z).

Definition array_exec (val : Value) (op : array_op) (h : JsHeap) : bool * JsHeap :=
  match op with
  | APush v => let '(r, h) := array_push val v h in (bool_decide (is_Some r), h)
  | APop => let '(r, h) := array_pop val h in (bool_decide (is_Some r), h)
  | ASet idx v => set_property_index val idx v h
  | ALength n => set_property_str val s_length (from_int32 W n) h
  end.

(** The same on a list. *)
Definition list_exec (op : array_op) (l : list Value) : list Value :=
  match op with
  | APush v => l ++ [v]
  | APop => take (length l - 1) l
  | ASet idx v => list_set l (Z.to_nat idx) v
  | ALength n => list_resize l (Z.to_nat n)
  end.

Definition array_op_ok (op : array_op) : Prop :=
  match op with ASet idx _ => 0 <= idx < 2 ^ 32 | ALength n => 0 <= n < 2 ^ 31 | _ => True end.

(** Operations up to the first failure, which only a full region causes. *)
Fixpoint array_run (val : Value) (ops : list array_op) (h : JsHeap) : option JsHeap :=
  match ops with
  | [] => Some h
  | op :: ops' =>
      match array_exec val op h with
      | (true, h') => array_run val ops' h'
      | (false, _) => None
      end
  end.

Lemma array_exec_view (h : JsHeap) (val : Value) (a : Z) (j : JObject) (op : array_op) :
  good h -> object_ptr h val = Some a -> obj_view h a = Some j -> j_array j = true -> array_op_ok op ->
  match array_exec val op h with
  | (true, h') => good h' /\ object_ptr h' val = Some a /\
      obj_view h' a = Some (with_jelems (list_exec op (j_elems j)) j) /\
      forall b, b <> a -> obj_view h' b = obj_view h b
  | (false, _) => True
  end.
Proof.
  intros Hg Hp Hj Harr Hop. pose proof Hg as [Hok Hm].
  assert (Hfin : forall h' j', heap_step_ok h h' a j' -> j' = with_jelems (list_exec op (j_elems j)) j ->
    good h' /\ object_ptr h' val = Some a /\ obj_view h' a = Some (with_jelems (list_exec op (j_elems j)) j) /\
      forall b, b <> a -> obj_view h' b = obj_view h b).
  { intros h' j' Hst ->. split; [by eapply safe_good, safe_step|]. split; [|split; apply Hst].
    rewrite (heap_step_ptr h h' a (with_jelems (list_exec op (j_elems j)) j) val Hok); [done|congruence|exact Hst]. }
  destruct op as [v| |idx v|n]; simpl in *.
  - pose proof (array_push_view h val v a j Hok Hp Hj Harr) as Hs.
    destruct (array_push val v h) as [[m|] h']; [|done]. destruct Hs as [_ Hs]. by apply (Hfin h' _ Hs).
  - pose proof (array_pop_view h val a j Hok Hp Hj Harr) as Hs.
    destruct (array_pop val h) as [[v|] h']; [|done]. simpl.
    destruct Hs as [(He & _ & ->) | (l & He & Hs)].
    + rewrite He. simpl. split; [done|]. split; [done|]. split; [|done]. rewrite Hj. f_equal.
      destruct j; simpl in *. by rewrite <- He.
    + apply (Hfin h' _ Hs). f_equal. by rewrite He, length_app, Nat.add_sub, take_app_length.
  - pose proof (set_property_index_view h val a j Hok Hm Hp Hj idx v Hop) as Hs.
    destruct (set_property_index val idx v h) as [[] h']; [|done]. destruct Hs as (j' & Hput & Hst).
    apply (Hfin h' j' Hst). simpl in Hput. rewrite Harr in Hput. by injection Hput.
  - pose proof (set_property_str_view h val a j Hok Hm Hp Hj s_length (from_int32 W n)) as Hs.
    destruct (set_property_str val s_length (from_int32 W n) h) as [[] h']; [|done].
    destruct Hs as (k & j' & (atom & Hk & _) & Hput & Hst). apply (Hfin h' j' Hst).
    unfold atom_key in Hk. rewrite Harr in Hk. change (bytes_eqb s_length s_length) with true in Hk. simpl in Hk.
    subst k. simpl in Hput.
    assert (Hint : int32 W (from_int32 W n) = Some n) by (apply int32_roundtrip; [by left|unfold in_i32; lia|by left]).
    rewrite Hint in Hput. destruct (Z.ltb_spec n 0); [lia|]. by injection Hput.
Qed.

(** C4: Arrays are lists.  A run of pushes, pops, indexed writes and length changes on an array
    of a reachable heap does to the array's elements what the same operations do to a list
    (holes and new slots are [undefined], a pop of an empty array leaves it), whatever
    reallocations it goes through; it changes no other object, and every index then reads
    the list's element. *)
Theorem array_refines_list (h h' : JsHeap) (val : Value) (a : Z) (j : JObject) (ops : list array_op)
    (Hr : reach h) (Hp : object_ptr h val = Some a) (Hj : obj_view h a = Some j)
    (Harr : j_array j = true) (Hops : Forall array_op_ok ops) (Hrun : array_run val ops h = Some h') :
  let l := fold_left (fun l op => list_exec op l) ops (j_elems j) in
  obj_view h' a = Some (with_jelems l j) /\
  (forall b, b <> a -> obj_view h' b = obj_view h b) /\
  array_direct_len h' val = Some (Z.of_nat (length l)) /\
  (forall i, 0 <= i -> array_direct_get h' val i = Some (default (UNDEFINED W) (l !! Z.to_nat i))).
Proof.
  apply reach_good in Hr. revert h j Hr Hp Hj Harr Hrun.
  induction Hops as [|op ops Hop _ IH]; intros h j Hg Hp Hj Harr Hrun; simpl in *.
  - injection Hrun as <-. rewrite Hj. split; [by destruct j|]. split; [done|].
    unfold array_direct_len, array_direct_get. rewrite Hp. simpl. rewrite (is_array_view h a j Hj), Harr. simpl.
    split; [by rewrite (array_len_view h a j (proj1 Hg) Hj)|].
    intros i Hi. by rewrite (array_get_view h a j (proj1 Hg) Hj i Hi).
  - pose proof (array_exec_view h val a j op Hg Hp Hj Harr Hop) as Hs.
    destruct (array_exec val op h) as [[] h1]; [|done]. destruct Hs as (Hg1 & Hp1 & Hj1 & Hoth).
    destruct (IH h1 _ Hg1 Hp1 Hj1 Harr Hrun) as (Hv & Hb & Hlen & Hget).
    split; [exact Hv|]. split; [|done]. intros b Hne. rewrite Hb, Hoth; done.
Qed.

Definition h_arr : JsHeap := run [OpArray 2] h_empty.
Definition arr_ops : list array_op := [APush (num 1); ASet 6 (num 2); APop; ALength 12; APush (num 3)].

Lemma array_refines_list_witness :
  exists h', array_run v_obj arr_ops h_arr = Some h' /\ array_direct_len h' v_obj = Some 13 /\
    array_direct_get h' v_obj 2 = Some (num 1).
Proof.
  assert (Hr : reach h_arr) by (apply run_reach; [apply h_empty_reach|by vm_compute]).
  destruct (array_run v_obj arr_ops h_arr) as [h'|] eqn:Hrun; [|by vm_compute in Hrun].
  destruct (obj_view h_arr 4096) as [j|] eqn:Hj; [|by vm_compute in Hj].
  assert (Hj2 : j_elems j = [UNDEFINED W; UNDEFINED W] /\ j_array j = true).
  { clear Hrun. vm_compute in Hj. injection Hj as <-. by vm_compute. }
  destruct Hj2 as [He Harr]. exists h'. split; [reflexivity|].
  destruct (array_refines_list h_arr h' v_obj 4096 j arr_ops Hr ltac:(vm_compute; reflexivity) Hj Harr) as (_ & _ & Hl & Hg).
  - clear. repeat constructor; simpl; lia.
  - exact Hrun.
  - clear Hrun Hj. rewrite Hl, (Hg 2) by lia. rewrite He. split; by vm_compute.
Defined.

(** ** Names *)

Lemma run_safe (ops : list heap_op) (h : JsHeap) : good h -> calm_run ops h = true -> safe h (run ops h).
Proof.
  revert h. induction ops as [|op ops IH]; intros h Hg Hc; [auto|].
  apply andb_true_iff in Hc as [[Ht Hc]%andb_true_iff Hcs]. simpl.
  assert (Hs : safe h (exec op h)) by (apply exec_good; [done|by apply op_typed_b_ok|by apply calm_b_ok]).
  eapply safe_trans; [exact Hs|]. apply IH; [by eapply safe_good|done].
Qed.

(** A name has one atom, for ever.  Between two internings a program may do anything (the
    reference counts of atoms go up and down, other names take the same hash slot): the two
    atoms are equal exactly when the names are, and both still read as their names. *)
Theorem interning_is_injective (h h1 h3 : JsHeap) (ops : list heap_op) (b1 b2 : bytes) (i1 i2 : Z)
    (Hr : reach h) (H1 : intern_string b1 h = (Some i1, h1)) (Hc : calm_run ops h1 = true)
    (H2 : intern_string b2 (run ops h1) = (Some i2, h3)) :
  (i1 = i2 <-> b1 = b2) /\ atom_bytes h3 i1 = Some b1 /\ atom_bytes h3 i2 = Some b2.
Proof.
  apply reach_good in Hr as Hg. pose proof (intern_ok b1 h (proj1 Hg)) as Hi1. rewrite H1 in Hi1.
  destruct Hi1 as (Hs1 & Hr1 & Hb1 & _). assert (Hg1 : good h1) by (by eapply safe_good, safe_same).
  destruct (run_safe ops h1 Hg1 Hc) as [Hg2 Hn2].
  pose proof (intern_ok b2 _ (proj1 Hg2)) as Hi2. rewrite H2 in Hi2. destruct Hi2 as (Hs3 & Hr2 & Hb2 & _).
  assert (Hb1' : atom_bytes h3 i1 = Some b1) by (apply (sa_names _ _ Hs3), Hn2; (done || lia)).
  split; [|done]. split; [intros <-; congruence|]. intros <-.
  pose proof (sa_ok _ _ Hs3) as Hok3.
  apply (atom_bytes_inj h3 i1 i2 b1); [apply Hok3|apply Hok3|lia|lia|done|done].
Qed.

Lemma interning_is_injective_witness :
  let h2 := run [OpIntern (b! "b"); OpFree 1; OpFree 1; OpGet v_obj (b! "c")] (intern_string (b! "a") h_obj).2 in
  (intern_string (b! "a") h2).1 = Some 1 /\ atom_bytes (intern_string (b! "a") h2).2 1 = Some (b! "a").
Proof.
  intros h2. destruct (intern_string (b! "a") h2) as [r h3] eqn:E.
  assert (Hr : r = Some 1) by (transitivity (r, h3).1; [done|]; rewrite <- E; by vm_compute).
  split; [exact Hr|]. subst r.
  apply (interning_is_injective h_obj (intern_string (b! "a") h_obj).2 h3
    [OpIntern (b! "b"); OpFree 1; OpFree 1; OpGet v_obj (b! "c")] (b! "a") (b! "a") 1 1 h_obj_reach).
  - by vm_compute.
  - by vm_compute.
  - exact E.
Defined.

(** Reading a property is the own look-up at each object of the prototype chain in turn,
    stopping at the first that has it, at a null or undefined prototype, or after 64 objects,
    so a cyclic chain gives [undefined] and the read always ends; a string answers [length]
    itself, and nothing a program can see changes. *)
Theorem property_read_walks_prototypes (h : JsHeap) (val : Value) (name : bytes) (Hr : reach h) :
  let '(r, h') := get_property_str val name h in
  (forall b, obj_view h' b = obj_view h b) /\
  match (if bytes_eqb name s_length then string_bytes h val else None), parse_index name with
  | Some bs, _ => r = Some (len_value (Z.of_nat (length bs)))
  | None, Some idx => r = proto_walk PROTO_SEARCH_LIMIT h' val (fun j => js_own j (KIndex idx))
  | None, None =>
      (r = None /\ forall id, atom_bytes h id <> Some name) \/
      exists atom, 0 < atom < 2 ^ 32 /\ atom_bytes h' atom = Some name /\
        r = proto_walk PROTO_SEARCH_LIMIT h' val (fun j => js_own j (atom_key name atom j))
  end.
Proof.
  apply reach_good in Hr as [Hok Hm]. pose proof (get_property_str_walk val name h Hok Hm) as Hw.
  destruct (get_property_str val name h) as [r h']. destruct Hw as [Hs Hw]. split; [apply Hs|exact Hw].
Qed.

(** Two objects that are each other's prototype: the read of a missing name ends. *)
Definition cyclic_ops : list heap_op :=
  [OpObject CLASS_OBJECT; OpProto v_obj (from_ptr (4096 + SIZE_OBJECT)); OpProto (from_ptr (4096 + SIZE_OBJECT)) v_obj;
   OpSetStr (from_ptr (4096 + SIZE_OBJECT)) (b! "x") (num 5)].

Lemma property_read_walks_prototypes_witness :
  (get_property_str v_obj (b! "x") (run cyclic_ops h_obj)).1 = Some (num 5) /\
  (get_property_str v_obj (b! "y") (run cyclic_ops h_obj)).1 = Some (UNDEFINED W) /\
  (forall b, obj_view (get_property_str v_obj (b! "y") (run cyclic_ops h_obj)).2 b = obj_view (run cyclic_ops h_obj) b).
Proof.
  split; [by vm_compute|]. split; [by vm_compute|].
  assert (Hr : reach (run cyclic_ops h_obj)) by (apply run_reach; [apply h_obj_reach|by vm_compute]).
  pose proof (property_read_walks_prototypes _ v_obj (b! "y") Hr) as Hw.
  destruct (get_property_str v_obj (b! "y") (run cyclic_ops h_obj)) as [r h']. apply Hw.
Defined.
