(* ===== verification/JsGc.v ===== *)
(** * JsGc: marking

    [gc_collect] of [src/context.rs]: clear the marks, mark the roots, then pop and mark until
    the stack is empty.  There is no sweep: the heap is a bump allocator and marking is all
    the collector does.  The stack is a list whose head is the last value pushed.

    Each turn of the loop pops one value, and an object pushes its children the one time it
    is marked, so the values on the stack and the children of the unmarked blocks bound the
    turns; [gc_fuel] is that number. *)
From S2P Require Import Prelude JsValue JsMem JsProps JsTable JsArray JsAtom JsInv JsHeapSpec.

(** The roots that are not fields of the heap; [gcrefs] is the host's chain of [JSGCRef]s
    from [gcref_head] along [prev]. *)
Record GcRoots := {
  global_object : Value;
  env_stack : list Value;
  call_stack : list Value;
  last_exception : Value;
  return_value : Value;
  gcrefs : list Value
}.

(** ** Operations *)

Abbreviation Marks := (gset Z).
Definition push (v : Value) (stack : list Value) : list Value := v :: stack.

(** The loop over an object's property list, pushing each value. *)
Fixpoint push_props (fuel : nat) (h : JsHeap) (cur : Z) (stack : list Value) : list Value :=
  match fuel with
  | O => stack
  | S fuel' =>
      if cur =? 0 then stack
      else push_props fuel' h (next (prop_at h cur)) (push (value (prop_at h cur)) stack)
  end.

Definition push_children (h : JsHeap) (ptr : Z) (stack : list Value) : list Value :=
  if (tag_at h ptr =? HEAP_TAG_OBJECT) || (tag_at h ptr =? HEAP_TAG_ARRAY) then
    let o := obj_at h ptr in
    let stack := push (proto o) stack in
    let stack := if negb (is_undefined W (func_params o)) then push (func_params o) stack else stack in
    let stack := push_props (heap_fuel h) h (prop_head o) stack in
    if (tag o =? HEAP_TAG_ARRAY) && negb (elements o =? 0) then
      fold_left (fun stack i => push (elem_at h (elements o) (Z.of_nat i)) stack)
        (seq 0 (Z.to_nat (array_len o))) stack
    else stack
  else stack.

Definition gc_mark_value (h : JsHeap) (val : Value) (st : Marks * list Value) : Marks * list Value :=
  let '(marks, stack) := st in
  if negb (is_ptr W val) then st
  else
    let ptr := as_ptr W val in
    if ptr =? 0 then st
    else if bool_decide (ptr ∈ marks) then st
    else ({[ptr]} ∪ marks, push_children h ptr stack).

Definition gc_mark_gcref (r : GcRoots) (stack : list Value) : list Value :=
  fold_left (fun stack v => push v stack) (gcrefs r) stack.

Definition gc_roots (h : JsHeap) (r : GcRoots) : list Value :=
  global_object r :: env_stack r ++ call_stack r ++
  [last_exception r; return_value r; object_proto h; array_proto h; array_push_fn h; array_pop_fn h].

Fixpoint gc_loop (fuel : nat) (h : JsHeap) (st : Marks * list Value) : option Marks :=
  match fuel with
  | O => None
  | S fuel' =>
      match st with
      | (marks, []) => Some marks
      | (marks, val :: stack) => gc_loop fuel' h (gc_mark_value h val (marks, stack))
      end
  end.

(** The stack and marks when the loop starts. *)
Definition gc_start (h : JsHeap) (r : GcRoots) : Marks * list Value :=
  let '(marks, stack) := fold_left (fun st v => gc_mark_value h v st) (gc_roots h r) (∅, []) in
  let stack := gc_mark_gcref r stack in
  (marks, fold_left (fun stack v => push v stack) (mark_live h) stack).

Definition children_count (h : JsHeap) (ptr : Z) : nat := length (push_children h ptr []).
Definition unmarked_children (h : JsHeap) (marks : Marks) : nat :=
  sum_list (children_count h <$> filter (fun a => a ∉ marks) (map_to_list (cells h)).*1).
Definition gc_fuel (h : JsHeap) (st : Marks * list Value) : nat :=
  S (length st.2 + unmarked_children h st.1).

(** The marks after a collection. *)
Definition gc_collect (h : JsHeap) (r : GcRoots) : option Marks :=
  let st := gc_start h r in gc_loop (gc_fuel h st) h st.

(** ** What an object refers to *)

Definition refs (j : JObject) : list Value :=
  j_proto j :: (if negb (is_undefined W (j_func j).2) then [(j_func j).2] else []) ++
  (j_props j).*2 ++ (if j_array j then j_elems j else []).

(** The values the roots lead to. *)
Inductive reachable (h : JsHeap) (r : GcRoots) : Value -> Prop :=
  | reach_root (v : Value) :
      v ∈ gc_roots h r ++ gcrefs r ++ mark_live h -> reachable h r v
  | reach_ref (v w : Value) (j : JObject) :
      reachable h r v -> is_ptr W v = true -> as_ptr W v <> 0 -> obj_view h (as_ptr W v) = Some j -> w ∈ refs j ->
      reachable h r w.

(** ** Pushing *)

Lemma fold_push {A} (f : A -> Value) (l : list A) (stack : list Value) :
  fold_left (fun s x => push (f x) s) l stack = rev (f <$> l) ++ stack.
Proof.
  revert stack. induction l as [|x l IH]; intros stack; simpl; [done|].
  rewrite IH. by rewrite <- (app_assoc _ [f x]).
Qed.

Lemma push_props_app (fuel : nat) (h : JsHeap) (cur : Z) (stack : list Value) :
  push_props fuel h cur stack = push_props fuel h cur [] ++ stack.
Proof.
  revert cur stack. induction fuel as [|fuel IH]; intros cur stack; simpl; [done|].
  destruct (cur =? 0); [done|]. rewrite IH, (IH _ (push _ [])). by rewrite <- app_assoc.
Qed.

Lemma push_props_read (fuel : nat) (h : JsHeap) (cur : Z) :
  push_props fuel h cur [] = rev (read_list fuel h cur).*2.*2.
Proof.
  revert cur. induction fuel as [|fuel IH]; intros cur; simpl; [done|].
  destruct (cur =? 0); [done|]. rewrite push_props_app, IH. done.
Qed.

Lemma push_elems (b : bool) (f : nat -> Value) (l : list nat) (stack : list Value) :
  (if b then fold_left (fun s i => push (f i) s) l stack else stack) =
    (if b then rev (f <$> l) else []) ++ stack.
Proof. destruct b; [apply fold_push|done]. Qed.

Lemma push_if (b : bool) (v : Value) (stack : list Value) :
  (if b then push v stack else stack) = (if b then [v] else []) ++ stack.
Proof. by destruct b. Qed.

(** The values pushed, the last on top. *)
Lemma push_children_list (h : JsHeap) (ptr : Z) (stack : list Value) :
  push_children h ptr stack =
    (if (tag_at h ptr =? HEAP_TAG_OBJECT) || (tag_at h ptr =? HEAP_TAG_ARRAY) then
       let o := obj_at h ptr in
       (if (tag o =? HEAP_TAG_ARRAY) && negb (elements o =? 0) then
          rev ((fun i => elem_at h (elements o) (Z.of_nat i)) <$> seq 0 (Z.to_nat (array_len o))) else []) ++
       rev (obj_props h ptr).*2 ++
       (if negb (is_undefined W (func_params o)) then [func_params o] else []) ++ [proto o]
     else []) ++ stack.
Proof.
  unfold push_children. destruct (_ || _); [|done]. cbv zeta.
  rewrite push_elems, push_if, push_props_app, push_props_read. unfold push, obj_props.
  by rewrite <- !app_assoc.
Qed.

Lemma push_children_app (h : JsHeap) (ptr : Z) (stack : list Value) :
  push_children h ptr stack = push_children h ptr [] ++ stack.
Proof. rewrite (push_children_list h ptr stack), (push_children_list h ptr []). by rewrite app_nil_r. Qed.

Section Children.
Context (h : JsHeap) (Hok : heap_ok h).

(** The values pushed for a block: what the object refers to, or nothing. *)
Lemma push_children_refs (ptr : Z) :
  push_children h ptr [] = match obj_view h ptr with Some j => rev (refs j) | None => [] end.
Proof.
  rewrite push_children_list, app_nil_r. unfold obj_view, tag_at. destruct (cells h !! ptr) as [[| |o| |]|] eqn:E; try done.
  assert (Htag : (tag o =? HEAP_TAG_OBJECT) || (tag o =? HEAP_TAG_ARRAY) = true).
  { rewrite (hk_tag _ Hok ptr o E). by destruct (class_id o =? CLASS_ARRAY). }
  rewrite Htag, (obj_at_cell _ _ _ E). cbv zeta.
  assert (Hel : (if (tag o =? HEAP_TAG_ARRAY) && negb (elements o =? 0) then
      rev ((fun i => elem_at h (elements o) (Z.of_nat i)) <$> seq 0 (Z.to_nat (array_len o))) else []) =
    rev (if tag o =? HEAP_TAG_ARRAY then elems_of h o else [])).
  { pose proof (hk_array _ Hok ptr o E) as Har. destruct (tag o =? HEAP_TAG_ARRAY); [|done]. simpl.
    destruct (Z.eqb_spec (elements o) 0) as [Ez | Ez]; simpl.
    - destruct (ao_block _ _ Har) as [[_ Hc] | (vs & Hvs & _)].
      + pose proof (ao_len _ _ Har). unfold elems_of. by replace (array_len o) with 0 by lia.
      + rewrite Ez in Hvs. by rewrite cells_null in Hvs by apply Hok.
    - f_equal. apply list_eq. intros i. rewrite list_lookup_fmap.
      pose proof (ao_len _ _ Har) as Hlen.
      destruct (decide (i < Z.to_nat (array_len o))%nat) as [Hi | Hi].
      + rewrite lookup_seq_lt by done. simpl. unfold elem_at, elems_of. rewrite Nat2Z.id, lookup_take_lt by done.
        destruct (ao_block _ _ Har) as [[? _] | (vs & Hvs & Hl)]; [done|]. rewrite (elems_at_eq _ _ _ Hvs).
        by destruct (lookup_lt_is_Some_2 vs i) as [x ->]; [lia|].
      + rewrite lookup_seq_ge by lia. symmetry. apply lookup_ge_None. rewrite elems_of_length by done. lia. }
  rewrite Hel. unfold refs, view_of. cbn [j_proto j_func j_props j_array j_elems snd rev].
  rewrite !rev_app_distr, <- !app_assoc. do 2 f_equal.
  destruct (negb (is_undefined W (func_params o))); reflexivity.
Qed.
End Children.

(** ** Termination: the fuel is enough, for every heap *)

Lemma filter_sum (f : Z -> nat) (l : list Z) (marks : Marks) (p : Z) : NoDup l -> p ∉ marks ->
  (sum_list (f <$> filter (fun a => a ∉ {[p]} ∪ marks) l) + (if decide (p ∈ l) then f p else 0) =
   sum_list (f <$> filter (fun a => a ∉ marks) l))%nat.
Proof.
  intros Hnd Hp. induction Hnd as [|a l Ha _ IH]; [done|].
  rewrite !filter_cons.
  assert (Hmem : p ∈ a :: l <-> a = p \/ p ∈ l) by set_solver.
  assert (Hmk : a ∉ {[p]} ∪ marks <-> a <> p /\ a ∉ marks) by set_solver.
  destruct (decide (a = p)) as [-> | Hne]; repeat case_decide; csimpl in *; try (exfalso; tauto); lia.
Qed.

(** Marking a block takes its children off the count, and puts as many on the stack. *)
Lemma unmarked_children_mark (h : JsHeap) (marks : Marks) (p : Z) : p ∉ marks ->
  (unmarked_children h ({[p]} ∪ marks) + children_count h p = unmarked_children h marks)%nat.
Proof.
  intros Hp. unfold unmarked_children.
  pose proof (filter_sum (children_count h) (map_to_list (cells h)).*1 marks p (NoDup_fst_map_to_list _) Hp) as Hs.
  destruct (decide (p ∈ (map_to_list (cells h)).*1)) as [|Hnin]; [done|].
  assert (Hc : children_count h p = O); [|lia].
  unfold children_count. rewrite push_children_list, app_nil_r. unfold tag_at.
  destruct (cells h !! p) as [c|] eqn:E; [|done]. exfalso. apply Hnin.
  apply list_elem_of_fmap. exists (p, c). split; [done|]. by apply elem_of_map_to_list.
Qed.

Definition gc_potential (h : JsHeap) (st : Marks * list Value) : nat :=
  (length st.2 + unmarked_children h st.1)%nat.

Lemma mark_potential (h : JsHeap) (v : Value) (st : Marks * list Value) :
  gc_potential h (gc_mark_value h v st) = gc_potential h st.
Proof.
  destruct st as [marks stack]. unfold gc_mark_value. destruct (negb _); [done|]. cbv zeta.
  destruct (_ =? 0); [done|]. case_bool_decide as Hm; [done|]. unfold gc_potential. simpl.
  pose proof (unmarked_children_mark h marks (as_ptr W v) Hm) as Hs.
  rewrite push_children_app, length_app. unfold children_count in Hs. lia.
Qed.

(** One value is popped per turn, so the loop ends within its potential. *)
Lemma gc_loop_total (fuel : nat) (h : JsHeap) (st : Marks * list Value) :
  (gc_potential h st < fuel)%nat -> is_Some (gc_loop fuel h st).
Proof.
  revert st. induction fuel as [|fuel IH]; intros [marks stack] Hf; [lia|].
  destruct stack as [|v stack]; [by eexists|]. cbn [gc_loop]. apply IH. rewrite mark_potential.
  unfold gc_potential in *. simpl in *. lia.
Qed.

(** ** What is marked *)

Section Marked.
Context (h : JsHeap) (r : GcRoots) (Hok : heap_ok h).

Definition marked (marks : Marks) (v : Value) : Prop :=
  is_ptr W v = false \/ as_ptr W v = 0 \/ as_ptr W v ∈ marks.

(** Everything found is reachable; what a marked object refers to is marked, on the stack, or
    one of the values [pend] in hand. *)
Record gc_inv (pend : list Value) (st : Marks * list Value) : Prop := {
  gi_marks : forall p, p ∈ st.1 -> exists v, reachable h r v /\ is_ptr W v = true /\ as_ptr W v = p /\ p <> 0;
  gi_stack : forall v, v ∈ st.2 -> reachable h r v;
  gi_closed : forall p j v, p ∈ st.1 -> obj_view h p = Some j -> v ∈ refs j ->
    v ∈ pend \/ v ∈ st.2 \/ marked st.1 v
}.

Lemma marked_mono (m1 m2 : Marks) (v : Value) : m1 ⊆ m2 -> marked m1 v -> marked m2 v.
Proof. clear Hok. unfold marked. set_solver. Qed.

Lemma mark_value_inv (pend : list Value) (v : Value) (st : Marks * list Value) :
  gc_inv pend st -> reachable h r v ->
  gc_inv pend (gc_mark_value h v st) /\ marked (gc_mark_value h v st).1 v /\
  st.1 ⊆ (gc_mark_value h v st).1 /\ (forall w, w ∈ st.2 -> w ∈ (gc_mark_value h v st).2).
Proof.
  intros [Hm Hs Hc] Hv. destruct st as [marks stack]. unfold gc_mark_value. simpl in *.
  destruct (is_ptr W v) eqn:Hp; simpl; [|by repeat split; auto; left].
  destruct (Z.eqb_spec (as_ptr W v) 0) as [E|Hz]; [by repeat split; auto; right; left|].
  case_bool_decide as Hin; [by repeat split; auto; right; right|]. simpl.
  rewrite push_children_app, (push_children_refs h Hok).
  assert (Hrefs : forall w, w ∈ match obj_view h (as_ptr W v) with Some j => rev (refs j) | None => [] end <->
    exists j, obj_view h (as_ptr W v) = Some j /\ w ∈ refs j).
  { intros w. destruct (obj_view h (as_ptr W v)) as [j|].
    - rewrite list_elem_of_In, <- in_rev, <- list_elem_of_In. naive_solver.
    - split; [by intros []%elem_of_nil|by intros (j & ? & _)]. }
  split; [split; simpl|split; [right; right; set_solver|split; [set_solver|set_solver]]].
  - intros p [->%elem_of_singleton | Hp']%elem_of_union; [by exists v|by apply Hm].
  - intros w [(j & Hj & Hw)%Hrefs | Hw]%elem_of_app; [by eapply reach_ref|by apply Hs].
  - intros p j w [->%elem_of_singleton | Hp']%elem_of_union Hj Hw.
    + right; left. apply elem_of_app. left. apply Hrefs. eauto.
    + destruct (Hc p j w Hp' Hj Hw) as [Hpe | [Hst | Hmk]]; [by left|right; left; apply elem_of_app; by right|].
      right; right. eapply marked_mono; [|exact Hmk]. set_solver.
Qed.

Lemma mark_values_inv (vs : list Value) (st : Marks * list Value) :
  gc_inv [] st -> (forall v, v ∈ vs -> reachable h r v) ->
  let st' := fold_left (fun st v => gc_mark_value h v st) vs st in
  gc_inv [] st' /\ (forall v, v ∈ vs -> marked st'.1 v) /\ st.1 ⊆ st'.1 /\ (forall w, w ∈ st.2 -> w ∈ st'.2).
Proof.
  revert st. induction vs as [|v vs IH]; intros st Hi Hr; simpl.
  { repeat split; try apply Hi; try done. by intros v []%elem_of_nil. }
  destruct (mark_value_inv [] v st Hi) as (Hi1 & Hm1 & Hsub1 & Hst1); [apply Hr; by left|].
  destruct (IH _ Hi1) as (Hi2 & Hm2 & Hsub2 & Hst2); [intros w Hw; apply Hr; by right|].
  split; [done|]. split; [|split; [set_solver|auto]].
  intros w [-> | Hw]%elem_of_cons; [by eapply marked_mono|by apply Hm2].
Qed.

(** The loop ends with an empty stack, everything on it marked. *)
Lemma gc_loop_inv (fuel : nat) (st : Marks * list Value) (marks : Marks) :
  gc_inv [] st -> gc_loop fuel h st = Some marks ->
  gc_inv [] (marks, []) /\ st.1 ⊆ marks /\ (forall v, v ∈ st.2 -> marked marks v).
Proof.
  revert st. induction fuel as [|fuel IH]; intros [m stack] Hi Hl; [done|].
  destruct stack as [|v stack]; cbn [gc_loop] in Hl.
  { injection Hl as <-. split; [done|]. split; [done|]. by intros v []%elem_of_nil. }
  assert (Hi' : gc_inv [] (gc_mark_value h v (m, stack)) /\ marked (gc_mark_value h v (m, stack)).1 v /\
    m ⊆ (gc_mark_value h v (m, stack)).1 /\ (forall w, w ∈ stack -> w ∈ (gc_mark_value h v (m, stack)).2)).
  { destruct Hi as [Hm Hs Hc]. destruct (mark_value_inv [v] v (m, stack)) as ([Hm1 Hs1 Hc1] & Hmk & Hrest); [|apply Hs; by left|].
    - split; [exact Hm|intros w Hw; apply Hs; by right|]. intros p j w Hp Hj Hw.
      destruct (Hc p j w Hp Hj Hw) as [[]%elem_of_nil | [[-> | Hst]%elem_of_cons | Hmk]]; [left; by left|right; by left|].
      right; by right.
    - split; [|done]. split; [exact Hm1|exact Hs1|]. intros p j w Hp Hj Hw.
      destruct (Hc1 p j w Hp Hj Hw) as [->%list_elem_of_singleton | Hst]; [right; by right|by right]. }
  destruct Hi' as (Hi1 & Hm1 & Hsub1 & Hst1). destruct (IH _ Hi1 Hl) as (Hi2 & Hsub2 & Hst2).
  split; [done|]. split; [simpl; set_solver|]. intros w [-> | Hw]%elem_of_cons; [by eapply marked_mono|auto].
Qed.
End Marked.

(** C6: Marking finds exactly what is reachable, and ends.  After [gc_collect] the marked
    addresses are those of the values that lead from the roots (the global object, the
    environment and call stacks, the exception and return values, the built-in prototypes and
    methods, the host's references and the live atoms) through prototypes, function parameters,
    property values and array elements, however the objects refer to one another. *)
Theorem gc_marks_exactly_reachable (h : JsHeap) (r : GcRoots) (Hr : reach h) :
  exists marks, gc_collect h r = Some marks /\
    forall p, p ∈ marks <-> exists v, reachable h r v /\ is_ptr W v = true /\ as_ptr W v = p /\ p <> 0.
Proof.
  apply reach_good in Hr as [Hok _]. unfold gc_collect, gc_fuel.
  destruct (gc_loop_total (S (gc_potential h (gc_start h r))) h (gc_start h r)) as [marks Hl]; [lia|].
  exists marks. split; [exact Hl|].
  destruct (mark_values_inv h r Hok (gc_roots h r) (∅, [])) as (Hi & Hroots & _ & _).
  { split; simpl; try set_solver. }
  { intros v Hv. apply reach_root, elem_of_app. by left. }
  assert (Hst : gc_start h r = (let st := fold_left (fun st v => gc_mark_value h v st) (gc_roots h r) (∅, []) in
    (st.1, rev (mark_live h) ++ rev (gcrefs r) ++ st.2))).
  { unfold gc_start, gc_mark_gcref. destruct (fold_left _ _ _) as [m s]. cbv zeta. cbn [fst snd].
    pose proof (fold_push (fun v => v) (gcrefs r) s) as E1. rewrite list_fmap_id in E1. unfold push in E1. unfold push.
    rewrite E1. pose proof (fold_push (fun v => v) (mark_live h) (rev (gcrefs r) ++ s)) as E2.
    rewrite list_fmap_id in E2. unfold push in E2. by rewrite E2. }
  cbv zeta in Hst, Hi, Hroots. set (st0 := fold_left _ _ _) in *.
  assert (Hin : forall w, w ∈ rev (mark_live h) ++ rev (gcrefs r) ++ st0.2 <->
    w ∈ mark_live h \/ w ∈ gcrefs r \/ w ∈ st0.2).
  { intros w. rewrite !elem_of_app, !list_elem_of_In, <- !in_rev. tauto. }
  assert (Hi0 : gc_inv h r [] (gc_start h r)).
  { rewrite Hst. destruct Hi as [Hm Hs Hc]. split; simpl; [exact Hm| |].
    - intros v [Hv | [Hv | Hv]]%Hin; [apply reach_root|apply reach_root|by apply Hs]; rewrite !elem_of_app; auto.
    - intros p j v Hp Hj Hv. destruct (Hc p j v Hp Hj Hv) as [[]%elem_of_nil | [Hv' | Hv']]; [|by right; right].
      right; left. apply Hin. auto. }
  destruct (gc_loop_inv h r Hok _ _ marks Hi0 Hl) as (Hend & Hsub & Hmk).
  rewrite Hst in Hsub, Hmk. simpl in Hsub, Hmk.
  intros p. split; [apply Hend|]. intros (v & Hv & Hptr & <- & Hz).
  assert (Hall : forall w, reachable h r w -> marked marks w).
  { induction 1 as [w Hw | v0 w j _ IH Hp0 Hz0 Hj Hw].
    - rewrite !elem_of_app in Hw. destruct Hw as [Hw | Hw].
      + eapply marked_mono; [exact Hsub|by apply Hroots].
      + apply Hmk, Hin. tauto.
    - destruct IH as [? | [? | Hin0]]; [congruence|done|].
      destruct (gi_closed _ _ _ _ Hend _ j w Hin0 Hj Hw) as [[]%elem_of_nil | [[]%elem_of_nil | Hw']]. exact Hw'. }
  destruct (Hall v Hv) as [? | [? | ?]]; congruence || done.
Qed.

(** The demonstration heap with its object as the global: the object and a string it refers
    to are marked, the array nothing refers to is not. *)
Definition gc_ops : list heap_op :=
  [OpString (b! "kept"); OpSetStr v_obj (b! "s") (from_ptr 4176); OpArray 2].
Definition gc_heap : JsHeap := run gc_ops h_obj.
Definition gc_demo_roots : GcRoots :=
  {| global_object := v_obj; env_stack := []; call_stack := []; last_exception := UNDEFINED W;
     return_value := UNDEFINED W; gcrefs := [] |}.

Lemma gc_marks_exactly_reachable_witness :
  exists marks, gc_collect gc_heap gc_demo_roots = Some marks /\ 4096 ∈ marks /\
    (forall p, p ∈ marks <-> exists v, reachable gc_heap gc_demo_roots v /\ is_ptr W v = true /\ as_ptr W v = p /\ p <> 0).
Proof.
  assert (Hr : reach gc_heap) by (apply run_reach; [apply h_obj_reach|by vm_compute]).
  destruct (gc_marks_exactly_reachable gc_heap gc_demo_roots Hr) as (marks & Hg & Hm).
  exists marks. split; [exact Hg|]. split; [|exact Hm]. clear Hg.
  apply Hm. exists v_obj. split; [apply reach_root; by left|]. by vm_compute.
Defined.

Example gc_ex : option_map base.elements (gc_collect gc_heap gc_demo_roots) = Some [4176; 4192; 4096] /\
  is_Some (cells gc_heap !! 4208).
Proof. split; [vm_compute; reflexivity|vm_compute; eexists; reflexivity]. Qed.
