(* ===== verification/JsSource.v ===== *)
(** * JsSource: source positions

    [set_current_source], [compute_line_col] and [format_stack] of [src/context.rs]: the
    offsets at which lines start are found once, and a position is a binary search among
    them.  Offsets are bytes. *)
From S2P Require Import Prelude IntCodec.
From Stdlib Require Import Sorted.

Record Source := {
  current_filename : bytes;
  current_source : bytes;
  current_line_starts : list Z;
  current_error_offset : option Z;
  current_stmt_offset : Z
}.

(** ** Operations *)

(** The loop over the bytes; [n] is [source.len()]. *)
Fixpoint line_start_loop (i n : Z) (source : bytes) : list Z :=
  match source with
  | [] => []
  | b :: rest =>
      if (b =? LF) && (i + 1 <? n) then (i + 1) :: line_start_loop (i + 1) n rest
      else line_start_loop (i + 1) n rest
  end.

Definition set_current_source (filename source : bytes) : Source :=
  {| current_filename := filename; current_source := source;
     current_line_starts := 0 :: line_start_loop 0 (Z.of_nat (length source)) source;
     current_error_offset := None; current_stmt_offset := 0 |}.

Definition filename_or_eval (s : Source) : bytes :=
  match current_filename s with [] => b! "<eval>" | f => f end.

Definition set_error_offset (off : Z) (s : Source) : Source :=
  {| current_filename := current_filename s; current_source := current_source s;
     current_line_starts := current_line_starts s; current_error_offset := Some off;
     current_stmt_offset := current_stmt_offset s |}.
Definition clear_error_offset (s : Source) : Source :=
  {| current_filename := current_filename s; current_source := current_source s;
     current_line_starts := current_line_starts s; current_error_offset := None;
     current_stmt_offset := current_stmt_offset s |}.
Definition set_current_stmt_offset (off : Z) (s : Source) : Source :=
  {| current_filename := current_filename s; current_source := current_source s;
     current_line_starts := current_line_starts s; current_error_offset := current_error_offset s;
     current_stmt_offset := off |}.

(** [while lo < hi { .. }]: the first line start past [end]; the fuel is the width. *)
Fixpoint line_search (fuel : nat) (starts : list Z) (end_ : Z) (lo hi : nat) : nat :=
  match fuel with
  | O => lo
  | S fuel' =>
      if (lo <? hi)%nat then
        let mid := Nat.div2 (lo + hi) in
        if default 0 (starts !! mid) <=? end_ then line_search fuel' starts end_ (S mid) hi
        else line_search fuel' starts end_ lo mid
      else lo
  end.

Definition compute_line_col (s : Source) (offset : Z) : Z * Z :=
  let end_ := Z.min offset (Z.of_nat (length (current_source s))) in
  match current_line_starts s with
  | [] => (1, end_ + 1)
  | starts =>
      let lo := line_search (S (length starts)) starts end_ 0 (length starts) in
      let line_idx := (lo - 1)%nat in
      let line_start := default 0 (starts !! line_idx) in
      (Z.of_nat line_idx + 1, Z.max 0 (end_ - line_start) + 1)
  end.

Definition format_stack (s : Source) : option bytes :=
  match current_error_offset s with
  | None => None
  | Some offset =>
      let '(line, col) := compute_line_col s offset in
      let at_ := b! "at " ++ filename_or_eval s ++ b! ":" ++ int_to_string line ++ b! ":" ++ int_to_string col in
      Some (at_ ++ [LF] ++ at_)
  end.

(** ** Reference: a cursor walking the text *)

Fixpoint cursor (l : bytes) (line col : Z) : Z * Z :=
  match l with
  | [] => (line, col)
  | b :: l' => if b =? LF then cursor l' (line + 1) 1 else cursor l' line (col + 1)
  end.

(** A newline that ends the text starts no line: the position after it is still on its line. *)
Definition line_col_ref (source : bytes) (offset : Z) : Z * Z :=
  let end_ := Z.min offset (Z.of_nat (length source)) in
  let inner := Z.min end_ (Z.of_nat (length source) - 1) in
  let '(line, col) := cursor (take (Z.to_nat inner) source) 1 1 in
  (line, col + (end_ - Z.max 0 inner)).

(** ** The starts of the lines of a prefix *)

Fixpoint newline_starts (i : Z) (l : bytes) : list Z :=
  match l with
  | [] => []
  | b :: l' => if b =? LF then (i + 1) :: newline_starts (i + 1) l' else newline_starts (i + 1) l'
  end.

Lemma newline_starts_range (i : Z) (l : bytes) :
  Forall (fun s => i < s <= i + Z.of_nat (length l)) (newline_starts i l).
Proof.
  revert i. induction l as [|b l IH]; intros i; simpl; [constructor|].
  assert (Hr : Forall (fun s => i < s <= i + Z.of_nat (S (length l))) (newline_starts (i + 1) l))
    by (eapply Forall_impl; [apply IH|]; simpl; lia).
  destruct (b =? LF); [constructor; [lia|done]|done].
Qed.

Lemma newline_starts_sorted (i : Z) (l : bytes) : StronglySorted Z.lt (newline_starts i l).
Proof.
  revert i. induction l as [|b l IH]; intros i; simpl; [constructor|].
  destruct (b =? LF); [|apply IH]. constructor; [apply IH|].
  eapply Forall_impl; [apply newline_starts_range|]. simpl. lia.
Qed.

(** The text's lines up to [m] are the prefix's lines. *)
Lemma line_starts_prefix (i n m : Z) (l : bytes) :
  filter (fun s => s <= i + m) (line_start_loop i n l) =
    newline_starts i (take (Z.to_nat (Z.min m (n - 1 - i))) l).
Proof.
  revert i m. induction l as [|b l IH]; intros i m; simpl; [by rewrite take_nil|].
  destruct (decide (0 < Z.min m (n - 1 - i))) as [Hpos | Hneg].
  - replace (Z.to_nat (Z.min m (n - 1 - i))) with (S (Z.to_nat (Z.min (m - 1) (n - 1 - (i + 1))))) by lia.
    simpl. specialize (IH (i + 1) (m - 1)). replace (i + 1 + (m - 1)) with (i + m) in IH by lia.
    destruct (b =? LF); simpl; [|exact IH]. destruct (Z.ltb_spec (i + 1) n); [|lia].
    rewrite filter_cons, decide_True by lia. by rewrite IH.
  - replace (Z.to_nat (Z.min m (n - 1 - i))) with O by lia. simpl.
    assert (Hnone : filter (fun s => s <= i + m) (line_start_loop (i + 1) n l) = []).
    { specialize (IH (i + 1) (m - 1)). replace (i + 1 + (m - 1)) with (i + m) in IH by lia.
      rewrite IH. by replace (Z.to_nat (Z.min (m - 1) (n - 1 - (i + 1)))) with O by lia. }
    destruct ((b =? LF) && (i + 1 <? n)) eqn:E; [|done].
    apply andb_true_iff in E as [_ E%Z.ltb_lt]. rewrite filter_cons, decide_False by lia. done.
Qed.

(** The cursor, from the line starts of what it walked. *)
Lemma cursor_starts (i : Z) (l : bytes) (line col : Z) :
  cursor l line col =
    (line + Z.of_nat (length (newline_starts i l)),
     match last (newline_starts i l) with
     | Some s => i + Z.of_nat (length l) - s + 1
     | None => col + Z.of_nat (length l)
     end).
Proof.
  revert i line col. induction l as [|b l IH]; intros i line col; simpl; [f_equal; lia|].
  destruct (b =? LF); rewrite (IH (i + 1)).
  - simpl. rewrite last_cons. destruct (last (newline_starts (i + 1) l)); f_equal; lia.
  - destruct (last (newline_starts (i + 1) l)); f_equal; lia.
Qed.

(** ** The binary search *)

Lemma sorted_cut (l : list Z) (e : Z) : StronglySorted Z.lt l ->
  let k := length (filter (fun s => s <= e) l) in
  filter (fun s => s <= e) l = take k l /\ forall i x, l !! i = Some x -> (x <= e <-> (i < k)%nat).
Proof.
  induction 1 as [|s l Hs IH Hall]; simpl; [split; [done|]; intros i x; by rewrite lookup_nil|].
  rewrite filter_cons. destruct (decide (s <= e)) as [Hle | Hgt].
  - simpl. destruct IH as [Heq Hi]. split; [by f_equal|]. intros [|i] x; simpl; [intros [= <-]; lia|].
    intros Hx. rewrite (Hi i x Hx). lia.
  - assert (Hnone : filter (fun s => s <= e) l = []).
    { destruct (filter (fun s => s <= e) l) as [|y ys] eqn:E; [done|].
      assert (Hy : y ∈ filter (fun s => s <= e) l) by (rewrite E; by left).
      apply list_elem_of_filter in Hy as [Hye Hyl]. rewrite Forall_forall in Hall. specialize (Hall y Hyl). lia. }
    rewrite Hnone. simpl. split; [done|]. intros i x Hx. split; [|lia]. intros Hxe. exfalso.
    destruct i as [|i]; simpl in Hx; [injection Hx as <-; lia|]. apply list_elem_of_lookup_2 in Hx.
    rewrite Forall_forall in Hall. specialize (Hall x Hx). lia.
Qed.

Lemma line_search_cut (fuel : nat) (starts : list Z) (e : Z) (k lo hi : nat) :
  (forall i x, starts !! i = Some x -> (x <= e <-> (i < k)%nat)) ->
  (lo <= k <= hi)%nat -> (hi <= length starts)%nat -> (hi - lo < fuel)%nat ->
  line_search fuel starts e lo hi = k.
Proof.
  intros Hk. revert lo hi. induction fuel as [|fuel IH]; intros lo hi Hb Hhi Hf; [lia|]. simpl.
  destruct (Nat.ltb_spec lo hi) as [Hlt | Hge]; [|lia].
  set (mid := Nat.div2 (lo + hi)).
  assert (Hmid : (lo <= mid < hi)%nat).
  { unfold mid. rewrite Nat.div2_div. split; [apply Nat.div_le_lower_bound|apply Nat.div_lt_upper_bound]; lia. }
  destruct (lookup_lt_is_Some_2 starts mid) as [x Hx]; [lia|]. rewrite Hx. simpl.
  pose proof (Hk mid x Hx) as Hc. destruct (Z.leb_spec x e).
  - apply IH; lia.
  - apply IH; lia.
Qed.

(** Error positions are where a reader would put them: for any text and any offset,
    [compute_line_col] is the line and column of a cursor that walks the text from the start,
    one line per newline, clamped to the text's end; a newline that ends the text starts no
    line of its own. *)
Theorem line_col_correct (filename source : bytes) (offset : Z) (Ho : 0 <= offset) :
  compute_line_col (set_current_source filename source) offset = line_col_ref source offset.
Proof.
  unfold compute_line_col, set_current_source, line_col_ref. cbn [current_source current_line_starts].
  set (n := Z.of_nat (length source)). set (e := Z.min offset n).
  set (starts := 0 :: line_start_loop 0 n source).
  pose proof (line_starts_prefix 0 n e source) as Hpre. rewrite Z.add_0_l, Z.sub_0_r in Hpre.
  set (inner := Z.min e (n - 1)) in *. set (p := take (Z.to_nat inner) source) in *.
  assert (Hsorted : StronglySorted Z.lt starts).
  { unfold starts. clear. assert (H : forall i m l, StronglySorted Z.lt (line_start_loop i m l) /\
      Forall (fun s => i < s) (line_start_loop i m l)).
    { intros i m l. revert i. induction l as [|b l IH]; intros i; simpl; [repeat constructor|].
      destruct (IH (i + 1)) as [Hs Hf].
      assert (Hf' : Forall (fun s => i < s) (line_start_loop (i + 1) m l)) by (eapply Forall_impl; [exact Hf|]; simpl; lia).
      destruct (_ && _); [|done]. split; [by constructor|]. constructor; [lia|done]. }
    destruct (H 0 n source). by constructor. }
  destruct (sorted_cut starts e Hsorted) as [Hcut Hk].
  assert (Hfil : filter (fun s => s <= e) starts = 0 :: newline_starts 0 p).
  { unfold starts. rewrite filter_cons, decide_True by lia. by rewrite Hpre. }
  rewrite Hfil in Hcut, Hk. cbn [length] in Hcut, Hk. set (c := length (newline_starts 0 p)) in *.
  assert (Hlen : (S c <= length starts)%nat).
  { apply (f_equal length) in Hcut. rewrite length_take in Hcut. cbn [length] in Hcut. fold c in Hcut. lia. }
  rewrite (line_search_cut _ starts e (S c) 0 (length starts)) by (done || lia).
  change (S c - 1)%nat with (c - 0)%nat. rewrite Nat.sub_0_r.
  assert (Hst : starts !! c = last (0 :: newline_starts 0 p)).
  { rewrite last_lookup. cbn [length]. fold c. simpl pred. rewrite Hcut. by rewrite lookup_take_lt by lia. }
  rewrite Hst, (cursor_starts 0 p), last_cons.
  assert (Hbnd : 0 <= e /\ inner <= e /\ inner <= n - 1) by (unfold inner, e, n; lia).
  assert (Hp : Z.of_nat (length p) = Z.max 0 inner) by (unfold p; rewrite length_take; unfold n in *; lia).
  pose proof (newline_starts_range 0 p) as Hr. rewrite Forall_forall in Hr.
  destruct (last (newline_starts 0 p)) as [s|] eqn:El; simpl.
  - apply last_Some_elem_of in El. specialize (Hr s El). fold c. f_equal; lia.
  - fold c. f_equal; lia.
Qed.

Lemma line_col_correct_witness :
  compute_line_col (set_current_source (b! "f.js") ([97; LF; 98; 99; LF])) 3 = (2, 2).
Proof. rewrite line_col_correct by lia. by vm_compute. Defined.
