(* ===== verification/JsScope.v ===== *)
(** * JsScope: variable resolution, call frames and the small state of a context

    [resolve_binding] of [src/context.rs] first asks the top call frame's slot map, then
    walks the environment objects along [__parent__] up to the global object.  Every test and
    read of a property interns its name, so the walk passes the heap along. *)
From S2P Require Import Prelude JsValue JsMem JsProps JsArray JsAtom JsObject JsInv JsObjectSpec JsHeapSpec.

(** ** The state *)

Inductive LoopControl :=
  | LCNone
  | LCBreak
  | LCContinue
  | LCReturn
  | LCBreakLabel (label : bytes)
  | LCContinueLabel (label : bytes).

Record CallFrame := { slot_map : gmap bytes Value; var_env : Value }.

(** The fields of [Context] scripts read and write besides the heap. *)
Record Scope := {
  global_object : Value;
  env_stack : list Value;       (* the last pushed first *)
  call_frames : list CallFrame; (* the last pushed first *)
  call_stack : list Value;
  stack_limit : Z;
  last_exception : Value;
  return_value : Value;
  loop_control : LoopControl
}.

(** [Context::new]: an empty global object, when the region has room for one. *)
Definition context_new (st sz : Z) : Scope * JsHeap :=
  let '(g, h) := new_object CLASS_OBJECT (empty_heap st sz) in
  ({| global_object := default (UNDEFINED W) g; env_stack := []; call_frames := []; call_stack := [];
      stack_limit := 1024; last_exception := UNDEFINED W; return_value := UNDEFINED W;
      loop_control := LCNone |}, h).

(** *** The argument stack *)

Definition with_call_stack (l : list Value) (s : Scope) : Scope :=
  {| global_object := global_object s; env_stack := env_stack s; call_frames := call_frames s;
     call_stack := l; stack_limit := stack_limit s; last_exception := last_exception s;
     return_value := return_value s; loop_control := loop_control s |}.
Definition push_arg (v : Value) (s : Scope) : Scope := with_call_stack (call_stack s ++ [v]) s.
Definition stack_check (s : Scope) (len : Z) : Z :=
  if Z.of_nat (length (call_stack s)) + len <=? stack_limit s then 0 else 1.
(** [call] pops the arguments, the function and [this], and answers an exception either way. *)
Definition call (call_flags : Z) (s : Scope) : Value * Scope :=
  let argc := Z.land call_flags 65535 in
  let need := Z.to_nat (argc + 2) in
  if (length (call_stack s) <? need)%nat then (EXCEPTION W, s)
  else (EXCEPTION W, with_call_stack (take (length (call_stack s) - need) (call_stack s)) s).
Definition call_stack_truncate (len : nat) (s : Scope) : Scope :=
  with_call_stack (take len (call_stack s)) s.

(** *** Environments and frames *)

Definition current_env (s : Scope) : Value :=
  match env_stack s with env :: _ => env | [] => global_object s end.
Definition with_env_stack (l : list Value) (s : Scope) : Scope :=
  {| global_object := global_object s; env_stack := l; call_frames := call_frames s;
     call_stack := call_stack s; stack_limit := stack_limit s; last_exception := last_exception s;
     return_value := return_value s; loop_control := loop_control s |}.
Definition push_env (env : Value) (s : Scope) : Scope := with_env_stack (env :: env_stack s) s.
Definition pop_env (s : Scope) : Scope := with_env_stack (tail (env_stack s)) s.

Definition with_frames (l : list CallFrame) (s : Scope) : Scope :=
  {| global_object := global_object s; env_stack := env_stack s; call_frames := l;
     call_stack := call_stack s; stack_limit := stack_limit s; last_exception := last_exception s;
     return_value := return_value s; loop_control := loop_control s |}.
Definition push_call_frame (f : CallFrame) (s : Scope) : Scope := with_frames (f :: call_frames s) s.
Definition pop_call_frame (s : Scope) : Scope := with_frames (tail (call_frames s)) s.

(** The innermost frame of the environment is updated; closures reach outer frames. *)
Fixpoint update_frames (env : Value) (name : bytes) (v : Value) (fs : list CallFrame) : list CallFrame :=
  match fs with
  | [] => []
  | f :: fs' =>
      if env =? var_env f then {| slot_map := <[name := v]> (slot_map f); var_env := var_env f |} :: fs'
      else f :: update_frames env name v fs'
  end.
Definition update_call_frame_slot (env : Value) (name : bytes) (v : Value) (s : Scope) : Scope :=
  with_frames (update_frames env name v (call_frames s)) s.

(** *** Loop control, exceptions and the return value *)

Definition set_loop_control (c : LoopControl) (s : Scope) : Scope :=
  {| global_object := global_object s; env_stack := env_stack s; call_frames := call_frames s;
     call_stack := call_stack s; stack_limit := stack_limit s; last_exception := last_exception s;
     return_value := return_value s; loop_control := c |}.
Definition is_break_label (s : Scope) (label : bytes) : bool :=
  match loop_control s with LCBreakLabel l => bool_decide (l = label) | _ => false end.
Definition is_continue_label (s : Scope) (label : bytes) : bool :=
  match loop_control s with LCContinueLabel l => bool_decide (l = label) | _ => false end.
Definition set_return_value (v : Value) (s : Scope) : Scope :=
  {| global_object := global_object s; env_stack := env_stack s; call_frames := call_frames s;
     call_stack := call_stack s; stack_limit := stack_limit s; last_exception := last_exception s;
     return_value := v; loop_control := loop_control s |}.
Definition set_exception (v : Value) (s : Scope) : Scope :=
  {| global_object := global_object s; env_stack := env_stack s; call_frames := call_frames s;
     call_stack := call_stack s; stack_limit := stack_limit s; last_exception := v;
     return_value := return_value s; loop_control := loop_control s |}.

(** *** The single-entry script cache *)

Record ScriptCache := { script_cache_hash : Z; script_cache_stmts : list bytes }.
Definition get_script_cache (c : ScriptCache) (hash : Z) : option (list bytes) :=
  if (script_cache_hash c =? hash) && negb (bool_decide (script_cache_stmts c = []))
  then Some (script_cache_stmts c) else None.
Definition set_script_cache (hash : Z) (stmts : list bytes) : ScriptCache :=
  {| script_cache_hash := hash; script_cache_stmts := stmts |}.

(** ** Resolution *)

Definition s_parent : bytes := b! "__parent__".
Definition s_var_env : bytes := b! "__var_env__".

Definition or_undefined (r : option Value) : Value := default (UNDEFINED W) r.

(** The environment walk: [Some] when it ends, with the binding found if any. *)
Fixpoint env_loop (fuel : nat) (global env : Value) (name : bytes) (h : JsHeap)
    : option (option (Value * Value) * JsHeap) :=
  match fuel with
  | O => None
  | S fuel' =>
      let '(b, h) := has_property_str env name h in
      if b then
        let '(r, h) := get_property_str env name h in
        Some (Some (env, or_undefined r), h)
      else if env =? global then Some (None, h)
      else
        let '(r, h) := get_property_str env s_parent h in
        let parent := or_undefined r in
        if is_undefined W parent then Some (None, h) else env_loop fuel' global parent name h
  end.

Definition resolve_binding (fuel : nat) (name : bytes) (s : Scope) (h : JsHeap)
    : option (option (Value * Value) * JsHeap) :=
  match (match call_frames s with
         | f :: _ => (fun v => (var_env f, v)) <$> slot_map f !! name
         | [] => None
         end) with
  | Some r => Some (Some r, h)
  | None =>
      match env_loop fuel (global_object s) (current_env s) name h with
      | None => None
      | Some (Some r, h) => Some (Some r, h)
      | Some (None, h) =>
          let '(b, h) := has_property_str (global_object s) name h in
          if b then
            let '(r, h) := get_property_str (global_object s) name h in
            Some (Some (global_object s, or_undefined r), h)
          else Some (None, h)
      end
  end.

Definition resolve_binding_env (fuel : nat) (name : bytes) (s : Scope) (h : JsHeap) : option (option Value * JsHeap) :=
  match resolve_binding fuel name s h with Some (r, h) => Some (fst <$> r, h) | None => None end.
Definition resolve_binding_value (fuel : nat) (name : bytes) (s : Scope) (h : JsHeap) : option (Value * JsHeap) :=
  match resolve_binding fuel name s h with Some (r, h) => Some (or_undefined (snd <$> r), h) | None => None end.

Fixpoint var_env_loop (fuel : nat) (global env : Value) (h : JsHeap) : option (Value * JsHeap) :=
  match fuel with
  | O => None
  | S fuel' =>
      let '(b, h) := has_property_str env s_var_env h in
      if b then Some (env, h)
      else
        let '(r, h) := get_property_str env s_parent h in
        let parent := or_undefined r in
        if is_undefined W parent then Some (global, h) else var_env_loop fuel' global parent h
  end.
Definition current_var_env (fuel : nat) (s : Scope) (h : JsHeap) : option (Value * JsHeap) :=
  var_env_loop fuel (global_object s) (current_env s) h.

(** ** The walk on the view *)

Fixpoint proto_has (n : nat) (h : JsHeap) (cur : Value) (own : JObject -> option Value) : bool :=
  match n with
  | O => false
  | S n' =>
      match object_ptr h cur ≫= obj_view h with
      | None => false
      | Some j =>
          match own j with
          | Some _ => true
          | None => if proto_end (j_proto j) then false else proto_has n' h (j_proto j) own
          end
      end
  end.

Definition own_atom (atom : Z) (j : JObject) : option Value := table_get (j_props j) (PROP_KEY_ATOM, atom).

(** A name's binding in an environment object, by its atom. *)
Definition binds (h : JsHeap) (atom : Z) (env : Value) : bool := proto_has PROTO_SEARCH_LIMIT h env (own_atom atom).
Definition bound (h : JsHeap) (atom : Z) (env : Value) : Value :=
  or_undefined (proto_walk PROTO_SEARCH_LIMIT h env (own_atom atom)).

(** A plain name: no index, not [length]; and the atom it has in [h]. *)
Record named (h : JsHeap) (name : bytes) (atom : Z) : Prop := {
  nm_plain : parse_index name = None;
  nm_length : bytes_eqb name s_length = false;
  nm_range : 0 <= atom < 2 ^ 32;
  nm_bytes : atom_bytes h atom = Some name
}.

Lemma named_same (h h' : JsHeap) (name : bytes) (atom : Z) :
  heap_same_ok h h' -> named h name atom -> named h' name atom.
Proof. intros Hs [? ? ? ?]. split; try done. apply (sa_names _ _ Hs); [lia|done]. Qed.

Lemma proto_walk_same (n : nat) (h h' : JsHeap) (cur : Value) (own : JObject -> option Value) :
  heap_ok h -> heap_same_ok h h' -> proto_walk n h' cur own = proto_walk n h cur own.
Proof.
  intros Hok Hs. revert cur. induction n as [|n IH]; intros cur; [done|]. simpl.
  rewrite (heap_same_ptr h h' cur Hok Hs). destruct (object_ptr h cur) as [a|]; [|done]. simpl.
  rewrite (sa_view _ _ Hs). destruct (obj_view h a) as [j|]; [|done]. by rewrite IH.
Qed.

Lemma proto_has_same (n : nat) (h h' : JsHeap) (cur : Value) (own : JObject -> option Value) :
  heap_ok h -> heap_same_ok h h' -> proto_has n h' cur own = proto_has n h cur own.
Proof.
  intros Hok Hs. revert cur. induction n as [|n IH]; intros cur; [done|]. simpl.
  rewrite (heap_same_ptr h h' cur Hok Hs). destruct (object_ptr h cur) as [a|]; [|done]. simpl.
  rewrite (sa_view _ _ Hs). destruct (obj_view h a) as [j|]; [|done]. by rewrite IH.
Qed.

Lemma has_atom_walk (h : JsHeap) (name : bytes) (atom : Z) (n : nat) (cur : Value) :
  good h -> bytes_eqb name s_length = false -> 0 <= atom < 2 ^ 32 ->
  has_atom_loop n h cur atom name = proto_has n h cur (own_atom atom).
Proof.
  intros [Hok Hm] Hlen Hat. revert cur. induction n as [|n IH]; intros cur; [done|]. simpl.
  destruct (object_ptr h cur) as [a|] eqn:Hp; [|done]. simpl.
  destruct (object_ptr_view_obj h cur a Hp) as (o & Ha & Hv & Ho). rewrite Hv, Hlen, andb_false_r.
  rewrite (find_prop_value_view h a _ _ _ Hok Hm Hv (atom_key_ok atom Hat)), Ho. unfold own_atom at 1.
  destruct (table_get _ _); [done|]. change (j_proto (view_of h a o)) with (proto o). by rewrite IH.
Qed.

Section Known.
Context (h : JsHeap) (name : bytes) (atom : Z).
Context (Hg : good h) (Hn : named h name atom).

Lemma intern_known : exists h', intern_string name h = (Some atom, h') /\ heap_same_ok h h'.
Proof.
  pose proof (intern_ok name h (proj1 Hg)) as Hi. destruct (intern_string name h) as [[atom'|] h'].
  - destruct Hi as (Hs & Hr & Hb & _). exists h'. split; [|done].
    assert (atom' = atom) as ->; [|done]. pose proof (sa_ok _ _ Hs) as Hok'. pose proof (nm_range _ _ _ Hn).
    apply (atom_bytes_inj h' atom' atom name); [apply Hok'|apply Hok'|lia|lia|done|].
    by apply (nm_bytes _ _ _ (named_same h h' name atom Hs Hn)).
  - destruct Hi as [_ Hi]. by destruct (Hi atom), Hn.
Qed.

Lemma has_known (env : Value) : exists h', has_property_str env name h = (binds h atom env, h') /\ heap_same_ok h h'.
Proof.
  destruct intern_known as (h' & Hi & Hs). exists h'. split; [|done].
  unfold has_property_str. rewrite (nm_length _ _ _ Hn), (nm_plain _ _ _ Hn), Hi. f_equal.
  rewrite (has_atom_walk h') by (done || apply Hn || by eapply safe_good, safe_same).
  apply proto_has_same; [apply Hg|done].
Qed.

Lemma get_known (env : Value) : exists r h', get_property_str env name h = (r, h') /\ heap_same_ok h h' /\
  or_undefined r = bound h atom env.
Proof.
  destruct intern_known as (h' & Hi & Hs). unfold get_property_str.
  rewrite (nm_length _ _ _ Hn), (nm_plain _ _ _ Hn), Hi. eexists. exists h'. split; [done|]. split; [done|].
  destruct (safe_good _ _ (safe_same _ _ Hg Hs)) as [Hok' Hm'].
  unfold get_property_atom. rewrite (get_atom_walk h' Hok' Hm' name atom (nm_range _ _ _ Hn)).
  unfold bound. rewrite <- (proto_walk_same _ h h') by (done || apply Hg). f_equal.
  assert (Hown : forall n cur, proto_walk n h' cur (fun j => js_own j (atom_key name atom j)) =
    proto_walk n h' cur (own_atom atom)).
  { induction n as [|n IH]; intros cur; [done|]. simpl. destruct (object_ptr h' cur ≫= obj_view h') as [j|]; [|done].
    unfold atom_key at 1. rewrite (nm_length _ _ _ Hn), andb_false_r. simpl. unfold own_atom at 1.
    destruct (table_get _ _); [done|]. by rewrite IH. }
  apply Hown.
Qed.
End Known.

(** The environments from [env] outwards: it ends at the global object or where [__parent__]
    is missing. *)
Inductive scopes (h : JsHeap) (parent : Z) (global : Value) : Value -> list Value -> Prop :=
  | sc_last (env : Value) :
      env = global \/ is_undefined W (bound h parent env) = true -> scopes h parent global env [env]
  | sc_out (env : Value) (l : list Value) :
      env <> global -> is_undefined W (bound h parent env) = false ->
      scopes h parent global (bound h parent env) l -> scopes h parent global env (env :: l).

Lemma bound_same (h h' : JsHeap) (atom : Z) (env : Value) :
  heap_ok h -> heap_same_ok h h' -> bound h' atom env = bound h atom env /\ binds h' atom env = binds h atom env.
Proof. intros Hok Hs. unfold bound, binds. by rewrite (proto_walk_same _ h h'), (proto_has_same _ h h'). Qed.

Lemma heap_same_trans (h1 h2 h3 : JsHeap) : heap_same_ok h1 h2 -> heap_same_ok h2 h3 -> heap_same_ok h1 h3.
Proof.
  intros S1 S2. split.
  - apply S2.
  - intros Hm. by apply (sa_maps _ _ S2), (sa_maps _ _ S1).
  - intros b. by rewrite (sa_view _ _ S2), (sa_view _ _ S1).
  - eapply names_kept_trans; [apply S1|apply S2].
Qed.

Section Resolve.
Context (h0 : JsHeap) (name : bytes) (atom parent : Z) (global : Value).
Context (Hg0 : good h0) (Hn : named h0 name atom) (Hpar : named h0 s_parent parent).

(** The first environment of the chain that has the name. *)
Definition innermost (l : list Value) : option (Value * Value) :=
  match filter (fun e => binds h0 atom e = true) l with
  | e :: _ => Some (e, bound h0 atom e)
  | [] => None
  end.

Lemma env_loop_scopes (l : list Value) (env : Value) (fuel : nat) (h : JsHeap) :
  scopes h0 parent global env l -> heap_same_ok h0 h -> (length l <= fuel)%nat ->
  exists h', env_loop fuel global env name h = Some (innermost l, h') /\ heap_same_ok h0 h'.
Proof.
  intros Hsc. revert fuel h. 
  assert (Hstep : forall h e, heap_same_ok h0 h -> exists h1, has_property_str e name h = (binds h0 atom e, h1) /\ heap_same_ok h0 h1).
  { intros h e Hs. destruct (has_known h name atom (safe_good _ _ (safe_same _ _ Hg0 Hs)) (named_same _ _ _ _ Hs Hn) e) as (h1 & E & Hs1).
    exists h1. rewrite E, (proj2 (bound_same h0 h atom e (proj1 Hg0) Hs)). split; [reflexivity|exact (heap_same_trans _ _ _ Hs Hs1)]. }
  assert (Hget : forall h e nm at_, named h0 nm at_ -> heap_same_ok h0 h ->
    exists r h1, get_property_str e nm h = (r, h1) /\ heap_same_ok h0 h1 /\ or_undefined r = bound h0 at_ e).
  { intros h e nm at_ Hnm Hs. destruct (get_known h nm at_ (safe_good _ _ (safe_same _ _ Hg0 Hs)) (named_same _ _ _ _ Hs Hnm) e) as (r & h1 & E & Hs1 & Hr).
    exists r, h1. rewrite (proj1 (bound_same h0 h at_ e (proj1 Hg0) Hs)) in Hr. split; [exact E|]. split; [exact (heap_same_trans _ _ _ Hs Hs1)|exact Hr]. }
  induction Hsc as [env Hend | env l Hne Hund _ IH]; intros [|fuel] h Hs Hf; simpl in Hf; try lia;
    cbn [env_loop]; unfold innermost; rewrite filter_cons;
    destruct (Hstep h env Hs) as (h1 & E1 & Hs1); rewrite E1; destruct (binds h0 atom env) eqn:Eb.
  1,3: rewrite decide_True by reflexivity; destruct (Hget h1 env name atom Hn Hs1) as (r & h2 & E2 & Hs2 & Hr);
    rewrite E2, Hr; exists h2; split; [reflexivity|exact Hs2].
  - rewrite decide_False by discriminate. destruct (Z.eqb_spec env global); [exists h1; split; [reflexivity|exact Hs1]|].
    destruct Hend as [|Hund]; [contradiction|].
    destruct (Hget h1 env s_parent parent Hpar Hs1) as (r & h2 & E2 & Hs2 & Hr). rewrite E2, Hr, Hund. exists h2; split; [reflexivity|exact Hs2].
  - rewrite decide_False by discriminate. destruct (Z.eqb_spec env global); [contradiction|].
    destruct (Hget h1 env s_parent parent Hpar Hs1) as (r & h2 & E2 & Hs2 & Hr). rewrite E2, Hr, Hund.
    apply IH; [exact Hs2|lia].
Qed.
End Resolve.

(** C25: Variable resolution is lexical when no call frame caches the name, in every heap that is
    reached without the two steps that leave an overflow map wrong (C5; after them a name can be
    missed), and for a name that is neither an index nor [length]: along the finite
    chain of environments from the current one, [resolve_binding] gives the innermost
    environment that has the name, with its value, then the global object's, then nothing; it
    ends within the length of the chain and changes nothing a program can see.  (The name and
    [__parent__] already have atoms, so the walk needs no memory.) *)
Theorem resolution_is_lexical (h : JsHeap) (s : Scope) (name : bytes) (atom parent : Z) (l : list Value) (fuel : nat)
    (Hr : reach h) (Hn : named h name atom) (Hpar : named h s_parent parent)
    (Hsc : scopes h parent (global_object s) (current_env s) l) (Hf : (length l <= fuel)%nat)
    (Hslot : match call_frames s with f :: _ => slot_map f !! name = None | [] => True end) :
  exists h', resolve_binding fuel name s h =
    Some (match filter (fun e => binds h atom e = true) (l ++ [global_object s]) with
          | e :: _ => Some (e, bound h atom e)
          | [] => None
          end, h') /\
    forall a, obj_view h' a = obj_view h a.
Proof.
  apply reach_good in Hr as Hg. unfold resolve_binding.
  assert (Hno : (match call_frames s with
         | f :: _ => (fun v => (var_env f, v)) <$> slot_map f !! name
         | [] => None end) = None) by (destruct (call_frames s) as [|f fs]; [reflexivity|rewrite Hslot; reflexivity]).
  rewrite Hno.
  destruct (env_loop_scopes h name atom parent (global_object s) Hg Hn Hpar l _ fuel h Hsc (heap_same_refl h (proj1 Hg)) Hf)
    as (h1 & E & Hs1). rewrite E. unfold innermost. rewrite filter_app.
  destruct (filter _ l) as [|e es]; [|exists h1; split; [reflexivity|apply Hs1]]. cbn [app].
  destruct (has_known h1 name atom (safe_good _ _ (safe_same _ _ Hg Hs1)) (named_same _ _ _ _ Hs1 Hn) (global_object s))
    as (h2 & E2 & Hs2). rewrite E2, (proj2 (bound_same h h1 atom (global_object s) (proj1 Hg) Hs1)).
  rewrite filter_cons. pose proof (heap_same_trans _ _ _ Hs1 Hs2) as Hs12.
  destruct (binds h atom (global_object s)) eqn:Eb.
  - rewrite decide_True by reflexivity.
    destruct (get_known h2 name atom (safe_good _ _ (safe_same _ _ Hg Hs12)) (named_same _ _ _ _ Hs12 Hn) (global_object s))
      as (r & h3 & E3 & Hs3 & Hr3). rewrite E3, Hr3, (proj1 (bound_same h h2 atom _ (proj1 Hg) Hs12)).
    exists h3. split; [reflexivity|]. apply (heap_same_trans _ _ _ Hs12 Hs3).
  - rewrite decide_False by discriminate. exists h2. split; [reflexivity|]. apply Hs12.
Qed.

(** Two nested environments: a block's, inside the global object that has [x]. *)
Definition v_block : Value := from_ptr (4096 + SIZE_OBJECT).
Definition scope_ops : list heap_op :=
  [OpObject CLASS_OBJECT; OpSetStr v_block s_parent v_obj; OpSetStr v_obj (b! "x") (num 1);
   OpSetStr v_block (b! "y") (num 2)].
Definition h_scope : JsHeap := run scope_ops h_obj.
Definition s_scope : Scope :=
  {| global_object := v_obj; env_stack := [v_block]; call_frames := []; call_stack := []; stack_limit := 1024;
     last_exception := UNDEFINED W; return_value := UNDEFINED W; loop_control := LCNone |}.

Lemma h_scope_reach : reach h_scope.
Proof. apply run_reach; [apply h_obj_reach|by vm_compute]. Qed.

Lemma named_check (h : JsHeap) (name : bytes) (atom : Z) :
  (match parse_index name with None => true | Some _ => false end) = true -> bytes_eqb name s_length = false ->
  (0 <=? atom) && (atom <? 2 ^ 32) = true -> atom_bytes h atom = Some name -> named h name atom.
Proof.
  intros Hp Hl [?%Z.leb_le ?%Z.ltb_lt]%andb_true_iff Hb.
  split; [by destruct (parse_index name)|done|lia|done].
Qed.

Lemma h_scope_chain : scopes h_scope 1 v_obj v_block [v_block; v_obj].
Proof.
  assert (E : bound h_scope 1 v_block = v_obj) by (vm_compute; reflexivity).
  apply sc_out; [vm_compute; discriminate|rewrite E; vm_compute; reflexivity|].
  rewrite E. apply sc_last. left. reflexivity.
Qed.

Lemma resolution_is_lexical_witness :
  exists h', resolve_binding 2 (b! "x") s_scope h_scope = Some (Some (v_obj, num 1), h') /\
    forall a, obj_view h' a = obj_view h_scope a.
Proof.
  destruct (resolution_is_lexical h_scope s_scope (b! "x") 2 1 [v_block; v_obj] 2 h_scope_reach) as (h' & E & Hv).
  - apply named_check; vm_compute; reflexivity.
  - apply named_check; vm_compute; reflexivity.
  - apply h_scope_chain.
  - simpl; lia.
  - exact I.
  - exists h'. split; [|exact Hv]. rewrite E. vm_compute. reflexivity.
Defined.

(** A function's frame over [v_obj] that has cached [x = 1], and inside it a block whose own [x]
    is 2: the state [eval_block] runs [{ let x = 2; ... }] in. *)
Definition s_block_in_call : Scope :=
  push_env v_block (update_call_frame_slot v_obj (b! "x") (num 1)
    (push_call_frame {| slot_map := ∅; var_env := v_obj |} (with_env_stack [v_obj] s_scope))).
Definition h_block_in_call : JsHeap := exec (OpSetStr v_block (b! "x") (num 2)) h_scope.

(** The call frame's slot map hides a block's own binding: inside a call whose frame has
    cached [x = 1], a block environment that binds its own [x = 2] is skipped, and
    [resolve_binding] answers the function's [x]; without the frame the same walk answers the
    block's, and once the frame is popped [resolve_binding] does too. *)
Theorem call_frame_hides_block_binding :
  reach h_block_in_call /\
  current_env s_block_in_call = v_block /\
  binds h_block_in_call 2 v_block = true /\ bound h_block_in_call 2 v_block = num 2 /\
  (fst <$> resolve_binding 2 (b! "x") s_block_in_call h_block_in_call) = Some (Some (v_obj, num 1)) /\
  (fst <$> resolve_binding 2 (b! "x") (pop_call_frame s_block_in_call) h_block_in_call) = Some (Some (v_block, num 2)).
Proof.
  split.
  - change h_block_in_call with (run [OpSetStr v_block (b! "x") (num 2)] h_scope).
    apply run_reach; [apply h_scope_reach|by vm_compute].
  - repeat split; vm_compute; reflexivity.
Qed.
