(* ===== verification/JsFloat.v ===== *)
(** * JsFloat: binary64 numbers of the interpreter

    The floats of [src/] are Rust's [f64]: the arithmetic, comparisons and casts the
    interpreter uses, on the standard library's exact model of binary64 ([SpecFloat]), and the
    64 bits a float block holds. *)
From Stdlib Require Import SpecFloat.
From S2P Require Import Prelude IntCodec ServerArgs.

Abbreviation f64 := spec_float.

Definition f64_of_int (n : Z) : f64 := binary_normalize 53 1024 n 0 false.
Definition f64_add (x y : f64) : f64 := SFadd 53 1024 x y.
Definition f64_sub (x y : f64) : f64 := SFsub 53 1024 x y.
Definition f64_times (x y : f64) : f64 := SFmul 53 1024 x y.
Definition f64_over (x y : f64) : f64 := SFdiv 53 1024 x y.
Definition f64_neg (x : f64) : f64 := SFopp x.

(** [x % y]: the exact remainder with the dividend's sign. *)
Definition f64_rem (x y : f64) : f64 :=
  match x, y with
  | S754_nan, _ | _, S754_nan | S754_infinity _, _ | _, S754_zero _ => S754_nan
  | _, S754_infinity _ | S754_zero _, _ => x
  | S754_finite s m1 e1, S754_finite _ m2 e2 =>
      let e := Z.min e1 e2 in
      let r := (Zpos m1 * 2 ^ (e1 - e)) `mod` (Zpos m2 * 2 ^ (e2 - e)) in
      binary_normalize 53 1024 (if s then - r else r) e s
  end.

Definition f64_eq (x y : f64) : bool := SFeqb x y.
Definition f64_lt (x y : f64) : bool := SFltb x y.
Definition f64_le (x y : f64) : bool := SFleb x y.
Definition f64_is_nan (x : f64) : bool := match x with S754_nan => true | _ => false end.
Definition f64_sign_negative (x : f64) : bool :=
  match x with S754_zero s | S754_infinity s | S754_finite s _ _ => s | S754_nan => false end.
Definition f64_zero : f64 := S754_zero false.

(** The integer part, towards zero. *)
Definition f64_trunc (x : f64) : Z :=
  match x with
  | S754_finite s m e =>
      let n := if 0 <=? e then Zpos m * 2 ^ e else Zpos m / 2 ^ (- e) in
      if s then - n else n
  | _ => 0
  end.

(** [x as i32], [x as u32]: saturating, NaN is 0. *)
Definition f64_cast (lo hi : Z) (x : f64) : Z :=
  match x with
  | S754_nan => 0
  | S754_infinity s => if s then lo else hi
  | _ => Z.max lo (Z.min hi (f64_trunc x))
  end.
Definition f64_as_i32 (x : f64) : Z := f64_cast (- 2 ^ 31) (2 ^ 31 - 1) x.
Definition f64_as_u32 (x : f64) : Z := f64_cast 0 (2 ^ 32 - 1) x.

(** ** The 64 bits *)

Definition f64_bits (x : f64) : Z :=
  let sign (s : bool) := if s then 2 ^ 63 else 0 in
  match x with
  | S754_zero s => sign s
  | S754_infinity s => sign s + 2047 * 2 ^ 52
  | S754_nan => 2047 * 2 ^ 52 + 2 ^ 51
  | S754_finite s m e =>
      if Zpos m <? 2 ^ 52 then sign s + Zpos m
      else sign s + (e + 1075) * 2 ^ 52 + (Zpos m - 2 ^ 52)
  end.

Definition f64_from_bits (b : Z) : f64 :=
  let s := 2 ^ 63 <=? b in
  let ex := (b / 2 ^ 52) `mod` 2048 in
  let fr := b `mod` 2 ^ 52 in
  if ex =? 2047 then (if fr =? 0 then S754_infinity s else S754_nan)
  else if ex =? 0 then match fr with Zpos m => S754_finite s m (-1074) | _ => S754_zero s end
  else match fr + 2 ^ 52 with Zpos m => S754_finite s m (ex - 1075) | _ => S754_nan end.

(** Bounded mantissa and exponent: what every operation returns. *)
Definition f64_ok (x : f64) : bool := valid_binary 53 1024 x.

Lemma digits2_pos_bounds (m : positive) :
  2 ^ (Zpos (SpecFloat.digits2_pos m) - 1) <= Zpos m < 2 ^ Zpos (SpecFloat.digits2_pos m).
Proof.
  induction m as [m IH|m IH|]; cbn [SpecFloat.digits2_pos]; [..|lia];
    rewrite Pos2Z.inj_succ, Z.sub_1_r, Z.pred_succ;
    set (d := Zpos (SpecFloat.digits2_pos m)) in *;
    assert (0 < d) by (unfold d; lia);
    rewrite (Z.pow_succ_r 2 d) by lia;
    replace d with (Z.succ (d - 1)) in |- * by lia; rewrite !Z.pow_succ_r by lia;
    replace (2 ^ d) with (2 * 2 ^ (d - 1)) in IH by (rewrite <- Z.pow_succ_r by lia; f_equal; lia); lia.
Qed.

Lemma f64_ok_finite (s : bool) (m : positive) (e : Z) :
  f64_ok (S754_finite s m e) = true ->
  -1074 <= e <= 971 /\ Zpos m < 2 ^ 53 /\ (2 ^ 52 <= Zpos m \/ e = -1074).
Proof.
  cbn [f64_ok valid_binary]. unfold f64_ok, valid_binary, bounded, canonical_mantissa.
  rewrite andb_true_iff, Z.leb_le. intros [Hc%Zeq_bool_eq He].
  pose proof (digits2_pos_bounds m) as [Hl Hu]. unfold fexp, emin in Hc.
  set (d := Zpos (SpecFloat.digits2_pos m)) in *. assert (0 < d) by (unfold d; lia).
  assert (Hd : d <= 53) by lia.
  assert (2 ^ d <= 2 ^ 53) by (apply Z.pow_le_mono_r; lia).
  split; [lia|]. split; [lia|].
  destruct (decide (e = -1074)) as [|Hne]; [by right|]. left.
  assert (d = 53) as -> by lia. exact Hl.
Qed.

Lemma f64_bits_roundtrip (x : f64) : f64_ok x = true -> f64_from_bits (f64_bits x) = x.
Proof.
  intros Hx. destruct x as [s|s| |s m e]; [by destruct s|by destruct s|done|].
  apply f64_ok_finite in Hx as (He & Hm & Hn). unfold f64_bits.
  set (M := 2 ^ 52) in *. assert (EM : M = 4503599627370496) by reflexivity.
  assert (E53 : 2 ^ 53 = 2 * M) by reflexivity. assert (E63 : 2 ^ 63 = 2048 * M) by reflexivity.
  assert (Hdec : forall ex fr, 0 <= ex < 2048 -> 0 <= fr < M -> forall b, b = (if s then 2 ^ 63 else 0) + ex * M + fr ->
    (2 ^ 63 <=? b) = s /\ (b / 2 ^ 52) `mod` 2048 = ex /\ b `mod` 2 ^ 52 = fr).
  { intros ex fr Hex Hfr b ->. change (2 ^ 52) with M. rewrite E63.
    replace ((if s then 2048 * M else 0) + ex * M + fr) with (fr + ((if s then 2048 else 0) + ex) * M) by (destruct s; lia).
    rewrite Z.div_add, Z.mod_add, (Z.div_small fr), (Z.mod_small fr) by lia. split; [|split; [|done]].
    - destruct s; [apply Z.leb_le|apply Z.leb_gt]; nia.
    - destruct s; [|by rewrite Z.mod_small by lia].
      replace (0 + (2048 + ex)) with (ex + 1 * 2048) by lia. rewrite Z.mod_add by lia. by rewrite Z.mod_small by lia. }
  destruct (Z.ltb_spec (Zpos m) M) as [Hlt|Hge]; unfold f64_from_bits.
  - destruct (Hdec 0 (Zpos m) ltac:(lia) ltac:(lia) ((if s then 2 ^ 63 else 0) + Zpos m) ltac:(lia)) as (E1 & E2 & E3).
    rewrite E1, E2, E3. simpl. f_equal. lia.
  - destruct (Hdec (e + 1075) (Zpos m - M) ltac:(lia) ltac:(lia) _ eq_refl) as (E1 & E2 & E3).
    rewrite E1, E2, E3. destruct (Z.eqb_spec (e + 1075) 2047); [lia|]. destruct (Z.eqb_spec (e + 1075) 0); [lia|].
    change (2 ^ 52) with M. replace (Zpos m - M + M) with (Zpos m) by lia. f_equal. lia.
Qed.

(** ** [f64::to_string]

    The standard library prints the fewest digits that read back as the same number, the
    closest of them when there are several, and never an exponent. *)

(** The magnitude as a ratio of integers. *)
Definition f64_ratio (m : positive) (e : Z) : Z * Z :=
  if 0 <=? e then (Zpos m * 2 ^ e, 1) else (Zpos m, 2 ^ (- e)).

(** The decimal exponent [k] of [n / d]: [10^k <= n / d < 10^(k+1)]. *)
Fixpoint dec_exponent_up (fuel : nat) (n d k : Z) : Z :=
  match fuel with
  | O => k
  | S fuel' => if 10 * d <=? n then dec_exponent_up fuel' n (10 * d) (k + 1) else k
  end.
Fixpoint dec_exponent_down (fuel : nat) (n d k : Z) : Z :=
  match fuel with
  | O => k
  | S fuel' => if n <? d then dec_exponent_down fuel' (10 * n) d (k - 1) else k
  end.
Definition dec_exponent (n d : Z) : Z :=
  if d <=? n then dec_exponent_up 400 n d 0 else dec_exponent_down 400 n d 0.

(** The digits [q] with exponent [p] when they read back as the number [x]. *)
Definition reads_back (neg : bool) (x : f64) (q p : Z) : bool :=
  match x, f64_round neg q p with
  | S754_finite s m e, S754_finite s' m' e' => Bool.eqb s s' && (Zpos m =? Zpos m') && (e =? e')
  | _, _ => false
  end.

(** The first digit count, from [count] on, with a number that reads back. *)
Fixpoint shortest (fuel : nat) (neg : bool) (x : f64) (n d k count : Z) : Z * Z :=
  match fuel with
  | O => (0, 0)
  | S fuel' =>
      let p := k - count + 1 in
      let '(n', d') := if 0 <=? p then (n, d * 10 ^ p) else (n * 10 ^ (- p), d) in
      let q := n' / d' in
      let lo := reads_back neg x q p in
      let hi := reads_back neg x (q + 1) p in
      if lo && (negb hi || (2 * (n' - q * d') <=? d')) then (q, p)
      else if hi then (q + 1, p)
      else shortest fuel' neg x n d k (count + 1)
  end.

Definition zeros (n : Z) : bytes := replicate (Z.to_nat n) c_0.
Definition place_point (ds : bytes) (p : Z) : bytes :=
  if 0 <=? p then ds ++ zeros p
  else
    let whole := Z.of_nat (length ds) + p in
    if 0 <? whole then take (Z.to_nat whole) ds ++ [46] ++ drop (Z.to_nat whole) ds
    else b! "0." ++ zeros (- whole) ++ ds.

Definition f64_to_string (x : f64) : bytes :=
  match x with
  | S754_nan => b! "NaN"
  | S754_infinity s => if s then b! "-inf" else b! "inf"
  | S754_zero s => if s then b! "-0" else b! "0"
  | S754_finite s m e =>
      let '(n, d) := f64_ratio m e in
      let '(q, p) := shortest 17 s x n d (dec_exponent n d) 1 in
      (if s then [c_minus] else []) ++ place_point (int_to_string q) p
  end.

Example f64_show1 : f64_to_string (f64_round false 1 (-1)) = b! "0.1".
Proof. vm_compute. reflexivity. Qed.
Example f64_show2 : f64_to_string (f64_over (f64_of_int 1) (f64_of_int 3)) = b! "0.3333333333333333".
Proof. vm_compute. reflexivity. Qed.
Example f64_show3 : f64_to_string (f64_round true 15 20) = b! "-1500000000000000000000".
Proof. vm_compute. reflexivity. Qed.
Example f64_show4 : f64_to_string (f64_round false 5 (-324)) = b! "0." ++ zeros 323 ++ b! "5".
Proof. vm_compute. reflexivity. Qed.
Example f64_rem1 : f64_rem (f64_round true 55 (-1)) (f64_of_int 2) = f64_round true 15 (-1).
Proof. vm_compute. reflexivity. Qed.
