(* ===== verification/JsFloatSpec.v ===== *)
(** * JsFloatSpec: integers are exact in binary64

    Integers below 2^53 are floats without rounding: their sums, differences and products are
    those of the integers as long as these stay below 2^53, comparing them compares the
    integers, and the integer part gives them back.  The order of the floats is transitive. *)
From Stdlib Require Import SpecFloat.
From S2P Require Import Prelude JsFloat.

(** ** Shifts of a mantissa *)

Abbreviation digits m := (Zpos (SpecFloat.digits2_pos m)).

Lemma digits_unique (m : positive) (d : Z) : 0 < d -> 2 ^ (d - 1) <= Zpos m < 2 ^ d -> digits m = d.
Proof.
  intros Hd [Hl Hu]. pose proof (digits2_pos_bounds m) as [Hl' Hu'].
  destruct (Z.lt_trichotomy (digits m) d) as [Hlt|[|Hgt]]; [|done|]; exfalso.
  - assert (2 ^ digits m <= 2 ^ (d - 1)) by (apply Z.pow_le_mono_r; lia). lia.
  - assert (2 ^ d <= 2 ^ (digits m - 1)) by (apply Z.pow_le_mono_r; lia). lia.
Qed.
Lemma digits_scaled (m n : positive) (k : Z) : 0 <= k -> Zpos m = Zpos n * 2 ^ k -> digits m = digits n + k.
Proof.
  intros Hk E. apply digits_unique; [lia|]. pose proof (digits2_pos_bounds n) as [Hl Hu]. rewrite E.
  replace (digits n + k - 1) with (digits n - 1 + k) by lia. rewrite !Z.pow_add_r by lia.
  assert (0 < 2 ^ k) by (apply Z.pow_pos_nonneg; lia). nia.
Qed.

Lemma digits_below (n : positive) : Zpos n < 2 ^ 53 -> 1 <= digits n <= 53.
Proof.
  intros Hn. pose proof (digits2_pos_bounds n) as [Hl _]. split; [lia|]. apply Z.nlt_ge. intros Hgt.
  assert (2 ^ 53 <= 2 ^ (digits n - 1)) by (apply Z.pow_le_mono_r; lia). lia.
Qed.

Lemma iter_pos_nat {A} (f : A -> A) (p : positive) (x : A) : SpecFloat.iter_pos f p x = Nat.iter (Pos.to_nat p) f x.
Proof.
  revert x. induction p as [p IH|p IH|]; intros x; cbn [SpecFloat.iter_pos]; [..|done].
  - rewrite !IH, <-Nat.iter_add, <-Nat.iter_succ_r. f_equal. lia.
  - rewrite !IH, <-Nat.iter_add. f_equal. lia.
Qed.

Abbreviation whole m := {| shr_m := m; shr_r := false; shr_s := false |}.

Lemma shr_1_even (m : Z) : shr_1 (whole (2 * m)) = whole m.
Proof. by destruct m. Qed.
Lemma shr_iter (n : nat) (m : Z) : Nat.iter n shr_1 (whole (m * 2 ^ Z.of_nat n)) = whole m.
Proof.
  revert m. induction n as [|n IH]; intros m; [by rewrite Z.mul_1_r|]. rewrite Nat.iter_succ.
  replace (m * 2 ^ Z.of_nat (S n)) with (2 * m * 2 ^ Z.of_nat n) by (rewrite Nat2Z.inj_succ, Z.pow_succ_r by lia; lia).
  by rewrite IH, shr_1_even.
Qed.
Lemma shr_exact (m e k : Z) : 0 <= k -> shr (whole (m * 2 ^ k)) e k = (whole m, e + k).
Proof.
  intros Hk. destruct k as [|p|p]; cbn [shr]; [by rewrite Z.mul_1_r, Z.add_0_r| |lia].
  rewrite iter_pos_nat. replace (Zpos p) with (Z.of_nat (Pos.to_nat p)) at 1 by lia. by rewrite shr_iter.
Qed.

Lemma iter_xO (m d : positive) : Zpos (Pos.iter xO m d) = Zpos m * 2 ^ Zpos d.
Proof.
  induction d as [|d IH] using Pos.peano_ind; [cbn; lia|].
  rewrite Pos.iter_succ, Pos2Z.inj_succ, Z.pow_succ_r by lia.
  change (Zpos (Pos.iter xO m d)~0) with (2 * Zpos (Pos.iter xO m d)). lia.
Qed.
Lemma shl_align_down (m : positive) (e e' : Z) : e' <= e -> Zpos (fst (shl_align m e e')) = Zpos m * 2 ^ (e - e') /\ snd (shl_align m e e') = e'.
Proof.
  intros He. unfold shl_align. destruct (e' - e) as [|p|p] eqn:Ed; [|lia|].
  - replace (e - e') with 0 by lia. cbn [fst snd]. lia.
  - cbn [fst snd]. rewrite iter_xO. split; [|done]. by replace (e - e') with (Zpos p) by lia.
Qed.
Lemma shl_align_up (m : positive) (e e' : Z) : e <= e' -> shl_align m e e' = (m, e).
Proof. intros He. unfold shl_align. by destruct (e' - e) eqn:Ed; [| |lia]. Qed.

(** ** Integers *)

(** The mantissa and exponent of an integer below 2^53: 53 digits. *)
Definition int_mantissa (n : positive) : positive := Z.to_pos (Zpos n * 2 ^ (53 - digits n)).
Definition int_exponent (n : positive) : Z := digits n - 53.

Section Integer.
Context (n : positive) (Hn : Zpos n < 2 ^ 53).

Lemma int_mantissa_eq : Zpos (int_mantissa n) = Zpos n * 2 ^ (53 - digits n).
Proof.
  pose proof (digits_below n Hn). unfold int_mantissa.
  assert (0 < 2 ^ (53 - digits n)) by (apply Z.pow_pos_nonneg; lia). lia.
Qed.
Lemma int_mantissa_digits : digits (int_mantissa n) = 53.
Proof. pose proof (digits_below n Hn). rewrite (digits_scaled (int_mantissa n) n (53 - digits n)); [lia|lia|apply int_mantissa_eq]. Qed.

Lemma shr_fexp_int (m : positive) (e : Z) : e <= int_exponent n -> Zpos m = Zpos n * 2 ^ (- e) ->
  shr_fexp 53 1024 (Zpos m) e loc_Exact = (whole (Zpos (int_mantissa n)), int_exponent n).
Proof.
  intros He Em. pose proof (digits_below n Hn). unfold int_exponent in *. unfold shr_fexp, fexp, emin. cbn [Zdigits2 shr_record_of_loc].
  rewrite (digits_scaled m n (- e)) by (lia || exact Em).
  replace (Z.max (digits n + - e + e - 53) (3 - 1024 - 53) - e) with (digits n - 53 - e) by lia.
  rewrite Em. replace (Zpos n * 2 ^ (- e)) with (Zpos (int_mantissa n) * 2 ^ (digits n - 53 - e)).
  { rewrite shr_exact by lia. by replace (e + (digits n - 53 - e)) with (digits n - 53) by lia. }
  rewrite int_mantissa_eq, <-Z.mul_assoc, <-Z.pow_add_r by lia. do 2 f_equal. lia.
Qed.

Lemma round_aux_int (s : bool) (m : positive) (e : Z) : e <= int_exponent n -> Zpos m = Zpos n * 2 ^ (- e) ->
  binary_round_aux 53 1024 s (Zpos m) e loc_Exact = S754_finite s (int_mantissa n) (int_exponent n).
Proof.
  intros He Em. pose proof (digits_below n Hn). unfold binary_round_aux.
  rewrite (shr_fexp_int m e He Em). cbn [shr_m loc_of_shr_record round_nearest_even].
  rewrite shr_fexp_int by (unfold int_exponent; try lia; rewrite int_mantissa_eq; do 2 f_equal; lia). cbn [shr_m].
  destruct (Z.leb_spec (int_exponent n) (1024 - 53)) as [|Hgt]; [done|unfold int_exponent in Hgt; lia].
Qed.

Lemma round_int (s : bool) (m : positive) (e : Z) : e <= 0 -> Zpos m = Zpos n * 2 ^ (- e) ->
  binary_round 53 1024 s m e = S754_finite s (int_mantissa n) (int_exponent n).
Proof.
  intros He Em. pose proof (digits_below n Hn). unfold binary_round, fexp, emin.
  rewrite (digits_scaled m n (- e)) by (lia || exact Em).
  replace (Z.max (digits n + - e + e - 53) (3 - 1024 - 53)) with (int_exponent n) by (unfold int_exponent; lia).
  destruct (Z.le_gt_cases e (int_exponent n)) as [Hle|Hgt].
  - rewrite shl_align_up by done. by apply round_aux_int.
  - destruct (shl_align_down m e (int_exponent n)) as [E1 E2]; [lia|].
    destruct (shl_align m e (int_exponent n)) as [m' e']. cbn [fst snd] in *. subst e'. apply round_aux_int; [lia|].
    rewrite E1, Em, <-Z.mul_assoc, <-Z.pow_add_r by (unfold int_exponent in *; lia). do 2 f_equal. lia.
Qed.
End Integer.

(** An integer that a float holds exactly. *)
Definition int53 (n : Z) : Prop := Z.abs n < 2 ^ 53.
#[export] Instance int53_dec n : Decision (int53 n).
Proof. unfold int53. apply _. Defined.

Lemma normalize_int (n e : Z) (s : bool) : int53 n -> n <> 0 -> e <= 0 ->
  binary_normalize 53 1024 (n * 2 ^ (- e)) e s = S754_finite (n <? 0) (int_mantissa (Z.to_pos (Z.abs n))) (int_exponent (Z.to_pos (Z.abs n))).
Proof.
  unfold int53. intros Hn H0 He. assert (0 < 2 ^ (- e)) by (apply Z.pow_pos_nonneg; lia).
  destruct n as [|n|n]; [done|..]; cbn [Z.abs Z.to_pos Z.ltb Z.compare]; unfold binary_normalize.
  - destruct (Zpos n * 2 ^ (- e)) as [|m|m] eqn:Em; [lia| |lia]. by apply round_int.
  - destruct (Zneg n * 2 ^ (- e)) as [|m|m] eqn:Em; [lia|lia|]. apply round_int; [done..|].
    apply Z.opp_inj. rewrite <-Z.mul_opp_l. symmetry. exact Em.
Qed.
Lemma f64_of_int_finite (n : Z) : int53 n -> n <> 0 ->
  f64_of_int n = S754_finite (n <? 0) (int_mantissa (Z.to_pos (Z.abs n))) (int_exponent (Z.to_pos (Z.abs n))).
Proof. intros Hn H0. rewrite <-(normalize_int n 0 false) by (done || lia). unfold f64_of_int. by rewrite Z.mul_1_r. Qed.

(** What the proofs below use of it. *)
Lemma f64_of_int_inv (n : Z) : int53 n -> n <> 0 ->
  exists m e, f64_of_int n = S754_finite (n <? 0) m e /\ -52 <= e <= 0 /\ Zpos m = Z.abs n * 2 ^ (- e) /\ 2 ^ 52 <= Zpos m < 2 ^ 53.
Proof.
  intros Hn H0. rewrite f64_of_int_finite by done. do 2 eexists. split; [done|].
  set (p := Z.to_pos (Z.abs n)). assert (Ep : Zpos p = Z.abs n) by (unfold p, int53 in *; lia).
  assert (Hp : Zpos p < 2 ^ 53) by (unfold int53 in Hn; lia).
  pose proof (digits_below p Hp). pose proof (digits2_pos_bounds (int_mantissa p)) as Hb. rewrite int_mantissa_digits in Hb by done.
  unfold int_exponent in *. split; [lia|]. split; [|lia]. rewrite int_mantissa_eq, Ep by done. do 2 f_equal. lia.
Qed.
Lemma normalize_of_int (n e : Z) : int53 n -> e <= 0 -> binary_normalize 53 1024 (n * 2 ^ (- e)) e false = f64_of_int n.
Proof.
  intros Hn He. destruct (decide (n = 0)) as [->|H0]; [done|]. by rewrite normalize_int, f64_of_int_finite.
Qed.

Lemma cond_opp_mantissa (n : Z) (k : Z) : cond_Zopp (n <? 0) (Z.abs n * k) = n * k.
Proof. unfold cond_Zopp. destruct (Z.ltb_spec n 0); nia. Qed.

Lemma aligned (n : Z) (m : positive) (e ez : Z) : ez <= e -> e <= 0 -> Zpos m = Z.abs n * 2 ^ (- e) ->
  cond_Zopp (n <? 0) (Zpos (fst (shl_align m e ez))) = n * 2 ^ (- ez).
Proof.
  intros Hz He Em. destruct (shl_align_down m e ez Hz) as [-> _].
  rewrite Em, <-Z.mul_assoc, <-Z.pow_add_r, cond_opp_mantissa by lia. do 2 f_equal. lia.
Qed.

Theorem f64_add_int (a b : Z) : int53 a -> int53 b -> int53 (a + b) -> f64_add (f64_of_int a) (f64_of_int b) = f64_of_int (a + b).
Proof.
  intros Ha Hb Hc. destruct (decide (a = 0)) as [->|Ha0].
  { destruct (decide (b = 0)) as [->|Hb0]; [done|]. rewrite Z.add_0_l.
    destruct (f64_of_int_inv b Hb Hb0) as (m & e & -> & _). done. }
  destruct (f64_of_int_inv a Ha Ha0) as (m1 & e1 & E1 & He1 & Hm1 & _).
  destruct (decide (b = 0)) as [->|Hb0]; [rewrite Z.add_0_r, E1; done|].
  destruct (f64_of_int_inv b Hb Hb0) as (m2 & e2 & E2 & He2 & Hm2 & _).
  rewrite E1, E2. unfold f64_add, SFadd.
  rewrite (aligned a), (aligned b), <-Z.mul_add_distr_r by (lia || done). apply normalize_of_int; [done|lia].
Qed.

Theorem f64_sub_int (a b : Z) : int53 a -> int53 b -> int53 (a - b) -> f64_sub (f64_of_int a) (f64_of_int b) = f64_of_int (a - b).
Proof.
  intros Ha Hb Hc. destruct (decide (b = 0)) as [->|Hb0].
  { rewrite Z.sub_0_r. destruct (decide (a = 0)) as [->|Ha0]; [done|].
    destruct (f64_of_int_inv a Ha Ha0) as (m & e & -> & _). done. }
  destruct (f64_of_int_inv b Hb Hb0) as (m2 & e2 & E2 & He2 & Hm2 & _).
  destruct (decide (a = 0)) as [->|Ha0].
  { rewrite E2. cbn [f64_of_int binary_normalize f64_sub SFsub]. rewrite f64_of_int_finite by (done || lia).
    rewrite f64_of_int_finite in E2 by done. injection E2 as <- <-.
    replace (0 - b) with (- b) by lia. rewrite Z.abs_opp. unfold f64_of_int, f64_sub. cbn. f_equal.
    destruct (Z.ltb_spec b 0), (Z.ltb_spec (- b) 0); lia || done. }
  destruct (f64_of_int_inv a Ha Ha0) as (m1 & e1 & E1 & He1 & Hm1 & _).
  rewrite E1, E2. unfold f64_sub, SFsub.
  rewrite (aligned a), (aligned b), <-Z.mul_sub_distr_r by (lia || done). apply normalize_of_int; [done|lia].
Qed.

Theorem f64_times_int (a b : Z) : int53 a -> int53 b -> int53 (a * b) -> a * b <> 0 ->
  f64_times (f64_of_int a) (f64_of_int b) = f64_of_int (a * b).
Proof.
  intros Ha Hb Hc H0. assert (Ha0 : a <> 0) by lia. assert (Hb0 : b <> 0) by lia.
  destruct (f64_of_int_inv a Ha Ha0) as (m1 & e1 & -> & He1 & Hm1 & Hr1).
  destruct (f64_of_int_inv b Hb Hb0) as (m2 & e2 & -> & He2 & Hm2 & Hr2).
  rewrite f64_of_int_finite by done. unfold f64_times, SFmul.
  set (n := Z.to_pos (Z.abs (a * b))). assert (En : Zpos n = Z.abs (a * b)) by (unfold n; lia).
  replace (a * b <? 0) with (xorb (a <? 0) (b <? 0))
    by (destruct (Z.ltb_spec a 0), (Z.ltb_spec b 0), (Z.ltb_spec (a * b) 0); cbn; nia || done).
  assert (Em : Zpos (m1 * m2) = Zpos n * 2 ^ (- (e1 + e2))).
  { rewrite Pos2Z.inj_mul, Hm1, Hm2, En, Z.abs_mul. replace (- (e1 + e2)) with (- e1 + - e2) by lia. rewrite Z.pow_add_r by lia. lia. }
  apply round_aux_int; [unfold int53 in Hc; lia| |done].
  unfold int_exponent. enough (106 + e1 + e2 - 1 <= digits n) by lia.
  assert (Hd : digits (m1 * m2) = digits n + - (e1 + e2)) by (apply digits_scaled; [lia|done]).
  enough (105 <= digits (m1 * m2)) by lia.
  pose proof (digits2_pos_bounds (m1 * m2)) as [_ Hu]. apply Z.nlt_ge. intros Hlt.
  assert (2 ^ digits (m1 * m2) <= 2 ^ 104) by (apply Z.pow_le_mono_r; lia).
  assert (2 ^ 52 * 2 ^ 52 <= Zpos m1 * Zpos m2) by (apply Z.mul_le_mono_nonneg; lia).
  change (2 ^ 52 * 2 ^ 52) with (2 ^ 104) in *. lia.
Qed.

(** ** Order *)

(** A float as an integer, in units of the smallest one. *)
Definition f64_units (x : f64) : Z :=
  match x with S754_finite s m e => (if s then -1 else 1) * (Zpos m * 2 ^ (e + 1074)) | _ => 0 end.

Lemma f64_ok_int (n : Z) : int53 n -> f64_ok (f64_of_int n) = true.
Proof.
  intros Hn. destruct (decide (n = 0)) as [->|H0]; [done|]. rewrite f64_of_int_finite by done.
  set (p := Z.to_pos (Z.abs n)). assert (Hp : Zpos p < 2 ^ 53) by (unfold p, int53 in *; lia). pose proof (digits_below p Hp).
  cbn [f64_ok valid_binary]. unfold f64_ok, valid_binary, bounded, canonical_mantissa. rewrite int_mantissa_digits by done.
  unfold fexp, emin, int_exponent. rewrite andb_true_iff, Z.leb_le. split; [apply Z.eqb_eq|]; lia.
Qed.
Lemma f64_units_int (n : Z) : int53 n -> f64_units (f64_of_int n) = n * 2 ^ 1074.
Proof.
  intros Hn. destruct (decide (n = 0)) as [->|H0]; [done|].
  destruct (f64_of_int_inv n Hn H0) as (m & e & -> & He & Em & _). cbn [f64_units].
  rewrite Em, <-Z.mul_assoc, <-Z.pow_add_r by lia. replace (- e + (e + 1074)) with 1074 by lia.
  destruct (Z.ltb_spec n 0); lia.
Qed.

Lemma compare_magnitude (m1 m2 : positive) (e1 e2 : Z) : f64_ok (S754_finite false m1 e1) = true -> f64_ok (S754_finite false m2 e2) = true ->
  match Z.compare e1 e2 with Lt => Lt | Gt => Gt | Eq => Pos.compare_cont Eq m1 m2 end
  = (Zpos m1 * 2 ^ (e1 + 1074) ?= Zpos m2 * 2 ^ (e2 + 1074)).
Proof.
  intros (He1 & Hm1 & Hn1)%f64_ok_finite (He2 & Hm2 & Hn2)%f64_ok_finite.
  assert (Hlt : forall (a b : positive) (e e' : Z), -1074 <= e < e' -> Zpos a < 2 ^ 53 -> 2 ^ 52 <= Zpos b ->
    Zpos a * 2 ^ (e + 1074) < Zpos b * 2 ^ (e' + 1074)).
  { intros a b e e' He Ha Hb. replace (e' + 1074) with (1 + (e' - e - 1) + (e + 1074)) by lia.
    set (x := e + 1074). set (k := e' - e - 1). assert (0 <= k) by lia. assert (0 <= x) by lia. rewrite !Z.pow_add_r by lia.
    assert (0 < 2 ^ x) by (apply Z.pow_pos_nonneg; lia). assert (0 < 2 ^ k) by (apply Z.pow_pos_nonneg; lia).
    rewrite Z.mul_assoc. apply Z.mul_lt_mono_pos_r; [done|]. change (2 ^ 53) with (2 * 2 ^ 52) in Ha. nia. }
  symmetry. destruct (Z.compare_spec e1 e2) as [<-|H|H].
  - assert (0 < 2 ^ (e1 + 1074)) by (apply Z.pow_pos_nonneg; lia). change (Pos.compare_cont Eq m1 m2) with (Zpos m1 ?= Zpos m2).
    destruct (Z.compare_spec (Zpos m1) (Zpos m2)); [apply Z.compare_eq_iff|apply Z.compare_lt_iff|apply Z.compare_gt_iff]; nia.
  - apply Z.compare_lt_iff, Hlt; lia.
  - apply Z.compare_gt_iff, Hlt; lia.
Qed.

Definition f64_finite (x : f64) : bool := match x with S754_finite _ _ _ | S754_zero _ => true | _ => false end.

Lemma compare_units (x y : f64) : f64_ok x = true -> f64_ok y = true -> f64_finite x = true -> f64_finite y = true ->
  SFcompare x y = Some (f64_units x ?= f64_units y).
Proof.
  intros Hx Hy Fx Fy. destruct x as [s1|?| |s1 m1 e1], y as [s2|?| |s2 m2 e2]; try done; cbn [SFcompare f64_units].
  - f_equal. apply f64_ok_finite in Hy as (He & _). assert (0 < 2 ^ (e2 + 1074)) by (apply Z.pow_pos_nonneg; lia).
    symmetry. destruct s2; [apply Z.compare_gt_iff|apply Z.compare_lt_iff]; lia.
  - f_equal. apply f64_ok_finite in Hx as (He & _). assert (0 < 2 ^ (e1 + 1074)) by (apply Z.pow_pos_nonneg; lia).
    symmetry. destruct s1; [apply Z.compare_lt_iff|apply Z.compare_gt_iff]; lia.
  - f_equal. pose proof (compare_magnitude m1 m2 e1 e2 Hx Hy) as Ec.
    apply f64_ok_finite in Hx as (He1 & _), Hy as (He2 & _).
    assert (0 < Zpos m1 * 2 ^ (e1 + 1074)) by (apply Z.mul_pos_pos; [lia|apply Z.pow_pos_nonneg; lia]).
    assert (0 < Zpos m2 * 2 ^ (e2 + 1074)) by (apply Z.mul_pos_pos; [lia|apply Z.pow_pos_nonneg; lia]).
    destruct s1, s2.
    + replace (-1 * (Zpos m1 * 2 ^ (e1 + 1074))) with (- (Zpos m1 * 2 ^ (e1 + 1074))) by lia.
      replace (-1 * (Zpos m2 * 2 ^ (e2 + 1074))) with (- (Zpos m2 * 2 ^ (e2 + 1074))) by lia.
      rewrite Z.compare_opp, (Z.compare_antisym (Zpos m1 * _)), <-Ec. by destruct (Z.compare e1 e2).
    + symmetry. apply Z.compare_lt_iff. lia.
    + symmetry. apply Z.compare_gt_iff. lia.
    + by rewrite !Z.mul_1_l.
Qed.

Lemma f64_finite_int (n : Z) : f64_finite (f64_of_int n) = true \/ ~ int53 n.
Proof.
  destruct (decide (int53 n)) as [Hn|]; [left|by right].
  destruct (decide (n = 0)) as [->|H0]; [done|]. by rewrite f64_of_int_finite.
Qed.

(** Comparing integers compares them. *)
Theorem compare_int (a b : Z) : int53 a -> int53 b -> SFcompare (f64_of_int a) (f64_of_int b) = Some (a ?= b).
Proof.
  intros Ha Hb. destruct (f64_finite_int a) as [Fa|]; [|done]. destruct (f64_finite_int b) as [Fb|]; [|done].
  rewrite compare_units, !f64_units_int by auto using f64_ok_int. f_equal.
  rewrite !(Z.mul_comm _ (2 ^ 1074)). symmetry. apply Zmult_compare_compat_l. apply Z.lt_gt, Z.pow_pos_nonneg; lia.
Qed.
Lemma f64_le_int (a b : Z) : int53 a -> int53 b -> f64_le (f64_of_int a) (f64_of_int b) = (a <=? b).
Proof. intros Ha Hb. unfold f64_le, SFleb, Z.leb. rewrite compare_int by done. by destruct (a ?= b). Qed.
Lemma f64_lt_int (a b : Z) : int53 a -> int53 b -> f64_lt (f64_of_int a) (f64_of_int b) = (a <? b).
Proof. intros Ha Hb. unfold f64_lt, SFltb, Z.ltb. rewrite compare_int by done. by destruct (a ?= b). Qed.
Lemma f64_eq_int (a b : Z) : int53 a -> int53 b -> f64_eq (f64_of_int a) (f64_of_int b) = (a =? b).
Proof. intros Ha Hb. unfold f64_eq, SFeqb. rewrite compare_int, Z.eqb_compare by done. by destruct (a ?= b). Qed.

(** The order is lexicographic in sign, exponent and mantissa, so it is transitive. *)
Theorem f64_le_trans (x y z : f64) : f64_le x y = true -> f64_le y z = true -> f64_le x z = true.
Proof.
  unfold f64_le, SFleb. destruct x as [?|[]| |[] m1 e1], y as [?|[]| |[] m2 e2], z as [?|[]| |[] m3 e3]; cbn [SFcompare]; try done;
    change (Pos.compare_cont Eq) with Pos.compare;
    destruct (Z.compare_spec e1 e2), (Z.compare_spec e2 e3), (Z.compare_spec e1 e3); try done || lia; subst;
    destruct (Pos.compare_spec m1 m2), (Pos.compare_spec m2 m3), (Pos.compare_spec m1 m3); cbn [CompOpp]; try done || lia.
Qed.

(** ** Conversions *)

(** The integer part of an integer is itself. *)
Theorem f64_trunc_int (n : Z) : int53 n -> f64_trunc (f64_of_int n) = n.
Proof.
  intros Hn. destruct (decide (n = 0)) as [->|H0]; [done|].
  destruct (f64_of_int_inv n Hn H0) as (m & e & -> & He & Em & _). cbn [f64_trunc].
  assert (E : (if 0 <=? e then Zpos m * 2 ^ e else Zpos m / 2 ^ (- e)) = Z.abs n).
  { destruct (Z.leb_spec 0 e); rewrite Em.
    - replace e with 0 by lia. rewrite !Z.mul_1_r. done.
    - apply Z.div_mul. apply Z.pow_nonzero; lia. }
  rewrite E. destruct (Z.ltb_spec n 0); lia.
Qed.
Lemma f64_cast_int (lo hi n : Z) : int53 n -> lo <= n <= hi -> f64_cast lo hi (f64_of_int n) = n.
Proof.
  intros Hn Hr. destruct (f64_finite_int n) as [F|]; [|done]. pose proof (f64_trunc_int n Hn) as E.
  destruct (f64_of_int n); try done; unfold f64_cast; rewrite E; lia.
Qed.
Lemma f64_cast_range (lo hi : Z) (x : f64) : lo <= 0 <= hi -> lo <= f64_cast lo hi x <= hi.
Proof. intros Hr. unfold f64_cast. destruct x as [?|[]| |]; lia. Qed.
Lemma f64_as_u32_range (x : f64) : 0 <= f64_as_u32 x < 2 ^ 32.
Proof. pose proof (f64_cast_range 0 (2 ^ 32 - 1) x ltac:(lia)). unfold f64_as_u32. lia. Qed.

(** Distinct integers are distinct floats. *)
Lemma f64_of_int_inj (a b : Z) : int53 a -> int53 b -> f64_of_int a = f64_of_int b -> a = b.
Proof. intros Ha Hb E. by rewrite <-(f64_trunc_int a Ha), E, f64_trunc_int. Qed.

(** ** A product of finite floats is a number *)

Lemma shr_1_nonneg (r : shr_record) : 0 <= shr_m r -> 0 <= shr_m (shr_1 r).
Proof. destruct r as [[|[p|p|]|p] a b]; cbn; lia. Qed.
Lemma shr_fexp_nonneg (m e : Z) (l : location) : 0 <= m -> 0 <= shr_m (shr_fexp 53 1024 m e l).1.
Proof.
  intros Hm. unfold shr_fexp, shr. assert (0 <= shr_m (shr_record_of_loc m l)) by (by destruct l as [|[]]).
  destruct (_ - e) as [|p|p]; cbn [fst]; [done| |done]. rewrite iter_pos_nat.
  induction (Pos.to_nat p) as [|n IH]; [done|]. rewrite Nat.iter_succ. by apply shr_1_nonneg.
Qed.
Lemma round_aux_number (s : bool) (m e : Z) (l : location) : 0 <= m -> binary_round_aux 53 1024 s m e l <> S754_nan.
Proof.
  intros Hm. unfold binary_round_aux. pose proof (shr_fexp_nonneg m e l Hm) as H1.
  destruct (shr_fexp 53 1024 m e l) as [r1 e1]. cbn [fst] in H1.
  assert (H2 : 0 <= round_nearest_even (shr_m r1) (loc_of_shr_record r1)).
  { unfold round_nearest_even. destruct (loc_of_shr_record r1) as [|[]]; [lia| |lia|lia]. destruct (Z.even _); lia. }
  pose proof (shr_fexp_nonneg _ e1 loc_Exact H2) as H3. destruct (shr_fexp 53 1024 (round_nearest_even _ _) e1 loc_Exact) as [r2 e2].
  cbn [fst] in H3. destruct (shr_m r2) as [|p|p]; [done| |lia]. by destruct (e2 <=? _).
Qed.
Lemma f64_times_number (x y : f64) : f64_finite x = true -> f64_finite y = true -> f64_times x y <> S754_nan.
Proof. destruct x, y; try done. intros _ _. apply round_aux_number. lia. Qed.
Lemma f64_le_total (x y : f64) : x <> S754_nan -> y <> S754_nan -> f64_lt x y = false -> f64_le y x = true.
Proof.
  unfold f64_lt, f64_le, SFltb, SFleb. intros Hx Hy. destruct x as [?|[]| |[] m1 e1], y as [?|[]| |[] m2 e2]; cbn [SFcompare]; try done;
    change (Pos.compare_cont Eq) with Pos.compare; rewrite (Z.compare_antisym e1 e2), (Pos.compare_antisym m1 m2);
    destruct (e1 ?= e2), (m1 ?= m2)%positive; done.
Qed.

(** ** Quotients and remainders *)

(** A quotient that is an integer is exact. *)
Theorem f64_over_int (a b q : Z) : int53 a -> int53 b -> b <> 0 -> a <> 0 -> a = q * b -> f64_over (f64_of_int a) (f64_of_int b) = f64_of_int q.
Proof.
  intros Ha Hb Hb0 Ha0 Eq. assert (Hq0 : q <> 0) by lia. assert (Hq : int53 q) by (unfold int53 in *; nia).
  destruct (f64_of_int_inv a Ha Ha0) as (m1 & e1 & -> & He1 & Hm1 & Hr1).
  destruct (f64_of_int_inv b Hb Hb0) as (m2 & e2 & -> & He2 & Hm2 & Hr2).
  rewrite (f64_of_int_finite q) by done. unfold f64_over, SFdiv, SFdiv_core_binary. cbn [Zdigits2].
  assert (Hd : forall m : positive, 2 ^ 52 <= Zpos m < 2 ^ 53 -> digits m = 53) by (intros m Hm; apply digits_unique; lia).
  rewrite (Hd m1 Hr1), (Hd m2 Hr2). unfold fexp, emin.
  replace (Z.min (Z.max (53 + e1 - (53 + e2) - 53) (3 - 1024 - 53)) (e1 - e2)) with (e1 - e2 - 53) by lia.
  replace (e1 - e2 - (e1 - e2 - 53)) with 53 by lia. rewrite Z.shiftl_mul_pow2 by lia.
  set (n := Z.to_pos (Z.abs q)). assert (En : Zpos n = Z.abs q) by (unfold n; lia).
  assert (Ek : Zpos m1 * 2 ^ 53 = Zpos n * 2 ^ (53 + e2 - e1) * Zpos m2).
  { rewrite Hm1, Hm2, En, Eq, Z.abs_mul.
    replace (2 ^ (- e1) * 2 ^ 53) with (2 ^ (53 + e2 - e1) * 2 ^ (- e2)) by (rewrite <-!Z.pow_add_r by lia; f_equal; lia).
    transitivity (Z.abs q * Z.abs b * (2 ^ (- e1) * 2 ^ 53)); [lia|].
    replace (2 ^ (- e1) * 2 ^ 53) with (2 ^ (53 + e2 - e1) * 2 ^ (- e2)) by (rewrite <-!Z.pow_add_r by lia; f_equal; lia). lia. }
  rewrite Ek. pose proof (Z.div_eucl_eq (Zpos n * 2 ^ (53 + e2 - e1) * Zpos m2) (Zpos m2) ltac:(lia)) as Hde.
  pose proof (Z.mod_mul (Zpos n * 2 ^ (53 + e2 - e1)) (Zpos m2) ltac:(lia)) as Hmod. pose proof (Z.div_mul (Zpos n * 2 ^ (53 + e2 - e1)) (Zpos m2) ltac:(lia)) as Hdiv.
  unfold Z.modulo in Hmod. unfold Z.div in Hdiv. destruct (Z.div_eucl _ _) as [q' r']. subst q' r'. clear Hde.
  assert (0 < 2 ^ (53 + e2 - e1)) by (apply Z.pow_pos_nonneg; lia).
  assert (El : new_location (Zpos m2) 0 = loc_Exact) by (unfold new_location; by destruct (Z.even (Zpos m2))). rewrite El.
  destruct (Zpos n * 2 ^ (53 + e2 - e1)) as [|mz|mz] eqn:Emz; [lia| |lia].
  replace (q <? 0) with (xorb (a <? 0) (b <? 0))
    by (rewrite Eq; destruct (Z.ltb_spec q 0), (Z.ltb_spec b 0), (Z.ltb_spec (q * b) 0); cbn; nia || done).
  apply (round_aux_int n); [unfold int53 in Hq; lia| |rewrite <-Emz; do 2 f_equal; lia].
  unfold int_exponent. enough (52 < digits mz) by (rewrite (digits_scaled mz n (53 + e2 - e1)) in * by (lia || done); lia).
  apply Z.nle_gt. intros Hle. pose proof (digits2_pos_bounds mz) as [_ Hu].
  assert (2 ^ digits mz <= 2 ^ 52) by (apply Z.pow_le_mono_r; lia). nia.
Qed.

(** The remainder of integers is their remainder, with the dividend's sign. *)
Theorem f64_rem_int (a b : Z) : int53 a -> int53 b -> b <> 0 -> a <> 0 -> Z.rem a b <> 0 -> f64_rem (f64_of_int a) (f64_of_int b) = f64_of_int (Z.rem a b).
Proof.
  intros Ha Hb Hb0 Ha0 Hr0.
  destruct (f64_of_int_inv a Ha Ha0) as (m1 & e1 & -> & He1 & Hm1 & _).
  destruct (f64_of_int_inv b Hb Hb0) as (m2 & e2 & -> & He2 & Hm2 & _). cbn [f64_rem]. set (e := Z.min e1 e2).
  assert (E : (Zpos m1 * 2 ^ (e1 - e)) `mod` (Zpos m2 * 2 ^ (e2 - e)) = (Z.abs a `mod` Z.abs b) * 2 ^ (- e)).
  { rewrite Hm1, Hm2, <-!Z.mul_assoc, <-!Z.pow_add_r by lia.
    replace (- e1 + (e1 - e)) with (- e) by lia. replace (- e2 + (e2 - e)) with (- e) by lia.
    rewrite Z.mul_mod_distr_r; [done|lia|apply Z.pow_nonzero; lia]. }
  rewrite E. assert (Er : Z.rem a b = (if a <? 0 then -1 else 1) * (Z.abs a `mod` Z.abs b)).
  { rewrite Z.rem_mod by done. destruct (Z.ltb_spec a 0); [rewrite Z.sgn_neg|rewrite Z.sgn_pos]; lia. }
  assert (Hm : 0 <= Z.abs a `mod` Z.abs b < Z.abs b) by (apply Z.mod_pos_bound; lia).
  replace (if a <? 0 then - (Z.abs a `mod` Z.abs b * 2 ^ (- e)) else Z.abs a `mod` Z.abs b * 2 ^ (- e)) with (Z.rem a b * 2 ^ (- e))
    by (rewrite Er; destruct (a <? 0); lia).
  assert (Hi : int53 (Z.rem a b)) by (unfold int53 in *; rewrite Er; destruct (a <? 0); lia).
  rewrite normalize_int by (done || lia). by rewrite f64_of_int_finite.
Qed.

(** ** A product beyond 2^53 is rounded once *)

Lemma shr_scaled (m e k j : Z) : 0 <= k -> 0 <= j -> shr (whole (m * 2 ^ k)) (e - k) (j + k) = shr (whole m) e j.
Proof.
  intros Hk Hj. assert (Hs : forall r e n, 0 <= n -> shr r e n = (Nat.iter (Z.to_nat n) shr_1 r, e + n)).
  { intros r e0 [|p|p] Hn; [cbn; by rewrite Z.add_0_r|cbn [shr]; by rewrite iter_pos_nat|lia]. }
  rewrite !Hs by lia. rewrite Z2Nat.inj_add, Nat.iter_add by done.
  replace (m * 2 ^ k) with (m * 2 ^ Z.of_nat (Z.to_nat k)) by (do 2 f_equal; lia). rewrite shr_iter. f_equal. lia.
Qed.
Lemma round_aux_scaled (s : bool) (n m : positive) (e k : Z) : 0 <= k -> e <= fexp 53 1024 (digits n + e) -> Zpos m = Zpos n * 2 ^ k ->
  binary_round_aux 53 1024 s (Zpos m) (e - k) loc_Exact = binary_round_aux 53 1024 s (Zpos n) e loc_Exact.
Proof.
  intros Hk He Em. unfold binary_round_aux.
  enough (E : shr_fexp 53 1024 (Zpos m) (e - k) loc_Exact = shr_fexp 53 1024 (Zpos n) e loc_Exact) by by rewrite E.
  unfold shr_fexp. cbn [Zdigits2 shr_record_of_loc]. rewrite (digits_scaled m n k) by done.
  replace (digits n + k + (e - k)) with (digits n + e) by lia.
  replace (fexp 53 1024 (digits n + e) - (e - k)) with (fexp 53 1024 (digits n + e) - e + k) by lia.
  rewrite Em. apply shr_scaled; lia.
Qed.

(** The product of the floats is the float of the product, however large. *)
Theorem f64_times_exact (a b : Z) : int53 a -> int53 b -> a * b <> 0 -> f64_times (f64_of_int a) (f64_of_int b) = f64_of_int (a * b).
Proof.
  intros Ha Hb H0. destruct (decide (int53 (a * b))) as [|Hbig]; [by apply f64_times_int|].
  assert (Ha0 : a <> 0) by lia. assert (Hb0 : b <> 0) by lia.
  destruct (f64_of_int_inv a Ha Ha0) as (m1 & e1 & -> & He1 & Hm1 & Hr1).
  destruct (f64_of_int_inv b Hb Hb0) as (m2 & e2 & -> & He2 & Hm2 & Hr2). unfold f64_times, SFmul.
  set (n := Z.to_pos (Z.abs (a * b))). assert (En : Zpos n = Z.abs (a * b)) by (unfold n; lia).
  assert (Em : Zpos (m1 * m2) = Zpos n * 2 ^ (- (e1 + e2))).
  { rewrite Pos2Z.inj_mul, Hm1, Hm2, En, Z.abs_mul. replace (- (e1 + e2)) with (- e1 + - e2) by lia. rewrite Z.pow_add_r by lia. lia. }
  assert (Hd : 54 <= digits n).
  { apply Z.nlt_ge. intros Hlt. apply Hbig. unfold int53. pose proof (digits2_pos_bounds n) as [_ Hu].
    assert (2 ^ digits n <= 2 ^ 53) by (apply Z.pow_le_mono_r; lia). lia. }
  assert (Hf : 0 <= fexp 53 1024 (digits n + 0)) by (unfold fexp, emin; lia).
  replace (e1 + e2) with (0 - - (e1 + e2)) by lia. rewrite (round_aux_scaled _ n) by (lia || done).
  assert (Hround : forall s, binary_round_aux 53 1024 s (Zpos n) 0 loc_Exact = binary_round 53 1024 s n 0).
  { intros s. unfold binary_round. by rewrite shl_align_up by done. }
  rewrite Hround. unfold f64_of_int, binary_normalize. unfold n.
  destruct (a * b) as [|p|p] eqn:Ep; [done|..]; cbn [Z.abs Z.to_pos]; f_equal; destruct (Z.ltb_spec a 0), (Z.ltb_spec b 0); cbn; nia || done.
Qed.
