(* ===== verification/JsText.v ===== *)
(** * JsText: source text helpers

    What the compiler and the parsers of [src/] do to source text: [str::trim], identifiers,
    integer literals in a radix, UTF-8 of a [char], and the bracket-aware scanners of
    [src/compiler.rs].  A [&str] is its UTF-8 bytes; an index into it is replaced by the two
    halves it cuts. *)
From S2P Require Import Prelude IntCodec Utf8 ServerArgs.

Abbreviation c_quote := 39 (only parsing).
Abbreviation c_dquote := 34 (only parsing).
Abbreviation c_backslash := 92 (only parsing).
Abbreviation c_lparen := 40 (only parsing).
Abbreviation c_rparen := 41 (only parsing).
Abbreviation c_lbrace := 123 (only parsing).
Abbreviation c_rbrace := 125 (only parsing).
Abbreviation c_lbracket := 91 (only parsing).
Abbreviation c_rbracket := 93 (only parsing).
Abbreviation c_semi := 59 (only parsing).
Abbreviation c_eq := 61 (only parsing).

(** ** [str::trim]: the characters with the property White_Space *)

Definition ascii_ws (b : Z) : bool := in_range 9 13 b || (b =? 32).

(** The white space characters of two and three bytes. *)
Definition ws2 (b c : Z) : bool := (b =? 194) && ((c =? 133) || (c =? 160)).
Definition ws3 (b c d : Z) : bool :=
  (b =? 225) && (c =? 154) && (d =? 128)
  || (b =? 226) && (c =? 128) && (in_range 128 138 d || (d =? 168) || (d =? 169) || (d =? 175))
  || (b =? 226) && (c =? 129) && (d =? 159)
  || (b =? 227) && (c =? 128) && (d =? 128).

Fixpoint trim_start (l : bytes) : bytes :=
  match l with
  | b :: l1 =>
      if ascii_ws b then trim_start l1
      else
        match l1 with
        | c :: l2 =>
            if ws2 b c then trim_start l2
            else match l2 with d :: l3 => if ws3 b c d then trim_start l3 else l | [] => l end
        | [] => l
        end
  | [] => []
  end.

(** The same on the reversed text. *)
Fixpoint trim_rev (l : bytes) : bytes :=
  match l with
  | b :: l1 =>
      if ascii_ws b then trim_rev l1
      else
        match l1 with
        | c :: l2 =>
            if ws2 c b then trim_rev l2
            else match l2 with d :: l3 => if ws3 d c b then trim_rev l3 else l | [] => l end
        | [] => l
        end
  | [] => []
  end.
Definition trim_end (l : bytes) : bytes := rev (trim_rev (rev l)).
Definition trim (l : bytes) : bytes := trim_end (trim_start l).

Fixpoint drop_while (p : Z -> bool) (l : bytes) : bytes :=
  match l with b :: l' => if p b then drop_while p l' else l | [] => [] end.

Definition strip_prefix (p l : bytes) : option bytes :=
  if starts_with p l then Some (drop (length p) l) else None.

(** [str::find] of a pattern: the text before it and after it. *)
Fixpoint find_sub (p l : bytes) : option (bytes * bytes) :=
  match strip_prefix p l with
  | Some rest => Some ([], rest)
  | None =>
      match l with
      | [] => None
      | b :: l' => match find_sub p l' with Some (x, y) => Some (b :: x, y) | None => None end
      end
  end.

(** ** Numbers and characters *)

(** [str::parse::<i32>]. *)
Definition i32_from_str (l : bytes) : option Z :=
  match signed_dec true l with
  | Some n => if in_range (- 2 ^ 31) (2 ^ 31 - 1) n then Some n else None
  | None => None
  end.

Definition hex_digit (b : Z) : option Z :=
  if is_digit b then Some (b - 48)
  else if in_range 97 122 b then Some (b - 87)
  else if in_range 65 90 b then Some (b - 55)
  else None.

Fixpoint radix_digits (radix acc : Z) (l : bytes) : option Z :=
  match l with
  | [] => Some acc
  | b :: l' =>
      match hex_digit b with
      | Some d => if d <? radix then radix_digits radix (acc * radix + d) l' else None
      | None => None
      end
  end.

(** [uN::from_str_radix]: an optional plus sign, at least one digit, at most [max]. *)
Definition from_str_radix (radix max : Z) (l : bytes) : option Z :=
  let ds := match l with b :: (_ :: _) as l' => if b =? c_plus then l' else l | _ => l end in
  match ds with
  | [] => None
  | _ =>
      match radix_digits radix 0 ds with
      | Some v => if v <=? max then Some v else None
      | None => None
      end
  end.

(** [char::from_u32] and the UTF-8 of a [char]. *)
Definition char_from_u32 (c : Z) : option Z :=
  if in_range 55296 57343 c || (1114111 <? c) then None else Some c.
Definition utf8_encode (c : Z) : bytes :=
  if c <? 128 then [c]
  else if c <? 2048 then [192 + c / 64; 128 + c `mod` 64]
  else if c <? 65536 then [224 + c / 4096; 128 + (c / 64) `mod` 64; 128 + c `mod` 64]
  else [240 + c / 262144; 128 + (c / 4096) `mod` 64; 128 + (c / 64) `mod` 64; 128 + c `mod` 64].

(** ** Identifiers *)

Definition is_ident_start (b : Z) : bool :=
  in_range 97 122 b || in_range 65 90 b || (b =? 95) || (b =? 36).
Definition ident_char (b : Z) : bool := is_ident_start b || is_digit b.

Definition is_valid_identifier (s : bytes) : bool :=
  match s with [] => false | b :: s' => is_ident_start b && forallb ident_char s' end.

Definition is_simple_string_literal (s : bytes) : bool :=
  match s with
  | first :: (_ :: _) as s' =>
      let l := List.last s' 0 in
      ((first =? c_dquote) && (l =? c_dquote)) || ((first =? c_quote) && (l =? c_quote))
  | _ => false
  end.

(** ** The scanners of the compiler

    [in_sq] and [in_dq] are never both set; a quote after a backslash does not close. *)
Inductive Quote := Plain | InSq | InDq.

(** The quote state after a byte; [prev] is the byte before it. *)
Definition quote_next (prev : option Z) (b : Z) (q : Quote) : Quote :=
  let escaped := bool_decide (prev = Some c_backslash) in
  match q with
  | InSq => if (b =? c_quote) && negb escaped then Plain else InSq
  | InDq => if (b =? c_dquote) && negb escaped then Plain else InDq
  | Plain => if b =? c_quote then InSq else if b =? c_dquote then InDq else Plain
  end.

(** A byte the scanner looks at: outside quotes. *)
Definition plain (q : Quote) : bool := match q with Plain => true | _ => false end.

(** The text before the first [=] that is an assignment, and after it. *)
Fixpoint find_assignment_eq (prev : option Z) (l : bytes) : option (bytes * bytes) :=
  match l with
  | [] => None
  | b :: l' =>
      let next_eq := match l' with c :: _ => c =? c_eq | [] => false end in
      let after_op :=
        match prev with Some p => bool_decide (p ∈ [33; 60; 62; 43; 45; 42; 47]) | None => false end in
      if (b =? c_eq) && negb next_eq && negb after_op then Some ([], l')
      else match find_assignment_eq (Some b) l' with Some (x, y) => Some (b :: x, y) | None => None end
  end.

(** The text up to the parenthesis that closes, and after it. *)
Fixpoint find_matching_paren (prev : option Z) (q : Quote) (depth : Z) (l : bytes) : option (bytes * bytes) :=
  match l with
  | [] => None
  | b :: l' =>
      if plain q && (b =? c_rparen) && (depth =? 0) then Some ([], l')
      else
        let depth' :=
          if plain q then (if b =? c_lparen then depth + 1 else if b =? c_rparen then depth - 1 else depth)
          else depth in
        match find_matching_paren (Some b) (quote_next prev b q) depth' l' with
        | Some (x, y) => Some (b :: x, y)
        | None => None
        end
  end.

(** The text up to and with the brace that brings the depth back to 0, and after it. *)
Fixpoint braced (prev : option Z) (q : Quote) (depth : Z) (l : bytes) : option (bytes * bytes) :=
  match l with
  | [] => None
  | b :: l' =>
      if plain q && (b =? c_rbrace) && (depth - 1 =? 0) then Some ([b], l')
      else
        let depth' :=
          if plain q then (if b =? c_lbrace then depth + 1 else if b =? c_rbrace then depth - 1 else depth)
          else depth in
        match braced (Some b) (quote_next prev b q) depth' l' with
        | Some (x, y) => Some (b :: x, y)
        | None => None
        end
  end.

Definition extract_braced_body (s : bytes) : Result bytes :=
  let s := trim s in
  if negb (starts_with [c_lbrace] s) then Err
  else
    match braced None Plain 0 s with
    | Some (x, _) => Ok (removelast (tail x))
    | None => Err
    end.

(** What follows [else] after the first braced block. *)
Definition find_else_after_brace (s : bytes) : option bytes :=
  match braced None Plain 0 s with
  | None => None
  | Some (_, y) =>
      match strip_prefix (b! "else") (trim_start y) with
      | None => None
      | Some after_else =>
          match after_else with
          | [] => Some after_else
          | b :: _ => if (b =? 32) || (b =? c_lbrace) || (b =? LF) then Some after_else else None
          end
      end
  end.

(** The statement pushed when it is not blank; [cur] is the text since [start], reversed. *)
Definition push_stmt (cur : bytes) (stmts : list bytes) : list bytes :=
  match trim (rev cur) with [] => stmts | s => stmts ++ [s] end.

Fixpoint split_stmts_loop (prev : option Z) (q : Quote) (paren brace bracket : Z) (cur : bytes)
    (stmts : list bytes) (l : bytes) : list bytes :=
  match l with
  | [] => push_stmt cur stmts
  | b :: l' =>
      let go := split_stmts_loop (Some b) (quote_next prev b q) in
      if negb (plain q) then go paren brace bracket (b :: cur) stmts l'
      else if b =? c_lparen then go (paren + 1) brace bracket (b :: cur) stmts l'
      else if b =? c_rparen then go (paren - 1) brace bracket (b :: cur) stmts l'
      else if b =? c_lbrace then go paren (brace + 1) bracket (b :: cur) stmts l'
      else if b =? c_rbrace then
        if (paren =? 0) && (brace - 1 =? 0) && (bracket =? 0)
        then go paren (brace - 1) bracket [] (push_stmt (b :: cur) stmts) l'
        else go paren (brace - 1) bracket (b :: cur) stmts l'
      else if b =? c_lbracket then go paren brace (bracket + 1) (b :: cur) stmts l'
      else if b =? c_rbracket then go paren brace (bracket - 1) (b :: cur) stmts l'
      else if ((b =? c_semi) || (b =? LF)) && (paren =? 0) && (brace =? 0) && (bracket =? 0)
      then go paren brace bracket [] (push_stmt cur stmts) l'
      else go paren brace bracket (b :: cur) stmts l'
  end.
Definition simple_split_statements (body : bytes) : list bytes := split_stmts_loop None Plain 0 0 0 [] [] body.

Fixpoint for_header_loop (prev : option Z) (q : Quote) (depth : Z) (cur : bytes) (l : bytes) : list bytes :=
  match l with
  | [] => [rev cur]
  | b :: l' =>
      let go := for_header_loop (Some b) (quote_next prev b q) in
      if negb (plain q) then go depth (b :: cur) l'
      else if b =? c_lparen then go (depth + 1) (b :: cur) l'
      else if b =? c_rparen then go (depth - 1) (b :: cur) l'
      else if (b =? c_semi) && (depth =? 0) then rev cur :: go depth [] l'
      else go depth (b :: cur) l'
  end.
Definition split_for_header (header : bytes) : Result (bytes * bytes * bytes) :=
  match for_header_loop None Plain 0 [] header with
  | [x; y; z] => Ok (x, y, z)
  | _ => Err
  end.

Example split_ex : simple_split_statements (b! "a = '};'; if (x) { y; z }
 b ") = bytes_of_string <$> ["a = '};'"; "if (x) { y; z }"; "b"]%string.
Proof. vm_compute. reflexivity. Qed.
Example for_ex : split_for_header (b! "var i = 0; i < f(1;2); i++") = Ok (b! "var i = 0", b! " i < f(1;2)", b! " i++").
Proof. vm_compute. reflexivity. Qed.
Example else_ex : find_else_after_brace (b! "{ '}' } else if (y) { }") = Some (b! " if (y) { }").
Proof. vm_compute. reflexivity. Qed.
Example body_ex : extract_braced_body (b! " { a { b } } c") = Ok (b! " a { b } ").
Proof. vm_compute. reflexivity. Qed.

(** ** Lengths *)

Lemma drop_while_length (p : Z -> bool) (l : bytes) : (length (drop_while p l) <= length l)%nat.
Proof. induction l as [|b l IH]; simpl; [lia|]. destruct (p b); simpl; lia. Qed.

Lemma strip_prefix_length (p l r : bytes) : strip_prefix p l = Some r -> (length r + length p = length l)%nat.
Proof.
  unfold strip_prefix. revert l. induction p as [|b p IH]; intros l; simpl; [intros [= <-]; rewrite drop_0; lia|].
  destruct l as [|c l]; [done|]. simpl. destruct (b =? c); [|done]. simpl. intros H.
  specialize (IH l). destruct (starts_with p l); [|done]. specialize (IH H). lia.
Qed.

Lemma take_digits_length (l : bytes) : (length (take_digits l).2 <= length l)%nat.
Proof.
  induction l as [|b l IH]; simpl; [lia|]. destruct (is_digit b); [|simpl; lia].
  destruct (take_digits l). simpl in *. lia.
Qed.

Lemma trim_start_length (l : bytes) : (length (trim_start l) <= length l)%nat.
Proof.
  induction l as [l IH] using (induction_ltof1 _ (@length Z)). unfold ltof in IH.
  destruct l as [|b l1]; [simpl; lia|]. cbn [trim_start]. destruct (ascii_ws b).
  { pose proof (IH l1 ltac:(simpl; lia)). simpl. lia. }
  destruct l1 as [|c l2]; [simpl; lia|]. destruct (ws2 b c).
  { pose proof (IH l2 ltac:(simpl; lia)). simpl. lia. }
  destruct l2 as [|d l3]; [simpl; lia|]. destruct (ws3 b c d); [|simpl; lia].
  pose proof (IH l3 ltac:(simpl; lia)). simpl. lia.
Qed.
Lemma trim_rev_length (l : bytes) : (length (trim_rev l) <= length l)%nat.
Proof.
  induction l as [l IH] using (induction_ltof1 _ (@length Z)). unfold ltof in IH.
  destruct l as [|b l1]; [simpl; lia|]. cbn [trim_rev]. destruct (ascii_ws b).
  { pose proof (IH l1 ltac:(simpl; lia)). simpl. lia. }
  destruct l1 as [|c l2]; [simpl; lia|]. destruct (ws2 c b).
  { pose proof (IH l2 ltac:(simpl; lia)). simpl. lia. }
  destruct l2 as [|d l3]; [simpl; lia|]. destruct (ws3 d c b); [|simpl; lia].
  pose proof (IH l3 ltac:(simpl; lia)). simpl. lia.
Qed.
(** A digit of a radix and its value: what [hex_digit] computes. *)
Inductive digit_of (radix : Z) : Z -> Z -> Prop :=
| digit_arabic b : 48 <= b <= 57 -> b - 48 < radix -> digit_of radix b (b - 48)
| digit_small b : 97 <= b <= 122 -> b - 87 < radix -> digit_of radix b (b - 87)
| digit_capital b : 65 <= b <= 90 -> b - 55 < radix -> digit_of radix b (b - 55).
Lemma digit_value radix b d : digit_of radix b d -> hex_digit b = Some d /\ d < radix.
Proof.
  unfold hex_digit, is_digit, in_range. intros [b' H1 H2|b' H1 H2|b' H1 H2]; (split; [|done]).
  - by rewrite !(proj2 (Z.leb_le _ _)) by lia.
  - rewrite (proj2 (Z.leb_gt b' 57)) by lia. rewrite andb_false_r. by rewrite !(proj2 (Z.leb_le _ _)) by lia.
  - rewrite (proj2 (Z.leb_gt b' 57)), (proj2 (Z.leb_gt 97 b')) by lia. rewrite andb_false_r. cbn [andb].
    by rewrite !(proj2 (Z.leb_le _ _)) by lia.
Qed.
Lemma value_digit radix b d : hex_digit b = Some d -> d < radix -> digit_of radix b d.
Proof.
  unfold hex_digit, is_digit, in_range. intros E Hd. revert E.
  repeat (case_match; try done); intros [= <-];
    repeat match goal with H : _ && _ = true |- _ => apply andb_true_iff in H as [?%Z.leb_le ?%Z.leb_le] end;
    [apply digit_arabic|apply digit_small|apply digit_capital]; lia.
Qed.
(** Trimming twice trims once. *)
Lemma trim_start_prefix (l u : bytes) : trim_start l = l -> u `prefix_of` l -> trim_start u = u.
Proof.
  intros Hl [v ->]. destruct u as [|b u]; [done|]. cbn in Hl |- *. destruct (ascii_ws b).
  { pose proof (trim_start_length (u ++ v)) as H. rewrite Hl in H. cbn in H. lia. }
  destruct u as [|c u]; [done|]. cbn in Hl. destruct (ws2 b c).
  { pose proof (trim_start_length (u ++ v)) as H. rewrite Hl in H. cbn in H. lia. }
  destruct u as [|d u]; [done|]. cbn in Hl. destruct (ws3 b c d); [|done].
  pose proof (trim_start_length (u ++ v)) as H. rewrite Hl in H. cbn in H. lia.
Qed.
Lemma trim_start_twice (n : nat) : forall l, (length l <= n)%nat -> trim_start (trim_start l) = trim_start l.
Proof.
  induction n as [|n IH]; intros [|b l] Hl; cbn in Hl; try done; [lia|]. cbn [trim_start].
  destruct (ascii_ws b) eqn:E1; [apply IH; lia|]. destruct l as [|c l]; [cbn; by rewrite E1|]. cbn in Hl.
  destruct (ws2 b c) eqn:E2; [apply IH; lia|]. destruct l as [|d l]; [cbn; by rewrite E1, E2|]. cbn in Hl.
  destruct (ws3 b c d) eqn:E3; [apply IH; lia|]. cbn. by rewrite E1, E2, E3.
Qed.
Lemma trim_rev_twice (n : nat) : forall l, (length l <= n)%nat -> trim_rev (trim_rev l) = trim_rev l.
Proof.
  induction n as [|n IH]; intros [|b l] Hl; cbn in Hl; try done; [lia|]. cbn [trim_rev].
  destruct (ascii_ws b) eqn:E1; [apply IH; lia|]. destruct l as [|c l]; [cbn; by rewrite E1|]. cbn in Hl.
  destruct (ws2 c b) eqn:E2; [apply IH; lia|]. destruct l as [|d l]; [cbn; by rewrite E1, E2|]. cbn in Hl.
  destruct (ws3 d c b) eqn:E3; [apply IH; lia|]. cbn. by rewrite E1, E2, E3.
Qed.
Lemma trim_rev_drops (n : nat) : forall l, (length l <= n)%nat -> trim_rev l `suffix_of` l.
Proof.
  induction n as [|n IH]; intros [|b l] Hl; cbn in Hl; try done; [lia|]. cbn [trim_rev].
  destruct (ascii_ws b); [apply suffix_cons_r, IH; lia|]. destruct l as [|c l]; [done|]. cbn in Hl.
  destruct (ws2 c b); [do 2 apply suffix_cons_r; apply IH; lia|]. destruct l as [|d l]; [done|]. cbn in Hl.
  destruct (ws3 d c b); [do 3 apply suffix_cons_r; apply IH; lia|done].
Qed.
Lemma trim_trim (l : bytes) : trim (trim l) = trim l.
Proof.
  unfold trim, trim_end. set (t := trim_start l). assert (Ht : trim_start t = t) by (by apply (trim_start_twice (length l))).
  rewrite (trim_start_prefix t); [|done|].
  - rewrite rev_involutive. by rewrite (trim_rev_twice (length (rev t))).
  - destruct (trim_rev_drops _ (rev t) (le_n _)) as [k E]. exists (rev k). by rewrite <- rev_app_distr, <- E, rev_involutive.
Qed.
Lemma trim_length (l : bytes) : (length (trim l) <= length l)%nat.
Proof.
  unfold trim, trim_end. rewrite length_rev. pose proof (trim_rev_length (rev (trim_start l))) as H.
  rewrite length_rev in H. pose proof (trim_start_length l). lia.
Qed.
