(* ===== verification/JsBuffers.v ===== *)
(** * JsBuffers: the bytes behind typed arrays

    The part of [src/api/typed_array.rs] that knows no context: the element kinds, how an element
    is laid out in a buffer, little end first, and how a number becomes one.  Buffers and views
    live in Rust's own heap, behind the opaque pointers of their objects: [Box] is what such a
    pointer leads to. *)
From Stdlib Require Import SpecFloat.
From S2P Require Import Prelude IntCodec Utf8 ServerArgs JsFloat JsValue JsMem.

Inductive TypedArrayKind := Uint8 | Uint8Clamped | Int8 | Int16 | Uint16 | Int32 | Uint32 | Float32 | Float64.
#[export] Instance kind_eq_dec : EqDecision TypedArrayKind.
Proof. solve_decision. Defined.

Definition elem_size (k : TypedArrayKind) : Z :=
  match k with
  | Uint8 | Uint8Clamped | Int8 => 1
  | Int16 | Uint16 => 2
  | Int32 | Uint32 | Float32 => 4
  | Float64 => 8
  end.
Definition typed_array_kind_from_class_id (id : Z) : option TypedArrayKind :=
  if id =? 21 then Some Uint8 else if id =? 19 then Some Uint8Clamped else if id =? 20 then Some Int8
  else if id =? 22 then Some Int16 else if id =? 23 then Some Uint16 else if id =? 24 then Some Int32
  else if id =? 25 then Some Uint32 else if id =? 26 then Some Float32 else if id =? 27 then Some Float64 else None.

Record ArrayBufferData := MkBuffer { buffer_bytes : bytes }.
Record TypedArrayData := MkTyped { ta_buffer : Value; ta_offset : Z; ta_length : Z; ta_kind : TypedArrayKind }.
Inductive Box := BoxBuffer (d : ArrayBufferData) | BoxTyped (d : TypedArrayData).

(** ** Bytes of a number *)

Fixpoint to_le_bytes (n : nat) (v : Z) : bytes :=
  match n with O => [] | S n' => v `mod` 256 :: to_le_bytes n' (v / 256) end.
Fixpoint from_le_bytes (l : bytes) : Z := match l with [] => 0 | b :: l' => b + 256 * from_le_bytes l' end.
(** The low [n] bytes read as a signed number. *)
Definition signed (n : nat) (v : Z) : Z := if 2 ^ (8 * Z.of_nat n - 1) <=? v then v - 2 ^ (8 * Z.of_nat n) else v.

(** [f32]: binary32 on the same exact model; conversions round. *)
Definition f32_of_f64 (x : f64) : spec_float :=
  match x with S754_finite s m e => binary_normalize 24 128 (if s then - Zpos m else Zpos m) e s | _ => x end.
Definition f64_of_f32 (x : spec_float) : f64 :=
  match x with S754_finite s m e => binary_normalize 53 1024 (if s then - Zpos m else Zpos m) e s | _ => x end.
Definition f32_bits (x : spec_float) : Z :=
  let sign (s : bool) := if s then 2 ^ 31 else 0 in
  match x with
  | S754_zero s => sign s
  | S754_infinity s => sign s + 255 * 2 ^ 23
  | S754_nan => 255 * 2 ^ 23 + 2 ^ 22
  | S754_finite s m e => if Zpos m <? 2 ^ 23 then sign s + Zpos m else sign s + (e + 150) * 2 ^ 23 + (Zpos m - 2 ^ 23)
  end.
Definition f32_from_bits (b : Z) : spec_float :=
  let s := 2 ^ 31 <=? b in
  let ex := (b / 2 ^ 23) `mod` 256 in
  let fr := b `mod` 2 ^ 23 in
  if ex =? 255 then (if fr =? 0 then S754_infinity s else S754_nan)
  else if ex =? 0 then match fr with Zpos m => S754_finite s m (-149) | _ => S754_zero s end
  else match fr + 2 ^ 23 with Zpos m => S754_finite s m (ex - 150) | _ => S754_nan end.

(** ** A number as an element *)

(** [n.trunc() as i64], saturating. *)
Definition trunc_i64 (n : f64) : Z := f64_cast (- 2 ^ 63) (2 ^ 63 - 1) n.
(** [n.floor()] as an integer and what is left of a finite number at most 2^53. *)
Definition f64_floor (n : f64) : f64 :=
  match n with
  | S754_finite s m e =>
      let q := f64_trunc n in
      f64_of_int (if s && f64_lt n (f64_of_int q) then q - 1 else q)
  | _ => n
  end.
Definition half : f64 := f64_over (f64_of_int 1) (f64_of_int 2).
(** To the nearest, ties to even. *)
Definition clamp_u8_clamped (n : f64) : Z :=
  match n with
  | S754_nan | S754_infinity _ => 0
  | _ =>
      if f64_le n f64_zero then 0
      else if f64_le (f64_of_int 255) n then 255
      else
        let floor := f64_floor n in
        let frac := f64_sub n floor in
        let up := f64_add floor (f64_of_int 1) in
        let rounded :=
          if f64_lt half frac then up else if f64_lt frac half then floor
          else if Z.rem (trunc_i64 floor) 2 =? 0 then floor else up in
        let rounded := if f64_lt rounded f64_zero then f64_zero else rounded in
        let rounded := if f64_lt (f64_of_int 255) rounded then f64_of_int 255 else rounded in
        f64_cast 0 255 rounded
  end.

(** What an element holds: an [i32], or a number that may need a float. *)
Inductive Elem := EInt (n : Z) | ENum (f : f64).
Definition load_element (k : TypedArrayKind) (l : bytes) : Elem :=
  match k with
  | Uint8 | Uint8Clamped => EInt (from_le_bytes (take 1 l))
  | Int8 => EInt (signed 1 (from_le_bytes (take 1 l)))
  | Int16 => EInt (signed 2 (from_le_bytes (take 2 l)))
  | Uint16 => EInt (from_le_bytes (take 2 l))
  | Int32 => EInt (signed 4 (from_le_bytes (take 4 l)))
  | Uint32 =>
      let v := from_le_bytes (take 4 l) in
      if v <=? 2 ^ 31 - 1 then EInt v else ENum (f64_of_int v)
  | Float32 => ENum (f64_of_f32 (f32_from_bits (from_le_bytes (take 4 l))))
  | Float64 => ENum (f64_from_bits (from_le_bytes (take 8 l)))
  end.
(** The bytes of a small integer or a float; 32-bit integers come as such. *)
Definition store_number (k : TypedArrayKind) (n : f64) : bytes :=
  match k with
  | Uint8 | Int8 => to_le_bytes 1 (trunc_i64 n `mod` 256)
  | Uint8Clamped => [clamp_u8_clamped n]
  | Int16 | Uint16 => to_le_bytes 2 (trunc_i64 n `mod` 2 ^ 16)
  | Int32 | Uint32 => []
  | Float32 => to_le_bytes 4 (f32_bits (f32_of_f64 n))
  | Float64 => to_le_bytes 8 (f64_bits n)
  end.
(** [buf.bytes[start..start + n].copy_from_slice(&b)] *)
Definition write_bytes (start : nat) (b l : bytes) : bytes := take start l ++ b ++ drop (start + length b) l.

Example buffer_bytes_ex :
  clamp_u8_clamped (f64_over (f64_of_int 5) (f64_of_int 2)) = 2 /\ clamp_u8_clamped (f64_over (f64_of_int 7) (f64_of_int 2)) = 4 /\
  clamp_u8_clamped (f64_of_int (-3)) = 0 /\ clamp_u8_clamped (f64_of_int 300) = 255 /\
  store_number Int16 (f64_of_int (-2)) = [254; 255] /\ load_element Int16 [254; 255] = EInt (-2) /\
  load_element Uint32 [255; 255; 255; 255] = ENum (f64_of_int (2 ^ 32 - 1)) /\
  load_element Float32 (store_number Float32 half) = ENum half /\
  store_number Float32 (f64_round false 1 (-1)) = [205; 204; 204; 61] /\
  load_element Float64 (store_number Float64 (f64_round true 1 (-1))) = ENum (f64_round true 1 (-1)).
Proof. by vm_compute. Qed.
