(* ===== verification/JsBytecode.v ===== *)
(** * JsBytecode: instructions, functions and modules of the bytecode

    The data of [src/bytecode.rs], and the context the compiler and the machine thread: the
    heap, the scopes and the current source of [src/context.rs].  The value constructors of
    [src/api/mod.rs] and [src/helpers.rs] the compiler needs are here too. *)
From S2P Require Import Prelude JsValue JsMem JsScope JsSource JsFloat JsBuffers.

Module OpCode.
Inductive t :=
  | Nop | Const | LoadGlobal | StoreGlobal | LoadLocal | StoreLocal
  | Add | Sub | Mul | Div | Mod | Eq | Neq | StrictEq | StrictNeq | Lt | Gt | Le | Ge
  | Not | And | Or | Drop | Dup | Jump | JumpIfFalse | JumpIfTrue | Return | Call
  | GetProp | SetProp | GetElem | Concat | ToNumber | Typeof | Neg
  | BitAnd | BitOr | BitXor | Shl | Shr | UShr | BitNot | IncLocal | Pop | CallMethod.

#[export] Instance t_eq_dec : EqDecision t.
Proof. solve_decision. Defined.
End OpCode.

Record Instruction := MkIns { ins_op : OpCode.t; ins_a : Z; ins_b : Z }.

(** A compiled function; the fields the machine never reads ([name], [string_constants],
    [stack_size]) stay at what [BytecodeFunction::new] gives them. *)
Record BytecodeFunction := {
  fn_name : option bytes;
  code : list Instruction;
  constants : list Value;
  string_constants : list bytes;
  locals : list bytes;
  stack_size : Z
}.
Definition new_function (name : option bytes) : BytecodeFunction :=
  {| fn_name := name; code := []; constants := []; string_constants := []; locals := []; stack_size := 0 |}.

Record BytecodeModule := { functions : list BytecodeFunction; main : nat }.
Definition new_module (f : BytecodeFunction) : BytecodeModule := {| functions := [f]; main := 0 |}.

(** ** The context *)

(** A parameter as [call_closure_with_this] reads it from the parameter text. *)
Record CachedParamSpec := { ps_name : bytes; ps_default : option bytes; ps_rest : bool }.

(** What is kept of texts already parsed or compiled: bodies and parameters by the bits of
    their string values, modules by those bits or a script's hash ([None]: not compilable), and
    the last script's statements. *)
Record Caches := MkCaches {
  body_cache : gmap Z (list bytes);
  param_cache : gmap Z (list CachedParamSpec);
  bytecode_cache : gmap Z (option BytecodeModule);
  script_cache : ScriptCache
}.
Definition no_caches : Caches := MkCaches ∅ ∅ ∅ {| script_cache_hash := 0; script_cache_stmts := [] |}.
Definition set_body_cache (key : Z) (stmts : list bytes) (k : Caches) : Caches :=
  MkCaches (<[key := stmts]> (body_cache k)) (param_cache k) (bytecode_cache k) (script_cache k).
Definition set_param_cache (key : Z) (specs : list CachedParamSpec) (k : Caches) : Caches :=
  MkCaches (body_cache k) (<[key := specs]> (param_cache k)) (bytecode_cache k) (script_cache k).
Definition set_bytecode_cache (key : Z) (m : option BytecodeModule) (k : Caches) : Caches :=
  MkCaches (body_cache k) (param_cache k) (<[key := m]> (bytecode_cache k)) (script_cache k).
Definition with_script_cache (sc : ScriptCache) (k : Caches) : Caches :=
  MkCaches (body_cache k) (param_cache k) (bytecode_cache k) sc.

(** What became of the calls into the interpreter that the model makes through an interface whose
    operations always answer: all of them answered, one panicked, or one ran out of the model's
    fuel.  What a step computes after the second or third is discarded when the step ends. *)
Inductive Fate := Alive | Fallen | Starved.

(** [boxes] are the buffers and views that opaque pointers lead to, which are never freed; [fate]
    is the model's own. *)
Record Ctx := MkCtx {
  heap : JsHeap; scope : Scope; source : Source; caches : Caches; boxes : list Box; fate : Fate
}.
Definition with_heap (h : JsHeap) (c : Ctx) : Ctx := MkCtx h (scope c) (source c) (caches c) (boxes c) (fate c).
Definition with_scope (s : Scope) (c : Ctx) : Ctx := MkCtx (heap c) s (source c) (caches c) (boxes c) (fate c).
Definition with_source (src : Source) (c : Ctx) : Ctx := MkCtx (heap c) (scope c) src (caches c) (boxes c) (fate c).
Definition with_caches (k : Caches) (c : Ctx) : Ctx := MkCtx (heap c) (scope c) (source c) k (boxes c) (fate c).
Definition with_boxes (bs : list Box) (c : Ctx) : Ctx := MkCtx (heap c) (scope c) (source c) (caches c) bs (fate c).
(** The first failure stays. *)
Definition befall (f : Fate) (c : Ctx) : Ctx :=
  match fate c with Alive => MkCtx (heap c) (scope c) (source c) (caches c) (boxes c) f | _ => c end.
(** What befell a step from [c] to [c']. *)
Definition befell (c c' : Ctx) : Fate := match fate c with Alive => fate c' | _ => Alive end.
Lemma befell_nothing (c c' : Ctx) : fate c' = fate c -> befell c c' = Alive.
Proof. unfold befell. by destruct (fate c). Qed.
Lemma befall_scope (f : Fate) (c : Ctx) : scope (befall f c) = scope c.
Proof. unfold befall. by destruct (fate c). Qed.

Definition js_throw_out_of_memory (c : Ctx) : Value * Ctx :=
  (EXCEPTION W, with_scope (set_exception (UNDEFINED W) (scope c)) c).

Definition js_new_float64 (d : f64) (c : Ctx) : Value * Ctx :=
  match alloc_float (f64_bits d) (heap c) with
  | (Some ptr, h) => (from_ptr ptr, with_heap h c)
  | (None, h) => js_throw_out_of_memory (with_heap h c)
  end.

Definition js_new_string (buf : bytes) (c : Ctx) : Value * Ctx :=
  match alloc_string buf (heap c) with
  | (Some header, h) => (from_ptr header, with_heap h c)
  | (None, h) => js_throw_out_of_memory (with_heap h c)
  end.

(** An integer when the number is one (and not minus zero), else a float block. *)
Definition number_to_value (n : f64) (c : Ctx) : Value * Ctx :=
  let i := f64_as_i32 n in
  if f64_eq (f64_of_int i) n && (negb (f64_eq n f64_zero) || negb (f64_sign_negative n))
  then (from_int32 W i, c)
  else js_new_float64 n c.
Lemma number_to_value_fate (n : f64) (c : Ctx) : fate (number_to_value n c).2 = fate c.
Proof. unfold number_to_value, js_new_float64. destruct (_ && _); [done|]. by destruct (alloc_float _ _) as [[?|] ?]. Qed.
