(* ===== verification/JsNumberFmt.v ===== *)
(** * JsNumberFmt: what the methods ask of other crates, and the forms of numbers

    [JsPlatform] is the class of what is not this program's: libm, the clock, case mapping and
    regular expressions, with a plain instance.  The rest is [src/api/number_fmt.rs]: fixed,
    exponential, precision and radix forms of a number, on exact binary64. *)
From Stdlib Require Import SpecFloat.
From S2P Require Import Prelude IntCodec Utf8 ServerArgs JsFloat JsText JsBuffers JsBytecode.

(** A group's first byte and the byte after its last. *)
Abbreviation Span := (nat * nat)%type.

Class JsPlatform := {
  f64_sin : f64 -> f64; f64_cos : f64 -> f64; f64_tan : f64 -> f64;
  f64_asin : f64 -> f64; f64_acos : f64 -> f64; f64_atan : f64 -> f64; f64_atan2 : f64 -> f64 -> f64;
  f64_exp : f64 -> f64; f64_ln : f64 -> f64; f64_log10 : f64 -> f64;
  f64_pow : f64 -> f64 -> f64; f64_powi : f64 -> Z -> f64;
  (** [SystemTime::now()] since the epoch, in milliseconds, when the interpreter is in a context;
      [None] before the epoch. *)
  millis_now : Ctx -> option Z;
  to_uppercase : bytes -> bytes;
  to_lowercase : bytes -> bytes;
  Regex : Type;
  (** A compiled pattern, or the message of the error. *)
  regex_new : bytes -> Regex + bytes;
  (** [None] is an error of the run. *)
  regex_is_match : Regex -> bytes -> option bool;
  regex_find : Regex -> bytes -> option (option Span);
  regex_captures : Regex -> bytes -> option (option (list (option Span)));
  regex_find_iter : Regex -> bytes -> list (option Span);
  regex_captures_iter : Regex -> bytes -> list (option (list (option Span)))
}.

(** A platform for runs: exact where a power of ten is asked for, and patterns that are texts. *)
Fixpoint occurrences (fuel : nat) (p l : bytes) (i : nat) : list Span :=
  match fuel with
  | O => []
  | S n =>
      if starts_with p l then (i, i + length p)%nat :: occurrences n p (drop (Nat.max 1 (length p)) l) (i + Nat.max 1 (length p))
      else match l with [] => [] | _ :: l' => occurrences n p l' (S i) end
  end.
Definition plain_platform : JsPlatform := {|
  f64_sin x := x; f64_cos x := x; f64_tan x := x; f64_asin x := x; f64_acos x := x; f64_atan x := x; f64_atan2 x _ := x;
  f64_exp x := x; f64_ln x := x; f64_log10 x := x; f64_pow x _ := x;
  f64_powi x n := if 0 <=? n then f64_of_int (f64_trunc x ^ n) else f64_over (f64_of_int 1) (f64_of_int (f64_trunc x ^ (- n)));
  millis_now _ := Some 0;
  to_uppercase := fmap (M:=list) to_ascii_uppercase; to_lowercase l := l;
  Regex := bytes;
  regex_new p := inl p;
  regex_is_match p l := Some (bool_decide (occurrences (S (length l)) p l 0 <> []));
  regex_find p l := Some (head (occurrences (S (length l)) p l 0));
  regex_captures p l := Some ((fun s => [Some s]) <$> head (occurrences (S (length l)) p l 0));
  regex_find_iter p l := Some <$> occurrences (S (length l)) p l 0;
  regex_captures_iter p l := (fun s => Some [Some s]) <$> occurrences (S (length l)) p l 0
|}.

(** ** The standard library's forms *)

(** A quotient, to the nearest integer, ties to even. *)
Definition half_even (n d : Z) : Z :=
  let q := n / d in
  let r := n `mod` d in
  if 2 * r <? d then q else if d <? 2 * r then q + 1 else if Z.even q then q else q + 1.
Definition sign_text (s : bool) : bytes := if s then [c_minus] else [].
(** Digits of a number of [10^-prec]. *)
Definition fixed_digits (prec q : Z) : bytes :=
  let ds := int_to_string q in
  let ds := zeros (prec + 1 - Z.of_nat (length ds)) ++ ds in
  let whole := (length ds - Z.to_nat prec)%nat in
  take whole ds ++ (if 0 <? prec then 46 :: drop whole ds else []).
(** [format!("{:.*}", prec, x)]: the exact value, rounded. *)
Definition format_prec (prec : Z) (x : f64) : bytes :=
  match x with
  | S754_nan => b! "NaN"
  | S754_infinity s => sign_text s ++ b! "inf"
  | S754_zero s => sign_text s ++ fixed_digits prec 0
  | S754_finite s m e => let '(n, d) := f64_ratio m e in sign_text s ++ fixed_digits prec (half_even (n * 10 ^ prec) d)
  end.
(** [format!("{:e}", x)]: the shortest digits. *)
Definition format_e (x : f64) : bytes :=
  match x with
  | S754_nan => b! "NaN"
  | S754_infinity s => sign_text s ++ b! "inf"
  | S754_zero s => sign_text s ++ b! "0e0"
  | S754_finite s m e =>
      let '(n, d) := f64_ratio m e in
      let '(q, p) := shortest 17 s x n d (dec_exponent n d) 1 in
      let ds := int_to_string q in
      sign_text s ++ take 1 ds ++ (if (1 <? length ds)%nat then 46 :: drop 1 ds else []) ++
      [101] ++ int_to_string (Z.of_nat (length ds) - 1 + p)
  end.

(** ** [number_fmt.rs] *)

Definition normalize_exponent (s : bytes) : bytes :=
  match (match find_sub [101] s with Some r => Some r | None => find_sub [69] s end) with
  | None => s
  | Some (base, exp) =>
      let '(sign, ds) :=
        match strip_prefix [c_minus] exp with
        | Some rest => (c_minus, rest)
        | None => (c_plus, match strip_prefix [c_plus] exp with Some rest => rest | None => exp end)
        end in
      let ds := drop_while (Z.eqb c_0) ds in
      base ++ [101; sign] ++ (if bool_decide (ds = []) then [c_0] else ds)
  end.

Definition round_positive (n : f64) : f64 :=
  let floor := f64_floor n in
  let frac := f64_sub n floor in
  if f64_lt half frac then f64_add floor (f64_of_int 1) else if f64_lt frac half then floor else f64_add floor (f64_of_int 1).
Definition round_half_away_from_zero (n : f64) : f64 :=
  match n with
  | S754_nan | S754_infinity _ => n
  | _ => if f64_sign_negative n then f64_neg (round_positive (f64_neg n)) else round_positive n
  end.

Definition format_radix_int_loop (radix : Z) : nat -> Z -> bytes -> bytes :=
  fix go (fuel : nat) (n : Z) (acc : bytes) : bytes :=
  match fuel with
  | O => acc
  | S fuel' =>
      if 0 <? n then
        let rem := n `mod` radix in
        go fuel' (n / radix) ((if rem <? 10 then 48 + rem else 87 + rem) :: acc)
      else acc
  end.
(** An [i64] has at most 64 digits. *)
Definition format_radix_int (value radix : Z) : bytes :=
  if (radix <? 2) || (36 <? radix) then []
  else if value =? 0 then [c_0]
  else sign_text (value <? 0) ++ format_radix_int_loop radix 64 (Z.abs value) [].

Section Forms.
Context `{P : JsPlatform}.

(** NaN and the infinities, which every form prints alike. *)
Definition not_finite (n : f64) : option bytes :=
  match n with
  | S754_nan => Some (b! "NaN")
  | S754_infinity s => Some (sign_text s ++ b! "Infinity")
  | _ => None
  end.
Definition ten : f64 := f64_of_int 10.
(** A number rounded to [places] decimals, printed with them; a negative one keeps its sign at zero. *)
Definition rounded_fixed (n : f64) (places : Z) : bytes :=
  let factor := f64_powi ten places in
  let rounded := f64_over (round_half_away_from_zero (f64_times n factor)) factor in
  if f64_eq rounded f64_zero && f64_sign_negative n then b! "-0" ++ (if 0 <? places then 46 :: zeros places else [])
  else format_prec places rounded.
Definition format_fixed (n : f64) (digits : Z) : bytes :=
  match not_finite n with Some t => t | None => rounded_fixed n (Z.max 0 digits) end.

Definition f64_abs (x : f64) : f64 := if f64_sign_negative x then f64_neg x else x.
(** [abs.log10().floor() as i32] *)
Definition decimal_exponent (n : f64) : Z := f64_as_i32 (f64_floor (f64_log10 (f64_abs n))).
Definition signed_text (e : Z) : bytes := if e <? 0 then int_to_string e else c_plus :: int_to_string e.
Definition format_exponential_rounded (n : f64) (digits : Z) : bytes :=
  match not_finite n with
  | Some t => t
  | None =>
      if f64_eq n f64_zero then c_0 :: (if 0 <? digits then 46 :: zeros digits else []) ++ b! "e+0"
      else
        let exp := decimal_exponent n in
        let factor := f64_powi ten digits in
        let normalized := f64_over (round_half_away_from_zero (f64_times (f64_over (f64_abs n) (f64_powi ten exp)) factor)) factor in
        let carry := f64_le ten normalized in
        let normalized := if carry then f64_over normalized ten else normalized in
        let exp := if carry then exp + 1 else exp in
        normalize_exponent (sign_text (f64_sign_negative n) ++ format_prec digits normalized ++ [101] ++ signed_text exp)
  end.
Definition format_exponential (n : f64) (digits : option Z) : bytes :=
  match not_finite n with
  | Some t => t
  | None => match digits with Some d => format_exponential_rounded n d | None => normalize_exponent (format_e n) end
  end.
Definition format_precision (n : f64) (precision : Z) : bytes :=
  match not_finite n with
  | Some t => t
  | None =>
      if f64_eq n f64_zero then c_0 :: (if 1 <? precision then 46 :: zeros (precision - 1) else [])
      else
        let exp := decimal_exponent n in
        if (exp <? -6) || (precision <=? exp) then format_exponential n (Some (precision - 1))
        else rounded_fixed n (Z.max 0 (precision - exp - 1))
  end.
End Forms.

Example number_forms :
  format_fixed (P:=plain_platform) (f64_round false 1005 (-3)) 2 = b! "1.00" /\
  format_fixed (P:=plain_platform) (f64_round true 25 (-1)) 0 = b! "-3" /\
  format_fixed (P:=plain_platform) (f64_round true 1 (-3)) 2 = b! "-0.00" /\
  format_exponential (P:=plain_platform) (f64_round false 12345 (-2)) None = b! "1.2345e+2" /\
  format_exponential (P:=plain_platform) f64_zero (Some 2) = b! "0.00e+0" /\
  format_e (f64_round true 5 (-324)) = b! "-5e-324" /\ normalize_exponent (b! "1e-007") = b! "1e-7" /\
  format_radix_int (-255) 16 = b! "-ff" /\ format_radix_int (2 ^ 63 - 1) 36 = b! "1y2p0ij32e8e7" /\ format_prec 3 half = b! "0.500".
Proof. by vm_compute. Qed.
