(* ===== verification/JsCompile.v ===== *)
(** * JsCompile: the one-pass bytecode compiler

    [src/compiler.rs]: [ExprCompiler] parses an expression and emits its code as it goes,
    [StmtCompiler] cuts statements out of the source text and calls it.  The state is the
    context (string and float constants are allocated in the heap), the function under
    construction and the input that is left; an error keeps the context's changes.  The
    message of a [CompileError] is dropped: its callers discard it.

    A production of the expression grammar is a definition over the parser of all productions,
    [rec]; [parse] ties the knot on fuel, and [parse_fuel] is enough for any input
    ([JsCompileTotal]). *)
From S2P Require Import Prelude IntCodec Utf8 ServerArgs JsText JsValue JsMem JsScope JsFloat JsBytecode.

(** ** The state and its monad *)

Record CState := MkCState { cs_ctx : Ctx; cs_func : BytecodeFunction; cs_rest : bytes }.

(** [None] is out of fuel. *)
Definition P (A : Type) : Type := CState -> option (Result A * CState).
Definition ret {A} (x : A) : P A := fun st => Some (Ok x, st).
Definition fail {A} : P A := fun st => Some (Err, st).
Definition bind {A B} (m : P A) (k : A -> P B) : P B := fun st =>
  match m st with
  | None => None
  | Some (Err, st) => Some (Err, st)
  | Some (Ok x, st) => k x st
  end.
Notation "x <~ m ;; k" := (bind m (fun x => k)) (at level 100, m at next level, right associativity) : muon_scope.
Notation "' x <~ m ;; k" := (bind m (fun x => k))
  (at level 20, x pattern, m at level 99, k at level 200, only parsing) : muon_scope.
Notation "m ;> k" := (bind m (fun _ => k)) (at level 100, right associativity) : muon_scope.

Definition with_code (cd : list Instruction) (f : BytecodeFunction) : BytecodeFunction :=
  {| fn_name := fn_name f; code := cd; constants := constants f; string_constants := string_constants f;
     locals := locals f; stack_size := stack_size f |}.
Definition with_constants (cs : list Value) (f : BytecodeFunction) : BytecodeFunction :=
  {| fn_name := fn_name f; code := code f; constants := cs; string_constants := string_constants f;
     locals := locals f; stack_size := stack_size f |}.
Definition with_locals (ls : list bytes) (f : BytecodeFunction) : BytecodeFunction :=
  {| fn_name := fn_name f; code := code f; constants := constants f; string_constants := string_constants f;
     locals := ls; stack_size := stack_size f |}.

Definition as_idx (n : nat) : Z := as_u32 (Z.of_nat n).

Definition get_func : P BytecodeFunction := fun st => Some (Ok (cs_func st), st).
Definition set_func (f : BytecodeFunction) : P unit := fun st => Some (Ok tt, MkCState (cs_ctx st) f (cs_rest st)).
Definition peek_rest : P bytes := fun st => Some (Ok (cs_rest st), st).
Definition set_rest (l : bytes) : P unit := fun st => Some (Ok tt, MkCState (cs_ctx st) (cs_func st) l).
(** A step of the context alone. *)
Definition on_ctx {A} (f : Ctx -> A * Ctx) : P A := fun st =>
  let '(x, c) := f (cs_ctx st) in Some (Ok x, MkCState c (cs_func st) (cs_rest st)).

Definition emit (op : OpCode.t) (a b : Z) : P unit :=
  f <~ get_func ;; set_func (with_code (code f ++ [MkIns op a b]) f).
Definition emit_op (op : OpCode.t) : P unit := emit op 0 0.
Definition emit_inst (op : OpCode.t) (a : Z) : P unit := emit op a 0.

(** The position of the next instruction. *)
Definition here : P nat := f <~ get_func ;; ret (length (code f)).
Definition emit_jump (op : OpCode.t) : P nat := at_ <~ here ;; emit_op op ;> ret at_.
Definition set_target (target : Z) (i : Instruction) : Instruction := MkIns (ins_op i) target (ins_b i).
Definition patch_jump (at_ : nat) : P unit :=
  f <~ get_func ;; set_func (with_code (alter (set_target (as_idx (length (code f)))) at_ (code f)) f).

(** *** Locals and constants *)

Definition find_local_in (ls : list bytes) (name : bytes) : option Z :=
  as_idx <$> position (fun n => bool_decide (n = name)) ls.
Definition find_local (name : bytes) : P (option Z) := f <~ get_func ;; ret (find_local_in (locals f) name).
Definition ensure_local (name : bytes) : P Z :=
  f <~ get_func ;;
  match find_local_in (locals f) name with
  | Some idx => ret idx
  | None => set_func (with_locals (locals f ++ [name]) f) ;> ret (as_idx (length (locals f)))
  end.

Definition push_const (v : Value) : P Z :=
  f <~ get_func ;; set_func (with_constants (constants f ++ [v]) f) ;> ret (as_idx (length (constants f))).
Definition add_undefined_const : P Z :=
  f <~ get_func ;;
  match position (fun v => is_undefined W v) (constants f) with
  | Some i => ret (as_idx i)
  | None => push_const (UNDEFINED W)
  end.
Definition add_number_const (n : f64) : P Z :=
  v <~ on_ctx (number_to_value n) ;;
  f <~ get_func ;;
  match position (fun w => w =? v) (constants f) with
  | Some i => ret (as_idx i)
  | None => push_const v
  end.
Definition add_string_const (s : bytes) : P Z :=
  h <~ on_ctx (fun c => (heap c, c)) ;;
  f <~ get_func ;;
  match position (fun w => bool_decide (string_bytes h w = Some s)) (constants f) with
  | Some i => ret (as_idx i)
  | None => v <~ on_ctx (js_new_string s) ;; push_const v
  end.

Definition emit_const (n : f64) : P unit := idx <~ add_number_const n ;; emit_inst OpCode.Const idx.
Definition emit_string_const (s : bytes) : P unit := idx <~ add_string_const s ;; emit_inst OpCode.Const idx.
Definition emit_undefined : P unit := idx <~ add_undefined_const ;; emit_inst OpCode.Const idx.
(** [true], [false] and [null] are pushed without a search. *)
Definition emit_literal (v : Value) : P unit := idx <~ push_const v ;; emit_inst OpCode.Const idx.

(** ** The lexer *)

Definition is_space (b : Z) : bool := (b =? 32) || (b =? LF) || (b =? CR) || (b =? 9).
Definition skip_spaces (l : bytes) : bytes := drop_while is_space l.
Definition skip_ws : P unit := l <~ peek_rest ;; set_rest (skip_spaces l).

Definition check (b : Z) : P bool := l <~ peek_rest ;; ret (bool_decide (head l = Some b)).
Definition consume (b : Z) : P bool :=
  l <~ peek_rest ;;
  if bool_decide (head l = Some b) then set_rest (tail l) ;> ret true else ret false.
Definition consume_seq (s : bytes) : P bool :=
  l <~ peek_rest ;;
  match strip_prefix s l with Some l' => set_rest l' ;> ret true | None => ret false end.
Definition expect (b : Z) : P unit := skip_ws ;> ok <~ consume b ;; if ok : bool then ret tt else fail.

Fixpoint take_ident (l : bytes) : bytes * bytes :=
  match l with
  | b :: l' => if ident_char b then let '(x, y) := take_ident l' in (b :: x, y) else ([], l)
  | [] => ([], [])
  end.
Definition lex_identifier (l : bytes) : option (bytes * bytes) :=
  match l with
  | b :: l' => if is_ident_start b then let '(x, y) := take_ident l' in Some (b :: x, y) else None
  | [] => None
  end.
Definition parse_identifier : P (option bytes) :=
  skip_ws ;> l <~ peek_rest ;;
  match lex_identifier l with
  | Some (name, l') => set_rest l' ;> ret (Some name)
  | None => ret None
  end.

(** The digits, point and exponent [parse_number] reads, and what is left. *)
Definition lex_mantissa (l : bytes) : bytes * bytes :=
  let '(whole, r) := take_digits l in
  match r with
  | b :: r' => if b =? 46 then let '(frac, r2) := take_digits r' in (whole ++ b :: frac, r2) else (whole, r)
  | [] => (whole, [])
  end.
Definition lex_exponent (l : bytes) : bytes * bytes :=
  match l with
  | e :: r =>
      if (e =? 101) || (e =? 69) then
        let '(sign, r) :=
          match r with b :: r' => if (b =? c_plus) || (b =? c_minus) then ([b], r') else ([], r) | [] => ([], []) end in
        let '(ds, r) := take_digits r in (e :: sign ++ ds, r)
      else ([], l)
  | [] => ([], [])
  end.
Definition lex_number (l : bytes) : option f64 * bytes :=
  let '(m, r) := lex_mantissa l in
  let '(e, r) := lex_exponent r in
  (match m ++ e with [] => None | s => f64_from_str s end, r).
Definition parse_number : P f64 :=
  skip_ws ;> l <~ peek_rest ;;
  let '(n, r) := lex_number l in
  set_rest r ;> match n with Some n => ret n | None => fail end.

(** A [u] escape without a brace: four hex digits. *)
Definition push_code_point (hex : bytes) : bytes :=
  match from_str_radix 16 (2 ^ 32 - 1) hex with
  | Some cp => match char_from_u32 cp with Some ch => utf8_encode ch | None => [] end
  | None => []
  end.

Fixpoint until_brace (l : bytes) : bytes * bytes :=
  match l with
  | b :: l' => if b =? c_rbrace then ([], l) else let '(x, y) := until_brace l' in (b :: x, y)
  | [] => ([], [])
  end.

(** The character an escape stands for, [l] starting after the backslash. *)
Definition lex_escape (l : bytes) : bytes * bytes :=
  match l with
  | [] => ([], [])
  | b :: l2 =>
      if b =? 110 then ([10], l2) else if b =? 114 then ([13], l2) else if b =? 116 then ([9], l2)
      else if b =? 98 then ([8], l2) else if b =? 102 then ([12], l2) else if b =? 118 then ([11], l2)
      else if b =? c_backslash then ([c_backslash], l2) else if b =? c_quote then ([c_quote], l2)
      else if b =? c_dquote then ([c_dquote], l2) else if b =? c_0 then ([0], l2)
      else if b =? 120 then
        match l2 with
        | hi :: lo :: l3 =>
            (match from_str_radix 16 255 [hi; lo] with Some v => char_utf8 v | None => [] end, l3)
        | _ => ([], drop 1 l2)
        end
      else if b =? 117 then
        match l2 with
        | c :: l3 =>
            if c =? c_lbrace then let '(hex, l4) := until_brace l3 in (push_code_point hex, drop 1 l4)
            else if (4 <=? length l2)%nat then (push_code_point (take 4 l2), drop 4 l2) else ([], l3)
        | [] => ([], [])
        end
      else (c_backslash :: char_utf8 b, l2)
  end.

(** The loop of [parse_string_literal], on as many steps as there are bytes. *)
Fixpoint string_loop (fuel : nat) (quote : Z) (acc l : bytes) : Result bytes * bytes :=
  match fuel with
  | O => (Err, [])
  | S fuel' =>
      match l with
      | [] => (Err, [])
      | b :: l1 =>
          if b =? quote then (Ok acc, l1)
          else if (b =? c_backslash) && negb (bool_decide (l1 = [])) then
            let '(s, l2) := lex_escape l1 in string_loop fuel' quote (acc ++ s) l2
          else string_loop fuel' quote (acc ++ char_utf8 b) l1
      end
  end.
Definition parse_string_literal (quote : Z) : P bytes :=
  l <~ peek_rest ;;
  let '(r, l') := string_loop (S (length l)) quote [] (tail l) in
  set_rest l' ;> match r with Ok s => ret s | Err => fail end.

(** ** The expression grammar *)

(** The parsing functions; a loop of the code is a production of its own, and the argument
    list of a call ends with the call's instruction. *)
Inductive Prod :=
  | PComma | PCommaLoop | PConditional | PLogicalOr | POrLoop | PLogicalAnd | PAndLoop
  | PComparison | PCmpLoop | PAssignment | PExpr | PExprLoop | PTerm | PTermLoop | PFactor
  | PPostfix | PPostfixLoop | PPrimary | PArgs (call : OpCode.t) | PArgsLoop (call : OpCode.t) (argc : Z).

Section Productions.
Context (rec : Prod -> P unit).

Definition parse_comma : P unit := rec PConditional ;> rec PCommaLoop.
Definition comma_loop : P unit :=
  skip_ws ;> c <~ consume 44 ;;
  if c : bool then emit_op OpCode.Drop ;> rec PConditional ;> rec PCommaLoop else ret tt.

Definition parse_conditional : P unit :=
  rec PLogicalOr ;> skip_ws ;> c <~ consume 63 ;;
  if negb c then ret tt
  else
    jump_if_false <~ emit_jump OpCode.JumpIfFalse ;;
    rec PConditional ;>
    jump_end <~ emit_jump OpCode.Jump ;;
    patch_jump jump_if_false ;>
    skip_ws ;> c <~ consume 58 ;;
    if negb c then fail else rec PConditional ;> patch_jump jump_end.

Definition parse_logical_or : P unit := rec PLogicalAnd ;> rec POrLoop.
Definition or_loop : P unit :=
  skip_ws ;> c <~ consume_seq (b! "||") ;;
  if c : bool then rec PLogicalAnd ;> emit_op OpCode.Or ;> rec POrLoop else ret tt.
Definition parse_logical_and : P unit := rec PComparison ;> rec PAndLoop.
Definition and_loop : P unit :=
  skip_ws ;> c <~ consume_seq (b! "&&") ;;
  if c : bool then rec PComparison ;> emit_op OpCode.And ;> rec PAndLoop else ret tt.

(** The operator at the front, the longer ones first. *)
Definition cmp_op (l : bytes) : option (OpCode.t * bytes) :=
  match strip_prefix (b! "===") l with Some r => Some (OpCode.StrictEq, r) | None =>
  match strip_prefix (b! "!==") l with Some r => Some (OpCode.StrictNeq, r) | None =>
  match strip_prefix (b! "==") l with Some r => Some (OpCode.Eq, r) | None =>
  match strip_prefix (b! "!=") l with Some r => Some (OpCode.Neq, r) | None =>
  match strip_prefix (b! "<=") l with Some r => Some (OpCode.Le, r) | None =>
  match strip_prefix (b! ">=") l with Some r => Some (OpCode.Ge, r) | None =>
  match strip_prefix (b! "<") l with Some r => Some (OpCode.Lt, r) | None =>
  match strip_prefix (b! ">") l with Some r => Some (OpCode.Gt, r) | None => None
  end end end end end end end end.
Definition parse_comparison : P unit := rec PAssignment ;> rec PCmpLoop.
Definition cmp_loop : P unit :=
  skip_ws ;> l <~ peek_rest ;;
  match cmp_op l with
  | Some (op, l') => set_rest l' ;> rec PAssignment ;> emit_op op ;> rec PCmpLoop
  | None => ret tt
  end.

(** What an assignment to a local ends with: the value stays on the stack. *)
Definition store_local (slot : Z) : P unit :=
  emit_op OpCode.Dup ;> emit_inst OpCode.StoreLocal slot ;> emit_op OpCode.Drop.

Definition assign_add (name : bytes) : P unit :=
  slot <~ find_local name ;;
  match slot with
  | Some slot => emit_inst OpCode.LoadLocal slot ;> rec PExpr ;> emit_op OpCode.Add ;> store_local slot
  | None =>
      name_idx <~ add_string_const name ;;
      emit_inst OpCode.LoadGlobal name_idx ;> rec PExpr ;> emit_op OpCode.Add ;>
      name_idx2 <~ add_string_const name ;; emit_inst OpCode.StoreGlobal name_idx2
  end.
Definition assign_sub (name : bytes) : P unit :=
  slot <~ find_local name ;;
  match slot with
  | Some slot => emit_inst OpCode.LoadLocal slot ;> rec PExpr ;> emit_op OpCode.Sub ;> store_local slot
  | None => fail
  end.
Definition assign_simple (name : bytes) : P unit :=
  rec PAssignment ;>
  slot <~ find_local name ;;
  match slot with
  | Some slot => store_local slot
  | None => name_idx <~ add_string_const name ;; emit_inst OpCode.StoreGlobal name_idx
  end.

Definition parse_assignment : P unit :=
  skip_ws ;> start <~ peek_rest ;;
  let plain_expr : P unit := set_rest start ;> rec PExpr in
  name <~ parse_identifier ;;
  match name with
  | None => plain_expr
  | Some name =>
      skip_ws ;> c <~ consume_seq (b! "+=") ;;
      if c : bool then assign_add name
      else
        c <~ consume_seq (b! "-=") ;;
        if c : bool then assign_sub name
        else
          c <~ consume c_eq ;;
          if c : bool then
            eq <~ check c_eq ;;
            if eq : bool then plain_expr else assign_simple name
          else plain_expr
  end.

Definition parse_expr : P unit := rec PTerm ;> rec PExprLoop.
Definition expr_loop : P unit :=
  skip_ws ;> c <~ consume c_plus ;;
  if c : bool then
    twice <~ check c_plus ;;
    if twice : bool then fail else rec PTerm ;> emit_op OpCode.Add ;> rec PExprLoop
  else
    c <~ consume c_minus ;;
    if c : bool then
      twice <~ check c_minus ;;
      if twice : bool then fail else rec PTerm ;> emit_op OpCode.Sub ;> rec PExprLoop
    else ret tt.

Definition parse_term : P unit := rec PFactor ;> rec PTermLoop.
Definition term_loop : P unit :=
  skip_ws ;> c <~ consume 42 ;;
  if c : bool then rec PFactor ;> emit_op OpCode.Mul ;> rec PTermLoop
  else
    c <~ consume 47 ;;
    if c : bool then rec PFactor ;> emit_op OpCode.Div ;> rec PTermLoop
    else
      c <~ consume 37 ;;
      if c : bool then rec PFactor ;> emit_op OpCode.Mod ;> rec PTermLoop else ret tt.

Definition parse_factor : P unit :=
  skip_ws ;> c <~ consume c_plus ;;
  if c : bool then rec PFactor
  else
    c <~ consume c_minus ;;
    if c : bool then rec PFactor ;> emit_op OpCode.Neg
    else
      c <~ consume 33 ;;
      if c : bool then rec PFactor ;> emit_op OpCode.Not
      else
        c <~ consume 126 ;;
        if c : bool then rec PFactor ;> emit_op OpCode.BitNot else rec PPostfix.

Definition parse_postfix : P unit := rec PPrimary ;> rec PPostfixLoop.
Definition parse_args (call : OpCode.t) : P unit :=
  skip_ws ;> closed <~ check c_rparen ;;
  if closed : bool then expect c_rparen ;> emit_inst call 0
  else rec PConditional ;> rec (PArgsLoop call 1).
Definition args_loop (call : OpCode.t) (argc : Z) : P unit :=
  skip_ws ;> c <~ consume 44 ;;
  if c : bool then rec PConditional ;> rec (PArgsLoop call (as_u32 (argc + 1)))
  else expect c_rparen ;> emit_inst call argc.
Definition postfix_loop : P unit :=
  skip_ws ;> c <~ consume 46 ;;
  if c : bool then
    prop <~ parse_identifier ;;
    match prop with
    | None => fail
    | Some prop =>
        skip_ws ;> method <~ check c_lparen ;;
        if method : bool then
          emit_op OpCode.Dup ;> emit_string_const prop ;> emit_op OpCode.GetProp ;>
          consume c_lparen ;> rec (PArgs OpCode.CallMethod) ;> rec PPostfixLoop
        else emit_string_const prop ;> emit_op OpCode.GetProp ;> rec PPostfixLoop
    end
  else
    c <~ consume c_lbracket ;;
    if c : bool then rec PComma ;> expect c_rbracket ;> emit_op OpCode.GetElem ;> rec PPostfixLoop
    else
      c <~ consume c_lparen ;;
      if c : bool then rec (PArgs OpCode.Call) ;> rec PPostfixLoop else ret tt.

Definition parse_name (name : bytes) : P unit :=
  if bool_decide (name = b! "true") then emit_literal (TRUE W)
  else if bool_decide (name = b! "false") then emit_literal (FALSE W)
  else if bool_decide (name = b! "null") then emit_literal (NULL W)
  else if bool_decide (name = b! "undefined") then emit_undefined
  else if bool_decide (name = b! "Number") then
    skip_ws ;> c <~ consume c_lparen ;;
    if c : bool then rec PComma ;> expect c_rparen ;> emit_op OpCode.ToNumber
    else name_idx <~ add_string_const name ;; emit_inst OpCode.LoadGlobal name_idx
  else
    slot <~ find_local name ;;
    match slot with
    | Some slot => emit_inst OpCode.LoadLocal slot
    | None => name_idx <~ add_string_const name ;; emit_inst OpCode.LoadGlobal name_idx
    end.

Definition parse_primary : P unit :=
  skip_ws ;> c <~ consume c_lparen ;;
  if c : bool then rec PComma ;> expect c_rparen
  else
    l <~ peek_rest ;;
    match l with
    | [] => fail
    | b :: _ =>
        if (b =? c_quote) || (b =? c_dquote) then s <~ parse_string_literal b ;; emit_string_const s
        else if is_digit b || (b =? 46) then n <~ parse_number ;; emit_const n
        else
          name <~ parse_identifier ;;
          match name with Some name => parse_name name | None => fail end
    end.
End Productions.

Fixpoint parse (fuel : nat) (p : Prod) : P unit :=
  match fuel with
  | O => fun _ => None
  | S fuel' =>
      let rec := parse fuel' in
      match p with
      | PComma => parse_comma rec
      | PCommaLoop => comma_loop rec
      | PConditional => parse_conditional rec
      | PLogicalOr => parse_logical_or rec
      | POrLoop => or_loop rec
      | PLogicalAnd => parse_logical_and rec
      | PAndLoop => and_loop rec
      | PComparison => parse_comparison rec
      | PCmpLoop => cmp_loop rec
      | PAssignment => parse_assignment rec
      | PExpr => parse_expr rec
      | PExprLoop => expr_loop rec
      | PTerm => parse_term rec
      | PTermLoop => term_loop rec
      | PFactor => parse_factor rec
      | PPostfix => parse_postfix rec
      | PPostfixLoop => postfix_loop rec
      | PPrimary => parse_primary rec
      | PArgs call => parse_args rec call
      | PArgsLoop call argc => args_loop rec call argc
      end
  end.

(** Twelve levels of productions for each byte of input. *)
Definition parse_fuel (l : bytes) : nat := 12 * S (length l).

Definition compile_full_expr (src : bytes) : P unit :=
  set_rest src ;> parse (parse_fuel src) PComma ;> skip_ws ;> l <~ peek_rest ;;
  match l with [] => ret tt | _ => fail end.

(** ** Statements *)

Definition compile_var_decl (rest : bytes) : P unit :=
  let rest := trim rest in
  match find_assignment_eq None rest with
  | Some (before, after) =>
      let name := trim before in
      let expr := trim after in
      if negb (is_valid_identifier name) then fail
      else
        slot <~ ensure_local name ;;
        compile_full_expr expr ;> emit_inst OpCode.StoreLocal slot ;> emit_op OpCode.Drop
  | None =>
      let name := trim (rev (drop_while (fun b => b =? c_semi) (rev rest))) in
      if negb (is_valid_identifier name) then fail else ensure_local name ;> ret tt
  end.

(** The local an update counts, and by how much, in the order the code tries them. *)
Definition inc_target (f : BytecodeFunction) (name : bytes) (amount : Z) : option Instruction :=
  if is_valid_identifier name then
    slot ← find_local_in (locals f) name; Some (MkIns OpCode.IncLocal slot (as_u32 amount))
  else None.
Definition inc_suffix (f : BytecodeFunction) (update suffix : bytes) (amount : Z) : option Instruction :=
  if (3 <=? length update)%nat && ends_with suffix update
  then inc_target f (trim (take (length update - 2) update)) amount else None.
Definition inc_prefix (f : BytecodeFunction) (update prefix : bytes) (amount : Z) : option Instruction :=
  if (3 <=? length update)%nat && starts_with prefix update
  then inc_target f (trim (drop 2 update)) amount else None.
Definition inc_assign (f : BytecodeFunction) (update op : bytes) (amount_of : Z -> Z) : option Instruction :=
  '(before, after) ← find_sub op update;
  n ← i32_from_str (trim after);
  inc_target f (trim before) (amount_of n).
Definition inc_update (f : BytecodeFunction) (update : bytes) : option Instruction :=
  match inc_suffix f update (b! "++") 1 with Some i => Some i | None =>
  match inc_suffix f update (b! "--") (-1) with Some i => Some i | None =>
  match inc_prefix f update (b! "++") 1 with Some i => Some i | None =>
  match inc_prefix f update (b! "--") (-1) with Some i => Some i | None =>
  match inc_assign f update (b! "+=") (fun n => n) with Some i => Some i | None =>
  inc_assign f update (b! "-=") Z.opp
  end end end end end.
Definition try_compile_inc_update (update : bytes) : P bool :=
  f <~ get_func ;;
  match inc_update f (trim update) with
  | Some i => emit (ins_op i) (ins_a i) (ins_b i) ;> ret true
  | None => ret false
  end.

(** [expr?; Drop] *)
Definition compile_discard (e : bytes) : P unit := compile_full_expr e ;> emit_op OpCode.Drop.

(** [for s in stmts { f(s)?; }] *)
Fixpoint each (f : bytes -> P unit) (l : list bytes) : P unit :=
  match l with [] => ret tt | s :: l' => f s ;> each f l' end.
Definition from_result {A} (r : Result A) : P A := match r with Ok x => ret x | Err => fail end.
Definition from_option {A} (r : option A) : P A := match r with Some x => ret x | None => fail end.

(** The statements inside braces. *)
Definition compile_block (rec : bytes -> P unit) (after : bytes) : P unit :=
  body <~ from_result (extract_braced_body after) ;; each rec (simple_split_statements body).

(** The parts of [for (header) body] and [if (cond) body]: the text inside the parentheses and
    the text after them. *)
Definition paren_parts (keyword s : bytes) : option (bytes * bytes) :=
  rest ← strip_prefix keyword s;
  rest ← strip_prefix [c_lparen] (trim rest);
  '(header, after) ← find_matching_paren None Plain 0 rest;
  Some (header, trim after).

Definition compile_for_loop (rec : bytes -> P unit) (s : bytes) : P unit :=
  '(header, after) <~ from_option (paren_parts (b! "for") s) ;;
  '(init, cond, update) <~ from_result (split_for_header header) ;;
  (match trim init with
   | [] => ret tt
   | init => if starts_with (b! "var ") init then compile_var_decl (drop 4 init) else compile_discard init
   end) ;>
  loop_start <~ here ;;
  jump_end <~ (match trim cond with
               | [] => ret None
               | cond => compile_full_expr cond ;> at_ <~ emit_jump OpCode.JumpIfFalse ;; ret (Some at_)
               end) ;;
  compile_block rec after ;>
  (match trim update with
   | [] => ret tt
   | update => done_ <~ try_compile_inc_update update ;; if done_ : bool then ret tt else compile_discard update
   end) ;>
  emit_inst OpCode.Jump (as_idx loop_start) ;>
  match jump_end with Some at_ => patch_jump at_ | None => ret tt end.

(** [else_rec] compiles the [if] of an [else if]. *)
Definition compile_if_stmt (rec else_rec : bytes -> P unit) (s : bytes) : P unit :=
  '(cond, after) <~ from_option (paren_parts (b! "if") s) ;;
  compile_full_expr cond ;>
  jump_else <~ emit_jump OpCode.JumpIfFalse ;;
  compile_block rec after ;>
  match find_else_after_brace after with
  | Some else_part =>
      let else_part := trim else_part in
      jump_end <~ emit_jump OpCode.Jump ;;
      patch_jump jump_else ;>
      (if starts_with (b! "if ") else_part || starts_with (b! "if(") else_part
       then else_rec else_part else compile_block rec else_part) ;>
      patch_jump jump_end
  | None => patch_jump jump_else
  end.

Definition compile_return (s : bytes) : P unit :=
  match trim (drop 7 s) with
  | [] => emit_undefined
  | expr => compile_full_expr expr
  end ;> emit_op OpCode.Return.

Definition stmt_body (rec else_rec : bytes -> P unit) (stmt : bytes) : P unit :=
  let s := trim stmt in
  match s with
  | [] => ret tt
  | _ =>
      if starts_with (b! "var ") s then compile_var_decl (drop 4 s)
      else if bool_decide (s = b! "return") then emit_undefined ;> emit_op OpCode.Return
      else if starts_with (b! "return ") s || starts_with (b! "return" ++ [9]) s then compile_return s
      else if starts_with (b! "for ") s || starts_with (b! "for(") s then compile_for_loop rec s
      else if starts_with (b! "if ") s || starts_with (b! "if(") s then compile_if_stmt rec else_rec s
      else compile_discard s
  end.

(** A statement, or the [if] after an [else]; each is shorter than the text it is in. *)
Inductive SProd := SStmt (s : bytes) | SIf (s : bytes).
Fixpoint compile_rec (fuel : nat) (p : SProd) : P unit :=
  match fuel with
  | O => fun _ => None
  | S fuel' =>
      let rec s := compile_rec fuel' (SStmt s) in
      let else_rec s := compile_rec fuel' (SIf s) in
      match p with SStmt s => stmt_body rec else_rec s | SIf s => compile_if_stmt rec else_rec s end
  end.
Definition compile_stmt (s : bytes) : P unit := compile_rec (S (length s)) (SStmt s).

Fixpoint add_params (names : list bytes) : P unit :=
  match names with [] => ret tt | n :: names' => ensure_local n ;> add_params names' end.

Definition compile_stmts (stmts : list bytes) : P BytecodeModule :=
  each (fun stmt => match trim stmt with [] => ret tt | s => compile_stmt s end) stmts ;>
  emit_undefined ;> emit_op OpCode.Return ;>
  f <~ get_func ;; ret (new_module f).

(** [StmtCompiler::new], [add_params] and [compile_stmts], as a call of a closure runs them. *)
Definition compile_function (params stmts : list bytes) (c : Ctx) : option (Result BytecodeModule * Ctx) :=
  match (add_params params ;> compile_stmts stmts) (MkCState c (new_function None) []) with
  | Some (r, st) => Some (r, cs_ctx st)
  | None => None
  end.

(** [Compiler::compile_program]: one expression. *)
Definition compile_program (src : bytes) (c : Ctx) : option (Result BytecodeModule * Ctx) :=
  let s := trim src in
  let m : P BytecodeModule :=
    if is_simple_string_literal s then
      v <~ on_ctx (js_new_string (removelast (tail s))) ;;
      idx <~ push_const v ;; emit_inst OpCode.Const idx ;> emit_op OpCode.Return ;>
      f <~ get_func ;; ret (new_module f)
    else compile_full_expr s ;> emit_op OpCode.Return ;> f <~ get_func ;; ret (new_module f) in
  match m (MkCState c (new_function None) []) with
  | Some (r, st) => Some (r, cs_ctx st)
  | None => None
  end.
