(* ===== verification/JsTree.v ===== *)
(** * JsTree: the trees the one-pass compiler's code belongs to

    The reference for [JsCompile]: an expression or statement as a tree, resolved to slots and
    constant indices, and the code a compiler working on trees would generate for it.  [n] is
    the position of the first instruction; only jumps depend on it. *)
From S2P Require Import Prelude JsValue JsMem JsBytecode JsCompile.

Inductive tree :=
  | TConst (idx : Z)
  | TLocal (slot : Z)
  | TGlobal (name_idx : Z)
  | TUnary (op : OpCode.t) (e : tree)
  | TBinary (op : OpCode.t) (e1 e2 : tree)
  | TComma (e1 e2 : tree)
  | TCond (c t f : tree)
  | TSetLocal (slot : Z) (e : tree)
  | TSetGlobal (name_idx : Z) (e : tree)
  | TCall (f : tree) (args : list tree)
  | TMethod (o : tree) (name_idx : Z) (args : list tree).

Section TreeInd.
Context (Q : tree -> Prop)
  (Hconst : forall i, Q (TConst i)) (Hlocal : forall s, Q (TLocal s)) (Hglobal : forall i, Q (TGlobal i))
  (Hunary : forall op e, Q e -> Q (TUnary op e))
  (Hbinary : forall op e1 e2, Q e1 -> Q e2 -> Q (TBinary op e1 e2))
  (Hcomma : forall e1 e2, Q e1 -> Q e2 -> Q (TComma e1 e2))
  (Hcond : forall c t f, Q c -> Q t -> Q f -> Q (TCond c t f))
  (Hsl : forall s e, Q e -> Q (TSetLocal s e)) (Hsg : forall i e, Q e -> Q (TSetGlobal i e))
  (Hcall : forall f args, Q f -> Forall Q args -> Q (TCall f args))
  (Hmethod : forall o i args, Q o -> Forall Q args -> Q (TMethod o i args)).

Fixpoint tree_ind' (e : tree) : Q e :=
  let all := fix all (l : list tree) : Forall Q l :=
    match l with [] => Forall_nil_2 _ | x :: l' => Forall_cons_2 _ _ _ (tree_ind' x) (all l') end in
  match e with
  | TConst i => Hconst i
  | TLocal s => Hlocal s
  | TGlobal i => Hglobal i
  | TUnary op e => Hunary op e (tree_ind' e)
  | TBinary op e1 e2 => Hbinary op e1 e2 (tree_ind' e1) (tree_ind' e2)
  | TComma e1 e2 => Hcomma e1 e2 (tree_ind' e1) (tree_ind' e2)
  | TCond c t f => Hcond c t f (tree_ind' c) (tree_ind' t) (tree_ind' f)
  | TSetLocal s e => Hsl s e (tree_ind' e)
  | TSetGlobal i e => Hsg i e (tree_ind' e)
  | TCall f args => Hcall f args (tree_ind' f) (all args)
  | TMethod o i args => Hmethod o i args (tree_ind' o) (all args)
  end.
End TreeInd.

Definition ins (op : OpCode.t) (a : Z) : Instruction := MkIns op a 0.
Definition op0 (op : OpCode.t) : Instruction := ins op 0.

(** ** Code of expressions *)

Section GenList.
Context {A : Type} (g : nat -> A -> list Instruction).
(** The code of each item after the code of the ones before it. *)
Fixpoint gen_seq (n : nat) (l : list A) : list Instruction :=
  match l with [] => [] | x :: l' => g n x ++ gen_seq (n + length (g n x)) l' end.

Lemma gen_seq_app (n : nat) (l1 l2 : list A) :
  gen_seq n (l1 ++ l2) = gen_seq n l1 ++ gen_seq (n + length (gen_seq n l1)) l2.
Proof.
  revert n. induction l1 as [|x l1 IH]; intros n; simpl; [by rewrite Nat.add_0_r|].
  by rewrite IH, <- app_assoc, length_app, Nat.add_assoc.
Qed.
End GenList.

Definition argc_of {A} (args : list A) : Z := as_idx (length args).

Fixpoint gen (n : nat) (e : tree) : list Instruction :=
  match e with
  | TConst i => [ins OpCode.Const i]
  | TLocal s => [ins OpCode.LoadLocal s]
  | TGlobal i => [ins OpCode.LoadGlobal i]
  | TUnary op e => gen n e ++ [op0 op]
  | TBinary op e1 e2 => gen n e1 ++ gen (n + length (gen n e1)) e2 ++ [op0 op]
  | TComma e1 e2 => gen n e1 ++ [op0 OpCode.Drop] ++ gen (n + length (gen n e1) + 1) e2
  | TCond c t f =>
      let nt := (n + length (gen n c) + 1)%nat in
      let nf := (nt + length (gen nt t) + 1)%nat in
      gen n c ++ [ins OpCode.JumpIfFalse (as_idx nf)] ++ gen nt t ++
      [ins OpCode.Jump (as_idx (nf + length (gen nf f)))] ++ gen nf f
  | TSetLocal s e => gen n e ++ [op0 OpCode.Dup; ins OpCode.StoreLocal s; op0 OpCode.Drop]
  | TSetGlobal i e => gen n e ++ [ins OpCode.StoreGlobal i]
  | TCall f args =>
      gen n f ++ gen_seq gen (n + length (gen n f)) args ++ [ins OpCode.Call (argc_of args)]
  | TMethod o i args =>
      gen n o ++ [op0 OpCode.Dup; ins OpCode.Const i; op0 OpCode.GetProp] ++
      gen_seq gen (n + length (gen n o) + 3) args ++ [ins OpCode.CallMethod (argc_of args)]
  end.

(** Slots below [nl], constant indices below [nc], and the operators the grammar has. *)
Definition binary_op (op : OpCode.t) : bool :=
  match op with
  | OpCode.Add | OpCode.Sub | OpCode.Mul | OpCode.Div | OpCode.Mod | OpCode.Eq | OpCode.Neq
  | OpCode.StrictEq | OpCode.StrictNeq | OpCode.Lt | OpCode.Gt | OpCode.Le | OpCode.Ge
  | OpCode.And | OpCode.Or | OpCode.GetProp | OpCode.GetElem => true
  | _ => false
  end.
Definition unary_op (op : OpCode.t) : bool :=
  match op with OpCode.Neg | OpCode.Not | OpCode.BitNot | OpCode.ToNumber => true | _ => false end.

Definition below (n : nat) (i : Z) : bool := (0 <=? i) && (i <? Z.of_nat n).

Fixpoint tree_ok (nl nc : nat) (e : tree) : bool :=
  match e with
  | TConst i | TGlobal i => below nc i
  | TLocal s => below nl s
  | TUnary op e => unary_op op && tree_ok nl nc e
  | TBinary op e1 e2 => binary_op op && tree_ok nl nc e1 && tree_ok nl nc e2
  | TComma e1 e2 => tree_ok nl nc e1 && tree_ok nl nc e2
  | TCond c t f => tree_ok nl nc c && tree_ok nl nc t && tree_ok nl nc f
  | TSetLocal s e => below nl s && tree_ok nl nc e
  | TSetGlobal i e => below nc i && tree_ok nl nc e
  | TCall f args => tree_ok nl nc f && forallb (tree_ok nl nc) args
  | TMethod o i args => tree_ok nl nc o && below nc i && forallb (tree_ok nl nc) args
  end.

Lemma below_mono (n n' : nat) (i : Z) : (n <= n')%nat -> below n i = true -> below n' i = true.
Proof. unfold below. rewrite !andb_true_iff, !Z.leb_le, !Z.ltb_lt. lia. Qed.

Lemma forallb_mono {A} (p q : A -> bool) (l : list A) :
  Forall (fun x => p x = true -> q x = true) l -> forallb p l = true -> forallb q l = true.
Proof. induction 1; simpl; rewrite ?andb_true_iff; naive_solver. Qed.

Lemma tree_ok_mono (nl nl' nc nc' : nat) (e : tree) :
  (nl <= nl')%nat -> (nc <= nc')%nat -> tree_ok nl nc e = true -> tree_ok nl' nc' e = true.
Proof.
  intros Hl Hc. induction e as [| | | | | | | | |f args IHf IHa|o i args IHo IHa] using tree_ind'; simpl;
    rewrite ?andb_true_iff; intros; destruct_and?; split_and?; eauto using below_mono, forallb_mono.
Qed.

(** ** Code of statements *)

(** A [for] is its initialisation followed by a loop whose body ends with the update. *)
Inductive stmt :=
  | SVar (slot : Z) (e : tree)
  | SInc (slot amount : Z)
  | SExpr (e : tree)
  | SReturn (e : tree)
  | SCond (c : tree) (body : list stmt) (orelse : option (list stmt))
  | SLoop (c : option tree) (body : list stmt).

Definition else_list (o : option (list stmt)) : list stmt := default [] o.

Section StmtInd.
Context (Q : stmt -> Prop)
  (Hvar : forall s e, Q (SVar s e)) (Hinc : forall s a, Q (SInc s a)) (Hexpr : forall e, Q (SExpr e))
  (Hreturn : forall e, Q (SReturn e))
  (Hcond : forall c body orelse, Forall Q body -> Forall Q (else_list orelse) -> Q (SCond c body orelse))
  (Hloop : forall c body, Forall Q body -> Q (SLoop c body)).

Fixpoint stmt_ind' (s : stmt) : Q s :=
  let all := fix all (l : list stmt) : Forall Q l :=
    match l with [] => Forall_nil_2 _ | x :: l' => Forall_cons_2 _ _ _ (stmt_ind' x) (all l') end in
  match s with
  | SVar s e => Hvar s e
  | SInc s a => Hinc s a
  | SExpr e => Hexpr e
  | SReturn e => Hreturn e
  | SCond c body orelse =>
      Hcond c body orelse (all body)
        (match orelse return Forall Q (else_list orelse) with Some l => all l | None => Forall_nil_2 _ end)
  | SLoop c body => Hloop c body (all body)
  end.
End StmtInd.

Fixpoint gen_stmt (n : nat) (s : stmt) : list Instruction :=
  match s with
  | SVar slot e => gen n e ++ [ins OpCode.StoreLocal slot; op0 OpCode.Drop]
  | SInc slot amount => [MkIns OpCode.IncLocal slot amount]
  | SExpr e => gen n e ++ [op0 OpCode.Drop]
  | SReturn e => gen n e ++ [op0 OpCode.Return]
  | SCond c body None =>
      let nb := (n + length (gen n c) + 1)%nat in
      gen n c ++ [ins OpCode.JumpIfFalse (as_idx (nb + length (gen_seq gen_stmt nb body)))] ++
      gen_seq gen_stmt nb body
  | SCond c body (Some orelse) =>
      let nb := (n + length (gen n c) + 1)%nat in
      let ne := (nb + length (gen_seq gen_stmt nb body) + 1)%nat in
      gen n c ++ [ins OpCode.JumpIfFalse (as_idx ne)] ++ gen_seq gen_stmt nb body ++
      [ins OpCode.Jump (as_idx (ne + length (gen_seq gen_stmt ne orelse)))] ++ gen_seq gen_stmt ne orelse
  | SLoop None body => gen_seq gen_stmt n body ++ [ins OpCode.Jump (as_idx n)]
  | SLoop (Some c) body =>
      let nb := (n + length (gen n c) + 1)%nat in
      gen n c ++ [ins OpCode.JumpIfFalse (as_idx (nb + length (gen_seq gen_stmt nb body) + 1))] ++
      gen_seq gen_stmt nb body ++ [ins OpCode.Jump (as_idx n)]
  end.
Definition gen_stmts (n : nat) (l : list stmt) : list Instruction := gen_seq gen_stmt n l.

Fixpoint stmt_ok (nl nc : nat) (s : stmt) : bool :=
  match s with
  | SVar slot e => below nl slot && tree_ok nl nc e
  | SInc slot _ => below nl slot
  | SExpr e | SReturn e => tree_ok nl nc e
  | SCond c body None => tree_ok nl nc c && forallb (stmt_ok nl nc) body
  | SCond c body (Some orelse) =>
      tree_ok nl nc c && forallb (stmt_ok nl nc) body && forallb (stmt_ok nl nc) orelse
  | SLoop None body => forallb (stmt_ok nl nc) body
  | SLoop (Some c) body => tree_ok nl nc c && forallb (stmt_ok nl nc) body
  end.

Lemma stmt_ok_mono (nl nl' nc nc' : nat) (s : stmt) :
  (nl <= nl')%nat -> (nc <= nc')%nat -> stmt_ok nl nc s = true -> stmt_ok nl' nc' s = true.
Proof.
  intros Hl Hc. induction s as [| | | |c body [orelse|] IHb IHo|[c|] body IHb] using stmt_ind'; simpl;
    rewrite ?andb_true_iff; intros; destruct_and?; split_and?;
    eauto using below_mono, tree_ok_mono, forallb_mono.
Qed.
