(* ===== verification/JsCompileSpec.v ===== *)
(** * JsCompileSpec: what the one-pass compiler emits

    Every expression and statement list [JsCompile] accepts is the code of a tree ([JsTree]),
    with slots and constants in range. *)
From S2P Require Import Prelude IntCodec Utf8 ServerArgs JsText JsValue JsMem JsScope JsFloat JsBytecode JsCompile JsTree.

(** ** Inverting a run that succeeds *)

Create HintDb quiet.

Lemma bind_ok {A B} (m : P A) (k : A -> P B) (st : CState) (y : B) (st' : CState) :
  bind m k st = Some (Ok y, st') -> exists x st1, m st = Some (Ok x, st1) /\ k x st1 = Some (Ok y, st').
Proof. unfold bind. destruct (m st) as [[[x|] st1]|]; [|done..]. by exists x, st1. Qed.

(** Steps that leave the function under construction alone. *)
Definition quiet {A} (m : P A) : Prop :=
  forall st x st', m st = Some (Ok x, st') -> cs_func st' = cs_func st.

Lemma quiet_ret {A} (x : A) : quiet (ret x).
Proof. intros st y st' H. by injection H as <- <-. Qed.
Lemma quiet_fail {A} : quiet (@fail A).
Proof. intros st y st' H. discriminate H. Qed.
Lemma quiet_bind {A B} (m : P A) (k : A -> P B) : quiet m -> (forall x, quiet (k x)) -> quiet (bind m k).
Proof.
  intros Hm Hk st y st' (x & st1 & H1 & H2)%bind_ok. by rewrite (Hk x st1 y st' H2), (Hm st x st1 H1).
Qed.
Lemma quiet_set_rest (l : bytes) : quiet (set_rest l).
Proof. intros st y st' H. by injection H as <- <-. Qed.
Lemma quiet_peek_rest : quiet peek_rest.
Proof. intros st y st' H. by injection H as <- <-. Qed.
Lemma quiet_get_func : quiet get_func.
Proof. intros st y st' H. by injection H as <- <-. Qed.
Lemma quiet_on_ctx {A} (f : Ctx -> A * Ctx) : quiet (on_ctx f).
Proof. intros st y st' H. unfold on_ctx in H. destruct (f (cs_ctx st)). by injection H as <- <-. Qed.
#[export] Hint Resolve quiet_ret quiet_fail quiet_bind quiet_set_rest quiet_peek_rest quiet_get_func quiet_on_ctx : quiet.

Ltac quiet_auto :=
  repeat first
    [ apply quiet_bind; [|intros ?] | solve [auto with quiet]
    | match goal with |- quiet (if ?c then _ else _) => destruct c end
    | match goal with |- quiet (match ?x with _ => _ end) => destruct x end ].

Lemma quiet_skip_ws : quiet skip_ws. Proof. unfold skip_ws. quiet_auto. Qed.
Lemma quiet_check (b : Z) : quiet (check b). Proof. unfold check. quiet_auto. Qed.
Lemma quiet_consume (b : Z) : quiet (consume b). Proof. unfold consume. quiet_auto. Qed.
Lemma quiet_consume_seq (s : bytes) : quiet (consume_seq s). Proof. unfold consume_seq. quiet_auto. Qed.
#[export] Hint Resolve quiet_skip_ws quiet_check quiet_consume quiet_consume_seq : quiet.
Lemma quiet_expect (b : Z) : quiet (expect b). Proof. unfold expect. quiet_auto. Qed.
Lemma quiet_parse_identifier : quiet parse_identifier. Proof. unfold parse_identifier. quiet_auto. Qed.
Lemma quiet_parse_number : quiet parse_number. Proof. unfold parse_number. quiet_auto. Qed.
Lemma quiet_parse_string_literal (q : Z) : quiet (parse_string_literal q).
Proof. unfold parse_string_literal. quiet_auto. Qed.
Lemma quiet_find_local (name : bytes) : quiet (find_local name). Proof. unfold find_local. quiet_auto. Qed.
Lemma quiet_here : quiet here. Proof. unfold here. quiet_auto. Qed.
Lemma quiet_from_option {A} (o : option A) : quiet (from_option o). Proof. destruct o; simpl; quiet_auto. Qed.
Lemma quiet_from_result {A} (r : Result A) : quiet (from_result r). Proof. destruct r; simpl; quiet_auto. Qed.
#[export] Hint Resolve quiet_expect quiet_parse_identifier quiet_parse_number quiet_parse_string_literal
  quiet_find_local quiet_here quiet_from_option quiet_from_result : quiet.

Lemma quiet_elim {A} (m : P A) (st : CState) (x : A) (st' : CState) :
  m st = Some (Ok x, st') -> quiet m -> cs_func st' = cs_func st.
Proof. intros H Hq. exact (Hq st x st' H). Qed.

(** Takes a successful run apart, keeping the steps that emit code. *)
Ltac run_inv :=
  repeat match goal with
  | H : bind _ _ _ = Some (Ok _, _) |- _ =>
      let x := fresh "x" in let s := fresh "st" in let H1 := fresh "H" in
      apply bind_ok in H as (x & s & H1 & H); cbv beta in H
  | H : fail _ = Some _ |- _ => discriminate H
  | H : (if ?c then _ else _) _ = Some _ |- _ => destruct c eqn:?
  | H : (match ?x with _ => _ end) _ = Some _ |- _ => destruct x eqn:?
  | H : ?m ?st = Some (Ok ?x, ?st') |- _ =>
      let E := fresh "E" in
      assert (E : cs_func st' = cs_func st) by (apply (quiet_elim _ _ _ _ H); solve [auto with quiet]);
      first [is_var st'; clear H | revert H]
  end; intros.

(** ** Code that grows *)

Record grows (f : BytecodeFunction) (seg : list Instruction) (f' : BytecodeFunction) : Prop := {
  gr_code : code f' = code f ++ seg;
  gr_locals : locals f' = locals f;
  gr_consts : exists cs, constants f' = constants f ++ cs
}.
Definition pos (f : BytecodeFunction) : nat := length (code f).
Definition nlocals (f : BytecodeFunction) : nat := length (locals f).
Definition nconsts (f : BytecodeFunction) : nat := length (constants f).
Definition fits (f : BytecodeFunction) (e : tree) : bool := tree_ok (nlocals f) (nconsts f) e.

Lemma grows_refl (f : BytecodeFunction) : grows f [] f.
Proof. split; [by rewrite app_nil_r|done|exists []; by rewrite app_nil_r]. Qed.

Lemma grows_trans (f f1 f2 : BytecodeFunction) (s1 s2 : list Instruction) :
  grows f s1 f1 -> grows f1 s2 f2 -> grows f (s1 ++ s2) f2.
Proof.
  intros [C1 L1 [k1 K1]] [C2 L2 [k2 K2]]. split; [by rewrite C2, C1, app_assoc|by rewrite L2|].
  exists (k1 ++ k2). by rewrite K2, K1, app_assoc.
Qed.

Lemma grows_pos (f f' : BytecodeFunction) (seg : list Instruction) : grows f seg f' -> pos f' = (pos f + length seg)%nat.
Proof. intros [C _ _]. unfold pos. by rewrite C, length_app. Qed.

(** More constants and the same locals. *)
Definition ext (f f' : BytecodeFunction) : Prop :=
  locals f' = locals f /\ exists cs, constants f' = constants f ++ cs.

Lemma grows_ext (f f' : BytecodeFunction) (seg : list Instruction) : grows f seg f' -> ext f f'.
Proof. intros [_ L K]. by split. Qed.

Lemma ext_trans (f f1 f2 : BytecodeFunction) : ext f f1 -> ext f1 f2 -> ext f f2.
Proof. intros [L1 [k1 K1]] [L2 [k2 K2]]. split; [by rewrite L2|]. exists (k1 ++ k2). by rewrite K2, K1, app_assoc. Qed.

Lemma ext_fits (f f' : BytecodeFunction) (e : tree) : ext f f' -> fits f e = true -> fits f' e = true.
Proof.
  intros [L [cs K]]. apply tree_ok_mono; unfold nlocals, nconsts; [by rewrite L|]. rewrite K, length_app. lia.
Qed.

Lemma grows_fits (f f' : BytecodeFunction) (seg : list Instruction) (e : tree) :
  grows f seg f' -> fits f e = true -> fits f' e = true.
Proof. intros G. exact (ext_fits f f' e (grows_ext _ _ _ G)). Qed.

Lemma grows_fits_all (f f' : BytecodeFunction) (seg : list Instruction) (l : list tree) :
  grows f seg f' -> forallb (fits f) l = true -> forallb (fits f') l = true.
Proof. intros Hg. apply forallb_mono, Forall_forall. intros e _. by eapply grows_fits. Qed.

Lemma grows_below (f f' : BytecodeFunction) (seg : list Instruction) (i : Z) :
  grows f seg f' -> below (nconsts f) i = true -> below (nconsts f') i = true.
Proof. intros [_ _ [cs K]]. apply below_mono. unfold nconsts. rewrite K, length_app. lia. Qed.

Lemma below_idx (n i : nat) : (i < n)%nat -> below n (as_idx i) = true.
Proof.
  intros Hi. unfold below, as_idx, as_u32. rewrite andb_true_iff, Z.leb_le, Z.ltb_lt.
  pose proof (Z.mod_pos_bound (Z.of_nat i) (2 ^ 32)). pose proof (Z.mod_le (Z.of_nat i) (2 ^ 32)). lia.
Qed.

Lemma position_lt {A} (p : A -> bool) (l : list A) (i : nat) : position p l = Some i -> (i < length l)%nat.
Proof.
  revert i. induction l as [|x l IH]; intros i; simpl; [done|]. destruct (p x); [intros [= <-]; lia|].
  destruct (position p l) as [j|]; simpl; [|done]. intros [= <-]. specialize (IH j eq_refl). lia.
Qed.

Lemma find_local_below (ls : list bytes) (name : bytes) (slot : Z) :
  find_local_in ls name = Some slot -> below (length ls) slot = true.
Proof.
  unfold find_local_in. destruct (position _ ls) as [i|] eqn:E; simpl; [|done]. intros [= <-].
  by eapply below_idx, position_lt.
Qed.

(** ** The steps that emit *)

Lemma emit_ok (op : OpCode.t) (a b : Z) (st : CState) (x : unit) (st' : CState) :
  emit op a b st = Some (Ok x, st') -> grows (cs_func st) [MkIns op a b] (cs_func st').
Proof. intros H. injection H as <- <-. split; simpl; [done|done|exists []; by rewrite app_nil_r]. Qed.

Lemma emit_op_ok (op : OpCode.t) (st : CState) (x : unit) (st' : CState) :
  emit_op op st = Some (Ok x, st') -> grows (cs_func st) [op0 op] (cs_func st').
Proof. apply emit_ok. Qed.
Lemma emit_inst_ok (op : OpCode.t) (a : Z) (st : CState) (x : unit) (st' : CState) :
  emit_inst op a st = Some (Ok x, st') -> grows (cs_func st) [ins op a] (cs_func st').
Proof. apply emit_ok. Qed.

Lemma push_const_ok (v : Value) (st : CState) (i : Z) (st' : CState) :
  push_const v st = Some (Ok i, st') -> grows (cs_func st) [] (cs_func st') /\ below (nconsts (cs_func st')) i = true.
Proof.
  intros H. injection H as <- <-. split; [split; simpl; [by rewrite app_nil_r|done|by eexists]|].
  apply below_idx. unfold nconsts; simpl. rewrite length_app. simpl. lia.
Qed.

Lemma found_const_ok (p : Value -> bool) (st : CState) (n : nat) :
  position p (constants (cs_func st)) = Some n ->
  grows (cs_func st) [] (cs_func st) /\ below (nconsts (cs_func st)) (as_idx n) = true.
Proof. intros H. split; [apply grows_refl|]. by eapply below_idx, position_lt. Qed.

Lemma add_undefined_const_ok (st : CState) (i : Z) (st' : CState) :
  add_undefined_const st = Some (Ok i, st') -> grows (cs_func st) [] (cs_func st') /\ below (nconsts (cs_func st')) i = true.
Proof.
  unfold add_undefined_const. intros (f & st1 & [= <- <-] & H)%bind_ok.
  destruct (position _ _) eqn:E; [injection H as <- <-; by eapply found_const_ok|by eapply push_const_ok].
Qed.

Lemma add_number_const_ok (n : f64) (st : CState) (i : Z) (st' : CState) :
  add_number_const n st = Some (Ok i, st') -> grows (cs_func st) [] (cs_func st') /\ below (nconsts (cs_func st')) i = true.
Proof.
  unfold add_number_const. intros (v & st1 & H1 & H)%bind_ok. apply quiet_on_ctx in H1 as <-.
  apply bind_ok in H as (f & st2 & [= <- <-] & H).
  destruct (position _ _) eqn:E; [injection H as <- <-; by eapply found_const_ok|by eapply push_const_ok].
Qed.

Lemma add_string_const_ok (s : bytes) (st : CState) (i : Z) (st' : CState) :
  add_string_const s st = Some (Ok i, st') -> grows (cs_func st) [] (cs_func st') /\ below (nconsts (cs_func st')) i = true.
Proof.
  unfold add_string_const. intros (h & st1 & H1 & H)%bind_ok. apply quiet_on_ctx in H1 as <-.
  apply bind_ok in H as (f & st2 & [= <- <-] & H).
  destruct (position _ _) eqn:E; [injection H as <- <-; by eapply found_const_ok|].
  apply bind_ok in H as (v & st3 & H3 & H). apply quiet_on_ctx in H3 as <-. by eapply push_const_ok.
Qed.

(** An instruction whose operand is a constant's index. *)
Lemma emit_indexed_ok (m : P Z) (op : OpCode.t) (st : CState) (x : unit) (st' : CState) :
  (forall st i st', m st = Some (Ok i, st') -> grows (cs_func st) [] (cs_func st') /\ below (nconsts (cs_func st')) i = true) ->
  (idx <~ m ;; emit_inst op idx) st = Some (Ok x, st') ->
  exists i, grows (cs_func st) [ins op i] (cs_func st') /\ below (nconsts (cs_func st')) i = true.
Proof.
  intros Hm (i & st1 & H1 & H2)%bind_ok. apply Hm in H1 as [G1 B1]. apply emit_ok in H2 as G2.
  exists i. split; [exact (grows_trans _ _ _ _ _ G1 G2)|by eapply grows_below].
Qed.

Lemma emit_string_const_ok (s : bytes) (st : CState) (x : unit) (st' : CState) :
  emit_string_const s st = Some (Ok x, st') ->
  exists i, grows (cs_func st) [ins OpCode.Const i] (cs_func st') /\ below (nconsts (cs_func st')) i = true.
Proof. apply emit_indexed_ok, add_string_const_ok. Qed.

(** ** Expressions *)

(** The code of one more tree. *)
Definition pushes (f f' : BytecodeFunction) : Prop :=
  exists e, grows f (gen (pos f) e) f' /\ fits f' e = true.

(** A loop goes on with the tree whose code was emitted last, from [g] on. *)
Definition continues (f f' : BytecodeFunction) : Prop :=
  forall g e0, grows g (gen (pos g) e0) f -> fits f e0 = true ->
  exists e, grows g (gen (pos g) e) f' /\ fits f' e = true.

(** The rest of an argument list, after [pre] and the arguments [args0], and the call. *)
Definition args_from (call : OpCode.t) (argc : Z) (f f' : BytecodeFunction) : Prop :=
  forall g pre args0, argc = argc_of args0 ->
  grows g (pre ++ gen_seq gen (pos g + length pre) args0) f -> forallb (fits f) args0 = true ->
  exists args, grows g (pre ++ gen_seq gen (pos g + length pre) args ++ [ins call (argc_of args)]) f' /\
    forallb (fits f') args = true.

Definition emits (p : Prod) (f f' : BytecodeFunction) : Prop :=
  match p with
  | PCommaLoop | POrLoop | PAndLoop | PCmpLoop | PExprLoop | PTermLoop | PPostfixLoop => continues f f'
  | PArgs call => args_from call 0 f f'
  | PArgsLoop call argc => args_from call argc f f'
  | _ => pushes f f'
  end.

Lemma pushes_op (e : tree) (f f' : BytecodeFunction) (op : OpCode.t) (i : Z) :
  (forall n, gen n e = [ins op i]) -> grows f [ins op i] f' -> fits f' e = true -> pushes f f'.
Proof. intros Hg G F. exists e. by rewrite Hg. Qed.

Lemma continues_refl (f : BytecodeFunction) : continues f f.
Proof. intros g e0 G F. by exists e0. Qed.

Lemma pushes_continues (f f1 f2 : BytecodeFunction) : pushes f f1 -> continues f1 f2 -> pushes f f2.
Proof. intros (e & G & F) Hc. exact (Hc f e G F). Qed.

Lemma pushes_unary (op : OpCode.t) (f f1 f2 : BytecodeFunction) :
  unary_op op = true -> pushes f f1 -> grows f1 [op0 op] f2 -> pushes f f2.
Proof.
  intros Hop (e & G & F) G2. exists (TUnary op e). split; [exact (grows_trans _ _ _ _ _ G G2)|].
  unfold fits in *. cbn [tree_ok]. rewrite Hop. exact (grows_fits _ _ _ e G2 F).
Qed.

Lemma continues_binary (op : OpCode.t) (f f1 f2 f3 : BytecodeFunction) :
  binary_op op = true -> pushes f f1 -> grows f1 [op0 op] f2 -> continues f2 f3 -> continues f f3.
Proof.
  intros Hop (e & G1 & F1) G2 Hc g e0 G0 F0.
  apply (Hc g (TBinary op e0 e)).
  - cbn [gen]. rewrite <- (grows_pos _ _ _ G0), app_assoc.
    apply (grows_trans _ f1); [exact (grows_trans _ _ _ _ _ G0 G1)|exact G2].
  - unfold fits in *. cbn [tree_ok]. rewrite Hop. apply andb_true_iff. split.
    + exact (grows_fits _ _ _ e0 (grows_trans _ _ _ _ _ G1 G2) F0).
    + exact (grows_fits _ _ _ e G2 F1).
Qed.

Lemma emits_comma (f f1 f2 f3 : BytecodeFunction) :
  grows f [op0 OpCode.Drop] f1 -> pushes f1 f2 -> continues f2 f3 -> continues f f3.
Proof.
  intros G1 (e & G2 & F2) Hc g e0 G0 F0. apply (Hc g (TComma e0 e)).
  - cbn [gen]. assert (Hp : pos f1 = (pos g + length (gen (pos g) e0) + 1)%nat)
      by (rewrite (grows_pos _ _ _ G1), (grows_pos _ _ _ G0); done).
    rewrite <- Hp. apply (grows_trans _ f); [exact G0|exact (grows_trans _ _ _ _ _ G1 G2)].
  - unfold fits in *. cbn [tree_ok]. apply andb_true_iff. split; [|done].
    exact (grows_fits _ _ _ e0 (grows_trans _ _ _ _ _ G1 G2) F0).
Qed.

Lemma pushes_store_local (slot : Z) (f f1 f2 : BytecodeFunction) :
  pushes f f1 -> grows f1 [op0 OpCode.Dup; ins OpCode.StoreLocal slot; op0 OpCode.Drop] f2 ->
  below (nlocals f) slot = true -> pushes f f2.
Proof.
  intros (e & G & F) G2 Hb. exists (TSetLocal slot e). split; [exact (grows_trans _ _ _ _ _ G G2)|].
  unfold fits in *. cbn [tree_ok]. apply andb_true_iff. split; [|exact (grows_fits _ _ _ e G2 F)].
  unfold nlocals in *. by rewrite (gr_locals _ _ _ G2), (gr_locals _ _ _ G).
Qed.

Lemma pushes_store_global (i : Z) (f f1 f2 : BytecodeFunction) :
  pushes f f1 -> grows f1 [ins OpCode.StoreGlobal i] f2 -> below (nconsts f2) i = true -> pushes f f2.
Proof.
  intros (e & G & F) G2 Hb. exists (TSetGlobal i e). split; [exact (grows_trans _ _ _ _ _ G G2)|].
  unfold fits in *. cbn [tree_ok]. rewrite Hb. exact (grows_fits _ _ _ e G2 F).
Qed.

(** *** Jumps *)

Lemma alter_mid {A} (h : A -> A) (l1 l2 : list A) (x : A) : alter h (length l1) (l1 ++ x :: l2) = l1 ++ h x :: l2.
Proof. rewrite <- (Nat.add_0_r (length l1)). by rewrite alter_app_r. Qed.

Lemma emit_jump_ok (op : OpCode.t) (st : CState) (at_ : nat) (st' : CState) :
  emit_jump op st = Some (Ok at_, st') -> at_ = pos (cs_func st) /\ grows (cs_func st) [op0 op] (cs_func st').
Proof.
  unfold emit_jump. intros (n & st1 & H1 & H)%bind_ok.
  injection H1 as <- <-. apply bind_ok in H as (x & st2 & H2 & H). injection H as <- <-.
  split; [done|]. by apply emit_ok in H2.
Qed.

Lemma patch_jump_ok (f : BytecodeFunction) (s1 s2 : list Instruction) (i : Instruction) (st : CState) (x : unit) (st' : CState) :
  grows f (s1 ++ i :: s2) (cs_func st) -> patch_jump (pos f + length s1) st = Some (Ok x, st') ->
  grows f (s1 ++ set_target (as_idx (pos f + length (s1 ++ i :: s2))) i :: s2) (cs_func st').
Proof.
  intros G H. injection H as <- <-. rewrite <- (grows_pos _ _ _ G). destruct G as [C L K].
  split; simpl; [|done|done]. unfold pos. rewrite C at 2. rewrite app_assoc, <- length_app, alter_mid.
  by rewrite <- app_assoc.
Qed.

Lemma patch_ext (at_ : nat) (st : CState) (x : unit) (st' : CState) :
  patch_jump at_ st = Some (Ok x, st') -> ext (cs_func st) (cs_func st').
Proof. intros H. injection H as <- <-. split; simpl; [done|exists []; by rewrite app_nil_r]. Qed.

Lemma grows_patched (f f1 f2 : BytecodeFunction) (s1 s2 : list Instruction) (st : CState) (x : unit) (st' : CState) (op : OpCode.t) :
  grows f s1 f1 -> grows f1 [op0 op] f2 -> grows f2 s2 (cs_func st) ->
  patch_jump (pos f1) st = Some (Ok x, st') ->
  grows f (s1 ++ ins op (as_idx (pos f1 + 1 + length s2)) :: s2) (cs_func st').
Proof.
  intros G1 G2 G3 H. rewrite (grows_pos _ _ _ G1) in *.
  pose proof (patch_jump_ok f s1 s2 (op0 op) st x st' (grows_trans _ _ _ _ _ G1 (grows_trans _ _ _ _ _ G2 G3)) H) as G.
  rewrite length_app in G. simpl in G.
  replace (pos f + length s1 + 1 + length s2)%nat with (pos f + (length s1 + S (length s2)))%nat by lia. exact G.
Qed.

Lemma pushes_cond (st5 st6 st9 st' : CState) (f f1 f2 f3 : BytecodeFunction) (c t e : tree) (x y : unit) :
  grows f (gen (pos f) c) f1 -> fits f1 c = true -> grows f1 [op0 OpCode.JumpIfFalse] f2 ->
  grows f2 (gen (pos f2) t) f3 -> fits f3 t = true -> grows f3 [op0 OpCode.Jump] (cs_func st5) ->
  patch_jump (pos f1) st5 = Some (Ok x, st6) ->
  grows (cs_func st6) (gen (pos (cs_func st6)) e) (cs_func st9) -> fits (cs_func st9) e = true ->
  patch_jump (pos f3) st9 = Some (Ok y, st') -> pushes f (cs_func st').
Proof.
  intros G1 F1 G2 G3 F3 G4 H1 G5 F5 H2. assert (H2' := H2).
  pose proof (grows_patched _ _ _ _ (gen (pos f2) t ++ [op0 OpCode.Jump]) _ _ _ _ G1 G2 (grows_trans _ _ _ _ _ G3 G4) H1) as G6.
  pose proof (grows_trans _ _ _ _ _ G6 G5) as G7.
  set (i1 := ins OpCode.JumpIfFalse _) in *. set (ct := gen (pos f2) t) in *. set (cc := gen (pos f) c) in *.
  set (ce := gen (pos (cs_func st6)) e) in *.
  pose proof (patch_jump_ok f (cc ++ i1 :: ct) ce (op0 OpCode.Jump) st9 y st') as G8.
  rewrite <- !app_assoc in G8, G7. simpl in G8, G7. rewrite <- !app_assoc in G7. simpl in G7. specialize (G8 G7).
  assert (E3 : pos f3 = (pos f + length (cc ++ i1 :: ct))%nat)
    by (rewrite (grows_pos _ _ _ G3), (grows_pos _ _ _ G2), (grows_pos _ _ _ G1), length_app; simpl; lia).
  rewrite E3 in H2. specialize (G8 H2). rewrite <- !app_assoc in G8. simpl in G8.
  exists (TCond c t e). split.
  - cbn [gen]. fold cc.
    assert (E2 : (pos f + length cc + 1)%nat = pos f2) by (rewrite (grows_pos _ _ _ G2), (grows_pos _ _ _ G1); simpl; lia).
    rewrite E2. fold ct.
    assert (E6 : (pos f2 + length ct + 1)%nat = pos (cs_func st6)).
    { rewrite (grows_pos _ _ _ G6), <- E2, !length_app. simpl. rewrite length_app. simpl. lia. }
    assert (Ei : i1 = ins OpCode.JumpIfFalse (as_idx (pos (cs_func st6)))).
    { unfold i1. f_equal. f_equal. rewrite <- E6, (grows_pos _ _ _ G2), length_app. simpl. lia. }
    assert (E9 : (pos f + length (cc ++ i1 :: ct ++ op0 OpCode.Jump :: ce))%nat = (pos (cs_func st6) + length ce)%nat).
    { rewrite <- E6, <- E2, length_app. simpl. rewrite length_app. simpl. lia. }
    rewrite E9, Ei in G8. rewrite E6. exact G8.
  - pose proof (ext_trans _ _ _ (patch_ext _ _ _ _ H1) (grows_ext _ _ _ G5)) as X1.
    pose proof (patch_ext _ _ _ _ H2') as X2.
    pose proof (ext_trans _ _ _ (grows_ext _ _ _ G4) (ext_trans _ _ _ X1 X2)) as X3.
    unfold fits. cbn [tree_ok]. rewrite !andb_true_iff. split_and!.
    + apply (ext_fits f1); [|done]. apply (ext_trans _ _ _ (grows_ext _ _ _ (grows_trans _ _ _ _ _ G2 G3)) X3).
    + exact (ext_fits f3 _ t X3 F3).
    + exact (ext_fits _ _ e X2 F5).
Qed.

(** *** Productions *)

Section Sound.
Context (rec : Prod -> P unit).
Context (Hrec : forall p st x st', rec p st = Some (Ok x, st') -> emits p (cs_func st) (cs_func st')).

Ltac emit_inv :=
  run_inv;
  repeat match goal with
  | H : rec _ _ = Some _ |- _ => apply Hrec in H; cbn [emits] in H
  | H : emit_op _ _ = Some _ |- _ => apply emit_op_ok in H
  | H : emit_inst _ _ _ = Some _ |- _ => apply emit_inst_ok in H
  | H : emit _ _ _ _ = Some _ |- _ => apply emit_ok in H
  | H : emit_jump _ _ = Some _ |- _ => apply emit_jump_ok in H as [-> H]
  | H : emit_string_const _ _ = Some _ |- _ => apply emit_string_const_ok in H as (? & ? & ?)
  end;
  repeat match goal with E : cs_func ?a = cs_func ?b |- _ => rewrite E in *; clear E end.

Lemma cmp_op_binary l op r : cmp_op l = Some (op, r) -> binary_op op = true.
Proof. unfold cmp_op. repeat destruct (strip_prefix _ l); naive_solver. Qed.

(** The production's tree from the trees of its parts. *)
Ltac finish_tree :=
  first
  [ eassumption | apply continues_refl | eapply pushes_continues; eassumption | eapply emits_comma; eassumption
  | eapply continues_binary; [|eassumption..]; first [reflexivity|eapply cmp_op_binary; eassumption]
  | eapply pushes_unary; [|eassumption..]; reflexivity ].

Lemma parse_comma_ok st x st' : parse_comma rec st = Some (Ok x, st') -> pushes (cs_func st) (cs_func st').
Proof. unfold parse_comma. intros H. emit_inv; finish_tree. Qed.

Lemma comma_loop_ok st x st' : comma_loop rec st = Some (Ok x, st') -> continues (cs_func st) (cs_func st').
Proof. unfold comma_loop. intros H. emit_inv; finish_tree. Qed.

Lemma parse_logical_or_ok st x st' : parse_logical_or rec st = Some (Ok x, st') -> pushes (cs_func st) (cs_func st').
Proof. unfold parse_logical_or. intros H. emit_inv; finish_tree. Qed.
Lemma or_loop_ok st x st' : or_loop rec st = Some (Ok x, st') -> continues (cs_func st) (cs_func st').
Proof. unfold or_loop. intros H. emit_inv; finish_tree. Qed.
Lemma parse_logical_and_ok st x st' : parse_logical_and rec st = Some (Ok x, st') -> pushes (cs_func st) (cs_func st').
Proof. unfold parse_logical_and. intros H. emit_inv; finish_tree. Qed.
Lemma and_loop_ok st x st' : and_loop rec st = Some (Ok x, st') -> continues (cs_func st) (cs_func st').
Proof. unfold and_loop. intros H. emit_inv; finish_tree. Qed.

Lemma parse_comparison_ok st x st' : parse_comparison rec st = Some (Ok x, st') -> pushes (cs_func st) (cs_func st').
Proof. unfold parse_comparison. intros H. emit_inv; finish_tree. Qed.
Lemma cmp_loop_ok st x st' : cmp_loop rec st = Some (Ok x, st') -> continues (cs_func st) (cs_func st').
Proof. unfold cmp_loop. intros H. emit_inv; finish_tree. Qed.

Lemma parse_expr_ok st x st' : parse_expr rec st = Some (Ok x, st') -> pushes (cs_func st) (cs_func st').
Proof. unfold parse_expr. intros H. emit_inv; finish_tree. Qed.
Lemma expr_loop_ok st x st' : expr_loop rec st = Some (Ok x, st') -> continues (cs_func st) (cs_func st').
Proof.
  unfold expr_loop. intros H. emit_inv; finish_tree.
Qed.
Lemma parse_term_ok st x st' : parse_term rec st = Some (Ok x, st') -> pushes (cs_func st) (cs_func st').
Proof. unfold parse_term. intros H. emit_inv; finish_tree. Qed.
Lemma term_loop_ok st x st' : term_loop rec st = Some (Ok x, st') -> continues (cs_func st) (cs_func st').
Proof.
  unfold term_loop. intros H. emit_inv; finish_tree.
Qed.
Lemma parse_factor_ok st x st' : parse_factor rec st = Some (Ok x, st') -> pushes (cs_func st) (cs_func st').
Proof.
  unfold parse_factor. intros H. emit_inv; finish_tree.
Qed.
Lemma parse_postfix_ok st x st' : parse_postfix rec st = Some (Ok x, st') -> pushes (cs_func st) (cs_func st').
Proof. unfold parse_postfix. intros H. emit_inv; finish_tree. Qed.

Lemma parse_conditional_ok st x st' : parse_conditional rec st = Some (Ok x, st') -> pushes (cs_func st) (cs_func st').
Proof.
  unfold parse_conditional. intros H. emit_inv; [done|].
  repeat match goal with H : pushes _ _ |- _ => destruct H as (? & ? & ?) end.
  eapply pushes_cond; eassumption.
Qed.

Lemma store_local_ok slot st x st' :
  store_local slot st = Some (Ok x, st') ->
  grows (cs_func st) [op0 OpCode.Dup; ins OpCode.StoreLocal slot; op0 OpCode.Drop] (cs_func st').
Proof.
  unfold store_local. intros H. emit_inv. eapply (grows_trans _ _ _ [_]); [eassumption|].
  eapply (grows_trans _ _ _ [_]); eassumption.
Qed.

(** A compound assignment: the variable, the operand and the operator before the store. *)
Lemma pushes_compound (op : OpCode.t) (e1 : tree) (f f1 f2 f3 : BytecodeFunction) :
  binary_op op = true -> grows f (gen (pos f) e1) f1 -> fits f1 e1 = true -> pushes f1 f2 ->
  grows f2 [op0 op] f3 -> pushes f f3.
Proof.
  intros Hop G1 F1 P1 G2.
  assert (Hc : continues f1 f3) by (eapply continues_binary; [exact Hop|exact P1|exact G2|apply continues_refl]).
  exact (Hc f e1 G1 F1).
Qed.

Lemma find_local_ok name st o st' :
  find_local name st = Some (Ok o, st') -> st' = st /\ o = find_local_in (locals (cs_func st)) name.
Proof. unfold find_local. intros H. by injection H as <- <-. Qed.

Lemma pushes_global (i : Z) (f f1 f2 : BytecodeFunction) :
  grows f [] f1 -> below (nconsts f1) i = true -> grows f1 [ins OpCode.LoadGlobal i] f2 ->
  grows f [ins OpCode.LoadGlobal i] f2 /\ fits f2 (TGlobal i) = true.
Proof. intros G1 B G2. split; [exact (grows_trans _ _ _ [] _ G1 G2)|exact (grows_below _ _ _ _ G2 B)]. Qed.

Lemma assign_add_ok name st x st' : assign_add rec name st = Some (Ok x, st') -> pushes (cs_func st) (cs_func st').
Proof.
  unfold assign_add. intros (o & st1 & [-> ->]%find_local_ok & H)%bind_ok.
  destruct (find_local_in _ name) as [slot|] eqn:Hs.
  - apply find_local_below in Hs. emit_inv. apply store_local_ok in H.
    eapply pushes_store_local; [|exact H|exact Hs].
    eapply (pushes_compound OpCode.Add (TLocal slot)); [done|eassumption| |eassumption..].
    unfold fits, nlocals. cbn [tree_ok]. erewrite gr_locals by eassumption. exact Hs.
  - apply bind_ok in H as (i & st1 & [G1 B1]%add_string_const_ok & H).
    apply bind_ok in H as (u & st2 & G2%emit_inst_ok & H).
    destruct (pushes_global i _ _ _ G1 B1 G2) as [G F].
    apply bind_ok in H as (u2 & st3 & P3%Hrec & H). apply bind_ok in H as (u3 & st4 & G4%emit_op_ok & H).
    apply (emit_indexed_ok _ _ _ _ _ (add_string_const_ok name)) in H as (j & G5 & B5).
    eapply pushes_store_global; [|exact G5|exact B5].
    exact (pushes_compound OpCode.Add (TGlobal i) _ _ _ _ eq_refl G F P3 G4).
Qed.

Lemma assign_sub_ok name st x st' : assign_sub rec name st = Some (Ok x, st') -> pushes (cs_func st) (cs_func st').
Proof.
  unfold assign_sub. intros (o & st1 & [-> ->]%find_local_ok & H)%bind_ok.
  destruct (find_local_in _ name) as [slot|] eqn:Hs; [|discriminate H].
  apply find_local_below in Hs. emit_inv. apply store_local_ok in H.
  eapply pushes_store_local; [|exact H|exact Hs].
  eapply (pushes_compound OpCode.Sub (TLocal slot)); [done|eassumption| |eassumption..].
  unfold fits, nlocals. cbn [tree_ok]. erewrite gr_locals by eassumption. exact Hs.
Qed.

Lemma assign_simple_ok name st x st' : assign_simple rec name st = Some (Ok x, st') -> pushes (cs_func st) (cs_func st').
Proof.
  unfold assign_simple. intros (u & st1 & P1%Hrec & H)%bind_ok. cbn [emits] in P1.
  apply bind_ok in H as (o & st2 & [-> ->]%find_local_ok & H).
  destruct (find_local_in _ name) as [slot|] eqn:Hs.
  - apply find_local_below in Hs. apply store_local_ok in H.
    eapply pushes_store_local; [exact P1|exact H|]. destruct P1 as (e & G & _). unfold nlocals.
    by rewrite <- (gr_locals _ _ _ G).
  - apply (emit_indexed_ok _ _ _ _ _ (add_string_const_ok name)) in H as (j & G5 & B5).
    exact (pushes_store_global _ _ _ _ P1 G5 B5).
Qed.

Lemma parse_assignment_ok st x st' : parse_assignment rec st = Some (Ok x, st') -> pushes (cs_func st) (cs_func st').
Proof.
  unfold parse_assignment. intros H. emit_inv;
    repeat match goal with
    | H : assign_add _ _ _ = Some _ |- _ => apply assign_add_ok in H
    | H : assign_sub _ _ _ = Some _ |- _ => apply assign_sub_ok in H
    | H : assign_simple _ _ _ = Some _ |- _ => apply assign_simple_ok in H
    end; emit_inv; eassumption.
Qed.
(** *** Calls *)

Lemma argc_succ {A} (l : list A) (x : A) : argc_of (l ++ [x]) = as_u32 (argc_of l + 1).
Proof.
  unfold argc_of, as_idx, as_u32. rewrite length_app. simpl. rewrite Zplus_mod_idemp_l. f_equal. lia.
Qed.

Lemma args_from_more call argc f f1 f2 :
  pushes f f1 -> args_from call (as_u32 (argc + 1)) f1 f2 -> args_from call argc f f2.
Proof.
  intros (e & G & F) Ha g pre args0 -> G0 F0. apply (Ha g pre (args0 ++ [e])).
  - by rewrite argc_succ.
  - rewrite gen_seq_app. simpl. rewrite app_nil_r, app_assoc.
    rewrite (grows_pos _ _ _ G0), length_app, Nat.add_assoc in G. exact (grows_trans _ _ _ _ _ G0 G).
  - rewrite forallb_app. simpl. by rewrite (grows_fits_all _ _ _ _ G F0), F.
Qed.

Lemma args_from_end call argc f f1 : grows f [ins call argc] f1 -> args_from call argc f f1.
Proof.
  intros G g pre args0 -> G0 F0. exists args0. split; [|exact (grows_fits_all _ _ _ _ G F0)].
  rewrite app_assoc. exact (grows_trans _ _ _ _ _ G0 G).
Qed.

Lemma parse_args_ok call st x st' : parse_args rec call st = Some (Ok x, st') -> args_from call 0 (cs_func st) (cs_func st').
Proof. unfold parse_args. intros H. emit_inv; [by apply args_from_end|eapply args_from_more; eassumption]. Qed.
Lemma args_loop_ok call argc st x st' :
  args_loop rec call argc st = Some (Ok x, st') -> args_from call argc (cs_func st) (cs_func st').
Proof. unfold args_loop. intros H. emit_inv; [eapply args_from_more; eassumption|by apply args_from_end]. Qed.

Lemma continues_call f f1 f2 : args_from OpCode.Call 0 f f1 -> continues f1 f2 -> continues f f2.
Proof.
  intros Ha Hc g e0 G0 F0. destruct (Ha g (gen (pos g) e0) [] eq_refl) as (args & G & F);
    [by rewrite app_nil_r|done|].
  apply (Hc g (TCall e0 args)); [exact G|]. unfold fits. cbn [tree_ok]. apply andb_true_iff. split; [|exact F].
  destruct (Ha f [] [] eq_refl) as (args' & G' & _); [apply grows_refl|done|]. exact (grows_fits _ _ _ _ G' F0).
Qed.

Lemma continues_method i f f1 f2 f3 f4 f5 :
  grows f [op0 OpCode.Dup] f1 -> grows f1 [ins OpCode.Const i] f2 -> below (nconsts f2) i = true ->
  grows f2 [op0 OpCode.GetProp] f3 -> args_from OpCode.CallMethod 0 f3 f4 -> continues f4 f5 -> continues f f5.
Proof.
  intros G1 G2 B G3 Ha Hc g e0 G0 F0.
  pose proof (grows_trans _ _ _ _ _ G1 (grows_trans _ _ _ _ _ G2 G3)) as G4.
  destruct (Ha g (gen (pos g) e0 ++ [op0 OpCode.Dup; ins OpCode.Const i; op0 OpCode.GetProp]) [] eq_refl)
    as (args & G & F); [|done|].
  { simpl. rewrite app_nil_r. exact (grows_trans _ _ _ _ _ G0 G4). }
  destruct (Ha f3 [] [] eq_refl) as (args' & G' & _); [apply grows_refl|done|].
  apply (Hc g (TMethod e0 i args)).
  - cbn [gen]. rewrite length_app, <- app_assoc, Nat.add_assoc in G. exact G.
  - unfold fits. cbn [tree_ok]. rewrite !andb_true_iff. split_and!; [|apply (grows_below f3 _ _ _ G'), (grows_below f2 _ _ _ G3 B)|exact F].
    exact (grows_fits _ _ _ _ G' (grows_fits _ _ _ _ G4 F0)).
Qed.

Lemma continues_prop i f f1 f2 f3 :
  grows f [ins OpCode.Const i] f1 -> below (nconsts f1) i = true -> grows f1 [op0 OpCode.GetProp] f2 ->
  continues f2 f3 -> continues f f3.
Proof.
  intros G1 B G2 Hc. apply (continues_binary OpCode.GetProp f f1 f2 f3 eq_refl); [|exact G2|exact Hc].
  exists (TConst i). by split.
Qed.

Lemma postfix_loop_ok st x st' : postfix_loop rec st = Some (Ok x, st') -> continues (cs_func st) (cs_func st').
Proof.
  unfold postfix_loop. intros H. emit_inv; try finish_tree.
  - eapply continues_method; eassumption.
  - eapply continues_prop; eassumption.
  - eapply continues_call; eassumption.
Qed.

(** *** Operands *)

Lemma const_pushes st (m : P Z) (x : unit) st' :
  (forall st i st', m st = Some (Ok i, st') -> grows (cs_func st) [] (cs_func st') /\ below (nconsts (cs_func st')) i = true) ->
  (idx <~ m ;; emit_inst OpCode.Const idx) st = Some (Ok x, st') -> pushes (cs_func st) (cs_func st').
Proof. intros Hm (i & G & B)%(emit_indexed_ok _ _ _ _ _ Hm). by exists (TConst i). Qed.

Lemma global_pushes st name (x : unit) st' :
  (idx <~ add_string_const name ;; emit_inst OpCode.LoadGlobal idx) st = Some (Ok x, st') ->
  pushes (cs_func st) (cs_func st').
Proof.
  intros (i & G & B)%(emit_indexed_ok _ _ _ _ _ (add_string_const_ok name)). by exists (TGlobal i).
Qed.

Lemma parse_name_ok name st x st' : parse_name rec name st = Some (Ok x, st') -> pushes (cs_func st) (cs_func st').
Proof.
  unfold parse_name. intros H. repeat (case_bool_decide; [|]); try (eapply const_pushes; [|exact H]; eauto using push_const_ok, add_undefined_const_ok).
  - apply bind_ok in H as (u & st1 & Hw & H). apply quiet_skip_ws in Hw as E1.
    apply bind_ok in H as (c & st2 & Hc & H). apply quiet_consume in Hc as E2. rewrite E1 in E2.
    destruct c.
    + emit_inv. finish_tree.
    + rewrite <- E2. by eapply global_pushes.
  - apply bind_ok in H as (o & st1 & [-> ->]%find_local_ok & H).
    destruct (find_local_in _ name) as [slot|] eqn:Hs; [|by eapply global_pushes].
    apply emit_inst_ok in H as G. exists (TLocal slot). split; [exact G|]. unfold fits, nlocals. cbn [tree_ok].
    rewrite (gr_locals _ _ _ G). by eapply find_local_below.
Qed.

Lemma parse_primary_ok st x st' : parse_primary rec st = Some (Ok x, st') -> pushes (cs_func st) (cs_func st').
Proof.
  unfold parse_primary. intros H. emit_inv; [finish_tree|..].
  - eexists (TConst _). split; eassumption.
  - apply const_pushes in H; [|apply add_number_const_ok]. congruence.
  - apply parse_name_ok in H. congruence.
Qed.
End Sound.

Lemma parse_emits (fuel : nat) (p : Prod) (st : CState) (x : unit) (st' : CState) :
  parse fuel p st = Some (Ok x, st') -> emits p (cs_func st) (cs_func st').
Proof.
  revert p st x st'. induction fuel as [|fuel IH]; intros p st x st'; [discriminate|].
  destruct p; cbn [parse emits];
    eauto using parse_comma_ok, comma_loop_ok, parse_conditional_ok, parse_logical_or_ok, or_loop_ok,
      parse_logical_and_ok, and_loop_ok, parse_comparison_ok, cmp_loop_ok, parse_assignment_ok, parse_expr_ok,
      expr_loop_ok, parse_term_ok, term_loop_ok, parse_factor_ok, parse_postfix_ok, postfix_loop_ok,
      parse_primary_ok, parse_args_ok, args_loop_ok.
Qed.

Lemma compile_full_expr_ok (src : bytes) (st : CState) (x : unit) (st' : CState) :
  compile_full_expr src st = Some (Ok x, st') -> pushes (cs_func st) (cs_func st').
Proof.
  unfold compile_full_expr. intros H. run_inv.
  match goal with H : parse _ _ _ = _ |- _ => apply parse_emits in H; cbn [emits] in H end. congruence.
Qed.

(** ** Statements *)

(** As [grows], with new locals too. *)
Record extends (f : BytecodeFunction) (seg : list Instruction) (f' : BytecodeFunction) : Prop := {
  ex_code : code f' = code f ++ seg;
  ex_locals : exists ls, locals f' = locals f ++ ls;
  ex_consts : exists cs, constants f' = constants f ++ cs
}.
Definition fits_all (f : BytecodeFunction) (l : list stmt) : bool := forallb (stmt_ok (nlocals f) (nconsts f)) l.

(** The code of a statement list. *)
Definition does (f f' : BytecodeFunction) : Prop :=
  exists l, extends f (gen_stmts (pos f) l) f' /\ fits_all f' l = true.

Lemma grows_extends (f f' : BytecodeFunction) (seg : list Instruction) : grows f seg f' -> extends f seg f'.
Proof. intros [C L K]. split; [done| |done]. exists []. by rewrite app_nil_r. Qed.

Lemma extends_trans (f f1 f2 : BytecodeFunction) (s1 s2 : list Instruction) :
  extends f s1 f1 -> extends f1 s2 f2 -> extends f (s1 ++ s2) f2.
Proof.
  intros [C1 [l1 L1] [k1 K1]] [C2 [l2 L2] [k2 K2]]. split; [by rewrite C2, C1, app_assoc| |].
  - exists (l1 ++ l2). by rewrite L2, L1, app_assoc.
  - exists (k1 ++ k2). by rewrite K2, K1, app_assoc.
Qed.

Lemma extends_pos (f f' : BytecodeFunction) (seg : list Instruction) : extends f seg f' -> pos f' = (pos f + length seg)%nat.
Proof. intros [C _ _]. unfold pos. by rewrite C, length_app. Qed.

Lemma extends_sizes (f f' : BytecodeFunction) (seg : list Instruction) :
  extends f seg f' -> (nlocals f <= nlocals f')%nat /\ (nconsts f <= nconsts f')%nat.
Proof. intros [_ [ls L] [cs K]]. unfold nlocals, nconsts. rewrite L, K, !length_app. lia. Qed.

Lemma extends_fits (f f' : BytecodeFunction) (seg : list Instruction) (e : tree) :
  extends f seg f' -> fits f e = true -> fits f' e = true.
Proof. intros [? ?]%extends_sizes. by apply tree_ok_mono. Qed.

Lemma extends_fits_all (f f' : BytecodeFunction) (seg : list Instruction) (l : list stmt) :
  extends f seg f' -> fits_all f l = true -> fits_all f' l = true.
Proof. intros [? ?]%extends_sizes. apply forallb_mono, Forall_forall. intros s _. by apply stmt_ok_mono. Qed.

Lemma does_nil (f : BytecodeFunction) : does f f.
Proof. exists []. split; [|done]. apply grows_extends, grows_refl. Qed.

Lemma does_seq (f f1 f2 : BytecodeFunction) : does f f1 -> does f1 f2 -> does f f2.
Proof.
  intros (l1 & E1 & F1) (l2 & E2 & F2). exists (l1 ++ l2). split.
  - unfold gen_stmts. rewrite gen_seq_app. rewrite (extends_pos _ _ _ E1) in E2. exact (extends_trans _ _ _ _ _ E1 E2).
  - unfold fits_all in *. rewrite forallb_app, F2, andb_true_r. exact (extends_fits_all _ _ _ _ E2 F1).
Qed.

Lemma does_one (f f' : BytecodeFunction) (s : stmt) :
  extends f (gen_stmt (pos f) s) f' -> stmt_ok (nlocals f') (nconsts f') s = true -> does f f'.
Proof.
  intros E F. exists [s]. unfold gen_stmts, fits_all. simpl. rewrite app_nil_r, F. by split.
Qed.

Lemma patch_code (l1 l2 : list Instruction) (i : Instruction) (st : CState) (x : unit) (st' : CState) :
  code (cs_func st) = l1 ++ i :: l2 -> patch_jump (length l1) st = Some (Ok x, st') ->
  code (cs_func st') = l1 ++ set_target (as_idx (length (l1 ++ i :: l2))) i :: l2 /\
  locals (cs_func st') = locals (cs_func st) /\ constants (cs_func st') = constants (cs_func st).
Proof. intros C H. injection H as <- <-. simpl. by rewrite C, alter_mid. Qed.

Lemma extends_patch_at (f g : BytecodeFunction) (s1 s2 : list Instruction) (st : CState) (x : unit) (st' : CState) (op : OpCode.t) (n : nat) :
  extends f (s1 ++ [op0 op]) g -> extends g s2 (cs_func st) -> n = (pos f + length s1)%nat ->
  patch_jump n st = Some (Ok x, st') ->
  extends f (s1 ++ ins op (as_idx (n + 1 + length s2)) :: s2) (cs_func st').
Proof.
  intros E1 E2 -> H. destruct (extends_trans _ _ _ _ _ E1 E2) as [C L K].
  destruct (patch_code (code f ++ s1) s2 (op0 op) st x st') as (C' & L' & K').
  - rewrite C. by rewrite <- !app_assoc.
  - rewrite length_app. exact H.
  - split; [|by rewrite L'|by rewrite K'].
    rewrite C', <- app_assoc. unfold set_target. simpl. do 3 f_equal.
    rewrite !length_app. simpl. unfold ins, pos. do 2 f_equal. lia.
Qed.

Lemma extends_patched (f f1 f2 : BytecodeFunction) (s1 s2 : list Instruction) (st : CState) (x : unit) (st' : CState) (op : OpCode.t) :
  extends f s1 f1 -> grows f1 [op0 op] f2 -> extends f2 s2 (cs_func st) ->
  patch_jump (pos f1) st = Some (Ok x, st') ->
  extends f (s1 ++ ins op (as_idx (pos f1 + 1 + length s2)) :: s2) (cs_func st').
Proof.
  intros E1 G2 E3 H. eapply extends_patch_at; [|exact E3|exact (extends_pos _ _ _ E1)|exact H].
  exact (extends_trans _ _ _ _ _ E1 (grows_extends _ _ _ G2)).
Qed.

(** Sizes only grow, so what fits goes on fitting. *)
Definition grown (f f' : BytecodeFunction) : Prop := (nlocals f <= nlocals f')%nat /\ (nconsts f <= nconsts f')%nat.
Lemma extends_grown f seg f' : extends f seg f' -> grown f f'.
Proof. apply extends_sizes. Qed.
Lemma grows_grown f seg f' : grows f seg f' -> grown f f'.
Proof. intros G. exact (extends_sizes _ _ _ (grows_extends _ _ _ G)). Qed.
Lemma patch_grown at_ st x st' : patch_jump at_ st = Some (Ok x, st') -> grown (cs_func st) (cs_func st').
Proof.
  intros [L [cs K]]%patch_ext. unfold grown, nlocals, nconsts. rewrite L, K, length_app. lia.
Qed.
Lemma grown_trans f f1 f2 : grown f f1 -> grown f1 f2 -> grown f f2.
Proof. unfold grown. lia. Qed.
Lemma grown_fits f f' e : grown f f' -> fits f e = true -> fits f' e = true.
Proof. intros [? ?]. by apply tree_ok_mono. Qed.
Lemma grown_fits_all f f' l : grown f f' -> fits_all f l = true -> fits_all f' l = true.
Proof. intros [? ?]. apply forallb_mono, Forall_forall. intros s _. by apply stmt_ok_mono. Qed.
Create HintDb grown.
#[export] Hint Resolve extends_grown grows_grown patch_grown : grown.
#[export] Hint Extern 5 (grown _ _) => eapply grown_trans; [solve [eauto 2 with grown]|] : grown.

Lemma ensure_local_ok (name : bytes) (st : CState) (slot : Z) (st' : CState) :
  ensure_local name st = Some (Ok slot, st') ->
  extends (cs_func st) [] (cs_func st') /\ below (nlocals (cs_func st')) slot = true.
Proof.
  unfold ensure_local. intros (f & st1 & [= <- <-] & H)%bind_ok.
  destruct (find_local_in _ name) as [i|] eqn:Hf.
  - injection H as <- <-. split; [apply grows_extends, grows_refl|by eapply find_local_below].
  - apply bind_ok in H as (u & st2 & H2 & H). injection H2 as <- <-. injection H as <- <-. split; simpl.
    + split; simpl; [by rewrite app_nil_r|by eexists|exists []; by rewrite app_nil_r].
    + apply below_idx. unfold nlocals. simpl. rewrite length_app. simpl. lia.
Qed.

Lemma does_var (slot : Z) (f f1 f2 f3 f4 : BytecodeFunction) :
  extends f [] f1 -> below (nlocals f1) slot = true -> pushes f1 f2 -> grows f2 [ins OpCode.StoreLocal slot] f3 ->
  grows f3 [op0 OpCode.Drop] f4 -> does f f4.
Proof.
  intros E1 B (e & G2 & F2) G3 G4. pose proof (grows_trans _ _ _ _ _ G3 G4) as G34.
  pose proof (grows_trans _ _ _ _ _ G2 G34) as G24.
  apply (does_one _ _ (SVar slot e)).
  - pose proof (extends_pos _ _ _ E1) as Hp. simpl in Hp. rewrite Nat.add_0_r in Hp. rewrite Hp in G24.
    exact (extends_trans _ _ _ [] _ E1 (grows_extends _ _ _ G24)).
  - cbn [stmt_ok]. apply andb_true_iff. split; [|exact (grows_fits _ _ _ _ G34 F2)].
    unfold nlocals in *. by rewrite (gr_locals _ _ _ G24).
Qed.

Lemma does_expr (f f1 f2 : BytecodeFunction) : pushes f f1 -> grows f1 [op0 OpCode.Drop] f2 -> does f f2.
Proof.
  intros (e & G & F) G2. apply (does_one _ _ (SExpr e)); [|exact (grows_fits _ _ _ _ G2 F)].
  exact (grows_extends _ _ _ (grows_trans _ _ _ _ _ G G2)).
Qed.
Lemma does_return (f f1 f2 : BytecodeFunction) : pushes f f1 -> grows f1 [op0 OpCode.Return] f2 -> does f f2.
Proof.
  intros (e & G & F) G2. apply (does_one _ _ (SReturn e)); [|exact (grows_fits _ _ _ _ G2 F)].
  exact (grows_extends _ _ _ (grows_trans _ _ _ _ _ G G2)).
Qed.

Lemma does_if (f f1 f2 : BytecodeFunction) (st3 st' : CState) (x : unit) :
  pushes f f1 -> grows f1 [op0 OpCode.JumpIfFalse] f2 -> does f2 (cs_func st3) ->
  patch_jump (pos f1) st3 = Some (Ok x, st') -> does f (cs_func st').
Proof.
  intros (c & G1 & F1) G2 (l & E3 & F3) H.
  pose proof (extends_patched _ _ _ _ _ _ _ _ _ (grows_extends _ _ _ G1) G2 E3 H) as E.
  assert (Hp : (pos f + length (gen (pos f) c) + 1)%nat = pos f2)
    by (rewrite (grows_pos _ _ _ G2), (grows_pos _ _ _ G1); done).
  apply (does_one _ _ (SCond c l None)).
  - cbn [gen_stmt]. rewrite Hp. rewrite <- (grows_pos _ _ _ G1) in Hp. rewrite Hp in E. exact E.
  - pose proof (patch_grown _ _ _ _ H) as X. cbn [stmt_ok]. apply andb_true_iff. split.
    + apply (grown_fits f1); [|exact F1]. eauto using grown_trans with grown.
    + exact (grown_fits_all _ _ _ X F3).
Qed.

Lemma does_if_else (f f1 f2 : BytecodeFunction) (st3 st4 st5 st6 st' : CState) (x y : unit) :
  pushes f f1 -> grows f1 [op0 OpCode.JumpIfFalse] f2 -> does f2 (cs_func st3) ->
  grows (cs_func st3) [op0 OpCode.Jump] (cs_func st4) -> patch_jump (pos f1) st4 = Some (Ok x, st5) ->
  does (cs_func st5) (cs_func st6) -> patch_jump (pos (cs_func st3)) st6 = Some (Ok y, st') -> does f (cs_func st').
Proof.
  intros (c & G1 & F1) G2 (l & E3 & F3) G4 H5 (o & E6 & F6) H'.
  pose proof (extends_patched _ _ _ _ _ _ _ _ _ (grows_extends _ _ _ G1) G2
    (extends_trans _ _ _ _ _ E3 (grows_extends _ _ _ G4)) H5) as E5.
  pose proof (grows_pos _ _ _ G2) as P2. pose proof (grows_pos _ _ _ G1) as P1. pose proof (extends_pos _ _ _ E3) as P3.
  pose proof (extends_pos _ _ _ E5) as P5. simpl in P2.
  set (cc := gen (pos f) c) in *. set (cl := gen_stmts (pos f2) l) in *. set (co := gen_stmts (pos (cs_func st5)) o) in *.
  set (i1 := ins OpCode.JumpIfFalse _) in *.
  assert (P5' : pos (cs_func st5) = (pos f2 + length cl + 1)%nat)
    by (rewrite P5, length_app; simpl; rewrite length_app; simpl; lia).
  assert (E7 : extends f ((cc ++ i1 :: cl) ++ [op0 OpCode.Jump]) (cs_func st5)) by (rewrite <- app_assoc; exact E5).
  assert (Hn : pos (cs_func st3) = (pos f + length (cc ++ i1 :: cl))%nat) by (rewrite P3, length_app; simpl; lia).
  pose proof (extends_patch_at _ _ _ _ _ _ _ _ _ E7 E6 Hn H') as E8. rewrite <- app_assoc in E8. simpl in E8.
  apply (does_one _ _ (SCond c l (Some o))).
  - cbn [gen_stmt]. fold (gen_stmts (pos f + length (gen (pos f) c) + 1) l). fold cc.
    replace (pos f + length cc + 1)%nat with (pos f2) by lia. fold cl. rewrite <- P5'.
    fold (gen_stmts (pos (cs_func st5)) o). fold co.
    assert (Ei : i1 = ins OpCode.JumpIfFalse (as_idx (pos (cs_func st5)))).
    { unfold i1. do 2 f_equal. rewrite length_app. simpl. lia. }
    rewrite Ei in E8. replace (pos (cs_func st3) + 1 + length co)%nat with (pos (cs_func st5) + length co)%nat in E8 by lia.
    exact E8.
  - pose proof (patch_grown _ _ _ _ H') as X'. pose proof (extends_grown _ _ _ E6) as X6.
    pose proof (patch_grown _ _ _ _ H5) as X5. pose proof (grows_grown _ _ _ G4) as X4.
    pose proof (extends_grown _ _ _ E3) as X3. pose proof (grows_grown _ _ _ G2) as X2.
    assert (X35 : grown (cs_func st3) (cs_func st')) by (unfold grown in *; lia).
    cbn [stmt_ok]. rewrite !andb_true_iff. split_and!.
    + apply (grown_fits f1); [|exact F1]. unfold grown in *; lia.
    + exact (grown_fits_all _ _ _ X35 F3).
    + exact (grown_fits_all _ _ _ X' F6).
Qed.

Lemma does_loop (f f2 : BytecodeFunction) : does f f2 -> forall f3, grows f2 [ins OpCode.Jump (as_idx (pos f))] f3 -> does f f3.
Proof.
  intros (l & E & F) f3 G. apply (does_one _ _ (SLoop None l)).
  - exact (extends_trans _ _ _ _ _ E (grows_extends _ _ _ G)).
  - exact (grown_fits_all _ _ _ (grows_grown _ _ _ G) F).
Qed.

Lemma does_loop_while (f f1 f2 f3 : BytecodeFunction) (st4 st' : CState) (x : unit) :
  pushes f f1 -> grows f1 [op0 OpCode.JumpIfFalse] f2 -> does f2 f3 ->
  grows f3 [ins OpCode.Jump (as_idx (pos f))] (cs_func st4) -> patch_jump (pos f1) st4 = Some (Ok x, st') ->
  does f (cs_func st').
Proof.
  intros (c & G1 & F1) G2 (l & E3 & F3) G4 H.
  pose proof (extends_patched _ _ _ _ _ _ _ _ _ (grows_extends _ _ _ G1) G2
    (extends_trans _ _ _ _ _ E3 (grows_extends _ _ _ G4)) H) as E.
  assert (Hp : (pos f + length (gen (pos f) c) + 1)%nat = pos f2)
    by (rewrite (grows_pos _ _ _ G2), (grows_pos _ _ _ G1); done).
  apply (does_one _ _ (SLoop (Some c) l)).
  - cbn [gen_stmt]. rewrite Hp. rewrite length_app, Nat.add_assoc in E. simpl in E.
    rewrite <- (grows_pos _ _ _ G1) in Hp. rewrite Hp in E. exact E.
  - pose proof (patch_grown _ _ _ _ H) as X. pose proof (grows_grown _ _ _ G4) as X4.
    pose proof (extends_grown _ _ _ E3) as X3. pose proof (grows_grown _ _ _ G2) as X2.
    cbn [stmt_ok]. apply andb_true_iff. split.
    + apply (grown_fits f1); [|exact F1]. unfold grown in *; lia.
    + apply (grown_fits_all f3); [|exact F3]. unfold grown in *; lia.
Qed.

(** Evaluates the quiet steps and turns the others into what they emit. *)
Ltac stmt_inv :=
  run_inv;
  repeat match goal with
  | H : compile_full_expr _ _ = Some _ |- _ => apply compile_full_expr_ok in H
  | H : ensure_local _ _ = Some _ |- _ => apply ensure_local_ok in H as [? ?]
  | H : emit_op _ _ = Some _ |- _ => apply emit_op_ok in H
  | H : emit_inst _ _ _ = Some _ |- _ => apply emit_inst_ok in H
  | H : emit_jump _ _ = Some _ |- _ => apply emit_jump_ok in H as [-> H]
  end;
  repeat match goal with E : cs_func ?a = cs_func ?b |- _ => rewrite E in *; clear E end.

Lemma compile_discard_ok e st x st' : compile_discard e st = Some (Ok x, st') -> does (cs_func st) (cs_func st').
Proof. unfold compile_discard. intros H. stmt_inv. eapply does_expr; eassumption. Qed.

Lemma compile_var_decl_ok rest st x st' : compile_var_decl rest st = Some (Ok x, st') -> does (cs_func st) (cs_func st').
Proof.
  unfold compile_var_decl. intros H. stmt_inv; [eapply does_var; eassumption|].
  exists []. by split.
Qed.

Lemma emit_undefined_ok st x st' : emit_undefined st = Some (Ok x, st') -> pushes (cs_func st) (cs_func st').
Proof. apply const_pushes, add_undefined_const_ok. Qed.

Lemma compile_return_ok s st x st' : compile_return s st = Some (Ok x, st') -> does (cs_func st) (cs_func st').
Proof.
  unfold compile_return. intros H. apply bind_ok in H as (u & st1 & H1 & H2%emit_op_ok).
  eapply does_return; [|exact H2]. destruct (trim (drop 7 s)); [by eapply emit_undefined_ok|by eapply compile_full_expr_ok].
Qed.

Lemma inc_target_ok f name amount i :
  inc_target f name amount = Some i -> exists slot a, i = MkIns OpCode.IncLocal slot a /\ below (nlocals f) slot = true.
Proof.
  unfold inc_target. destruct (is_valid_identifier name); [|done].
  destruct (find_local_in _ name) as [slot|] eqn:E; simpl; [|done]. intros [= <-]. do 2 eexists. split; [done|].
  by eapply find_local_below.
Qed.

Lemma inc_update_ok f update i :
  inc_update f update = Some i -> exists slot a, i = MkIns OpCode.IncLocal slot a /\ below (nlocals f) slot = true.
Proof.
  unfold inc_update. intros H.
  repeat match type of H with (match ?x with _ => _ end) = _ => destruct x eqn:?; [injection H as <-|] end;
    repeat match goal with
    | H : inc_suffix _ _ _ _ = Some _ |- _ => unfold inc_suffix in H; destruct (_ && _) in H; [|done]
    | H : inc_prefix _ _ _ _ = Some _ |- _ => unfold inc_prefix in H; destruct (_ && _) in H; [|done]
    | H : inc_assign _ _ _ _ = Some _ |- _ =>
        unfold inc_assign in H; destruct (find_sub _ _) as [[? ?]|]; simpl in H; [|done];
        destruct (i32_from_str _); simpl in H; [|done]
    end; by eapply inc_target_ok.
Qed.

Lemma try_inc_ok update st done_ st' :
  try_compile_inc_update update st = Some (Ok done_, st') ->
  if done_ then does (cs_func st) (cs_func st') else cs_func st' = cs_func st.
Proof.
  unfold try_compile_inc_update. intros (f & st1 & [= <- <-] & H)%bind_ok.
  destruct (inc_update _ _) as [i|] eqn:Ei; [|by injection H as <- <-].
  apply bind_ok in H as (u & st2 & G%emit_ok & H). injection H as <- <-.
  apply inc_update_ok in Ei as (slot & a & -> & B). apply (does_one _ _ (SInc slot a)); [by apply grows_extends|].
  cbn [stmt_ok]. unfold nlocals in *. by rewrite (gr_locals _ _ _ G).
Qed.

Section Statements.
Context (rec else_rec : bytes -> P unit).
Context (Hrec : forall s st x st', rec s st = Some (Ok x, st') -> does (cs_func st) (cs_func st')).
Context (Helse : forall s st x st', else_rec s st = Some (Ok x, st') -> does (cs_func st) (cs_func st')).

Lemma each_ok l st x st' : each rec l st = Some (Ok x, st') -> does (cs_func st) (cs_func st').
Proof.
  revert st. induction l as [|s l IH]; intros st H; [injection H as <- <-; apply does_nil|].
  apply bind_ok in H as (u & st1 & H1%Hrec & H2%IH). by eapply does_seq.
Qed.

Lemma compile_block_ok after st x st' : compile_block rec after st = Some (Ok x, st') -> does (cs_func st) (cs_func st').
Proof. unfold compile_block. intros H. run_inv. apply each_ok in H. congruence. Qed.

Lemma compile_if_stmt_ok s st x st' :
  compile_if_stmt rec else_rec s st = Some (Ok x, st') -> does (cs_func st) (cs_func st').
Proof.
  unfold compile_if_stmt. intros H. stmt_inv;
    repeat match goal with
    | H : compile_block _ _ _ = _ |- _ => apply compile_block_ok in H
    | H : else_rec _ _ = _ |- _ => apply Helse in H
    end; solve [eapply does_if_else; eassumption | eapply does_if; eassumption].
Qed.

Lemma compile_for_loop_ok s st x st' : compile_for_loop rec s st = Some (Ok x, st') -> does (cs_func st) (cs_func st').
Proof.
  unfold compile_for_loop. intros H.
  apply bind_ok in H as ([header after] & st1 & H1 & H). apply quiet_elim in H1 as E1; [|auto with quiet].
  apply bind_ok in H as ([[init cond] update] & st2 & H2 & H). apply quiet_elim in H2 as E2; [|auto with quiet].
  apply bind_ok in H as (u & st3 & H3 & H).
  assert (D3 : does (cs_func st) (cs_func st3)).
  { rewrite <- E1, <- E2. destruct (trim init) as [|b i]; [injection H3 as <- <-; apply does_nil|].
    destruct (starts_with _ _); [by eapply compile_var_decl_ok|by eapply compile_discard_ok]. }
  apply bind_ok in H as (start & st4 & H4 & H). injection H4 as <- <-.
  eapply does_seq; [exact D3|]. clear D3 H1 H2 H3 E1 E2.
  apply bind_ok in H as (je & st5 & H5 & H). apply bind_ok in H as (u6 & st6 & D6%compile_block_ok & H).
  apply bind_ok in H as (u7 & st7 & H7 & H).
  assert (D7 : does (cs_func st6) (cs_func st7)).
  { destruct (trim update) as [|b i]; [injection H7 as <- <-; apply does_nil|].
    apply bind_ok in H7 as (done_ & st8 & H8%try_inc_ok & H7).
    destruct done_; [by injection H7 as <- <-|]. rewrite <- H8. by eapply compile_discard_ok. }
  apply bind_ok in H as (u8 & st8 & G8%emit_inst_ok & H). pose proof (does_seq _ _ _ D6 D7) as D.
  destruct (trim cond) as [|b c].
  - injection H5 as <- <-. injection H as <- <-. exact (does_loop _ _ D _ G8).
  - apply bind_ok in H5 as (u9 & st9 & P9%compile_full_expr_ok & H5).
    apply bind_ok in H5 as (at_ & st10 & [-> G10]%emit_jump_ok & H5). injection H5 as <- <-.
    eapply does_loop_while; eassumption.
Qed.

Lemma stmt_body_ok s st x st' : stmt_body rec else_rec s st = Some (Ok x, st') -> does (cs_func st) (cs_func st').
Proof.
  unfold stmt_body. destruct (trim s) as [|b l]; [intros H; injection H as <- <-; apply does_nil|].
  repeat match goal with |- context [if ?c then _ else _] => destruct c end;
    eauto using compile_var_decl_ok, compile_return_ok, compile_for_loop_ok, compile_if_stmt_ok, compile_discard_ok.
  intros (u & st1 & H1%emit_undefined_ok & H2%emit_op_ok)%bind_ok. by eapply does_return.
Qed.
End Statements.

Lemma compile_rec_ok (fuel : nat) (p : SProd) (st : CState) (x : unit) (st' : CState) :
  compile_rec fuel p st = Some (Ok x, st') -> does (cs_func st) (cs_func st').
Proof.
  revert p st x st'. induction fuel as [|fuel IH]; intros p st x st' H; [discriminate H|].
  destruct p as [s|s]; [eapply stmt_body_ok in H|eapply compile_if_stmt_ok in H]; eauto.
Qed.

Lemma add_params_ok (names : list bytes) (st : CState) (x : unit) (st' : CState) :
  add_params names st = Some (Ok x, st') -> extends (cs_func st) [] (cs_func st').
Proof.
  revert st. induction names as [|n names IH]; intros st H; [injection H as <- <-; apply grows_extends, grows_refl|].
  apply bind_ok in H as (s & st1 & [E1 _]%ensure_local_ok & H2%IH). exact (extends_trans _ _ _ [] [] E1 H2).
Qed.

(** The function under construction when [compile_stmts] returns. *)
Lemma compile_stmts_ok (stmts : list bytes) (st : CState) (m : BytecodeModule) (st' : CState) :
  compile_stmts stmts st = Some (Ok m, st') -> m = new_module (cs_func st') /\ does (cs_func st) (cs_func st').
Proof.
  unfold compile_stmts. intros (u & st1 & H1 & H)%bind_ok. apply each_ok in H1.
  - apply bind_ok in H as (u2 & st2 & P2%emit_undefined_ok & H).
    apply bind_ok in H as (u3 & st3 & G3%emit_op_ok & H). apply bind_ok in H as (f & st4 & H4 & H).
    injection H4 as <- <-. injection H as <- <-. split; [done|].
    eapply does_seq; [exact H1|]. by eapply does_return.
  - intros s st2 y st3 H2. destruct (trim s); [injection H2 as <- <-; apply does_nil|by eapply compile_rec_ok].
Qed.
