(* ===== verification/JsCompileTotal.v ===== *)
(** * JsCompileTotal: the compiler ends on every input

    Every loop of the compiler reads input or text it then never sees again; the fuel of
    [JsCompile] is enough for that, so [None] is never the answer.  The argument only needs
    the lengths of what is left. *)
From S2P Require Import Prelude IntCodec Utf8 ServerArgs JsText JsValue JsMem JsScope JsFloat JsBytecode JsCompile.

(** [m] ends on [n] bytes of input, and a success leaves a number of bytes that [Q] holds of. *)
Definition runs {A} (n : nat) (m : P A) (Q : A -> nat -> Prop) : Prop :=
  forall st, length (cs_rest st) = n ->
  match m st with
  | None => False
  | Some (Err, _) => True
  | Some (Ok x, st') => Q x (length (cs_rest st'))
  end.

Lemma runs_bind {A B} (n : nat) (m : P A) (k : A -> P B) (Q : A -> nat -> Prop) (R : B -> nat -> Prop) :
  runs n m Q -> (forall x n', Q x n' -> runs n' (k x) R) -> runs n (bind m k) R.
Proof.
  intros Hm Hk st Hn. unfold bind. specialize (Hm st Hn). destruct (m st) as [[[x|] st1]|]; [|done..].
  exact (Hk x _ Hm st1 eq_refl).
Qed.

Lemma runs_weaken {A} (n : nat) (m : P A) (Q R : A -> nat -> Prop) :
  runs n m Q -> (forall x n', Q x n' -> R x n') -> runs n m R.
Proof. intros Hm HR st Hn. specialize (Hm st Hn). destruct (m st) as [[[x|] st1]|]; [by apply HR|done..]. Qed.

Lemma runs_ret {A} (n : nat) (x : A) (Q : A -> nat -> Prop) : Q x n -> runs n (ret x) Q.
Proof. intros HQ st <-. exact HQ. Qed.
Lemma runs_fail {A} (n : nat) (Q : A -> nat -> Prop) : runs n fail Q.
Proof. intros st _. exact I. Qed.

(** Steps that leave the input alone. *)
Definition still {A} (m : P A) : Prop := forall n, runs n m (fun _ n' => n' = n).

Create HintDb still.
Lemma still_bind {A B} (m : P A) (k : A -> P B) : still m -> (forall x, still (k x)) -> still (bind m k).
Proof. intros Hm Hk n. eapply runs_bind; [apply Hm|]. intros x n' ->. apply Hk. Qed.
Lemma still_ret {A} (x : A) : still (ret x). Proof. intros n. by apply runs_ret. Qed.
Lemma still_get_func : still get_func. Proof. intros n st Hn. exact Hn. Qed.
Lemma still_set_func f : still (set_func f). Proof. intros n st Hn. exact Hn. Qed.
Lemma still_on_ctx {A} (f : Ctx -> A * Ctx) : still (on_ctx f).
Proof. intros n st Hn. unfold on_ctx. by destruct (f (cs_ctx st)). Qed.
Lemma still_check b : still (check b). Proof. intros n st Hn. exact Hn. Qed.
#[export] Hint Resolve still_ret still_get_func still_set_func still_on_ctx still_check : still.
Ltac still_auto :=
  repeat first
    [ solve [auto with still] | apply still_bind; [|intros ?]
    | match goal with |- still (match ?x with _ => _ end) => destruct x end ].

Lemma still_emit op a b : still (emit op a b). Proof. unfold emit. still_auto. Qed.
#[export] Hint Resolve still_emit : still.
Lemma still_emit_op op : still (emit_op op). Proof. unfold emit_op. still_auto. Qed.
Lemma still_emit_inst op a : still (emit_inst op a). Proof. unfold emit_inst. still_auto. Qed.
Lemma still_here : still here. Proof. unfold here. still_auto. Qed.
#[export] Hint Resolve still_emit_op still_emit_inst still_here : still.
Lemma still_emit_jump op : still (emit_jump op). Proof. unfold emit_jump. still_auto. Qed.
Lemma still_patch_jump at_ : still (patch_jump at_). Proof. unfold patch_jump. still_auto. Qed.
Lemma still_find_local name : still (find_local name). Proof. unfold find_local. still_auto. Qed.
Lemma still_ensure_local name : still (ensure_local name). Proof. unfold ensure_local. still_auto. Qed.
Lemma still_push_const v : still (push_const v). Proof. unfold push_const. still_auto. Qed.
#[export] Hint Resolve still_emit_jump still_patch_jump still_find_local still_ensure_local still_push_const : still.
Lemma still_add_undefined_const : still add_undefined_const. Proof. unfold add_undefined_const. still_auto. Qed.
Lemma still_add_number_const n : still (add_number_const n). Proof. unfold add_number_const. still_auto. Qed.
Lemma still_add_string_const s : still (add_string_const s). Proof. unfold add_string_const. still_auto. Qed.
#[export] Hint Resolve still_add_undefined_const still_add_number_const still_add_string_const : still.
Lemma still_emit_const n : still (emit_const n). Proof. unfold emit_const. still_auto. Qed.
Lemma still_emit_string_const s : still (emit_string_const s). Proof. unfold emit_string_const. still_auto. Qed.
Lemma still_emit_undefined : still emit_undefined. Proof. unfold emit_undefined. still_auto. Qed.
Lemma still_emit_literal v : still (emit_literal v). Proof. unfold emit_literal. still_auto. Qed.
Lemma still_store_local slot : still (store_local slot). Proof. unfold store_local. still_auto. Qed.
#[export] Hint Resolve still_emit_const still_emit_string_const still_emit_undefined still_emit_literal still_store_local : still.

(** ** Reading input *)

Lemma take_ident_length (l : bytes) : (length (take_ident l).2 <= length l)%nat.
Proof.
  induction l as [|b l IH]; simpl; [lia|]. destruct (ident_char b); [|simpl; lia].
  destruct (take_ident l). simpl in *. lia.
Qed.
Lemma until_brace_length (l : bytes) : (length (until_brace l).2 <= length l)%nat.
Proof.
  induction l as [|b l IH]; simpl; [lia|]. destruct (b =? c_rbrace); [simpl; lia|].
  destruct (until_brace l). simpl in *. lia.
Qed.

Lemma lex_number_length (l : bytes) : (length (lex_number l).2 <= length l)%nat.
Proof.
  unfold lex_number. destruct (lex_mantissa l) as [m r] eqn:Em. destruct (lex_exponent r) as [e r'] eqn:Ee. simpl.
  assert (H1 : (length r <= length l)%nat).
  { unfold lex_mantissa in Em. pose proof (take_digits_length l). destruct (take_digits l) as [w [|b r1]]; simpl in *.
    - injection Em as <- <-. simpl. lia.
    - destruct (b =? 46); [|injection Em as <- <-; simpl; lia]. pose proof (take_digits_length r1).
      destruct (take_digits r1). injection Em as <- <-. simpl in *. lia. }
  assert (H2 : (length r' <= length r)%nat); [|lia].
  unfold lex_exponent in Ee. destruct r as [|x r1]; [by injection Ee as <- <-|].
  destruct ((x =? 101) || (x =? 69)); [|injection Ee as <- <-; simpl; lia].
  destruct r1 as [|b r2].
  - simpl in Ee. injection Ee as <- <-. simpl. lia.
  - destruct ((b =? c_plus) || (b =? c_minus)).
    + pose proof (take_digits_length r2). destruct (take_digits r2). injection Ee as <- <-. simpl in *. lia.
    + pose proof (take_digits_length (b :: r2)). destruct (take_digits (b :: r2)). injection Ee as <- <-. simpl in *. lia.
Qed.

Lemma lex_escape_length (l : bytes) : (length (lex_escape l).2 <= length l)%nat.
Proof.
  unfold lex_escape. destruct l as [|b l]; [done|].
  repeat match goal with |- context [if b =? ?c then _ else _] => destruct (b =? c) end; cbn [snd length]; try lia.
  - destruct l as [|hi [|lo l3]]; simpl; lia.
  - destruct l as [|c l3]; [simpl; lia|]. destruct (c =? c_lbrace).
    + pose proof (until_brace_length l3). destruct (until_brace l3). simpl in *. rewrite length_drop. lia.
    + destruct (_ <=? _)%nat; simpl; rewrite ?length_drop; lia.
Qed.

Lemma string_loop_length (fuel : nat) (quote : Z) (acc l : bytes) :
  (length (string_loop fuel quote acc l).2 <= length l)%nat.
Proof.
  revert acc l. induction fuel as [|fuel IH]; intros acc l; simpl; [lia|]. destruct l as [|b l1]; [done|].
  destruct (b =? quote); [simpl; lia|]. destruct (_ && _).
  - pose proof (lex_escape_length l1). destruct (lex_escape l1) as [s l2]. simpl in *. specialize (IH (acc ++ s) l2). lia.
  - specialize (IH (acc ++ char_utf8 b) l1). simpl. lia.
Qed.

Lemma runs_peek_rest (n : nat) : runs n peek_rest (fun l n' => n' = n /\ length l = n).
Proof. intros st Hn. by split. Qed.
Lemma runs_set_rest (n : nat) (l : bytes) : runs n (set_rest l) (fun _ n' => n' = length l).
Proof. intros st Hn. done. Qed.
Lemma runs_skip_ws (n : nat) : runs n skip_ws (fun _ n' => n' <= n)%nat.
Proof. intros st <-. apply drop_while_length. Qed.
Lemma runs_consume (n : nat) (b : Z) : runs n (consume b) (fun c n' => if c : bool then n' < n else n' = n)%nat.
Proof. intros st <-. unfold consume, bind, peek_rest. destruct (cs_rest st) as [|c l] eqn:E; simpl; [by rewrite E|].
  case_bool_decide; simpl; [lia|by rewrite E]. Qed.
Lemma runs_consume_seq (n : nat) (s : bytes) :
  s <> [] -> runs n (consume_seq s) (fun c n' => if c : bool then n' < n else n' = n)%nat.
Proof.
  intros Hs st <-. unfold consume_seq, bind, peek_rest. destruct (strip_prefix s (cs_rest st)) as [r|] eqn:E; [|done].
  apply strip_prefix_length in E. destruct s; [done|]. simpl in *. lia.
Qed.
Lemma runs_expect (n : nat) (b : Z) : runs n (expect b) (fun _ n' => n' < n)%nat.
Proof.
  unfold expect. eapply runs_bind; [apply runs_skip_ws|]. simpl. intros _ n1 H1.
  eapply runs_bind; [apply runs_consume|]. simpl. intros [|] n2 H2; [apply runs_ret; lia|apply runs_fail].
Qed.
Lemma lex_identifier_length (l x r : bytes) : lex_identifier l = Some (x, r) -> (length r < length l)%nat.
Proof.
  unfold lex_identifier. destruct l as [|b l]; [done|]. destruct (is_ident_start b); [|done].
  pose proof (take_ident_length l). destruct (take_ident l). intros [= <- <-]. simpl in *. lia.
Qed.
Lemma runs_parse_identifier (n : nat) :
  runs n parse_identifier (fun o n' => match o with Some _ => n' < n | None => n' <= n end)%nat.
Proof.
  unfold parse_identifier. eapply runs_bind; [apply runs_skip_ws|]. simpl. intros _ n1 H1.
  eapply runs_bind; [apply runs_peek_rest|]. simpl. intros l n2 [-> Hl].
  destruct (lex_identifier l) as [[x r]|] eqn:E; [|apply runs_ret; lia]. apply lex_identifier_length in E.
  eapply runs_bind; [apply runs_set_rest|]. simpl. intros _ n2 ->. apply runs_ret. lia.
Qed.
Lemma runs_parse_number (n : nat) : runs n parse_number (fun _ n' => n' <= n)%nat.
Proof.
  unfold parse_number. eapply runs_bind; [apply runs_skip_ws|]. simpl. intros _ n1 H1.
  eapply runs_bind; [apply runs_peek_rest|]. simpl. intros l n2 [-> Hl].
  pose proof (lex_number_length l) as Hr. destruct (lex_number l) as [v r]. simpl in Hr.
  eapply runs_bind; [apply runs_set_rest|]. simpl. intros _ n2 ->. destruct v; [apply runs_ret; lia|apply runs_fail].
Qed.
Lemma runs_parse_string_literal (n : nat) (q : Z) : runs n (parse_string_literal q) (fun _ n' => n' <= n)%nat.
Proof.
  unfold parse_string_literal. eapply runs_bind; [apply runs_peek_rest|]. cbv beta. intros l n1 [-> Hl].
  pose proof (string_loop_length (S (length l)) q [] (tail l)) as Hr.
  assert (Ht : (length (tail l) <= length l)%nat) by (destruct l; simpl; lia).
  destruct (string_loop _ q [] (tail l)) as [v r]. simpl in Hr.
  eapply runs_bind; [apply runs_set_rest|]. simpl. intros _ n1 ->. destruct v; [apply runs_ret; lia|apply runs_fail].
Qed.

Lemma cmp_op_length (l r : bytes) (op : OpCode.t) : cmp_op l = Some (op, r) -> (length r < length l)%nat.
Proof.
  unfold cmp_op. intros H.
  repeat match type of H with (match ?x with _ => _ end) = _ => destruct x eqn:?; [injection H as <- <-|] end;
    repeat match goal with E : strip_prefix _ _ = Some _ |- _ => apply strip_prefix_length in E; simpl in E end;
    (lia || discriminate H).
Qed.

(** ** Productions *)

(** A production of a higher level may call one of a lower level on the same input. *)
Definition level (p : Prod) : nat :=
  match p with
  | PComma | PArgs _ => 11
  | PConditional => 10 | PLogicalOr => 9 | PLogicalAnd => 8 | PComparison => 7 | PAssignment => 6
  | PExpr => 5 | PTerm => 4 | PFactor => 3 | PPostfix => 2
  | _ => 1
  end.

(** One step: a lexing step by its lemma, any other by [still] or the recursive call's hypothesis. *)
Ltac run_rule :=
  first
  [ apply runs_skip_ws | apply runs_consume | apply runs_consume_seq; discriminate | apply runs_expect
  | apply runs_parse_identifier | apply runs_parse_number | apply runs_parse_string_literal
  | apply runs_peek_rest | apply runs_set_rest
  | match goal with H : forall p n, _ -> runs n (?rec p) _ |- runs _ (?rec _) _ => apply H; cbn [level]; lia end
  | match goal with |- runs ?n ?m _ => let X := fresh in assert (X : still m) by auto with still; apply (X n) end ].
Ltac run_step :=
  match goal with
  | |- runs _ (bind _ _) _ => eapply runs_bind; [run_rule|cbv beta; intros ? ? ?]
  | |- runs _ (ret _) _ => apply runs_ret
  | |- runs _ fail _ => apply runs_fail
  | |- runs _ (if negb ?c then _ else _) _ => destruct c; cbn [negb]
  | |- runs _ (if ?c then _ else _) _ => destruct c eqn:?
  | |- runs _ (match ?c with _ => _ end) _ => destruct c eqn:?
  | |- runs _ _ _ => eapply runs_weaken; [run_rule|cbv beta; intros ? ? ?]
  end.
Ltac run_all :=
  repeat first
    [ run_step; destruct_and?
    | match goal with H : (if ?b then _ else _) |- _ => is_var b; destruct b end ];
  try (subst; lia).

Section Total.
Context (rec : Prod -> P unit) (fuel : nat).
Context (Hrec : forall p n, (12 * n + level p < fuel)%nat -> runs n (rec p) (fun _ n' => n' <= n)%nat).

Definition ends (p : Prod) (m : P unit) : Prop :=
  forall n, (12 * n + level p <= fuel)%nat -> runs n m (fun _ n' => n' <= n)%nat.

Lemma parse_comma_ends : ends PComma (parse_comma rec).
Proof. intros n Hf. cbn [level] in Hf. unfold parse_comma. run_all. Qed.
Lemma comma_loop_ends : ends PCommaLoop (comma_loop rec).
Proof. intros n Hf. cbn [level] in Hf. unfold comma_loop. run_all. Qed.
Lemma parse_conditional_ends : ends PConditional (parse_conditional rec).
Proof. intros n Hf. cbn [level] in Hf. unfold parse_conditional. run_all. Qed.
Lemma parse_logical_or_ends : ends PLogicalOr (parse_logical_or rec).
Proof. intros n Hf. cbn [level] in Hf. unfold parse_logical_or. run_all. Qed.
Lemma or_loop_ends : ends POrLoop (or_loop rec).
Proof. intros n Hf. cbn [level] in Hf. unfold or_loop. run_all. Qed.
Lemma parse_logical_and_ends : ends PLogicalAnd (parse_logical_and rec).
Proof. intros n Hf. cbn [level] in Hf. unfold parse_logical_and. run_all. Qed.
Lemma and_loop_ends : ends PAndLoop (and_loop rec).
Proof. intros n Hf. cbn [level] in Hf. unfold and_loop. run_all. Qed.
Lemma parse_comparison_ends : ends PComparison (parse_comparison rec).
Proof. intros n Hf. cbn [level] in Hf. unfold parse_comparison. run_all. Qed.
Lemma parse_expr_ends : ends PExpr (parse_expr rec).
Proof. intros n Hf. cbn [level] in Hf. unfold parse_expr. run_all. Qed.
Lemma expr_loop_ends : ends PExprLoop (expr_loop rec).
Proof. intros n Hf. cbn [level] in Hf. unfold expr_loop. run_all. Qed.
Lemma parse_term_ends : ends PTerm (parse_term rec).
Proof. intros n Hf. cbn [level] in Hf. unfold parse_term. run_all. Qed.
Lemma term_loop_ends : ends PTermLoop (term_loop rec).
Proof. intros n Hf. cbn [level] in Hf. unfold term_loop. run_all. Qed.
Lemma parse_factor_ends : ends PFactor (parse_factor rec).
Proof. intros n Hf. cbn [level] in Hf. unfold parse_factor. run_all. Qed.
Lemma parse_postfix_ends : ends PPostfix (parse_postfix rec).
Proof. intros n Hf. cbn [level] in Hf. unfold parse_postfix. run_all. Qed.
Lemma parse_args_ends call : ends (PArgs call) (parse_args rec call).
Proof. intros n Hf. cbn [level] in Hf. unfold parse_args. run_all. Qed.
Lemma args_loop_ends call argc : ends (PArgsLoop call argc) (args_loop rec call argc).
Proof. intros n Hf. cbn [level] in Hf. unfold args_loop. run_all. Qed.
Lemma postfix_loop_ends : ends PPostfixLoop (postfix_loop rec).
Proof. intros n Hf. cbn [level] in Hf. unfold postfix_loop. run_all. Qed.
Lemma cmp_loop_ends : ends PCmpLoop (cmp_loop rec).
Proof.
  intros n Hf. cbn [level] in Hf. unfold cmp_loop. do 2 (run_step; destruct_and?).
  match goal with |- runs _ (match ?c with _ => _ end) _ => destruct c as [[op r]|] eqn:E end; [|run_all].
  apply cmp_op_length in E. run_all.
Qed.

Lemma assign_add_ends name n : (12 * n + 5 < fuel)%nat -> runs n (assign_add rec name) (fun _ n' => n' <= n)%nat.
Proof. intros Hf. unfold assign_add. run_all. Qed.
Lemma assign_sub_ends name n : (12 * n + 5 < fuel)%nat -> runs n (assign_sub rec name) (fun _ n' => n' <= n)%nat.
Proof. intros Hf. unfold assign_sub. run_all. Qed.
Lemma assign_simple_ends name n : (12 * n + 6 < fuel)%nat -> runs n (assign_simple rec name) (fun _ n' => n' <= n)%nat.
Proof. intros Hf. unfold assign_simple. run_all. Qed.

Lemma parse_assignment_ends : ends PAssignment (parse_assignment rec).
Proof.
  intros n Hf. cbn [level] in Hf. unfold parse_assignment.
  eapply runs_bind; [apply runs_skip_ws|]. cbv beta. intros _ n1 H1.
  eapply runs_bind; [apply runs_peek_rest|]. cbv beta. intros start n2 [-> Hs].
  assert (Hplain : forall n', runs n' (set_rest start ;> rec PExpr) (fun _ n' => n' <= n)%nat).
  { intros n'. run_all. }
  cbv zeta. eapply runs_bind; [apply runs_parse_identifier|]. cbv beta. intros [name|] n2 H2; [|apply Hplain].
  eapply runs_bind; [apply runs_skip_ws|]. cbv beta. intros _ n3 H3.
  eapply runs_bind; [apply runs_consume_seq; discriminate|]. cbv beta. intros [|] n4 H4.
  { eapply runs_weaken; [apply assign_add_ends; lia|]. cbv beta. lia. }
  eapply runs_bind; [apply runs_consume_seq; discriminate|]. cbv beta. intros [|] n5 H5.
  { eapply runs_weaken; [apply assign_sub_ends; lia|]. cbv beta. lia. }
  eapply runs_bind; [apply runs_consume|]. cbv beta. intros [|] n6 H6; [|apply Hplain].
  eapply runs_bind; [apply still_check|]. cbv beta. intros [|] n7 H7; [apply Hplain|].
  eapply runs_weaken; [apply assign_simple_ends; lia|]. cbv beta. lia.
Qed.

Lemma parse_name_ends name n m :
  (12 * n + 11 < fuel)%nat -> (n <= m)%nat -> runs n (parse_name rec name) (fun _ n' => n' <= m)%nat.
Proof. intros Hf Hm. unfold parse_name. run_all. Qed.

Lemma parse_primary_ends : ends PPrimary (parse_primary rec).
Proof.
  intros n Hf. cbn [level] in Hf. unfold parse_primary. run_step. run_step. run_step; [run_all|]. run_step. destruct_and!.
  run_step; [run_all|]. run_step; [run_all|]. run_step; [run_all|].
  run_step. run_step; [|run_all]. subst. eapply parse_name_ends; simpl in *; lia.
Qed.
End Total.

Lemma parse_ends (fuel n : nat) (p : Prod) :
  (12 * n + level p < fuel)%nat -> runs n (parse fuel p) (fun _ n' => n' <= n)%nat.
Proof.
  revert n p. induction fuel as [|fuel IH]; intros n p Hf; [lia|].
  assert (Hrec : forall p n, (12 * n + level p < fuel)%nat -> runs n (parse fuel p) (fun _ n' => n' <= n)%nat) by auto.
  destruct p; cbn [parse];
    [ eapply parse_comma_ends | eapply comma_loop_ends | eapply parse_conditional_ends | eapply parse_logical_or_ends
    | eapply or_loop_ends | eapply parse_logical_and_ends | eapply and_loop_ends | eapply parse_comparison_ends
    | eapply cmp_loop_ends | eapply parse_assignment_ends | eapply parse_expr_ends | eapply expr_loop_ends
    | eapply parse_term_ends | eapply term_loop_ends | eapply parse_factor_ends | eapply parse_postfix_ends
    | eapply postfix_loop_ends | eapply parse_primary_ends | eapply parse_args_ends | eapply args_loop_ends ];
    (exact Hrec || lia).
Qed.

(** *** Statements *)

(** [m] ends, whatever is left of the input. *)
Definition always {A} (m : P A) : Prop := forall st, m st <> None.

Lemma always_bind {A B} (m : P A) (k : A -> P B) : always m -> (forall x, always (k x)) -> always (bind m k).
Proof.
  intros Hm Hk st. unfold bind. specialize (Hm st). destruct (m st) as [[[x|] st1]|]; [apply Hk|done|done].
Qed.
Lemma still_always {A} (m : P A) : still m -> always m.
Proof. intros Hm st Hst. specialize (Hm _ st eq_refl). by rewrite Hst in Hm. Qed.
Lemma runs_always {A} (m : P A) (Q : A -> nat -> Prop) : (forall n, runs n m (fun x _ => True)) -> always m.
Proof. intros Hm st Hst. specialize (Hm _ st eq_refl). by rewrite Hst in Hm. Qed.

Lemma compile_full_expr_always (src : bytes) : always (compile_full_expr src).
Proof.
  intros st Hst.
  assert (Hp := parse_ends (parse_fuel src) (length src) PComma ltac:(unfold parse_fuel; cbn [level]; lia)
    (MkCState (cs_ctx st) (cs_func st) src) eq_refl).
  cbv [compile_full_expr bind set_rest skip_ws peek_rest ret fail] in Hst.
  destruct (parse (parse_fuel src) PComma _) as [[[x|] st1]|]; [|discriminate Hst|done].
  cbn [cs_rest] in Hst. destruct (skip_spaces _); discriminate Hst.
Qed.

#[export] Hint Resolve compile_full_expr_always : still.
Ltac always_auto :=
  repeat first
    [ progress cbv zeta | solve [auto with still] | apply still_always; solve [auto with still] | apply always_bind; [|intros ?]
    | match goal with |- always (match ?x with _ => _ end) => destruct x end
    | match goal with |- always (let '(_, _) := ?x in _) => destruct x end ].

Lemma fail_always {A} : always (@fail A). Proof. done. Qed.
Lemma from_option_always {A} (o : option A) : always (from_option o). Proof. by destruct o. Qed.
Lemma from_result_always {A} (r : Result A) : always (from_result r). Proof. by destruct r. Qed.
#[export] Hint Resolve fail_always from_option_always from_result_always : still.

Lemma compile_var_decl_always rest : always (compile_var_decl rest).
Proof. unfold compile_var_decl. always_auto. Qed.
Lemma compile_discard_always e : always (compile_discard e).
Proof. unfold compile_discard. always_auto. Qed.
Lemma compile_return_always s : always (compile_return s).
Proof. unfold compile_return. always_auto. Qed.
Lemma try_inc_always update : always (try_compile_inc_update update).
Proof. unfold try_compile_inc_update. always_auto. Qed.
#[export] Hint Resolve compile_var_decl_always compile_discard_always compile_return_always try_inc_always : still.

(** The pieces a statement is compiled from are shorter than it. *)
Lemma braced_length (prev : option Z) (q : Quote) (depth : Z) (l x y : bytes) :
  braced prev q depth l = Some (x, y) -> (length x + length y = length l)%nat.
Proof.
  revert prev q depth x y. induction l as [|b l IH]; intros prev q depth x y; simpl; [done|].
  destruct (_ && _); [intros [= <- <-]; simpl; lia|].
  destruct (braced _ _ _ l) as [[x1 y1]|] eqn:E; [|done]. intros [= <- <-]. apply IH in E. simpl. lia.
Qed.

Lemma extract_braced_length (s body : bytes) : extract_braced_body s = Ok body -> (length body <= length s)%nat.
Proof.
  unfold extract_braced_body. destruct (negb _); [done|]. destruct (braced _ _ _ _) as [[x y]|] eqn:E; [|done].
  intros [= <-]. apply braced_length in E. pose proof (trim_length s).
  assert (length (removelast (tail x)) <= length x)%nat; [|lia].
  destruct x as [|b x]; simpl; [lia|]. rewrite removelast_firstn_len, length_take. lia.
Qed.

Lemma find_else_length (s r : bytes) : find_else_after_brace s = Some r -> (length r <= length s)%nat.
Proof.
  unfold find_else_after_brace. destruct (braced _ _ _ _) as [[x y]|] eqn:E; [|done].
  destruct (strip_prefix _ _) as [r'|] eqn:Es; [|done]. intros H.
  assert (r = r') as -> by (destruct r'; [by injection H|destruct (_ || _); [by injection H|done]]).
  apply strip_prefix_length in Es. apply braced_length in E. pose proof (trim_start_length y). lia.
Qed.

Lemma matching_paren_length (prev : option Z) (q : Quote) (depth : Z) (l x y : bytes) :
  find_matching_paren prev q depth l = Some (x, y) -> (length y < length l)%nat.
Proof.
  revert prev q depth x y. induction l as [|b l IH]; intros prev q depth x y; simpl; [done|].
  destruct (_ && _); [intros [= <- <-]; lia|].
  destruct (find_matching_paren _ _ _ l) as [[x1 y1]|] eqn:E; [|done]. intros [= <- <-]. apply IH in E. lia.
Qed.

Lemma paren_parts_length (keyword s header after : bytes) :
  paren_parts keyword s = Some (header, after) -> (length after < length s)%nat.
Proof.
  unfold paren_parts. destruct (strip_prefix keyword s) as [r|] eqn:E1; simpl; [|done].
  destruct (strip_prefix [c_lparen] (trim r)) as [r2|] eqn:E2; simpl; [|done].
  destruct (find_matching_paren _ _ _ r2) as [[h a]|] eqn:E3; simpl; [|done]. intros [= <- <-].
  apply strip_prefix_length in E1, E2. apply matching_paren_length in E3.
  pose proof (trim_length r). pose proof (trim_length a). lia.
Qed.

Lemma push_stmt_length (n : nat) (cur : bytes) (stmts : list bytes) :
  (length cur <= n)%nat -> Forall (fun s => length s <= n)%nat stmts ->
  Forall (fun s => length s <= n)%nat (push_stmt cur stmts).
Proof.
  intros Hc Hs. unfold push_stmt. pose proof (trim_length (rev cur)) as Ht. rewrite length_rev in Ht.
  destruct (trim (rev cur)); [done|]. apply Forall_app. split; [done|]. constructor; [lia|constructor].
Qed.

Lemma split_stmts_length (n : nat) (l : bytes) (prev : option Z) (q : Quote) (p b k : Z) (cur : bytes) (stmts : list bytes) :
  (length cur + length l <= n)%nat -> Forall (fun s => length s <= n)%nat stmts ->
  Forall (fun s => length s <= n)%nat (split_stmts_loop prev q p b k cur stmts l).
Proof.
  revert prev q p b k cur stmts. induction l as [|c l IH]; intros prev q p b k cur stmts Hl Hs; simpl in *;
    [apply push_stmt_length; [lia|done]|].
  repeat match goal with |- context [if ?x then _ else _] => destruct x end;
    (apply IH; [simpl; lia|]; (done || (apply push_stmt_length; [simpl; lia|done]))).
Qed.

Section StmtTotal.
Context (rec else_rec : bytes -> P unit) (n : nat).
Context (Hrec : forall s, (length s < n)%nat -> always (rec s)) (Helse : forall s, (length s < n)%nat -> always (else_rec s)).

Lemma each_always (l : list bytes) : Forall (fun s => length s < n)%nat l -> always (each rec l).
Proof. induction 1 as [|s l Hs _ IH]; [by apply still_always, still_ret|]. apply always_bind; [by apply Hrec|done]. Qed.

Lemma always_result {A B} (r : Result A) (k : A -> P B) :
  (forall x, r = Ok x -> always (k x)) -> always (bind (from_result r) k).
Proof. intros Hk st. destruct r as [x|]; [|done]. by apply (Hk x eq_refl). Qed.
Lemma always_option {A B} (o : option A) (k : A -> P B) :
  (forall x, o = Some x -> always (k x)) -> always (bind (from_option o) k).
Proof. intros Hk st. destruct o as [x|]; [|done]. by apply (Hk x eq_refl). Qed.

Lemma compile_block_always (after : bytes) : (length after < n)%nat -> always (compile_block rec after).
Proof.
  intros Ha. apply always_result. intros body E. apply extract_braced_length in E. apply each_always.
  eapply Forall_impl; [apply (split_stmts_length (length body)); [simpl; lia|constructor]|]. simpl. lia.
Qed.

Lemma compile_if_always (s : bytes) : (length s <= n)%nat -> always (compile_if_stmt rec else_rec s).
Proof.
  intros Hs. apply always_option. intros [cond after] E. apply paren_parts_length in E.
  apply always_bind; [apply compile_full_expr_always|intros _]. apply always_bind; [always_auto|intros at_].
  apply always_bind; [apply compile_block_always; lia|intros _].
  destruct (find_else_after_brace after) as [r|] eqn:Er; [|always_auto].
  apply find_else_length in Er. pose proof (trim_length r).
  apply always_bind; [always_auto|intros at2]. apply always_bind; [always_auto|intros _].
  apply always_bind; [|intros _; always_auto].
  destruct (_ || _); [apply Helse; lia|apply compile_block_always; lia].
Qed.

Lemma compile_for_always (s : bytes) : (length s <= n)%nat -> always (compile_for_loop rec s).
Proof.
  intros Hs. apply always_option. intros [header after] E. apply paren_parts_length in E.
  apply always_bind; [always_auto|intros [[init cond] update]].
  apply always_bind; [always_auto|intros _]. apply always_bind; [always_auto|intros start].
  apply always_bind; [always_auto|intros je]. apply always_bind; [apply compile_block_always; lia|intros _].
  always_auto.
Qed.

Lemma stmt_body_always (s : bytes) : (length s <= n)%nat -> always (stmt_body rec else_rec s).
Proof.
  intros Hs. unfold stmt_body. pose proof (trim_length s). destruct (trim s) as [|b l]; [always_auto|].
  repeat match goal with |- context [if ?c then _ else _] => destruct c end;
    first [apply compile_for_always; lia|apply compile_if_always; lia|always_auto].
Qed.
End StmtTotal.

Definition sprod_text (p : SProd) : bytes := match p with SStmt s | SIf s => s end.

Lemma compile_rec_always (fuel : nat) (p : SProd) : (length (sprod_text p) < fuel)%nat -> always (compile_rec fuel p).
Proof.
  revert p. induction fuel as [|fuel IH]; intros p Hf; [lia|]. cbn [compile_rec].
  assert (H1 : forall s, (length s < fuel)%nat -> always (compile_rec fuel (SStmt s))) by (intros s Hs; by apply IH).
  assert (H2 : forall s, (length s < fuel)%nat -> always (compile_rec fuel (SIf s))) by (intros s Hs; by apply IH).
  destruct p as [s|s]; simpl in Hf; [eapply stmt_body_always|eapply compile_if_always]; eauto; lia.
Qed.

Lemma compile_stmts_always (stmts : list bytes) : always (compile_stmts stmts).
Proof.
  unfold compile_stmts. apply always_bind; [|intros _; always_auto].
  induction stmts as [|s l IH]; [always_auto|]. apply always_bind; [|intros _; exact IH].
  destruct (trim s) as [|b s'] eqn:E; [always_auto|]. apply compile_rec_always. simpl. lia.
Qed.

Lemma add_params_always (names : list bytes) : always (add_params names).
Proof. induction names as [|x l IH]; cbn [add_params]; [always_auto|]. apply always_bind; [always_auto|intros _; exact IH]. Qed.
