(* ===== verification/JsApi.v ===== *)
(** * JsApi: conversions and property access

    The value operations of [src/api/mod.rs] (and [is_truthy] of [src/evals.rs]) that the
    bytecode machine is built from: class tests, errors, strings and numbers, properties with
    getters and setters.  Calling back into the interpreter is left to [JsHost]. *)
From Stdlib Require Import SpecFloat.
From S2P Require Import Prelude IntCodec Utf8 ServerArgs JsText JsFloat JsValue JsMem JsProps JsArray JsAtom JsObject JsScope JsSource JsBytecode.

(** The interpreter's own entry points, which run closures, native functions and source text:
    [call_closure_with_this] of [src/parser.rs], [call_function_value] and
    [call_c_function_direct] of [src/api/], [eval_value] of [src/evals.rs] and
    [typed_array_get_element], [typed_array_set_element] of [src/api/typed_array.rs].  Nothing is assumed of them. *)
Class JsHost := {
  call_closure_with_this : Value -> Value -> list Value -> Ctx -> option Value * Ctx;
  call_function_value : Value -> Value -> list Value -> Ctx -> option Value * Ctx;
  call_c_function_direct : Z -> Value -> Value -> list Value -> Ctx -> Value * Ctx;
  eval_value : bytes -> Ctx -> option Value * Ctx;
  typed_array_get_element : Value -> Z -> Ctx -> Value * Ctx;
  typed_array_set_element : Value -> Z -> Value -> Ctx -> bool * Ctx
}.

(** An interpreter that answers nothing. *)
Definition silent_host : JsHost := {|
  call_closure_with_this _ _ _ c := (None, c);
  call_function_value _ _ _ c := (None, c);
  call_c_function_direct _ _ _ _ c := (UNDEFINED W, c);
  eval_value _ c := (None, c);
  typed_array_get_element _ _ c := (UNDEFINED W, c);
  typed_array_set_element _ _ _ c := (false, c)
|}.

(** ** Classes *)

Definition CLASS_CLOSURE : Z := 3.
Definition CLASS_ERROR : Z := 9.
Definition CLASS_RANGE_ERROR : Z := 11.
Definition CLASS_REFERENCE_ERROR : Z := 12.
Definition CLASS_SYNTAX_ERROR : Z := 13.
Definition CLASS_TYPE_ERROR : Z := 14.
Definition CLASS_INTERNAL_ERROR : Z := 16.

(** [JSObjectClassEnum] from [Uint8cArray] to [Float64Array]. *)
Definition is_typed_array_class (id : Z) : bool := in_range 19 27 id.

(** [object_to_string_value]'s tag of an object, by class. *)
Definition class_tag (id : Z) : bytes :=
  if id =? 1 then b! "Array" else if id =? 8 then b! "RegExp" else if id =? 7 then b! "Date"
  else if (id =? 2) || (id =? 3) then b! "Function" else if id =? 4 then b! "Number"
  else if id =? 5 then b! "Boolean" else if id =? 6 then b! "String" else if id =? 17 then b! "ArrayBuffer"
  else if id =? 21 then b! "Uint8Array" else if id =? 19 then b! "Uint8ClampedArray"
  else if id =? 20 then b! "Int8Array" else if id =? 22 then b! "Int16Array"
  else if id =? 23 then b! "Uint16Array" else if id =? 24 then b! "Int32Array"
  else if id =? 25 then b! "Uint32Array" else if id =? 26 then b! "Float32Array"
  else if id =? 27 then b! "Float64Array" else if in_range 9 16 id then b! "Error" else b! "Object".

(** A step of the heap alone. *)
Definition on_heap {A} (f : JsHeap -> A * JsHeap) (c : Ctx) : A * Ctx :=
  let '(x, h) := f (heap c) in (x, with_heap h c).

Definition float_of (c : Ctx) (v : Value) : option f64 := f64_from_bits <$> float_value (heap c) v.
Definition str_of (c : Ctx) (v : Value) : option bytes := string_bytes (heap c) v.
Definition is_str (c : Ctx) (v : Value) : bool := bool_decide (is_Some (str_of c v)).
Definition class_of (c : Ctx) (v : Value) : option Z := object_class_id (heap c) v.
Definition is_obj (c : Ctx) (v : Value) : bool := bool_decide (is_Some (class_of c v)).

Definition js_is_number (c : Ctx) (v : Value) : bool :=
  is_number v || bool_decide (is_Some (float_of c v)).

(** ** [is_truthy] *)

Definition is_truthy (c : Ctx) (v : Value) : bool :=
  if is_bool v then v =? TRUE W
  else
    match int32 W v with
    | Some n => negb (n =? 0)
    | None =>
        if is_null W v || is_undefined W v then false
        else
          match float_of c v with
          | Some f => negb (f64_eq f f64_zero) && negb (f64_is_nan f)
          | None => match str_of c v with Some bs => negb (bool_decide (bs = [])) | None => true end
          end
    end.

(** ** Strings *)

(** The digit loop of [int_to_decimal_bytes], from the last digit. *)
Fixpoint decimal_loop (fuel : nat) (n : Z) (acc : bytes) : bytes :=
  match fuel with
  | O => acc
  | S fuel' => if 0 <? n then decimal_loop fuel' (n / 10) (c_0 + n `mod` 10 :: acc) else acc
  end.
Definition int_to_decimal_bytes (n : Z) : bytes :=
  if n =? 0 then [c_0]
  else
    let ds := decimal_loop 12 (Z.abs n) [] in
    if n <? 0 then c_minus :: ds else ds.

(** The [char]s of a UTF-8 text. *)
Fixpoint utf8_chars (l : bytes) : list Z :=
  match l with
  | [] => []
  | b :: l1 =>
      if b <? 128 then b :: utf8_chars l1
      else
        match l1 with
        | [] => []
        | c :: l2 =>
            if b <? 224 then (b - 192) * 64 + (c - 128) :: utf8_chars l2
            else
              match l2 with
              | [] => []
              | d :: l3 =>
                  if b <? 240 then (b - 224) * 4096 + (c - 128) * 64 + (d - 128) :: utf8_chars l3
                  else
                    match l3 with
                    | [] => []
                    | e :: l4 => (b - 240) * 262144 + (c - 128) * 4096 + (d - 128) * 64 + (e - 128) :: utf8_chars l4
                    end
              end
        end
  end.

(** [string_utf16_units]: a lone surrogate is kept as the private character 0x800 above it. *)
Definition char_units (code : Z) : list Z :=
  if in_range 57344 59391 code then [code - 2048]
  else if code <? 65536 then [code]
  else [55296 + (code - 65536) / 1024; 56320 + (code - 65536) `mod` 1024].
Definition string_utf16_units (c : Ctx) (v : Value) : option (list Z) :=
  bs ← str_of c v; s ← from_utf8 bs; Some (concat (char_units <$> utf8_chars s)).
Definition utf16_units_to_string_preserve_surrogates (units : list Z) : bytes :=
  concat ((fun u =>
    match char_from_u32 (if in_range 55296 57343 u then u + 2048 else u) with
    | Some ch => utf8_encode ch
    | None => []
    end) <$> units).

Definition js_get_property_uint32 `{JsHost} (obj : Value) (idx : Z) (c : Ctx) : Value * Ctx :=
  match array_direct_get (heap c) obj idx with
  | Some v => (v, c)
  | None =>
      match string_utf16_units c obj with
      | Some units =>
          match units !! Z.to_nat idx with
          | Some u => js_new_string (utf16_units_to_string_preserve_surrogates [u]) c
          | None => (UNDEFINED W, c)
          end
      | None =>
          if match class_of c obj with Some id => is_typed_array_class id | None => false end
          then typed_array_get_element obj idx c
          else (or_undefined (get_property_index (heap c) obj idx), c)
      end
  end.

(** ** Properties with getters and setters *)

Definition accessor_name (str : bytes) : bool := starts_with (b! "__get__") str || starts_with (b! "__set__") str.

(** The value of an accessor property that is there, called with [args]. *)
Definition call_accessor `{JsHost} (key : bytes) (this : Value) (args : list Value) (c : Ctx) : option Value * Ctx :=
  let '(g, c) := on_heap (get_property_str this key) c in
  match g with
  | Some f => if is_undefined W f then (None, c) else call_closure_with_this f this args c
  | None => (None, c)
  end.

Definition js_get_property_str `{JsHost} (this : Value) (str : bytes) (c : Ctx) : Value * Ctx :=
  let '(early, c) :=
    if accessor_name str then (None, c) else call_accessor (b! "__get__" ++ str) this [] c in
  match early with
  | Some r => (r, c)
  | None => let '(r, c) := on_heap (get_property_str this str) c in (or_undefined r, c)
  end.

(** A name an array refuses: a number in another form than an index. *)
Fixpoint digits_u32 (value : Z) (l : bytes) : bool :=
  match l with
  | [] => true
  | b :: l' => is_digit b && (value * 10 + (b - 48) <? 2 ^ 32) && digits_u32 (value * 10 + (b - 48)) l'
  end.
Definition starts_alpha (str : bytes) : bool :=
  match str with b :: _ => in_range 97 122 b || in_range 65 90 b || (b =? 95) || (b =? 36) | [] => false end.
Definition numeric_like (s : bytes) : bool :=
  match trim s with
  | [] => false
  | t => bool_decide (t ∈ bytes_of_string <$> ["NaN"; "Infinity"; "+Infinity"; "-Infinity"]%string)
         || bool_decide (is_Some (f64_from_str t))
  end.
Definition invalid_array_name (str : bytes) : bool :=
  negb (starts_alpha str) && negb (negb (bool_decide (str = [])) && digits_u32 0 str) &&
  negb (bool_decide (str = s_length) || accessor_name str) && numeric_like str.

Definition js_new_object_class (cls : Z) (c : Ctx) : Value * Ctx :=
  let '(r, c) := on_heap (new_object cls) c in
  match r with Some v => (v, c) | None => js_throw_out_of_memory c end.
Definition js_new_object : Ctx -> Value * Ctx := js_new_object_class CLASS_OBJECT.

(** *** Errors

    [js_throw_error] builds an error object with [js_set_property_str], which throws when a
    write fails: the two call each other, and the section is over the writes. *)

Definition error_name (cls : Z) : bytes :=
  if cls =? CLASS_TYPE_ERROR then b! "TypeError" else if cls =? CLASS_REFERENCE_ERROR then b! "ReferenceError"
  else if cls =? CLASS_SYNTAX_ERROR then b! "SyntaxError" else if cls =? CLASS_RANGE_ERROR then b! "RangeError"
  else if cls =? CLASS_INTERNAL_ERROR then b! "InternalError" else b! "Error".

Section Throw.
Context (set_str : Value -> bytes -> Value -> Ctx -> Value * Ctx).

Definition js_new_error_object (cls : Z) (name msg : bytes) (c : Ctx) : Value * Ctx :=
  let '(obj, c) := js_new_object_class cls c in
  if is_exception W obj then (obj, c)
  else
    let '(name_val, c) := js_new_string name c in
    let '(msg_val, c) := js_new_string msg c in
    let '(ctor, c) := js_new_object c in
    let c :=
      if is_exception W ctor then c
      else
        let '(_, c) := set_str ctor (b! "name") name_val c in
        let '(_, c) := set_str obj (b! "constructor") ctor c in c in
    let '(_, c) := set_str obj (b! "name") name_val c in
    let '(_, c) := set_str obj (b! "message") msg_val c in
    match format_stack (source c) with
    | None => (obj, c)
    | Some st =>
        let '(stack_val, c) := js_new_string st c in
        let '(_, c) := set_str obj (b! "stack") stack_val c in (obj, c)
    end.

Definition throw_error (cls : Z) (msg : bytes) (c : Ctx) : Value * Ctx :=
  let '(obj, c) := js_new_error_object cls (error_name cls) msg c in
  (EXCEPTION W, with_scope (set_exception obj (scope c)) c).
End Throw.

(** A property write, up to [n] nested throws. *)
Fixpoint set_str_upto `{JsHost} (n : nat) (this : Value) (str : bytes) (v : Value) (c : Ctx) : Value * Ctx :=
  let throw msg c :=
    match n with
    | O => js_throw_out_of_memory c
    | S n' => throw_error (set_str_upto n') CLASS_TYPE_ERROR msg c
    end in
  if bool_decide (class_of c this = Some CLASS_ARRAY) && invalid_array_name str
  then throw (b! "invalid array property") c
  else
    let '(early, c) := if accessor_name str then (None, c) else call_accessor (b! "__set__" ++ str) this [v] c in
    match early with
    | Some r => (r, c)
    | None =>
        let '(ok, c) := on_heap (set_property_str this str v) c in
        if ok : bool then
          (v, if starts_with (b! "__") str then c else with_scope (update_call_frame_slot this str v (scope c)) c)
        else throw (b! "property set failed") c
    end.

(** A write that fails for want of memory leaves less than an object's size, so the error it
    throws cannot be allocated: an error about an array's name whose own writes fail is the
    deepest nesting. *)
Definition THROW_DEPTH : nat := 2.
Definition js_set_property_str `{JsHost} : Value -> bytes -> Value -> Ctx -> Value * Ctx := set_str_upto THROW_DEPTH.
Definition js_throw_error `{JsHost} : Z -> bytes -> Ctx -> Value * Ctx := throw_error js_set_property_str.

(** ** Functions and primitives *)

Definition s_builtin : bytes := b! "__builtin_".

Definition js_is_function `{JsHost} (v : Value) (c : Ctx) : bool * Ctx :=
  if match class_of c v with Some id => (id =? CLASS_CFUNCTION) || (id =? CLASS_CLOSURE) | None => false end
  then (true, c)
  else if match str_of c v with
          | Some bs => bool_decide (is_Some (from_utf8 bs)) && starts_with s_builtin bs
          | None => false
          end
  then (true, c)
  else
    let '(marker, c) := js_get_property_str v (b! "__closure__") c in
    (marker =? TRUE W, c).

Definition object_to_string_value (v : Value) (c : Ctx) : Value * Ctx :=
  let tag :=
    if is_undefined W v then b! "Undefined" else if is_null W v then b! "Null"
    else if is_bool v then b! "Boolean" else if js_is_number c v then b! "Number"
    else if is_str c v then b! "String"
    else match class_of c v with Some id => class_tag id | None => b! "Object" end in
  js_new_string (b! "[object " ++ tag ++ b! "]") c.

(** One method of [js_to_primitive]'s order: a value decides, [None] tries the next. *)
Definition try_method `{JsHost} (v : Value) (name : bytes) (c : Ctx) : option Value * Ctx :=
  let '(method, c) := js_get_property_str v name c in
  if is_undefined W method || is_null W method then (None, c)
  else
    let '(isf, c) := js_is_function method c in
    if isf : bool then
      match call_closure_with_this method v [] c with
      | (Some res, c) => (if is_obj c res then None else Some res, c)
      | (None, c) => (if last_exception (scope c) =? UNDEFINED W then None else Some (EXCEPTION W), c)
      end
    else if bool_decide (str_of c method = Some (b! "__builtin_Object_toString__")) then
      let '(res, c) := object_to_string_value v c in
      (if is_obj c res then None else Some res, c)
    else (None, c).

Definition js_to_primitive `{JsHost} (v : Value) (prefer_number : bool) (c : Ctx) : Value * Ctx :=
  if negb (is_obj c v) then (v, c)
  else
    let '(first, second) :=
      if prefer_number then (b! "valueOf", b! "toString") else (b! "toString", b! "valueOf") in
    match try_method v first c with
    | (Some r, c) => (r, c)
    | (None, c) =>
        match try_method v second c with
        | (Some r, c) => (r, c)
        | (None, c) => object_to_string_value v c
        end
    end.

(** ** [js_to_string] *)

(** On a value that is not an object. *)
Definition prim_to_string (v : Value) (c : Ctx) : Value * Ctx :=
  match int32 W v with
  | Some n => js_new_string (int_to_decimal_bytes n) c
  | None =>
      match float_of c v with
      | Some f => js_new_string (f64_to_string f) c
      | None =>
          if is_str c v then (v, c)
          else if is_bool v then js_new_string (if v =? TRUE W then b! "true" else b! "false") c
          else if is_null W v then js_new_string (b! "null") c
          else if is_undefined W v then js_new_string (b! "undefined") c
          else (UNDEFINED W, c)
      end
  end.
Definition js_to_string `{JsHost} (v : Value) (c : Ctx) : Value * Ctx :=
  match class_of c v with
  | None => prim_to_string v c
  | Some cls =>
      let '(prim, c) := js_to_primitive v false c in
      if is_obj c prim
      then js_new_string (if cls =? CLASS_ARRAY then b! "[object Array]" else b! "[object Object]") c
      else prim_to_string prim c
  end.

(** ** [js_to_number] *)

Definition digits_value (l : bytes) : Z := fold_left (fun n b => n * 10 + (b - 48)) l 0.
(** At most ten bytes, digits after an optional minus. *)
Definition short_int (bs : bytes) : option Z :=
  let '(neg, ds) := match bs with b :: l => if b =? c_minus then (true, l) else (false, bs) | [] => (false, []) end in
  if (length bs <=? 10)%nat && negb (bool_decide (ds = [])) && forallb is_digit ds
  then Some (if neg : bool then - digits_value ds else digits_value ds) else None.

(** A prefix of either case, then digits of the radix. *)
Definition radix_number (lower upper : bytes) (radix : Z) (t : bytes) : option f64 :=
  rest ← (match strip_prefix lower t with Some r => Some r | None => strip_prefix upper t end);
  f64_of_int <$> from_str_radix radix (2 ^ 64 - 1) rest.

Definition string_to_number (bs : bytes) : f64 :=
  match short_int bs with
  | Some n => f64_of_int n
  | None =>
      match from_utf8 bs with
      | None => S754_nan
      | Some s =>
          let t := trim s in
          if bool_decide (t = []) then f64_zero
          else if bool_decide (t = b! "Infinity") || bool_decide (t = b! "+Infinity") then S754_infinity false
          else if bool_decide (t = b! "-Infinity") then S754_infinity true
          else if bool_decide (t = b! "NaN") then S754_nan
          else
            match radix_number (b! "0x") (b! "0X") 16 t with Some f => f | None =>
            match radix_number (b! "0o") (b! "0O") 8 t with Some f => f | None =>
            match radix_number (b! "0b") (b! "0B") 2 t with Some f => f | None =>
            default S754_nan (f64_from_str t)
            end end end
      end
  end.

(** On a value that is not an object; [None] is the exception. *)
Definition prim_to_number (v : Value) (c : Ctx) : option f64 :=
  match int32 W v with
  | Some n => Some (f64_of_int n)
  | None =>
      match float_of c v with
      | Some f => Some f
      | None =>
          if is_bool v then Some (if v =? TRUE W then f64_of_int 1 else f64_zero)
          else if is_null W v then Some f64_zero
          else if is_undefined W v then Some S754_nan
          else string_to_number <$> str_of c v
      end
  end.
Definition js_to_number `{JsHost} (v : Value) (c : Ctx) : option f64 * Ctx :=
  match class_of c v with
  | None => (prim_to_number v c, c)
  | Some _ =>
      let '(prim, c) := js_to_primitive v true c in
      if is_exception W prim then (None, c)
      else if negb (is_obj c prim) then (prim_to_number prim c, c)
      else if negb (last_exception (scope c) =? UNDEFINED W) then (None, c)
      else (Some S754_nan, c)
  end.

(** ** [js_value_to_atom]: the id as an [i32], or -1. *)
Definition js_value_to_atom `{JsHost} (v : Value) (c : Ctx) : Z * Ctx :=
  let '(sv, c) := if is_str c v then (v, c) else js_to_string v c in
  match str_of c sv with
  | Some bs => let '(r, c) := on_heap (intern_string bs) c in (match r with Some atom => as_i32 atom | None => -1 end, c)
  | None => (-1, c)
  end.

Example number_words : string_to_number (b! " 0x10 ") = f64_of_int 16 /\ string_to_number (b! "inf") = S754_infinity false /\
  string_to_number (b! "12px") = S754_nan /\ string_to_number (b! "") = f64_zero.
Proof. by vm_compute. Qed.
