(* ===== verification/JsVm.v ===== *)
(** * JsVm: the bytecode machine

    [src/vm.rs]: [run_module_with_locals] executes a module's main function on an operand stack
    and local slots.  An instruction either goes on, halts the run with a value (a [return], a
    thrown error or an error of a conversion) or panics, as Rust's integer division and slices
    do.  Calls go to [JsHost]. *)
From Stdlib Require Import SpecFloat.
From S2P Require Import Prelude IntCodec Utf8 ServerArgs JsText JsFloat JsValue JsMem JsProps JsArray JsAtom JsObject JsScope JsSource JsBytecode JsApi.

(** ** Outcomes *)

Inductive Out (A : Type) := Go (x : A) | Halt (v : Value) | Panic.
Arguments Go {A} x.
Arguments Halt {A} v.
Arguments Panic {A}.

Definition M (A : Type) : Type := Ctx -> Out A * Ctx.
Definition vret {A} (x : A) : M A := fun c => (Go x, c).
Definition vpanic {A} : M A := fun c => (Panic, c).
Definition vhalt {A} (v : Value) : M A := fun c => (Halt v, c).
Definition vbind {A B} (m : M A) (k : A -> M B) : M B := fun c =>
  match m c with
  | (Go x, c) => k x c
  | (Halt v, c) => (Halt v, c)
  | (Panic, c) => (Panic, c)
  end.
Notation "x <! m ;; k" := (vbind m (fun x => k)) (at level 100, m at next level, right associativity) : muon_scope.
Notation "' x <! m ;; k" := (vbind m (fun x => k))
  (at level 20, x pattern, m at level 99, k at level 200, only parsing) : muon_scope.

(** A call back into the interpreter that panicked is a panic of the instruction.  (One that ran out
    of fuel leaves the machine's run without an outcome when it ends: [run_vm] of [JsCall].) *)
Definition reached {A} (c c' : Ctx) (o : Out A) : Out A := match befell c c' with Fallen => Panic | _ => o end.
(** A step that always goes on, and a look at the context. *)
Definition io {A} (f : Ctx -> A * Ctx) : M A := fun c => let '(x, c') := f c in (reached c c' (Go x), c').
Definition ask {A} (f : Ctx -> A) : M A := fun c => (Go (f c), c).

Section Vm.
Context `{Host : JsHost}.

(** [return js_throw_error(ctx, class, msg)] *)
Definition vthrow {A} (cls : Z) (msg : bytes) : M A := fun c =>
  let '(v, c') := js_throw_error cls msg c in (reached c c' (Halt v), c').
Definition vm_error {A} (msg : bytes) : M A := vthrow CLASS_INTERNAL_ERROR msg.
(** [match js_to_number(ctx, v) { Ok(n) => n, Err(e) => return e }] *)
Definition number (v : Value) : M f64 := fun c =>
  match js_to_number v c with
  | (Some n, c') => (reached c c' (Go n), c')
  | (None, c') => (reached c c' (Halt (EXCEPTION W)), c')
  end.

Definition push_int (n : Z) : M Value := vret (from_int32 W n).
Definition push_number (n : f64) : M Value := io (number_to_value n).
Definition push_bool (b : bool) : M Value := vret (new_bool W b).
Definition both_int (a b : Value) : option (Z * Z) := ai ← int32 W a; bi ← int32 W b; Some (ai, bi).
Definition both_str (c : Ctx) (a b : Value) : option (bytes * bytes) :=
  la ← str_of c a; lb ← str_of c b; Some (la, lb).

(** *** Arithmetic *)

(** The integer case of an operator, else both operands as floats. *)
Definition int_or_float (ints : Z -> Z -> M Value) (floats : f64 -> f64 -> M Value) (a b : Value) : M Value :=
  match both_int a b with
  | Some (ai, bi) => ints ai bi
  | None => an <! number a ;; bn <! number b ;; floats an bn
  end.
(** An integer result that fits, else the float one. *)
Definition checked (n : Z) (d : f64) : M Value := if decide (in_i32 n) then push_int n else push_number d.

(** [js_to_string] of both, then the bytes, an operand without any counting as empty. *)
Definition concat_strings (a b : Value) : M Value :=
  ls <! io (js_to_string a) ;;
  rs <! io (js_to_string b) ;;
  out <! ask (fun c => default [] (str_of c ls) ++ default [] (str_of c rs)) ;;
  io (js_new_string out).
(** String and integer: the header is filled in place. *)
Definition append_int (a : Value) (n : Z) : M Value :=
  r <! io (on_heap (alloc_string_concat_val a (int_to_decimal_bytes n))) ;;
  match r with Some header => vret (from_ptr header) | None => vm_error (b! "out of memory") end.

Definition vm_add (a b : Value) : M Value :=
  match both_int a b with
  | Some (ai, bi) => checked (ai + bi) (f64_add (f64_of_int ai) (f64_of_int bi))
  | None =>
      ' (a_is_str, b_is_str) <! ask (fun c => (is_str c a, is_str c b)) ;;
      match int32 W b with
      | Some n =>
          if a_is_str : bool then append_int a n
          else an <! number a ;; bn <! number b ;; push_number (f64_add an bn)
      | None =>
          if a_is_str || b_is_str then concat_strings a b
          else an <! number a ;; bn <! number b ;; push_number (f64_add an bn)
      end
  end.
Definition vm_concat (a b : Value) : M Value :=
  a_is_str <! ask (fun c => is_str c a) ;;
  match int32 W b with
  | Some n => if a_is_str : bool then append_int a n else concat_strings a b
  | None => concat_strings a b
  end.

Definition vm_sub : Value -> Value -> M Value :=
  int_or_float (fun ai bi => checked (ai - bi) (f64_sub (f64_of_int ai) (f64_of_int bi)))
    (fun an bn => push_number (f64_sub an bn)).
Definition vm_mul : Value -> Value -> M Value :=
  int_or_float (fun ai bi => checked (ai * bi) (f64_of_int (ai * bi))) (fun an bn => push_number (f64_times an bn)).

(** [i32::MIN % -1] overflows: the remainder panics, in release builds too. *)
Definition rem_overflows (ai bi : Z) : bool := (ai =? - 2 ^ 31) && (bi =? -1).
Definition vm_div : Value -> Value -> M Value :=
  int_or_float
    (fun ai bi =>
      if negb (bi =? 0) && rem_overflows ai bi then vpanic
      else if negb (bi =? 0) && (Z.rem ai bi =? 0) then push_int (Z.quot ai bi)
      else push_number (f64_over (f64_of_int ai) (f64_of_int bi)))
    (fun an bn => push_number (f64_over an bn)).
Definition vm_mod : Value -> Value -> M Value :=
  int_or_float
    (fun ai bi =>
      if bi =? 0 then push_number S754_nan
      else if rem_overflows ai bi then vpanic else push_int (Z.rem ai bi))
    (fun an bn => push_number (f64_rem an bn)).

Definition vm_neg (v : Value) : M Value :=
  match int32 W v with
  | Some n => if n =? - 2 ^ 31 then push_number (f64_neg (f64_of_int n)) else push_int (- n)
  | None => n <! number v ;; push_number (f64_neg n)
  end.
Definition vm_to_number (v : Value) : M Value :=
  if is_int v then vret v else n <! number v ;; push_number n.

(** *** Bits: floats are cast with saturation. *)

Definition bit_op (f : Z -> Z -> Z) : Value -> Value -> M Value :=
  int_or_float (fun ai bi => push_int (f ai bi)) (fun an bn => push_int (f (f64_as_i32 an) (f64_as_i32 bn))).
Definition shift_by (n : Z) : Z := Z.land (as_u32 n) 31.
Definition shift_op (left : Z -> Z) (cast : f64 -> Z) (f : Z -> Z -> Z) : Value -> Value -> M Value :=
  int_or_float (fun ai bi => push_int (f (left ai) (shift_by bi)))
    (fun an bn => push_int (f (cast an) (Z.land (f64_as_u32 bn) 31))).
Definition vm_shl : Value -> Value -> M Value := shift_op (fun n => n) f64_as_i32 (fun x k => as_i32 (Z.shiftl x k)).
Definition vm_shr : Value -> Value -> M Value := shift_op (fun n => n) f64_as_i32 Z.shiftr.
Definition vm_ushr : Value -> Value -> M Value := shift_op as_u32 f64_as_u32 (fun x k => as_i32 (Z.shiftr x k)).
Definition vm_bit_not (v : Value) : M Value :=
  match int32 W v with
  | Some n => push_int (Z.lnot n)
  | None => n <! number v ;; push_int (Z.lnot (f64_as_i32 n))
  end.

(** *** Comparisons *)

(** [js_to_number(..).ok()] of both; an error leaves its exception set. *)
Definition same_number (a b : Value) (c : Ctx) : bool * Ctx :=
  let '(ln, c) := js_to_number a c in
  let '(rn, c) := js_to_number b c in
  (match ln, rn with Some l, Some r => f64_eq l r | _, _ => false end, c).

Definition vm_loose_eq (a b : Value) (c : Ctx) : bool * Ctx :=
  if a =? b then (true, c)
  else if (is_null W a && is_undefined W b) || (is_undefined W a && is_null W b) then (true, c)
  else
    match both_str c a b with
    | Some (la, lb) => (bool_decide (la = lb), c)
    | None => same_number a b c
    end.

Definition js_type_tag (c : Ctx) (v : Value) : Z :=
  if is_undefined W v then 0 else if is_null W v then 1 else if is_bool v then 2
  else if js_is_number c v then 3 else if is_str c v then 4 else 5.
Definition vm_strict_eq (a b : Value) (c : Ctx) : bool * Ctx :=
  if a =? b then (true, c)
  else
    match both_str c a b with
    | Some (la, lb) => (bool_decide (la = lb), c)
    | None => if negb (js_type_tag c a =? js_type_tag c b) then (false, c) else same_number a b c
    end.
Definition equality (eq : Value -> Value -> Ctx -> bool * Ctx) (negated : bool) (a b : Value) : M Value :=
  r <! io (eq a b) ;; push_bool (xorb negated r).

Definition order (ints : Z -> Z -> bool) (strs : bytes -> bytes -> bool) (floats : f64 -> f64 -> bool)
    (a b : Value) : M Value :=
  match both_int a b with
  | Some (ai, bi) => push_bool (ints ai bi)
  | None =>
      ss <! ask (fun c => both_str c a b) ;;
      match ss with
      | Some (la, lb) => push_bool (strs la lb)
      | None => an <! number a ;; bn <! number b ;; push_bool (floats an bn)
      end
  end.
Definition vm_lt : Value -> Value -> M Value := order Z.ltb (fun x y => negb (bytes_leb y x)) f64_lt.
Definition vm_gt : Value -> Value -> M Value :=
  order (fun x y => y <? x) (fun x y => negb (bytes_leb x y)) (fun x y => f64_lt y x).
Definition vm_le : Value -> Value -> M Value := order Z.leb bytes_leb f64_le.
Definition vm_ge : Value -> Value -> M Value :=
  order (fun x y => y <=? x) (fun x y => bytes_leb y x) (fun x y => f64_le y x).

Definition vm_not (v : Value) : M Value := t <! ask (fun c => is_truthy c v) ;; push_bool (negb t).
Definition vm_and (a b : Value) : M Value := t <! ask (fun c => is_truthy c a) ;; vret (if t : bool then b else a).
Definition vm_or (a b : Value) : M Value := t <! ask (fun c => is_truthy c a) ;; vret (if t : bool then a else b).

Definition vm_typeof (v : Value) : M Value :=
  t <! io (fun c =>
      if is_bool v then (b! "boolean", c) else if js_is_number c v then (b! "number", c)
      else if is_str c v then (b! "string", c) else if is_undefined W v then (b! "undefined", c)
      else if is_null W v then (b! "object", c)
      else
        let '(f, c) := js_is_function v c in
        (if f : bool then b! "function" else if is_ptr W v then b! "object" else b! "undefined", c)) ;;
  io (js_new_string t).

(** *** Properties *)

Definition is_marker (bs : bytes) : bool := (13 <=? length bs)%nat && starts_with s_builtin bs && ends_with (b! "__") bs.

Definition math_constant (prop : bytes) : option Z :=
  if bool_decide (prop = b! "PI") then Some 0x400921FB54442D18
  else if bool_decide (prop = b! "E") then Some 0x4005BF0A8B145769
  else if bool_decide (prop = b! "LN2") then Some 0x3FE62E42FEFA39EF
  else if bool_decide (prop = b! "LN10") then Some 0x40026BB1BBB55516
  else if bool_decide (prop = b! "LOG2E") then Some 0x3FF71547652B82FE
  else if bool_decide (prop = b! "LOG10E") then Some 0x3FDBCB7B1526E50D
  else if bool_decide (prop = b! "SQRT2") then Some 0x3FF6A09E667F3BCD
  else None.

(** The name inside a marker goes through a buffer of 32 bytes: a longer one is not copied, and
    slicing the buffer by its length panics.  The marker is built in a buffer of 80. *)
Definition resolve_builtin_marker_prop (obj : Value) (prop : bytes) : M Value :=
  bs <! ask (fun c => default [] (str_of c obj)) ;;
  let base := take (length bs - 12) (drop 10 bs) in
  match (if bool_decide (base = b! "Math") then math_constant prop else None) with
  | Some k => push_number (f64_from_bits k)
  | None =>
      if (13 + length base + length prop <=? 80)%nat && negb (bool_decide (base = [])) then
        if (32 <? length base)%nat then vpanic
        else io (js_new_string (s_builtin ++ base ++ [95] ++ prop ++ b! "__"))
      else vret (UNDEFINED W)
  end.
Definition resolve_string_method_marker (method : bytes) : M Value :=
  if (19 + length method <=? 80)%nat then io (js_new_string (b! "__builtin_string_" ++ method ++ b! "__"))
  else vret (UNDEFINED W).

Definition copy_string_bytes (c : Ctx) (v : Value) : bytes := default [] (str_of c v).
(** [core::str::from_utf8(..).unwrap_or("")] *)
Definition key_str (bs : bytes) : bytes := default [] (from_utf8 bs).

Definition vm_get_prop (obj key : Value) : M Value :=
  k <! ask (fun c => str_of c key) ;;
  match k with
  | Some key_buf =>
      marker <! ask (fun c => match str_of c obj with Some bs => is_marker bs | None => false end) ;;
      if marker : bool then resolve_builtin_marker_prop obj key_buf
      else
        val <! io (js_get_property_str obj (key_str key_buf)) ;;
        obj_is_str <! ask (fun c => is_str c obj) ;;
        if is_undefined W val && obj_is_str then resolve_string_method_marker key_buf else vret val
  | None =>
      match int32 W key with
      | Some n => io (js_get_property_uint32 obj (as_u32 n))
      | None =>
          key_s <! io (js_to_string key) ;;
          key_buf <! ask (fun c => copy_string_bytes c key_s) ;;
          io (js_get_property_str obj (key_str key_buf))
      end
  end.
Definition vm_set_prop (obj key v : Value) : M Value :=
  k <! ask (fun c => str_of c key) ;;
  match k with
  | Some key_buf => _ <! io (js_set_property_str obj (key_str key_buf) v) ;; vret v
  | None => vret v
  end.
Definition vm_get_elem (obj idx : Value) : M Value :=
  match int32 W idx with
  | Some n => io (js_get_property_uint32 obj (as_u32 n))
  | None =>
      k <! ask (fun c => str_of c idx) ;;
      match k with
      | Some idx_buf => io (js_get_property_str obj (key_str idx_buf))
      | None => n <! number idx ;; io (js_get_property_uint32 obj (f64_as_u32 n))
      end
  end.

(** *** Globals and calls *)

Definition s_const_range : bytes := b! "bytecode const out of range".

(** The atom of the constant that names a global. *)
Definition global_atom (f : BytecodeFunction) (idx : Z) : M (Value * Z) :=
  match constants f !! Z.to_nat idx with
  | None => vm_error s_const_range
  | Some name_val =>
      atom <! io (js_value_to_atom name_val) ;;
      if atom <=? 0 then vm_error (b! "bytecode global name not string") else vret (name_val, as_u32 atom)
  end.
Definition load_global (f : BytecodeFunction) (global : Value) (idx : Z) : M Value :=
  ' (name_val, atom) <! global_atom f idx ;;
  val <! ask (fun c => or_undefined (get_property_atom_id (heap c) global atom)) ;;
  if negb (is_undefined W val) then vret val
  else
    name <! ask (fun c => str_of c name_val) ;;
    match name with
    | None => vret val
    | Some name_buf =>
        has <! io (on_heap (has_property_str global name_buf)) ;;
        if has : bool then vret val
        else
          match from_utf8 name_buf with
          | None => vret val
          | Some name => resolved <! io (eval_value name) ;; vret (default val resolved)
          end
    end.
(** The value is popped after the name is interned. *)
Definition store_global (global : Value) (atom : Z) (v : Value) : M Value :=
  ok <! io (on_heap (set_property_atom_id global atom v)) ;;
  if ok : bool then vret v else vthrow CLASS_TYPE_ERROR (b! "property set failed").

Definition call_with (func this : Value) (args : list Value) : M Value :=
  info <! ask (fun c => c_function_info (heap c) func) ;;
  match info with
  | Some (cf_idx, cf_params) => io (call_c_function_direct cf_idx cf_params this args)
  | None =>
      result <! io (call_function_value func this args) ;;
      match result with Some r => vret r | None => vthrow CLASS_TYPE_ERROR (b! "not a function") end
  end.
(** [Call] answers [Number(v)] itself. *)
Definition vm_call (func global : Value) (args : list Value) : M Value :=
  number_of <! ask (fun c =>
      match c_function_info (heap c) func, args with
      | None, [arg] => if bool_decide (str_of c func = Some (b! "__builtin_Number__")) then Some arg else None
      | _, _ => None
      end) ;;
  match number_of with
  | Some arg => vm_to_number arg
  | None => call_with func global args
  end.

(** ** Instructions *)

Definition unary_fn (op : OpCode.t) : option (Value -> M Value) :=
  match op with
  | OpCode.Neg => Some vm_neg
  | OpCode.Not => Some vm_not
  | OpCode.BitNot => Some vm_bit_not
  | OpCode.ToNumber => Some vm_to_number
  | OpCode.Typeof => Some vm_typeof
  | _ => None
  end.
Definition binary_fn (op : OpCode.t) : option (Value -> Value -> M Value) :=
  match op with
  | OpCode.Add => Some vm_add
  | OpCode.Sub => Some vm_sub
  | OpCode.Mul => Some vm_mul
  | OpCode.Div => Some vm_div
  | OpCode.Mod => Some vm_mod
  | OpCode.Eq => Some (equality vm_loose_eq false)
  | OpCode.Neq => Some (equality vm_loose_eq true)
  | OpCode.StrictEq => Some (equality vm_strict_eq false)
  | OpCode.StrictNeq => Some (equality vm_strict_eq true)
  | OpCode.Lt => Some vm_lt
  | OpCode.Gt => Some vm_gt
  | OpCode.Le => Some vm_le
  | OpCode.Ge => Some vm_ge
  | OpCode.And => Some vm_and
  | OpCode.Or => Some vm_or
  | OpCode.GetProp => Some vm_get_prop
  | OpCode.GetElem => Some vm_get_elem
  | OpCode.Concat => Some vm_concat
  | OpCode.BitAnd => Some (bit_op Z.land)
  | OpCode.BitOr => Some (bit_op Z.lor)
  | OpCode.BitXor => Some (bit_op Z.lxor)
  | OpCode.Shl => Some vm_shl
  | OpCode.Shr => Some vm_shr
  | OpCode.UShr => Some vm_ushr
  | _ => None
  end.

(** The operand stack, its top first, and the local slots. *)
Record Frame := MkFrame { stack : list Value; slots : list Value }.

(** [pop!] *)
Definition pop (fr : Frame) : M (Value * Frame) :=
  match stack fr with
  | v :: stk => vret (v, MkFrame stk (slots fr))
  | [] => vm_error (b! "bytecode stack underflow")
  end.
Definition push (v : Value) (fr : Frame) : Frame := MkFrame (v :: stack fr) (slots fr).

(** Out of range, a load is [undefined] and a store does nothing. *)
Definition load_slot (slot : Z) (ls : list Value) : Value := default (UNDEFINED W) (ls !! Z.to_nat slot).
Definition store_slot (slot : Z) (v : Value) (ls : list Value) : list Value := <[Z.to_nat slot := v]> ls.

Definition inc_local (slot amount : Z) (ls : list Value) : M (list Value) :=
  match ls !! Z.to_nat slot with
  | None => vret ls
  | Some old =>
      match int32 W old with
      | Some n => vret (store_slot slot (from_int32 W (as_i32 (n + as_i32 amount))) ls)
      | None =>
          n <! number old ;;
          v <! push_number (f64_add n (f64_of_int (as_i32 amount))) ;;
          vret (store_slot slot v ls)
      end
  end.

(** The arguments, the callee, [this] for a method, and what is below them. *)
Definition split_args (n : nat) (stk : list Value) : list Value * list Value := (rev (take n stk), drop n stk).

(** What comes next: the following instruction or a jump's target. *)
Inductive Flow := Next (fr : Frame) | To (target : Z) (fr : Frame).

Definition other_ins (f : BytecodeFunction) (global : Value) (i : Instruction) (fr : Frame) : M Flow :=
  let a := ins_a i in
  match ins_op i with
  | OpCode.Const =>
      match constants f !! Z.to_nat a with
      | Some v => vret (Next (push v fr))
      | None => vm_error s_const_range
      end
  | OpCode.LoadLocal => vret (Next (push (load_slot a (slots fr)) fr))
  | OpCode.StoreLocal =>
      ' (v, fr) <! pop fr ;; vret (Next (MkFrame (v :: stack fr) (store_slot a v (slots fr))))
  | OpCode.IncLocal => ls <! inc_local a (ins_b i) (slots fr) ;; vret (Next (MkFrame (stack fr) ls))
  | OpCode.LoadGlobal => v <! load_global f global a ;; vret (Next (push v fr))
  | OpCode.StoreGlobal =>
      ' (_, atom) <! global_atom f a ;;
      ' (v, fr) <! pop fr ;;
      v <! store_global global atom v ;; vret (Next (push v fr))
  | OpCode.Drop | OpCode.Pop => vret (Next (MkFrame (tail (stack fr)) (slots fr)))
  | OpCode.Dup => ' (v, fr) <! pop fr ;; vret (Next (push v (push v fr)))
  | OpCode.Jump => vret (To a fr)
  | OpCode.JumpIfFalse =>
      ' (v, fr) <! pop fr ;;
      t <! ask (fun c => is_truthy c v) ;; vret (if t : bool then Next fr else To a fr)
  | OpCode.JumpIfTrue =>
      ' (v, fr) <! pop fr ;;
      t <! ask (fun c => is_truthy c v) ;; vret (if t : bool then To a fr else Next fr)
  | OpCode.Call =>
      let '(args, below) := split_args (Z.to_nat a) (stack fr) in
      match below with
      | func :: rest => r <! vm_call func global args ;; vret (Next (MkFrame (r :: rest) (slots fr)))
      | [] => vm_error (b! "bytecode stack underflow in call")
      end
  | OpCode.CallMethod =>
      let '(args, below) := split_args (Z.to_nat a) (stack fr) in
      match below with
      | func :: this :: rest =>
          r <! call_with func this args ;; vret (Next (MkFrame (r :: rest) (slots fr)))
      | _ => vm_error (b! "bytecode stack underflow in call_method")
      end
  | OpCode.SetProp =>
      ' (v, fr) <! pop fr ;;
      ' (key, fr) <! pop fr ;;
      ' (obj, fr) <! pop fr ;;
      v <! vm_set_prop obj key v ;; vret (Next (push v fr))
  | OpCode.Return => vhalt (or_undefined (head (stack fr)))
  | _ => vret (Next fr)
  end.

Definition exec_ins (f : BytecodeFunction) (global : Value) (i : Instruction) (fr : Frame) : M Flow :=
  match unary_fn (ins_op i), binary_fn (ins_op i) with
  | Some g, _ => ' (v, fr) <! pop fr ;; r <! g v ;; vret (Next (push r fr))
  | None, Some g =>
      ' (b, fr) <! pop fr ;;
      ' (a, fr) <! pop fr ;;
      r <! g a b ;; vret (Next (push r fr))
  | None, None => other_ins f global i fr
  end.

(** ** The loop *)

Inductive End := Returned (v : Value) | Panicked.

Fixpoint run_loop (fuel : nat) (f : BytecodeFunction) (global : Value) (pc : nat) (fr : Frame) (c : Ctx) : option (End * Ctx) :=
  match fuel with
  | O => None
  | S fuel' =>
      match code f !! pc with
      | None => Some (Returned (UNDEFINED W), c)
      | Some i =>
          match exec_ins f global i fr c with
          | (Go (Next fr), c) => run_loop fuel' f global (S pc) fr c
          | (Go (To target fr), c) => run_loop fuel' f global (Z.to_nat target) fr c
          | (Halt v, c) => Some (Returned v, c)
          | (Panic, c) => Some (Panicked, c)
          end
      end
  end.

(** Parameters beyond the locals are ignored, locals beyond the parameters are [undefined]. *)
Definition init_slots (n : nat) (params : list Value) : list Value :=
  take n params ++ replicate (n - length params) (UNDEFINED W).

(** [functions[module.main]] panics when [main] is out of range. *)
Definition run_module_with_locals (fuel : nat) (m : BytecodeModule) (params : list Value) (c : Ctx) : option (End * Ctx) :=
  match functions m with
  | [] => Some (Returned (UNDEFINED W), c)
  | fs =>
      match fs !! main m with
      | None => Some (Panicked, c)
      | Some f =>
          run_loop fuel f (global_object (scope c)) 0 (MkFrame [] (init_slots (length (locals f)) params)) c
      end
  end.
End Vm.
