(* ===== verification/JsVmSpec.v ===== *)
(** * JsVmSpec: the machine runs the compiler's trees

    A tree evaluator over the machine's own operators, with no stack, no program counter and no
    jumps, and the simulation: the code generated for a tree, run by [JsVm.run_loop], computes
    what the evaluator says, loops included, and never meets an instruction whose operands or
    indices are missing. *)
From S2P Require Import Prelude JsValue JsMem JsBytecode JsScope JsApi JsVm.
From S2P Require JsCompile JsTree.
Import JsTree.

(** ** The evaluator *)

Section Eval.
Context `{Host : JsHost} (f : BytecodeFunction) (global : Value).

Definition constant (i : Z) : Value := or_undefined (constants f !! Z.to_nat i).
Definition Locals : Type := list Value.

Section EvalList.
Context {A : Type} (ev : A -> Locals -> M (Value * Locals)).
Fixpoint eval_list (l : list A) (ls : Locals) : M (list Value * Locals) :=
  match l with
  | [] => vret ([], ls)
  | x :: l' => ' (v, ls) <! ev x ls ;; ' (vs, ls) <! eval_list l' ls ;; vret (v :: vs, ls)
  end.
End EvalList.

Definition apply_unary (op : OpCode.t) (v : Value) : M Value :=
  match unary_fn op with Some g => g v | None => vret v end.
Definition apply_binary (op : OpCode.t) (a b : Value) : M Value :=
  match binary_fn op with Some g => g a b | None => vret a end.

(** Operands from left to right; [&&] and [||] are operators like the others. *)
Fixpoint eval (e : tree) (ls : Locals) : M (Value * Locals) :=
  match e with
  | TConst i => vret (constant i, ls)
  | TLocal s => vret (load_slot s ls, ls)
  | TGlobal i => v <! load_global f global i ;; vret (v, ls)
  | TUnary op e => ' (v, ls) <! eval e ls ;; r <! apply_unary op v ;; vret (r, ls)
  | TBinary op e1 e2 =>
      ' (a, ls) <! eval e1 ls ;; ' (b, ls) <! eval e2 ls ;; r <! apply_binary op a b ;; vret (r, ls)
  | TComma e1 e2 => ' (_, ls) <! eval e1 ls ;; eval e2 ls
  | TCond c t e =>
      ' (v, ls) <! eval c ls ;;
      b <! ask (fun cx => is_truthy cx v) ;;
      if b : bool then eval t ls else eval e ls
  | TSetLocal s e => ' (v, ls) <! eval e ls ;; vret (v, store_slot s v ls)
  | TSetGlobal i e =>
      ' (v, ls) <! eval e ls ;; ' (_, atom) <! global_atom f i ;;
      r <! store_global global atom v ;; vret (r, ls)
  | TCall g args =>
      ' (fv, ls) <! eval g ls ;; ' (vs, ls) <! eval_list eval args ls ;;
      r <! vm_call fv global vs ;; vret (r, ls)
  | TMethod o i args =>
      ' (ov, ls) <! eval o ls ;; fv <! vm_get_prop ov (constant i) ;;
      ' (vs, ls) <! eval_list eval args ls ;; r <! call_with fv ov vs ;; vret (r, ls)
  end.

(** Statements may loop for ever: [None] is out of fuel.  [Go] is normal completion, [Halt] a
    [return] or an error. *)
Definition X (A : Type) : Type := Ctx -> option (Out A * Ctx).
Definition lift {A} (m : M A) : X A := fun c => Some (m c).
Definition xbind {A B} (m : X A) (k : A -> X B) : X B := fun c =>
  match m c with
  | None => None
  | Some (Go x, c) => k x c
  | Some (Halt v, c) => Some (Halt v, c)
  | Some (Panic, c) => Some (Panic, c)
  end.

Section Statements.
Context {A : Type} (ex : A -> Locals -> X Locals).
Fixpoint exec_seq (l : list A) (ls : Locals) : X Locals :=
  match l with [] => lift (vret ls) | s :: l' => xbind (ex s ls) (exec_seq l') end.
End Statements.

(** At most [n] rounds. *)
Fixpoint exec_loop (n : nat) (test : Locals -> M (bool * Locals)) (body : Locals -> X Locals) (ls : Locals) : X Locals :=
  match n with
  | O => fun _ => None
  | S n' =>
      xbind (lift (test ls)) (fun '(b, ls) =>
        if b : bool then xbind (body ls) (exec_loop n' test body) else lift (vret ls))
  end.

Definition test_of (c : tree) (ls : Locals) : M (bool * Locals) :=
  ' (v, ls) <! eval c ls ;; b <! ask (fun cx => is_truthy cx v) ;; vret (b, ls).

Fixpoint exec (n : nat) (s : stmt) (ls : Locals) : X Locals :=
  match s with
  | SVar slot e => lift (' (v, ls) <! eval e ls ;; vret (store_slot slot v ls))
  | SInc slot amount => lift (inc_local slot amount ls)
  | SExpr e => lift (' (_, ls) <! eval e ls ;; vret ls)
  | SReturn e => lift (' (v, _) <! eval e ls ;; vhalt v)
  | SCond c body orelse =>
      xbind (lift (test_of c ls)) (fun '(b, ls) =>
        if b : bool then exec_seq (exec n) body ls
        else match orelse with Some l => exec_seq (exec n) l ls | None => lift (vret ls) end)
  | SLoop c body =>
      exec_loop n (match c with Some c => test_of c | None => fun ls => vret (true, ls) end) (exec_seq (exec n) body) ls
  end.
Definition exec_all (n : nat) (l : list stmt) : Locals -> X Locals := exec_seq (exec n) l.

(** What a function's run ends with: its code falls off the end when no statement returns. *)
Definition end_of {A} (r : Out A) : End :=
  match r with Go _ => Returned (UNDEFINED W) | Halt v => Returned v | Panic => Panicked end.
End Eval.

(** ** Safe instructions *)

(** How many operands an instruction takes off the stack. *)
Definition arity (i : Instruction) : nat :=
  match ins_op i with
  | OpCode.StoreLocal | OpCode.StoreGlobal | OpCode.Drop | OpCode.Pop | OpCode.Dup
  | OpCode.JumpIfFalse | OpCode.JumpIfTrue | OpCode.Return
  | OpCode.Neg | OpCode.Not | OpCode.BitNot | OpCode.ToNumber | OpCode.Typeof => 1
  | OpCode.Call => 1 + Z.to_nat (ins_a i)
  | OpCode.CallMethod => 2 + Z.to_nat (ins_a i)
  | OpCode.SetProp => 3
  | OpCode.Nop | OpCode.Const | OpCode.LoadGlobal | OpCode.LoadLocal | OpCode.Jump | OpCode.IncLocal => 0
  | _ => 2
  end.
Definition index_ok (f : BytecodeFunction) (i : Instruction) : bool :=
  match ins_op i with
  | OpCode.Const | OpCode.LoadGlobal | OpCode.StoreGlobal => below (length (constants f)) (ins_a i)
  | OpCode.LoadLocal | OpCode.StoreLocal | OpCode.IncLocal => below (length (locals f)) (ins_a i)
  | _ => true
  end.
Definition safe_ins (f : BytecodeFunction) (i : Instruction) (fr : Frame) : bool :=
  (arity i <=? length (stack fr))%nat && index_ok f i.

(** Every instruction of the first [fuel] steps of a run is safe. *)
Fixpoint safe_run `{JsHost} (fuel : nat) (f : BytecodeFunction) (global : Value) (pc : nat) (fr : Frame) (c : Ctx) : bool :=
  match fuel with
  | O => true
  | S fuel' =>
      match code f !! pc with
      | None => true
      | Some i =>
          safe_ins f i fr &&
          match exec_ins f global i fr c with
          | (Go (Next fr), c) => safe_run fuel' f global (S pc) fr c
          | (Go (To target fr), c) => safe_run fuel' f global (Z.to_nat target) fr c
          | _ => true
          end
      end
  end.

(** ** Runs of the machine *)

Section Sim.
Context `{Host : JsHost} (f : BytecodeFunction) (global : Value).

Definition Config : Type := nat * Frame * Ctx.
Definition runs (n : nat) (x : Config) : option (End * Ctx) := run_loop n f global x.1.1 x.1.2 x.2.
Definition safe (n : nat) (x : Config) : bool := safe_run n f global x.1.1 x.1.2 x.2.

(** [x] gets to [y]; [x] ends; [x] is still running after [n] steps: each safely. *)
Definition goes (x y : Config) : Prop := exists k, forall n, runs (k + n) x = runs n y /\ safe (k + n) x = safe n y.
Definition ends (x : Config) (e : End) (c : Ctx) : Prop :=
  exists k, forall n, runs (k + n) x = Some (e, c) /\ safe (k + n) x = true.
Definition silent (n : nat) (x : Config) : Prop := runs n x = None /\ safe n x = true.

(** From [x] the machine does what the evaluator's result says. *)
Definition refines {A} (n : nat) (x : Config) (r : option (Out A * Ctx)) (after : A -> nat * Frame) : Prop :=
  match r with
  | None => silent n x
  | Some (Go a, c) => goes x (after a, c)
  | Some (Halt v, c) => ends x (Returned v) c
  | Some (Panic, c) => ends x Panicked c
  end.

Definition flow_to (pc : nat) (fl : Flow) : nat * Frame :=
  match fl with Next fr => (S pc, fr) | To target fr => (Z.to_nat target, fr) end.

Lemma one_step (n pc : nat) (fr : Frame) (c : Ctx) (i : Instruction) :
  code f !! pc = Some i -> safe_ins f i fr = true ->
  (runs (S n) (pc, fr, c), safe (S n) (pc, fr, c)) =
  match exec_ins f global i fr c with
  | (Go fl, c) => (runs n (flow_to pc fl, c), safe n (flow_to pc fl, c))
  | (Halt v, c) => (Some (Returned v, c), true)
  | (Panic, c) => (Some (Panicked, c), true)
  end.
Proof.
  intros Hi Hs. unfold runs, safe. cbn [run_loop safe_run fst snd]. rewrite Hi, Hs.
  by destruct (exec_ins _ _ _ _ _) as [[[]| |] ?].
Qed.

Lemma runs_more (n k : nat) (x : Config) (r : End * Ctx) : runs n x = Some r -> runs (n + k) x = Some r.
Proof.
  unfold runs. destruct x as [[pc fr] c]. cbn [fst snd]. revert pc fr c.
  induction n as [|n IH]; intros pc fr c; [done|]. cbn [run_loop Nat.add].
  destruct (code f !! pc); [|done]. destruct (exec_ins _ _ _ _ _) as [[[]| |] ?]; auto.
Qed.

Lemma safe_less (n k : nat) (x : Config) : safe (n + k) x = true -> safe n x = true.
Proof.
  unfold safe. destruct x as [[pc fr] c]. cbn [fst snd]. revert pc fr c.
  induction n as [|n IH]; intros pc fr c; [done|]. cbn [safe_run Nat.add].
  destruct (code f !! pc); [|done]. rewrite !andb_true_iff. intros [? H]. split; [done|].
  destruct (exec_ins _ _ _ _ _) as [[[]| |] ?]; eauto.
Qed.

Lemma silent_less (n m : nat) (x : Config) : (n <= m)%nat -> silent m x -> silent n x.
Proof.
  intros Hle [H1 H2]. replace m with (n + (m - n))%nat in H1, H2 by lia. split; [|by eapply safe_less].
  destruct (runs n x) eqn:E; [|done]. by erewrite runs_more in H1.
Qed.

Lemma goes_refl (x : Config) : goes x x.
Proof. by exists 0%nat. Qed.

Lemma goes_trans (x y z : Config) : goes x y -> goes y z -> goes x z.
Proof.
  intros [k Hk] [l Hl]. exists (k + l)%nat. intros n. rewrite <- Nat.add_assoc.
  destruct (Hk (l + n)%nat) as [-> ->]. apply Hl.
Qed.

Lemma goes_refines {A} (n : nat) (x y : Config) (r : option (Out A * Ctx)) after :
  goes x y -> refines n y r after -> refines n x r after.
Proof.
  intros G. destruct r as [[[a|v|] c]|]; simpl; [by apply goes_trans|..].
  - destruct G as [k Hk]. intros [l Hl]. exists (k + l)%nat. intros m. rewrite <- Nat.add_assoc.
    destruct (Hk (l + m)%nat) as [-> ->]. apply Hl.
  - destruct G as [k Hk]. intros [l Hl]. exists (k + l)%nat. intros m. rewrite <- Nat.add_assoc.
    destruct (Hk (l + m)%nat) as [-> ->]. apply Hl.
  - destruct G as [k Hk]. intros [H1 H2]. apply (silent_less n (k + n)); [lia|].
    unfold silent. destruct (Hk n) as [-> ->]. done.
Qed.

Lemma refines_less {A} (n m : nat) (x : Config) (r : option (Out A * Ctx)) after :
  (n <= m)%nat -> refines m x r after -> refines n x r after.
Proof. intros Hle. destruct r as [[[a|v|] c]|]; simpl; [done..|]. by apply silent_less. Qed.

(** *** Composition *)

Lemma refines_xbind {A B} (n : nat) (x : Config) (m : X A) (k : A -> X B) c mid after :
  refines n x (m c) mid ->
  (forall a c', m c = Some (Go a, c') -> refines n (mid a, c') (k a c') after) ->
  refines n x (xbind m k c) after.
Proof.
  intros Hm Hk. unfold xbind. destruct (m c) as [[[a|v|] c']|] eqn:E; simpl in Hm; [|done..].
  eapply goes_refines; [exact Hm|]. by apply Hk.
Qed.

Lemma lift_vbind {A B} (m : M A) (k : A -> M B) (c : Ctx) :
  Some (vbind m k c) = xbind (lift m) (fun a => lift (k a)) c.
Proof. unfold vbind, xbind, lift. by destruct (m c) as [[]]. Qed.

Lemma refines_bind {A B} (n : nat) (x : Config) (m : M A) (k : A -> M B) c mid after :
  refines n x (Some (m c)) mid ->
  (forall a c', m c = (Go a, c') -> refines n (mid a, c') (Some (k a c')) after) ->
  refines n x (Some (vbind m k c)) after.
Proof.
  intros Hm Hk. rewrite lift_vbind. eapply refines_xbind; [exact Hm|].
  intros a c' H. apply Hk. unfold lift in H. congruence.
Qed.

Lemma refines_then {A} (n : nat) (x : Config) (r : option (Out A * Ctx)) mid after :
  refines n x r mid -> (forall a c, r = Some (Go a, c) -> refines n (mid a, c) (Some (vret a c)) after) ->
  refines n x r after.
Proof. intros H Hk. destruct r as [[[a|v|] c]|]; [|done..]. eapply goes_trans; [exact H|]. by apply Hk. Qed.

Lemma refines_ret {A} (n : nat) (x : nat * Frame) (c : Ctx) (a : A) after :
  x = after a -> refines n (x, c) (Some (vret a c)) after.
Proof. intros ->. apply goes_refl. Qed.

(** An instruction that does an operator's work. *)
Lemma refines_op {A} (n pc : nat) (fr : Frame) (c : Ctx) (i : Instruction) (m : M A) (h : A -> Flow) :
  code f !! pc = Some i -> safe_ins f i fr = true ->
  exec_ins f global i fr c = (a <! m ;; vret (h a)) c ->
  refines n (pc, fr, c) (Some (m c)) (fun a => flow_to pc (h a)).
Proof.
  intros Hi Hs He. assert (H := fun l => one_step l pc fr c i Hi Hs). rewrite He in H.
  unfold vbind, vret in *. destruct (m c) as [[a|v|] c'] eqn:E; simpl; exists 1%nat; intros l; specialize (H l);
    injection H as Ha Hb; by rewrite <- ?Ha, <- ?Hb.
Qed.
Lemma refines_ins {A B} (n pc : nat) (fr : Frame) (c : Ctx) (i : Instruction) (m : M A) (h : A -> Flow) (k : A -> B) after :
  code f !! pc = Some i -> safe_ins f i fr = true ->
  exec_ins f global i fr c = (a <! m ;; vret (h a)) c ->
  (forall a, flow_to pc (h a) = after (k a)) ->
  refines n (pc, fr, c) (Some ((a <! m ;; vret (k a)) c)) after.
Proof.
  intros Hi Hs He Hf. eapply refines_bind; [by eapply refines_op|]. intros a c' _. by apply refines_ret.
Qed.

(** An instruction that only moves things. *)
Lemma refines_go {A} (n pc : nat) (fr : Frame) (c : Ctx) (i : Instruction) (fl : Flow) (r : option (Out A * Ctx)) after :
  code f !! pc = Some i -> safe_ins f i fr = true ->
  exec_ins f global i fr c = (Go fl, c) ->
  refines n (flow_to pc fl, c) r after -> refines n (pc, fr, c) r after.
Proof.
  intros Hi Hs He. apply goes_refines. exists 1%nat. intros l.
  pose proof (one_step l pc fr c i Hi Hs) as H. rewrite He in H.
  injection H as Ha Hb. by rewrite <- Ha, <- Hb.
Qed.

(** The same, counted: a loop's jump back. *)
Lemma refines_jump {A} (n pc : nat) (fr : Frame) (c : Ctx) (i : Instruction) (fl : Flow) (r : option (Out A * Ctx)) after :
  code f !! pc = Some i -> safe_ins f i fr = true ->
  exec_ins f global i fr c = (Go fl, c) ->
  refines n (flow_to pc fl, c) r after -> refines (S n) (pc, fr, c) r after.
Proof.
  intros Hi Hs He H. destruct r as [[[a|v|] c']|] eqn:E; [by eapply (refines_go (S n))..|].
  destruct H as [H1 H2]. pose proof (one_step n pc fr c i Hi Hs) as H. rewrite He in H.
  injection H as Ha Hb. split; [by rewrite Ha|by rewrite Hb].
Qed.

#[local] Arguments refines : simpl never.

(** ** Code in place *)

Definition code_at (pc : nat) (l : list Instruction) : Prop :=
  exists pre post, code f = pre ++ l ++ post /\ pc = length pre.

Lemma code_at_app (pc : nat) (l1 l2 : list Instruction) :
  code_at pc (l1 ++ l2) -> code_at pc l1 /\ code_at (pc + length l1) l2.
Proof.
  intros (pre & post & E & ->). split; [exists pre, (l2 ++ post)|exists (pre ++ l1), post];
    by rewrite ?length_app, <- ?app_assoc in *.
Qed.
Lemma code_at_cons (pc : nat) (i : Instruction) (l : list Instruction) :
  code_at pc (i :: l) -> code f !! pc = Some i /\ code_at (pc + 1) l.
Proof.
  intros H. apply (code_at_app _ [i]) in H as [(pre & post & E & ->) H]. split; [|done].
  rewrite E. by apply list_lookup_middle.
Qed.
Lemma code_at_end (pc : nat) (l : list Instruction) : code_at pc l -> (pc + length l <= length (code f))%nat.
Proof. intros (pre & post & E & ->). rewrite E, !length_app. lia. Qed.

Context (Hsmall : Z.of_nat (length (code f)) < 2 ^ 32).

Lemma as_idx_small (n : nat) : (n <= length (code f))%nat -> Z.to_nat (JsCompile.as_idx n) = n.
Proof. intros. unfold JsCompile.as_idx, as_u32. rewrite Z.mod_small; lia. Qed.

Lemma code_at_target (pc : nat) (l : list Instruction) :
  code_at pc l -> Z.to_nat (JsCompile.as_idx (pc + length l)) = (pc + length l)%nat.
Proof. intros H. by apply as_idx_small, code_at_end. Qed.

Lemma gen_not_nil (pc : nat) (e : tree) : (1 <= length (gen pc e))%nat.
Proof. destruct e; simpl; rewrite ?length_app; simpl; lia. Qed.
Lemma gen_seq_length (pc : nat) (args : list tree) : (length args <= length (gen_seq gen pc args))%nat.
Proof.
  revert pc. induction args as [|e args IH]; intros pc; simpl; [done|]. rewrite length_app.
  pose proof (gen_not_nil pc e). specialize (IH (pc + length (gen pc e))%nat). lia.
Qed.

Notation nl := (length (locals f)).
Notation nc := (length (constants f)).
Notation ev := (eval f global).

(** After an expression its value is on the stack. *)
Definition pushed (pc : nat) (stk : list Value) (x : Value * Locals) : nat * Frame := (pc, MkFrame (x.1 :: stk) x.2).
Definition gen_ok (e : tree) : Prop := forall n pc stk ls c,
  code_at pc (gen pc e) -> tree_ok nl nc e = true ->
  refines n (pc, MkFrame stk ls, c) (Some (ev e ls c)) (pushed (pc + length (gen pc e)) stk).

Lemma eval_list_length (l : list tree) (ls : Locals) c vs ls' c' :
  eval_list ev l ls c = (Go (vs, ls'), c') -> length vs = length l.
Proof.
  revert ls c vs ls' c'. induction l as [|e l IH]; intros ls c vs ls' c'; simpl; unfold vret, vbind; [by intros [= <- _ _]|].
  destruct (ev e ls c) as [[[v ls1]| |] c1]; [|congruence..].
  destruct (eval_list ev l ls1 c1) as [[[vs' ls2]| |] c2] eqn:E; [|congruence..].
  intros [= <- _ _]. simpl. f_equal. eauto.
Qed.

Definition pushed_all (pc : nat) (stk : list Value) (x : list Value * Locals) : nat * Frame :=
  (pc, MkFrame (rev x.1 ++ stk) x.2).
Lemma gen_list_ok (l : list tree) : Forall gen_ok l -> forall n pc stk ls c,
  code_at pc (gen_seq gen pc l) -> forallb (tree_ok nl nc) l = true ->
  refines n (pc, MkFrame stk ls, c) (Some (eval_list ev l ls c)) (pushed_all (pc + length (gen_seq gen pc l)) stk).
Proof.
  induction 1 as [|e l He _ IH]; intros n pc stk ls c Hc Hok; simpl in *.
  - apply refines_ret. by rewrite Nat.add_0_r.
  - apply code_at_app in Hc as [Hc1 Hc2]. apply andb_true_iff in Hok as [Hok1 Hok2].
    eapply refines_bind; [by apply He|]. intros [v ls1] c1 _. unfold pushed. cbn [fst snd].
    eapply refines_bind; [by apply IH|]. intros [vs ls2] c2 _.
    apply refines_ret. unfold pushed_all. simpl. by rewrite length_app, Nat.add_assoc, <- app_assoc.
Qed.

Lemma split_args_rev (vs stk : list Value) : split_args (length vs) (rev vs ++ stk) = (vs, stk).
Proof.
  unfold split_args. rewrite take_app_length', drop_app_length' by (by rewrite length_rev). by rewrite rev_involutive.
Qed.
Lemma argc_small (pc : nat) (args : list tree) :
  code_at pc (gen_seq gen pc args) -> Z.to_nat (argc_of args) = length args.
Proof. intros H%code_at_end. apply as_idx_small. pose proof (gen_seq_length pc args). lia. Qed.

Lemma constant_at (i : Z) : below nc i = true -> constants f !! Z.to_nat i = Some (constant f i).
Proof.
  unfold below, constant. intros [H1%Z.leb_le H2%Z.ltb_lt]%andb_true_iff.
  destruct (lookup_lt_is_Some_2 (constants f) (Z.to_nat i)) as [v E]; [lia|]. by rewrite E.
Qed.

Lemma unary_exec (op : OpCode.t) v stk ls c : unary_op op = true ->
  exec_ins f global (op0 op) (MkFrame (v :: stk) ls) c =
  (r <! apply_unary op v ;; vret (Next (MkFrame (r :: stk) ls))) c /\ safe_ins f (op0 op) (MkFrame (v :: stk) ls) = true.
Proof. by destruct op. Qed.
Lemma binary_exec (op : OpCode.t) a b stk ls c : binary_op op = true ->
  exec_ins f global (op0 op) (MkFrame (b :: a :: stk) ls) c =
  (r <! apply_binary op a b ;; vret (Next (MkFrame (r :: stk) ls))) c /\
  safe_ins f (op0 op) (MkFrame (b :: a :: stk) ls) = true.
Proof. by destruct op. Qed.


Lemma code_at_pos (pc : nat) (l : list Instruction) : code_at pc l -> Z.to_nat (JsCompile.as_idx pc) = pc.
Proof. intros H%code_at_end. apply as_idx_small. lia. Qed.

(** Reads the code of a tree off [code_at], as instructions and subtrees. *)
Ltac cut_code := cbn [app] in *; repeat match goal with
  | H : code_at _ (_ ++ _) |- _ => apply code_at_app in H as [? H]
  | H : code_at _ (_ :: _) |- _ => apply code_at_cons in H as [? H]
  end.
Ltac split_ok := repeat match goal with H : _ && _ = true |- _ => apply andb_true_iff in H as [? H] end.
(** The subtree's value, then what follows. *)
Ltac sub H := eapply refines_bind; [by eapply H|]; intros [??] ? _; unfold pushed; cbn [fst snd].
Ltac place := unfold pushed; cbn [flow_to fst snd push stack slots gen]; repeat first [rewrite length_app | progress cbn [length]];
  apply (f_equal2 pair); [lia|done].


(** An instruction that goes on with what it computes to. *)
Ltac go fl := eapply (refines_go _ _ _ _ _ fl); [done|done|cbn; unfold vbind; cbn; try done|cbn [flow_to push stack slots ins ins_a]].

Lemma gen_cond (c t e : tree) : gen_ok c -> gen_ok t -> gen_ok e -> gen_ok (TCond c t e).
Proof.
  intros IHc IHt IHe n pc stk ls cx Hc Hok. simpl in Hok. split_ok.
  cbn [gen] in *. cut_code. pose proof (code_at_target _ _ Hc) as Hend. pose proof (code_at_pos _ _ Hc) as Hf.
  cbn [eval]. sub IHc. unfold vbind at 1. cbn [ask]. destruct (is_truthy _ _) eqn:E.
  - go (Next (MkFrame stk l)); [by rewrite E|]. rewrite <- Nat.add_1_r.
    eapply refines_then; [by apply IHt|]. intros [v' ls'] c1 _.
    go (To (JsCompile.as_idx (pc + length (gen pc c) + 1 + length (gen (pc + length (gen pc c) + 1) t) + 1 +
      length (gen (pc + length (gen pc c) + 1 + length (gen (pc + length (gen pc c) + 1) t) + 1) e))) (MkFrame (v' :: stk) ls')).
    rewrite Hend. apply refines_ret. place.
  - eapply (refines_go _ _ _ _ _ (To _ _)); [done|done|cbn; unfold vbind; cbn; by rewrite E|].
    cbn [flow_to ins ins_a]. rewrite Hf. eapply refines_then; [by apply IHe|].
    intros [v' ls'] c1 _. apply refines_ret. place.
Qed.

Lemma gen_unary (op : OpCode.t) (e : tree) : gen_ok e -> gen_ok (TUnary op e).
Proof.
  intros IH n pc stk ls c Hc Hok. simpl in Hok. split_ok. cbn [gen] in *. cut_code. cbn [eval]. sub IH.
  eapply refines_ins; [done|by apply unary_exec|by apply unary_exec|]. intros r. place.
Qed.

Lemma gen_binary (op : OpCode.t) (e1 e2 : tree) : gen_ok e1 -> gen_ok e2 -> gen_ok (TBinary op e1 e2).
Proof.
  intros IH1 IH2 n pc stk ls c Hc Hok. simpl in Hok. split_ok. cbn [gen] in *. cut_code. cbn [eval].
  sub IH1. sub IH2. eapply refines_ins; [done|by apply binary_exec|by apply binary_exec|]. intros r. place.
Qed.

Lemma gen_comma (e1 e2 : tree) : gen_ok e1 -> gen_ok e2 -> gen_ok (TComma e1 e2).
Proof.
  intros IH1 IH2 n pc stk ls c Hc Hok. simpl in Hok. split_ok. cbn [gen] in *. cut_code. cbn [eval].
  sub IH1. go (Next (MkFrame stk l)). rewrite <- Nat.add_1_r.
  eapply refines_then; [by apply IH2|]. intros [v' ls'] c1 _. apply refines_ret. place.
Qed.

Lemma gen_set_local (s : Z) (e : tree) : gen_ok e -> gen_ok (TSetLocal s e).
Proof.
  intros IH n pc stk ls c Hc Hok. simpl in Hok. split_ok. cbn [gen] in *. cut_code. cbn [eval]. sub IH.
  go (Next (MkFrame (z :: z :: stk) l)). rewrite <- Nat.add_1_r.
  go (Next (MkFrame (z :: z :: stk) (store_slot s z l))). rewrite <- Nat.add_1_r.
  go (Next (MkFrame (z :: stk) (store_slot s z l))). apply refines_ret. place.
Qed.


Lemma store_global_assoc {B} (i : Z) (v : Value) (k : Value -> M B) (c : Ctx) :
  (' (_, atom) <! global_atom f i ;; r <! store_global global atom v ;; k r) c =
  (r <! (' (_, atom) <! global_atom f i ;; store_global global atom v) ;; k r) c.
Proof. unfold vbind. by destruct (global_atom f i c) as [[[]| |]]. Qed.

Lemma gen_set_global (i : Z) (e : tree) : gen_ok e -> gen_ok (TSetGlobal i e).
Proof.
  intros IH n pc stk ls c Hc Hok. simpl in Hok. split_ok. cbn [gen] in *. cut_code. cbn [eval]. sub IH.
  rewrite store_global_assoc. eapply refines_ins; [done|by cbn; rewrite H| |].
  - cbn. apply (store_global_assoc i z (fun v => vret (Next (MkFrame (v :: stk) l)))).
  - intros r. place.
Qed.

Lemma gen_call (g : tree) (args : list tree) : gen_ok g -> Forall gen_ok args -> gen_ok (TCall g args).
Proof.
  intros IHg IHa n pc stk ls c Hc Hok. simpl in Hok. split_ok. cbn [gen] in *. cut_code. cbn [eval]. sub IHg.
  eapply refines_bind; [by apply gen_list_ok|]. intros [vs ls'] c1 Hvs%eval_list_length. unfold pushed_all. cbn [fst snd].
  pose proof (argc_small _ _ H1) as Hn. eapply refines_ins; [done| | |].
  - unfold safe_ins. cbn [arity index_ok ins ins_op ins_a stack]. rewrite Hn, length_app, length_rev, Hvs, andb_true_r.
    cbn [length]. apply Nat.leb_le. lia.
  - unfold exec_ins, other_ins. cbn [ins ins_op ins_a unary_fn binary_fn stack slots]. rewrite Hn, <- Hvs, split_args_rev. reflexivity.
  - intros r. place.
Qed.

Lemma gen_method (o : tree) (i : Z) (args : list tree) : gen_ok o -> Forall gen_ok args -> gen_ok (TMethod o i args).
Proof.
  intros IHo IHa n pc stk ls c Hc Hok. simpl in Hok. split_ok. cbn [gen] in *. cut_code. cbn [eval]. sub IHo.
  replace (pc + length (gen pc o) + 3)%nat with (pc + length (gen pc o) + 1 + 1 + 1)%nat in * by lia.
  go (Next (MkFrame (z :: z :: stk) l)). rewrite <- Nat.add_1_r.
  eapply (refines_go _ _ _ _ _ (Next (MkFrame (constant f i :: z :: z :: stk) l)));
    [done|by cbn; rewrite H|by cbn; rewrite constant_at|]. cbn [flow_to]. rewrite <- Nat.add_1_r.
  eapply refines_bind; [eapply (refines_op _ _ _ _ _ _ (fun r => Next (MkFrame (r :: z :: stk) l))); [done..|reflexivity]|].
  intros fv c1 _. cbn [flow_to]. rewrite <- Nat.add_1_r.
  eapply refines_bind; [by apply gen_list_ok|]. intros [vs ls'] c2 Hvs%eval_list_length. unfold pushed_all. cbn [fst snd].
  pose proof (argc_small _ _ H5) as Hn. eapply refines_ins; [done| | |].
  - unfold safe_ins. cbn [arity index_ok ins ins_op ins_a stack]. rewrite Hn, length_app, length_rev, Hvs, andb_true_r.
    cbn [length]. apply Nat.leb_le. lia.
  - unfold exec_ins, other_ins. cbn [ins ins_op ins_a unary_fn binary_fn stack slots]. rewrite Hn, <- Hvs, split_args_rev.
    reflexivity.
  - intros r. place.
Qed.

Lemma gen_correct (e : tree) : gen_ok e.
Proof.
  induction e using tree_ind'; eauto using gen_unary, gen_binary, gen_comma, gen_cond, gen_set_local, gen_set_global,
    gen_call, gen_method; intros n pc stk ls c Hc Hok; simpl in Hok; cbn [gen] in *; cut_code; cbn [eval].
  - eapply (refines_go _ _ _ _ _ (Next (MkFrame (constant f i :: stk) ls)));
      [done|by cbn; rewrite Hok|by cbn; rewrite constant_at|]. apply refines_ret. place.
  - eapply (refines_go _ _ _ _ _ (Next (MkFrame (load_slot s ls :: stk) ls))); [done|by cbn; rewrite Hok|done|].
    apply refines_ret. place.
  - eapply refines_ins; [done|by cbn; rewrite Hok|reflexivity|]. intros v. place.
Qed.

(** *** Statements *)

Definition after_stmt (pc : nat) (stk : list Value) (ls : Locals) : nat * Frame := (pc, MkFrame stk ls).
Definition stmt_gen_ok (s : stmt) : Prop := forall n pc stk ls c,
  code_at pc (gen_stmt pc s) -> stmt_ok nl nc s = true ->
  refines n (pc, MkFrame stk ls, c) (exec f global n s ls c) (after_stmt (pc + length (gen_stmt pc s)) stk).

Lemma gen_stmts_ok (l : list stmt) : Forall stmt_gen_ok l -> forall n pc stk ls c,
  code_at pc (gen_stmts pc l) -> forallb (stmt_ok nl nc) l = true ->
  refines n (pc, MkFrame stk ls, c) (exec_all f global n l ls c) (after_stmt (pc + length (gen_stmts pc l)) stk).
Proof.
  induction 1 as [|s l Hs _ IH]; intros n pc stk ls c Hc Hok; simpl in *.
  - apply refines_ret. unfold after_stmt. f_equal. simpl. lia.
  - apply code_at_app in Hc as [Hc1 Hc2]. apply andb_true_iff in Hok as [Hok1 Hok2].
    eapply refines_xbind; [by apply Hs|]. intros ls1 c1 _. unfold after_stmt.
    rewrite length_app, Nat.add_assoc. by apply IH.
Qed.

Definition tested (pc target : nat) (stk : list Value) (x : bool * Locals) : nat * Frame :=
  (if x.1 then pc else target, MkFrame stk x.2).
(** A condition and the jump taken when it is false. *)
Lemma gen_test (e : tree) (n pc target : nat) stk ls c :
  code_at pc (gen pc e) -> code f !! (pc + length (gen pc e))%nat = Some (ins OpCode.JumpIfFalse (JsCompile.as_idx target)) ->
  (target <= length (code f))%nat -> tree_ok nl nc e = true ->
  refines n (pc, MkFrame stk ls, c) (Some (test_of f global e ls c))
    (tested (pc + length (gen pc e) + 1) target stk).
Proof.
  intros Hc Hj Ht Hok. unfold test_of. eapply refines_bind; [by apply gen_correct|].
  intros [v ls1] c1 _. unfold pushed. cbn [fst snd]. unfold vbind at 1. cbn [ask]. destruct (is_truthy c1 v) eqn:E.
  - go (Next (MkFrame stk ls1)); [by rewrite E|]. apply refines_ret. unfold tested. cbn [fst snd]. f_equal. lia.
  - eapply (refines_go _ _ _ _ _ (To _ _)); [done|done|cbn; unfold vbind; cbn; by rewrite E|].
    cbn [flow_to ins ins_a]. rewrite as_idx_small by done. by apply refines_ret.
Qed.

Ltac sub_expr := eapply refines_bind; [by eapply gen_correct|]; intros [??] ? _; unfold pushed; cbn [fst snd].
Ltac place_stmt := unfold after_stmt, gen_stmts; cbn [gen_stmt]; repeat first [rewrite length_app | progress cbn [length]];
  apply (f_equal2 pair); [lia|done].

Lemma gen_simple (s : stmt) :
  match s with SVar _ _ | SInc _ _ | SExpr _ | SReturn _ => stmt_gen_ok s | _ => True end.
Proof.
  destruct s as [slot e|slot amount|e|e| |]; try done; intros n pc stk ls c Hc Hok; simpl in Hok; split_ok;
    cbn [gen_stmt] in *; cut_code; cbn [exec]; unfold lift; [sub_expr| |sub_expr|sub_expr].
  - go (Next (MkFrame (z :: stk) (store_slot slot z l))). rewrite <- Nat.add_1_r.
    go (Next (MkFrame stk (store_slot slot z l))). apply refines_ret. place_stmt.
  - eapply refines_then; [eapply (refines_op _ _ _ _ _ _ (fun ls => Next (MkFrame stk ls)));
      [done|by cbn; rewrite Hok|reflexivity]|].
    intros ls1 c1 _. apply refines_ret. cbn [flow_to]. place_stmt.
  - go (Next (MkFrame stk l)). apply refines_ret. place_stmt.
  - exists 1%nat. intros k. pose proof (one_step k _ (MkFrame (z :: stk) l) c' _ H0 eq_refl) as H1.
    injection H1 as Ha Hb. done.
Qed.

(** A jump instruction whose target is known. *)
Ltac jump target := eapply (refines_go _ _ _ _ _ (To (JsCompile.as_idx target) _)); [done|done|reflexivity|];
  cbn [flow_to]; rewrite as_idx_small by lia.

Lemma gen_if (c : tree) (body : list stmt) (orelse : option (list stmt)) :
  Forall stmt_gen_ok body -> Forall stmt_gen_ok (else_list orelse) -> stmt_gen_ok (SCond c body orelse).
Proof.
  intros IHb IHo n pc stk ls cx Hc Hok. destruct orelse as [orelse|]; simpl in Hok; split_ok; cbn [exec].
  - cbn [gen_stmt] in *. set (nb := (pc + length (gen pc c) + 1)%nat) in *.
    set (ne := (nb + length (gen_seq gen_stmt nb body) + 1)%nat) in *. cut_code. pose proof (code_at_end _ _ Hc) as He.
    eapply refines_xbind; [eapply gen_test; [done|done|unfold ne, nb in *; lia|done]|].
    intros [b ls1] c1 _. unfold tested. cbn [fst snd]. destruct b.
    + fold nb. eapply refines_then; [by apply gen_stmts_ok|]. intros ls2 c2 _. unfold after_stmt at 1.
      jump (ne + length (gen_seq gen_stmt ne orelse))%nat. apply refines_ret. unfold ne, nb. place_stmt.
    + eapply refines_then; [by apply gen_stmts_ok|]. intros ls2 c2 _. apply refines_ret. unfold ne, nb in *. place_stmt.
  - cbn [gen_stmt] in *. set (nb := (pc + length (gen pc c) + 1)%nat) in *. cut_code.
    pose proof (code_at_end _ _ Hc) as He.
    eapply refines_xbind; [eapply gen_test; [done|done|done|done]|].
    intros [b ls1] c1 _. unfold tested. cbn [fst snd]. destruct b.
    + fold nb. eapply refines_then; [by apply gen_stmts_ok|]. intros ls2 c2 _. apply refines_ret. unfold nb. place_stmt.
    + apply refines_ret. unfold nb. place_stmt.
Qed.

(** A loop of the machine at [pc]: the test, the body from [start], and a jump back. *)
Lemma loop_ok (n pc start back fin : nat) (stk : list Value) (test : Locals -> M (bool * Locals)) (body : Locals -> X Locals) :
  (forall ls c, refines n (pc, MkFrame stk ls, c) (Some (test ls c)) (tested start fin stk)) ->
  (forall ls c, refines n (start, MkFrame stk ls, c) (body ls c) (after_stmt back stk)) ->
  code f !! back = Some (ins OpCode.Jump (JsCompile.as_idx pc)) -> (pc <= length (code f))%nat ->
  forall m ls c, (m <= n)%nat -> refines m (pc, MkFrame stk ls, c) (exec_loop m test body ls c) (after_stmt fin stk).
Proof.
  intros Ht Hb Hj Hpc m. induction m as [|m IH]; intros ls c Hm; [done|]. cbn [exec_loop].
  eapply refines_xbind; [eapply refines_less; [exact Hm|apply Ht]|].
  intros [b ls1] c1 _. unfold tested. cbn [fst snd]. destruct b; [|by apply refines_ret].
  eapply refines_xbind; [eapply refines_less; [exact Hm|apply Hb]|]. intros ls2 c2 _.
  eapply (refines_jump _ _ _ _ _ (To (JsCompile.as_idx pc) (MkFrame stk ls2))); [exact Hj|done|reflexivity|].
  cbn [flow_to]. rewrite as_idx_small by done. apply IH. lia.
Qed.

Lemma gen_loop (c : option tree) (body : list stmt) : Forall stmt_gen_ok body -> stmt_gen_ok (SLoop c body).
Proof.
  intros IH n pc stk ls cx Hc Hok. destruct c as [c|]; simpl in Hok; split_ok; cbn [exec gen_stmt] in *.
  - set (nb := (pc + length (gen pc c) + 1)%nat) in *. cut_code. pose proof (code_at_end _ _ Hc) as He.
    eapply refines_then; [eapply (loop_ok n pc nb (nb + length (gen_seq gen_stmt nb body))
      (nb + length (gen_seq gen_stmt nb body) + 1)); try done|].
    + intros ls1 c1. apply gen_test; [done..|unfold nb in *; cbn in He; lia|done].
    + intros ls1 c1. by apply gen_stmts_ok.
    + unfold nb in *. lia.
    + intros ls1 c1 _. apply refines_ret. unfold nb. place_stmt.
  - cut_code. pose proof (code_at_end _ _ Hc) as He.
    eapply refines_then; [eapply (loop_ok n pc pc (pc + length (gen_seq gen_stmt pc body))
      (pc + length (gen_seq gen_stmt pc body) + 1)); try done|].
    + intros ls1 c1. by apply refines_ret.
    + intros ls1 c1. by apply gen_stmts_ok.
    + lia.
    + intros ls1 c1 _. apply refines_ret. place_stmt.
Qed.

Lemma gen_stmt_correct (s : stmt) : stmt_gen_ok s.
Proof.
  induction s using stmt_ind'; [exact (gen_simple (SVar _ _))|exact (gen_simple (SInc _ _))|exact (gen_simple (SExpr _))|
    exact (gen_simple (SReturn _))|by apply gen_if|by apply gen_loop].
Qed.

(** ** Whole functions *)

Section Body.
Context (body : list stmt) (Hcode : code f = gen_stmts 0 body) (Hok : forallb (stmt_ok nl nc) body = true).

Lemma body_refines (n : nat) (ls : Locals) (c : Ctx) :
  refines n (0%nat, MkFrame [] ls, c) (exec_all f global n body ls c) (after_stmt (length (code f)) []).
Proof.
  rewrite Hcode. apply (gen_stmts_ok body); [apply Forall_forall; eauto using gen_stmt_correct| |done].
  exists [], []. by rewrite Hcode, app_nil_r.
Qed.

Lemma runs_off_end (n : nat) (fr : Frame) (c : Ctx) :
  safe n (length (code f), fr, c) = true /\ runs (S n) (length (code f), fr, c) = Some (Returned (UNDEFINED W), c).
Proof.
  unfold runs, safe. cbn [run_loop fst snd]. rewrite lookup_ge_None_2 by done. split; [|done].
  destruct n; [done|]. cbn [safe_run]. by rewrite lookup_ge_None_2.
Qed.

Lemma body_ends (n : nat) (ls : Locals) (c : Ctx) (r : Out Locals) (c' : Ctx) :
  exec_all f global n body ls c = Some (r, c') ->
  ends (0%nat, MkFrame [] ls, c) (end_of r) c'.
Proof.
  intros E. pose proof (body_refines n ls c) as H. rewrite E in H. destruct r as [ls'|v|]; [|done..].
  destruct H as [k Hk]. exists (k + 1)%nat. intros m. rewrite <- Nat.add_assoc.
  destruct (Hk (1 + m)%nat) as [-> ->]. unfold after_stmt. by split; apply runs_off_end.
Qed.

Lemma body_safe (n : nat) (ls : Locals) (c : Ctx) : safe n (0%nat, MkFrame [] ls, c) = true.
Proof.
  destruct (exec_all f global n body ls c) as [[r c']|] eqn:E.
  - apply body_ends in E as [k Hk]. apply (safe_less n k). rewrite Nat.add_comm. apply Hk.
  - pose proof (body_refines n ls c) as H. rewrite E in H. apply H.
Qed.

Lemma body_runs (ls : Locals) (c : Ctx) (e : End) (c' : Ctx) :
  (exists fuel, runs fuel (0%nat, MkFrame [] ls, c) = Some (e, c')) <->
  (exists n r, exec_all f global n body ls c = Some (r, c') /\ e = end_of r).
Proof.
  split.
  - intros [fuel Hr]. pose proof (body_refines fuel ls c) as H.
    destruct (exec_all f global fuel body ls c) as [[r c1]|] eqn:E; [|by destruct H; congruence].
    exists fuel, r. apply body_ends in E as E2. destruct E2 as [k Hk]. destruct (Hk fuel) as [H1 _].
    apply (runs_more _ k) in Hr. rewrite Nat.add_comm in Hr. rewrite H1 in Hr. by simplify_eq.
  - intros (n & r & E & ->). apply body_ends in E as [k Hk]. exists (k + 0)%nat. apply Hk.
Qed.
End Body.
End Sim.
