(* ===== verification/JsRun.v ===== *)
(** * JsRun: compiled functions, from source text to result

    [JsCompile] and [JsVm] together: the compiler ends on every text, the code of a function it
    accepts is the code of a statement list, and the machine's run of it is that list's
    evaluation.  The last part runs small programs, among them the ones the compiler gets
    wrong. *)
From S2P Require Import Prelude JsText JsFloat JsValue JsMem JsScope JsSource JsObject JsBytecode JsCompile JsTree JsCompileSpec JsCompileTotal JsApi JsVm JsVmSpec.

(** ** The compiler ends *)

Lemma run_not_none {A} (m : P A) (st : CState) : always m ->
  match m st with Some (r, st) => Some (r, cs_ctx st) | None => None end <> None.
Proof. intros H. specialize (H st). by destruct (m st) as [[? ?]|]. Qed.

(** C17: The compiler terminates on every input: the fuel of the model, twelve levels of grammar
    productions per byte of expression and one level of statement per byte of text, is never
    used up, neither by a function's statements nor by a program's expression. *)
Theorem compiler_total (params stmts : list bytes) (src : bytes) (c : Ctx) :
  compile_function params stmts c <> None /\ compile_program src c <> None.
Proof.
  split; apply run_not_none.
  - apply always_bind; [apply add_params_always|intros _; apply compile_stmts_always].
  - destruct (is_simple_string_literal _); [always_auto|].
    apply always_bind; [apply compile_full_expr_always|intros _; always_auto].
Qed.

(** ** What it accepts *)

(** Parameters take the first slots; a name that comes twice has one slot. *)
Definition add_slot (ls : list bytes) (n : bytes) : list bytes := if bool_decide (n ∈ ls) then ls else ls ++ [n].
Definition param_slots (params : list bytes) : list bytes :=
  fold_left add_slot params [].
Definition fitting (f : BytecodeFunction) (body : list stmt) : Prop :=
  code f = gen_stmts 0 body /\ forallb (stmt_ok (length (locals f)) (length (constants f))) body = true.


Lemma find_local_elem (ls : list bytes) (name : bytes) :
  find_local_in ls name = None <-> name ∉ ls.
Proof.
  unfold find_local_in. rewrite fmap_None.
  induction ls as [|l ls IH]; simpl; [set_solver|]. rewrite not_elem_of_cons.
  destruct (decide (l = name)) as [->|Hne]; [by rewrite bool_decide_true by done; naive_solver|].
  rewrite bool_decide_false by done. rewrite fmap_None, IH. naive_solver.
Qed.

Lemma add_params_slots (names : list bytes) (st : CState) (x : unit) (st' : CState) :
  add_params names st = Some (Ok x, st') ->
  locals (cs_func st') = fold_left add_slot names (locals (cs_func st)) /\
  code (cs_func st') = code (cs_func st) /\ constants (cs_func st') = constants (cs_func st).
Proof.
  revert st. induction names as [|n names IH]; intros st H; [by injection H as <- <-|].
  apply bind_ok in H as (s & st1 & H1 & (-> & -> & ->)%IH). simpl.
  enough (H : locals (cs_func st1) = add_slot (locals (cs_func st)) n /\ code (cs_func st1) = code (cs_func st) /\
    constants (cs_func st1) = constants (cs_func st)) by (by destruct H as (-> & -> & ->)).
  unfold ensure_local in H1. apply bind_ok in H1 as (f & st2 & [= <- <-] & H). unfold add_slot.
  destruct (find_local_in _ n) as [i|] eqn:Hf.
  - injection H as <- <-. rewrite bool_decide_true; [done|].
    destruct (decide (n ∈ locals (cs_func st))) as [|Hn]; [done|]. apply find_local_elem in Hn. congruence.
  - apply bind_ok in H as (u & st3 & H2 & H). injection H2 as <- <-. injection H as <- <-.
    apply find_local_elem in Hf. by rewrite bool_decide_false.
Qed.

Lemma fitting_does (f f' : BytecodeFunction) :
  does f f' -> code f = [] -> exists body, fitting f' body.
Proof.
  intros (l & [Hc _ _] & Hok) E. exists l. split; [|done].
  rewrite Hc, E. unfold pos. by rewrite E.
Qed.

(** C15: A function the compiler accepts is one function whose code is exactly the code of a list of
    statement trees (each construct's operands, jumps and stack effects in place), every slot
    and constant index in range, with the parameters in the first local slots. *)
Theorem compiled_code_is_a_tree (params stmts : list bytes) (c c' : Ctx) (m : BytecodeModule) :
  compile_function params stmts c = Some (Ok m, c') ->
  exists f body vars, m = new_module f /\ fitting f body /\ locals f = param_slots params ++ vars.
Proof.
  unfold compile_function. intros H.
  destruct ((add_params params ;> compile_stmts stmts) _) as [[r st]|] eqn:E; [|done].
  simplify_eq. apply bind_ok in E as (u & st1 & (El & Ec & _)%add_params_slots & [-> Hd]%compile_stmts_ok).
  destruct (fitting_does _ _ Hd Ec) as [body Hf]. destruct Hd as (l & [_ [ls Hl] _] & _).
  exists (cs_func st), body, ls. split; [done|]. split; [done|]. by rewrite Hl, El.
Qed.

(** *** [compile_program] *)

Definition returns_expr (f : BytecodeFunction) (m : BytecodeModule) (f' : BytecodeFunction) : Prop :=
  exists e, m = new_module f' /\ grows f (gen (pos f) e ++ [op0 OpCode.Return]) f' /\ fits f' e = true.

Lemma return_ok (st st1 st' : CState) (m : BytecodeModule) (e : tree) :
  grows (cs_func st) (gen (pos (cs_func st)) e) (cs_func st1) -> fits (cs_func st1) e = true ->
  (emit_op OpCode.Return ;> f <~ get_func ;; ret (new_module f)) st1 = Some (Ok m, st') ->
  returns_expr (cs_func st) m (cs_func st').
Proof.
  intros G1 F1 E. apply bind_ok in E as (u2 & st2 & G2%emit_op_ok & E). apply bind_ok in E as (f & st3 & H3 & E).
  injection H3 as <- <-. injection E as <- <-. exists e. split; [done|].
  split; [exact (grows_trans _ _ _ _ _ G1 G2)|by eapply grows_fits].
Qed.

Lemma emit_pushed_ok (k : P Z) (st st' : CState) (m : BytecodeModule) :
  (forall st i st', k st = Some (Ok i, st') -> grows (cs_func st) [] (cs_func st') /\ below (nconsts (cs_func st')) i = true) ->
  (idx <~ k ;; emit_inst OpCode.Const idx ;> emit_op OpCode.Return ;> f <~ get_func ;; ret (new_module f)) st = Some (Ok m, st') ->
  returns_expr (cs_func st) m (cs_func st').
Proof.
  intros Hk E. apply bind_ok in E as (i & st1 & [G1 B1]%Hk & E). apply bind_ok in E as (u & st2 & G2%emit_inst_ok & E).
  eapply (return_ok st st2 st' m (TConst i)); [exact (grows_trans _ _ _ _ _ G1 G2)| |exact E].
  by eapply grows_below.
Qed.

Lemma compile_program_fits (src : bytes) (c c' : Ctx) (m : BytecodeModule) :
  compile_program src c = Some (Ok m, c') ->
  exists f e, m = new_module f /\ fitting f [SReturn e].
Proof.
  unfold compile_program. set (st0 := MkCState c (new_function None) []). intros H.
  destruct (_ st0) as [[r st]|] eqn:E; [|done]. simplify_eq.
  enough (G : returns_expr (new_function None) m (cs_func st)).
  { destruct G as (e & -> & [Hc _ _] & Hok). exists (cs_func st), e. split; [done|].
    split; [by rewrite Hc; simpl; rewrite app_nil_r|]. simpl. by rewrite andb_true_r. }
  destruct (is_simple_string_literal _).
  - apply bind_ok in E as (v & st1 & H1%quiet_on_ctx & E).
    apply (emit_pushed_ok (push_const v)) in E; [|apply push_const_ok]. by rewrite H1 in E.
  - apply bind_ok in E as (u & st1 & (e & G1 & F1)%compile_full_expr_ok & E).
    apply (return_ok _ _ _ _ e G1 F1) in E. exact E.
Qed.

(** ** What its code computes *)

Section Runs.
Context `{Host : JsHost}.

Definition enter (f : BytecodeFunction) (args : list Value) : Frame := MkFrame [] (init_slots (length (locals f)) args).

Lemma run_enter (fuel : nat) (f : BytecodeFunction) (args : list Value) (c : Ctx) :
  run_module_with_locals fuel (new_module f) args c = run_loop fuel f (global_object (scope c)) 0 (enter f args) c.
Proof. done. Qed.

(** C7: The machine computes what the trees mean.  A run of a compiled function (of fewer than 2^32
    instructions) ends with a result and a
    context exactly when the evaluation of its statements does: each expression left to right
    to one value, conditionals on truthiness, loops round by round, [return] and errors ending
    the run, the result [undefined] when no statement returns. *)
Theorem run_is_evaluation (f : BytecodeFunction) (body : list stmt) (args : list Value) (c : Ctx) (e : End) (c' : Ctx) :
  fitting f body -> Z.of_nat (length (code f)) < 2 ^ 32 ->
  (exists fuel, run_module_with_locals fuel (new_module f) args c = Some (e, c')) <->
  (exists n r, exec_all f (global_object (scope c)) n body (init_slots (length (locals f)) args) c = Some (r, c') /\
    e = end_of r).
Proof. intros [Hc Hok] Hs. exact (body_runs f _ Hs body Hc Hok _ c e c'). Qed.

(** C16: No instruction a compiled function of fewer than 2^32 instructions ever reaches lacks its
    operands: on any arguments, in any context and for any number of steps, loops that do not end
    included, the operand stack holds what the instruction pops, its constant index is in the pool
    and its slot among the locals.  So the machine never throws [bytecode stack underflow] (nor the
    variants of CALL and CALL_METHOD) nor [bytecode const out of range], and never indexes past its
    locals.  (The name of a global that is no longer a string, and lack of memory, are other errors,
    which a context can still provoke.) *)
Theorem compiled_functions_never_underflow (params stmts : list bytes) (c0 c1 : Ctx) (f : BytecodeFunction)
    (args : list Value) (c : Ctx) (fuel : nat) :
  compile_function params stmts c0 = Some (Ok (new_module f), c1) -> Z.of_nat (length (code f)) < 2 ^ 32 ->
  safe_run fuel f (global_object (scope c)) 0 (enter f args) c = true.
Proof.
  unfold compile_function. intros H Hs.
  destruct ((add_params params ;> compile_stmts stmts) _) as [[r st]|] eqn:E; [|done]. simplify_eq.
  apply bind_ok in E as (u & st1 & (_ & Ec & _)%add_params_slots & [Em Hd]%compile_stmts_ok).
  unfold new_module in Em. simplify_eq. destruct (fitting_does _ _ Hd Ec) as [body [Hc Hok]].
  exact (body_safe _ _ Hs body Hc Hok fuel _ c).
Qed.

Lemma fold_add_slot (names acc : list bytes) : NoDup (acc ++ names) -> fold_left add_slot names acc = acc ++ names.
Proof.
  revert acc. induction names as [|n names IH]; intros acc Hd; simpl; [by rewrite app_nil_r|].
  unfold add_slot at 2. rewrite bool_decide_false.
  - rewrite IH; rewrite <- app_assoc; done.
  - apply NoDup_app in Hd as (_ & Hd & _). intros Hn. apply (Hd n Hn). left.
Qed.

Lemma init_slots_lookup (n : nat) (args : list Value) (i : nat) : (i < n)%nat ->
  init_slots n args !! i = Some (default (UNDEFINED W) (args !! i)).
Proof.
  intros Hi. unfold init_slots. destruct (decide (i < length args)%nat) as [Hl|Hl].
  - rewrite lookup_app_l by (rewrite length_take; lia). rewrite lookup_take_lt by lia.
    destruct (lookup_lt_is_Some_2 args i Hl) as [v E]. by rewrite E.
  - rewrite (lookup_ge_None_2 args i) by lia. simpl. rewrite take_ge by lia.
    rewrite lookup_app_r by lia. apply lookup_replicate_2. lia.
Qed.

(** Parameters bind to arguments by position when their names differ and no argument is extra:
    the i-th parameter has the i-th slot, which starts as the i-th argument, as [undefined] when
    there are fewer, and every other local starts as [undefined]. *)
Theorem parameters_are_the_first_slots (params stmts : list bytes) (c0 c1 : Ctx) (f : BytecodeFunction)
    (args : list Value) (i : nat) :
  NoDup params -> compile_function params stmts c0 = Some (Ok (new_module f), c1) -> (length args <= length params)%nat ->
  (i < length (locals f))%nat ->
  (forall p, params !! i = Some p -> locals f !! i = Some p) /\
  slots (enter f args) !! i =
    Some (if decide (i < length params)%nat then default (UNDEFINED W) (args !! i) else UNDEFINED W).
Proof.
  intros Hd H Ha Hi. split.
  2: { unfold enter. cbn [slots]. rewrite init_slots_lookup by done. destruct (decide _); [done|].
       by rewrite (lookup_ge_None_2 args i) by lia. }
  intros p Hp. unfold compile_function in H.
  destruct ((add_params params ;> compile_stmts stmts) _) as [[r st]|] eqn:E; [|done]. simplify_eq.
  apply bind_ok in E as (u & st1 & (El & _ & _)%add_params_slots & [Em (l & [_ [ls Hl] _] & _)]%compile_stmts_ok).
  unfold new_module in Em. simplify_eq. rewrite Hl, El. cbn [cs_func locals new_function].
  rewrite fold_add_slot by done. simpl. apply lookup_app_l_Some. exact Hp.
Qed.
End Runs.

(** ** Small programs *)

Definition ctx0 : Ctx := let '(s, h) := context_new 4096 65536 in MkCtx h s (set_current_source [] []) no_caches [] Alive.
Definition int (n : Z) : Value := from_int32 W n.
Definition compiled_fn (params stmts : list bytes) : option (BytecodeFunction * Ctx) :=
  match compile_function params stmts ctx0 with
  | Some (Ok m, c) => f ← head (functions m); Some (f, c)
  | _ => None
  end.
(** Compile in a new context, then run: the result and the context after. *)
Definition call_source `{JsHost} (fuel : nat) (params stmts : list bytes) (args : list Value) : option (End * Ctx) :=
  '(f, c) ← compiled_fn params stmts;
  run_module_with_locals fuel (new_module f) args c.
Definition run_source `{JsHost} (fuel : nat) (src : bytes) : option (End * Ctx) :=
  match compile_program src ctx0 with
  | Some (Ok m, c) => run_module_with_locals fuel m [] c
  | _ => None
  end.
Definition result_of (r : option (End * Ctx)) : option End := fst <$> r.
(** A global after a run. *)
Definition global_after (name : bytes) (r : option (End * Ctx)) : option Value :=
  '(_, c) ← r; (get_property_str (global_object (scope c)) name (heap c)).1.

Section Programs.
Context `{Host : JsHost}.

Example sum_loop :
  result_of (call_source 200 [b! "n"]
    [b! "var s = 0"; b! "for (var i = 1; i <= n; i++) { s = s + i * i; }"; b! "return s"] [int 4]) = Some (Returned (int 30)).
Proof. vm_compute. reflexivity. Qed.

(** Compiled expressions are not JavaScript's in five ways a run shows.  [=] binds tighter than
    comparison and the conditional operator, so the variable gets the first operand; [&&] and
    [||] evaluate their right operand whatever the left one is; the remainder and the quotient
    of [i32::MIN] by -1 panic; and so does a property of a string that looks like a builtin's
    marker with a name over 32 bytes. *)
Theorem compiled_expressions_differ :
  (let r := run_source 20 (b! "x = 1 < 2") in
   result_of r = Some (Returned (TRUE W)) /\ global_after (b! "x") r = Some (int 1)) /\
  (let r := run_source 20 (b! "x = 1 ? 2 : 3") in
   result_of r = Some (Returned (int 2)) /\ global_after (b! "x") r = Some (int 1)) /\
  (let r := run_source 20 (b! "0 && (x = 1)") in
   result_of r = Some (Returned (int 0)) /\ global_after (b! "x") r = Some (int 1)) /\
  (let r := run_source 20 (b! "1 || (x = 1)") in
   result_of r = Some (Returned (int 1)) /\ global_after (b! "x") r = Some (int 1)) /\
  result_of (run_source 20 (b! "-2147483648 % -1")) = Some Panicked /\
  result_of (run_source 20 (b! "-2147483648 / -1")) = Some Panicked /\
  result_of (run_source 20 (b! "'__builtin_aaaaaaaaaaaaaaaaaaaaaaaaaaaaaaaaa__'.x")) = Some Panicked.
Proof. vm_compute. auto 10. Qed.

(** Compiled functions are not JavaScript's in how arguments arrive.  A repeated parameter name takes
    one slot, so the parameters after it read the argument before theirs; and an argument
    beyond the parameters starts a [var] declared without a value. *)
Theorem compiled_arguments_shift :
  result_of (call_source 20 [b! "a"; b! "a"; b! "b"] [b! "return b"] [int 10; int 20; int 30]) = Some (Returned (int 20)) /\
  result_of (call_source 20 [b! "a"] [b! "var b"; b! "return b"] [int 10; int 20]) = Some (Returned (int 20)).
Proof. vm_compute. auto. Qed.
End Programs.

(** [break] and [continue] do nothing in a compiled loop: the compiler takes the word for an
    expression, a global of that name to load and drop, and the loop goes on. *)
Theorem break_is_a_global_read (word : bytes) :
  word = b! "break" \/ word = b! "continue" ->
  exists f c, compiled_fn [] [b! "for (;;) { " ++ word ++ b! " }"] = Some (f, c) /\
    code f = gen_stmts 0 [SLoop None [SExpr (TGlobal 0)]; SReturn (TConst 1)] /\
    str_of c (constant f 0) = Some word.
Proof. intros [-> | ->]; eexists _, _; (split; [vm_compute; reflexivity|]); by vm_compute. Qed.

(** A literal's bytes are taken for Latin-1 characters: e acute, two bytes of UTF-8, becomes four. *)
Example literal_bytes_are_latin1 :
  (fun r => '(f, c) ← r; str_of c (constant f 0)) (compiled_fn [] [b! "return '" ++ [195; 169] ++ b! "'"]) =
  Some [195; 131; 194; 169].
Proof. vm_compute. reflexivity. Qed.

(** Two literals and what is between them, taken for one. *)
Example two_literals_are_one :
  match compile_program (b! "'a' + 'b'") ctx0 with
  | Some (Ok m, c) => (f ← head (functions m); str_of c (constant f 0)) = Some (b! "a' + 'b")
  | _ => False
  end.
Proof. vm_compute. reflexivity. Qed.

(** ** Witnesses *)

#[local] Existing Instance silent_host.

Definition sum_stmts : list bytes :=
  [b! "var s = 0"; b! "for (var i = 1; i <= n; i++) { s = s + i * i; }"; b! "return s"].
Definition sum_fn : BytecodeFunction := (default (new_function None, ctx0) (compiled_fn [b! "n"] sum_stmts)).1.
Definition sum_ctx : Ctx := (default (new_function None, ctx0) (compiled_fn [b! "n"] sum_stmts)).2.

Lemma compiled_code_is_a_tree_witness :
  compile_function [b! "n"] sum_stmts ctx0 = Some (Ok (new_module sum_fn), sum_ctx) /\
  exists f body vars, new_module sum_fn = new_module f /\ fitting f body /\ locals f = param_slots [b! "n"] ++ vars.
Proof.
  assert (H : compile_function [b! "n"] sum_stmts ctx0 = Some (Ok (new_module sum_fn), sum_ctx)) by (vm_compute; reflexivity).
  split; [exact H|]. exact (compiled_code_is_a_tree _ _ _ _ _ H).
Defined.

Lemma compiled_functions_never_underflow_witness :
  Z.of_nat (length (code sum_fn)) < 2 ^ 32 /\
  safe_run 1000 sum_fn (global_object (scope sum_ctx)) 0 (enter sum_fn [int 4]) sum_ctx = true.
Proof.
  assert (H : Z.of_nat (length (code sum_fn)) < 2 ^ 32) by (vm_compute; reflexivity). split; [exact H|].
  apply (compiled_functions_never_underflow [b! "n"] sum_stmts ctx0 sum_ctx); [vm_compute; reflexivity|exact H].
Defined.

Lemma parameters_are_the_first_slots_witness :
  (forall p, [b! "n"] !! 0%nat = Some p -> locals sum_fn !! 0%nat = Some p) /\
  slots (enter sum_fn [int 4]) !! 0%nat = Some (int 4).
Proof.
  assert (H : (0 < length (locals sum_fn))%nat) by (vm_compute; lia).
  apply (parameters_are_the_first_slots [b! "n"] sum_stmts ctx0 sum_ctx sum_fn [int 4] 0);
    [apply NoDup_singleton|vm_compute; reflexivity|simpl; lia|exact H].
Defined.

Lemma break_is_a_global_read_witness :
  exists f c, compiled_fn [] [b! "for (;;) { " ++ b! "break" ++ b! " }"] = Some (f, c) /\
    code f = gen_stmts 0 [SLoop None [SExpr (TGlobal 0)]; SReturn (TConst 1)] /\
    str_of c (constant f 0) = Some (b! "break").
Proof. apply (break_is_a_global_read (b! "break")). by left. Defined.

(** A hand-written body: a slot, doubled until it passes 100. *)
Definition double_body : list stmt :=
  [SLoop (Some (TBinary OpCode.Lt (TLocal 0) (TConst 0))) [SExpr (TSetLocal 0 (TBinary OpCode.Add (TLocal 0) (TLocal 0)))];
   SReturn (TLocal 0)].
Definition double_fn : BytecodeFunction :=
  {| fn_name := None; code := gen_stmts 0 double_body; constants := [int 100]; string_constants := [];
     locals := [b! "x"]; stack_size := 0 |}.
Lemma run_is_evaluation_witness :
  fitting double_fn double_body /\
  exists fuel, run_module_with_locals fuel (new_module double_fn) [int 7] ctx0 = Some (Returned (int 112), ctx0).
Proof.
  assert (H : fitting double_fn double_body) by (split; vm_compute; reflexivity). split; [exact H|].
  apply (run_is_evaluation double_fn double_body [int 7] ctx0 (Returned (int 112)) ctx0 H); [vm_compute; reflexivity|].
  exists 10%nat, (Halt (int 112)). split; vm_compute; reflexivity.
Defined.
