(* ===== verification/JsJson.v ===== *)
(** * JsJson: JSON text to values and back

    [src/json.rs].  The parser builds values as it reads: it threads the context, and a failure
    keeps what was allocated.  [None] on the outside is out of fuel ([JsJsonSpec] shows the
    parser never is; the writer follows the heap's references, and may be). *)
From Stdlib Require Import SpecFloat.
From S2P Require Import Prelude IntCodec Utf8 ServerArgs JsText JsFloat JsValue JsMem JsProps JsArray JsAtom JsObject JsScope JsSource JsBytecode JsApi.

(** ** Reading: strings and numbers *)

Definition json_space (b : Z) : bool := (b =? 32) || (b =? LF) || (b =? CR) || (b =? 9).
(** [JsonParser::skip_ws] *)
Definition json_ws (l : bytes) : bytes := drop_while json_space l.
(** [JsonParser::expect] *)
Definition json_expect (b : Z) (l : bytes) : option bytes :=
  match l with x :: l' => if x =? b then Some l' else None | [] => None end.

Definition is_high_surrogate (code : Z) : bool := in_range 55296 56319 code.
Definition is_low_surrogate (code : Z) : bool := in_range 56320 57343 code.
Definition hex_val (b : Z) : option Z := d ← hex_digit b; if d <? 16 then Some d else None.
(** [parse_hex4] of four bytes. *)
Definition hex4 (a b c d : Z) : option Z :=
  a ← hex_val a; b ← hex_val b; c ← hex_val c; d ← hex_val d;
  Some (Z.lor (Z.shiftl (Z.lor (Z.shiftl (Z.lor (Z.shiftl a 4) b) 4) c) 4) d).

Definition simple_escape (e : Z) : option Z :=
  if (e =? c_dquote) || (e =? c_backslash) || (e =? 47) then Some e
  else if e =? 98 then Some 8 else if e =? 102 then Some 12 else if e =? 110 then Some 10
  else if e =? 114 then Some 13 else if e =? 116 then Some 9 else None.

Definition prepend (p : bytes) (r : option (bytes * bytes)) : option (bytes * bytes) :=
  '(s, l) ← r; Some (p ++ s, l).

(** The body of [parse_string_bytes], after the opening quote. *)
Fixpoint string_body (l : bytes) : option (bytes * bytes) :=
  match l with
  | [] => None
  | b :: l1 =>
      if b =? c_dquote then Some ([], l1)
      else if b =? c_backslash then
        match l1 with
        | [] => None
        | e :: l2 =>
            match simple_escape e with
            | Some ch => prepend [ch] (string_body l2)
            | None =>
                if negb (e =? 117) then None
                else
                  match l2 with
                  | h1 :: h2 :: h3 :: h4 :: l3 =>
                      match hex4 h1 h2 h3 h4 with
                      | None => None
                      | Some code =>
                          if is_high_surrogate code then
                            match l3 with
                            | x :: y :: k1 :: k2 :: k3 :: k4 :: l4 =>
                                if (x =? c_backslash) && (y =? 117) then
                                  match hex4 k1 k2 k3 k4 with
                                  | Some low =>
                                      if is_low_surrogate low then
                                        match char_from_u32 (65536 + Z.lor (Z.shiftl (code - 55296) 10) (low - 56320)) with
                                        | Some ch => prepend (utf8_encode ch) (string_body l4)
                                        | None => None
                                        end
                                      else None
                                  | None => None
                                  end
                                else None
                            | _ => None
                            end
                          else if is_low_surrogate code then None
                          else
                            match char_from_u32 code with
                            | Some ch => prepend (utf8_encode ch) (string_body l3)
                            | None => None
                            end
                      end
                  | _ => None
                  end
            end
        end
      else if b <? 32 then None
      else prepend [b] (string_body l1)
  end.
Definition parse_string_bytes (l : bytes) : option (bytes * bytes) := l ← json_expect c_dquote l; string_body l.

(** At least one digit. *)
Definition some_digits (l : bytes) : option (bytes * bytes) :=
  match take_digits l with ([], _) => None | r => Some r end.
Definition number_whole (l : bytes) : option (bytes * bytes) :=
  match l with
  | b :: l' => if b =? c_0 then Some ([b], l') else some_digits l
  | [] => None
  end.
Definition number_frac (l : bytes) : option (bytes * bytes) :=
  match json_expect 46 l with
  | Some l' => prepend [46] (some_digits l')
  | None => Some ([], l)
  end.
Definition number_exp (l : bytes) : option (bytes * bytes) :=
  match l with
  | e :: l1 =>
      if (e =? 101) || (e =? 69) then
        match l1 with
        | s :: l2 =>
            if (s =? c_plus) || (s =? c_minus) then prepend [e; s] (some_digits l2) else prepend [e] (some_digits l1)
        | [] => None
        end
      else Some ([], l)
  | [] => Some ([], [])
  end.
(** The text [parse_number] cuts out, and its value. *)
Definition number_text (l : bytes) : option (bytes * bytes) :=
  let '(sign, l) := match json_expect c_minus l with Some l' => ([c_minus], l') | None => ([], l) end in
  '(w, l) ← number_whole l; '(f, l) ← number_frac l; '(e, l) ← number_exp l; Some (sign ++ w ++ f ++ e, l).
Definition parse_json_number (l : bytes) : option (f64 * bytes) :=
  '(s, l) ← number_text l; x ← f64_from_str s; Some (x, l).

(** ** Reading: values *)

Definition js_new_array (initial_len : Z) (c : Ctx) : Value * Ctx :=
  if initial_len <? 0 then (EXCEPTION W, c)
  else
    let '(r, c) := on_heap (new_array initial_len) c in
    match r with Some v => (v, c) | None => js_throw_out_of_memory c end.
Definition js_array_push `{JsHost} (arr elem : Value) (c : Ctx) : Value * Ctx :=
  let '(r, c) := on_heap (array_push arr elem) c in
  match r with
  | Some len => (len_value len, c)
  | None => js_throw_error CLASS_TYPE_ERROR (b! "not an array") c
  end.

Section Json.
Context `{Host : JsHost}.

(** A reader of the input left and the context. *)
Definition J (A : Type) : Type := bytes -> Ctx -> option (option (A * bytes) * Ctx).
Definition jfail {A} (c : Ctx) : option (option (A * bytes) * Ctx) := Some (None, c).

(** [parse_value], and the loops of [parse_array] and [parse_object] over the value they fill. *)
Inductive JProd := JValue | JElems (arr : Value) | JMembers (obj : Value).

Section Productions.
Context (rec : JProd -> J Value).

Definition json_array : J Value := fun l c =>
  let l := json_ws l in
  let '(arr, c) := js_new_array 0 c in
  if is_exception W arr then jfail c
  else
    match json_expect c_rbracket l with
    | Some l => Some (Some (arr, l), c)
    | None => rec (JElems arr) l c
    end.
Definition json_elems (arr : Value) : J Value := fun l c =>
  match rec JValue l c with
  | None => None
  | Some (None, c) => jfail c
  | Some (Some (val, l), c) =>
      let '(res, c) := js_array_push arr val c in
      if is_exception W res then jfail c
      else
        let l := json_ws l in
        match json_expect 44 l, json_expect c_rbracket l with
        | Some l, _ => rec (JElems arr) (json_ws l) c
        | None, Some l => Some (Some (arr, l), c)
        | None, None => jfail c
        end
  end.

Definition json_object : J Value := fun l c =>
  let l := json_ws l in
  let '(obj, c) := js_new_object c in
  if is_exception W obj then jfail c
  else
    match json_expect c_rbrace l with
    | Some l => Some (Some (obj, l), c)
    | None => rec (JMembers obj) l c
    end.
(** A key, up to its colon. *)
Definition json_key (l : bytes) : option (bytes * bytes) :=
  '(key_bytes, l) ← parse_string_bytes (json_ws l);
  key ← from_utf8 key_bytes;
  l ← json_expect 58 (json_ws l); Some (key, l).
Definition json_members (obj : Value) : J Value := fun l c =>
  match json_key l with
  | None => jfail c
  | Some (key, l) =>
      match rec JValue l c with
      | None => None
      | Some (None, c) => jfail c
      | Some (Some (val, l), c) =>
          let '(res, c) := js_set_property_str obj key val c in
          if is_exception W res then jfail c
          else
            let l := json_ws l in
            match json_expect 44 l, json_expect c_rbrace l with
            | Some l, _ => rec (JMembers obj) l c
            | None, Some l => Some (Some (obj, l), c)
            | None, None => jfail c
            end
      end
  end.

Definition json_literal (lit : bytes) (v : Value) : J Value := fun l c =>
  match strip_prefix lit l with Some l => Some (Some (v, l), c) | None => jfail c end.
Definition json_value : J Value := fun l c =>
  match json_ws l with
  | [] => jfail c
  | b :: l1 =>
      if b =? c_lbrace then json_object l1 c
      else if b =? c_lbracket then json_array l1 c
      else if b =? c_dquote then
        match ('(bs, l) ← parse_string_bytes (b :: l1); s ← from_utf8 bs; Some (s, l)) with
        | None => jfail c
        | Some (s, l) => let '(v, c) := js_new_string s c in Some (Some (v, l), c)
        end
      else if (b =? c_minus) || is_digit b then
        match parse_json_number (b :: l1) with
        | None => jfail c
        | Some (x, l) => let '(v, c) := number_to_value x c in Some (Some (v, l), c)
        end
      else if b =? 116 then json_literal (b! "true") (TRUE W) (b :: l1) c
      else if b =? 102 then json_literal (b! "false") (FALSE W) (b :: l1) c
      else if b =? 110 then json_literal (b! "null") (NULL W) (b :: l1) c
      else jfail c
  end.
End Productions.

Fixpoint json_run (fuel : nat) (p : JProd) : J Value :=
  match fuel with
  | O => fun _ _ => None
  | S fuel' =>
      let rec := json_run fuel' in
      match p with
      | JValue => json_value rec
      | JElems arr => json_elems rec arr
      | JMembers obj => json_members rec obj
      end
  end.

(** Two productions for each byte of input. *)
Definition json_fuel (l : bytes) : nat := 2 * S (length l).
Definition parse_json (src : bytes) (c : Ctx) : option (option Value * Ctx) :=
  match json_run (json_fuel src) JValue src c with
  | None => None
  | Some (None, c) => Some (None, c)
  | Some (Some (v, l), c) => Some (match json_ws l with [] => Some v | _ => None end, c)
  end.

(** ** Writing *)

Definition escape_byte (b : Z) : bytes :=
  if b =? c_dquote then [c_backslash; c_dquote] else if b =? c_backslash then [c_backslash; c_backslash]
  else if b =? LF then [c_backslash; 110] else if b =? CR then [c_backslash; 114]
  else if b =? 9 then [c_backslash; 116] else [b].
(** The escapes are of ASCII characters, so they are byte by byte. *)
Definition quoted (s : bytes) : bytes := c_dquote :: concat (escape_byte <$> s) ++ [c_dquote].
Definition f64_is_finite (x : f64) : bool := match x with S754_nan | S754_infinity _ => false | _ => true end.
Definition number_shown (x : f64) : bytes := if f64_is_finite x then f64_to_string x else b! "null".

(** A value alone, or [None] when its parts have to be written. *)
Definition write_leaf (in_array : bool) (v : Value) (c : Ctx) : option (option bytes) * Ctx :=
  match str_of c v with
  | Some bs => (Some (Some (quoted (default [] (from_utf8 bs)))), c)
  | None =>
      if js_is_number c v then
        let '(n, c) := js_to_number v c in
        (Some (Some (match n with Some n => number_shown n | None => b! "null" end)), c)
      else if is_bool v then (Some (Some (if v =? TRUE W then b! "true" else b! "false")), c)
      else if is_null W v then (Some (Some (b! "null")), c)
      else
        let absent := if in_array then Some (b! "null") else None in
        if is_undefined W v then (Some absent, c)
        else
          let '(isf, c) := js_is_function v c in
          (if isf : bool then Some absent else None, c)
  end.

Definition join (parts : list bytes) : bytes :=
  match parts with [] => [] | p :: ps => p ++ concat ((fun q => 44 :: q) <$> ps) end.
Definition braces (l r : Z) (parts : list bytes) : bytes := l :: join parts ++ [r].

Section Writer.
Context (rec : bool -> Value -> Ctx -> option (option bytes * Ctx)).

Fixpoint write_elems (arr : Value) (idxs : list nat) (c : Ctx) : option (list bytes * Ctx) :=
  match idxs with
  | [] => Some ([], c)
  | i :: idxs' =>
      let '(elem, c) := js_get_property_uint32 arr (Z.of_nat i) c in
      '(r, c) ← rec true elem c;
      '(rs, c) ← write_elems arr idxs' c;
      Some (default (b! "null") r :: rs, c)
  end.
(** Names are written as they are. *)
Definition member (key text : bytes) : bytes := c_dquote :: key ++ [c_dquote; 58] ++ text.
Fixpoint write_members (obj : Value) (keys : list bytes) (c : Ctx) : option (list bytes * Ctx) :=
  match keys with
  | [] => Some ([], c)
  | key :: keys' =>
      let '(v, c) := js_get_property_str obj key c in
      '(r, c) ← rec false v c;
      '(rs, c) ← write_members obj keys' c;
      Some (match r with Some text => member key text :: rs | None => rs end, c)
  end.

Definition write_value (in_array : bool) (v : Value) (c : Ctx) : option (option bytes * Ctx) :=
  let '(leaf, c) := write_leaf in_array v c in
  match leaf with
  | Some r => Some (r, c)
  | None =>
      if bool_decide (class_of c v = Some CLASS_ARRAY) then
        let '(len, c) := on_heap (get_property_str v s_length) c in
        let n := match len ≫= int32 W with Some n => Z.to_nat n | None => 0%nat end in
        '(parts, c) ← write_elems v (seq 0 n) c; Some (Some (braces c_lbracket c_rbracket parts), c)
      else
        '(parts, c) ← write_members v (default [] (object_keys (heap c) v)) c;
        Some (Some (braces c_lbrace c_rbrace parts), c)
  end.
End Writer.

Fixpoint json_stringify_inner (fuel : nat) (in_array : bool) (v : Value) (c : Ctx) : option (option bytes * Ctx) :=
  match fuel with
  | O => None
  | S fuel' => write_value (json_stringify_inner fuel') in_array v c
  end.
Definition json_stringify_value (fuel : nat) (v : Value) (c : Ctx) : option (option bytes * Ctx) :=
  json_stringify_inner fuel false v c.
End Json.
