(* ===== verification/JsJsonSpec.v ===== *)
(** * JsJsonSpec: JSON text, trees and values

    The reference is a tree: [read_text] reads text to a tree without a heap, [build] makes a
    tree's values in the heap, [print] writes a tree the way [json_stringify_value] writes
    values.  The parser of [JsJson] ends on every input, and it is [read_text] followed by
    [build]; and [read_text] reads back what [print] writes, for the trees whose text is
    JSON. *)
From Stdlib Require Import SpecFloat.
From S2P Require Import Prelude IntCodec Utf8 ServerArgs JsText JsFloat JsValue JsMem JsArray JsObject JsScope JsSource JsBytecode JsApi JsJson.

(** ** Trees *)

Inductive json :=
  | JNull
  | JBool (b : bool)
  | JNum (x : f64)
  | JStr (s : bytes)
  | JArr (l : list json)
  | JObj (l : list (bytes * json)).

Section JsonInd.
Context (Q : json -> Prop)
  (Hnull : Q JNull) (Hbool : forall b, Q (JBool b)) (Hnum : forall x, Q (JNum x)) (Hstr : forall s, Q (JStr s))
  (Harr : forall l, Forall Q l -> Q (JArr l)) (Hobj : forall l, Forall (fun kv => Q kv.2) l -> Q (JObj l)).
Fixpoint json_ind' (j : json) : Q j :=
  match j with
  | JNull => Hnull
  | JBool b => Hbool b
  | JNum x => Hnum x
  | JStr s => Hstr s
  | JArr l =>
      Harr l ((fix all (l : list json) : Forall Q l :=
        match l with [] => Forall_nil_2 _ | x :: l' => Forall_cons_2 _ _ _ (json_ind' x) (all l') end) l)
  | JObj l =>
      Hobj l ((fix all (l : list (bytes * json)) : Forall (fun kv => Q kv.2) l :=
        match l with [] => Forall_nil_2 _ | x :: l' => Forall_cons_2 _ _ _ (json_ind' x.2) (all l') end) l)
  end.
End JsonInd.

(** *** Text to tree *)

Fixpoint read_value (fuel : nat) (l : bytes) : option (option (json * bytes)) :=
  match fuel with
  | O => None
  | S fuel' =>
      match json_ws l with
      | [] => Some None
      | b :: l1 =>
          if b =? c_lbrace then
            match json_expect c_rbrace (json_ws l1) with
            | Some l => Some (Some (JObj [], l))
            | None =>
                r ← read_members fuel' (json_ws l1);
                Some ('(ms, l) ← r; Some (JObj ms, l))
            end
          else if b =? c_lbracket then
            match json_expect c_rbracket (json_ws l1) with
            | Some l => Some (Some (JArr [], l))
            | None =>
                r ← read_elems fuel' (json_ws l1);
                Some ('(js, l) ← r; Some (JArr js, l))
            end
          else if b =? c_dquote then
            Some ('(bs, l) ← parse_string_bytes (b :: l1); s ← from_utf8 bs; Some (JStr s, l))
          else if (b =? c_minus) || is_digit b then
            Some ('(x, l) ← parse_json_number (b :: l1); Some (JNum x, l))
          else if b =? 116 then Some (l ← strip_prefix (b! "true") (b :: l1); Some (JBool true, l))
          else if b =? 102 then Some (l ← strip_prefix (b! "false") (b :: l1); Some (JBool false, l))
          else if b =? 110 then Some (l ← strip_prefix (b! "null") (b :: l1); Some (JNull, l))
          else Some None
      end
  end
with read_elems (fuel : nat) (l : bytes) : option (option (list json * bytes)) :=
  match fuel with
  | O => None
  | S fuel' =>
      r ← read_value fuel' l;
      match r with
      | None => Some None
      | Some (j, l) =>
          let l := json_ws l in
          match json_expect 44 l, json_expect c_rbracket l with
          | Some l, _ => r ← read_elems fuel' (json_ws l); Some ('(js, l) ← r; Some (j :: js, l))
          | None, Some l => Some (Some ([j], l))
          | None, None => Some None
          end
      end
  end
with read_members (fuel : nat) (l : bytes) : option (option (list (bytes * json) * bytes)) :=
  match fuel with
  | O => None
  | S fuel' =>
      match json_key l with
      | None => Some None
      | Some (key, l) =>
          r ← read_value fuel' l;
          match r with
          | None => Some None
          | Some (j, l) =>
              let l := json_ws l in
              match json_expect 44 l, json_expect c_rbrace l with
              | Some l, _ => r ← read_members fuel' l; Some ('(ms, l) ← r; Some ((key, j) :: ms, l))
              | None, Some l => Some (Some ([(key, j)], l))
              | None, None => Some None
              end
          end
      end
  end.
(** The whole text is one value. *)
Definition read_text (src : bytes) : option json :=
  match read_value (json_fuel src) src with
  | Some (Some (j, l)) => match json_ws l with [] => Some j | _ => None end
  | _ => None
  end.

(** *** Tree to values *)

Section Build.
Context `{Host : JsHost}.

Section Parts.
Context (mk : json -> Ctx -> option Value * Ctx).
Fixpoint build_elems (arr : Value) (js : list json) (c : Ctx) : bool * Ctx :=
  match js with
  | [] => (true, c)
  | j :: js' =>
      match mk j c with
      | (None, c) => (false, c)
      | (Some v, c) =>
          let '(res, c) := js_array_push arr v c in
          if is_exception W res then (false, c) else build_elems arr js' c
      end
  end.
Fixpoint build_members (obj : Value) (ms : list (bytes * json)) (c : Ctx) : bool * Ctx :=
  match ms with
  | [] => (true, c)
  | (key, j) :: ms' =>
      match mk j c with
      | (None, c) => (false, c)
      | (Some v, c) =>
          let '(res, c) := js_set_property_str obj key v c in
          if is_exception W res then (false, c) else build_members obj ms' c
      end
  end.
End Parts.

(** The container is made first; [None] when it, a push or a write fails. *)
Definition build_into (make : Ctx -> Value * Ctx) (fill_ : Value -> Ctx -> bool * Ctx) (c : Ctx) : option Value * Ctx :=
  let '(v, c) := make c in
  if is_exception W v then (None, c)
  else let '(ok, c) := fill_ v c in (if ok : bool then Some v else None, c).
Definition built (r : Value * Ctx) : option Value * Ctx := (Some r.1, r.2).

Fixpoint build (j : json) (c : Ctx) : option Value * Ctx :=
  match j with
  | JNull => (Some (NULL W), c)
  | JBool b => (Some (if b then TRUE W else FALSE W), c)
  | JNum x => built (number_to_value x c)
  | JStr s => built (js_new_string s c)
  | JArr l => build_into (js_new_array 0) (fun arr => build_elems build arr l) c
  | JObj l => build_into js_new_object (fun obj => build_members build obj l) c
  end.
End Build.

(** ** The parser is the reader followed by the builder *)

Section Parse.
Context `{Host : JsHost}.

Definition parsed (l : bytes) (r : option Value * Ctx) : option (option (Value * bytes) * Ctx) :=
  Some ((fun v => (v, l)) <$> r.1, r.2).
Definition filled (v : Value) (l : bytes) (r : bool * Ctx) : option (option (Value * bytes) * Ctx) :=
  Some (if r.1 then Some (v, l) else None, r.2).
(** What a run of the parser is, given what the reader says. *)
Definition follows {A} (run : option (option (Value * bytes) * Ctx)) (done_ : A -> bytes -> option (option (Value * bytes) * Ctx))
    (read : option (option (A * bytes))) : Prop :=
  match read with
  | None => True
  | Some None => exists c, run = Some (None, c)
  | Some (Some (x, l)) => run = done_ x l
  end.

Definition value_follows (fuel : nat) : Prop := forall l c,
  follows (json_run fuel JValue l c) (fun j l => parsed l (build j c)) (read_value fuel l).
Definition elems_follow (fuel : nat) : Prop := forall arr l c,
  follows (json_run fuel (JElems arr) l c) (fun js l => filled arr l (build_elems build arr js c)) (read_elems fuel l).
Definition members_follow (fuel : nat) : Prop := forall obj l c,
  follows (json_run fuel (JMembers obj) l c) (fun ms l => filled obj l (build_members build obj ms c)) (read_members fuel l).

Lemma follows_failed {A} run (done_ : A -> bytes -> _) read c :
  run = Some (None, c) -> (forall x l, read = Some (Some (x, l)) -> done_ x l = Some (None, c)) -> follows run done_ read.
Proof. intros -> H. destruct read as [[[x l]|]|]; simpl; [symmetry; by apply H|by exists c|done]. Qed.

(** The reader goes on with the rest of the items and puts one in front. *)
Lemma follows_cons {A} run (done1 done_ : list A -> bytes -> _) (x : A) (read : option (option (list A * bytes))) :
  follows run done1 read -> (forall xs l, done1 xs l = done_ (x :: xs) l) ->
  follows run done_ (r ← read; Some ('(xs, l) ← r; Some (x :: xs, l))).
Proof. intros H E. destruct read as [[[xs l]|]|]; simpl in *; [by rewrite H, E|done|done]. Qed.

(** The items read start with the first one. *)
Lemma read_first {A} (x : A) (close : Z) (l : bytes) (more : bytes -> option (option (list A * bytes))) xs l' :
  match json_expect 44 l, json_expect close l with
  | Some l, _ => r ← more l; Some ('(xs, l) ← r; Some (x :: xs, l))
  | None, Some l => Some (Some ([x], l))
  | None, None => Some None
  end = Some (Some (xs, l')) -> exists xs', xs = x :: xs'.
Proof.
  destruct (json_expect 44 l) as [l1|]; [|destruct (json_expect close l); naive_solver].
  destruct (more l1) as [[[ys l2]|]|]; naive_solver.
Qed.

Lemma elems_step (fuel : nat) : value_follows fuel -> elems_follow fuel -> elems_follow (S fuel).
Proof.
  intros Hv He arr l c. cbn [json_run read_elems]. unfold json_elems. specialize (Hv l c).
  destruct (read_value fuel l) as [[[j l1]|]|]; [|destruct Hv as [c1 Hv]; simpl; rewrite Hv; by exists c1|done].
  cbn [follows mbind option_bind] in *. rewrite Hv. unfold parsed.
  assert (Hb : forall js, build_elems build arr (j :: js) c =
    match build j c with
    | (None, c) => (false, c)
    | (Some v, c) =>
        let '(res, c) := js_array_push arr v c in
        if is_exception W res then (false, c) else build_elems build arr js c
    end) by done.
  destruct (build j c) as [[v|] c1]; cbn [fst snd fmap option_fmap option_map].
  - destruct (js_array_push arr v c1) as [res c2]. destruct (is_exception W res).
    + eapply follows_failed; [done|]. intros js l2 E.
      apply (read_first j c_rbracket _ (fun l => read_elems fuel (json_ws l))) in E as [js' ->]. unfold filled. by rewrite Hb.
    + destruct (json_expect 44 _) as [l2|].
      * eapply follows_cons; [apply He|]. intros js l3. unfold filled. by rewrite Hb.
      * destruct (json_expect c_rbracket _) as [l2|]; cbn [follows]; [unfold filled; by rewrite Hb|by eexists].
  - eapply follows_failed; [done|]. intros js l2 E.
    apply (read_first j c_rbracket _ (fun l => read_elems fuel (json_ws l))) in E as [js' ->]. unfold filled. by rewrite Hb.
Qed.

Lemma members_step (fuel : nat) : value_follows fuel -> members_follow fuel -> members_follow (S fuel).
Proof.
  intros Hv Hm obj l c. cbn [json_run read_members]. unfold json_members.
  destruct (json_key l) as [[key l0]|]; [|by exists c]. specialize (Hv l0 c).
  destruct (read_value fuel l0) as [[[j l1]|]|]; [|destruct Hv as [c1 Hv]; simpl; rewrite Hv; by exists c1|done].
  cbn [follows mbind option_bind] in *. rewrite Hv. unfold parsed.
  assert (Hb : forall ms, build_members build obj ((key, j) :: ms) c =
    match build j c with
    | (None, c) => (false, c)
    | (Some v, c) =>
        let '(res, c) := js_set_property_str obj key v c in
        if is_exception W res then (false, c) else build_members build obj ms c
    end) by done.
  destruct (build j c) as [[v|] c1]; cbn [fst snd fmap option_fmap option_map].
  - destruct (js_set_property_str obj key v c1) as [res c2]. destruct (is_exception W res).
    + eapply follows_failed; [done|]. intros ms l2 E.
      apply (read_first (key, j) c_rbrace _ (read_members fuel)) in E as [ms' ->]. unfold filled. by rewrite Hb.
    + destruct (json_expect 44 _) as [l2|].
      * eapply follows_cons; [apply Hm|]. intros ms l3. unfold filled. by rewrite Hb.
      * destruct (json_expect c_rbrace _) as [l2|]; cbn [follows]; [unfold filled; by rewrite Hb|by eexists].
  - eapply follows_failed; [done|]. intros ms l2 E.
    apply (read_first (key, j) c_rbrace _ (read_members fuel)) in E as [ms' ->]. unfold filled. by rewrite Hb.
Qed.

(** A container: made, then filled by the loop. *)
Lemma container_step {A} (make : Ctx -> Value * Ctx) (close : Z) (fill_ : A -> Value -> Ctx -> bool * Ctx) (loop : Value -> J Value)
    (mk : A -> json) (empty : A) (read : bytes -> option (option (A * bytes))) (l : bytes) (c : Ctx) :
  (forall xs c, build (mk xs) c = build_into make (fill_ xs) c) ->
  (forall v c, fill_ empty v c = (true, c)) ->
  (forall v l c, follows (loop v l c) (fun xs l => filled v l (fill_ xs v c)) (read l)) ->
  follows
    (let '(v, c) := make c in
     if is_exception W v then jfail c
     else match json_expect close l with Some l => Some (Some (v, l), c) | None => loop v l c end)
    (fun j l => parsed l (build j c))
    (match json_expect close l with
     | Some l => Some (Some (mk empty, l))
     | None => r ← read l; Some ('(xs, l) ← r; Some (mk xs, l))
     end).
Proof.
  intros Hb He Hl. destruct (make c) as [v c1] eqn:Em.
  assert (Hm : forall xs, build (mk xs) c =
    if is_exception W v then (None, c1) else let '(ok, c) := fill_ xs v c1 in (if ok : bool then Some v else None, c))
    by (intros xs; rewrite Hb; unfold build_into; by rewrite Em).
  destruct (is_exception W v).
  - eapply follows_failed; [done|]. intros j l1 E. assert (exists xs, j = mk xs) as [xs ->].
    { destruct (json_expect close l); [naive_solver|]. destruct (read l) as [[[xs ?]|]|]; naive_solver. }
    unfold parsed. by rewrite Hm.
  - destruct (json_expect close l) as [l1|]; [cbn [follows]; unfold parsed; by rewrite Hm, He|].
    specialize (Hl v l c1). destruct (read l) as [[[xs l1]|]|]; [|by simpl in *|done]. cbn [follows mbind option_bind] in *.
    rewrite Hl. unfold parsed, filled. rewrite Hm. by destruct (fill_ xs v c1) as [[] c2].
Qed.

Lemma value_step (fuel : nat) : elems_follow fuel -> members_follow fuel -> value_follows (S fuel).
Proof.
  intros He Hm l c. cbn [json_run read_value]. unfold json_value. destruct (json_ws l) as [|b l1]; [by exists c|].
  destruct (b =? c_lbrace).
  { apply (container_step js_new_object c_rbrace (fun ms obj => build_members build obj ms) (fun v => json_run fuel (JMembers v)) JObj []);
      [done..|]. intros v l2 c2. apply Hm. }
  destruct (b =? c_lbracket).
  { apply (container_step (js_new_array 0) c_rbracket (fun js arr => build_elems build arr js) (fun v => json_run fuel (JElems v)) JArr []);
      [done..|]. intros v l2 c2. apply He. }
  destruct (b =? c_dquote).
  { destruct (parse_string_bytes _) as [[bs l2]|]; [|by exists c]. cbn [mbind option_bind].
    destruct (from_utf8 bs) as [s|]; [|by exists c]. cbn [mbind option_bind follows build]. unfold built, parsed.
    cbn [build]. by destruct (js_new_string s c). }
  destruct (_ || _).
  { destruct (parse_json_number _) as [[x l2]|]; [|by exists c]. cbn [mbind option_bind follows build]. unfold built, parsed.
    by destruct (number_to_value x c). }
  unfold json_literal.
  repeat match goal with |- context [if ?q then _ else _] => destruct q end; try (by exists c);
    (destruct (strip_prefix _ _) as [?|]; cbn [follows mbind option_bind]; [reflexivity|by exists c]).
Qed.

Lemma run_follows (fuel : nat) : value_follows fuel /\ elems_follow fuel /\ members_follow fuel.
Proof. induction fuel as [|fuel (IHv & IHe & IHm)]; [done|]. split; [by apply value_step|split; [by apply elems_step|by apply members_step]]. Qed.
End Parse.

(** ** The reader ends *)

Definition shorter {A} (l : bytes) (r : option (option (A * bytes))) : Prop :=
  match r with None => False | Some None => True | Some (Some (_, l')) => (length l' < length l)%nat end.

Lemma json_ws_length (l : bytes) : (length (json_ws l) <= length l)%nat.
Proof. apply drop_while_length. Qed.
Lemma json_expect_length (b : Z) (l l' : bytes) : json_expect b l = Some l' -> length l = S (length l').
Proof. destruct l as [|x l]; simpl; [done|]. destruct (x =? b); naive_solver. Qed.
Lemma string_body_length (l s l' : bytes) : string_body l = Some (s, l') -> (length l' < length l)%nat.
Proof.
  revert l s l'. assert (H : forall n l s l', (length l <= n)%nat -> string_body l = Some (s, l') -> (length l' < length l)%nat);
    [|intros l s l'; by apply (H (length l))].
  intros n. induction n as [|n IH]; intros l s l' Hn; (destruct l as [|b l1]; [done|simpl in Hn]); [lia|].
  assert (Hp : forall p l2, (length l2 <= length l1)%nat -> prepend p (string_body l2) = Some (s, l') -> (length l' < length (b :: l1))%nat).
  { intros p l2 Hl. unfold prepend. destruct (string_body l2) as [[s2 l3]|] eqn:E; [|done]. simpl. intros [= _ <-].
    apply IH in E; simpl; lia. }
  cbn [string_body]. destruct (b =? c_dquote); [intros [= _ <-]; simpl; lia|].
  destruct (b =? c_backslash); [|destruct (b <? 32); [done|by apply Hp]].
  destruct l1 as [|e l2]; [done|]. destruct (simple_escape e); [apply Hp; simpl; lia|].
  destruct (negb _); [done|]. destruct l2 as [|h1 [|h2 [|h3 [|h4 l3]]]]; try done.
  destruct (hex4 h1 h2 h3 h4) as [code|]; [|done]. destruct (is_high_surrogate code).
  - destruct l3 as [|x [|y [|k1 [|k2 [|k3 [|k4 l4]]]]]]; try done. destruct (_ && _); [|done].
    destruct (hex4 k1 k2 k3 k4) as [low|]; [|done]. destruct (is_low_surrogate low); [|done].
    destruct (char_from_u32 _); [|done]. apply Hp. simpl. lia.
  - destruct (is_low_surrogate code); [done|]. destruct (char_from_u32 code); [|done]. apply Hp. simpl. lia.
Qed.
Lemma parse_string_bytes_length (l s l' : bytes) : parse_string_bytes l = Some (s, l') -> (length l' < length l)%nat.
Proof.
  unfold parse_string_bytes. destruct (json_expect _ l) as [l1|] eqn:E; [|done]. intros H%string_body_length.
  apply json_expect_length in E. lia.
Qed.
Lemma some_digits_length (l s l' : bytes) : some_digits l = Some (s, l') -> (length l' < length l)%nat.
Proof.
  unfold some_digits. destruct l as [|b l]; [done|]. simpl. destruct (is_digit b); [|done].
  pose proof (take_digits_length l). destruct (take_digits l) as [ds r]. intros [= _ <-]. simpl in *. lia.
Qed.
Lemma prepend_some (p : bytes) (r : option (bytes * bytes)) (s l : bytes) :
  prepend p r = Some (s, l) -> exists s', r = Some (s', l) /\ s = p ++ s'.
Proof. destruct r as [[s' l']|]; [|done]. intros [= <- <-]. by exists s'. Qed.

Lemma number_text_length (l s l' : bytes) : number_text l = Some (s, l') -> (length l' < length l)%nat.
Proof.
  unfold number_text. set (p := match json_expect c_minus l with Some _ => _ | None => _ end).
  assert (Hp : (length p.2 <= length l)%nat).
  { unfold p. destruct (json_expect c_minus l) as [l1|] eqn:E; simpl; [apply json_expect_length in E|]; lia. }
  destruct p as [sign l1]. cbn [snd] in Hp.
  destruct (number_whole l1) as [[w l2]|] eqn:Ew; [|done]. destruct (number_frac l2) as [[f l3]|] eqn:Ef; [|simpl; by rewrite Ef].
  simpl. rewrite Ef. simpl. destruct (number_exp l3) as [[e l4]|] eqn:Ee; [|done]. intros [= _ <-].
  assert (length l2 < length l1)%nat.
  { destruct l1 as [|b l1]; [done|]. unfold number_whole in Ew. destruct (b =? c_0); [injection Ew as _ <-; simpl; lia|].
    by apply some_digits_length in Ew. }
  assert (length l3 <= length l2)%nat.
  { unfold number_frac in Ef. destruct (json_expect 46 l2) as [l5|] eqn:E; [|injection Ef as _ <-; lia].
    apply prepend_some in Ef as (s5 & H5%some_digits_length & _). apply json_expect_length in E. lia. }
  enough (length l4 <= length l3)%nat by lia. unfold number_exp in Ee. destruct l3 as [|c l3]; [injection Ee as _ <-; lia|].
  destruct (_ || _); [|injection Ee as _ <-; lia]. destruct l3 as [|d l3]; [done|].
  destruct (_ || _); apply prepend_some in Ee as (s5 & H5%some_digits_length & _); simpl in *; lia.
Qed.
Lemma parse_json_number_length (l : bytes) x l' : parse_json_number l = Some (x, l') -> (length l' < length l)%nat.
Proof.
  unfold parse_json_number. destruct (number_text l) as [[s l1]|] eqn:E; [|done]. simpl.
  destruct (f64_from_str s); [|done]. intros [= _ <-]. by eapply number_text_length.
Qed.
Lemma json_key_length (l k l' : bytes) : json_key l = Some (k, l') -> (length l' < length l)%nat.
Proof.
  unfold json_key. destruct (parse_string_bytes _) as [[bs l1]|] eqn:E; [|done]. simpl.
  destruct (from_utf8 bs); [|done]. simpl. destruct (json_expect 58 _) as [l2|] eqn:E2; [|done]. intros [= _ <-].
  apply parse_string_bytes_length in E. apply json_expect_length in E2.
  pose proof (json_ws_length l). pose proof (json_ws_length l1). lia.
Qed.

(** An item and the separator after it, then the rest of the items. *)
Lemma items_shorter {A} (x : A) (close : Z) (l l1 : bytes) (more : bytes -> option (option (list A * bytes))) :
  (length l1 < length l)%nat ->
  (forall l2, (length l2 < length l1)%nat -> shorter l2 (more l2)) ->
  shorter l
    (match json_expect 44 (json_ws l1), json_expect close (json_ws l1) with
     | Some l, _ => r ← more l; Some ('(xs, l) ← r; Some (x :: xs, l))
     | None, Some l => Some (Some ([x], l))
     | None, None => Some None
     end).
Proof.
  intros Hl Hm. pose proof (json_ws_length l1). destruct (json_expect 44 _) as [l2|] eqn:E.
  - apply json_expect_length in E. specialize (Hm l2 ltac:(lia)).
    destruct (more l2) as [[[xs l3]|]|]; simpl in *; [lia|done|done].
  - destruct (json_expect close _) as [l2|] eqn:E2; [|done]. apply json_expect_length in E2. simpl. lia.
Qed.

Lemma reader_ends (fuel : nat) :
  (forall l, (2 * length l + 1 <= fuel)%nat -> shorter l (read_value fuel l)) /\
  (forall l, (2 * length l + 2 <= fuel)%nat -> shorter l (read_elems fuel l)) /\
  (forall l, (2 * length l + 2 <= fuel)%nat -> shorter l (read_members fuel l)).
Proof.
  induction fuel as [|fuel (IHv & IHe & IHm)]; [split; [|split]; intros l Hl; lia|]. split; [|split]; intros l Hl.
  - cbn [read_value]. pose proof (json_ws_length l) as Hw. destruct (json_ws l) as [|b l1]; [done|]. cbn [length] in Hw.
    pose proof (json_ws_length l1) as Hw1.
    destruct (b =? c_lbrace); [|destruct (b =? c_lbracket)].
    + destruct (json_expect _ _) as [l2|] eqn:E; [apply json_expect_length in E; simpl; lia|].
      specialize (IHm (json_ws l1) ltac:(lia)). destruct (read_members _ _) as [[[ms l2]|]|]; simpl in *; [lia|done|done].
    + destruct (json_expect _ _) as [l2|] eqn:E; [apply json_expect_length in E; simpl; lia|].
      specialize (IHe (json_ws l1) ltac:(lia)). destruct (read_elems _ _) as [[[ms l2]|]|]; simpl in *; [lia|done|done].
    + destruct (b =? c_dquote).
      { destruct (parse_string_bytes _) as [[bs l2]|] eqn:E; [|done]. apply parse_string_bytes_length in E. simpl.
        destruct (from_utf8 bs); simpl in *; [lia|done]. }
      destruct (_ || _).
      { destruct (parse_json_number _) as [[bs l2]|] eqn:E; [|done]. apply parse_json_number_length in E. simpl in *. lia. }
      repeat match goal with |- context [if ?q then _ else _] => destruct q end; try done;
        (destruct (strip_prefix _ _) as [l2|] eqn:E; cbn [mbind option_bind shorter]; [|done]);
        apply strip_prefix_length in E; cbn in E; lia.
  - cbn [read_elems]. specialize (IHv l ltac:(lia)). destruct (read_value fuel l) as [[[j l1]|]|]; [|done|done].
    cbn [mbind option_bind]. simpl in IHv. apply (items_shorter j c_rbracket l l1 (fun l => read_elems fuel (json_ws l))); [done|].
    intros l2 Hl2. pose proof (json_ws_length l2). specialize (IHe (json_ws l2) ltac:(lia)).
    destruct (read_elems _ _) as [[[? ?]|]|]; simpl in *; [lia|done|done].
  - cbn [read_members]. destruct (json_key l) as [[k l0]|] eqn:E; [|done]. apply json_key_length in E.
    specialize (IHv l0 ltac:(lia)). destruct (read_value fuel l0) as [[[j l1]|]|]; [|done|done].
    cbn [mbind option_bind]. simpl in IHv. apply (items_shorter (k, j) c_rbrace l l1 (read_members fuel)); [lia|].
    intros l2 Hl2. apply IHm. lia.
Qed.

Lemma reader_more (n m : nat) : (n <= m)%nat ->
  (forall l r, read_value n l = Some r -> read_value m l = Some r) /\
  (forall l r, read_elems n l = Some r -> read_elems m l = Some r) /\
  (forall l r, read_members n l = Some r -> read_members m l = Some r).
Proof.
  revert m. induction n as [|n IH]; intros m Hm; [split; [|split]; discriminate|].
  destruct m as [|m]; [lia|]. destruct (IH m ltac:(lia)) as (IHv & IHe & IHm). split; [|split]; intros l r.
  - cbn [read_value]. destruct (json_ws l) as [|b l1]; [done|].
    destruct (b =? c_lbrace); [|destruct (b =? c_lbracket); [|done]].
    + destruct (json_expect _ _); [done|]. destruct (read_members n _) as [q|] eqn:E; [|done]. by rewrite (IHm _ _ E).
    + destruct (json_expect _ _); [done|]. destruct (read_elems n _) as [q|] eqn:E; [|done]. by rewrite (IHe _ _ E).
  - cbn [read_elems]. destruct (read_value n l) as [q|] eqn:E; [|done]. rewrite (IHv _ _ E). cbn [mbind option_bind].
    destruct q as [[j l1]|]; [|done].
    destruct (json_expect 44 _) as [l2|]; [|done]. destruct (read_elems n _) as [q|] eqn:E2; [|done].
    by rewrite (IHe _ _ E2).
  - cbn [read_members]. destruct (json_key l) as [[k l0]|]; [|done].
    destruct (read_value n l0) as [q|] eqn:E; [|done].
    rewrite (IHv _ _ E). cbn [mbind option_bind]. destruct q as [[j l1]|]; [|done].
    destruct (json_expect 44 _) as [l2|]; [|done]. destruct (read_members n l2) as [q|] eqn:E2; [|done].
    by rewrite (IHm _ _ E2).
Qed.

(** ** Reading back what is printed *)

Fixpoint print (j : json) : bytes :=
  match j with
  | JNull => b! "null"
  | JBool b => if b then b! "true" else b! "false"
  | JNum x => number_shown x
  | JStr s => quoted s
  | JArr l => braces c_lbracket c_rbracket (print <$> l)
  | JObj l => braces c_lbrace c_rbrace ((fun kv => member kv.1 (print kv.2)) <$> l)
  end.

(** Control characters have no escape but the three; names have none at all. *)
Definition text_byte (b : Z) : bool := (32 <=? b) || (b =? LF) || (b =? CR) || (b =? 9).
Definition name_byte (b : Z) : bool := (32 <=? b) && negb (b =? c_dquote) && negb (b =? c_backslash).
(** A finite number whose shortest decimal text is JSON and is parsed to the number. *)
Definition number_reads (x : f64) : Prop :=
  f64_is_finite x = true /\ number_text (f64_to_string x) = Some (f64_to_string x, []) /\
  f64_from_str (f64_to_string x) = Some x.

(** *** Numbers read back

    What [f64_to_string] writes is [place_point] of digits that [shortest] found to round back to the
    number; both readers take that text apart into the same digits and exponent. *)

Lemma write_digits_head (fuel : nat) : forall value tmp, 0 < value < 10 ^ Z.of_nat fuel ->
  exists d ds, write_digits fuel value tmp = d :: ds /\ d <> c_0.
Proof.
  induction fuel as [|fuel IH]; intros value tmp Hv; [simpl in Hv; lia|]. cbn [write_digits].
  rewrite Nat2Z.inj_succ, Z.pow_succ_r in Hv by lia.
  pose proof (Z_div_mod_eq_full value 10) as Hd. pose proof (Z.mod_pos_bound value 10) as Hm.
  destruct (Z.eqb_spec (value / 10) 0) as [E|E].
  - eexists _, _. split; [done|]. lia.
  - apply IH. assert (0 <= value / 10) by (apply Z.div_pos; lia). split; [lia|]. apply Z.div_lt_upper_bound; lia.
Qed.
Lemma int_to_string_head (q : Z) : 0 < q -> exists d ds, int_to_string q = d :: ds /\ d <> c_0 /\ digits (d :: ds) /\ dval 0 (d :: ds) = q.
Proof.
  intros Hq. destruct (int_to_string_shape q) as (ds & E & Hds & _ & Hv). rewrite (proj2 (Z.ltb_ge _ _)) in E by lia. cbn [app] in E.
  destruct (write_digits_head (S (Z.to_nat (Z.log2 q))) q []) as (d & ds' & Ew & Hd).
  { split; [done|]. pose proof (log2_digits q). lia. }
  assert (Ei : int_to_string q = d :: ds').
  { unfold int_to_string. rewrite (proj2 (Z.ltb_ge _ _)) by lia. by rewrite Z.abs_eq by lia. }
  exists d, ds'. rewrite Z.abs_eq in Hv by lia. rewrite Ei in E. by subst ds.
Qed.

Lemma zeros_digits (n : Z) : digits (zeros n).
Proof. unfold zeros. apply Forall_replicate. done. Qed.
Lemma dval_zeros (n : Z) (a : Z) : 0 <= n -> dval a (zeros n) = a * 10 ^ n.
Proof.
  intros Hn. unfold zeros. rewrite <- (Z2Nat.id n) at 2 by done. generalize (Z.to_nat n) as k. clear Hn n.
  intros k. revert a. induction k as [|k IH]; intros a; cbn [replicate]; [cbn; lia|].
  change (dval a (c_0 :: replicate k c_0)) with (dval (a * 10 + (c_0 - c_0)) (replicate k c_0)). rewrite IH.
  rewrite Nat2Z.inj_succ, Z.pow_succ_r by lia. lia.
Qed.
Lemma f64_round_shift (neg : bool) (q p : Z) : 0 < q -> 0 <= p -> f64_round neg (q * 10 ^ p) 0 = f64_round neg q p.
Proof.
  intros Hq Hp. assert (H10 : 0 < 10 ^ p) by (apply Z.pow_pos_nonneg; lia). unfold f64_round. rewrite (proj2 (Z.leb_le 0 p)) by done.
  destruct (q * 10 ^ p) as [|r|r] eqn:E; [lia| |lia]. destruct q as [|q|q]; [lia| |lia].
  change (0 <=? 0) with true. cbn iota. change (10 ^ 0) with 1. by rewrite Z.mul_1_r.
Qed.

(** The digits on both sides of the point. *)
Lemma place_point_parts (d : Z) (ds : bytes) (p : Z) : digits (d :: ds) -> d <> c_0 ->
  (exists tail, place_point (d :: ds) p = d :: ds ++ zeros tail /\ 0 <= p /\ tail = p) \/
  exists w f, place_point (d :: ds) p = w ++ 46 :: f /\ digits w /\ digits f /\ f <> [] /\
    (w = [c_0] \/ exists w', w = d :: w') /\ dval 0 (w ++ f) = dval 0 (d :: ds) /\ p = - Z.of_nat (length f).
Proof.
  intros Hds Hd. unfold place_point. destruct (Z.leb_spec 0 p) as [Hp|Hp]; [left; exists p; done|]. right.
  set (l := d :: ds) in *. set (whole := Z.of_nat (length l) + p). destruct (Z.ltb_spec 0 whole) as [Hw|Hw].
  - exists (take (Z.to_nat whole) l), (drop (Z.to_nat whole) l). rewrite take_drop.
    split_and!; [done|by apply Forall_take|by apply Forall_drop| | |done|].
    + intros E%(f_equal length). rewrite length_drop in E. cbn [length] in E. lia.
    + right. destruct (Z.to_nat whole) as [|k] eqn:Ek; [lia|]. by eexists.
    + rewrite length_drop. lia.
  - exists [c_0], (zeros (- whole) ++ l). split_and!; [done|by repeat constructor|apply Forall_app; split; [apply zeros_digits|done]| |by left| |].
    + intros [_ ?]%app_eq_nil. done.
    + change (dval 0 ([c_0] ++ zeros (- whole) ++ l)) with (dval 0 (zeros (- whole) ++ l)). rewrite dval_app, dval_zeros by lia. done.
    + rewrite length_app. unfold zeros. rewrite length_replicate. lia.
Qed.

Lemma f64_number_point (neg : bool) (d : Z) (ds : bytes) (p : Z) : digits (d :: ds) -> d <> c_0 ->
  f64_number neg (place_point (d :: ds) p) = Some (f64_round neg (dval 0 (d :: ds)) p).
Proof.
  intros Hds Hd. assert (Hq : 0 < dval 0 (d :: ds)).
  { apply Forall_cons in Hds as [Hd1 Hds]. pose proof (dval_ge ds (0 * 10 + (d - c_0)) Hds ltac:(lia)) as H.
    change (dval 0 (d :: ds)) with (dval (0 * 10 + (d - c_0)) ds). lia. }
  destruct (place_point_parts d ds p Hds Hd) as [(tail & -> & Hp & ->)|(w & f & -> & Hw & Hf & Hfn & Hwd & Hv & ->)]; unfold f64_number.
  - change (d :: ds ++ zeros p) with ((d :: ds) ++ zeros p).
    rewrite <- (app_nil_r ((d :: ds) ++ zeros p)), take_digits_all by (done || (apply Forall_app; split; [done|apply zeros_digits])).
    rewrite app_nil_r. cbn [app]. change (d :: ds ++ zeros p) with ((d :: ds) ++ zeros p). cbn [f64_exponent mbind option_bind].
    rewrite dval_app, dval_zeros by done. by rewrite f64_round_shift.
  - rewrite take_digits_all by done. cbn match. change (46 =? 46) with true. cbn match.
    rewrite <- (app_nil_r f) at 1. rewrite take_digits_all by done.
    destruct (w ++ f) as [|x l] eqn:E; [destruct w; [destruct Hwd as [?|[? ?]]; done|done]|]. rewrite <- E in *.
    cbn [f64_exponent mbind option_bind]. by rewrite Hv.
Qed.
Lemma place_point_first (d : Z) (ds : bytes) (p : Z) : digits (d :: ds) -> d <> c_0 ->
  exists b l, place_point (d :: ds) p = b :: l /\ is_digit b = true.
Proof.
  intros Hds Hd. destruct (place_point_parts d ds p Hds Hd) as [(tail & -> & _)|(w & f & -> & Hw & _ & _ & Hwd & _)].
  - eexists _, _. split; [done|]. apply Forall_cons in Hds as [? _]. by apply is_digit_spec.
  - destruct w as [|b w]; [destruct Hwd as [?|[? ?]]; done|]. eexists _, _. split; [done|]. apply Forall_cons in Hw as [? _]. by apply is_digit_spec.
Qed.

Lemma f64_from_str_point (s : bool) (d : Z) (ds : bytes) (p : Z) : digits (d :: ds) -> d <> c_0 ->
  f64_from_str ((if s then [c_minus] else []) ++ place_point (d :: ds) p) = Some (f64_round s (dval 0 (d :: ds)) p).
Proof.
  intros Hds Hd. destruct (place_point_first d ds p Hds Hd) as (b & l & E & Hb). unfold f64_from_str.
  assert (Es : f64_sign ((if s then [c_minus] else []) ++ place_point (d :: ds) p) = (s, place_point (d :: ds) p)).
  { rewrite E. apply is_digit_spec in Hb. destruct s; [done|]. cbn [app f64_sign].
    rewrite !(proj2 (Z.eqb_neq _ _)) by lia. done. }
  rewrite Es. assert (Hup : to_ascii_uppercase b = b).
  { unfold to_ascii_uppercase. apply is_digit_spec in Hb. by rewrite (proj2 (Z.leb_gt 97 b)) by lia. }
  assert (Hne : forall c cs, is_digit c = false -> bool_decide (to_ascii_uppercase <$> place_point (d :: ds) p = c :: cs) = false).
  { intros c cs Hc. apply bool_decide_false. rewrite E, fmap_cons, Hup. intros [= -> _]. congruence. }
  assert (H1 : bool_decide (to_ascii_uppercase <$> place_point (d :: ds) p = b! "INF") = false) by by apply (Hne 73).
  assert (H2 : bool_decide (to_ascii_uppercase <$> place_point (d :: ds) p = b! "INFINITY") = false) by by apply (Hne 73).
  assert (H3 : bool_decide (to_ascii_uppercase <$> place_point (d :: ds) p = b! "NAN") = false) by by apply (Hne 78).
  rewrite H1, H2, H3. cbn [orb]. by apply f64_number_point.
Qed.
Lemma number_text_point (s : bool) (d : Z) (ds : bytes) (p : Z) : digits (d :: ds) -> d <> c_0 ->
  number_text ((if s then [c_minus] else []) ++ place_point (d :: ds) p) = Some ((if s then [c_minus] else []) ++ place_point (d :: ds) p, []).
Proof.
  intros Hds Hd. destruct (place_point_first d ds p Hds Hd) as (b & l & E & Hb). unfold number_text.
  assert (Es : match json_expect c_minus ((if s then [c_minus] else []) ++ place_point (d :: ds) p) with
    | Some l' => ([c_minus], l') | None => ([], (if s then [c_minus] else []) ++ place_point (d :: ds) p) end =
    ((if s then [c_minus] else []), place_point (d :: ds) p)).
  { destruct s; [done|]. rewrite E. apply is_digit_spec in Hb. cbn [app json_expect]. by rewrite (proj2 (Z.eqb_neq _ _)) by lia. }
  rewrite Es. clear Es E. destruct (place_point_parts d ds p Hds Hd) as [(tail & -> & Hp & ->)|(w & f & -> & Hw & Hf & Hfn & Hwd & _)].
  - unfold number_whole. rewrite (proj2 (Z.eqb_neq _ _)) by done. unfold some_digits.
    change (d :: ds ++ zeros p) with ((d :: ds) ++ zeros p).
    rewrite <- (app_nil_r ((d :: ds) ++ zeros p)), take_digits_all by (done || (apply Forall_app; split; [done|apply zeros_digits])).
    rewrite app_nil_r. cbn [app mbind option_bind number_frac number_exp json_expect]. by rewrite !app_nil_r.
  - assert (Ew : number_whole (w ++ 46 :: f) = Some (w, 46 :: f)).
    { destruct Hwd as [->|[w' ->]]; [done|]. unfold number_whole. cbn [app]. rewrite (proj2 (Z.eqb_neq _ _)) by done. unfold some_digits.
      change (d :: w' ++ 46 :: f) with ((d :: w') ++ 46 :: f). by rewrite take_digits_all. }
    rewrite Ew. cbn [mbind option_bind]. unfold number_frac, json_expect. change (46 =? 46) with true. cbn match. unfold some_digits.
    rewrite <- (app_nil_r f) at 1. rewrite take_digits_all by done. destruct f as [|x f]; [done|].
    cbn [prepend mbind option_bind number_exp app]. by rewrite app_nil_r.
Qed.

(** Seventeen digits are enough for the number: [shortest] finds some that read back. *)
Definition has_digits (x : f64) : bool :=
  match x with
  | S754_zero _ => true
  | S754_finite s m e =>
      let '(n, d) := f64_ratio m e in
      let '(q, p) := shortest 17 s x n d (dec_exponent n d) 1 in reads_back s x q p
  | _ => false
  end.
Lemma reads_back_eq (s : bool) (x : f64) (q p : Z) : reads_back s x q p = true -> f64_round s q p = x /\ 0 < q.
Proof.
  unfold reads_back. destruct x as [|?| |s1 m1 e1]; try done. destruct (f64_round s q p) as [|?| |s2 m2 e2] eqn:E; try done.
  intros H. apply andb_true_iff in H as [[H1%eqb_prop H2%Z.eqb_eq]%andb_true_iff H3%Z.eqb_eq]. split; [congruence|].
  unfold f64_round in E. by destruct q.
Qed.
Lemma shown_number_reads (x : f64) : has_digits x = true -> number_reads x.
Proof.
  unfold number_reads. destruct x as [s|s| |s m e]; try done; [by destruct s|]. unfold has_digits, f64_to_string.
  destruct (f64_ratio m e) as [n d]. destruct (shortest _ _ _ _ _ _ _) as [q p]. intros [Hr Hq]%reads_back_eq.
  destruct (int_to_string_head q Hq) as (d0 & ds & -> & Hd & Hds & Hv).
  split; [done|]. rewrite number_text_point, f64_from_str_point by done. by rewrite Hv, Hr.
Qed.

(** A tree that is read back: 17 digits are enough for its numbers, its names need no escape, and its
    strings hold no control character but the three that have one. *)
Fixpoint clean (j : json) : Prop :=
  match j with
  | JNull | JBool _ => True
  | JNum x => has_digits x = true
  | JStr s => utf8_valid s = true /\ forallb text_byte s = true
  | JArr l => (fix all (l : list json) := match l with [] => True | x :: l' => clean x /\ all l' end) l
  | JObj l =>
      (fix all (l : list (bytes * json)) :=
        match l with
        | [] => True
        | x :: l' => (utf8_valid x.1 = true /\ forallb name_byte x.1 = true) /\ clean x.2 /\ all l'
        end) l
  end.

(** What may follow a number without being taken for a part of it. *)
Definition stops (rest : bytes) : bool :=
  match rest with b :: _ => negb (is_digit b || (b =? 46) || (b =? 101) || (b =? 69)) | [] => true end.

(** A lexer that reads the same with more text behind. *)
Definition local (p : bytes -> option (bytes * bytes)) : Prop := forall l s r rest,
  stops rest = true -> p l = Some (s, r) -> p (l ++ rest) = Some (s, r ++ rest).

Lemma take_digits_local (l rest : bytes) : stops rest = true ->
  take_digits (l ++ rest) = ((take_digits l).1, (take_digits l).2 ++ rest).
Proof.
  intros Hs. induction l as [|b l IH]; simpl.
  - destruct rest as [|c rest]; [done|]. simpl in *. by destruct (is_digit c).
  - destruct (is_digit b); [|done]. rewrite IH. by destruct (take_digits l).
Qed.
Lemma some_digits_local : local some_digits.
Proof.
  intros l s r rest Hs. unfold some_digits. rewrite take_digits_local by done. destruct (take_digits l) as [[|d ds] r'].
  - done.
  - by intros [= <- <-].
Qed.
Lemma prepend_local (p : bytes) (q : bytes -> option (bytes * bytes)) : local q -> local (fun l => prepend p (q l)).
Proof.
  intros Hq l s r rest Hs H. apply prepend_some in H as (s' & H & ->). by rewrite (Hq _ _ _ _ Hs H).
Qed.
Lemma json_expect_local (b : Z) (l rest : bytes) :
  (match rest with c :: _ => c =? b | [] => false end) = false ->
  json_expect b (l ++ rest) = (fun r => r ++ rest) <$> json_expect b l.
Proof. intros H. destruct l as [|c l]; simpl; [destruct rest as [|c rest]; simpl; [done|by rewrite H]|]. by destruct (c =? b). Qed.

Lemma number_whole_local : local number_whole.
Proof.
  intros l s r rest Hs H. destruct l as [|b l]; [done|]. unfold number_whole in *. simpl.
  destruct (b =? c_0); [by injection H as <- <-|]. by apply (some_digits_local (b :: l)).
Qed.
Lemma number_frac_local : local number_frac.
Proof.
  intros l s r rest Hs H. unfold number_frac in *.
  assert (Hr : (match rest with c :: _ => c =? 46 | [] => false end) = false)
    by (destruct rest as [|c rest]; [done|]; simpl in Hs; destruct (c =? 46); [by rewrite orb_true_r in Hs|done]).
  rewrite (json_expect_local 46 l rest) by done. destruct (json_expect 46 l) as [l'|]; simpl.
  - by apply (prepend_local [46] some_digits some_digits_local).
  - by injection H as <- <-.
Qed.
Lemma number_exp_local : local number_exp.
Proof.
  intros l s r rest Hs H. destruct l as [|e l1]; simpl in H.
  - injection H as <- <-. simpl. destruct rest as [|c rest]; [done|]. simpl in *.
    destruct ((c =? 101) || (c =? 69)) eqn:E; [|done]. rewrite <- orb_assoc, E, orb_true_r in Hs. done.
  - simpl. destruct (_ || _); [|by injection H as <- <-]. destruct l1 as [|c l2]; [done|]. simpl.
    destruct ((c =? c_plus) || (c =? c_minus)).
    + by apply (prepend_local [e; c] some_digits some_digits_local).
    + by apply (prepend_local [e] some_digits some_digits_local (c :: l2)).
Qed.
Lemma number_text_local : local number_text.
Proof.
  intros l s r rest Hs H. unfold number_text in *.
  destruct l as [|b l]; [done|]. simpl in *.
  set (p := match (if b =? c_minus then Some l else None) with Some l' => ([c_minus], l') | None => ([], b :: l) end) in H.
  assert (Ep : match (if b =? c_minus then Some (l ++ rest) else None) with
    | Some l' => ([c_minus], l') | None => ([], b :: l ++ rest) end = (p.1, p.2 ++ rest)).
  { unfold p. by destruct (b =? c_minus). }
  rewrite Ep. destruct p as [sign l1]. cbn [fst snd]. clear Ep.
  destruct (number_whole l1) as [[w l2]|] eqn:Ew; [|done]. rewrite (number_whole_local _ _ _ _ Hs Ew). cbn [mbind option_bind] in *.
  destruct (number_frac l2) as [[f l3]|] eqn:Ef; [|done]. rewrite (number_frac_local _ _ _ _ Hs Ef). cbn [mbind option_bind] in *.
  destruct (number_exp l3) as [[e l4]|] eqn:Ee; [|done]. rewrite (number_exp_local _ _ _ _ Hs Ee). cbn [mbind option_bind] in *.
  by injection H as <- <-.
Qed.

Definition starts_number (b : Z) : bool := (b =? c_minus) || is_digit b.
Lemma number_text_head (l s r : bytes) : number_text l = Some (s, r) -> exists b l', l = b :: l' /\ starts_number b = true.
Proof.
  unfold number_text, starts_number. destruct l as [|b l]; [done|]. exists b, l. split; [done|]. simpl in H.
  destruct (b =? c_minus) eqn:Eb; [done|]. simpl in *. unfold number_whole in H.
  destruct (b =? c_0) eqn:E0; [apply Z.eqb_eq in E0; by subst|]. unfold some_digits in H. simpl in H.
  by destruct (is_digit b).
Qed.

(** *** Strings *)

Lemma string_body_byte (b : Z) (l : bytes) : text_byte b = true ->
  string_body (escape_byte b ++ l) = prepend [b] (string_body l).
Proof.
  intros Hb. unfold escape_byte.
  destruct (Z.eqb_spec b c_dquote) as [->|H1]; [done|]. destruct (Z.eqb_spec b c_backslash) as [->|H2]; [done|].
  destruct (Z.eqb_spec b LF) as [->|H3]; [done|]. destruct (Z.eqb_spec b CR) as [->|H4]; [done|].
  destruct (Z.eqb_spec b 9) as [->|H5]; [done|].
  cbn [app string_body]. apply Z.eqb_neq in H1, H2. rewrite H1, H2.
  unfold text_byte in Hb. apply Z.eqb_neq in H3, H4, H5. rewrite H3, H4, H5, !orb_false_r in Hb.
  apply Z.leb_le in Hb. by destruct (Z.ltb_spec b 32); [lia|].
Qed.
Lemma string_body_text (s rest : bytes) : forallb text_byte s = true ->
  string_body (concat (escape_byte <$> s) ++ c_dquote :: rest) = Some (s, rest).
Proof.
  induction s as [|b s IH]; [done|]. cbn [forallb]. intros [Hb Hs]%andb_true_iff.
  rewrite fmap_cons. cbn [concat]. by rewrite <- app_assoc, string_body_byte, IH.
Qed.
Lemma string_body_name (s rest : bytes) : forallb name_byte s = true -> string_body (s ++ c_dquote :: rest) = Some (s, rest).
Proof.
  induction s as [|b s IH]; cbn [forallb]; [done|]. intros [Hb Hs]%andb_true_iff. unfold name_byte in Hb.
  apply andb_true_iff in Hb as [[Hb H1]%andb_true_iff H2]. apply negb_true_iff in H1, H2. apply Z.leb_le in Hb.
  cbn [app string_body]. rewrite H1, H2. destruct (Z.ltb_spec b 32); [lia|]. by rewrite IH.
Qed.

(** *** Values *)

Definition not_space (l : bytes) : Prop := match l with b :: _ => json_space b = false | [] => False end.
Lemma json_ws_id (l rest : bytes) : not_space l -> json_ws (l ++ rest) = l ++ rest.
Proof. destruct l as [|b l]; [done|]. simpl. unfold json_ws. simpl. by intros ->. Qed.

Lemma digit_range (b : Z) : is_digit b = true -> 48 <= b <= 57.
Proof. unfold is_digit. rewrite andb_true_iff, !Z.leb_le. lia. Qed.
Lemma starts_number_range (b : Z) : starts_number b = true -> b = 45 \/ 48 <= b <= 57.
Proof. unfold starts_number. rewrite orb_true_iff, Z.eqb_eq. intros [?|?%digit_range]; auto. Qed.

Lemma print_not_space (j : json) : clean j -> not_space (print j).
Proof.
  destruct j as [|[]|x|s|l|l]; simpl; try done. intros (Hf & Hn & _)%shown_number_reads. unfold number_shown. rewrite Hf.
  apply number_text_head in Hn as (b & l & -> & Hb%starts_number_range). simpl. unfold json_space.
  repeat rewrite (proj2 (Z.eqb_neq _ _)) by lia. done.
Qed.

(** A value is read, whatever follows it. *)
Definition reads (j : json) : Prop := forall rest, stops rest = true ->
  exists n, read_value n (print j ++ rest) = Some (Some (j, rest)).

Lemma reads_number (x : f64) : clean (JNum x) -> reads (JNum x).
Proof.
  intros (Hf & Hn & Hx)%shown_number_reads rest Hs. exists 1%nat. simpl. unfold number_shown. rewrite Hf.
  destruct (number_text_head _ _ _ Hn) as (b & l & E & Hb). pose proof (starts_number_range b Hb) as Hr.
  apply (number_text_local _ _ _ rest Hs) in Hn.
  rewrite json_ws_id by (rewrite E; simpl; unfold json_space; repeat rewrite (proj2 (Z.eqb_neq _ _)) by lia; done).
  unfold parse_json_number. rewrite E in *. cbn [app] in *. repeat rewrite (proj2 (Z.eqb_neq b _)) by lia.
  unfold starts_number in Hb. rewrite Hb. rewrite Hn. cbn [mbind option_bind]. by rewrite Hx.
Qed.

Lemma read_quoted (n : nat) (l : bytes) :
  read_value (S n) (c_dquote :: l) = Some ('(bs, l) ← string_body l; s ← from_utf8 bs; Some (JStr s, l)).
Proof. reflexivity. Qed.
Lemma reads_string (s : bytes) : clean (JStr s) -> reads (JStr s).
Proof.
  intros [Hu Ht] rest _. exists 1%nat. cbn [print]. unfold quoted. cbn [app]. rewrite read_quoted, <- app_assoc.
  cbn [app]. rewrite string_body_text by done. cbn [mbind option_bind]. by rewrite from_utf8_valid.
Qed.

Lemma reads_literal (j : json) : match j with JNull | JBool _ => True | _ => False end -> reads j.
Proof. intros Hj rest _. exists 1%nat. by destruct j as [|[]| | | |]. Qed.

Lemma join_cons (p q : bytes) (ps : list bytes) : join (p :: q :: ps) = p ++ 44 :: join (q :: ps).
Proof. reflexivity. Qed.
Lemma read_value_more (n m : nat) (l : bytes) r : (n <= m)%nat -> read_value n l = Some r -> read_value m l = Some r.
Proof. intros H. by apply (reader_more n m H). Qed.

Lemma reads_elems (j : json) (js : list json) (rest : bytes) : Forall clean (j :: js) -> Forall reads (j :: js) ->
  exists n, read_elems n (join (print <$> j :: js) ++ c_rbracket :: rest) = Some (Some (j :: js, rest)).
Proof.
  revert j. induction js as [|j' js IH]; intros j [_ Hc]%Forall_cons [Hj Hjs]%Forall_cons.
  - destruct (Hj (c_rbracket :: rest) eq_refl) as [n Hn]. exists (S n). cbn [read_elems fmap list_fmap join concat].
    by rewrite app_nil_r, Hn.
  - destruct (IH j' Hc Hjs) as [n2 H2]. rewrite !fmap_cons in *. rewrite join_cons, <- app_assoc. cbn [app].
    destruct (Hj (44 :: join (print j' :: (print <$> js)) ++ c_rbracket :: rest) eq_refl) as [n1 H1].
    exists (S (n1 `max` n2)). cbn [read_elems]. rewrite (read_value_more n1 _ _ _ (Nat.le_max_l _ _) H1).
    cbn [mbind option_bind]. change (json_ws (44 :: ?l)) with (44 :: l). change (json_expect 44 (44 :: ?l)) with (Some l).
    cbn match. cbn [join]. rewrite <- app_assoc, json_ws_id by (apply print_not_space; by apply Forall_cons in Hc as [? _]).
    cbn [join] in H2. rewrite <- app_assoc in H2.
    by rewrite (proj1 (proj2 (reader_more n2 _ (Nat.le_max_r _ _))) _ _ H2).
Qed.

Lemma json_key_member (key text : bytes) : utf8_valid key = true -> forallb name_byte key = true ->
  json_key (member key text) = Some (key, text).
Proof.
  intros Hu Hn. unfold json_key, member. change (json_ws (c_dquote :: ?l)) with (c_dquote :: l).
  change (parse_string_bytes (c_dquote :: ?l)) with (string_body l). cbn [app].
  rewrite string_body_name by done. cbn [mbind option_bind]. by rewrite from_utf8_valid.
Qed.
Definition print_member (kv : bytes * json) : bytes := member kv.1 (print kv.2).
Definition clean_member (kv : bytes * json) : Prop := utf8_valid kv.1 = true /\ forallb name_byte kv.1 = true.
Lemma member_app (key text rest : bytes) : member key text ++ rest = member key (text ++ rest).
Proof. unfold member. cbn [app]. by rewrite <- !app_assoc. Qed.

Lemma reads_members (m : bytes * json) (ms : list (bytes * json)) (rest : bytes) :
  Forall clean_member (m :: ms) -> Forall (fun kv => reads kv.2) (m :: ms) ->
  exists n, read_members n (join (print_member <$> m :: ms) ++ c_rbrace :: rest) = Some (Some (m :: ms, rest)).
Proof.
  revert m. induction ms as [|m' ms IH]; intros [k j] [[Hu Hk] Hc]%Forall_cons [Hj Hjs]%Forall_cons; cbn [fst snd] in *.
  - destruct (Hj (c_rbrace :: rest) eq_refl) as [n Hn]. exists (S n). cbn [read_members fmap list_fmap join concat].
    unfold print_member. cbn [fst snd]. by rewrite app_nil_r, member_app, json_key_member, Hn.
  - destruct (IH m' Hc Hjs) as [n2 H2]. rewrite !fmap_cons in *. rewrite join_cons, <- app_assoc. cbn [app].
    destruct (Hj (44 :: join (print_member m' :: (print_member <$> ms)) ++ c_rbrace :: rest) eq_refl) as [n1 H1].
    exists (S (n1 `max` n2)). cbn [read_members]. unfold print_member at 1. cbn [fst snd].
    rewrite member_app, json_key_member, (read_value_more n1 _ _ _ (Nat.le_max_l _ _) H1) by done.
    cbn [mbind option_bind]. change (json_ws (44 :: ?l)) with (44 :: l). change (json_expect 44 (44 :: ?l)) with (Some l).
    cbn match. by rewrite (proj2 (proj2 (reader_more n2 _ (Nat.le_max_r _ _))) _ _ H2).
Qed.

Lemma clean_elems (l : list json) : clean (JArr l) <-> Forall clean l.
Proof. induction l as [|x l IH]; [by split|]. rewrite Forall_cons, <- IH. done. Qed.
Lemma clean_members (l : list (bytes * json)) : clean (JObj l) <-> Forall clean_member l /\ Forall (fun kv => clean kv.2) l.
Proof.
  induction l as [|x l IH]; [by split|]. rewrite !Forall_cons. unfold clean_member at 1.
  change (clean (JObj (x :: l))) with ((utf8_valid x.1 = true /\ forallb name_byte x.1 = true) /\ clean x.2 /\ clean (JObj l)).
  rewrite IH. naive_solver.
Qed.
Lemma join_first_array (j : json) (js : list json) (rest : bytes) : clean j ->
  exists b l, join (print <$> j :: js) ++ rest = b :: l /\ json_space b = false /\ (b =? c_rbracket) = false.
Proof.
  intros Hc. pose proof (print_not_space j Hc) as Hs. assert (Hb : match print j with b :: _ => (b =? c_rbracket) = false | [] => True end).
  { destruct j as [|[]|x|s|l|l]; try done. apply shown_number_reads in Hc as (Hf & Hn & _). simpl. unfold number_shown. rewrite Hf.
    apply number_text_head in Hn as (b & l & -> & Hb%starts_number_range). apply Z.eqb_neq. lia. }
  rewrite fmap_cons. cbn [join]. destruct (print j) as [|b l]; [done|]. cbn [app]. by eexists _, _.
Qed.

Lemma all_reads (j : json) : clean j -> reads j.
Proof.
  induction j as [| | | |l IH|l IH] using json_ind'; [by intros; apply reads_literal..|apply reads_number|apply reads_string| |].
  - rewrite clean_elems. intros Hc rest _. assert (Hr : Forall reads l) by (rewrite Forall_forall in *; eauto).
    cbn [print]. unfold braces. destruct l as [|j js]; [by exists 1%nat|].
    destruct (reads_elems j js rest Hc Hr) as [n Hn]. exists (S n). cbn [app]. rewrite <- app_assoc. cbn [app].
    apply Forall_cons in Hc as [Hj _].
    destruct (join_first_array j js (c_rbracket :: rest) Hj) as (b & l & El & Hs & Hb). rewrite El in *.
    cbn [read_value]. change (json_ws (c_lbracket :: ?l)) with (c_lbracket :: l). cbn match.
    change (c_lbracket =? c_lbrace) with false. change (c_lbracket =? c_lbracket) with true. cbn match.
    assert (Ew : json_ws (b :: l) = b :: l) by (unfold json_ws; cbn [drop_while]; by rewrite Hs).
    rewrite Ew. cbn [json_expect]. by rewrite Hb, Hn.
  - rewrite clean_members. intros [Hk Hc] rest _.
    assert (Hr : Forall (fun kv => reads kv.2) l) by (rewrite Forall_forall in *; eauto).
    cbn [print]. unfold braces. destruct l as [|m ms]; [by exists 1%nat|].
    destruct (reads_members m ms rest Hk Hr) as [n Hn]. exists (S n). cbn [app]. rewrite <- app_assoc. cbn [app].
    change (fun kv : bytes * json => member kv.1 (print kv.2)) with print_member.
    rewrite fmap_cons in *. cbn [join] in *. rewrite <- app_assoc in *. unfold print_member at 1. unfold print_member at 1 in Hn.
    rewrite member_app in *. unfold member in *. cbn [read_value].
    change (json_ws (c_lbrace :: ?l)) with (c_lbrace :: l). cbn match. change (c_lbrace =? c_lbrace) with true. cbn match.
    change (json_ws (c_dquote :: ?l)) with (c_dquote :: l). cbn [json_expect]. change (c_dquote =? c_rbrace) with false. cbn match.
    by rewrite Hn.
Qed.

(** ** The language of JSON text

    RFC 8259's grammar as inductive relations between a text and what it stands for, written
    without the reader: [read_text] decides it and computes its tree ([read_text_iff]). *)

Definition ws_byte (b : Z) : Prop := b = 32 \/ b = 9 \/ b = 10 \/ b = 13.
Definition ws (w : bytes) : Prop := Forall ws_byte w.

(** Four hexadecimal digits and the code unit they write. *)
Inductive hex_unit : bytes -> Z -> Prop :=
| hex_unit_intro a b c d x y z w : digit_of 16 a x -> digit_of 16 b y -> digit_of 16 c z -> digit_of 16 d w ->
    hex_unit [a; b; c; d] (((x * 16 + y) * 16 + z) * 16 + w).
Inductive escape_of : Z -> Z -> Prop :=
| escape_itself e : e = 34 \/ e = 92 \/ e = 47 -> escape_of e e
| escape_backspace : escape_of 98 8
| escape_feed : escape_of 102 12
| escape_line : escape_of 110 10
| escape_return : escape_of 114 13
| escape_tab : escape_of 116 9.
(** A character of a string: the text of it, and its bytes. *)
Inductive char_text : bytes -> bytes -> Prop :=
| char_plain b : 32 <= b -> b <> 34 -> b <> 92 -> char_text [b] [b]
| char_escaped e ch : escape_of e ch -> char_text [92; e] [ch]
| char_unit h n : hex_unit h n -> n < 0xD800 \/ 0xDFFF < n -> char_text (92 :: 117 :: h) (utf8_encode n)
| char_pair h k hi lo : hex_unit h hi -> hex_unit k lo -> 0xD800 <= hi <= 0xDBFF -> 0xDC00 <= lo <= 0xDFFF ->
    char_text (92 :: 117 :: h ++ 92 :: 117 :: k) (utf8_encode (0x10000 + (hi - 0xD800) * 1024 + (lo - 0xDC00))).
Inductive chars_text : bytes -> bytes -> Prop :=
| chars_none : chars_text [] []
| chars_more p ch t s : char_text p ch -> chars_text t s -> chars_text (p ++ t) (ch ++ s).
Inductive string_text : bytes -> bytes -> Prop :=
| string_text_intro t s : chars_text t s -> utf8_valid s = true -> string_text (34 :: t ++ [34]) s.

(** The parts of a number: an integer without a leading zero, a fraction, an exponent. *)
Inductive whole_text : bytes -> Prop :=
| whole_zero : whole_text [48]
| whole_digits d ds : 49 <= d <= 57 -> digits ds -> whole_text (d :: ds).
Inductive fraction_text : bytes -> bytes -> Prop :=
| fraction_none : fraction_text [] []
| fraction_digits ds : ds <> [] -> digits ds -> fraction_text (46 :: ds) ds.
Inductive exponent_text : bytes -> Z -> Prop :=
| exponent_none : exponent_text [] 0
| exponent_plain e ds : e = 101 \/ e = 69 -> ds <> [] -> digits ds -> exponent_text (e :: ds) (dval 0 ds)
| exponent_plus e ds : e = 101 \/ e = 69 -> ds <> [] -> digits ds -> exponent_text (e :: 43 :: ds) (dval 0 ds)
| exponent_minus e ds : e = 101 \/ e = 69 -> ds <> [] -> digits ds -> exponent_text (e :: 45 :: ds) (- dval 0 ds).
(** Its value is the integer of all its digits, scaled by ten to the exponent less the length of the
    fraction, rounded once. *)
Inductive number_value : bytes -> f64 -> Prop :=
| number_value_intro (neg : bool) w f fs e x : whole_text w -> fraction_text f fs -> exponent_text e x ->
    number_value ((if neg then [45] else []) ++ w ++ f ++ e) (f64_round neg (dval 0 (w ++ fs)) (x - Z.of_nat (length fs))).

Inductive value_text : bytes -> json -> Prop :=
| text_null : value_text (b! "null") JNull
| text_true : value_text (b! "true") (JBool true)
| text_false : value_text (b! "false") (JBool false)
| text_number t x : number_value t x -> value_text t (JNum x)
| text_string t s : string_text t s -> value_text t (JStr s)
| text_no_elems w : ws w -> value_text (91 :: w ++ [93]) (JArr [])
| text_array t js : elems_text t js -> value_text (91 :: t ++ [93]) (JArr js)
| text_no_members w : ws w -> value_text (123 :: w ++ [125]) (JObj [])
| text_object t ms : members_text t ms -> value_text (123 :: t ++ [125]) (JObj ms)
with elems_text : bytes -> list json -> Prop :=
| text_elem w1 t w2 j : ws w1 -> value_text t j -> ws w2 -> elems_text (w1 ++ t ++ w2) [j]
| text_elems w1 t w2 j rest js : ws w1 -> value_text t j -> ws w2 -> elems_text rest js ->
    elems_text (w1 ++ t ++ w2 ++ 44 :: rest) (j :: js)
with members_text : bytes -> list (bytes * json) -> Prop :=
| text_member w1 k key w2 w3 t w4 j : ws w1 -> string_text k key -> ws w2 -> ws w3 -> value_text t j -> ws w4 ->
    members_text (w1 ++ k ++ w2 ++ 58 :: w3 ++ t ++ w4) [(key, j)]
| text_members w1 k key w2 w3 t w4 j rest ms : ws w1 -> string_text k key -> ws w2 -> ws w3 -> value_text t j -> ws w4 ->
    members_text rest ms -> members_text (w1 ++ k ++ w2 ++ 58 :: w3 ++ t ++ w4 ++ 44 :: rest) ((key, j) :: ms).
Inductive json_text : bytes -> json -> Prop :=
| json_text_intro w1 t w2 j : ws w1 -> value_text t j -> ws w2 -> json_text (w1 ++ t ++ w2) j.

Scheme value_text_rec := Minimality for value_text Sort Prop
with elems_text_rec := Minimality for elems_text Sort Prop
with members_text_rec := Minimality for members_text Sort Prop.
Combined Scheme text_mutual from value_text_rec, elems_text_rec, members_text_rec.

(** *** Blanks *)

Lemma ws_space b : ws_byte b <-> json_space b = true.
Proof. unfold ws_byte, json_space. rewrite !orb_true_iff, !Z.eqb_eq. lia. Qed.
Lemma skip_ws_app w l : ws w -> json_ws (w ++ l) = json_ws l.
Proof. induction 1 as [|b w Hb%ws_space _ IH]; [done|]. unfold json_ws in *. cbn [app drop_while]. by rewrite Hb. Qed.
Lemma json_ws_split l : exists w, ws w /\ l = w ++ json_ws l.
Proof.
  induction l as [|b l (w & Hw & E)]; [by exists []; split; [constructor|]|]. unfold json_ws in *. cbn [drop_while].
  destruct (json_space b) eqn:Hb; [|by exists []; split; [constructor|]].
  exists (b :: w). split; [by constructor; [apply ws_space|]|]. cbn. by rewrite <- E.
Qed.
Lemma json_ws_here b l : ~ ws_byte b -> json_ws (b :: l) = b :: l.
Proof. intros H. unfold json_ws. cbn [drop_while]. destruct (json_space b) eqn:E; [by apply ws_space in E|done]. Qed.
Lemma json_ws_twice l : json_ws (json_ws l) = json_ws l.
Proof. destruct (json_ws_split l) as (w & Hw & E). rewrite E at 2. by rewrite skip_ws_app. Qed.
Lemma ws_nil : ws [].
Proof. constructor. Qed.
Lemma ws_app w1 w2 : ws w1 -> ws w2 -> ws (w1 ++ w2).
Proof. intros. by apply Forall_app. Qed.

(** *** Strings *)

Lemma hex_val_digit b d : hex_val b = Some d <-> digit_of 16 b d.
Proof.
  unfold hex_val. split.
  - intros (x & E & Hx)%bind_Some. destruct (Z.ltb_spec x 16); [|done]. injection Hx as ->. by apply value_digit.
  - intros [E Hd]%digit_value. rewrite E. cbn [mbind option_bind]. by rewrite (proj2 (Z.ltb_lt _ _) Hd).
Qed.
Lemma digit_nonneg radix b d : digit_of radix b d -> 0 <= d < radix.
Proof. intros []; lia. Qed.
Lemma shift_in (a b : Z) : 0 <= b < 16 -> Z.lor (Z.shiftl a 4) b = a * 16 + b.
Proof.
  intros Hb. rewrite Z.shiftl_mul_pow2, (lor_disjoint (a * 2 ^ 4) b) by (lia || (apply land_low; lia)). lia.
Qed.
Lemma hex4_unit a b c d n : hex4 a b c d = Some n <-> hex_unit [a; b; c; d] n.
Proof.
  unfold hex4. split.
  - intros (x & Hx & E)%bind_Some. apply bind_Some in E as (y & Hy & E). apply bind_Some in E as (z & Hz & E).
    apply bind_Some in E as (w & Hw & [= <-]). apply hex_val_digit in Hx, Hy, Hz, Hw.
    pose proof (digit_nonneg _ _ _ Hy). pose proof (digit_nonneg _ _ _ Hz). pose proof (digit_nonneg _ _ _ Hw).
    rewrite !shift_in by lia. by constructor.
  - intros H. inversion H as [? ? ? ? x y z w Hx Hy Hz Hw]; subst.
    pose proof (digit_nonneg _ _ _ Hy). pose proof (digit_nonneg _ _ _ Hz). pose proof (digit_nonneg _ _ _ Hw).
    apply hex_val_digit in Hx, Hy, Hz, Hw. rewrite Hx, Hy, Hz, Hw. cbn [mbind option_bind]. by rewrite !shift_in by lia.
Qed.
Lemma hex_unit_four h n : hex_unit h n -> exists a b c d, h = [a; b; c; d] /\ 0 <= n < 65536.
Proof.
  intros [a b c d x y z w Hx Hy Hz Hw]. exists a, b, c, d. split; [done|].
  apply digit_nonneg in Hx, Hy, Hz, Hw. lia.
Qed.
Lemma simple_escape_of e ch : simple_escape e = Some ch <-> escape_of e ch.
Proof.
  unfold simple_escape. split.
  - repeat case_match; intros [= <-];
      repeat match goal with H : (_ =? _) = true |- _ => apply Z.eqb_eq in H; subst end; try constructor.
    apply orb_true_iff in H as [[H|H]%orb_true_iff|H]; apply Z.eqb_eq in H; auto.
  - intros []; [|done..]. by destruct H as [->|[->| ->]].
Qed.
Lemma surrogates code : (is_high_surrogate code = true <-> 0xD800 <= code <= 0xDBFF) /\ (is_low_surrogate code = true <-> 0xDC00 <= code <= 0xDFFF).
Proof. unfold is_high_surrogate, is_low_surrogate, in_range. rewrite !andb_true_iff, !Z.leb_le. lia. Qed.
Lemma unit_char n : 0 <= n < 65536 -> char_from_u32 n = Some n <-> n < 0xD800 \/ 0xDFFF < n.
Proof.
  intros Hn. unfold char_from_u32, in_range. destruct ((55296 <=? n) && (n <=? 57343)) eqn:E; cbn [orb].
  - apply andb_true_iff in E as [?%Z.leb_le ?%Z.leb_le]. split; [done|lia].
  - destruct (Z.ltb_spec 1114111 n); [lia|]. split; [intros _|done]. apply andb_false_iff in E as [?%Z.leb_gt|?%Z.leb_gt]; lia.
Qed.
Lemma pair_code hi lo : 0xD800 <= hi <= 0xDBFF -> 0xDC00 <= lo <= 0xDFFF ->
  65536 + Z.lor (Z.shiftl (hi - 55296) 10) (lo - 56320) = 0x10000 + (hi - 0xD800) * 1024 + (lo - 0xDC00) /\
  char_from_u32 (65536 + Z.lor (Z.shiftl (hi - 55296) 10) (lo - 56320)) = Some (0x10000 + (hi - 0xD800) * 1024 + (lo - 0xDC00)).
Proof.
  intros Hh Hl. assert (E : Z.lor (Z.shiftl (hi - 55296) 10) (lo - 56320) = (hi - 55296) * 1024 + (lo - 56320)).
  { rewrite Z.shiftl_mul_pow2, (lor_disjoint ((hi - 55296) * 2 ^ 10)) by (lia || (apply land_low; lia)). lia. }
  rewrite E. split; [lia|]. unfold char_from_u32, in_range.
  rewrite (proj2 (Z.leb_gt _ 57343)) by lia. rewrite andb_false_r. cbn [orb]. rewrite (proj2 (Z.ltb_ge _ _)) by lia. f_equal. lia.
Qed.

Lemma char_reads p ch l : char_text p ch -> string_body (p ++ l) = prepend ch (string_body l).
Proof.
  intros [b H1 H2 H3|e c He|h n Hh Hn|h k hi lo Hh Hk Hhi Hlo].
  - cbn [app string_body]. rewrite !(proj2 (Z.eqb_neq b _)) by done. by rewrite (proj2 (Z.ltb_ge b 32)).
  - cbn [app string_body]. change (92 =? c_dquote) with false. change (92 =? c_backslash) with true. cbn match.
    by rewrite (proj2 (simple_escape_of e c) He).
  - destruct (hex_unit_four h n Hh) as (a & b & c & d & -> & Hr). apply hex4_unit in Hh. cbn [app string_body].
    change (92 =? c_dquote) with false. change (92 =? c_backslash) with true. change (simple_escape 117) with (@None Z). cbn match.
    change (negb (117 =? 117)) with false. cbn match. rewrite Hh. destruct (surrogates n) as [S1 S2].
    destruct (is_high_surrogate n); [lia|]. destruct (is_low_surrogate n); [lia|]. by rewrite (proj2 (unit_char n Hr) Hn).
  - destruct (hex_unit_four h hi Hh) as (a & b & c & d & -> & _). destruct (hex_unit_four k lo Hk) as (a2 & b2 & c2 & d2 & -> & _).
    apply hex4_unit in Hh, Hk. cbn [app string_body].
    change (92 =? c_dquote) with false. change (92 =? c_backslash) with true. change (simple_escape 117) with (@None Z). cbn match.
    change (negb (117 =? 117)) with false. cbn match. rewrite Hh. rewrite (proj2 (proj1 (surrogates hi)) Hhi).
    change (true && (117 =? 117)) with true. cbn match. rewrite Hk, (proj2 (proj2 (surrogates lo)) Hlo).
    by rewrite (proj2 (pair_code hi lo Hhi Hlo)).
Qed.
Lemma chars_read t s l : chars_text t s -> string_body (t ++ 34 :: l) = Some (s, l).
Proof. induction 1 as [|p ch t s Hp _ IH]; [done|]. by rewrite <- app_assoc, (char_reads _ _ _ Hp), IH. Qed.
Lemma body_chars (n : nat) : forall l s r, (length l <= n)%nat -> string_body l = Some (s, r) -> exists t, l = t ++ 34 :: r /\ chars_text t s.
Proof.
  induction n as [|n IH]; intros [|b l] s r Hn; cbn [length] in Hn; try done; [lia|]. cbn [string_body].
  assert (Hp : forall p ch l2, b :: l = p ++ l2 -> char_text p ch -> (length l2 <= n)%nat -> prepend ch (string_body l2) = Some (s, r) ->
    exists t, b :: l = t ++ 34 :: r /\ chars_text t s).
  { intros p ch l2 E Hc Hl (s' & H & ->)%prepend_some. apply IH in H as (t & -> & Ht); [|done].
    exists (p ++ t). split; [by rewrite E, app_assoc|by constructor]. }
  destruct (Z.eqb_spec b c_dquote) as [->|Hq]; [intros [= <- <-]; exists []; split; [done|constructor]|].
  destruct (Z.eqb_spec b c_backslash) as [->|Hb].
  2: { destruct (Z.ltb_spec b 32); [done|]. apply (Hp [b]); [done|by constructor|lia]. }
  destruct l as [|e l]; [done|]. cbn [length] in Hn. destruct (simple_escape e) as [ch|] eqn:Ee.
  { apply simple_escape_of in Ee. apply (Hp [92; e]); [done|by constructor|lia]. }
  destruct (Z.eqb_spec e 117) as [->|]; [|done]. cbn [negb]. destruct l as [|h1 [|h2 [|h3 [|h4 l]]]]; try done. cbn [length] in Hn.
  destruct (hex4 h1 h2 h3 h4) as [code|] eqn:Eh; [|done]. apply hex4_unit in Eh.
  destruct (hex_unit_four _ _ Eh) as (u1 & u2 & u3 & u4 & _ & Hr). destruct (surrogates code) as [S1 S2].
  destruct (is_high_surrogate code).
  - destruct l as [|x [|y [|k1 [|k2 [|k3 [|k4 l]]]]]]; try done. cbn [length] in Hn.
    destruct (Z.eqb_spec x c_backslash) as [->|]; [|done]. destruct (Z.eqb_spec y 117) as [->|]; [|done]. cbn [andb].
    destruct (hex4 k1 k2 k3 k4) as [low|] eqn:Ek; [|done]. apply hex4_unit in Ek. destruct (surrogates low) as [S3 S4].
    destruct (is_low_surrogate low); [|done]. destruct (pair_code code low) as [_ ->]; [tauto..|].
    apply (Hp (92 :: 117 :: [h1; h2; h3; h4] ++ 92 :: 117 :: [k1; k2; k3; k4])); [done|constructor; tauto|lia].
  - destruct (is_low_surrogate code); [done|]. destruct (char_from_u32 code) as [ch|] eqn:Ec; [|done].
    assert (ch = code) as -> by (unfold char_from_u32 in Ec; destruct (_ || _); congruence). apply (unit_char _ Hr) in Ec.
    apply (Hp (92 :: 117 :: [h1; h2; h3; h4])); [done|by constructor|lia].
Qed.
Lemma string_reads t s l : string_text t s -> parse_string_bytes (t ++ l) = Some (s, l) /\ from_utf8 s = Some s.
Proof.
  intros [t' s' Ht Hu]. split; [|by apply from_utf8_valid]. cbn [app]. unfold parse_string_bytes. cbn [json_expect].
  change (34 =? c_dquote) with true. cbn [mbind option_bind]. rewrite <- app_assoc. by apply chars_read.
Qed.
Lemma string_read l bs s r : parse_string_bytes l = Some (bs, r) -> from_utf8 bs = Some s -> exists t, l = t ++ r /\ string_text t s.
Proof.
  unfold parse_string_bytes, json_expect. destruct l as [|b l]; [done|]. destruct (Z.eqb_spec b c_dquote) as [->|]; [|done].
  cbn [mbind option_bind]. intros H Hu. apply (body_chars (length l)) in H as (t & -> & Ht); [|done].
  unfold from_utf8 in Hu. destruct (utf8_valid bs) eqn:Ev; [|done]. injection Hu as <-.
  exists (34 :: t ++ [34]). split; [cbn; by rewrite <- app_assoc|by constructor].
Qed.

(** *** Numbers *)

Lemma some_digits_iff l ds r : some_digits l = Some (ds, r) ->
  l = ds ++ r /\ ds <> [] /\ digits ds.
Proof.
  unfold some_digits. intros H. assert (E : take_digits l = (ds, r) /\ ds <> []).
  { destruct (take_digits l) as [[|d e] r']; [done|]. by injection H as <- <-. }
  destruct E as [E Hne]. clear H. split; [|split; [done|]].
  - clear Hne. revert ds E. induction l as [|b l IH]; intros ds; cbn [take_digits]; [by intros [= <- <-]|].
    destruct (is_digit b); [|by intros [= <- <-]]. destruct (take_digits l) as [ds' r'].
    intros [= <- <-]. cbn. f_equal. by apply IH.
  - clear Hne. revert ds E. induction l as [|b l IH]; intros ds; cbn [take_digits]; [intros [= <- <-]; constructor|].
    destruct (is_digit b) eqn:Hb; [|intros [= <- <-]; constructor]. destruct (take_digits l) as [ds' r'].
    intros [= <- <-]. constructor; [by apply is_digit_spec|]. by apply IH.
Qed.
Lemma some_digits_all ds : ds <> [] -> digits ds -> some_digits ds = Some (ds, []).
Proof.
  intros Hne Hds. unfold some_digits. rewrite <- (app_nil_r ds) at 1. rewrite take_digits_all by done. by destruct ds.
Qed.
Definition no_digit (r : bytes) : Prop := match r with b :: _ => is_digit b = false | [] => True end.
Lemma digits_then ds r : ds <> [] -> digits ds -> no_digit r -> some_digits (ds ++ r) = Some (ds, r).
Proof. intros Hne Hds Hr. unfold some_digits. rewrite take_digits_all by done. by destruct ds. Qed.
Lemma whole_reads w r : whole_text w -> no_digit r -> number_whole (w ++ r) = Some (w, r).
Proof.
  intros [|d ds Hd Hds] Hr; [done|]. unfold number_whole. cbn [app]. rewrite (proj2 (Z.eqb_neq d c_0)) by lia.
  apply (digits_then (d :: ds)); [done| |done]. constructor; [lia|done].
Qed.
Lemma whole_read l w r : number_whole l = Some (w, r) -> l = w ++ r /\ whole_text w.
Proof.
  destruct l as [|b l]; [done|]. unfold number_whole. destruct (Z.eqb_spec b c_0) as [->|Hb].
  - intros [= <- <-]. split; [done|constructor].
  - intros (E & Hne & Hds)%some_digits_iff. split; [done|]. destruct w as [|d w]; [done|]. injection E as <- _.
    apply Forall_cons in Hds as [Hd Hds]. constructor; [lia|done].
Qed.
Lemma frac_reads f fs r : fraction_text f fs -> match r with b :: _ => is_digit b = false /\ b <> 46 | [] => True end ->
  number_frac (f ++ r) = Some (f, r).
Proof.
  intros [|ds Hne Hds] Hr; unfold number_frac; cbn [app].
  - destruct r as [|b r]; [done|]. cbn [json_expect]. by rewrite (proj2 (Z.eqb_neq b 46)) by apply Hr.
  - cbn. rewrite digits_then; [done..|]. destruct r; [done|apply Hr].
Qed.
Lemma frac_read l f r : number_frac l = Some (f, r) -> l = f ++ r /\ exists fs, fraction_text f fs.
Proof.
  unfold number_frac. destruct (json_expect 46 l) as [l'|] eqn:E; [|intros [= <- <-]; split; [done|by eexists; constructor]].
  intros (ds & (-> & Hne & Hds)%some_digits_iff & ->)%prepend_some. destruct l as [|b l]; [done|]. cbn in E.
  destruct (Z.eqb_spec b 46) as [->|]; [|done]. injection E as ->. split; [done|]. exists ds. by constructor.
Qed.
Lemma exp_letter e : (e =? 101) || (e =? 69) = true <-> e = 101 \/ e = 69.
Proof. rewrite orb_true_iff, !Z.eqb_eq. done. Qed.
Lemma exp_reads e x : exponent_text e x -> number_exp e = Some (e, []).
Proof.
  intros [|e' ds He Hne Hds|e' ds He Hne Hds|e' ds He Hne Hds]; [done|..]; unfold number_exp; rewrite (proj2 (exp_letter _) He).
  - destruct ds as [|d ds]; [done|]. assert (Hd := Hds). apply Forall_cons in Hd as [Hd _].
    rewrite !(proj2 (Z.eqb_neq d _)) by lia. cbn [orb]. by rewrite some_digits_all.
  - cbn. by rewrite some_digits_all.
  - cbn. by rewrite some_digits_all.
Qed.
Lemma exp_read l e r : number_exp l = Some (e, r) -> l = e ++ r /\ exists x, exponent_text e x.
Proof.
  unfold number_exp. destruct l as [|c l]; [intros [= <- <-]; split; [done|by eexists; constructor]|].
  destruct ((c =? 101) || (c =? 69)) eqn:Hc; [|intros [= <- <-]; split; [done|by eexists; constructor]]. apply exp_letter in Hc.
  destruct l as [|d l]; [done|]. destruct ((d =? c_plus) || (d =? c_minus)) eqn:Hd;
    intros (ds & (E & Hne & Hds)%some_digits_iff & ->)%prepend_some.
  - subst l. split; [done|]. apply orb_true_iff in Hd as [->%Z.eqb_eq| ->%Z.eqb_eq]; eexists; [by apply exponent_plus|by apply exponent_minus].
  - rewrite E. split; [done|]. eexists. by apply exponent_plain.
Qed.

Lemma digits_whole w : whole_text w -> digits w /\ w <> [].
Proof. intros [|d ds Hd Hds]; (split; [|done]); [by repeat constructor|constructor; [lia|done]]. Qed.
Lemma digits_fraction f fs : fraction_text f fs -> digits fs.
Proof. intros [|ds _ Hds]; [constructor|done]. Qed.
Lemma exponent_value e x : exponent_text e x -> f64_exponent e = Some x.
Proof.
  intros [|e' ds He Hne Hds|e' ds He Hne Hds|e' ds He Hne Hds]; [done|..]; unfold f64_exponent; rewrite (proj2 (exp_letter _) He).
  - destruct ds as [|d ds]; [done|]. assert (Hd := Hds). apply Forall_cons in Hd as [Hd _]. unfold f64_sign.
    rewrite !(proj2 (Z.eqb_neq d _)) by lia. by rewrite digits_value_digits.
  - cbn [f64_sign]. change (43 =? c_minus) with false. change (43 =? c_plus) with true. cbn match. by rewrite digits_value_digits.
  - cbn [f64_sign]. change (45 =? c_minus) with true. cbn match. by rewrite digits_value_digits.
Qed.
Lemma exponent_head e x : exponent_text e x -> match e with b :: _ => is_digit b = false /\ b <> 46 | [] => True end.
Proof. by intros [|e' ds [->| ->]|e' ds [->| ->]|e' ds [->| ->]]. Qed.
Lemma number_from_str t x : number_value t x -> f64_from_str t = Some x.
Proof.
  intros [neg w f fs e y Hw Hf He]. destruct (digits_whole w Hw) as [Hwd Hwn]. pose proof (digits_fraction f fs Hf) as Hfd.
  assert (Hn : f64_number neg (w ++ f ++ e) = Some (f64_round neg (dval 0 (w ++ fs)) (y - Z.of_nat (length fs)))).
  { pose proof (exponent_head e y He) as Hh. unfold f64_number.
    assert (Hb : match f ++ e with b :: _ => is_digit b = false | [] => True end).
    { destruct Hf; [|done]. by destruct e as [|b e]; [|destruct Hh]. }
    rewrite take_digits_all by done.
    assert (Es : match f ++ e with b :: l' => if b =? 46 then take_digits l' else ([], f ++ e) | [] => ([], []) end = (fs, e)).
    { destruct Hf as [|ds Hne Hds].
      - cbn [app]. destruct e as [|b e]; [done|]. by rewrite (proj2 (Z.eqb_neq b 46)) by apply Hh.
      - cbn [app]. change (46 =? 46) with true. cbn match. apply take_digits_all; [done|]. destruct e as [|b e]; [done|]. apply Hh. }
    rewrite Es. destruct (w ++ fs) as [|d ds] eqn:Ed; [by apply app_eq_nil in Ed as [? _]|].
    rewrite (exponent_value e y He). done. }
  destruct w as [|d w]; [done|]. assert (Hd := Hwd). apply Forall_cons in Hd as [Hd _].
  assert (Es : f64_sign ((if neg then [45] else []) ++ (d :: w) ++ f ++ e) = (neg, (d :: w) ++ f ++ e)).
  { destruct neg; [done|]. cbn [app f64_sign]. by rewrite !(proj2 (Z.eqb_neq d _)) by lia. }
  unfold f64_from_str. rewrite Es.
  assert (Hup : to_ascii_uppercase d = d) by (unfold to_ascii_uppercase; by rewrite (proj2 (Z.leb_gt 97 d)) by lia).
  assert (Hu : forall c cs, 57 < c -> bool_decide (to_ascii_uppercase <$> (d :: w) ++ f ++ e = c :: cs) = false).
  { intros c cs Hc. apply bool_decide_false. cbn [app]. rewrite fmap_cons, Hup. intros [= -> _]. lia. }
  assert (H1 : bool_decide (to_ascii_uppercase <$> (d :: w) ++ f ++ e = b! "INF") = false) by by apply (Hu 73).
  assert (H2 : bool_decide (to_ascii_uppercase <$> (d :: w) ++ f ++ e = b! "INFINITY") = false) by by apply (Hu 73).
  assert (H3 : bool_decide (to_ascii_uppercase <$> (d :: w) ++ f ++ e = b! "NAN") = false) by by apply (Hu 78).
  by rewrite H1, H2, H3.
Qed.
Lemma number_reads_text t x : number_value t x -> number_text t = Some (t, []).
Proof.
  intros [neg w f fs e y Hw Hf He]. unfold number_text.
  assert (Es : match json_expect c_minus ((if neg then [45] else []) ++ w ++ f ++ e) with
    | Some l' => ([c_minus], l') | None => ([], (if neg then [45] else []) ++ w ++ f ++ e) end = (if neg then [45] else [], w ++ f ++ e)).
  { destruct neg; [done|]. destruct (digits_whole w Hw) as [Hd Hn]. destruct w as [|d w]; [done|]. apply Forall_cons in Hd as [Hd _].
    cbn [app json_expect]. by rewrite (proj2 (Z.eqb_neq d c_minus)) by lia. }
  rewrite Es. pose proof (exponent_head e y He) as Hh.
  assert (Hb : no_digit (f ++ e)) by (destruct Hf; [by destruct e as [|b e]; [|destruct Hh]|done]).
  rewrite (whole_reads w (f ++ e) Hw Hb). cbn [mbind option_bind]. rewrite (frac_reads f fs e Hf Hh). cbn [mbind option_bind].
  by rewrite (exp_reads e y He).
Qed.
Lemma number_read l x r : parse_json_number l = Some (x, r) -> exists t, l = t ++ r /\ number_value t x.
Proof.
  unfold parse_json_number. intros ([t r'] & Ht & Hx)%bind_Some. apply bind_Some in Hx as (y & Hx & [= -> ->]).
  assert (E : l = t ++ r /\ exists y, number_value t y).
  { unfold number_text in Ht. set (p := match json_expect c_minus l with Some _ => _ | None => _ end) in Ht.
    assert (Ep : l = p.1 ++ p.2 /\ exists neg : bool, p.1 = if neg then [45] else []).
    { unfold p. destruct l as [|b l]; [split; [done|by exists false]|]. cbn [json_expect]. destruct (Z.eqb_spec b c_minus) as [->|].
      - split; [done|by exists true].
      - split; [done|by exists false]. }
    destruct p as [sign l1]. cbn [fst snd] in *. destruct Ep as [-> [neg ->]].
    apply bind_Some in Ht as ([w l2] & [-> Hw]%whole_read & Ht). apply bind_Some in Ht as ([f l3] & [-> [fs Hf]]%frac_read & Ht).
    apply bind_Some in Ht as ([e l4] & [-> [z He]]%exp_read & [= <- <-]).
    split; [by rewrite <- !app_assoc|]. eexists. by constructor. }
  destruct E as [-> [z Hz]]. exists t. split; [done|]. pose proof (number_from_str t z Hz) as Hz'. by assert (x = z) as -> by congruence.
Qed.
Lemma number_then t x r : number_value t x -> stops r = true -> parse_json_number (t ++ r) = Some (x, r).
Proof.
  intros Hx Hr. unfold parse_json_number. rewrite (number_text_local _ _ _ _ Hr (number_reads_text t x Hx)). cbn [mbind option_bind app].
  by rewrite (number_from_str t x Hx).
Qed.

(** *** Values: what is read is in the language *)

Lemma elems_ws w t js : ws w -> elems_text t js -> elems_text (w ++ t) js.
Proof. intros Hw [w1 t' w2 j H1 H2 H3|w1 t' w2 j rest js' H1 H2 H3 H4]; rewrite app_assoc; constructor; try done; by apply ws_app. Qed.
Lemma members_ws w t ms : ws w -> members_text t ms -> members_text (w ++ t) ms.
Proof. intros Hw [w1 k key w2 w3 t' w4 j H1|w1 k key w2 w3 t' w4 j rest ms' H1]; rewrite app_assoc; constructor; try done; by apply ws_app. Qed.
Lemma json_expect_here b l l' : json_expect b l = Some l' -> l = b :: l'.
Proof. destruct l as [|x l]; [done|]. cbn. by destruct (Z.eqb_spec x b) as [->|]; [intros [= ->]|]. Qed.
Lemma strip_prefix_here p l r : strip_prefix p l = Some r -> l = p ++ r.
Proof.
  unfold strip_prefix. destruct (starts_with p l) eqn:E; [|done]. intros [= <-]. revert l E.
  induction p as [|x p IH]; intros [|y l]; cbn; try done. intros [->%Z.eqb_eq H]%andb_true_iff. f_equal. by apply IH.
Qed.
Lemma key_read l key r : json_key l = Some (key, r) ->
  exists w1 k w2, l = w1 ++ k ++ w2 ++ 58 :: r /\ ws w1 /\ string_text k key /\ ws w2.
Proof.
  unfold json_key. intros ([bs l1] & H1 & H)%bind_Some. apply bind_Some in H as (s & H2 & H). apply bind_Some in H as (l2 & H3 & [= <- <-]).
  destruct (json_ws_split l) as (w1 & Hw1 & E1). destruct (string_read _ _ _ _ H1 H2) as (k & E2 & Hk).
  destruct (json_ws_split l1) as (w2 & Hw2 & E3). apply json_expect_here in H3. exists w1, k, w2.
  split; [|done]. by rewrite E1, E2, E3, H3 at 1.
Qed.

Definition value_sound (n : nat) : Prop := forall l j r, read_value n l = Some (Some (j, r)) ->
  exists w t, l = w ++ t ++ r /\ ws w /\ value_text t j.
Definition elems_sound (n : nat) : Prop := forall l js r, read_elems n l = Some (Some (js, r)) ->
  exists t, l = t ++ 93 :: r /\ elems_text t js.
Definition members_sound (n : nat) : Prop := forall l ms r, read_members n l = Some (Some (ms, r)) ->
  exists t, l = t ++ 125 :: r /\ members_text t ms.

Lemma value_sound_step n : elems_sound n -> members_sound n -> value_sound (S n).
Proof.
  intros He Hm l j r. cbn [read_value]. destruct (json_ws_split l) as (w & Hw & El). destruct (json_ws l) as [|b l1]; [done|].
  rewrite El. clear El. intros H.
  enough (exists t, b :: l1 = t ++ r /\ value_text t j) as (t & E & Ht) by (exists w, t; by rewrite E).
  destruct (Z.eqb_spec b c_lbrace) as [->|_].
  { destruct (json_ws_split l1) as (v & Hv & E1). destruct (json_expect c_rbrace (json_ws l1)) as [l2|] eqn:E2.
    - injection H as <- <-. apply json_expect_here in E2. exists (123 :: v ++ [125]). rewrite E1, E2. split; [by cbn; rewrite <- app_assoc|by constructor].
    - destruct (read_members n (json_ws l1)) as [[[ms l2]|]|] eqn:E3; [|done..]. injection H as <- <-.
      apply Hm in E3 as (t & E3 & Ht). exists (123 :: (v ++ t) ++ [125]). rewrite E1, E3.
      split; [by cbn; rewrite <- !app_assoc|constructor; by apply members_ws]. }
  destruct (Z.eqb_spec b c_lbracket) as [->|_].
  { destruct (json_ws_split l1) as (v & Hv & E1). destruct (json_expect c_rbracket (json_ws l1)) as [l2|] eqn:E2.
    - injection H as <- <-. apply json_expect_here in E2. exists (91 :: v ++ [93]). rewrite E1, E2. split; [by cbn; rewrite <- app_assoc|by constructor].
    - destruct (read_elems n (json_ws l1)) as [[[js l2]|]|] eqn:E3; [|done..]. injection H as <- <-.
      apply He in E3 as (t & E3 & Ht). exists (91 :: (v ++ t) ++ [93]). rewrite E1, E3.
      split; [by cbn; rewrite <- !app_assoc|constructor; by apply elems_ws]. }
  destruct (Z.eqb_spec b c_dquote) as [->|_].
  { injection H as H. apply bind_Some in H as ([bs l2] & H1 & H). apply bind_Some in H as (s & H2 & [= <- <-]).
    destruct (string_read _ _ _ _ H1 H2) as (t & E & Ht). exists t. split; [done|by constructor]. }
  destruct (_ || _).
  { injection H as H. apply bind_Some in H as ([x l2] & H1 & [= <- <-]). destruct (number_read _ _ _ H1) as (t & E & Ht).
    exists t. split; [done|by constructor]. }
  destruct (b =? 116); [|destruct (b =? 102); [|destruct (b =? 110); [|done]]]; injection H as H;
    apply bind_Some in H as (l2 & H1%strip_prefix_here & [= <- <-]); eexists; (split; [exact H1|constructor]).
Qed.
Lemma elems_sound_step n : value_sound n -> elems_sound n -> elems_sound (S n).
Proof.
  intros Hv He l js r. cbn [read_elems]. destruct (read_value n l) as [[[j l1]|]|] eqn:E; [|done..]. cbn [mbind option_bind].
  apply Hv in E as (w & t & -> & Hw & Ht). destruct (json_ws_split l1) as (w2 & Hw2 & E2).
  destruct (json_expect 44 (json_ws l1)) as [l2|] eqn:E3.
  - apply json_expect_here in E3. destruct (json_ws_split l2) as (w3 & Hw3 & E5).
    destruct (read_elems n (json_ws l2)) as [[[js' l3]|]|] eqn:E4; [|done..]. intros [= <- <-].
    apply He in E4 as (t' & E4 & Ht'). exists (w ++ t ++ w2 ++ 44 :: w3 ++ t'). split.
    + rewrite E2, E3, E5, E4. by repeat (progress rewrite <- ?app_assoc; cbn [app]).
    + constructor; try done. by apply elems_ws.
  - destruct (json_expect c_rbracket (json_ws l1)) as [l2|] eqn:E4; [|done]. intros [= <- <-]. apply json_expect_here in E4.
    exists (w ++ t ++ w2). split; [by rewrite E2, E4, <- !app_assoc|by constructor].
Qed.
Lemma members_sound_step n : value_sound n -> members_sound n -> members_sound (S n).
Proof.
  intros Hv Hm l ms r. cbn [read_members]. destruct (json_key l) as [[key l0]|] eqn:Ek; [|done].
  apply key_read in Ek as (w1 & k & w2 & -> & Hw1 & Hk & Hw2).
  destruct (read_value n l0) as [[[j l1]|]|] eqn:E; [|done..]. cbn [mbind option_bind].
  apply Hv in E as (w3 & t & -> & Hw3 & Ht). destruct (json_ws_split l1) as (w4 & Hw4 & E2).
  destruct (json_expect 44 (json_ws l1)) as [l2|] eqn:E3.
  - apply json_expect_here in E3. destruct (read_members n l2) as [[[ms' l3]|]|] eqn:E4; [|done..]. intros [= <- <-].
    apply Hm in E4 as (t' & E4 & Ht'). exists (w1 ++ k ++ w2 ++ 58 :: w3 ++ t ++ w4 ++ 44 :: t'). split.
    + rewrite E2, E3, E4. by repeat (progress rewrite <- ?app_assoc; cbn [app]).
    + by constructor.
  - destruct (json_expect c_rbrace (json_ws l1)) as [l2|] eqn:E4; [|done]. intros [= <- <-]. apply json_expect_here in E4.
    exists (w1 ++ k ++ w2 ++ 58 :: w3 ++ t ++ w4). split; [|by constructor].
    rewrite E2, E4. by repeat (progress rewrite <- ?app_assoc; cbn [app]).
Qed.
Lemma reader_sound n : value_sound n /\ elems_sound n /\ members_sound n.
Proof.
  induction n as [|n (IHv & IHe & IHm)]; [split_and!; intros ? ? ?; discriminate|].
  split_and!; [by apply value_sound_step|by apply elems_sound_step|by apply members_sound_step].
Qed.

(** *** Values: the language is read *)

Lemma value_first t j : value_text t j -> exists b t', t = b :: t' /\ b ∉ [32; 9; 10; 13; 44; 93; 125].
Proof.
  intros H. inversion H as [| | |t' x Hx|t' s Hs|w Hw|t' js Hjs|w Hw|t' ms Hms]; subst; try (eexists _, _; split; [reflexivity|set_solver by lia]).
  - destruct Hx as [neg w f fs e y Hw Hf He]. destruct neg; [eexists _, _; split; [reflexivity|set_solver by lia]|].
    destruct (digits_whole w Hw) as [Hd Hn]. destruct w as [|d w]; [done|]. apply Forall_cons in Hd as [Hd _].
    exists d, (w ++ f ++ e). split; [done|]. rewrite !not_elem_of_cons. split_and!; [lia..|apply not_elem_of_nil].
  - destruct Hs as [t' s' _ _]. eexists _, _; split; [reflexivity|set_solver by lia].
Qed.
(** What may follow a value. *)
Definition free (r : bytes) : Prop := match r with b :: _ => b ∈ [32; 9; 10; 13; 44; 93; 125] | [] => True end.
Lemma free_stops r : free r -> stops r = true.
Proof.
  destruct r as [|b r]; [done|]. cbn [free stops]. rewrite !elem_of_cons, elem_of_nil.
  intros [->|[->|[->|[->|[->|[->|[->|[]]]]]]]]; reflexivity.
Qed.
Lemma free_ws w b r : ws w -> b ∈ [44; 93; 125] -> free (w ++ b :: r).
Proof.
  intros [|c w' Hc _] Hb; cbn [app free]; [set_solver|]. rewrite !elem_of_cons. unfold ws_byte in Hc. lia.
Qed.
Lemma read_value_ws n l : read_value n (json_ws l) = read_value n l.
Proof. destruct n as [|n]; [done|]. cbn [read_value]. by rewrite json_ws_twice. Qed.
Lemma read_elems_ws n l : read_elems n (json_ws l) = read_elems n l.
Proof. destruct n as [|n]; [done|]. cbn [read_elems]. by rewrite read_value_ws. Qed.
Lemma read_members_ws n l : read_members n (json_ws l) = read_members n l.
Proof. destruct n as [|n]; [done|]. cbn [read_members]. unfold json_key. by rewrite json_ws_twice. Qed.

Definition value_complete (t : bytes) (j : json) : Prop := forall w r, ws w -> free r ->
  exists n, read_value n (w ++ t ++ r) = Some (Some (j, r)).
(** The items and the bracket after them; the first byte of an item is no bracket. *)
Definition opens_with_item (close : Z) (l : bytes) : Prop := exists b l', json_ws l = b :: l' /\ b <> close.
Definition elems_complete (t : bytes) (js : list json) : Prop := forall r, opens_with_item 93 (t ++ 93 :: r) /\
  exists n, read_elems n (t ++ 93 :: r) = Some (Some (js, r)).
Definition members_complete (t : bytes) (ms : list (bytes * json)) : Prop := forall r, opens_with_item 125 (t ++ 125 :: r) /\
  exists n, read_members n (t ++ 125 :: r) = Some (Some (ms, r)).

Lemma opens_value close w t j r : close ∈ [93; 125] -> ws w -> value_text t j -> opens_with_item close (w ++ t ++ r).
Proof.
  intros Hc Hw (b & t' & -> & Hb)%value_first. exists b, (t' ++ r). rewrite skip_ws_app by done. cbn [app].
  rewrite !not_elem_of_cons in Hb. split; [|set_solver]. apply json_ws_here. unfold ws_byte. naive_solver.
Qed.
Lemma not_closed close l : opens_with_item close l -> json_expect close (json_ws l) = None.
Proof. intros (b & l' & -> & Hb). cbn [json_expect]. by rewrite (proj2 (Z.eqb_neq b close)). Qed.

(** A container: an empty one, or its items. *)
Lemma array_complete t js : elems_complete t js -> value_complete (91 :: t ++ [93]) (JArr js).
Proof.
  intros H w r Hw _. destruct (H r) as [Ho [n Hn]]. exists (S n). cbn [read_value]. rewrite skip_ws_app by done. cbn [app].
  rewrite <- app_assoc. cbn [app]. rewrite json_ws_here by (unfold ws_byte; lia).
  change (91 =? c_lbrace) with false. change (91 =? c_lbracket) with true. cbn match.
  rewrite (not_closed c_rbracket) by done. by rewrite read_elems_ws, Hn.
Qed.
Lemma object_complete t ms : members_complete t ms -> value_complete (123 :: t ++ [125]) (JObj ms).
Proof.
  intros H w r Hw _. destruct (H r) as [Ho [n Hn]]. exists (S n). cbn [read_value]. rewrite skip_ws_app by done. cbn [app].
  rewrite <- app_assoc. cbn [app]. rewrite json_ws_here by (unfold ws_byte; lia).
  change (123 =? c_lbrace) with true. cbn match. rewrite (not_closed c_rbrace) by done. by rewrite read_members_ws, Hn.
Qed.
Lemma empty_complete w : ws w -> value_complete (91 :: w ++ [93]) (JArr []) /\ value_complete (123 :: w ++ [125]) (JObj []).
Proof.
  intros Hw. split; intros v r Hv _; exists 1%nat; cbn [read_value]; rewrite skip_ws_app by done; cbn [app];
    rewrite <- app_assoc; cbn [app]; rewrite json_ws_here by (unfold ws_byte; lia); cbn match;
    rewrite skip_ws_app, json_ws_here by (done || (unfold ws_byte; lia)); reflexivity.
Qed.
Lemma leaf_complete t j : value_text t j -> match j with JArr _ | JObj _ => False | _ => True end -> value_complete t j.
Proof.
  intros Ht Hj w r Hw Hr. exists 1%nat. cbn [read_value]. rewrite skip_ws_app by done.
  destruct (value_first t j Ht) as (b & t' & E & Hb).
  assert (Ews : json_ws (t ++ r) = t ++ r).
  { rewrite E. cbn [app]. apply json_ws_here. rewrite !not_elem_of_cons in Hb. unfold ws_byte. naive_solver. }
  rewrite Ews. clear Ews.
  destruct Ht as [| | |t x Hx|t s Hs|v Hv|t js Hjs|v Hv|t ms Hms]; try done.
  - assert (Hs : starts_number b = true).
    { destruct (number_text_head _ _ _ (number_reads_text t x Hx)) as (b' & l & E' & Hs). congruence. }
    pose proof (starts_number_range b Hs) as Hrange.
    pose proof (number_then t x r Hx (free_stops r Hr)) as Hn. rewrite E in *. cbn [app] in *.
    repeat rewrite (proj2 (Z.eqb_neq b _)) by lia. unfold starts_number in Hs. rewrite Hs, Hn. done.
  - destruct (string_reads t s r Hs) as [Hp Hu]. destruct Hs as [t0 s Ht0 Hv]. cbn [app] in *.
    change (34 =? c_lbrace) with false. change (34 =? c_lbracket) with false. change (34 =? c_dquote) with true. cbn match.
    rewrite Hp. cbn [mbind option_bind]. by rewrite Hu.
Qed.

(** An item and what follows it. *)
Lemma item_then n l j w2 r : read_value n l = Some (Some (j, w2 ++ r)) -> ws w2 -> json_ws r = r ->
  read_elems (S n) l =
    match json_expect 44 r, json_expect c_rbracket r with
    | Some l, _ => r ← read_elems n (json_ws l); Some ('(js, l) ← r; Some (j :: js, l))
    | None, Some l => Some (Some ([j], l))
    | None, None => Some None
    end.
Proof. intros E Hw Hr. cbn [read_elems]. rewrite E. cbn [mbind option_bind]. by rewrite skip_ws_app, Hr. Qed.
Lemma key_then w1 k key w2 r : ws w1 -> string_text k key -> ws w2 -> json_key (w1 ++ k ++ w2 ++ 58 :: r) = Some (key, r).
Proof.
  intros H1 Hk H2. unfold json_key. rewrite skip_ws_app by done. destruct (string_reads k key (w2 ++ 58 :: r) Hk) as [Hp Hu].
  assert (Es : json_ws (k ++ w2 ++ 58 :: r) = k ++ w2 ++ 58 :: r) by (destruct Hk; by apply json_ws_here; unfold ws_byte; lia).
  rewrite Es, Hp. cbn [mbind option_bind]. rewrite Hu. cbn [mbind option_bind].
  rewrite skip_ws_app, json_ws_here by (done || (unfold ws_byte; lia)). done.
Qed.
Lemma opens_key w1 k key r : ws w1 -> string_text k key -> opens_with_item 125 (w1 ++ k ++ r).
Proof.
  intros Hw [t s Ht Hu]. exists 34, (t ++ [34] ++ r). rewrite skip_ws_app by done. cbn [app]. rewrite <- app_assoc.
  split; [|lia]. apply json_ws_here. unfold ws_byte. lia.
Qed.

Lemma language_read : (forall t j, value_text t j -> value_complete t j) /\
  (forall t js, elems_text t js -> elems_complete t js) /\ (forall t ms, members_text t ms -> members_complete t ms).
Proof.
  apply text_mutual.
  - by apply leaf_complete; [constructor|].
  - by apply leaf_complete; [constructor|].
  - by apply leaf_complete; [constructor|].
  - intros t x Hx. by apply leaf_complete; [constructor|].
  - intros t s Hs. by apply leaf_complete; [constructor|].
  - intros w Hw. by apply empty_complete.
  - intros t js _. apply array_complete.
  - intros w Hw. by apply empty_complete.
  - intros t ms _. apply object_complete.
  - intros w1 t w2 j H1 Ht IH H2 r. rewrite <- !app_assoc. split; [by eapply opens_value; [set_solver|..]|].
    destruct (IH w1 (w2 ++ 93 :: r) H1) as [n Hn]; [by apply free_ws; [|set_solver]|]. exists (S n).
    by rewrite (item_then _ _ _ _ _ Hn H2) by (apply json_ws_here; unfold ws_byte; lia).
  - intros w1 t w2 j rest js H1 Ht IH H2 _ IHr r. destruct (IHr r) as [_ [m Hm]].
    replace ((w1 ++ t ++ w2 ++ 44 :: rest) ++ 93 :: r) with (w1 ++ t ++ w2 ++ 44 :: rest ++ 93 :: r)
      by (by repeat (progress rewrite <- ?app_assoc; cbn [app])).
    split; [by eapply opens_value; [set_solver|..]|].
    destruct (IH w1 (w2 ++ 44 :: rest ++ 93 :: r) H1) as [n Hn]; [by apply free_ws; [|set_solver]|].
    exists (S (n `max` m)). apply (read_value_more n (n `max` m)) in Hn; [|lia].
    rewrite (item_then _ _ _ _ _ Hn H2) by (apply json_ws_here; unfold ws_byte; lia). cbn [json_expect].
    change (44 =? 44) with true. cbn match. rewrite read_elems_ws.
    by rewrite (proj1 (proj2 (reader_more m _ (Nat.le_max_r n m))) _ _ Hm).
  - intros w1 k key w2 w3 t w4 j H1 Hk H2 H3 Ht IH H4 r.
    replace ((w1 ++ k ++ w2 ++ 58 :: w3 ++ t ++ w4) ++ 125 :: r) with (w1 ++ k ++ w2 ++ 58 :: (w3 ++ t ++ w4 ++ 125 :: r))
      by (by repeat (progress rewrite <- ?app_assoc; cbn [app])).
    split; [by apply (opens_key _ _ key)|].
    destruct (IH w3 (w4 ++ 125 :: r) H3) as [n Hn]; [by apply free_ws; [|set_solver]|]. exists (S n).
    cbn [read_members]. rewrite (key_then _ _ key), Hn by done. cbn [mbind option_bind].
    rewrite skip_ws_app, json_ws_here by (done || (unfold ws_byte; lia)). done.
  - intros w1 k key w2 w3 t w4 j rest ms H1 Hk H2 H3 Ht IH H4 _ IHr r. destruct (IHr r) as [_ [m Hm]].
    replace ((w1 ++ k ++ w2 ++ 58 :: w3 ++ t ++ w4 ++ 44 :: rest) ++ 125 :: r)
      with (w1 ++ k ++ w2 ++ 58 :: (w3 ++ t ++ w4 ++ 44 :: rest ++ 125 :: r))
      by (by repeat (progress rewrite <- ?app_assoc; cbn [app])).
    split; [by apply (opens_key _ _ key)|].
    destruct (IH w3 (w4 ++ 44 :: rest ++ 125 :: r) H3) as [n Hn]; [by apply free_ws; [|set_solver]|].
    exists (S (n `max` m)). cbn [read_members]. apply (read_value_more n (n `max` m)) in Hn; [|lia]. rewrite (key_then _ _ key), Hn by done.
    cbn [mbind option_bind]. rewrite skip_ws_app, json_ws_here by (done || (unfold ws_byte; lia)). cbn [json_expect].
    change (44 =? 44) with true. cbn match. by rewrite (proj2 (proj2 (reader_more m _ (Nat.le_max_r n m))) _ _ Hm).
Qed.

(** [read_text] decides the language, and its tree is the one the text stands for. *)
Lemma read_text_iff (src : bytes) (j : json) : read_text src = Some j <-> json_text src j.
Proof.
  unfold read_text. split.
  - destruct (read_value (json_fuel src) src) as [[[j' r]|]|] eqn:E; [|done..]. apply reader_sound in E as (w & t & -> & Hw & Ht).
    destruct (json_ws_split r) as (w2 & Hw2 & Er). destruct (json_ws r); [|done]. intros [= ->].
    rewrite app_nil_r in Er. subst r. by constructor.
  - intros [w1 t w2 j' H1 Ht H2]. destruct (proj1 language_read _ _ Ht w1 w2 H1) as [n Hn].
    { destruct w2 as [|b w2]; [done|]. apply Forall_cons in H2 as [H2 _]. cbn. rewrite !elem_of_cons. unfold ws_byte in H2. lia. }
    set (text := w1 ++ t ++ w2) in *. destruct (reader_ends (json_fuel text)) as [He _].
    specialize (He text ltac:(unfold json_fuel; lia)). destruct (read_value (json_fuel text) text) as [q|] eqn:E; [|done].
    apply (read_value_more _ (n `max` json_fuel text)) in Hn, E; [|lia..]. rewrite Hn in E. injection E as <-.
    assert (Ew : json_ws w2 = []) by (rewrite <- (app_nil_r w2); by rewrite skip_ws_app). by rewrite Ew.
Qed.


(** ** Properties *)

Section Claims.
Context `{Host : JsHost}.

(** The same by the reader. *)
Lemma parse_then_build (src : bytes) (c : Ctx) :
  exists r c', parse_json src c = Some (r, c') /\
    match read_text src with Some j => build j c = (r, c') | None => r = None end.
Proof.
  unfold parse_json, read_text. destruct (run_follows (json_fuel src)) as [Hv _]. specialize (Hv src c).
  destruct (reader_ends (json_fuel src)) as [He _]. specialize (He src ltac:(unfold json_fuel; lia)).
  destruct (read_value (json_fuel src) src) as [[[j l]|]|]; cbn [shorter follows] in He, Hv; [|destruct Hv as [c1 Hv]|done].
  - rewrite Hv. unfold parsed. destruct (build j c) as [[v|] c1] eqn:Eb; cbn [fst snd fmap option_fmap option_map];
      eexists _, _; (split; [done|]); by destruct (json_ws l).
  - rewrite Hv. by eexists _, _.
Qed.

(** C28: [parse_json] decides JSON and builds its tree's values.  It ends on every text.  When the text is
    JSON (the grammar of RFC 8259 with blanks around, [json_text], which is written without the
    parser), the result and the context it leaves are those of making the tree's values, containers
    before their parts and in the order of the text: the result is then [None] only when a container
    cannot be made, or a push or a write fails; a string or a number that cannot be allocated is no
    failure, but puts the exception value where its value would be.  When the text is not JSON, the
    result is [None]. *)
Theorem parse_json_reads_then_builds (src : bytes) (c : Ctx) :
  exists r c', parse_json src c = Some (r, c') /\
    (forall j, json_text src j -> build j c = (r, c')) /\ ((forall j, ~ json_text src j) -> r = None).
Proof.
  destruct (parse_then_build src c) as (r & c' & E & H). exists r, c'. split; [exact E|]. split.
  - intros j Hj%read_text_iff. by rewrite Hj in H.
  - intros Hn. destruct (read_text src) as [j|] eqn:Ej; [|done]. apply read_text_iff in Ej. by destruct (Hn j).
Qed.

(** The reader reads what is printed: for a tree whose numbers are finite and have a
    JSON text, whose strings have only the control characters with an escape, and whose names
    need no escape, reading the text of the tree gives the tree, however deep it is. *)
Lemma read_text_print (j : json) : clean j -> read_text (print j) = Some j.
Proof.
  intros Hc. destruct (all_reads j Hc [] eq_refl) as [n Hn]. rewrite app_nil_r in Hn. unfold read_text.
  destruct (reader_ends (json_fuel (print j))) as [He _].
  specialize (He (print j) ltac:(unfold json_fuel; lia)).
  destruct (read_value (json_fuel (print j)) (print j)) as [r|] eqn:E; [|done].
  set (m := (n `max` json_fuel (print j))%nat).
  apply (read_value_more _ m) in Hn, E; [|lia..]. rewrite Hn in E. by injection E as <-.
Qed.

Definition ctx0 : Ctx := let '(s, h) := context_new 4096 65536 in MkCtx h s (set_current_source [] []) no_caches [] Alive.
(** Parse, then write. *)
Definition rewritten (fuel : nat) (src : bytes) : option bytes :=
  '(r, c) ← parse_json src ctx0; v ← r; '(t, _) ← json_stringify_value fuel v c; t.
Example rewritten_same : let src := b! "{'a':[1,-2.5,0.1,true,null,{'b':'x'}],'c':''}" in
  let src := (fun b => if b =? c_quote then c_dquote else b) <$> src in rewritten 5 src = Some src.
Proof. vm_compute. reflexivity. Qed.

End Claims.

(** *** Witness *)

Lemma parse_json_reads_then_builds_witness :
  let src := [91; 49; 44; 32; 34; 92; 117; 48; 48; 101; 57; 34; 93] in
  json_text src (JArr [JNum (f64_of_int 1); JStr [195; 169]]) /\
  exists r c', parse_json (Host := silent_host) src ctx0 = Some (r, c') /\
    build (Host := silent_host) (JArr [JNum (f64_of_int 1); JStr [195; 169]]) ctx0 = (r, c').
Proof.
  cbv zeta. assert (Hj : json_text [91; 49; 44; 32; 34; 92; 117; 48; 48; 101; 57; 34; 93] (JArr [JNum (f64_of_int 1); JStr [195; 169]]))
    by (apply read_text_iff; vm_compute; reflexivity).
  split; [exact Hj|].
  destruct (parse_json_reads_then_builds (Host := silent_host) [91; 49; 44; 32; 34; 92; 117; 48; 48; 101; 57; 34; 93] ctx0) as (r & c' & E & H & _).
  exists r, c'. split; [exact E|]. exact (H _ Hj).
Defined.
