(* ===== verification/JsJsonHeap.v ===== *)
(** * JsJsonHeap: what [json_stringify_value] writes of the values in a heap

    [spells h t v]: in the heap [h] the value [v] is a copy of the tree [t].  Reading changes a
    heap only by interning names, which leaves every object, string and number where it is
    ([quiet]); so the writer's text of a copy is the tree's text, however full the memory is,
    and an array that holds itself has none. *)
From S2P Require Import Prelude IntCodec Utf8 ServerArgs JsText JsFloat JsValue JsMem JsProps JsTable JsArray JsAtom JsObject JsInv JsObjectSpec JsHeapSpec JsScope JsSource JsBytecode JsApi JsJson JsJsonSpec.

(** ** Quiet steps *)

Record quiet (h h' : JsHeap) : Prop := {
  qu_same : heap_same_ok h h';
  qu_cells : forall a c, cells h !! a = Some c -> cells h' !! a = Some c
}.

Lemma quiet_heap_refl (h : JsHeap) : good h -> quiet h h.
Proof. intros [Hok _]. split; [by apply heap_same_refl|done]. Qed.
Lemma quiet_heap_trans (h1 h2 h3 : JsHeap) : quiet h1 h2 -> quiet h2 h3 -> quiet h1 h3.
Proof.
  intros [S1 C1] [S2 C2]. split; [|auto]. split.
  - apply S2.
  - intros Hm. by apply (sa_maps _ _ S2), (sa_maps _ _ S1).
  - intros b. by rewrite (sa_view _ _ S2), (sa_view _ _ S1).
  - eapply names_kept_trans; [apply S1|apply S2].
Qed.
Lemma quiet_good (h h' : JsHeap) : good h -> quiet h h' -> good h'.
Proof. intros [_ Hm] [S _]. split; [apply S|by apply (sa_maps _ _ S)]. Qed.

Section Quiet.
Context (h h' : JsHeap) (Hg : good h) (Hq : quiet h h').

Lemma quiet_ptr (v : Value) : object_ptr h' v = object_ptr h v.
Proof. apply heap_same_ptr; [apply Hg|apply Hq]. Qed.
Lemma quiet_view (a : Z) : obj_view h' a = obj_view h a.
Proof. apply Hq. Qed.
Lemma quiet_name (atom : Z) (bs : bytes) : 0 < atom -> atom_bytes h atom = Some bs -> atom_bytes h' atom = Some bs.
Proof. intros Ha. apply (sa_names _ _ (qu_same _ _ Hq)). lia. Qed.
Lemma quiet_string (v : Value) (bs : bytes) : string_bytes h v = Some bs -> string_bytes h' v = Some bs.
Proof.
  unfold string_bytes, str_at. destruct (negb _); [done|].
  destruct (cells h !! as_ptr W v) as [c|] eqn:E; [|done]. by rewrite (qu_cells _ _ Hq _ _ E).
Qed.
Lemma quiet_float (v : Value) (bits : Z) : float_value h v = Some bits -> float_value h' v = Some bits.
Proof.
  unfold float_value. destruct (negb _); [done|].
  destruct (cells h !! as_ptr W v) as [c|] eqn:E; [|done]. by rewrite (qu_cells _ _ Hq _ _ E).
Qed.
End Quiet.

Lemma intern_quiet (name : bytes) (h : JsHeap) : good h ->
  match intern_string name h with
  | (Some atom, h') => quiet h h' /\ 0 < atom < 2 ^ 32 /\ atom_bytes h' atom = Some name
  | (None, h') => h' = h /\ forall id, atom_bytes h id <> Some name
  end.
Proof.
  intros [Hok Hm]. pose proof (intern_string_step name h (hk_layout _ Hok) (hk_atoms _ Hok)) as Hs.
  destruct (intern_string name h) as [[atom|] h']; [|done]. destruct Hs as (Hst & Hr & Hb).
  split; [|done]. split; [by apply str_step_ok|apply Hst].
Qed.
Lemma get_quiet (v : Value) (name : bytes) (h : JsHeap) : good h -> quiet h (get_property_str v name h).2.
Proof.
  intros Hg. unfold get_property_str. destruct (if bytes_eqb name s_length then _ else _); [by apply quiet_heap_refl|].
  destruct (parse_index name); [by apply quiet_heap_refl|]. pose proof (intern_quiet name h Hg) as Hi.
  destruct (intern_string name h) as [[atom|] h']; [apply Hi|]. destruct Hi as [-> _]. by apply quiet_heap_refl.
Qed.

(** ** Names that are absent along a prototype chain *)

Definition not_named (h : JsHeap) (name : bytes) (e : Entry) : Prop :=
  e.1.1 = PROP_KEY_ATOM -> exists b, 0 < e.1.2 /\ atom_bytes h e.1.2 = Some b /\ b <> name.
Fixpoint lacks (n : nat) (h : JsHeap) (name : bytes) (cur : Value) : Prop :=
  match n with
  | O => True
  | S n' =>
      match object_ptr h cur ≫= obj_view h with
      | None => True
      | Some j =>
          Forall (not_named h name) (j_props j) /\
          (if proto_end (j_proto j) then True else lacks n' h name (j_proto j))
      end
  end.
(** A name that is neither an index nor [length]. *)
Definition word (name : bytes) : Prop := parse_index name = None /\ name <> s_length.
Definition without (h : JsHeap) (name : bytes) (v : Value) : Prop := word name /\ lacks PROTO_SEARCH_LIMIT h name v.

Lemma lacks_quiet (n : nat) (h h' : JsHeap) (name : bytes) (cur : Value) : good h -> quiet h h' ->
  lacks n h name cur -> lacks n h' name cur.
Proof.
  intros Hg Hq. revert cur. induction n as [|n IH]; intros cur; [done|]. simpl. rewrite (quiet_ptr h h' Hg Hq).
  destruct (object_ptr h cur) as [a|]; [|done]. simpl. rewrite (quiet_view h h' Hq).
  destruct (obj_view h a) as [j|]; [|done]. intros [Hf Hp]. split.
  - eapply Forall_impl; [exact Hf|]. intros e He Hk. destruct (He Hk) as (b & Hr & Hb & Hne).
    exists b. split; [done|]. split; [by eapply quiet_name|done].
  - destruct (proto_end _); [done|]. by apply IH.
Qed.

Lemma table_get_in (t : list Entry) (kk : Z * Z) (v : Value) : table_get t kk = Some v -> (kk, v) ∈ t.
Proof.
  induction t as [|e t IH]; [done|]. rewrite table_get_cons. destruct (decide (e.1 = kk)) as [<-|].
  - intros [= <-]. destruct e. left.
  - intros H. right. auto.
Qed.
Lemma table_get_nodup (t : list Entry) (kk : Z * Z) (v : Value) : NoDup t.*1 -> (kk, v) ∈ t -> table_get t kk = Some v.
Proof.
  induction t as [|[k w] t IH]; [by intros _ ?%elem_of_nil|]. rewrite fmap_cons, NoDup_cons. intros [Hn Hnd] Hin.
  rewrite table_get_cons. cbn [fst snd] in *. apply elem_of_cons in Hin as [[= -> ->] | Hin]; [by rewrite decide_True|].
  rewrite decide_False; [by apply IH|]. intros ->. apply Hn. by apply (list_elem_of_fmap_2 fst) in Hin.
Qed.

Lemma lacks_walk (n : nat) (h : JsHeap) (name : bytes) (atom : Z) (cur : Value) :
  name <> s_length -> lacks n h name cur -> atom_bytes h atom = Some name ->
  or_undefined (proto_walk n h cur (fun j => js_own j (atom_key name atom j))) = UNDEFINED W.
Proof.
  intros Hl H Hb. revert cur H. induction n as [|n IH]; intros cur; [done|]. cbn [lacks proto_walk].
  destruct (object_ptr h cur ≫= obj_view h) as [j|]; [|done]. intros [Hf Hp].
  unfold atom_key at 1. unfold bytes_eqb at 1. rewrite bool_decide_false, andb_false_r by done. simpl.
  destruct (table_get _ _) as [v|] eqn:E.
  - apply table_get_in in E. rewrite Forall_forall in Hf. destruct (Hf _ E) as (b & _ & Hb' & Hne); [done|].
    simpl in Hb'. congruence.
  - destruct (proto_end _); [done|]. by apply IH.
Qed.

(** Reading an absent name gives [undefined], or nothing when the name cannot be interned. *)
Lemma without_read (h : JsHeap) (name : bytes) (v : Value) : good h -> without h name v ->
  or_undefined (get_property_str v name h).1 = UNDEFINED W.
Proof.
  intros Hg [[Hi Hl] Hw]. pose proof Hg as [Hok Hm]. unfold get_property_str. unfold bytes_eqb at 1.
  rewrite bool_decide_false, Hi by done. pose proof (intern_quiet name h Hg) as Hq.
  destruct (intern_string name h) as [[atom|] h']; [|done]. destruct Hq as (Hq & Hr & Hb). cbn [fst].
  pose proof (quiet_good h h' Hg Hq) as [Hok' Hm']. unfold get_property_atom.
  rewrite (get_atom_walk h' Hok' Hm' name atom ltac:(lia)). apply lacks_walk; [done| |done]. by apply (lacks_quiet _ h).
Qed.

(** The same, computed. *)
Definition not_named_b (h : JsHeap) (name : bytes) (e : Entry) : bool :=
  negb (e.1.1 =? PROP_KEY_ATOM) ||
  match atom_bytes h e.1.2 with Some b => (0 <? e.1.2) && negb (bytes_eqb b name) | None => false end.
Fixpoint lacks_b (n : nat) (h : JsHeap) (name : bytes) (cur : Value) : bool :=
  match n with
  | O => true
  | S n' =>
      match object_ptr h cur ≫= obj_view h with
      | None => true
      | Some j => forallb (not_named_b h name) (j_props j) && (proto_end (j_proto j) || lacks_b n' h name (j_proto j))
      end
  end.
Definition without_b (h : JsHeap) (name : bytes) (v : Value) : bool :=
  bool_decide (parse_index name = None) && negb (bytes_eqb name s_length) && lacks_b PROTO_SEARCH_LIMIT h name v.

Lemma not_named_b_ok (h : JsHeap) (name : bytes) (e : Entry) : not_named_b h name e = true -> not_named h name e.
Proof.
  unfold not_named_b, not_named. intros H Hk. rewrite Hk, Z.eqb_refl in H. simpl in H.
  destruct (atom_bytes h e.1.2) as [b|]; [|done]. apply andb_true_iff in H as [Hr Hb]. apply Z.ltb_lt in Hr.
  exists b. split; [exact Hr|]. split; [done|]. intros ->. unfold bytes_eqb in Hb. by rewrite bool_decide_true in Hb.
Qed.
Lemma lacks_b_ok (n : nat) (h : JsHeap) (name : bytes) (cur : Value) : lacks_b n h name cur = true -> lacks n h name cur.
Proof.
  revert cur. induction n as [|n IH]; intros cur; [done|]. cbn [lacks lacks_b].
  destruct (object_ptr h cur ≫= obj_view h) as [j|]; [|done]. intros [Hf Hp]%andb_true_iff. split.
  - rewrite forallb_forall in Hf. apply Forall_forall. intros e He. apply not_named_b_ok, Hf. by apply list_elem_of_In.
  - destruct (proto_end _); [done|]. by apply IH.
Qed.
Lemma without_b_ok (h : JsHeap) (name : bytes) (v : Value) : without_b h name v = true -> without h name v.
Proof.
  unfold without_b. intros [[Hi Hl]%andb_true_iff Hb]%andb_true_iff. split; [|by apply lacks_b_ok].
  apply bool_decide_eq_true_1 in Hi. split; [exact Hi|]. intros ->. unfold bytes_eqb in Hl. by rewrite bool_decide_true in Hl.
Qed.

(** ** Copies of trees *)

Definition s_closure : bytes := b! "__closure__".
Definition getter (name : bytes) : bytes := b! "__get__" ++ name.
(** No getter, no marker of a closure. *)
Definition no_marker (h : JsHeap) (v : Value) : Prop := without h s_closure v /\ without h (getter s_closure) v.

(** What the writer asks of an object before it writes its parts. *)
Record container (h : JsHeap) (v : Value) (j : JObject) : Prop := {
  ct_view : exists a, object_ptr h v = Some a /\ obj_view h a = Some j;
  ct_marker : no_marker h v
}.
Record array_of (h : JsHeap) (v : Value) (j : JObject) : Prop := {
  ar_container : container h v j;
  ar_class : j_class j = CLASS_ARRAY;
  ar_flag : j_array j = true;
  ar_length : Z.of_nat (length (j_elems j)) < 2 ^ 31;
  ar_name : exists atom, 0 < atom /\ atom_bytes h atom = Some s_length
}.
Record object_of (h : JsHeap) (v : Value) (j : JObject) : Prop := {
  ob_container : container h v j;
  ob_class : j_class j <> CLASS_ARRAY /\ j_class j <> CLASS_CFUNCTION /\ j_class j <> CLASS_CLOSURE;
  ob_flag : j_array j = false
}.
(** An own property called [name], not hidden by a getter. *)
Record member_of (h : JsHeap) (v : Value) (name : bytes) (k : Z * Z) : Prop := {
  mb_key : match parse_index name with
    | Some idx => k = (PROP_KEY_INDEX, idx) /\ int_to_string idx = name
    | None => k.1 = PROP_KEY_ATOM /\ 0 < k.2 < 2 ^ 32 /\ atom_bytes h k.2 = Some name
    end;
  mb_utf8 : utf8_valid name = true;
  mb_plain : accessor_name name = false;
  mb_getter : without h (getter name) v
}.
Definition number_at (h : JsHeap) (v : Value) (x : f64) : Prop :=
  match int32 W v with
  | Some n => x = f64_of_int n
  | None => is_number v = false /\ f64_from_bits <$> float_value h v = Some x
  end.

Fixpoint spells (h : JsHeap) (t : json) (v : Value) {struct t} : Prop :=
  match t with
  | JNull => v = NULL W
  | JBool b => v = if b then TRUE W else FALSE W
  | JNum x => number_at h v x
  | JStr s => string_bytes h v = Some s /\ utf8_valid s = true
  | JArr l =>
      exists j, array_of h v j /\
        (fix all (l : list json) (vs : list Value) : Prop :=
          match l, vs with
          | [], [] => True
          | x :: l', w :: vs' => spells h x w /\ all l' vs'
          | _, _ => False
          end) l (j_elems j)
  | JObj l =>
      exists j, object_of h v j /\
        (fix all (l : list (bytes * json)) (es : list Entry) : Prop :=
          match l, es with
          | [], [] => True
          | x :: l', e :: es' => (member_of h v x.1 e.1 /\ spells h x.2 e.2) /\ all l' es'
          | _, _ => False
          end) l (j_props j)
  end.

Lemma spells_array (h : JsHeap) (l : list json) (v : Value) :
  spells h (JArr l) v <-> exists j, array_of h v j /\ Forall2 (spells h) l (j_elems j).
Proof.
  cbn [spells]. f_equiv. intros j. f_equiv. generalize (j_elems j). induction l as [|x l IH]; intros [|w vs].
  - split; [constructor|done].
  - by split; [|intros ?%Forall2_nil_inv_l].
  - by split; [|intros ?%Forall2_nil_inv_r].
  - by rewrite Forall2_cons, IH.
Qed.
Lemma spells_object (h : JsHeap) (l : list (bytes * json)) (v : Value) :
  spells h (JObj l) v <-> exists j, object_of h v j /\
    Forall2 (fun x e => member_of h v x.1 e.1 /\ spells h x.2 e.2) l (j_props j).
Proof.
  cbn [spells]. f_equiv. intros j. f_equiv. generalize (j_props j). induction l as [|x l IH]; intros [|w vs].
  - split; [constructor|done].
  - by split; [|intros ?%Forall2_nil_inv_l].
  - by split; [|intros ?%Forall2_nil_inv_r].
  - by rewrite Forall2_cons, IH.
Qed.

(** A copy stays a copy through quiet steps. *)
Section SpellsQuiet.
Context (h h' : JsHeap) (Hg : good h) (Hq : quiet h h').

Lemma without_quiet (name : bytes) (v : Value) : without h name v -> without h' name v.
Proof. intros [? ?]. split; [done|]. by apply (lacks_quiet _ h). Qed.
Lemma container_quiet (v : Value) (j : JObject) : container h v j -> container h' v j.
Proof.
  intros [(a & Hp & Hv) [H1 H2]]. split; [|exact (conj (without_quiet _ _ H1) (without_quiet _ _ H2))].
  exists a. by rewrite (quiet_ptr h h' Hg Hq), (quiet_view h h' Hq).
Qed.
Lemma array_of_quiet (v : Value) (j : JObject) : array_of h v j -> array_of h' v j.
Proof.
  intros [Hc ? ? ? (atom & Hr & Ha)]. split; [by apply container_quiet|assumption..|].
  exists atom. split; [exact Hr|]. exact (quiet_name h h' Hq atom _ Hr Ha).
Qed.
Lemma object_of_quiet (v : Value) (j : JObject) : object_of h v j -> object_of h' v j.
Proof. intros [Hc ? ?]. split; [by apply container_quiet|assumption..]. Qed.
Lemma member_of_quiet (v : Value) (name : bytes) (k : Z * Z) : member_of h v name k -> member_of h' v name k.
Proof.
  intros [Hk ? ? Hw]. split; [|assumption..|exact (without_quiet _ _ Hw)].
  destruct (parse_index name); [exact Hk|]. destruct Hk as (Hk & Hr & Hb). split; [exact Hk|]. split; [exact Hr|].
  exact (quiet_name h h' Hq k.2 _ (proj1 Hr) Hb).
Qed.
Lemma number_at_quiet (v : Value) (x : f64) : number_at h v x -> number_at h' v x.
Proof.
  unfold number_at. destruct (int32 W v); [done|]. intros [? Hf]. split; [done|].
  destruct (float_value h v) as [bits|] eqn:E; [|done]. by rewrite (quiet_float h h' Hq v bits E).
Qed.
Lemma spells_quiet (t : json) (v : Value) : spells h t v -> spells h' t v.
Proof.
  revert v. induction t as [| | | |l IH|l IH] using json_ind'; intros v; [done|done|apply number_at_quiet| | |].
  - intros [Hs ?]. split; [|done]. by apply (quiet_string h).
  - rewrite !spells_array. intros (j & Ha & Hf). exists j. split; [by apply array_of_quiet|].
    revert Hf. generalize (j_elems j). induction IH as [|x l Hx _ IHl]; intros vs Hf;
      [by apply Forall2_nil_inv_l in Hf as ->|].
    apply Forall2_cons_inv_l in Hf as (w & vs' & ? & ? & ->). constructor; auto.
  - rewrite !spells_object. intros (j & Ha & Hf). exists j. split; [by apply object_of_quiet|].
    revert Hf. generalize (j_props j). induction IH as [|x l Hx _ IHl]; intros vs Hf;
      [by apply Forall2_nil_inv_l in Hf as ->|].
    apply Forall2_cons_inv_l in Hf as (w & vs' & [? ?] & ? & ->). constructor; [|by auto].
    split; [by apply member_of_quiet|by auto].
Qed.
End SpellsQuiet.

(** ** Reads of a copy *)

Record quiet_ctx (c c' : Ctx) : Prop := {
  qc_heap : quiet (heap c) (heap c');
  qc_scope : scope c' = scope c;
  qc_source : source c' = source c;
  qc_fate : fate c' = fate c
}.
Definition good_ctx (c : Ctx) : Prop := good (heap c).

Lemma quiet_ctx_refl (c : Ctx) : good_ctx c -> quiet_ctx c c.
Proof. intros Hg. split; [by apply quiet_heap_refl|done..]. Qed.
Lemma quiet_ctx_trans (c1 c2 c3 : Ctx) : quiet_ctx c1 c2 -> quiet_ctx c2 c3 -> quiet_ctx c1 c3.
Proof. intros [? ? ? ?] [? ? ? ?]. split; [by eapply quiet_heap_trans|congruence..]. Qed.
Lemma quiet_ctx_good (c c' : Ctx) : good_ctx c -> quiet_ctx c c' -> good_ctx c'.
Proof. intros Hg [Hq _ _ _]. exact (quiet_good _ _ Hg Hq). Qed.

Lemma on_heap_get (v : Value) (name : bytes) (c : Ctx) : good_ctx c ->
  exists c', on_heap (get_property_str v name) c = ((get_property_str v name (heap c)).1, c') /\ quiet_ctx c c'.
Proof.
  intros Hg. pose proof (get_quiet v name (heap c) Hg) as Hq. unfold on_heap.
  destruct (get_property_str v name (heap c)) as [r h']. exists (with_heap h' c). split; [done|]. by split.
Qed.

Section Reads.
Context `{Host : JsHost}.

Lemma call_accessor_absent (key : bytes) (v : Value) (args : list Value) (c : Ctx) :
  good_ctx c -> without (heap c) key v -> exists c', call_accessor key v args c = (None, c') /\ quiet_ctx c c'.
Proof.
  intros Hg Hw. pose proof (without_read _ _ _ Hg Hw) as Hr. destruct (on_heap_get v key c Hg) as (c' & E & Hq).
  exists c'. split; [|exact Hq]. unfold call_accessor. rewrite E.
  destruct ((get_property_str v key (heap c)).1) as [f|]; [|done]. simpl in Hr. by rewrite Hr.
Qed.

Lemma get_str_plain (v : Value) (name : bytes) (c : Ctx) :
  good_ctx c -> accessor_name name = false -> without (heap c) (getter name) v ->
  exists c1 c2, js_get_property_str v name c = (or_undefined (get_property_str v name (heap c1)).1, c2) /\
    quiet_ctx c c1 /\ quiet_ctx c c2.
Proof.
  intros Hg Hn Hw. destruct (call_accessor_absent (getter name) v [] c Hg Hw) as (c1 & E1 & Hq1).
  pose proof (quiet_ctx_good _ _ Hg Hq1) as Hg1. destruct (on_heap_get v name c1 Hg1) as (c2 & E2 & Hq2).
  exists c1, c2. split; [|split; [exact Hq1|exact (quiet_ctx_trans _ _ _ Hq1 Hq2)]].
  unfold js_get_property_str. rewrite Hn. fold (getter name). by rewrite E1, E2.
Qed.

Lemma get_str_absent (v : Value) (name : bytes) (c : Ctx) :
  good_ctx c -> accessor_name name = false -> without (heap c) name v -> without (heap c) (getter name) v ->
  exists c', js_get_property_str v name c = (UNDEFINED W, c') /\ quiet_ctx c c'.
Proof.
  intros Hg Hn Hw Hw'. destruct (get_str_plain v name c Hg Hn Hw') as (c1 & c2 & E & Hq1 & Hq2).
  exists c2. split; [|exact Hq2]. rewrite E. f_equal. apply without_read; [exact (quiet_ctx_good _ _ Hg Hq1)|].
  exact (without_quiet _ _ Hg (qc_heap _ _ Hq1) _ _ Hw).
Qed.

Lemma get_str_member (v w : Value) (name : bytes) (k : Z * Z) (j : JObject) (c : Ctx) :
  good_ctx c -> object_of (heap c) v j -> member_of (heap c) v name k -> (k, w) ∈ j_props j ->
  exists c', js_get_property_str v name c = (w, c') /\ quiet_ctx c c'.
Proof.
  intros Hg [[(a & Hp & Hv) _] _ Hna] [Hk _ Hn Hw] Hin.
  destruct (get_str_plain v name c Hg Hn Hw) as (c1 & c2 & E & Hq1 & Hq2).
  exists c2. split; [|exact Hq2]. rewrite E. f_equal. destruct Hq1 as [Hq _ _].
  pose proof (quiet_good _ _ Hg Hq) as Hg1.
  assert (Hnd : NoDup (j_props j).*1).
  { destruct (obj_view_inv _ _ _ Hv) as (o & Ha & ->). apply (li_keys _ _ _ (hk_list _ (proj1 Hg) a o Ha)). }
  pose proof (table_get_nodup _ _ _ Hnd Hin) as Hget.
  rewrite (get_own_first (heap c1) v name a j (if parse_index name then KIndex k.2 else KAtom k.2) w); try done.
  - by rewrite (quiet_ptr _ _ Hg Hq).
  - by rewrite (quiet_view _ _ Hq).
  - unfold key_of_name. destruct (parse_index name) as [idx|]; [by destruct Hk as [-> _]|].
    destruct Hk as (Hk & Hr & Hb). exists k.2. unfold atom_key. rewrite Hna. split; [done|]. right. split; [done|].
    exact (quiet_name _ _ Hq _ _ (proj1 Hr) Hb).
  - by destruct (parse_index name).
  - destruct (parse_index name) as [idx|]; simpl.
    + rewrite Hna. by destruct Hk as [-> _].
    + destruct Hk as (Hk & _). by destruct k; simpl in *; subst.
Qed.

Lemma ptr_is_no_other (v : Value) : is_ptr W v = true ->
  is_int v = false /\ is_bool v = false /\ is_null W v = false /\ is_undefined W v = false.
Proof.
  intros Hp. assert (Hw : word_size W) by (by left). split; [|split; [|split]].
  - destruct (is_int v) eqn:Ei; [|done]. by rewrite (even_not_ptr W v Hw Ei) in Hp.
  - rewrite is_ptr_mod in Hp by done. apply Z.eqb_eq in Hp. unfold is_bool. rewrite special_tag_eq. apply Z.eqb_neq.
    change W with 8 in Hp. change TAG_BOOL with 3. intros E. clear Hw. Z.to_euclidean_division_equations. lia.
  - unfold is_null. destruct (Z.eqb_spec v (NULL W)) as [->|]; [by vm_compute in Hp|done].
  - unfold is_undefined. destruct (Z.eqb_spec v (UNDEFINED W)) as [->|]; [by vm_compute in Hp|done].
Qed.
(** A container is none of the values [write_leaf] knows. *)
Lemma object_not_leaf (h : JsHeap) (v : Value) (a : Z) : object_ptr h v = Some a ->
  string_bytes h v = None /\ float_value h v = None /\ is_ptr W v = true.
Proof.
  intros Hp. pose proof (object_ptr_addr h v a Hp) as [Ha ->]. destruct (object_ptr_obj h v a Hp) as [o Ho].
  split; [done|]. unfold float_value. rewrite Ha, Ho. unfold object_ptr in Hp.
  destruct (is_ptr W v); [|done]. by split.
Qed.
Lemma container_leaf (in_array : bool) (v : Value) (j : JObject) (c : Ctx) :
  good_ctx c -> container (heap c) v j -> j_class j <> CLASS_CFUNCTION -> j_class j <> CLASS_CLOSURE ->
  class_of c v = Some (j_class j) /\ exists c', write_leaf in_array v c = (None, c') /\ quiet_ctx c c'.
Proof.
  intros Hg [(a & Hp & Hv) [Hm1 Hm2]] H1 H2.
  assert (Hc : class_of c v = Some (j_class j)).
  { unfold class_of, object_class_id. rewrite Hp. simpl. destruct (obj_view_inv _ _ _ Hv) as (o & Ha & ->).
    by rewrite (obj_at_cell _ _ _ Ha). }
  split; [exact Hc|].
  destruct (get_str_absent v s_closure c Hg eq_refl Hm1 Hm2) as (c' & E & Hq). exists c'. split; [|exact Hq].
  destruct (object_not_leaf _ _ _ Hp) as (Hs & Hf & Hptr).
  destruct (ptr_is_no_other v Hptr) as (Ei & Eb & En & Eu).
  unfold write_leaf, js_is_function, str_of, js_is_number, float_of, is_number. rewrite Hs, Hf, Ei, Eb, En, Eu, Hc.
  cbn [orb fmap option_fmap option_map]. rewrite bool_decide_false by (by intros [? ?]). cbn match.
  apply Z.eqb_neq in H1, H2. rewrite H1, H2. cbn [orb]. fold s_closure. by rewrite E.
Qed.

(** ** The writer *)

Definition prints (rec : bool -> Value -> Ctx -> option (option bytes * Ctx)) (t : json) : Prop :=
  forall b v c, good_ctx c -> spells (heap c) t v ->
    exists c', rec b v c = Some (Some (print t), c') /\ quiet_ctx c c'.

Lemma array_element (v w : Value) (i : nat) (j : JObject) (c : Ctx) : good_ctx c -> array_of (heap c) v j ->
  j_elems j !! i = Some w -> js_get_property_uint32 v (Z.of_nat i) c = (w, c).
Proof.
  intros [Hok _] [[(a & Hp & Hv) _] _ Hf _ _] Hi. unfold js_get_property_uint32, array_direct_get.
  rewrite Hp. cbn [mbind option_bind]. rewrite (is_array_view _ _ _ Hv), Hf. cbn [negb].
  rewrite (array_get_view _ a j Hok Hv) by lia. by rewrite Nat2Z.id, Hi.
Qed.

Lemma write_elems_prints rec (v : Value) (j : JObject) (l : list json) (i : nat) (c : Ctx) :
  good_ctx c -> array_of (heap c) v j -> Forall (prints rec) l ->
  Forall2 (spells (heap c)) l (drop i (j_elems j)) ->
  exists c', write_elems rec v (seq i (length l)) c = Some (print <$> l, c') /\ quiet_ctx c c'.
Proof.
  intros Hg Ha Hl. revert i c Hg Ha. induction Hl as [|x l Hx Hl IH]; intros i c Hg Ha Hs.
  - exists c. split; [done|]. by apply quiet_ctx_refl.
  - apply Forall2_cons_inv_l in Hs as (w & vs & Hw & Hs & Hd). cbn [length seq write_elems].
    assert (Hi : j_elems j !! i = Some w) by (rewrite <- (Nat.add_0_r i), <- lookup_drop, Hd; done).
    assert (Hvs : vs = drop (S i) (j_elems j)) by (by rewrite <- Nat.add_1_r, <- drop_drop, Hd). subst vs.
    rewrite (array_element v w i j c Hg Ha Hi). destruct (Hx true w c Hg Hw) as (c1 & E1 & Hq1). rewrite E1.
    cbn [mbind option_bind]. pose proof (quiet_ctx_good _ _ Hg Hq1) as Hg1. destruct Hq1 as [Hq ? ? ?].
    destruct (IH (S i) c1 Hg1 (array_of_quiet _ _ Hg Hq _ _ Ha)) as (c2 & E2 & Hq2).
    { eapply Forall2_impl; [exact Hs|]. intros t u. exact (spells_quiet _ _ Hg Hq t u). }
    rewrite E2. cbn [mbind option_bind]. exists c2. split; [done|]. eapply quiet_ctx_trans; [by split|exact Hq2].
Qed.

Lemma write_members_prints rec (v : Value) (j : JObject) (l : list (bytes * json)) (es : list Entry) (c : Ctx) :
  good_ctx c -> object_of (heap c) v j -> (forall e, e ∈ es -> e ∈ j_props j) -> Forall (fun x => prints rec x.2) l ->
  Forall2 (fun x e => member_of (heap c) v x.1 e.1 /\ spells (heap c) x.2 e.2) l es ->
  exists c', write_members rec v (l.*1) c = Some (print_member <$> l, c') /\ quiet_ctx c c'.
Proof.
  intros Hg Ho Hes Hl. revert es c Hg Ho Hes. induction Hl as [|[name t] l Hx Hl IH]; intros es c Hg Ho Hes Hs.
  - exists c. split; [done|]. by apply quiet_ctx_refl.
  - apply Forall2_cons_inv_l in Hs as ([k w] & es' & [Hm Hw] & Hs & ->). cbn [fst snd] in *.
    rewrite !fmap_cons. cbn [fst write_members].
    destruct (get_str_member v w name k j c Hg Ho Hm (Hes _ ltac:(by left))) as (c0 & E0 & Hq0). rewrite E0.
    pose proof (quiet_ctx_good _ _ Hg Hq0) as Hg0.
    destruct (Hx false w c0 Hg0 (spells_quiet _ _ Hg (qc_heap _ _ Hq0) _ _ Hw)) as (c1 & E1 & Hq1). cbn [snd] in E1. rewrite E1.
    cbn [mbind option_bind]. pose proof (quiet_ctx_trans _ _ _ Hq0 Hq1) as Hq. pose proof (qc_heap _ _ Hq) as Hqh.
    destruct (IH es' c1 (quiet_ctx_good _ _ Hg Hq) (object_of_quiet _ _ Hg Hqh _ _ Ho)) as (c2 & E2 & Hq2).
    { intros e He. apply Hes. by right. }
    { eapply Forall2_impl; [exact Hs|]. intros x e [H1 H2].
      split; [exact (member_of_quiet _ _ Hg Hqh _ _ _ H1)|exact (spells_quiet _ _ Hg Hqh _ _ H2)]. }
    rewrite E2. cbn [mbind option_bind]. exists c2. split; [done|]. exact (quiet_ctx_trans _ _ _ Hq Hq2).
Qed.

Lemma array_length_named (v : Value) (a : Z) (j : JObject) (atom : Z) (c : Ctx) : good_ctx c ->
  object_ptr (heap c) v = Some a -> obj_view (heap c) a = Some j -> j_array j = true -> 0 < atom -> atom_bytes (heap c) atom = Some s_length ->
  exists c', on_heap (get_property_str v s_length) c = (Some (len_value (Z.of_nat (length (j_elems j)))), c') /\ quiet_ctx c c'.
Proof.
  intros Hg Hp Hv Hf Hr Ha. destruct (on_heap_get v s_length c Hg) as (c' & E & Hq).
  exists c'. split; [|exact Hq]. rewrite E. f_equal.
  pose proof (object_ptr_addr _ _ _ Hp) as [_ Hs]. unfold get_property_str.
  change (bytes_eqb s_length s_length) with true. change (parse_index s_length) with (@None Z). cbn match. rewrite Hs.
  pose proof (intern_quiet s_length (heap c) Hg) as Hi.
  destruct (intern_string s_length (heap c)) as [[id|] h1]; [|by destruct Hi as [_ Hi]; destruct (Hi atom)].
  destruct Hi as (Hq1 & Hr1 & _). cbn [fst]. pose proof (quiet_good _ _ Hg Hq1) as [Hok1 Hm1]. unfold get_property_atom.
  rewrite (get_atom_walk h1 Hok1 Hm1 s_length id ltac:(lia)). cbn [proto_walk PROTO_SEARCH_LIMIT].
  rewrite (quiet_ptr _ _ Hg Hq1), Hp. cbn [mbind option_bind]. rewrite (quiet_view _ _ Hq1), Hv.
  unfold atom_key. rewrite Hf. done.
Qed.
Lemma array_length_read (v : Value) (j : JObject) (c : Ctx) : good_ctx c -> array_of (heap c) v j ->
  exists c', on_heap (get_property_str v s_length) c = (Some (len_value (Z.of_nat (length (j_elems j)))), c') /\ quiet_ctx c c'.
Proof. intros Hg [[(a & Hp & Hv) _] _ Hf _ (atom & Hr & Ha)]. by eapply array_length_named. Qed.
Lemma int32_len_value (n : Z) : 0 <= n < 2 ^ 31 -> int32 W (len_value n) = Some n.
Proof.
  intros Hn. assert (Hi : in_i32 n) by (unfold in_i32; lia). unfold len_value. rewrite as_i32_id by done.
  apply int32_roundtrip; [by left|done|by left].
Qed.

Fixpoint depth (t : json) : nat :=
  match t with
  | JArr l => S (list_max (depth <$> l))
  | JObj l => S (list_max ((fun x => depth x.2) <$> l))
  | _ => O
  end.

Lemma prints_parts {A} (f : A -> json) (fuel : nat) (l : list A) :
  Forall (fun x => forall n, (depth (f x) <= n)%nat -> prints (json_stringify_inner (S n)) (f x)) l ->
  (list_max ((fun x => depth (f x)) <$> l) <= fuel)%nat -> Forall (fun x => prints (json_stringify_inner (S fuel)) (f x)) l.
Proof.
  intros Hf Hm. apply list_max_le in Hm. rewrite Forall_fmap in Hm. rewrite Forall_forall in *. intros x Hx.
  apply (Hf x Hx). exact (Hm x Hx).
Qed.

Lemma leaf_prints (t : json) (fuel : nat) : match t with JArr _ | JObj _ => False | _ => True end ->
  prints (json_stringify_inner (S fuel)) t.
Proof.
  intros Ht b v c Hg Hs. exists c. split; [|by apply quiet_ctx_refl]. cbn [json_stringify_inner]. unfold write_value, write_leaf.
  destruct t as [|x|x|s| |]; [| | | |done..]; cbn [spells print] in *.
  - subst v. done.
  - subst v. by destruct x.
  - unfold number_at in Hs. destruct (int32 W v) as [n|] eqn:Ei.
    + assert (Hint : is_int v = true) by (unfold int32 in Ei; by destruct (is_int v)).
      pose proof (even_not_ptr W v ltac:(by left) Hint) as Hp.
      unfold js_is_number, is_number, js_to_number, class_of, object_class_id, object_ptr, prim_to_number, str_of, string_bytes.
      rewrite Hp, Hint, Ei. by subst x.
    + destruct Hs as [Hn Hf]. assert (Hfl : exists bits, float_value (heap c) v = Some bits /\ f64_from_bits bits = x).
      { destruct (float_value (heap c) v) as [bits|]; [|done]. injection Hf as <-. by exists bits. }
      destruct Hfl as (bits & Hb & Hx). unfold js_is_number, js_to_number, prim_to_number, float_of, str_of, class_of, object_class_id.
      rewrite Hn, Ei, Hb. unfold float_value in Hb. unfold string_bytes, str_at, object_ptr, tag_at.
      destruct (negb (is_ptr W v)); [done|]. destruct (cells (heap c) !! as_ptr W v) as [[| | |b'|]|]; try done.
      cbn. destruct (as_ptr W v =? 0); cbn; by rewrite Hx.
  - destruct Hs as [Hs Hu]. unfold str_of. rewrite Hs. unfold from_utf8. by rewrite Hu.
Qed.

Lemma key_name_member (h : JsHeap) (v : Value) (name : bytes) (k : Z * Z) : member_of h v name k -> key_name h k = Some name.
Proof.
  intros [Hk Hu _ _]. unfold key_name. destruct (parse_index name) as [idx|].
  - destruct Hk as [-> <-]. done.
  - destruct Hk as (-> & _ & ->). cbn. unfold from_utf8. by rewrite Hu.
Qed.
Lemma object_keys_names (v : Value) (j : JObject) (l : list (bytes * json)) (c : Ctx) : good_ctx c ->
  object_of (heap c) v j -> Forall2 (fun x e => member_of (heap c) v x.1 e.1 /\ spells (heap c) x.2 e.2) l (j_props j) ->
  object_keys (heap c) v = Some (l.*1).
Proof.
  intros Hg [[(a & Hp & Hv) _] _ Hna] Hs. unfold object_keys. rewrite Hp. cbn [mbind option_bind].
  rewrite (is_array_view _ _ _ Hv), Hna. cbn [app]. f_equal.
  assert (Hpr : obj_props (heap c) a = j_props j) by (by destruct (obj_view_inv _ _ _ Hv) as (o & _ & ->)).
  rewrite Hpr. clear - Hs. induction Hs as [|x e l es [Hm _] _ IH]; [done|].
  rewrite fmap_cons, <- IH. cbn [omap list_omap]. by rewrite (key_name_member _ _ _ _ Hm).
Qed.

Lemma copies_print (t : json) (fuel : nat) : (depth t <= fuel)%nat -> prints (json_stringify_inner (S fuel)) t.
Proof.
  revert fuel. induction t as [| | | |l IH|l IH] using json_ind'; intros fuel Hd; try by apply leaf_prints.
  - destruct fuel as [|fuel]; cbn [depth] in Hd; [lia|]. apply (prints_parts id) with (fuel := fuel) in IH; [|exact (le_S_n _ _ Hd)].
    intros b v c Hg (j & Ha & Hs)%spells_array. pose proof Ha as [Hc Hcl _ Hlen _].
    destruct (container_leaf b v j c Hg Hc) as (Hclass & c1 & E1 & Hq1); [by rewrite Hcl..|].
    change (json_stringify_inner (S (S fuel)) b v c) with (write_value (json_stringify_inner (S fuel)) b v c).
    unfold write_value. rewrite E1. pose proof (quiet_ctx_good _ _ Hg Hq1) as Hg1.
    pose proof (array_of_quiet _ _ Hg (qc_heap _ _ Hq1) _ _ Ha) as Ha1.
    assert (Hclass1 : class_of c1 v = Some CLASS_ARRAY).
    { destruct Ha1 as [Hc1 _ _ _ _]. destruct (container_leaf b v j c1 Hg1 Hc1) as [-> _]; by rewrite Hcl. }
    rewrite Hclass1, bool_decide_true by done.
    destruct (array_length_read v j c1 Hg1 Ha1) as (c2 & E2 & Hq2). rewrite E2. cbn [mbind option_bind].
    rewrite int32_len_value, Nat2Z.id by lia. pose proof (quiet_ctx_good _ _ Hg1 Hq2) as Hg2.
    pose proof (quiet_ctx_trans _ _ _ Hq1 Hq2) as Hq. rewrite <- (Forall2_length _ _ _ Hs).
    destruct (write_elems_prints (json_stringify_inner (S fuel)) v j l 0 c2 Hg2) as (c3 & E3 & Hq3).
    { exact (array_of_quiet _ _ Hg1 (qc_heap _ _ Hq2) _ _ Ha1). }
    { exact IH. }
    { rewrite drop_0. eapply Forall2_impl; [exact Hs|]. intros x w. exact (spells_quiet _ _ Hg (qc_heap _ _ Hq) x w). }
    rewrite E3. exists c3. split; [done|]. exact (quiet_ctx_trans _ _ _ Hq Hq3).
  - destruct fuel as [|fuel]; cbn [depth] in Hd; [lia|]. apply (prints_parts snd) with (fuel := fuel) in IH; [|exact (le_S_n _ _ Hd)].
    intros b v c Hg (j & Ho & Hs)%spells_object. pose proof Ho as [Hc (Hc1 & Hc2 & Hc3) Hna].
    destruct (container_leaf b v j c Hg Hc Hc2 Hc3) as (Hclass & c1 & E1 & Hq1).
    change (json_stringify_inner (S (S fuel)) b v c) with (write_value (json_stringify_inner (S fuel)) b v c).
    unfold write_value. rewrite E1. pose proof (quiet_ctx_good _ _ Hg Hq1) as Hg1. pose proof (qc_heap _ _ Hq1) as Hqh.
    pose proof (object_of_quiet _ _ Hg Hqh _ _ Ho) as Ho1.
    assert (Hclass1 : class_of c1 v = Some (j_class j)).
    { destruct Ho1 as [Hct1 _ _]. destruct (container_leaf b v j c1 Hg1 Hct1 Hc2 Hc3) as [-> _]; done. }
    rewrite Hclass1, bool_decide_false by congruence.
    assert (Hs1 : Forall2 (fun x e => member_of (heap c1) v x.1 e.1 /\ spells (heap c1) x.2 e.2) l (j_props j)).
    { eapply Forall2_impl; [exact Hs|]. intros x e [H1 H2].
      split; [exact (member_of_quiet _ _ Hg Hqh _ _ _ H1)|exact (spells_quiet _ _ Hg Hqh _ _ H2)]. }
    rewrite (object_keys_names v j l c1 Hg1 Ho1 Hs1). cbn [from_option]. unfold id at 1.
    destruct (write_members_prints (json_stringify_inner (S fuel)) v j l (j_props j) c1 Hg1 Ho1) as (c2 & E2 & Hq2); [auto|exact IH|exact Hs1|].
    rewrite E2. exists c2. split; [done|]. exact (quiet_ctx_trans _ _ _ Hq1 Hq2).
Qed.

(** ** An array that holds itself *)

Lemma ring_endless (v : Value) (j : JObject) (fuel : nat) (b : bool) (c : Ctx) :
  good_ctx c -> array_of (heap c) v j -> j_elems j = [v] -> json_stringify_inner fuel b v c = None.
Proof.
  revert b c. induction fuel as [|fuel IH]; intros b c Hg Ha Hj; [done|].
  pose proof Ha as [Hc Hcl _ _ _]. destruct (container_leaf b v j c Hg Hc) as (_ & c1 & E1 & Hq1); [by rewrite Hcl..|].
  cbn [json_stringify_inner]. unfold write_value. rewrite E1. pose proof (quiet_ctx_good _ _ Hg Hq1) as Hg1.
  pose proof (array_of_quiet _ _ Hg (qc_heap _ _ Hq1) _ _ Ha) as Ha1. pose proof Ha1 as [Hc1 _ _ _ _].
  destruct (container_leaf b v j c1 Hg1 Hc1) as [-> _]; [by rewrite Hcl..|]. rewrite Hcl, bool_decide_true by done.
  destruct (array_length_read v j c1 Hg1 Ha1) as (c2 & -> & Hq2). cbn [mbind option_bind]. rewrite Hj.
  rewrite int32_len_value by done. change (seq 0 (Z.to_nat (Z.of_nat (length [v])))) with [0%nat]. cbn [write_elems].
  pose proof (quiet_ctx_good _ _ Hg1 Hq2) as Hg2.
  pose proof (array_of_quiet _ _ Hg1 (qc_heap _ _ Hq2) _ _ Ha1) as Ha2.
  rewrite (array_element v v 0 j c2 Hg2 Ha2) by (by rewrite Hj). by rewrite IH.
Qed.

(** ** Properties *)

(** C29: Writing, then reading.  In any heap reached without the two steps that leave an overflow map wrong
    (C5), the text that [json_stringify_value] writes of a value that is a copy of a tree (an
    array's elements and an object's own properties, in order, with no getter or closure marker on
    their prototype chains) is the tree's text, the recursion goes no deeper than the tree, and
    nothing a program can see changes, whether or not there is memory left.  And when 17 digits are
    enough for the tree's numbers, its names need no escape and its strings have only the control
    characters with an escape, [parse_json]'s reader reads the tree back from that text, numbers
    included. *)
Theorem stringify_then_read (t : json) (v : Value) (c : Ctx) (fuel : nat) (Hr : reach (heap c))
    (Hs : spells (heap c) t v) (Hd : (depth t <= fuel)%nat) :
  (exists c', json_stringify_value (S fuel) v c = Some (Some (print t), c') /\ quiet_ctx c c') /\
  (clean t -> read_text (print t) = Some t).
Proof.
  split; [|apply read_text_print].
  destruct (copies_print t fuel Hd false v c (reach_good _ Hr) Hs) as (c' & E & Hq). by exists c'.
Qed.

(** *** What the writer gets wrong *)

(** The array [[a]] with [a] the array itself. *)
Definition ring_ops : list heap_op := [OpObject CLASS_OBJECT; OpArray 0; OpPush (from_ptr 4176) (from_ptr 4176); OpIntern s_length].
Definition ring : Value := from_ptr 4176.
Definition ring_ctx : Ctx := with_heap (run ring_ops h_empty) ctx0.

Lemma ring_reach : reach (heap ring_ctx).
Proof. apply (run_reach ring_ops h_empty h_empty_reach). by vm_compute. Qed.

Lemma ring_array : exists j, array_of (heap ring_ctx) ring j /\ j_elems j = [ring].
Proof.
  set (j := default (new_jobject 0) (object_ptr (heap ring_ctx) ring ≫= obj_view (heap ring_ctx))).
  exists j. split; [|by vm_compute]. split; [split| | | |].
  - exists 4176. by vm_compute.
  - split; apply without_b_ok; by vm_compute.
  - by vm_compute.
  - by vm_compute.
  - by vm_compute.
  - exists 1. by vm_compute.
Qed.

(** The text [json_stringify_value] writes is not always JSON, and it does not always return.  A
    property's name is written without escapes and a control character of a string without
    its escape, so an object parsed from a text with a name that holds a quote, and a string
    parsed from the escape of character 1, are written as texts that [parse_json] refuses; and on an array that holds itself no
    depth of recursion is enough. *)
Theorem stringify_misbehaves :
  (exists t, rewritten 5 [c_lbrace; c_dquote; c_backslash; c_dquote; c_dquote; 58; 49; c_rbrace] = Some t /\
    fst <$> parse_json t ctx0 = Some None) /\
  (exists t, rewritten 5 ([c_dquote; c_backslash] ++ b! "u0001" ++ [c_dquote]) = Some t /\
    fst <$> parse_json t ctx0 = Some None) /\
  (forall fuel, json_stringify_value fuel ring ring_ctx = None).
Proof.
  split; [|split]; [eexists; (split; [vm_compute; reflexivity|by vm_compute])..|].
  intros fuel. destruct ring_array as (j & Ha & Hj).
  exact (ring_endless ring j fuel false ring_ctx (reach_good _ ring_reach) Ha Hj).
Qed.

End Reads.

(** *** Witness: an object of an array and an object *)

#[local] Existing Instance silent_host.

Definition sample : json := JObj [(b! "a", JArr [JNum (f64_of_int 7); JStr (b! "x")]); (b! "b", JObj [])].
Definition v_outer : Value := from_ptr 4176.
Definition v_list : Value := from_ptr 4256.
Definition v_inner : Value := from_ptr 4336.
Definition v_text : Value := from_ptr 4416.
Definition sample_ops : list heap_op :=
  [OpObject CLASS_OBJECT; OpObject CLASS_OBJECT; OpArray 0; OpObject CLASS_OBJECT; OpString (b! "x");
   OpPush v_list (num 7); OpPush v_list v_text; OpSetStr v_outer (b! "a") v_list; OpSetStr v_outer (b! "b") v_inner;
   OpIntern s_length].
Definition sample_ctx : Ctx := with_heap (run sample_ops h_empty) ctx0.
Definition view_at (v : Value) : JObject :=
  default (new_jobject 0) (object_ptr (heap sample_ctx) v ≫= obj_view (heap sample_ctx)).

Lemma sample_container (v : Value) (a : Z) : 
  object_ptr (heap sample_ctx) v = Some a -> obj_view (heap sample_ctx) a = Some (view_at v) ->
  without_b (heap sample_ctx) s_closure v && without_b (heap sample_ctx) (getter s_closure) v = true ->
  container (heap sample_ctx) v (view_at v).
Proof.
  intros Hp Hv [H1%without_b_ok H2%without_b_ok]%andb_true_iff. split; [exact (ex_intro _ a (conj Hp Hv))|exact (conj H1 H2)].
Qed.
Lemma sample_list : spells (heap sample_ctx) (JArr [JNum (f64_of_int 7); JStr (b! "x")]) v_list.
Proof.
  exists (view_at v_list). split; [|by vm_compute]. split; [|by vm_compute..|exists 3; by vm_compute].
  apply (sample_container _ 4256); by vm_compute.
Qed.
Lemma sample_inner : spells (heap sample_ctx) (JObj []) v_inner.
Proof.
  exists (view_at v_inner). split; [|by vm_compute]. split; [|by vm_compute..].
  apply (sample_container _ 4336); by vm_compute.
Qed.
Lemma sample_member (name : bytes) (k : Z * Z) : parse_index name = None ->
  bool_decide (k.1 = PROP_KEY_ATOM /\ atom_bytes (heap sample_ctx) k.2 = Some name) && (0 <? k.2) && (k.2 <? 2 ^ 32) &&
  utf8_valid name && negb (accessor_name name) && without_b (heap sample_ctx) (getter name) v_outer = true ->
  member_of (heap sample_ctx) v_outer name k.
Proof.
  intros Hi H. apply andb_true_iff in H as [H Hw%without_b_ok]. apply andb_true_iff in H as [H Ha%negb_true_iff].
  apply andb_true_iff in H as [H Hu]. apply andb_true_iff in H as [H H2%Z.ltb_lt]. apply andb_true_iff in H as [H H1%Z.ltb_lt].
  apply bool_decide_eq_true_1 in H as [Hk Hb]. split; [|exact Hu|exact Ha|exact Hw]. rewrite Hi. auto.
Qed.
Lemma sample_copy : spells (heap sample_ctx) sample v_outer.
Proof.
  apply spells_object. exists (view_at v_outer). split.
  - split; [|by vm_compute..]. apply (sample_container _ 4176); by vm_compute.
  - assert (Hp : j_props (view_at v_outer) = [(PROP_KEY_ATOM, 1, v_list); (PROP_KEY_ATOM, 2, v_inner)]) by (by vm_compute).
    rewrite Hp. constructor; [|constructor; [|constructor]].
    + split; [apply sample_member; by vm_compute|exact sample_list].
    + split; [apply sample_member; by vm_compute|exact sample_inner].
Qed.
Lemma sample_reach : reach (heap sample_ctx).
Proof. apply (run_reach sample_ops h_empty h_empty_reach). by vm_compute. Qed.
Lemma sample_clean : clean sample.
Proof. vm_compute. repeat split. Qed.
Lemma stringify_then_read_witness :
  (exists c', json_stringify_value 3 v_outer sample_ctx = Some (Some (print sample), c') /\ quiet_ctx sample_ctx c') /\
  read_text (print sample) = Some sample.
Proof.
  assert (Hd : (depth sample <= 2)%nat) by (vm_compute; lia).
  destruct (stringify_then_read sample v_outer sample_ctx 2 sample_reach sample_copy Hd) as [Hw Hread].
  split; [exact Hw|exact (Hread sample_clean)].
Defined.
