(* ===== verification/JsScan.v ===== *)
(** * JsScan: the text scanners of the evaluator

    [src/evals.rs], [src/parser.rs] and [src/helpers.rs] evaluate source text directly: every
    statement and expression is cut out of the text by a loop that counts brackets outside of
    string literals.  An index is replaced by the two halves it cuts.  The loops come in two
    kinds: those that know the escape of a quote in a literal, and those that do not. *)
From S2P Require Import Prelude IntCodec Utf8 ServerArgs JsText JsApi.

(** ** The loops *)

Definition is_quote (b : Z) : bool := (b =? c_quote) || (b =? c_dquote).
Definition opens (b : Z) : bool := (b =? c_lparen) || (b =? c_lbracket) || (b =? c_lbrace).
Definition closes (b : Z) : bool := (b =? c_rparen) || (b =? c_rbracket) || (b =? c_rbrace).
(** [string_delim] while [in_string], without escapes. *)
Definition str_next (q : option Z) (b : Z) : option Z :=
  match q with
  | Some d => if b =? d then None else q
  | None => if is_quote b then Some b else None
  end.
Definition before {A} (b : Z) (r : option (bytes * A)) : option (bytes * A) := '(x, y) ← r; Some (b :: x, y).
Definition before2 {A} (b c : Z) (r : option (bytes * A)) : option (bytes * A) := before b (before c r).

(** The first byte outside of literals and brackets that [hit] accepts: what is before it and
    after it.  A literal ends at the next quote, escaped or not. *)
Fixpoint find_top (hit : option Z -> Z -> bytes -> bool) (prev q : option Z) (depth : Z) (l : bytes) : option (bytes * bytes) :=
  match l with
  | [] => None
  | b :: l' =>
      match q with
      | Some _ => before b (find_top hit (Some b) (str_next q b) depth l')
      | None =>
          if is_quote b then before b (find_top hit (Some b) (Some b) depth l')
          else if opens b then before b (find_top hit (Some b) None (depth + 1) l')
          else if closes b then before b (find_top hit (Some b) None (depth - 1) l')
          else if (depth =? 0) && hit prev b l' then Some ([], l')
          else before b (find_top hit (Some b) None depth l')
      end
  end.

(** The same for a word, with escapes: [hit] sees the text from the position on. *)
Fixpoint find_word (quote : Z -> bool) (hit : option Z -> bytes -> bool) (prev q : option Z) (depth : Z) (l : bytes) :
    option (bytes * bytes) :=
  match l with
  | [] => None
  | b :: l' =>
      match q with
      | Some d =>
          if b =? d then before b (find_word quote hit (Some b) None depth l')
          else if b =? c_backslash then
            match l' with
            | c :: l'' => before2 b c (find_word quote hit (Some c) q depth l'')
            | [] => None
            end
          else before b (find_word quote hit (Some b) q depth l')
      | None =>
          if quote b then before b (find_word quote hit (Some b) (Some b) depth l')
          else if opens b then before b (find_word quote hit (Some b) None (depth + 1) l')
          else if closes b then before b (find_word quote hit (Some b) None (depth - 1) l')
          else if (depth =? 0) && hit prev l then Some ([], l)
          else before b (find_word quote hit (Some b) None depth l')
      end
  end.

(** From an opening bracket to its partner: what is between and what follows. *)
Fixpoint to_close (esc : bool) (op cl : Z) (q : option Z) (depth : Z) (l : bytes) : option (bytes * bytes) :=
  match l with
  | [] => None
  | b :: l' =>
      match q with
      | Some d =>
          if esc && (b =? c_backslash) then
            match l' with
            | c :: l'' => before2 b c (to_close esc op cl q depth l'')
            | [] => None
            end
          else before b (to_close esc op cl (str_next q b) depth l')
      | None =>
          if is_quote b then before b (to_close esc op cl (Some b) depth l')
          else if b =? op then before b (to_close esc op cl None (depth + 1) l')
          else if b =? cl then
            if depth - 1 =? 0 then Some ([], l') else before b (to_close esc op cl None (depth - 1) l')
          else before b (to_close esc op cl None depth l')
      end
  end.
Definition extract (esc : bool) (op cl : Z) (src : bytes) : option (bytes * bytes) :=
  match src with b :: l => if b =? op then to_close esc op cl None 1 l else None | [] => None end.
Definition extract_braces : bytes -> option (bytes * bytes) := extract true c_lbrace c_rbrace.
Definition extract_paren : bytes -> option (bytes * bytes) := extract false c_lparen c_rparen.
Definition extract_bracket : bytes -> option (bytes * bytes) := extract false c_lbracket c_rbracket.

(** ** [src/evals.rs] *)

Definition is_arrow (prev : option Z) (l : bytes) : bool :=
  match l with b :: c :: _ => (b =? c_eq) && (c =? 62) | _ => false end.
Definition find_arrow_top_level (src : bytes) : option (bytes * bytes) := find_word is_quote is_arrow None None 0 src.
(** [has_top_level_arrow] of [src/api/mod.rs]. *)
Definition has_top_level_arrow (src : bytes) : bool := bool_decide (is_Some (find_arrow_top_level src)).

(** Escapes of a literal: its characters to UTF-16 units. *)
Definition hex_unit (max : Z) (hex : list Z) : option Z := from_str_radix 16 max hex.
Definition as_u16 (v : Z) : Z := v `mod` 65536.
Definition braced_units (hex : list Z) : list Z :=
  match hex_unit (2 ^ 32 - 1) hex with
  | None => []
  | Some v =>
      if v <=? 65535 then [v]
      else let v := v - 65536 in [as_u16 (55296 + as_u16 (Z.shiftr v 10)); as_u16 (56320 + as_u16 (Z.land v 1023))]
  end.
Definition plain_escape (e : Z) : Z :=
  if e =? 110 then 10 else if e =? 114 then 13 else if e =? 116 then 9 else if e =? 98 then 8
  else if e =? 102 then 12 else if e =? 118 then 11 else as_u16 e.
Definition encode_utf16 (ch : Z) : list Z :=
  if ch <? 65536 then [ch] else [55296 + (ch - 65536) / 1024; 56320 + (ch - 65536) `mod` 1024].
(** The states inside an escape: after the backslash, [n] more hexadecimal characters, up to [}]. *)
Inductive Esc := ENone | EBack | EHex (n : nat) (hex : list Z) | EOpen | EBrace (hex : list Z).
Definition hex_done (hex : list Z) : list Z := match hex_unit 65535 (rev hex) with Some v => [v] | None => [] end.
Fixpoint unescape_loop (st : Esc) (cs : list Z) : list Z :=
  match cs with
  | [] => match st with EHex _ hex => hex_done hex | EBrace hex => braced_units (rev hex) | _ => [] end
  | ch :: cs' =>
      match st with
      | ENone => if ch =? c_backslash then unescape_loop EBack cs' else encode_utf16 ch ++ unescape_loop ENone cs'
      | EBack =>
          if ch =? 120 then unescape_loop (EHex 2 []) cs'
          else if ch =? 117 then unescape_loop EOpen cs'
          else plain_escape ch :: unescape_loop ENone cs'
      | EOpen => if ch =? c_lbrace then unescape_loop (EBrace []) cs' else unescape_loop (EHex 3 [ch]) cs'
      | EHex n hex =>
          match n with
          | S (S n') => unescape_loop (EHex (S n') (ch :: hex)) cs'
          | _ => hex_done (ch :: hex) ++ unescape_loop ENone cs'
          end
      | EBrace hex => if ch =? c_rbrace then braced_units (rev hex) ++ unescape_loop ENone cs' else unescape_loop (EBrace (ch :: hex)) cs'
      end
  end.
Definition unescape_string_literal (src : bytes) : bytes :=
  utf16_units_to_string_preserve_surrogates (unescape_loop ENone (utf8_chars src)).

(** Comments to spaces; an unterminated block comment gives its offset. *)
Inductive Mode := MCode | MStr (d : Z) | MLine | MBlock (at_ : Z).
Definition emit (out : bytes) (r : bytes + Z) : bytes + Z := match r with inl t => inl (out ++ t) | inr e => inr e end.
Definition blank (b : Z) : Z := if b =? LF then LF else 32.
Fixpoint strip_loop (i : Z) (m : Mode) (l : bytes) : bytes + Z :=
  match l with
  | [] => match m with MBlock at_ => inr at_ | _ => inl [] end
  | b :: l' =>
      match m with
      | MStr d =>
          if b =? c_backslash then
            match l' with
            | c :: l'' => emit [b; c] (strip_loop (i + 2) m l'')
            | [] => inl [b]
            end
          else emit [b] (strip_loop (i + 1) (if b =? d then MCode else m) l')
      | MLine => if b =? LF then emit [LF] (strip_loop (i + 1) MCode l') else emit [32] (strip_loop (i + 1) MLine l')
      | MBlock at_ =>
          match l' with
          | [] => inr at_
          | c :: l'' =>
              if (b =? 42) && (c =? 47) then emit [32; 32] (strip_loop (i + 2) MCode l'')
              else emit [blank b] (strip_loop (i + 1) m l')
          end
      | MCode =>
          if is_quote b then emit [b] (strip_loop (i + 1) (MStr b) l')
          else
            match l' with
            | c :: l'' =>
                if (b =? 47) && (c =? 47) then emit [32; 32] (strip_loop (i + 2) MLine l'')
                else if (b =? 47) && (c =? 42) then emit [32; 32] (strip_loop (i + 2) (MBlock i) l'')
                else emit [b] (strip_loop (i + 1) MCode l')
            | [] => inl [b]
            end
      end
  end.
Definition strip_comments_checked (src : bytes) : bytes + Z :=
  if negb (existsb (Z.eqb 47) src) then inl src
  else
    match strip_loop 0 MCode src with
    | inl out => match from_utf8 out with Some s => inl s | None => inr 0 end
    | inr e => inr e
    end.
Definition strip_comments (src : bytes) : bytes := match strip_comments_checked src with inl s => s | inr _ => src end.

(** *** Joining lines *)

(** [str::lines]: ended by a line feed, without it and a return before it. *)
Definition strip_cr (cur : bytes) : bytes := match cur with b :: cur' => if b =? CR then rev cur' else rev cur | [] => [] end.
Fixpoint lines_loop (cur : bytes) (l : bytes) : list bytes :=
  match l with
  | [] => match cur with [] => [] | _ => [rev cur] end
  | b :: l' => if b =? LF then strip_cr cur :: lines_loop [] l' else lines_loop (b :: cur) l'
  end.
Definition lines : bytes -> list bytes := lines_loop [].

Definition ends_with (p l : bytes) : bool := starts_with (rev p) (rev l).
Definition contains_sub (p l : bytes) : bool := bool_decide (is_Some (find_sub p l)).
Definition starts_any (ps : list bytes) (l : bytes) : bool := existsb (fun p => starts_with p l) ps.

Definition line_ends_with_operator (line : bytes) : bool :=
  match rev (trim_end line) with
  | [] => false
  | last :: before_ =>
      if (last =? c_plus) || (last =? c_minus) then
        match before_ with c :: _ => negb (c =? last) | [] => true end
      else bool_decide (last ∈ [42; 47; 37; 38; 124; 94; 60; 62; 61; 63; 58; 44; 46])
  end.

(** What follows the parenthesis that closes the one the text starts with. *)
Fixpoint after_parens (depth : Z) (l : bytes) : option bytes :=
  match l with
  | [] => None
  | b :: l' =>
      if b =? c_lparen then after_parens (depth + 1) l'
      else if b =? c_rparen then if depth - 1 =? 0 then Some l' else after_parens (depth - 1) l'
      else after_parens depth l'
  end.
Definition nonblank (l : bytes) : bool := negb (bool_decide (trim l = [])).

Definition s_else : bytes := b! "else".
Definition control_words : list bytes :=
  [b! "if "; b! "if("; s_else; b! "function "; b! "while "; b! "while("; b! "for "; b! "for("; b! "try"; b! "catch"].
Definition has_inline_body (trimmed : bytes) : bool :=
  if starts_any [b! "if"; b! "while"; b! "for"] trimmed then
    match after_parens 0 (drop_while (fun b => negb (b =? c_lparen)) trimmed) with Some rest => nonblank rest | None => false end
  else if starts_with s_else trimmed then negb (bool_decide (trimmed = s_else))
  else if starts_with (b! "do") trimmed then negb (bool_decide (trimmed = b! "do"))
  else false.

(** The line [next] is joined to [current]. *)
Definition joins (current next : bytes) : bool :=
  let trimmed := trim_start current in
  (starts_any control_words trimmed && negb (contains_sub [c_lbrace] trimmed) &&
     negb (ends_with [c_semi] (trim_end trimmed)) && negb (has_inline_body trimmed))
  || (contains_sub (b! "function") trimmed && ends_with [c_rparen] (trim_end trimmed) &&
      starts_with [c_lbrace] (trim_start next))
  || line_ends_with_operator current.
Fixpoint join_lines (current : bytes) (rest : list bytes) : bytes :=
  match rest with
  | [] => current ++ [LF]
  | next :: rest' =>
      if joins current next then join_lines (current ++ 32 :: trim_start next) rest'
      else current ++ LF :: join_lines next rest'
  end.
Definition normalize_line_continuations (src : bytes) : bytes :=
  if negb (existsb (Z.eqb LF) src) then src
  else match lines src with [] => [] | l :: ls => join_lines l ls end.

(** *** Lists and statements *)

Definition has_top_level_comma (s : bytes) : bool :=
  bool_decide (is_Some (find_top (fun _ b _ => b =? 44) None None 0 s)).

(** [cur] is the text since [start], reversed. *)
Fixpoint split_loop (q : option Z) (depth : Z) (cur : bytes) (l : bytes) : option (list bytes) :=
  match l with
  | [] => if depth =? 0 then Some (match trim (rev cur) with [] => [] | p => [p] end) else None
  | b :: l' =>
      match q with
      | Some _ => split_loop (str_next q b) depth (b :: cur) l'
      | None =>
          if is_quote b then split_loop (Some b) depth (b :: cur) l'
          else if opens b then split_loop None (depth + 1) (b :: cur) l'
          else if closes b then if depth - 1 <? 0 then None else split_loop None (depth - 1) (b :: cur) l'
          else if (b =? 44) && (depth =? 0) then
            rest ← split_loop None depth [] l'; Some (trim (rev cur) :: rest)
          else split_loop None depth (b :: cur) l'
      end
  end.
Definition split_top_level (src : bytes) : option (list bytes) := split_loop None 0 [] (trim src).

Definition loop_words : list bytes := [b! "if "; b! "if("; b! "while "; b! "while("; b! "for "; b! "for("].
Definition looks_like_control (p : bytes) : bool := starts_any loop_words p && ends_with [c_rparen] p.

(** The statement [part] at offset [start], unless it is blank. *)
Definition push_part (start : Z) (part : bytes) (rest : option (list (Z * bytes))) : option (list (Z * bytes)) :=
  rest ← rest; Some (if nonblank part then (start, part) :: rest else rest).
Fixpoint stmts_loop (i start : Z) (q : option Z) (depth : Z) (cur : bytes) (l : bytes) : option (list (Z * bytes)) :=
  match l with
  | [] => if depth =? 0 then push_part start (rev cur) (Some []) else None
  | b :: l' =>
      let keep q depth := stmts_loop (i + 1) start q depth (b :: cur) l' in
      match q with
      | Some _ => keep (str_next q b) depth
      | None =>
          if is_quote b then keep (Some b) depth
          else if opens b then keep None (depth + 1)
          else if closes b then
            let depth := depth - 1 in
            if depth <? 0 then None
            else if (depth =? 0) && (b =? c_rbrace) && negb (starts_any [b! "else "; b! "else{"] (trim_start l')) &&
                    starts_any (loop_words ++ [b! "function "]) (trim (rev (b :: cur)))
            then push_part start (rev (b :: cur)) (stmts_loop (i + 1) (i + 1) None depth [] l')
            else keep None depth
          else if ((b =? c_semi) || (b =? LF)) && (depth =? 0) then
            let p := trim (rev cur) in
            if starts_with s_else (trim_start l') ||
               (b =? LF) && (bool_decide (p = s_else) || bool_decide (p = b! "do") || looks_like_control p)
            then keep None depth
            else push_part start (rev cur) (stmts_loop (i + 1) (i + 1) None depth [] l')
          else keep None depth
      end
  end.
Definition split_statements_with_offsets (src : bytes) : option (list (Z * bytes)) :=
  if nonblank src then stmts_loop 0 0 None 0 [] src else Some [].

(** [split_statements] has a loop of its own, which trims a part when it cuts it, and the statements
    at separators once more. *)
Definition push_text (part : bytes) (rest : option (list bytes)) : option (list bytes) :=
  rest ← rest; Some (if bool_decide (part = []) then rest else part :: rest).
Fixpoint statements_loop (q : option Z) (depth : Z) (cur : bytes) (l : bytes) : option (list bytes) :=
  match l with
  | [] => if negb (depth =? 0) then None else push_text (trim (rev cur)) (Some [])
  | b :: l' =>
      match q with
      | Some delim => statements_loop (if b =? delim then None else q) depth (b :: cur) l'
      | None =>
          if is_quote b then statements_loop (Some b) depth (b :: cur) l'
          else if opens b then statements_loop None (depth + 1) (b :: cur) l'
          else if closes b then
            let depth := depth - 1 in
            if depth <? 0 then None
            else if (depth =? 0) && (b =? c_rbrace) then
              let rest := trim_start l' in
              if starts_with (b! "else ") rest || starts_with (b! "else{") rest then statements_loop None depth (b :: cur) l'
              else
                let part := trim (rev (b :: cur)) in
                if starts_any (loop_words ++ [b! "function "]) part
                then push_text part (statements_loop None depth [] l')
                else statements_loop None depth (b :: cur) l'
            else statements_loop None depth (b :: cur) l'
          else if ((b =? c_semi) || (b =? LF)) && (depth =? 0) then
            let p := trim (trim (rev cur)) in
            if starts_with s_else (trim_start l') then statements_loop None depth (b :: cur) l'
            else if (b =? LF) && (bool_decide (p = s_else) || bool_decide (p = b! "do")) then statements_loop None depth (b :: cur) l'
            else if (b =? LF) && looks_like_control p then statements_loop None depth (b :: cur) l'
            else push_text p (statements_loop None depth [] l')
          else statements_loop None depth (b :: cur) l'
      end
  end.
Definition split_statements (src : bytes) : option (list bytes) :=
  if bool_decide (trim src = []) then Some [] else statements_loop None 0 [] src.

(** ** [src/parser.rs] *)

Definition parse_parameter_list (params_str : bytes) : option (list bytes) :=
  ps ← split_top_level params_str; Some (List.filter (fun p => negb (bool_decide (p = []))) (trim <$> ps)).

Definition extract_statement (src : bytes) : option (bytes * bytes) :=
  match trim_start src with
  | [] => None
  | s =>
      match find_top (fun _ b _ => (b =? c_semi) || (b =? LF)) None None 0 s with
      | Some (stmt, rest) => Some (trim stmt, trim_start rest)
      | None => Some (trim s, [])
      end
  end.

Definition ascii_alnum (b : Z) : bool := in_range 97 122 b || in_range 65 90 b || is_digit b.
Definition word_char (b : Z) : bool := ascii_alnum b || (b =? 95).
(** The word [w], not part of a longer one. *)
Definition whole_word (w : bytes) (prev : option Z) (l : bytes) : bool :=
  match strip_prefix w l with
  | None => false
  | Some rest =>
      negb (match prev with Some p => word_char p | None => false end) &&
      negb (match rest with c :: _ => word_char c | [] => false end)
  end.
Definition split_do_while_body (src : bytes) : option (bytes * bytes) :=
  '(body, rest) ← find_word (fun b => is_quote b || (b =? 96)) (whole_word (b! "while")) None None 0 (trim_start src);
  Some (trim_end body, trim_start rest).

Definition find_for_in_keyword (header : bytes) : option (bytes * bytes) :=
  find_word is_quote (fun _ => starts_with (b! " in ")) None None 0 header.
(** [find_for_of_keyword] searches everywhere but at the end, and answers one past the space:
    before the space, and from [of] on. *)
Fixpoint find_for_of_keyword (l : bytes) : option (bytes * bytes) :=
  match l with
  | [] => None
  | b :: l' =>
      if (4 <? length l)%nat && starts_with (b! " of ") l then Some ([b], l') else before b (find_for_of_keyword l')
  end.

Definition find_case_colon (s : bytes) : option (bytes * bytes) := find_top (fun _ b _ => b =? 58) None None 0 s.
Definition case_word (l : bytes) : bool := starts_any [b! "case "; b! "default"] l.
(** The body of a case and what follows: braces only, and every [case] counts. *)
Fixpoint find_case_body_end (q : option Z) (depth : Z) (l : bytes) : bytes * bytes :=
  let cons b r := (b :: fst r, snd r : bytes) in
  match l with
  | [] => ([], [])
  | b :: l' =>
      match q with
      | Some d =>
          if b =? d then cons b (find_case_body_end None depth l')
          else if b =? c_backslash then
            match l' with
            | c :: l'' => cons b (cons c (find_case_body_end q depth l''))
            | [] => ([b], [])
            end
          else cons b (find_case_body_end q depth l')
      | None =>
          if is_quote b then cons b (find_case_body_end (Some b) depth l')
          else if b =? c_lbrace then cons b (find_case_body_end None (depth + 1) l')
          else if b =? c_rbrace then
            if depth =? 0 then ([], l) else cons b (find_case_body_end None (depth - 1) l')
          else if (depth =? 0) && case_word l then ([], l)
          else cons b (find_case_body_end None depth l')
      end
  end.
Fixpoint switch_cases (fuel : nat) (rest : bytes) : option (list (option bytes * bytes)) :=
  match fuel with
  | O => None
  | S fuel' =>
      match trim_start rest with
      | [] => Some []
      | rest =>
          match strip_prefix (b! "case ") rest with
          | Some after_case =>
              '(e, rest) ← find_case_colon after_case;
              let '(body, rest) := find_case_body_end None 0 rest in
              cases ← switch_cases fuel' rest; Some ((Some (trim e), trim body) :: cases)
          | None =>
              match strip_prefix (b! "default") rest with
              | Some after_default =>
                  rest ← strip_prefix [58] (trim_start after_default);
                  let '(body, rest) := find_case_body_end None 0 rest in
                  cases ← switch_cases fuel' rest; Some ((None, trim body) :: cases)
              | None => Some []
              end
          end
      end
  end.
Definition parse_switch_cases (body : bytes) : option (list (option bytes * bytes)) :=
  switch_cases (S (length body)) (trim body).

Fixpoint take_while (p : Z -> bool) (l : bytes) : bytes :=
  match l with b :: l' => if p b then b :: take_while p l' else [] | [] => [] end.
(** Without the dollar sign of [src/helpers.rs]. *)
Definition ident_start (b : Z) : bool := in_range 65 90 b || in_range 97 122 b || (b =? 95).
Definition parse_identifier (src : bytes) : option (bytes * bytes) :=
  match src with
  | b :: l => if ident_start b then Some (b :: take_while word_char l, drop_while word_char l) else None
  | [] => None
  end.
Definition is_identifier (s : bytes) : bool :=
  match parse_identifier s with Some (_, rest) => negb (nonblank rest) | None => false end.

Definition is_assign (prev : option Z) (b : Z) (l' : bytes) : bool :=
  let next := match l' with c :: _ => c | [] => 0 end in
  let prev := default 0 prev in
  (b =? c_eq) && negb ((next =? 62) || (prev =? c_eq) || (next =? c_eq) || (prev =? 33) || (prev =? 60) || (prev =? 62)).
(** Both sides, trimmed, when neither is blank. *)
Definition both (x y : bytes) : option (bytes * bytes) :=
  match trim x, trim y with [], _ | _, [] => None | x, y => Some (x, y) end.
Definition split_assignment (src : bytes) : option (bytes * bytes) :=
  '(lhs, rhs) ← find_top is_assign None None 0 src; both lhs rhs.
Definition split_ternary (src : bytes) : option (bytes * bytes * bytes) :=
  '(cond, rest) ← find_top (fun _ b _ => b =? 63) None None 0 src;
  '(t, f) ← find_top (fun _ b _ => b =? 58) None None 0 rest;
  match trim cond with [] => None | cond => '(t, f) ← both t f; Some (cond, t, f) end.

(** A name after a dot, a call or an index. *)
Definition starts_tail (first : bool) (b : Z) (l' : bytes) : bool :=
  (b =? 46) && (match l' with c :: _ => ident_start c | [] => false end)
  || ((b =? c_lparen) || (b =? c_lbracket)) && negb first.
Fixpoint base_loop (first : bool) (q : option Z) (depth : Z) (l : bytes) : option (bytes * bytes) :=
  match l with
  | [] => None
  | b :: l' =>
      match q with
      | Some _ => before b (base_loop false (str_next q b) depth l')
      | None =>
          if is_quote b then before b (base_loop false (Some b) depth l')
          else if (depth =? 0) && starts_tail first b l' then Some ([], l)
          else
            let depth := if opens b then depth + 1 else if closes b then depth - 1 else depth in
            before b (base_loop false None depth l')
      end
  end.
Definition split_base_and_tail (src : bytes) : option (bytes * bytes) :=
  match trim src with
  | [] => None
  | s =>
      match base_loop true None 0 s with
      | Some (base, tail) => match trim base with [] => None | base => Some (base, tail) end
      | None => Some (s, [])
      end
  end.

(** The word cut out at the position found. *)
Definition around (w : bytes) (r : option (bytes * bytes)) : option (bytes * bytes) :=
  '(lhs, rest) ← r; both lhs (drop (length w) rest).
Definition split_instanceof (src : bytes) : option (bytes * bytes) :=
  let w := b! "instanceof" in around w (find_word is_quote (whole_word w) None None 0 (trim src)).
Definition split_in_operator (src : bytes) : option (bytes * bytes) :=
  let w := b! " in " in around w (find_word is_quote (fun _ => starts_with w) None None 0 (trim src)).

(** ** [src/helpers.rs] *)

Definition arith_op (b : Z) : bool := bool_decide (b ∈ [43; 45; 42; 47; 37; 60; 62; 61; 33; 38; 124; 94; 126]).
Definition contains_arith_op (s : bytes) : bool :=
  bool_decide (is_Some (find_top (fun _ b _ => arith_op b) None None 0 s)).
