(* ===== verification/JsScanSpec.v ===== *)
(** * JsScanSpec: what the text scanners cut out

    The reference for bracket extraction is a grammar of balanced text, for lists and
    statements a relation between the source and its parts, for comments the positions of the
    line ends, for escapes the UTF-16 units of a string. *)
From S2P Require Import Prelude IntCodec Utf8 ServerArgs JsText JsApi JsScan.

(** ** Bracket extraction *)

(** A literal's text, up to the quote [d]. *)
Inductive literal (esc : bool) (d : Z) : bytes -> Prop :=
  | lit_nil : literal esc d []
  | lit_byte b s : b <> d -> (esc = true -> b <> c_backslash) -> literal esc d s -> literal esc d (b :: s)
  | lit_escape c s : esc = true -> literal esc d s -> literal esc d (c_backslash :: c :: s).

(** Text in which every [op] outside of literals has its [cl]. *)
Inductive balanced (esc : bool) (op cl : Z) : bytes -> Prop :=
  | bal_nil : balanced esc op cl []
  | bal_byte b l : is_quote b = false -> b <> op -> b <> cl -> balanced esc op cl l -> balanced esc op cl (b :: l)
  | bal_literal d s l : is_quote d = true -> literal esc d s -> balanced esc op cl l ->
      balanced esc op cl (d :: s ++ d :: l)
  | bal_group x l : balanced esc op cl x -> balanced esc op cl l -> balanced esc op cl (op :: x ++ cl :: l).

Lemma before_some {A} (b : Z) (r : option (bytes * A)) x y :
  before b r = Some (x, y) -> exists x', r = Some (x', y) /\ x = b :: x'.
Proof. destruct r as [[x' y']|]; [|done]. intros [= <- <-]. by exists x'. Qed.
Definition prefixed {A} (p : bytes) (r : option (bytes * A)) : option (bytes * A) := '(x, y) ← r; Some (p ++ x, y).
Lemma prefixed_before {A} (b : Z) (p : bytes) (r : option (bytes * A)) : before b (prefixed p r) = prefixed (b :: p) r.
Proof. by destruct r as [[]|]. Qed.
Lemma prefixed_app {A} (p q : bytes) (r : option (bytes * A)) : prefixed p (prefixed q r) = prefixed (p ++ q) r.
Proof. destruct r as [[]|]; [|done]. simpl. by rewrite app_assoc. Qed.
Lemma prefixed_nil {A} (r : option (bytes * A)) : prefixed [] r = r.
Proof. by destruct r as [[]|]. Qed.

Section Extract.
Context (esc : bool) (op cl : Z) (Hne : op <> cl) (Hqo : is_quote op = false) (Hqc : is_quote cl = false).

Notation go := (to_close esc op cl).

(** [n] groups still open: text with [n] more closing brackets than opening ones. *)
Fixpoint groups (n : nat) (x : bytes) : Prop :=
  match n with
  | O => balanced esc op cl x
  | S n' => exists x0 x1, x = x0 ++ cl :: x1 /\ balanced esc op cl x0 /\ groups n' x1
  end.
Lemma groups_cons (n : nat) (p x : bytes) :
  (forall y, balanced esc op cl y -> balanced esc op cl (p ++ y)) -> groups n x -> groups n (p ++ x).
Proof.
  intros Hp. destruct n as [|n]; simpl; [auto|]. intros (x0 & x1 & -> & H0 & H1).
  exists (p ++ x0), x1. by rewrite <- app_assoc; auto.
Qed.

Lemma literal_quote (d : Z) : is_quote d = true -> d <> c_backslash.
Proof. by intros H ->. Qed.

Definition sound_at (l : bytes) : Prop :=
  (forall n x rest, go None (Z.of_nat (S n)) l = Some (x, rest) -> groups n x /\ l = x ++ cl :: rest) /\
  (forall d n x rest, is_quote d = true -> go (Some d) (Z.of_nat (S n)) l = Some (x, rest) ->
    exists s x', literal esc d s /\ x = s ++ d :: x' /\ groups n x' /\ l = x ++ cl :: rest).

Lemma to_close_sound (l : bytes) : sound_at l.
Proof.
  induction l as [l IH] using bytes_strong_ind. destruct l as [|b l]; [split; discriminate|].
  assert (IHl := IH l ltac:(simpl; lia)). destruct IHl as [IHn IHq]. split.
  - intros n x rest. cbn [to_close]. destruct (is_quote b) eqn:Eb.
    { intros (x1 & H & ->)%before_some. destruct (IHq b n x1 rest Eb H) as (s & x' & Hs & -> & Hg & ->).
      split; [|done]. apply (groups_cons n (b :: s ++ [b])) in Hg.
      - cbn [app] in Hg. by rewrite <- app_assoc in Hg.
      - intros y Hy. cbn [app]. rewrite <- app_assoc. by constructor. }
    destruct (Z.eqb_spec b op) as [->|Ho].
    { intros (x1 & H & ->)%before_some. replace (Z.of_nat (S n) + 1) with (Z.of_nat (S (S n))) in H by lia.
      destruct (IHn _ _ _ H) as [(x0 & x2 & -> & H0 & H2) ->]. split; [|done].
      apply (groups_cons n (op :: x0 ++ [cl])) in H2; [|intros y Hy; cbn [app]; rewrite <- app_assoc; by constructor].
      cbn [app] in H2. by rewrite <- app_assoc in H2. }
    destruct (Z.eqb_spec b cl) as [->|Hc].
    { destruct (Z.eqb_spec (Z.of_nat (S n) - 1) 0) as [E|E].
      - intros [= <- <-]. assert (n = O) as -> by lia. split; [constructor|done].
      - intros (x1 & H & ->)%before_some. destruct n as [|n]; [lia|].
        replace (Z.of_nat (S (S n)) - 1) with (Z.of_nat (S n)) in H by lia.
        destruct (IHn _ _ _ H) as [Hg ->]. split; [|done]. exists [], x1. split; [done|]. split; [constructor|done]. }
    intros (x1 & H & ->)%before_some. destruct (IHn _ _ _ H) as [Hg ->]. split; [|done].
    apply (groups_cons n [b]); [|done]. intros y Hy. by constructor.
  - intros d n x rest Hd. cbn [to_close]. destruct (esc && (b =? c_backslash)) eqn:Ee.
    { apply andb_true_iff in Ee as [He ->%Z.eqb_eq]. destruct l as [|c l]; [done|]. unfold before2.
      intros (x1 & (x2 & H & ->)%before_some & ->)%before_some.
      destruct (IH l ltac:(simpl; lia)) as [_ IH2]. destruct (IH2 d n x2 rest Hd H) as (s & x' & Hs & -> & Hg & ->).
      exists (c_backslash :: c :: s), x'. split; [by constructor|done]. }
    intros (x1 & H & ->)%before_some. unfold str_next in H. destruct (Z.eqb_spec b d) as [->|Hbd].
    + destruct (IHn _ _ _ H) as [Hg ->]. exists [], x1. split; [constructor|done].
    + destruct (IHq d n x1 rest Hd H) as (s & x' & Hs & -> & Hg & ->). exists (b :: s), x'. split; [|done].
      constructor; [done| |done]. intros -> ->. done.
Qed.

Lemma to_close_literal (d : Z) (s : bytes) (depth : Z) (l : bytes) : is_quote d = true -> literal esc d s ->
  go (Some d) depth (s ++ d :: l) = prefixed (s ++ [d]) (go None depth l).
Proof.
  intros Hd Hs. induction Hs as [|b s Hb He Hs IH|c s He Hs IH]; cbn [app to_close].
  - assert (esc && (d =? c_backslash) = false) as ->.
    { apply andb_false_iff. right. apply Z.eqb_neq. by apply literal_quote. }
    unfold str_next. rewrite Z.eqb_refl. by rewrite <- (prefixed_nil (go None depth l)) at 1; rewrite prefixed_before.
  - assert (esc && (b =? c_backslash) = false) as ->.
    { destruct esc; [|done]. simpl. apply Z.eqb_neq. auto. }
    unfold str_next. rewrite (proj2 (Z.eqb_neq b d) Hb), IH. by rewrite prefixed_before.
  - rewrite He. cbn [andb]. change (c_backslash =? c_backslash) with true. cbn match. rewrite <- He.
    unfold before2. by rewrite IH, !prefixed_before.
Qed.

Lemma to_close_balanced (x : bytes) : balanced esc op cl x -> forall n l,
  go None (Z.of_nat (S n)) (x ++ l) = prefixed x (go None (Z.of_nat (S n)) l).
Proof.
  induction 1 as [|b x Hq Ho Hc Hx IH|d s x Hd Hs Hx IH|x y Hx IHx Hy IHy]; intros n l.
  - by rewrite prefixed_nil.
  - cbn [app to_close]. rewrite Hq. apply Z.eqb_neq in Ho, Hc. by rewrite Ho, Hc, IH, prefixed_before.
  - cbn [app to_close]. rewrite Hd, <- app_assoc. cbn [app]. rewrite (to_close_literal d s _ _ Hd Hs), IH.
    rewrite prefixed_app, prefixed_before. f_equal. by rewrite <- app_assoc.
  - cbn [app to_close]. rewrite Hqo, Z.eqb_refl, <- app_assoc. cbn [app].
    replace (Z.of_nat (S n) + 1) with (Z.of_nat (S (S n))) by lia. rewrite IHx. cbn [to_close].
    rewrite Hqc, Z.eqb_refl. apply not_eq_sym, Z.eqb_neq in Hne. rewrite Hne.
    destruct (Z.eqb_spec (Z.of_nat (S (S n)) - 1) 0); [lia|].
    replace (Z.of_nat (S (S n)) - 1) with (Z.of_nat (S n)) by lia. rewrite IHy.
    by rewrite (prefixed_before cl), prefixed_app, prefixed_before.
Qed.

Lemma extract_iff (src x rest : bytes) :
  extract esc op cl src = Some (x, rest) <-> src = op :: x ++ cl :: rest /\ balanced esc op cl x.
Proof.
  split.
  - destruct src as [|b l]; [done|]. simpl. destruct (Z.eqb_spec b op) as [->|]; [|done]. intros H.
    destruct (to_close_sound l) as [Hn _]. destruct (Hn O x rest H) as [Hg ->]. done.
  - intros [-> Hx]. simpl. rewrite Z.eqb_refl. change 1 with (Z.of_nat 1). rewrite (to_close_balanced x Hx).
    cbn [to_close]. rewrite Hqc, Z.eqb_refl. apply not_eq_sym, Z.eqb_neq in Hne. rewrite Hne.
    change (Z.of_nat 1 - 1 =? 0) with true. cbn. by rewrite app_nil_r.
Qed.
End Extract.

(** ** Lists and statements *)

(** The scanning state after [l]: none when a bracket closes what is not open, or at a byte
    outside of everything that [stop] names. *)
Fixpoint nest (stop : Z -> bool) (q : option Z) (depth : Z) (l : bytes) : option (option Z * Z) :=
  match l with
  | [] => Some (q, depth)
  | b :: l' =>
      match q with
      | Some _ => nest stop (str_next q b) depth l'
      | None =>
          if is_quote b then nest stop (Some b) depth l'
          else if opens b then nest stop None (depth + 1) l'
          else if closes b then if depth - 1 <? 0 then None else nest stop None (depth - 1) l'
          else if stop b && (depth =? 0) then None
          else nest stop None depth l'
      end
  end.
Lemma nest_app (stop : Z -> bool) (q : option Z) (depth : Z) (l1 l2 : bytes) :
  nest stop q depth (l1 ++ l2) = '(q', d') ← nest stop q depth l1; nest stop q' d' l2.
Proof.
  revert q depth. induction l1 as [|b l1 IH]; intros q depth; [done|]. cbn [app nest].
  destruct q; [apply IH|]. destruct (is_quote b); [apply IH|]. destruct (opens b); [apply IH|].
  destruct (closes b); [destruct (_ <? 0); [done|apply IH]|]. destruct (_ && _); [done|apply IH].
Qed.
Lemma nest_snoc (stop : Z -> bool) (cur : bytes) (b : Z) q d : nest stop None 0 (rev cur) = Some (q, d) ->
  nest stop None 0 (rev (b :: cur)) = nest stop q d [b].
Proof. intros H. cbn [rev]. by rewrite nest_app, H. Qed.

(** A piece closes all it opens. *)
Definition piece (stop : Z -> bool) (p : bytes) : Prop := nest stop None 0 p = Some (None, 0).
(** The last one may end inside a literal. *)
Definition last_piece (stop : Z -> bool) (p : bytes) : Prop := exists q, nest stop None 0 p = Some (q, 0).
Definition comma (b : Z) : bool := b =? 44.

Definition kept (last : bytes) : list bytes := match trim last with [] => [] | p => [p] end.
Definition commas (raws : list bytes) (last : bytes) : bytes := concat ((fun r => r ++ [44]) <$> raws) ++ last.

Lemma split_loop_sound (l : bytes) : forall q d cur ps,
  nest comma None 0 (rev cur) = Some (q, d) -> split_loop q d cur l = Some ps ->
  exists raws last, rev cur ++ l = commas raws last /\ Forall (piece comma) raws /\ last_piece comma last /\
    ps = (trim <$> raws) ++ kept last.
Proof.
  induction l as [|b l IH]; intros q d cur ps Hc; cbn [split_loop].
  - destruct (Z.eqb_spec d 0) as [->|]; [|done]. intros [= <-]. exists [], (rev cur). rewrite app_nil_r.
    split; [done|]. split; [constructor|]. split; [by exists q|done].
  - assert (Hgo : forall q' d', nest comma q d [b] = Some (q', d') -> split_loop q' d' (b :: cur) l = Some ps ->
      exists raws last, rev cur ++ b :: l = commas raws last /\ Forall (piece comma) raws /\ last_piece comma last /\
        ps = (trim <$> raws) ++ kept last).
    { intros q' d' Hn H. apply IH in H; [|by rewrite (nest_snoc comma cur b q d Hc)]. cbn [rev] in H.
      by rewrite <- app_assoc in H. }
    destruct q as [e|]; [by apply Hgo|]. cbn [nest] in Hgo. destruct (is_quote b); [by apply Hgo|].
    destruct (opens b); [by apply Hgo|]. destruct (closes b); [destruct (_ <? 0); [done|by apply Hgo]|].
    change (comma b) with (b =? 44) in Hgo. destruct ((b =? 44) && (d =? 0)) eqn:E; [|by apply Hgo].
    apply andb_true_iff in E as [->%Z.eqb_eq ->%Z.eqb_eq].
    destruct (split_loop None 0 [] l) as [rest|] eqn:El; [|done]. intros [= <-].
    destruct (IH None 0 [] rest eq_refl El) as (raws & last & Hl & Hr & Hlast & ->). cbn [rev app] in Hl.
    exists (rev cur :: raws), last. split; [|split; [by constructor|done]].
    unfold commas in *. rewrite fmap_cons. cbn [concat]. by rewrite Hl, <- !app_assoc.
Qed.

Lemma split_loop_nest (p : bytes) : forall q d q' d' cur l, nest comma q d p = Some (q', d') ->
  split_loop q d cur (p ++ l) = split_loop q' d' (rev p ++ cur) l.
Proof.
  induction p as [|b p IH]; intros q d q' d' cur l; [by intros [= <- <-]|]. cbn [nest app split_loop rev].
  rewrite <- app_assoc. cbn [app]. destruct q; [apply IH|]. destruct (is_quote b); [apply IH|]. destruct (opens b); [apply IH|].
  destruct (closes b); [destruct (_ <? 0); [done|apply IH]|]. change (comma b) with (b =? 44). destruct (_ && _); [done|apply IH].
Qed.

Lemma split_loop_iff (l : bytes) (ps : list bytes) :
  split_loop None 0 [] l = Some ps <->
  exists raws last, l = commas raws last /\ Forall (piece comma) raws /\ last_piece comma last /\
    ps = (trim <$> raws) ++ kept last.
Proof.
  split; [intros H; by apply (split_loop_sound l None 0 [])|].
  intros (raws & last & -> & Hr & [q Hl] & ->). induction Hr as [|r raws Hr _ IH].
  - unfold commas. cbn [fmap list_fmap concat app]. rewrite <- (app_nil_r last) at 1.
    rewrite (split_loop_nest last _ _ _ _ [] [] Hl). cbn [split_loop]. change (0 =? 0) with true. cbn match.
    by rewrite app_nil_r, rev_involutive.
  - unfold commas in *. rewrite !fmap_cons. cbn [concat]. rewrite <- !app_assoc, (split_loop_nest r _ _ _ _ [] _ Hr).
    cbn [app split_loop]. change (is_quote 44) with false. change (opens 44) with false. change (closes 44) with false.
    change ((44 =? 44) && (0 =? 0)) with true. cbn match. rewrite IH. cbn [mbind option_bind].
    by rewrite app_nil_r, rev_involutive.
Qed.

(** *** Statements *)

Definition no_stop (b : Z) : bool := false.
Definition separator (b : Z) : Prop := b = c_semi \/ b = LF.

(** [tiled i l parts]: from offset [i] on, the text [l] is the parts, in order and each a piece
    that closes all it opens, with only separators and blank text between them. *)
Inductive tiled : Z -> bytes -> list (Z * bytes) -> Prop :=
  | tl_blank i p : last_piece no_stop p -> nonblank p = false -> tiled i p []
  | tl_last i p : last_piece no_stop p -> nonblank p = true -> tiled i p [(i, p)]
  | tl_skip i p s l parts : piece no_stop p -> nonblank p = false -> separator s ->
      tiled (i + Z.of_nat (length p) + 1) l parts -> tiled i (p ++ s :: l) parts
  | tl_stmt i p s l parts : piece no_stop p -> nonblank p = true -> separator s ->
      tiled (i + Z.of_nat (length p) + 1) l parts -> tiled i (p ++ s :: l) ((i, p) :: parts)
  | tl_block i p l parts : piece no_stop p -> nonblank p = true -> (exists p', p = p' ++ [c_rbrace]) ->
      tiled (i + Z.of_nat (length p)) l parts -> tiled i (p ++ l) ((i, p) :: parts).

Lemma loop_word_nonblank (p : bytes) : starts_any (loop_words ++ [b! "function "]) (trim p) = true -> nonblank p = true.
Proof. unfold nonblank. by destruct (trim p). Qed.

Lemma stmts_loop_tiled (l : bytes) : forall i start q d cur parts,
  nest no_stop None 0 (rev cur) = Some (q, d) -> i = start + Z.of_nat (length cur) ->
  stmts_loop i start q d cur l = Some parts -> tiled start (rev cur ++ l) parts.
Proof.
  induction l as [|b l IH]; intros i start q d cur parts Hc Hi; cbn [stmts_loop].
  - destruct (Z.eqb_spec d 0) as [->|]; [|done]. unfold push_part. cbn [mbind option_bind]. rewrite app_nil_r.
    destruct (nonblank (rev cur)) eqn:En; intros [= <-]; constructor; by try exists q.
  - assert (Hgo : forall q' d', nest no_stop q d [b] = Some (q', d') ->
      stmts_loop (i + 1) start q' d' (b :: cur) l = Some parts -> tiled start (rev cur ++ b :: l) parts).
    { intros q' d' Hn H. apply IH in H; [|by rewrite (nest_snoc no_stop cur b q d Hc)|cbn [length]; lia].
      cbn [rev] in H. by rewrite <- app_assoc in H. }
    destruct q as [e|]; [by apply Hgo|]. cbn [nest] in Hgo. destruct (is_quote b) eqn:Eq; [by apply Hgo|].
    destruct (opens b) eqn:Eo; [by apply Hgo|]. destruct (closes b) eqn:Ec.
    { cbv zeta. destruct (d - 1 <? 0) eqn:Ed; [done|].
      match goal with |- (if ?c then _ else _) = _ -> _ => destruct c eqn:E end; [|by apply Hgo].
      apply andb_true_iff in E as [E Ew]. apply andb_true_iff in E as [E _]. apply andb_true_iff in E as [E0%Z.eqb_eq Eb%Z.eqb_eq].
      unfold push_part. rewrite (loop_word_nonblank _ Ew).
      destruct (stmts_loop (i + 1) (i + 1) None (d - 1) [] l) as [rest|] eqn:El; [|done]. intros [= <-].
      assert (Hp : piece no_stop (rev (b :: cur))).
      { unfold piece. rewrite (nest_snoc no_stop cur b None d Hc). cbn [nest]. rewrite Eq, Eo, Ec, Ed. by rewrite E0. }
      replace (rev cur ++ b :: l) with (rev (b :: cur) ++ l) by (cbn [rev]; by rewrite <- app_assoc).
      apply tl_block; [done|by apply loop_word_nonblank|exists (rev cur); by rewrite <- Eb|]. rewrite length_app, length_rev. cbn [length].
      rewrite E0 in El. apply (IH (i + 1) (i + 1) None 0 [] rest eq_refl) in El; [|cbn [length]; lia].
      by replace (start + Z.of_nat (length cur + 1)) with (i + 1) by lia. }
    destruct (((b =? c_semi) || (b =? LF)) && (d =? 0)) eqn:Es; [|by apply Hgo].
    apply andb_true_iff in Es as [Es ->%Z.eqb_eq]. cbv zeta.
    match goal with |- (if ?c then _ else _) = _ -> _ => destruct c eqn:E end; [by apply Hgo|].
    assert (Hsep : separator b) by (apply orb_true_iff in Es as [?%Z.eqb_eq|?%Z.eqb_eq]; [by left|by right]).
    unfold push_part. destruct (stmts_loop (i + 1) (i + 1) None 0 [] l) as [rest|] eqn:El; [|done].
    apply (IH (i + 1) (i + 1) None 0 [] rest eq_refl) in El; [|cbn [length]; lia]. cbn [rev app] in El.
    destruct (nonblank (rev cur)) eqn:En; intros [= <-]; constructor; try done; rewrite length_rev;
      by replace (start + Z.of_nat (length cur) + 1) with (i + 1) by lia.
Qed.

(** Each part is where its offset says. *)
Lemma tiled_slice (i : Z) (l : bytes) (parts : list (Z * bytes)) : tiled i l parts ->
  forall o p, (o, p) ∈ parts -> i <= o /\ take (length p) (drop (Z.to_nat (o - i)) l) = p.
Proof.
  assert (Hhere : forall i p l, i <= i /\ take (length p) (drop (Z.to_nat (i - i)) (p ++ l : bytes)) = p).
  { intros j p l'. split; [lia|]. by rewrite Z.sub_diag, drop_0, take_app_length. }
  assert (Hrest : forall i k (p l q : bytes) o, 0 <= k -> Z.of_nat (length p) = k ->
    i + k <= o /\ take (length q) (drop (Z.to_nat (o - (i + k))) l) = q ->
    i <= o /\ take (length q) (drop (Z.to_nat (o - i)) (p ++ l)) = q).
  { intros j k p l' q o Hk Hp [Ho Hq]. split; [lia|]. rewrite drop_app_ge by lia.
    by replace (Z.to_nat (o - j) - length p)%nat with (Z.to_nat (o - (j + k))) by lia. }
  induction 1 as [i p _ _|i p _ _|i p s l parts _ _ _ _ IH|i p s l parts _ _ _ _ IH|i p l parts _ _ _ _ IH]; intros o q Hin.
  - by apply elem_of_nil in Hin.
  - apply list_elem_of_singleton in Hin as [= -> ->]. rewrite <- (app_nil_r p) at 2. apply Hhere.
  - specialize (IH o q Hin). replace (p ++ s :: l) with ((p ++ [s]) ++ l) by by rewrite <- app_assoc.
    apply (Hrest i (Z.of_nat (length p) + 1)); [lia|rewrite length_app; cbn [length]; lia|]. by rewrite Z.add_assoc.
  - apply elem_of_cons in Hin as [[= -> ->]|Hin]; [apply Hhere|]. specialize (IH o q Hin).
    replace (p ++ s :: l) with ((p ++ [s]) ++ l) by by rewrite <- app_assoc.
    apply (Hrest i (Z.of_nat (length p) + 1)); [lia|rewrite length_app; cbn [length]; lia|]. by rewrite Z.add_assoc.
  - apply elem_of_cons in Hin as [[= -> ->]|Hin]; [apply Hhere|]. specialize (IH o q Hin).
    by apply (Hrest i (Z.of_nat (length p))); [lia|done|].
Qed.

(** ** Comments *)

(** A byte, or a space for one that does not end a line. *)
Definition masks (b o : Z) : Prop := o = b \/ (o = 32 /\ b <> LF).

Lemma emit_inl (out t : bytes) (r : bytes + Z) : emit out r = inl t -> exists t', r = inl t' /\ t = out ++ t'.
Proof. destruct r as [t'|]; [|done]. intros [= <-]. by exists t'. Qed.
Lemma blank_masks (b : Z) : masks b (blank b).
Proof. unfold masks, blank. destruct (Z.eqb_spec b LF) as [->|]; auto. Qed.
Lemma masks_refl (b : Z) : masks b b.
Proof. by left. Qed.
#[local] Hint Resolve blank_masks masks_refl : core.

Lemma strip_masks (l : bytes) : forall i m out, strip_loop i m l = inl out -> Forall2 masks l out.
Proof.
  induction l as [l IH] using bytes_strong_ind. intros i m out. destruct l as [|b l]; [destruct m; cbn; by intros [= <-]|].
  assert (H1 : forall j m' o, masks b o -> emit [o] (strip_loop j m' l) = inl out -> Forall2 masks (b :: l) out).
  { intros j m' o Ho (t & Ht & ->)%emit_inl. constructor; [done|]. apply (IH l ltac:(simpl; lia) _ _ _ Ht). }
  assert (H2 : forall j m' c l2 o1 o2, l = c :: l2 -> masks b o1 -> masks c o2 ->
    emit [o1; o2] (strip_loop j m' l2) = inl out -> Forall2 masks (b :: l) out).
  { intros j m' c l2 o1 o2 -> Ho1 Ho2 (t & Ht & ->)%emit_inl. constructor; [done|]. constructor; [done|].
    apply (IH l2 ltac:(simpl; lia) _ _ _ Ht). }
  destruct m as [|d| |a]; cbn [strip_loop].
  - destruct (is_quote b); [by apply H1|]. destruct l as [|c l2]; [intros [= <-]; by repeat constructor|].
    destruct ((b =? 47) && (c =? 47)) eqn:E1; [|destruct ((b =? 47) && (c =? 42)) eqn:E2; [|by apply H1]].
    + apply andb_true_iff in E1 as [->%Z.eqb_eq ->%Z.eqb_eq]. by apply (H2 _ _ 47 l2); [done|right..].
    + apply andb_true_iff in E2 as [->%Z.eqb_eq ->%Z.eqb_eq]. by apply (H2 _ _ 42 l2); [done|right..].
  - destruct (b =? c_backslash); [|by apply H1]. destruct l as [|c l2]; [intros [= <-]; by repeat constructor|].
    by apply (H2 _ _ c l2).
  - destruct (Z.eqb_spec b LF) as [->|]; [by apply H1|]. apply H1. by right.
  - destruct l as [|c l2]; [done|]. destruct ((b =? 42) && (c =? 47)) eqn:E; [|by apply H1].
    apply andb_true_iff in E as [->%Z.eqb_eq ->%Z.eqb_eq]. by apply (H2 _ _ 47 l2); [done|right..].
Qed.

(** What is left holds no comment. *)
Definition code_mode (m : Mode) : Mode := match m with MLine | MBlock _ => MCode | _ => m end.
Lemma strip_head (i : Z) (c : Z) (l out : bytes) : strip_loop i MCode (c :: l) = inl out ->
  exists o out', out = o :: out' /\ (o = c \/ o = 32).
Proof.
  cbn [strip_loop]. destruct (is_quote c); [intros (t & _ & ->)%emit_inl; by exists c, t; auto|].
  destruct l as [|d l]; [intros [= <-]; exists c, []; auto|].
  destruct (_ && _); [intros (t & _ & ->)%emit_inl; by exists 32, (32 :: t); auto|].
  destruct (_ && _); [intros (t & _ & ->)%emit_inl; by exists 32, (32 :: t); auto|].
  intros (t & _ & ->)%emit_inl. exists c, t. auto.
Qed.
Lemma strip_space (i : Z) (o : Z) (t : bytes) : o = 32 \/ o = LF ->
  strip_loop i MCode (o :: t) = emit [o] (strip_loop (i + 1) MCode t).
Proof. intros [-> | ->]; by destruct t. Qed.

Lemma strip_code (i b c : Z) (l2 : bytes) : strip_loop i MCode (b :: c :: l2) =
  if is_quote b then emit [b] (strip_loop (i + 1) (MStr b) (c :: l2))
  else if (b =? 47) && (c =? 47) then emit [32; 32] (strip_loop (i + 2) MLine l2)
  else if (b =? 47) && (c =? 42) then emit [32; 32] (strip_loop (i + 2) (MBlock i) l2)
  else emit [b] (strip_loop (i + 1) MCode (c :: l2)).
Proof. reflexivity. Qed.

Lemma strip_idem (l : bytes) : forall i m out k, strip_loop i m l = inl out -> strip_loop k (code_mode m) out = inl out.
Proof.
  induction l as [l IH] using bytes_strong_ind. intros i m out k. destruct l as [|b l].
  { destruct m; cbn; by intros [= <-]. }
  assert (IHl : forall j m' t k, strip_loop j m' l = inl t -> strip_loop k (code_mode m') t = inl t).
  { intros j m' t k'. apply (IH l ltac:(simpl; lia)). }
  assert (IHl2 : forall c l2 j m' t k, l = c :: l2 -> strip_loop j m' l2 = inl t -> strip_loop k (code_mode m') t = inl t).
  { intros c l2 j m' t k' ->. apply (IH l2 ltac:(simpl; lia)). }
  assert (Hsp : forall o t k', o = 32 \/ o = LF -> strip_loop (k' + 1) MCode t = inl t -> strip_loop k' MCode (o :: t) = inl (o :: t)).
  { intros o t k' Ho Ht. by rewrite strip_space, Ht. }
  destruct m as [|d| |a]; cbn [strip_loop code_mode].
  - destruct (is_quote b) eqn:Eq.
    { intros (t & Ht & ->)%emit_inl. cbn [app strip_loop]. rewrite Eq.
      by rewrite (IHl _ _ _ (k + 1) Ht : strip_loop (k + 1) (MStr b) t = inl t). }
    destruct l as [|c l2]; [intros [= <-]; cbn; by rewrite Eq|].
    destruct ((b =? 47) && (c =? 47)) eqn:E1.
    { intros (t & Ht & ->)%emit_inl. cbn [app]. do 2 (apply Hsp; [by left|]).
      exact (IHl2 c l2 _ MLine t _ eq_refl Ht). }
    destruct ((b =? 47) && (c =? 42)) eqn:E2.
    { intros (t & Ht & ->)%emit_inl. cbn [app]. do 2 (apply Hsp; [by left|]).
      exact (IHl2 c l2 _ (MBlock i) t _ eq_refl Ht). }
    intros (t & Ht & ->)%emit_inl. pose proof (IHl _ MCode _ (k + 1) Ht) as Hi.
    destruct (strip_head _ _ _ _ Ht) as (o & t' & -> & Ho). cbn [app]. cbn [code_mode] in Hi.
    rewrite strip_code, Eq, Hi.
    assert ((b =? 47) && (o =? 47) = false) as ->.
    { destruct Ho as [-> | ->]; [done|]. by rewrite andb_false_r. }
    assert ((b =? 47) && (o =? 42) = false) as ->.
    { destruct Ho as [-> | ->]; [done|]. by rewrite andb_false_r. }
    done.
  - destruct (b =? c_backslash) eqn:Eb.
    + destruct l as [|c l2]; [intros [= <-]; cbn [strip_loop]; by rewrite Eb|].
      intros (t & Ht & ->)%emit_inl. cbn [app strip_loop]. rewrite Eb.
      by rewrite (IHl2 c l2 _ (MStr d) t (k + 2) eq_refl Ht : strip_loop (k + 2) (MStr d) t = inl t).
    + intros (t & Ht & ->)%emit_inl. cbn [app strip_loop]. rewrite Eb.
      destruct (b =? d).
      * by rewrite (IHl _ MCode _ (k + 1) Ht : strip_loop (k + 1) MCode t = inl t).
      * by rewrite (IHl _ (MStr d) _ (k + 1) Ht : strip_loop (k + 1) (MStr d) t = inl t).
  - destruct (b =? LF) eqn:Eb; intros (t & Ht & ->)%emit_inl; cbn [app].
    + apply Hsp; [by right|]. exact (IHl _ MCode _ _ Ht).
    + apply Hsp; [by left|]. exact (IHl _ MLine _ _ Ht).
  - destruct l as [|c l2]; [done|]. destruct (_ && _); intros (t & Ht & ->)%emit_inl; cbn [app].
    + do 2 (apply Hsp; [by left|]). exact (IHl2 c l2 _ MCode t _ eq_refl Ht).
    + apply Hsp; [unfold blank; destruct (b =? LF); auto|]. exact (IHl _ (MBlock a) _ _ Ht).
Qed.

(** The error is at a comment that does not end. *)
Definition unclosed (l : bytes) : Prop := find_sub [42; 47] l = None.
Lemma unclosed_cons (b c : Z) (l : bytes) : (b =? 42) && (c =? 47) = false -> unclosed (c :: l) -> unclosed (b :: c :: l).
Proof.
  intros E H. unfold unclosed in *. cbn [find_sub]. cbn [find_sub] in H. unfold strip_prefix, starts_with in *. fold starts_with in *.
  destruct (42 =? b) eqn:E1; cbn [andb].
  - destruct (47 =? c) eqn:E2; cbn [andb].
    + apply Z.eqb_eq in E1, E2. subst. done.
    + by rewrite H.
  - by rewrite H.
Qed.
Lemma strip_error (l : bytes) : forall i m e, strip_loop i m l = inr e ->
  (m = MBlock e /\ unclosed l) \/
  exists pre post, l = pre ++ 47 :: 42 :: post /\ e = i + Z.of_nat (length pre) /\ unclosed post.
Proof.
  induction l as [l IH] using bytes_strong_ind. intros i m e. destruct l as [|b l].
  { destruct m; cbn; try done. intros [= ->]. by left. }
  assert (Hi : forall (out : bytes) (r : bytes + Z), emit out r = inr e -> r = inr e) by (by intros out [|]).
  assert (H1 : forall m', (forall e, m' <> MBlock e) -> strip_loop (i + 1) m' l = inr e ->
    exists pre post, b :: l = pre ++ 47 :: 42 :: post /\ e = i + Z.of_nat (length pre) /\ unclosed post).
  { intros m' Hm H. destruct (IH l ltac:(simpl; lia) _ _ _ H) as [[-> _]|(pre & post & -> & -> & Hp)]; [by destruct (Hm e)|].
    exists (b :: pre), post. split; [done|]. split; [cbn [length]; lia|done]. }
  assert (H2 : forall c l2 m', l = c :: l2 -> (forall e, m' <> MBlock e) -> strip_loop (i + 2) m' l2 = inr e ->
    exists pre post, b :: l = pre ++ 47 :: 42 :: post /\ e = i + Z.of_nat (length pre) /\ unclosed post).
  { intros c l2 m' -> Hm H. destruct (IH l2 ltac:(simpl; lia) _ _ _ H) as [[-> _]|(pre & post & -> & -> & Hp)]; [by destruct (Hm e)|].
    exists (b :: c :: pre), post. split; [done|]. split; [cbn [length]; lia|done]. }
  destruct m as [|d| |a]; cbn [strip_loop].
  - destruct (is_quote b); [intros H%Hi; right; by (eapply H1; [|exact H])|]. destruct l as [|c l2]; [done|].
    destruct (_ && _); [intros H%Hi; right; by (eapply H2; [reflexivity| |exact H])|].
    destruct ((b =? 47) && (c =? 42)) eqn:E; [|intros H%Hi; right; by (eapply H1; [|exact H])].
    intros H%Hi. apply andb_true_iff in E as [->%Z.eqb_eq ->%Z.eqb_eq]. right.
    destruct (IH l2 ltac:(simpl; lia) _ _ _ H) as [[[= ->] Hu]|(pre & post & -> & -> & Hp)].
    + exists [], l2. split; [done|]. split; [cbn [length]; lia|done].
    + exists (47 :: 42 :: pre), post. split; [done|]. split; [cbn [length]; lia|done].
  - destruct (b =? c_backslash); [|intros H%Hi; right; eapply H1; [|exact H]; by destruct (b =? d)].
    destruct l as [|c l2]; [done|]. intros H%Hi. right. by (eapply H2; [reflexivity| |exact H]).
  - destruct (b =? LF); intros H%Hi; right; by (eapply H1; [|exact H]).
  - destruct l as [|c l2]; [intros [= ->]; left; split; [done|]; unfold unclosed, find_sub, strip_prefix; cbn [starts_with]; by destruct (42 =? b)|].
    destruct ((b =? 42) && (c =? 47)) eqn:E; intros H%Hi.
    + right. by (eapply H2; [reflexivity| |exact H]).
    + destruct (IH (c :: l2) ltac:(simpl; lia) _ _ _ H) as [[[= ->] Hu]|(pre & post & E' & -> & Hp)].
      * left. split; [done|]. by apply unclosed_cons.
      * right. exists (b :: pre), post. rewrite E'. split; [done|]. split; [cbn [length]; lia|done].
Qed.

(** *** The result is text again *)

Definition high (b : Z) : Prop := 128 <= b.
(** An ASCII byte, or the bytes of one other character. *)
Lemma utf8_cases (l : bytes) : utf8_valid l = true ->
  l = [] \/
  (exists a r, l = a :: r /\ a < 128 /\ utf8_valid r = true) \/
  (exists c ch r, l = (c :: ch) ++ r /\ Forall high (c :: ch) /\ utf8_valid r = true /\
    forall t, utf8_valid t = true -> utf8_valid ((c :: ch) ++ t) = true).
Proof.
  destruct l as [|a r]; [by left|]. cbn [utf8_valid]. destruct (Z.ltb_spec a 128); [intros; right; left; by exists a, r|].
  intros H1. right. right.
  assert (Hc : forall b, is_cont b = true -> high b) by (intros b; unfold is_cont, in_range, high; lia).
  assert (Hs : forall x b, second_ok x b = true -> high b).
  { intros x b. unfold second_ok, high, is_cont, in_range. repeat destruct (_ =? _); lia. }
  destruct (in_range 194 223 a) eqn:E2.
  { destruct r as [|b r]; [done|]. apply andb_true_iff in H1 as [Hb Hr].
    exists a, [b], r. split; [done|]. split; [repeat constructor; auto|]. split; [done|].
    intros t Ht. cbn [app utf8_valid]. destruct (Z.ltb_spec a 128); [lia|]. by rewrite E2, Hb. }
  destruct (in_range 224 239 a) eqn:E3.
  { destruct r as [|b [|c r]]; [done..|]. apply andb_true_iff in H1 as [[Hb Hc']%andb_true_iff Hr].
    exists a, [b; c], r. split; [done|]. split; [repeat constructor; eauto|]. split; [done|].
    intros t Ht. cbn [app utf8_valid]. destruct (Z.ltb_spec a 128); [lia|]. by rewrite E2, E3, Hb, Hc'. }
  destruct (in_range 240 244 a) eqn:E4; [|done].
  destruct r as [|b [|c [|d r]]]; [done..|]. apply andb_true_iff in H1 as [[[Hb Hc']%andb_true_iff Hd]%andb_true_iff Hr].
  exists a, [b; c; d], r. split; [done|]. split; [repeat constructor; eauto|]. split; [done|].
  intros t Ht. cbn [app utf8_valid]. destruct (Z.ltb_spec a 128); [lia|]. by rewrite E2, E3, E4, Hb, Hc', Hd.
Qed.
Lemma utf8_tail (a : Z) (r : bytes) : a < 128 -> utf8_valid (a :: r) = utf8_valid r.
Proof. intros H. cbn [utf8_valid]. by destruct (Z.ltb_spec a 128); [|lia]. Qed.

Definition shown_in (m : Mode) (b : Z) : Z := match m with MCode | MStr _ => b | _ => 32 end.
Lemma strip_high_one (b : Z) (l : bytes) (i : Z) (m : Mode) (out : bytes) : high b ->
  (forall d, m = MStr d -> d < 128) -> strip_loop i m (b :: l) = inl out ->
  exists j t, strip_loop j m l = inl t /\ out = shown_in m b :: t.
Proof.
  unfold high. intros Hb Hd. assert (Hq : is_quote b = false) by (unfold is_quote; lia).
  assert (H47 : (b =? 47) = false) by lia. assert (H42 : (b =? 42) = false) by lia.
  assert (HLF : (b =? LF) = false) by lia. assert (Hbs : (b =? c_backslash) = false) by lia.
  destruct m as [|d| |a]; cbn [strip_loop shown_in].
  - rewrite Hq. destruct l as [|c l2]; [intros [= <-]; by exists 0, []|]. rewrite H47. cbn [andb].
    intros (t & Ht & ->)%emit_inl. by exists (i + 1), t.
  - rewrite Hbs. assert ((b =? d) = false) as -> by (specialize (Hd d eq_refl); lia).
    intros (t & Ht & ->)%emit_inl. by exists (i + 1), t.
  - rewrite HLF. intros (t & Ht & ->)%emit_inl. by exists (i + 1), t.
  - destruct l as [|c l2]; [done|]. rewrite H42. cbn [andb]. unfold blank. rewrite HLF.
    intros (t & Ht & ->)%emit_inl. by exists (i + 1), t.
Qed.
Lemma strip_high (ch l : bytes) (m : Mode) : Forall high ch -> (forall d, m = MStr d -> d < 128) ->
  forall i out, strip_loop i m (ch ++ l) = inl out ->
  exists j t, strip_loop j m l = inl t /\ out = (shown_in m <$> ch) ++ t.
Proof.
  intros Hch Hd. induction Hch as [|b ch Hb _ IH]; intros i out H; [by exists i, out|].
  apply strip_high_one in H as (j & t & H & ->); [|done..]. destruct (IH j t H) as (j' & t' & H' & ->).
  by exists j', t'.
Qed.
Lemma utf8_spaces (ch t : bytes) (m : Mode) : (forall b, shown_in m b = 32) -> utf8_valid t = true ->
  utf8_valid ((shown_in m <$> ch) ++ t) = true.
Proof. intros Hm Ht. induction ch as [|b ch IH]; [done|]. cbn [fmap list_fmap app]. by rewrite Hm, utf8_tail by lia. Qed.

Lemma strip_utf8 (l : bytes) : forall i m out, (forall d, m = MStr d -> d < 128) ->
  utf8_valid l = true -> strip_loop i m l = inl out -> utf8_valid out = true.
Proof.
  induction l as [l IH] using bytes_strong_ind. intros i m out Hd Hu.
  destruct (utf8_cases l Hu) as [->|[(a & r & -> & Ha & Hr)|(c & ch & r & -> & Hch & Hr & Hext)]].
  - destruct m; cbn; by intros [= <-].
  - assert (H1 : forall j m' o, o < 128 -> (forall d, m' = MStr d -> d < 128) -> emit [o] (strip_loop j m' r) = inl out ->
      utf8_valid out = true).
    { intros j m' o Ho Hm' (t & Ht & ->)%emit_inl. cbn [app]. rewrite utf8_tail by done.
      exact (IH r ltac:(simpl; lia) j m' t Hm' Hr Ht). }
    assert (H2 : forall c l2 j m' o1 o2, r = c :: l2 -> c < 128 -> o1 < 128 -> o2 < 128 -> (forall d, m' = MStr d -> d < 128) ->
      emit [o1; o2] (strip_loop j m' l2) = inl out -> utf8_valid out = true).
    { intros c l2 j m' o1 o2 -> Hc Ho1 Ho2 Hm' (t & Ht & ->)%emit_inl. cbn [app]. rewrite !utf8_tail by done.
      rewrite utf8_tail in Hr by done. exact (IH l2 ltac:(simpl; lia) j m' t Hm' Hr Ht). }
    destruct m as [|d| |e]; cbn [strip_loop].
    + destruct (is_quote a) eqn:Eq; [apply H1; [done|]; intros d [= <-]; done|].
      destruct r as [|c l2]; [intros [= <-]; by rewrite utf8_tail|].
      destruct ((a =? 47) && (c =? 47)) eqn:E1.
      { apply andb_true_iff in E1 as [_ E1%Z.eqb_eq]. by apply (H2 c l2); [|lia..|]. }
      destruct ((a =? 47) && (c =? 42)) eqn:E2; [|by apply H1].
      apply andb_true_iff in E2 as [_ E2%Z.eqb_eq]. by apply (H2 c l2); [|lia..|].
    + destruct (Z.eqb_spec a c_backslash) as [->|].
      2:{ apply H1; [done|]. destruct (a =? d); [done|exact Hd]. }
      destruct r as [|c l2]; [by intros [= <-]|].
      destruct (utf8_cases (c :: l2) Hr) as [?|[(c' & r' & [= <- <-] & Hc & _)|(c' & ch & r' & [= <- ->] & Hch & Hr' & Hext)]]; [done| |].
      * by apply (H2 c l2).
      * intros (t & Ht & ->)%emit_inl. apply Forall_cons in Hch as [_ Hch].
        destruct (strip_high ch r' (MStr d) Hch Hd _ _ Ht) as (j & t' & Ht' & ->). cbn [app].
        rewrite utf8_tail by done. replace (shown_in (MStr d) <$> ch) with ch by (symmetry; apply list_fmap_id).
        apply Hext. apply (IH r' ltac:(simpl; rewrite length_app; lia) j (MStr d) t' Hd Hr' Ht').
    + destruct (a =? LF); apply H1; done || lia.
    + destruct r as [|c l2]; [done|]. destruct ((a =? 42) && (c =? 47)) eqn:E.
      * apply andb_true_iff in E as [_ E%Z.eqb_eq]. by apply (H2 c l2); [|lia..|].
      * apply H1; [unfold blank; destruct (a =? LF); lia|done].
  - intros H. destruct (strip_high (c :: ch) r m Hch Hd i out H) as (j & t & Ht & ->).
    assert (Hut : utf8_valid t = true) by exact (IH r ltac:(simpl; rewrite length_app; lia) j m t Hd Hr Ht).
    destruct m as [|d| |e]; [|rewrite (list_fmap_id (c :: ch) : shown_in (MStr d) <$> c :: ch = c :: ch); by apply Hext|by apply utf8_spaces..].
    rewrite (list_fmap_id (c :: ch) : shown_in MCode <$> c :: ch = c :: ch). by apply Hext.
Qed.

(** ** UTF-16 units in a string *)

Lemma utf8_encode_spec (c : Z) (l : bytes) : 0 <= c < 65536 -> in_range 55296 57343 c = false ->
  utf8_chars (utf8_encode c ++ l) = c :: utf8_chars l /\ utf8_valid (utf8_encode c ++ l) = utf8_valid l.
Proof.
  unfold in_range. intros Hc Hs. unfold utf8_encode. destruct (Z.ltb_spec c 128).
  { cbn [app utf8_chars utf8_valid]. destruct (Z.ltb_spec c 128); [done|lia]. }
  pose proof (Z.div_mod c 64 ltac:(lia)) as Hdm. pose proof (Z.mod_pos_bound c 64 ltac:(lia)) as Hm.
  destruct (Z.ltb_spec c 2048).
  { assert (Hd : 2 <= c / 64 <= 31) by lia. cbn [app utf8_chars utf8_valid].
    destruct (Z.ltb_spec (192 + c / 64) 128); [lia|]. destruct (Z.ltb_spec (192 + c / 64) 224); [|lia].
    unfold is_cont, in_range. split; [f_equal; lia|].
    replace ((194 <=? 192 + c / 64) && (192 + c / 64 <=? 223)) with true by lia.
    by replace ((128 <=? 128 + c mod 64) && (128 + c mod 64 <=? 191)) with true by lia. }
  destruct (Z.ltb_spec c 65536); [|lia].
  assert (Hdd : c / 4096 = c / 64 / 64) by (rewrite Z.div_div by lia; done). rewrite Hdd.
  pose proof (Z.div_mod (c / 64) 64 ltac:(lia)) as Hdm2. pose proof (Z.mod_pos_bound (c / 64) 64 ltac:(lia)) as Hm2.
  set (q := c / 64) in *. set (r0 := c mod 64) in *. set (q1 := q / 64) in *. set (r1 := q mod 64) in *.
  assert (Hq1 : 0 <= q1 <= 15) by lia.
  cbn [app utf8_chars utf8_valid].
  destruct (Z.ltb_spec (224 + q1) 128); [lia|]. destruct (Z.ltb_spec (224 + q1) 224); [lia|].
  destruct (Z.ltb_spec (224 + q1) 240); [|lia]. split; [f_equal; lia|].
  unfold in_range. replace ((194 <=? 224 + q1) && (224 + q1 <=? 223)) with false by lia.
  replace ((224 <=? 224 + q1) && (224 + q1 <=? 239)) with true by lia.
  assert (second_ok (224 + q1) (128 + r1) = true) as ->.
  { unfold second_ok, is_cont, in_range.
    destruct (Z.eqb_spec (224 + q1) 224); [lia|]. destruct (Z.eqb_spec (224 + q1) 237); [lia|].
    destruct (Z.eqb_spec (224 + q1) 240); [lia|]. destruct (Z.eqb_spec (224 + q1) 244); lia. }
  unfold is_cont, in_range. by replace ((128 <=? 128 + r0) && (128 + r0 <=? 191)) with true by lia.
Qed.

(** A unit whose character is not taken by the surrogates. *)
Definition unit_ok (u : Z) : Prop := 0 <= u < 65536 /\ in_range 57344 59391 u = false.
Definition unit_bytes (u : Z) : bytes :=
  match char_from_u32 (if in_range 55296 57343 u then u + 2048 else u) with Some ch => utf8_encode ch | None => [] end.
Definition text_units (s : bytes) : list Z := concat (char_units <$> utf8_chars s).

Lemma unit_bytes_spec (u : Z) (l : bytes) : unit_ok u ->
  text_units (unit_bytes u ++ l) = u :: text_units l /\ utf8_valid (unit_bytes u ++ l) = utf8_valid l.
Proof.
  intros [Hu Hp]. unfold unit_bytes. set (c := if in_range 55296 57343 u then u + 2048 else u).
  assert (Hc : 0 <= c < 65536 /\ in_range 55296 57343 c = false /\ char_units c = [u]).
  { unfold c, char_units, in_range in *. destruct ((55296 <=? u) && (u <=? 57343)) eqn:E.
    - split; [lia|]. split; [lia|]. replace ((57344 <=? u + 2048) && (u + 2048 <=? 59391)) with true by lia. f_equal. lia.
    - split; [lia|]. split; [lia|]. rewrite Hp. destruct (Z.ltb_spec u 65536); [done|lia]. }
  destruct Hc as (Hc & Hs & Hcu). unfold char_from_u32. rewrite Hs. destruct (Z.ltb_spec 1114111 c); [lia|]. cbn [orb].
  destruct (utf8_encode_spec c l Hc Hs) as [E1 E2]. split; [|exact E2].
  unfold text_units. rewrite E1, fmap_cons. cbn [concat]. by rewrite Hcu.
Qed.

(** *** The other loop *)

Lemma push_text_part start part o rest : rest = List.map (fun p : Z * bytes => trim p.2) <$> o ->
  push_text (trim part) rest = List.map (fun p => trim p.2) <$> push_part start part o.
Proof. intros ->. unfold push_text, push_part, nonblank. destruct o; [|done]. cbn. by case_bool_decide. Qed.
Lemma statements_loop_parts (l : bytes) : forall i start q d cur,
  statements_loop q d cur l = List.map (fun part => trim part.2) <$> stmts_loop i start q d cur l.
Proof.
  induction l as [|b l IH]; intros i start q d cur; cbn [statements_loop stmts_loop].
  { destruct (d =? 0); [|done]. by apply push_text_part. }
  destruct q as [delim|]; [apply IH|]. destruct (is_quote b); [apply IH|]. destruct (opens b); [apply IH|].
  destruct (closes b).
  - destruct (d - 1 <? 0); [done|]. destruct (_ && _); [|apply IH].
    replace (starts_any [b! "else "; b! "else{"] (trim_start l)) with
      (starts_with (b! "else ") (trim_start l) || starts_with (b! "else{") (trim_start l))
      by (unfold starts_any; cbn [existsb]; by rewrite orb_false_r).
    destruct (_ || _); [apply IH|]. cbn [negb andb].
    destruct (starts_any _ _); [|apply IH]. by apply push_text_part.
  - destruct (_ && _); [|apply IH]. rewrite trim_trim. destruct (starts_with s_else _); [apply IH|]. cbn [orb].
    destruct (b =? LF); cbn [andb]; [|by apply push_text_part].
    destruct (_ || _); [apply IH|]. cbn [orb]. destruct (looks_like_control _); [apply IH|]. by apply push_text_part.
Qed.
(** The two splitters cut the same statements. *)
Lemma split_statements_parts (src : bytes) :
  split_statements src = List.map (fun part => trim part.2) <$> split_statements_with_offsets src.
Proof.
  unfold split_statements, split_statements_with_offsets, nonblank. case_bool_decide; [done|]. apply statements_loop_parts.
Qed.

(** ** Properties *)

(** C30: [extract_paren], [extract_bracket] and [extract_braces] cut exactly the balanced text: the result
    is [(inside, rest)] if and only if the source is an opening bracket, [inside], its closing
    bracket and [rest], where in [inside] every opening bracket outside of string literals has
    its partner.  The braces know escaped quotes in literals; the other two take a backslash
    for an ordinary byte. *)
Theorem extraction_is_balanced (src inside rest : bytes) :
  (extract_paren src = Some (inside, rest) <->
    src = c_lparen :: inside ++ c_rparen :: rest /\ balanced false c_lparen c_rparen inside) /\
  (extract_bracket src = Some (inside, rest) <->
    src = c_lbracket :: inside ++ c_rbracket :: rest /\ balanced false c_lbracket c_rbracket inside) /\
  (extract_braces src = Some (inside, rest) <->
    src = c_lbrace :: inside ++ c_rbrace :: rest /\ balanced true c_lbrace c_rbrace inside).
Proof. split; [|split]; by apply extract_iff. Qed.

(** C31: [split_top_level] is the inverse of joining with commas: the result is [ps] if and only if the
    trimmed source is pieces joined by commas, each closing every bracket it opens (whatever
    their kinds) and free of commas outside brackets and literals, and [ps] are the pieces
    trimmed, a blank last one left out; and it is [None] otherwise. *)
Theorem split_top_level_inverts_join (src : bytes) (ps : list bytes) :
  split_top_level src = Some ps <->
  exists raws last, trim src = commas raws last /\ Forall (piece comma) raws /\ last_piece comma last /\
    ps = (trim <$> raws) ++ kept last.
Proof. apply split_loop_iff. Qed.

(** C32: Splitting into statements loses nothing.  When [split_statements_with_offsets] succeeds, its parts
    tile the source: in order, each at its offset, each closing every bracket it opens, and
    what lies between them is blank text and the semicolons and line ends that separate
    them; and [split_statements], whose loop is another one, gives the same parts, trimmed. *)
Theorem statements_tile_source (src : bytes) (parts : list (Z * bytes)) :
  split_statements_with_offsets src = Some parts ->
  (nonblank src = true -> tiled 0 src parts) /\ (nonblank src = false -> parts = []) /\
  Forall (fun part => nonblank part.2 = true /\ take (length part.2) (drop (Z.to_nat part.1) src) = part.2) parts /\
  split_statements src = Some (List.map (fun part => trim part.2) parts).
Proof.
  intros H. pose proof H as H0. unfold split_statements_with_offsets in H. rewrite split_statements_parts, H0.
  destruct (nonblank src) eqn:En; [|injection H as <-; by repeat constructor].
  assert (Ht : tiled 0 src parts) by (by apply (stmts_loop_tiled src 0 0 None 0 [] parts)).
  split; [done|]. split; [done|]. split; [|done]. apply Forall_forall. intros [o p] Hin. cbn [fst snd].
  destruct (tiled_slice _ _ _ Ht o p Hin) as [_ Hs]. rewrite Z.sub_0_r in Hs. split; [|done].
  clear - Ht Hin. induction Ht; set_solver.
Qed.

(** Removing comments changes nothing else.  On UTF-8 text [strip_comments_checked] gives text of the
    same length in which each byte is kept or, if it does not end a line, made a space (so
    every offset keeps its line and column), with no comment left: doing it again changes
    nothing; or else the offset of a block comment that has no end. *)
Theorem comments_become_spaces (src : bytes) (Hu : utf8_valid src = true) :
  match strip_comments_checked src with
  | inl out => Forall2 masks src out /\ length out = length src /\ utf8_valid out = true /\ strip_comments_checked out = inl out
  | inr at_ => exists pre post, src = pre ++ 47 :: 42 :: post /\ at_ = Z.of_nat (length pre) /\ unclosed post
  end.
Proof.
  unfold strip_comments_checked. destruct (negb (existsb (Z.eqb 47) src)) eqn:Es.
  { rewrite Es. split; [|done]. clear. induction src; by repeat constructor. }
  destruct (strip_loop 0 MCode src) as [out|e] eqn:E.
  - assert (Hv : utf8_valid out = true) by (apply (strip_utf8 src 0 MCode out); [intros d [=]|done..]).
    rewrite (from_utf8_valid out Hv). pose proof (strip_masks src _ _ _ E) as Hm. split; [done|].
    split; [symmetry; by eapply Forall2_length|]. split; [done|].
    rewrite (strip_idem src 0 MCode out 0 E : strip_loop 0 MCode out = inl out), (from_utf8_valid out Hv).
    by destruct (existsb (Z.eqb 47) out).
  - destruct (strip_error src 0 MCode e E) as [[[=] _]|(pre & post & -> & -> & Hp)]. exists pre, post. split; [done|]. split; [lia|done].
Qed.

(** A string holds its UTF-16 units, lone surrogates included: what
    [utf16_units_to_string_preserve_surrogates] makes of units outside of the private range
    U+E000 to U+E7FF is UTF-8, and [string_utf16_units] reads the units back.  (The private
    range is where surrogates are kept: its characters read back as surrogates.) *)
Theorem utf16_units_roundtrip (units : list Z) (Hu : Forall unit_ok units) :
  let s := utf16_units_to_string_preserve_surrogates units in
  utf8_valid s = true /\ text_units s = units.
Proof.
  cbv zeta. unfold utf16_units_to_string_preserve_surrogates. fold unit_bytes.
  induction Hu as [|u us Hu _ IH]; [done|]. rewrite fmap_cons. cbn [concat].
  destruct (unit_bytes_spec u (concat (unit_bytes <$> us)) Hu) as [E1 E2]. unfold unit_bytes in *. rewrite E1, E2.
  destruct IH as [IH1 IH2]. unfold unit_bytes in *. split; [exact IH1|]. by rewrite IH2.
Qed.

(** Where the scanners misread programs.  A quote escaped in a literal ends it for every scanner but
    the braces', so a list, a statement and a call are cut in the middle of a literal;
    [parse_switch_cases] takes the ends of longer words for [case] and [default], so a body
    that uses a variable called [defaultValue] makes the whole switch fail; and an escape of
    a literal accepts a sign among its digits. *)
Theorem scanners_misread :
  split_top_level (b! "'it\'s, ok', 1") = Some (bytes_of_string <$> ["'it\'s"; "ok', 1"]%string) /\
  split_statements (b! "a = 'don\'t; b'") = Some (bytes_of_string <$> ["a = 'don\'t"; "b'"]%string) /\
  extract_paren (b! "('\')') + 1") = Some (b! "'\'", b! "') + 1") /\
  parse_switch_cases (b! "case 1: y = defaultValue; break;") = None /\
  parse_switch_cases (b! "case 1: lowercase = 2; case 3: z") = 
    Some [(Some (b! "1"), b! "lower"); (Some (b! "= 2; case 3"), b! "z")] /\
  unescape_string_literal (b! "\x+1") = [1].
Proof. vm_compute. auto 10. Qed.

(** *** Witnesses *)

Lemma statements_tile_source_witness : exists parts,
  split_statements_with_offsets (b! "if (x) { a; b } c = 'x;y'; d") = Some parts /\
  split_statements (b! "if (x) { a; b } c = 'x;y'; d") = Some (List.map (fun part => trim part.2) parts).
Proof.
  eexists. split; [vm_compute; reflexivity|].
  apply (statements_tile_source (b! "if (x) { a; b } c = 'x;y'; d")). vm_compute. reflexivity.
Defined.
Lemma comments_become_spaces_witness :
  utf8_valid (b! "a // b" ++ [LF] ++ b! "'/*' /* x */ c") = true /\
  exists out, strip_comments_checked (b! "a // b" ++ [LF] ++ b! "'/*' /* x */ c") = inl out /\
    strip_comments_checked out = inl out.
Proof.
  assert (Hu : utf8_valid (b! "a // b" ++ [LF] ++ b! "'/*' /* x */ c") = true) by (vm_compute; reflexivity).
  split; [exact Hu|]. pose proof (comments_become_spaces _ Hu) as H. vm_compute in H.
  eexists. split; [vm_compute; reflexivity|]. apply H.
Defined.
Lemma utf16_units_roundtrip_witness :
  Forall unit_ok [97; 55357; 56832; 233; 57343; 65535] /\
  text_units (utf16_units_to_string_preserve_surrogates [97; 55357; 56832; 233; 57343; 65535]) = [97; 55357; 56832; 233; 57343; 65535].
Proof.
  assert (H : Forall unit_ok [97; 55357; 56832; 233; 57343; 65535]) by (repeat constructor; vm_compute; congruence).
  split; [exact H|]. apply (utf16_units_roundtrip _ H).
Defined.
