(* ===== verification/JsStmt.v ===== *)
(** * JsStmt: the statement evaluator

    [src/parser.rs] and the statement part of [src/api/eval_program.rs]: a statement is told by
    its first word, cut out of the text by the scanners of [JsScan] and run at once.  The
    evaluator of expressions is the interface [JsEval]; everything between it and the context is
    here: blocks and their environments, declarations, labels, the loops, [switch], [try].

    The functions call each other through [eval_function_body] and its variant on statements
    already split; the model's fuel bounds that nesting, each loop's rounds, and the walks along
    environments. *)
From Stdlib Require Import SpecFloat.
From S2P Require Import Prelude IntCodec Utf8 ServerArgs JsText JsFloat JsValue JsMem JsProps JsArray JsAtom JsObject JsScope JsSource JsBytecode JsApi JsJson JsScan.

(** ** Outcomes

    A step ends with a value, with Rust's [None], which [?] passes on, or with a panic; in each
    case it leaves a context.  Without an outcome the fuel was too small. *)

Inductive Res (A : Type) := Val (x : A) | Nope | Crash.
Arguments Val {A} x.
Arguments Nope {A}.
Arguments Crash {A}.

Definition E (A : Type) : Type := Ctx -> option (Res A * Ctx).
Definition eret {A} (x : A) : E A := fun c => Some (Val x, c).
Definition enone {A} : E A := fun c => Some (Nope, c).
Definition ecrash {A} : E A := fun c => Some (Crash, c).
Definition eout {A} : E A := fun _ => None.
Definition ebind {A B} (m : E A) (k : A -> E B) : E B := fun c =>
  match m c with
  | Some (Val x, c) => k x c
  | Some (Nope, c) => Some (Nope, c)
  | Some (Crash, c) => Some (Crash, c)
  | None => None
  end.
Notation "x <- m ;; k" := (ebind m (fun x => k)) (at level 100, m at next level, right associativity) : muon_scope.
Notation "' x <- m ;; k" := (ebind m (fun x => k))
  (at level 20, x pattern, m at level 99, k at level 200, only parsing) : muon_scope.
Notation "m ?> k" := (ebind m (fun _ => k)) (at level 100, right associativity) : muon_scope.

(** The end of a step from [c] to [c'] that called back into the interpreter: when one of these calls
    panicked, the step did; when one ran out of fuel, the step has no outcome. *)
Definition ending {A} (c c' : Ctx) (r : Res A) : option (Res A * Ctx) :=
  match befell c c' with Alive => Some (r, c') | Fallen => Some (Crash, c') | Starved => None end.

Lemma ending_inv {A} (c c1 c2 : Ctx) (r r2 : Res A) : ending c c1 r = Some (r2, c2) -> c2 = c1 /\ (r2 = r \/ r2 = Crash).
Proof. unfold ending. destruct (befell c c1); intros [= <- <-]; auto. Qed.
Lemma ending_same {A} (c c' : Ctx) (r : Res A) : fate c' = fate c -> ending c c' r = Some (r, c').
Proof. intros Hf. unfold ending. by rewrite befell_nothing. Qed.

(** A call that cannot fail, a call under [?], an option under [?], a change and a look. *)
Definition act {A} (f : Ctx -> A * Ctx) : E A := fun c => let '(x, c') := f c in ending c c' (Val x).
Definition ask_for {A} (f : Ctx -> option A * Ctx) : E A := fun c =>
  match f c with (Some x, c') => ending c c' (Val x) | (None, c') => ending c c' Nope end.
(** A run with its own fuel and outcome. *)
Definition ran {A} (f : Ctx -> option (Res A * Ctx)) : E A := fun c => '(r, c') ← f c; ending c c' r.
Definition must {A} (o : option A) : E A := match o with Some x => eret x | None => enone end.
Definition tweak (f : Scope -> Scope) : E unit := fun c => Some (Val tt, with_scope (f (scope c)) c).
Definition tweak_source (f : Source -> Source) : E unit := fun c => Some (Val tt, with_source (f (source c)) c).
Definition view {A} (f : Ctx -> A) : E A := fun c => Some (Val (f c), c).
(** [match m { Some(v) => .., None => .. }] *)
Definition attempt {A} (m : E A) : E (option A) := fun c =>
  match m c with
  | Some (Val x, c) => Some (Val (Some x), c)
  | Some (Nope, c) => Some (Val None, c)
  | Some (Crash, c) => Some (Crash, c)
  | None => None
  end.
(** [let r = m; f(); r], whatever [m] answers. *)
Definition after {A} (m : E A) (f : Scope -> Scope) : E A := fun c =>
  match m c with
  | Some (Crash, c) => Some (Crash, c)
  | Some (r, c) => Some (r, with_scope (f (scope c)) c)
  | None => None
  end.
(** A walk of [JsScope], with its own fuel. *)
Definition walk {A} (f : Scope -> JsHeap -> option (A * JsHeap)) : E A := fun c =>
  match f (scope c) (heap c) with Some (x, h) => Some (Val x, with_heap h c) | None => None end.

(** ** Expressions

    What statements need of expressions ([eval_expr] of [src/api/eval_expr.rs], [eval_value] of
    [src/evals.rs]), besides [JsHost].  Nothing is assumed of them; [JsExpr] has the evaluator
    itself. *)
Class JsEval := {
  eval_host :: JsHost;
  eval_expr : bytes -> E Value;
  eval_value : bytes -> E Value
}.

(** ** Texts *)

Definition is_word (w : string) (t : bytes) : bool := bool_decide (t = bytes_of_string w).
Definition starts_word (w : string) (t : bytes) : bool :=
  starts_with (bytes_of_string w ++ [32]) t || starts_with (bytes_of_string w ++ [c_lparen]) t.
Definition starts_brace (t : bytes) : bool := starts_with [c_lbrace] t.
(** What follows a word and a space, or a word whose next byte is the bracket. *)
Definition after_word (w : string) (open : Z) (t : bytes) : option bytes :=
  match strip_prefix (bytes_of_string w ++ [32]) t with
  | Some rest => Some rest
  | None => if starts_with (bytes_of_string w ++ [open]) t then strip_prefix (bytes_of_string w) t else None
  end.
Definition declares (s : bytes) : bool := starts_any [b! "let "; b! "const "] s.

(** [str::split] by a byte. *)
Fixpoint split_byte (sep : Z) (l : bytes) : list bytes :=
  match l with
  | [] => [[]]
  | b :: l' =>
      if b =? sep then [] :: split_byte sep l'
      else match split_byte sep l' with p :: ps => (b :: p) :: ps | [] => [[b]] end
  end.

Definition parse_body_to_stmts (body : bytes) : option (list bytes) :=
  match strip_comments_checked body with
  | inr _ => None
  | inl stripped =>
      stmts ← split_statements (normalize_line_continuations stripped);
      Some (List.filter (fun s => negb (bool_decide (s = []))) (trim <$> stmts))
  end.

(** The colon of [parse_labeled_statement]: outside of literals and with every kind of bracket
    closed; a quote is escaped when the byte before it is a backslash. *)
Fixpoint label_colon (prev q : option Z) (paren bracket brace : Z) (l : bytes) : option (bytes * bytes) :=
  match l with
  | [] => None
  | b :: l' =>
      match q with
      | Some d =>
          let closed := (b =? d) && negb (bool_decide (prev = Some c_backslash)) in
          before b (label_colon (Some b) (if closed then None else q) paren bracket brace l')
      | None =>
          if is_quote b || (b =? 96) then before b (label_colon (Some b) (Some b) paren bracket brace l')
          else if (b =? 58) && (paren =? 0) && (bracket =? 0) && (brace =? 0) then Some ([], l')
          else
            let step op cl n := if b =? op then n + 1 else if b =? cl then n - 1 else n in
            before b (label_colon (Some b) None (step c_lparen c_rparen paren) (step c_lbracket c_rbracket bracket)
              (step c_lbrace c_rbrace brace) l')
      end
  end.

(** *** [find_syntax_error_offset] *)

Definition ascii_space (b : Z) : bool := bool_decide (b ∈ [9; 10; 12; 13; 32]).
Definition ascii_alpha (b : Z) : bool := in_range 97 122 b || in_range 65 90 b.
Definition offset_of (src rest : bytes) : Z := Z.of_nat (length src) - Z.of_nat (length rest).

Definition find_function_error_pos (src : bytes) : option Z :=
  rest ← strip_prefix (b! "function") (trim_start src);
  match drop_while ascii_space rest with
  | (b :: rest') as name =>
      if ascii_alpha b || (b =? 95) then
        match drop_while ascii_space (drop_while word_char rest') with
        | (d :: _) as rest => if d =? c_lparen then None else Some (offset_of src rest)
        | [] => None
        end
      else Some (offset_of src name)
  | [] => Some (offset_of src [])
  end.
Fixpoint number_then_ident (fuel : nat) (src l : bytes) : option Z :=
  match fuel, l with
  | S fuel', b :: l' =>
      if is_digit b then
        let rest := drop_while ascii_space (drop_while (fun b => is_digit b || (b =? 46)) l') in
        match rest with
        | d :: _ => if ascii_alpha d || (d =? 95) then Some (offset_of src rest) else number_then_ident fuel' src rest
        | [] => None
        end
      else number_then_ident fuel' src l'
  | _, _ => None
  end.
Definition find_number_followed_by_ident (src : bytes) : option Z := number_then_ident (length src) src src.
Definition find_regex_literal_start (src : bytes) : option Z := Z.of_nat ∘ length ∘ fst <$> find_sub [47] src.

Definition find_syntax_error_offset (src : bytes) : Z :=
  let first_char := match trim_start src with [] => 0 | rest => offset_of src rest end in
  let others :=
    match find_function_error_pos src with
    | Some pos => pos
    | None =>
        match find_number_followed_by_ident src with
        | Some pos => pos
        | None => default first_char (find_regex_literal_start src)
        end
    end in
  match find_sub (b! "/*") src with
  | Some (pre, rest) => if contains_sub (b! "*/") rest then others else Z.of_nat (length pre)
  | None => others
  end.

Example error_positions :
  find_function_error_pos (b! " function 1f() {}") = Some 10 /\ find_function_error_pos (b! "function f {}") = Some 11 /\
  find_function_error_pos (b! "function f(x) {}") = None /\ find_number_followed_by_ident (b! "a = 12.5 b") = Some 9 /\
  find_syntax_error_offset (b! " x y") = 1.
Proof. by vm_compute. Qed.

(** ** Truth

    The test of [if], [while] and [for], and [is_truthy] of [src/parser.rs]. *)
Definition cond_true (v : Value) : bool :=
  if is_bool v then v =? TRUE W
  else match int32 W v with Some n => negb (n =? 0) | None => negb (is_null W v) && negb (is_undefined W v) end.
Definition is_truthy (v : Value) : bool :=
  if is_bool v then v =? TRUE W
  else if is_number v then match int32 W v with Some n => negb (n =? 0) | None => true end
  else negb (is_null W v) && negb (is_undefined W v).

Definition control (c : Ctx) : LoopControl := loop_control (scope c).
Definition env_of (c : Ctx) : Value := current_env (scope c).

(** ** Properties and declarations *)

Inductive LValueKey := LIndex (idx : Z) | LName (name : bytes).

Section Declarations.
Context `{Host : JsHost}.

Definition js_set_property_uint32 (this : Value) (idx : Z) (v : Value) (c : Ctx) : Value * Ctx :=
  let '(ok, c) := on_heap (array_direct_set this idx v) c in
  if ok : bool then (v, c)
  else if match class_of c this with Some id => is_typed_array_class id | None => false end then
    let '(ok, c) := typed_array_set_element this idx v c in
    (if ok : bool then v else UNDEFINED W, c)
  else
    let '(ok, c) := on_heap (set_property_index this idx v) c in
    if ok : bool then (v, c) else js_throw_error CLASS_TYPE_ERROR (b! "array index out of bounds") c.

Definition set_str (obj : Value) (name : bytes) (v : Value) : E unit := _ <- act (js_set_property_str obj name v) ;; eret tt.

Definition s_const : bytes := b! "__const__".
(** The const map of an environment is absent: [undefined] and no property of that name. *)
Definition no_const_map (env map : Value) : E bool :=
  if is_undefined W map then has <- act (on_heap (has_property_str env s_const)) ;; eret (negb has) else eret false.
Definition mark_const_binding (env : Value) (name : bytes) : E unit :=
  map <- act (js_get_property_str env s_const) ;;
  absent <- no_const_map env map ;;
  map <- (if absent : bool then obj <- act js_new_object ;; set_str env s_const obj ?> eret obj else eret map) ;;
  set_str map name (TRUE W).
Definition is_const_binding (env : Value) (name : bytes) : E bool :=
  map <- act (js_get_property_str env s_const) ;;
  absent <- no_const_map env map ;;
  if absent : bool then eret false else v <- act (js_get_property_str map name) ;; eret (v =? TRUE W).

(** A [let] or [const] at the head of a statement: whether it is [const], and the text before
    the first equals sign. *)
Definition declared (stmt : bytes) : option (bool * bytes) :=
  let t := trim stmt in
  let name rest := trim (hd [] (split_byte c_eq (trim rest))) in
  match strip_prefix (b! "let ") t with
  | Some rest => Some (false, name rest)
  | None => rest ← strip_prefix (b! "const ") t; Some (true, name rest)
  end.
Fixpoint predeclare_in (env : Value) (stmts : list bytes) : E unit :=
  match stmts with
  | [] => eret tt
  | stmt :: stmts' =>
      match declared stmt with
      | Some (const, name) =>
          (if is_identifier name then
             set_str env name (UNINITIALIZED W) ?>
             if const : bool then mark_const_binding env name else eret tt
           else eret tt) ?>
          predeclare_in env stmts'
      | None => predeclare_in env stmts'
      end
  end.
Definition predeclare_block_bindings_from_stmts (stmts : list bytes) : E unit :=
  env <- view env_of ;; predeclare_in env stmts.
Definition predeclare_block_bindings (body : bytes) : E unit :=
  match split_statements body with Some stmts => predeclare_block_bindings_from_stmts stmts | None => eret tt end.

Definition join_with (sep : Z) (l : list bytes) : bytes :=
  match l with [] => [] | p :: ps => p ++ concat ((fun q => sep :: q) <$> ps) end.
Definition create_function (params : list bytes) (body : bytes) : E Value :=
  params_val <- act (js_new_string (join_with 44 params)) ;;
  body_val <- act (js_new_string body) ;;
  func <- act js_new_object ;;
  set_str func (b! "__params__") params_val ?>
  set_str func (b! "__body__") body_val ?>
  set_str func (b! "__closure__") (TRUE W) ?>
  env <- view env_of ;;
  set_str func (b! "__env__") env ?>
  prototype <- act js_new_object ;;
  set_str prototype (b! "constructor") func ?>
  set_str func (b! "prototype") prototype ?>
  eret func.

Definition parse_function_declaration (src : bytes) : E Value :=
  rest <- must (strip_prefix (b! "function ") (trim src)) ;;
  ' (name, after_name) <- must (parse_identifier rest) ;;
  let after_name := trim_start after_name in
  if negb (starts_with [c_lparen] after_name) then enone
  else
    ' (params_str, after_params) <- must (extract_paren after_name) ;;
    params <- must (parse_parameter_list params_str) ;;
    let after_params := trim_start after_params in
    if negb (starts_brace after_params) then enone
    else
      ' (body, _) <- must (extract_braces after_params) ;;
      func <- create_function params body ;;
      env <- view env_of ;;
      set_str env name func ?> eret func.

(** *** Assignment targets *)

Definition f64_key (f : f64) : bytes :=
  match f with
  | S754_nan => b! "NaN"
  | S754_infinity s => if s then b! "-Infinity" else b! "Infinity"
  | _ => f64_to_string f
  end.
Definition lvalue_key (key_val : Value) : E LValueKey :=
  match int32 W key_val with
  | Some i => eret (LIndex (as_u32 i))
  | None =>
      s <- view (fun c => str_of c key_val) ;;
      match s with
      | Some owned => name <- must (from_utf8 owned) ;; eret (LName name)
      | None =>
          f <- view (fun c => float_of c key_val) ;;
          match f with
          | Some f => eret (LName (f64_key f))
          | None =>
              str_val <- act (js_to_string key_val) ;;
              s <- view (fun c => str_of c str_val) ;;
              owned <- must s ;; name <- must (from_utf8 owned) ;; eret (LName name)
          end
      end
  end.
Definition read_key (base : Value) (key : LValueKey) : E Value :=
  match key with
  | LIndex idx => act (js_get_property_uint32 base idx)
  | LName name => act (js_get_property_str base name)
  end.
Definition write_key (base : Value) (key : LValueKey) (v : Value) : E Value :=
  match key with
  | LIndex idx => act (js_set_property_uint32 base idx v)
  | LName name => act (js_set_property_str base name v)
  end.
Definition get_object_keys (obj : Value) : E (list bytes) :=
  cls <- view (fun c => class_of c obj) ;;
  if bool_decide (cls = Some CLASS_ARRAY) then
    len_val <- act (js_get_property_str obj s_length) ;;
    eret (int_to_string <$> seqZ 0 (default 0 (int32 W len_val)))
  else keys <- view (fun c => object_keys (heap c) obj) ;; must keys.

(** *** Environments *)

Definition new_env (parent : Value) (block : bool) : E Value :=
  env <- act js_new_object ;;
  set_str env s_parent parent ?>
  (if block then set_str env (b! "__block__") (TRUE W) else eret tt) ?>
  tweak (push_env env) ?> eret env.
Definition in_block (m : E Value) : E Value :=
  parent <- view env_of ;;
  _ <- new_env parent true ;; after m pop_env.
Definition enter_loop : E unit := parent <- view env_of ;; _ <- new_env parent true ;; eret tt.
Definition leave_loop (v : Value) : E Value := tweak pop_env ?> eret v.
End Declarations.

Section LValues.
Context `{Ev : JsEval} (fuel : nat).

(** The walk along the dots and brackets after the base; every step shortens the text. *)
Fixpoint lvalue_loop (n : nat) (base : Value) (rest : bytes) : E (Value * LValueKey) :=
  match n with
  | O => eout
  | S n' =>
      let step key next :=
        if nonblank next then base <- read_key base key ;; lvalue_loop n' base next else eret (base, key) in
      match trim_start rest with
      | [] => enone
      | (b :: rest') as rest =>
          if b =? 46 then ' (name, next) <- must (parse_identifier rest') ;; step (LName name) next
          else if b =? c_lbracket then
            ' (inside, next) <- must (extract_bracket rest) ;;
            key_val <- eval_expr inside ;;
            key <- lvalue_key key_val ;; step key next
          else enone
      end
  end.
Definition parse_lvalue (src : bytes) : E (Value * LValueKey) :=
  ' (base_str, tail) <- must (split_base_and_tail (trim src)) ;;
  if is_identifier base_str then
    if nonblank tail then
      base <- walk (resolve_binding_value fuel base_str) ;;
      lvalue_loop (S (length tail)) base tail
    else
      env <- walk (resolve_binding_env fuel base_str) ;;
      here <- view env_of ;; eret (default here env, LName base_str)
  else base <- eval_value base_str ;; lvalue_loop (S (length tail)) base tail.
End LValues.

(** ** Statements *)

Section Statements.
Context `{Ev : JsEval} (fuel : nat).
Context (eval_function_body : bytes -> E Value) (eval_function_body_cached : list bytes -> E Value).

(** *** Blocks *)

Definition eval_block (body : bytes) : E Value :=
  in_block (predeclare_block_bindings body ?> eval_function_body body).
Definition eval_block_cached (stmts : list bytes) : E Value :=
  in_block (predeclare_block_bindings_from_stmts stmts ?> eval_function_body_cached stmts).

(** A body: the text in braces, or the statement up to its end. *)
Definition braced_or (other : bytes -> option (bytes * bytes)) (src : bytes) : option (bytes * bytes * bool) :=
  if starts_brace src then '(block, rest) ← extract_braces src; Some (block, rest, true)
  else '(stmt, rest) ← other src; Some (stmt, rest, false).
Definition eval_body (body : bytes) (is_block : bool) : E Value :=
  if is_block then eval_block body else eval_function_body body.
(** The body of a loop is split once; a block without declarations needs no environment. *)
Definition loop_body (body : bytes) (is_block : bool) : E Value :=
  match parse_body_to_stmts body with
  | Some stmts => if is_block && existsb declares stmts then eval_block_cached stmts else eval_function_body_cached stmts
  | None => eval_body body is_block
  end.

(** What the control left by a body means for a loop with this label: go on or stop. *)
Definition clear_control : E unit := tweak (set_loop_control LCNone).
Definition own_label (label : option bytes) (l : bytes) : bool := bool_decide (label = Some l).
Definition after_round (label : option bytes) : E bool :=
  lc <- view control ;;
  match lc with
  | LCBreak => clear_control ?> eret false
  | LCBreakLabel l => if own_label label l then clear_control ?> eret false else eret false
  | LCContinue => clear_control ?> eret true
  | LCContinueLabel l => if own_label label l then clear_control ?> eret true else eret false
  | LCReturn => eret false
  | LCNone => eret true
  end.

(** *** [if] *)

Definition parse_else (after_then : bytes) : E (option (bytes * bool)) :=
  match strip_prefix s_else (trim_start after_then) with
  | None => eret None
  | Some rest =>
      let after_else := trim_start rest in
      if starts_word "if" after_else then eret (Some (after_else, false))
      else if starts_brace after_else then
        ' (block, _) <- must (extract_braces after_else) ;; eret (Some (block, true))
      else eret ('(stmt, _) ← extract_statement after_else; Some (stmt, false))
  end.
Definition returning (v : Value) : E Value :=
  view (fun c => match control c with LCReturn => return_value (scope c) | _ => v end).
Definition parse_if_statement (src : bytes) : E Value :=
  rest <- must (after_word "if" c_lparen (trim src)) ;;
  let rest := trim_start rest in
  if negb (starts_with [c_lparen] rest) then enone
  else
    ' (condition, after_cond) <- must (extract_paren rest) ;;
    ' (then_body, after_then, then_is_block) <- must (braced_or extract_statement (trim_start after_cond)) ;;
    else_body <- parse_else (trim_start after_then) ;;
    cond_val <- eval_expr condition ;;
    if cond_true cond_val then v <- eval_body then_body then_is_block ;; returning v
    else
      match else_body with
      | Some (else_src, else_is_block) => v <- eval_body else_src else_is_block ;; returning v
      | None => eret (UNDEFINED W)
      end.

(** *** [while] *)

Fixpoint while_loop (n : nat) (condition : bytes) (body : E Value) (label : option bytes) (last : Value) : E Value :=
  match n with
  | O => eout
  | S n' =>
      cond_val <- eval_expr condition ;;
      if cond_true cond_val then
        last <- body ;;
        again <- after_round label ;;
        if again : bool then while_loop n' condition body label last else eret last
      else eret last
  end.
Definition parse_while_loop (src : bytes) (label : option bytes) : E Value :=
  rest <- must (after_word "while" c_lparen (trim src)) ;;
  let rest := trim_start rest in
  if negb (starts_with [c_lparen] rest) then enone
  else
    ' (condition, after_cond) <- must (extract_paren rest) ;;
    ' (body, _, is_block) <- must (braced_or extract_statement (trim_start after_cond)) ;;
    while_loop fuel condition (loop_body body is_block) label (UNDEFINED W).

(** *** [for]

    The header's variable: the word that declares it, and the rest. *)
Inductive DeclKind := DVar | DLet | DConst.
Definition decl_of (var_part : bytes) : option DeclKind * bytes :=
  match strip_prefix (b! "var ") var_part, strip_prefix (b! "let ") var_part, strip_prefix (b! "const ") var_part with
  | Some rest, _, _ => (Some DVar, trim rest)
  | None, Some rest, _ => (Some DLet, trim rest)
  | None, None, Some rest => (Some DConst, trim rest)
  | None, None, None => (None, var_part)
  end.
Definition binding_env (kind : option DeclKind) : E Value :=
  match kind with Some DVar => walk (current_var_env fuel) | _ => view env_of end.

Fixpoint for_each {A} (bind : A -> E unit) (body : E Value) (label : option bytes) (l : list A) (last : Value) : E Value :=
  match l with
  | [] => eret last
  | x :: l' =>
      bind x ?>
      last <- body ;;
      again <- after_round label ;;
      if again : bool then for_each bind body label l' last else eret last
  end.

Definition bind_element (iter_val env : Value) (var_name : bytes) (i : Z) : E unit :=
  elem <- act (js_get_property_uint32 iter_val (as_u32 i)) ;; set_str env var_name elem.
(** The length of an array; what is not one has no rounds. *)
Definition array_length_of (v : Value) : E (option Z) :=
  cls <- view (fun c => class_of c v) ;;
  if bool_decide (cls = Some CLASS_ARRAY) then
    len_val <- act (on_heap (get_property_str v s_length)) ;; eret (len_val ≫= int32 W)
  else eret None.
Definition parse_for_of_loop (var_part iter_expr after_header : bytes) (label : option bytes) : E Value :=
  let '(kind, var_name) := decl_of (trim var_part) in
  ' (body, _, is_block) <- must (braced_or extract_statement after_header) ;;
  enter_loop ?>
  iter_val <- eval_expr (trim iter_expr) ;;
  len <- array_length_of iter_val ;;
  match len with
  | Some len =>
      env <- binding_env kind ;;
      v <- for_each (bind_element iter_val env var_name) (loop_body body is_block) label (seqZ 0 len) (UNDEFINED W) ;;
      leave_loop v
  | None => leave_loop (UNDEFINED W)
  end.

Definition bind_key (kind : option DeclKind) (env : Value) (lvalue_src : bytes) (key : bytes) : E unit :=
  key_val <- act (js_new_string key) ;;
  match kind with
  | Some _ => set_str env lvalue_src key_val
  | None => ' (base, k) <- parse_lvalue fuel lvalue_src ;; _ <- write_key base k key_val ;; eret tt
  end.
Definition parse_for_in_loop (var_part obj_expr after_header : bytes) (label : option bytes) : E Value :=
  let '(kind, lvalue_src) := decl_of (trim var_part) in
  if negb (starts_brace after_header) then enone
  else
    ' (body, _) <- must (extract_braces after_header) ;;
    enter_loop ?>
    obj_val <- eval_expr (trim obj_expr) ;;
    keys <- get_object_keys obj_val ;;
    env <- binding_env kind ;;
    if bool_decide (is_Some kind) && negb (is_identifier lvalue_src) then enone
    else
      v <- for_each (bind_key kind env lvalue_src) (loop_body body true) label keys (UNDEFINED W) ;;
      leave_loop v.

Definition when_some (src : bytes) : E unit :=
  if bool_decide (src = []) then eret tt else _ <- eval_expr src ;; eret tt.
Fixpoint for_loop (n : nat) (condition update : bytes) (body : E Value) (label : option bytes) (last : Value) : E Value :=
  match n with
  | O => eout
  | S n' =>
      go <- (if bool_decide (condition = []) then eret true
             else cond_val <- eval_expr condition ;; eret (cond_true cond_val)) ;;
      if go : bool then
        last <- body ;;
        again <- after_round label ;;
        if again : bool then when_some update ?> for_loop n' condition update body label last else eret last
      else eret last
  end.
Definition parse_for_loop (src : bytes) (label : option bytes) : E Value :=
  rest <- must (after_word "for" c_lparen (trim src)) ;;
  let rest := trim_start rest in
  if negb (starts_with [c_lparen] rest) then enone
  else
    ' (header, after_header) <- must (extract_paren rest) ;;
    let after_header := trim_start after_header in
    match find_for_in_keyword header, find_for_of_keyword header with
    | Some (var_part, rest), _ => parse_for_in_loop var_part (drop 4 rest) after_header label
    | None, Some (var_part, rest) => parse_for_of_loop var_part (drop 3 rest) after_header label
    | None, None =>
        match trim <$> split_byte c_semi header with
        | [init; condition; update] =>
            ' (body, _, is_block) <- must (braced_or (fun src => Some (src, [])) after_header) ;;
            enter_loop ?>
            when_some init ?>
            v <- for_loop fuel condition update (loop_body body is_block) label (UNDEFINED W) ;;
            leave_loop v
        | _ => enone
        end
    end.

(** *** [do] *)

Fixpoint do_loop (n : nat) (condition : bytes) (body : E Value) (label : option bytes) : E Value :=
  match n with
  | O => eout
  | S n' =>
      last <- body ;;
      again <- after_round label ;;
      if again : bool then
        cond_val <- eval_expr condition ;;
        if is_truthy cond_val then do_loop n' condition body label else eret last
      else eret last
  end.
Definition parse_do_while_loop (src : bytes) (label : option bytes) : E Value :=
  rest <- must (after_word "do" c_lbrace (trim src)) ;;
  ' (body_part, after_body) <- must (split_do_while_body (trim_start rest)) ;;
  ' (body, _, is_block) <- must (braced_or (fun src => Some (src, [])) body_part) ;;
  after_while <- must (strip_prefix (b! "while") after_body) ;;
  let after_while := trim_start after_while in
  if negb (starts_with [c_lparen] after_while) then enone
  else
    ' (condition, _) <- must (extract_paren after_while) ;;
    do_loop fuel condition (loop_body body is_block) label.

(** *** [try] *)

Record TryParts := { try_body : bytes; catch_param : option bytes; catch_body : option bytes; finally_body : option bytes }.
Definition parse_catch (remaining : bytes) : option (option bytes * option bytes * bytes) :=
  match strip_prefix (b! "catch") remaining with
  | None => Some (None, None, remaining)
  | Some after_catch =>
      let after_catch := trim after_catch in
      '(param, body_start) ←
        (if starts_with [c_lparen] after_catch then
           '(p, rest) ← find_sub [c_rparen] after_catch; Some (Some (trim (drop 1 p)), trim rest)
         else Some (None, after_catch));
      '(cb, rest) ← extract_braces body_start; Some (param, Some cb, trim rest)
  end.
Definition parse_try (src : bytes) : option TryParts :=
  rest ← after_word "try" c_lbrace (trim src);
  '(body, after_try) ← extract_braces (trim rest);
  '(param, cb, remaining) ← parse_catch (trim after_try);
  fb ← match strip_prefix (b! "finally") remaining with
       | Some after_finally => '(fb, _) ← extract_braces (trim after_finally); Some (Some fb)
       | None => Some None
       end;
  match cb, fb with
  | None, None => None
  | _, _ => Some {| try_body := body; catch_param := param; catch_body := cb; finally_body := fb |}
  end.

(** The handler's environment is popped only when the handler has a value. *)
Definition run_catch (param : option bytes) (body : bytes) : E Value :=
  exception_val <- view (fun c => last_exception (scope c)) ;;
  tweak (set_exception (UNDEFINED W)) ?>
  parent_env <- view env_of ;;
  catch_env <- new_env parent_env false ;;
  match param with Some p => set_str catch_env p exception_val | None => eret tt end ?>
  out <- eval_block body ;;
  tweak pop_env ?> eret out.
Definition run_finally (body : bytes) (result : Value) : E Value :=
  saved <- view (fun c => if is_exception W result then last_exception (scope c) else UNDEFINED W) ;;
  finally_val <- eval_block body ;;
  if is_exception W finally_val then eret finally_val
  else (if negb (saved =? UNDEFINED W) then tweak (set_exception saved) else eret tt) ?> eret result.
Definition run_try (p : TryParts) : E Value :=
  try_result <- attempt (eval_block (try_body p)) ;;
  result <-
    (match try_result, catch_body p with
     | Some v, Some body => if is_exception W v then run_catch (catch_param p) body else eret v
     | Some v, None => eret v
     | None, Some body => run_catch (catch_param p) body
     | None, None => enone
     end) ;;
  match finally_body p with Some body => run_finally body result | None => eret result end.
Definition parse_try_catch (src : bytes) : E Value := p <- must (parse_try src) ;; run_try p.

(** *** [switch]

    Only [break] ends the run of the cases; what a case's body leaves otherwise is not asked. *)
Definition case_body (body : bytes) : E (Value * bool) :=
  last <- eval_function_body body ;;
  lc <- view control ;;
  match lc with LCBreak => clear_control ?> eret (last, true) | _ => eret (last, false) end.
(** Whether a case matched, the default's body if none did, and the last value. *)
Fixpoint switch_loop (switch_val : Value) (cases : list (option bytes * bytes)) (matched : bool) (default : option bytes)
    (last : Value) : E (bool * option bytes * Value) :=
  match cases with
  | [] => eret (matched, default, last)
  | (case_expr, body) :: cases' =>
      let default := match case_expr with None => Some body | Some _ => default end in
      let run :=
        ' (last, stop) <- case_body body ;;
        if stop : bool then eret (true, default, last) else switch_loop switch_val cases' true default last in
      if matched then run
      else
        match case_expr with
        | None => switch_loop switch_val cases' false default last
        | Some e =>
            case_val <- eval_expr e ;;
            if switch_val =? case_val then run else switch_loop switch_val cases' false default last
        end
  end.
Definition parse_switch_statement (src : bytes) : E Value :=
  rest <- must (after_word "switch" c_lparen (trim src)) ;;
  let rest := trim_start rest in
  if negb (starts_with [c_lparen] rest) then enone
  else
    ' (switch_expr, after_expr) <- must (extract_paren rest) ;;
    switch_val <- eval_expr switch_expr ;;
    let after_expr := trim_start after_expr in
    if negb (starts_brace after_expr) then enone
    else
      ' (body, _) <- must (extract_braces after_expr) ;;
      cases <- must (parse_switch_cases body) ;;
      enter_loop ?>
      ' (matched, default, last) <- switch_loop switch_val cases false None (UNDEFINED W) ;;
      last <- (match default with
               | Some body => if matched then eret last else ' (last, _) <- case_body body ;; eret last
               | None => eret last
               end) ;;
      leave_loop last.

(** *** Labels

    [None]: no labelled statement, found out before anything runs. *)
Definition clear_own_break (label : bytes) : E unit :=
  lc <- view control ;;
  match lc with LCBreakLabel l => if bool_decide (l = label) then clear_control else eret tt | _ => eret tt end.
(** The control is looked at whether the statement has a value or not. *)
Definition with_label (label : bytes) (m : E Value) : E Value :=
  r <- attempt m ;; clear_own_break label ?> must r.
Definition parse_labeled_statement (src : bytes) : option (E Value) :=
  '(before_colon, rest) ← label_colon None None 0 0 0 (trim src);
  let label := trim before_colon in
  if negb (is_identifier label) then None
  else
    let statement := trim rest in
    if starts_brace statement then
      '(block, _) ← extract_braces statement; Some (with_label label (eval_block block))
    else if starts_word "for" statement then Some (parse_for_loop statement (Some label))
    else if starts_word "while" statement then Some (parse_while_loop statement (Some label))
    else if starts_with (b! "do ") statement || starts_with (b! "do{") statement
    then Some (parse_do_while_loop statement (Some label))
    else Some (with_label label (eval_function_body statement)).
End Statements.

(** ** Sequences of statements

    A statement lets the sequence go on, with the last value so far, or ends it. *)

Inductive Flow := Next (v : Value) | Leave (v : Value).

Section Sequences.
Context `{Ev : JsEval} (fuel : nat).
Context (eval_function_body : bytes -> E Value) (eval_function_body_cached : list bytes -> E Value).
Notation eval_block := (eval_block eval_function_body).
Notation parse_labeled_statement := (parse_labeled_statement fuel eval_function_body eval_function_body_cached).
Notation parse_if_statement := (parse_if_statement eval_function_body).
Notation parse_while_loop := (parse_while_loop fuel eval_function_body eval_function_body_cached).
Notation parse_for_loop := (parse_for_loop fuel eval_function_body eval_function_body_cached).
Notation parse_do_while_loop := (parse_do_while_loop fuel eval_function_body eval_function_body_cached).
Notation parse_switch_statement := (parse_switch_statement eval_function_body).
Notation parse_try_catch := (parse_try_catch eval_function_body).

(** [if *ctx.get_loop_control() != LoopControl::None { return Some(last); }] *)
Definition checked (m : E Value) : E Flow :=
  v <- m ;;
  lc <- view control ;;
  match lc with LCNone => eret (Next v) | _ => eret (Leave v) end.
Definition leave_with (lc : LoopControl) : E Flow := tweak (set_loop_control lc) ?> eret (Leave (UNDEFINED W)).
Definition throw_value (v : Value) : E Flow := tweak (set_exception v) ?> eret (Leave (EXCEPTION W)).
Definition return_with (v : Value) : E Flow :=
  tweak (set_return_value v) ?> tweak (set_loop_control LCReturn) ?> eret (Leave v).

(** [break label] and [continue label], when the label is a name ([is_identifier] of
    [src/helpers.rs], which admits the dollar sign). *)
Definition jump_label (w : string) (t : bytes) : option bytes :=
  rest ← strip_prefix (bytes_of_string w ++ [32]) t;
  let label := trim rest in if is_valid_identifier label then Some label else None.

Definition is_block_text (t : bytes) : bool := starts_brace t && ends_with [c_rbrace] t.
Definition starts_do (t : bytes) : bool := starts_with (b! "do ") t || starts_with (b! "do{") t.
Definition starts_try (t : bytes) : bool := starts_with (b! "try ") t || starts_with (b! "try{") t.

Definition syntax_error_at (t : bytes) : E unit :=
  tweak_source (fun s => set_error_offset (current_stmt_offset s + find_syntax_error_offset t) s).
(** An expression statement; [on_error] runs where it has no value. *)
Definition expression_flow (on_error : E unit) (t : bytes) : E Flow :=
  r <- attempt (eval_expr t) ;;
  match r with
  | Some v => if is_exception W v then eret (Leave v) else checked (eret v)
  | None => on_error ?> enone
  end.

(** The tests of [eval_function_body], in their order. *)
Definition body_stmt (t : bytes) : E Flow :=
  if is_word "break" t then leave_with LCBreak
  else match jump_label "break" t with
  | Some l => leave_with (LCBreakLabel l)
  | None =>
  if is_word "continue" t then leave_with LCContinue
  else match jump_label "continue" t with
  | Some l => leave_with (LCContinueLabel l)
  | None =>
  match strip_prefix (b! "return ") t with
  | Some e => v <- eval_expr (trim e) ;; return_with v
  | None =>
  if is_word "return" t then return_with (UNDEFINED W)
  else match strip_prefix (b! "throw ") t with
  | Some e => v <- eval_expr (trim e) ;; throw_value v
  | None =>
  if is_word "throw" t then throw_value (UNDEFINED W)
  else if starts_try t then checked (parse_try_catch t)
  else if starts_with (b! "function ") t then v <- parse_function_declaration t ;; eret (Next v)
  else match parse_labeled_statement t with
  | Some m => checked m
  | None =>
  if starts_word "if" t then checked (parse_if_statement t)
  else if starts_word "while" t then checked (parse_while_loop t None)
  else if starts_word "for" t then checked (parse_for_loop t None)
  else if starts_do t then checked (parse_do_while_loop t None)
  else if starts_word "switch" t then checked (parse_switch_statement t)
  else if is_block_text t then checked (' (content, _) <- must (extract_braces t) ;; eval_block content)
  else expression_flow (syntax_error_at t) t
  end end end end end.

(** The tests of [eval_function_body_cached] after its look at the first byte: the source has them a
    second time. *)
Definition cached_chain (t : bytes) : E Flow :=
  if is_word "break" t then leave_with LCBreak
  else match jump_label "break" t with
  | Some l => leave_with (LCBreakLabel l)
  | None =>
  if is_word "continue" t then leave_with LCContinue
  else match jump_label "continue" t with
  | Some l => leave_with (LCContinueLabel l)
  | None =>
  match strip_prefix (b! "return ") t with
  | Some e => v <- eval_expr (trim e) ;; return_with v
  | None =>
  if is_word "return" t then return_with (UNDEFINED W)
  else match strip_prefix (b! "throw ") t with
  | Some e => v <- eval_expr (trim e) ;; throw_value v
  | None =>
  if is_word "throw" t then throw_value (UNDEFINED W)
  else if starts_try t then checked (parse_try_catch t)
  else if starts_with (b! "function ") t then v <- parse_function_declaration t ;; eret (Next v)
  else match parse_labeled_statement t with
  | Some m => checked m
  | None =>
  if starts_word "if" t then checked (parse_if_statement t)
  else if starts_word "while" t then checked (parse_while_loop t None)
  else if starts_word "for" t then checked (parse_for_loop t None)
  else if starts_do t then checked (parse_do_while_loop t None)
  else if starts_word "switch" t then checked (parse_switch_statement t)
  else if is_block_text t then checked (' (content, _) <- must (extract_braces t) ;; eval_block content)
  else expression_flow (syntax_error_at t) t
  end end end end end.

(** [eval_function_body_cached] looks at the first byte first. *)
Definition keyword_possible (t : bytes) : bool :=
  match t with
  | [] => false
  | first :: _ =>
      if bool_decide (first ∈ b! "bctfiwdsvl" ++ [c_lbrace]) then true
      else (first =? 114) && (is_word "return" t || starts_with (b! "return ") t)
  end.
Definition cached_stmt (t : bytes) : E Flow :=
  if keyword_possible t then cached_chain t
  else
    match (if bool_decide (58 ∈ t) then parse_labeled_statement t else None) with
    | Some m => checked m
    | None => expression_flow (eret tt) t
    end.

(** The loops over the statements.  The first finds each one in the text again, for the
    position of errors: [idx] and what is left of the text from there. *)
Fixpoint body_loop (stmt : bytes -> E Flow) (stmts : list bytes) (idx : Z) (rest : bytes) (last : Value) : E Value :=
  match stmts with
  | [] => eret last
  | s :: stmts' =>
      match trim s with
      | [] => body_loop stmt stmts' idx rest last
      | t =>
          let '(base, idx, rest) :=
            match find_sub t rest with
            | Some (pre, post) =>
                let base := idx + Z.of_nat (length pre) in (Some base, base + Z.of_nat (length t), post)
            | None => (None, idx, rest)
            end in
          tweak_source (fun s => clear_error_offset (match base with Some o => set_current_stmt_offset o s | None => s end)) ?>
          r <- stmt t ;;
          match r with Next v => body_loop stmt stmts' idx rest v | Leave v => eret v end
      end
  end.
Fixpoint cached_loop (stmts : list bytes) (last : Value) : E Value :=
  match stmts with
  | [] => eret last
  | [] :: stmts' => cached_loop stmts' last
  | t :: stmts' =>
      tweak_source (fun s => clear_error_offset (set_current_stmt_offset 0 s)) ?>
      r <- cached_stmt t ;;
      match r with Next v => cached_loop stmts' v | Leave v => eret v end
  end.

(** Comments out, continued lines joined, split; an open comment is an error at its start. *)
Definition on_statements {A} (src : bytes) (k : bytes -> list bytes -> E A) : E A :=
  match strip_comments_checked src with
  | inr pos => tweak_source (set_error_offset pos) ?> enone
  | inl stripped =>
      let cleaned := normalize_line_continuations stripped in
      stmts <- must (split_statements cleaned) ;; k cleaned stmts
  end.
Definition body_step (body : bytes) : E Value :=
  on_statements body (fun cleaned stmts => body_loop body_stmt stmts 0 cleaned (UNDEFINED W)).
Definition cached_step (stmts : list bytes) : E Value := cached_loop stmts (UNDEFINED W).

(** *** Programs *)

(** [eval_program]'s tests.  A statement without a value leaves the position of its error. *)
Definition or_error (on_none : E unit) (m : E Value) : E Value :=
  r <- attempt m ;; match r with Some v => eret v | None => on_none ?> enone end.
Definition error_at_stmt : E unit := tweak_source (fun s => set_error_offset (current_stmt_offset s) s).
Definition function_error_at (t : bytes) : E unit :=
  match find_function_error_pos t with
  | Some pos => tweak_source (fun s => set_error_offset (current_stmt_offset s + pos) s)
  | None => eret tt
  end.
Definition going_on (m : E Value) : E Flow := v <- m ;; eret (Next v).
Definition program_stmt (t : bytes) : E Flow :=
  if is_word "break" t then leave_with LCBreak
  else if is_word "continue" t then leave_with LCContinue
  else if starts_with (b! "function ") t then going_on (or_error (function_error_at t) (parse_function_declaration t))
  else if starts_word "if" t then going_on (or_error error_at_stmt (parse_if_statement t))
  else if starts_word "while" t then going_on (or_error error_at_stmt (parse_while_loop t None))
  else if starts_word "for" t then going_on (or_error error_at_stmt (parse_for_loop t None))
  else if starts_do t then going_on (or_error error_at_stmt (parse_do_while_loop t None))
  else if starts_word "switch" t then going_on (or_error error_at_stmt (parse_switch_statement t))
  else match strip_prefix (b! "throw ") t with
  | Some e => v <- or_error error_at_stmt (eval_expr (trim e)) ;; throw_value v
  | None =>
  if is_word "throw" t then throw_value (UNDEFINED W)
  else if starts_try t then going_on (parse_try_catch t)
  else match parse_labeled_statement t with
  | Some m => checked m
  | None =>
  if is_block_text t then checked (' (content, _) <- must (extract_braces t) ;; eval_block content)
  else
    r <- attempt (eval_expr t) ;;
    match r with
    | Some v => eret (if is_exception W v then Leave v else Next v)
    | None => syntax_error_at t ?> enone
    end
  end end.
(** A program without any statement has no value. *)
Definition program_step (src : bytes) : E Value :=
  on_statements src (fun cleaned stmts =>
    if forallb (fun s => negb (nonblank s)) stmts then enone
    else body_loop program_stmt stmts 0 cleaned (UNDEFINED W)).

(** *** [eval_program_stmt]: one statement, told by its first byte *)

Inductive StmtResult := SValue (v : Value) | SError | SLoopControl.

(** A value, or what [on_none] leaves behind and an error. *)
Definition value_or_error (on_none : E unit) (m : E Value) : E StmtResult :=
  r <- attempt m ;;
  match r with Some v => eret (SValue v) | None => on_none ?> eret SError end.
Definition value_or_control (m : E Value) : E StmtResult :=
  r <- attempt m ;;
  match r with
  | Some v => lc <- view control ;; eret (match lc with LCNone => SValue v | _ => SLoopControl end)
  | None => eret SError
  end.
Definition throw_stmt (v : Value) : E StmtResult := tweak (set_exception v) ?> eret (SValue (EXCEPTION W)).

(** The statement forms by first byte; [None]: no keyword, go on with a label or an expression. *)
Definition keyword_stmt (first : Z) (t : bytes) : option (E StmtResult) :=
  if first =? 98 then
    if is_word "break" t then Some (tweak (set_loop_control LCBreak) ?> eret SLoopControl) else None
  else if first =? 99 then
    if is_word "continue" t then Some (tweak (set_loop_control LCContinue) ?> eret SLoopControl) else None
  else if first =? 102 then
    if starts_with (b! "function ") t then Some (value_or_error (function_error_at t) (parse_function_declaration t))
    else if starts_word "for" t then Some (value_or_error error_at_stmt (parse_for_loop t None)) else None
  else if first =? 105 then
    if starts_word "if" t then Some (value_or_error error_at_stmt (parse_if_statement t)) else None
  else if first =? 119 then
    if starts_word "while" t then Some (value_or_error error_at_stmt (parse_while_loop t None)) else None
  else if first =? 100 then
    if starts_do t then Some (value_or_error error_at_stmt (parse_do_while_loop t None)) else None
  else if first =? 115 then
    if starts_word "switch" t then Some (value_or_error error_at_stmt (parse_switch_statement t)) else None
  else if first =? 116 then
    if is_word "throw" t then Some (throw_stmt (UNDEFINED W))
    else match strip_prefix (b! "throw ") t with
    | Some e => Some (r <- attempt (eval_expr (trim e)) ;; throw_stmt (default (UNDEFINED W) r))
    | None => if starts_try t then Some (value_or_error (eret tt) (parse_try_catch t)) else None
    end
  else if first =? c_lbrace then
    if ends_with [c_rbrace] t then
      Some (match extract_braces t with
            | Some (content, _) => value_or_control (eval_block content)
            | None => eret SError
            end)
    else None
  else None.
Definition eval_program_stmt (t : bytes) : E StmtResult :=
  match t with
  | [] => eret (SValue (UNDEFINED W))
  | first :: _ =>
      match keyword_stmt first t with
      | Some m => m
      | None =>
          match (if ascii_alpha first || (first =? 95) || (first =? 36) then parse_labeled_statement t else None) with
          | Some m => value_or_control m
          | None => value_or_error (syntax_error_at t) (eval_expr t)
          end
      end
  end.
End Sequences.

(** ** The nesting *)

Inductive Body := Text (src : bytes) | Stmts (stmts : list bytes).
Section Eval.
Context `{Ev : JsEval}.

Fixpoint eval_upto (fuel : nat) (b : Body) : E Value :=
  match fuel with
  | O => eout
  | S fuel' =>
      let text src := eval_upto fuel' (Text src) in
      let stmts l := eval_upto fuel' (Stmts l) in
      match b with
      | Text src => body_step fuel' text stmts src
      | Stmts l => cached_step fuel' text stmts l
      end
  end.
Definition eval_function_body (fuel : nat) (body : bytes) : E Value := eval_upto fuel (Text body).
Definition eval_function_body_cached (fuel : nat) (stmts : list bytes) : E Value := eval_upto fuel (Stmts stmts).
Definition eval_program (fuel : nat) : bytes -> E Value :=
  program_step fuel (eval_function_body fuel) (eval_function_body_cached fuel).
Definition run_program_stmt (fuel : nat) : bytes -> E StmtResult :=
  eval_program_stmt fuel (eval_function_body fuel) (eval_function_body_cached fuel).
End Eval.
