(* ===== verification/JsCall.v ===== *)
(** * JsCall: calls of closures, scripts and programs

    [call_closure_with_this] of [src/parser.rs] with its three caches and its choice between
    bytecode and statements; [eval_script_body] of [src/api/eval_program.rs] and [js_eval] of
    [src/api/mod.rs], which choose the same way for whole texts. *)
From S2P Require Import Prelude IntCodec Utf8 ServerArgs HashStore JsText JsFloat JsValue JsMem JsProps JsArray JsAtom JsObject JsScope JsSource JsBytecode JsCompile JsApi JsVm JsJson JsScan JsStmt.

Definition tweak_caches (f : Caches -> Caches) : E unit := fun c => Some (Val tt, with_caches (f (caches c)) c).

(** ** Parameters *)

Definition s_dots : bytes := b! "...".
Definition param_spec (raw : bytes) : CachedParamSpec :=
  match strip_prefix s_dots raw with
  | Some name => {| ps_name := trim name; ps_default := None; ps_rest := true |}
  | None =>
      match find_sub [c_eq] raw with
      | Some (name, dflt) => {| ps_name := trim name; ps_default := Some (trim dflt); ps_rest := false |}
      | None => {| ps_name := raw; ps_default := None; ps_rest := false |}
      end
  end.
(** A rest parameter ends the list. *)
Fixpoint param_specs (raws : list bytes) : list CachedParamSpec :=
  match raws with
  | [] => []
  | raw :: raws' =>
      match trim raw with
      | [] => param_specs raws'
      | raw => let p := param_spec raw in p :: if ps_rest p then [] else param_specs raws'
      end
  end.
Definition parse_param_specs (params_bytes : option bytes) : list CachedParamSpec :=
  match params_bytes ≫= from_utf8 with Some s => param_specs (split_byte 44 s) | None => [] end.

(** The statements of a body; an open comment is left in the text. *)
Definition parse_closure_body (body : bytes) : list bytes :=
  let stripped := match strip_comments_checked body with inl s => s | inr _ => body end in
  let stmts := default [] (split_statements (normalize_line_continuations stripped)) in
  List.filter (fun s => negb (bool_decide (s = []))) (trim <$> stmts).

Section Calls.
Context `{Ev : JsEval} (fuel : nat).

Definition load_params (params_val : Value) : E (list CachedParamSpec) :=
  cached <- view (fun c => param_cache (caches c) !! params_val) ;;
  match cached with
  | Some specs => eret specs
  | None =>
      specs <- view (fun c => parse_param_specs (str_of c params_val)) ;;
      tweak_caches (set_param_cache params_val specs) ?> eret specs
  end.
Definition load_body (body_val : Value) : E (list bytes) :=
  cached <- view (fun c => body_cache (caches c) !! body_val) ;;
  match cached with
  | Some stmts => eret stmts
  | None =>
      body_bytes <- view (fun c => str_of c body_val) ;;
      body_str <- must (body_bytes ≫= from_utf8) ;;
      let stmts := parse_closure_body body_str in
      tweak_caches (set_body_cache body_val stmts) ?> eret stmts
  end.
(** A name of up to 64 bytes. *)
Definition function_name (func : Value) : E (option bytes) :=
  v <- act (js_get_property_str func (b! "name")) ;;
  s <- view (fun c => str_of c v) ;;
  eret (if is_undefined W v then None
        else name ← s; if (length name <=? 64)%nat then from_utf8 name else None).

Fixpoint fill_array (arr : Value) (i : Z) (vals : list Value) : E unit :=
  match vals with
  | [] => eret tt
  | v :: vals' => _ <- act (js_set_property_uint32 arr i v) ;; fill_array arr (i + 1) vals'
  end.
Definition bind_arguments (env : Value) (args : list Value) : E unit :=
  args_obj <- act (js_new_array (Z.of_nat (length args))) ;;
  if is_exception W args_obj then eret tt
  else fill_array args_obj 0 args ?> set_str env (b! "arguments") args_obj.

(** [&args[arg_index..]] panics when there are fewer arguments than parameters before the rest. *)
Fixpoint bind_params (env : Value) (args : list Value) (specs : list CachedParamSpec) (arg_index : nat) : E unit :=
  match specs with
  | [] => eret tt
  | p :: specs' =>
      if ps_rest p then
        if (length args <? arg_index)%nat then ecrash
        else
          let remaining := drop arg_index args in
          arr <- act (js_new_array (Z.of_nat (length remaining))) ;;
          fill_array arr 0 remaining ?> set_str env (ps_name p) arr
      else
        let arg := default (UNDEFINED W) (args !! arg_index) in
        v <- (match ps_default p with
              | Some e =>
                  if arg =? UNDEFINED W then r <- attempt (eval_expr e) ;; eret (default (UNDEFINED W) r)
                  else eret arg
              | None => eret arg
              end) ;;
        set_str env (ps_name p) v ?> bind_params env args specs' (S arg_index)
  end.

(** *** Bytecode *)

Definition run_vm (m : BytecodeModule) (args : list Value) : E Value := ran (fun c =>
  match run_module_with_locals fuel m args c with
  | Some (Returned v, c) => Some (Val v, c)
  | Some (Panicked, c) => Some (Crash, c)
  | None => None
  end).
Definition compile_with (params stmts : list bytes) : E (option BytecodeModule) := fun c =>
  match compile_function params stmts c with
  | Some (Ok m, c) => Some (Val (Some m), c)
  | Some (Err, c) => Some (Val None, c)
  | None => None
  end.
(** The cached module, or a first attempt to compile; [None] when there is none to run. *)
Definition try_bytecode (key : Z) (params stmts : list bytes) (args : list Value) : E (option Value) :=
  cached <- view (fun c => bytecode_cache (caches c) !! key) ;;
  match cached with
  | Some (Some m) => v <- run_vm m args ;; eret (Some v)
  | Some None => eret None
  | None =>
      m <- compile_with params stmts ;;
      match m with
      | Some module =>
          v <- run_vm module args ;;
          tweak_caches (set_bytecode_cache key (Some module)) ?> eret (Some v)
      | None => tweak_caches (set_bytecode_cache key None) ?> eret None
      end
  end.

Definition clear_return (s : Scope) : Scope :=
  match loop_control s with LCReturn => set_loop_control LCNone s | _ => s end.
Definition call_frame_of (env : Value) : CallFrame := {| slot_map := ∅; var_env := env |}.

(** The function's environment and frame, entered. *)
Definition enter_call (parent_env this : Value) : E Value :=
  env <- act js_new_object ;;
  set_str env s_parent parent_env ?>
  set_str env s_var_env (TRUE W) ?>
  tweak (push_call_frame (call_frame_of env)) ?>
  set_str env (b! "this") this ?>
  tweak (push_env env) ?> eret env.
Definition call_body (body_val parent_env : Value) (specs : list CachedParamSpec) (stmts : list bytes) (args : list Value) : E Value :=
  global <- view (fun c => global_object (scope c)) ;;
  fast <- (if is_undefined W parent_env || (parent_env =? global)
           then try_bytecode body_val (ps_name <$> List.filter (fun p => negb (ps_rest p)) specs) stmts args
           else eret None) ;;
  match fast with Some v => eret v | None => eval_function_body_cached fuel stmts end.

Definition call_closure_with_this (func this : Value) (args : list Value) : E Value :=
  params_val <- act (js_get_property_str func (b! "__params__")) ;;
  body_val <- act (js_get_property_str func (b! "__body__")) ;;
  specs <- load_params params_val ;;
  stmts <- load_body body_val ;;
  name <- function_name func ;;
  parent_env <- act (js_get_property_str func (b! "__env__")) ;;
  env <- enter_call parent_env this ;;
  predeclare_block_bindings_from_stmts stmts ?>
  match name with Some n => set_str env n func | None => eret tt end ?>
  bind_arguments env args ?>
  bind_params env args specs 0 ?>
  after (call_body body_val parent_env specs stmts args) (fun s => pop_call_frame (pop_env (clear_return s))).
Definition call_closure (func : Value) (args : list Value) : E Value := call_closure_with_this func (UNDEFINED W) args.

(** ** Scripts *)

Definition fnv1a_hash (data : bytes) : Z := fnv_write fnv_offset data.

(** [count_unescaped_quotes] *)
Fixpoint count_unescaped_quotes (q : Z) (l : bytes) : Z :=
  match l with
  | [] => 0
  | b :: l' =>
      if b =? c_backslash then match l' with _ :: l'' => count_unescaped_quotes q l'' | [] => 0 end
      else (if b =? q then 1 else 0) + count_unescaped_quotes q l'
  end.

Definition syntax_error : E Value := act (js_throw_error CLASS_SYNTAX_ERROR (b! "syntax error")).
(** Comments and continued lines are only looked for where their bytes occur. *)
Definition script_text (src : bytes) : bytes + Z :=
  match (if contains_sub (b! "//") src || contains_sub (b! "/*") src then strip_comments_checked src else inl src) with
  | inl stripped =>
      inl (if contains_sub [c_backslash; LF] stripped || contains_sub [c_backslash; CR] stripped
           then normalize_line_continuations stripped else stripped)
  | inr pos => inr pos
  end.
(** The script's statements, or the error thrown. *)
Definition load_script (hash : Z) (src : bytes) : E (list bytes + Value) :=
  cached <- view (fun c => get_script_cache (script_cache (caches c)) hash) ;;
  match cached with
  | Some stmts => eret (inl stmts)
  | None =>
      match script_text src with
      | inr pos => tweak_source (set_error_offset pos) ?> e <- syntax_error ;; eret (inr e)
      | inl cleaned =>
          match split_statements cleaned with
          | None => e <- syntax_error ;; eret (inr e)
          | Some parsed =>
              let stmts := List.filter (fun s => negb (bool_decide (s = []))) (trim <$> parsed) in
              tweak_caches (with_script_cache (set_script_cache hash stmts)) ?> eret (inl stmts)
          end
      end
  end.

Definition quoted_by (q : Z) (e : bytes) : bool := bool_decide (head e = Some q) && bool_decide (last e = Some q).
Definition evaluated (t e : bytes) : E Value :=
  r <- attempt (eval_expr e) ;;
  match r with Some v => eret v | None => syntax_error_at t ?> syntax_error end.
(** [return e] at the top of a script: literals are told by their first and last bytes. *)
Definition return_expr (t e : bytes) : E Value :=
  if (2 <=? length e)%nat && (quoted_by c_dquote e || quoted_by c_quote e) then
    r <- attempt (eval_value e) ;;
    match r with Some v => eret v | None => evaluated t e end
  else
    match (if (2 <=? length e)%nat && forallb is_digit e then i32_from_str e else None) with
    | Some n => eret (from_int32 W n)
    | None => evaluated t e
    end.
Definition script_return (t : bytes) : option (E Value) :=
  if starts_with (b! "return;") t then Some (eret (UNDEFINED W))
  else
    match strip_prefix (b! "return ") t with
    | Some rest =>
        match trim rest with [] => Some (eret (UNDEFINED W)) | e => Some (return_expr t e) end
    | None => if is_word "return" t then Some (eret (UNDEFINED W)) else None
    end.
Fixpoint script_loop (stmts : list bytes) (last : Value) : E Value :=
  match stmts with
  | [] => eret last
  | t :: stmts' =>
      tweak_source clear_error_offset ?>
      match script_return t with
      | Some m => m
      | None =>
          r <- run_program_stmt fuel t ;;
          match r with
          | SValue v => if is_exception W v then eret v else script_loop stmts' v
          | SError => syntax_error
          | SLoopControl => eret last
          end
      end
  end.

Definition run_script (src : bytes) : E Value :=
  let hash := fnv1a_hash src in
  loaded <- load_script hash src ;;
  match loaded with
  | inr e => eret e
  | inl stmts =>
      fast <- try_bytecode hash [] stmts [] ;;
      match fast with Some v => eret v | None => script_loop stmts (UNDEFINED W) end
  end.
(** A line that only returns is evaluated as an expression first. *)
Definition script_line (src : bytes) : option bytes :=
  let t := trim src in
  if existsb (Z.eqb LF) t then None
  else
    rest ← strip_prefix (b! "return ") t;
    match rev (drop_while (Z.eqb c_semi) (rev (trim rest))) with [] => None | e => Some e end.
Definition eval_script_body (src : bytes) : E Value :=
  match script_line src with
  | Some e =>
      r <- attempt (eval_expr e) ;;
      match r with Some v => eret v | None => run_script src end
  | None => run_script src
  end.

(** ** [js_eval] *)

Definition JS_EVAL_RETVAL : Z := 1.
Definition JS_EVAL_JSON : Z := 8.
Definition JS_EVAL_SCRIPT : Z := 32.
Definition flag (flags bit : Z) : bool := negb (Z.land flags bit =? 0).

Definition js_eval (input filename : bytes) (flags : Z) : E Value :=
  tweak_source (fun _ => set_current_source filename input) ?>
  if flag flags JS_EVAL_JSON then
    r <- ran (fun c => match parse_json input c with Some (v, c) => Some (Val v, c) | None => None end) ;;
    match r with Some v => eret v | None => act (js_throw_error CLASS_SYNTAX_ERROR (b! "invalid JSON")) end
  else if flag flags JS_EVAL_SCRIPT then eval_script_body input
  else
    r <- attempt (eval_program fuel input) ;;
    match r with
    | Some v => eret (if is_exception W v || flag flags JS_EVAL_RETVAL then v else UNDEFINED W)
    | None =>
        tweak_source (fun s =>
          match current_error_offset s with
          | Some _ => s
          | None => set_error_offset (find_syntax_error_offset (current_source s)) s
          end) ?> syntax_error
    end.
End Calls.
