(* ===== verification/JsArith.v ===== *)
(** * JsArith: expressions with operators

    The two expression parsers of [src/api/eval_program.rs], which compute while they parse:
    [ExprParser] reads arithmetic on number literals alone ([parse_numeric_expr]), [ArithParser]
    every operator, property, call and literal ([parse_arith_expr]).

    A parser's state is what is left of its input; the position of an error is the input's
    length less that.  Each production answers a value and what it leaves.  The productions call
    each other, always after they took a byte at least, so their fuel is the input's length. *)
From Stdlib Require Import SpecFloat.
From S2P Require Import Prelude IntCodec Utf8 ServerArgs HashStore JsText JsFloat JsValue JsMem JsProps JsArray JsAtom JsObject JsScope JsSource JsBytecode JsApi JsJson JsScan JsStmt JsCall.

Definition skip_ws : bytes -> bytes := drop_while ascii_space.
Definition starts_sym (s : string) (l : bytes) : bool := starts_with (bytes_of_string s) l.

(** ** Number literals *)

Definition radix_of (b : Z) : option Z :=
  if (b =? 120) || (b =? 88) then Some 16 else if (b =? 111) || (b =? 79) then Some 8
  else if (b =? 98) || (b =? 66) then Some 2 else None.
Definition radix_digit (radix b : Z) : bool :=
  match hex_digit b with Some d => d <? radix | None => false end.
(** A zero and a letter for the radix, then digits that fit [u64].  [None]: no such prefix. *)
Definition prefixed_number (l : bytes) : option (option (f64 * bytes)) :=
  match l with
  | z :: b :: l' =>
      if z =? c_0 then
        radix ← radix_of b;
        let ds := take_while (radix_digit radix) l' in
        Some (if bool_decide (ds = []) then None
              else n ← from_str_radix radix (2 ^ 64 - 1) ds; Some (f64_of_int n, drop_while (radix_digit radix) l'))
      else None
  | _ => None
  end.
(** [ExprParser::parse_number] after the blanks. *)
Definition parse_number (l : bytes) : option (f64 * bytes) :=
  match prefixed_number l with
  | Some r => r
  | None =>
      let whole := take_while is_digit l in
      let rest := drop_while is_digit l in
      let '(frac, rest) :=
        match strip_prefix [46] rest with
        | Some rest => (46 :: take_while is_digit rest, drop_while is_digit rest)
        | None => ([], rest)
        end in
      if bool_decide (whole = []) && bool_decide (tail frac = []) then None
      else f ← f64_from_str (whole ++ frac); Some (f, rest)
  end.

(** ** [ExprParser] *)

Definition add_sub (b : Z) : option (f64 -> f64 -> f64) :=
  if b =? c_plus then Some f64_add else if b =? c_minus then Some f64_sub else None.
Definition mul_div (b : Z) : option (f64 -> f64 -> f64) :=
  if b =? 42 then Some f64_times else if b =? 47 then Some f64_over else None.
(** Operands joined by the operators of one level, to the left.  In the source these productions are
    functions that call each other as deep as the text nests, bounded by the machine's stack alone;
    here by a fuel that always suffices. *)
Fixpoint num_loop (n : nat) (ops : Z -> option (f64 -> f64 -> f64)) (operand : bytes -> option (f64 * bytes))
    (value : f64) (l : bytes) : option (f64 * bytes) :=
  match n with
  | O => None
  | S n' =>
      match skip_ws l with
      | [] => Some (value, [])
      | (b :: l') as l =>
          match ops b with
          | Some f => '(rhs, rest) ← operand l'; num_loop n' ops operand (f value rhs) rest
          | None => Some (value, l)
          end
      end
  end.
Definition num_level (ops : Z -> option (f64 -> f64 -> f64)) (operand : bytes -> option (f64 * bytes)) (l : bytes) : option (f64 * bytes) :=
  '(value, rest) ← operand l; num_loop (S (length rest)) ops operand value rest.
Definition num_term : (bytes -> option (f64 * bytes)) -> bytes -> option (f64 * bytes) := num_level mul_div.
Definition num_expr (factor : bytes -> option (f64 * bytes)) : bytes -> option (f64 * bytes) := num_level add_sub (num_term factor).
Fixpoint num_factor (n : nat) (l : bytes) : option (f64 * bytes) :=
  match n with
  | O => None
  | S n' =>
      match skip_ws l with
      | [] => None
      | (b :: l') as l =>
          if b =? c_plus then num_factor n' l'
          else if b =? c_minus then '(v, rest) ← num_factor n' l'; Some (f64_neg v, rest)
          else if b =? c_lparen then
            '(v, rest) ← num_expr (num_factor n') l';
            rest ← strip_prefix [c_rparen] (skip_ws rest); Some (v, rest)
          else parse_number l
      end
  end.
Definition parse_numeric_expr (src : bytes) : option f64 :=
  '(v, rest) ← num_expr (num_factor (S (length src))) src;
  if bool_decide (skip_ws rest = []) then Some v else None.

Example numeric_words :
  parse_numeric_expr (b! " -(1 + 2) * 4 / 0x10 ") = Some (f64_neg (f64_over (f64_of_int 12) (f64_of_int 16))) /\
  parse_numeric_expr (b! "1 - 2 - 3") = Some (f64_of_int (-4)) /\ parse_numeric_expr (b! "0xfg") = None /\ parse_numeric_expr (b! "1 2") = None /\
  parse_numeric_expr (b! "") = None /\ parse_numeric_expr (b! ".5") = Some (f64_over (f64_of_int 1) (f64_of_int 2)).
Proof. by vm_compute. Qed.

(** ** Operators on values *)

(** What expressions need besides statements and calls: a built-in method by its marker
    ([call_builtin_method], where [None] tries what follows; it may call back, with the fuel of
    calls), a regular expression, and the
    platform's power function. *)
Class JsBuiltins := {
  builtin_method : JsEval -> nat -> bytes -> Value -> list Value -> E (option Value);
  js_new_regexp : JsHost -> bytes -> bytes -> Ctx -> Value * Ctx;
  f64_powf : f64 -> f64 -> f64
}.

Inductive CmpOp := CmpLt | CmpGt | CmpLe | CmpGe | CmpEq | CmpNe | CmpSeq | CmpSne.

(** [trunc] and [rem_euclid] of 2^32 are exact on [f64]. *)
Definition float_to_uint32 (f : f64) : Z :=
  match f with S754_finite _ _ _ => f64_trunc f `mod` 2 ^ 32 | _ => 0 end.
Definition float_to_int32 (f : f64) : Z := as_i32 (float_to_uint32 f).

Section Values.
Context `{Host : JsHost} `{B : JsBuiltins}.

Definition to_number (v : Value) : E f64 := ask_for (js_to_number v).
Definition js_to_int32 (v : Value) : E Z :=
  match int32 W v with
  | Some n => eret n
  | None =>
      f <- view (fun c => float_of c v) ;;
      match f with Some f => eret (float_to_int32 f) | None => n <- to_number v ;; eret (float_to_int32 n) end
  end.
Definition js_to_uint32 (v : Value) : E Z :=
  match int32 W v with
  | Some n => eret (as_u32 n)
  | None =>
      f <- view (fun c => float_of c v) ;;
      match f with Some f => eret (float_to_uint32 f) | None => n <- to_number v ;; eret (float_to_uint32 n) end
  end.
(** [if val.is_exception() { Err(()) } else { Ok(val) }] *)
Definition no_exception (m : E Value) : E Value := v <- m ;; if is_exception W v then enone else eret v.
Definition push_number (n : f64) : E Value := no_exception (act (number_to_value n)).
Definition on_numbers (f : f64 -> f64 -> f64) (left right : Value) : E Value :=
  ln <- to_number left ;; rn <- to_number right ;; push_number (f ln rn).

(** The bytes of both as strings; a conversion may leave none. *)
Definition concat_values (left right : Value) : E Value :=
  ls <- act (js_to_string left) ;;
  rs <- act (js_to_string right) ;;
  lb <- view (fun c => str_of c ls) ;; rb <- view (fun c => str_of c rs) ;;
  lb <- must lb ;; rb <- must rb ;;
  no_exception (act (js_new_string (lb ++ rb))).
Definition add_values (left right : Value) : E Value :=
  left <- act (js_to_primitive left true) ;;
  right <- act (js_to_primitive right true) ;;
  strings <- view (fun c => is_str c left || is_str c right) ;;
  if strings : bool then concat_values left right else on_numbers f64_add left right.
Definition sub_values : Value -> Value -> E Value := on_numbers f64_sub.
Definition mul_values : Value -> Value -> E Value := on_numbers f64_times.
Definition div_values : Value -> Value -> E Value := on_numbers f64_over.
Definition mod_values : Value -> Value -> E Value := on_numbers f64_rem.
Definition pow_values : Value -> Value -> E Value := on_numbers f64_powf.
Definition unary_plus (v : Value) : E Value := n <- to_number v ;; push_number n.
Definition unary_minus (v : Value) : E Value := n <- to_number v ;; push_number (f64_neg n).

(** Strings and non-empty objects are true: the empty string too. *)
Definition arith_truthy (c : Ctx) (v : Value) : bool :=
  if is_bool v then v =? TRUE W
  else
    match int32 W v with
    | Some n => negb (n =? 0)
    | None =>
        if is_null W v || is_undefined W v then false
        else match float_of c v with Some f => negb (f64_eq f f64_zero) && negb (f64_is_nan f) | None => true end
    end.
Definition logical_and (left right : Value) : E Value := view (fun c => if arith_truthy c left then right else left).
Definition logical_or (left right : Value) : E Value := view (fun c => if arith_truthy c left then left else right).
Definition logical_not (v : Value) : E Value := view (fun c => new_bool W (negb (arith_truthy c v))).

Definition bitwise (f : Z -> Z -> Z) (left right : Value) : E Value :=
  ln <- js_to_int32 left ;; rn <- js_to_int32 right ;; eret (from_int32 W (f ln rn)).
Definition bitwise_and : Value -> Value -> E Value := bitwise Z.land.
Definition bitwise_or : Value -> Value -> E Value := bitwise Z.lor.
Definition bitwise_xor : Value -> Value -> E Value := bitwise Z.lxor.
Definition bitwise_not (v : Value) : E Value := n <- js_to_int32 v ;; eret (from_int32 W (Z.lnot n)).
Definition left_shift (left right : Value) : E Value :=
  ln <- js_to_int32 left ;; rn <- js_to_uint32 right ;; eret (from_int32 W (as_i32 (Z.shiftl ln (Z.land rn 31)))).
Definition right_shift (left right : Value) : E Value :=
  ln <- js_to_int32 left ;; rn <- js_to_uint32 right ;; eret (from_int32 W (Z.shiftr ln (Z.land rn 31))).
Definition unsigned_right_shift (left right : Value) : E Value :=
  ln <- js_to_uint32 left ;; rn <- js_to_uint32 right ;;
  let result := Z.shiftr ln (Z.land rn 31) in
  if result <=? 2 ^ 31 - 1 then eret (from_int32 W result) else act (number_to_value (f64_of_int result)).

(** *** [compare_values] *)

Definition string_units_equal (c : Ctx) (a b : Value) : option bool :=
  ua ← string_utf16_units c a; ub ← string_utf16_units c b; Some (bool_decide (ua = ub)).
Definition strict_eq_type_tag (c : Ctx) (v : Value) : Z :=
  if is_undefined W v then 0 else if is_null W v then 1 else if is_bool v then 2
  else if is_int v || bool_decide (is_Some (float_of c v)) then 3 else if is_str c v then 4 else 5.
(** [js_to_number(..).ok()] of both, equal as numbers. *)
Definition numbers_equal (left right : Value) : E bool :=
  ln <- attempt (to_number left) ;; rn <- attempt (to_number right) ;;
  eret (match ln, rn with Some l, Some r => f64_eq l r | _, _ => false end).
Definition loose_equal (left right : Value) : E bool :=
  if (is_null W left && is_undefined W right) || (is_undefined W left && is_null W right) then eret true
  else
    units <- view (fun c => string_units_equal c left right) ;;
    match units with
    | Some eq => eret eq
    | None => if left =? right then eret true else numbers_equal left right
    end.
Definition strict_equal (left right : Value) : E bool :=
  if left =? right then eret true
  else
    units <- view (fun c => string_units_equal c left right) ;;
    match units with
    | Some eq => eret eq
    | None =>
        same <- view (fun c => strict_eq_type_tag c left =? strict_eq_type_tag c right) ;;
        if same : bool then numbers_equal left right else eret false
    end.
Definition ordered (strs : bytes -> bytes -> bool) (floats : f64 -> f64 -> bool) (left right : Value) : E bool :=
  lb <- view (fun c => str_of c left) ;; rb <- view (fun c => str_of c right) ;;
  match lb, rb with
  | Some lb, Some rb => eret (strs lb rb)
  | _, _ => ln <- to_number left ;; rn <- to_number right ;; eret (floats ln rn)
  end.
Definition compare_values (op : CmpOp) (left right : Value) : E Value :=
  result <-
    (match op with
     | CmpLt => ordered (fun x y => negb (bytes_leb y x)) f64_lt left right
     | CmpGt => ordered (fun x y => negb (bytes_leb x y)) (fun x y => f64_lt y x) left right
     | CmpLe => ordered bytes_leb f64_le left right
     | CmpGe => ordered (fun x y => bytes_leb y x) (fun x y => f64_le y x) left right
     | CmpEq => loose_equal left right
     | CmpNe => eq <- loose_equal left right ;; eret (negb eq)
     | CmpSeq => strict_equal left right
     | CmpSne => eq <- strict_equal left right ;; eret (negb eq)
     end) ;;
  eret (new_bool W result).

Definition typeof_value (v : Value) : E Value :=
  t <- act (fun c =>
      if is_bool v then (b! "boolean", c) else if js_is_number c v then (b! "number", c)
      else if is_str c v then (b! "string", c) else if is_undefined W v then (b! "undefined", c)
      else if is_null W v then (b! "object", c)
      else
        let '(f, c) := js_is_function v c in
        (if f : bool then b! "function" else if is_ptr W v then b! "object" else b! "undefined", c)) ;;
  act (js_new_string t).
End Values.

(** ** Words and literals *)

Definition one_of (names : list string) (prop : bytes) : bool := existsb (fun w => is_word w prop) names.
(** [__builtin_<prefix><prop>__] *)
Definition marker_name (prefix : string) (prop : bytes) : bytes := s_builtin ++ bytes_of_string prefix ++ prop ++ b! "__".

Definition math_functions : list string :=
  ["floor"; "ceil"; "round"; "abs"; "max"; "min"; "sqrt"; "pow"; "sin"; "cos"; "tan"; "asin"; "acos"; "atan"; "atan2";
   "exp"; "log"; "log2"; "log10"; "fround"; "imul"; "clz32"]%string.
Definition string_methods : list string :=
  ["charAt"; "toUpperCase"; "toLowerCase"; "substring"; "substr"; "slice"; "indexOf"; "lastIndexOf"; "split"; "concat";
   "trim"; "trimStart"; "trimEnd"; "includes"; "startsWith"; "endsWith"; "repeat"; "replace"; "replaceAll"; "match";
   "matchAll"; "search"; "charCodeAt"; "codePointAt"; "padStart"; "padEnd"]%string.
Definition number_methods : list string := ["toFixed"; "toPrecision"; "toExponential"; "toString"]%string.
Definition array_methods : list string :=
  ["push"; "pop"; "join"; "slice"; "indexOf"; "splice"; "forEach"; "map"; "filter"; "reduce"; "reduceRight"; "every";
   "some"; "find"; "findIndex"; "flat"; "flatMap"; "sort"]%string.
Definition typed_array_methods : list string := ["set"; "subarray"; "toString"]%string.

(** The constants of [Math] and [Number], by their bits. *)
Definition math_number (prop : bytes) : option f64 :=
  if is_word "E" prop then Some (f64_from_bits 0x4005BF0A8B145769)
  else if is_word "PI" prop then Some (f64_from_bits 0x400921FB54442D18) else None.
Definition number_constant (prop : bytes) : option f64 :=
  if is_word "MAX_VALUE" prop then Some (f64_from_bits 0x7FEFFFFFFFFFFFFF)
  else if is_word "MIN_VALUE" prop then Some (f64_from_bits 0x0010000000000000)
  else if is_word "EPSILON" prop then Some (f64_from_bits 0x3CB0000000000000)
  else if is_word "POSITIVE_INFINITY" prop then Some (S754_infinity false)
  else if is_word "NEGATIVE_INFINITY" prop then Some (S754_infinity true) else None.

(** Up to an unescaped delimiter; escapes are kept. *)
Fixpoint raw_until (delim : Z) (l : bytes) : option (bytes * bytes) :=
  match l with
  | [] => None
  | b :: l' =>
      if b =? delim then Some ([], l')
      else if b =? c_backslash then match l' with c :: l'' => before2 b c (raw_until delim l'') | [] => None end
      else before b (raw_until delim l')
  end.

Definition some_digits (l : bytes) : option bytes :=
  match l with d :: _ => if is_digit d then Some (drop_while is_digit l) else None | [] => None end.
(** [parse_number_raw] after the blanks: no digits may follow a leading point. *)
Definition parse_number_raw (l : bytes) : option (f64 * bytes) :=
  let '(neg, l1) := match strip_prefix [c_minus] l with Some l1 => (true, l1) | None => (false, l) end in
  match prefixed_number l1 with
  | Some r => '(v, rest) ← r; Some (if neg : bool then f64_neg v else v, rest)
  | None =>
      rest ← (match l1 with
              | b :: l2 => if b =? c_0 then Some l2 else if is_digit b then Some (drop_while is_digit l2)
                           else if b =? 46 then Some l2 else None
              | [] => None
              end);
      rest ← (match strip_prefix [46] rest with Some r => some_digits r | None => Some rest end);
      rest ← (match rest with
              | e :: r =>
                  if (e =? 101) || (e =? 69) then
                    some_digits (match r with s :: r' => if (s =? c_plus) || (s =? c_minus) then r' else r | [] => r end)
                  else Some rest
              | [] => Some rest
              end);
      f ← f64_from_str (take (length l - length rest) l); Some (f, rest)
  end.

Definition starts_with_keyword (kw : string) (l : bytes) : option bytes :=
  rest ← strip_prefix (bytes_of_string kw) l;
  match rest with b :: _ => if word_char b then None else Some rest | [] => Some rest end.

Definition cmp_op (l : bytes) : option (CmpOp * bytes) :=
  if starts_sym "<=" l then Some (CmpLe, drop 2 l) else if starts_sym "<" l then Some (CmpLt, drop 1 l)
  else if starts_sym ">=" l then Some (CmpGe, drop 2 l) else if starts_sym ">" l then Some (CmpGt, drop 1 l)
  else if starts_sym "===" l then Some (CmpSeq, drop 3 l) else if starts_sym "==" l then Some (CmpEq, drop 2 l)
  else if starts_sym "!==" l then Some (CmpSne, drop 3 l) else if starts_sym "!=" l then Some (CmpNe, drop 2 l)
  else None.

(** ** [ArithParser] *)

Inductive Prod := PExpr | PExponent | PUnary.

Section Parser.
Context `{Ev : JsEval} `{B : JsBuiltins} (fuel : nat).

(** A closure, or a built-in told by the marker that stands for it; a marker is at most 64
    bytes.  A closure's call that fails is the same error as no function. *)
Definition call_if_closure (method : Value) (args : list Value) : E Value :=
  marker <- act (js_get_property_str method (b! "__closure__")) ;;
  if marker =? TRUE W then call_closure fuel method args else enone.
Definition call_builtin_method (method this : Value) (args : list Value) : E Value :=
  bs <- view (fun c => str_of c method) ;;
  match bs with
  | None => call_if_closure method args
  | Some bs =>
      if (64 <? length bs)%nat then call_if_closure method args
      else
        marker <- must (from_utf8 bs) ;;
        r <- builtin_method Ev fuel marker this args ;;
        match r with Some v => eret v | None => call_if_closure method args end
  end.

(** A name is not bound: no environment has it, and the global object neither. *)
Definition global_lacks (name : bytes) : E (Value * bool) :=
  global <- view (fun c => global_object (scope c)) ;;
  v <- act (js_get_property_str global name) ;;
  if is_undefined W v then has <- act (on_heap (has_property_str global name)) ;; eret (v, negb has) else eret (v, false).

(** *** Members

    Built-in methods are told by markers.  A property of a built-in object is not checked for an
    exception, all others are. *)
Definition new_marker (prefix : string) (prop : bytes) : E Value := act (js_new_string (marker_name prefix prop)).
Definition builtin_member (value : Value) (bs prop : bytes) : option (E Value) :=
  if is_word "__builtin_Number__" bs then
    Some (if one_of ["isInteger"; "isNaN"; "isFinite"; "isSafeInteger"]%string prop then new_marker "Number_" prop
          else if one_of ["parseInt"; "parseFloat"]%string prop then new_marker "" prop
          else match number_constant prop with Some f => act (number_to_value f) | None => eret value end)
  else if is_word "__builtin_Math__" bs then
    Some (if one_of math_functions prop then new_marker "Math_" prop
          else match math_number prop with Some f => act (number_to_value f) | None => eret value end)
  else if is_word "__builtin_String__" bs then
    Some (if one_of ["fromCharCode"; "fromCodePoint"]%string prop then new_marker "String_" prop else eret value)
  else if is_word "__builtin_JSON__" bs then
    Some (if one_of ["stringify"; "parse"]%string prop then new_marker "JSON_" prop else eret value)
  else if is_word "__builtin_Date__" bs && is_word "now" prop then Some (new_marker "Date_" prop)
  else if is_word "__builtin_console__" bs && is_word "log" prop then Some (new_marker "console_" prop)
  else None.
Definition member (value : Value) (prop : bytes) : E Value :=
  bs <- view (fun c => str_of c value) ;;
  match bs with
  | Some bs =>
      match builtin_member value bs prop with
      | Some m => m
      | None =>
          no_exception
            (if one_of string_methods prop then new_marker "string_" prop
             else if is_word "length" prop then
               units <- view (fun c => string_utf16_units c value) ;;
               eret (from_int32 W (as_i32 (Z.of_nat (length (default [] units)))))
             else act (js_get_property_str value prop))
      end
  | None =>
      no_exception
        (is_num <- view (fun c => js_is_number c value) ;;
         if is_num : bool then
           if one_of number_methods prop then new_marker "number_" prop else act (js_get_property_str value prop)
         else
           cls <- view (fun c => class_of c value) ;;
           match cls with
           | Some id =>
               if (id =? CLASS_ARRAY) && one_of array_methods prop then new_marker "array_" prop
               else if negb (id =? CLASS_ARRAY) && is_typed_array_class id && one_of typed_array_methods prop
               then new_marker "typedarray_" prop
               else act (js_get_property_str value prop)
           | None => act (js_get_property_str value prop)
           end)
  end.
Definition element (value index : Value) : E Value :=
  idx <- attempt (js_to_uint32 index) ;;
  no_exception
    (match idx with
     | Some i => act (js_get_property_uint32 value i)
     | None =>
         s <- view (fun c => str_of c index) ;;
         owned <- must s ;; name <- must (from_utf8 owned) ;; act (js_get_property_str value name)
     end).

(** *** Productions

    [base] is where the statement starts, [total] the input's length, [rec] the other
    productions; [gas] bounds the rounds of a loop. *)
Section Productions.
Context (base total : Z) (gas : nat) (rec : Prod -> bytes -> E (Value * bytes)).

Definition error_at (l : bytes) : E unit := tweak_source (set_error_offset (base + (total - Z.of_nat (length l)))).
Definition throw_at {A} (l : bytes) (cls : Z) (msg : bytes) : E A :=
  error_at l ?> _ <- act (js_throw_error cls msg) ;; enone.
Definition nullish (v : Value) : bool := is_null W v || is_undefined W v.

Definition parse_string (quote : Z) (l : bytes) : E (Value * bytes) :=
  ' (raw, rest) <- must (raw_until quote l) ;;
  raw <- must (from_utf8 raw) ;;
  v <- act (js_new_string (unescape_string_literal raw)) ;; eret (v, rest).
Definition parse_regex_literal (start l : bytes) : E (Value * bytes) :=
  ' (pattern, rest) <- must (raw_until 47 l) ;;
  pattern_str <- must (from_utf8 pattern) ;;
  v <- act (js_new_regexp eval_host pattern_str (take_while ascii_alpha rest)) ;;
  if is_exception W v then error_at start ?> enone else eret (v, drop_while ascii_alpha rest).
Definition parse_number_value (l : bytes) : E (Value * bytes) :=
  ' (num, rest) <- must (parse_number_raw l) ;; v <- push_number num ;; eret (v, rest).

Definition parse_identifier_value (l : bytes) : E (Value * bytes) :=
  s <- must (from_utf8 l) ;;
  ' (name, rest) <- must (parse_identifier s) ;;
  if is_word "true" name then eret (TRUE W, rest)
  else if is_word "false" name then eret (FALSE W, rest)
  else if is_word "null" name then eret (NULL W, rest)
  else if is_word "undefined" name then eret (UNDEFINED W, rest)
  else if is_word "globalThis" name then
    ' (v, lacks) <- global_lacks name ;;
    global <- view (fun c => global_object (scope c)) ;; eret (if lacks : bool then global else v, rest)
  else
    r <- attempt (eval_value name) ;;
    match r with
    | Some v => eret (v, rest)
    | None =>
        ' (v, lacks) <- global_lacks name ;;
        if lacks : bool then throw_at l CLASS_REFERENCE_ERROR (b! "not defined") else eret (v, rest)
    end.

(** The items of a list up to its bracket; a comma may end it. *)
Definition list_item {A} (close : Z) (first : bool) (done : bytes -> E A) (item : bytes -> E A) (l : bytes) : E A :=
  let l := skip_ws l in
  if starts_with [close] l then done (drop 1 l)
  else if first then item l
  else
    l <- must (strip_prefix [44] l) ;;
    let l := skip_ws l in
    if starts_with [close] l then done (drop 1 l) else item l.
Fixpoint array_items (n : nat) (arr : Value) (idx : Z) (l : bytes) : E (Value * bytes) :=
  match n with
  | O => eout
  | S n' =>
      list_item c_rbracket (idx =? 0) (fun rest => eret (arr, rest))
        (fun l =>
          ' (elem, rest) <- rec PExpr l ;;
          res <- act (js_set_property_uint32 arr idx elem) ;;
          if is_exception W res then enone else array_items n' arr (idx + 1) rest) l
  end.
Definition parse_array_literal (l : bytes) : E (Value * bytes) :=
  arr <- act (js_new_array 0) ;;
  if is_exception W arr then enone else array_items gas arr 0 l.

Definition object_key (l : bytes) : E (bytes * bytes) :=
  match l with
  | q :: l' =>
      if is_quote q then
        ' (key_val, rest) <- parse_string q l' ;;
        bs <- view (fun c => str_of c key_val) ;;
        owned <- must bs ;; key <- must (from_utf8 owned) ;; eret (key, rest)
      else s <- must (from_utf8 l) ;; must (parse_identifier s)
  | [] => enone
  end.
Fixpoint object_items (n : nat) (obj : Value) (first : bool) (l : bytes) : E (Value * bytes) :=
  match n with
  | O => eout
  | S n' =>
      list_item c_rbrace first (fun rest => eret (obj, rest))
        (fun l =>
          ' (key, rest) <- object_key l ;;
          rest <- must (strip_prefix [58] (skip_ws rest)) ;;
          ' (value, rest) <- rec PExpr rest ;;
          res <- act (js_set_property_str obj key value) ;;
          if is_exception W res then enone else object_items n' obj false rest) l
  end.
Definition parse_object_literal (l : bytes) : E (Value * bytes) :=
  obj <- act js_new_object ;;
  if is_exception W obj then enone else object_items gas obj true l.

(** An expression in parentheses is cut out and evaluated as a text of its own. *)
Definition parse_primary (l : bytes) : E (Value * bytes) :=
  match skip_ws l with
  | [] => enone
  | (b :: l') as l =>
      if b =? c_lparen then
        ' (inner, rest) <- must (extract true c_lparen c_rparen l) ;;
        inner <- must (from_utf8 inner) ;;
        v <- eval_expr (trim inner) ;; eret (v, rest)
      else if b =? 47 then parse_regex_literal l l'
      else if b =? c_lbracket then parse_array_literal l'
      else if b =? c_lbrace then parse_object_literal l'
      else if is_quote b then parse_string b l'
      else if is_digit b || (b =? 46) then parse_number_value l
      else parse_identifier_value l
  end.

Fixpoint call_args (n : nat) (l : bytes) : E (list Value * bytes) :=
  match n with
  | O => eout
  | S n' =>
      ' (arg, rest) <- rec PExpr l ;;
      match skip_ws rest with
      | (b :: rest') as rest =>
          if b =? 44 then ' (args, rest) <- call_args n' (skip_ws rest') ;; eret (arg :: args, rest)
          else if b =? c_rparen then eret ([arg], rest') else enone
      | [] => enone
      end
  end.
Definition parse_args (l : bytes) : E (list Value * bytes) :=
  let l := skip_ws l in
  if starts_with [c_rparen] l then eret ([], drop 1 l) else call_args gas l.

Fixpoint postfix_loop (n : nat) (value this : Value) (l : bytes) : E (Value * bytes) :=
  match n with
  | O => eout
  | S n' =>
      match skip_ws l with
      | [] => eret (value, [])
      | (b :: l') as l =>
          if b =? 46 then
            s <- must (from_utf8 l') ;;
            ' (prop, rest) <- must (parse_identifier s) ;;
            if nullish value then throw_at l CLASS_TYPE_ERROR (b! "cannot read property")
            else v <- member value prop ;; postfix_loop n' v value rest
          else if b =? c_lbracket then
            ' (index, rest) <- rec PExpr l' ;;
            rest <- must (strip_prefix [c_rbracket] (skip_ws rest)) ;;
            if nullish value then throw_at l CLASS_TYPE_ERROR (b! "cannot read property")
            else v <- element value index ;; postfix_loop n' v value rest
          else if b =? c_lparen then
            ' (args, rest) <- parse_args l' ;;
            error_at l ?>
            v <- call_builtin_method value this args ;; postfix_loop n' v (UNDEFINED W) rest
          else eret (value, l)
      end
  end.
Definition parse_postfix (l : bytes) : E (Value * bytes) :=
  ' (value, rest) <- parse_primary l ;; postfix_loop gas value (UNDEFINED W) rest.

(** *** Unary operators *)

(** [typeof] of a name that is not bound, and what follows the name. *)
Definition undeclared (l : bytes) : E (option bytes) :=
  match from_utf8 l ≫= parse_identifier with
  | Some (name, rest) =>
      bound <- walk (resolve_binding fuel name) ;;
      match bound with
      | Some _ => eret None
      | None => ' (_, lacks) <- global_lacks name ;; eret (if lacks : bool then Some rest else None)
      end
  | None => eret None
  end.
Definition unary_op (start : bytes) (operand : bytes -> E (Value * bytes)) (f : Value -> E Value) (l : bytes) : E (Value * bytes) :=
  ' (v, rest) <- operand l ;; error_at start ?> v <- f v ;; eret (v, rest).
Definition parse_unary (l : bytes) : E (Value * bytes) :=
  let l := skip_ws l in
  match starts_with_keyword "typeof" l with
  | Some rest =>
      let rest := skip_ws rest in
      absent <- undeclared rest ;;
      match absent with
      | Some rest => v <- act (js_new_string (b! "undefined")) ;; eret (v, rest)
      | None => unary_op l (rec PUnary) typeof_value rest
      end
  | None =>
      match starts_with_keyword "void" l with
      | Some rest => unary_op l (rec PUnary) (fun _ => eret (UNDEFINED W)) (skip_ws rest)
      | None =>
          if starts_sym "+" l then unary_op l parse_postfix unary_plus (drop 1 l)
          else if starts_sym "-" l then unary_op l parse_postfix unary_minus (drop 1 l)
          else if starts_sym "!" l && negb (starts_sym "!=" l) then unary_op l parse_postfix logical_not (drop 1 l)
          else if starts_sym "~" l then unary_op l parse_postfix bitwise_not (drop 1 l)
          else parse_postfix l
      end
  end.

(** *** Binary operators

    An operator at the head of the text: what follows it, and the operation. *)
Definition BinOp : Type := bytes -> option (bytes * (Value -> Value -> E Value)).
Definition blame (l : bytes) (f : Value -> Value -> E Value) (left right : Value) : E Value := error_at l ?> f left right.
Definition op_when (cond : bool) (k : nat) (f : Value -> Value -> E Value) (l : bytes) : option (bytes * (Value -> Value -> E Value)) :=
  if cond then Some (drop k l, f) else None.
Definition or_ops : BinOp := fun l => op_when (starts_sym "||" l) 2 logical_or l.
Definition and_ops : BinOp := fun l => op_when (starts_sym "&&" l) 2 logical_and l.
Definition bit_or_ops : BinOp := fun l => op_when (starts_sym "|" l && negb (starts_sym "||" l)) 1 bitwise_or l.
Definition bit_xor_ops : BinOp := fun l => op_when (starts_sym "^" l) 1 bitwise_xor l.
Definition bit_and_ops : BinOp := fun l => op_when (starts_sym "&" l && negb (starts_sym "&&" l)) 1 bitwise_and l.
Definition shift_ops : BinOp := fun l =>
  if starts_sym "<<" l then Some (drop 2 l, blame l left_shift)
  else if starts_sym ">>>" l then Some (drop 3 l, blame l unsigned_right_shift)
  else if starts_sym ">>" l then Some (drop 2 l, blame l right_shift) else None.
Definition additive_ops : BinOp := fun l =>
  if starts_sym "+" l then Some (drop 1 l, blame l add_values)
  else if starts_sym "-" l then Some (drop 1 l, blame l sub_values) else None.
Definition term_ops : BinOp := fun l =>
  if starts_sym "**" l then None
  else if starts_sym "*" l then Some (drop 1 l, blame l mul_values)
  else if starts_sym "/" l then Some (drop 1 l, blame l div_values)
  else if starts_sym "%" l then Some (drop 1 l, blame l mod_values) else None.

Fixpoint bin_loop (n : nat) (ops : BinOp) (operand : bytes -> E (Value * bytes)) (value : Value) (l : bytes) : E (Value * bytes) :=
  match n with
  | O => eout
  | S n' =>
      let l := skip_ws l in
      match ops l with
      | Some (rest, f) =>
          ' (rhs, rest) <- operand rest ;; value <- f value rhs ;; bin_loop n' ops operand value rest
      | None => eret (value, l)
      end
  end.
Definition bin_level (ops : BinOp) (operand : bytes -> E (Value * bytes)) (l : bytes) : E (Value * bytes) :=
  ' (value, rest) <- operand l ;; bin_loop gas ops operand value rest.

(** To the right. *)
Definition parse_exponent (l : bytes) : E (Value * bytes) :=
  ' (value, rest) <- parse_unary l ;;
  let l := skip_ws rest in
  if starts_sym "**" l then
    ' (rhs, rest) <- rec PExponent (drop 2 l) ;; v <- blame l pow_values value rhs ;; eret (v, rest)
  else eret (value, l).
Definition parse_term : bytes -> E (Value * bytes) := bin_level term_ops parse_exponent.
Definition parse_additive : bytes -> E (Value * bytes) := bin_level additive_ops parse_term.
Definition parse_shift : bytes -> E (Value * bytes) := bin_level shift_ops parse_additive.
(** One comparison at most. *)
Definition parse_comparison (l : bytes) : E (Value * bytes) :=
  ' (value, rest) <- parse_shift l ;;
  let l := skip_ws rest in
  match cmp_op l with
  | Some (op, rest) => ' (rhs, rest) <- parse_shift rest ;; v <- compare_values op value rhs ;; eret (v, rest)
  | None => eret (value, l)
  end.
Definition parse_bitwise_and : bytes -> E (Value * bytes) := bin_level bit_and_ops parse_comparison.
Definition parse_bitwise_xor : bytes -> E (Value * bytes) := bin_level bit_xor_ops parse_bitwise_and.
Definition parse_bitwise_or : bytes -> E (Value * bytes) := bin_level bit_or_ops parse_bitwise_xor.
Definition parse_logical_and : bytes -> E (Value * bytes) := bin_level and_ops parse_bitwise_or.
Definition parse_logical_or : bytes -> E (Value * bytes) := bin_level or_ops parse_logical_and.

Definition production (p : Prod) : bytes -> E (Value * bytes) :=
  match p with PExpr => parse_logical_or | PExponent => parse_exponent | PUnary => parse_unary end.
End Productions.

Fixpoint arith_upto (base total : Z) (n : nat) (p : Prod) (l : bytes) : E (Value * bytes) :=
  match n with O => eout | S n' => production base total n' (arith_upto base total n') p l end.
Definition parse_arith_expr (src : bytes) : E Value :=
  base <- view (fun c => current_stmt_offset (source c)) ;;
  ' (value, rest) <- arith_upto base (Z.of_nat (length src)) (S (length src)) PExpr src ;;
  if bool_decide (skip_ws rest = []) then eret value else enone.
End Parser.
