(* ===== verification/JsTyped.v ===== *)
(** * JsTyped: typed arrays

    The operations of [src/api/typed_array.rs] on objects: [JsBuffers] has the bytes.  An object's
    opaque pointer leads to its box, one more than the box's place in [boxes]; zero is null.  A
    conversion of the written value may run the program, so the buffer is written as it is then. *)
From Stdlib Require Import SpecFloat.
From S2P Require Import Prelude IntCodec Utf8 ServerArgs JsText JsFloat JsValue JsMem JsProps JsArray JsAtom JsObject JsBuffers JsScope JsSource JsBytecode JsApi JsJson JsScan JsStmt JsCall JsArith.

Definition CLASS_ARRAY_BUFFER : Z := 17.

Definition box_at (c : Ctx) (p : Z) : option Box := if p <=? 0 then None else boxes c !! Z.to_nat (p - 1).
Definition new_box (b : Box) (c : Ctx) : Z * Ctx := (Z.of_nat (S (length (boxes c))), with_boxes (boxes c ++ [b]) c).

Definition get_arraybuffer_data (c : Ctx) (v : Value) : option (Z * ArrayBufferData) :=
  id ← class_of c v;
  if negb (id =? CLASS_ARRAY_BUFFER) then None
  else
    let p := get_object_opaque (heap c) v in
    match box_at c p with Some (BoxBuffer d) => Some (p, d) | _ => None end.
Definition get_typedarray_data (c : Ctx) (v : Value) : option TypedArrayData :=
  id ← class_of c v;
  _ ← typed_array_kind_from_class_id id;
  match box_at c (get_object_opaque (heap c) v) with Some (BoxTyped d) => Some d | _ => None end.

(** Where element [idx] of a view is: its view, its buffer's pointer and bytes, and its first byte. *)
Definition element_place (c : Ctx) (obj : Value) (idx : Z) : option (TypedArrayData * Z * bytes * Z) :=
  d ← get_typedarray_data c obj;
  if ta_length d <=? idx then None
  else
    '(p, buf) ← get_arraybuffer_data c (ta_buffer d);
    let size := elem_size (ta_kind d) in
    let start := ta_offset d + idx * size in
    if Z.of_nat (length (buffer_bytes buf)) <? start + size then None else Some (d, p, buffer_bytes buf, start).
Definition elem_value (e : Elem) (c : Ctx) : Value * Ctx :=
  match e with EInt n => (from_int32 W n, c) | ENum f => number_to_value f c end.
(** [typed_array_get_element] *)
Definition get_element (obj : Value) (idx : Z) (c : Ctx) : Value * Ctx :=
  match element_place c obj idx with
  | Some (d, _, l, start) => elem_value (load_element (ta_kind d) (drop (Z.to_nat start) l)) c
  | None => (UNDEFINED W, c)
  end.

Definition write_buffer (p start : Z) (b : bytes) (c : Ctx) : Ctx :=
  match box_at c p with
  | Some (BoxBuffer d) =>
      with_boxes (<[Z.to_nat (p - 1) := BoxBuffer (MkBuffer (write_bytes (Z.to_nat start) b (buffer_bytes d)))]> (boxes c)) c
  | _ => c
  end.

(** A step behind an interface whose operations always answer: that it panicked, or ran out of
    fuel, is left in the context, where the step that called it finds it ([ending]). *)
Definition settle {A} (m : E A) (c : Ctx) : option A * Ctx :=
  match m c with
  | Some (Val x, c) => (Some x, c)
  | Some (Nope, c) => (None, c)
  | Some (Crash, _) => (None, befall Fallen c)
  | None => (None, befall Starved c)
  end.

Section Typed.
Context `{Host : JsHost}.

(** [typed_array_set_element]: a 32-bit element is converted twice, first to a number that is
    dropped. *)
Definition set_element (obj : Value) (idx : Z) (val : Value) (c : Ctx) : bool * Ctx :=
  match element_place c obj idx with
  | Some (d, p, _, start) =>
      let '(n, c) := js_to_number val c in
      let '(b, c) :=
        match ta_kind d with
        | Int32 => let '(v, c) := settle (js_to_int32 val) c in (to_le_bytes 4 (default 0 v `mod` 2 ^ 32), c)
        | Uint32 => let '(v, c) := settle (js_to_uint32 val) c in (to_le_bytes 4 (default 0 v), c)
        | k => (store_number k (default f64_zero n), c)
        end in
      (true, write_buffer p start b c)
  | None => (false, c)
  end.

(** ** Creating *)

Definition create_arraybuffer (byte_len : Z) : E Value :=
  obj <- act (js_new_object_class CLASS_ARRAY_BUFFER) ;;
  if is_exception W obj then eret obj
  else
    p <- act (new_box (BoxBuffer (MkBuffer (replicate (Z.to_nat byte_len) 0)))) ;;
    _ <- act (on_heap (set_object_opaque obj p)) ;;
    set_str obj (b! "byteLength") (len_value byte_len) ?> eret obj.

(** [unwrap] of a class that is no typed array's panics. *)
Definition create_typed_array (cls : Z) (buffer : Value) (offset length : Z) : E Value :=
  obj <- act (js_new_object_class cls) ;;
  if is_exception W obj then eret obj
  else
    match typed_array_kind_from_class_id cls with
    | None => ecrash
    | Some kind =>
        p <- act (new_box (BoxTyped (MkTyped buffer offset length kind))) ;;
        _ <- act (on_heap (set_object_opaque obj p)) ;;
        set_str obj (b! "length") (len_value length) ?>
        set_str obj (b! "byteLength") (len_value (length * elem_size kind)) ?>
        set_str obj (b! "byteOffset") (len_value offset) ?>
        set_str obj (b! "buffer") buffer ?>
        set_str obj (b! "BYTES_PER_ELEMENT") (len_value (elem_size kind)) ?> eret obj
    end.

(** [.int32().unwrap_or(0).max(0)] of a length, and of a converted argument. *)
Definition length_prop (v : Value) : E Z :=
  len <- act (js_get_property_str v (b! "length")) ;; eret (Z.max 0 (default 0 (int32 W len))).
Definition count_arg (v : Value) : E Z := n <- attempt (js_to_int32 v) ;; eret (Z.max 0 (default 0 n)).

(** [n] elements, from place [i] of the source to place [offset + i] of the view. *)
Fixpoint copy_elements (get : Z -> Ctx -> Value * Ctx) (out : Value) (offset i : Z) (n : nat) : E unit :=
  match n with
  | O => eret tt
  | S n' =>
      v <- act (get i) ;;
      _ <- act (set_element out (offset + i) v) ;; copy_elements get out offset (i + 1) n'
  end.
(** A new view with the elements of an array or of another view. *)
Definition typed_from (cls : Z) (kind : TypedArrayKind) (get : Z -> Ctx -> Value * Ctx) (src : Value) : E Value :=
  src_len <- length_prop src ;;
  buffer <- create_arraybuffer (src_len * elem_size kind) ;;
  out <- create_typed_array cls buffer 0 src_len ;;
  copy_elements get out 0 0 (Z.to_nat src_len) ?> eret out.

Definition view_of_buffer (cls : Z) (kind : TypedArrayKind) (args : list Value) (buffer : Value) : E Value :=
  data <- view (fun c => get_arraybuffer_data c buffer) ;;
  match data with
  | None => eret (UNDEFINED W)
  | Some (_, buf) =>
      let byte_len := Z.of_nat (length (buffer_bytes buf)) in
      offset <- (match args !! 1%nat with Some a => count_arg a | None => eret 0 end) ;;
      len <- (match args !! 2%nat with
              | Some a => count_arg a
              | None => eret (Z.max 0 (byte_len - offset) / elem_size kind)
              end) ;;
      create_typed_array cls buffer offset (if byte_len <? offset then 0 else len)
  end.

Definition build_typed_array_from_args (cls : Z) (args : list Value) : E Value :=
  match typed_array_kind_from_class_id cls with
  | None => ecrash
  | Some kind =>
      match args with
      | [] => buffer <- create_arraybuffer 0 ;; create_typed_array cls buffer 0 0
      | a :: _ =>
          cls0 <- view (fun c => class_of c a) ;;
          if bool_decide (cls0 = Some CLASS_ARRAY_BUFFER) then view_of_buffer cls kind args a
          else if bool_decide (is_Some (cls0 ≫= typed_array_kind_from_class_id)) then typed_from cls kind (get_element a) a
          else if bool_decide (cls0 = Some CLASS_ARRAY) then typed_from cls kind (js_get_property_uint32 a) a
          else
            len <- count_arg a ;;
            buffer <- create_arraybuffer (len * elem_size kind) ;; create_typed_array cls buffer 0 len
      end
  end.

(** ** Methods *)

(** [args[0]] from place [offset] on: what fits of it. *)
Definition typedarray_set (this : Value) (args : list Value) : E Value :=
  match args with
  | [] => eret (UNDEFINED W)
  | src :: _ =>
      offset <- (match args !! 1%nat with Some a => count_arg a | None => eret 0 end) ;;
      data <- view (fun c => get_typedarray_data c this) ;;
      match data with
      | None => eret (UNDEFINED W)
      | Some d =>
          cls <- view (fun c => class_of c src) ;;
          let copy get :=
            src_len <- length_prop src ;;
            copy_elements get this offset 0 (Z.to_nat (Z.min src_len (ta_length d - offset))) in
          (if bool_decide (is_Some (cls ≫= typed_array_kind_from_class_id)) then copy (get_element src)
           else if bool_decide (cls = Some CLASS_ARRAY) then copy (js_get_property_uint32 src) else eret tt)
          ?> eret (UNDEFINED W)
      end
  end.

(** Bounds of [subarray]: negative ones count from the end. *)
Definition subarray_bounds (len begin end_ : Z) : Z * Z :=
  let from_end i := if i <? 0 then Z.max 0 (len + i) else i in
  let b := Z.min len (from_end begin) in
  let e := Z.min len (from_end end_) in (b, Z.max b e).
Definition typedarray_subarray (this : Value) (args : list Value) : E Value :=
  data <- view (fun c => get_typedarray_data c this) ;;
  match data with
  | None => eret (UNDEFINED W)
  | Some d =>
      let len := as_i32 (ta_length d) in
      let arg i otherwise := match args !! i with
                             | Some a => n <- attempt (js_to_int32 a) ;; eret (default otherwise n)
                             | None => eret otherwise
                             end in
      begin <- arg 0%nat 0 ;;
      end_ <- arg 1%nat len ;;
      let '(b, e) := subarray_bounds len begin end_ in
      cls <- view (fun c => default 18 (class_of c this)) ;;
      match typed_array_kind_from_class_id cls with
      | Some _ => create_typed_array cls (ta_buffer d) (ta_offset d + b * elem_size (ta_kind d)) (e - b)
      | None => eret (UNDEFINED W)
      end
  end.

Fixpoint join_elements (this : Value) (i : Z) (n : nat) (out : bytes) : E bytes :=
  match n with
  | O => eret out
  | S n' =>
      let out := if 0 <? i then out ++ [44] else out in
      v <- act (get_element this i) ;;
      s_val <- act (js_to_string v) ;;
      s <- view (fun c => default [] (str_of c s_val ≫= from_utf8)) ;; join_elements this (i + 1) n' (out ++ s)
  end.
Definition typedarray_to_string (this : Value) : E Value :=
  data <- view (fun c => get_typedarray_data c this) ;;
  out <- (match data with Some d => join_elements this 0 (Z.to_nat (ta_length d)) [] | None => eret [] end) ;;
  act (js_new_string out).
End Typed.
