(* ===== verification/JsExpr.v ===== *)
(** * JsExpr: the expression evaluator

    [eval_expr] of [src/api/eval_expr.rs] and [eval_value] of [src/evals.rs].  An expression is a
    text: [eval_expr] tries one reading after the other (literal, declaration, comma, assignment,
    conditional, .., a base with its members and calls), each of which passes, answers, or fails
    for all; the readings it cuts out are evaluated by [eval_expr] again.  [engine] ties the
    knot: expressions, statements and calls of every nesting up to its fuel.

    The methods that markers stand for are the operations of [JsMethods]. *)
From Stdlib Require Import SpecFloat.
From S2P Require Import Prelude IntCodec Utf8 ServerArgs JsText JsFloat JsValue JsMem JsProps JsArray JsAtom JsObject JsScope JsSource JsBytecode JsApi JsJson JsScan JsStmt JsCall JsArith JsTyped.

(** The methods of built-in objects called by [eval_expr], given the evaluator and the fuel of
    calls, the marker, [this] and the arguments.  [None]: no such method. *)
Class JsMethods := {
  expr_marker : JsEval -> nat -> bytes -> Value -> list Value -> E (option Value)
}.

(** ** Words *)

Definition ident_byte (b : Z) : bool := ascii_alnum b || (b =? 95) || (b =? 36).
(** A name the fast paths take: no keyword is left out. *)
Definition plain_name (s : bytes) : bool :=
  match s with b :: _ => (ascii_alpha b || (b =? 95) || (b =? 36)) && forallb ident_byte s | [] => false end.
Definition digits_only (s : bytes) : bool := match s with b :: _ => forallb is_digit s | [] => false end.

Definition CLASS_REGEXP : Z := 8.
Definition error_class (id : Z) : bool := in_range CLASS_ERROR CLASS_INTERNAL_ERROR id.

(** [BUILTIN_DISPATCH]: the marker of each is the name between [__builtin_] and [__]. *)
Definition builtin_names : list string :=
  ["Array"; "ArrayBuffer"; "Date"; "Error"; "Float32Array"; "Float64Array"; "Function"; "Int16Array"; "Int32Array";
   "Int8Array"; "JSON"; "Math"; "Number"; "Object"; "RangeError"; "ReferenceError"; "RegExp"; "String"; "SyntaxError";
   "TypeError"; "Uint16Array"; "Uint32Array"; "Uint8Array"; "Uint8ClampedArray"; "console"; "eval"; "isFinite"; "isNaN";
   "parseFloat"; "parseInt"]%string.
Definition builtin_word (name : string) : bytes := marker_name "" (bytes_of_string name).
Definition is_builtin (name : string) (s : bytes) : bool := bool_decide (s = builtin_word name).

Definition expr_string_methods : list string :=
  ["charAt"; "concat"; "substring"; "substr"; "indexOf"; "lastIndexOf"; "slice"; "split"; "toUpperCase";
   "toLocaleUpperCase"; "toLowerCase"; "toLocaleLowerCase"; "trim"; "startsWith"; "endsWith"; "includes"; "match";
   "matchAll"; "search"; "repeat"; "replace"; "replaceAll"; "charCodeAt"; "codePointAt"; "trimStart"; "trimEnd";
   "padStart"; "padEnd"; "normalize"]%string.
Definition expr_array_methods : list string :=
  ["push"; "pop"; "shift"; "unshift"; "join"; "toString"; "reverse"; "splice"; "forEach"; "map"; "filter"; "reduce";
   "reduceRight"; "every"; "some"; "find"; "findIndex"; "flat"; "flatMap"; "sort"; "concat"; "lastIndexOf"; "fill";
   "slice"; "at"; "indexOf"; "includes"]%string.
Definition object_methods : list string :=
  ["keys"; "values"; "entries"; "assign"; "hasOwnProperty"; "create"; "freeze"; "isSealed"; "isFrozen"; "seal";
   "defineProperty"; "getOwnPropertyDescriptor"; "getPrototypeOf"; "setPrototypeOf"]%string.
(** What [typeof] takes for functions and for objects among the markers. *)
Definition function_markers : list string :=
  ["Object"; "Array"; "String"; "Number"; "Date"; "RegExp"; "Function"; "Error"; "TypeError"; "ReferenceError";
   "SyntaxError"; "RangeError"; "parseInt"; "parseFloat"; "eval"; "isNaN"; "isFinite"]%string.
Definition object_markers : list string := ["Math"; "JSON"; "console"]%string.
(** The typed arrays [new] makes, with their classes. *)
Definition typed_array_markers : list (string * Z) :=
  [("Uint8Array", 21); ("Uint8ClampedArray", 19); ("Int8Array", 20); ("Int16Array", 22); ("Uint16Array", 23);
   ("Int32Array", 24); ("Uint32Array", 25); ("Float32Array", 26); ("Float64Array", 27)]%string.
Definition typed_class (marker : bytes) : option Z :=
  snd <$> List.find (fun p => is_builtin (fst p) marker) typed_array_markers.

(** ** Scanners of the evaluator *)

(** [str::rfind]: how many bytes are before the last occurrence. *)
Definition rfind (p l : bytes) : option nat := length ∘ snd <$> find_sub (rev p) (rev l).

(** The last dot outside of literals and brackets; a backslash in a literal escapes nothing. *)
Fixpoint last_dot (i : nat) (q : option Z) (depth : Z) (found : option nat) (l : bytes) : option nat :=
  match l with
  | [] => found
  | b :: l' =>
      match q with
      | Some d => last_dot (S i) (if b =? d then None else q) depth found l'
      | None =>
          if is_quote b then last_dot (S i) (Some b) depth found l'
          else if opens b then last_dot (S i) None (depth + 1) found l'
          else if closes b then last_dot (S i) None (depth - 1) found l'
          else last_dot (S i) None depth (if (b =? 46) && (depth =? 0) then Some i else found) l'
      end
  end.
Definition parse_member_access (src : bytes) : option (bytes * bytes) :=
  let s := trim src in
  dot ← last_dot 0 None 0 None s;
  let obj_part := trim (take dot s) in
  let prop_part := trim (drop (S dot) s) in
  if negb (bool_decide (obj_part = [])) && is_valid_identifier prop_part then Some (obj_part, prop_part) else None.

(** A compound assignment: its target, operator, right side, and the operator's position.  [pre]
    is the text before, backwards; the first byte is never looked at. *)
Definition compound_op (b : Z) : bool := bool_decide (b ∈ [c_plus; c_minus; 42; 47]).
Fixpoint compound_loop (pre : bytes) (q : option Z) (depth : Z) (l : bytes) : option (bytes * Z * bytes * Z) :=
  match l with
  | [] => None
  | b :: l' =>
      match q with
      | Some d => compound_loop (b :: pre) (if b =? d then None else q) depth l'
      | None =>
          if is_quote b then compound_loop (b :: pre) (Some b) depth l'
          else if opens b then compound_loop (b :: pre) None (depth + 1) l'
          else if closes b then compound_loop (b :: pre) None (depth - 1) l'
          else
            match pre with
            | op :: before =>
                let lhs := trim (rev before) in
                let rhs := trim l' in
                if (b =? c_eq) && (depth =? 0) && compound_op op && negb (bool_decide (lhs = [])) && negb (bool_decide (rhs = []))
                then Some (lhs, op, rhs, Z.of_nat (length before))
                else compound_loop (b :: pre) None depth l'
            | [] => compound_loop (b :: pre) None depth l'
            end
      end
  end.
Definition split_compound (s : bytes) : option (bytes * Z * bytes * Z) :=
  match s with b :: l => compound_loop [b] None 0 l | [] => None end.

Example compound_cases :
  split_compound (b! "o.x += 'a=b'") = Some (b! "o.x", c_plus, b! "'a=b'", 4) /\ split_compound (b! "f(a += 1)") = None /\
  split_compound (b! "a = 1") = None /\ parse_member_access (b! " a.b[c.d].e ") = Some (b! "a.b[c.d]", b! "e") /\
  rfind (b! "++") (b! "a++ + b++") = Some 7%nat.
Proof. by vm_compute. Qed.

(** ** [eval_value] *)

Section Evaluator.
Context `{Ev : JsEval} `{B : JsBuiltins} `{Methods : JsMethods} (fuel : nat).

(** Readings in order: the first that answers. *)
Definition pass {A} : E (option A) := eret None.
Definition answer {A} (m : E A) : E (option A) := x <- m ;; eret (Some x).
Fixpoint first_of (readings : list (E (option Value))) (last : E Value) : E Value :=
  match readings with
  | [] => last
  | m :: readings' => r <- m ;; match r with Some v => eret v | None => first_of readings' last end
  end.

Definition on_global (name : bytes) (absent : Value -> E Value) : E Value :=
  ' (v, lacks) <- global_lacks name ;;
  global <- view (fun c => global_object (scope c)) ;;
  if lacks : bool then absent global else eret v.
Definition eval_name (s : bytes) : E Value :=
  if is_word "null" s then eret (NULL W)
  else if is_word "undefined" s then eret (UNDEFINED W)
  else if is_word "true" s then eret (TRUE W)
  else if is_word "false" s then eret (FALSE W)
  else if is_word "NaN" s then act (number_to_value S754_nan)
  else if is_word "Infinity" s then act (number_to_value (S754_infinity false))
  else
    b <- walk (resolve_binding fuel s) ;;
    match b with
    | Some (_, v) =>
        if negb (is_word "this" s) && (v =? UNINITIALIZED W)
        then act (js_throw_error CLASS_REFERENCE_ERROR (b! "cannot access before initialization"))
        else eret v
    | None =>
        if is_word "this" s then view (fun c => global_object (scope c))
        else if one_of builtin_names s then on_global s (fun _ => act (js_new_string (marker_name "" s)))
        else if is_word "globalThis" s then on_global s eret
        else global <- view (fun c => global_object (scope c)) ;; act (js_get_property_str global s)
    end.

(** *** Literals *)

Fixpoint set_items (arr : Value) (i : Z) (items : list bytes) : E Value :=
  match items with
  | [] => eret arr
  | item :: items' =>
      v <- eval_expr item ;;
      res <- act (js_set_property_uint32 arr i v) ;;
      if is_exception W res then enone else set_items arr (i + 1) items'
  end.
Definition inside (s : bytes) : bytes := take (length s - 2) (drop 1 s).
Definition eval_array_literal (s : bytes) : E Value :=
  items <- must (split_top_level (inside s)) ;;
  arr <- act (js_new_array (Z.of_nat (length items))) ;;
  if is_exception W arr then enone else set_items arr 0 items.

(** [name(..) {..}], with what follows the braces. *)
Definition method_text (rest : bytes) : option (bytes * bytes * bytes * bytes) :=
  '(name, _) ← find_sub [c_lparen] rest;
  '(params, after_params) ← extract_paren (drop (length name) rest);
  '(body, tail) ← (if starts_brace (trim_start after_params) then extract_braces (trim_start after_params) else None);
  Some (trim name, params, body, tail).
(** A [get] or [set] property: its name, parameters and body. *)
Definition accessor_entry (word : string) (entry : bytes) : option (bytes * bytes * bytes) :=
  rest ← strip_prefix (bytes_of_string word ++ [32]) entry;
  '(name, params, body, _) ← method_text (trim_start rest);
  if is_valid_identifier name then Some (name, params, body) else None.
Definition method_entry (entry : bytes) : option (bytes * bytes * bytes) :=
  '(name, params, body, tail) ← method_text entry;
  if is_valid_identifier name && negb (existsb (Z.eqb 58) entry) && negb (nonblank tail) then Some (name, params, body) else None.
Definition set_checked (obj : Value) (name : bytes) (v : Value) : E unit :=
  res <- act (js_set_property_str obj name v) ;; if is_exception W res then enone else eret tt.
Definition add_function (obj : Value) (key : bytes) (params_str body : bytes) : E unit :=
  ps <- must (split_top_level params_str) ;;
  func <- create_function (List.filter (fun p => negb (bool_decide (p = []))) (trim <$> ps)) body ;;
  set_checked obj key func.
Definition unquoted (key : bytes) : bytes :=
  if (2 <=? length key)%nat && (quoted_by c_dquote key || quoted_by c_quote key) then inside key else key.
Definition add_entry (obj : Value) (entry : bytes) : E unit :=
  match accessor_entry "get" entry with
  | Some (name, _, body) => func <- create_function [] body ;; set_checked obj (b! "__get__" ++ name) func
  | None =>
      match accessor_entry "set" entry with
      | Some (name, params, body) => add_function obj (b! "__set__" ++ name) params body
      | None =>
          match method_entry entry with
          | Some (name, params, body) => add_function obj name params body
          | None =>
              ' (key, value_src) <- must (find_sub [58] entry) ;;
              let key := unquoted (trim key) in
              v <- eval_expr (trim value_src) ;;
              if is_word "__proto__" key then _ <- act (on_heap (set_object_proto obj v)) ;; eret tt
              else set_checked obj key v
          end
      end
  end.
Fixpoint add_entries (obj : Value) (entries : list bytes) : E Value :=
  match entries with [] => eret obj | e :: entries' => add_entry obj (trim e) ?> add_entries obj entries' end.
Definition eval_object_literal (s : bytes) : E Value :=
  entries <- must (split_top_level (inside s)) ;;
  obj <- act js_new_object ;;
  if is_exception W obj then enone else add_entries obj entries.

(** *** Functions *)

Definition arrow_params (src : bytes) : option (list bytes) :=
  if starts_with [c_lparen] src then
    '(inner, rest) ← extract_paren src;
    if nonblank rest then None else parse_parameter_list inner
  else if is_valid_identifier src then Some [src]
  else if bool_decide (src = []) then Some [] else None.
Definition arrow_body (src : bytes) : option bytes :=
  if starts_brace src then '(block, rest) ← extract_braces src; if nonblank rest then None else Some block
  else Some (b! "return " ++ src ++ [c_semi]).
Definition eval_arrow (params_src body_src : bytes) : E Value :=
  params <- must (arrow_params (trim params_src)) ;;
  body <- must (arrow_body (trim (drop 2 body_src))) ;; create_function params body.
Definition function_text (s : bytes) : option (option bytes * bytes * bytes) :=
  let rest := trim_start (drop 8 s) in
  '(name, after_name) ← (if starts_with [c_lparen] rest then Some (None, rest)
                          else '(name, after) ← parse_identifier rest; Some (Some name, trim_start after));
  '(params, after_params) ← (if starts_with [c_lparen] after_name then extract_paren after_name else None);
  '(body, tail) ← (if starts_brace (trim_start after_params) then extract_braces (trim_start after_params) else None);
  if nonblank tail then None else Some (name, params, body).
Definition eval_function (s : bytes) : E Value :=
  ' (name, params_str, body) <- must (function_text s) ;;
  params <- must (parse_parameter_list params_str) ;;
  func <- create_function params body ;;
  match name with
  | Some n => name_val <- act (js_new_string n) ;; set_str func (b! "name") name_val ?> eret func
  | None => eret func
  end.

(** *** All of it *)

Definition short_number (most : nat) (s : bytes) : option Z :=
  if digits_only s && (length s <=? most)%nat then i32_from_str s else None.
Definition bracketed (op cl : Z) (s : bytes) : bool := starts_with [op] s && ends_with [cl] s.
Definition value_step (src : bytes) : E Value :=
  let s := trim src in
  match short_number 10 s with
  | Some n => eret (from_int32 W n)
  | None =>
      if plain_name s then eval_name s
      else if bracketed c_lbracket c_rbracket s then eval_array_literal s
      else if bracketed c_lbrace c_rbrace s then eval_object_literal s
      else
        match find_arrow_top_level s with
        | Some (params, body) => eval_arrow params body
        | None =>
            if starts_with (b! "function") s then eval_function s
            else if is_simple_string_literal s then act (js_new_string (unescape_string_literal (inside s)))
            else
              r <- (if contains_arith_op s then attempt (parse_arith_expr fuel s) else pass) ;;
              match r with
              | Some v => eret v
              | None =>
                  match parse_numeric_expr s with
                  | Some num => act (number_to_value num)
                  | None => if bracketed c_lparen c_rparen s then eval_expr (inside s) else enone
                  end
              end
        end
  end.

(** ** Calls *)

Definition value_to_string (v : Value) : E bytes :=
  bs <- view (fun c => str_of c v) ;;
  str_val <- (match bs with Some _ => eret v | None => act (js_to_string v) end) ;;
  view (fun c => default [] (str_of c str_val ≫= from_utf8)).

(** The functions of the global object.  [None]: the marker is of none. *)
Definition number_result (f : f64) : E (option Value) := answer (act (number_to_value f)).
Definition call_builtin_global_marker (marker : bytes) (args : list Value) : E (option Value) :=
  let says name := is_builtin name marker in
  match args with
  | [] =>
      if says "Number" then eret (Some (from_int32 W 0))
      else if says "String" then answer (act (js_new_string []))
      else if says "Boolean" then eret (Some (FALSE W))
      else if says "parseInt" || says "parseFloat" then number_result S754_nan
      else if says "isNaN" then eret (Some (TRUE W))
      else if says "isFinite" then eret (Some (FALSE W))
      else if says "eval" then eret (Some (UNDEFINED W)) else pass
  | a :: _ =>
      bs <- view (fun c => str_of c a) ;;
      if says "Number" then n <- attempt (to_number a) ;; number_result (default S754_nan n)
      else if says "String" then answer (act (js_to_string a))
      else if says "Boolean" then t <- view (fun c => JsApi.is_truthy c a) ;; eret (Some (new_bool W t))
      else if says "parseInt" then
        match (match bs with Some s => from_utf8 s ≫= fun s => i32_from_str (trim s) | None => int32 W a end) with
        | Some n => eret (Some (from_int32 W n))
        | None => number_result S754_nan
        end
      else if says "parseFloat" then
        match bs with
        | Some s =>
            number_result
              (match trim_start <$> from_utf8 s with
               | Some t => if starts_any [b! "0x"; b! "0X"] t then f64_zero else default S754_nan (f64_from_str t)
               | None => S754_nan
               end)
        | None => n <- attempt (to_number a) ;; number_result (default S754_nan n)
        end
      else if says "isNaN" then
        n <- attempt (to_number a) ;; eret (Some (new_bool W (match n with Some f => f64_is_nan f | None => true end)))
      else if says "isFinite" then
        n <- attempt (to_number a) ;;
        eret (Some (new_bool W (match n with Some (S754_zero _ | S754_finite _ _ _) => true | _ => false end)))
      else if says "eval" then
        match bs with
        | Some s => answer (js_eval fuel (default [] (from_utf8 s)) (b! "<eval>") JS_EVAL_RETVAL)
        | None => eret (Some a)
        end
      else pass
  end.
(** A marker of up to 64 bytes. *)
Definition short_marker (bs : bytes) : option bytes := if (length bs <=? 64)%nat then from_utf8 bs else None.

Definition call_function_value (func this : Value) (args : list Value) : E Value :=
  info <- view (fun c => c_function_info (heap c) func) ;;
  match info with
  | Some (idx, params) => act (call_c_function_direct idx params this args)
  | None =>
      bs <- view (fun c => str_of c func) ;;
      match bs with
      | Some bs =>
          marker <- must (short_marker bs) ;;
          r <- call_builtin_global_marker marker args ;;
          match r with Some v => eret v | None => call_builtin_method fuel func this args end
      | None => call_closure_with_this fuel func this args
      end
  end.

(** [js_call]: [this], the function and the arguments from the top of the argument stack. *)
Definition js_push_arg (v : Value) : E unit := tweak (push_arg v).
Definition stack_top (i : nat) (stack : list Value) : Value := default (UNDEFINED W) (rev stack !! i).
Definition js_call (call_flags : Z) : E Value :=
  let argc := Z.to_nat (Z.land call_flags 65535) in
  let need := (argc + 2)%nat in
  full <- view (fun c => stack_check (scope c) (Z.of_nat need)) ;;
  if negb (full =? 0) then act (js_throw_error CLASS_INTERNAL_ERROR (b! "stack overflow"))
  else
    stack <- view (fun c => call_stack (scope c)) ;;
    if (length stack <? need)%nat then act (js_throw_error CLASS_TYPE_ERROR (b! "stack underflow"))
    else
      let this := stack_top 0 stack in
      let func := stack_top 1 stack in
      let args := (fun i => stack_top (2 + i) stack) <$> seq 0 argc in
      let not_a_function := act (js_throw_error CLASS_TYPE_ERROR (b! "not a function")) in
      tweak (call_stack_truncate (length stack - need)) ?>
      closure <- act (js_get_property_str func (b! "__closure__")) ;;
      if closure =? TRUE W then
        r <- attempt (call_closure fuel func args) ;; match r with Some v => eret v | None => not_a_function end
      else
        info <- view (fun c => c_function_info (heap c) func) ;;
        match info with
        | Some (idx, params) => act (call_c_function_direct idx params this args)
        | None =>
            bs <- view (fun c => str_of c func) ;;
            match bs with
            | Some bs =>
                r <- (match short_marker bs with Some marker => call_builtin_global_marker marker args | None => pass end) ;;
                match r with
                | Some v => eret v
                | None =>
                    r <- attempt (call_builtin_method fuel func this args) ;;
                    match r with Some v => eret v | None => not_a_function end
                end
            | None => not_a_function
            end
        end.

(** *** Members and calls after a base *)

Definition object_marker (bs name : bytes) : option (E Value) :=
  let says b := is_builtin b bs in
  if says "Math" then
    if one_of math_functions name then Some (new_marker "Math_" name)
    else (fun f => act (number_to_value f)) <$> math_number name
  else if says "Object" then
    if is_word "prototype" name then Some (view (fun c => object_proto (heap c)))
    else if one_of object_methods name then Some (new_marker "Object_" name) else None
  else if says "JSON" then if one_of ["stringify"; "parse"]%string name then Some (new_marker "JSON_" name) else None
  else if says "RegExp" then if one_of ["test"; "exec"]%string name then Some (new_marker "regexp_" name) else None
  else if says "Array" then
    if is_word "prototype" name then Some (view (fun c => array_proto (heap c)))
    else if one_of ["isArray"; "from"; "of"]%string name then Some (new_marker "Array_" name) else None
  else if says "Number" then
    if one_of ["isInteger"; "isNaN"; "isFinite"; "isSafeInteger"]%string name then Some (new_marker "Number_" name)
    else if one_of ["parseInt"; "parseFloat"]%string name then Some (new_marker "" name)
    else (fun f => act (number_to_value f)) <$> number_constant name
  else if says "String" then
    if one_of ["fromCharCode"; "fromCodePoint"]%string name then Some (new_marker "String_" name) else None
  else None.
(** The methods of a value, by its kind. *)
Definition method_marker (val : Value) (name : bytes) (c : Ctx) : option (E Value) :=
  let cls := class_of c val in
  if is_str c val && one_of expr_string_methods name then Some (new_marker "string_" name)
  else if bool_decide (cls = Some CLASS_ARRAY) && one_of expr_array_methods name then Some (new_marker "array_" name)
  else if match cls with Some id => is_typed_array_class id | None => false end && one_of typed_array_methods name
  then Some (new_marker "typedarray_" name)
  else if js_is_number c val && one_of number_methods name then Some (new_marker "number_" name)
  else if bool_decide (cls = Some CLASS_REGEXP) && one_of ["test"; "exec"]%string name then Some (new_marker "regexp_" name)
  else None.
Definition length_of (val : Value) : E (option Value) :=
  cls <- view (fun c => class_of c val) ;;
  len_val <- (if bool_decide (cls = Some CLASS_ARRAY) then act (js_get_property_str val s_length) else eret (UNDEFINED W)) ;;
  if negb (is_undefined W len_val) then eret (Some len_val)
  else
    units <- view (fun c => if is_str c val then Some (default [] (string_utf16_units c val)) else None) ;;
    eret ((fun u => from_int32 W (as_i32 (Z.of_nat (length u)))) <$> units).
(** A method of objects without one of their own. *)
Definition own_property_method (val : Value) : E (option Value) :=
  cls <- view (fun c => class_of c val) ;;
  match cls with
  | Some _ =>
      has <- act (on_heap (has_property_str val (b! "hasOwnProperty"))) ;;
      if has : bool then pass else answer (new_marker "Object_" (b! "hasOwnProperty"))
  | None => pass
  end.
Definition function_method (val : Value) (name : bytes) : E (option Value) :=
  f <- act (js_is_function val) ;;
  if (f : bool) && one_of ["call"; "apply"; "bind"]%string name then
    existing <- act (on_heap (get_property_str val name)) ;;
    if or_undefined existing =? UNDEFINED W then answer (new_marker "Function_" name) else eret existing
  else pass.
Definition expr_member (val : Value) (name : bytes) : E Value :=
  bs <- view (fun c => str_of c val ≫= from_utf8) ;;
  if match bs with
     | Some bs => (is_builtin "Date" bs && is_word "now" name) || (is_builtin "console" bs && is_word "log" name)
     | None => false
     end
  then act (js_new_string (if is_word "now" name then b! "__builtin_Date_now__" else b! "__builtin_console_log__"))
  else
    first_of
      [ (if is_word "length" name then length_of val else pass);
        (m <- view (method_marker val name) ;; match m with Some m => answer m | None => pass end);
        (if is_word "hasOwnProperty" name then own_property_method val else pass);
        (match bs ≫= fun bs => object_marker bs name with Some m => answer m | None => pass end);
        function_method val name ]
      (act (js_get_property_str val name)).

(** The arguments of a call.  A name whose value is undefined is looked up again. *)
Fixpoint call_arguments (again : bool) (l : list bytes) : E (list Value) :=
  match l with
  | [] => eret []
  | arg :: l' =>
      let arg := trim arg in
      if bool_decide (arg = []) then call_arguments again l'
      else
        v <- eval_expr arg ;;
        v <- (if again && is_undefined W v && is_valid_identifier arg
              then b <- walk (resolve_binding fuel arg) ;; eret (match b with Some (_, gv) => gv | None => v end)
              else eret v) ;;
        args <- call_arguments again l' ;; eret (v :: args)
  end.

Fixpoint push_all (l : list Value) : E unit := match l with [] => eret tt | v :: l' => js_push_arg v ?> push_all l' end.
Fixpoint elements_from (arr : Value) (i : Z) (n : nat) : E (list Value) :=
  match n with
  | O => eret []
  | S n' => v <- act (js_get_property_uint32 arr i) ;; vs <- elements_from arr (i + 1) n' ;; eret (v :: vs)
  end.
(** A function made by [bind]; a negative count asks for too many elements. *)
Definition call_bound (val : Value) (args : list Value) : E (option Value) :=
  cls <- view (fun c => class_of c val) ;;
  if bool_decide (cls = Some CLASS_OBJECT) then
    is_bound <- act (js_get_property_str val (b! "__is_bound__")) ;;
    if is_bound =? TRUE W then
      orig_func <- act (js_get_property_str val (b! "__bound_func__")) ;;
      bound_this <- act (js_get_property_str val (b! "__bound_this__")) ;;
      bound_args_arr <- act (js_get_property_str val (b! "__bound_args__")) ;;
      len_val <- act (js_get_property_str bound_args_arr s_length) ;;
      let count := default 0 (int32 W len_val) in
      bound_args <- (if count <? 0 then ecrash else elements_from bound_args_arr 0 (Z.to_nat count)) ;;
      r <- attempt (call_function_value orig_func bound_this (bound_args ++ args)) ;;
      eret (Some (default (UNDEFINED W) r))
    else pass
  else pass.
Definition call_value (val this : Value) (args : list Value) : E Value :=
  closure <- act (js_get_property_str val (b! "__closure__")) ;;
  if closure =? TRUE W then call_closure fuel val args
  else
    first_of
      [ (bs <- view (fun c => str_of c val ≫= from_utf8) ;;
         match bs with Some marker => expr_marker Ev fuel marker this args | None => pass end);
        call_bound val args ]
      (push_all (rev args) ?> js_push_arg val ?> js_push_arg this ?> js_call (as_i32 (Z.of_nat (length args)))).

(** An index is an integer or a string: neither a fraction nor a boolean will do. *)
Definition indexed (val idx_val : Value) : E Value :=
  match int32 W idx_val with
  | Some i => act (js_get_property_uint32 val (as_u32 i))
  | None =>
      bs <- view (fun c => str_of c idx_val) ;;
      owned <- must bs ;; name <- must (from_utf8 owned) ;; act (js_get_property_str val name)
  end.

Fixpoint tail_loop (n : nat) (val this : Value) (rest : bytes) : E Value :=
  match n with
  | O => eout
  | S n' =>
      match trim_start rest with
      | [] => eret val
      | (b :: rest') as rest =>
          if b =? c_lparen then
            ' (inner, next) <- must (extract_paren rest) ;;
            arg_list <- must (split_top_level inner) ;;
            let arg_list := if bool_decide (arg_list = []) && nonblank inner then [trim inner] else arg_list in
            args <- call_arguments true arg_list ;;
            v <- call_value val this args ;; tail_loop n' v (UNDEFINED W) next
          else if b =? 46 then
            ' (name, next) <- must (parse_identifier rest') ;;
            v <- expr_member val name ;; tail_loop n' v val next
          else if b =? c_lbracket then
            ' (inner, next) <- must (extract_bracket rest) ;;
            idx_val <- eval_expr inner ;;
            v <- indexed val idx_val ;; tail_loop n' v val next
          else enone
      end
  end.

(** ** [eval_expr]

    Each reading of a trimmed text, which is not empty: [pass] when it is none of its kind. *)

Definition fast_literal (s : bytes) : E (option Value) :=
  match short_number 20 s with
  | Some n => eret (Some (from_int32 W n))
  | None =>
      if (length s <=? 20)%nat && plain_name s then answer (eval_value s)
      else if (2 <=? length s)%nat &&
        ((quoted_by c_dquote s && (count_unescaped_quotes c_dquote s =? 2)) || (quoted_by c_quote s && (count_unescaped_quotes c_quote s =? 2)))
      then answer (eval_value s)
      else pass
  end.

Fixpoint declare_all (const : bool) (env : Value) (decls : list bytes) : E (option Value) :=
  match decls with
  | [] => eret (Some (UNDEFINED W))
  | decl :: decls' =>
      let decl := trim decl in
      if bool_decide (decl = []) then declare_all const env decls'
      else
        match find_sub [c_eq] decl with
        | Some (name, init) =>
            if is_valid_identifier (trim name) then
              v <- eval_expr (trim init) ;;
              set_str env (trim name) v ?>
              (if const then mark_const_binding env (trim name) else eret tt) ?> declare_all const env decls'
            else enone
        | None =>
            if negb (is_valid_identifier decl) then enone
            else if const then answer (act (js_throw_error CLASS_SYNTAX_ERROR (b! "const declarations require initialization")))
            else set_str env decl (UNDEFINED W) ?> declare_all const env decls'
        end
  end.
Definition declaration (s : bytes) : E (option Value) :=
  match decl_of s with
  | (Some kind, rest) =>
      env <- binding_env fuel (Some kind) ;;
      declare_all (match kind with DConst => true | _ => false end) env (default [rest] (split_top_level rest))
  | (None, _) => pass
  end.

Fixpoint eval_all (parts : list bytes) (last : Value) : E Value :=
  match parts with [] => eret last | p :: parts' => v <- eval_expr p ;; eval_all parts' v end.
Definition comma (s : bytes) : E (option Value) :=
  if has_top_level_comma s then
    match split_top_level s with
    | Some ((_ :: _ :: _) as parts) => answer (eval_all parts (UNDEFINED W))
    | _ => pass
    end
  else pass.
Definition arrow (s : bytes) : E (option Value) := if has_top_level_arrow s then attempt (eval_value s) else pass.
Definition void (s : bytes) : E (option Value) :=
  match starts_with_keyword "void" s with
  | Some rest =>
      let rest := trim_start rest in
      (if bool_decide (rest = []) then eret tt else _ <- eval_expr rest ;; eret tt) ?> eret (Some (UNDEFINED W))
  | None => pass
  end.

(** *** Assignments *)

Definition compound_f64 (op : Z) : f64 -> f64 -> f64 :=
  if op =? c_plus then f64_add else if op =? c_minus then f64_sub else if op =? 42 then f64_times else f64_over.
(** The exact result, when it is an [i32] and no division. *)
Definition compound_int (op a b : Z) : option Z :=
  let r := if op =? c_plus then a + b else if op =? c_minus then a - b else a * b in
  if (op =? 47) || negb (in_range (- 2 ^ 31) (2 ^ 31 - 1) r) then None else Some r.
Definition compound_slow (op : Z) (left right : Value) : E Value :=
  strings <- view (fun c => (op =? c_plus) && (is_str c left || is_str c right)) ;;
  if strings : bool then
    ls <- act (js_to_string left) ;;
    rs <- act (js_to_string right) ;;
    out <- view (fun c => default [] (str_of c ls) ++ default [] (str_of c rs)) ;;
    act (js_new_string out)
  else
    ln <- to_number left ;; rn <- to_number right ;; act (number_to_value (compound_f64 op ln rn)).
Definition compound_value (op : Z) (left right : Value) : E Value :=
  match int32 W left, int32 W right with
  | Some a, Some b =>
      match compound_int op a b with
      | Some r => eret (from_int32 W r)
      | None => act (number_to_value (compound_f64 op (f64_of_int a) (f64_of_int b)))
      end
  | _, _ => compound_slow op left right
  end.
(** The environment of a name and its value: the global object too. *)
Definition compound_target (name : bytes) : E (option (Value * Value)) :=
  b <- walk (resolve_binding fuel name) ;;
  match b with
  | Some b => eret (Some b)
  | None =>
      global <- view (fun c => global_object (scope c)) ;;
      has <- act (on_heap (has_property_str global name)) ;;
      if has : bool then v <- act (on_heap (get_property_str global name)) ;; eret (Some (global, or_undefined v))
      else eret None
  end.
Definition throws (cls : Z) (msg : bytes) : E Value := act (js_throw_error cls msg).
Definition compound_name (lhs : bytes) (op : Z) (rhs : bytes) : E Value :=
  target <- compound_target lhs ;;
  match target with
  | None => throws CLASS_REFERENCE_ERROR (b! "not defined")
  | Some (env, lhs_val) =>
      const <- is_const_binding env lhs ;;
      if const : bool then throws CLASS_TYPE_ERROR (b! "invalid assignment to const")
      else
        rhs_val <- eval_expr rhs ;;
        result <- compound_value op lhs_val rhs_val ;;
        set_str env lhs result ?> eret result
  end.
Definition compound_place (lhs : bytes) (op : Z) (rhs : bytes) : E Value :=
  lhs_val <- eval_expr lhs ;;
  rhs_val <- eval_expr rhs ;;
  result <- compound_slow op lhs_val rhs_val ;;
  ' (base, key) <- parse_lvalue fuel lhs ;;
  res <- write_key base key result ;;
  eret (if is_exception W res then EXCEPTION W else result).
Definition compound (stmt_offset : Z) (s : bytes) : E (option Value) :=
  match split_compound s with
  | Some (lhs, op, rhs, pos) =>
      tweak_source (set_error_offset (stmt_offset + pos)) ?>
      answer (if is_valid_identifier lhs then compound_name lhs op rhs else compound_place lhs op rhs)
  | None => pass
  end.

(** A constant may be assigned as long as it is not initialised. *)
Definition assign (lhs rhs : bytes) : E Value :=
  rhs_val <- eval_expr rhs ;;
  ' (base, key) <- parse_lvalue fuel lhs ;;
  blocked <- (match key with
              | LName name =>
                  const <- is_const_binding base name ;;
                  if const : bool then
                    current <- act (js_get_property_str base name) ;; eret (negb (current =? UNINITIALIZED W))
                  else eret false
              | LIndex _ => eret false
              end) ;;
  if blocked : bool then throws CLASS_TYPE_ERROR (b! "invalid assignment to const")
  else res <- write_key base key rhs_val ;; eret (if is_exception W res then EXCEPTION W else rhs_val).
Definition assignment (s : bytes) : E (option Value) :=
  match split_assignment s with Some (lhs, rhs) => answer (assign lhs rhs) | None => pass end.
Definition ternary (s : bytes) : E (option Value) :=
  match split_ternary s with
  | Some (cond, true_part, false_part) =>
      cond_val <- eval_expr cond ;;
      is_true <- view (fun c => JsApi.is_truthy c cond_val) ;;
      answer (eval_expr (if is_true : bool then true_part else false_part))
  | None => pass
  end.

(** *** [instanceof] and [in] *)

Definition class_matches (marker : bytes) (cls : option Z) : bool :=
  let says name := is_builtin name marker in
  match cls with
  | None => false
  | Some id =>
      if says "Error" then error_class id
      else if says "TypeError" then id =? CLASS_TYPE_ERROR
      else if says "ReferenceError" then id =? CLASS_REFERENCE_ERROR
      else if says "SyntaxError" then id =? CLASS_SYNTAX_ERROR
      else if says "RangeError" then id =? CLASS_RANGE_ERROR
      else if says "Array" then id =? CLASS_ARRAY
      else says "Object"
  end.
Fixpoint proto_walk (n : nat) (target proto : Value) : E Value :=
  match n with
  | O => eout
  | S n' =>
      if nullish proto then eret (FALSE W)
      else if proto =? target then eret (TRUE W)
      else next <- act (js_get_property_str proto (b! "__proto__")) ;; proto_walk n' target next
  end.
Definition instance_of (left right : Value) : E Value :=
  marker <- view (fun c => str_of c right ≫= from_utf8) ;;
  match marker with
  | Some marker => view (fun c => new_bool W (class_matches marker (class_of c left)))
  | None =>
      ctor_proto <- act (js_get_property_str right (b! "prototype")) ;;
      if nullish ctor_proto then eret (FALSE W)
      else proto <- act (js_get_property_str left (b! "__proto__")) ;; proto_walk fuel ctor_proto proto
  end.
Definition in_object (prop_val obj_val : Value) : E Value :=
  name <- view (fun c => match str_of c prop_val with
                         | Some bs => from_utf8 bs
                         | None => int_to_string <$> int32 W prop_val
                         end) ;;
  match name with
  | Some name =>
      has <- act (on_heap (has_property_str obj_val name)) ;;
      if has : bool then eret (TRUE W)
      else v <- act (js_get_property_str obj_val name) ;; eret (new_bool W (negb (v =? UNDEFINED W)))
  | None => eret (FALSE W)
  end.
Definition on_both (split : bytes -> option (bytes * bytes)) (f : Value -> Value -> E Value) (s : bytes) : E (option Value) :=
  match split s with
  | Some (lhs, rhs) => x <- eval_expr lhs ;; y <- eval_expr rhs ;; answer (f x y)
  | None => pass
  end.

Definition arithmetic (s : bytes) : E (option Value) :=
  if contains_arith_op s then
    r <- attempt (parse_arith_expr fuel s) ;;
    match r with
    | Some v => eret (Some v)
    | None =>
        raised <- view (fun c => negb (last_exception (scope c) =? UNDEFINED W)) ;;
        if raised : bool then eret (Some (EXCEPTION W)) else pass
    end
  else pass.

(** *** [++] and [--] *)

Definition step_f64 (inc : bool) : f64 -> f64 := fun n => (if inc then f64_add else f64_sub) n (f64_of_int 1).
Definition stepped (inc : bool) (old_val : Value) : E Value :=
  n <- to_number old_val ;; act (number_to_value (step_f64 inc n)).
Definition eval_property_inc_dec (lvalue : bytes) (inc prefix : bool) : E Value :=
  ' (obj, key) <- parse_lvalue fuel lvalue ;;
  if is_exception W obj then enone
  else
    old_val <- read_key obj key ;;
    new_val <- stepped inc old_val ;;
    _ <- write_key obj key new_val ;; eret (if prefix then new_val else old_val).
Definition inc_dec_name (name : bytes) (inc prefix : bool) : E Value :=
  env <- walk (resolve_binding_env fuel name) ;;
  here <- view env_of ;;
  let env := default here env in
  old_val <- act (js_get_property_str env name) ;;
  new_val <- stepped inc old_val ;;
  set_str env name new_val ?> eret (if prefix then new_val else old_val).
Definition inc_dec (lvalue : bytes) (inc prefix : bool) : E (option Value) :=
  r <- attempt (eval_property_inc_dec lvalue inc prefix) ;;
  match r with
  | Some v => eret (Some v)
  | None => if is_valid_identifier lvalue then answer (inc_dec_name lvalue inc prefix) else pass
  end.
Definition s_inc : bytes := b! "++".
Definition s_dec : bytes := b! "--".
Definition postfix_inc_dec (stmt_offset : Z) (s : bytes) : E (option Value) :=
  if ends_with s_inc s || ends_with s_dec s then
    (match (match rfind s_inc s with Some p => Some p | None => rfind s_dec s end) with
     | Some pos => tweak_source (set_error_offset (stmt_offset + Z.of_nat pos))
     | None => eret tt
     end) ?> inc_dec (trim (take (length s - 2) s)) (ends_with s_inc s) false
  else pass.
Definition prefix_inc_dec (stmt_offset : Z) (s : bytes) : E (option Value) :=
  if starts_with s_inc s || starts_with s_dec s then
    tweak_source (set_error_offset stmt_offset) ?> inc_dec (trim (drop 2 s)) (starts_with s_inc s) true
  else pass.

(** *** [typeof], [delete], [new] *)

Definition type_of (v : Value) : E Value :=
  t <- act (fun c =>
      if is_bool v then (b! "boolean", c) else if is_number v then (b! "number", c)
      else if is_str c v then (b! "string", c) else if is_undefined W v then (b! "undefined", c)
      else if is_null W v then (b! "object", c)
      else
        let '(f, c) := js_is_function v c in
        (if f : bool then b! "function" else if is_ptr W v then b! "object" else b! "undefined", c)) ;;
  act (js_new_string t).
Definition typeof (s : bytes) : E (option Value) :=
  match strip_prefix (b! "typeof ") s with
  | Some operand =>
      v <- eval_expr (trim operand) ;;
      marker <- view (fun c => default [] (str_of c v ≫= from_utf8)) ;;
      let among names := existsb (fun n => is_builtin n marker) names in
      answer (if among function_markers then act (js_new_string (b! "function"))
              else if among object_markers then act (js_new_string (b! "object")) else type_of v)
  | None => pass
  end.
Definition delete_member (operand : bytes) : E Value :=
  match parse_member_access operand with
  | Some (obj_expr, prop_name) =>
      obj <- eval_expr obj_expr ;;
      deleted <- act (on_heap (delete_property_str obj prop_name)) ;; eret (new_bool W deleted)
  | None =>
      match (if ends_with [c_rbracket] operand then rfind [c_lbracket] operand else None) with
      | Some start =>
          obj <- eval_expr (take start operand) ;;
          idx_val <- eval_expr (take (length operand - start - 2) (drop (S start) operand)) ;;
          name <- view (fun c => str_of c idx_val ≫= from_utf8) ;;
          match name, int32 W idx_val with
          | Some name, _ => deleted <- act (on_heap (delete_property_str obj name)) ;; eret (new_bool W deleted)
          | None, Some n => deleted <- act (on_heap (delete_property_index obj (as_u32 n))) ;; eret (new_bool W deleted)
          | None, None => eret (TRUE W)
          end
      | None => eret (TRUE W)
      end
  end.
Definition delete (s : bytes) : E (option Value) :=
  match strip_prefix (b! "delete ") s with Some operand => answer (delete_member (trim operand)) | None => pass end.

Definition constructor_call (src : bytes) : option (bytes * option bytes) :=
  match find_sub [c_lparen] src with
  | Some (name, _) => '(inner, _) ← extract_paren (drop (length name) src); Some (trim name, Some inner)
  | None => Some (src, None)
  end.
Definition construct_closure (ctor : Value) (args : list Value) : E Value :=
  new_obj <- act js_new_object ;;
  ctor_proto <- act (js_get_property_str ctor (b! "prototype")) ;;
  (if nullish ctor_proto then eret tt else set_str new_obj (b! "__proto__") ctor_proto) ?>
  result <- attempt (call_closure_with_this fuel ctor new_obj args) ;;
  eret (match result with
        | Some v => if is_ptr W v && negb (is_null W v) && negb (is_undefined W v) then v else new_obj
        | None => new_obj
        end).
Definition string_arg (args : list Value) (i : nat) : E bytes :=
  match args !! i with Some a => value_to_string a | None => eret [] end.
Definition new_array_of (args : list Value) : E Value :=
  match args with
  | [a] =>
      match int32 W a with
      | Some len => act (js_new_array len)
      | None => arr <- act (js_new_array 1) ;; fill_array arr 0 args ?> eret arr
      end
  | _ => arr <- act (js_new_array (Z.of_nat (length args))) ;; fill_array arr 0 args ?> eret arr
  end.
Definition new_function_of (args : list Value) : E Value :=
  match rev args with
  | [] => create_function [] []
  | last :: params =>
      body <- view (fun c => default [] (str_of c last ≫= from_utf8)) ;;
      params <- view (fun c => omap (fun a => str_of c a ≫= from_utf8) (rev params)) ;;
      create_function params body
  end.
Definition construct_builtin (marker : bytes) (args : list Value) : E Value :=
  let says name := is_builtin name marker in
  if says "Object" then act js_new_object
  else if says "ArrayBuffer" then
    len <- (match args with a :: _ => n <- attempt (js_to_int32 a) ;; eret (Z.max 0 (default 0 n)) | [] => eret 0 end) ;;
    create_arraybuffer len
  else
    match typed_class marker with
    | Some cls => build_typed_array_from_args cls args
    | None =>
        if says "Array" then new_array_of args
        else if says "RegExp" then
          pattern <- string_arg args 0 ;; flags <- string_arg args 1 ;; act (js_new_regexp eval_host pattern flags)
        else if says "Error" then
          msg <- view (fun c => default [] (args !! 0%nat ≫= fun a => str_of c a ≫= from_utf8)) ;; throws CLASS_ERROR msg
        else if says "Function" then new_function_of args
        else eret (UNDEFINED W)
    end.
Definition construct (src : bytes) : E Value :=
  ' (ctor_name, args_src) <- must (constructor_call src) ;;
  ctor <- eval_expr ctor_name ;;
  args <- (match args_src with
           | Some text => arg_list <- must (split_top_level text) ;; call_arguments false arg_list
           | None => eret []
           end) ;;
  closure <- act (js_get_property_str ctor (b! "__closure__")) ;;
  if closure =? TRUE W then construct_closure ctor args
  else
    marker <- view (fun c => str_of c ctor ≫= from_utf8) ;;
    match marker with Some marker => construct_builtin marker args | None => eret (UNDEFINED W) end.
Definition new (s : bytes) : E (option Value) :=
  match strip_prefix (b! "new ") s with Some src => answer (construct (trim src)) | None => pass end.

(** *** All of it *)

Definition base_and_tail (s : bytes) : E Value :=
  ' (base, tail) <- must (split_base_and_tail s) ;;
  v <- eval_value base ;; tail_loop (S (length tail)) v (UNDEFINED W) tail.
Definition readings (stmt_offset : Z) (s : bytes) : list (E (option Value)) :=
  [ declaration s; comma s; arrow s; void s; compound stmt_offset s; assignment s; ternary s;
    on_both split_instanceof instance_of s; on_both split_in_operator in_object s; arithmetic s;
    postfix_inc_dec stmt_offset s; prefix_inc_dec stmt_offset s; typeof s; delete s; new s;
    (if starts_with (b! "function") s then attempt (eval_value s) else pass) ].
Definition expr_step (src : bytes) : E Value :=
  let s := trim src in
  if bool_decide (s = []) then enone
  else
    r <- fast_literal s ;;
    match r with
    | Some v => eret v
    | None =>
        stmt_offset <- view (fun c => current_stmt_offset (source c)) ;;
        first_of (readings stmt_offset s) (base_and_tail s)
    end.
End Evaluator.

(** ** The engine *)

(** Expressions with fuel for their nesting and that of the calls they make.  The interpreter
    behind getters and the machine is still [H]. *)
Fixpoint engine (H : JsHost) `{B : JsBuiltins} `{Methods : JsMethods} (n : nat) : JsEval :=
  match n with
  | O => {| eval_host := H; eval_expr := fun _ => eout; eval_value := fun _ => eout |}
  | S n' =>
      let inner := engine H n' in
      {| eval_host := H; eval_expr := @expr_step inner B Methods n'; eval_value := @value_step inner B n' |}
  end.

(** *** The interpreter behind the interfaces

    Getters, setters, conversions and the bytecode machine call back through [JsHost], whose
    operations always answer: here they are the engine's, with less fuel.  A nested run that panics,
    or runs out of fuel, marks the context ([settle]), and the step of the evaluator that called it
    ends the same way ([ending]); so does the last, which has no fuel left to call with. *)
Definition starved {A} (x : A) (c : Ctx) : A * Ctx := (x, befall Starved c).
Definition out_of_fuel (base : JsHost) : JsHost := {|
  JsApi.call_closure_with_this _ _ _ := starved None;
  JsApi.call_function_value _ _ _ := starved None;
  JsApi.call_c_function_direct := @JsApi.call_c_function_direct base;
  JsApi.eval_value _ := starved None;
  typed_array_get_element _ _ := starved (UNDEFINED W);
  typed_array_set_element _ _ _ := starved false
|}.
Definition host_of `{Ev : JsEval} `{B : JsBuiltins} (fuel : nat) : JsHost := {|
  JsApi.call_closure_with_this f this args := settle (call_closure_with_this fuel f this args);
  JsApi.call_function_value f this args := settle (call_function_value fuel f this args);
  JsApi.call_c_function_direct := call_c_function_direct;
  JsApi.eval_value e := settle (eval_value e);
  typed_array_get_element := get_element;
  typed_array_set_element := set_element
|}.
Fixpoint hosts (base : JsHost) `{B : JsBuiltins} `{Methods : JsMethods} (n : nat) : JsHost :=
  match n with
  | O => out_of_fuel base
  | S n' => @host_of (engine (hosts base n') n') B n'
  end.
(** [base] has the native functions. *)
Definition interpreter (base : JsHost) `{B : JsBuiltins} `{Methods : JsMethods} (n : nat) : JsEval := engine (hosts base n) n.
