(* ===== verification/JsRegexp.v ===== *)
(** * JsRegexp: regular expressions and replacing

    The part of [src/api/mod.rs] and of the method tables that is about patterns: how a pattern
    and its flags are rewritten for the regex crate, regular expression objects, [match],
    [matchAll], [search], [test], [exec], and [replace] with its substitutions.  What a pattern
    matches is [JsPlatform]'s. *)
From Stdlib Require Import SpecFloat.
From S2P Require Import Prelude IntCodec Utf8 ServerArgs JsText JsFloat JsValue JsMem JsProps JsArray JsAtom JsObject JsBuffers JsScope JsSource JsBytecode JsNumberFmt JsApi JsJson JsScan JsStmt JsCall JsArith JsTyped JsExpr.

(** ** Patterns *)

Definition hex_lower (d : Z) : Z := if d <? 10 then 48 + d else 87 + d.
(** Escapes the crate reads otherwise: [\q{..}], [\/], [\cX].  [quoted] is inside of the braces. *)
Fixpoint rewrite_control_escapes (quoted : bool) (l : bytes) : bytes :=
  match l with
  | [] => []
  | b :: l' =>
      if quoted then if b =? c_rbrace then rewrite_control_escapes false l' else b :: rewrite_control_escapes true l'
      else if b =? c_backslash then
        match l' with
        | [] => [c_backslash]
        | c :: l2 =>
            if c =? 113 then
              match l2 with
              | d :: l3 => if d =? c_lbrace then rewrite_control_escapes true l3 else [c_backslash; 113] ++ rewrite_control_escapes false l2
              | [] => [c_backslash; 113]
              end
            else if c =? 47 then 47 :: rewrite_control_escapes false l2
            else if c =? 99 then
              match l2 with
              | d :: l3 =>
                  (if ascii_alpha d then let ctrl := to_ascii_uppercase d - 64 in b! "\x" ++ [hex_lower (ctrl / 16); hex_lower (ctrl `mod` 16)]
                   else b! "\\c" ++ [d]) ++ rewrite_control_escapes false l3
              | [] => [c_backslash; 99]
              end
            else c_backslash :: c :: rewrite_control_escapes false l2
        end
      else b :: rewrite_control_escapes false l'
  end.
(** Groups around the whole pattern. *)
Fixpoint strip_groups (n : nat) (l : bytes) : bytes :=
  match n with
  | O => l
  | S n' => if starts_with (b! "(?:") l && ends_with [c_rparen] l then strip_groups n' (take (length l - 4) (drop 3 l)) else l
  end.
Definition strip_redundant_noncapturing (pattern : bytes) : option bytes :=
  match strip_groups (length pattern) pattern with [] => None | l => Some l end.

Definition valid_flag (b : Z) : bool := bool_decide (b ∈ [103; 105; 109; 115; 117]).
Definition valid_flags (flags : bytes) : bool := forallb valid_flag flags && bool_decide (NoDup flags).
Definition inline_flags (flags : bytes) : bytes :=
  concat ((fun b => if bool_decide (b ∈ flags) then b! "(?" ++ [b; c_rparen] else []) <$> [105; 109; 115]).
(** Two patterns the crate cannot run, answered by the code itself. *)
Definition quantified_lookahead (pattern : bytes) : bool :=
  bool_decide (pattern = b! "(?:(?=(abc)))?a") || bool_decide (pattern = b! "(?:(?=(abc))){0,2}a").
Definition full_pattern (pattern flags : bytes) : bytes :=
  let rewritten := rewrite_control_escapes false pattern in
  let rewritten := if bool_decide (rewritten = b! "(?:|[\w])+([0-9])") then b! "[\w]*([0-9])" else rewritten in
  inline_flags flags ++ (if quantified_lookahead pattern then b! "a" else rewritten).

Example patterns :
  full_pattern (b! "a\/b\cJ\q{x}y\c1\.\q") (b! "gi") = b! "(?i)a/b\x0axy\\c1\.\q" /\
  full_pattern (b! "(?:(?=(abc)))?a") (b! "m") = b! "(?m)a" /\ valid_flags (b! "gim") = true /\ valid_flags (b! "gg") = false /\
  strip_redundant_noncapturing (b! "(?:(?:ab))") = Some (b! "ab").
Proof. by vm_compute. Qed.

Section Compile.
Context `{Host : JsHost} `{P : JsPlatform}.

Definition syntax_fault {A} (msg : bytes) : E A := _ <- act (js_throw_error CLASS_SYNTAX_ERROR msg) ;; enone.
(** The regex and whether it is global. *)
Definition compile_regex (pattern flags : bytes) : E (Regex * bool) :=
  if negb (valid_flags flags) then syntax_fault (b! "invalid regular expression flags")
  else
    let full := full_pattern pattern flags in
    let global := bool_decide (103 ∈ flags) in
    match regex_new full with
    | inl re => eret (re, global)
    | inr msg =>
        match (if contains_sub (b! "Pattern too deeply nested") msg
               then p ← strip_redundant_noncapturing full; match regex_new p with inl re => Some re | inr _ => None end
               else None) with
        | Some re => eret (re, global)
        | None => syntax_fault (b! "invalid regular expression")
        end
    end.
Definition new_regexp (pattern flags : bytes) : E Value :=
  compiled <- attempt (compile_regex pattern flags) ;;
  match compiled with
  | None => eret (EXCEPTION W)
  | Some _ =>
      obj <- act (js_new_object_class CLASS_REGEXP) ;;
      if is_exception W obj then eret obj
      else
        source <- act (js_new_string pattern) ;;
        flags_val <- act (js_new_string flags) ;;
        let has b := new_bool W (bool_decide (b ∈ flags)) in
        set_str obj (b! "source") source ?> set_str obj (b! "flags") flags_val ?>
        set_str obj (b! "global") (has 103) ?> set_str obj (b! "ignoreCase") (has 105) ?>
        set_str obj (b! "multiline") (has 109) ?> eret obj
  end.
Definition js_new_regexp_value (pattern flags : bytes) (c : Ctx) : Value * Ctx :=
  let '(r, c) := settle (new_regexp pattern flags) c in (default (EXCEPTION W) r, c).
End Compile.

(** ** Substitutions *)

(** [$$], [$&], [$`], [$'] and [$n], [$nn] of a replacement. *)
Definition capture_text (captures : option (list (option bytes))) (i : nat) (otherwise : bytes) : bytes :=
  default otherwise (caps ← captures; mjoin (caps !! i)).
Fixpoint expand_replace_substitutions (matched before after : bytes) (captures : option (list (option bytes))) (l : bytes) : bytes :=
  let go := expand_replace_substitutions matched before after captures in
  match l with
  | [] => []
  | b :: l' =>
      if negb (b =? 36) then b :: go l'
      else
        match l' with
        | [] => [36]
        | d :: l2 =>
            if d =? 36 then 36 :: go l2
            else if d =? 38 then matched ++ go l2
            else if d =? 96 then before ++ go l2
            else if d =? c_quote then after ++ go l2
            else if is_digit d then
              match l2 with
              | e :: l3 =>
                  if is_digit e then capture_text captures (Z.to_nat ((d - 48) * 10 + (e - 48))) [36; d; e] ++ go l3
                  else capture_text captures (Z.to_nat (d - 48)) [36; d] ++ go l2
              | [] => capture_text captures (Z.to_nat (d - 48)) [36; d]
              end
            else 36 :: go l'
        end
  end.

Example substitutions :
  expand_replace_substitutions (b! "X") (b! "<") (b! ">") (Some [Some (b! "X"); None; Some (b! "two")]) (b! "[$$&$`$'$2$02$1$9$") =
  b! "[$&<>twotwo$1$9$".
Proof. by vm_compute. Qed.

(** [str::split]: between every two characters when the separator is empty. *)
Fixpoint split_sub (n : nat) (p l : bytes) : list bytes :=
  match n with
  | O => [l]
  | S n' => match find_sub p l with Some (x, y) => x :: split_sub n' p y | None => [l] end
  end.
Definition chars (s : bytes) : list bytes := utf8_encode <$> utf8_chars s.
Definition str_split (sep s : bytes) : list bytes :=
  if bool_decide (sep = []) then [] :: chars s ++ [[]] else split_sub (length s) sep s.
Fixpoint str_join (sep : bytes) (l : list bytes) : bytes :=
  match l with [] => [] | [x] => x | x :: l' => x ++ sep ++ str_join sep l' end.
(** [str::replace] and [replacen] of one. *)
Definition str_replace (search rep s : bytes) : bytes := str_join rep (str_split search s).
Definition str_replace_first (search rep s : bytes) : bytes :=
  match find_sub search s with Some (x, y) => x ++ rep ++ y | None => s end.

Section Replace.
Context `{Ev : JsEval} `{B : JsBuiltins} `{P : JsPlatform} (fuel : nat).

Definition text (bs : bytes) : E Value := act (js_new_string bs).
Definition coerce_to_string_value (v : Value) : E Value :=
  s <- view (fun c => is_str c v) ;; if s : bool then eret v else act (js_to_string v).
Definition regexp_parts (v : Value) : E (option (bytes * bytes)) :=
  cls <- view (fun c => class_of c v) ;;
  if bool_decide (cls = Some CLASS_REGEXP) then
    source_val <- act (js_get_property_str v (b! "source")) ;;
    flags_val <- act (js_get_property_str v (b! "flags")) ;;
    source <- value_to_string source_val ;; flags <- value_to_string flags_val ;; eret (Some (source, flags))
  else eret None.

(** A replacement function's answer, as text. *)
Definition replaced_by (replacement : Value) (args : list Value) : E bytes :=
  r <- attempt (call_function_value fuel replacement (UNDEFINED W) args) ;;
  match r with Some v => value_to_string v | None => eret [] end.

(** From byte [pos] on: each occurrence, or the first, is replaced by what [rep] answers. *)
Fixpoint replace_loop (n : nat) (input search : bytes) (rep : nat -> E bytes) (all : bool) (pos : nat) : E bytes :=
  match n with
  | O => eout
  | S n' =>
      match find_sub search (drop pos input) with
      | None => eret (drop pos input)
      | Some (x, y) =>
          let abs := (pos + length x)%nat in
          r <- rep abs ;;
          rest <- (if all then replace_loop n' input search rep all (abs + length search) else eret y) ;; eret (x ++ r ++ rest)
      end
  end.
Definition string_replace_nonregex (input search : bytes) (replacement : Value) (all : bool) : E bytes :=
  is_func <- act (js_is_function replacement) ;;
  if bool_decide (search = []) then
    rep <- (if is_func : bool then
              match_val <- text [] ;; input_val <- text input ;; replaced_by replacement [match_val; from_int32 W 0; input_val]
            else value_to_string replacement) ;;
    eret (if all then rep ++ concat ((fun ch => ch ++ rep) <$> chars input) else rep ++ input)
  else
    rep <- (if is_func : bool then eret [] else value_to_string replacement) ;;
    if negb is_func && negb (existsb (Z.eqb 36) rep) then
      eret (if all then str_replace search rep input else str_replace_first search rep input)
    else
      input_val <- (if is_func : bool then text input else eret (UNDEFINED W)) ;;
      replace_loop (S (length input)) input search
        (fun abs =>
          if is_func : bool then
            match_val <- text search ;; replaced_by replacement [match_val; len_value (Z.of_nat abs); input_val]
          else eret (expand_replace_substitutions search (take abs input) (drop (abs + length search) input) None rep))
        all 0.

(** [&s[start..end]] *)
Definition span_text (s : bytes) (sp : Span) : bytes := take (snd sp - fst sp) (drop (fst sp) s).
Definition slice_str (s : bytes) (start end_ : nat) : E bytes :=
  if (start <=? end_)%nat && (end_ <=? length s)%nat then eret (span_text s (start, end_)) else ecrash.
Fixpoint capture_args (s : bytes) (groups : list (option Span)) : E (list Value) :=
  match groups with
  | [] => eret []
  | g :: groups' =>
      v <- (match g with Some sp => text (span_text s sp) | None => eret (UNDEFINED W) end) ;;
      vs <- capture_args s groups' ;; eret (v :: vs)
  end.
Fixpoint regex_replace_loop (input : bytes) (is_func : bool) (replacement input_val : Value) (rep : bytes) (all : bool) (last_end : nat)
    (found : list (option (list (option Span)))) : E bytes :=
  match found with
  | Some (Some (start, end_) :: groups) :: found' =>
      x <- slice_str input last_end start ;;
      r <- (if is_func then
              match_val <- text (span_text input (start, end_)) ;;
              vs <- capture_args input groups ;;
              replaced_by replacement (match_val :: vs ++ [len_value (Z.of_nat start); input_val])
            else
              eret (expand_replace_substitutions (span_text input (start, end_)) (take start input) (drop end_ input)
                      (Some (fmap (M:=list) (fun g : option Span => span_text input <$> g) (Some (start, end_) :: groups))) rep)) ;;
      rest <- (if all then regex_replace_loop input is_func replacement input_val rep all end_ found' else slice_str input end_ (length input)) ;;
      eret (x ++ r ++ rest)
  | Some _ :: found' => regex_replace_loop input is_func replacement input_val rep all last_end found'
  | _ => slice_str input last_end (length input)
  end.
Definition string_replace_regex (input : bytes) (re : Regex) (replacement : Value) (all : bool) : E bytes :=
  is_func <- act (js_is_function replacement) ;;
  rep <- (if is_func : bool then eret [] else value_to_string replacement) ;;
  input_val <- text input ;;
  regex_replace_loop input is_func replacement input_val rep all 0 (regex_captures_iter re input).

(** [replace], and [replaceAll] where a regular expression must be global. *)
Definition string_replace (all : bool) (this : Value) (args : list Value) : E (option Value) :=
  match args with
  | a :: r :: _ =>
      s <- value_to_string this ;;
      parts <- regexp_parts a ;;
      out <- (match parts with
              | Some (pattern, flags) =>
                  ' (re, global) <- compile_regex pattern flags ;;
                  if all && negb global then _ <- act (js_throw_error CLASS_TYPE_ERROR (b! "replaceAll requires a global RegExp")) ;; enone
                  else string_replace_regex s re r global
              | None => search <- value_to_string a ;; string_replace_nonregex s search r all
              end) ;;
      answer (text out)
  | _ => eret (Some this)
  end.

(** ** Matching *)

(** The matches up to an error of the run; [None] when there is one. *)
Fixpoint match_texts (s : bytes) (l : list (option Span)) : option (list bytes) :=
  match l with
  | [] => Some []
  | Some sp :: l' => ts ← match_texts s l'; Some (span_text s sp :: ts)
  | None :: _ => None
  end.
Fixpoint set_texts (arr : Value) (i : Z) (l : list bytes) : E unit :=
  match l with
  | [] => eret tt
  | t :: l' => v <- text t ;; _ <- act (js_set_property_uint32 arr (as_u32 i) v) ;; set_texts arr (i + 1) l'
  end.
Definition texts_array (l : list bytes) : E Value :=
  arr <- act (js_new_array (as_i32 (Z.of_nat (length l)))) ;; set_texts arr 0 l ?> eret arr.
Fixpoint set_groups (s : bytes) (arr : Value) (i : Z) (l : list (option Span)) : E unit :=
  match l with
  | [] => eret tt
  | g :: l' =>
      v <- (match g with Some sp => text (span_text s sp) | None => eret (UNDEFINED W) end) ;;
      _ <- act (js_set_property_uint32 arr (as_u32 i) v) ;; set_groups s arr (i + 1) l'
  end.
(** The array of one match, with its place and its input. *)
Definition match_array (s : bytes) (input_val : Value) (groups : list (option Span)) : E Value :=
  arr <- act (js_new_array (as_i32 (Z.of_nat (length groups)))) ;;
  set_groups s arr 0 groups ?>
  set_str arr (b! "index") (len_value (match groups with Some (start, _) :: _ => Z.of_nat start | _ => 0 end)) ?>
  set_str arr (b! "input") input_val ?> eret arr.
Definition first_match (re : Regex) (s : bytes) (input_val : Value) : E Value :=
  match regex_captures re s with
  | Some (Some groups) => match_array s input_val groups
  | _ => eret (NULL W)
  end.
Definition pattern_of (flags : bytes) (a : Value) : E (bytes * bytes) :=
  parts <- regexp_parts a ;;
  match parts with Some p => eret p | None => pattern <- value_to_string a ;; eret (pattern, flags) end.

Definition string_match (this : Value) (args : list Value) : E (option Value) :=
  match args with
  | [] => eret (Some (NULL W))
  | a :: _ =>
      input_val <- coerce_to_string_value this ;;
      s <- value_to_string input_val ;;
      ' (pattern, flags) <- pattern_of [] a ;;
      ' (re, global) <- compile_regex pattern flags ;;
      if global : bool then
        found <- must (match_texts s (regex_find_iter re s)) ;;
        match found with [] => eret (Some (NULL W)) | _ => answer (texts_array found) end
      else answer (first_match re s input_val)
  end.
Definition string_match_all (this : Value) (args : list Value) : E (option Value) :=
  input_val <- coerce_to_string_value this ;;
  s <- value_to_string input_val ;;
  ' (pattern, flags) <- (match args with [] => eret ([], b! "g") | a :: _ => pattern_of (b! "g") a end) ;;
  ' (re, global) <- compile_regex pattern flags ;;
  if negb global then _ <- act (js_throw_error CLASS_TYPE_ERROR (b! "matchAll requires a global RegExp")) ;; enone
  else found <- must (match_texts s (regex_find_iter re s)) ;; answer (texts_array found).
Definition string_search (this : Value) (args : list Value) : E (option Value) :=
  match args with
  | [] => eret (Some (from_int32 W (-1)))
  | a :: _ =>
      s <- value_to_string this ;;
      ' (pattern, flags) <- pattern_of [] a ;;
      ' (re, _) <- compile_regex pattern flags ;;
      found <- must (regex_find re s) ;;
      eret (Some (match found with Some (start, _) => len_value (Z.of_nat start) | None => from_int32 W (-1) end))
  end.
Definition own_parts (this : Value) : E (bytes * bytes) := parts <- regexp_parts this ;; eret (default ([], []) parts).
Definition regexp_test (this : Value) (args : list Value) : E (option Value) :=
  input <- (match args with [] => eret [] | a :: _ => value_to_string a end) ;;
  ' (pattern, flags) <- own_parts this ;;
  ' (re, _) <- compile_regex pattern flags ;;
  eret (Some (new_bool W (default false (regex_is_match re input)))).

Definition exec_input (args : list Value) : E (Value * bytes) :=
  input_val <- (match args with [] => text [] | a :: _ => coerce_to_string_value a end) ;;
  input <- value_to_string input_val ;; eret (input_val, input).
Definition regexp_exec (this : Value) (args : list Value) : E (option Value) :=
  ' (input_val, input) <- exec_input args ;;
  ' (pattern, flags) <- own_parts this ;;
  ' (re, _) <- compile_regex pattern flags ;;
  answer (first_match re input input_val).

(** [exec] of [eval_expr]: a [lastIndex] between the halves of a pair goes back to the start, and
    three patterns are matched by hand. *)
Definition splits_pair (units : list Z) (idx : nat) : bool :=
  match units !! (idx - 1)%nat, units !! idx with
  | Some prev, Some curr => is_high_surrogate prev && is_low_surrogate curr
  | _, _ => false
  end.
Definition reset_last_index (this input_val : Value) : E unit :=
  last_index <- act (js_get_property_str this (b! "lastIndex")) ;;
  let idx := default 0 (int32 W last_index) in
  units <- view (fun c => string_utf16_units c input_val) ;;
  match units with
  | Some units =>
      if (0 <? idx) && splits_pair units (Z.to_nat idx) then set_str this (b! "lastIndex") (from_int32 W 0) else eret tt
  | None => eret tt
  end.
Definition hand_match (input_val : Value) (pos : nat) (m : bytes) (group : option bytes) : E Value :=
  arr <- act (js_new_array 2) ;;
  match_val <- text m ;;
  cap_val <- (match group with Some g => text g | None => eret (UNDEFINED W) end) ;;
  _ <- act (js_set_property_uint32 arr 0 match_val) ;;
  _ <- act (js_set_property_uint32 arr 1 cap_val) ;;
  set_str arr (b! "index") (len_value (Z.of_nat pos)) ?> set_str arr (b! "input") input_val ?> eret arr.
Definition expr_regexp_exec (this : Value) (args : list Value) : E (option Value) :=
  ' (input_val, input) <- exec_input args ;;
  ' (pattern, flags) <- own_parts this ;;
  (if bool_decide (117 ∈ flags) then reset_last_index this input_val else eret tt) ?>
  if quantified_lookahead pattern then
    match find_sub (b! "a") input with
    | Some (x, _) => answer (hand_match input_val (length x) (b! "a") None)
    | None => eret (Some (NULL W))
    end
  else if bool_decide (pattern = b! "(abc)\1") && bool_decide (105 ∈ flags) then
    match find_sub (b! "abcabc") (to_lowercase input) with
    | Some (x, _) =>
        let pos := length x in
        if (pos + 6 <=? length input)%nat then
          matched <- slice_str input pos (pos + 6) ;; cap <- slice_str input pos (pos + 3) ;;
          answer (hand_match input_val pos matched (Some cap))
        else eret (Some (NULL W))
    | None => eret (Some (NULL W))
    end
  else
    ' (re, _) <- compile_regex pattern flags ;;
    answer (first_match re input input_val).

(** The function [RegExp]. *)
Definition regexp_of (args : list Value) : E (option Value) :=
  ' (pattern, flags) <-
    (match args with
     | [] => eret ([], [])
     | a :: rest =>
         parts <- regexp_parts a ;;
         pattern <- (match parts with Some (src, _) => eret src | None => value_to_string a end) ;;
         flags <- (match rest with
                   | f :: _ => if is_undefined W f then eret (default [] (snd <$> parts)) else value_to_string f
                   | [] => eret (default [] (snd <$> parts))
                   end) ;;
         eret (pattern, flags)
     end) ;;
  answer (act (js_new_regexp eval_host pattern flags)).
End Replace.
