(* ===== verification/JsStrings.v ===== *)
(** * JsStrings: the methods of strings

    The [string_] markers of the two method tables ([api/eval_expr.rs], [api/eval_program.rs])
    without regular expressions, and the statics of [String].  Where the tables differ there are
    two definitions, [expr_] for the first.  Positions are UTF-16 units unless said otherwise; a
    slice out of range is a panic. *)
From Stdlib Require Import SpecFloat.
From S2P Require Import Prelude IntCodec Utf8 ServerArgs JsText JsFloat JsValue JsMem JsProps JsArray JsAtom JsObject JsBuffers JsScope JsSource JsBytecode JsNumberFmt JsApi JsJson JsScan JsStmt JsCall JsArith JsTyped JsExpr JsRegexp.

(** ** Bounds *)

Definition clamp_index (len i : Z) : Z := Z.min len (Z.max 0 i).
Definition substring_bounds (len start end_ : Z) : Z * Z :=
  let s := clamp_index len start in
  let e := clamp_index len end_ in (Z.min s e, Z.max s e).
(** Negative ones count from the end. *)
Definition slice_index (len i : Z) : Z := if i <? 0 then Z.max 0 (len + i) else Z.min len i.
Definition slice_bounds (len start end_ : Z) : Z * Z :=
  let s := slice_index len start in (s, Z.max s (slice_index len end_)).
(** [start + count] is an [i32]. *)
Definition substr_bounds (len start : Z) (count : option Z) : Z * Z :=
  let s := slice_index len start in
  (s, Z.min len (as_i32 (s + match count with Some n => Z.max 0 n | None => len - s end))).

Definition sub_list (l : list Z) (s e : Z) : list Z := take (Z.to_nat (e - s)) (drop (Z.to_nat s) l).
(** [&units[s..e]] *)
Definition slice_units (units : list Z) (se : Z * Z) : E (list Z) :=
  let '(s, e) := se in
  if (0 <=? s) && (s <=? e) && (e <=? Z.of_nat (length units)) then eret (sub_list units s e) else ecrash.
Definition unit_count (units : list Z) : Z := as_i32 (Z.of_nat (length units)).

(** ** Searching *)

(** How many elements come before the first occurrence at or after [start]. *)
Definition find_from (needle hay : list Z) (start : nat) : option nat :=
  (fun r : list Z * list Z => (start + length r.1)%nat) <$> find_sub needle (drop start hay).
(** The last occurrence that starts at [at_most] or before. *)
Definition rfind_upto (needle hay : list Z) (at_most : nat) : option nat := rfind needle (take (at_most + length needle) hay).
Definition index_value (r : option nat) : Value := match r with Some i => len_value (Z.of_nat i) | None => from_int32 W (-1) end.

(** ** Code points *)

(** The code point at a unit: a pair is one. *)
Definition code_point_at (units : list Z) (i : nat) : option Z :=
  first ← units !! i;
  match units !! S i with
  | Some second =>
      if is_high_surrogate first && is_low_surrogate second
      then Some (65536 + (first - 55296) * 1024 + (second - 56320)) else Some first
  | None => Some first
  end.
(** The units of a code point that is no surrogate. *)
Definition code_point_units (n : Z) : option (list Z) :=
  if (n <? 0) || (1114111 <? n) || in_range 55296 57343 n then None
  else if n <=? 65535 then Some [n]
  else let v := n - 65536 in Some [55296 + Z.shiftr v 10; 56320 + Z.land v 1023].

(** ** Padding *)

(** [pad_len] bytes of repeated padding.  [None]: a character would be cut. *)
Definition padding (pad : bytes) (pad_len : nat) : option bytes :=
  let n := length pad in
  let rest := (pad_len `mod` n)%nat in
  if match pad !! rest with Some b => is_cont b | None => false end then None
  else Some (concat (replicate (pad_len / n)%nat pad) ++ take rest pad).

Example string_helpers :
  substring_bounds 5 7 2 = (2, 5) /\ slice_bounds 5 (-3) (-1) = (2, 4) /\ substr_bounds 5 (-2) None = (3, 5) /\
  find_from [1; 2] [1; 2; 3; 1; 2] 1 = Some 3%nat /\ rfind_upto [1; 2] [1; 2; 3; 1; 2] 2 = Some 0%nat /\
  code_point_units 128512 = Some [55357; 56832] /\ code_point_at [55357; 56832] 0 = Some 128512 /\
  padding (b! "ab") 5 = Some (b! "ababa") /\ padding [195; 169] 3 = None.
Proof. by vm_compute. Qed.

Section Strings.
Context `{Ev : JsEval} `{B : JsBuiltins} `{P : JsPlatform} (fuel : nat).

Definition text_of (v : Value) : E (option bytes) := view (fun c => str_of c v ≫= from_utf8).
Definition units_of (v : Value) : E (option (list Z)) := view (fun c => string_utf16_units c v).
Definition units_text (units : list Z) : E Value := text (utf16_units_to_string_preserve_surrogates units).
Definition int_or (otherwise : Z) (v : option Value) : Z := default otherwise (v ≫= int32 W).

(** ** Parts of a string *)

Definition string_char_at (this : Value) (args : list Value) : E (option Value) :=
  match args with
  | [a] =>
      match int32 W a with
      | Some idx =>
          units <- units_of this ;;
          match units with
          | Some us => answer (units_text (if 0 <=? idx then option_list (us !! Z.to_nat idx) else []))
          | None => pass
          end
      | None => pass
      end
  | _ => pass
  end.
Definition cut_units (units : list Z) (se : Z * Z) : E (option Value) := us <- slice_units units se ;; answer (units_text us).
Definition string_substring (this : Value) (args : list Value) : E (option Value) :=
  units <- (if in_range 1 2 (Z.of_nat (length args)) then units_of this else eret None) ;;
  match units with
  | Some us => let len := unit_count us in cut_units us (substring_bounds len (int_or 0 (args !! 0%nat)) (int_or len (args !! 1%nat)))
  | None => answer (text [])
  end.
Definition string_substr (this : Value) (args : list Value) : E (option Value) :=
  units <- (if (1 <=? length args)%nat then units_of this else eret None) ;;
  match units with
  | Some us =>
      cut_units us (substr_bounds (unit_count us) (int_or 0 (args !! 0%nat)) ((fun a => default 0 (int32 W a)) <$> args !! 1%nat))
  | None => answer (text [])
  end.
Definition string_slice_of (this : Value) (args : list Value) : E (option Value) :=
  units <- units_of this ;;
  match units with
  | Some us => let len := unit_count us in cut_units us (slice_bounds len (int_or 0 (args !! 0%nat)) (int_or len (args !! 1%nat)))
  | None => pass
  end.
Definition expr_string_slice : Value -> list Value -> E (option Value) := string_slice_of.
(** One or two arguments. *)
Definition string_slice (this : Value) (args : list Value) : E (option Value) :=
  if in_range 1 2 (Z.of_nat (length args)) then string_slice_of this args else pass.

(** ** Positions *)

(** Byte positions.  A needle longer than the string is a slice out of range. *)
Definition expr_string_index_of (this : Value) (args : list Value) : E (option Value) :=
  match args with
  | [a] =>
      ' (needle, hay) <- view (fun c => (str_of c a, str_of c this)) ;;
      match needle, hay with
      | Some needle, Some hay =>
          if bool_decide (needle = []) then eret (Some (from_int32 W 0))
          else if (length hay <? length needle)%nat then ecrash
          else eret (Some (index_value (find_from needle hay 0)))
      | _, _ => pass
      end
  | _ => pass
  end.
Definition expr_string_last_index_of (this : Value) (args : list Value) : E (option Value) :=
  match args with
  | [a] =>
      ' (needle, hay) <- view (fun c => (str_of c a, str_of c this)) ;;
      match needle, hay with
      | Some needle, Some hay =>
          eret (Some (if bool_decide (needle = []) then len_value (Z.of_nat (length hay)) else index_value (rfind needle hay)))
      | _, _ => pass
      end
  | _ => pass
  end.

(** [str::encode_utf16] *)
Definition needle_units (s : bytes) : list Z := concat (encode_utf16 <$> utf8_chars s).
Definition string_index_of (this : Value) (args : list Value) : E (option Value) :=
  match args with
  | [] => pass
  | a :: _ =>
      units <- units_of this ;;
      match units with
      | None => pass
      | Some hay =>
          needle_str <- value_to_string a ;;
          let needle := needle_units needle_str in
          let len := unit_count hay in
          start <- (match args !! 1%nat with Some s => n <- attempt (js_to_int32 s) ;; eret (default 0 n) | None => eret 0 end) ;;
          let start := clamp_index len start in
          eret (Some (if bool_decide (needle = []) then from_int32 W start else index_value (find_from needle hay (Z.to_nat start))))
      end
  end.
Definition string_last_index_of (this : Value) (args : list Value) : E (option Value) :=
  match args with
  | [] => pass
  | a :: _ =>
      units <- units_of this ;;
      match units with
      | None => pass
      | Some hay =>
          needle_str <- value_to_string a ;;
          let needle := needle_units needle_str in
          let len := unit_count hay in
          start <- (match args !! 1%nat with Some s => n <- attempt (js_to_int32 s) ;; eret (default (len - 1) n) | None => eret (len - 1) end) ;;
          let start := if len <=? start then len - 1 else start in
          let start := if start <? 0 then len + start else start in
          eret (Some (if bool_decide (needle = []) then from_int32 W (Z.max (-1) start)
                      else if start <? 0 then from_int32 W (-1)
                      else index_value (rfind_upto needle hay (Nat.min (Z.to_nat start) (length hay - length needle)))))
      end
  end.

(** ** Building *)

Definition concat_arg (bools : bool) (c : Ctx) (a : Value) : bytes :=
  match str_of c a, int32 W a with
  | Some bs, _ => default [] (from_utf8 bs)
  | None, Some n => int_to_string n
  | None, None =>
      if bools && (a =? TRUE W) then b! "true" else if bools && (a =? FALSE W) then b! "false" else []
  end.
Definition concat_texts (bools : bool) (this : Value) (args : list Value) : E (option Value) :=
  out <- view (fun c => default [] (str_of c this ≫= from_utf8) ++ concat (concat_arg bools c <$> args)) ;; answer (text out).
Definition expr_string_concat : Value -> list Value -> E (option Value) := concat_texts true.
Definition string_concat : Value -> list Value -> E (option Value) := concat_texts false.

(** The parts of [this] between separators, when both are UTF-8. *)
Definition split_parts (this sep : Value) : E (option (list bytes)) :=
  view (fun c => s ← str_of c this ≫= from_utf8; p ← str_of c sep ≫= from_utf8; Some (str_split p s)).
Definition parts_array (parts : list bytes) : E (option Value) := arr <- act (js_new_array 0) ;; set_texts arr 0 parts ?> eret (Some arr).
Definition expr_string_split (this : Value) (args : list Value) : E (option Value) :=
  match args with
  | [sep] => parts <- split_parts this sep ;; parts_array (default [] parts)
  | _ => answer (act (js_new_array 0))
  end.
Definition string_split (this : Value) (args : list Value) : E (option Value) :=
  match args with
  | sep :: _ => parts <- split_parts this sep ;; match parts with Some l => parts_array l | None => pass end
  | [] => pass
  end.

(** A method of the text alone, and no method of anything else. *)
Definition string_map (f : bytes -> bytes) (this : Value) (_ : list Value) : E (option Value) :=
  s <- text_of this ;; match s with Some s => answer (text (f s)) | None => eret (Some this) end.
Definition expr_string_repeat (this : Value) (args : list Value) : E (option Value) :=
  match args with
  | [a] =>
      s <- text_of this ;;
      match int32 W a, s with
      | Some n, Some s => answer (text (concat (replicate (Z.to_nat n) s)))
      | _, _ => eret (Some this)
      end
  | _ => eret (Some this)
  end.
Definition string_repeat (this : Value) (args : list Value) : E (option Value) :=
  match args with
  | [a] =>
      match int32 W a with
      | Some n => s <- value_to_string this ;; answer (text (concat (replicate (Z.to_nat n) s)))
      | None => eret (Some this)
      end
  | _ => eret (Some this)
  end.

(** [startsWith], [endsWith], [includes]: of strings, or of whatever converts to them. *)
Definition expr_string_test (test : bytes -> bytes -> bool) (this : Value) (args : list Value) : E (option Value) :=
  match args with
  | [a] =>
      r <- view (fun c => s ← str_of c this ≫= from_utf8; p ← str_of c a ≫= from_utf8; Some (test p s)) ;;
      eret (Some (new_bool W (default false r)))
  | _ => eret (Some (FALSE W))
  end.
Definition string_test (test : bytes -> bytes -> bool) (this : Value) (args : list Value) : E (option Value) :=
  match args with
  | [a] => s <- value_to_string this ;; p <- value_to_string a ;; eret (Some (new_bool W (test p s)))
  | _ => eret (Some (FALSE W))
  end.

(** Lengths of [padStart] and [padEnd] are bytes.  A negative length is a huge one, which does
    not fit into memory. *)
Definition string_pad (at_start : bool) (this : Value) (args : list Value) : E (option Value) :=
  match args !! 0%nat ≫= int32 W with
  | None => eret (Some this)
  | Some target =>
      s <- text_of this ;;
      match s with
      | None => eret (Some this)
      | Some s =>
          pad <- view (fun c => default [32] (a ← args !! 1%nat; str_of c a ≫= from_utf8)) ;;
          let pad_len := target - Z.of_nat (length s) in
          if (0 <=? target) && (pad_len <=? 0) then eret (Some this)
          else if bool_decide (pad = []) then answer (text s)
          else if target <? 0 then ecrash
          else
            match padding pad (Z.to_nat pad_len) with
            | Some p => answer (text (if at_start then p ++ s else s ++ p))
            | None => ecrash
            end
      end
  end.

(** ** Codes *)

Definition expr_string_char_code_at (this : Value) (args : list Value) : E (option Value) :=
  match args !! 0%nat ≫= int32 W with
  | Some idx =>
      units <- units_of this ;;
      match (us ← units; if 0 <=? idx then us !! Z.to_nat idx else None) with
      | Some u => eret (Some (from_int32 W u))
      | None => number_result S754_nan
      end
  | None => number_result S754_nan
  end.
Definition expr_string_code_point_at (this : Value) (args : list Value) : E (option Value) :=
  let idx := int_or 0 (args !! 0%nat) in
  units <- units_of this ;;
  match (us ← units; if 0 <=? idx then code_point_at us (Z.to_nat idx) else None) with
  | Some n => number_result (f64_of_int n)
  | None => number_result S754_nan
  end.
(** [charCodeAt] and [codePointAt] of the other table count characters. *)
Definition string_char_at_code (this : Value) (args : list Value) : E (option Value) :=
  let idx := int_or 0 (args !! 0%nat) in
  s <- text_of this ;;
  match (s ← s; if (0 <=? idx) && (idx <? Z.of_nat (length s)) then utf8_chars s !! Z.to_nat idx else None) with
  | Some ch => number_result (f64_of_int ch)
  | None => number_result S754_nan
  end.
Definition string_same (this : Value) (_ : list Value) : E (option Value) := eret (Some this).

(** *** Statics *)

(** [n as u16] of a float saturates. *)
Fixpoint char_codes (args : list Value) : E (list Z) :=
  match args with
  | [] => eret []
  | a :: args' =>
      u <- (match int32 W a with
            | Some code => eret [as_u16 code]
            | None => n <- attempt (to_number a) ;; eret (match n with Some n => [f64_cast 0 65535 n] | None => [] end)
            end) ;;
      us <- char_codes args' ;; eret (u ++ us)
  end.
Definition string_from_char_code (_ : Value) (args : list Value) : E (option Value) := us <- char_codes args ;; answer (units_text us).
Fixpoint code_points (args : list Value) : E (list Z) :=
  match args with
  | [] => eret []
  | a :: args' =>
      n <- attempt (to_number a) ;;
      match (match default S754_nan n with S754_nan | S754_infinity _ => None | f => code_point_units (trunc_i64 f) end) with
      | Some u => us <- code_points args' ;; eret (u ++ us)
      | None => _ <- act (js_throw_error CLASS_RANGE_ERROR (b! "Invalid code point")) ;; enone
      end
  end.
Definition string_from_code_point (_ : Value) (args : list Value) : E (option Value) := us <- code_points args ;; answer (units_text us).

(** ** The tables *)

Definition Method : Type := Value -> list Value -> E (option Value).
Definition text_methods : list (string * Method) :=
  [ ("string_charAt", string_char_at); ("string_substring", string_substring); ("string_substr", string_substr);
    ("string_toUpperCase", string_map to_uppercase); ("string_toLowerCase", string_map to_lowercase);
    ("string_toLocaleUpperCase", string_map to_uppercase); ("string_toLocaleLowerCase", string_map to_lowercase);
    ("string_trim", string_map trim); ("string_trimStart", string_map trim_start); ("string_trimEnd", string_map trim_end);
    ("string_match", string_match); ("string_matchAll", string_match_all); ("string_search", string_search);
    ("string_replace", string_replace fuel false); ("string_replaceAll", string_replace fuel true); ("regexp_test", regexp_test) ]%string.
Definition expr_string_table : list (string * Method) :=
  text_methods ++
  [ ("string_concat", expr_string_concat); ("string_indexOf", expr_string_index_of); ("string_lastIndexOf", expr_string_last_index_of);
    ("string_slice", expr_string_slice); ("string_split", expr_string_split);
    ("string_startsWith", expr_string_test starts_with); ("string_endsWith", expr_string_test ends_with);
    ("string_includes", expr_string_test contains_sub); ("string_repeat", expr_string_repeat);
    ("string_charCodeAt", expr_string_char_code_at); ("string_codePointAt", expr_string_code_point_at);
    ("string_padStart", string_pad true); ("string_padEnd", string_pad false); ("regexp_exec", expr_regexp_exec);
    ("String_fromCharCode", string_from_char_code); ("String_fromCodePoint", string_from_code_point) ]%string.
Definition string_table : list (string * Method) :=
  text_methods ++
  [ ("string_concat", string_concat); ("string_indexOf", string_index_of); ("string_lastIndexOf", string_last_index_of);
    ("string_slice", string_slice); ("string_split", string_split);
    ("string_startsWith", string_test starts_with); ("string_endsWith", string_test ends_with);
    ("string_includes", string_test contains_sub); ("string_repeat", string_repeat);
    ("string_charCodeAt", string_char_at_code); ("string_codePointAt", string_char_at_code);
    ("string_normalize", string_same); ("regexp_exec", regexp_exec) ]%string.
End Strings.
