(* ===== verification/JsArrayMethods.v ===== *)
(** * JsArrayMethods: the methods of arrays

    The [array_] markers of the two method tables ([api/eval_expr.rs], [api/eval_program.rs]),
    [flatten_array] of [helpers.rs], and the statics of [Array].  A method reads and writes by
    index through the property operations, so [this] may be any value with a length, and a
    callback may change it meanwhile.  Sums of lengths are [i32], wrapped. *)
From Stdlib Require Import SpecFloat.
From S2P Require Import Prelude IntCodec Utf8 ServerArgs JsText JsFloat JsValue JsMem JsProps JsArray JsAtom JsObject JsBuffers JsScope JsSource JsBytecode JsNumberFmt JsApi JsJson JsScan JsStmt JsCall JsArith JsTyped JsExpr JsRegexp JsStrings.

Definition js_array_pop `{JsHost} (arr : Value) (c : Ctx) : Value * Ctx :=
  let '(r, c) := on_heap (array_pop arr) c in
  match r with Some v => (v, c) | None => js_throw_error CLASS_TYPE_ERROR (b! "not an array") c end.

(** ** Loops over indices *)

Fixpoint for_up (n : nat) (i : Z) (body : Z -> E unit) : E unit :=
  match n with O => eret tt | S n' => body i ?> for_up n' (i + 1) body end.
Fixpoint for_down (n : nat) (i : Z) (body : Z -> E unit) : E unit :=
  match n with O => eret tt | S n' => body i ?> for_down n' (i - 1) body end.
(** [for i in lo..hi] and its reverse. *)
Definition range_up (lo hi : Z) (body : Z -> E unit) : E unit := for_up (Z.to_nat (hi - lo)) lo body.
Definition range_down (lo hi : Z) (body : Z -> E unit) : E unit := for_down (Z.to_nat (hi - lo)) (hi - 1) body.
(** The first answer, upwards or downwards. *)
Fixpoint find_up {A} (n : nat) (i : Z) (test : Z -> E (option A)) : E (option A) :=
  match n with
  | O => eret None
  | S n' => r <- test i ;; match r with Some x => eret (Some x) | None => find_up n' (i + 1) test end
  end.
Fixpoint find_down {A} (n : nat) (i : Z) (test : Z -> E (option A)) : E (option A) :=
  match n with
  | O => eret None
  | S n' => r <- test i ;; match r with Some x => eret (Some x) | None => find_down n' (i - 1) test end
  end.
(** An accumulator along the indices, upwards or downwards. *)
Fixpoint fold_up {A} (n : nat) (i : Z) (step : Z -> A -> E A) (acc : A) : E A :=
  match n with O => eret acc | S n' => acc <- step i acc ;; fold_up n' (i + 1) step acc end.
Fixpoint fold_down {A} (n : nat) (i : Z) (step : Z -> A -> E A) (acc : A) : E A :=
  match n with O => eret acc | S n' => acc <- step i acc ;; fold_down n' (i - 1) step acc end.

Section Arrays.
Context `{Ev : JsEval} `{B : JsBuiltins} `{P : JsPlatform} (fuel : nat).

Definition get_at (a : Value) (i : Z) : E Value := act (js_get_property_uint32 a (as_u32 i)).
Definition put_at (a : Value) (i : Z) (v : Value) : E unit := _ <- act (js_set_property_uint32 a (as_u32 i) v) ;; eret tt.
(** Element [src] of [from] becomes element [dst] of [to]. *)
Definition move_elem (from : Value) (src : Z) (to : Value) (dst : Z) : E unit := v <- get_at from src ;; put_at to dst v.
Definition len_int (a : Value) : E (option Z) := v <- act (js_get_property_str a s_length) ;; eret (int32 W v).
Definition len_of (a : Value) : E Z := n <- len_int a ;; eret (default 0 n).
(** [len as u32] rounds. *)
Definition rounds (len : Z) : nat := Z.to_nat (as_u32 len).
Definition set_len (a : Value) (n : Z) : E unit := set_str a s_length (from_int32 W n).
Definition is_array_value (v : Value) : E bool := view (fun c => bool_decide (class_of c v = Some CLASS_ARRAY)).

(** ** Ends *)

Fixpoint push_each (this : Value) (args : list Value) : E unit :=
  match args with [] => eret tt | a :: args' => _ <- act (js_array_push this a) ;; push_each this args' end.
Definition array_push_all (this : Value) (args : list Value) : E (option Value) :=
  push_each this args ?> answer (act (js_get_property_str this s_length)).
Definition array_pop_last (this : Value) (_ : list Value) : E (option Value) := answer (act (js_array_pop this)).
Definition array_shift (this : Value) (_ : list Value) : E (option Value) :=
  first_elem <- get_at this 0 ;;
  len <- len_int this ;;
  match len with
  | Some len =>
      if 0 <? len then
        range_up 0 (len - 1) (fun i => move_elem this (i + 1) this i) ?> set_len this (len - 1) ?> eret (Some first_elem)
      else eret (Some (UNDEFINED W))
  | None => eret (Some (UNDEFINED W))
  end.
Fixpoint put_all (a : Value) (i : Z) (vs : list Value) : E unit :=
  match vs with [] => eret tt | v :: vs' => put_at a i v ?> put_all a (i + 1) vs' end.
Definition array_unshift (this : Value) (args : list Value) : E (option Value) :=
  len <- len_int this ;;
  match len, args with
  | None, _ => eret (Some (UNDEFINED W))
  | Some len, [] => eret (Some (from_int32 W len))
  | Some len, _ =>
      let count := Z.of_nat (length args) in
      range_down 0 len (fun i => move_elem this i this (as_i32 (i + count))) ?>
      put_all this 0 args ?> set_len this (as_i32 (len + count)) ?> eret (Some (len_value (len + count)))
  end.

(** ** Texts *)

Definition elem_text (c : Ctx) (v : Value) : bytes :=
  match int32 W v, str_of c v with
  | Some n, _ => int_to_string n
  | None, Some bs => default [] (from_utf8 bs)
  | None, None => if v =? TRUE W then b! "true" else if v =? FALSE W then b! "false" else []
  end.
Definition join_with (sep : bytes) (this : Value) : E (option Value) :=
  len <- len_of this ;;
  out <- fold_up (Z.to_nat len) 0
    (fun i out =>
       let out := if 0 <? i then out ++ sep else out in
       v <- get_at this i ;;
       if is_undefined W v || is_null W v then eret out else t <- view (fun c => elem_text c v) ;; eret (out ++ t)) [] ;;
  answer (text out).
Definition separator_text (c : Ctx) (v : Value) : bytes :=
  match str_of c v, int32 W v with
  | Some bs, _ => default (b! ",") (from_utf8 bs)
  | None, Some n => int_to_string n
  | None, None => b! ","
  end.
Definition array_join (this : Value) (args : list Value) : E (option Value) :=
  sep <- (match args with
          | a :: _ => if a =? UNDEFINED W then eret (b! ",") else view (fun c => separator_text c a)
          | [] => eret (b! ",")
          end) ;;
  join_with sep this.
Definition array_to_string (this : Value) (_ : list Value) : E (option Value) := join_with (b! ",") this.

(** ** Parts *)

Definition array_reverse (this : Value) (_ : list Value) : E (option Value) :=
  len <- len_int this ;;
  (match len with
   | Some len =>
       range_up 0 (Z.quot len 2) (fun i =>
         left <- get_at this i ;; right <- get_at this (len - 1 - i) ;; put_at this i right ?> put_at this (len - 1 - i) left)
   | None => eret tt
   end) ?> eret (Some this).

(** Elements of an array argument, or the argument: their number, and where the next goes. *)
Fixpoint concat_length (total : Z) (args : list Value) : E Z :=
  match args with
  | [] => eret total
  | a :: args' =>
      arr <- is_array_value a ;;
      n <- (if arr : bool then len_of a else eret 1) ;; concat_length (as_i32 (total + n)) args'
  end.
Definition append_all (out src : Value) (len pos : Z) : E Z :=
  range_up 0 len (fun i => move_elem src i out (pos + i)) ?> eret (pos + Z.max 0 len).
Fixpoint concat_args (out : Value) (pos : Z) (args : list Value) : E unit :=
  match args with
  | [] => eret tt
  | a :: args' =>
      arr <- is_array_value a ;;
      pos <- (if arr : bool then len <- len_of a ;; append_all out a len pos else put_at out pos a ?> eret (pos + 1)) ;;
      concat_args out pos args'
  end.
Definition array_concat (this : Value) (args : list Value) : E (option Value) :=
  this_len <- len_of this ;;
  total <- concat_length this_len args ;;
  arr <- act (js_new_array total) ;;
  pos <- append_all arr this this_len 0 ;;
  concat_args arr pos args ?> eret (Some arr).

(** An index argument of [slice]: the end when it is no integer, or is not there. *)
Definition slice_arg (len : Z) (a : option Value) : Z :=
  match a ≫= int32 W with Some i => Z.min len (slice_index len i) | None => len end.
Definition array_slice (this : Value) (args : list Value) : E (option Value) :=
  len <- len_of this ;;
  let start := slice_arg len (args !! 0%nat) in
  let final_idx := slice_arg len (args !! 1%nat) in
  arr <- act (js_new_array (Z.max 0 (final_idx - start))) ;;
  range_up start final_idx (fun i => move_elem this i arr (i - start)) ?> eret (Some arr).
Definition array_at (this : Value) (args : list Value) : E (option Value) :=
  match args !! 0%nat ≫= int32 W with
  | Some index =>
      len <- len_of this ;;
      let actual := if index <? 0 then as_i32 (len + index) else index in
      if (0 <=? actual) && (actual <? len) then answer (get_at this actual) else eret (Some (UNDEFINED W))
  | None => eret (Some (UNDEFINED W))
  end.

(** Where [splice] starts and how much it deletes. *)
Definition splice_start (len : Z) (args : list Value) : Z :=
  match args !! 0%nat ≫= int32 W with Some s => slice_index len s | None => 0 end.
Definition splice_count (len start : Z) (args : list Value) : Z :=
  match args with
  | [] => 0
  | [_] => len - start
  | _ :: d :: _ => match int32 W d with Some n => Z.min (len - start) (Z.max 0 n) | None => len - start end
  end.
(** The tail moves to where the inserted items end. *)
Definition splice_move (this : Value) (start del_count item_count new_len : Z) : E unit :=
  if item_count <? del_count then
    range_up (start + item_count) new_len (fun i => move_elem this (i + (del_count - item_count)) this i)
  else if del_count <? item_count then
    let extra := item_count - del_count in
    push_each this (replicate (Z.to_nat extra) (UNDEFINED W)) ?>
    range_down (start + item_count) new_len (fun i => move_elem this (i - extra) this i)
  else eret tt.
Definition array_splice (this : Value) (args : list Value) : E (option Value) :=
  len <- len_of this ;;
  let start := splice_start len args in
  let del_count := splice_count len start args in
  let items := drop 2 args in
  let item_count := Z.of_nat (length items) in
  result <- act (js_new_array del_count) ;;
  range_up 0 del_count (fun i => move_elem this (start + i) result i) ?>
  let new_len := as_i32 (len + item_count - del_count) in
  splice_move this start del_count item_count new_len ?>
  put_all this start items ?> set_len this new_len ?> eret (Some result).

(** ** Searching: the same word, not an equal value *)

Definition index_or (r : option Z) : Value := from_int32 W (default (-1) r).
Definition same_at (this search : Value) (i : Z) : E (option Z) := v <- get_at this i ;; eret (if v =? search then Some i else None).
Definition index_of (this : Value) (args : list Value) (search : Value) : E (option Value) :=
  len <- len_of this ;;
  start <- (match args !! 1%nat with Some a => n <- attempt (js_to_int32 a) ;; eret (default 0 n) | None => eret 0 end) ;;
  let start := if start <? 0 then Z.max 0 (as_i32 (len + start)) else start in
  r <- find_up (Z.to_nat (len - start)) start (same_at this search) ;; eret (Some (index_or r)).
Definition last_index_of (this : Value) (args : list Value) (search : Value) : E (option Value) :=
  len <- len_of this ;;
  start <- (match args !! 1%nat with Some a => n <- attempt (js_to_int32 a) ;; eret (default (len - 1) n) | None => eret (len - 1) end) ;;
  let start := if len <=? start then len - 1 else start in
  let start := if start <? 0 then as_i32 (len + start) else start in
  r <- find_down (Z.to_nat (start + 1)) start (same_at this search) ;; eret (Some (index_or r)).
(** Without an argument: -1, or no such method. *)
Definition expr_array_index_of (this : Value) (args : list Value) : E (option Value) :=
  match args with a :: _ => index_of this args a | [] => eret (Some (from_int32 W (-1))) end.
Definition array_index_of (this : Value) (args : list Value) : E (option Value) :=
  match args with a :: _ => index_of this args a | [] => pass end.
Definition expr_array_last_index_of (this : Value) (args : list Value) : E (option Value) :=
  match args with a :: _ => last_index_of this args a | [] => eret (Some (from_int32 W (-1))) end.
Definition array_last_index_of (this : Value) (args : list Value) : E (option Value) :=
  match args with a :: _ => last_index_of this args a | [] => pass end.
Definition array_includes (this : Value) (args : list Value) : E (option Value) :=
  match args with
  | [a] =>
      len <- len_of this ;;
      r <- find_up (Z.to_nat len) 0 (same_at this a) ;; eret (Some (new_bool W (bool_decide (is_Some r))))
  | _ => eret (Some (FALSE W))
  end.
Definition array_fill (this : Value) (args : list Value) : E (option Value) :=
  match args with
  | a :: _ => len <- len_of this ;; range_up 0 len (fun i => put_at this i a) ?> eret (Some this)
  | [] => eret (Some this)
  end.

(** ** Callbacks: what fails has no answer and goes on *)

Definition callback (cb : Value) (args : list Value) : E (option Value) := attempt (call_closure fuel cb args).
Definition on_element (this cb : Value) (i : Z) : E (Value * option Value) :=
  v <- get_at this i ;; r <- callback cb [v; len_value i; this] ;; eret (v, r).
Definition says_yes (r : option Value) : E (option bool) :=
  match r with Some v => t <- view (fun c => JsApi.is_truthy c v) ;; eret (Some t) | None => eret None end.

Definition array_for_each (this cb : Value) : E (option Value) :=
  len <- len_of this ;;
  for_up (rounds len) 0 (fun i => _ <- on_element this cb i ;; eret tt) ?> eret (Some (UNDEFINED W)).
Definition array_map (this cb : Value) : E (option Value) :=
  len <- len_of this ;;
  result <- act (js_new_array len) ;;
  for_up (rounds len) 0 (fun i =>
    ' (_, r) <- on_element this cb i ;; match r with Some v => put_at result i v | None => eret tt end) ?>
  eret (Some result).
Definition array_filter (this cb : Value) : E (option Value) :=
  len <- len_of this ;;
  result <- act (js_new_array 0) ;;
  _ <- fold_up (rounds len) 0 (fun i idx =>
    ' (v, r) <- on_element this cb i ;;
    yes <- says_yes r ;; if default false yes then put_at result idx v ?> eret (idx + 1) else eret idx) 0 ;;
  eret (Some result).
Definition reduce_step (this cb : Value) (i : Z) (acc : Value) : E Value :=
  v <- get_at this i ;; r <- callback cb [acc; v; len_value i; this] ;; eret (default acc r).
Definition array_reduce (this cb : Value) (init : option Value) : E (option Value) :=
  len <- len_of this ;;
  acc <- (match init with Some v => eret v | None => if as_u32 len =? 0 then eret (UNDEFINED W) else get_at this 0 end) ;;
  let first := match init with Some _ => 0 | None => 1 end in
  answer (fold_up (rounds len - Z.to_nat first)%nat first (reduce_step this cb) acc).
Definition array_reduce_right (this cb : Value) (init : option Value) : E (option Value) :=
  len <- len_of this ;;
  if len <=? 0 then eret (Some (UNDEFINED W))
  else
    acc <- (match init with Some v => eret v | None => get_at this (len - 1) end) ;;
    let last := match init with Some _ => len - 1 | None => len - 2 end in
    answer (fold_down (Z.to_nat (last + 1)) last (reduce_step this cb) acc).
(** The first element whose callback says [yes]. *)
Definition array_search (this cb : Value) (yes : bool) : E (option (Z * Value)) :=
  len <- len_of this ;;
  find_up (rounds len) 0 (fun i =>
    ' (v, r) <- on_element this cb i ;;
    said <- says_yes r ;; eret (if bool_decide (said = Some yes) then Some (i, v) else None)).
Definition array_every (this cb : Value) : E (option Value) :=
  r <- array_search this cb false ;; eret (Some (new_bool W (negb (bool_decide (is_Some r))))).
Definition array_some (this cb : Value) : E (option Value) := r <- array_search this cb true ;; eret (Some (new_bool W (bool_decide (is_Some r)))).
Definition array_find (this cb : Value) : E (option Value) := r <- array_search this cb true ;; eret (Some (default (UNDEFINED W) (snd <$> r))).
Definition array_find_index (this cb : Value) : E (option Value) :=
  r <- array_search this cb true ;; eret (Some (match r with Some (i, _) => len_value i | None => from_int32 W (-1) end)).

(** A method that needs its first argument, and what it does without. *)
Definition with_callback (m : Value -> Value -> E (option Value)) (otherwise : E (option Value)) (this : Value) (args : list Value) : E (option Value) :=
  match args with cb :: _ => m this cb | [] => otherwise end.
Definition with_init (m : Value -> Value -> option Value -> E (option Value)) (otherwise : E (option Value)) (this : Value) (args : list Value) :
    E (option Value) := match args with cb :: rest => m this cb (head rest) | [] => otherwise end.
Definition empty_array : E (option Value) := answer (act (js_new_array 0)).

(** ** [flat], [flatMap], [sort] *)

Definition push_own (target v : Value) : E unit :=
  len <- len_int target ;; match len with Some idx => put_at target idx v | None => eret tt end.
(** [flatten_array]: the nesting of calls is the fuel. *)
Fixpoint flatten_array (n : nat) (source target : Value) (depth : Z) : E unit :=
  match n with
  | O => eout
  | S n' =>
      arr <- is_array_value source ;;
      if (depth <=? 0) || negb arr then push_own target source
      else
        src_len <- act (on_heap (get_property_str source s_length)) ;;
        range_up 0 (default 0 (src_len ≫= int32 W)) (fun i =>
          elem <- get_at source i ;;
          nested <- is_array_value elem ;;
          if nested : bool then flatten_array n' elem target (depth - 1) else push_own target elem)
  end.
Definition array_flat (this : Value) (args : list Value) : E (option Value) :=
  let depth := match args with a :: _ => default 1 (int32 W a) | [] => 1 end in
  result <- act (js_new_array 0) ;; flatten_array fuel this result depth ?> eret (Some result).
Definition array_flat_map (this cb : Value) : E (option Value) :=
  len <- len_of this ;;
  result <- act (js_new_array 0) ;;
  for_up (rounds len) 0 (fun i =>
    ' (_, r) <- on_element this cb i ;;
    let mapped := default (UNDEFINED W) r in
    arr <- is_array_value mapped ;;
    if arr : bool then
      mlen <- len_of mapped ;; for_up (rounds mlen) 0 (fun j => v <- get_at mapped j ;; _ <- act (js_array_push result v) ;; eret tt)
    else _ <- act (js_array_push result mapped) ;; eret tt) ?>
  eret (Some result).

Definition sort_number (v : Value) : E f64 :=
  match int32 W v with Some n => eret (f64_of_int n) | None => n <- attempt (to_number v) ;; eret (default f64_zero n) end.
Definition sort_compare (comparator : option Value) (a b : Value) : E f64 :=
  match comparator with
  | Some cb =>
      r <- callback cb [a; b] ;;
      match r with Some res => n <- attempt (to_number res) ;; eret (default f64_zero n) | None => eret f64_zero end
  | None => x <- sort_number a ;; y <- sort_number b ;; eret (f64_sub x y)
  end.
(** Neighbours change places when the first is larger, or is [undefined]. *)
Definition sort_pair (comparator : option Value) (this : Value) (j : Z) : E unit :=
  a <- get_at this j ;; b <- get_at this (j + 1) ;;
  swap <- (if is_undefined W a then eret (negb (is_undefined W b))
           else if is_undefined W b then eret false
           else cmp <- sort_compare comparator a b ;; eret (f64_lt f64_zero cmp)) ;;
  if swap : bool then put_at this j b ?> put_at this (j + 1) a else eret tt.
Definition array_sort (this : Value) (args : list Value) : E (option Value) :=
  len <- act (on_heap (get_property_str this s_length)) ;;
  let len := default 0 (len ≫= int32 W) in
  range_up 0 len (fun i => range_up 0 (len - i - 1) (sort_pair (head args) this)) ?> eret (Some this).

(** ** Statics *)

Definition array_is_array (_ : Value) (args : list Value) : E (option Value) :=
  match args with
  | [a] => arr <- is_array_value a ;; eret (Some (new_bool W arr))
  | _ => eret (Some (FALSE W))
  end.
Definition array_of (_ : Value) (args : list Value) : E (option Value) :=
  result <- act (js_new_array (as_i32 (Z.of_nat (length args)))) ;; put_all result 0 args ?> eret (Some result).
(** [Array.from]: what maps the elements, when something does. *)
Inductive Mapper := NoMapper | ByClosure (f : Value) | ByNative (idx : Z) (params : Value) | ByMarker (name : bytes).
Definition type_fault {A} (msg : bytes) : E A := _ <- act (js_throw_error CLASS_TYPE_ERROR msg) ;; enone.
Definition mapper_of (cb : option Value) : E Mapper :=
  match cb with
  | None => eret NoMapper
  | Some cb =>
      closure <- act (js_get_property_str cb (b! "__closure__")) ;;
      ' (info, marker) <- view (fun c => (c_function_info (heap c) cb, str_of c cb ≫= from_utf8)) ;;
      if closure =? TRUE W then eret (ByClosure cb)
      else
        match info, marker with
        | Some (idx, params), _ => eret (ByNative idx params)
        | None, Some name => eret (ByMarker name)
        | None, None => type_fault (b! "Array.from map function is not callable")
        end
  end.
Definition mapped (m : Mapper) (this_arg elem : Value) (i : Z) : E Value :=
  let args := [elem; len_value i; this_arg] in
  match m with
  | NoMapper => eret elem
  | ByClosure f => r <- callback f args ;; eret (default elem r)
  | ByNative idx params => act (call_c_function_direct idx params this_arg args)
  | ByMarker name => r <- attempt (call_builtin_global_marker fuel name args) ;; eret (default elem (mjoin r))
  end.
(** The length of an array-like, at most the largest [i32]; a string's elements are its units. *)
Definition source_length (source : Value) : E Z :=
  ' (str, obj) <- view (fun c => (is_str c source, is_obj c source)) ;;
  if str : bool then units <- units_of source ;; eret (unit_count (default [] units))
  else if obj : bool then
    len_val <- act (js_get_property_str source s_length) ;;
    n <- attempt (to_number len_val) ;;
    eret (match default f64_zero n with S754_nan => 0 | f => f64_cast 0 (2 ^ 31 - 1) f end)
  else type_fault (b! "Array.from requires an array-like object").
Definition source_element (source : Value) (i : Z) : E Value :=
  str <- view (fun c => is_str c source) ;;
  if str : bool then units <- units_of source ;; units_text [default 0 (default [] units !! Z.to_nat i)] else get_at source i.
Definition array_from (_ : Value) (args : list Value) : E (option Value) :=
  match args with
  | [] => type_fault (b! "Array.from requires an array-like object")
  | source :: rest =>
      let this_arg := default (UNDEFINED W) (rest !! 1%nat) in
      len <- source_length source ;;
      result <- act (js_new_array len) ;;
      m <- mapper_of (rest !! 0%nat) ;;
      for_up (Z.to_nat len) 0 (fun i =>
        elem <- source_element source i ;; out <- mapped m this_arg elem i ;; put_at result i out) ?>
      eret (Some result)
  end.

(** ** The tables *)

Definition no_value : E (option Value) := eret (Some (UNDEFINED W)).
Definition array_both : list (string * Method) :=
  [ ("array_push", array_push_all); ("array_pop", array_pop_last); ("array_join", array_join); ("array_slice", array_slice);
    ("array_splice", array_splice); ("Array_isArray", array_is_array);
    ("typedarray_toString", fun this _ => answer (typedarray_to_string this));
    ("typedarray_set", fun this args => answer (typedarray_set this args));
    ("typedarray_subarray", fun this args => answer (typedarray_subarray this args)) ]%string.
Definition expr_array_table : list (string * Method) :=
  array_both ++
  [ ("array_shift", array_shift); ("array_unshift", array_unshift); ("array_toString", array_to_string); ("array_reverse", array_reverse);
    ("array_concat", array_concat); ("array_at", array_at); ("array_indexOf", expr_array_index_of);
    ("array_lastIndexOf", expr_array_last_index_of); ("array_fill", array_fill); ("array_includes", array_includes);
    ("array_forEach", with_callback array_for_each no_value); ("array_map", with_callback array_map empty_array);
    ("array_filter", with_callback array_filter empty_array); ("array_reduce", with_init array_reduce no_value);
    ("array_reduceRight", with_init array_reduce_right no_value); ("array_every", with_callback array_every (eret (Some (TRUE W))));
    ("array_some", with_callback array_some (eret (Some (FALSE W)))); ("array_find", with_callback array_find no_value);
    ("array_findIndex", with_callback array_find_index (eret (Some (from_int32 W (-1))))); ("array_flat", array_flat);
    ("array_sort", array_sort); ("array_flatMap", with_callback array_flat_map empty_array); ("Array_from", array_from);
    ("Array_of", array_of) ]%string.
Definition array_table : list (string * Method) :=
  array_both ++
  [ ("array_indexOf", array_index_of); ("array_lastIndexOf", array_last_index_of); ("array_forEach", with_callback array_for_each pass);
    ("array_map", with_callback array_map pass); ("array_filter", with_callback array_filter pass); ("array_reduce", with_init array_reduce pass);
    ("array_reduceRight", with_init array_reduce_right pass); ("array_every", with_callback array_every pass); ("array_some", with_callback array_some pass);
    ("array_find", with_callback array_find pass); ("array_findIndex", with_callback array_find_index pass) ]%string.
End Arrays.
