(* ===== verification/JsObjectMethods.v ===== *)
(** * JsObjectMethods: Math, Number, Object, JSON, Function, the global functions, and the tables

    The remaining markers of the two method tables ([api/eval_expr.rs], [api/eval_program.rs]),
    with the object operations of [api/mod.rs] they call, and the tables themselves.  A method is
    told by its marker, the first of a table that has it.  [eval_expr] asks its own table
    ([expr_table]); what that does not answer is called like any function, which asks the table of
    [call_builtin_method] ([method_table]).  A method may call another built-in, so the second
    table is under itself: its fuel is the nesting of such calls.  What [console.log] writes is
    the host's; its conversions are here. *)
From Stdlib Require Import SpecFloat.
From S2P Require Import Prelude IntCodec Utf8 ServerArgs JsValue JsMem JsProps JsArray JsAtom JsObject JsSource JsScope JsFloat JsText JsBuffers JsBytecode JsNumberFmt JsApi JsJson JsScan JsStmt JsCall JsArith JsTyped JsExpr JsRegexp JsStrings JsArrayMethods.

(** ** Numbers *)

(** [x.floor() as i32], [x.ceil() as i32], [x.round() as i32], the last with halves away from zero. *)
Definition floor_i32 (x : f64) : Z := f64_as_i32 (f64_floor x).
Definition ceil_i32 (x : f64) : Z := f64_as_i32 (f64_neg (f64_floor (f64_neg x))).
Definition round_i32 (x : f64) : Z :=
  match x with
  | S754_finite s m e =>
      let n := if 0 <=? e then Zpos m * 2 ^ e else (Zpos m + 2 ^ (- e - 1)) / 2 ^ (- e) in
      Z.max (- 2 ^ 31) (Z.min (2 ^ 31 - 1) (if s then - n else n))
  | _ => f64_as_i32 x
  end.
Definition f64_sqrt (x : f64) : f64 := SFsqrt 53 1024 x.
Definition fround (x : f64) : f64 := f64_of_f32 (f32_of_f64 x).
Definition LN_2 : f64 := f64_from_bits 0x3FE62E42FEFA39EF.
Definition LN_10 : f64 := f64_from_bits 0x40026BB1BBB55516.
Definition leading_zeros (n : Z) : Z := if n <=? 0 then 32 else 31 - Z.log2 n.
Definition f64_finite (x : f64) : bool := match x with S754_zero _ | S754_finite _ _ _ => true | _ => false end.
Definition f64_integral (x : f64) : bool := f64_finite x && f64_eq x (f64_floor x).

(** *** [parseInt]: a sign, a prefix of the radix, and the digits up to another character

    This is the one of [src/api/eval_expr.rs].  A call that reaches the method table of
    [src/api/eval_program.rs] gets another, [parse_int_plain], which reads a whole [i32] in decimal
    and ignores the radix. *)

Fixpoint int_digits (radix : Z) (acc : option Z) (l : bytes) : option Z :=
  match l with
  | b :: l' =>
      match hex_digit b with
      | Some d => if d <? radix then int_digits radix (Some (saturating_u64 (default 0 acc * radix + d))) l' else acc
      | None => acc
      end
  | [] => acc
  end.
Definition parse_sign (s : bytes) : bool * bytes :=
  match strip_prefix [c_minus] s with
  | Some rest => (true, rest)
  | None => (false, match strip_prefix [c_plus] s with Some rest => rest | None => s end)
  end.
Definition parse_int (s : bytes) (radix : Z) : f64 :=
  let '(neg, s) := parse_sign (trim_start s) in
  let hex := starts_any [b! "0x"; b! "0X"] s in
  let '(radix, s) :=
    if radix =? 0 then (if hex then (16, drop 2 s) else (10, s))
    else (radix, if (radix =? 16) && hex then drop 2 s else s) in
  if (radix <? 2) || (36 <? radix) then S754_nan
  else
    match int_digits radix None s with
    | Some n => f64_times (f64_of_int (if neg : bool then -1 else 1)) (f64_of_int n)
    | None => S754_nan
    end.
Definition parse_float (s : bytes) : f64 :=
  let t := trim_start s in if starts_any [b! "0x"; b! "0X"] t then f64_zero else default S754_nan (f64_from_str t).

Example number_functions :
  round_i32 (f64_round true 25 (-1)) = -3 /\ floor_i32 (f64_round true 25 (-1)) = -3 /\ ceil_i32 (f64_round true 25 (-1)) = -2 /\
  round_i32 (f64_of_int (2 ^ 40)) = 2 ^ 31 - 1 /\ leading_zeros 1 = 31 /\ leading_zeros (2 ^ 31) = 0 /\
  parse_int (b! " -0x1fz") 0 = f64_of_int (-31) /\ parse_int (b! "zz") 36 = f64_of_int 1295 /\ parse_int (b! "2") 2 = S754_nan /\
  parse_int (b! "99999999999999999999") 10 = f64_of_int (2 ^ 64 - 1) /\ parse_float (b! " 1.5") = f64_over (f64_of_int 3) (f64_of_int 2) /\
  parse_float (b! "1.5px") = S754_nan.
Proof. by vm_compute. Qed.

Section Objects.
Context `{Ev : JsEval} `{B : JsBuiltins} `{P : JsPlatform} (fuel : nat).

(** ** [Math] *)

Definition math_unary (f : f64 -> f64) (_ : Value) (args : list Value) : E (option Value) :=
  match args with [a] => n <- to_number a ;; number_result (f n) | _ => eret (Some (UNDEFINED W)) end.
Definition math_int (f : f64 -> Z) (_ : Value) (args : list Value) : E (option Value) :=
  match args with [a] => n <- to_number a ;; eret (Some (from_int32 W (f n))) | _ => eret (Some (UNDEFINED W)) end.
Definition math_binary (f : f64 -> f64 -> f64) (_ : Value) (args : list Value) : E (option Value) :=
  match args with
  | [a; b] => x <- to_number a ;; y <- to_number b ;; number_result (f x y)
  | _ => eret (Some (UNDEFINED W))
  end.
(** The best of the arguments that are numbers; NaN is never better. *)
Fixpoint math_best (better : f64 -> f64 -> bool) (best : f64) (args : list Value) : E f64 :=
  match args with
  | [] => eret best
  | a :: args' =>
      n <- attempt (to_number a) ;;
      math_best better (match n with Some n => if better n best then n else best | None => best end) args'
  end.
Definition math_max (_ : Value) (args : list Value) : E (option Value) :=
  n <- math_best (fun n best => f64_lt best n) (S754_infinity true) args ;; number_result n.
Definition math_min (_ : Value) (args : list Value) : E (option Value) :=
  n <- math_best f64_lt (S754_infinity false) args ;; number_result n.
Definition math_imul (_ : Value) (args : list Value) : E (option Value) :=
  match args with
  | [a; b] =>
      x <- attempt (js_to_int32 a) ;; y <- attempt (js_to_int32 b) ;; eret (Some (len_value (default 0 x * default 0 y)))
  | _ => eret (Some (UNDEFINED W))
  end.
Definition math_clz32 (_ : Value) (args : list Value) : E (option Value) :=
  match args with
  | [a] => n <- attempt (js_to_uint32 a) ;; eret (Some (from_int32 W (leading_zeros (default 0 n))))
  | _ => eret (Some (UNDEFINED W))
  end.
Definition math_table : list (string * Method) :=
  [ ("Math_round", math_int round_i32); ("Math_abs", math_unary f64_abs); ("Math_max", math_max); ("Math_min", math_min);
    ("Math_sqrt", math_unary f64_sqrt); ("Math_sin", math_unary f64_sin); ("Math_cos", math_unary f64_cos);
    ("Math_tan", math_unary f64_tan); ("Math_asin", math_unary f64_asin); ("Math_acos", math_unary f64_acos);
    ("Math_atan", math_unary f64_atan); ("Math_atan2", math_binary f64_atan2); ("Math_exp", math_unary f64_exp);
    ("Math_log", math_unary f64_ln); ("Math_log2", math_unary (fun n => f64_over (f64_ln n) LN_2));
    ("Math_log10", math_unary (fun n => f64_over (f64_ln n) LN_10)); ("Math_fround", math_unary fround);
    ("Math_imul", math_imul); ("Math_clz32", math_clz32); ("Math_pow", math_binary f64_pow) ]%string.
(** Only the second table has these. *)
Definition math_floor_ceil : list (string * Method) := [ ("Math_floor", math_int floor_i32); ("Math_ceil", math_int ceil_i32) ]%string.

(** ** [Number] and the forms of numbers *)

Definition number_test (ints : bool) (floats : f64 -> bool) (_ : Value) (args : list Value) : E (option Value) :=
  match args with
  | [a] => r <- view (fun c => if is_number a then ints else default false (floats <$> float_of c a)) ;; eret (Some (new_bool W r))
  | _ => eret (Some (FALSE W))
  end.
Definition safe_integer (x : f64) : bool := f64_integral x && f64_le (f64_abs x) (f64_of_int 9007199254740991).
Definition range_fault {A} (msg : bytes) : E A := _ <- act (js_throw_error CLASS_RANGE_ERROR msg) ;; enone.
Definition int_arg (otherwise : Z) (a : option Value) : E Z :=
  match a with Some a => n <- attempt (js_to_int32 a) ;; eret (default otherwise n) | None => eret otherwise end.
Definition this_number (this : Value) : E f64 := n <- attempt (to_number this) ;; eret (default S754_nan n).
Definition number_to_fixed (this : Value) (args : list Value) : E (option Value) :=
  digits <- int_arg 0 (head args) ;;
  if negb (in_range 0 100 digits) then range_fault (b! "toFixed() digits out of range")
  else n <- this_number this ;; answer (text (format_fixed n digits)).
Definition number_to_precision (this : Value) (args : list Value) : E (option Value) :=
  match args with
  | [] => answer (act (js_to_string this))
  | a :: _ =>
      precision <- int_arg 0 (Some a) ;;
      if negb (in_range 1 100 precision) then range_fault (b! "toPrecision() precision out of range")
      else n <- this_number this ;; answer (text (format_precision n precision))
  end.
Definition number_to_exponential (this : Value) (args : list Value) : E (option Value) :=
  digits <- (match args with
             | [] => eret None
             | a :: _ =>
                 d <- int_arg 0 (Some a) ;;
                 if negb (in_range 0 100 d) then range_fault (b! "toExponential() digits out of range") else eret (Some d)
             end) ;;
  n <- this_number this ;; answer (text (format_exponential n digits)).
Definition number_to_string (this : Value) (args : list Value) : E (option Value) :=
  match args with
  | [] => answer (act (js_to_string this))
  | a :: _ =>
      if a =? UNDEFINED W then answer (act (js_to_string this))
      else
        radix <- int_arg 10 (Some a) ;;
        if negb (in_range 2 36 radix) then range_fault (b! "toString() radix must be between 2 and 36")
        else
          n <- this_number this ;;
          if negb (f64_finite n) || (radix =? 10) || (2 ^ 63 <? Z.abs (f64_trunc n)) then answer (act (js_to_string this))
          else answer (text (format_radix_int (trunc_i64 n) radix))
  end.
Definition number_table : list (string * Method) :=
  [ ("Number_isInteger", number_test true f64_integral); ("Number_isNaN", number_test false f64_is_nan);
    ("Number_isFinite", number_test true f64_finite); ("Number_isSafeInteger", number_test true safe_integer);
    ("number_toFixed", number_to_fixed); ("number_toPrecision", number_to_precision);
    ("number_toExponential", number_to_exponential); ("number_toString", number_to_string) ]%string.

(** ** Global functions *)

Definition call_string (_ : Value) (args : list Value) : E (option Value) :=
  match args with [] => answer (text []) | a :: _ => answer (act (js_to_string a)) end.
Definition call_number (_ : Value) (args : list Value) : E (option Value) :=
  match args with
  | [] => eret (Some (from_int32 W 0))
  | a :: _ => n <- this_number a ;; number_result n
  end.
Definition call_boolean (_ : Value) (args : list Value) : E (option Value) :=
  match args with
  | [] => eret (Some (FALSE W))
  | a :: _ => t <- view (fun c => JsApi.is_truthy c a) ;; eret (Some (new_bool W t))
  end.
(** [parseInt] with a radix, of anything; the other table takes an [i32] in decimal. *)
Definition expr_parse_int (_ : Value) (args : list Value) : E (option Value) :=
  match args with
  | [] => number_result S754_nan
  | a :: _ => s <- value_to_string a ;; number_result (parse_int s (int_or 0 (args !! 1%nat)))
  end.
Definition parse_int_plain (_ : Value) (args : list Value) : E (option Value) :=
  match args with
  | [] => number_result S754_nan
  | a :: _ =>
      n <- view (fun c => match str_of c a with Some s => from_utf8 s ≫= fun s => i32_from_str (trim s) | None => int32 W a end) ;;
      match n with Some n => eret (Some (from_int32 W n)) | None => number_result S754_nan end
  end.
Definition parse_float_of (_ : Value) (args : list Value) : E (option Value) :=
  match args with
  | [] => number_result S754_nan
  | a :: _ =>
      s <- view (fun c => str_of c a) ;;
      match s with
      | Some s => number_result (default S754_nan (parse_float <$> from_utf8 s))
      | None => n <- this_number a ;; number_result n
      end
  end.
Definition call_eval (_ : Value) (args : list Value) : E (option Value) :=
  match args with
  | [] => eret (Some (UNDEFINED W))
  | a :: _ =>
      s <- view (fun c => str_of c a) ;;
      match s with
      | Some s => answer (js_eval fuel (default [] (from_utf8 s)) (b! "<eval>") JS_EVAL_RETVAL)
      | None => eret (Some a)
      end
  end.
Definition global_eval (_ : Value) (args : list Value) : E (option Value) := call_builtin_global_marker fuel (builtin_word "eval") args.

Definition date_now (_ : Value) (_ : list Value) : E (option Value) :=
  now <- view millis_now ;;
  answer (match now with
          | Some ms => act (js_new_float64 (f64_of_int ms))
          | None => act (js_throw_error CLASS_INTERNAL_ERROR (b! "time error"))
          end).
Fixpoint console_log (this : Value) (args : list Value) : E (option Value) :=
  match args with
  | [] => eret (Some (UNDEFINED W))
  | a :: args' => _ <- coerce_to_string_value a ;; console_log this args'
  end.

(** *** Errors *)

Definition error_classes : list (string * Z) :=
  [ ("Error", CLASS_ERROR); ("TypeError", CLASS_TYPE_ERROR); ("ReferenceError", CLASS_REFERENCE_ERROR);
    ("SyntaxError", CLASS_SYNTAX_ERROR); ("RangeError", CLASS_RANGE_ERROR) ]%string.
(** An error object whose message is its name unless a string is given. *)
Definition new_error (name : string) (cls : Z) (_ : Value) (args : list Value) : E (option Value) :=
  msg <- view (fun c => default (bytes_of_string name) (head args ≫= fun a => str_of c a ≫= from_utf8)) ;;
  answer (act (js_new_error_object js_set_property_str cls (bytes_of_string name) msg)).
(** The other table makes a plain object. *)
Definition plain_error (name : string) (_ : Value) (args : list Value) : E (option Value) :=
  msg <- (match args with a :: _ => act (js_to_string a) | [] => text [] end) ;;
  err_obj <- act js_new_object ;;
  set_str err_obj (b! "message") msg ?>
  name_val <- text (bytes_of_string name) ;;
  set_str err_obj (b! "name") name_val ?> eret (Some err_obj).

(** ** [Object] *)

Definition keys_of (v : Value) : E (option (list bytes)) := view (fun c => object_keys (heap c) v).
Fixpoint put_items (arr : Value) (i : Z) (item : bytes -> E Value) (keys : list bytes) : E unit :=
  match keys with [] => eret tt | k :: keys' => v <- item k ;; put_at arr i v ?> put_items arr (i + 1) item keys' end.
(** An array with an item per own key of the only argument. *)
Definition object_list (item : Value -> bytes -> E Value) (_ : Value) (args : list Value) : E (option Value) :=
  keys <- (match args with [obj] => keys_of obj | _ => eret None end) ;;
  match keys, args with
  | Some keys, obj :: _ =>
      arr <- act (js_new_array (as_i32 (Z.of_nat (length keys)))) ;; put_items arr 0 (item obj) keys ?> eret (Some arr)
  | _, _ => empty_array
  end.
Definition key_item (_ : Value) (key : bytes) : E Value := text key.
Definition value_item (obj : Value) (key : bytes) : E Value := act (js_get_property_str obj key).
Definition entry_item (obj : Value) (key : bytes) : E Value :=
  value <- value_item obj key ;;
  pair <- act (js_new_array 2) ;;
  key_str <- text key ;; put_at pair 0 key_str ?> put_at pair 1 value ?> eret pair.
(** [js_object_keys] *)
Definition js_object_keys (obj : Value) : E Value :=
  keys <- keys_of obj ;;
  match keys with
  | None => act (js_throw_error CLASS_TYPE_ERROR (b! "not an object"))
  | Some keys =>
      arr <- act (js_new_array (as_i32 (Z.of_nat (length keys)))) ;;
      if is_exception W arr then eret arr else put_items arr 0 (key_item obj) keys ?> eret arr
  end.
Definition object_keys_or_throw (_ : Value) (args : list Value) : E (option Value) :=
  match args with a :: _ => answer (js_object_keys a) | [] => empty_array end.

Fixpoint copy_keys (source target : Value) (keys : list bytes) : E unit :=
  match keys with [] => eret tt | k :: keys' => v <- value_item source k ;; set_str target k v ?> copy_keys source target keys' end.
Fixpoint assign_all (target : Value) (sources : list Value) : E unit :=
  match sources with
  | [] => eret tt
  | s :: sources' => keys <- keys_of s ;; copy_keys s target (default [] keys) ?> assign_all target sources'
  end.
Definition object_assign (_ : Value) (args : list Value) : E (option Value) :=
  match args with
  | [] => type_fault (b! "Cannot convert undefined or null to object")
  | target :: sources => assign_all target sources ?> eret (Some target)
  end.

(** The bytes of a key: of a string, or of what it converts to. *)
Definition key_bytes (key : Value) : E (option bytes) := key_val <- coerce_to_string_value key ;; view (fun c => str_of c key_val).
Definition key_text (bs : bytes) : bytes := default [] (from_utf8 bs).
Definition is_object_value (v : Value) : E bool := view (fun c => is_obj c v).
Definition object_has_own (this : Value) (args : list Value) : E (option Value) :=
  match (match args with target :: key :: _ => Some (target, key) | [key] => Some (this, key) | [] => None end) with
  | None => eret (Some (FALSE W))
  | Some (target, key) =>
      obj <- is_object_value target ;;
      if negb obj then eret (Some (FALSE W))
      else
        bs <- key_bytes key ;;
        keys <- keys_of target ;;
        eret (Some (new_bool W (match bs, keys with Some bs, Some keys => bool_decide (key_text bs ∈ keys) | _, _ => false end)))
  end.
Definition object_create (_ : Value) (args : list Value) : E (option Value) :=
  match args with
  | [] => type_fault (b! "Object.create requires a prototype")
  | proto :: _ =>
      obj_proto <- is_object_value proto ;;
      if negb (is_null W proto) && negb obj_proto then type_fault (b! "invalid prototype")
      else
        obj <- act js_new_object ;;
        if is_exception W obj then enone else _ <- act (on_heap (set_object_proto obj proto)) ;; eret (Some obj)
  end.
(** [freeze] and [seal] change nothing; nothing that is an object is frozen or sealed. *)
Definition object_same (_ : Value) (args : list Value) : E (option Value) :=
  match args with [] => type_fault (b! "Cannot convert undefined to object") | a :: _ => eret (Some a) end.
Definition object_is_frozen (_ : Value) (args : list Value) : E (option Value) :=
  match args with
  | [] => eret (Some (TRUE W))
  | a :: _ => obj <- is_object_value a ;; eret (Some (new_bool W (negb obj)))
  end.

Definition set_or_fail (obj : Value) (name : bytes) (v : Value) : E unit :=
  res <- act (js_set_property_str obj name v) ;; if is_exception W res then enone else eret tt.
Definition define_accessor (obj : Value) (prefix key : bytes) (f : Value) : E unit :=
  if is_undefined W f then eret tt else set_or_fail obj (prefix ++ key) f.
Definition object_define_property (_ : Value) (args : list Value) : E (option Value) :=
  match args with
  | obj :: key :: desc :: _ =>
      is_object <- is_object_value obj ;;
      if negb is_object then type_fault (b! "Object.defineProperty called on non-object")
      else
        bs <- key_bytes key ;;
        let bs := default [] bs in
        let name := key_text bs in
        desc_object <- is_object_value desc ;;
        if negb desc_object then type_fault (b! "Property descriptor must be an object")
        else if bool_decide (bs = []) then type_fault (b! "Invalid property key")
        else
          getter <- act (js_get_property_str desc (b! "get")) ;;
          setter <- act (js_get_property_str desc (b! "set")) ;;
          has_value <- act (on_heap (has_property_str desc (b! "value"))) ;;
          define_accessor obj (b! "__get__") name getter ?>
          define_accessor obj (b! "__set__") name setter ?>
          (if is_undefined W getter && is_undefined W setter then
             if has_value : bool then
               prop_val <- act (js_get_property_str desc (b! "value")) ;; set_or_fail obj name prop_val
             else
               there <- act (on_heap (has_property_str obj bs)) ;;
               if there : bool then eret tt else set_or_fail obj name (UNDEFINED W)
           else eret tt) ?>
          eret (Some obj)
  | _ => type_fault (b! "Object.defineProperty requires an object and a property")
  end.
Definition object_get_own_descriptor (_ : Value) (args : list Value) : E (option Value) :=
  match args with
  | obj :: key :: _ =>
      is_object <- is_object_value obj ;;
      if negb is_object then type_fault (b! "Object.getOwnPropertyDescriptor called on non-object")
      else
        bs <- key_bytes key ;;
        let bs := default [] bs in
        if bool_decide (bs = []) then type_fault (b! "Invalid property key")
        else
          there <- act (on_heap (has_property_str obj bs)) ;;
          if negb there then eret (Some (UNDEFINED W))
          else
            prop_val <- act (js_get_property_str obj (key_text bs)) ;;
            desc <- act js_new_object ;;
            set_str desc (b! "value") prop_val ?> set_str desc (b! "writable") (TRUE W) ?>
            set_str desc (b! "enumerable") (TRUE W) ?> set_str desc (b! "configurable") (TRUE W) ?> eret (Some desc)
  | _ => type_fault (b! "Object.getOwnPropertyDescriptor requires an object and a property")
  end.
(** [js_object_get_prototype_of] *)
Definition prototype_or_null (v : Value) : Value := if is_undefined W v then NULL W else v.
Definition object_get_prototype (_ : Value) (args : list Value) : E (option Value) :=
  match args with
  | [] => type_fault (b! "Object.getPrototypeOf requires an object")
  | obj :: _ =>
      if is_null W obj || is_undefined W obj then answer (act (js_throw_error CLASS_TYPE_ERROR (b! "not an object")))
      else
        v <- view (fun c => if is_obj c obj then or_undefined (object_proto_of (heap c) obj) else object_proto (heap c)) ;;
        eret (Some (prototype_or_null v))
  end.
Definition object_set_prototype (_ : Value) (args : list Value) : E (option Value) :=
  match args with
  | target :: proto :: _ =>
      ' (target_object, proto_object) <- view (fun c => (is_obj c target, is_obj c proto)) ;;
      if negb target_object then type_fault (b! "Object.setPrototypeOf called on non-object")
      else if negb (is_null W proto) && negb proto_object then type_fault (b! "Object.setPrototypeOf prototype must be object or null")
      else _ <- act (on_heap (set_object_proto target proto)) ;; eret (Some target)
  | _ => type_fault (b! "Object.setPrototypeOf requires an object and prototype")
  end.
Definition object_to_string (this : Value) (_ : list Value) : E (option Value) := answer (act (object_to_string_value this)).

(** ** [JSON] *)

Definition json_stringify (_ : Value) (args : list Value) : E (option Value) :=
  match args with
  | [] => eret (Some (UNDEFINED W))
  | a :: _ =>
      s <- ran (fun c => match json_stringify_value fuel a c with Some (r, c) => Some (Val r, c) | None => None end) ;;
      match s with Some s => answer (text s) | None => eret (Some (UNDEFINED W)) end
  end.
Definition syntax_error_of {A} (msg : bytes) : E A := syntax_fault msg.
Definition json_parse (_ : Value) (args : list Value) : E (option Value) :=
  match args with
  | [] => syntax_error_of (b! "Unexpected end of JSON input")
  | a :: _ =>
      s <- view (fun c => str_of c a) ;;
      match s with
      | None => type_fault (b! "Cannot convert to string")
      | Some s =>
          r <- ran (fun c => match parse_json (default [] (from_utf8 s)) c with Some (r, c) => Some (Val r, c) | None => None end) ;;
          match r with Some v => eret (Some v) | None => syntax_error_of (b! "Unexpected token in JSON") end
      end
  end.

(** ** [Function.prototype] *)

Definition if_function (m : Value -> list Value -> E (option Value)) (this : Value) (args : list Value) : E (option Value) :=
  f <- act (js_is_function this) ;; if f : bool then m this args else pass.
Definition call_or_undefined (this new_this : Value) (args : list Value) : E (option Value) :=
  r <- attempt (call_function_value fuel this new_this args) ;; eret (Some (default (UNDEFINED W) r)).
Definition new_this (args : list Value) : Value := default (UNDEFINED W) (head args).
Definition function_call (this : Value) (args : list Value) : E (option Value) := call_or_undefined this (new_this args) (drop 1 args).
(** A negative length asks for too many elements. *)
Definition function_apply (this : Value) (args : list Value) : E (option Value) :=
  call_args <-
    (match args !! 1%nat with
     | Some arr =>
         obj <- is_object_value arr ;;
         if obj : bool then len <- len_of arr ;; if len <? 0 then ecrash else elements_from arr 0 (Z.to_nat len)
         else eret []
     | None => eret []
     end) ;;
  call_or_undefined this (new_this args) call_args.
Definition function_bind (this : Value) (args : list Value) : E (option Value) :=
  bound_func <- act js_new_object ;;
  set_str bound_func (b! "__bound_func__") this ?> set_str bound_func (b! "__bound_this__") (new_this args) ?>
  bound_args <- act (js_new_array (as_i32 (Z.of_nat (length (drop 1 args))))) ;;
  put_all bound_args 0 (drop 1 args) ?>
  set_str bound_func (b! "__bound_args__") bound_args ?> set_str bound_func (b! "__is_bound__") (TRUE W) ?> eret (Some bound_func).

(** ** The tables *)

Definition global_both : list (string * Method) :=
  [ ("String", call_string); ("Number", call_number); ("Boolean", call_boolean); ("parseFloat", parse_float_of); ("Date_now", date_now);
    ("console_log", console_log); ("Object_toString", object_to_string); ("Object_setPrototypeOf", object_set_prototype);
    ("JSON_stringify", json_stringify); ("JSON_parse", json_parse) ]%string.
Definition expr_object_table : list (string * Method) :=
  global_both ++
  [ ("parseInt", expr_parse_int); ("eval", call_eval); ("RegExp", fun _ => regexp_of); ("Object_keys", object_list key_item);
    ("Object_values", object_list value_item); ("Object_entries", object_list entry_item); ("Object_assign", object_assign);
    ("Object_hasOwnProperty", object_has_own); ("Object_create", object_create); ("Object_freeze", object_same);
    ("Object_seal", object_same); ("Object_isSealed", object_is_frozen); ("Object_isFrozen", object_is_frozen);
    ("Object_defineProperty", object_define_property); ("Object_getOwnPropertyDescriptor", object_get_own_descriptor);
    ("Object_getPrototypeOf", object_get_prototype); ("Function_call", if_function function_call);
    ("Function_apply", if_function function_apply); ("Function_bind", if_function function_bind) ]%string ++
  ((fun p => (fst p, new_error (fst p) (snd p))) <$> error_classes) ++ math_table ++ number_table.
Definition object_table : list (string * Method) :=
  global_both ++
  [ ("parseInt", parse_int_plain); ("eval", global_eval); ("Object_keys", object_keys_or_throw) ]%string ++
  ((fun p => (fst p, plain_error (fst p))) <$> error_classes) ++ math_table ++ math_floor_ceil ++ number_table.
End Objects.

Definition run_method (table : list (string * Method)) (marker : bytes) (this : Value) (args : list Value) : E (option Value) :=
  match List.find (fun p => is_builtin (fst p) marker) table with Some (_, m) => m this args | None => pass end.

Section Tables.
Context `{P : JsPlatform}.

Definition method_table `{Ev : JsEval} `{B : JsBuiltins} (fuel : nat) : list (string * Method) :=
  string_table fuel ++ array_table fuel ++ object_table fuel.
Definition expr_table `{Ev : JsEval} `{B : JsBuiltins} (fuel : nat) : list (string * Method) :=
  expr_string_table fuel ++ expr_array_table fuel ++ expr_object_table fuel.

(** A table of built-ins whose methods are [m]. *)
Definition builtins_with (m : JsEval -> nat -> bytes -> Value -> list Value -> E (option Value)) : JsBuiltins :=
  {| builtin_method := m; js_new_regexp H := js_new_regexp_value; f64_powf := f64_pow |}.
Fixpoint method_upto (n : nat) (Ev : JsEval) (marker : bytes) (this : Value) (args : list Value) : E (option Value) :=
  match n with
  | O => eout
  | S n' => run_method (@method_table Ev (builtins_with (fun Ev' _ => method_upto n' Ev')) n') marker this args
  end.
Definition js_builtins : JsBuiltins := builtins_with (fun Ev n => method_upto n Ev).
Definition js_methods : JsMethods :=
  {| expr_marker Ev fuel := run_method (@expr_table Ev js_builtins fuel) |}.

(** The whole interpreter.  [base] has the native functions of the embedding program. *)
Definition js_interpreter (base : JsHost) (n : nat) : JsEval := @interpreter base js_builtins js_methods n.
End Tables.
