(* ===== verification/JsStmtLaws.v ===== *)
(** * JsStmtLaws: dispatch, control and fuel of the statement evaluator

    The dispatch on a statement's first byte is the full chain of tests; a loop uses up the
    controls meant for it; and an answer found with some fuel is the answer.  At the end an
    evaluator of a few expressions, to run statements with. *)
From Stdlib Require Import SpecFloat.
From S2P Require Import Prelude IntCodec Utf8 ServerArgs JsText JsFloat JsValue JsMem JsProps JsArray JsAtom JsObject JsScope JsSource JsBytecode JsApi JsJson JsScan JsCompile JsVm JsStmt JsCall JsStmtSpec.

(** ** The first byte tells the statement *)

Lemma trim_start_suffix (l : bytes) : trim_start l `suffix_of` l.
Proof.
  induction l as [l IH] using (induction_ltof1 _ (@length Z)). unfold ltof in IH.
  destruct l as [|b l1]; [done|]. cbn [trim_start]. destruct (ascii_ws b).
  { apply suffix_cons_r, IH. simpl. lia. }
  destruct l1 as [|c l2]; [done|]. destruct (ws2 b c).
  { do 2 apply suffix_cons_r. apply IH. simpl. lia. }
  destruct l2 as [|d l3]; [done|]. destruct (ws3 b c d); [|done].
  do 3 apply suffix_cons_r. apply IH. simpl. lia.
Qed.
Lemma trim_rev_suffix (l : bytes) : trim_rev l `suffix_of` l.
Proof.
  induction l as [l IH] using (induction_ltof1 _ (@length Z)). unfold ltof in IH.
  destruct l as [|b l1]; [done|]. cbn [trim_rev]. destruct (ascii_ws b).
  { apply suffix_cons_r, IH. simpl. lia. }
  destruct l1 as [|c l2]; [done|]. destruct (ws2 c b).
  { do 2 apply suffix_cons_r. apply IH. simpl. lia. }
  destruct l2 as [|d l3]; [done|]. destruct (ws3 d c b); [|done].
  do 3 apply suffix_cons_r. apply IH. simpl. lia.
Qed.
Lemma elem_of_suffix {A} (x : A) (l k : list A) : l `suffix_of` k -> x ∈ l -> x ∈ k.
Proof. intros [p ->] H. apply elem_of_app. by right. Qed.
Lemma elem_of_rev (x : Z) (l : bytes) : x ∈ rev l <-> x ∈ l.
Proof. rewrite !list_elem_of_In. symmetry. apply in_rev. Qed.
Lemma elem_of_trim (x : Z) (l : bytes) : x ∈ trim l -> x ∈ l.
Proof.
  unfold trim, trim_end. rewrite elem_of_rev. intros H%(elem_of_suffix _ _ _ (trim_rev_suffix _)).
  rewrite elem_of_rev in H. by apply (elem_of_suffix _ _ _ (trim_start_suffix l)).
Qed.
Lemma label_colon_in (prev q : option Z) (p b c : Z) (l x y : bytes) : label_colon prev q p b c l = Some (x, y) -> 58 ∈ l.
Proof.
  revert prev q p b c x y. induction l as [|z l IH]; intros prev q p b c x y E; [done|]. cbn [label_colon] in E.
  assert (Hb : forall r, before z r = Some (x, y) -> (forall x y, r = Some (x, y) -> 58 ∈ l) -> 58 ∈ z :: l).
  { intros r Er Hr. unfold before in Er. apply bind_Some in Er as ([x1 y1] & E1 & _). right. by eapply Hr. }
  destruct q as [d|]; [eapply Hb; [exact E|]; intros; by eapply IH|].
  destruct (_ || _); [eapply Hb; [exact E|]; intros; by eapply IH|].
  destruct (_ && _) eqn:Et; [|eapply Hb; [exact E|]; intros; by eapply IH].
  assert (z = 58) as -> by lia. left.
Qed.
Lemma unlabeled `{Ev : JsEval} (fuel : nat) ev evc (t : bytes) : 58 ∉ t -> parse_labeled_statement fuel ev evc t = None.
Proof.
  intros H. unfold parse_labeled_statement. destruct (label_colon _ _ _ _ _ _) as [[x y]|] eqn:E; [|done].
  apply label_colon_in, elem_of_trim in E. done.
Qed.

(** The same answer, from the same context but for the position of a syntax error. *)
Definition agree {A} (m m' : E A) : Prop := forall c,
  match m c, m' c with
  | None, None => True
  | Some (r, c1), Some (r', c1') =>
      r = r' /\ heap c1 = heap c1' /\ scope c1 = scope c1' /\ caches c1 = caches c1' /\ (r <> Nope -> source c1 = source c1')
  | _, _ => False
  end.
Lemma agree_refl {A} (m : E A) : agree m m.
Proof. intros c. by destruct (m c) as [[r c1]|]. Qed.

Lemma agree_expression `{Ev : JsEval} (f : Source -> Source) (t : bytes) :
  agree (expression_flow (eret tt) t) (expression_flow (tweak_source f) t).
Proof.
  intros c. unfold expression_flow, ebind, attempt. destruct (eval_expr t c) as [[[v| |] c1]|]; [..|done].
  - exact (agree_refl (if is_exception W v then eret (Leave v) else checked (eret v)) c1).
  - cbv [eret enone tweak_source]. by repeat split.
  - by repeat split.
Qed.

Section Dispatch.
Context `{Ev : JsEval} (fuel : nat) (ev : bytes -> E Value) (evc : list bytes -> E Value).

(** C33: The fast dispatch of cached statements is the full chain of tests: on every statement text the two
    have the same value, or both none, and leave the same heap, scopes and caches; only a
    statement without a value leaves another error position. *)
Theorem fast_dispatch_agrees (t : bytes) : agree (cached_stmt fuel ev evc t) (body_stmt fuel ev evc t).
Proof.
  unfold cached_stmt. rewrite cached_chain_body. destruct (keyword_possible t) eqn:Hk; [apply agree_refl|].
  assert (Hb : body_stmt fuel ev evc t =
    match parse_labeled_statement fuel ev evc t with Some m => checked m | None => expression_flow (syntax_error_at t) t end).
  { destruct t as [|b t]; [done|]. cbn [keyword_possible] in Hk.
    destruct (bool_decide (b ∈ _)) eqn:Hd; [done|]. apply bool_decide_eq_false in Hd. cbv in Hd.
    repeat (apply not_elem_of_cons in Hd as [? Hd]).
    assert (Hs : forall p, match p with x :: _ => b <> x | [] => False end -> starts_with p (b :: t) = false).
    { intros [|x p] Hx; [done|]. cbn [starts_with]. by destruct (Z.eqb_spec x b); [congruence|]. }
    assert (Hw : forall w, match bytes_of_string w with x :: _ => b <> x | [] => True end -> is_word w (b :: t) = false).
    { intros w Hx. apply bool_decide_eq_false. intros Ew. rewrite <- Ew in Hx. done. }
    assert (Hr : starts_with (b! "return ") (b :: t) = false /\ is_word "return" (b :: t) = false).
    { destruct (Z.eqb_spec b 114) as [->|Hn]; [|split; [by apply Hs|by apply Hw]].
      cbn [andb] in Hk. by apply orb_false_iff in Hk as [-> ->]. }
    destruct Hr as [Hr1 Hr2].
    unfold body_stmt, jump_label, starts_try, starts_do, starts_word, is_block_text, starts_brace, strip_prefix.
    rewrite Hr1, Hr2. rewrite !Hw by (cbv; congruence). rewrite !Hs by (cbv; congruence). done. }
  rewrite Hb. destruct (bool_decide (58 ∈ t)) eqn:Hc.
  - destruct (parse_labeled_statement fuel ev evc t); [apply agree_refl|apply agree_expression].
  - apply bool_decide_eq_false in Hc. rewrite unlabeled by done. apply agree_expression.
Qed.
End Dispatch.

(** ** Fuel *)

(** [m'] answers whatever [m] does. *)
Definition less {A} (m m' : E A) : Prop := forall c r, m c = Some r -> m' c = Some r.
Lemma less_refl {A} (m : E A) : less m m.
Proof. by intros c r. Qed.
Lemma less_out {A} (m : E A) : less eout m.
Proof. by intros c r. Qed.
Lemma less_bind {A B} (m m' : E A) (k k' : A -> E B) : less m m' -> (forall x, less (k x) (k' x)) -> less (ebind m k) (ebind m' k').
Proof.
  intros Hm Hk c r E. unfold ebind in *. destruct (m c) as [[[x| |] c1]|] eqn:E1; [|by rewrite (Hm _ _ E1)..|done].
  rewrite (Hm _ _ E1). by apply Hk.
Qed.
Lemma less_attempt {A} (m m' : E A) : less m m' -> less (attempt m) (attempt m').
Proof. intros Hm c r E. unfold attempt in *. destruct (m c) as [[x c1]|] eqn:E1; [|done]. by rewrite (Hm _ _ E1). Qed.
Lemma less_after {A} (m m' : E A) f : less m m' -> less (after m f) (after m' f).
Proof. intros Hm c r E. unfold after in *. destruct (m c) as [[x c1]|] eqn:E1; [|done]. by rewrite (Hm _ _ E1). Qed.
Lemma less_walk {A} (f f' : Scope -> JsHeap -> option (A * JsHeap)) :
  (forall s h r, f s h = Some r -> f' s h = Some r) -> less (walk f) (walk f').
Proof. intros Hf c r E. unfold walk in *. destruct (f _ _) as [[x h]|] eqn:E1; [|done]. by rewrite (Hf _ _ _ E1). Qed.

Lemma env_loop_more (n m : nat) global env name h r : (n <= m)%nat ->
  env_loop n global env name h = Some r -> env_loop m global env name h = Some r.
Proof.
  revert m env h. induction n as [|n IH]; intros m env h Hm E; [done|]. destruct m as [|m]; [lia|]. cbn [env_loop] in *.
  destruct (has_property_str env name h) as [[|] h1]; [done|]. destruct (env =? global); [done|].
  destruct (get_property_str env s_parent h1) as [v h2]. cbv zeta in *. destruct (is_undefined W _); [done|].
  apply IH; [lia|done].
Qed.
Lemma var_env_more (n m : nat) global env h r : (n <= m)%nat ->
  var_env_loop n global env h = Some r -> var_env_loop m global env h = Some r.
Proof.
  revert m env h. induction n as [|n IH]; intros m env h Hm E; [done|]. destruct m as [|m]; [lia|]. cbn [var_env_loop] in *.
  destruct (has_property_str env s_var_env h) as [[|] h1]; [done|].
  destruct (get_property_str env s_parent h1) as [v h2]. cbv zeta in *. destruct (is_undefined W _); [done|].
  apply IH; [lia|done].
Qed.
Lemma resolve_more (n m : nat) name s h r : (n <= m)%nat ->
  resolve_binding n name s h = Some r -> resolve_binding m name s h = Some r.
Proof.
  intros Hm E. unfold resolve_binding in *. destruct (match call_frames s with _ :: _ => _ | [] => None end); [done|].
  destruct (env_loop n _ _ _ _) as [x|] eqn:E1; [|done]. by rewrite (env_loop_more _ m _ _ _ _ _ Hm E1).
Qed.

Create HintDb less.
#[export] Hint Extern 0 (less ?m ?m') => constr_eq m m'; apply less_refl : less.
#[export] Hint Resolve less_out less_attempt less_after : less.
Ltac less :=
  repeat (intros; cbv zeta; cbn [eval_host eval_expr eval_value]; first
    [ match goal with
      | |- less ?m ?m' => constr_eq m m'; apply less_refl
      | |- less (match ?x with _ => _ end) (match ?x with _ => _ end) => destruct x
      | |- less (let '(_, _) := ?x in _) _ => destruct x
      end
    | solve [eauto 3 with less] | apply less_bind | apply less_attempt | apply less_after ]).

(** Both the fuel and what the expressions answer may grow. *)
Section Fuel.
Context (H : JsHost) (ee ee' va va' : bytes -> E Value) (Hee : forall t, less (ee t) (ee' t)) (Hva : forall t, less (va t) (va' t)).
Notation Ev := {| eval_host := H; eval_expr := ee; eval_value := va |}.
Notation Ev' := {| eval_host := H; eval_expr := ee'; eval_value := va' |}.
Context (n m : nat) (Hnm : (n <= m)%nat).
Context (ev ev' : bytes -> E Value) (evc evc' : list bytes -> E Value).
Context (Hev : forall b, less (ev b) (ev' b)) (Hevc : forall l, less (evc l) (evc' l)).

Lemma less_lvalue_loop k : forall base rest, less (@lvalue_loop Ev k base rest) (@lvalue_loop Ev' k base rest).
Proof. induction k as [|k IH]; intros base rest; cbn [lvalue_loop]; less. Qed.
#[local] Hint Resolve less_lvalue_loop : less.
Lemma less_lvalue src : less (@parse_lvalue Ev n src) (@parse_lvalue Ev' m src).
Proof.
  assert (Hv : forall name, less (walk (resolve_binding_value n name)) (walk (resolve_binding_value m name))).
  { intros name. apply less_walk. intros s h r E. unfold resolve_binding_value in *.
    destruct (resolve_binding n _ _ _) as [x|] eqn:E1; [|done]. by rewrite (resolve_more _ m _ _ _ _ Hnm E1). }
  assert (He : forall name, less (walk (resolve_binding_env n name)) (walk (resolve_binding_env m name))).
  { intros name. apply less_walk. intros s h r E. unfold resolve_binding_env in *.
    destruct (resolve_binding n _ _ _) as [x|] eqn:E1; [|done]. by rewrite (resolve_more _ m _ _ _ _ Hnm E1). }
  unfold parse_lvalue. less.
Qed.
Lemma less_binding_env kind : less (binding_env n kind) (binding_env m kind).
Proof.
  destruct kind as [[| |]|]; [|apply less_refl..]. apply less_walk. intros s h r E. by apply (var_env_more n m).
Qed.
#[local] Hint Resolve less_lvalue less_binding_env : less.
Lemma less_block body : less (@eval_block Ev ev body) (@eval_block Ev' ev' body).
Proof. unfold eval_block, in_block. less. Qed.
Lemma less_block_cached l : less (@eval_block_cached Ev evc l) (@eval_block_cached Ev' evc' l).
Proof. unfold eval_block_cached, in_block. less. Qed.
#[local] Hint Resolve less_block less_block_cached : less.
Lemma less_body body b : less (@eval_body Ev ev body b) (@eval_body Ev' ev' body b).
Proof. unfold eval_body. less. Qed.
#[local] Hint Resolve less_body : less.
Lemma less_loop_body body b : less (@loop_body Ev ev evc body b) (@loop_body Ev' ev' evc' body b).
Proof. unfold loop_body. less. Qed.
#[local] Hint Resolve less_loop_body : less.
Lemma less_if src : less (@parse_if_statement Ev ev src) (@parse_if_statement Ev' ev' src).
Proof. unfold parse_if_statement. less. Qed.
Lemma less_while_loop (k k' : nat) cond b b' label : (k <= k')%nat -> less b b' ->
  forall last, less (@while_loop Ev k cond b label last) (@while_loop Ev' k' cond b' label last).
Proof.
  intros Hk Hb. revert k' Hk. induction k as [|k IH]; intros k' Hk last; [done|]. destruct k' as [|k']; [lia|].
  specialize (IH k' ltac:(lia)). cbn [while_loop]. less.
Qed.
Lemma less_when src : less (@when_some Ev src) (@when_some Ev' src).
Proof. unfold when_some. less. Qed.
#[local] Hint Resolve less_when : less.
Lemma less_for_loop (k k' : nat) cond update b b' label : (k <= k')%nat -> less b b' ->
  forall last, less (@for_loop Ev k cond update b label last) (@for_loop Ev' k' cond update b' label last).
Proof.
  intros Hk Hb. revert k' Hk. induction k as [|k IH]; intros k' Hk last; [done|]. destruct k' as [|k']; [lia|].
  specialize (IH k' ltac:(lia)). cbn [for_loop]. less.
Qed.
Lemma less_do_loop (k k' : nat) cond b b' label : (k <= k')%nat -> less b b' ->
  less (@do_loop Ev k cond b label) (@do_loop Ev' k' cond b' label).
Proof.
  intros Hk Hb. revert k' Hk. induction k as [|k IH]; intros k' Hk; [done|]. destruct k' as [|k']; [lia|].
  specialize (IH k' ltac:(lia)). cbn [do_loop]. less.
Qed.
Lemma less_for_each {A} (bind bind' : A -> E unit) b b' label l : (forall x, less (bind x) (bind' x)) -> less b b' ->
  forall last, less (for_each bind b label l last) (for_each bind' b' label l last).
Proof. intros Hi Hb. induction l as [|x l IH]; intros last; cbn [for_each]; less. Qed.
#[local] Hint Resolve less_while_loop less_for_loop less_do_loop less_for_each : less.
Lemma less_while src label : less (@parse_while_loop Ev n ev evc src label) (@parse_while_loop Ev' m ev' evc' src label).
Proof. unfold parse_while_loop. less. Qed.
Lemma less_bind_key kind env src key : less (@bind_key Ev n kind env src key) (@bind_key Ev' m kind env src key).
Proof. unfold bind_key. less. Qed.
#[local] Hint Resolve less_bind_key : less.
Lemma less_for_of x y z label : less (@parse_for_of_loop Ev n ev evc x y z label) (@parse_for_of_loop Ev' m ev' evc' x y z label).
Proof. unfold parse_for_of_loop, bind_element. less. Qed.
Lemma less_for_in x y z label : less (@parse_for_in_loop Ev n ev evc x y z label) (@parse_for_in_loop Ev' m ev' evc' x y z label).
Proof. unfold parse_for_in_loop. less. Qed.
#[local] Hint Resolve less_for_of less_for_in : less.
Lemma less_for src label : less (@parse_for_loop Ev n ev evc src label) (@parse_for_loop Ev' m ev' evc' src label).
Proof. unfold parse_for_loop. less. Qed.
Lemma less_do src label : less (@parse_do_while_loop Ev n ev evc src label) (@parse_do_while_loop Ev' m ev' evc' src label).
Proof. unfold parse_do_while_loop. less. Qed.
Lemma less_try src : less (@parse_try_catch Ev ev src) (@parse_try_catch Ev' ev' src).
Proof. unfold parse_try_catch, run_try, run_catch, run_finally. less. Qed.
Lemma less_case_body body : less (case_body ev body) (case_body ev' body).
Proof. unfold case_body. less. Qed.
#[local] Hint Resolve less_case_body : less.
Lemma less_switch_loop v cases : forall matched dflt last,
  less (@switch_loop Ev ev v cases matched dflt last) (@switch_loop Ev' ev' v cases matched dflt last).
Proof. induction cases as [|[e body] cases IH]; intros matched dflt last; cbn [switch_loop]; less. Qed.
#[local] Hint Resolve less_switch_loop : less.
Lemma less_switch src : less (@parse_switch_statement Ev ev src) (@parse_switch_statement Ev' ev' src).
Proof. unfold parse_switch_statement. less. Qed.
#[local] Hint Resolve less_if less_while less_for less_do less_try less_switch : less.
Lemma less_labeled src :
  match @parse_labeled_statement Ev n ev evc src, @parse_labeled_statement Ev' m ev' evc' src with
  | Some r, Some r' => less r r'
  | None, None => True
  | _, _ => False
  end.
Proof.
  unfold parse_labeled_statement. destruct (label_colon _ _ _ _ _ _) as [[label rest]|]; [|done]. cbn [mbind option_bind]. cbv zeta.
  destruct (negb _); [done|]. destruct (starts_brace _).
  - destruct (extract_braces _) as [[block ?]|]; [|done]. cbn. unfold with_label. less.
  - repeat case_match; simplify_eq; unfold with_label; less.
Qed.

Lemma less_checked r r' : less r r' -> less (checked r) (checked r').
Proof. intros. unfold checked. less. Qed.
Lemma less_or_error on_none r r' : less r r' -> less (or_error on_none r) (or_error on_none r').
Proof. intros. unfold or_error. less. Qed.
Lemma less_going r r' : less r r' -> less (going_on r) (going_on r').
Proof. intros. unfold going_on. less. Qed.
Ltac chain :=
  repeat (less; first [apply less_checked|apply less_going|apply less_or_error
    | match goal with |- less (match parse_labeled_statement _ _ _ ?t with _ => _ end) _ =>
        pose proof (less_labeled t); destruct (@parse_labeled_statement Ev n ev evc t), (@parse_labeled_statement Ev' m ev' evc' t);
        try contradiction end]).
Lemma less_body_stmt t : less (@body_stmt Ev n ev evc t) (@body_stmt Ev' m ev' evc' t).
Proof. unfold body_stmt. chain. Qed.
#[local] Hint Resolve less_body_stmt : less.
Lemma less_cached_stmt t : less (@cached_stmt Ev n ev evc t) (@cached_stmt Ev' m ev' evc' t).
Proof. unfold cached_stmt. rewrite !cached_chain_body. less. destruct (bool_decide (58 ∈ t)); chain. Qed.
#[local] Hint Resolve less_cached_stmt : less.
Lemma less_program_stmt t : less (@program_stmt Ev n ev evc t) (@program_stmt Ev' m ev' evc' t).
Proof. unfold program_stmt. chain. Qed.
Lemma less_body_loop s s' stmts : (forall t, less (s t) (s' t)) -> forall idx rest last, less (body_loop s stmts idx rest last) (body_loop s' stmts idx rest last).
Proof. intros Hs. induction stmts as [|x l IH]; intros idx rest last; cbn [body_loop]; less. Qed.
Lemma less_cached_loop stmts : forall last, less (@cached_loop Ev n ev evc stmts last) (@cached_loop Ev' m ev' evc' stmts last).
Proof. induction stmts as [|[|b x] l IH]; intros last; cbn [cached_loop]; less. Qed.
#[local] Hint Resolve less_program_stmt less_body_loop less_cached_loop : less.
Lemma less_body_step src : less (@body_step Ev n ev evc src) (@body_step Ev' m ev' evc' src).
Proof. unfold body_step, on_statements. less. Qed.
Lemma less_cached_step l : less (@cached_step Ev n ev evc l) (@cached_step Ev' m ev' evc' l).
Proof. unfold cached_step. less. Qed.
Lemma less_program_step src : less (@program_step Ev n ev evc src) (@program_step Ev' m ev' evc' src).
Proof. unfold program_step, on_statements. less. Qed.
End Fuel.

Lemma eval_upto_more (H : JsHost) (ee ee' va va' : bytes -> E Value) (n : nat) :
  (forall t, less (ee t) (ee' t)) -> (forall t, less (va t) (va' t)) -> forall m b, (n <= m)%nat ->
  less (@eval_upto {| eval_host := H; eval_expr := ee; eval_value := va |} n b)
       (@eval_upto {| eval_host := H; eval_expr := ee'; eval_value := va' |} m b).
Proof.
  intros Hee Hva. induction n as [|n IH]; intros m b Hm; [done|]. destruct m as [|m]; [lia|]. cbn [eval_upto].
  destruct b; [apply less_body_step|apply less_cached_step]; (done || lia || (intros; apply IH; lia)).
Qed.

(** An answer does not depend on the fuel: what a text, a list of split statements or a program
    answers with some fuel, panics and errors included, it answers with every larger amount,
    and leaves the same context. *)
Theorem more_fuel_same_answer `{Ev : JsEval} (n m : nat) (c : Ctx) (r : Res Value) (c' : Ctx) : (n <= m)%nat ->
  (forall src, eval_function_body n src c = Some (r, c') -> eval_function_body m src c = Some (r, c')) /\
  (forall stmts, eval_function_body_cached n stmts c = Some (r, c') -> eval_function_body_cached m stmts c = Some (r, c')) /\
  (forall src, eval_program n src c = Some (r, c') -> eval_program m src c = Some (r, c')).
Proof.
  intros Hm. destruct Ev as [H ee va].
  pose proof (fun b => eval_upto_more H ee ee va va n (fun t => less_refl _) (fun t => less_refl _) m b Hm) as K.
  pose proof (fun b => K (Text b)) as Ht. pose proof (fun l => K (Stmts l)) as Hs.
  split; [|split].
  - intros src. exact (Ht src c (r, c')).
  - intros stmts. exact (Hs stmts c (r, c')).
  - intros src. exact (less_program_step H ee ee va va (fun t => less_refl _) (fun t => less_refl _) n m Hm _ _ _ _ Ht Hs src c (r, c')).
Qed.

(** ** Controls *)

(** What a loop with this label may leave after a round: nothing, a return, or a jump to another label. *)
Definition used (label : option bytes) (lc : LoopControl) : Prop :=
  match lc with
  | LCNone | LCReturn => True
  | LCBreak | LCContinue => False
  | LCBreakLabel l | LCContinueLabel l => label <> Some l
  end.
Definition no_break (lc : LoopControl) : Prop := lc <> LCBreak.

Section Controls.
Context `{Ev : JsEval} (fuel : nat).
Context (ev : bytes -> E Value) (evc : list bytes -> E Value).

(** A control that a header leaves when it starts from [k0], or from a clear control after a round:
    its expressions are evaluated, its scope is made, the keys it walks are listed, and nothing else. *)
Inductive left_by_header (k0 : LoopControl) : LoopControl -> Prop :=
  | header_starts : left_by_header k0 k0
  | header_clear : left_by_header k0 LCNone
  | header_evaluates (e : bytes) (c1 c2 : Ctx) (w : Value) :
      left_by_header k0 (control c1) -> eval_expr e c1 = Some (Val w, c2) -> left_by_header k0 (control c2)
  | header_enters (c1 c2 : Ctx) :
      left_by_header k0 (control c1) -> enter_loop c1 = Some (Val tt, c2) -> left_by_header k0 (control c2)
  | header_lists (obj : Value) (c1 c2 : Ctx) (keys : list bytes) :
      left_by_header k0 (control c1) -> get_object_keys obj c1 = Some (Val keys, c2) -> left_by_header k0 (control c2).

(** The same control before and after. *)
Definition same_control (s1 s2 : Scope) : Prop := loop_control s2 = loop_control s1.
#[local] Instance same_control_rel : ScopeRel same_control.
Proof. split; unfold same_control; [done| |done..]. intros s1 s2 s3 H1 H2. by rewrite H2. Qed.

Lemma leave_control v c x c' : leave_loop v c = Some (Val x, c') -> control c' = control c.
Proof. unfold leave_loop. cbv [ebind tweak eret]. by intros [= <- <-]. Qed.
Lemma after_round_control label c b c' : after_round label c = Some (Val b, c') ->
  if b then control c' = LCNone else used label (control c').
Proof.
  unfold after_round, clear_control. cbv [ebind view]. intros E.
  destruct (control c) as [| | | |l|l] eqn:Hc; cbv [tweak eret] in E; try (simplify_eq; by rewrite ?Hc);
    unfold own_label in E; destruct (decide (label = Some l)) as [->|Hl];
    rewrite ?bool_decide_true in E by done; rewrite ?bool_decide_false in E by done; simplify_eq; by rewrite ?Hc.
Qed.

Section From.
Context (k0 : LoopControl).
Notation at_header := (left_by_header k0).
(** From a control of the header, a value leaves a control that [Q] holds of. *)
Definition lands (Q : LoopControl -> Prop) {A} (m : E A) : Prop :=
  forall c v c', at_header (control c) -> m c = Some (Val v, c') -> Q (control c').

Lemma lands_bind {A B} Q (m : E A) (k : A -> E B) :
  lands at_header m -> (forall x, lands Q (k x)) -> lands Q (ebind m k).
Proof.
  intros Hm Hk c v c' Hc E. unfold ebind in E. destruct (m c) as [[[x| |] c1]|] eqn:E1; simplify_eq.
  eapply Hk; [by eapply Hm|exact E].
Qed.
Lemma lands_keeps {A} (m : E A) : keeps same_control m -> lands at_header m.
Proof. intros Hm c v c' Hc E. specialize (Hm _ _ _ E ltac:(done)). unfold same_control, control in *. by rewrite Hm. Qed.
Lemma lands_quiet {A B} Q (m : E A) (k : A -> E B) : keeps same_control m -> (forall x, lands Q (k x)) -> lands Q (ebind m k).
Proof. intros Hm. by apply lands_bind, lands_keeps. Qed.
Lemma lands_must {A B} Q (o : option A) (k : A -> E B) : (forall x, lands Q (k x)) -> lands Q (ebind (must o) k).
Proof. apply lands_quiet. apply keeps_must, same_control_rel. Qed.
Lemma lands_none {A} Q : lands Q (enone : E A).
Proof. done. Qed.
Lemma lands_expr (e : bytes) : lands at_header (eval_expr e).
Proof. intros c w c' Hc E. by eapply header_evaluates. Qed.
Lemma lands_enter : lands at_header enter_loop.
Proof. intros c [] c' Hc E. by eapply header_enters. Qed.
Lemma lands_leave {A} Q (m : E A) (f : A -> Value) : lands Q m -> lands Q (v <- m ;; leave_loop (f v)).
Proof.
  intros Hm c v c' Hc E. unfold ebind in E. destruct (m c) as [[[x| |] c1]|] eqn:E1; simplify_eq.
  apply leave_control in E as ->. by eapply Hm.
Qed.
Lemma lands_ret {A} (Q : LoopControl -> Prop) (x : A) : (forall k, at_header k -> Q k) -> lands Q (eret x).
Proof. intros HQ c v c' Hc [= <- <-]. by apply HQ. Qed.

Section Loops.
Context (label : option bytes).
Definition consumed (k : LoopControl) : Prop := used label k \/ at_header k.
Lemma consumed_header k : at_header k -> consumed k.
Proof. by right. Qed.
(** A round and what follows, which starts from a clear control. *)
Lemma lands_round (body : E Value) (k : Value -> E Value) : (forall last, lands consumed (k last)) ->
  lands consumed (last <- body ;; again <- after_round label ;; if again : bool then k last else eret last).
Proof.
  intros Hk c v c' _ E. unfold ebind in E. destruct (body c) as [[[last| |] c1]|]; simplify_eq.
  destruct (after_round label c1) as [[[[|]| |] c2]|] eqn:E2; simplify_eq; apply after_round_control in E2.
  - eapply Hk; [|exact E]. rewrite E2. apply header_clear.
  - cbv [eret] in E. simplify_eq. by left.
Qed.
Lemma lands_while_loop n cond body : forall last, lands consumed (while_loop n cond body label last).
Proof.
  induction n as [|n IH]; intros last; [done|]. cbn [while_loop]. apply lands_bind; [apply lands_expr|].
  intros w. destruct (cond_true w); [by apply lands_round|apply lands_ret, consumed_header].
Qed.
Lemma lands_do_loop n cond body : lands consumed (do_loop n cond body label).
Proof.
  induction n as [|n IH]; [done|]. cbn [do_loop]. apply lands_round. intros last. apply lands_bind; [apply lands_expr|].
  intros w. destruct (is_truthy w); [done|apply lands_ret, consumed_header].
Qed.
Lemma lands_when_some src : lands at_header (when_some src).
Proof.
  unfold when_some. destruct (bool_decide _); [by apply lands_ret|]. apply lands_bind; [apply lands_expr|]. intros _. by apply lands_ret.
Qed.
Lemma lands_for_loop n cond update body : forall last, lands consumed (for_loop n cond update body label last).
Proof.
  induction n as [|n IH]; intros last; [done|]. cbn [for_loop]. apply lands_bind.
  - destruct (bool_decide _); [by apply lands_ret|]. apply lands_bind; [apply lands_expr|]. intros w. by apply lands_ret.
  - intros [|]; [|apply lands_ret, consumed_header]. apply lands_round. intros l. apply lands_bind; [apply lands_when_some|]. done.
Qed.
(** The rounds of [for]-[of] and [for]-[in]: without one, nothing changes. *)
Lemma for_each_control {A} (bind : A -> E unit) body l last c v c' : for_each bind body label l last c = Some (Val v, c') ->
  match l with [] => control c' = control c | _ => used label (control c') end.
Proof.
  revert last c. induction l as [|x l IH]; intros last c E; cbn [for_each] in E; [cbv [eret] in E; by simplify_eq|].
  unfold ebind at 1 in E. destruct (bind x c) as [[[?| |] c1]|]; simplify_eq.
  unfold ebind in E. destruct (body c1) as [[[v1| |] c2]|]; simplify_eq.
  destruct (after_round label c2) as [[[[|]| |] c3]|] eqn:E3; simplify_eq; apply after_round_control in E3.
  - apply IH in E. destruct l; [|done]. by rewrite E, E3.
  - cbv [eret] in E. by simplify_eq.
Qed.
Lemma lands_each {A} (bind : A -> E unit) body l last : lands consumed (for_each bind body label l last).
Proof. intros c v c' Hc E. apply for_each_control in E. destruct l; [right; by rewrite E|by left]. Qed.
Lemma keeps_length v : keeps same_control (array_length_of v).
Proof. unfold array_length_of. pose proof same_control_rel. keep; first [by auto with keeps|by apply keeps_heap]. Qed.
Lemma keeps_env kind : keeps same_control (binding_env fuel kind).
Proof. unfold binding_env. pose proof same_control_rel. destruct kind as [[]|]; auto with keeps. Qed.

Lemma lands_while src : lands consumed (parse_while_loop fuel ev evc src label).
Proof.
  unfold parse_while_loop. apply lands_must. intros rest. destruct (negb _); [done|]. apply lands_must. intros [cond after_].
  apply lands_must. intros [[body ?] b]. apply lands_while_loop.
Qed.
Lemma lands_do src : lands consumed (parse_do_while_loop fuel ev evc src label).
Proof.
  unfold parse_do_while_loop. apply lands_must. intros rest. apply lands_must. intros [bp ab]. apply lands_must. intros [[body ?] b].
  apply lands_must. intros aw. destruct (negb _); [done|]. apply lands_must. intros [cond ?]. apply lands_do_loop.
Qed.
Lemma lands_for_of x y z : lands consumed (parse_for_of_loop fuel ev evc x y z label).
Proof.
  unfold parse_for_of_loop. destruct (decl_of _) as [kind name]. apply lands_must. intros [[body ?] b].
  apply lands_bind; [apply lands_enter|]. intros _. apply lands_bind; [apply lands_expr|]. intros w.
  apply lands_quiet; [apply keeps_length|]. intros [len|].
  - apply lands_quiet; [apply keeps_env|]. intros env. apply (lands_leave _ _ (fun v => v)), lands_each.
  - intros c v c' Hc E. apply leave_control in E as ->. by right.
Qed.
Lemma lands_for_in x y z : lands consumed (parse_for_in_loop fuel ev evc x y z label).
Proof.
  unfold parse_for_in_loop. destruct (decl_of _) as [kind name]. destruct (negb (starts_brace z)); [done|].
  apply lands_must. intros [body ?]. apply lands_bind; [apply lands_enter|]. intros _. apply lands_bind; [apply lands_expr|]. intros w.
  apply lands_bind; [intros c1 keys c2 Hc E; by eapply header_lists|]. intros keys. apply lands_quiet; [apply keeps_env|]. intros env.
  destruct (_ && _); [done|]. apply (lands_leave _ _ (fun v => v)), lands_each.
Qed.
Lemma lands_for src : lands consumed (parse_for_loop fuel ev evc src label).
Proof.
  unfold parse_for_loop. apply lands_must. intros rest. destruct (negb _); [done|]. apply lands_must. intros [header after_].
  destruct (find_for_in_keyword header) as [[? ?]|]; [apply lands_for_in|].
  destruct (find_for_of_keyword header) as [[? ?]|]; [apply lands_for_of|].
  destruct (trim <$> _) as [|i [|cond [|u [|? ?]]]]; try done.
  apply lands_must. intros [[body ?] b]. apply lands_bind; [apply lands_enter|]. intros _. apply lands_bind; [apply lands_when_some|].
  intros _. apply (lands_leave _ _ (fun v => v)), lands_for_loop.
Qed.
End Loops.

(** *** [switch] *)

Definition settled (k : LoopControl) : Prop := no_break k \/ at_header k.
Lemma case_body_control body c v c' : case_body ev body c = Some (Val v, c') -> no_break (control c').
Proof.
  unfold case_body, clear_control. cbv [ebind view]. destruct (ev body c) as [[[x| |] c1]|]; [|done..].
  destruct (control c1) eqn:Hc; cbv [tweak eret]; intros [= <- <-]; unfold no_break; by rewrite ?Hc.
Qed.
(** Expressions of cases are evaluated before the first body only. *)
Lemma switch_loop_control v cases : forall (matched : bool) dflt last c r c',
  (if matched then settled (control c) else at_header (control c)) ->
  switch_loop ev v cases matched dflt last c = Some (Val r, c') -> settled (control c').
Proof.
  induction cases as [|[e body] cases IH]; intros matched dflt last c r c' Hn E; cbn [switch_loop] in E.
  { cbv [eret] in E. simplify_eq. destruct matched; [done|by right]. }
  set (run := ' (last, stop) <- case_body ev body ;; _) in E.
  assert (Hrun : forall c1, run c1 = Some (Val r, c') -> settled (control c')).
  { intros c1 E1. unfold run, ebind in E1. destruct (case_body ev body c1) as [[[[l stop]| |] c2]|] eqn:E2; simplify_eq.
    apply case_body_control in E2. destruct stop; [cbv [eret] in E1; simplify_eq; by left|].
    eapply (IH true); [by left|exact E1]. }
  destruct matched; [by eapply Hrun|]. destruct e as [e|]; [|by eapply (IH false)].
  unfold ebind at 1 in E. destruct (eval_expr e c) as [[[cv| |] c1]|] eqn:E1; simplify_eq.
  destruct (v =? cv); [by eapply Hrun|]. eapply (IH false); [|exact E]. by eapply header_evaluates.
Qed.
Lemma lands_switch src : lands settled (parse_switch_statement ev src).
Proof.
  unfold parse_switch_statement. apply lands_must. intros rest. destruct (negb _); [done|]. apply lands_must. intros [e ae].
  apply lands_bind; [apply lands_expr|]. intros w. destruct (negb _); [done|]. apply lands_must. intros [body ?].
  apply lands_must. intros cases. apply lands_bind; [apply lands_enter|]. intros _ c v c' Hc E.
  unfold ebind at 1 in E. destruct (switch_loop ev _ _ _ _ _ c) as [[[[[matched dflt] last]| |] c2]|] eqn:E2; simplify_eq.
  apply switch_loop_control in E2; [|done]. unfold ebind at 1 in E.
  destruct dflt as [dbody|]; [destruct matched|].
  - cbv [eret] in E. by rewrite (leave_control _ _ _ _ E).
  - unfold ebind at 1 in E. destruct (case_body ev dbody c2) as [[[[l3 stop]| |] c3]|] eqn:E3; simplify_eq.
    apply case_body_control in E3. cbv [eret] in E. left. by rewrite (leave_control _ _ _ _ E).
  - cbv [eret] in E. by rewrite (leave_control _ _ _ _ E).
Qed.
End From.

Lemma with_label_control label m c v c' : with_label label m c = Some (Val v, c') -> control c' <> LCBreakLabel label.
Proof.
  unfold with_label, clear_own_break, clear_control. cbv [ebind view attempt].
  destruct (m c) as [[[x| |] c1]|]; try done; destruct (control c1) as [| | | |l|l] eqn:Hc; cbv [tweak eret must enone];
    try (intros E; simplify_eq; by rewrite Hc); try done; case_bool_decide as Hl; intros E; simplify_eq; try done.
  rewrite Hc. congruence.
Qed.
End Controls.

Lemma bind_val {A B} (m : E A) (k : A -> E B) c v c' : ebind m k c = Some (Val v, c') -> exists x c1, m c = Some (Val x, c1) /\ k x c1 = Some (Val v, c').
Proof. unfold ebind. destruct (m c) as [[[x| |] c1]|]; [|done..]. intros E. by exists x, c1. Qed.

(** Where the header's expressions and scopes leave a clear control clear, it leaves nothing else. *)
Lemma calm_header `{Ev : JsEval} (k0 k : LoopControl) : k0 = LCNone ->
  (forall e c w c', control c = LCNone -> eval_expr e c = Some (Val w, c') -> control c' = LCNone) ->
  (forall c c', control c = LCNone -> enter_loop c = Some (Val tt, c') -> control c' = LCNone) ->
  (forall obj c keys c', control c = LCNone -> get_object_keys obj c = Some (Val keys, c') -> control c' = LCNone) ->
  left_by_header k0 k -> k = LCNone.
Proof. intros -> He Hs Hk. induction 1; eauto. Qed.

(** C34: Controls are used up where they belong, whatever the bodies do, over any evaluator of
    expressions and from any context.  A loop of any kind ([while], [do], the three kinds of [for])
    that has a value leaves a clear control, a return, or a jump to another label than its own; or,
    when it ended at its header, the control that the header left: the one the loop started with,
    or a clear one after a round, and then whatever evaluating the header's expressions did to it (a
    function that the header calls can leave a [break], as a call only clears a return).  A [switch]
    leaves no [break] but one that was there or that its subject or the expression of a case left;
    a labelled statement no [break] to its label; and a call no [return]. *)
Theorem controls_are_consumed `{Ev : JsEval} (fuel : nat) (ev : bytes -> E Value) (evc : list bytes -> E Value) (c : Ctx) (v : Value) (c' : Ctx) :
  let at_header := left_by_header (control c) (control c') in
  (forall src label, parse_while_loop fuel ev evc src label c = Some (Val v, c') -> used label (control c') \/ at_header) /\
  (forall src label, parse_do_while_loop fuel ev evc src label c = Some (Val v, c') -> used label (control c') \/ at_header) /\
  (forall src label, parse_for_loop fuel ev evc src label c = Some (Val v, c') -> used label (control c') \/ at_header) /\
  (forall src, parse_switch_statement ev src c = Some (Val v, c') -> control c' <> LCBreak \/ at_header) /\
  (forall label m, with_label label m c = Some (Val v, c') -> control c' <> LCBreakLabel label) /\
  (forall func this args, call_closure_with_this fuel func this args c = Some (Val v, c') -> control c' <> LCReturn).
Proof.
  split_and!.
  - intros src label. apply lands_while, header_starts.
  - intros src label. apply lands_do, header_starts.
  - intros src label. apply lands_for, header_starts.
  - intros src. apply lands_switch, header_starts.
  - intros label m. apply with_label_control.
  - intros func this args E. unfold call_closure_with_this in E.
    do 11 (apply bind_val in E as (? & ? & _ & E)). unfold after in E.
    destruct (call_body _ _ _ _ _ _ _) as [[[w| |] c1]|]; simplify_eq. unfold control, clear_return. cbn.
    by destruct (loop_control (scope c1)) eqn:Hl; cbn; rewrite ?Hl.
Qed.

(** ** An evaluator of a few expressions

    Integers, the empty string, names and assignments of these to a name: enough to run
    statements with. *)

Definition toy_walk {A} (r : option (A * JsHeap)) (c : Ctx) : option A * Ctx :=
  match r with Some (x, h) => (Some x, with_heap h c) | None => (None, c) end.
Definition toy_atom (e : bytes) (c : Ctx) : option Value * Ctx :=
  match i32_from_str e with
  | Some n => (Some (from_int32 W n), c)
  | None =>
      if is_identifier e then toy_walk (resolve_binding_value 20 e (scope c) (heap c)) c
      else if bool_decide (e = [c_quote; c_quote]) then let '(v, c) := js_new_string [] c in (Some v, c)
      else (None, c)
  end.
Definition toy_assign (name : bytes) (v : Value) (c : Ctx) : option Value * Ctx :=
  let '(env, c) := toy_walk (resolve_binding_env 20 name (scope c) (heap c)) c in
  match env with
  | Some env => let '(_, c) := js_set_property_str (H := silent_host) (default (current_env (scope c)) env) name v c in (Some v, c)
  | None => (None, c)
  end.
Definition toy_expr (e : bytes) (c : Ctx) : option Value * Ctx :=
  match split_assignment e with
  | Some (name, rhs) => let '(v, c) := toy_atom rhs c in match v with Some v => toy_assign name v c | None => (None, c) end
  | None => toy_atom e c
  end.
Definition toy : JsEval := {| eval_host := silent_host; eval_expr e := ask_for (toy_expr e); eval_value e := ask_for (toy_atom e) |}.
#[local] Existing Instance toy.

Lemma toy_within (R : Scope -> Scope -> Prop) `{HR : !ScopeRel R} : eval_within R toy.
Proof.
  assert (HH : host_within R silent_host) by (split; intros; intros c; apply sr_refl).
  assert (Hw : forall A (r : option (A * JsHeap)) s c, R s (scope c) -> R s (scope (toy_walk r c).2)) by (by intros A [[? ?]|] s c).
  assert (Ha : forall e s c, R s (scope c) -> R s (scope (toy_atom e c).2)).
  { intros e s c Hc. unfold toy_atom. destruct (i32_from_str e); [done|]. destruct (is_identifier e); [by apply Hw|].
    destruct (bool_decide _); [|done]. pose proof (kept_new_string R s [] c Hc) as K. by destruct (js_new_string [] c). }
  split; [exact HH| |intros e; apply keeps_ask; intros c; apply Ha, sr_refl].
  intros e. apply keeps_ask. intros c. unfold toy_expr.
  destruct (split_assignment e) as [[name rhs]|]; [|by apply Ha, sr_refl].
  pose proof (Ha rhs _ c (sr_refl _)) as K. destruct (toy_atom rhs c) as [[v|] c1]; [|done]. cbn [snd] in K. unfold toy_assign.
  pose proof (Hw _ (resolve_binding_env 20 name (scope c1) (heap c1)) _ _ K) as K2.
  destruct (toy_walk _ c1) as [[env|] c2]; [|done]. cbn [snd] in K2.
  pose proof (kept_set_str R HH _ (default (current_env (scope c2)) env) name v c2 K2) as K3. by destruct (js_set_property_str _ _ _ c2).
Qed.

Definition ctx0 : Ctx := let '(s, h) := context_new 4096 65536 in MkCtx h s (set_current_source [] []) no_caches [] Alive.
Definition outcome (r : option (Res Value * Ctx)) (names : list string) : option (Res (option Z) * list (option Z)) :=
  '(r, c) ← r;
  Some (match r with Val v => Val (int32 W v) | Nope => Nope | Crash => Crash end,
        (fun n => (toy_expr (bytes_of_string n) c).1 ≫= int32 W) <$> names).
Definition run_body (s : string) : option (Res Value * Ctx) := eval_function_body 12 (bytes_of_string s) ctx0.

(** Where the statement evaluator departs from the language.  A [throw] inside a block or a loop
    does not end the function: what follows runs, and the function returns; a [return] in a
    [switch] runs the cases after it, and the last [return] wins; a [default] before other cases
    does not fall through to them, and equal strings are different cases; after a [return] in
    [try] only the first statement of [finally] runs; the empty string is true; and a failure
    that [catch] handles leaves the environment of the loop it happened in on the stack. *)
Theorem statements_misbehave :
  outcome (run_body "x = 1; if (x) { throw 5 } x = 2; return x") [] = Some (Val (Some 2), []) /\
  outcome (run_body "x = 1; while (x) { x = 0; throw 5 } return 7") [] = Some (Val (Some 7), []) /\
  outcome (run_body "switch (1) { case 1: return 1; case 2: return 2; }") [] = Some (Val (Some 2), []) /\
  outcome (run_body "x = 0; switch (5) { default: x = 1; case 2: x = 2; }") ["x"%string] = Some (Val (Some 1), [Some 1]) /\
  outcome (run_body "x = 0; switch ('') { case '': x = 1; }") ["x"%string] = Some (Val None, [Some 0]) /\
  outcome (run_body "x = 0; y = 0; try { return 1 } finally { x = 2; y = 3 }") ["x"; "y"]%string = Some (Val (Some 1), [Some 2; Some 0]) /\
  outcome (run_body "x = 1; if ('') x = 2; return x") [] = Some (Val (Some 2), []) /\
  (forall r c, run_body "try { for (x = 3; 1 1; ) { } } catch (e) { y = 2 }" = Some (r, c) -> length (env_stack (scope c)) = 1%nat).
Proof.
  repeat match goal with |- _ /\ _ => split end; try (vm_compute; reflexivity).
  intros r c. vm_compute. by intros [= _ <-].
Qed.

(** *** Witnesses *)
Lemma controls_are_consumed_witness : exists c',
  parse_while_loop 12 (eval_function_body 12) (eval_function_body_cached 12) (b! "while (1) { break }") None ctx0 = Some (Val (UNDEFINED W), c') /\
  used None (control c').
Proof.
  eexists. assert (E : parse_while_loop 12 (eval_function_body 12) (eval_function_body_cached 12) (b! "while (1) { break }") None ctx0 =
    Some (Val (UNDEFINED W), _)) by (vm_compute; reflexivity).
  split; [exact E|].
  destruct (proj1 (controls_are_consumed 12 (eval_function_body 12) (eval_function_body_cached 12) ctx0 _ _) _ _ E) as [K|_]; [exact K|exact I].
Defined.
