(* ===== verification/JsCallSpec.v ===== *)
(** * JsCallSpec: what calls and scripts keep, and what their caches confuse

    The compiler and the machine change a context's scopes by the same few steps as statements
    do, so the relations of [JsStmtSpec] pass through them; a call pushes one frame and one
    environment and takes both away.  The script cache knows a script by a 64-bit hash. *)
From S2P Require Import Prelude IntCodec Utf8 ServerArgs HashStore JsText JsFloat JsValue JsMem JsProps JsArray JsAtom JsObject JsScope JsSource JsBytecode JsApi JsJson JsScan JsCompile JsVm JsStmt JsCall JsStmtSpec JsStmtLaws.

(** ** The compiler *)

Section Compiler.
Context (R : Scope -> Scope -> Prop) `{HR : !ScopeRel R}.

Definition ckeeps {A} (m : P A) : Prop :=
  forall st r st', m st = Some (r, st') -> R (scope (cs_ctx st)) (scope (cs_ctx st')).

Lemma ckeeps_ret {A} (x : A) : ckeeps (ret x).
Proof. intros st r st' [= <- <-]. apply sr_refl. Qed.
Lemma ckeeps_fail {A} : ckeeps (@fail A).
Proof. intros st r st' [= <- <-]. apply sr_refl. Qed.
Lemma ckeeps_get : ckeeps get_func.
Proof. intros st r st' [= <- <-]. apply sr_refl. Qed.
Lemma ckeeps_set f : ckeeps (set_func f).
Proof. intros st r st' [= <- <-]. apply sr_refl. Qed.
Lemma ckeeps_peek : ckeeps peek_rest.
Proof. intros st r st' [= <- <-]. apply sr_refl. Qed.
Lemma ckeeps_set_rest l : ckeeps (set_rest l).
Proof. intros st r st' [= <- <-]. apply sr_refl. Qed.
Lemma ckeeps_on_ctx {A} (f : Ctx -> A * Ctx) : within R f -> ckeeps (on_ctx f).
Proof. intros Hf st r st' H. unfold on_ctx in H. specialize (Hf (cs_ctx st)). destruct (f (cs_ctx st)). by simplify_eq. Qed.
Lemma ckeeps_bind {A B} (m : P A) (k : A -> P B) : ckeeps m -> (forall x, ckeeps (k x)) -> ckeeps (bind m k).
Proof.
  intros Hm Hk st r st' H. unfold bind in H. destruct (m st) as [[[x|] st1]|] eqn:E1; simplify_eq; [|by eapply Hm].
  eapply sr_trans; [by eapply Hm|by eapply Hk].
Qed.
Lemma ckeeps_option {A} (o : option A) : ckeeps (from_option o).
Proof. destruct o; [apply ckeeps_ret|apply ckeeps_fail]. Qed.
Lemma ckeeps_result {A} (o : Result A) : ckeeps (from_result o).
Proof. destruct o; [apply ckeeps_ret|apply ckeeps_fail]. Qed.
Lemma within_view {A} (f : Ctx -> A) : within R (fun c => (f c, c)).
Proof. intros c. apply sr_refl. Qed.
Lemma within_new_string bs : within R (js_new_string bs).
Proof. intros c. by apply kept_new_string, sr_refl. Qed.
Lemma within_float d : within R (js_new_float64 d).
Proof. intros c. unfold js_new_float64. destruct (alloc_float _ _) as [[?|] ?]; [apply sr_refl|]. by apply kept_oom, sr_refl. Qed.
Lemma within_number n : within R (number_to_value n).
Proof. intros c. unfold number_to_value. cbv zeta. destruct (_ && _); [apply sr_refl|apply within_float]. Qed.

Ltac ck :=
  repeat (intros; cbv zeta;
    first [ solve [eauto 2 using ckeeps_ret, ckeeps_fail, ckeeps_get, ckeeps_set, ckeeps_peek, ckeeps_set_rest, ckeeps_option,
              ckeeps_result, ckeeps_on_ctx, within_view, within_new_string, within_float, within_number]
          | apply ckeeps_bind
          | match goal with
            | |- ckeeps (match ?x with _ => _ end) => destruct x
            | |- ckeeps (let '(_, _) := ?x in _) => destruct x
            end ]).

Lemma ckeeps_emit op a b : ckeeps (emit op a b).
Proof. unfold emit. ck. Qed.
Ltac ck1 := repeat (progress (ck; try apply ckeeps_emit)).
Lemma ckeeps_push_const v : ckeeps (push_const v).
Proof. unfold push_const. ck. Qed.
Lemma ckeeps_ensure name : ckeeps (ensure_local name).
Proof. unfold ensure_local. ck. Qed.
Lemma ckeeps_skip : ckeeps skip_ws.
Proof. unfold skip_ws. ck. Qed.
Lemma ckeeps_consume b : ckeeps (consume b).
Proof. unfold consume. ck. Qed.
Lemma ckeeps_consume_seq s : ckeeps (consume_seq s).
Proof. unfold consume_seq. ck. Qed.
Ltac ck2 := repeat (progress (ck1; try first [apply ckeeps_push_const|apply ckeeps_ensure|apply ckeeps_skip|apply ckeeps_consume|apply ckeeps_consume_seq])).

Lemma ckeeps_parse (fuel : nat) : forall p, ckeeps (parse fuel p).
Proof.
  induction fuel as [|fuel IH]; intros p; [done|]. cbn [parse]. generalize dependent (parse fuel). intros rec Hrec.
  destruct p;
    unfold parse_comma, comma_loop, parse_conditional, parse_logical_or, or_loop, parse_logical_and, and_loop, parse_comparison,
      cmp_loop, parse_assignment, parse_expr, expr_loop, parse_term, term_loop, parse_factor, parse_postfix, postfix_loop,
      parse_primary, parse_args, args_loop, parse_name, assign_add, assign_sub, assign_simple, store_local, emit_const, emit_undefined,
      emit_string_const, emit_literal, add_undefined_const, add_number_const, add_string_const, emit_jump, here, patch_jump, emit_op,
      emit_inst, find_local, check, expect, parse_identifier, parse_number, parse_string_literal; ck2.
Qed.
Lemma ckeeps_full_expr src : ckeeps (compile_full_expr src).
Proof. pose proof (ckeeps_parse (parse_fuel src) PComma). unfold compile_full_expr. ck2. Qed.
Lemma ckeeps_each (rec : bytes -> P unit) : (forall s, ckeeps (rec s)) -> forall l, ckeeps (each rec l).
Proof. intros Hr l. induction l as [|s l IH]; cbn [each]; ck2. Qed.
Lemma ckeeps_stmts (fuel : nat) : forall p, ckeeps (compile_rec fuel p).
Proof.
  induction fuel as [|fuel IH]; intros p; [done|]. cbn [compile_rec].
  assert (H1 : forall s, ckeeps (compile_rec fuel (SStmt s))) by (intros; apply IH).
  assert (H2 : forall s, ckeeps (compile_rec fuel (SIf s))) by (intros; apply IH).
  pose proof (ckeeps_each _ H1). pose proof ckeeps_full_expr.
  destruct p; unfold stmt_body, compile_if_stmt, compile_for_loop, compile_block, compile_var_decl, compile_return, compile_discard,
    try_compile_inc_update, store_local, emit_undefined, add_undefined_const, emit_jump, here, patch_jump, emit_op, emit_inst; ck2.
Qed.
Lemma ckeeps_compile params stmts : ckeeps (add_params params ;> compile_stmts stmts).
Proof.
  pose proof ckeeps_stmts. unfold compile_stmts, compile_stmt, emit_undefined, add_undefined_const, emit_op, emit_inst.
  apply ckeeps_bind; [induction params as [|n l IH]; cbn [add_params]; ck2|]. intros _.
  apply ckeeps_bind; [apply ckeeps_each; ck2|ck2].
Qed.

Lemma keeps_compile params stmts : keeps R (compile_with params stmts).
Proof.
  intros c r c' H. unfold compile_with, compile_function in H.
  destruct ((add_params params ;> compile_stmts stmts) _) as [[x st]|] eqn:E; [|done].
  apply ckeeps_compile in E. cbn [cs_ctx] in E. by destruct x; simplify_eq.
Qed.
End Compiler.

(** ** The machine *)

Section Machine.
Context (R : Scope -> Scope -> Prop) `{HR : !ScopeRel R} `{H : JsHost} (HH : host_within R H).

Definition mkeeps {A} (m : M A) : Prop := within R m.
Lemma mkeeps_ret {A} (x : A) : mkeeps (vret x).
Proof. intros c. apply sr_refl. Qed.
Lemma mkeeps_halt {A} v : mkeeps (vhalt v : M A).
Proof. intros c. apply sr_refl. Qed.
Lemma mkeeps_panic {A} : mkeeps (vpanic : M A).
Proof. intros c. apply sr_refl. Qed.
Lemma mkeeps_bind {A B} (m : M A) (k : A -> M B) : mkeeps m -> (forall x, mkeeps (k x)) -> mkeeps (vbind m k).
Proof.
  intros Hm Hk c. unfold vbind. specialize (Hm c). destruct (m c) as [[x| |] c1]; cbn [snd] in *; try done.
  eapply sr_trans; [exact Hm|apply Hk].
Qed.
Lemma mkeeps_io {A} (f : Ctx -> A * Ctx) : within R f -> mkeeps (io f).
Proof. intros Hf c. unfold io. specialize (Hf c). by destruct (f c). Qed.
Lemma mkeeps_ask {A} (f : Ctx -> A) : mkeeps (ask f).
Proof. intros c. apply sr_refl. Qed.
Lemma mkeeps_throw {A} cls msg : mkeeps (vthrow cls msg : M A).
Proof.
  intros c. unfold vthrow. assert (K : R (scope c) (scope (js_throw_error cls msg c).2)) by (apply kept_js_throw; [done|done|apply sr_refl]).
  by destruct (js_throw_error cls msg c).
Qed.
Lemma kept_prim_number s v c : R s (scope c) -> R s (scope (js_to_number v c).2).
Proof.
  intros Hc. unfold js_to_number. destruct (class_of c v); [|done].
  assert (K : R s (scope (js_to_primitive v true c).2)) by by apply kept_to_primitive.
  destruct (js_to_primitive v true c) as [prim c1]. cbn [snd] in K. by repeat case_match.
Qed.
Lemma mkeeps_number v : mkeeps (number v).
Proof.
  intros c. unfold number. assert (K : R (scope c) (scope (js_to_number v c).2)) by (apply kept_prim_number, sr_refl).
  by destruct (js_to_number v c) as [[?|] ?].
Qed.
Lemma within_get_str v n : within R (js_get_property_str v n).
Proof. intros c. apply kept_get_str; [done|done|apply sr_refl]. Qed.
Lemma within_set_str v n x : within R (js_set_property_str v n x).
Proof. intros c. apply kept_set_str; [done|done|apply sr_refl]. Qed.
Lemma within_get_uint32 v n : within R (js_get_property_uint32 v n).
Proof. intros c. apply kept_get_uint32; [done|done|apply sr_refl]. Qed.
Lemma within_to_string v : within R (js_to_string v).
Proof. intros c. apply kept_to_string; [done|done|apply sr_refl]. Qed.
Lemma within_is_function v : within R (js_is_function v).
Proof. intros c. apply kept_is_function; [done|done|apply sr_refl]. Qed.
Lemma within_heap {A} (f : JsHeap -> A * JsHeap) : within R (on_heap f).
Proof. intros c. apply kept_on_heap, sr_refl. Qed.
Lemma within_to_atom v : within R (js_value_to_atom v).
Proof.
  intros c. unfold js_value_to_atom.
  assert (K : R (scope c) (scope (if is_str c v then (v, c) else js_to_string v c).2)) by (destruct (is_str c v); [apply sr_refl|apply within_to_string]).
  destruct (if is_str c v then _ else _) as [sv c1]. cbn [snd] in K. destruct (str_of c1 sv) as [bs|]; [|done].
  pose proof (within_heap (intern_string bs) c1) as K2. destruct (on_heap _ c1). cbn [snd] in *. by eapply sr_trans.
Qed.

Lemma within_same_number a b : within R (same_number a b).
Proof.
  intros c. unfold same_number. pose proof (kept_prim_number (scope c) a c (sr_refl _)) as K1.
  destruct (js_to_number a c) as [ln c1]. cbn [snd] in K1. pose proof (kept_prim_number (scope c) b c1 K1) as K2.
  by destruct (js_to_number b c1).
Qed.
Lemma within_loose a b : within R (vm_loose_eq a b).
Proof. intros c. unfold vm_loose_eq. repeat case_match; try apply sr_refl. apply within_same_number. Qed.
Lemma within_strict a b : within R (vm_strict_eq a b).
Proof. intros c. unfold vm_strict_eq. repeat case_match; try apply sr_refl. apply within_same_number. Qed.

Ltac mk :=
  repeat (intros; cbv zeta;
    first [ solve [eauto 4 using mkeeps_ret, mkeeps_halt, mkeeps_panic, mkeeps_ask, mkeeps_throw, mkeeps_number, mkeeps_io,
              within_get_str, within_set_str, within_get_uint32, within_to_string, within_heap, within_to_atom, within_loose,
              within_strict, within_new_string, within_number, hw_function, hw_c_function, hw_value]
          | apply mkeeps_bind
          | match goal with
            | |- mkeeps (match ?x with _ => _ end) => destruct x
            | |- mkeeps (let '(_, _) := ?x in _) => destruct x
            end ]).

Lemma mkeeps_int_float ints floats a b : (forall x y, mkeeps (ints x y)) -> (forall x y, mkeeps (floats x y)) ->
  mkeeps (int_or_float ints floats a b).
Proof. intros. unfold int_or_float. mk. Qed.
Lemma mkeeps_order i s f a b : mkeeps (order i s f a b).
Proof. unfold order, push_bool. mk. Qed.
Lemma mkeeps_equality eq n a b : within R (eq a b) -> mkeeps (equality eq n a b).
Proof. intros. unfold equality, push_bool. mk. Qed.
Lemma mkeeps_push_number n : mkeeps (push_number n).
Proof. unfold push_number. mk. Qed.
Lemma mkeeps_typeof v : mkeeps (vm_typeof v).
Proof.
  unfold vm_typeof. apply mkeeps_bind; [|mk]. apply mkeeps_io. intros c. repeat (case_match; try apply sr_refl);
  match goal with E : js_is_function v c = _ |- _ => pose proof (within_is_function v c) as K; rewrite E in K; exact K end.
Qed.
Lemma mkeeps_unary op g v : unary_fn op = Some g -> mkeeps (g v).
Proof.
  pose proof mkeeps_push_number.
  destruct op; intros [= <-]; first [apply mkeeps_typeof|unfold vm_neg, vm_not, vm_bit_not, vm_to_number, push_int, push_bool; mk].
Qed.
Lemma mkeeps_binary op g a b : binary_fn op = Some g -> mkeeps (g a b).
Proof.
  pose proof mkeeps_push_number.
  destruct op; intros [= <-];
    unfold vm_sub, vm_mul, vm_div, vm_mod, bit_op, vm_shl, vm_shr, vm_ushr, shift_op, vm_lt, vm_gt, vm_le, vm_ge, vm_add, vm_concat,
      concat_strings, append_int, vm_error, vm_and, vm_or, vm_get_prop, vm_get_elem, resolve_builtin_marker_prop, resolve_string_method_marker,
      JsVm.checked, push_int, push_bool;
    try (apply mkeeps_int_float; intros);
    first [apply mkeeps_order|apply mkeeps_equality; first [apply within_loose|apply within_strict]|idtac]; mk.
Qed.
Lemma mkeeps_ins f global i fr : mkeeps (exec_ins f global i fr).
Proof.
  unfold exec_ins. destruct (unary_fn _) as [g|] eqn:Eu.
  { pose proof (fun v => mkeeps_unary _ g v Eu). unfold pop, vm_error. mk. }
  destruct (binary_fn _) as [g|] eqn:Eb.
  { pose proof (fun a b => mkeeps_binary _ g a b Eb). unfold pop, vm_error. mk. }
  unfold other_ins, pop, vm_error, inc_local, push_number, load_global, store_global, global_atom, vm_error, vm_call, call_with, vm_to_number,
    vm_set_prop, push_number.
  destruct (ins_op i); mk.
Qed.
Lemma run_loop_within (fuel : nat) f global : forall pc fr c e c', run_loop fuel f global pc fr c = Some (e, c') -> R (scope c) (scope c').
Proof.
  induction fuel as [|fuel IH]; intros pc fr c e c' E; [done|]. cbn [run_loop] in E.
  destruct (code f !! pc) as [i|]; [|simplify_eq; apply sr_refl].
  pose proof (mkeeps_ins f global i fr c) as K. destruct (exec_ins f global i fr c) as [[[?|?]|?|] c1]; cbn [snd] in K; simplify_eq; try done;
    (eapply sr_trans; [exact K|by eapply IH]).
Qed.
End Machine.

(** ** Calls *)

Section Calls.
Context (R : Scope -> Scope -> Prop) `{HR : !ScopeRel R} `{Ev : JsEval} (HE : eval_within R Ev) (fuel : nat).

Lemma keeps_run_vm m args : keeps R (run_vm fuel m args).
Proof.
  apply keeps_ran. intros c r c' E _. unfold run_module_with_locals in E.
  destruct (functions m) as [|f0 fs]; [simplify_eq; apply sr_refl|].
  destruct ((f0 :: fs) !! main m) as [f|]; [|simplify_eq; apply sr_refl].
  destruct (run_loop _ _ _ _ _ _) as [[[?|] ?]|] eqn:E1; simplify_eq;
    (eapply run_loop_within; [done|apply (ew_host _ _ HE)|exact E1]).
Qed.
#[local] Hint Resolve keeps_expr keeps_value keeps_new_object keeps_new_string keeps_new_array keeps_heap keeps_get_str
  keeps_get_uint32 keeps_throw keeps_set_str keeps_set_uint32 keeps_fill_array keeps_run_vm keeps_compile : keeps.
Lemma keeps_load_params v : keeps R (load_params v).
Proof. unfold load_params. keep. Qed.
Lemma keeps_load_body v : keeps R (load_body v).
Proof. unfold load_body. keep. Qed.
Lemma keeps_function_name v : keeps R (function_name v).
Proof. unfold function_name. keep. Qed.
Lemma keeps_bind_arguments env args : keeps R (bind_arguments env args).
Proof. unfold bind_arguments. keep. Qed.
Lemma keeps_bind_params env args specs : forall i, keeps R (bind_params env args specs i).
Proof. induction specs as [|p l IH]; intros i; cbn [bind_params]; keep. Qed.
Lemma keeps_try_bytecode key params stmts args : keeps R (try_bytecode fuel key params stmts args).
Proof. unfold try_bytecode. keep. Qed.
#[local] Hint Resolve keeps_try_bytecode : keeps.
Lemma keeps_call_body v env specs stmts args : (forall l, keeps R (eval_function_body_cached fuel l)) ->
  keeps R (call_body fuel v env specs stmts args).
Proof. intros. unfold call_body. keep. Qed.
End Calls.

(** *** Frames *)

(** A step that always has a value, unless it panics. *)
Definition nofail {A} (m : E A) : Prop := forall c c', m c <> Some (Nope, c').
Lemma nofail_bind {A B} (m : E A) (k : A -> E B) : nofail m -> (forall x, nofail (k x)) -> nofail (ebind m k).
Proof.
  intros Hm Hk c c' E. unfold ebind in E. destruct (m c) as [[[x| |] c1]|] eqn:E1; simplify_eq.
  - by eapply Hk.
  - by eapply Hm.
Qed.
Lemma nofail_ret {A} (x : A) : nofail (eret x).
Proof. done. Qed.
Lemma nofail_crash {A} : nofail (ecrash : E A).
Proof. done. Qed.
Lemma nofail_act {A} (f : Ctx -> A * Ctx) : nofail (act f).
Proof. intros c c' E. unfold act in E. destruct (f c). by apply ending_inv in E as [_ [?|?]]. Qed.
Lemma nofail_view {A} (f : Ctx -> A) : nofail (view f).
Proof. done. Qed.
Lemma nofail_tweak f : nofail (tweak f).
Proof. done. Qed.
Lemma nofail_attempt {A} (m : E A) : nofail (attempt m).
Proof. intros c c' E. unfold attempt in E. by destruct (m c) as [[[x| |] c1]|]. Qed.
Create HintDb nofail.
#[export] Hint Resolve nofail_ret nofail_crash nofail_act nofail_view nofail_tweak nofail_attempt : nofail.
Ltac nofail :=
  repeat (intros; cbv zeta; first [solve [eauto 2 with nofail] | apply nofail_bind
    | match goal with |- nofail (match ?x with _ => _ end) => destruct x end]).

(** Steps that enter a call, and that leave one; a panic leaves its frames. *)
Definition enters {A} (m : E A) : Prop := forall c r c', m c = Some (r, c') -> r <> Crash ->
  exists e fr, e :: env_stack (scope c) `suffix_of` env_stack (scope c') /\
    var_env <$> call_frames (scope c') = fr :: (var_env <$> call_frames (scope c)).
Definition leaves {A} (m : E A) : Prop := forall c r c' e s fr frs, m c = Some (r, c') -> r <> Crash ->
  e :: s `suffix_of` env_stack (scope c) -> var_env <$> call_frames (scope c) = fr :: frs ->
  s `suffix_of` env_stack (scope c') /\ var_env <$> call_frames (scope c') = frs.

Lemma keeps_call {A B} (m : E A) (k : A -> E B) : nofail m -> enters m -> (forall x, leaves (k x)) -> keeps stacked (ebind m k).
Proof.
  intros Hn Hm Hk c r c' E Hr. unfold ebind in E. destruct (m c) as [[[x| |] c1]|] eqn:E1; simplify_eq.
  - destruct (Hm _ _ _ E1 ltac:(done)) as (e & fr & Hs & Hf). by eapply (Hk x).
  - by apply Hn in E1.
Qed.
Lemma enters_after {A B} (m : E A) (k : A -> E B) : keeps stacked m -> nofail m -> (forall x, enters (k x)) -> enters (ebind m k).
Proof.
  intros Hm Hn Hk c r c' E Hr. unfold ebind in E. destruct (m c) as [[[x| |] c1]|] eqn:E1; simplify_eq.
  - destruct (Hm _ _ _ E1) as [[l1 Hl] Hf]; [done|]. destruct (Hk x _ _ _ E Hr) as (e & fr & Hs & Hf2). rewrite Hl in Hs.
    destruct Hs as [l2 Hs]. destruct (suffix_push e (env_stack (scope c)) (l1 ++ env_stack (scope c))) as [z Hz]; [by exists l1|].
    exists z, fr. split; [|congruence]. rewrite Hs. by apply suffix_app_r.
  - by apply Hn in E1.
Qed.
Lemma leaves_bind {A B} (m : E A) (k : A -> E B) : keeps stacked m -> nofail m -> (forall x, leaves (k x)) -> leaves (ebind m k).
Proof.
  intros Hm Hn Hk c r c' e s fr frs E Hr Hs Hf. unfold ebind in E. destruct (m c) as [[[x| |] c1]|] eqn:E1; simplify_eq.
  - destruct (Hm _ _ _ E1) as [Hl Hf1]; [done|]. eapply (Hk x); [done|done|by etrans|rewrite Hf1; exact Hf].
  - by apply Hn in E1.
Qed.
Lemma leaves_call {A} (m : E A) : keeps stacked m -> leaves (after m (fun s => pop_call_frame (pop_env (clear_return s)))).
Proof.
  intros Hm c r c' e s fr frs E Hr Hs Hf. unfold after in E. destruct (m c) as [[rr c1]|] eqn:E1; [|done].
  assert (Hr1 : rr <> Crash) by (by intros ->; simplify_eq). destruct (Hm _ _ _ E1 Hr1) as [Hl Hf1].
  assert (Hc : env_stack (clear_return (scope c1)) = env_stack (scope c1) /\ call_frames (clear_return (scope c1)) = call_frames (scope c1)).
  { unfold clear_return. by destruct (loop_control (scope c1)). }
  destruct Hc as [Hc1 Hc2].
  destruct rr; simplify_eq; try done; cbn [scope with_scope pop_call_frame pop_env env_stack call_frames with_env_stack with_frames];
    rewrite Hc1, Hc2; (split; [eapply suffix_tail; by etrans|]);
    (rewrite Hf in Hf1; destruct (call_frames (scope c1)); [done|]; rewrite fmap_cons in Hf1; by injection Hf1).
Qed.

Section Closures.
Context `{Ev : JsEval} (HE : eval_within stacked Ev) (fuel : nat).
#[local] Hint Resolve keeps_expr keeps_value keeps_new_object keeps_new_string keeps_new_array keeps_heap keeps_get_str
  keeps_get_uint32 keeps_throw keeps_set_str keeps_set_uint32 keeps_load_params keeps_load_body keeps_function_name
  keeps_bind_arguments keeps_bind_params keeps_predeclare_stmts keeps_try_bytecode : keeps.

Lemma nofail_set_str v n x : nofail (set_str v n x).
Proof. unfold set_str. nofail. Qed.
#[local] Hint Resolve nofail_set_str : nofail.
Lemma nofail_predeclare stmts : nofail (predeclare_block_bindings_from_stmts stmts).
Proof.
  unfold predeclare_block_bindings_from_stmts. apply nofail_bind; [nofail|intros env].
  induction stmts as [|s l IH]; cbn [predeclare_in]; unfold mark_const_binding, no_const_map; nofail.
Qed.
Lemma nofail_fill arr vals : forall i, nofail (fill_array arr i vals).
Proof. induction vals as [|v l IH]; intros i; cbn [fill_array]; nofail. Qed.
#[local] Hint Resolve nofail_predeclare nofail_fill : nofail.
Lemma nofail_arguments env args : nofail (bind_arguments env args).
Proof. unfold bind_arguments. nofail. Qed.
Lemma nofail_params env args specs : forall i, nofail (bind_params env args specs i).
Proof. induction specs as [|p l IH]; intros i; cbn [bind_params]; nofail. Qed.
#[local] Hint Resolve nofail_arguments nofail_params : nofail.

Lemma enters_enter_call parent this : enters (enter_call parent this).
Proof.
  unfold enter_call. do 3 (apply enters_after; [keep|nofail|intros ?]).
  intros c r c' E Hr.
  pose proof (keeps_set_str stacked HE x (b! "this") this (with_scope (push_call_frame (call_frame_of x) (scope c)) c)) as K.
  unfold ebind, tweak at 1 in E. destruct (set_str x (b! "this") this _) as [[[[]| |] c1]|] eqn:E1; simplify_eq.
  - specialize (K _ _ eq_refl ltac:(done)). cbv [tweak eret] in E. simplify_eq. destruct K as [Hs Hf].
    destruct (suffix_push x _ _ Hs) as [z Hz]. exists z, x. split; [exact Hz|exact Hf].
  - by apply nofail_set_str in E1.
Qed.
Lemma nofail_enter parent this : nofail (enter_call parent this).
Proof. unfold enter_call. nofail. Qed.

Lemma keeps_closure func this args : keeps stacked (call_closure_with_this fuel func this args).
Proof.
  unfold call_closure_with_this. do 6 (apply keeps_bind; [exact _|keep|intros ?]).
  apply keeps_call; [apply nofail_enter|apply enters_enter_call|intros env].
  do 4 (apply leaves_bind; [keep|nofail|intros _]).
  apply leaves_call, (keeps_call_body stacked HE). intros l. by apply keeps_eval_upto.
Qed.

Lemma keeps_load_script hash src : keeps stacked (load_script hash src).
Proof. unfold load_script, syntax_error. keep. Qed.
Lemma keeps_evaluated t e : keeps stacked (evaluated t e).
Proof. unfold evaluated, syntax_error, syntax_error_at. keep. Qed.
#[local] Hint Resolve keeps_load_script keeps_evaluated : keeps.
Lemma keeps_return_expr t e : keeps stacked (return_expr t e).
Proof. unfold return_expr. destruct (_ && _); [keep|]. destruct (if _ && _ then i32_from_str e else None); keep. Qed.
Lemma keeps_script_return t m : script_return t = Some m -> keeps stacked m.
Proof.
  pose proof keeps_return_expr as Hr. unfold script_return. destruct (starts_with _ t); [intros [= <-]; keep|].
  destruct (strip_prefix _ t) as [rest|]; [|destruct (is_word _ t); [intros [= <-]; keep|done]].
  destruct (trim rest); intros [= <-]; [keep|apply Hr].
Qed.
Lemma keeps_run_stmt t : keeps stacked (run_program_stmt fuel t).
Proof.
  unfold run_program_stmt.
  apply (keeps_program_stmt1 HE); [intros b; exact (keeps_eval_upto HE fuel (Text b))|intros l; exact (keeps_eval_upto HE fuel (Stmts l))].
Qed.
#[local] Hint Resolve keeps_run_stmt : keeps.
Lemma keeps_script_loop stmts : forall last, keeps stacked (script_loop fuel stmts last).
Proof.
  induction stmts as [|t l IH]; intros last; cbn [script_loop]; [keep|].
  apply keeps_bind; [exact _|keep|intros _]. destruct (script_return t) as [m|] eqn:Er; [by eapply keeps_script_return|].
  unfold syntax_error. keep.
Qed.
#[local] Hint Resolve keeps_script_loop : keeps.
Lemma keeps_run_script src : keeps stacked (run_script fuel src).
Proof. unfold run_script. keep. Qed.
#[local] Hint Resolve keeps_run_script : keeps.
Lemma keeps_script_body src : keeps stacked (eval_script_body fuel src).
Proof. unfold eval_script_body. keep. Qed.
Lemma keeps_program src : keeps stacked (eval_program fuel src).
Proof.
  unfold eval_program.
  apply (keeps_program_step HE); [intros b; exact (keeps_eval_upto HE fuel (Text b))|intros l; exact (keeps_eval_upto HE fuel (Stmts l))].
Qed.
End Closures.

(** ** Where calls and scripts go wrong *)

Lemma fnv_app (x y : bytes) (h : Z) : fnv_write h (x ++ y) = fnv_write (fnv_write h x) y.
Proof. apply fold_left_app. Qed.

(** Two names with one hash. *)
Definition name_a : bytes := b! "gMPflVXtwGDXbIhP73TX".
Definition name_b : bytes := b! "LtHf1prlU1bCeYZEdqWf".
Lemma names_collide (rest : bytes) : fnv1a_hash (name_a ++ rest) = fnv1a_hash (name_b ++ rest).
Proof.
  assert (H : fnv_write fnv_offset name_a = fnv_write fnv_offset name_b) by (vm_compute; reflexivity).
  unfold fnv1a_hash. rewrite !fnv_app, H. reflexivity.
Qed.

(** A function of a parameter and the rest, called. *)
#[local] Existing Instance toy.
Definition call_rest_function (args : list Value) : E Value :=
  f <- create_function [b! "a"; b! "...r"] (b! "return a") ;; call_closure 12 f args.
Definition then_script (src1 src2 : bytes) : E Value := eval_script_body 12 src1 ?> eval_script_body 12 src2.

(** Where calls and scripts go wrong.  A function with a parameter before its rest parameter panics when
    it is called without arguments.  The caches know a script by its 64-bit hash alone: two
    scripts that start with two colliding names have one hash, and the one that comes second
    is not run; it runs the first one again, and its own name is never bound, though alone it
    would be. *)
Theorem calls_and_scripts_misbehave :
  (exists c, call_rest_function [] ctx0 = Some (Crash, c)) /\
  outcome (call_rest_function [from_int32 W 3] ctx0) [] = Some (Val (Some 3), []) /\
  (forall rest, fnv1a_hash (name_a ++ rest) = fnv1a_hash (name_b ++ rest)) /\
  outcome (eval_script_body 12 (name_b ++ b! " = 2") ctx0) ["LtHf1prlU1bCeYZEdqWf"%string] = Some (Val None, [Some 2]) /\
  outcome (then_script (name_a ++ b! " = 2") (name_b ++ b! " = 2") ctx0) ["gMPflVXtwGDXbIhP73TX"; "LtHf1prlU1bCeYZEdqWf"]%string =
    Some (Val None, [Some 2; None]).
Proof.
  split; [eexists; vm_compute; reflexivity|]. split; [vm_compute; reflexivity|]. split; [exact names_collide|].
  split; vm_compute; reflexivity.
Qed.
