(* ===== verification/JsArithSpec.v ===== *)
(** * JsArithSpec: the expression parsers

    [ExprParser] against the grammar it means to read, with the value of a text as its attribute;
    [ArithParser]: its fuel is enough, and what its productions keep and answer. *)
From Stdlib Require Import SpecFloat.
From S2P Require Import Prelude IntCodec Utf8 ServerArgs HashStore JsText JsFloat JsValue JsMem JsProps JsArray JsAtom JsObject JsScope JsSource JsBytecode JsCompile JsApi JsVm JsJson JsScan JsStmt JsCall JsArith JsStmtSpec JsStmtLaws JsCallSpec.

(** ** The grammar of numeric expressions *)

Inductive NumLevel := LFactor | LTerm | LExpr.

(** The steps of the parser: [reads lv l v r] when [l] starts with an expression of the level whose
    value is [v], and [r] follows.  Operators of a level group to the left. *)
Inductive reads : NumLevel -> bytes -> f64 -> bytes -> Prop :=
| reads_number l b l' v r : skip_ws l = b :: l' -> b ∉ [c_plus; c_minus; c_lparen] ->
    parse_number (b :: l') = Some (v, r) -> reads LFactor l v r
| reads_plus l l' v r : skip_ws l = c_plus :: l' -> reads LFactor l' v r -> reads LFactor l v r
| reads_minus l l' v r : skip_ws l = c_minus :: l' -> reads LFactor l' v r -> reads LFactor l (f64_neg v) r
| reads_parens l l' v r r' : skip_ws l = c_lparen :: l' -> reads LExpr l' v r -> skip_ws r = c_rparen :: r' ->
    reads LFactor l v r'
| reads_factor l v r : reads LFactor l v r -> reads LTerm l v r
| reads_times l v r b r1 f w r2 : reads LTerm l v r -> skip_ws r = b :: r1 -> mul_div b = Some f ->
    reads LFactor r1 w r2 -> reads LTerm l (f v w) r2
| reads_term l v r : reads LTerm l v r -> reads LExpr l v r
| reads_sum l v r b r1 f w r2 : reads LExpr l v r -> skip_ws r = b :: r1 -> add_sub b = Some f ->
    reads LTerm r1 w r2 -> reads LExpr l (f v w) r2.

(** *** Consumption *)

Lemma skip_ws_length (l : bytes) : (length (skip_ws l) <= length l)%nat.
Proof. apply drop_while_length. Qed.
Lemma skip_ws_cons (l : bytes) b l' : skip_ws l = b :: l' -> (S (length l') <= length l)%nat.
Proof. intros H. pose proof (skip_ws_length l) as Hl. by rewrite H in Hl. Qed.
Lemma skip_ws_idemp (l : bytes) : skip_ws (skip_ws l) = skip_ws l.
Proof. induction l as [|b l IH]; [done|]. unfold skip_ws in *. cbn [drop_while]. destruct (ascii_space b) eqn:E; [done|]. cbn [drop_while]. by rewrite E. Qed.
Lemma take_drop_while_length (p : Z -> bool) (l : bytes) : length l = (length (take_while p l) + length (drop_while p l))%nat.
Proof. induction l as [|b l IH]; [done|]. cbn [take_while drop_while]. destruct (p b); cbn [length] in *; lia. Qed.
Lemma take_while_some (p : Z -> bool) (l : bytes) : take_while p l <> [] -> (length (drop_while p l) < length l)%nat.
Proof. intros H. rewrite (take_drop_while_length p l). destruct (take_while p l); [done|]. cbn [length]. lia. Qed.
Lemma prefixed_number_length l v r : prefixed_number l = Some (Some (v, r)) -> (length r < length l)%nat.
Proof.
  destruct l as [|z [|b l]]; [done..|]. cbn [prefixed_number]. destruct (z =? c_0); [|done].
  destruct (radix_of b) as [radix|]; [|done]. cbn [mbind option_bind]. destruct (bool_decide _); [done|].
  destruct (from_str_radix _ _ _); [|done]. intros [= _ <-]. cbn [length]. pose proof (drop_while_length (radix_digit radix) l). lia.
Qed.
Lemma parse_number_length l v r : parse_number l = Some (v, r) -> (length r < length l)%nat.
Proof.
  unfold parse_number. destruct (prefixed_number l) as [o|] eqn:Ep; [intros ->; by eapply prefixed_number_length|].
  pose proof (drop_while_length is_digit l) as H1. pose proof (take_while_some is_digit l) as H2.
  destruct (strip_prefix [46] _) as [r1|] eqn:E1.
  - apply strip_prefix_length in E1. pose proof (drop_while_length is_digit r1). cbn [length] in E1.
    destruct (_ && _); [done|]. destruct (f64_from_str _); [|done]. intros [= _ <-]. lia.
  - destruct (take_while is_digit l) eqn:Et; [done|]. cbn [andb bool_decide]. destruct (_ && _); [done|].
    destruct (f64_from_str _); [|done]. intros [= _ <-]. by apply H2.
Qed.
Lemma reads_length lv l v r : reads lv l v r -> (length r < length l)%nat.
Proof.
  induction 1 as [l b l' v r El _ Hp|l l' v r El _ IH|l l' v r El _ IH|l l' v r r' El _ IH Er|l v r _ IH|l v r b r1 f w r2 _ IH1 Er _ _ IH2|
    l v r _ IH|l v r b r1 f w r2 _ IH1 Er _ _ IH2]; try (apply skip_ws_cons in El); try (apply skip_ws_cons in Er); [|lia..].
  apply parse_number_length in Hp. cbn [length] in Hp. lia.
Qed.

(** *** Loops *)

Section Loops.
Context (ops : Z -> option (f64 -> f64 -> f64)) (operand : bytes -> option (f64 * bytes)).
Context (Hop : forall l v r, operand l = Some (v, r) -> (length r < length l)%nat).

Lemma num_loop_fuel (n m : nat) v l : (length l < n)%nat -> (n <= m)%nat -> num_loop m ops operand v l = num_loop n ops operand v l.
Proof.
  revert m v l. induction n as [|n IH]; intros [|m] v l Hn Hm; [lia..|]. cbn [num_loop].
  destruct (skip_ws l) as [|b l'] eqn:El; [done|]. apply skip_ws_cons in El. destruct (ops b) as [f|]; [|done].
  destruct (operand l') as [[w r]|] eqn:Eo; [|done]. apply Hop in Eo. cbn [mbind option_bind]. apply IH; lia.
Qed.
Lemma num_loop_skip (n m : nat) v l l' : (length l < n)%nat -> (length l' < m)%nat -> skip_ws l = skip_ws l' ->
  num_loop n ops operand v l = num_loop m ops operand v l'.
Proof.
  intros Hn Hm E. rewrite <- (num_loop_fuel n (Nat.max n m)), <- (num_loop_fuel m (Nat.max n m)) by lia.
  destruct (Nat.max n m) eqn:Em; [lia|]. cbn [num_loop]. by rewrite E.
Qed.
Lemma num_loop_step v l b l' f w r : skip_ws l = b :: l' -> ops b = Some f -> operand l' = Some (w, r) ->
  num_loop (S (length l)) ops operand v l = num_loop (S (length r)) ops operand (f v w) r.
Proof.
  intros El Eb Eo. pose proof (skip_ws_cons _ _ _ El) as Hl. pose proof (Hop _ _ _ Eo) as Hr.
  rewrite <- (num_loop_fuel (S (length r)) (length l)) by lia. cbn [num_loop]. by rewrite El, Eb, Eo.
Qed.
Lemma num_loop_end v l : match skip_ws l with b :: _ => ops b = None | [] => True end ->
  num_loop (S (length l)) ops operand v l = Some (v, skip_ws l).
Proof. intros H. cbn [num_loop]. destruct (skip_ws l); [done|]. by rewrite H. Qed.

(** A level reads what its operands and operators do. *)
Lemma num_loop_reads (D DO : bytes -> f64 -> bytes -> Prop) :
  (forall l v r, operand l = Some (v, r) -> exists r0, DO l v r0 /\ skip_ws r0 = skip_ws r) ->
  (forall l v r b r1 f w r2, D l v r -> skip_ws r = b :: r1 -> ops b = Some f -> DO r1 w r2 -> D l (f v w) r2) ->
  forall n l0 r0 v l w r, D l0 v r0 -> skip_ws r0 = skip_ws l -> num_loop n ops operand v l = Some (w, r) ->
  exists r1, D l0 w r1 /\ skip_ws r1 = skip_ws r.
Proof.
  intros HO HD. induction n as [|n IH]; intros l0 r0 v l w r H0 Es; [done|]. cbn [num_loop].
  destruct (skip_ws l) as [|b l'] eqn:El; [intros [= <- <-]; by exists r0|]. destruct (ops b) as [f|] eqn:Eb.
  - destruct (operand l') as [[x r1]|] eqn:Eo; [|done]. cbn [mbind option_bind]. apply HO in Eo as (r2 & H2 & E2).
    apply (IH _ r2); [by eapply HD|done].
  - intros [= <- <-]. exists r0. split; [done|]. rewrite <- El, skip_ws_idemp. by rewrite El.
Qed.
Lemma num_level_reads (D DO : bytes -> f64 -> bytes -> Prop) :
  (forall l v r, operand l = Some (v, r) -> exists r0, DO l v r0 /\ skip_ws r0 = skip_ws r) ->
  (forall l v r, DO l v r -> D l v r) ->
  (forall l v r b r1 f w r2, D l v r -> skip_ws r = b :: r1 -> ops b = Some f -> DO r1 w r2 -> D l (f v w) r2) ->
  forall l v r, num_level ops operand l = Some (v, r) -> exists r0, D l v r0 /\ skip_ws r0 = skip_ws r.
Proof.
  intros HO H1 HD l v r E. unfold num_level in E. apply bind_Some in E as ([w r1] & Eo & E). apply HO in Eo as (r0 & H0 & Es).
  apply H1 in H0. revert E. by apply (num_loop_reads D DO HO HD _ l r0).
Qed.
End Loops.

(** *** [ExprParser] reads the grammar *)

Lemma num_levels_sound (factor : bytes -> option (f64 * bytes)) : (forall l v r, factor l = Some (v, r) -> reads LFactor l v r) ->
  (forall l v r, num_term factor l = Some (v, r) -> exists r0, reads LTerm l v r0 /\ skip_ws r0 = skip_ws r) /\
  (forall l v r, num_expr factor l = Some (v, r) -> exists r0, reads LExpr l v r0 /\ skip_ws r0 = skip_ws r).
Proof.
  intros HF. assert (HT : forall l v r, num_term factor l = Some (v, r) -> exists r0, reads LTerm l v r0 /\ skip_ws r0 = skip_ws r).
  { apply (num_level_reads _ _ (reads LTerm) (reads LFactor)); [|apply reads_factor|intros; by eapply reads_times].
    intros l v r E%HF. by exists r. }
  split; [done|]. apply (num_level_reads _ _ (reads LExpr) (reads LTerm)); [done|apply reads_term|intros; by eapply reads_sum].
Qed.
Lemma num_factor_sound (n : nat) l v r : num_factor n l = Some (v, r) -> reads LFactor l v r.
Proof.
  revert l v r. induction n as [|n IH]; [done|]. intros l v r. cbn [num_factor]. destruct (skip_ws l) as [|b l'] eqn:El; [done|].
  destruct (Z.eqb_spec b c_plus) as [->|H1]; [intros E%IH; by eapply reads_plus|].
  destruct (Z.eqb_spec b c_minus) as [->|H2].
  { intros E. apply bind_Some in E as ([w r1] & E%IH & [= <- <-]). by eapply reads_minus. }
  destruct (Z.eqb_spec b c_lparen) as [->|H3].
  - intros E. apply bind_Some in E as ([w r1] & E1 & E2). apply (num_levels_sound _ IH) in E1 as (r0 & E0 & Es).
    apply bind_Some in E2 as (r2 & E2 & [= <- <-]). eapply reads_parens; [done..|].
    rewrite Es. destruct (skip_ws r1) as [|z r3]; [done|]. unfold strip_prefix in E2. cbn [starts_with] in E2.
    destruct (Z.eqb_spec c_rparen z) as [<-|]; [|done]. by injection E2 as <-.
  - intros E. eapply reads_number; [exact El| |done]. rewrite !not_elem_of_cons. split_and!; [done..|]. apply not_elem_of_nil.
Qed.

Lemma num_factor_shrinks (n : nat) l v r : num_factor n l = Some (v, r) -> (length r < length l)%nat.
Proof. intros E%num_factor_sound. by eapply reads_length. Qed.
Lemma num_loop_skipped (n : nat) ops operand v l w r : num_loop n ops operand v l = Some (w, r) -> skip_ws r = r.
Proof.
  revert v l. induction n as [|n IH]; intros v l; [done|]. cbn [num_loop]. destruct (skip_ws l) as [|b l'] eqn:El; [by intros [= _ <-]|].
  destruct (ops b); [intros E; apply bind_Some in E as ([x r1] & _ & E); by eapply IH|].
  intros [= _ <-]. by rewrite <- El, skip_ws_idemp.
Qed.
Lemma num_term_shrinks (n : nat) l v r : num_term (num_factor n) l = Some (v, r) -> (length r < length l)%nat.
Proof.
  intros E. pose proof E as Es. apply (num_levels_sound _ (num_factor_sound n)) in E as (r0 & E%reads_length & E2).
  unfold num_term, num_level in Es. apply bind_Some in Es as ([w r1] & _ & Es%num_loop_skipped).
  rewrite <- Es, <- E2. pose proof (skip_ws_length r0). lia.
Qed.

(** What may follow a term: no operator that would continue it. *)
Definition ends_level (ops : Z -> option (f64 -> f64 -> f64)) (r : bytes) : Prop :=
  match skip_ws r with b :: _ => ops b = None | [] => True end.
Lemma sum_ends_term b f : add_sub b = Some f -> mul_div b = None.
Proof.
  unfold add_sub, mul_div. destruct (Z.eqb_spec b c_plus) as [->|]; [done|]. destruct (Z.eqb_spec b c_minus) as [->|]; done.
Qed.

(** A reading is found, given fuel for the text; at the level of terms and sums, as a state of the loop. *)
Definition found (lv : NumLevel) (l : bytes) (v : f64) (r : bytes) : Prop := forall n, (length l < n)%nat ->
  match lv with
  | LFactor => num_factor n l = Some (v, r)
  | LTerm => num_term (num_factor n) l = num_loop (S (length r)) mul_div (num_factor n) v r
  | LExpr => ends_level mul_div r -> num_expr (num_factor n) l = num_loop (S (length r)) add_sub (num_term (num_factor n)) v r
  end.
Lemma found_term (n : nat) l v r : found LTerm l v r -> (length l < n)%nat -> ends_level mul_div r ->
  num_term (num_factor n) l = Some (v, skip_ws r).
Proof. intros H Hn He. rewrite H by done. by apply num_loop_end. Qed.
Lemma found_expr (n : nat) l v r : found LExpr l v r -> (length l < n)%nat -> ends_level mul_div r -> ends_level add_sub r ->
  num_expr (num_factor n) l = Some (v, skip_ws r).
Proof. intros H Hn Hm Ha. rewrite H by done. by apply num_loop_end. Qed.

Lemma num_complete lv l v r : reads lv l v r -> found lv l v r.
Proof.
  induction 1 as [l b l' v r El Hb Hp|l l' v r El _ IH|l l' v r El _ IH|l l' v r r' El _ IH Er|l v r Hr IH|l v r b r1 f w r2 H1 IH1 Er Hf H2 IH2|
    l v r Hr IH|l v r b r1 f w r2 H1 IH1 Er Hf H2 IH2]; intros n Hn; unfold found in *.
  1-4: destruct n as [|n]; [lia|]; cbn [num_factor]; rewrite El; apply skip_ws_cons in El.
  - rewrite !not_elem_of_cons in Hb. destruct Hb as (H1 & H2 & H3 & _).
    by rewrite (proj2 (Z.eqb_neq _ _) H1), (proj2 (Z.eqb_neq _ _) H2), (proj2 (Z.eqb_neq _ _) H3).
  - cbn [Z.eqb]. by rewrite IH by lia.
  - cbn. by rewrite IH by lia.
  - cbn - [num_expr skip_ws]. rewrite (found_expr n l' v r IH) by (try (unfold ends_level; rewrite Er; done); lia).
    cbn [mbind option_bind]. by rewrite skip_ws_idemp, Er.
  - unfold num_term, num_level. by rewrite IH.
  - rewrite IH1 by done. pose proof (reads_length _ _ _ _ H1). pose proof (skip_ws_cons _ _ _ Er).
    eapply num_loop_step; [apply num_factor_shrinks|done..|]. apply IH2. lia.
  - intros He. unfold num_expr, num_level. rewrite (found_term n l v r IH) by done. cbn [mbind option_bind].
    apply num_loop_skip; [apply num_term_shrinks|lia..|apply skip_ws_idemp].
  - intros He. pose proof (reads_length _ _ _ _ H1). pose proof (skip_ws_cons _ _ _ Er).
    rewrite IH1; [|done|unfold ends_level; rewrite Er; by eapply sum_ends_term].
    rewrite (num_loop_step _ _ (num_term_shrinks n) _ _ _ _ f w (skip_ws r2) Er Hf) by (apply (found_term n r1 w r2 IH2); [lia|done]).
    apply num_loop_skip; [apply num_term_shrinks|lia..|apply skip_ws_idemp].
Qed.

(** *** The language of numeric expressions

    Written without the parser: what the digits of a literal are worth, where a literal ends, which
    operator is which, what binds tighter. *)

Definition blank_byte (b : Z) : Prop := b = 32 \/ b = 9 \/ b = 10 \/ b = 12 \/ b = 13.
(** [l] is blank text and then [l']. *)
Definition gap (l l' : bytes) : Prop := exists w, Forall blank_byte w /\ l = w ++ l'.

(** A numeral, read from the left. *)
Inductive numeral (radix : Z) : bytes -> Z -> Prop :=
| numeral_one b d : digit_of radix b d -> numeral radix [b] d
| numeral_more ds n b d : numeral radix ds n -> digit_of radix b d -> numeral radix (ds ++ [b]) (n * radix + d).
Inductive radix_letter : Z -> Z -> Prop :=
| letter_hex b : b = 120 \/ b = 88 -> radix_letter b 16
| letter_octal b : b = 111 \/ b = 79 -> radix_letter b 8
| letter_binary b : b = 98 \/ b = 66 -> radix_letter b 2.

(** [r] does not go on with a byte that [P] holds of. *)
Definition ends (P : Z -> Prop) (r : bytes) : Prop := match r with b :: _ => ~ P b | [] => True end.
(** A literal, its number, and what follows.  The digits after a radix letter are below 2^64 together;
    a decimal is the integer of its digits, divided by the power of ten that the point says, and
    rounded once. *)
Inductive literal : bytes -> f64 -> bytes -> Prop :=
| literal_radix p radix ds n r : radix_letter p radix -> numeral radix ds n -> n < 2 ^ 64 ->
    ends (fun b => exists d, digit_of radix b d) r -> literal (48 :: p :: ds ++ r) (f64_of_int n) r
| literal_whole ds n r : numeral 10 ds n -> ends (fun b => b = 46 \/ exists d, digit_of 10 b d) r ->
    (ds = [48] -> ends (fun b => exists radix, radix_letter b radix) r) -> literal (ds ++ r) (f64_round false n 0) r
| literal_point ws fs n r : numeral 10 (ws ++ fs) n -> ends (fun b => exists d, digit_of 10 b d) r ->
    literal (ws ++ 46 :: fs ++ r) (f64_round false n (- Z.of_nat (length fs))) r.

(** Expressions: [ "+" ] and [ "-" ] of [f64] below [ "*" ] and [ "/" ], each to the left, over signs,
    parentheses and literals, with blanks in between. *)
Inductive denotes : NumLevel -> bytes -> f64 -> bytes -> Prop :=
| denotes_literal l l' v r : gap l l' -> literal l' v r -> denotes LFactor l v r
| denotes_plus l l' v r : gap l (43 :: l') -> denotes LFactor l' v r -> denotes LFactor l v r
| denotes_minus l l' v r : gap l (45 :: l') -> denotes LFactor l' v r -> denotes LFactor l (f64_neg v) r
| denotes_parens l l' v r r' : gap l (40 :: l') -> denotes LExpr l' v r -> gap r (41 :: r') -> denotes LFactor l v r'
| denotes_factor l v r : denotes LFactor l v r -> denotes LTerm l v r
| denotes_product l v r r1 w r2 : denotes LTerm l v r -> gap r (42 :: r1) -> denotes LFactor r1 w r2 -> denotes LTerm l (f64_times v w) r2
| denotes_quotient l v r r1 w r2 : denotes LTerm l v r -> gap r (47 :: r1) -> denotes LFactor r1 w r2 -> denotes LTerm l (f64_over v w) r2
| denotes_term l v r : denotes LTerm l v r -> denotes LExpr l v r
| denotes_sum l v r r1 w r2 : denotes LExpr l v r -> gap r (43 :: r1) -> denotes LTerm r1 w r2 -> denotes LExpr l (f64_add v w) r2
| denotes_difference l v r r1 w r2 : denotes LExpr l v r -> gap r (45 :: r1) -> denotes LTerm r1 w r2 -> denotes LExpr l (f64_sub v w) r2.

(** *** The parser's steps are the language's *)

Lemma blank_space b : blank_byte b <-> ascii_space b = true.
Proof.
  unfold blank_byte, ascii_space. rewrite bool_decide_eq_true. set_unfold. lia.
Qed.
Lemma skip_blank w l : Forall blank_byte w -> skip_ws (w ++ l) = skip_ws l.
Proof. induction 1 as [|b w Hb%blank_space _ IH]; [done|]. unfold skip_ws in *. cbn [app drop_while]. by rewrite Hb. Qed.
Lemma skip_gap l : gap l (skip_ws l).
Proof.
  induction l as [|b l (w & Hw & E)]; [by exists []|]. unfold skip_ws in *. cbn [drop_while]. destruct (ascii_space b) eqn:Hb.
  - exists (b :: w). split; [by constructor; [apply blank_space|]|]. cbn. by rewrite <- E.
  - by exists [].
Qed.
Lemma gap_skip l b l' : ascii_space b = false -> gap l (b :: l') <-> skip_ws l = b :: l'.
Proof.
  intros Hb. split.
  - intros (w & Hw & ->). rewrite skip_blank by done. unfold skip_ws. cbn [drop_while]. by rewrite Hb.
  - intros <-. apply skip_gap.
Qed.
Lemma skip_all l : skip_ws l = [] <-> Forall blank_byte l.
Proof.
  split.
  - intros E. destruct (skip_gap l) as (w & Hw & ->). by rewrite E, app_nil_r.
  - intros H. rewrite <- (app_nil_r l). by rewrite skip_blank.
Qed.

(** Digits. *)
Lemma digit_radix radix b : (exists d, digit_of radix b d) <-> radix_digit radix b = true.
Proof.
  split; [intros (d & [E Hd]%digit_value); unfold radix_digit; rewrite E; by apply Z.ltb_lt|].
  unfold radix_digit. destruct (hex_digit b) as [d|] eqn:E; [|done]. intros Hd%Z.ltb_lt. exists d. by apply value_digit.
Qed.
Lemma radix_digits_snoc radix acc ds b : radix_digits radix acc (ds ++ [b]) =
  n ← radix_digits radix acc ds; d ← hex_digit b; if d <? radix then Some (n * radix + d) else None.
Proof.
  revert acc. induction ds as [|c ds IH]; intros acc; cbn [app radix_digits].
  - cbn. by destruct (hex_digit b).
  - destruct (hex_digit c) as [d|]; [|done]. destruct (d <? radix); [apply IH|done].
Qed.
Lemma numeral_digits radix ds n : numeral radix ds n <-> ds <> [] /\ radix_digits radix 0 ds = Some n.
Proof.
  split.
  - induction 1 as [b d [E Hd]%digit_value|ds n b d _ [_ IH] [E Hd]%digit_value]; (split; [by destruct ds || done|]).
    + cbn [radix_digits]. rewrite E. cbn match. by rewrite (proj2 (Z.ltb_lt _ _) Hd).
    + rewrite radix_digits_snoc, IH. cbn [mbind option_bind]. rewrite E. cbn [mbind option_bind]. by rewrite (proj2 (Z.ltb_lt _ _) Hd).
  - intros [Hne E]. revert n Hne E. induction ds as [|b ds IH] using rev_ind; [done|]. intros n _ E.
    rewrite radix_digits_snoc in E. apply bind_Some in E as (m & E1 & E). apply bind_Some in E as (d & E2 & E).
    destruct (d <? radix) eqn:Hd; [|done]. injection E as <-.
    assert (Hb : digit_of radix b d).
    { destruct (proj2 (digit_radix radix b)) as [d' Hd']; [unfold radix_digit; by rewrite E2|].
      pose proof (digit_value _ _ _ Hd') as [E3 _]. congruence. }
    destruct ds as [|c ds]; [cbn in E1; injection E1 as <-; by apply numeral_one|]. apply numeral_more; [by apply IH|done].
Qed.
Lemma numeral_all radix ds n : numeral radix ds n -> Forall (fun b => radix_digit radix b = true) ds.
Proof.
  induction 1 as [b d H|ds n b d _ IH H]; [|apply Forall_app; split; [done|]]; (apply Forall_singleton, digit_radix; by exists d).
Qed.
Lemma all_numeral radix ds : ds <> [] -> Forall (fun b => radix_digit radix b = true) ds -> exists n, numeral radix ds n.
Proof.
  induction ds as [|b ds IH] using rev_ind; [done|]. intros _ [H1 [(d & Hd)%digit_radix _]%Forall_cons]%Forall_app.
  destruct ds as [|c ds]; [exists d; by apply numeral_one|]. destruct IH as [n Hn]; [done..|]. eexists. by apply numeral_more.
Qed.

(** Longest prefixes. *)
Lemma take_drop_while (p : Z -> bool) (l : bytes) : l = take_while p l ++ drop_while p l.
Proof. induction l as [|b l IH]; [done|]. cbn [take_while drop_while]. destruct (p b); [cbn; by f_equal|done]. Qed.
Lemma take_while_all (p : Z -> bool) (l : bytes) : Forall (fun b => p b = true) (take_while p l).
Proof. induction l as [|b l IH]; cbn [take_while]; [constructor|]. destruct (p b) eqn:E; by constructor. Qed.
Lemma drop_while_ends (p : Z -> bool) (l : bytes) : ends (fun b => p b = true) (drop_while p l).
Proof. induction l as [|b l IH]; [done|]. cbn [drop_while]. destruct (p b) eqn:E; [done|]. cbn. by rewrite E. Qed.
Lemma longest (p : Z -> bool) (ds r : bytes) : Forall (fun b => p b = true) ds -> ends (fun b => p b = true) r ->
  take_while p (ds ++ r) = ds /\ drop_while p (ds ++ r) = r.
Proof.
  intros Hds Hr. induction Hds as [|b ds Hb _ [IH1 IH2]]; cbn [app take_while drop_while].
  - destruct r as [|b r]; [done|]. cbn in *. destruct (p b); done.
  - rewrite Hb. split; [by f_equal|done].
Qed.
Lemma ends_iff (P Q : Z -> Prop) r : (forall b, P b <-> Q b) -> ends P r <-> ends Q r.
Proof. intros H. destruct r as [|b r]; [done|]. cbn. by rewrite H. Qed.

(** Decimals. *)
Lemma radix_ten b : radix_digit 10 b = is_digit b.
Proof.
  unfold radix_digit, hex_digit. destruct (is_digit b) eqn:Hd.
  - apply is_digit_spec in Hd. apply Z.ltb_lt. lia.
  - unfold in_range. destruct ((97 <=? b) && (b <=? 122)) eqn:E1; [|destruct ((65 <=? b) && (b <=? 90)) eqn:E2; [|done]];
      apply Z.ltb_ge; [apply andb_true_iff in E1 as [?%Z.leb_le _]|apply andb_true_iff in E2 as [?%Z.leb_le _]]; lia.
Qed.
Lemma radix_digits_ten ds : forall acc, digits ds -> radix_digits 10 acc ds = Some (dval acc ds).
Proof.
  induction ds as [|b ds IH]; intros acc Hds; [done|]. apply Forall_cons in Hds as [Hb Hds]. cbn [radix_digits].
  pose proof (proj2 (is_digit_spec b) Hb) as Hd. unfold hex_digit. rewrite Hd. cbn match.
  rewrite (proj2 (Z.ltb_lt _ _)) by lia. by rewrite IH.
Qed.
Lemma digits_all ds : digits ds <-> Forall (fun b => is_digit b = true) ds.
Proof. apply Forall_iff. intros b. symmetry. apply is_digit_spec. Qed.
Lemma decimal_numeral ds n : numeral 10 ds n <-> ds <> [] /\ digits ds /\ n = dval 0 ds.
Proof.
  split.
  - intros Hn. pose proof (numeral_all _ _ _ Hn) as Hall. apply numeral_digits in Hn as [Hne E].
    assert (Hds : digits ds) by (apply digits_all; eapply Forall_impl; [exact Hall|]; intros b; cbv beta; by rewrite radix_ten).
    rewrite radix_digits_ten in E by done. by injection E as <-.
  - intros (Hne & Hds & ->). apply numeral_digits. by rewrite radix_digits_ten.
Qed.
Lemma decimal_value ws fs : digits ws -> digits fs -> ws ++ fs <> [] ->
  f64_from_str (ws ++ 46 :: fs) = Some (f64_round false (dval 0 (ws ++ fs)) (- Z.of_nat (length fs))) /\
  (fs = [] -> f64_from_str ws = Some (f64_round false (dval 0 ws) 0)).
Proof.
  intros Hws Hfs Hne.
  assert (Hhead : forall l b l', l = b :: l' -> 46 <= b <= 57 -> f64_from_str l = f64_number false l).
  { intros l b l' -> Hb. unfold f64_from_str, f64_sign. rewrite !(proj2 (Z.eqb_neq b _)) by lia.
    assert (Hup : to_ascii_uppercase b = b) by (unfold to_ascii_uppercase; by rewrite (proj2 (Z.leb_gt 97 b)) by lia).
    assert (Hn : forall c cs, 57 < c -> bool_decide (to_ascii_uppercase <$> b :: l' = c :: cs) = false).
    { intros c cs Hc. apply bool_decide_false. rewrite fmap_cons, Hup. intros [= -> _]. lia. }
    assert (H1 : bool_decide (to_ascii_uppercase <$> b :: l' = b! "INF") = false) by by apply (Hn 73).
    assert (H2 : bool_decide (to_ascii_uppercase <$> b :: l' = b! "INFINITY") = false) by by apply (Hn 73).
    assert (H3 : bool_decide (to_ascii_uppercase <$> b :: l' = b! "NAN") = false) by by apply (Hn 78).
    by rewrite H1, H2, H3. }
  assert (Hw : forall b l, ws = b :: l -> 46 <= b <= 57).
  { intros b l ->. apply Forall_cons in Hws as [Hb _]. lia. }
  split.
  - destruct ws as [|b ws]; [rewrite (Hhead _ 46 fs)|rewrite (Hhead _ b (ws ++ 46 :: fs))]; try (done || lia || by eapply Hw).
    all: unfold f64_number; rewrite take_digits_all by done; cbn match; change (46 =? 46) with true; cbn match.
    all: rewrite <- (app_nil_r fs) at 1; rewrite take_digits_all by done.
    all: destruct (_ ++ fs) as [|x y] eqn:E; [done|]; by cbn.
  - intros ->. destruct ws as [|b ws]; [done|]. rewrite (Hhead _ b ws) by (done || by eapply Hw). unfold f64_number.
    rewrite <- (app_nil_r (b :: ws)) at 1. rewrite take_digits_all by done. rewrite app_nil_r. by cbn.
Qed.

(** Literals. *)
Lemma letter_of p radix : radix_letter p radix <-> radix_of p = Some radix.
Proof.
  unfold radix_of. split.
  - intros [b [-> | ->]|b [-> | ->]|b [-> | ->]]; done.
  - repeat case_match; intros [= <-]; repeat match goal with H : _ || _ = true |- _ => apply orb_true_iff in H as [?%Z.eqb_eq|?%Z.eqb_eq] end;
      subst; by (apply letter_hex + apply letter_octal + apply letter_binary; auto).
Qed.
Lemma radix_value radix ds : ds <> [] -> Forall (fun b => radix_digit radix b = true) ds ->
  from_str_radix radix (2 ^ 64 - 1) ds = n ← radix_digits radix 0 ds; if n <? 2 ^ 64 then Some n else None.
Proof.
  intros Hne Hall. unfold from_str_radix. destruct ds as [|b ds]; [done|].
  assert (Hb : (b =? c_plus) = false).
  { apply Forall_cons in Hall as [Hb _]. apply Z.eqb_neq. intros ->. revert Hb. by vm_compute. }
  replace (match b :: ds with b :: (_ :: _) as l' => if b =? c_plus then l' else b :: ds | _ => b :: ds end) with (b :: ds)
    by (destruct ds; [done|]; by rewrite Hb).
  destruct (radix_digits radix 0 (b :: ds)) as [n|]; [|done]. cbn [mbind option_bind].
  destruct (Z.leb_spec n (2 ^ 64 - 1)), (Z.ltb_spec n (2 ^ 64)); done || lia.
Qed.
Lemma ends_digits radix r : ends (fun b => exists d, digit_of radix b d) r <-> ends (fun b => radix_digit radix b = true) r.
Proof. apply ends_iff. intros b. apply digit_radix. Qed.
Lemma ends_decimal r : ends (fun b => exists d, digit_of 10 b d) r <-> ends (fun b => is_digit b = true) r.
Proof. rewrite ends_digits. apply ends_iff. intros b. cbv beta. by rewrite radix_ten. Qed.

Lemma strip_point (r : bytes) : (exists x, r = 46 :: x) \/ strip_prefix [46] r = None.
Proof.
  destruct r as [|b r]; [by right|]. destruct (decide (b = 46)) as [->|Hb]; [left; by eexists|right].
  unfold strip_prefix. cbn [starts_with]. by rewrite (proj2 (Z.eqb_neq 46 b)) by congruence.
Qed.
(** A decimal at the start of a text has no radix letter. *)
Lemma no_prefix l : (match l with 48 :: b :: _ => radix_of b = None | _ => True end) -> prefixed_number l = None.
Proof.
  destruct l as [|z [|b l]]; [done..|]. cbn [prefixed_number]. intros H. destruct (Z.eqb_spec z c_0) as [->|]; [|done].
  by rewrite H.
Qed.
Lemma no_prefix_inv l : prefixed_number l = None -> match l with 48 :: b :: _ => radix_of b = None | _ => True end.
Proof.
  destruct l as [|z [|b l]]; cbn [prefixed_number]; [done|by repeat case_match|].
  destruct (Z.eqb_spec z c_0) as [->|Hz]; [|by repeat case_match; simplify_eq]. by destruct (radix_of b).
Qed.
Lemma digit_no_radix b : is_digit b = true \/ b = 46 -> radix_of b = None.
Proof.
  intros H. assert (46 <= b <= 57) by (destruct H as [H%is_digit_spec|]; lia). unfold radix_of.
  by rewrite !(proj2 (Z.eqb_neq b _)) by lia.
Qed.
Lemma literal_parse l v r : literal l v r -> parse_number l = Some (v, r).
Proof.
  intros H. unfold parse_number. destruct H as [p radix ds n r Hp Hn Hmax He|ds n r Hn He Hz|ws fs n r Hn He].
  - pose proof (numeral_all _ _ _ Hn) as Hall. apply numeral_digits in Hn as [Hne En]. apply ends_digits in He.
    destruct (longest _ _ _ Hall He) as [E1 E2]. cbn [prefixed_number]. change (48 =? c_0) with true. cbn iota.
    rewrite (proj1 (letter_of _ _) Hp). cbn [mbind option_bind]. rewrite E1, E2, bool_decide_false by done.
    rewrite radix_value, En by done. cbn [mbind option_bind]. by rewrite (proj2 (Z.ltb_lt _ _) Hmax).
  - apply decimal_numeral in Hn as (Hne & Hds & ->).
    assert (Hd : ends (fun b => is_digit b = true) r /\ ends (fun b => b = 46) r).
    { destruct r as [|b r]; [done|]. cbn in He |- *. split; intros Hb; apply He; [right|by left]. apply digit_radix. by rewrite radix_ten. }
    destruct Hd as [Hd Hp]. rewrite no_prefix.
    2: { destruct ds as [|z [|b ds]]; [done| |].
         - destruct r as [|b r]; [by repeat case_match|]. cbn [app]. destruct (Z.eqb_spec z 48) as [->|]; [|by repeat case_match; simplify_eq].
           specialize (Hz eq_refl). cbn in Hz. destruct (radix_of b) as [radix|] eqn:Er; [|done]. exfalso. apply Hz.
           exists radix. by apply letter_of.
         - cbn [app]. apply Forall_cons in Hds as [_ [Hb _]%Forall_cons]. apply is_digit_spec in Hb.
           rewrite digit_no_radix by auto. by repeat case_match. }
    destruct (longest is_digit ds r) as [E1 E2]; [by apply digits_all|done|]. rewrite E1, E2.
    assert (E3 : strip_prefix [46] r = None).
    { destruct (strip_point r) as [(x & ->)|E]; [by cbn in Hp|exact E]. }
    rewrite E3, (bool_decide_false (ds = [])) by done. cbn [andb]. rewrite app_nil_r.
    destruct (decimal_value ds [] Hds) as [_ ->]; [constructor|by rewrite app_nil_r|done|done].
  - apply decimal_numeral in Hn as (Hne & Hds & ->). apply Forall_app in Hds as [Hws Hfs]. apply ends_decimal in He.
    rewrite no_prefix.
    2: { destruct ws as [|z [|b ws]]; cbn [app]; [done| |].
         - rewrite digit_no_radix by auto. by repeat case_match.
         - apply Forall_cons in Hws as [_ [Hb _]%Forall_cons]. apply is_digit_spec in Hb.
           rewrite digit_no_radix by auto. by repeat case_match. }
    destruct (longest is_digit ws (46 :: fs ++ r)) as [E1 E2]; [by apply digits_all|done|]. rewrite E1, E2.
    change (strip_prefix [46] (46 :: fs ++ r)) with (Some (fs ++ r)). cbn iota.
    destruct (longest is_digit fs r) as [E3 E4]; [by apply digits_all|done|]. rewrite E3, E4. cbn [tail].
    assert (Hb : bool_decide (ws = []) && bool_decide (fs = []) = false).
    { apply andb_false_iff. destruct ws; [right|left]; by apply bool_decide_false. }
    rewrite Hb. destruct (decimal_value ws fs Hws Hfs Hne) as [-> _]. done.
Qed.
Lemma parse_literal l v r : parse_number l = Some (v, r) -> literal l v r.
Proof.
  unfold parse_number. destruct (prefixed_number l) as [o|] eqn:Ep.
  - intros ->. destruct l as [|z [|p l]]; [done..|]. cbn [prefixed_number] in Ep. destruct (Z.eqb_spec z c_0) as [->|]; [|done].
    apply bind_Some in Ep as (radix & Er & [= Ep]). destruct (bool_decide _) eqn:Hne; [done|]. apply bool_decide_eq_false in Hne.
    rewrite radix_value in Ep by (done || apply take_while_all). apply bind_Some in Ep as (n & En & [= <- <-]).
    apply bind_Some in En as (m & Em & En). destruct (Z.ltb_spec m (2 ^ 64)); [|done]. injection En as ->.
    rewrite (take_drop_while (radix_digit radix) l) at 1. apply (literal_radix p radix); [by apply letter_of|by apply numeral_digits|done|].
    apply ends_digits, drop_while_ends.
  - set (ws := take_while is_digit l). pose proof (take_drop_while is_digit l) as El. fold ws in El.
    assert (Hws : digits ws) by (apply digits_all, take_while_all). pose proof (drop_while_ends is_digit l) as He.
    destruct (strip_prefix [46] (drop_while is_digit l)) as [rest|] eqn:Es.
    + assert (Hr : drop_while is_digit l = 46 :: rest).
      { destruct (strip_point (drop_while is_digit l)) as [(x & Ex)|E]; [|congruence]. rewrite Ex in Es |- *. by injection Es as <-. }
      rewrite Hr in El. set (fs := take_while is_digit rest). pose proof (take_drop_while is_digit rest) as Ef. fold fs in Ef.
      assert (Hfs : digits fs) by (apply digits_all, take_while_all). cbn [tail]. destruct (_ && _) eqn:Hb; [done|].
      assert (Hne : ws ++ fs <> []) by (intros [-> ->]%app_eq_nil; done).
      destruct (decimal_value ws fs Hws Hfs Hne) as [-> _]. cbn [mbind option_bind]. intros [= <- <-].
      rewrite El, Ef at 1. apply literal_point; [apply decimal_numeral; split_and!; [done|by apply Forall_app|done]|apply ends_decimal, drop_while_ends].
    + destruct (bool_decide (ws = []) && _) eqn:Hb; [done|]. assert (Hne : ws <> []) by (intros E; by rewrite E in Hb).
      rewrite app_nil_r. pose proof (decimal_value ws [] Hws (Forall_nil_2 _) ltac:(by rewrite app_nil_r)) as [_ Hv].
      rewrite Hv by done. cbn [mbind option_bind]. intros [= <- <-]. rewrite El at 1. apply literal_whole; [by apply decimal_numeral| |].
      * destruct (drop_while is_digit l) as [|b x]; [done|]. cbn in He |- *. intros [->|Hd%digit_radix]; [by cbn in Es|].
        by rewrite radix_ten in Hd.
      * intros Ew. rewrite El, Ew in Ep. apply no_prefix_inv in Ep. destruct (drop_while is_digit l) as [|b x]; [done|].
        cbn in Ep |- *. intros (radix & Hr%letter_of). congruence.
Qed.

(** Steps. *)
Lemma literal_first l v r : literal l v r -> exists b l', l = b :: l' /\ 46 <= b <= 57.
Proof.
  intros [p radix ds n r' _ _ _ _|ds n r' Hn _ _|ws fs n r' Hn _]; [by eexists _, _| |];
    apply decimal_numeral in Hn as (Hne & Hds & _).
  - destruct ds as [|b ds]; [done|]. apply Forall_cons in Hds as [Hb _]. eexists _, _. split; [done|]. lia.
  - destruct ws as [|b ws]; [by eexists _, _|]. apply Forall_cons in Hds as [Hb _]. eexists _, _. split; [done|]. lia.
Qed.
Lemma space_not b : ~ blank_byte b -> ascii_space b = false.
Proof. intros H. destruct (ascii_space b) eqn:E; [|done]. by apply blank_space in E. Qed.
Lemma gap_op l b l' : b ∈ [43; 45; 42; 47; 40; 41] -> gap l (b :: l') <-> skip_ws l = b :: l'.
Proof. intros Hb. apply gap_skip. apply space_not. unfold blank_byte. set_unfold. lia. Qed.
Lemma reads_denotes lv l v r : reads lv l v r <-> denotes lv l v r.
Proof.
  split.
  - induction 1 as [l b l' v r El Hb Hp|l l' v r El _ IH|l l' v r El _ IH|l l' v r r' El _ IH Er|l v r _ IH|l v r b r1 f w r2 _ IH1 Er Ho _ IH2|
      l v r _ IH|l v r b r1 f w r2 _ IH1 Er Ho _ IH2].
    + apply (denotes_literal l (b :: l')); [rewrite <- El; apply skip_gap|by apply parse_literal].
    + apply (denotes_plus l l'); [by apply gap_op; [set_solver|]|done].
    + apply (denotes_minus l l'); [by apply gap_op; [set_solver|]|done].
    + apply (denotes_parens l l' v r); [by apply gap_op; [set_solver|]|done|by apply gap_op; [set_solver|]].
    + by apply denotes_factor.
    + unfold mul_div in Ho. destruct (Z.eqb_spec b 42) as [->|]; [|destruct (Z.eqb_spec b 47) as [->|]; [|done]]; injection Ho as <-;
        [eapply denotes_product|eapply denotes_quotient]; (done || by apply gap_op; [set_solver|]).
    + by apply denotes_term.
    + unfold add_sub in Ho. destruct (Z.eqb_spec b c_plus) as [->|]; [|destruct (Z.eqb_spec b c_minus) as [->|]; [|done]]; injection Ho as <-;
        [eapply denotes_sum|eapply denotes_difference]; (done || by apply gap_op; [set_solver|]).
  - induction 1 as [l l' v r Hg Hl|l l' v r Hg _ IH|l l' v r Hg _ IH|l l' v r r' Hg _ IH Hg'|l v r _ IH|
      l v r r1 w r2 _ IH1 Hg _ IH2|l v r r1 w r2 _ IH1 Hg _ IH2|l v r _ IH|l v r r1 w r2 _ IH1 Hg _ IH2|l v r r1 w r2 _ IH1 Hg _ IH2];
      try (apply gap_op in Hg; [|set_solver]); try (apply gap_op in Hg'; [|set_solver]).
    + destruct (literal_first _ _ _ Hl) as (b & l1 & -> & Hb). apply (reads_number l b l1); [|rewrite !not_elem_of_cons; split_and!; [lia..|apply not_elem_of_nil]|by apply literal_parse].
      apply gap_skip; [|done]. apply space_not. unfold blank_byte. lia.
    + by eapply reads_plus.
    + by eapply reads_minus.
    + by eapply reads_parens.
    + by apply reads_factor.
    + by eapply (reads_times _ _ _ 42).
    + by eapply (reads_times _ _ _ 47).
    + by apply reads_term.
    + by eapply (reads_sum _ _ _ 43).
    + by eapply (reads_sum _ _ _ 45).
Qed.

(** C35: [parse_numeric_expr] decides the language of numeric expressions and computes their value: it
    answers [v] exactly when the text is a sum of products of signed literals and parenthesised
    sums, with the usual precedence and grouped to the left, which denotes [v], and only blanks
    follow.  The language is written without the parser: sums and differences, products and
    quotients of [f64], hexadecimal, octal and binary literals below 2^64, and decimals rounded
    once.  (How deep the texts nest, the machine's stack limits, which the model does not have.) *)
Theorem numeric_expressions_read (src : bytes) (v : f64) :
  parse_numeric_expr src = Some v <-> exists r, denotes LExpr src v r /\ Forall blank_byte r.
Proof.
  transitivity (exists r, reads LExpr src v r /\ skip_ws r = []).
  - unfold parse_numeric_expr. split.
    + intros E. apply bind_Some in E as ([w r] & E & E2). destruct (bool_decide _) eqn:Eb; [|done]. injection E2 as <-.
      apply bool_decide_eq_true in Eb. apply (num_levels_sound _ (num_factor_sound _)) in E as (r0 & E & Es).
      exists r0. by rewrite Es.
    + intros (r & E%num_complete & Er). rewrite (found_expr _ _ _ _ E) by (try (unfold ends_level; rewrite Er; done); lia).
      cbn [mbind option_bind]. by rewrite Er.
  - split; intros (r & E & Er); exists r; (split; [by apply reads_denotes|by apply skip_all]).
Qed.

(** ** The fuel of [ArithParser] is enough *)

(** Two steps that answer alike, and leave less than [k] bytes. *)
Definition same {A} (k : nat) (m m' : E (A * bytes)) : Prop :=
  (forall c, m c = m' c) /\ (forall c x r c', m' c = Some (Val (x, r), c') -> (length r < k)%nat).

Lemma same_ret {A} k (x : A) (r : bytes) : (length r < k)%nat -> same k (eret (x, r)) (eret (x, r)).
Proof. intros H. split; [done|]. by intros c y s c' [= <- <- <-]. Qed.
Lemma same_none {A} k : same k (enone : E (A * bytes)) enone.
Proof. by split. Qed.
Lemma same_out {A} k : same k (eout : E (A * bytes)) eout.
Proof. by split. Qed.
(** What is read first may be anything; what follows is told how much it left. *)
Lemma same_bind {A B} k (m : E A) (f f' : A -> E (B * bytes)) : (forall x, same k (f x) (f' x)) -> same k (ebind m f) (ebind m f').
Proof.
  intros Hf. split; [intros c|intros c y r c'].
  - unfold ebind. destruct (m c) as [[[x| |] c1]|]; [apply Hf|done..].
  - unfold ebind. destruct (m c) as [[[x| |] c1]|]; [apply Hf|done..].
Qed.
Lemma same_bind_left {A B} j k (m m' : E (A * bytes)) (f f' : A * bytes -> E (B * bytes)) :
  same j m m' -> (forall x r, (length r < j)%nat -> same k (f (x, r)) (f' (x, r))) -> same k (ebind m f) (ebind m' f').
Proof.
  intros [He Hl] Hf. split; [intros c|intros c y r c']; unfold ebind.
  - rewrite He. destruct (m' c) as [[[[x r]| |] c1]|] eqn:E1; [|done..]. apply Hf. by eapply Hl.
  - destruct (m' c) as [[[[x s]| |] c1]|] eqn:E1; [|done..]. apply Hf. by eapply Hl.
Qed.
Lemma same_weaken {A} j k (m m' : E (A * bytes)) : same j m m' -> (j <= k)%nat -> same k m m'.
Proof. intros [He Hl] Hk. split; [done|]. intros c x r c' E. apply Hl in E. lia. Qed.
Lemma same_must {A B} k (o : option A) (f f' : A -> E (B * bytes)) :
  (forall x, o = Some x -> same k (f x) (f' x)) -> same k (ebind (must o) f) (ebind (must o) f').
Proof. intros Hf. destruct o as [x|]; [exact (Hf x eq_refl)|apply same_none]. Qed.

Lemma before_length {A} b (o : option (bytes * A)) x r : before b o = Some (x, r) -> exists y, o = Some (y, r).
Proof. unfold before. intros E. apply bind_Some in E as ([y s] & E & [= <- <-]). by exists y. Qed.
Lemma to_close_length esc op cl q depth l x r : to_close esc op cl q depth l = Some (x, r) -> (length r < length l)%nat.
Proof.
  revert q depth x r. induction l as [l IH] using (induction_ltof1 _ (@length Z)). unfold ltof in IH. intros q depth x r.
  destruct l as [|b l]; [done|]. cbn [to_close].
  assert (Hb : forall q depth, before b (to_close esc op cl q depth l) = Some (x, r) -> (length r < length (b :: l))%nat).
  { intros q' depth' (y & E)%before_length. apply IH in E; [|cbn [length]; lia]. cbn [length]. lia. }
  destruct q as [d|].
  - destruct (esc && _); [|apply Hb]. destruct l as [|c l]; [done|]. intros (y & E)%before_length. apply before_length in E as (z & E).
    apply IH in E; [|cbn [length]; lia]. cbn [length] in *. lia.
  - destruct (is_quote b); [apply Hb|]. destruct (b =? op); [apply Hb|]. destruct (b =? cl); [|apply Hb].
    destruct (depth - 1 =? 0); [|apply Hb]. intros [= _ <-]. cbn [length]. lia.
Qed.
Lemma extract_length esc op cl l x r : extract esc op cl l = Some (x, r) -> (length r < length l)%nat.
Proof. destruct l as [|b l]; [done|]. cbn [extract length]. destruct (b =? op); [|done]. intros E%to_close_length. lia. Qed.
Lemma raw_until_length d l x r : raw_until d l = Some (x, r) -> (length r < length l)%nat.
Proof.
  revert x r. induction l as [l IH] using (induction_ltof1 _ (@length Z)). unfold ltof in IH. intros x r.
  destruct l as [|b l]; [done|]. cbn [raw_until length]. destruct (b =? d); [intros [= _ <-]; lia|].
  destruct (b =? c_backslash).
  - destruct l as [|c l]; [done|]. intros (y & E)%before_length. apply before_length in E as (z & E).
    apply IH in E; cbn [length] in *; lia.
  - intros (y & E)%before_length. apply IH in E; cbn [length] in *; lia.
Qed.
Lemma parse_identifier_length l x r : parse_identifier l = Some (x, r) -> (length r < length l)%nat.
Proof.
  destruct l as [|b l]; [done|]. cbn [parse_identifier length]. destruct (ident_start b); [|done]. intros [= _ <-].
  pose proof (drop_while_length word_char l). lia.
Qed.
Lemma digits_shrink l r : some_digits l = Some r -> (length r < length l)%nat.
Proof.
  destruct l as [|b l]; [done|]. cbn [some_digits]. destruct (is_digit b) eqn:Eb; [|done]. intros [= <-].
  cbn [drop_while length]. rewrite Eb. pose proof (drop_while_length is_digit l). lia.
Qed.
Lemma starts_keyword_length w l r : starts_with_keyword w l = Some r -> (length r + length (bytes_of_string w) <= length l)%nat.
Proof.
  unfold starts_with_keyword. intros E. apply bind_Some in E as (s & Es%strip_prefix_length & E).
  destruct s as [|b s]; [injection E as <-; lia|]. destruct (word_char b); [done|]. injection E as <-. lia.
Qed.
Lemma number_raw_length l v r : parse_number_raw l = Some (v, r) -> (length r < length l)%nat.
Proof.
  unfold parse_number_raw. intros E.
  assert (H1 : exists neg l1, (match strip_prefix [c_minus] l with Some l1 => (true, l1) | None => (false, l) end) = (neg, l1) /\ (length l1 <= length l)%nat).
  { destruct (strip_prefix [c_minus] l) as [l1|] eqn:El; [apply strip_prefix_length in El|]; eexists _, _; (split; [done|]); lia. }
  destruct H1 as (neg & l1 & H1 & Hl). rewrite H1 in E. clear H1. destruct (prefixed_number l1) as [o|] eqn:Ep.
  { apply bind_Some in E as ([w s] & -> & [= _ <-]). apply prefixed_number_length in Ep. lia. }
  apply bind_Some in E as (r1 & E1 & E). apply bind_Some in E as (r2 & E2 & E). apply bind_Some in E as (r3 & E3 & E).
  apply bind_Some in E as (f & _ & [= _ <-]).
  assert (H1 : (length r1 < length l1)%nat).
  { destruct l1 as [|b l2]; [done|]. pose proof (drop_while_length is_digit l2).
    destruct (b =? c_0); [|destruct (is_digit b); [|destruct (b =? 46); [|done]]]; injection E1 as <-; cbn [length]; lia. }
  assert (H2 : (length r2 <= length r1)%nat).
  { destruct (strip_prefix [46] r1) as [s|] eqn:Es; [apply strip_prefix_length in Es; apply digits_shrink in E2; cbn [length] in Es; lia|].
    injection E2 as <-. lia. }
  assert (H3 : (length r3 <= length r2)%nat); [|lia].
  destruct r2 as [|e r2]; [by injection E3 as <-|]. destruct (_ || _); [|by injection E3 as <-].
  apply digits_shrink in E3. destruct r2 as [|s r2]; [cbn [length] in *; lia|]. destruct (_ || _); cbn [length] in *; lia.
Qed.
Lemma starts_sym_length s l : starts_sym s l = true -> (length (bytes_of_string s) <= length l)%nat.
Proof.
  unfold starts_sym. generalize (bytes_of_string s). intros p. revert l. induction p as [|x p IH]; intros [|y l]; cbn [starts_with length]; try (intros; lia).
  destruct (x =? y); [|done]. intros H%IH. lia.
Qed.
Lemma compare_op_length l op r : cmp_op l = Some (op, r) -> (length r < length l)%nat.
Proof.
  unfold cmp_op. intros E. repeat (case_match; [simplify_eq|]); simplify_eq.
  all: repeat match goal with H : starts_sym _ _ = true |- _ => apply starts_sym_length in H end.
  all: rewrite length_drop; cbn in *; lia.
Qed.

Lemma from_utf8_same l s : from_utf8 l = Some s -> s = l.
Proof. unfold from_utf8. destruct (utf8_valid l); [by intros [= ->]|done]. Qed.

(** Turns what is known of the pieces of a text into their lengths. *)
Ltac lengths :=
  repeat match goal with
  | H : from_utf8 _ = Some _ |- _ => apply from_utf8_same in H; subst
  | H : skip_ws _ = _ :: _ |- _ => apply skip_ws_cons in H
  | H : skip_ws ?l = [] |- _ => clear H
  | H : strip_prefix _ _ = Some _ |- _ => apply strip_prefix_length in H
  | H : extract _ _ _ _ = Some (_, _) |- _ => apply extract_length in H
  | H : raw_until _ _ = Some (_, _) |- _ => apply raw_until_length in H
  | H : parse_identifier _ = Some (_, _) |- _ => apply parse_identifier_length in H
  | H : parse_number_raw _ = Some (_, _) |- _ => apply number_raw_length in H
  | H : starts_with_keyword _ _ = Some _ |- _ => apply starts_keyword_length in H
  | H : starts_sym _ _ = true |- _ => apply starts_sym_length in H
  | H : cmp_op _ = Some (_, _) |- _ => apply compare_op_length in H
  | x : _ * _ |- _ => destruct x
  end;
  rewrite ?length_drop in *;
  repeat match goal with
  | |- context [length (skip_ws ?l)] => lazymatch goal with _ : (length (skip_ws l) <= _)%nat |- _ => fail | _ => pose proof (skip_ws_length l) end
  | H : context [length (skip_ws ?l)] |- _ => lazymatch goal with _ : (length (skip_ws l) <= _)%nat |- _ => fail | _ => pose proof (skip_ws_length l) end
  | |- context [length (drop_while ?p ?l)] => lazymatch goal with _ : (length (drop_while p l) <= _)%nat |- _ => fail | _ => pose proof (drop_while_length p l) end
  end;
  cbn [length bytes_of_string app] in *; lia.

Create HintDb same.
#[export] Hint Extern 0 (same _ enone _) => apply same_none : same.
#[export] Hint Extern 0 (same _ eout _) => apply same_out : same.
(** Splits equal steps, keeping the equations of the tests. *)
Ltac same_step :=
  match goal with
  | |- same _ (eret _) _ => apply same_ret; try lengths
  | |- same _ enone _ => apply same_none
  | |- same _ eout _ => apply same_out
  | |- same _ (ebind (must _) _) _ => apply same_must
  | |- same _ (ebind ?m _) (ebind ?m _) => apply same_bind
  | |- same _ (let '(_, _) := ?x in _) _ => destruct x
  | |- same _ (match ?x with _ => _ end) _ => let H := fresh "Et" in destruct x eqn:H
  end.
Ltac same := repeat (intros; cbv zeta; first [solve [eauto 2 with same] | same_step]).

(** Productions with enough rounds, over productions for shorter texts. *)
Section Same.
Context `{Ev : JsEval} `{B : JsBuiltins} (fuel : nat) (base total : Z).
Context (gas gas' : nat) (Hgas : (gas <= gas')%nat) (rec rec' : Prod -> bytes -> E (Value * bytes)).
Context (Hrec : forall p l, (length l < gas)%nat -> same (length l) (rec p l) (rec' p l)).

Lemma same_string q l : same (length l) (parse_string q l) (parse_string q l).
Proof. unfold parse_string. same. Qed.
Lemma same_regex start l : same (length l) (parse_regex_literal base total start l) (parse_regex_literal base total start l).
Proof. unfold parse_regex_literal. same. Qed.
Lemma same_number l : same (length l) (parse_number_value l) (parse_number_value l).
Proof. unfold parse_number_value. same. Qed.
Lemma same_identifier l : same (length l) (parse_identifier_value base total l) (parse_identifier_value base total l).
Proof. unfold parse_identifier_value, throw_at. same. Qed.

Lemma starts_with_length x l : starts_with x l = true -> (length x <= length l)%nat.
Proof.
  revert l. induction x as [|a x IH]; intros [|b l]; cbn [starts_with length]; try (intros; lia).
  destruct (a =? b); [|done]. intros H%IH. lia.
Qed.
Lemma same_list_item {A} k close first (done : bytes -> E (A * bytes)) item item' l :
  (forall r, (length r < length l)%nat -> same k (done r) (done r)) ->
  (forall r, (length r <= length l)%nat -> same k (item r) (item' r)) ->
  same k (list_item close first done item l) (list_item close first done item' l).
Proof.
  intros Hd Hi. unfold list_item. pose proof (skip_ws_length l). cbv zeta. destruct (starts_with _ _) eqn:E1.
  { apply Hd. apply starts_with_length in E1. cbn [length] in E1. rewrite length_drop. lia. }
  destruct first; [by apply Hi|]. apply same_must. intros r Er. apply strip_prefix_length in Er. pose proof (skip_ws_length r).
  destruct (starts_with _ (skip_ws r)) eqn:E2; [apply Hd; rewrite length_drop|apply Hi]; cbn [length] in *; lia.
Qed.
Lemma same_array_items n n' arr idx l : (length l < n)%nat -> (n <= n')%nat -> (length l < gas)%nat ->
  same (length l) (array_items rec n arr idx l) (array_items rec' n' arr idx l).
Proof.
  revert n' arr idx l. induction n as [|n IH]; intros [|n'] arr idx l Hn Hm Hg; [lia..|]. cbn [array_items].
  apply same_list_item; [intros r Hr; by apply same_ret|]. intros l1 H1.
  apply (same_bind_left (length l1)); [apply Hrec; lia|]. intros elem r Hr. apply same_bind. intros res.
  destruct (is_exception W res); [apply same_none|]. eapply same_weaken; [apply IH|]; lia.
Qed.
Lemma same_array l : (length l < gas)%nat -> same (length l) (parse_array_literal gas rec l) (parse_array_literal gas' rec' l).
Proof. intros Hl. unfold parse_array_literal. same. by apply same_array_items. Qed.
Lemma same_object_key l : same (length l) (object_key l) (object_key l).
Proof.
  unfold object_key. destruct l as [|q l]; [apply same_none|]. destruct (is_quote q).
  - apply (same_bind_left (length l)); [apply same_string|]. same.
  - apply same_must. intros s Es. split; [done|]. intros c x r c' Ec. destruct (parse_identifier s) as [[y z]|] eqn:E; [|done].
    injection Ec as <- <- <-. lengths.
Qed.
Lemma same_object_items n n' obj first l : (length l < n)%nat -> (n <= n')%nat -> (length l < gas)%nat ->
  same (length l) (object_items rec n obj first l) (object_items rec' n' obj first l).
Proof.
  revert n' obj first l. induction n as [|n IH]; intros [|n'] obj first l Hn Hm Hg; [lia..|]. cbn [object_items].
  apply same_list_item; [intros r Hr; by apply same_ret|]. intros l1 H1.
  apply (same_bind_left (length l1)); [apply same_object_key|]. intros key r Hr. apply same_must. intros r1 E1.
  assert (Hr1 : (length r1 < length l1)%nat) by lengths.
  apply (same_bind_left (length r1)); [apply Hrec; lia|]. intros elem r2 Hr2. apply same_bind. intros res.
  destruct (is_exception W res); [apply same_none|]. eapply same_weaken; [apply IH|]; lia.
Qed.
Lemma same_object l : (length l < gas)%nat -> same (length l) (parse_object_literal gas rec l) (parse_object_literal gas' rec' l).
Proof. intros Hl. unfold parse_object_literal. same. by apply same_object_items. Qed.

Lemma same_primary l : (length l <= gas)%nat ->
  same (length l) (parse_primary base total gas rec l) (parse_primary base total gas' rec' l).
Proof.
  intros Hl. unfold parse_primary. destruct (skip_ws l) as [|b l'] eqn:El; [apply same_none|]. apply skip_ws_cons in El. cbv zeta.
  destruct (b =? c_lparen); [same|].
  destruct (b =? 47); [eapply same_weaken; [apply same_regex|lia]|].
  destruct (b =? c_lbracket); [eapply same_weaken; [apply same_array|]; lia|].
  destruct (b =? c_lbrace); [eapply same_weaken; [apply same_object|]; lia|].
  destruct (is_quote b); [eapply same_weaken; [apply same_string|lia]|].
  destruct (_ || _); (eapply same_weaken; [apply same_number || apply same_identifier|cbn [length]; lia]).
Qed.
Lemma same_call_args n n' l : (length l < n)%nat -> (n <= n')%nat -> (length l < gas)%nat ->
  same (length l) (call_args rec n l) (call_args rec' n' l).
Proof.
  revert n' l. induction n as [|n IH]; intros [|n'] l Hn Hm Hg; [lia..|]. cbn [call_args].
  apply (same_bind_left (length l)); [by apply Hrec|]. intros arg r Hr.
  destruct (skip_ws r) as [|b r'] eqn:Er; [apply same_none|]. apply skip_ws_cons in Er. cbv zeta. destruct (b =? 44).
  - pose proof (skip_ws_length r'). apply (same_bind_left (length (skip_ws r'))); [apply IH; lia|]. intros args r2 Hr2. apply same_ret. lia.
  - destruct (b =? c_rparen); [apply same_ret; lia|apply same_none].
Qed.
Lemma same_args l : (length l < gas)%nat -> same (length l) (parse_args gas rec l) (parse_args gas' rec' l).
Proof.
  intros Hl. unfold parse_args. pose proof (skip_ws_length l). cbv zeta. destruct (starts_with _ _) eqn:Es.
  - apply starts_with_length in Es. cbn [length] in Es. apply same_ret. rewrite length_drop. lia.
  - eapply same_weaken; [apply same_call_args|]; lia.
Qed.
Lemma same_postfix_loop n n' value this l : (length l < n)%nat -> (n <= n')%nat -> (length l < gas)%nat ->
  same (S (length l)) (postfix_loop fuel base total gas rec n value this l) (postfix_loop fuel base total gas' rec' n' value this l).
Proof.
  revert n' value this l. induction n as [|n IH]; intros [|n'] value this l Hn Hm Hg; [lia..|]. cbn [postfix_loop].
  destruct (skip_ws l) as [|b l'] eqn:El; [apply same_ret; cbn [length]; lia|]. apply skip_ws_cons in El. cbv zeta.
  assert (Hnext : forall v t r, (length r <= length l')%nat ->
    same (S (length l)) (postfix_loop fuel base total gas rec n v t r) (postfix_loop fuel base total gas' rec' n' v t r)).
  { intros v t r Hr. eapply same_weaken; [apply IH|]; lia. }
  destruct (b =? 46).
  { apply same_must. intros s Es. apply same_must. intros [prop r] Er. apply from_utf8_same in Es. subst s.
    apply parse_identifier_length in Er. destruct (nullish value); [unfold throw_at; same|]. apply same_bind. intros v. apply Hnext. lia. }
  destruct (b =? c_lbracket).
  { apply (same_bind_left (length l')); [apply Hrec; lia|]. intros index r Hr. apply same_must. intros r1 E1.
    destruct (nullish value); [unfold throw_at; same|]. apply same_bind. intros v. apply Hnext. lengths. }
  destruct (b =? c_lparen); [|apply same_ret; cbn [length]; lia].
  apply (same_bind_left (length l')); [apply same_args; lia|]. intros args r Hr. do 2 (apply same_bind; intros ?). apply Hnext. lia.
Qed.
Lemma same_postfix l : (length l <= gas)%nat ->
  same (length l) (parse_postfix fuel base total gas rec l) (parse_postfix fuel base total gas' rec' l).
Proof.
  intros Hl. unfold parse_postfix. apply (same_bind_left (length l)); [by apply same_primary|]. intros v r Hr.
  eapply same_weaken; [apply same_postfix_loop|]; lia.
Qed.

Lemma same_unary_op k start operand operand' f l : same k (operand l) (operand' l) ->
  same k (unary_op base total start operand f l) (unary_op base total start operand' f l).
Proof. intros Ho. unfold unary_op. apply (same_bind_left k); [done|]. same. Qed.
Lemma undeclared_length l c r c' : undeclared fuel l c = Some (Val (Some r), c') -> (length r < length l)%nat.
Proof.
  unfold undeclared. destruct (from_utf8 _ ≫= _) as [[name r1]|] eqn:En; [|done].
  apply bind_Some in En as (t & ->%from_utf8_same & En%parse_identifier_length).
  unfold ebind. destruct (walk _ c) as [[[[b|]| |] c1]|]; [done| |done..].
  destruct (global_lacks name c1) as [[[[v lacks]| |] c2]|]; [|done..]. unfold eret. destruct lacks; [|done]. by intros [= <- _].
Qed.
Lemma same_unary l : (length l <= gas)%nat ->
  same (length l) (parse_unary fuel base total gas rec l) (parse_unary fuel base total gas' rec' l).
Proof.
  intros Hl. unfold parse_unary. pose proof (skip_ws_length l). cbv zeta.
  assert (Hp : forall l1, (length l1 <= length l)%nat ->
    same (length l) (parse_postfix fuel base total gas rec l1) (parse_postfix fuel base total gas' rec' l1)).
  { intros l1 H1. eapply same_weaken; [apply same_postfix|]; lia. }
  assert (Hr : forall p l1, (length l1 < length l)%nat -> same (length l) (rec p l1) (rec' p l1)).
  { intros p l1 H1. eapply same_weaken; [apply Hrec|]; lia. }
  destruct (starts_with_keyword "typeof" _) as [r|] eqn:E1.
  { apply starts_keyword_length in E1. cbn in E1. pose proof (skip_ws_length r).
    assert (Ht : same (length l) (unary_op base total (skip_ws l) (rec PUnary) typeof_value (skip_ws r))
      (unary_op base total (skip_ws l) (rec' PUnary) typeof_value (skip_ws r))) by (apply same_unary_op, Hr; lia).
    split.
    - intros c. unfold ebind. by destruct (undeclared fuel (skip_ws r) c) as [[[[r1|]| |] c1]|]; try done; apply Ht.
    - intros c x s c'. unfold ebind at 1. destruct (undeclared fuel (skip_ws r) c) as [[[[r1|]| |] c1]|] eqn:Eu; [|by apply Ht|done..].
      apply undeclared_length in Eu. unfold ebind, act, eret. destruct (js_new_string _ c1) as [t c2]. unfold ending.
      destruct (befell c1 c2); intros Es; simplify_eq; lia. }
  destruct (starts_with_keyword "void" _) as [r|] eqn:E2.
  { apply starts_keyword_length in E2. cbn in E2. pose proof (skip_ws_length r). apply same_unary_op, Hr. lia. }
  repeat (match goal with |- same _ (if ?b then _ else _) _ => destruct b end; [apply same_unary_op, Hp; rewrite length_drop; lia|]).
  by apply Hp.
Qed.

(** An operator is at least a byte. *)
Definition bites (ops : BinOp) : Prop := forall l r f, ops l = Some (r, f) -> (length r < length l)%nat.
Ltac bites := intros l r f E; unfold op_when in E; repeat (case_match; [simplify_eq|]); simplify_eq;
  repeat match goal with
  | H : _ && _ = true |- _ => apply andb_true_iff in H as []
  | H : starts_sym _ _ = true |- _ => apply starts_sym_length in H
  end; rewrite length_drop; cbn in *; lia.
Lemma or_bites : bites or_ops. Proof. unfold or_ops. bites. Qed.
Lemma and_bites : bites and_ops. Proof. unfold and_ops. bites. Qed.
Lemma bit_or_bites : bites bit_or_ops. Proof. unfold bit_or_ops. bites. Qed.
Lemma bit_xor_bites : bites bit_xor_ops. Proof. unfold bit_xor_ops. bites. Qed.
Lemma bit_and_bites : bites bit_and_ops. Proof. unfold bit_and_ops. bites. Qed.
Lemma shift_bites : bites (shift_ops base total). Proof. unfold shift_ops. bites. Qed.
Lemma additive_bites : bites (additive_ops base total). Proof. unfold additive_ops. bites. Qed.
Lemma term_bites : bites (term_ops base total).
Proof. unfold term_ops. bites. Qed.

(** Operands that are read alike from the texts of at most [k] bytes. *)
Definition alike (k : nat) (f f' : bytes -> E (Value * bytes)) : Prop := forall l, (length l <= k)%nat -> same (length l) (f l) (f' l).
Lemma same_bin_loop ops operand operand' : bites ops -> alike gas operand operand' ->
  forall n n' value l, (length l < n)%nat -> (n <= n')%nat -> (length l <= gas)%nat ->
  same (S (length l)) (bin_loop n ops operand value l) (bin_loop n' ops operand' value l).
Proof.
  intros Hb Ho. induction n as [|n IH]; intros [|n'] value l Hn Hm Hl; [lia..|]. cbn [bin_loop]. cbv zeta.
  pose proof (skip_ws_length l). destruct (ops (skip_ws l)) as [[r f]|] eqn:Eo; [|apply same_ret; lia]. apply Hb in Eo.
  apply (same_bind_left (length r)); [apply Ho; lia|]. intros rhs r1 Hr. apply same_bind. intros v.
  eapply same_weaken; [apply IH|]; lia.
Qed.
Lemma alike_level ops operand operand' : bites ops -> alike gas operand operand' ->
  alike gas (bin_level gas ops operand) (bin_level gas' ops operand').
Proof.
  intros Hb Ho l Hl. unfold bin_level. apply (same_bind_left (length l)); [by apply Ho|]. intros v r Hr.
  eapply same_weaken; [apply same_bin_loop|]; [done..|lia|lia|lia|lia].
Qed.
Lemma alike_exponent : alike gas (parse_exponent fuel base total gas rec) (parse_exponent fuel base total gas' rec').
Proof.
  intros l Hl. unfold parse_exponent. apply (same_bind_left (length l)); [by apply same_unary|]. intros v r Hr. cbv zeta.
  pose proof (skip_ws_length r). destruct (starts_sym "**" _) eqn:Es; [|apply same_ret; lia]. apply starts_sym_length in Es. cbn in Es.
  apply (same_bind_left (length l)); [eapply same_weaken; [apply Hrec|]; rewrite length_drop; lia|]. same.
Qed.
Lemma alike_shift : alike gas (parse_shift fuel base total gas rec) (parse_shift fuel base total gas' rec').
Proof. do 3 (apply alike_level; [apply shift_bites || apply additive_bites || apply term_bites|]). apply alike_exponent. Qed.
Lemma alike_comparison : alike gas (parse_comparison fuel base total gas rec) (parse_comparison fuel base total gas' rec').
Proof.
  intros l Hl. unfold parse_comparison. apply (same_bind_left (length l)); [by apply alike_shift|]. intros v r Hr. cbv zeta.
  pose proof (skip_ws_length r). destruct (cmp_op _) as [[op r1]|] eqn:Eo; [|apply same_ret; lia]. apply compare_op_length in Eo.
  apply (same_bind_left (length r1)); [apply alike_shift; lia|]. intros v2 r2 H2. apply same_bind. intros w. apply same_ret. lia.
Qed.
Lemma alike_production p : alike gas (production fuel base total gas rec p) (production fuel base total gas' rec' p).
Proof.
  destruct p; [|apply alike_exponent|intros l; apply same_unary].
  apply alike_level; [apply or_bites|]. apply alike_level; [apply and_bites|]. apply alike_level; [apply bit_or_bites|].
  apply alike_level; [apply bit_xor_bites|]. apply alike_level; [apply bit_and_bites|]. apply alike_comparison.
Qed.
End Same.

Section Enough.
Context `{Ev : JsEval} `{B : JsBuiltins} (fuel : nat) (base total : Z).

Lemma arith_upto_same n : forall m p l, (length l < n)%nat -> (n <= m)%nat ->
  same (length l) (arith_upto fuel base total n p l) (arith_upto fuel base total m p l).
Proof.
  induction n as [|n IH]; intros [|m] p l Hl Hm; [lia..|]. cbn [arith_upto].
  apply (alike_production fuel base total n m); [lia| |lia]. intros q r Hr. apply IH; lia.
Qed.

(** The length of the text is enough fuel for the parser: with any more, it answers the same, and leaves
    the same context; so where it has no answer, it is a call that has none. *)
Theorem expression_fuel_is_enough (n : nat) (src : bytes) (c : Ctx) : (length src < n)%nat ->
  arith_upto fuel base total n PExpr src c = arith_upto fuel base total (S (length src)) PExpr src c.
Proof. intros Hn. symmetry. apply (arith_upto_same (S (length src)) n); lia. Qed.
End Enough.

(** An evaluator without expressions, for running the parser alone. *)
Definition blank_eval : JsEval := {| eval_host := silent_host; eval_expr _ := eout; eval_value _ := eout |}.
Definition blank_builtins : JsBuiltins :=
  {| builtin_method _ _ _ _ _ := eret None; js_new_regexp _ _ _ c := (UNDEFINED W, c); f64_powf x _ := x |}.

Lemma expression_fuel_is_enough_witness : let parse n := @arith_upto blank_eval blank_builtins 0 0 9 n PExpr (b! "1 + 2 * 3") ctx0 in
  parse 40%nat = parse 10%nat /\ option_map fst (parse 40%nat) = Some (Val (from_int32 W 7, [])).
Proof.
  split; [|by vm_compute].
  exact (@expression_fuel_is_enough blank_eval blank_builtins 0 0 9 40 (b! "1 + 2 * 3") ctx0 ltac:(cbn; lia)).
Defined.

(** ** What the parser keeps *)

Section Keeps.
Context (R : Scope -> Scope -> Prop) `{HR : !ScopeRel R} `{Ev : JsEval} (HE : eval_within R Ev) `{B : JsBuiltins} (fuel : nat).
Context (Hmethod : forall name this args, keeps R (builtin_method Ev fuel name this args)).
Context (Hregexp : forall p f, within R (js_new_regexp eval_host p f)).
Context (Hcall : forall f args, keeps R (call_closure fuel f args)).
Let HH := ew_host _ _ HE.

Lemma keeps_number v : keeps R (to_number v).
Proof. apply keeps_ask. intros c. apply (kept_prim_number R HH), sr_refl. Qed.
Lemma keeps_primitive v n : keeps R (act (js_to_primitive v n)).
Proof. apply keeps_act. intros c. apply kept_to_primitive; [done|done|apply sr_refl]. Qed.
Lemma keeps_from_number f : keeps R (act (number_to_value f)).
Proof. by apply keeps_act, within_number. Qed.
Lemma keeps_regexp p f : keeps R (act (js_new_regexp eval_host p f)).
Proof. by apply keeps_act. Qed.
Lemma keeps_typeof v : keeps R (typeof_value v).
Proof.
  unfold typeof_value. apply keeps_bind; [done| |intros t; by apply keeps_new_string]. apply keeps_act. intros c.
  pose proof (within_is_function R HH v c) as K. do 5 (match goal with |- context [if ?b then _ else _] => destruct b; [apply sr_refl|] end).
  by destruct (js_is_function v c).
Qed.
#[local] Hint Resolve keeps_expr keeps_value keeps_new_object keeps_new_string keeps_new_array keeps_heap keeps_get_str
  keeps_get_uint32 keeps_to_string keeps_throw keeps_set_property keeps_set_uint32 keeps_number keeps_primitive
  keeps_from_number keeps_regexp keeps_typeof : keeps.

Lemma keeps_no_exception m : keeps R m -> keeps R (no_exception m).
Proof. intros. unfold no_exception. keep. Qed.
#[local] Hint Resolve keeps_no_exception : keeps.
Lemma keeps_int32 v : keeps R (js_to_int32 v).
Proof. unfold js_to_int32. keep. Qed.
Lemma keeps_uint32 v : keeps R (js_to_uint32 v).
Proof. unfold js_to_uint32. keep. Qed.
Lemma keeps_push_number f : keeps R (push_number f).
Proof. unfold push_number. keep. Qed.
#[local] Hint Resolve keeps_int32 keeps_uint32 keeps_push_number : keeps.
Lemma keeps_on_numbers f l r : keeps R (on_numbers f l r).
Proof. unfold on_numbers. keep. Qed.
Lemma keeps_concat l r : keeps R (concat_values l r).
Proof. unfold concat_values. keep. Qed.
#[local] Hint Resolve keeps_on_numbers keeps_concat : keeps.
Lemma keeps_add l r : keeps R (add_values l r).
Proof. unfold add_values. keep. Qed.
Lemma keeps_bitwise f l r : keeps R (bitwise f l r).
Proof. unfold bitwise. keep. Qed.
Lemma keeps_numbers_equal l r : keeps R (numbers_equal l r).
Proof. unfold numbers_equal. keep. Qed.
#[local] Hint Resolve keeps_add keeps_bitwise keeps_numbers_equal : keeps.
Lemma keeps_loose l r : keeps R (loose_equal l r).
Proof. unfold loose_equal. keep. Qed.
Lemma keeps_strict l r : keeps R (strict_equal l r).
Proof. unfold strict_equal. keep. Qed.
Lemma keeps_ordered s f l r : keeps R (ordered s f l r).
Proof. unfold ordered. keep. Qed.
#[local] Hint Resolve keeps_loose keeps_strict keeps_ordered : keeps.
Lemma keeps_compare op l r : keeps R (compare_values op l r).
Proof. unfold compare_values. keep. Qed.
Lemma keeps_shift_right l r : keeps R (unsigned_right_shift l r).
Proof. unfold unsigned_right_shift. keep. Qed.
#[local] Hint Resolve keeps_compare keeps_shift_right : keeps.

#[local] Hint Resolve Hmethod : keeps.
Lemma keeps_if_closure f args : keeps R (call_if_closure fuel f args).
Proof. unfold call_if_closure. keep. Qed.
#[local] Hint Resolve keeps_if_closure : keeps.
Lemma keeps_method f this args : keeps R (call_builtin_method fuel f this args).
Proof. unfold call_builtin_method. keep. Qed.
Lemma keeps_lacks name : keeps R (global_lacks name).
Proof. unfold global_lacks. keep. Qed.
Lemma keeps_marker pre prop : keeps R (new_marker pre prop).
Proof. unfold new_marker. keep. Qed.
#[local] Hint Resolve keeps_method keeps_lacks keeps_marker : keeps.
Lemma keeps_builtin_member v bs prop m : builtin_member v bs prop = Some m -> keeps R m.
Proof. unfold builtin_member. intros E. repeat (case_match; simplify_eq); keep. Qed.
Lemma keeps_member v prop : keeps R (member v prop).
Proof.
  unfold member. apply keeps_bind; [done|keep|intros bs]. destruct bs as [bs|]; [|apply keeps_no_exception; keep].
  destruct (builtin_member v bs prop) as [m|] eqn:Em; [by eapply keeps_builtin_member|apply keeps_no_exception; keep].
Qed.
Lemma keeps_element v i : keeps R (element v i).
Proof. unfold element. apply keeps_bind; [done|keep|intros idx]. apply keeps_no_exception. keep. Qed.
#[local] Hint Resolve keeps_member keeps_element : keeps.

Section Productions.
Context (base total : Z) (gas : nat) (rec : Prod -> bytes -> E (Value * bytes)) (Hrec : forall p l, keeps R (rec p l)).
#[local] Hint Resolve Hrec : keeps.

Lemma keeps_error_pos l : keeps R (error_at base total l).
Proof. unfold error_at. keep. Qed.
#[local] Hint Resolve keeps_error_pos : keeps.
Lemma keeps_throw_at {A} l cls msg : keeps R (throw_at base total l cls msg : E A).
Proof. unfold throw_at. keep. Qed.
Lemma keeps_string q l : keeps R (parse_string q l).
Proof. unfold parse_string. keep. Qed.
#[local] Hint Resolve keeps_throw_at keeps_string : keeps.
Lemma keeps_regex start l : keeps R (parse_regex_literal base total start l).
Proof. unfold parse_regex_literal. keep. Qed.
Lemma keeps_number_value l : keeps R (parse_number_value l).
Proof. unfold parse_number_value. keep. Qed.
Lemma keeps_identifier l : keeps R (parse_identifier_value base total l).
Proof. unfold parse_identifier_value. keep. Qed.
Lemma keeps_list_item {A} close first (done item : bytes -> E A) l : (forall l, keeps R (done l)) -> (forall l, keeps R (item l)) ->
  keeps R (list_item close first done item l).
Proof. intros. unfold list_item. keep. Qed.
#[local] Hint Resolve keeps_regex keeps_number_value keeps_identifier : keeps.
Lemma keeps_array_items n : forall arr idx l, keeps R (array_items rec n arr idx l).
Proof. induction n as [|n IH]; intros arr idx l; cbn [array_items]; [keep|]. apply keeps_list_item; keep. Qed.
Lemma keeps_object_key l : keeps R (object_key l).
Proof. unfold object_key. keep. Qed.
#[local] Hint Resolve keeps_array_items keeps_object_key : keeps.
Lemma keeps_object_items n : forall obj first l, keeps R (object_items rec n obj first l).
Proof. induction n as [|n IH]; intros obj first l; cbn [object_items]; [keep|]. apply keeps_list_item; keep. Qed.
#[local] Hint Resolve keeps_object_items : keeps.
Lemma keeps_primary l : keeps R (parse_primary base total gas rec l).
Proof. unfold parse_primary, parse_array_literal, parse_object_literal. keep. Qed.
Lemma keeps_call_args n : forall l, keeps R (call_args rec n l).
Proof. induction n as [|n IH]; intros l; cbn [call_args]; keep. Qed.
#[local] Hint Resolve keeps_primary keeps_call_args : keeps.
Lemma keeps_args l : keeps R (parse_args gas rec l).
Proof. unfold parse_args. keep. Qed.
#[local] Hint Resolve keeps_args : keeps.
Lemma keeps_postfix_loop n : forall v this l, keeps R (postfix_loop fuel base total gas rec n v this l).
Proof. induction n as [|n IH]; intros v this l; cbn [postfix_loop]; keep. Qed.
#[local] Hint Resolve keeps_postfix_loop : keeps.
Lemma keeps_postfix l : keeps R (parse_postfix fuel base total gas rec l).
Proof. unfold parse_postfix. keep. Qed.
Lemma keeps_undeclared l : keeps R (undeclared fuel l).
Proof. unfold undeclared. keep. Qed.
#[local] Hint Resolve keeps_postfix keeps_undeclared : keeps.
Lemma keeps_unary_op start operand f l : (forall l, keeps R (operand l)) -> (forall v, keeps R (f v)) -> keeps R (unary_op base total start operand f l).
Proof. intros. unfold unary_op. keep. Qed.
Lemma keeps_unary l : keeps R (parse_unary fuel base total gas rec l).
Proof.
  unfold parse_unary. cbv zeta. repeat (keep; first [apply keeps_unary_op]); unfold unary_plus, unary_minus, logical_not, bitwise_not; keep.
Qed.

Definition ops_keep (ops : BinOp) : Prop := forall l r f, ops l = Some (r, f) -> forall a b, keeps R (f a b).
Ltac ops_keep := intros l r f E a b; unfold op_when in E; repeat (case_match; [simplify_eq|]); simplify_eq;
  unfold blame, logical_or, logical_and, bitwise_or, bitwise_xor, bitwise_and, left_shift, right_shift, sub_values, mul_values,
    div_values, mod_values; keep.
Lemma keeps_bin_loop ops operand : ops_keep ops -> (forall l, keeps R (operand l)) -> forall n v l, keeps R (bin_loop n ops operand v l).
Proof.
  intros Ho Hp. induction n as [|n IH]; intros v l; cbn [bin_loop]; [keep|]. cbv zeta.
  destruct (ops _) as [[r f]|] eqn:E; [|keep]. pose proof (Ho _ _ _ E). keep.
Qed.
Lemma keeps_level ops operand : ops_keep ops -> (forall l, keeps R (operand l)) -> forall l, keeps R (bin_level gas ops operand l).
Proof. intros Ho Hp l. unfold bin_level. pose proof (keeps_bin_loop ops operand Ho Hp). keep. Qed.
Lemma keeps_exponent l : keeps R (parse_exponent fuel base total gas rec l).
Proof. pose proof keeps_unary. unfold parse_exponent, blame, pow_values. keep. Qed.
Lemma keeps_shift l : keeps R (parse_shift fuel base total gas rec l).
Proof.
  revert l. apply keeps_level; [unfold shift_ops; ops_keep|]. apply keeps_level; [unfold additive_ops; ops_keep|].
  apply keeps_level; [unfold term_ops; ops_keep|]. apply keeps_exponent.
Qed.
Lemma keeps_comparison l : keeps R (parse_comparison fuel base total gas rec l).
Proof. pose proof keeps_shift. unfold parse_comparison. keep. Qed.
Lemma keeps_production p l : keeps R (production fuel base total gas rec p l).
Proof.
  destruct p; [|apply keeps_exponent|apply keeps_unary]. revert l.
  apply keeps_level; [unfold or_ops; ops_keep|]. apply keeps_level; [unfold and_ops; ops_keep|].
  apply keeps_level; [unfold bit_or_ops; ops_keep|]. apply keeps_level; [unfold bit_xor_ops; ops_keep|].
  apply keeps_level; [unfold bit_and_ops; ops_keep|]. apply keeps_comparison.
Qed.
End Productions.

Lemma keeps_arith base total n : forall p l, keeps R (arith_upto fuel base total n p l).
Proof. induction n as [|n IH]; intros p l; [apply keeps_out|]. cbn [arith_upto]. by apply keeps_production. Qed.
Lemma keeps_parse_arith src : keeps R (parse_arith_expr fuel src).
Proof. unfold parse_arith_expr. pose proof keeps_arith. keep. Qed.
End Keeps.
