(* ===== verification/JsNumbers.v ===== *)
(** * JsNumbers: integers in the machine and in the evaluator

    Compiled code and evaluated text have their operators twice ([vm.rs] and
    [api/eval_program.rs]): the machine computes on integers, the evaluator on floats.  On
    32-bit integers they answer the same, and what arithmetic says, apart from the cases
    [agree_case] leaves out. *)
From Stdlib Require Import SpecFloat.
From S2P Require Import Prelude IntCodec Utf8 ServerArgs JsText JsFloat JsFloatSpec JsValue JsMem JsProps JsArray JsAtom JsObject JsScope JsSource JsBytecode JsApi JsVm JsJson JsScan JsStmt JsCall JsArith JsJsonSpec.

(** ** Integers as values *)

Lemma i32_int53 n : in_i32 n -> int53 n.
Proof. unfold in_i32, int53. lia. Qed.
#[local] Hint Resolve i32_int53 : core.

Section Integer.
Context (n : Z) (Hn : in_i32 n).

Lemma int_is_int : is_int (from_int32 W n) = true.
Proof. rewrite is_int_mod, from_int32_even; [done|by left]. Qed.
Lemma int_not_ptr : is_ptr W (from_int32 W n) = false.
Proof. apply even_not_ptr, int_is_int; by left. Qed.
Lemma int_back : int32 W (from_int32 W n) = Some n.
Proof. apply int32_roundtrip; [by left|done|by left]. Qed.
Lemma int_mod : from_int32 W n mod 2 = 0.
Proof. apply from_int32_even. by left. Qed.
Lemma int_float c : float_of c (from_int32 W n) = None.
Proof. unfold float_of, float_value. by rewrite int_not_ptr. Qed.
Lemma int_str c : str_of c (from_int32 W n) = None.
Proof. unfold str_of, string_bytes. by rewrite int_not_ptr. Qed.
Lemma int_class c : class_of c (from_int32 W n) = None.
Proof. unfold class_of, object_class_id, object_ptr. by rewrite int_not_ptr. Qed.
Lemma int_units c : string_utf16_units c (from_int32 W n) = None.
Proof. unfold string_utf16_units. by rewrite int_str. Qed.
Lemma int_odd (v : Z) : v mod 2 = 1 -> (from_int32 W n =? v) = false.
Proof. intros Hv. apply Z.eqb_neq. intros <-. by rewrite int_mod in Hv. Qed.
Lemma int_not_null : is_null W (from_int32 W n) = false.
Proof. by apply int_odd. Qed.
Lemma int_not_undefined : is_undefined W (from_int32 W n) = false.
Proof. by apply int_odd. Qed.
Lemma int_not_exception : is_exception W (from_int32 W n) = false.
Proof. by apply int_odd. Qed.
Lemma int_not_bool : is_bool (from_int32 W n) = false.
Proof.
  unfold is_bool, special_tag. change (Z.shiftl 1 TAG_SPECIAL_BITS - 1) with (Z.ones 5). rewrite Z.land_ones by lia.
  apply Z.eqb_neq. intros E. pose proof int_mod as H. change TAG_BOOL with 3 in E. change (2 ^ 5) with 32 in E. Z.to_euclidean_division_equations. lia.
Qed.

Lemma int_to_number `{Host : JsHost} c : js_to_number (from_int32 W n) c = (Some (f64_of_int n), c).
Proof. unfold js_to_number, prim_to_number. by rewrite int_class, int_back. Qed.
Lemma int_to_primitive `{Host : JsHost} hint c : js_to_primitive (from_int32 W n) hint c = (from_int32 W n, c).
Proof. unfold js_to_primitive, is_obj. by rewrite int_class. Qed.
Lemma int_to_value c : number_to_value (f64_of_int n) c = (from_int32 W n, c).
Proof.
  unfold number_to_value, f64_as_i32. pose proof Hn as Hr. unfold in_i32 in Hr. rewrite f64_cast_int by (auto; lia).
  rewrite f64_eq_int, Z.eqb_refl by auto. destruct (decide (n = 0)) as [->|H0]; [done|].
  change f64_zero with (f64_of_int 0). rewrite (f64_eq_int n 0) by (auto; done). by destruct (Z.eqb_spec n 0).
Qed.
End Integer.

Lemma from_int_inj a b : in_i32 a -> in_i32 b -> (from_int32 W a =? from_int32 W b) = (a =? b).
Proof.
  intros Ha Hb. destruct (Z.eqb_spec a b) as [->|Hne]; [apply Z.eqb_refl|]. apply Z.eqb_neq. intros E.
  apply (f_equal (int32 W)) in E. rewrite !int_back in E by done. by injection E.
Qed.

(** ** The two operator tables *)

(** What the machine's outcome is in the evaluator: an exception value is an error there. *)
Definition machine_answer (r : Out Value * Ctx) : option (Res Value * Ctx) :=
  match r with
  | (Go v, c) => Some (if is_exception W v then Nope else Val v, c)
  | (Halt _, c) => Some (Nope, c)
  | (Panic, c) => Some (Crash, c)
  end.

Definition evaluator_fn `{JsHost} (op : OpCode.t) : option (Value -> Value -> E Value) :=
  match op with
  | OpCode.Add => Some add_values
  | OpCode.Sub => Some sub_values
  | OpCode.Mul => Some mul_values
  | OpCode.Div => Some div_values
  | OpCode.Mod => Some mod_values
  | OpCode.Eq => Some (compare_values CmpEq)
  | OpCode.Neq => Some (compare_values CmpNe)
  | OpCode.StrictEq => Some (compare_values CmpSeq)
  | OpCode.StrictNeq => Some (compare_values CmpSne)
  | OpCode.Lt => Some (compare_values CmpLt)
  | OpCode.Gt => Some (compare_values CmpGt)
  | OpCode.Le => Some (compare_values CmpLe)
  | OpCode.Ge => Some (compare_values CmpGe)
  | OpCode.And => Some logical_and
  | OpCode.Or => Some logical_or
  | OpCode.BitAnd => Some bitwise_and
  | OpCode.BitOr => Some bitwise_or
  | OpCode.BitXor => Some bitwise_xor
  | OpCode.Shl => Some left_shift
  | OpCode.Shr => Some right_shift
  | OpCode.UShr => Some unsigned_right_shift
  | _ => None
  end.

(** The machine has no minus zero for integers, panics at the one overflow of division, and
    wraps an unsigned shift that leaves the top bit. *)
Definition agree_case (op : OpCode.t) (a b : Z) : Prop :=
  match op with
  | OpCode.Mul => a * b <> 0 \/ 0 <= a /\ 0 <= b
  | OpCode.Div => rem_overflows a b = false /\ (a <> 0 \/ 0 <= b)
  | OpCode.Mod => rem_overflows a b = false /\ (0 <= a \/ b = 0 \/ Z.rem a b <> 0)
  | OpCode.UShr => 0 <= a \/ shift_by b <> 0
  | _ => True
  end.

Definition int_value (n : Z) : option Value := if decide (in_i32 n) then Some (from_int32 W n) else None.
(** What arithmetic says, where the answer is an integer of 32 bits or a truth value. *)
Definition meaning (op : OpCode.t) (a b : Z) : option Value :=
  match op with
  | OpCode.Add => int_value (a + b)
  | OpCode.Sub => int_value (a - b)
  | OpCode.Mul => int_value (a * b)
  | OpCode.Div => if bool_decide (b <> 0 /\ Z.rem a b = 0) then int_value (Z.quot a b) else None
  | OpCode.Mod => if b =? 0 then None else Some (from_int32 W (Z.rem a b))
  | OpCode.Eq | OpCode.StrictEq => Some (new_bool W (a =? b))
  | OpCode.Neq | OpCode.StrictNeq => Some (new_bool W (negb (a =? b)))
  | OpCode.Lt => Some (new_bool W (a <? b))
  | OpCode.Gt => Some (new_bool W (b <? a))
  | OpCode.Le => Some (new_bool W (a <=? b))
  | OpCode.Ge => Some (new_bool W (b <=? a))
  | OpCode.And => Some (from_int32 W (if a =? 0 then a else b))
  | OpCode.Or => Some (from_int32 W (if a =? 0 then b else a))
  | OpCode.BitAnd => Some (from_int32 W (Z.land a b))
  | OpCode.BitOr => Some (from_int32 W (Z.lor a b))
  | OpCode.BitXor => Some (from_int32 W (Z.lxor a b))
  | OpCode.Shl => Some (from_int32 W (as_i32 (a * 2 ^ (b `mod` 32))))
  | OpCode.Shr => Some (from_int32 W (a / 2 ^ (b `mod` 32)))
  | OpCode.UShr => int_value (a `mod` 2 ^ 32 / 2 ^ (b `mod` 32))
  | _ => None
  end.

(** ** Agreement *)

Section Agree.
Context `{Host : JsHost} (a b : Z) (Ha : in_i32 a) (Hb : in_i32 b) (c : Ctx).

Abbreviation va := (from_int32 W a).
Abbreviation vb := (from_int32 W b).

Lemma machine_number (x : f64) : machine_answer (JsVm.push_number x c) = JsArith.push_number x c.
Proof.
  unfold JsVm.push_number, io, JsArith.push_number, no_exception, act, ebind, machine_answer.
  pose proof (number_to_value_fate x c) as Hf. destruct (number_to_value x c) as [v c']. cbn [snd] in Hf.
  rewrite (ending_same _ _ _ Hf). unfold reached. rewrite (befell_nothing _ _ Hf). by destruct (is_exception W v).
Qed.
Lemma machine_int (n : Z) : machine_answer (push_int n c) = eret (from_int32 W n) c.
Proof. cbn. by rewrite int_not_exception. Qed.
Lemma machine_bool (t : bool) : machine_answer (push_bool t c) = eret (new_bool W t) c.
Proof. by destruct t. Qed.
Lemma number_int (n : Z) : in_i32 n -> JsArith.push_number (f64_of_int n) c = eret (from_int32 W n) c.
Proof. intros Hn. unfold JsArith.push_number, no_exception, act, ebind. rewrite int_to_value by done. rewrite ending_same by done. by rewrite int_not_exception. Qed.

Lemma both_ints : both_int va vb = Some (a, b).
Proof. unfold both_int. by rewrite !int_back. Qed.
Lemma numbers_of (f : f64 -> f64 -> f64) : on_numbers f va vb c = JsArith.push_number (f (f64_of_int a) (f64_of_int b)) c.
Proof. unfold on_numbers, to_number, ask_for, ebind. by repeat first [rewrite int_to_number by done|rewrite ending_same by done]. Qed.
Lemma add_of : add_values va vb c = JsArith.push_number (f64_add (f64_of_int a) (f64_of_int b)) c.
Proof.
  unfold add_values, act, view, ebind. do 2 rewrite int_to_primitive, ending_same by done. unfold is_str. rewrite !int_str by done. cbn. apply numbers_of.
Qed.

(** A checked result is the float one. *)
Lemma checked_agrees (n : Z) (x : f64) : (in_i32 n -> x = f64_of_int n) -> machine_answer (JsVm.checked n x c) = JsArith.push_number x c.
Proof.
  intros Hx. unfold JsVm.checked. destruct (decide (in_i32 n)) as [Hn|]; [|apply machine_number].
  rewrite Hx by done. by rewrite number_int, machine_int.
Qed.
Lemma int_value_some n v : int_value n = Some v -> in_i32 n /\ v = from_int32 W n.
Proof. unfold int_value. destruct (decide (in_i32 n)); [intros [= <-]; done|done]. Qed.

Lemma sum_bounds : int53 (a + b) /\ int53 (a - b).
Proof. unfold in_i32, int53 in *. lia. Qed.
Lemma i32_times : int53 (a * b) \/ 2 ^ 53 <= Z.abs (a * b).
Proof. unfold int53. lia. Qed.

Lemma add_agrees : machine_answer (vm_add va vb c) = add_values va vb c /\
  forall v, meaning OpCode.Add a b = Some v -> add_values va vb c = Some (Val v, c).
Proof.
  pose proof sum_bounds as [Hs _]. unfold vm_add. rewrite both_ints, add_of, f64_add_int by auto. split; [by apply checked_agrees|].
  intros v [Hn ->]%int_value_some. by apply number_int.
Qed.
Lemma sub_agrees : machine_answer (vm_sub va vb c) = sub_values va vb c /\
  forall v, meaning OpCode.Sub a b = Some v -> sub_values va vb c = Some (Val v, c).
Proof.
  pose proof sum_bounds as [_ Hs]. unfold vm_sub, int_or_float, sub_values. rewrite both_ints, numbers_of, f64_sub_int by auto.
  split; [by apply checked_agrees|]. intros v [Hn ->]%int_value_some. by apply number_int.
Qed.

(** The machine rounds the exact product once, as the float product does. *)
Lemma times_rounds : a * b <> 0 \/ 0 <= a /\ 0 <= b -> f64_times (f64_of_int a) (f64_of_int b) = f64_of_int (a * b).
Proof.
  intros Hz. destruct (decide (a * b = 0)) as [E0|H0]; [|apply f64_times_exact; auto].
  rewrite E0. destruct Hz as [|[Ha0 Hb0]]; [done|]. pose proof (i32_int53 a Ha) as Ha'. pose proof (i32_int53 b Hb) as Hb'.
  destruct (decide (a = 0)) as [->|Hna].
  - destruct (decide (b = 0)) as [->|Hnb]; [done|]. rewrite (f64_of_int_finite b) by done. cbn. by destruct (Z.ltb_spec b 0); [lia|].
  - assert (b = 0) as -> by nia. rewrite (f64_of_int_finite a) by done. cbn. by destruct (Z.ltb_spec a 0); [lia|].
Qed.
Lemma mul_agrees : agree_case OpCode.Mul a b -> machine_answer (vm_mul va vb c) = mul_values va vb c /\
  forall v, meaning OpCode.Mul a b = Some v -> mul_values va vb c = Some (Val v, c).
Proof.
  intros Hz. unfold vm_mul, int_or_float, mul_values. rewrite both_ints, numbers_of, times_rounds by done.
  split; [by apply checked_agrees|]. intros v [Hn ->]%int_value_some. by apply number_int.
Qed.

Lemma rem_i32 : b <> 0 -> in_i32 (Z.rem a b).
Proof. intros H0. pose proof (Z.rem_bound_abs a b H0). unfold in_i32 in *. lia. Qed.
Lemma quot_i32 : b <> 0 -> Z.rem a b = 0 -> rem_overflows a b = false -> a = Z.quot a b * b /\ in_i32 (Z.quot a b).
Proof.
  intros H0 Hr Ho. pose proof (Z.quot_rem a b H0) as E. rewrite Hr in E. split; [lia|].
  set (q := Z.quot a b) in *. unfold rem_overflows in Ho. apply andb_false_iff in Ho. rewrite !Z.eqb_neq in Ho. unfold in_i32 in *.
  assert (Z.abs q <= Z.abs a) by (rewrite E; nia). destruct (Z.eq_dec (Z.abs q) (2 ^ 31)); [|lia]. nia.
Qed.

Lemma div_agrees : agree_case OpCode.Div a b -> machine_answer (vm_div va vb c) = div_values va vb c /\
  forall v, meaning OpCode.Div a b = Some v -> div_values va vb c = Some (Val v, c).
Proof.
  intros [Ho Hz]. unfold vm_div, int_or_float, div_values. rewrite both_ints, numbers_of, Ho, andb_false_r. cbn [meaning].
  assert (Hex : b <> 0 -> Z.rem a b = 0 -> f64_over (f64_of_int a) (f64_of_int b) = f64_of_int (Z.quot a b) /\ in_i32 (Z.quot a b)).
  { intros H0 Hr. destruct (quot_i32 H0 Hr Ho) as [Eq Hq]. split; [|done]. destruct (decide (a = 0)) as [->|Ha0]; [|by apply f64_over_int; auto].
    pose proof (i32_int53 b Hb) as Hb'. rewrite (f64_of_int_finite b), Z.quot_0_l by done. cbn. destruct (Z.ltb_spec b 0); [lia|done]. }
  destruct (Z.eqb_spec b 0) as [->|Hb0]; cbn [negb andb].
  - split; [apply machine_number|]. rewrite bool_decide_eq_false_2 by tauto. done.
  - destruct (Z.eqb_spec (Z.rem a b) 0) as [Hr|Hr].
    + rewrite bool_decide_eq_true_2 by done. destruct (Hex Hb0 Hr) as [-> Hq]. rewrite number_int by done. split; [apply machine_int|].
      by intros v [_ ->]%int_value_some.
    + rewrite bool_decide_eq_false_2 by tauto. split; [apply machine_number|done].
Qed.

Lemma mod_agrees : agree_case OpCode.Mod a b -> machine_answer (vm_mod va vb c) = mod_values va vb c /\
  forall v, meaning OpCode.Mod a b = Some v -> mod_values va vb c = Some (Val v, c).
Proof.
  intros [Ho Hz]. unfold vm_mod, int_or_float, mod_values. rewrite both_ints, numbers_of, Ho. cbn [meaning].
  pose proof (i32_int53 a Ha) as Ha'. pose proof (i32_int53 b Hb) as Hb'.
  destruct (Z.eqb_spec b 0) as [->|Hb0].
  - assert (E : f64_rem (f64_of_int a) (f64_of_int 0) = S754_nan) by (by destruct (f64_of_int a)). rewrite E. split; [apply machine_number|done].
  - assert (E : f64_rem (f64_of_int a) (f64_of_int b) = f64_of_int (Z.rem a b)).
    { destruct (decide (a = 0)) as [->|Ha0]; [rewrite Z.rem_0_l, (f64_of_int_finite b) by done; done|].
      destruct (decide (Z.rem a b = 0)) as [Hr|Hr]; [|by apply f64_rem_int].
      assert (Hpos : 0 < a) by lia. rewrite Hr.
      destruct (f64_of_int_inv a Ha' Ha0) as (m1 & e1 & -> & He1 & Hm1 & _). destruct (f64_of_int_inv b Hb' Hb0) as (m2 & e2 & -> & He2 & Hm2 & _).
      destruct (Z.ltb_spec a 0); [lia|]. cbn [f64_rem]. set (e := Z.min e1 e2).
      rewrite Hm1, Hm2, <-!Z.mul_assoc, <-!Z.pow_add_r by lia.
      replace (- e1 + (e1 - e)) with (- e) by lia. replace (- e2 + (e2 - e)) with (- e) by lia.
      rewrite Z.mul_mod_distr_r by (lia || (apply Z.pow_nonzero; lia)).
      rewrite Z.rem_mod, Z.sgn_pos, Z.mul_1_l in Hr by lia. by rewrite Hr. }
    rewrite E, number_int by (by apply rem_i32). split; [apply machine_int|]. by intros v [= <-].
Qed.

(** *** Bits *)

Lemma int32_of (n : Z) : in_i32 n -> js_to_int32 (from_int32 W n) c = eret n c.
Proof. intros Hn. unfold js_to_int32. by rewrite int_back. Qed.
Lemma uint32_of (n : Z) : in_i32 n -> js_to_uint32 (from_int32 W n) c = eret (as_u32 n) c.
Proof. intros Hn. unfold js_to_uint32. by rewrite int_back. Qed.
Lemma bits_agree (f : Z -> Z -> Z) : machine_answer (bit_op f va vb c) = bitwise f va vb c /\ bitwise f va vb c = Some (Val (from_int32 W (f a b)), c).
Proof.
  assert (E : bitwise f va vb c = eret (from_int32 W (f a b)) c).
  { unfold bitwise, ebind. rewrite int32_of by done. cbn. by rewrite int32_of by done. }
  rewrite E. split; [|done]. unfold bit_op, int_or_float. rewrite both_ints. apply machine_int.
Qed.
Lemma shift_by_mod : shift_by b = b `mod` 32.
Proof.
  unfold shift_by, as_u32. change 31 with (Z.ones 5). rewrite Z.land_ones by lia. change (2 ^ 5) with 32.
  rewrite <-Znumtheory.Zmod_div_mod; [done|lia|lia|]. by exists (2 ^ 27).
Qed.
Lemma shifted (n : Z) : in_i32 n -> Z.shiftr (as_u32 n) (shift_by b) = n `mod` 2 ^ 32 / 2 ^ (b `mod` 32).
Proof. intros _. rewrite shift_by_mod, Z.shiftr_div_pow2 by (apply Z.mod_pos_bound; lia). done. Qed.
Lemma shl_agrees : machine_answer (vm_shl va vb c) = left_shift va vb c /\
  forall v, meaning OpCode.Shl a b = Some v -> left_shift va vb c = Some (Val v, c).
Proof.
  assert (E : left_shift va vb c = eret (from_int32 W (as_i32 (Z.shiftl a (shift_by b)))) c).
  { unfold left_shift, ebind. rewrite int32_of by done. cbn. by rewrite uint32_of by done. }
  rewrite E. unfold vm_shl, shift_op, int_or_float. rewrite both_ints. split; [apply machine_int|].
  intros v [= <-]. by rewrite shift_by_mod, Z.shiftl_mul_pow2 by (apply Z.mod_pos_bound; lia).
Qed.
Lemma shr_agrees : machine_answer (vm_shr va vb c) = right_shift va vb c /\
  forall v, meaning OpCode.Shr a b = Some v -> right_shift va vb c = Some (Val v, c).
Proof.
  assert (E : right_shift va vb c = eret (from_int32 W (Z.shiftr a (shift_by b))) c).
  { unfold right_shift, ebind. rewrite int32_of by done. cbn. by rewrite uint32_of by done. }
  rewrite E. unfold vm_shr, shift_op, int_or_float. rewrite both_ints. split; [apply machine_int|].
  intros v [= <-]. by rewrite shift_by_mod, Z.shiftr_div_pow2 by (apply Z.mod_pos_bound; lia).
Qed.
Lemma ushr_agrees : agree_case OpCode.UShr a b -> machine_answer (vm_ushr va vb c) = unsigned_right_shift va vb c /\
  forall v, meaning OpCode.UShr a b = Some v -> unsigned_right_shift va vb c = Some (Val v, c).
Proof.
  intros Hc. set (r := Z.shiftr (as_u32 a) (shift_by b)).
  assert (Hk : 0 <= shift_by b < 32) by (rewrite shift_by_mod; apply Z.mod_pos_bound; lia).
  assert (Hr : 0 <= r < 2 ^ 31).
  { unfold r, as_u32. rewrite Z.shiftr_div_pow2 by lia. pose proof (Z.mod_pos_bound a (2 ^ 32) ltac:(lia)) as Hm.
    assert (0 < 2 ^ shift_by b) by (apply Z.pow_pos_nonneg; lia). split; [apply Z.div_pos; lia|]. apply Z.div_lt_upper_bound; [lia|].
    destruct Hc as [Ha0|Hk0]; [|assert (2 ^ 1 <= 2 ^ shift_by b) by (apply Z.pow_le_mono_r; lia); nia].
    assert (1 <= 2 ^ shift_by b) by lia. unfold in_i32 in Ha. rewrite Z.mod_small in * by lia. nia. }
  assert (E : unsigned_right_shift va vb c = eret (from_int32 W r) c).
  { unfold unsigned_right_shift, ebind. rewrite uint32_of by done. cbn. rewrite uint32_of by done. cbn. fold (shift_by b). fold r.
    by destruct (Z.leb_spec r (2 ^ 31 - 1)); [|lia]. }
  rewrite E. unfold vm_ushr, shift_op, int_or_float. rewrite both_ints. fold r. split.
  - replace (as_i32 r) with r; [apply machine_int|]. unfold as_i32. rewrite Z.mod_small by lia. lia.
  - intros v [_ ->]%int_value_some. by rewrite <-shifted.
Qed.

(** *** Comparisons *)

Lemma order_agrees op ints strs floats : floats (f64_of_int a) (f64_of_int b) = ints a b ->
  (compare_values op va vb c = (r <- ordered strs floats va vb ;; eret (new_bool W r)) c) ->
  machine_answer (order ints strs floats va vb c) = compare_values op va vb c /\ compare_values op va vb c = Some (Val (new_bool W (ints a b)), c).
Proof.
  intros Ef Eo.
  assert (E : compare_values op va vb c = eret (new_bool W (ints a b)) c).
  { rewrite Eo. unfold ordered, view, to_number, ask_for, ebind. rewrite !int_str by done. do 2 rewrite int_to_number, ending_same by done. by rewrite Ef. }
  rewrite E. split; [|done]. unfold order. rewrite both_ints. apply machine_bool.
Qed.

Lemma machine_numbers : same_number va vb c = (a =? b, c).
Proof. unfold same_number. rewrite !int_to_number by done. by rewrite f64_eq_int by auto. Qed.
Lemma evaluator_numbers : numbers_equal va vb c = eret (a =? b) c.
Proof. unfold numbers_equal, attempt, to_number, ask_for, ebind. do 2 rewrite int_to_number, ending_same by done. by rewrite f64_eq_int by auto. Qed.
Lemma loose_machine : vm_loose_eq va vb c = (a =? b, c).
Proof.
  unfold vm_loose_eq, both_str. rewrite from_int_inj, !int_not_null, !int_not_undefined, !int_str by done. cbn.
  destruct (Z.eqb_spec a b) as [E|E]; [done|]. rewrite machine_numbers. by rewrite (proj2 (Z.eqb_neq a b) E).
Qed.
Lemma strict_machine : vm_strict_eq va vb c = (a =? b, c).
Proof.
  unfold vm_strict_eq, both_str, js_type_tag, js_is_number, is_number. rewrite from_int_inj, !int_not_null, !int_not_undefined, !int_not_bool, !int_is_int, !int_str by done. cbn.
  destruct (Z.eqb_spec a b) as [E|E]; [done|]. rewrite machine_numbers. by rewrite (proj2 (Z.eqb_neq a b) E).
Qed.
Lemma loose_evaluator : loose_equal va vb c = eret (a =? b) c.
Proof.
  unfold loose_equal, string_units_equal, view, ebind. rewrite !int_not_null, !int_not_undefined by done. cbn [andb orb]. cbv beta iota. rewrite !int_units, from_int_inj by done. cbn.
  destruct (Z.eqb_spec a b) as [E|E]; [done|]. rewrite evaluator_numbers. by rewrite (proj2 (Z.eqb_neq a b) E).
Qed.
Lemma strict_evaluator : strict_equal va vb c = eret (a =? b) c.
Proof.
  unfold strict_equal. rewrite from_int_inj by done. destruct (Z.eqb_spec a b) as [E|E]; [done|].
  unfold string_units_equal, strict_eq_type_tag, view, ebind. cbv beta iota. rewrite !int_units by done. cbn [mbind option_bind]. cbv beta iota.
  rewrite !int_not_null, !int_not_undefined, !int_not_bool, !int_is_int by done. cbn [orb Z.eqb Pos.eqb].
  rewrite evaluator_numbers. by rewrite (proj2 (Z.eqb_neq a b) E).
Qed.
Lemma equality_agrees op (eq : Value -> Value -> Ctx -> bool * Ctx) (negated : bool) : eq va vb c = (a =? b, c) -> compare_values op va vb c = eret (new_bool W (xorb negated (a =? b))) c ->
  machine_answer (equality eq negated va vb c) = compare_values op va vb c /\ compare_values op va vb c = Some (Val (new_bool W (xorb negated (a =? b))), c).
Proof.
  intros Em Ee. rewrite Ee. split; [|done]. unfold equality, vbind, io. rewrite Em. unfold reached. rewrite befell_nothing by done. apply machine_bool.
Qed.

Lemma truthy_machine : JsApi.is_truthy c va = negb (a =? 0).
Proof. unfold JsApi.is_truthy. by rewrite int_not_bool, int_back. Qed.
Lemma truthy_evaluator : arith_truthy c va = negb (a =? 0).
Proof. unfold arith_truthy. by rewrite int_not_bool, int_back. Qed.
Lemma and_agrees : machine_answer (vm_and va vb c) = logical_and va vb c /\
  forall v, meaning OpCode.And a b = Some v -> logical_and va vb c = Some (Val v, c).
Proof.
  unfold vm_and, logical_and, view, vbind, ask, vret. rewrite truthy_machine, truthy_evaluator. cbn [meaning].
  destruct (a =? 0); cbn; rewrite int_not_exception; (split; [done|by intros v [= <-]]).
Qed.
Lemma or_agrees : machine_answer (vm_or va vb c) = logical_or va vb c /\
  forall v, meaning OpCode.Or a b = Some v -> logical_or va vb c = Some (Val v, c).
Proof.
  unfold vm_or, logical_or, view, vbind, ask, vret. rewrite truthy_machine, truthy_evaluator. cbn [meaning].
  destruct (a =? 0); cbn; rewrite int_not_exception; (split; [done|by intros v [= <-]]).
Qed.
End Agree.

(** C8: On integers the machine and the evaluator are one language.  Every binary operator that both have
    answers the same value and leaves the same context, for all pairs of 32-bit integers in any
    context and over any host, outside the cases [agree_case] names (minus zero, the overflow of
    division, the top bit of an unsigned shift); and where arithmetic's answer is an integer of
    32 bits or a truth value, that is the answer. *)
Theorem machine_and_evaluator_agree `{Host : JsHost} (op : OpCode.t) (f : Value -> Value -> M Value) (g : Value -> Value -> E Value)
    (a b : Z) (c : Ctx) :
  binary_fn op = Some f -> evaluator_fn op = Some g -> in_i32 a -> in_i32 b -> agree_case op a b ->
  machine_answer (f (from_int32 W a) (from_int32 W b) c) = g (from_int32 W a) (from_int32 W b) c /\
  forall v, meaning op a b = Some v -> g (from_int32 W a) (from_int32 W b) c = Some (Val v, c).
Proof.
  intros Ef Eg Ha Hb Hc.
  assert (Hsame : forall (m : option (Res Value * Ctx)) w e, m = e /\ e = Some (Val w, c) -> m = e /\ forall v, Some w = Some v -> e = Some (Val v, c))
    by (intros m w e [-> ->]; split; [done|by intros v [= <-]]).
  destruct op; try discriminate Eg; injection Ef as <-; injection Eg as <-.
  - by apply add_agrees.
  - by apply sub_agrees.
  - by apply mul_agrees.
  - by apply div_agrees.
  - by apply mod_agrees.
  - apply Hsame, (equality_agrees a b c CmpEq vm_loose_eq false); [by apply loose_machine|]. unfold compare_values, ebind. by rewrite loose_evaluator.
  - apply Hsame, (equality_agrees a b c CmpNe vm_loose_eq true); [by apply loose_machine|]. unfold compare_values, ebind. by rewrite loose_evaluator.
  - apply Hsame, (equality_agrees a b c CmpSeq vm_strict_eq false); [by apply strict_machine|]. unfold compare_values, ebind. by rewrite strict_evaluator.
  - apply Hsame, (equality_agrees a b c CmpSne vm_strict_eq true); [by apply strict_machine|]. unfold compare_values, ebind. by rewrite strict_evaluator.
  - apply Hsame, (order_agrees a b Ha Hb c CmpLt); [apply f64_lt_int; auto|done].
  - apply Hsame, (order_agrees a b Ha Hb c CmpGt); [apply f64_lt_int; auto|done].
  - apply Hsame, (order_agrees a b Ha Hb c CmpLe); [apply f64_le_int; auto|done].
  - apply Hsame, (order_agrees a b Ha Hb c CmpGe); [apply f64_le_int; auto|done].
  - by apply and_agrees.
  - by apply or_agrees.
  - by apply Hsame, bits_agree.
  - by apply Hsame, bits_agree.
  - by apply Hsame, bits_agree.
  - by apply shl_agrees.
  - by apply shr_agrees.
  - by apply ushr_agrees.
Qed.

Lemma machine_and_evaluator_agree_witness : let a := from_int32 W (-7) in let b := from_int32 W 2 in
  machine_answer (@vm_mod silent_host a b ctx0) = @mod_values silent_host a b ctx0 /\
  @mod_values silent_host a b ctx0 = Some (Val (from_int32 W (-1)), ctx0).
Proof.
  destruct (@machine_and_evaluator_agree silent_host OpCode.Mod _ _ (-7) 2 ctx0 eq_refl eq_refl ltac:(by vm_compute) ltac:(by vm_compute)
    ltac:(split; [done|right; right; done])) as [E H].
  split; [exact E|exact (H _ eq_refl)].
Defined.

(** Outside them they differ: the machine answers 0, -1 and a panic, the evaluator -0, 2^32-1 and
    2^31. *)
Example the_cases_differ :
  let neg0 r := match r with Some (Val v, c) => float_of c v | _ => None end in
  let a := from_int32 W in
  machine_answer (@vm_mul silent_host (a 0) (a (-1)) ctx0) = Some (Val (a 0), ctx0) /\
  neg0 (@mul_values silent_host (a 0) (a (-1)) ctx0) = Some (S754_zero true) /\
  machine_answer (@vm_ushr silent_host (a (-1)) (a 0) ctx0) = Some (Val (a (-1)), ctx0) /\
  neg0 (@unsigned_right_shift silent_host (a (-1)) (a 0) ctx0) = Some (f64_of_int 4294967295) /\
  machine_answer (@vm_div silent_host (a (- 2 ^ 31)) (a (-1)) ctx0) = Some (Crash, ctx0) /\
  neg0 (@div_values silent_host (a (- 2 ^ 31)) (a (-1)) ctx0) = Some (f64_of_int (2 ^ 31)).
Proof. by vm_compute. Qed.
