(* ===== verification/JsTypedSpec.v ===== *)
(** * JsTypedSpec: typed arrays read what was written

    Bytes of an element against its kind's range, writes of integers against reads through any
    view of the same bytes, and what the operations keep of the scopes ([JsBuffers], [JsTyped]). *)
From Stdlib Require Import SpecFloat.
From S2P Require Import Prelude IntCodec Utf8 HashStore ServerArgs JsValue JsMem JsProps JsArray JsAtom JsObject JsSource JsScope JsFloat JsFloatSpec JsText JsBuffers JsBytecode JsCompile JsApi JsVm JsJson JsScan JsStmt JsCall JsArith JsTyped JsExpr JsStmtSpec JsStmtLaws JsCallSpec JsArithSpec JsNumbers.

(** ** Bytes *)

Lemma length_to_le_bytes n v : length (to_le_bytes n v) = n.
Proof. revert v. induction n as [|n IH]; intros v; cbn; [done|by rewrite IH]. Qed.
Lemma le_bytes_roundtrip n v : from_le_bytes (to_le_bytes n v) = v `mod` 2 ^ (8 * Z.of_nat n).
Proof.
  revert v. induction n as [|n IH]; intros v; [by rewrite Z.mod_1_r|]. cbn [to_le_bytes from_le_bytes]. rewrite IH.
  replace (8 * Z.of_nat (S n)) with (8 + 8 * Z.of_nat n) by lia. rewrite Z.pow_add_r by lia. change (2 ^ 8) with 256.
  rewrite (Z.rem_mul_r v 256 (2 ^ (8 * Z.of_nat n))) by lia. lia.
Qed.
Lemma from_le_bytes_of n v d : from_le_bytes (take n (to_le_bytes n v ++ d)) = v `mod` 2 ^ (8 * Z.of_nat n).
Proof. rewrite take_app_length' by (by rewrite length_to_le_bytes). apply le_bytes_roundtrip. Qed.
Lemma f64_bits_range (x : f64) : f64_ok x = true -> 0 <= f64_bits x < 2 ^ 64.
Proof.
  intros Hx. destruct x as [s|s| |s m e]; [by destruct s|by destruct s|done|]. apply f64_ok_finite in Hx as (He & Hm & Hn).
  unfold f64_bits. destruct (Z.ltb_spec (Zpos m) (2 ^ 52)); destruct s; lia.
Qed.

(** What an element of a kind holds of an integer: the kind's range, by wrapping or by clamping. *)
Definition stored (k : TypedArrayKind) (n : Z) : Z :=
  match k with
  | Uint8 => n `mod` 2 ^ 8
  | Uint8Clamped => Z.max 0 (Z.min 255 n)
  | Int8 => signed 1 (n `mod` 2 ^ 8)
  | Int16 => signed 2 (n `mod` 2 ^ 16)
  | Uint16 => n `mod` 2 ^ 16
  | Uint32 => n `mod` 2 ^ 32
  | Int32 | Float32 | Float64 => n
  end.
Definition as_elem (k : TypedArrayKind) (n : Z) : Elem :=
  match k with
  | Float32 | Float64 => ENum (f64_of_int n)
  | Uint32 => if n <=? 2 ^ 31 - 1 then EInt n else ENum (f64_of_int n)
  | _ => EInt n
  end.
(** The bytes [set_element] writes of an integer. *)
Definition int_bytes (k : TypedArrayKind) (n : Z) : bytes :=
  match k with
  | Int32 | Uint32 => to_le_bytes 4 (n `mod` 2 ^ 32)
  | _ => store_number k (f64_of_int n)
  end.

Lemma i32_is_int53 n : in_i32 n -> int53 n.
Proof. unfold in_i32, int53. lia. Qed.
Lemma trunc_i64_int n : in_i32 n -> trunc_i64 (f64_of_int n) = n.
Proof. intros Hn. apply f64_cast_int; [by apply i32_is_int53|]. unfold in_i32 in Hn. lia. Qed.
Lemma clamp_int n : in_i32 n -> clamp_u8_clamped (f64_of_int n) = Z.max 0 (Z.min 255 n).
Proof.
  intros Hn. pose proof (i32_is_int53 n Hn) as H53. unfold in_i32 in Hn.
  assert (H : clamp_u8_clamped (f64_of_int n) =
    if f64_le (f64_of_int n) f64_zero then 0 else if f64_le (f64_of_int 255) (f64_of_int n) then 255
    else clamp_u8_clamped (f64_of_int n)).
  { destruct (f64_finite_int n) as [Hf|?]; [|done]. unfold clamp_u8_clamped. destruct (f64_of_int n) as [s|s| |s m e]; try done.
    destruct (f64_le (S754_finite s m e) f64_zero); [done|]. by destruct (f64_le (f64_of_int 255) (S754_finite s m e)). }
  rewrite H. change f64_zero with (f64_of_int 0). rewrite !f64_le_int by done.
  destruct (Z.leb_spec n 0); [lia|]. destruct (Z.leb_spec 255 n); [lia|]. clear H.
  assert (Hall : forallb (fun k => clamp_u8_clamped (f64_of_int (Z.of_nat k)) =? Z.of_nat k) (seq 1 254) = true) by (by vm_compute).
  rewrite forallb_forall in Hall. specialize (Hall (Z.to_nat n)). rewrite Z2Nat.id in Hall by lia.
  apply Z.eqb_eq in Hall; [lia|]. apply in_seq. lia.
Qed.
Lemma int_bytes_length k n : length (int_bytes k n) = Z.to_nat (elem_size k).
Proof. destruct k; unfold int_bytes, store_number; by rewrite ?length_to_le_bytes. Qed.
Lemma int_bytes_read k n d : in_i32 n -> k <> Float32 -> load_element k (int_bytes k n ++ d) = as_elem k (stored k n).
Proof.
  intros Hn Hk. pose proof (i32_is_int53 n Hn) as H53. destruct k; try done; unfold int_bytes, store_number, load_element, as_elem, stored;
    rewrite ?from_le_bytes_of; rewrite ?(trunc_i64_int n Hn); rewrite ?Z.mod_mod by done; try done.
  - rewrite clamp_int by done. cbn [app take firstn from_le_bytes]. change (256 * 0) with 0. by rewrite Z.add_0_r.
  - change (2 ^ (8 * Z.of_nat 4)) with (2 ^ 32). f_equal. unfold signed, in_i32 in *. change (8 * Z.of_nat 4) with 32. change (2 ^ (32 - 1)) with (2 ^ 31).
    destruct (decide (0 <= n)) as [H0|H0].
    + rewrite Z.mod_small by lia. destruct (Z.leb_spec (2 ^ 31) n); lia.
    + replace (n `mod` 2 ^ 32) with (n + 2 ^ 32); [destruct (Z.leb_spec (2 ^ 31) (n + 2 ^ 32)); lia|].
      apply Z.mod_unique with (-1); lia.
  - pose proof (f64_ok_int n H53) as Hok. rewrite Z.mod_small by (apply f64_bits_range in Hok; exact Hok). by rewrite f64_bits_roundtrip.
Qed.

(** ** Places *)

Lemma write_bytes_length start b l : (start + length b <= length l)%nat -> length (write_bytes start b l) = length l.
Proof. intros H. unfold write_bytes. rewrite !length_app, length_take, length_drop. lia. Qed.
Lemma write_bytes_at start b l : (start + length b <= length l)%nat -> drop start (write_bytes start b l) = b ++ drop (start + length b) l.
Proof. intros H. unfold write_bytes. rewrite drop_app_length' by (rewrite length_take; lia). done. Qed.
(** Bytes that end before the written ones, or start after them. *)
Lemma write_bytes_apart start b l (s n : nat) : (start + length b <= length l)%nat -> (s + n <= start \/ start + length b <= s)%nat ->
  take n (drop s (write_bytes start b l)) = take n (drop s l).
Proof.
  intros H Hs. apply list_eq. intros i. destruct (decide (i < n)%nat) as [Hi|Hi]; [|by rewrite !lookup_take_ge by lia].
  rewrite !lookup_take_lt, !lookup_drop by done. unfold write_bytes. destruct Hs as [Hs|Hs].
  - rewrite lookup_app_l by (rewrite length_take; lia). by rewrite lookup_take_lt by lia.
  - rewrite lookup_app_r by (rewrite length_take; lia). rewrite length_take, Nat.min_l by lia.
    rewrite lookup_app_r by lia. rewrite lookup_drop. f_equal. lia.
Qed.
Lemma load_element_prefix k l l' : take (Z.to_nat (elem_size k)) l = take (Z.to_nat (elem_size k)) l' -> load_element k l = load_element k l'.
Proof. by destruct k; cbn [elem_size]; intros H; unfold load_element; [..|]; change (Z.to_nat 1) with 1%nat in *; change (Z.to_nat 2) with 2%nat in *;
  change (Z.to_nat 4) with 4%nat in *; change (Z.to_nat 8) with 8%nat in *; rewrite H. Qed.

(** The element of a view, if there is one. *)
Definition read_element (c : Ctx) (v : Value) (i : Z) : option Elem :=
  '(d, _, l, start) ← element_place c v i; Some (load_element (ta_kind d) (drop (Z.to_nat start) l)).
Lemma get_element_read v i c : get_element v i c = match read_element c v i with Some e => elem_value e c | None => (UNDEFINED W, c) end.
Proof. unfold get_element, read_element. by destruct (element_place c v i) as [[[[d p] l] start]|]. Qed.

(** What a place says of the bytes. *)
Lemma element_place_inv c v i d p l start : element_place c v i = Some (d, p, l, start) ->
  get_typedarray_data c v = Some d /\ i < ta_length d /\ get_arraybuffer_data c (ta_buffer d) = Some (p, MkBuffer l) /\
  start = ta_offset d + i * elem_size (ta_kind d) /\ start + elem_size (ta_kind d) <= Z.of_nat (length l) /\
  0 < p /\ boxes c !! Z.to_nat (p - 1) = Some (BoxBuffer (MkBuffer l)).
Proof.
  unfold element_place. intros (d0 & Hd & H)%bind_Some. destruct (Z.leb_spec (ta_length d0) i) as [|Hi]; [done|].
  apply bind_Some in H as ([q [l0]] & Hb & H). cbn [buffer_bytes] in H. cbv zeta in H.
  destruct (Z.ltb_spec (Z.of_nat (length l0)) (ta_offset d0 + i * elem_size (ta_kind d0) + elem_size (ta_kind d0))) as [|Hs]; [done|].
  injection H as -> -> -> <-. split_and!; try done.
  - unfold get_arraybuffer_data in Hb. apply bind_Some in Hb as (id & _ & Hb). destruct (negb _); [done|]. cbv zeta in Hb.
    unfold box_at in Hb. destruct (Z.leb_spec (get_object_opaque (heap c) (ta_buffer d)) 0); [done|]. destruct (boxes c !! _) as [[x|x]|]; [|done..].
    by injection Hb as <- ->.
  - unfold get_arraybuffer_data in Hb. apply bind_Some in Hb as (id & _ & Hb). destruct (negb _); [done|]. cbv zeta in Hb.
    unfold box_at in Hb. destruct (Z.leb_spec (get_object_opaque (heap c) (ta_buffer d)) 0); [done|]. destruct (boxes c !! _) as [[x|x]|] eqn:E; [|done..].
    injection Hb as <- ->. by rewrite E.
Qed.

Section Write.
Context (c : Ctx) (p : Z) (l b : bytes) (start : Z) (Hp : 0 < p) (Hb : boxes c !! Z.to_nat (p - 1) = Some (BoxBuffer (MkBuffer l)))
  (H0 : 0 <= start) (Hl : start + Z.of_nat (length b) <= Z.of_nat (length l)).
Let c' := write_buffer p start b c.
Let l' := write_bytes (Z.to_nat start) b l.

Lemma written_box q : box_at c' q = if q =? p then Some (BoxBuffer (MkBuffer l')) else box_at c q.
Proof.
  unfold c', write_buffer. assert (Hbp : box_at c p = Some (BoxBuffer (MkBuffer l))) by (unfold box_at; by destruct (Z.leb_spec p 0); [lia|]).
  rewrite Hbp. cbn [buffer_bytes]. unfold box_at. cbn [boxes with_boxes]. apply lookup_lt_Some in Hb as Hlt.
  destruct (Z.eqb_spec q p) as [-> |Hne].
  - destruct (Z.leb_spec p 0); [lia|]. by rewrite list_lookup_insert_eq.
  - destruct (Z.leb_spec q 0); [done|]. by rewrite list_lookup_insert_ne by lia.
Qed.
Lemma written_heap : heap c' = heap c.
Proof. unfold c', write_buffer. by destruct (box_at c p) as [[?|?]|]. Qed.
Lemma written_typed w : get_typedarray_data c' w = get_typedarray_data c w.
Proof.
  unfold get_typedarray_data, class_of. rewrite written_heap, written_box. destruct (object_class_id (heap c) w) as [id|]; [|done]. cbn.
  destruct (typed_array_kind_from_class_id id); [|done]. cbn. destruct (Z.eqb_spec (get_object_opaque (heap c) w) p) as [-> |]; [|done].
  unfold box_at. destruct (Z.leb_spec p 0); [done|]. by rewrite Hb.
Qed.
Lemma written_buffer w : get_arraybuffer_data c' w =
  '(q, d) ← get_arraybuffer_data c w; Some (q, if q =? p then MkBuffer l' else d).
Proof.
  unfold get_arraybuffer_data, class_of. rewrite written_heap. destruct (object_class_id (heap c) w) as [id|]; [|done]. cbn.
  destruct (negb _); [done|]. rewrite written_box. destruct (Z.eqb_spec (get_object_opaque (heap c) w) p) as [-> |Hne].
  - unfold box_at. destruct (Z.leb_spec p 0); [lia|]. rewrite Hb. cbn. by rewrite Z.eqb_refl.
  - destruct (box_at c _) as [[d|d]|]; [|done..]. cbn. by destruct (Z.eqb_spec (get_object_opaque (heap c) w) p).
Qed.
Lemma written_place w j : element_place c' w j =
  '(d, q, m, s) ← element_place c w j; Some (d, q, if q =? p then l' else m, s).
Proof.
  destruct (element_place c w j) as [[[[d q] m] s]|] eqn:E.
  - pose proof (element_place_inv _ _ _ _ _ _ _ E) as (Hd & Hi & Hbuf & Hs & Hsz & Hq & Hbq).
    unfold element_place. rewrite written_typed, Hd. cbn [mbind option_bind]. destruct (Z.leb_spec (ta_length d) j); [lia|].
    rewrite written_buffer, Hbuf. cbn [mbind option_bind]. rewrite <- Hs.
    destruct (Z.eqb_spec q p) as [-> |Hne]; cbn [buffer_bytes].
    + assert (m = l) as -> by congruence. unfold l'. rewrite write_bytes_length by lia.
      by destruct (Z.ltb_spec (Z.of_nat (length l)) (s + elem_size (ta_kind d))); [lia|].
    + by destruct (Z.ltb_spec (Z.of_nat (length m)) (s + elem_size (ta_kind d))); [lia|].
  - unfold element_place in *. rewrite written_typed. destruct (get_typedarray_data c w) as [d|]; [|done]. cbn [mbind option_bind] in *.
    destruct (Z.leb_spec (ta_length d) j); [done|]. rewrite written_buffer. destruct (get_arraybuffer_data c (ta_buffer d)) as [[q [m]]|] eqn:Eb; [|done].
    cbn [mbind option_bind buffer_bytes] in *. destruct (Z.ltb_spec (Z.of_nat (length m)) (ta_offset d + j * elem_size (ta_kind d) + elem_size (ta_kind d))); [|done].
    destruct (Z.eqb_spec q p) as [-> |Hne]; cbn [buffer_bytes].
    + assert (m = l) as ->.
      { unfold get_arraybuffer_data in Eb. apply bind_Some in Eb as (id & _ & Eb). destruct (negb _); [done|]. cbv zeta in Eb.
        destruct (box_at c _) as [[x|x]|] eqn:Ex; [|done..]. injection Eb as Ep ->. rewrite Ep in Ex. unfold box_at in Ex.
        destruct (Z.leb_spec p 0); [done|]. congruence. }
      unfold l'. rewrite write_bytes_length by lia. by destruct (Z.ltb_spec (Z.of_nat (length l)) (ta_offset d + j * elem_size (ta_kind d) + elem_size (ta_kind d))); [|lia].
    + by destruct (Z.ltb_spec (Z.of_nat (length m)) (ta_offset d + j * elem_size (ta_kind d) + elem_size (ta_kind d))); [|lia].
Qed.
End Write.

Lemma set_element_int `{Host : JsHost} v i n c d p l start : in_i32 n -> element_place c v i = Some (d, p, l, start) ->
  set_element v i (from_int32 W n) c = (true, write_buffer p start (int_bytes (ta_kind d) n) c).
Proof.
  intros Hn E. unfold set_element. rewrite E, (int_to_number n Hn).
  destruct (ta_kind d); try reflexivity; unfold settle, js_to_int32, js_to_uint32, int_bytes; by rewrite (int_back n Hn).
Qed.

(** C11: A typed array reads back what was written, through every view.  A write of an integer (a value of
    the engine's 32-bit integer kind) at a place of a view of any kind but Float32 answers [true]; that
    place then reads the integer brought into the range of the view's kind, by wrapping or, for the
    clamped kind, by the nearest bound; every place of a view of the same kind over the same bytes
    reads the same; every place of any view, Float32 views included, that shares no byte with the
    written one, in this buffer or another, reads what it did; and the heap is as before. *)
Theorem views_read_what_was_written `{Host : JsHost} (v : Value) (i n : Z) (c : Ctx) d p l start
    (Hn : in_i32 n) (Hk : ta_kind d <> Float32) (Hi : 0 <= i) (Hd : 0 <= ta_offset d) (E : element_place c v i = Some (d, p, l, start)) :
  exists c', set_element v i (from_int32 W n) c = (true, c') /\ heap c' = heap c /\
    get_element v i c' = elem_value (as_elem (ta_kind d) (stored (ta_kind d) n)) c' /\
    (forall w j d' m, element_place c w j = Some (d', p, m, start) -> ta_kind d' = ta_kind d ->
       get_element w j c' = elem_value (as_elem (ta_kind d) (stored (ta_kind d) n)) c') /\
    (forall w j d' q m s, element_place c w j = Some (d', q, m, s) -> 0 <= s ->
       q <> p \/ s + elem_size (ta_kind d') <= start \/ start + elem_size (ta_kind d) <= s -> read_element c' w j = read_element c w j).
Proof.
  pose proof (element_place_inv _ _ _ _ _ _ _ E) as (_ & _ & _ & Hs & Hsz & Hp & Hb).
  assert (Hsize : 0 < elem_size (ta_kind d)) by (by destruct (ta_kind d)).
  assert (H0 : 0 <= start) by nia. pose proof (int_bytes_length (ta_kind d) n) as Hlen.
  assert (Hl : start + Z.of_nat (length (int_bytes (ta_kind d) n)) <= Z.of_nat (length l)) by lia.
  exists (write_buffer p start (int_bytes (ta_kind d) n) c).
  assert (Hat : forall w j d' m, element_place c w j = Some (d', p, m, start) -> ta_kind d' = ta_kind d ->
    get_element w j (write_buffer p start (int_bytes (ta_kind d) n) c) =
    elem_value (as_elem (ta_kind d) (stored (ta_kind d) n)) (write_buffer p start (int_bytes (ta_kind d) n) c)).
  { intros w j d' m Ew Hkd. rewrite get_element_read. unfold read_element.
    rewrite (written_place c p l _ start Hp Hb H0 Hl), Ew. cbn [mbind option_bind]. rewrite Z.eqb_refl, write_bytes_at by lia.
    by rewrite Hkd, int_bytes_read. }
  split_and!; [exact (set_element_int v i n c d p l start Hn E)|apply written_heap|by eapply Hat|exact Hat|].
  intros w j d' q m s Ew Hs0 Hapart. unfold read_element. rewrite (written_place c p l _ start Hp Hb H0 Hl), Ew. cbn [mbind option_bind].
  destruct (Z.eqb_spec q p) as [-> |Hne]; [|done]. pose proof (element_place_inv _ _ _ _ _ _ _ Ew) as (_ & _ & _ & _ & Hszw & _ & Hbw).
  assert (m = l) as -> by congruence. f_equal. apply load_element_prefix, write_bytes_apart; [lia|].
  assert (0 < elem_size (ta_kind d')) by (by destruct (ta_kind d')). lia.
Qed.

(** ** Scopes *)

Section Keeps.
Context (R : Scope -> Scope -> Prop) `{HR : !ScopeRel R} `{Ev : JsEval} (HE : eval_within R Ev).
Let HH := ew_host _ _ HE.
#[local] Hint Resolve keeps_expr keeps_value keeps_new_object keeps_new_string keeps_new_array keeps_heap keeps_get_str
  keeps_get_uint32 keeps_to_string keeps_throw keeps_set_property keeps_set_str keeps_set_uint32 keeps_number keeps_primitive
  keeps_from_number keeps_int32 keeps_uint32 : keeps.

(** A step called through an interface that always answers ends as the step itself does: with its
    value and context, with a panic, or without an outcome. *)
Lemma ask_settle {A} (m : E A) (c : Ctx) : fate c = Alive -> (forall r c', m c = Some (r, c') -> fate c' = Alive) ->
  match m c with
  | Some (Crash, _) => exists c', ask_for (settle m) c = Some (Crash, c')
  | o => ask_for (settle m) c = o
  end.
Proof.
  intros Hc Hm. unfold ask_for, settle, ending, befell. rewrite Hc. destruct (m c) as [[[x| |] c1]|] eqn:E.
  - by rewrite (Hm _ _ eq_refl).
  - by rewrite (Hm _ _ eq_refl).
  - exists (befall Fallen c). unfold befall. by rewrite Hc.
  - unfold befall. by rewrite Hc.
Qed.
Lemma settle_within {A} (m : E A) : keeps R m -> within R (settle m).
Proof.
  intros Hm c. unfold settle. destruct (m c) as [[[x| |] c1]|] eqn:E; cbn [snd]; rewrite ?befall_scope; try apply sr_refl;
    by apply (Hm _ _ _ E).
Qed.
Lemma write_buffer_scope p start b c : scope (write_buffer p start b c) = scope c.
Proof. unfold write_buffer. by destruct (box_at c p) as [[d|d]|]. Qed.
Lemma within_get_element v i : within R (get_element v i).
Proof.
  intros c. unfold get_element. destruct (element_place c v i) as [[[[d p] l] start]|]; [|apply sr_refl].
  unfold elem_value. destruct (load_element _ _); [apply sr_refl|]. by apply within_number.
Qed.
Lemma within_set_element v i x : within R (set_element v i x).
Proof.
  intros c. unfold set_element. destruct (element_place c v i) as [[[[d p] l] start]|]; [|apply sr_refl].
  pose proof (kept_prim_number R HH (scope c) x c (sr_refl _)) as K1. destruct (js_to_number x c) as [n c1]. cbn [snd] in K1.
  pose proof (settle_within (js_to_int32 x) ltac:(eauto with keeps) c1) as K2.
  pose proof (settle_within (js_to_uint32 x) ltac:(eauto with keeps) c1) as K3.
  destruct (settle (js_to_int32 x) c1) as [v2 c2], (settle (js_to_uint32 x) c1) as [v3 c3]. cbn [snd] in *.
  destruct (ta_kind d); cbn [snd]; rewrite write_buffer_scope; try exact K1; by eapply sr_trans.
Qed.
Lemma keeps_box b : keeps R (act (new_box b)).
Proof. apply keeps_act. intros c. apply sr_refl. Qed.
Lemma keeps_get_element v i : keeps R (act (get_element v i)).
Proof. apply keeps_act, within_get_element. Qed.
Lemma keeps_set_element v i x : keeps R (act (set_element v i x)).
Proof. apply keeps_act, within_set_element. Qed.
Lemma keeps_class_object cls : keeps R (act (js_new_object_class cls)).
Proof. apply keeps_act. intros c. by apply kept_new_object_class, sr_refl. Qed.
#[local] Hint Resolve keeps_box keeps_get_element keeps_set_element keeps_class_object : keeps.
Lemma keeps_buffer n : keeps R (create_arraybuffer n).
Proof. unfold create_arraybuffer. keep. Qed.
Lemma keeps_typed cls b o n : keeps R (create_typed_array cls b o n).
Proof. unfold create_typed_array. keep. Qed.
Lemma keeps_length_prop v : keeps R (length_prop v).
Proof. unfold length_prop. keep. Qed.
Lemma keeps_count_arg v : keeps R (count_arg v).
Proof. unfold count_arg. keep. Qed.
#[local] Hint Resolve keeps_buffer keeps_typed keeps_length_prop keeps_count_arg : keeps.
Lemma keeps_copy get out o n : (forall i, keeps R (act (get i))) -> forall i, keeps R (copy_elements get out o i n).
Proof. intros Hg. induction n as [|n IH]; intros i; cbn [copy_elements]; keep. Qed.
#[local] Hint Resolve keeps_copy : keeps.
Lemma keeps_typed_from cls k get v : (forall i, keeps R (act (get i))) -> keeps R (typed_from cls k get v).
Proof. intros Hg. unfold typed_from. keep. Qed.
Lemma keeps_view_of_buffer cls k args b : keeps R (view_of_buffer cls k args b).
Proof. unfold view_of_buffer. keep. Qed.
#[local] Hint Resolve keeps_typed_from keeps_view_of_buffer : keeps.
Lemma keeps_build_typed cls args : keeps R (build_typed_array_from_args cls args).
Proof. unfold build_typed_array_from_args. keep; apply keeps_typed_from; keep. Qed.
Lemma keeps_typedarray_set this args : keeps R (typedarray_set this args).
Proof. unfold typedarray_set. keep; apply keeps_copy; keep. Qed.
Lemma keeps_subarray this args : keeps R (typedarray_subarray this args).
Proof. unfold typedarray_subarray. keep. Qed.
Lemma keeps_join this n : forall i out, keeps R (join_elements this i n out).
Proof. induction n as [|n IH]; intros i out; cbn [join_elements]; keep. Qed.
#[local] Hint Resolve keeps_join : keeps.
Lemma keeps_typed_string this : keeps R (typedarray_to_string this).
Proof. unfold typedarray_to_string. keep. Qed.
End Keeps.

#[local] Existing Instance silent_host.
Definition two_views : option (Value * Value * Ctx) :=
  let '(r, c) := settle (buffer <- create_arraybuffer 4 ;; a <- create_typed_array 20 buffer 0 4 ;;
    b <- create_typed_array 22 buffer 2 1 ;; eret (a, b)) JsJsonSpec.ctx0 in (fun ab : Value * Value => (ab.1, ab.2, c)) <$> r.
Definition byte_view : Value := default 0 ((fun t => t.1.1) <$> two_views).
Definition word_view : Value := default 0 ((fun t => t.1.2) <$> two_views).
Definition views_ctx : Ctx := default JsJsonSpec.ctx0 (snd <$> two_views).
Definition view_data (v : Value) : TypedArrayData := default (MkTyped 0 0 0 Uint8) (get_typedarray_data views_ctx v).

Lemma views_read_what_was_written_witness : exists c',
  set_element byte_view 1 (from_int32 W 300) views_ctx = (true, c') /\ get_element byte_view 1 c' = (from_int32 W 44, c') /\
  read_element c' word_view 0 = read_element views_ctx word_view 0.
Proof.
  assert (E : element_place views_ctx byte_view 1 = Some (view_data byte_view, 1, [0; 0; 0; 0], 1)) by (vm_compute; reflexivity).
  assert (E2 : element_place views_ctx word_view 0 = Some (view_data word_view, 1, [0; 0; 0; 0], 2)) by (vm_compute; reflexivity).
  assert (Hk : ta_kind (view_data byte_view) <> Float32) by (vm_compute; discriminate).
  assert (Hd : 0 <= ta_offset (view_data byte_view)) by (vm_compute; discriminate).
  assert (Hn : in_i32 300) by (split; vm_compute; congruence).
  destruct (views_read_what_was_written byte_view 1 300 views_ctx _ _ _ _ Hn Hk ltac:(lia) Hd E) as (c' & Hw & _ & Hr & _ & Ha).
  exists c'. split; [exact Hw|]. split; [rewrite Hr; vm_compute; reflexivity|].
  apply (Ha _ _ _ _ _ _ E2); [lia|]. right; right. vm_compute. discriminate.
Defined.
