(* ===== verification/JsExprLaws.v ===== *)
(** * JsExprLaws: more fuel, the same answer

    What a call, an expression or a script answers with some fuel, it answers with more, whatever
    the nested evaluators add meanwhile; so the engine's answers do not depend on its fuel. *)
From Stdlib Require Import SpecFloat.
From S2P Require Import Prelude IntCodec Utf8 ServerArgs HashStore JsText JsFloat JsValue JsMem JsProps JsArray JsAtom JsObject JsScope JsSource JsBytecode JsCompile JsApi JsVm JsJson JsScan JsStmt JsCall JsArith JsExpr JsStmtSpec JsStmtLaws JsCallSpec.

Lemma run_loop_more `{H : JsHost} (n m : nat) f global : (n <= m)%nat -> forall pc fr c r,
  run_loop n f global pc fr c = Some r -> run_loop m f global pc fr c = Some r.
Proof.
  revert m. induction n as [|n IH]; intros m Hm pc fr c r E; [done|]. destruct m as [|m]; [lia|]. cbn [run_loop] in *.
  destruct (code f !! pc) as [i|]; [|done]. destruct (exec_ins f global i fr c) as [[[fr1|target fr1]|v|] c1]; try done;
    (eapply IH; [lia|exact E]).
Qed.

(** The methods of built-in objects answer the same with more fuel. *)
Definition methods_final (f : JsEval -> nat -> bytes -> Value -> list Value -> E (option Value)) : Prop :=
  forall H ee ee' va va' n m, (forall t, less (ee t) (ee' t)) -> (forall t, less (va t) (va' t)) -> (n <= m)%nat ->
  forall marker this args,
  less (f {| eval_host := H; eval_expr := ee; eval_value := va |} n marker this args)
       (f {| eval_host := H; eval_expr := ee'; eval_value := va' |} m marker this args).

Lemma less_ran {A} (f g : Ctx -> option (Res A * Ctx)) : less f g -> less (ran f) (ran g).
Proof. intros Hf c r E. unfold ran in *. destruct (f c) as [[x c1]|] eqn:E1; [|done]. by rewrite (Hf _ _ E1). Qed.

Section Growth.
Context (H : JsHost) (ee ee' va va' : bytes -> E Value) (Hee : forall t, less (ee t) (ee' t)) (Hva : forall t, less (va t) (va' t)).
Notation Ev := {| eval_host := H; eval_expr := ee; eval_value := va |}.
Notation Ev' := {| eval_host := H; eval_expr := ee'; eval_value := va' |}.
Context (n m : nat) (Hnm : (n <= m)%nat).

(** ** Calls and scripts *)

Lemma less_run_vm md args : less (@run_vm Ev n md args) (@run_vm Ev' m md args).
Proof.
  apply less_ran. intros c r E. unfold run_module_with_locals in *. cbn [eval_host] in *. destruct (functions md) as [|f0 fs]; [done|].
  destruct ((f0 :: fs) !! main md) as [f|]; [|done]. destruct (run_loop n _ _ _ _ _) as [x|] eqn:E1; [|done].
  by rewrite (run_loop_more n m _ _ Hnm _ _ _ _ E1).
Qed.
#[local] Hint Resolve less_run_vm : less.
Lemma less_try_bytecode key params stmts args : less (@try_bytecode Ev n key params stmts args) (@try_bytecode Ev' m key params stmts args).
Proof. unfold try_bytecode. less. Qed.
Lemma less_fill arr l : forall i, less (@fill_array Ev arr i l) (@fill_array Ev' arr i l).
Proof. induction l as [|v l IH]; intros i; cbn [fill_array]; less. Qed.
#[local] Hint Resolve less_fill : less.
Lemma less_bind_arguments env args : less (@bind_arguments Ev env args) (@bind_arguments Ev' env args).
Proof. unfold bind_arguments. less. Qed.
#[local] Hint Resolve less_bind_arguments : less.
Lemma less_bind_params env args specs : forall i, less (@bind_params Ev env args specs i) (@bind_params Ev' env args specs i).
Proof. induction specs as [|p l IH]; intros i; cbn [bind_params]; less.
Qed.
Lemma less_text src : less (@eval_function_body Ev n src) (@eval_function_body Ev' m src).
Proof. exact (eval_upto_more H ee ee' va va' n Hee Hva m (Text src) Hnm). Qed.
Lemma less_stmts l : less (@eval_function_body_cached Ev n l) (@eval_function_body_cached Ev' m l).
Proof. exact (eval_upto_more H ee ee' va va' n Hee Hva m (Stmts l) Hnm). Qed.
#[local] Hint Resolve less_try_bytecode less_bind_params less_text less_stmts : less.
Lemma less_call_this f this args : less (@call_closure_with_this Ev n f this args) (@call_closure_with_this Ev' m f this args).
Proof. unfold call_closure_with_this, call_body. less. Qed.
Lemma less_call f args : less (@call_closure Ev n f args) (@call_closure Ev' m f args).
Proof. apply less_call_this. Qed.
#[local] Hint Resolve less_call_this less_call : less.
Lemma less_program src : less (@eval_program Ev n src) (@eval_program Ev' m src).
Proof. unfold eval_program. apply less_program_step; auto using less_text, less_stmts. Qed.
#[local] Hint Resolve less_program : less.

(** ** [ArithParser] *)

Context (B B' : JsBuiltins)
  (HB : forall marker this args, less (@builtin_method B Ev n marker this args) (@builtin_method B' Ev' m marker this args))
  (Hre : @js_new_regexp B = @js_new_regexp B') (Hpow : @f64_powf B = @f64_powf B').

#[local] Hint Resolve HB : less.
Lemma less_regexp p f : less (act (@js_new_regexp B H p f)) (act (@js_new_regexp B' H p f)).
Proof. rewrite Hre. apply less_refl. Qed.
Lemma less_pow x y : less (@pow_values H B x y) (@pow_values H B' x y).
Proof. unfold pow_values. rewrite Hpow. apply less_refl. Qed.
#[local] Hint Resolve less_regexp less_pow : less.

Lemma less_if_closure f args : less (@call_if_closure Ev n f args) (@call_if_closure Ev' m f args).
Proof. unfold call_if_closure. less. Qed.
#[local] Hint Resolve less_if_closure : less.
Lemma less_method f this args : less (@call_builtin_method Ev B n f this args) (@call_builtin_method Ev' B' m f this args).
Proof. unfold call_builtin_method. less. Qed.
#[local] Hint Resolve less_method : less.
Lemma less_resolve name : less (walk (resolve_binding n name)) (walk (resolve_binding m name)).
Proof. apply less_walk. intros s h r E. by apply (resolve_more n m). Qed.
Lemma less_resolve_env name : less (walk (resolve_binding_env n name)) (walk (resolve_binding_env m name)).
Proof.
  apply less_walk. intros s h r E. unfold resolve_binding_env in *.
  destruct (resolve_binding n _ _ _) as [x|] eqn:E1; [|done]. by rewrite (resolve_more n m _ _ _ _ Hnm E1).
Qed.
#[local] Hint Resolve less_resolve less_resolve_env : less.
Lemma less_undeclared l : less (@undeclared Ev n l) (@undeclared Ev' m l).
Proof. unfold undeclared. less. Qed.
#[local] Hint Resolve less_undeclared : less.

Section Productions.
Context (base total : Z) (gas : nat) (rec rec' : Prod -> bytes -> E (Value * bytes)) (Hrec : forall p l, less (rec p l) (rec' p l)).

Lemma less_identifier l : less (@parse_identifier_value Ev base total l) (@parse_identifier_value Ev' base total l).
Proof. unfold parse_identifier_value. less. Qed.
Lemma less_list_item {A} close first (done item item' : bytes -> E A) l : (forall l, less (item l) (item' l)) ->
  less (list_item close first done item l) (list_item close first done item' l).
Proof. intros. unfold list_item. less. Qed.
Lemma less_array_items k : forall arr idx l, less (@array_items Ev rec k arr idx l) (@array_items Ev' rec' k arr idx l).
Proof. induction k as [|k IH]; intros arr idx l; cbn [array_items]; [less|]. apply less_list_item. less. Qed.
Lemma less_object_items k : forall obj first l, less (@object_items Ev rec k obj first l) (@object_items Ev' rec' k obj first l).
Proof. induction k as [|k IH]; intros obj first l; cbn [object_items]; [less|]. apply less_list_item. less. Qed.
#[local] Hint Resolve less_identifier less_array_items less_object_items : less.
Lemma less_primary l : less (@parse_primary Ev B base total gas rec l) (@parse_primary Ev' B' base total gas rec' l).
Proof. unfold parse_primary, parse_array_literal, parse_object_literal. less. Qed.
Lemma less_call_args k : forall l, less (call_args rec k l) (call_args rec' k l).
Proof. induction k as [|k IH]; intros l; cbn [call_args]; less. Qed.
#[local] Hint Resolve less_primary less_call_args : less.
Lemma less_postfix_loop k : forall v this l,
  less (@postfix_loop Ev B n base total gas rec k v this l) (@postfix_loop Ev' B' m base total gas rec' k v this l).
Proof. induction k as [|k IH]; intros v this l; cbn [postfix_loop]; unfold parse_args; less. Qed.
#[local] Hint Resolve less_postfix_loop : less.
Lemma less_postfix l : less (@parse_postfix Ev B n base total gas rec l) (@parse_postfix Ev' B' m base total gas rec' l).
Proof. unfold parse_postfix. less. Qed.
#[local] Hint Resolve less_postfix : less.
Lemma less_unary_op start (f g : bytes -> E (Value * bytes)) h l : (forall l, less (f l) (g l)) ->
  less (unary_op base total start f h l) (unary_op base total start g h l).
Proof. intros. unfold unary_op. less. Qed.
Lemma less_unary l : less (@parse_unary Ev B n base total gas rec l) (@parse_unary Ev' B' m base total gas rec' l).
Proof. unfold parse_unary. repeat (less; first [apply less_unary_op]). Qed.

Lemma less_bin_loop ops f g : (forall l, less (f l) (g l)) -> forall k v l, less (bin_loop k ops f v l) (bin_loop k ops g v l).
Proof.
  intros Hf. induction k as [|k IH]; intros v l; cbn [bin_loop]; [less|]. cbv zeta. destruct (ops _) as [[r h]|]; less.
Qed.
Lemma less_level ops f g : (forall l, less (f l) (g l)) -> forall l, less (bin_level gas ops f l) (bin_level gas ops g l).
Proof. intros Hf l. unfold bin_level. pose proof (less_bin_loop ops f g Hf gas). less. Qed.
Lemma less_exponent l : less (@parse_exponent Ev B n base total gas rec l) (@parse_exponent Ev' B' m base total gas rec' l).
Proof. pose proof less_unary. unfold parse_exponent. less. Qed.
Lemma less_shift l : less (@parse_shift Ev B n base total gas rec l) (@parse_shift Ev' B' m base total gas rec' l).
Proof. revert l. do 3 apply less_level. apply less_exponent. Qed.
Lemma less_comparison l : less (@parse_comparison Ev B n base total gas rec l) (@parse_comparison Ev' B' m base total gas rec' l).
Proof. pose proof less_shift. unfold parse_comparison. less. Qed.
Lemma less_production p l : less (@production Ev B n base total gas rec p l) (@production Ev' B' m base total gas rec' p l).
Proof. destruct p; [revert l; do 5 apply less_level; apply less_comparison|apply less_exponent|apply less_unary]. Qed.
End Productions.

Lemma less_arith base total k : forall p l, less (@arith_upto Ev B n base total k p l) (@arith_upto Ev' B' m base total k p l).
Proof. induction k as [|k IH]; intros p l; [done|]. cbn [arith_upto]. by apply less_production. Qed.
#[local] Hint Resolve less_arith : less.
Lemma less_parse_arith src : less (@parse_arith_expr Ev B n src) (@parse_arith_expr Ev' B' m src).
Proof. unfold parse_arith_expr. less. Qed.
#[local] Hint Resolve less_parse_arith : less.

(** ** [eval_value] *)

Lemma less_answer {A} (x y : E A) : less x y -> less (answer x) (answer y).
Proof. intros. unfold answer. less. Qed.
#[local] Hint Resolve less_answer : less.
Lemma less_first_of l l' last last' : Forall2 less l l' -> less last last' -> less (first_of l last) (first_of l' last').
Proof. intros Hl Hlast. induction Hl as [|x y l l' Hx _ IH]; cbn [first_of]; less. Qed.
Lemma less_name s : less (@eval_name Ev n s) (@eval_name Ev' m s).
Proof. unfold eval_name. less. Qed.
Lemma less_set_items arr l : forall i, less (@set_items Ev arr i l) (@set_items Ev' arr i l).
Proof. induction l as [|x l IH]; intros i; cbn [set_items]; less. Qed.
#[local] Hint Resolve less_name less_set_items : less.
Lemma less_add_entries obj l : less (@add_entries Ev obj l) (@add_entries Ev' obj l).
Proof. induction l as [|e l IH]; cbn [add_entries]; [less|]. apply less_bind; [|less]. unfold add_entry, add_function, set_checked. less. Qed.
#[local] Hint Resolve less_add_entries : less.
Lemma less_value_step src : less (@value_step Ev B n src) (@value_step Ev' B' m src).
Proof. unfold value_step, eval_array_literal, eval_object_literal, eval_arrow, eval_function. less. Qed.

(** ** Calls and members *)

Context (M : JsMethods) (HM : methods_final (@expr_marker M)).

Lemma less_marker marker this args : less (@expr_marker M Ev n marker this args) (@expr_marker M Ev' m marker this args).
Proof. by apply HM. Qed.
#[local] Hint Resolve less_marker : less.

Lemma less_eval_text src name : less (@js_eval Ev n src name JS_EVAL_RETVAL) (@js_eval Ev' m src name JS_EVAL_RETVAL).
Proof.
  unfold js_eval. change (flag JS_EVAL_RETVAL JS_EVAL_JSON) with false. change (flag JS_EVAL_RETVAL JS_EVAL_SCRIPT) with false.
  cbn match. unfold syntax_error. less.
Qed.
#[local] Hint Resolve less_eval_text : less.
Lemma less_global_marker marker args :
  less (@call_builtin_global_marker Ev n marker args) (@call_builtin_global_marker Ev' m marker args).
Proof. unfold call_builtin_global_marker. less. Qed.
#[local] Hint Resolve less_global_marker : less.
Lemma less_call_function f this args : less (@call_function_value Ev B n f this args) (@call_function_value Ev' B' m f this args).
Proof. unfold call_function_value. less. Qed.
Lemma less_js_call flags : less (@js_call Ev B n flags) (@js_call Ev' B' m flags).
Proof. unfold js_call. less. Qed.
#[local] Hint Resolve less_call_function less_js_call : less.
Lemma less_elements arr k : forall i, less (@elements_from Ev arr i k) (@elements_from Ev' arr i k).
Proof. induction k as [|k IH]; intros i; cbn [elements_from]; less. Qed.
#[local] Hint Resolve less_elements : less.
Lemma less_bound v args : less (@call_bound Ev B n v args) (@call_bound Ev' B' m v args).
Proof. unfold call_bound. less. Qed.
#[local] Hint Resolve less_bound : less.
Lemma less_call_value v this args : less (@call_value Ev B M n v this args) (@call_value Ev' B' M m v this args).
Proof. unfold call_value. less. Qed.
Lemma less_expr_member v name : less (@expr_member Ev v name) (@expr_member Ev' v name).
Proof. unfold expr_member, length_of, own_property_method, function_method. less. Qed.
Lemma less_call_arguments again l : less (@call_arguments Ev n again l) (@call_arguments Ev' m again l).
Proof. induction l as [|a l IH]; cbn [call_arguments]; less. Qed.
#[local] Hint Resolve less_call_value less_expr_member less_call_arguments : less.
Lemma less_tail_loop k : forall v this rest, less (@tail_loop Ev B M n k v this rest) (@tail_loop Ev' B' M m k v this rest).
Proof. induction k as [|k IH]; intros v this rest; cbn [tail_loop]; unfold indexed; less. Qed.
#[local] Hint Resolve less_tail_loop : less.

(** ** Readings *)

Lemma less_fast_literal s : less (@fast_literal Ev s) (@fast_literal Ev' s).
Proof. unfold fast_literal. less. Qed.
Lemma less_declare_all const env l : less (@declare_all Ev const env l) (@declare_all Ev' const env l).
Proof. induction l as [|d l IH]; cbn [declare_all]; less. Qed.
#[local] Hint Resolve less_declare_all less_binding_env : less.
Lemma less_declaration s : less (@declaration Ev n s) (@declaration Ev' m s).
Proof. unfold declaration. less. Qed.
Lemma less_eval_all l : forall v, less (@eval_all Ev l v) (@eval_all Ev' l v).
Proof. induction l as [|p l IH]; intros v; cbn [eval_all]; less. Qed.
#[local] Hint Resolve less_eval_all : less.
Lemma less_comma s : less (@comma Ev s) (@comma Ev' s).
Proof. unfold comma. less. Qed.
Lemma less_lvalue_of src : less (@parse_lvalue Ev n src) (@parse_lvalue Ev' m src).
Proof. by apply less_lvalue. Qed.
Lemma less_target name : less (compound_target n name) (compound_target m name).
Proof. unfold compound_target. less. Qed.
#[local] Hint Resolve less_lvalue_of less_target : less.
Lemma less_compound off s : less (@compound Ev n off s) (@compound Ev' m off s).
Proof. unfold compound, compound_name, compound_place, compound_value, compound_slow, throws. less. Qed.
Lemma less_assignment s : less (@assignment Ev n s) (@assignment Ev' m s).
Proof. unfold assignment, assign, throws. less. Qed.
Lemma less_ternary s : less (@ternary Ev s) (@ternary Ev' s).
Proof. unfold ternary. less. Qed.
Lemma less_proto_walk k k' target : (k <= k')%nat -> forall proto, less (@proto_walk Ev k target proto) (@proto_walk Ev' k' target proto).
Proof.
  revert k'. induction k as [|k IH]; intros k' Hk proto; [done|]. destruct k' as [|k']; [lia|].
  specialize (IH k' ltac:(lia)). cbn [proto_walk]. less.
Qed.
#[local] Hint Resolve less_proto_walk : less.
Lemma less_instance_of x y : less (@instance_of Ev n x y) (@instance_of Ev' m x y).
Proof. unfold instance_of. less. Qed.
Lemma less_on_both split f f' s : (forall x y, less (f x y) (f' x y)) -> less (@on_both Ev split f s) (@on_both Ev' split f' s).
Proof. intros. unfold on_both. less. Qed.
Lemma less_arithmetic s : less (@arithmetic Ev B n s) (@arithmetic Ev' B' m s).
Proof. unfold arithmetic. less. Qed.
Lemma less_inc_dec l inc pre : less (@inc_dec Ev n l inc pre) (@inc_dec Ev' m l inc pre).
Proof. unfold inc_dec, eval_property_inc_dec, inc_dec_name, stepped. less. Qed.
#[local] Hint Resolve less_inc_dec : less.
Lemma less_typeof s : less (@typeof Ev s) (@typeof Ev' s).
Proof. unfold typeof. less. Qed.
Lemma less_delete s : less (@delete Ev s) (@delete Ev' s).
Proof. unfold delete, delete_member. less. Qed.
Lemma less_construct s : less (@construct Ev B n s) (@construct Ev' B' m s).
Proof. unfold construct, construct_closure, construct_builtin, new_array_of, new_function_of, string_arg, throws. less. Qed.
#[local] Hint Resolve less_construct : less.

Lemma less_expr_step src : less (@expr_step Ev B M n src) (@expr_step Ev' B' M m src).
Proof.
  unfold expr_step. cbv zeta. destruct (bool_decide _); [less|]. apply less_bind; [apply less_fast_literal|intros r].
  destruct r as [v|]; [less|]. apply less_bind; [less|intros off].
  apply less_first_of; [|unfold base_and_tail; less]. unfold readings. repeat apply Forall2_cons_2; [..|apply Forall2_nil_2].
  - apply less_declaration.
  - apply less_comma.
  - unfold arrow. less.
  - unfold void. less.
  - apply less_compound.
  - apply less_assignment.
  - apply less_ternary.
  - apply less_on_both, less_instance_of.
  - apply less_on_both. less.
  - apply less_arithmetic.
  - unfold postfix_inc_dec. less.
  - unfold prefix_inc_dec. less.
  - apply less_typeof.
  - apply less_delete.
  - unfold new. less.
  - less.
Qed.
End Growth.

(** ** The engine *)

Lemma engine_more (H : JsHost) (B : JsBuiltins) (M : JsMethods) (HB : methods_final (@builtin_method B))
    (HM : methods_final (@expr_marker M)) (n : nat) : forall m, (n <= m)%nat ->
  (forall e, less (@eval_expr (engine H n) e) (@eval_expr (engine H m) e)) /\
  (forall e, less (@eval_value (engine H n) e) (@eval_value (engine H m) e)).
Proof.
  induction n as [|n IH]; intros m Hm; [split; intros e; apply less_out|]. destruct m as [|m]; [lia|].
  destruct (IH m ltac:(lia)) as [He Hv].
  assert (Hi : forall k, engine H k = {| eval_host := H; eval_expr := @eval_expr (engine H k); eval_value := @eval_value (engine H k) |})
    by (by intros [|k]).
  split; intros e; cbn [engine eval_expr eval_value]; rewrite (Hi n), (Hi m); [apply less_expr_step|apply less_value_step];
    (done || lia || (intros; apply HB; done || lia)).
Qed.

(** An answer does not depend on the fuel.  What an expression, a program or a call answers on the engine
    with some fuel, panics and errors included, it answers with every larger amount, at every
    depth of nesting, and leaves the same context. *)
Theorem engine_answers_are_final (H : JsHost) (B : JsBuiltins) (M : JsMethods) (n m : nat) (c : Ctx) (r : Res Value) (c' : Ctx)
    (HB : methods_final (@builtin_method B)) (HM : methods_final (@expr_marker M)) :
  (n <= m)%nat ->
  (forall e, @eval_expr (engine H n) e c = Some (r, c') -> @eval_expr (engine H m) e c = Some (r, c')) /\
  (forall src, @eval_program (engine H n) n src c = Some (r, c') -> @eval_program (engine H m) m src c = Some (r, c')) /\
  (forall func this args, @call_closure_with_this (engine H n) n func this args c = Some (r, c') ->
    @call_closure_with_this (engine H m) m func this args c = Some (r, c')).
Proof.
  intros Hm. destruct (engine_more H B M HB HM n m Hm) as [He Hv].
  assert (Hi : forall k, engine H k = {| eval_host := H; eval_expr := @eval_expr (engine H k); eval_value := @eval_value (engine H k) |})
    by (by intros [|k]).
  split_and!.
  - intros e. apply He.
  - intros src. rewrite (Hi n), (Hi m). by apply less_program.
  - intros f this args. rewrite (Hi n), (Hi m). by apply less_call_this.
Qed.

(** ** Runs *)

(** No built-in has a method, and the platform's power function is not used. *)
Definition no_builtins : JsBuiltins :=
  {| builtin_method _ _ _ _ _ := eret None; js_new_regexp _ _ _ c := (UNDEFINED W, c); f64_powf x _ := x |}.
Definition no_methods : JsMethods :=
  {| expr_marker _ _ _ _ _ := eret None |}.
Lemma no_builtins_final : methods_final (@builtin_method no_builtins).
Proof. intros H ee ee' va va' n m _ _ _ marker this args c r E. exact E. Qed.
Lemma no_methods_final : methods_final (@expr_marker no_methods).
Proof. intros H ee ee' va va' n m _ _ _ marker this args c r E. exact E. Qed.
(** [js_eval] of a text in a new context, for its value. *)
Definition run_js (src : string) : option (Res Value * Ctx) :=
  @js_eval (@interpreter silent_host no_builtins no_methods 24) 24 (bytes_of_string src) [] JS_EVAL_RETVAL ctx0.
Definition number_of (r : option (Res Value * Ctx)) : option Z := match r with Some (Val v, _) => int32 W v | _ => None end.
Definition text_of (r : option (Res Value * Ctx)) : option bytes := match r with Some (Val v, c) => str_of c v | _ => None end.
Definition bool_of (r : option (Res Value * Ctx)) : option bool :=
  match r with Some (Val v, _) => if is_bool v then Some (v =? TRUE W) else None | _ => None end.
Definition throws_error (r : option (Res Value * Ctx)) : bool := match r with Some (Val v, _) => is_exception W v | _ => false end.

Example programs_run :
  number_of (run_js "function f(n) { return n < 2 ? n : f(n - 1) + f(n - 2) } f(4)") = Some 3 /\
  number_of (run_js "var a = [1, 2, 3]; a[1] += 5; a[1] + a.length") = Some 10 /\
  number_of (run_js "var o = {x: 1, get y() { return 5 }}; o.x++; o.x + o.y") = Some 7 /\
  number_of (run_js "function P(x) { this.x = x } var p = new P(7); p.x") = Some 7 /\
  bool_of (run_js "'a' + 'b' == 'ab'") = Some true /\ throws_error (run_js "const k = 1; k = 2") = true /\
  number_of (run_js "var n = 0; for (var i = 0; i < 4; i++) { if (i === 2) continue; n += i } n") = Some 4.
Proof. by vm_compute. Qed.

(** Where expressions do not mean what JavaScript says.  A method called on an object does not see it as
    [this]; a function's call in [&&] runs although the left side is false, and the empty string
    is true in [||]; [!!x] and [1e3] are syntax errors; [typeof] of a fraction is [object]; a
    member of [null] is [undefined] where no operator follows, and an error where one does;
    [o['y']] before an operator is element zero; a NaN is equal to itself; and what follows
    [new]'s arguments is dropped. *)
Theorem expressions_misbehave :
  number_of (run_js "var o = {k: 3}; o.f = function() { return this === undefined ? 1 : 2 }; o.f()") = Some 1 /\
  number_of (run_js "var r = 0; function f() { r = 1; return true } false && f(); r") = Some 1 /\
  text_of (run_js "'' || 1") = Some [] /\
  throws_error (run_js "!!1") = true /\ throws_error (run_js "1e3") = true /\ number_of (run_js "1e3 + 0") = Some 1000 /\
  text_of (run_js "typeof 1.5") = Some (b! "object") /\
  (match run_js "null.x" with Some (Val v, _) => v = UNDEFINED W | _ => False end) /\ throws_error (run_js "null.x + 1") = true /\
  number_of (run_js "var o = {y: 5}; o[0] = 4; o['y'] + 0") = Some 4 /\ number_of (run_js "var o = {y: 5}; o['y']") = Some 5 /\
  bool_of (run_js "var x = 0 / 0; x === x") = Some true /\
  (match run_js "new Array(3).length" with Some (Val v, c) => class_of c v = Some CLASS_ARRAY | _ => False end).
Proof. vm_compute. split_and!; reflexivity. Qed.

Lemma engine_answers_are_final_witness : exists c',
  @eval_program (@engine silent_host no_builtins no_methods 12) 12 (b! "1 + 2") ctx0 = Some (Val (from_int32 W 3), c') /\
  @eval_program (@engine silent_host no_builtins no_methods 40) 40 (b! "1 + 2") ctx0 = Some (Val (from_int32 W 3), c').
Proof.
  eexists.
  assert (E : @eval_program (@engine silent_host no_builtins no_methods 12) 12 (b! "1 + 2") ctx0 = Some (Val (from_int32 W 3), _))
    by (vm_compute; reflexivity).
  split; [exact E|].
  exact (proj1 (proj2 (engine_answers_are_final silent_host no_builtins no_methods 12 40 ctx0 _ _ no_builtins_final no_methods_final ltac:(lia))) _ E).
Defined.
