(* ===== verification/JsExprSpec.v ===== *)
(** * JsExprSpec: what the engine keeps, and its fuel

    The readings of [eval_expr] keep the caller's environments when nested expressions do; so, by
    induction on the nesting, does the engine.  More fuel answers the same. *)
From Stdlib Require Import SpecFloat.
From S2P Require Import Prelude IntCodec Utf8 ServerArgs HashStore JsText JsFloat JsValue JsMem JsProps JsArray JsAtom JsObject JsScope JsSource JsBytecode JsCompile JsApi JsVm JsJson JsScan JsStmt JsCall JsArith JsExpr JsStmtSpec JsStmtLaws JsCallSpec JsArithSpec JsTyped JsTypedSpec JsExprLaws.

(** ** Environments *)

(** The methods of built-in objects relate the scopes they are given and leave. *)
Record methods_within (B : JsBuiltins) (M : JsMethods) : Prop := {
  mw_builtin : forall Ev fuel marker this args, eval_within stacked Ev -> keeps stacked (builtin_method Ev fuel marker this args);
  mw_regexp : forall H p f, host_within stacked H -> within stacked (js_new_regexp H p f);
  mw_marker : forall Ev fuel marker this args, eval_within stacked Ev -> keeps stacked (expr_marker Ev fuel marker this args)
}.

Section Keeps.
Context `{Ev : JsEval} (HE : eval_within stacked Ev) `{B : JsBuiltins} `{M : JsMethods} (HM : methods_within B M) (fuel : nat).
Let HH := ew_host _ _ HE.

Lemma keeps_call_closure f args : keeps stacked (call_closure fuel f args).
Proof. apply (keeps_closure HE fuel). Qed.
Lemma keeps_arith_expr src : keeps stacked (parse_arith_expr fuel src).
Proof. apply (keeps_parse_arith stacked HE fuel); [intros; by apply (mw_builtin _ _ HM)|intros; by apply (mw_regexp _ _ HM)|apply keeps_call_closure]. Qed.
Lemma keeps_methods f this args : keeps stacked (call_builtin_method fuel f this args).
Proof. apply (keeps_method stacked HE fuel); [intros; by apply (mw_builtin _ _ HM)|apply keeps_call_closure]. Qed.
Lemma keeps_c_function idx f this args : keeps stacked (act (call_c_function_direct idx f this args)).
Proof. apply keeps_act, (hw_c_function _ _ HH). Qed.
Lemma keeps_eval_text src name : keeps stacked (js_eval fuel src name JS_EVAL_RETVAL).
Proof.
  unfold js_eval. change (flag JS_EVAL_RETVAL JS_EVAL_JSON) with false. change (flag JS_EVAL_RETVAL JS_EVAL_SCRIPT) with false.
  cbn match. pose proof (keeps_program HE fuel) as Hp. unfold syntax_error.
  pose proof (fun cls msg => keeps_throw stacked HE cls msg) as Ht. keep.
Qed.
#[local] Hint Resolve keeps_call_closure keeps_arith_expr keeps_methods keeps_c_function keeps_eval_text : keeps.
#[local] Hint Resolve keeps_expr keeps_value keeps_new_object keeps_new_string keeps_new_array keeps_heap keeps_get_str
  keeps_get_uint32 keeps_to_string keeps_throw keeps_set_property keeps_set_str keeps_set_uint32 keeps_number keeps_primitive
  keeps_from_number keeps_int32 keeps_lvalue keeps_write_key : keeps.

Lemma keeps_lack name : keeps stacked (global_lacks name).
Proof. unfold global_lacks. keep. Qed.
Lemma keeps_new_function params body : keeps stacked (create_function params body).
Proof. unfold create_function. keep. Qed.
Lemma keeps_marker_string pre prop : keeps stacked (new_marker pre prop).
Proof. unfold new_marker. keep. Qed.
Lemma keeps_answer {A} (m : E A) : keeps stacked m -> keeps stacked (answer m).
Proof. intros. unfold answer. keep. Qed.
Lemma keeps_pass {A} : keeps stacked (pass : E (option A)).
Proof. unfold pass. keep. Qed.
#[local] Hint Resolve keeps_lack keeps_new_function keeps_marker_string keeps_answer keeps_pass : keeps.
Lemma keeps_first_of l last : Forall (keeps stacked) l -> keeps stacked last -> keeps stacked (first_of l last).
Proof. intros Hl Hlast. induction Hl as [|m l Hm _ IH]; cbn [first_of]; keep. Qed.
Ltac keep_more := repeat (progress (keep; try first [apply keeps_answer])).

Lemma keeps_on_global name absent : (forall v, keeps stacked (absent v)) -> keeps stacked (on_global name absent).
Proof. intros. unfold on_global. keep. Qed.
#[local] Hint Resolve keeps_on_global : keeps.
Lemma keeps_name s : keeps stacked (eval_name fuel s).
Proof. unfold eval_name. keep; apply keeps_on_global; keep. Qed.
Lemma keeps_set_items arr items : forall i, keeps stacked (set_items arr i items).
Proof. induction items as [|x l IH]; intros i; cbn [set_items]; keep. Qed.
#[local] Hint Resolve keeps_name keeps_set_items : keeps.
Lemma keeps_array_literal s : keeps stacked (eval_array_literal s).
Proof. unfold eval_array_literal. keep. Qed.
Lemma keeps_set_checked obj name v : keeps stacked (set_checked obj name v).
Proof. unfold set_checked. keep. Qed.
#[local] Hint Resolve keeps_set_checked : keeps.
Lemma keeps_add_entry obj e : keeps stacked (add_entry obj e).
Proof. unfold add_entry, add_function. keep. Qed.
#[local] Hint Resolve keeps_add_entry : keeps.
Lemma keeps_add_entries obj l : keeps stacked (add_entries obj l).
Proof. induction l as [|e l IH]; cbn [add_entries]; keep. Qed.
#[local] Hint Resolve keeps_add_entries keeps_array_literal : keeps.
Lemma keeps_object_literal s : keeps stacked (eval_object_literal s).
Proof. unfold eval_object_literal. keep. Qed.
Lemma keeps_arrow_function x y : keeps stacked (eval_arrow x y).
Proof. unfold eval_arrow. keep. Qed.
Lemma keeps_function_value s : keeps stacked (eval_function s).
Proof. unfold eval_function. keep. Qed.
#[local] Hint Resolve keeps_object_literal keeps_arrow_function keeps_function_value : keeps.
Lemma keeps_value_step src : keeps stacked (value_step fuel src).
Proof. unfold value_step. keep. Qed.

(** *** Calls *)

Lemma keeps_text v : keeps stacked (value_to_string v).
Proof. unfold value_to_string. keep. Qed.
Lemma keeps_global_marker marker args : keeps stacked (call_builtin_global_marker fuel marker args).
Proof. unfold call_builtin_global_marker, number_result. keep; try apply keeps_answer; keep. Qed.
#[local] Hint Resolve keeps_text keeps_global_marker : keeps.
Lemma keeps_call_this f this args : keeps stacked (call_closure_with_this fuel f this args).
Proof. apply (keeps_closure HE fuel). Qed.
#[local] Hint Resolve keeps_call_this : keeps.
Lemma keeps_call_function f this args : keeps stacked (call_function_value fuel f this args).
Proof. unfold call_function_value. keep. Qed.
Lemma stacked_call_stack l s : stacked s (with_call_stack l s).
Proof. split; done. Qed.
Lemma keeps_truncate n : keeps stacked (tweak (call_stack_truncate n)).
Proof. apply keeps_tweak. intros s. apply stacked_call_stack. Qed.
Lemma keeps_push v : keeps stacked (js_push_arg v).
Proof. apply keeps_tweak. intros s. apply stacked_call_stack. Qed.
#[local] Hint Resolve keeps_call_function keeps_truncate keeps_push : keeps.
Lemma keeps_js_call flags : keeps stacked (js_call fuel flags).
Proof. unfold js_call. keep. Qed.
Lemma keeps_push_all l : keeps stacked (push_all l).
Proof. induction l as [|v l IH]; cbn [push_all]; keep. Qed.
Lemma keeps_elements arr n : forall i, keeps stacked (elements_from arr i n).
Proof. induction n as [|n IH]; intros i; cbn [elements_from]; keep. Qed.
#[local] Hint Resolve keeps_js_call keeps_push_all keeps_elements : keeps.
Lemma keeps_bound v args : keeps stacked (call_bound fuel v args).
Proof. unfold call_bound. keep. Qed.
Lemma keeps_expr_marker m this args : keeps stacked (expr_marker Ev fuel m this args).
Proof. by apply (mw_marker _ _ HM). Qed.
#[local] Hint Resolve keeps_bound keeps_expr_marker : keeps.
Lemma keeps_call_value v this args : keeps stacked (call_value fuel v this args).
Proof.
  unfold call_value. keep. apply keeps_first_of; [|keep]. repeat apply Forall_cons_2; [keep..|apply Forall_nil_2].
Qed.

Lemma keeps_object_marker bs name m : object_marker bs name = Some m -> keeps stacked m.
Proof. unfold object_marker. intros E. repeat (case_match; simplify_eq); cbn in *; try (apply fmap_Some in E as (f & _ & ->)); keep. Qed.
Lemma keeps_method_marker v name c m : method_marker v name c = Some m -> keeps stacked m.
Proof. unfold method_marker. intros E. repeat (case_match; simplify_eq); keep. Qed.
Lemma keeps_method_reading v name : keeps stacked (m <- view (method_marker v name) ;; match m with Some m => answer m | None => pass end).
Proof.
  intros c r c' E Hr. unfold ebind, view in E. destruct (method_marker v name c) as [m|] eqn:Em.
  - apply keeps_method_marker in Em. by apply (keeps_answer m Em c r c').
  - by apply (keeps_pass c r c').
Qed.
Lemma keeps_length_of v : keeps stacked (length_of v).
Proof. unfold length_of. keep. Qed.
Lemma keeps_own_method v : keeps stacked (own_property_method v).
Proof. unfold own_property_method. keep. Qed.
Lemma keeps_is_function v : keeps stacked (act (js_is_function v)).
Proof. apply keeps_act. apply (within_is_function stacked HH). Qed.
#[local] Hint Resolve keeps_is_function : keeps.
Lemma keeps_function_method v name : keeps stacked (function_method v name).
Proof. unfold function_method. keep. Qed.
#[local] Hint Resolve keeps_call_value keeps_length_of keeps_own_method keeps_function_method keeps_method_reading : keeps.
Lemma keeps_expr_member v name : keeps stacked (expr_member v name).
Proof.
  unfold expr_member. apply keeps_bind; [exact _|keep|intros bs]. destruct (match bs with Some _ => _ | None => _ end); [keep|].
  apply keeps_first_of; [|keep]. repeat apply Forall_cons_2; [..|apply Forall_nil_2]; [keep|apply keeps_method_reading|keep| |keep].
  destruct (bs ≫= _) as [m|] eqn:Em; [|keep]. apply bind_Some in Em as (b & _ & Em%keeps_object_marker). keep.
Qed.
Lemma keeps_call_arguments again l : keeps stacked (call_arguments fuel again l).
Proof. induction l as [|a l IH]; cbn [call_arguments]; keep. Qed.
#[local] Hint Resolve keeps_expr_member keeps_call_arguments : keeps.
Lemma keeps_tail_loop n : forall v this rest, keeps stacked (tail_loop fuel n v this rest).
Proof. induction n as [|n IH]; intros v this rest; cbn [tail_loop]; unfold indexed; keep. Qed.
#[local] Hint Resolve keeps_tail_loop : keeps.

(** *** Readings *)

Lemma keeps_mark env name : keeps stacked (mark_const_binding env name).
Proof. apply (keeps_mark_const stacked HE). Qed.
Lemma keeps_is_const env name : keeps stacked (is_const_binding env name).
Proof. unfold is_const_binding, no_const_map. keep. Qed.
#[local] Hint Resolve keeps_mark keeps_is_const : keeps.
Lemma keeps_fast_literal s : keeps stacked (fast_literal s).
Proof. unfold fast_literal. keep. Qed.
Lemma keeps_declare_all const env l : keeps stacked (declare_all const env l).
Proof. induction l as [|d l IH]; cbn [declare_all]; keep. Qed.
#[local] Hint Resolve keeps_declare_all : keeps.
Lemma keeps_function_reading s : keeps stacked (declaration fuel s).
Proof. unfold declaration, binding_env. keep. Qed.
Lemma keeps_eval_all l : forall v, keeps stacked (eval_all l v).
Proof. induction l as [|p l IH]; intros v; cbn [eval_all]; keep. Qed.
#[local] Hint Resolve keeps_eval_all : keeps.
Lemma keeps_comma s : keeps stacked (comma s).
Proof. unfold comma. keep. Qed.
Lemma keeps_void s : keeps stacked (void s).
Proof. unfold void. keep. Qed.
Lemma keeps_compound_slow op x y : keeps stacked (compound_slow op x y).
Proof. unfold compound_slow. keep. Qed.
#[local] Hint Resolve keeps_compound_slow : keeps.
Lemma keeps_compound_value op x y : keeps stacked (compound_value op x y).
Proof. unfold compound_value. keep. Qed.
Lemma keeps_target name : keeps stacked (compound_target fuel name).
Proof. unfold compound_target. keep. Qed.
Lemma keeps_throws cls msg : keeps stacked (throws cls msg).
Proof. unfold throws. keep. Qed.
#[local] Hint Resolve keeps_compound_value keeps_target keeps_throws : keeps.
Lemma keeps_compound_name x op y : keeps stacked (compound_name fuel x op y).
Proof. unfold compound_name. keep. Qed.
Lemma keeps_compound_place x op y : keeps stacked (compound_place fuel x op y).
Proof. unfold compound_place. keep. Qed.
#[local] Hint Resolve keeps_compound_name keeps_compound_place : keeps.
Lemma keeps_compound off s : keeps stacked (compound fuel off s).
Proof. unfold compound. keep; apply keeps_answer; keep. Qed.
Lemma keeps_assign x y : keeps stacked (assign fuel x y).
Proof. unfold assign. keep. Qed.
#[local] Hint Resolve keeps_assign : keeps.
Lemma keeps_assignment s : keeps stacked (assignment fuel s).
Proof. unfold assignment. keep. Qed.
Lemma keeps_ternary s : keeps stacked (ternary s).
Proof. unfold ternary. keep. Qed.
Lemma keeps_proto_walk n target : forall proto, keeps stacked (proto_walk n target proto).
Proof. induction n as [|n IH]; intros proto; cbn [proto_walk]; keep. Qed.
#[local] Hint Resolve keeps_proto_walk : keeps.
Lemma keeps_instance_of x y : keeps stacked (instance_of fuel x y).
Proof. unfold instance_of. keep. Qed.
Lemma keeps_in_object x y : keeps stacked (in_object x y).
Proof. unfold in_object. keep. Qed.
Lemma keeps_on_both split f s : (forall x y, keeps stacked (f x y)) -> keeps stacked (on_both split f s).
Proof. intros. unfold on_both. keep. Qed.
Lemma keeps_arithmetic s : keeps stacked (arithmetic fuel s).
Proof. unfold arithmetic. keep. Qed.
Lemma keeps_stepped inc v : keeps stacked (stepped inc v).
Proof. unfold stepped. keep. Qed.
Lemma keeps_key_read base key : keeps stacked (read_key base key).
Proof. unfold read_key. keep. Qed.
#[local] Hint Resolve keeps_stepped keeps_key_read : keeps.
Lemma keeps_inc_dec l inc pre : keeps stacked (inc_dec fuel l inc pre).
Proof. unfold inc_dec, eval_property_inc_dec, inc_dec_name. keep; apply keeps_answer; keep. Qed.
#[local] Hint Resolve keeps_inc_dec : keeps.
Lemma keeps_postfix_inc_dec off s : keeps stacked (postfix_inc_dec fuel off s).
Proof. unfold postfix_inc_dec. keep. Qed.
Lemma keeps_prefix_inc_dec off s : keeps stacked (prefix_inc_dec fuel off s).
Proof. unfold prefix_inc_dec. keep. Qed.
Lemma keeps_type_of v : keeps stacked (type_of v).
Proof.
  unfold type_of. apply keeps_bind; [exact _| |intros t; keep]. apply keeps_act. intros c.
  pose proof (within_is_function stacked HH v c) as K. do 5 (match goal with |- context [if ?b then _ else _] => destruct b; [apply sr_refl|] end).
  by destruct (js_is_function v c).
Qed.
#[local] Hint Resolve keeps_type_of : keeps.
Lemma keeps_typeof_reading s : keeps stacked (typeof s).
Proof. unfold typeof. keep; apply keeps_answer; keep. Qed.
Lemma keeps_delete_member s : keeps stacked (delete_member s).
Proof. unfold delete_member. keep. Qed.
Lemma keeps_new_regexp p f : keeps stacked (act (js_new_regexp eval_host p f)).
Proof. by apply keeps_act, (mw_regexp _ _ HM). Qed.
Lemma keeps_fill arr l : forall i, keeps stacked (fill_array arr i l).
Proof. induction l as [|v l IH]; intros i; cbn [fill_array]; keep. Qed.
#[local] Hint Resolve keeps_delete_member keeps_build_typed keeps_buffer keeps_new_regexp keeps_fill : keeps.
Lemma keeps_construct_closure ctor args : keeps stacked (construct_closure fuel ctor args).
Proof. unfold construct_closure. keep. Qed.
Lemma keeps_construct_builtin marker args : keeps stacked (construct_builtin marker args).
Proof. unfold construct_builtin, new_array_of, new_function_of, string_arg. keep. Qed.
#[local] Hint Resolve keeps_construct_closure keeps_construct_builtin : keeps.
Lemma keeps_construct s : keeps stacked (construct fuel s).
Proof. unfold construct. keep. Qed.
#[local] Hint Resolve keeps_construct : keeps.

Lemma keeps_expr_step src : keeps stacked (expr_step fuel src).
Proof.
  unfold expr_step. cbv zeta. destruct (bool_decide _); [keep|]. apply keeps_bind; [exact _|apply keeps_fast_literal|intros r].
  destruct r as [v|]; [keep|]. apply keeps_bind; [exact _|keep|intros off].
  apply keeps_first_of; [|unfold base_and_tail; keep]. unfold readings. repeat apply Forall_cons_2; [..|apply Forall_nil_2].
  - apply keeps_function_reading.
  - apply keeps_comma.
  - unfold arrow. keep.
  - apply keeps_void.
  - apply keeps_compound.
  - apply keeps_assignment.
  - apply keeps_ternary.
  - apply keeps_on_both, keeps_instance_of.
  - apply keeps_on_both, keeps_in_object.
  - apply keeps_arithmetic.
  - apply keeps_postfix_inc_dec.
  - apply keeps_prefix_inc_dec.
  - apply keeps_typeof_reading.
  - unfold delete. keep.
  - unfold new. keep.
  - keep.
Qed.
End Keeps.

Lemma engine_within (H : JsHost) (B : JsBuiltins) (M : JsMethods) : host_within stacked H -> methods_within B M ->
  forall n, eval_within stacked (engine H n).
Proof.
  intros HH HM n. induction n as [|n IH]; (split; [exact HH|..]).
  - intros e. apply keeps_out.
  - intros e. apply keeps_out.
  - intros e. exact (keeps_expr_step IH HM n e).
  - intros e. exact (keeps_value_step IH HM n e).
Qed.

Section Interpreter.
Context (base : JsHost) (B : JsBuiltins) (M : JsMethods) (Hbase : host_within stacked base) (HM : methods_within B M).

Lemma starved_within {A} (x : A) : within stacked (starved x).
Proof. intros c. unfold starved. cbn [snd]. rewrite befall_scope. apply sr_refl. Qed.
Lemma hosts_within (n : nat) : host_within stacked (hosts base n).
Proof.
  induction n as [|n IH]; [split; intros; try apply starved_within; apply (hw_c_function _ _ Hbase)|]. cbn [hosts]. pose proof (engine_within _ B M IH HM n) as HE.
  pose proof (ew_host _ _ HE) as HH. split.
  - intros f this args. apply settle_within; [exact _|]. apply (keeps_closure HE n).
  - intros f this args. apply settle_within; [exact _|]. apply (keeps_call_function HE HM n).
  - apply (hw_c_function _ _ HH).
  - intros e. apply settle_within; [exact _|]. apply (ew_value _ _ HE).
  - intros v i. exact (within_get_element stacked v i).
  - intros v i x. exact (within_set_element stacked HE v i x).
Qed.
Lemma interpreter_within (n : nat) : eval_within stacked (interpreter base n).
Proof. apply engine_within; [apply hosts_within|done]. Qed.

(** The caller's environments survive every run of the interpreter, whatever the text and however it ends
    short of a panic: expressions, calls and evaluated scripts leave every environment that was
    on the stack where it was, with only new ones above, and the call frames are those of before.
    Asked of the methods of built-in objects and of native functions is the same. *)
Theorem environments_survive (n fuel : nat) (c : Ctx) (r : Res Value) (c' : Ctx) : r <> Crash ->
  (forall e, @eval_expr (interpreter base n) e c = Some (r, c') -> stacked (scope c) (scope c')) /\
  (forall func this args, @call_closure_with_this (interpreter base n) fuel func this args c = Some (r, c') ->
    stacked (scope c) (scope c')) /\
  (forall src, @eval_program (interpreter base n) fuel src c = Some (r, c') \/
    @eval_script_body (interpreter base n) fuel src c = Some (r, c') -> stacked (scope c) (scope c')).
Proof.
  intros Hr. pose proof (interpreter_within n) as HE. split_and!.
  - intros e E. exact (ew_expr _ _ HE e c r c' E Hr).
  - intros f this args E. exact (keeps_closure HE fuel f this args c r c' E Hr).
  - intros src [E|E]; [exact (keeps_program HE fuel src c r c' E Hr)|exact (keeps_script_body HE fuel src c r c' E Hr)].
Qed.
End Interpreter.

Lemma no_methods_within : methods_within no_builtins no_methods.
Proof.
  split; intros; [apply keeps_ret; exact _|intros c; apply sr_refl|apply keeps_ret; exact _].
Qed.
Lemma silent_within : host_within stacked silent_host.
Proof. split; intros; intros c; apply sr_refl. Qed.
Lemma environments_survive_witness : exists c',
  @eval_program (@interpreter silent_host no_builtins no_methods 24) 24 (b! "{ let x = 1; x + 1 }") ctx0 = Some (Val (from_int32 W 2), c') /\
  stacked (scope ctx0) (scope c').
Proof.
  eexists.
  assert (E : @eval_program (@interpreter silent_host no_builtins no_methods 24) 24 (b! "{ let x = 1; x + 1 }") ctx0 = Some (Val (from_int32 W 2), _))
    by (vm_compute; reflexivity).
  assert (Hr : Val (from_int32 W 2) <> Crash) by discriminate.
  split; [exact E|].
  exact (proj2 (proj2 (environments_survive silent_host no_builtins no_methods silent_within no_methods_within 24 24 ctx0 _ _ Hr)) _ (or_introl E)).
Defined.
