(* ===== verification/JsMethodsSpec.v ===== *)
(** * JsMethodsSpec: the method tables among the interpreter's laws

    Every method of the two tables answers the same with more fuel ([Growth]) and leaves the
    caller's environments alone ([Keeps]); so what [JsExprLaws] and [JsExprSpec] show of any
    tables holds of the interpreter with these. *)
From Stdlib Require Import SpecFloat.
From S2P Require Import Prelude IntCodec Utf8 HashStore ServerArgs JsValue JsMem JsProps JsArray JsAtom JsObject JsSource JsScope JsFloat JsText JsBuffers JsBytecode JsNumberFmt JsCompile JsApi JsVm JsJson JsScan JsStmt JsCall JsArith JsTyped JsExpr JsRegexp JsStrings JsArrayMethods JsObjectMethods JsStmtSpec JsStmtLaws JsCallSpec JsArithSpec JsTypedSpec JsExprLaws JsExprSpec.

(** ** More fuel *)

(** *** Loops *)

Section Loops.
Lemma less_for_up k b b' : (forall i, less (b i) (b' i)) -> forall i, less (for_up k i b) (for_up k i b').
Proof. intros Hb. induction k as [|k IH]; intros i; cbn [for_up]; less. Qed.
Lemma less_for_down k b b' : (forall i, less (b i) (b' i)) -> forall i, less (for_down k i b) (for_down k i b').
Proof. intros Hb. induction k as [|k IH]; intros i; cbn [for_down]; less. Qed.
Lemma less_range_up lo hi b b' : (forall i, less (b i) (b' i)) -> less (range_up lo hi b) (range_up lo hi b').
Proof. intros Hb. by apply less_for_up. Qed.
Lemma less_range_down lo hi b b' : (forall i, less (b i) (b' i)) -> less (range_down lo hi b) (range_down lo hi b').
Proof. intros Hb. by apply less_for_down. Qed.
Lemma less_find_up {A} k (t t' : Z -> E (option A)) : (forall i, less (t i) (t' i)) -> forall i, less (find_up k i t) (find_up k i t').
Proof. intros Ht. induction k as [|k IH]; intros i; cbn [find_up]; less. Qed.
Lemma less_fold_up {A} k (s s' : Z -> A -> E A) : (forall i x, less (s i x) (s' i x)) -> forall i x, less (fold_up k i s x) (fold_up k i s' x).
Proof. intros Hs. induction k as [|k IH]; intros i x; cbn [fold_up]; less. Qed.
Lemma less_fold_down {A} k (s s' : Z -> A -> E A) : (forall i x, less (s i x) (s' i x)) -> forall i x, less (fold_down k i s x) (fold_down k i s' x).
Proof. intros Hs. induction k as [|k IH]; intros i x; cbn [fold_down]; less. Qed.
Lemma less_replace_loop k input s rep rep' all : (forall i, less (rep i) (rep' i)) ->
  forall pos, less (replace_loop k input s rep all pos) (replace_loop k input s rep' all pos).
Proof. intros Hr. induction k as [|k IH]; intros pos; cbn [replace_loop]; less. Qed.
End Loops.
Ltac grow := repeat (progress (less; intros; try first [apply less_replace_loop | apply less_for_up | apply less_for_down
  | apply less_find_up | apply less_fold_up | apply less_fold_down | apply less_range_up | apply less_range_down])).


Section Writing.
Context `{H : JsHost} (rec rec' : bool -> Value -> Ctx -> option (option bytes * Ctx))
  (Hrec : forall b v c r, rec b v c = Some r -> rec' b v c = Some r).
Lemma write_elems_more arr l : forall c r, write_elems rec arr l c = Some r -> write_elems rec' arr l c = Some r.
Proof.
  induction l as [|i l IH]; intros c r; [done|]. cbn [write_elems]. destruct (js_get_property_uint32 _ _ _) as [e c1].
  intros ([x c2] & E1 & ([xs c3] & E2 & <-%Some_inj)%bind_Some)%bind_Some. rewrite (Hrec _ _ _ _ E1); cbn. by rewrite (IH _ _ E2).
Qed.
Lemma write_members_more v l : forall c r, write_members rec v l c = Some r -> write_members rec' v l c = Some r.
Proof.
  induction l as [|i l IH]; intros c r; [done|]. cbn [write_members]. destruct (js_get_property_str _ _ _) as [e c1].
  intros ([x c2] & E1 & ([xs c3] & E2 & <-%Some_inj)%bind_Some)%bind_Some. rewrite (Hrec _ _ _ _ E1); cbn. by rewrite (IH _ _ E2).
Qed.
Lemma write_value_more b v c r : write_value rec b v c = Some r -> write_value rec' b v c = Some r.
Proof.
  unfold write_value. destruct (write_leaf b v c) as [[leaf|] c1]; [done|]. case_bool_decide.
  - destruct (on_heap _ c1) as [len c2]. intros ([l c3] & E1 & <-%Some_inj)%bind_Some. by rewrite (write_elems_more _ _ _ _ E1).
  - intros ([l c3] & E1 & <-%Some_inj)%bind_Some. by rewrite (write_members_more _ _ _ _ E1).
Qed.
End Writing.

Section Growth.
Context (H : JsHost) (ee ee' va va' : bytes -> E Value) (Hee : forall t, less (ee t) (ee' t)) (Hva : forall t, less (va t) (va' t)).
Notation Ev := {| eval_host := H; eval_expr := ee; eval_value := va |}.
Notation Ev' := {| eval_host := H; eval_expr := ee'; eval_value := va' |}.
Context (n m : nat) (Hnm : (n <= m)%nat) (P : JsPlatform) (B B' : JsBuiltins)
  (HB : forall marker this args, less (@builtin_method B Ev n marker this args) (@builtin_method B' Ev' m marker this args))
  (Hre : @js_new_regexp B = @js_new_regexp B') (Hpow : @f64_powf B = @f64_powf B').
Notation grows f f' := (forall this args, less (f this args) (f' this args)).

Lemma less_closure f args : less (@call_closure Ev n f args) (@call_closure Ev' m f args).
Proof. by apply less_call. Qed.
Lemma less_function f this args : less (@call_function_value Ev B n f this args) (@call_function_value Ev' B' m f this args).
Proof. by apply less_call_function. Qed.
Lemma less_global marker args : less (@call_builtin_global_marker Ev n marker args) (@call_builtin_global_marker Ev' m marker args).
Proof. by apply less_global_marker. Qed.
Lemma less_eval_code src name : less (@js_eval Ev n src name JS_EVAL_RETVAL) (@js_eval Ev' m src name JS_EVAL_RETVAL).
Proof. by apply less_eval_text. Qed.
#[local] Hint Resolve less_closure less_function less_global less_eval_code less_answer : less.

(** *** Strings *)

Lemma less_replaced f args : less (@replaced_by Ev B n f args) (@replaced_by Ev' B' m f args).
Proof. unfold replaced_by, value_to_string. less. Qed.
#[local] Hint Resolve less_replaced : less.
Lemma less_nonregex input s r all : less (@string_replace_nonregex Ev B n input s r all) (@string_replace_nonregex Ev' B' m input s r all).
Proof. unfold string_replace_nonregex, value_to_string. grow. Qed.
Lemma less_regex_loop input f r v rep all found : forall e,
  less (@regex_replace_loop Ev B n input f r v rep all e found) (@regex_replace_loop Ev' B' m input f r v rep all e found).
Proof.
  assert (Hc : forall g, less (@capture_args input g) (@capture_args input g)) by (intros; apply less_refl).
  induction found as [|[[|[[a b]|] g]|] l IH]; intros e; cbn [regex_replace_loop]; less.
Qed.
#[local] Hint Resolve less_nonregex less_regex_loop : less.
Lemma less_replace all : grows (@string_replace Ev B P n all) (@string_replace Ev' B' P m all).
Proof. intros this args. unfold string_replace, string_replace_regex, regexp_parts, value_to_string. less. Qed.

(** *** Arrays *)

Lemma less_element this cb i : less (@on_element Ev n this cb i) (@on_element Ev' m this cb i).
Proof. unfold on_element, callback, get_at. less. Qed.
Lemma less_reduce_step this cb i acc : less (@reduce_step Ev n this cb i acc) (@reduce_step Ev' m this cb i acc).
Proof. unfold reduce_step, callback, get_at. less. Qed.
#[local] Hint Resolve less_element less_reduce_step : less.
Lemma less_search this cb yes : less (@array_search Ev n this cb yes) (@array_search Ev' m this cb yes).
Proof. unfold array_search, len_of, len_int, says_yes. grow. Qed.
#[local] Hint Resolve less_search : less.
Lemma less_flatten k k' : (k <= k')%nat -> forall a b d, less (@flatten_array Ev k a b d) (@flatten_array Ev' k' a b d).
Proof.
  revert k'. induction k as [|k IH]; intros k' Hk a b d; [apply less_out|]. destruct k' as [|k']; [lia|].
  specialize (IH k' ltac:(lia)). cbn [flatten_array]. unfold is_array_value, push_own, len_int, get_at, put_at. grow.
Qed.
#[local] Hint Resolve less_flatten : less.
Lemma less_compare c a b : less (@sort_compare Ev n c a b) (@sort_compare Ev' m c a b).
Proof. unfold sort_compare, callback, sort_number. less. Qed.
#[local] Hint Resolve less_compare : less.
Lemma less_sort_pair c this j : less (@sort_pair Ev n c this j) (@sort_pair Ev' m c this j).
Proof. unfold sort_pair, get_at, put_at. less. Qed.
#[local] Hint Resolve less_sort_pair : less.
Lemma less_mapped mp x e i : less (@mapped Ev n mp x e i) (@mapped Ev' m mp x e i).
Proof. unfold mapped, callback. less. Qed.
#[local] Hint Resolve less_mapped : less.

Notation grows_cb f f' := (forall this cb, less (f this cb) (f' this cb)).
Lemma less_with_callback f f' o : grows_cb f f' -> grows (with_callback f o) (with_callback f' o).
Proof. intros Hf this [|cb args]; cbn [with_callback]; less. Qed.
Lemma less_with_init f f' o : (forall this cb i, less (f this cb i) (f' this cb i)) -> grows (with_init f o) (with_init f' o).
Proof. intros Hf this [|cb args]; cbn [with_init]; less. Qed.
Ltac arr := unfold len_of, len_int, get_at, put_at, is_array_value, says_yes.
Lemma less_array_for_each : grows_cb (@array_for_each Ev n) (@array_for_each Ev' m).
Proof. unfold array_for_each; arr; grow. Qed.
Lemma less_map : grows_cb (@array_map Ev n) (@array_map Ev' m).
Proof. unfold array_map; arr; grow. Qed.
Lemma less_filter : grows_cb (@array_filter Ev n) (@array_filter Ev' m).
Proof. unfold array_filter; arr; grow. Qed.
Lemma less_reduce this cb i : less (@array_reduce Ev n this cb i) (@array_reduce Ev' m this cb i).
Proof. unfold array_reduce, answer; arr; grow. Qed.
Lemma less_reduce_right this cb i : less (@array_reduce_right Ev n this cb i) (@array_reduce_right Ev' m this cb i).
Proof. unfold array_reduce_right, answer; arr; grow. Qed.
Lemma less_every : grows_cb (@array_every Ev n) (@array_every Ev' m).
Proof. unfold array_every; less. Qed.
Lemma less_some : grows_cb (@array_some Ev n) (@array_some Ev' m).
Proof. unfold array_some; less. Qed.
Lemma less_find : grows_cb (@array_find Ev n) (@array_find Ev' m).
Proof. unfold array_find; less. Qed.
Lemma less_find_index : grows_cb (@array_find_index Ev n) (@array_find_index Ev' m).
Proof. unfold array_find_index; less. Qed.
Lemma less_flat_map : grows_cb (@array_flat_map Ev n) (@array_flat_map Ev' m).
Proof. unfold array_flat_map; arr; grow. Qed.
Lemma less_flat : grows (@array_flat Ev n) (@array_flat Ev' m).
Proof. unfold array_flat. less. Qed.
Lemma less_sort : grows (@array_sort Ev n) (@array_sort Ev' m).
Proof. unfold array_sort; grow. Qed.
Lemma less_from : grows (@array_from Ev n) (@array_from Ev' m).
Proof.
  unfold array_from, source_length, source_element, mapper_of, type_fault, units_of, units_text, text; arr; grow.
Qed.

(** *** Objects *)

Lemma json_inner_more k : forall k' arr v c r, (k <= k')%nat ->
  @json_stringify_inner H k arr v c = Some r -> @json_stringify_inner H k' arr v c = Some r.
Proof.
  induction k as [|k IH]; intros k' arr v c r Hk; [done|]. destruct k' as [|k']; [lia|]. apply write_value_more.
  intros; eapply IH; [lia|done].
Qed.
Lemma less_stringify : grows (@json_stringify Ev n) (@json_stringify Ev' m).
Proof.
  intros this [|a args]; cbn [json_stringify]; [less|]. apply less_bind; [|less].
  apply less_ran. intros c r. unfold json_stringify_value. cbn [eval_host]. destruct (@json_stringify_inner H n false a c) as [[x c1]|] eqn:E1; [|done].
  by rewrite (json_inner_more _ _ _ _ _ _ Hnm E1).
Qed.
Lemma less_undefined this x args : less (@call_or_undefined Ev B n this x args) (@call_or_undefined Ev' B' m this x args).
Proof. unfold call_or_undefined. less. Qed.
#[local] Hint Resolve less_undefined : less.
Lemma less_if_function f f' : grows f f' -> grows (@if_function Ev f) (@if_function Ev' f').
Proof. intros Hf this args. unfold if_function. less. Qed.
Lemma less_fcall : grows (@function_call Ev B n) (@function_call Ev' B' m).
Proof. unfold function_call. less. Qed.
#[local] Hint Resolve less_elements : less.
Lemma less_apply : grows (@function_apply Ev B n) (@function_apply Ev' B' m).
Proof. unfold function_apply, is_object_value, len_of, len_int. less. Qed.
Lemma less_call_eval : grows (@call_eval Ev n) (@call_eval Ev' m).
Proof. unfold call_eval. less. Qed.
Lemma less_regexp_of args : less (@regexp_of Ev B args) (@regexp_of Ev' B' args).
Proof. unfold regexp_of. rewrite Hre. apply less_refl. Qed.

(** *** The tables *)

Definition grown (p q : string * Method) : Prop := fst p = fst q /\ grows (snd p) (snd q).
Lemma run_grown t t' marker this args : Forall2 grown t t' -> less (run_method t marker this args) (run_method t' marker this args).
Proof.
  intros Ht. unfold run_method. induction Ht as [|[x f] [y g] t t' [Hx Hf] Ht IH]; [less|]. cbn in *. subst.
  destruct (is_builtin y marker); [apply Hf|done].
Qed.
Lemma grown_map (f g : string * Z -> Method) l : (forall p, grows (f p) (g p)) ->
  Forall2 grown ((fun p => (fst p, f p)) <$> l) ((fun p => (fst p, g p)) <$> l).
Proof. intros Hf. induction l as [|p l IH]; [constructor|]. constructor; [split; [done|apply Hf]|done]. Qed.
#[local] Hint Resolve less_replace less_search less_with_callback less_with_init less_array_for_each less_map less_filter less_reduce less_reduce_right
  less_every less_some less_find less_find_index less_flat_map less_flat less_sort less_from less_stringify less_fcall less_apply
  less_call_eval less_regexp_of less_if_function : less.
Ltac grown_list :=
  lazymatch goal with
  | |- Forall2 _ (_ :: _) (_ :: _) =>
      simple apply Forall2_cons_2; [split; cbn [fst snd]; [reflexivity|first [solve [eauto 4 with less nocore] | intros; apply less_refl]]|grown_list]
  | |- Forall2 _ [] [] => simple apply Forall2_nil_2
  end.
Lemma grown_text : Forall2 grown (@text_methods Ev B P n) (@text_methods Ev' B' P m).
Proof. unfold text_methods. grown_list. Qed.
Lemma grown_expr_string : Forall2 grown (@expr_string_table Ev B P n) (@expr_string_table Ev' B' P m).
Proof. apply Forall2_app; [apply grown_text|]. grown_list. Qed.
Lemma grown_string : Forall2 grown (@string_table Ev B P n) (@string_table Ev' B' P m).
Proof. apply Forall2_app; [apply grown_text|]. grown_list. Qed.
Lemma grown_array_both : Forall2 grown (@array_both Ev) (@array_both Ev').
Proof. unfold array_both. grown_list. Qed.
Lemma grown_expr_array : Forall2 grown (@expr_array_table Ev n) (@expr_array_table Ev' m).
Proof. apply Forall2_app; [apply grown_array_both|]. grown_list. Qed.
Lemma grown_array : Forall2 grown (@array_table Ev n) (@array_table Ev' m).
Proof. apply Forall2_app; [apply grown_array_both|]. grown_list. Qed.
Lemma grown_math : Forall2 grown (@math_table Ev P) (@math_table Ev' P).
Proof. unfold math_table. grown_list. Qed.
Lemma grown_number : Forall2 grown (@number_table Ev P) (@number_table Ev' P).
Proof. unfold number_table. grown_list. Qed.
Lemma grown_global : Forall2 grown (@global_both Ev P n) (@global_both Ev' P m).
Proof. unfold global_both. grown_list. Qed.
Lemma grown_expr_object : Forall2 grown (@expr_object_table Ev B P n) (@expr_object_table Ev' B' P m).
Proof.
  repeat first [apply Forall2_app | apply grown_global | apply grown_math | apply grown_number | apply grown_map; intros; intros ??; apply less_refl].
  grown_list.
Qed.
Lemma grown_object : Forall2 grown (@object_table Ev P n) (@object_table Ev' P m).
Proof.
  repeat first [apply Forall2_app | apply grown_global | apply grown_math | apply grown_number | apply grown_map; intros; intros ??; apply less_refl].
  all: try unfold math_floor_ceil; grown_list.
Qed.
Lemma grown_methods : Forall2 grown (@method_table P Ev B n) (@method_table P Ev' B' m).
Proof. apply Forall2_app; [apply grown_string|apply Forall2_app; [apply grown_array|apply grown_object]]. Qed.
Lemma grown_expr_methods : Forall2 grown (@expr_table P Ev B n) (@expr_table P Ev' B' m).
Proof. apply Forall2_app; [apply grown_expr_string|apply Forall2_app; [apply grown_expr_array|apply grown_expr_object]]. Qed.
End Growth.

Lemma method_upto_more `{P : JsPlatform} H ee ee' va va' n : (forall t, less (ee t) (ee' t)) -> (forall t, less (va t) (va' t)) ->
  forall m, (n <= m)%nat -> forall marker this args,
  less (method_upto n {| eval_host := H; eval_expr := ee; eval_value := va |} marker this args)
       (method_upto m {| eval_host := H; eval_expr := ee'; eval_value := va' |} marker this args).
Proof.
  intros Hee Hva. induction n as [|n IH]; intros m Hm marker this args; [apply less_out|]. destruct m as [|m]; [lia|].
  cbn [method_upto]. apply run_grown, grown_methods; try done; [lia|].
  intros marker' this' args'. apply IH. lia.
Qed.
Lemma js_builtins_final `{P : JsPlatform} : methods_final (@builtin_method js_builtins).
Proof. intros H ee ee' va va' n m Hee Hva Hnm marker this args. exact (method_upto_more H ee ee' va va' n Hee Hva m Hnm marker this args). Qed.
Lemma js_methods_final `{P : JsPlatform} : methods_final (@expr_marker js_methods).
Proof.
  intros H ee ee' va va' n m Hee Hva Hnm marker this args. unfold js_methods; cbn [expr_marker].
  apply run_grown, grown_expr_methods; try assumption; [|reflexivity].
  intros marker' this' args'. exact (method_upto_more H ee ee' va va' n Hee Hva m Hnm marker' this' args').
Qed.

(** ** JSON *)

Section Json.
Context `{H : JsHost} (HH : host_within stacked H).
(** What an answer leaves, after [s]. *)
Definition left_by {A} (s : Scope) (o : option (A * Ctx)) : Prop := match o with Some (_, c) => stacked s (scope c) | None => True end.
Notation after s c := (stacked s (scope c)).

Lemma left_fail {A} s c : after s c -> left_by s (jfail (A := A) c).
Proof. done. Qed.
Lemma after_array_push s a v c : after s c -> after s (js_array_push a v c).2.
Proof.
  intros Hc. unfold js_array_push. pose proof (kept_on_heap stacked s (array_push a v) c Hc) as K.
  destruct (on_heap (array_push a v) c) as [[n|] c1]; [exact K|]. by apply (kept_js_throw stacked HH).
Qed.
Lemma after_array_pop s a c : after s c -> after s (js_array_pop a c).2.
Proof.
  intros Hc. unfold js_array_pop. pose proof (kept_on_heap stacked s (array_pop a) c Hc) as K.
  destruct (on_heap (array_pop a) c) as [[n|] c1]; [exact K|]. by apply (kept_js_throw stacked HH).
Qed.
Lemma after_number s x c : after s c -> after s (number_to_value x c).2.
Proof. intros Hc. eapply (kept_within stacked); [apply (within_number stacked)|done]. Qed.
Lemma after_to_number s x c : after s c -> after s (js_to_number x c).2.
Proof. apply (kept_prim_number stacked HH). Qed.
#[local] Hint Resolve after_array_push after_number after_to_number : after.
#[local] Hint Extern 1 (stacked _ (scope (snd (js_new_array _ _)))) => apply (kept_new_array stacked) : after.
#[local] Hint Extern 1 (stacked _ (scope (snd (js_new_object _)))) => apply (kept_new_object_class stacked) : after.
#[local] Hint Extern 1 (stacked _ (scope (snd (js_new_string _ _)))) => apply (kept_new_string stacked) : after.
#[local] Hint Extern 1 (stacked _ (scope (snd (js_set_property_str _ _ _ _)))) => apply (kept_set_str stacked HH) : after.
#[local] Hint Extern 1 (stacked _ (scope (snd (js_get_property_uint32 _ _ _)))) => apply (kept_get_uint32 stacked HH) : after.
#[local] Hint Extern 1 (stacked _ (scope (snd (js_get_property_str _ _ _)))) => apply (kept_get_str stacked HH) : after.
#[local] Hint Extern 1 (stacked _ (scope (snd (js_is_function _ _)))) => apply (kept_is_function stacked HH) : after.
#[local] Hint Extern 1 (stacked _ (scope (snd (on_heap _ _)))) => apply (kept_on_heap stacked) : after.
(** Follows the context through the calls. *)
Ltac trace :=
  repeat match goal with
  | |- left_by ?s (let '(_, _) := ?t in _) =>
      let K := fresh "K" in assert (K : stacked s (scope (snd t))) by eauto 2 with after; destruct t as [? ?]; cbn [snd] in K
  | |- left_by _ (match (match ?x with _ => _ end) with _ => _ end) => destruct x
  | |- left_by _ (match ?x with _ => _ end) => destruct x
  | |- left_by _ (jfail _) => apply left_fail
  | |- left_by _ (Some _) => cbn [left_by]
  | |- stacked _ _ => eassumption
  | |- left_by _ None => exact I
  end.

Section Reader.
Context (rec : JProd -> J Value) (Hrec : forall s p l c, after s c -> left_by s (rec p l c)).
Lemma left_rec s p l c (k : option (Value * bytes) -> Ctx -> option (option (Value * bytes) * Ctx)) : after s c ->
  (forall r c1, after s c1 -> left_by s (k r c1)) -> left_by s (match rec p l c with Some (r, c1) => k r c1 | None => None end).
Proof. intros Hc Hk. pose proof (Hrec s p l c Hc) as K. destruct (rec p l c) as [[r c1]|]; [by apply Hk|done]. Qed.
Lemma left_array s l c : after s c -> left_by s (json_array rec l c).
Proof. intros Hc. unfold json_array. trace. by apply Hrec. Qed.
Lemma left_object s l c : after s c -> left_by s (json_object rec l c).
Proof. intros Hc. unfold json_object. trace. by apply Hrec. Qed.
Lemma left_elems s a l c : after s c -> left_by s (json_elems rec a l c).
Proof.
  intros Hc. unfold json_elems. pose proof (Hrec s JValue l c Hc) as K. destruct (rec JValue l c) as [[[[v l1]|] c1]|]; cbn [left_by] in K; trace.
  by apply Hrec.
Qed.
Lemma left_members s a l c : after s c -> left_by s (json_members rec a l c).
Proof.
  intros Hc. unfold json_members. destruct (json_key l) as [[k l1]|]; [|trace].
  pose proof (Hrec s JValue l1 c Hc) as K. destruct (rec JValue l1 c) as [[[[v l2]|] c1]|]; cbn [left_by] in K; trace.
  by apply Hrec.
Qed.
Lemma left_value s l c : after s c -> left_by s (json_value rec l c).
Proof.
  intros Hc. unfold json_value, json_literal. destruct (json_ws l) as [|b l1]; [trace|].
  destruct (b =? c_lbrace); [by apply left_object|]. destruct (b =? c_lbracket); [by apply left_array|]. trace.
Qed.
End Reader.
Lemma left_run n : forall s p l c, after s c -> left_by s (json_run n p l c).
Proof. induction n as [|n IH]; intros s p l c Hc; [done|]. destruct p; [apply left_value|apply left_elems|apply left_members]; done. Qed.
Lemma left_parse s l c : after s c -> left_by s (parse_json l c).
Proof. intros Hc. unfold parse_json. pose proof (left_run (json_fuel l) s JValue l c Hc) as K. destruct (json_run _ _ _ _) as [[[[v l1]|] c1]|]; exact K. Qed.

Lemma after_leaf s b v c : after s c -> after s (write_leaf b v c).2.
Proof.
  intros Hc. unfold write_leaf. destruct (str_of c v); [done|]. destruct (js_is_number c v).
  - pose proof (after_to_number s v c Hc) as K. by destruct (js_to_number v c).
  - pose proof (kept_is_function stacked HH s v c Hc) as K.
    destruct (is_bool v); [done|]. destruct (is_null W v); [done|]. destruct (is_undefined W v); [done|]. by destruct (js_is_function v c).
Qed.
Lemma left_bind {A B} s (o : option (A * Ctx)) (k : A * Ctx -> option (B * Ctx)) :
  left_by s o -> (forall x c, after s c -> left_by s (k (x, c))) -> left_by s (o ≫= k).
Proof. intros Ho Hk. destruct o as [[x c]|]; [by apply Hk|done]. Qed.
Section Writer.
Context (rec : bool -> Value -> Ctx -> option (option bytes * Ctx)) (Hrec : forall s b v c, after s c -> left_by s (rec b v c)).
Lemma left_write_elems s a l : forall c, after s c -> left_by s (write_elems rec a l c).
Proof.
  induction l as [|i l IH]; intros c Hc; cbn [write_elems]; [done|]. trace. apply left_bind; [by apply Hrec|intros r c1 K1].
  by apply left_bind; [apply IH|].
Qed.
Lemma left_write_members s a l : forall c, after s c -> left_by s (write_members rec a l c).
Proof.
  induction l as [|i l IH]; intros c Hc; cbn [write_members]; [done|]. trace. apply left_bind; [by apply Hrec|intros r c1 K1].
  by apply left_bind; [apply IH|].
Qed.
Lemma left_write_value s b v c : after s c -> left_by s (write_value rec b v c).
Proof.
  intros Hc. unfold write_value. pose proof (after_leaf s b v c Hc) as K. destruct (write_leaf b v c) as [[leaf|] c1]; [exact K|].
  cbn [snd] in K. case_bool_decide; trace; (apply left_bind; [by first [apply left_write_elems | apply left_write_members]|done]).
Qed.
End Writer.
Lemma left_stringify n : forall s b v c, after s c -> left_by s (json_stringify_inner n b v c).
Proof. induction n as [|n IH]; intros s b v c Hc; [done|]. by apply left_write_value. Qed.
End Json.

Section Keeps.
Context `{Ev : JsEval} (HE : eval_within stacked Ev) `{B : JsBuiltins} `{M : JsMethods} (HM : methods_within B M) `{P : JsPlatform} (fuel : nat).
Let HH := ew_host _ _ HE.
Notation kept m := (keeps stacked m).
#[local] Hint Resolve keeps_expr keeps_value keeps_new_object keeps_new_string keeps_new_array keeps_heap keeps_get_str
  keeps_get_uint32 keeps_to_string keeps_throw keeps_set_property keeps_set_str keeps_set_uint32 keeps_number keeps_primitive
  keeps_from_number keeps_int32 keeps_uint32 keeps_class_object keeps_is_function keeps_call_function keeps_call_closure
  keeps_global_marker keeps_text keeps_elements keeps_c_function keeps_eval_text keeps_pass keeps_answer
  keeps_typed_string keeps_typedarray_set keeps_subarray : keeps.
Ltac meth := repeat (progress (keep; try apply keeps_answer)).

(** ** Regular expressions and strings *)

Lemma keeps_as_text bs : kept (text bs).
Proof. unfold text. keep. Qed.
Lemma keeps_coerce_text v : kept (coerce_to_string_value v).
Proof. unfold coerce_to_string_value. keep. Qed.
Lemma keeps_compile_regex p f : kept (compile_regex p f).
Proof. unfold compile_regex, syntax_fault. keep. Qed.
#[local] Hint Resolve keeps_as_text keeps_coerce_text keeps_compile_regex : keeps.
Lemma keeps_make_regexp p f : kept (new_regexp p f).
Proof. unfold new_regexp. keep. Qed.
Lemma keeps_parts v : kept (regexp_parts v).
Proof. unfold regexp_parts. keep. Qed.
Lemma keeps_replaced f args : kept (replaced_by fuel f args).
Proof. unfold replaced_by. keep. Qed.
#[local] Hint Resolve keeps_make_regexp keeps_parts keeps_replaced : keeps.
Lemma keeps_replace_loop k input s rep all : (forall i, kept (rep i)) -> forall pos, kept (replace_loop k input s rep all pos).
Proof. intros Hr. induction k as [|k IH]; intros pos; cbn [replace_loop]; keep. Qed.
Lemma keeps_slice_str s i j : kept (slice_str s i j).
Proof. unfold slice_str. keep. Qed.
Lemma keeps_capture_args s l : kept (capture_args s l).
Proof. induction l as [|g l IH]; cbn [capture_args]; keep. Qed.
#[local] Hint Resolve keeps_slice_str keeps_capture_args : keeps.
Lemma keeps_nonregex input s r all : kept (string_replace_nonregex fuel input s r all).
Proof. unfold string_replace_nonregex. keep. all: apply keeps_replace_loop; keep. Qed.
Lemma keeps_regex_loop input f r v rep all found : forall e, kept (regex_replace_loop fuel input f r v rep all e found).
Proof. induction found as [|[[|[[a b]|] g]|] l IH]; intros e; cbn [regex_replace_loop]; keep. Qed.
#[local] Hint Resolve keeps_nonregex keeps_regex_loop : keeps.
Lemma keeps_set_texts arr l : forall i, kept (set_texts arr i l).
Proof. induction l as [|t l IH]; intros i; cbn [set_texts]; keep. Qed.
Lemma keeps_set_groups s arr l : forall i, kept (set_groups s arr i l).
Proof. induction l as [|t l IH]; intros i; cbn [set_groups]; keep. Qed.
#[local] Hint Resolve keeps_set_texts keeps_set_groups : keeps.
Lemma keeps_texts_array l : kept (texts_array l).
Proof. unfold texts_array. keep. Qed.
Lemma keeps_match_array s v l : kept (match_array s v l).
Proof. unfold match_array. keep. Qed.
#[local] Hint Resolve keeps_texts_array keeps_match_array : keeps.
Lemma keeps_first_match re s v : kept (first_match re s v).
Proof. unfold first_match. keep. Qed.
Lemma keeps_pattern_of f a : kept (pattern_of f a).
Proof. unfold pattern_of. keep. Qed.
Lemma keeps_own_parts a : kept (own_parts a).
Proof. unfold own_parts. keep. Qed.
Lemma keeps_exec_input args : kept (exec_input args).
Proof. unfold exec_input. keep. Qed.
Lemma keeps_hand_match v p s g : kept (hand_match v p s g).
Proof. unfold hand_match. keep. Qed.
Lemma keeps_reset_index a b : kept (reset_last_index a b).
Proof. unfold reset_last_index. keep. Qed.
#[local] Hint Resolve keeps_first_match keeps_pattern_of keeps_own_parts keeps_exec_input keeps_hand_match keeps_reset_index : keeps.

(** *** The tables *)

Definition table_kept (t : list (string * Method)) : Prop := Forall (fun p => forall this args, kept (snd p this args)) t.
Lemma run_kept t marker this args : table_kept t -> kept (run_method t marker this args).
Proof.
  intros Ht. unfold run_method. induction Ht as [|[x f] t Hf Ht IH]; [apply keeps_pass|]. cbn.
  destruct (is_builtin x marker); [apply Hf|done].
Qed.
Ltac kept_list t := lazymatch goal with
  | |- Forall _ (_ :: _) => simple apply Forall_cons_2; [intros ? ?; cbn [snd]; t; meth|kept_list t]
  | |- Forall _ [] => simple apply Forall_nil_2
  end.
Lemma kept_text : table_kept (text_methods fuel).
Proof.
  unfold table_kept, text_methods. kept_list ltac:(unfold string_char_at, string_substring, string_substr, cut_units, slice_units, units_text, units_of,
    string_map, text_of, string_match, string_match_all, string_search, string_replace, string_replace_regex, regexp_test).
Qed.
Lemma keeps_pad st a b : kept (string_pad st a b).
Proof. unfold string_pad, text_of. meth. Qed.
Lemma keeps_char_codes l : kept (char_codes l).
Proof. induction l as [|a l IH]; cbn [char_codes]; keep. Qed.
Lemma keeps_code_points l : kept (code_points l).
Proof. induction l as [|a l IH]; cbn [code_points]; keep. Qed.
Lemma keeps_number_result f : kept (number_result f).
Proof. unfold number_result. meth. Qed.
Lemma keeps_regexp_of l : kept (regexp_of l).
Proof. unfold regexp_of. meth. by apply (keeps_new_regexp HE HM). Qed.
#[local] Hint Resolve keeps_pad keeps_char_codes keeps_code_points keeps_number_result keeps_regexp_of : keeps.
Ltac strings := unfold expr_string_concat, string_concat, concat_texts, expr_string_index_of, expr_string_last_index_of, string_index_of,
  string_last_index_of, expr_string_slice, string_slice, string_slice_of, cut_units, slice_units, units_text, units_of, expr_string_split,
  string_split, split_parts, parts_array, expr_string_test, string_test, expr_string_repeat, string_repeat, expr_string_char_code_at,
  expr_string_code_point_at, string_char_at_code, expr_regexp_exec, regexp_exec, string_from_char_code, string_from_code_point, string_same, text_of.
Lemma kept_expr_string : table_kept (expr_string_table fuel).
Proof. apply Forall_app_2; [apply kept_text|]. kept_list strings. Qed.
Lemma kept_string : table_kept (string_table fuel).
Proof. apply Forall_app_2; [apply kept_text|]. kept_list strings. Qed.

(** ** Arrays *)

Lemma keeps_for_up k b : (forall i, kept (b i)) -> forall i, kept (for_up k i b).
Proof. intros Hb. induction k as [|k IH]; intros i; cbn [for_up]; keep. Qed.
Lemma keeps_for_down k b : (forall i, kept (b i)) -> forall i, kept (for_down k i b).
Proof. intros Hb. induction k as [|k IH]; intros i; cbn [for_down]; keep. Qed.
Lemma keeps_range_up lo hi b : (forall i, kept (b i)) -> kept (range_up lo hi b).
Proof. intros Hb. by apply keeps_for_up. Qed.
Lemma keeps_range_down lo hi b : (forall i, kept (b i)) -> kept (range_down lo hi b).
Proof. intros Hb. by apply keeps_for_down. Qed.
Lemma keeps_find_up {A} k (t : Z -> E (option A)) : (forall i, kept (t i)) -> forall i, kept (find_up k i t).
Proof. intros Ht. induction k as [|k IH]; intros i; cbn [find_up]; keep. Qed.
Lemma keeps_find_down {A} k (t : Z -> E (option A)) : (forall i, kept (t i)) -> forall i, kept (find_down k i t).
Proof. intros Ht. induction k as [|k IH]; intros i; cbn [find_down]; keep. Qed.
Lemma keeps_fold_up {A} k (t : Z -> A -> E A) : (forall i x, kept (t i x)) -> forall i x, kept (fold_up k i t x).
Proof. intros Ht. induction k as [|k IH]; intros i x; cbn [fold_up]; keep. Qed.
Lemma keeps_fold_down {A} k (t : Z -> A -> E A) : (forall i x, kept (t i x)) -> forall i x, kept (fold_down k i t x).
Proof. intros Ht. induction k as [|k IH]; intros i x; cbn [fold_down]; keep. Qed.
Ltac loops t := repeat (progress (meth; intros; t; try first [apply keeps_for_up | apply keeps_for_down | apply keeps_range_up | apply keeps_range_down
  | apply keeps_find_up | apply keeps_find_down | apply keeps_fold_up | apply keeps_fold_down])).

Lemma keeps_get_at a i : kept (get_at a i).
Proof. unfold get_at. keep. Qed.
Lemma keeps_put_at a i v : kept (put_at a i v).
Proof. unfold put_at. keep. Qed.
#[local] Hint Resolve keeps_get_at keeps_put_at : keeps.
Lemma keeps_move a i b j : kept (move_elem a i b j).
Proof. unfold move_elem. keep. Qed.
Lemma keeps_len_int a : kept (len_int a).
Proof. unfold len_int. keep. Qed.
#[local] Hint Resolve keeps_move keeps_len_int : keeps.
Lemma keeps_len_of a : kept (len_of a).
Proof. unfold len_of. keep. Qed.
Lemma keeps_is_array a : kept (is_array_value a).
Proof. unfold is_array_value. keep. Qed.
#[local] Hint Resolve keeps_len_of keeps_is_array : keeps.
Lemma keeps_array_push a v : kept (act (js_array_push a v)).
Proof. apply keeps_act. intros c. apply (after_array_push HH), sr_refl. Qed.
Lemma keeps_array_pop a : kept (act (js_array_pop a)).
Proof. apply keeps_act. intros c. apply (after_array_pop HH), sr_refl. Qed.
#[local] Hint Resolve keeps_array_push keeps_array_pop : keeps.
Lemma keeps_push_each a l : kept (push_each a l).
Proof. induction l as [|v l IH]; cbn [push_each]; keep. Qed.
Lemma keeps_put_all a l : forall i, kept (put_all a i l).
Proof. induction l as [|v l IH]; intros i; cbn [put_all]; keep. Qed.
#[local] Hint Resolve keeps_push_each keeps_put_all : keeps.
Lemma keeps_join_with sep a : kept (join_with sep a).
Proof. unfold join_with. loops idtac. Qed.
Lemma keeps_concat_length l : forall t, kept (concat_length t l).
Proof. induction l as [|v l IH]; intros t; cbn [concat_length]; keep. Qed.
Lemma keeps_append_all a b i j : kept (append_all a b i j).
Proof. unfold append_all. loops idtac. Qed.
#[local] Hint Resolve keeps_join_with keeps_concat_length keeps_append_all : keeps.
Lemma keeps_concat_args a l : forall i, kept (concat_args a i l).
Proof. induction l as [|v l IH]; intros t; cbn [concat_args]; keep. Qed.
Lemma keeps_splice_move a i j k l : kept (splice_move a i j k l).
Proof. unfold splice_move. loops idtac. Qed.
Lemma keeps_on_element a f i : kept (on_element fuel a f i).
Proof. unfold on_element, callback. keep. Qed.
Lemma keeps_says_yes r : kept (says_yes r).
Proof. unfold says_yes. keep. Qed.
Lemma keeps_reduce_step a f i x : kept (reduce_step fuel a f i x).
Proof. unfold reduce_step, callback. keep. Qed.
#[local] Hint Resolve keeps_concat_args keeps_splice_move keeps_on_element keeps_says_yes keeps_reduce_step : keeps.
Lemma keeps_array_search a f b : kept (array_search fuel a f b).
Proof. unfold array_search. loops idtac. Qed.
Lemma keeps_push_own a v : kept (push_own a v).
Proof. unfold push_own. keep. Qed.
#[local] Hint Resolve keeps_array_search keeps_push_own : keeps.
Lemma keeps_flatten k : forall a b d, kept (flatten_array k a b d).
Proof. induction k as [|k IH]; intros a b d; [apply keeps_out|]. cbn [flatten_array]. loops idtac. Qed.
Lemma keeps_sort_compare f a b : kept (sort_compare fuel f a b).
Proof. unfold sort_compare, sort_number, callback. keep. Qed.
#[local] Hint Resolve keeps_flatten keeps_sort_compare : keeps.
Lemma keeps_sort_pair f a i : kept (sort_pair fuel f a i).
Proof. unfold sort_pair. keep. Qed.
Lemma keeps_fault {A} msg : kept (type_fault msg : E A).
Proof. unfold type_fault. keep. Qed.
#[local] Hint Resolve keeps_sort_pair keeps_fault : keeps.
Lemma keeps_mapper_of o : kept (mapper_of o).
Proof. unfold mapper_of. keep. Qed.
Lemma keeps_mapped mp a b i : kept (mapped fuel mp a b i).
Proof. unfold mapped, callback. keep. Qed.
Lemma keeps_source_length a : kept (source_length a).
Proof. unfold source_length, units_of. keep. Qed.
Lemma keeps_source_element a i : kept (source_element a i).
Proof. unfold source_element, units_of, units_text. keep. Qed.
Lemma keeps_index_of a l v : kept (index_of a l v).
Proof. unfold index_of, same_at. loops idtac. Qed.
Lemma keeps_last_index_of a l v : kept (last_index_of a l v).
Proof. unfold last_index_of, same_at. loops idtac. Qed.
#[local] Hint Resolve keeps_mapper_of keeps_mapped keeps_source_length keeps_source_element keeps_index_of keeps_last_index_of : keeps.
Lemma keeps_array_reverse a l : kept (array_reverse a l).
Proof.
  unfold array_reverse. apply keeps_bind; [exact _|keep|intros [len|]]; [|keep]. apply keeps_bind; [exact _| |keep].
  apply keeps_range_up. intros i. do 3 (apply keeps_bind; [exact _|keep|intros ?]). keep.
Qed.
#[local] Hint Resolve keeps_array_reverse : keeps.

Ltac arrays := unfold array_push_all, array_pop_last, array_shift, array_unshift, array_join, array_to_string, array_concat,
  array_slice, array_at, array_splice, array_includes, array_fill, same_at, set_len, array_is_array, array_of, array_from, array_flat,
  array_sort, array_flat_map, with_callback, with_init, array_for_each, array_map, array_filter, array_reduce, array_reduce_right, array_every,
  array_some, array_find, array_find_index, expr_array_index_of, array_index_of, expr_array_last_index_of, array_last_index_of, no_value, empty_array.
Lemma kept_array_both : table_kept array_both.
Proof. unfold table_kept, array_both. kept_list ltac:(arrays; loops idtac). Qed.
Lemma kept_expr_array : table_kept (expr_array_table fuel).
Proof. apply Forall_app_2; [apply kept_array_both|]. kept_list ltac:(arrays; loops idtac). Qed.
Lemma kept_array : table_kept (array_table fuel).
Proof. apply Forall_app_2; [apply kept_array_both|]. kept_list ltac:(arrays; loops idtac). Qed.

(** ** Objects *)

Lemma keeps_math_best f l : forall x, kept (math_best f x l).
Proof. induction l as [|v l IH]; intros x; cbn [math_best]; keep. Qed.
Lemma keeps_int_arg z o : kept (int_arg z o).
Proof. unfold int_arg. keep. Qed.
Lemma keeps_this_number v : kept (this_number v).
Proof. unfold this_number. keep. Qed.
Lemma keeps_range_fault {A} msg : kept (range_fault msg : E A).
Proof. unfold range_fault. keep. Qed.
Lemma keeps_syntax_fault {A} msg : kept (syntax_fault msg : E A).
Proof. unfold syntax_fault. keep. Qed.
Lemma keeps_console this l : kept (console_log this l).
Proof. induction l as [|v l IH]; cbn [console_log]; keep. Qed.
Lemma keeps_keys_of v : kept (keys_of v).
Proof. unfold keys_of. keep. Qed.
#[local] Hint Resolve keeps_math_best keeps_int_arg keeps_this_number keeps_range_fault keeps_syntax_fault keeps_console keeps_keys_of : keeps.
Lemma keeps_put_items a item l : (forall k, kept (item k)) -> forall i, kept (put_items a i item l).
Proof. intros Hi. induction l as [|v l IH]; intros i; cbn [put_items]; keep. Qed.
Lemma keeps_items v k : kept (key_item v k) /\ kept (value_item v k) /\ kept (entry_item v k).
Proof. unfold entry_item, key_item, value_item. split_and!; keep. Qed.
Lemma keeps_object_list item this args : (forall v k, kept (item v k)) -> kept (object_list item this args).
Proof. intros Hi. unfold object_list, empty_array. meth. by apply keeps_put_items. Qed.
Lemma keeps_js_keys v : kept (js_object_keys v).
Proof. unfold js_object_keys. meth. apply keeps_put_items. intros; apply keeps_items. Qed.
Lemma keeps_copy_keys a b l : kept (copy_keys a b l).
Proof. induction l as [|v l IH]; cbn [copy_keys]; unfold value_item; keep. Qed.
#[local] Hint Resolve keeps_js_keys keeps_copy_keys : keeps.
Lemma keeps_assign_all a l : kept (assign_all a l).
Proof. induction l as [|v l IH]; cbn [assign_all]; keep. Qed.
Lemma keeps_key_bytes v : kept (key_bytes v).
Proof. unfold key_bytes. keep. Qed.
Lemma keeps_is_object v : kept (is_object_value v).
Proof. unfold is_object_value. keep. Qed.
Lemma keeps_set_or_fail a k v : kept (set_or_fail a k v).
Proof. unfold set_or_fail. keep. Qed.
#[local] Hint Resolve keeps_assign_all keeps_key_bytes keeps_is_object keeps_set_or_fail : keeps.
Lemma keeps_define_accessor a x y f : kept (define_accessor a x y f).
Proof. unfold define_accessor. keep. Qed.
Lemma keeps_undefined this x l : kept (call_or_undefined fuel this x l).
Proof. unfold call_or_undefined. keep. Qed.
#[local] Hint Resolve keeps_define_accessor keeps_undefined : keeps.
Ltac objects := unfold math_int, math_unary, math_binary, math_max, math_min, math_imul, math_clz32, number_test, number_to_fixed,
  number_to_precision, number_to_exponential, number_to_string, call_string, call_number, call_boolean, expr_parse_int, parse_int_plain,
  parse_float_of, call_eval, global_eval, date_now, object_keys_or_throw, object_assign, object_has_own, object_create, object_same,
  object_is_frozen, object_define_property, object_get_own_descriptor, object_get_prototype, object_set_prototype, if_function,
  function_call, function_apply, function_bind, empty_array.
Lemma kept_math : table_kept math_table.
Proof. unfold table_kept, math_table. kept_list objects. Qed.
Lemma kept_number : table_kept number_table.
Proof. unfold table_kept, number_table. kept_list objects. Qed.
Lemma keeps_stringify this args : kept (json_stringify fuel this args).
Proof.
  unfold json_stringify. destruct args as [|a args]; [keep|]. apply keeps_bind; [exact _| |intros [t|]; meth].
  apply keeps_ran. intros c r c' E _. pose proof (left_stringify HH fuel (scope c) false a c (sr_refl _)) as K. unfold json_stringify_value in E.
  destruct (json_stringify_inner fuel false a c) as [[x c1]|]; [by simplify_eq|done].
Qed.
Lemma keeps_json_parse this args : kept (json_parse this args).
Proof.
  unfold json_parse, syntax_error_of. destruct args as [|a args]; [keep|]. apply keeps_bind; [exact _|keep|intros [t|]; [|keep]].
  apply keeps_bind; [exact _| |keep].
  apply keeps_ran. intros c r c' E _. pose proof (left_parse HH (scope c) (default [] (from_utf8 t)) c (sr_refl _)) as K.
  destruct (parse_json _ c) as [[x c1]|]; [by simplify_eq|done].
Qed.
Lemma keeps_object_to_string this args : kept (object_to_string this args).
Proof. unfold object_to_string. apply keeps_answer, keeps_act. intros c. apply (kept_object_string stacked), sr_refl. Qed.
Lemma keeps_float x : kept (act (js_new_float64 x)).
Proof. apply keeps_act, (within_float stacked). Qed.
Lemma keeps_new_error name cls this args : kept (new_error name cls this args).
Proof.
  unfold new_error. apply keeps_bind; [exact _|keep|intros msg]. apply keeps_answer, keeps_act. intros c.
  pose proof (kept_throw_error stacked js_set_property_str) as K. apply (kept_error_object stacked); [|apply sr_refl].
  intros. by apply (kept_set_str stacked HH).
Qed.
#[local] Hint Resolve keeps_stringify keeps_json_parse keeps_object_to_string keeps_float keeps_new_error : keeps.
Lemma kept_global : table_kept (global_both fuel).
Proof. unfold table_kept, global_both. kept_list objects. Qed.
Lemma kept_errors (f : string * Z -> Method) l : (forall p this args, kept (f p this args)) -> table_kept ((fun p => (fst p, f p)) <$> l).
Proof. intros Hf. apply Forall_fmap, Forall_true. intros p this args. exact (Hf p this args). Qed.
Lemma kept_expr_object : table_kept (expr_object_table fuel).
Proof.
  apply Forall_app_2; [apply kept_global|]. apply Forall_app_2; [|apply Forall_app_2; [|apply Forall_app_2; [apply kept_math|apply kept_number]]].
  - kept_list ltac:(first [apply keeps_object_list; intros; apply keeps_items | objects]).
  - apply kept_errors. intros. apply keeps_new_error.
Qed.
Lemma kept_object : table_kept (object_table fuel).
Proof.
  apply Forall_app_2; [apply kept_global|]. apply Forall_app_2; [kept_list objects|].
  apply Forall_app_2; [apply kept_errors; intros; unfold plain_error; meth|].
  apply Forall_app_2; [apply kept_math|]. apply Forall_app_2; [|apply kept_number]. unfold math_floor_ceil. kept_list objects.
Qed.
Lemma kept_methods : table_kept (method_table fuel).
Proof. apply Forall_app_2; [apply kept_string|apply Forall_app_2; [apply kept_array|apply kept_object]]. Qed.
Lemma kept_expr_methods : table_kept (expr_table fuel).
Proof. apply Forall_app_2; [apply kept_expr_string|apply Forall_app_2; [apply kept_expr_array|apply kept_expr_object]]. Qed.
End Keeps.

(** ** The interpreter with the methods *)

Lemma within_new_regexp_value `{P : JsPlatform} (H : JsHost) p f : host_within stacked H -> within stacked (js_new_regexp_value p f).
Proof.
  intros HH c. set (Ev := {| eval_host := H; eval_expr := fun _ => eout; eval_value := fun _ => eout |}).
  assert (HE : eval_within stacked Ev) by (split; [exact HH|intros; apply keeps_out..]).
  pose proof (settle_within stacked _ (@keeps_make_regexp Ev HE P p f) c) as K.
  unfold js_new_regexp_value. by destruct (settle (new_regexp p f) c).
Qed.
Lemma method_upto_keeps `{P : JsPlatform} n : forall Ev marker this args, eval_within stacked Ev -> keeps stacked (method_upto n Ev marker this args).
Proof.
  induction n as [|n IH]; intros Ev marker this args HE; [apply keeps_out|]. cbn [method_upto].
  assert (HM : methods_within (builtins_with (fun Ev' _ => method_upto n Ev')) no_methods).
  { split; [intros; by apply IH|intros; by apply within_new_regexp_value|intros; apply keeps_ret; exact _]. }
  by eapply run_kept, kept_methods.
Qed.
Lemma js_builtins_within `{P : JsPlatform} : methods_within js_builtins no_methods.
Proof.
  split.
  - intros Ev fuel marker this args HE. exact (method_upto_keeps fuel Ev marker this args HE).
  - intros H p f HH. exact (within_new_regexp_value H p f HH).
  - intros Ev fuel marker this args HE. apply keeps_ret; exact _.
Qed.
Lemma js_methods_within `{P : JsPlatform} : methods_within js_builtins js_methods.
Proof.
  split; [apply (mw_builtin _ _ js_builtins_within)|apply (mw_regexp _ _ js_builtins_within)|]. intros Ev fuel marker this args HE.
  exact (run_kept _ marker this args (kept_expr_methods HE js_builtins_within fuel)).
Qed.

(** The interpreter with all its methods answers the same with more fuel: what an expression, a program or
    a call answers with some fuel, panics and errors included, it answers with every larger
    amount, and leaves the same context. *)
Theorem js_answers_are_final `{P : JsPlatform} (H : JsHost) (n m : nat) (c : Ctx) (r : Res Value) (c' : Ctx) (Hm : (n <= m)%nat) :
  let js k := @engine H js_builtins js_methods k in
  (forall e, @eval_expr (js n) e c = Some (r, c') -> @eval_expr (js m) e c = Some (r, c')) /\
  (forall src, @eval_program (js n) n src c = Some (r, c') -> @eval_program (js m) m src c = Some (r, c')) /\
  (forall func this args, @call_closure_with_this (js n) n func this args c = Some (r, c') ->
    @call_closure_with_this (js m) m func this args c = Some (r, c')).
Proof. exact (engine_answers_are_final H js_builtins js_methods n m c r c' js_builtins_final js_methods_final Hm). Qed.

(** C10: The caller's environments survive every run of the interpreter with all its methods, whatever the text
    and however it ends short of a panic: expressions, calls and evaluated scripts leave every
    environment that was on the stack where it was, with only new ones above, and the call frames
    are those of before.  Asked of the native functions is the same. *)
Theorem js_environments_survive `{P : JsPlatform} (base : JsHost) (Hbase : host_within stacked base) (n fuel : nat) (c : Ctx) (r : Res Value) (c' : Ctx)
    (Hr : r <> Crash) :
  (forall e, @eval_expr (js_interpreter base n) e c = Some (r, c') -> stacked (scope c) (scope c')) /\
  (forall func this args, @call_closure_with_this (js_interpreter base n) fuel func this args c = Some (r, c') ->
    stacked (scope c) (scope c')) /\
  (forall src, @eval_program (js_interpreter base n) fuel src c = Some (r, c') \/
    @eval_script_body (js_interpreter base n) fuel src c = Some (r, c') -> stacked (scope c) (scope c')).
Proof. exact (environments_survive base js_builtins js_methods Hbase js_methods_within n fuel c r c' Hr). Qed.

(** *** Witnesses *)

#[local] Existing Instance plain_platform.
Lemma js_answers_are_final_witness : exists c',
  @eval_program (@engine silent_host js_builtins js_methods 16) 16 (b! "[4, 3].indexOf(3) + 2") ctx0 = Some (Val (from_int32 W 3), c') /\
  @eval_program (@engine silent_host js_builtins js_methods 40) 40 (b! "[4, 3].indexOf(3) + 2") ctx0 = Some (Val (from_int32 W 3), c').
Proof.
  eexists.
  assert (E : @eval_program (@engine silent_host js_builtins js_methods 16) 16 (b! "[4, 3].indexOf(3) + 2") ctx0 = Some (Val (from_int32 W 3), _))
    by (vm_compute; reflexivity).
  split; [exact E|].
  exact (proj1 (proj2 (js_answers_are_final silent_host 16 40 ctx0 _ _ ltac:(lia))) _ E).
Defined.
Lemma js_environments_survive_witness : exists c',
  @eval_program (js_interpreter silent_host 24) 24 (b! "{ let a = [1, 2, 3]; a.map(x => x * 2).join('').length }") ctx0 = Some (Val (from_int32 W 3), c') /\
  stacked (scope ctx0) (scope c').
Proof.
  eexists.
  assert (E : @eval_program (js_interpreter silent_host 24) 24 (b! "{ let a = [1, 2, 3]; a.map(x => x * 2).join('').length }") ctx0 = Some (Val (from_int32 W 3), _))
    by (vm_compute; reflexivity).
  assert (Hr : Val (from_int32 W 3) <> Crash) by discriminate.
  split; [exact E|].
  exact (proj2 (proj2 (js_environments_survive silent_host silent_within 24 24 ctx0 _ _ Hr)) _ (or_introl E)).
Defined.

(** A call clears a return and nothing else, so a [break] in a function's body stops the loop that calls
    it: the rest of this one's body does not run, and a [while] that calls it in its test leaves the
    break to the statements after it. *)
Definition run_script (s : string) : option (Res Value * Ctx) := @eval_program (js_interpreter silent_host 20) 20 (bytes_of_string s) ctx0.
Example break_escapes_a_call :
  (exists r c, run_script "function f() { let a = 1; break; } while (f()) { }" = Some (r, c) /\ control c = LCBreak) /\
  (exists c, run_script "function f() { let a = 1; break; } x = 0; while (1) { f(); x = 7 } x" = Some (Val (from_int32 W 0), c)).
Proof. split; [eexists _, _; (split; [vm_compute; reflexivity|reflexivity])|eexists; vm_compute; reflexivity]. Qed.
