(* ===== verification/JsBuiltinSpec.v ===== *)
(** * JsBuiltinSpec: what the methods answer

    Arrays: [runs v m l x l'] says that from every context where [v] is an array with the elements
    [l], the step [m] answers [x] and leaves [v] with the elements [l'] and every other object as
    it was; the methods do to an array what they say of a list, and sorting sorts.  Numbers:
    [toString] with a radix against [parseInt].  Strings: the bounds of their parts. *)
From Stdlib Require Import SpecFloat.
From S2P Require Import Prelude IntCodec Utf8 HashStore ServerArgs JsValue JsMem JsProps JsTable JsArray JsAtom JsObject JsInv JsObjectSpec JsHeapSpec JsSource JsScope JsFloat JsFloatSpec JsText JsBuffers JsBytecode JsNumberFmt JsApi JsJson JsJsonSpec JsJsonHeap JsScan JsStmt JsCall JsArith JsTyped JsExpr JsRegexp JsStrings JsArrayMethods JsObjectMethods.

(** ** Arrays in a heap *)

Record is_list (h : JsHeap) (v : Value) (l : list Value) : Prop := {
  il_good : good h;
  il_view : exists a j, object_ptr h v = Some a /\ obj_view h a = Some j /\ j_array j = true /\ j_elems j = l;
  il_length : Z.of_nat (length l) < 2 ^ 31;
  il_name : exists atom, 0 < atom /\ atom_bytes h atom = Some s_length;
  il_getter : without h (getter s_length) v
}.
(** All that changes is the object [v] leads to, and the names. *)
Record only (v : Value) (c c' : Ctx) : Prop := {
  on_scope : scope c' = scope c;
  on_source : source c' = source c;
  on_ptr : forall w, object_ptr (heap c') w = object_ptr (heap c) w;
  on_others : forall b, object_ptr (heap c) v <> Some b -> obj_view (heap c') b = obj_view (heap c) b
}.
#[export] Instance only_preorder (v : Value) : PreOrder (only v).
Proof.
  split; [by intros c; split|]. intros c1 c2 c3 H1 H2. split.
  - by rewrite (on_scope _ _ _ H2), (on_scope _ _ _ H1).
  - by rewrite (on_source _ _ _ H2), (on_source _ _ _ H1).
  - intros w. by rewrite (on_ptr _ _ _ H2), (on_ptr _ _ _ H1).
  - intros b Hb. rewrite (on_others _ _ _ H2), (on_others _ _ _ H1); [done..|]. by rewrite (on_ptr _ _ _ H1).
Qed.

Lemma quiet_only (v : Value) (c c' : Ctx) : good_ctx c -> quiet_ctx c c' -> only v c c'.
Proof. intros Hg [Hq Hs Hr]. split; [done..| |]; [exact (quiet_ptr _ _ Hg Hq)|intros b _; apply (quiet_view _ _ Hq)]. Qed.
Lemma quiet_list (h h' : JsHeap) (v : Value) (l : list Value) : quiet h h' -> is_list h v l -> is_list h' v l.
Proof.
  intros Hq [Hg (a & j & Hp & Hv & Hf & He) Hl (atom & H0 & Hb) Hw]. split.
  - exact (quiet_good _ _ Hg Hq).
  - exists a, j. by rewrite (quiet_ptr _ _ Hg Hq), (quiet_view _ _ Hq).
  - done.
  - exists atom. split; [done|]. exact (quiet_name _ _ Hq _ _ H0 Hb).
  - exact (without_quiet _ _ Hg Hq _ _ Hw).
Qed.

(** A change of elements keeps the names and the prototypes. *)
Lemma lacks_elems (h h' : JsHeap) (a : Z) (j : JObject) (l : list Value) (name : bytes) : heap_ok h -> obj_view h a = Some j ->
  heap_step_ok h h' a (with_jelems l j) -> forall n cur, lacks n h name cur -> lacks n h' name cur.
Proof.
  intros Hok Hv Hst n. induction n as [|n IH]; intros cur; [done|]. cbn [lacks].
  rewrite (heap_step_ptr h h' a _ cur Hok ltac:(congruence) Hst). destruct (object_ptr h cur) as [b|]; [|done]. cbn.
  assert (Hn : forall e, not_named h name e -> not_named h' name e).
  { intros e He Hk. destruct (He Hk) as (bs & H0 & Hb & Hne). exists bs. split_and!; [done| |done]. apply (hs_names _ _ _ _ Hst); [lia|done]. }
  destruct (decide (b = a)) as [-> | Hne].
  - rewrite (hs_view _ _ _ _ Hst), Hv. cbn. intros [H1 H2]. split; [by eapply Forall_impl|]. destruct (proto_end _); auto.
  - rewrite (hs_others _ _ _ _ Hst) by done. destruct (obj_view h b) as [k|]; [|done]. intros [H1 H2].
    split; [by eapply Forall_impl|]. destruct (proto_end _); auto.
Qed.
Lemma step_list (h h' : JsHeap) (v : Value) (a : Z) (j : JObject) (l : list Value) :
  is_list h v (j_elems j) -> object_ptr h v = Some a -> obj_view h a = Some j -> j_array j = true -> Z.of_nat (length l) < 2 ^ 31 ->
  heap_step_ok h h' a (with_jelems l j) -> is_list h' v l.
Proof.
  intros [Hg _ _ (atom & H0 & Hb) [Hw1 Hw2]] Hp Hv Hf Hl Hst. split.
  - split; [apply Hst|]. apply (hs_maps _ _ _ _ Hst), Hg.
  - exists a, (with_jelems l j). rewrite (heap_step_ptr h h' a _ v (proj1 Hg) ltac:(congruence) Hst), (hs_view _ _ _ _ Hst). by destruct j.
  - done.
  - exists atom. split; [done|]. apply (hs_names _ _ _ _ Hst); [lia|done].
  - split; [done|]. by eapply lacks_elems; [apply Hg| |exact Hst|].
Qed.

(** ** Steps *)

Definition runs {A} (v : Value) (m : E A) (l : list Value) (x : A) (l' : list Value) : Prop :=
  forall c, is_list (heap c) v l -> exists c', m c = Some (Val x, c') /\ is_list (heap c') v l' /\ only v c c'.

Lemma array_ret {A} (v : Value) (x : A) l : runs v (eret x) l x l.
Proof. intros c Hc. by exists c. Qed.
Lemma array_bind {A B} (v : Value) (m : E A) (k : A -> E B) l1 x l2 y l3 :
  runs v m l1 x l2 -> runs v (k x) l2 y l3 -> runs v (ebind m k) l1 y l3.
Proof.
  intros Hm Hk c Hc. destruct (Hm c Hc) as (c1 & E1 & H1 & O1). destruct (Hk c1 H1) as (c2 & E2 & H2 & O2).
  exists c2. split; [unfold ebind; by rewrite E1|]. split; [done|]. by transitivity c1.
Qed.

Section Steps.
Context `{Ev : JsEval}.

Lemma runs_get v l i x : l !! Z.to_nat i = Some x -> 0 <= i -> runs v (get_at v i) l x l.
Proof.
  intros Hx Hi c Hc. exists c. split; [|done]. pose proof Hc as [[Hok _] (a & j & Hp & Hv & Hf & <-) Hl _ _].
  apply lookup_lt_Some in Hx as Hlt. unfold get_at, act, js_get_property_uint32, array_direct_get, as_u32. rewrite Z.mod_small by lia.
  rewrite Hp. cbn [mbind option_bind]. rewrite (is_array_view _ _ _ Hv), Hf. cbn [negb].
  rewrite (array_get_view _ a j Hok Hv), Hx by lia. by apply ending_same.
Qed.
Lemma array_set_in_range (h : JsHeap) (a i : Z) (j : JObject) (x : Value) : heap_ok h -> obj_view h a = Some j ->
  0 <= i < Z.of_nat (length (j_elems j)) -> (array_set a i x h).1 = true.
Proof.
  intros Hok Hv Hi. unfold array_set. rewrite (array_len_view h a j Hok Hv). destruct (Z.leb_spec (Z.of_nat (length (j_elems j))) i); [lia|].
  destruct (Z.eqb_spec (elements (obj_at h a)) 0) as [He|]; [|done]. exfalso.
  pose proof (array_len_view h a j Hok Hv) as Hlen. destruct (obj_view_inv _ _ _ Hv) as (o & Ho & _).
  assert (obj_at h a = o) as Hat by (unfold obj_at; by rewrite Ho). rewrite Hat in *.
  destruct (hk_array _ Hok a o Ho) as [Hr [[_ Hc]|(vs & Hvs & _)]]; [lia|]. rewrite He in Hvs.
  apply (cell_nonnull _ _ _ (hk_layout _ Hok)) in Hvs. lia.
Qed.
Lemma runs_put v l i x : 0 <= i < Z.of_nat (length l) -> runs v (put_at v i x) l tt (<[Z.to_nat i := x]> l).
Proof.
  intros Hi c Hc. pose proof Hc as [[Hok Hm] (a & j & Hp & Hv & Hf & <-) Hl _ _].
  pose proof (array_set_in_range (heap c) a i j x Hok Hv Hi) as Ht. pose proof (array_set_view _ a j Hok Hv i x ltac:(lia)) as Hs.
  unfold put_at, ebind, act, js_set_property_uint32, on_heap, array_direct_set, as_u32. rewrite Z.mod_small by lia.
  rewrite Hp, (is_array_view _ _ _ Hv), Hf. cbn [negb]. destruct (array_set a i x (heap c)) as [ok h']. cbn in Ht. subst ok.
  unfold list_set in Hs. destruct (Nat.ltb_spec (Z.to_nat i) (length (j_elems j))); [|lia].
  exists (with_heap h' c). split; [by rewrite ending_same|]. split.
  - by eapply step_list; [exact Hc|done..|rewrite length_insert|].
  - split; [done..| |].
    + intros w. exact (heap_step_ptr (heap c) h' a _ w Hok ltac:(congruence) Hs).
    + intros b Hb. apply (hs_others _ _ _ _ Hs). congruence.
Qed.
Lemma runs_heap_length v l : runs v (act (on_heap (get_property_str v s_length))) l (Some (len_value (Z.of_nat (length l)))) l.
Proof.
  intros c Hc. pose proof Hc as [Hg (a & j & Hp & Hv & Hf & <-) Hl (atom & H0 & Hb) Hw].
  assert (Hr : exists c', on_heap (get_property_str v s_length) c = (Some (len_value (Z.of_nat (length (j_elems j)))), c') /\ quiet_ctx c c').
  { by eapply array_length_named. }
  destruct Hr as (c' & E & Hq). exists c'. split; [unfold act; rewrite E; apply ending_same, Hq|].
  split; [by eapply quiet_list; [apply Hq|]|by apply quiet_only].
Qed.
Lemma runs_length v l : runs v (len_int v) l (Some (Z.of_nat (length l))) l.
Proof.
  intros c Hc. pose proof Hc as [Hg _ _ _ Hw].
  destruct (call_accessor_absent (getter s_length) v [] c Hg Hw) as (c1 & E1 & Hq1).
  destruct (runs_heap_length v l c1) as (c2 & E2 & H2 & O2); [by eapply quiet_list; [apply Hq1|]|].
  exists c2. split; [|split; [done|]]; [|by transitivity c1; [apply quiet_only|]].
  unfold len_int, ebind, act, js_get_property_str. change (accessor_name s_length) with false. cbn match. fold (getter s_length).
  rewrite E1. unfold act in E2. assert (Hf : fate (on_heap (get_property_str v s_length) c1).2 = fate c1)
    by (unfold on_heap; by destruct (get_property_str _ _ _)).
  destruct (on_heap (get_property_str v s_length) c1) as [r c3]. cbn [snd] in Hf. rewrite ending_same in E2 by done.
  injection E2 as -> ->. rewrite ending_same by (rewrite Hf; apply Hq1). unfold eret. unfold or_undefined; cbn [default id].
  by rewrite int32_len_value by (split; [lia|apply Hc]).
Qed.
Lemma runs_len_of v l : runs v (len_of v) l (Z.of_nat (length l)) l.
Proof. eapply array_bind; [apply runs_length|apply array_ret]. Qed.

(** *** Loops, with what holds before each round *)

Lemma runs_up v body (P : Z -> list Value -> Prop) k : forall i l,
  (forall j l, i <= j < i + Z.of_nat k -> P j l -> exists l', runs v (body j) l tt l' /\ P (j + 1) l') ->
  P i l -> exists l', runs v (for_up k i body) l tt l' /\ P (i + Z.of_nat k) l'.
Proof.
  induction k as [|k IH]; intros i l Hb Hl.
  - exists l. rewrite Z.add_0_r. split; [apply array_ret|done].
  - destruct (Hb i l ltac:(lia) Hl) as (l1 & R1 & H1). destruct (IH (i + 1) l1) as (l2 & R2 & H2).
    { intros j m Hj. apply Hb. lia. }
    { done. }
    exists l2. split; [by eapply array_bind|]. by replace (i + Z.of_nat (S k)) with (i + 1 + Z.of_nat k) by lia.
Qed.
Lemma runs_range_up v body (P : Z -> list Value -> Prop) lo hi l : lo <= hi ->
  (forall j l, lo <= j < hi -> P j l -> exists l', runs v (body j) l tt l' /\ P (j + 1) l') ->
  P lo l -> exists l', runs v (range_up lo hi body) l tt l' /\ P hi l'.
Proof.
  intros Hlh Hb Hl. destruct (runs_up v body P (Z.to_nat (hi - lo)) lo l) as (l' & R & H); [|done|].
  - intros j m Hj. apply Hb. lia.
  - exists l'. split; [exact R|]. by replace (lo + Z.of_nat (Z.to_nat (hi - lo))) with hi in H by lia.
Qed.
End Steps.

(** ** Sorting *)

(** Integers in order, and [undefined] after them. *)
Definition sort_key (v : Value) : Z := match int32 W v with Some n => n | None => 2 ^ 31 end.
Definition sortable (v : Value) : Prop := v = UNDEFINED W \/ exists n, in_i32 n /\ v = from_int32 W n.
Definition key_at (l : list Value) (i : Z) : Z := sort_key (default (UNDEFINED W) (l !! Z.to_nat i)).
Definition swap_if_larger (l : list Value) (j : Z) : list Value :=
  match l !! Z.to_nat j, l !! Z.to_nat (j + 1) with
  | Some a, Some b => if sort_key b <? sort_key a then <[Z.to_nat (j + 1) := a]> (<[Z.to_nat j := b]> l) else l
  | _, _ => l
  end.

Lemma sort_key_int n : in_i32 n -> sort_key (from_int32 W n) = n /\ int32 W (from_int32 W n) = Some n /\ is_undefined W (from_int32 W n) = false.
Proof.
  intros Hn. assert (E : int32 W (from_int32 W n) = Some n) by (apply int32_roundtrip; [by left|done|by left]).
  split_and!; [unfold sort_key; by rewrite E|done|]. unfold is_undefined. apply Z.eqb_neq. intros Eu. rewrite Eu in E. done.
Qed.
Lemma f64_sub_positive (a b : Z) : in_i32 a -> in_i32 b -> f64_lt f64_zero (f64_sub (f64_of_int a) (f64_of_int b)) = (b <? a).
Proof.
  intros Ha Hb. unfold in_i32 in *. rewrite f64_sub_int by (unfold int53; lia). change f64_zero with (f64_of_int 0).
  rewrite f64_lt_int by (unfold int53; lia). destruct (Z.ltb_spec 0 (a - b)), (Z.ltb_spec b a); lia.
Qed.

Lemma two_at (l : list Value) (n : nat) a b : l !! n = Some a -> l !! S n = Some b -> l = take n l ++ a :: b :: drop (S (S n)) l.
Proof. intros Ha Hb. rewrite <- (take_drop n l) at 1. f_equal. by rewrite (drop_S _ _ _ Ha), (drop_S _ _ _ Hb). Qed.
Lemma swap_perm (l : list Value) (n : nat) a b : l !! n = Some a -> l !! S n = Some b -> <[S n := a]> (<[n := b]> l) ≡ₚ l.
Proof.
  intros Ha Hb. pose proof (two_at l n a b Ha Hb) as E. apply lookup_lt_Some in Hb as Hn.
  assert (Ht : length (take n l) = n) by (rewrite length_take; lia). revert E Ht. generalize (take n l), (drop (S (S n)) l). intros t d -> Ht.
  rewrite insert_app_r_alt, insert_app_r_alt by lia. rewrite Ht, Nat.sub_diag, Nat.sub_succ_l, Nat.sub_diag by lia. cbn.
  by rewrite (perm_swap b a).
Qed.
Lemma swap_if_larger_spec (l : list Value) (j : Z) : 0 <= j -> j + 1 < Z.of_nat (length l) ->
  swap_if_larger l j ≡ₚ l /\ key_at (swap_if_larger l j) j = Z.min (key_at l j) (key_at l (j + 1)) /\
  key_at (swap_if_larger l j) (j + 1) = Z.max (key_at l j) (key_at l (j + 1)) /\
  forall i, 0 <= i -> i <> j -> i <> j + 1 -> key_at (swap_if_larger l j) i = key_at l i.
Proof.
  intros Hj Hl. destruct (lookup_lt_is_Some_2 l (Z.to_nat j) ltac:(lia)) as [a Ha].
  destruct (lookup_lt_is_Some_2 l (Z.to_nat (j + 1)) ltac:(lia)) as [b Hb]. unfold swap_if_larger. rewrite Ha, Hb.
  unfold key_at at 2 3 5 6. rewrite Ha, Hb. cbn [default id]. destruct (Z.ltb_spec (sort_key b) (sort_key a)).
  - split_and!.
    + replace (Z.to_nat (j + 1)) with (S (Z.to_nat j)) in * by lia. by apply swap_perm.
    + unfold key_at. rewrite list_lookup_insert_ne by lia. rewrite list_lookup_insert_eq by lia. cbn. lia.
    + unfold key_at. rewrite list_lookup_insert_eq by (rewrite length_insert; lia). cbn. lia.
    + intros i Hi H1 H2. unfold key_at. by rewrite !list_lookup_insert_ne by lia.
  - unfold key_at. rewrite Ha, Hb. cbn [default id]. split_and!; [done|lia|lia|done].
Qed.

(** After [i] rounds: the last [i] are in order and none before them is larger. *)
Definition tail_sorted (l : list Value) (i : Z) : Prop :=
  forall p q, 0 <= p < q -> Z.of_nat (length l) - i <= q < Z.of_nat (length l) -> key_at l p <= key_at l q.
Definition sorted (l : list Value) : Prop := forall p q, 0 <= p < q -> q < Z.of_nat (length l) -> key_at l p <= key_at l q.
Record bubble (l0 : list Value) (i j : Z) (l : list Value) : Prop := {
  bu_perm : l ≡ₚ l0;
  bu_tail : tail_sorted l i;
  bu_max : forall p, 0 <= p <= j -> key_at l p <= key_at l j
}.
Lemma bubble_step (l0 l : list Value) (i j : Z) : 0 <= j < Z.of_nat (length l0) - i - 1 -> 0 <= i -> bubble l0 i j l ->
  bubble l0 i (j + 1) (swap_if_larger l j).
Proof.
  intros Hj Hi [Hp Ht Hm]. pose proof (Permutation_length Hp) as Hl.
  destruct (swap_if_larger_spec l j ltac:(lia) ltac:(lia)) as (Hp' & K1 & K2 & K3). pose proof (Permutation_length Hp') as Hl'. split.
  - by rewrite Hp'.
  - intros p q Hpq Hq. rewrite Hl' in Hq. rewrite (K3 q) by lia.
    destruct (decide (p = j)) as [-> |]; [|destruct (decide (p = j + 1)) as [-> |]].
    + rewrite K1. pose proof (Ht j q ltac:(lia) Hq). lia.
    + rewrite K2. pose proof (Ht j q ltac:(lia) Hq). pose proof (Ht (j + 1) q ltac:(lia) Hq). lia.
    + rewrite K3 by lia. by apply Ht.
  - intros p Hpj. rewrite K2. destruct (decide (p = j + 1)) as [-> |]; [lia|]. destruct (decide (p = j)) as [-> |]; [lia|].
    rewrite K3 by lia. pose proof (Hm p ltac:(lia)). lia.
Qed.
Lemma bubble_round (l0 l : list Value) (i : Z) : 0 <= i < Z.of_nat (length l0) ->
  bubble l0 i (Z.of_nat (length l0) - i - 1) l -> bubble l0 (i + 1) 0 l.
Proof.
  intros Hi [Hp Ht Hm]. pose proof (Permutation_length Hp) as Hl. split; [done| |].
  - intros p q Hpq Hq. destruct (decide (q = Z.of_nat (length l0) - i - 1)) as [-> |]; [apply Hm; lia|apply Ht; lia].
  - intros p Hp0. by replace p with 0 by lia.
Qed.

Section Sort.
Context `{Ev : JsEval} (fuel : nat).

Lemma runs_sort_pair v j l : Forall sortable l -> 0 <= j -> j + 1 < Z.of_nat (length l) ->
  runs v (sort_pair fuel None v j) l tt (swap_if_larger l j).
Proof.
  intros Hs Hj Hl. destruct (lookup_lt_is_Some_2 l (Z.to_nat j) ltac:(lia)) as [a Ha].
  destruct (lookup_lt_is_Some_2 l (Z.to_nat (j + 1)) ltac:(lia)) as [b Hb].
  pose proof (Forall_lookup_1 _ _ _ _ Hs Ha) as Sa. pose proof (Forall_lookup_1 _ _ _ _ Hs Hb) as Sb.
  unfold sort_pair. eapply array_bind; [by apply runs_get|]. eapply array_bind; [apply runs_get; [done|lia]|].
  apply array_bind with (x := sort_key b <? sort_key a) (l2 := l).
  - destruct Sa as [-> | (x & Hx & ->)], Sb as [-> | (y & Hy & ->)]; try apply array_ret.
    + destruct (sort_key_int y Hy) as (K & _ & U). rewrite K, U. change (is_undefined W (UNDEFINED W)) with true. cbn [negb].
      replace (y <? _) with true; [apply array_ret|]. symmetry. apply Z.ltb_lt. change (sort_key (UNDEFINED W)) with (2 ^ 31). unfold in_i32 in Hy; lia.
    + destruct (sort_key_int x Hx) as (K & _ & U). rewrite K, U. change (is_undefined W (UNDEFINED W)) with true. cbn match.
      replace (_ <? x) with false; [apply array_ret|]. symmetry. apply Z.ltb_ge. change (sort_key (UNDEFINED W)) with (2 ^ 31). unfold in_i32 in Hx; lia.
    + destruct (sort_key_int x Hx) as (Kx & Ix & Ux), (sort_key_int y Hy) as (Ky & Iy & Uy). rewrite Kx, Ky, Ux, Uy.
      unfold sort_compare, sort_number. rewrite Ix, Iy. rewrite <- (f64_sub_positive x y Hx Hy).
      repeat (eapply array_bind; [apply array_ret|]). apply array_ret.
  - unfold swap_if_larger. rewrite Ha, Hb. destruct (_ <? _); [|apply array_ret].
    eapply array_bind; [apply runs_put; lia|]. apply runs_put. rewrite length_insert. lia.
Qed.

(** C9: Sorting sorts, and ends.  [sort] without a comparison, of an array whose elements are integers and
    [undefined], from any context whose heap is in order (and knows the name [length], with no getter
    of that name on the array): it answers the array, whose elements are then the same ones in
    ascending order with [undefined] last, and no other object has changed. *)
Theorem sort_sorts (v : Value) (l : list Value) (c : Ctx) (Hc : is_list (heap c) v l) (Hs : Forall sortable l) :
  exists l' c', array_sort fuel v [] c = Some (Val (Some v), c') /\ l' ≡ₚ l /\ sorted l' /\ is_list (heap c') v l' /\ only v c c'.
Proof.
  assert (Hr : exists l', runs v (array_sort fuel v []) l (Some v) l' /\ bubble l (Z.of_nat (length l)) 0 l').
  { destruct (runs_range_up v (fun i => range_up 0 (Z.of_nat (length l) - i - 1) (sort_pair fuel None v)) (fun i => bubble l i 0)
      0 (Z.of_nat (length l)) l) as (l' & R & H); [lia| | |].
    - intros i m Hi Hm. destruct (runs_range_up v (sort_pair fuel None v) (bubble l i) 0 (Z.of_nat (length l) - i - 1) m) as (m' & R & H);
        [lia| |done|].
      + intros j k Hj Hk. exists (swap_if_larger k j). pose proof (Permutation_length (bu_perm _ _ _ _ Hk)) as Hl.
        split; [|apply bubble_step; [lia..|done]]. apply runs_sort_pair; [|lia..]. by rewrite (bu_perm _ _ _ _ Hk).
      + exists m'. split; [exact R|]. by apply bubble_round.
    - split; [done| |]; [intros p q ? ?; lia|intros p Hp; by replace p with 0 by lia].
    - exists l'. split; [|done]. unfold array_sort. eapply array_bind; [apply runs_heap_length|].
      cbn [mbind option_bind]. rewrite int32_len_value by (split; [lia|apply Hc]). cbn [default head].
      eapply array_bind; [exact R|apply array_ret]. }
  destruct Hr as (l' & R & [Hp Ht _]). destruct (R c Hc) as (c' & E & H & O). exists l', c'. split_and!; try done.
  intros p q Hpq Hq. apply Ht; [done|]. rewrite (Permutation_length Hp) in *. lia.
Qed.
End Sort.

(** ** Reversing, filling, searching *)

Section Lists.
Context `{Ev : JsEval}.

(** After [i] exchanges of an array of [l]. *)
Definition half_reversed (l : list Value) (i : Z) (m : list Value) : Prop :=
  length m = length l /\
  forall k, (k < length l)%nat -> m !! k = if (Z.of_nat k <? i) || (Z.of_nat (length l) - i <=? Z.of_nat k) then l !! (length l - S k)%nat else l !! k.
Lemma half_reversed_all (l m : list Value) : half_reversed l (Z.quot (Z.of_nat (length l)) 2) m -> m = reverse l.
Proof.
  intros [Hl Hm]. apply list_eq. intros k. destruct (decide (k < length l)%nat) as [Hk|Hk].
  - rewrite (Hm k Hk), reverse_lookup by done. destruct (_ || _) eqn:E; [done|].
    apply orb_false_iff in E as [E1%Z.ltb_ge E2%Z.leb_gt]. rewrite Z.quot_div_nonneg in E1, E2 by lia.
    pose proof (Z.div_mod (Z.of_nat (length l)) 2 ltac:(lia)). pose proof (Z.mod_pos_bound (Z.of_nat (length l)) 2 ltac:(lia)).
    f_equal. lia.
  - rewrite !lookup_ge_None_2; [done|rewrite length_reverse; lia|lia].
Qed.
Lemma half_reversed_step (l m : list Value) (i : Z) x y : 0 <= i < Z.quot (Z.of_nat (length l)) 2 -> half_reversed l i m ->
  m !! Z.to_nat i = Some x -> m !! Z.to_nat (Z.of_nat (length l) - 1 - i) = Some y ->
  half_reversed l (i + 1) (<[Z.to_nat (Z.of_nat (length l) - 1 - i) := x]> (<[Z.to_nat i := y]> m)).
Proof.
  intros Hi [Hl Hm] Hx Hy. rewrite Z.quot_div_nonneg in Hi by lia. pose proof (Z.mul_div_le (Z.of_nat (length l)) 2 ltac:(lia)).
  split; [by rewrite !length_insert|]. intros k Hk.
  assert (Hxl : l !! Z.to_nat i = Some x).
  { rewrite Hm in Hx by lia. destruct (_ || _) eqn:E; [|done]. apply orb_true_iff in E as [E%Z.ltb_lt|E%Z.leb_le]; lia. }
  assert (Hyl : l !! Z.to_nat (Z.of_nat (length l) - 1 - i) = Some y).
  { rewrite Hm in Hy by lia. destruct (_ || _) eqn:E; [|done]. apply orb_true_iff in E as [E%Z.ltb_lt|E%Z.leb_le]; lia. }
  destruct (decide (k = Z.to_nat (Z.of_nat (length l) - 1 - i))) as [-> | H1]; [|destruct (decide (k = Z.to_nat i)) as [-> | H2]].
  - rewrite list_lookup_insert_eq by (rewrite length_insert; lia). destruct (_ || _) eqn:E.
    + rewrite <- Hxl. f_equal. lia.
    + apply orb_false_iff in E as [_ E%Z.leb_gt]. lia.
  - rewrite list_lookup_insert_ne, list_lookup_insert_eq by lia. destruct (_ || _) eqn:E.
    + rewrite <- Hyl. f_equal. lia.
    + apply orb_false_iff in E as [E%Z.ltb_ge _]. lia.
  - rewrite !list_lookup_insert_ne by lia. rewrite Hm by done.
    destruct (Z.ltb_spec (Z.of_nat k) i), (Z.ltb_spec (Z.of_nat k) (i + 1)), (Z.leb_spec (Z.of_nat (length l) - i) (Z.of_nat k)),
      (Z.leb_spec (Z.of_nat (length l) - (i + 1)) (Z.of_nat k)); done || lia.
Qed.
Lemma runs_reverse v l args : runs v (array_reverse v args) l (Some v) (reverse l).
Proof.
  destruct (runs_range_up v (fun i => left <- get_at v i ;; right <- get_at v (Z.of_nat (length l) - 1 - i) ;;
      put_at v i right ?> put_at v (Z.of_nat (length l) - 1 - i) left) (half_reversed l) 0 (Z.quot (Z.of_nat (length l)) 2) l) as (m & R & H).
  - apply Z.quot_pos; lia.
  - intros i m Hi Hm. pose proof Hm as [Hl _]. pose proof Hi as Hi'. rewrite Z.quot_div_nonneg in Hi' by lia.
    pose proof (Z.mul_div_le (Z.of_nat (length l)) 2 ltac:(lia)).
    destruct (lookup_lt_is_Some_2 m (Z.to_nat i) ltac:(lia)) as [x Hx].
    destruct (lookup_lt_is_Some_2 m (Z.to_nat (Z.of_nat (length l) - 1 - i)) ltac:(lia)) as [y Hy].
    eexists. split; [|exact (half_reversed_step l m i x y Hi Hm Hx Hy)].
    eapply array_bind; [apply runs_get; [exact Hx|lia]|]. eapply array_bind; [apply runs_get; [done|lia]|].
    eapply array_bind; [apply runs_put; lia|]. apply runs_put. rewrite length_insert. lia.
  - split; [done|]. intros k Hk. destruct (_ || _) eqn:E; [|done]. apply orb_true_iff in E as [E%Z.ltb_lt|E%Z.leb_le]; lia.
  - apply half_reversed_all in H. subst m. unfold array_reverse. eapply array_bind; [apply runs_length|].
    eapply array_bind; [exact R|apply array_ret].
Qed.

Definition filled (l : list Value) (x : Value) (i : Z) (m : list Value) : Prop :=
  0 <= i /\ m = replicate (Z.to_nat i) x ++ drop (Z.to_nat i) l.
Lemma runs_fill v l x args : runs v (array_fill v (x :: args)) l (Some v) (replicate (length l) x).
Proof.
  destruct (runs_range_up v (fun i => put_at v i x) (filled l x) 0 (Z.of_nat (length l)) l) as (m & R & _ & H); [lia| |done|].
  - intros i m Hi [_ ->]. eexists. split; [apply runs_put; rewrite length_app, length_replicate, length_drop; lia|]. split; [lia|].
    destruct (lookup_lt_is_Some_2 l (Z.to_nat i) ltac:(lia)) as [y Hy]. rewrite (drop_S _ _ _ Hy).
    rewrite insert_app_r_alt by (rewrite length_replicate; lia). rewrite length_replicate, Nat.sub_diag. cbn [insert list_insert].
    replace (Z.to_nat (i + 1)) with (S (Z.to_nat i)) by lia. by rewrite replicate_S_end, <- app_assoc.
  - rewrite Nat2Z.id, drop_all, app_nil_r in H. subst m. unfold array_fill. eapply array_bind; [apply runs_len_of|].
    eapply array_bind; [exact R|apply array_ret].
Qed.

(** The first element that is the same word, at [i] or after. *)
Lemma runs_find_up v l x : forall k i, 0 <= i -> (Z.to_nat i + k)%nat = length l ->
  runs v (find_up k i (same_at v x)) l ((fun p : nat * Value => i + Z.of_nat p.1) <$> list_find (eq x) (drop (Z.to_nat i) l)) l.
Proof.
  induction k as [|k IH]; intros i Hi Hk.
  - rewrite drop_ge by lia. apply array_ret.
  - destruct (lookup_lt_is_Some_2 l (Z.to_nat i) ltac:(lia)) as [y Hy]. rewrite (drop_S _ _ _ Hy). cbn [find_up list_find].
    unfold same_at at 1. eapply array_bind; [eapply array_bind; [by apply runs_get|apply array_ret]|].
    destruct (decide (x = y)) as [-> | Hne].
    + rewrite Z.eqb_refl. cbn. rewrite Z.add_0_r. apply array_ret.
    + replace (y =? x) with false by (symmetry; apply Z.eqb_neq; congruence).
      specialize (IH (i + 1) ltac:(lia) ltac:(lia)). replace (Z.to_nat (i + 1)) with (S (Z.to_nat i)) in IH by lia.
      destruct (list_find (eq x) (drop (S (Z.to_nat i)) l)) as [[p w]|]; cbn in *; [|exact IH].
      replace (i + Z.of_nat (S p)) with (i + 1 + Z.of_nat p) by lia. exact IH.
Qed.
(** Downwards from [i]: the last one, as the first of the reverse. *)
Lemma runs_find_down v l x : forall k i, i = Z.of_nat k - 1 -> (k <= length l)%nat ->
  runs v (find_down k i (same_at v x)) l ((fun p : nat * Value => i - Z.of_nat p.1) <$> list_find (eq x) (reverse (take k l))) l.
Proof.
  induction k as [|k IH]; intros i Hi Hk; [apply array_ret|].
  destruct (lookup_lt_is_Some_2 l k ltac:(lia)) as [y Hy]. rewrite (take_S_r _ _ _ Hy), reverse_app. cbn [find_down list_find app reverse rev_append].
  unfold same_at at 1. eapply array_bind; [eapply array_bind; [apply runs_get; [|lia]|apply array_ret]|].
  { replace (Z.to_nat i) with k by lia. exact Hy. }
  change (reverse [y] ++ reverse (take k l)) with (y :: reverse (take k l)). cbn [list_find]. destruct (decide (x = y)) as [-> | Hne].
  - rewrite Z.eqb_refl. cbn. rewrite Z.sub_0_r. apply array_ret.
  - replace (y =? x) with false by (symmetry; apply Z.eqb_neq; congruence).
    specialize (IH (i - 1) ltac:(lia) ltac:(lia)). destruct (list_find (eq x) (reverse (take k l))) as [[p w]|]; cbn in *; [|exact IH].
    replace (i - Z.of_nat (S p)) with (i - 1 - Z.of_nat p) by lia. exact IH.
Qed.

Definition place_value (o : option Z) : Value := from_int32 W (default (-1) o).
Lemma runs_index_of v l x : runs v (index_of v [x] x) l (Some (place_value ((fun p : nat * Value => Z.of_nat p.1) <$> list_find (eq x) l))) l.
Proof.
  unfold index_of. eapply array_bind; [apply runs_len_of|]. cbn [lookup list_lookup]. eapply array_bind; [apply array_ret|].
  change (0 <? 0) with false. cbn match.
  eapply array_bind; [apply (runs_find_up v l x _ 0); [done|cbn; lia]|]. rewrite drop_0. apply array_ret.
Qed.
Lemma runs_last_index_of v l x : Z.of_nat (length l) < 2 ^ 31 ->
  runs v (last_index_of v [x] x) l (Some (place_value ((fun p : nat * Value => Z.of_nat (length l) - 1 - Z.of_nat p.1) <$> list_find (eq x) (reverse l)))) l.
Proof.
  intros Hl. unfold last_index_of. eapply array_bind; [apply runs_len_of|]. cbn [lookup list_lookup]. eapply array_bind; [apply array_ret|].
  destruct (Z.leb_spec (Z.of_nat (length l)) (Z.of_nat (length l) - 1)); [lia|]. destruct l as [|y l0] eqn:El.
  - eapply array_bind; [apply array_ret|apply array_ret].
  - rewrite <- El in *. destruct (Z.ltb_spec (Z.of_nat (length l) - 1) 0) as [Hlt|_]; [subst l; cbn in Hlt; lia|].
    replace (Z.to_nat (Z.of_nat (length l) - 1 + 1)) with (length l) by lia.
    eapply array_bind; [apply (runs_find_down v l x (length l)); lia|]. rewrite firstn_all. apply array_ret.
Qed.
Lemma list_find_in (l : list Value) x : bool_decide (is_Some (list_find (eq x) l)) = bool_decide (x ∈ l).
Proof.
  apply bool_decide_ext. split.
  - intros [[i y] (Hi & -> & _)%list_find_Some]. by eapply list_elem_of_lookup_2.
  - intros Hx. by apply (list_find_elem_of (eq x) l x).
Qed.
Lemma runs_includes v l x : runs v (array_includes v [x]) l (Some (new_bool W (bool_decide (x ∈ l)))) l.
Proof.
  unfold array_includes. eapply array_bind; [apply runs_len_of|].
  eapply array_bind; [apply (runs_find_up v l x _ 0); [lia|cbn; lia]|]. rewrite drop_0, <- list_find_in.
  replace (bool_decide _) with (bool_decide (is_Some (list_find (eq x) l))); [apply array_ret|].
  apply bool_decide_ext. by rewrite fmap_is_Some.
Qed.
Lemma runs_at v l n i : in_i32 i -> int32 W n = Some i -> Z.of_nat (length l) < 2 ^ 31 ->
  runs v (array_at v [n]) l (Some (default (UNDEFINED W) (let j := if i <? 0 then Z.of_nat (length l) + i else i in if j <? 0 then None else l !! Z.to_nat j))) l.
Proof.
  intros Hi Hn Hl. unfold array_at. cbn [lookup list_lookup mbind option_bind]. rewrite Hn. eapply array_bind; [apply runs_len_of|].
  assert (Hw : as_i32 (Z.of_nat (length l) + i) = Z.of_nat (length l) + i \/ 0 <= i).
  { destruct (decide (0 <= i)); [by right|left]. apply as_i32_id. unfold in_i32 in *. lia. }
  set (j := if i <? 0 then Z.of_nat (length l) + i else i).
  replace (if i <? 0 then as_i32 (Z.of_nat (length l) + i) else i) with j by (unfold j; destruct (Z.ltb_spec i 0), Hw; done || lia).
  cbv zeta. destruct (Z.ltb_spec j 0) as [Hj|Hj], (Z.leb_spec 0 j); try lia; [apply array_ret|].
  destruct (Z.ltb_spec j (Z.of_nat (length l))) as [Hlt|Hge]; cbn [andb].
  - destruct (lookup_lt_is_Some_2 l (Z.to_nat j) ltac:(lia)) as [x Hx]. rewrite Hx. eapply array_bind; [by apply runs_get|apply array_ret].
  - rewrite lookup_ge_None_2 by lia. apply array_ret.
Qed.

(** C12: The methods of an array are those of the list of its elements.  From any context whose heap is in
    order (and knows the name [length], with no getter of that name on the array), [reverse] leaves the reversed list and [fill] a list of one value, and both answer the
    array; [indexOf], [lastIndexOf] and [includes] answer the first and the last place of a word,
    or -1, and whether it is there; [at] counts negative places from the end.  None of them fails,
    reads out of range or changes another object. *)
Theorem array_methods_are_list_operations (v : Value) (l : list Value) (x : Value) (i : Z)
    (Hl : Z.of_nat (length l) < 2 ^ 31) (Hi : in_i32 i) :
  runs v (array_reverse v []) l (Some v) (reverse l) /\
  runs v (array_fill v [x]) l (Some v) (replicate (length l) x) /\
  runs v (expr_array_index_of v [x]) l (Some (place_value ((fun p : nat * Value => Z.of_nat p.1) <$> list_find (eq x) l))) l /\
  runs v (expr_array_last_index_of v [x]) l
    (Some (place_value ((fun p : nat * Value => Z.of_nat (length l) - 1 - Z.of_nat p.1) <$> list_find (eq x) (reverse l)))) l /\
  runs v (array_includes v [x]) l (Some (new_bool W (bool_decide (x ∈ l)))) l /\
  runs v (array_at v [from_int32 W i]) l
    (Some (default (UNDEFINED W) (let j := if i <? 0 then Z.of_nat (length l) + i else i in if j <? 0 then None else l !! Z.to_nat j))) l.
Proof.
  split_and!; [apply runs_reverse|apply runs_fill|apply runs_index_of|by apply runs_last_index_of|apply runs_includes|].
  apply runs_at; [done| |done]. apply int32_roundtrip; [by left|done|by left].
Qed.
End Lists.

(** ** Witnesses: the array [[3, undefined, -1, 2]] *)

#[local] Instance quiet_eval : JsEval := {| eval_host := silent_host; eval_expr := fun _ => eout; eval_value := fun _ => eout |}.
Definition v_four : Value := from_ptr 4176.
Definition four : list Value := [num 3; UNDEFINED W; num (-1); num 2].
Definition four_ops : list heap_op := [OpObject CLASS_OBJECT; OpArray 0] ++ (OpPush v_four <$> four) ++ [OpIntern s_length].
Definition four_ctx : Ctx := with_heap (run four_ops h_empty) ctx0.
Lemma four_list : is_list (heap four_ctx) v_four four.
Proof.
  split.
  - apply reach_good, (run_reach four_ops h_empty h_empty_reach). by vm_compute.
  - exists 4176, (default (new_jobject 0) (object_ptr (heap four_ctx) v_four ≫= obj_view (heap four_ctx))). by vm_compute.
  - by vm_compute.
  - exists 1. by vm_compute.
  - apply without_b_ok. by vm_compute.
Qed.
Lemma sort_sorts_witness : exists l' c', array_sort 3 v_four [] four_ctx = Some (Val (Some v_four), c') /\
  l' ≡ₚ four /\ sorted l' /\ is_list (heap c') v_four l' /\ only v_four four_ctx c'.
Proof.
  apply (sort_sorts 3 v_four four four_ctx four_list).
  apply Forall_cons_2; [right; exists 3; by vm_compute|]. apply Forall_cons_2; [by left|].
  apply Forall_cons_2; [right; exists (-1); by vm_compute|]. apply Forall_cons_2; [right; exists 2; by vm_compute|apply Forall_nil_2].
Defined.
Lemma array_methods_are_list_operations_witness :
  (exists c', array_reverse v_four [] four_ctx = Some (Val (Some v_four), c') /\ is_list (heap c') v_four [num 2; num (-1); UNDEFINED W; num 3]) /\
  (exists c', array_at v_four [num (-2)] four_ctx = Some (Val (Some (num (-1))), c')).
Proof.
  destruct (array_methods_are_list_operations v_four four (num 2) (-2) ltac:(vm_compute; reflexivity) ltac:(vm_compute; split; congruence))
    as (Hr & _ & _ & _ & _ & Ha).
  split.
  - destruct (Hr four_ctx four_list) as (c' & E & H & _). exists c'. split; [exact E|exact H].
  - destruct (Ha four_ctx four_list) as (c' & E & _). exists c'. exact E.
Defined.

(** ** Digits of a radix *)

Definition digit_byte (d : Z) : Z := if d <? 10 then 48 + d else 87 + d.
(** A byte that is a digit of the radix as [toString] writes it. *)
Definition radix_digit (r b : Z) : Prop := exists d, 0 <= d < r /\ b = digit_byte d.
Ltac digit_cases := repeat match goal with
  | |- context [?x <=? ?y] => destruct (Z.leb_spec x y)
  | |- context [?x <? ?y] => destruct (Z.ltb_spec x y)
  | |- context [?x =? ?y] => destruct (Z.eqb_spec x y)
  end.

Lemma hex_digit_byte d : 0 <= d < 36 -> hex_digit (digit_byte d) = Some d.
Proof.
  intros Hd. unfold hex_digit, digit_byte, is_digit, in_range. change c_0 with 48. change c_9 with 57.
  destruct (Z.ltb_spec d 10); digit_cases; cbn; try lia; f_equal; lia.
Qed.
Lemma radix_digit_range r b : r <= 36 -> radix_digit r b -> 48 <= b <= 57 \/ 97 <= b < 87 + r.
Proof. intros Hr (d & Hd & ->). unfold digit_byte. destruct (Z.ltb_spec d 10); lia. Qed.

Section Radix.
Context (r : Z) (Hr : 2 <= r <= 36).

Lemma loop_digits fuel n acc : Forall (radix_digit r) acc -> Forall (radix_digit r) (format_radix_int_loop r fuel n acc).
Proof.
  revert n acc. induction fuel as [|fuel IH]; intros n acc Ha; [done|]. cbn [format_radix_int_loop]. fold (format_radix_int_loop r).
  destruct (Z.ltb_spec 0 n); [|done]. apply IH. constructor; [|done]. exists (n `mod` r). split; [apply Z.mod_pos_bound; lia|done].
Qed.
(** The digits of [n], read after those of [acc]'s place. *)
Lemma loop_reads fuel : forall n acc, 0 <= n < r ^ Z.of_nat fuel -> n < 2 ^ 64 ->
  int_digits r (Some 0) (format_radix_int_loop r fuel n acc) = int_digits r (Some n) acc.
Proof.
  induction fuel as [|fuel IH]; intros n acc Hn H64.
  - cbn in Hn. replace n with 0 by lia. done.
  - cbn [format_radix_int_loop]. fold (format_radix_int_loop r). destruct (Z.ltb_spec 0 n); [|by replace n with 0 by lia].
    pose proof (Z.mod_pos_bound n r ltac:(lia)). pose proof (Z.div_mod n r ltac:(lia)).
    rewrite IH.
    + cbn [int_digits]. fold (digit_byte (n `mod` r)). rewrite hex_digit_byte by lia.
      destruct (Z.ltb_spec (n `mod` r) r); [|lia]. cbn [default id].
      replace (saturating_u64 (n / r * r + n `mod` r)) with n; [done|]. unfold saturating_u64, u64_max. lia.
    + split; [apply Z.div_pos; lia|]. apply Z.div_lt_upper_bound; [lia|]. rewrite <- Z.pow_succ_r by lia. rewrite <- Nat2Z.inj_succ; lia.
    + apply Z.le_lt_trans with n; [|done]. apply Z.div_le_upper_bound; nia.
Qed.
Lemma loop_head fuel n : 0 < n -> exists b l, format_radix_int_loop r (S fuel) n [] = b :: l /\ radix_digit r b.
Proof.
  intros Hn. cbn [format_radix_int_loop]. fold (format_radix_int_loop r). destruct (Z.ltb_spec 0 n); [|lia].
  assert (Hd : Forall (radix_digit r) (format_radix_int_loop r fuel (n / r) [digit_byte (n `mod` r)])).
  { apply loop_digits. constructor; [|done]. exists (n `mod` r). split; [apply Z.mod_pos_bound; lia|done]. }
  assert (Hne : (1 <= length (format_radix_int_loop r fuel (n / r) [digit_byte (n `mod` r)]))%nat).
  { assert (Hg : forall k m acc, (length acc <= length (format_radix_int_loop r k m acc))%nat).
    { induction k as [|k IH]; intros m acc; [done|]. cbn [format_radix_int_loop]. fold (format_radix_int_loop r).
      destruct (0 <? m); [|done]. etransitivity; [|apply IH]. cbn. lia. }
    apply (Hg fuel (n / r) [digit_byte (n `mod` r)]). }
  fold (digit_byte (n `mod` r)). destruct (format_radix_int_loop r fuel (n / r) _) as [|b l]; [cbn in Hne; lia|].
  exists b, l. split; [done|]. by inversion Hd.
Qed.
Lemma digits_from_none b l : radix_digit r b -> int_digits r None (b :: l) = int_digits r (Some 0) (b :: l).
Proof. intros (d & Hd & ->). cbn [int_digits]. rewrite hex_digit_byte by lia. by destruct (Z.ltb_spec d r); [|lia]. Qed.
Lemma trim_start_plain b l : 33 <= b < 128 -> trim_start (b :: l) = b :: l.
Proof.
  intros Hb. cbn [trim_start]. unfold ascii_ws, in_range, ws2, ws3.
  destruct (Z.leb_spec 9 b), (Z.leb_spec b 13), (Z.eqb_spec b 32); try lia; cbn; (destruct (Z.eqb_spec b 194); [lia|]);
    destruct (Z.eqb_spec b 225), (Z.eqb_spec b 226), (Z.eqb_spec b 227); try lia; by destruct l as [|c [|d l]].
Qed.
(** What the digits of a radix are not: a prefix of another. *)
Lemma digits_no_prefix l : Forall (radix_digit r) l -> r = 16 -> starts_any [b! "0x"; b! "0X"] l = false.
Proof.
  intros Hl ->. change (b! "0x") with [48; 120]. change (b! "0X") with [48; 88]. unfold starts_any.
  destruct l as [|a [|b l]]; cbn [existsb starts_with]; [done|by rewrite !andb_false_r|].
  apply Forall_cons in Hl as [_ [Hb _]%Forall_cons]. apply radix_digit_range in Hb; [|lia].
  destruct (Z.eqb_spec 120 b), (Z.eqb_spec 88 b); try lia; cbn [andb]; by rewrite ?andb_false_r.
Qed.
Lemma digits_value n : 0 < n < 2 ^ 64 -> parse_int (format_radix_int_loop r 64 n []) r = f64_times (f64_of_int 1) (f64_of_int n) /\
  parse_int (c_minus :: format_radix_int_loop r 64 n []) r = f64_times (f64_of_int (-1)) (f64_of_int n).
Proof.
  intros Hn. destruct (loop_head 63 n ltac:(lia)) as (b & l & E & Hb). pose proof (radix_digit_range r b ltac:(lia) Hb) as Hrb.
  pose proof (loop_digits 64 n [] (Forall_nil_2 _)) as Hd.
  assert (Hv : int_digits r None (format_radix_int_loop r 64 n []) = Some n).
  { rewrite E. rewrite (digits_from_none b l Hb). rewrite <- E. rewrite loop_reads; [done| |lia].
    split; [lia|]. apply Z.lt_le_trans with (2 ^ 64); [lia|]. apply Z.pow_le_mono_l. lia. }
  assert (Hp : forall neg, (let '(radix, s) := if r =? 0 then (if starts_any [b! "0x"; b! "0X"] (format_radix_int_loop r 64 n []) then (16, drop 2 (format_radix_int_loop r 64 n [])) else (10, format_radix_int_loop r 64 n []))
      else (r, if (r =? 16) && starts_any [b! "0x"; b! "0X"] (format_radix_int_loop r 64 n []) then drop 2 (format_radix_int_loop r 64 n []) else format_radix_int_loop r 64 n []) in
    if (radix <? 2) || (36 <? radix) then S754_nan
    else match int_digits radix None s with Some n => f64_times (f64_of_int (if neg : bool then -1 else 1)) (f64_of_int n) | None => S754_nan end)
    = f64_times (f64_of_int (if neg then -1 else 1)) (f64_of_int n)).
  { intros neg. destruct (Z.eqb_spec r 0); [lia|].
    replace ((r =? 16) && starts_any [b! "0x"; b! "0X"] (format_radix_int_loop r 64 n [])) with false.
    2:{ destruct (Z.eqb_spec r 16) as [E16|]; [|done]. cbn [andb]. by rewrite (digits_no_prefix _ Hd E16). }
    destruct (Z.ltb_spec r 2), (Z.ltb_spec 36 r); try lia. cbn [orb]. by rewrite Hv. }
  unfold parse_int, parse_sign. rewrite (trim_start_plain c_minus) by (change c_minus with 45; lia).
  rewrite E, (trim_start_plain b l) by lia. unfold strip_prefix. cbn [starts_with].
  change c_minus with 45. change c_plus with 43.
  destruct (Z.eqb_spec 45 b); [lia|]. destruct (Z.eqb_spec 43 b); [lia|]. cbn [andb]. rewrite <- E. split; [exact (Hp false)|exact (Hp true)].
Qed.
End Radix.

(** C13: A number's text in any radix reads back as the number: for an integer of less than 2^53 and a radix
    from 2 to 36, the [parseInt] of eval_expr.rs, of what [toString] writes and with the same radix,
    is the integer; 64 digits are always enough.  (The [parseInt] of eval_program.rs,
    [parse_int_plain], takes no radix.) *)
Theorem radix_text_reads_back (n r : Z) (Hr : 2 <= r <= 36) (Hn : Z.abs n < 2 ^ 53) :
  parse_int (format_radix_int n r) r = f64_of_int n.
Proof.
  unfold format_radix_int. destruct (Z.ltb_spec r 2), (Z.ltb_spec 36 r); try lia. cbn [orb].
  destruct (Z.eqb_spec n 0) as [-> |Hn0].
  - assert (Hall : forallb (fun k => match parse_int [c_0] (Z.of_nat k) with S754_zero false => true | _ => false end) (seq 2 35) = true) by (by vm_compute).
    rewrite forallb_forall in Hall. specialize (Hall (Z.to_nat r)). rewrite Z2Nat.id in Hall by lia.
    specialize (Hall ltac:(apply in_seq; lia)). by destruct (parse_int [c_0] r) as [[]| | |].
  - destruct (digits_value r Hr (Z.abs n) ltac:(lia)) as [Hp Hm].
    assert (H1 : int53 1 /\ int53 (-1) /\ int53 (Z.abs n)) by (unfold int53; lia). destruct H1 as (H1 & H2 & H3).
    destruct (Z.ltb_spec n 0); cbn [sign_text app].
    + rewrite Hm, f64_times_exact by (done || lia). f_equal. lia.
    + rewrite Hp, f64_times_exact by (done || lia). f_equal. lia.
Qed.
Lemma radix_text_reads_back_witness : format_radix_int (-255) 16 = b! "-ff" /\ parse_int (format_radix_int (-255) 16) 16 = f64_of_int (-255).
Proof. split; [vm_compute; reflexivity|]. apply (radix_text_reads_back (-255) 16); lia. Defined.

(** ** Parts of a string *)

Lemma slice_index_in len i : 0 <= len -> 0 <= slice_index len i <= len.
Proof. intros H. unfold slice_index. destruct (Z.ltb_spec i 0); lia. Qed.
Lemma substring_bounds_in len a b : 0 <= len -> let '(s, e) := substring_bounds len a b in 0 <= s /\ s <= e /\ e <= len.
Proof. intros H. unfold substring_bounds, clamp_index. lia. Qed.
Lemma slice_bounds_in len a b : 0 <= len -> let '(s, e) := slice_bounds len a b in 0 <= s /\ s <= e /\ e <= len.
Proof. intros H. unfold slice_bounds. pose proof (slice_index_in len a H). pose proof (slice_index_in len b H). lia. Qed.

Section Parts.
Context `{Ev : JsEval}.

Lemma slice_units_in us s e : 0 <= s /\ s <= e /\ e <= Z.of_nat (length us) -> slice_units us (s, e) = eret (sub_list us s e).
Proof.
  intros H. unfold slice_units. destruct (Z.leb_spec 0 s), (Z.leb_spec s e), (Z.leb_spec e (Z.of_nat (length us))); done || lia.
Qed.
Lemma units_found this c us : string_utf16_units c this = Some us -> units_of this c = Some (Val (Some us), c).
Proof. intros E. unfold units_of, view. by rewrite E. Qed.
Lemma unit_count_small (us : list Z) : Z.of_nat (length us) < 2 ^ 31 -> unit_count us = Z.of_nat (length us).
Proof. intros H. unfold unit_count. apply as_i32_id. unfold in_i32. lia. Qed.

Lemma int32_in v n : int32 W v = Some n -> in_i32 n.
Proof.
  unfold int32. destruct (JsValue.is_int v); [|done]. intros [= <-]. unfold as_i32, in_i32.
  pose proof (Z.mod_pos_bound (Z.shiftr (JsValue.signed W v) 1 + 2 ^ 31) (2 ^ 32) ltac:(lia)). lia.
Qed.

(** The count of [substr]: what is left of the string without one, 0 for one that is no integer. *)
Definition substr_count (len s : Z) (args : list Value) : Z :=
  match args !! 1%nat with Some a => Z.max 0 (int_or 0 (Some a)) | None => len - s end.
Lemma substr_count_in len s args : 0 <= s <= len -> len < 2 ^ 31 -> 0 <= substr_count len s args < 2 ^ 31.
Proof.
  intros Hs Hl. unfold substr_count. destruct (args !! 1%nat) as [a|]; [|lia]. unfold int_or. cbn [mbind option_bind].
  destruct (int32 W a) as [n|] eqn:E; cbn [default from_option]; [|lia]. apply int32_in in E. unfold in_i32, id in *. lia.
Qed.

(** C14: Parts of a string stay inside it.  On a string of fewer than 2^31 units, whatever the arguments and
    however many, [substring] and [slice] answer the units between two places of the string that
    are in order.  [substr] without arguments answers the empty text; otherwise it answers the units
    from its start (a negative one counts from the end) for its count, cut at the end of the string,
    unless the sum of start and count leaves the [i32] range: then, and only then, it panics. *)
Theorem string_parts_stay_inside (this : Value) (args : list Value) (c : Ctx) (us : list Z)
    (Hu : string_utf16_units c this = Some us) (Hl : Z.of_nat (length us) < 2 ^ 31) :
  let len := Z.of_nat (length us) in
  (exists s e, 0 <= s <= e /\ e <= len /\ string_substring this args c = answer (units_text (sub_list us s e)) c) /\
  (exists s e, 0 <= s <= e /\ e <= len /\ string_slice_of this args c = answer (units_text (sub_list us s e)) c) /\
  (let s := slice_index len (int_or 0 (args !! 0%nat)) in
   let last := s + substr_count len s args in
   string_substr this args c =
     match args with
     | [] => answer (text []) c
     | _ => if last <? 2 ^ 31 then answer (units_text (sub_list us s (Z.min len last))) c else Some (Crash, c)
     end).
Proof.
  pose proof (unit_count_small us Hl) as Hc. cbv zeta. split_and!.
  - unfold string_substring. destruct (in_range 1 2 (Z.of_nat (length args))).
    2:{ exists 0, 0. split; [lia|]. split; [lia|]. done. }
    unfold ebind at 1. rewrite (units_found _ _ _ Hu). cbn match. rewrite Hc. unfold cut_units.
    pose proof (substring_bounds_in (Z.of_nat (length us)) (int_or 0 (args !! 0%nat)) (int_or (Z.of_nat (length us)) (args !! 1%nat)) ltac:(lia)) as Hb.
    destruct (substring_bounds _ _ _) as [s e]. exists s, e. split; [lia|]. split; [lia|]. by rewrite slice_units_in.
  - unfold string_slice_of. unfold ebind at 1. rewrite (units_found _ _ _ Hu). cbn match. rewrite Hc. unfold cut_units.
    pose proof (slice_bounds_in (Z.of_nat (length us)) (int_or 0 (args !! 0%nat)) (int_or (Z.of_nat (length us)) (args !! 1%nat)) ltac:(lia)) as Hb.
    destruct (slice_bounds _ _ _) as [s e]. exists s, e. split; [lia|]. split; [lia|]. by rewrite slice_units_in.
  - destruct args as [|a0 args]; [done|]. set (args0 := a0 :: args).
    set (len := Z.of_nat (length us)). set (s := slice_index len (int_or 0 (args0 !! 0%nat))).
    pose proof (slice_index_in len (int_or 0 (args0 !! 0%nat)) ltac:(lia)) as Hs. fold s in Hs.
    pose proof (substr_count_in len s args0 Hs Hl) as Hn.
    assert (E : string_substr this args0 c = cut_units us (s, Z.min len (as_i32 (s + substr_count len s args0))) c).
    { unfold string_substr. change (1 <=? length args0)%nat with true. cbn match. unfold ebind at 1.
      rewrite (units_found _ _ _ Hu). cbn match. rewrite Hc. unfold substr_bounds. fold len. fold s. unfold substr_count.
      by destruct (args0 !! 1%nat). }
    rewrite E. unfold cut_units. destruct (Z.ltb_spec (s + substr_count len s args0) (2 ^ 31)).
    + rewrite as_i32_id by (unfold in_i32; lia). by rewrite slice_units_in by lia.
    + assert (Hneg : as_i32 (s + substr_count len s args0) < 0).
      { unfold as_i32. rewrite <- (Z.mod_add _ (-1)) by done. rewrite Z.mod_small by lia. lia. }
      unfold slice_units. replace (s <=? Z.min len (as_i32 (s + substr_count len s args0))) with false by (symmetry; apply Z.leb_gt; lia).
      by rewrite andb_false_r.
Qed.
End Parts.

(** *** Witness: parts of [hello] *)

#[local] Instance no_eval : JsEval := {| eval_host := silent_host; eval_expr := fun _ => eout; eval_value := fun _ => eout |}.
Definition hello : Value * Ctx := js_new_string (b! "hello") JsJsonSpec.ctx0.
Lemma string_parts_stay_inside_witness :
  string_substr (fst hello) [from_int32 W 1; from_int32 W 3] (snd hello) =
    answer (units_text (sub_list [104; 101; 108; 108; 111] 1 4)) (snd hello) /\
  string_substr (fst hello) [from_int32 W 1; from_int32 W (2 ^ 31 - 1)] (snd hello) = Some (Crash, snd hello).
Proof.
  assert (Hu : string_utf16_units (snd hello) (fst hello) = Some [104; 101; 108; 108; 111]) by (vm_compute; reflexivity).
  assert (Hl : Z.of_nat (length [104; 101; 108; 108; 111]) < 2 ^ 31) by (vm_compute; reflexivity).
  split.
  - exact (proj2 (proj2 (string_parts_stay_inside (fst hello) [from_int32 W 1; from_int32 W 3] (snd hello) _ Hu Hl))).
  - exact (proj2 (proj2 (string_parts_stay_inside (fst hello) [from_int32 W 1; from_int32 W (2 ^ 31 - 1)] (snd hello) _ Hu Hl))).
Defined.
