(* ===== verification/TrafficLab.v ===== *)
(** * TrafficLab: the traffic simulator

    [src/trafficlab/src/lib.rs]: intersections with signals and queues, stepped with and
    without a cache of discharge counts, in a grid whose cells pass vehicles on.  An addition
    of Rust's that would overflow is [None] here, as is an index out of range. *)
From Stdlib Require Import SpecFloat.
From S2P Require Import Prelude ServerArgs JsFloat.

(** ** Numbers *)

Definition u32_max : Z := 2 ^ 32 - 1.
Definition checked (max n : Z) : option Z := if n <=? max then Some n else None.
Definition add_u32 (a b : Z) : option Z := checked u32_max (a + b).
Definition add_u64 (a b : Z) : option Z := checked u64_max (a + b).
Definition sub_u64 (a b : Z) : option Z := if b <=? a then Some (a - b) else None.
Definition wrap_u64 (n : Z) : Z := n `mod` 2 ^ 64.

(** [x.round()], ties away from zero, as an integer. *)
Definition f64_round_away (x : f64) : Z :=
  match x with
  | S754_finite s m e =>
      let n := if 0 <=? e then Zpos m * 2 ^ e else (Zpos m + 2 ^ (- e - 1)) / 2 ^ (- e) in
      if s then - n else n
  | _ => 0
  end.
(** [x.round() as u32]. *)
Definition f64_round_u32 (x : f64) : Z :=
  match x with
  | S754_nan => 0
  | S754_infinity s => if s then 0 else u32_max
  | _ => Z.max 0 (Z.min u32_max (f64_round_away x))
  end.

(** [x.clamp(lo, hi)]: a NaN stays. *)
Definition f64_clamp (x lo hi : f64) : f64 := if f64_lt x lo then lo else if f64_lt hi x then hi else x.

(** ** The generator *)

Definition LCG_MUL : Z := 6364136223846793005.
Definition LCG_ADD : Z := 1442695040888963407.

Definition from_seed (seed : Z) : Z := wrap_u64 (seed + 1).
Definition next_u64 (rng : Z) : Z := wrap_u64 (wrap_u64 (rng * LCG_MUL) + LCG_ADD).
(** The sample, and the generator after it; [n] is positive. *)
Definition below (n rng : Z) : Z * Z := let rng := next_u64 rng in (Z.shiftr rng 33 `mod` n, rng).

Inductive VehicleType := Car | Motorcycle | Truck | Bus | AutoRickshaw.
#[export] Instance VehicleType_eq_dec : EqDecision VehicleType.
Proof. solve_decision. Defined.

Definition spawn_type (rng : Z) : VehicleType * Z :=
  let '(k, rng) := below 100 rng in
  (if k <=? 59 then Car else if k <=? 79 then Motorcycle else if k <=? 89 then Truck else if k <=? 94 then Bus else AutoRickshaw, rng).

(** ** Configuration, queues, signals *)

Record SimConfig := {
  vehicles_per_min : Z;
  signal_cycle_secs : Z;
  lane_count : Z;
  speed_multiplier : Z;
  free_left_turn : bool;
  motorcycle_splitting : bool
}.
Definition SimConfig_new : SimConfig :=
  {| vehicles_per_min := 120; signal_cycle_secs := 60; lane_count := 3; speed_multiplier := 1;
     free_left_turn := false; motorcycle_splitting := false |}.

Record QueueSnapshot := { north : Z; south : Z; east : Z; west : Z }.
Definition no_queues : QueueSnapshot := {| north := 0; south := 0; east := 0; west := 0 |}.
Definition queue_total (q : QueueSnapshot) : option Z :=
  t ← add_u32 (north q) (south q); t ← add_u32 t (east q); add_u32 t (west q).

Inductive SignalPhase := NSGreen | AllRed | EWGreen.
#[export] Instance SignalPhase_eq_dec : EqDecision SignalPhase.
Proof. solve_decision. Defined.
(** [signal as u32]. *)
Definition phase_number (p : SignalPhase) : Z := match p with NSGreen => 0 | AllRed => 1 | EWGreen => 2 end.

(** The new phase and the time since it began. *)
Definition advance_signal (phase : SignalPhase) (elapsed half_cycle_ms yellow_ms : f64) : SignalPhase * f64 :=
  match phase with
  | NSGreen => if f64_le half_cycle_ms elapsed then (AllRed, f64_zero) else (NSGreen, elapsed)
  | AllRed => if f64_le yellow_ms elapsed then (EWGreen, f64_zero) else (AllRed, elapsed)
  | EWGreen => if f64_le half_cycle_ms elapsed then (NSGreen, f64_zero) else (EWGreen, elapsed)
  end.

(** ** The cache *)

Definition discharge_key (signal : SignalPhase) (lanes : Z) (free_left splitting : bool) (dt_ms : f64) : Z :=
  let dt_u16 := Z.min (f64_round_u32 dt_ms) 65535 in
  Z.lor (Z.lor (Z.lor (Z.lor (phase_number signal) (Z.shiftl lanes 4)) (Z.shiftl (Z.b2z free_left) 12)) (Z.shiftl (Z.b2z splitting) 13))
    (Z.shiftl dt_u16 14).

Record SimCache := { store : gmap Z Z; hits : Z; misses : Z }.
Definition SimCache_new : SimCache := {| store := ∅; hits := 0; misses := 0 |}.
Definition cache_get (key : Z) (c : SimCache) : option (option Z * SimCache) :=
  match store c !! key with
  | Some v => h ← add_u64 (hits c) 1; Some (Some v, {| store := store c; hits := h; misses := misses c |})
  | None => m ← add_u64 (misses c) 1; Some (None, {| store := store c; hits := hits c; misses := m |})
  end.
Definition cache_set (key value : Z) (c : SimCache) : SimCache :=
  {| store := <[key := value]> (store c); hits := hits c; misses := misses c |}.
Definition cache_len (c : SimCache) : Z := Z.of_nat (size (store c)).
Definition hit_ratio (c : SimCache) : option f64 :=
  total ← add_u64 (hits c) (misses c);
  Some (if total =? 0 then f64_zero else f64_over (f64_of_int (hits c)) (f64_of_int total)).

(** ** One intersection *)

Record SimState := {
  tick : Z;
  sim_ms : f64;
  vehicles_spawned : Z;
  vehicles_discharged : Z;
  queues : QueueSnapshot;
  signal : SignalPhase;
  signal_elapsed : f64;
  arrival_accum : f64;
  total_wait_vehicle_ms : f64;
  rng : Z;
  waste : Z
}.
Definition SimState_new (seed : Z) : SimState :=
  {| tick := 0; sim_ms := f64_zero; vehicles_spawned := 0; vehicles_discharged := 0; queues := no_queues; signal := NSGreen;
     signal_elapsed := f64_zero; arrival_accum := f64_zero; total_wait_vehicle_ms := f64_zero; rng := from_seed seed; waste := 0 |}.

Definition avg_wait_sec (s : SimState) : f64 :=
  if vehicles_discharged s =? 0 then f64_zero
  else f64_over (f64_over (total_wait_vehicle_ms s) (f64_of_int (vehicles_discharged s))) (f64_of_int 1000).

(** The vehicles that do not divide by four go to approaches drawn one by one. *)
Fixpoint spread (n : nat) (arrivals : list Z) (rng : Z) : option (list Z * Z) :=
  match n with
  | O => Some (arrivals, rng)
  | S n' =>
      let '(k, rng) := below 4 rng in
      v ← arrivals !! Z.to_nat k; v ← add_u32 v 1;
      spread n' (<[Z.to_nat k := v]> arrivals) rng
  end.

Definition lane_cap (cfg : SimConfig) : Z := lane_count cfg * 8.
Definition enqueue (cap q n : Z) : option Z := (fun v => Z.min v cap) <$> add_u32 q n.
Definition enqueue_all (cap : Z) (q : QueueSnapshot) (arrivals : list Z) : option QueueSnapshot :=
  match arrivals with
  | [a; b; c; d] =>
      n ← enqueue cap (north q) a; s ← enqueue cap (south q) b; e ← enqueue cap (east q) c; w ← enqueue cap (west q) d;
      Some {| north := n; south := s; east := e; west := w |}
  | _ => None
  end.

Definition half_cycle (cfg : SimConfig) : f64 := f64_times (f64_of_int (signal_cycle_secs cfg)) (f64_of_int 500).
Definition yellow (cfg : SimConfig) : f64 :=
  f64_clamp (f64_times (half_cycle cfg) (f64_round false 1 (-1))) (f64_of_int 2000) (f64_of_int 5000).

Definition step_prepare (dt : f64) (cfg : SimConfig) (s : SimState) : option SimState :=
  t ← add_u64 (tick s) 1;
  let '(phase, elapsed) := advance_signal (signal s) (f64_add (signal_elapsed s) dt) (half_cycle cfg) (yellow cfg) in
  let rate := f64_over (f64_of_int (vehicles_per_min cfg)) (f64_of_int 60000) in
  let accum := f64_add (arrival_accum s) (f64_times rate dt) in
  let n_new := f64_as_u32 accum in
  let accum := f64_sub accum (f64_of_int n_new) in
  '(arrivals, rng) ← spread (Z.to_nat (n_new `mod` 4)) (replicate 4 (n_new / 4)) (rng s);
  spawned ← add_u64 (vehicles_spawned s) n_new;
  q ← enqueue_all (lane_cap cfg) (queues s) arrivals;
  total ← queue_total q;
  Some {| tick := t; sim_ms := f64_add (sim_ms s) dt; vehicles_spawned := spawned; vehicles_discharged := vehicles_discharged s;
          queues := q; signal := phase; signal_elapsed := elapsed; arrival_accum := accum;
          total_wait_vehicle_ms := f64_add (total_wait_vehicle_ms s) (f64_times (f64_of_int total) dt); rng := rng; waste := waste s |}.

Definition with_queues (q : QueueSnapshot) (discharged : Z) (s : SimState) : SimState :=
  {| tick := tick s; sim_ms := sim_ms s; vehicles_spawned := vehicles_spawned s; vehicles_discharged := discharged;
     queues := q; signal := signal s; signal_elapsed := signal_elapsed s; arrival_accum := arrival_accum s;
     total_wait_vehicle_ms := total_wait_vehicle_ms s; rng := rng s; waste := waste s |}.
Definition with_waste (w : Z) (s : SimState) : SimState :=
  {| tick := tick s; sim_ms := sim_ms s; vehicles_spawned := vehicles_spawned s; vehicles_discharged := vehicles_discharged s;
     queues := queues s; signal := signal s; signal_elapsed := signal_elapsed s; arrival_accum := arrival_accum s;
     total_wait_vehicle_ms := total_wait_vehicle_ms s; rng := rng s; waste := w |}.

Definition apply_discharge (discharge : Z) (s : SimState) : option SimState :=
  let q := queues s in
  '(q, discharged) ←
    match signal s with
    | NSGreen =>
        let dn := Z.min (north q) discharge in let ds := Z.min (south q) discharge in
        d ← add_u32 dn ds; Some ({| north := north q - dn; south := south q - ds; east := east q; west := west q |}, d)
    | EWGreen =>
        let de := Z.min (east q) discharge in let dw := Z.min (west q) discharge in
        d ← add_u32 de dw; Some ({| north := north q; south := south q; east := east q - de; west := west q - dw |}, d)
    | AllRed => Some (q, 0)
    end;
  total ← add_u64 (vehicles_discharged s) discharged;
  Some (with_queues q total s).

Definition compute_discharge (signal : SignalPhase) (lanes : Z) (free_left splitting : bool) (dt_ms : f64) : Z :=
  match signal with
  | AllRed => 0
  | _ =>
      let rate := if free_left then f64_round false 55 (-2) else f64_round false 417 (-3) in
      let rate := if splitting then f64_times rate (f64_round false 120 (-2)) else rate in
      f64_as_u32 (f64_over (f64_times (f64_times (f64_of_int lanes) rate) dt_ms) (f64_of_int 1000))
  end.
Definition discharge_of (cfg : SimConfig) (dt : f64) (s : SimState) : Z :=
  compute_discharge (signal s) (lane_count cfg) (free_left_turn cfg) (motorcycle_splitting cfg) dt.

Definition NOCACHE_SYNTHETIC_ITERS : nat := 600.
Fixpoint synthetic (n : nat) (i acc : Z) : Z :=
  match n with
  | O => acc
  | S n' => synthetic n' (i + 1) (wrap_u64 (wrap_u64 (wrap_u64 (acc * LCG_MUL) + LCG_ADD) + i))
  end.

Definition step_nocache (dt : f64) (cfg : SimConfig) (s : SimState) : option SimState :=
  s ← step_prepare dt cfg s;
  apply_discharge (discharge_of cfg dt s) (with_waste (synthetic NOCACHE_SYNTHETIC_ITERS 0 (waste s)) s).

Definition step_cached (dt : f64) (cfg : SimConfig) (s : SimState) (c : SimCache) : option (SimState * SimCache) :=
  s ← step_prepare dt cfg s;
  let key := discharge_key (signal s) (lane_count cfg) (free_left_turn cfg) (motorcycle_splitting cfg) dt in
  '(found, c) ← cache_get key c;
  let '(d, c) := match found with
                 | Some d => (d, c)
                 | None => let d := discharge_of cfg dt s in (d, cache_set key d c)
                 end in
  s ← apply_discharge d s; Some (s, c).

(** ** The grid *)

Definition ROUTE_FRAC : f64 := f64_round false 35 (-2).

(** Destination, approach (0 to 3 as north to west), count. *)
Definition Transfer : Type := nat * Z * Z.

Definition cell_transfers (size : nat) (cfg : SimConfig) (dt : f64) (states : list SimState) (r c : nat) : option (list Transfer) :=
  s ← states !! (r * size + c)%nat;
  let d := discharge_of cfg dt s in
  Some (if d =? 0 then [] else
    let route := Z.max (f64_as_u32 (f64_times (f64_of_int d) ROUTE_FRAC)) 1 in
    match signal s with
    | NSGreen =>
        (if (0 <? r)%nat then [(((r - 1) * size + c)%nat, 1, route)] else []) ++
        (if (r + 1 <? size)%nat then [(((r + 1) * size + c)%nat, 0, route)] else [])
    | EWGreen =>
        (if (c + 1 <? size)%nat then [((r * size + c + 1)%nat, 3, route)] else []) ++
        (if (0 <? c)%nat then [((r * size + c - 1)%nat, 2, route)] else [])
    | AllRed => []
    end).

Definition grid_cells (size : nat) : list (nat * nat) := r ← seq 0 size; c ← seq 0 size; [(r, c)].

Definition transfer (cap : Z) (t : Transfer) (states : list SimState) : option (list SimState) :=
  let '(idx, arm, count) := t in
  s ← states !! idx;
  let q := queues s in
  q ← (if arm =? 0 then (fun v => {| north := v; south := south q; east := east q; west := west q |}) <$> enqueue cap (north q) count
       else if arm =? 1 then (fun v => {| north := north q; south := v; east := east q; west := west q |}) <$> enqueue cap (south q) count
       else if arm =? 2 then (fun v => {| north := north q; south := south q; east := v; west := west q |}) <$> enqueue cap (east q) count
       else if arm =? 3 then (fun v => {| north := north q; south := south q; east := east q; west := v |}) <$> enqueue cap (west q) count
       else Some q);
  Some (<[idx := with_queues q (vehicles_discharged s) s]> states).
Fixpoint transfer_all (cap : Z) (ts : list Transfer) (states : list SimState) : option (list SimState) :=
  match ts with
  | [] => Some states
  | t :: ts' => states ← transfer cap t states; transfer_all cap ts' states
  end.

Definition route_grid (size : nat) (cfg : SimConfig) (dt : f64) (states : list SimState) : option (list SimState) :=
  ts ← mapM (fun '(r, c) => cell_transfers size cfg dt states r c) (grid_cells size);
  transfer_all (lane_cap cfg) (concat ts) states.

(** ** The two simulations side by side *)

Record TrafficLab := {
  config : SimConfig;
  grid_size : nat;
  nocache : list SimState;
  cached : list SimState;
  sim_cache : SimCache;
  wall_ms_accum : f64;
  tps_nocache : f64;
  tps_cached : f64;
  tps_nc_snap : Z;
  tps_c_snap : Z
}.

Definition NOCACHE_SEED : Z := 0xdeadbeefcafebabe.
Definition CACHED_SEED : Z := 0xfeedfacedeadc0de.
Definition CELL_MUL : Z := 0x9e3779b97f4a7c15.

Definition TrafficLab_new : TrafficLab :=
  {| config := SimConfig_new; grid_size := 1; nocache := [SimState_new NOCACHE_SEED]; cached := [SimState_new CACHED_SEED];
     sim_cache := SimCache_new; wall_ms_accum := f64_zero; tps_nocache := f64_zero; tps_cached := f64_zero; tps_nc_snap := 0; tps_c_snap := 0 |}.

Definition cell_states (seed : Z) (cells : nat) : list SimState :=
  (fun i => SimState_new (Z.lxor seed (wrap_u64 (Z.of_nat i * CELL_MUL)))) <$> seq 0 cells.
Definition reset (lab : TrafficLab) : TrafficLab :=
  let cells := (grid_size lab * grid_size lab)%nat in
  {| config := config lab; grid_size := grid_size lab; nocache := cell_states NOCACHE_SEED cells; cached := cell_states CACHED_SEED cells;
     sim_cache := SimCache_new; wall_ms_accum := f64_zero; tps_nocache := f64_zero; tps_cached := f64_zero; tps_nc_snap := 0; tps_c_snap := 0 |}.

Definition with_config (cfg : SimConfig) (lab : TrafficLab) : TrafficLab :=
  {| config := cfg; grid_size := grid_size lab; nocache := nocache lab; cached := cached lab; sim_cache := sim_cache lab;
     wall_ms_accum := wall_ms_accum lab; tps_nocache := tps_nocache lab; tps_cached := tps_cached lab;
     tps_nc_snap := tps_nc_snap lab; tps_c_snap := tps_c_snap lab |}.
Definition set_vehicles_per_min (v : Z) (lab : TrafficLab) : TrafficLab :=
  let c := config lab in
  with_config {| vehicles_per_min := v; signal_cycle_secs := signal_cycle_secs c; lane_count := lane_count c;
                 speed_multiplier := speed_multiplier c; free_left_turn := free_left_turn c; motorcycle_splitting := motorcycle_splitting c |} lab.
Definition set_signal_cycle_secs (v : Z) (lab : TrafficLab) : TrafficLab :=
  let c := config lab in
  with_config {| vehicles_per_min := vehicles_per_min c; signal_cycle_secs := Z.max v 10; lane_count := lane_count c;
                 speed_multiplier := speed_multiplier c; free_left_turn := free_left_turn c; motorcycle_splitting := motorcycle_splitting c |} lab.
Definition set_lane_count (v : Z) (lab : TrafficLab) : TrafficLab :=
  let c := config lab in
  with_config {| vehicles_per_min := vehicles_per_min c; signal_cycle_secs := signal_cycle_secs c; lane_count := Z.min (Z.max v 1) 6;
                 speed_multiplier := speed_multiplier c; free_left_turn := free_left_turn c; motorcycle_splitting := motorcycle_splitting c |} lab.
Definition set_speed_multiplier (v : Z) (lab : TrafficLab) : TrafficLab :=
  let c := config lab in
  with_config {| vehicles_per_min := vehicles_per_min c; signal_cycle_secs := signal_cycle_secs c; lane_count := lane_count c;
                 speed_multiplier := if existsb (Z.eqb v) [1; 10; 100; 1000] then v else 1;
                 free_left_turn := free_left_turn c; motorcycle_splitting := motorcycle_splitting c |} lab.
Definition set_free_left_turn (v : bool) (lab : TrafficLab) : TrafficLab :=
  let c := config lab in
  with_config {| vehicles_per_min := vehicles_per_min c; signal_cycle_secs := signal_cycle_secs c; lane_count := lane_count c;
                 speed_multiplier := speed_multiplier c; free_left_turn := v; motorcycle_splitting := motorcycle_splitting c |} lab.
Definition set_motorcycle_splitting (v : bool) (lab : TrafficLab) : TrafficLab :=
  let c := config lab in
  with_config {| vehicles_per_min := vehicles_per_min c; signal_cycle_secs := signal_cycle_secs c; lane_count := lane_count c;
                 speed_multiplier := speed_multiplier c; free_left_turn := free_left_turn c; motorcycle_splitting := v |} lab.
Definition set_grid_size (v : nat) (lab : TrafficLab) : TrafficLab :=
  let n := Nat.min (Nat.max v 1) 3 in
  if decide (n = grid_size lab) then lab
  else reset {| config := config lab; grid_size := n; nocache := nocache lab; cached := cached lab; sim_cache := sim_cache lab;
                wall_ms_accum := wall_ms_accum lab; tps_nocache := tps_nocache lab; tps_cached := tps_cached lab;
                tps_nc_snap := tps_nc_snap lab; tps_c_snap := tps_c_snap lab |}.

(** A frame.  [clock k] is what the [k]-th call of [now_ms] reads, within the frame. *)

Definition routed (size : nat) (cfg : SimConfig) (dt : f64) (states : list SimState) : option (list SimState) :=
  if (1 <? size)%nat then route_grid size cfg dt states else Some states.
Definition nocache_round (size : nat) (cfg : SimConfig) (dt : f64) (states : list SimState) : option (list SimState) :=
  states ← mapM (step_nocache dt cfg) states; routed size cfg dt states.

Fixpoint cached_cells (dt : f64) (cfg : SimConfig) (states : list SimState) (c : SimCache) : option (list SimState * SimCache) :=
  match states with
  | [] => Some ([], c)
  | s :: states' =>
      '(s, c) ← step_cached dt cfg s c; '(states', c) ← cached_cells dt cfg states' c; Some (s :: states', c)
  end.
Definition cached_round (size : nat) (cfg : SimConfig) (dt : f64) (sc : list SimState * SimCache) : option (list SimState * SimCache) :=
  '(states, c) ← cached_cells dt cfg sc.1 sc.2; states ← routed size cfg dt states; Some (states, c).

Definition CHECK_INTERVAL : Z := 32.
Definition MAX_ITERS : nat := Z.to_nat 50000.

(** [fuel] is what is left of [MAX_ITERS], and [k] the readings of the clock so far. *)
Fixpoint frame_loop {S} (round : S -> option S) (clock : nat -> f64) (t0 budget : f64) (fuel : nat) (iters : Z) (k : nat) (s : S) : option (S * nat) :=
  match fuel with
  | O => Some (s, k)
  | Datatypes.S fuel' =>
      if iters `mod` CHECK_INTERVAL =? 0 then
        if f64_le budget (f64_sub (clock k) t0) then Some (s, Datatypes.S k)
        else s ← round s; frame_loop round clock t0 budget fuel' (iters + 1) (Datatypes.S k) s
      else s ← round s; frame_loop round clock t0 budget fuel' (iters + 1) k s
  end.
Definition side {S} (max_iters : nat) (round : S -> option S) (clock : nat -> f64) (budget : f64) (k : nat) (s : S) : option (S * nat) :=
  frame_loop round clock (clock k) budget max_iters 0 (Datatypes.S k) s.

Definition tick_dt (cfg : SimConfig) : f64 := f64_of_int (speed_multiplier cfg).

Definition step_frame_upto (max_iters : nat) (clock : nat -> f64) (wall_dt_ms : f64) (lab : TrafficLab) : option TrafficLab :=
  let n := grid_size lab in let cfg := config lab in let dt := tick_dt cfg in
  let budget := f64_over wall_dt_ms (f64_of_int 2) in
  '(nc, k) ← side max_iters (nocache_round n cfg dt) clock budget 0 (nocache lab);
  '((ca, cache), _) ← side max_iters (cached_round n cfg dt) clock budget k (cached lab, sim_cache lab);
  let wall := f64_add (wall_ms_accum lab) wall_dt_ms in
  if f64_le (f64_of_int 500) wall then
    let secs := f64_over wall (f64_of_int 1000) in
    let cells := f64_of_int (Z.of_nat (n * n)) in
    nc_tick ← tick <$> nc !! 0%nat; ca_tick ← tick <$> ca !! 0%nat;
    nc_new ← sub_u64 nc_tick (tps_nc_snap lab); ca_new ← sub_u64 ca_tick (tps_c_snap lab);
    Some {| config := cfg; grid_size := n; nocache := nc; cached := ca; sim_cache := cache; wall_ms_accum := f64_zero;
            tps_nocache := f64_over (f64_times (f64_of_int nc_new) cells) secs;
            tps_cached := f64_over (f64_times (f64_of_int ca_new) cells) secs;
            tps_nc_snap := nc_tick; tps_c_snap := ca_tick |}
  else
    Some {| config := cfg; grid_size := n; nocache := nc; cached := ca; sim_cache := cache; wall_ms_accum := wall;
            tps_nocache := tps_nocache lab; tps_cached := tps_cached lab; tps_nc_snap := tps_nc_snap lab; tps_c_snap := tps_c_snap lab |}.
Definition step_frame : (nat -> f64) -> f64 -> TrafficLab -> option TrafficLab := step_frame_upto MAX_ITERS.

(** *** What the page reads *)

Definition nocache_tick (lab : TrafficLab) : option Z := tick <$> nocache lab !! 0%nat.
Definition nocache_sim_seconds (lab : TrafficLab) : option f64 := (fun s => f64_over (sim_ms s) (f64_of_int 1000)) <$> nocache lab !! 0%nat.
Definition nocache_vehicles_processed (lab : TrafficLab) : option Z := vehicles_spawned <$> nocache lab !! 0%nat.
Definition nocache_vehicles_discharged (lab : TrafficLab) : option Z := vehicles_discharged <$> nocache lab !! 0%nat.
Definition nocache_queues (lab : TrafficLab) : option QueueSnapshot := queues <$> nocache lab !! 0%nat.
Definition nocache_signal_phase (lab : TrafficLab) : option Z := phase_number ∘ signal <$> nocache lab !! 0%nat.
Definition nocache_avg_wait_sec (lab : TrafficLab) : option f64 := avg_wait_sec <$> nocache lab !! 0%nat.
Definition cached_tick (lab : TrafficLab) : option Z := tick <$> cached lab !! 0%nat.
Definition cached_sim_seconds (lab : TrafficLab) : option f64 := (fun s => f64_over (sim_ms s) (f64_of_int 1000)) <$> cached lab !! 0%nat.
Definition cached_vehicles_processed (lab : TrafficLab) : option Z := vehicles_spawned <$> cached lab !! 0%nat.
Definition cached_vehicles_discharged (lab : TrafficLab) : option Z := vehicles_discharged <$> cached lab !! 0%nat.
Definition cached_queues (lab : TrafficLab) : option QueueSnapshot := queues <$> cached lab !! 0%nat.
Definition cached_signal_phase (lab : TrafficLab) : option Z := phase_number ∘ signal <$> cached lab !! 0%nat.
Definition cached_avg_wait_sec (lab : TrafficLab) : option f64 := avg_wait_sec <$> cached lab !! 0%nat.

Definition cache_hits (lab : TrafficLab) : Z := hits (sim_cache lab).
Definition cache_misses (lab : TrafficLab) : Z := misses (sim_cache lab).
Definition cache_hit_ratio (lab : TrafficLab) : option f64 := hit_ratio (sim_cache lab).
Definition cache_keys (lab : TrafficLab) : Z := cache_len (sim_cache lab).

Definition grid_idx (lab : TrafficLab) (row col : nat) : nat := (row * grid_size lab + col)%nat.
(** [get(i).map(..).unwrap_or(0)] on one of the two grids. *)
Definition grid_read (cells : TrafficLab -> list SimState) (field : SimState -> Z) (lab : TrafficLab) (row col : nat) : Z :=
  default 0 (field <$> cells lab !! grid_idx lab row col).
Definition grid_nocache_signal_phase := grid_read nocache (phase_number ∘ signal).
Definition grid_nocache_queue_north := grid_read nocache (north ∘ queues).
Definition grid_nocache_queue_south := grid_read nocache (south ∘ queues).
Definition grid_nocache_queue_east := grid_read nocache (east ∘ queues).
Definition grid_nocache_queue_west := grid_read nocache (west ∘ queues).
Definition grid_cached_signal_phase := grid_read cached (phase_number ∘ signal).
Definition grid_cached_queue_north := grid_read cached (north ∘ queues).
Definition grid_cached_queue_south := grid_read cached (south ∘ queues).
Definition grid_cached_queue_east := grid_read cached (east ∘ queues).
Definition grid_cached_queue_west := grid_read cached (west ∘ queues).

(** A clock that advances by a millisecond at each reading: two rounds of each side at 64 ms. *)
Definition even_clock (k : nat) : f64 := f64_of_int (Z.of_nat k).

Example frame_runs :
  (lab ← step_frame even_clock (f64_of_int 3) TrafficLab_new; Some (nocache_tick lab, cached_tick lab, cache_hits lab, cache_misses lab, cache_keys lab))
    = Some (Some 32, Some 32, 31, 1, 1).
Proof. vm_compute. reflexivity. Qed.
