(* ===== verification/TrafficSpec.v ===== *)
(** * TrafficSpec: the simulator's cache, bounds and signals

    [plain_step] is a tick without cache and without synthetic work.  Both simulations refine
    it, cell by cell and frame by frame, as long as the cache was filled at whole milliseconds
    below 2^16, as the page's speeds are.  Queues stay within their lanes, no addition
    overflows for the first 2^32 ticks, and the signal visits every phase. *)
From Stdlib Require Import SpecFloat.
From S2P Require Import Prelude ServerArgs JsFloat JsFloatSpec TrafficLab.

(** ** The reference *)

Definition plain_step (dt : f64) (cfg : SimConfig) (s : SimState) : option SimState :=
  s ← step_prepare dt cfg s; apply_discharge (discharge_of cfg dt s) s.
Definition plain_round (size : nat) (cfg : SimConfig) (dt : f64) (states : list SimState) : option (list SimState) :=
  states ← mapM (plain_step dt cfg) states; routed size cfg dt states.
Fixpoint times {S} (n : nat) (f : S -> option S) (s : S) : option S :=
  match n with O => Some s | Datatypes.S n' => s ← f s; times n' f s end.

(** A state without its synthetic work. *)
Definition traffic (s : SimState) : SimState := with_waste 0 s.
Abbreviation traffics := (fmap (M:=list) traffic).

(** ** Synthetic work has no effect *)

Lemma prepare_traffic dt cfg s : step_prepare dt cfg (traffic s) = traffic <$> step_prepare dt cfg s.
Proof.
  unfold step_prepare. cbn [traffic with_waste tick signal signal_elapsed arrival_accum rng vehicles_spawned queues vehicles_discharged sim_ms total_wait_vehicle_ms waste].
  destruct (add_u64 _ 1); [cbn|done]. destruct (advance_signal _ _ _ _). destruct (spread _ _ _) as [[? ?]|]; [cbn|done].
  destruct (add_u64 _ _); [cbn|done]. destruct (enqueue_all _ _ _); [cbn|done]. by destruct (queue_total _).
Qed.
Lemma apply_waste d w s : traffic <$> apply_discharge d (with_waste w s) = traffic <$> apply_discharge d s.
Proof.
  unfold apply_discharge. cbn [with_waste queues signal vehicles_discharged].
  destruct (match signal s with NSGreen => _ | AllRed => _ | EWGreen => _ end) as [[q k]|]; [cbn|done]. by destruct (add_u64 _ _).
Qed.
Lemma apply_traffic d s : apply_discharge d (traffic s) = traffic <$> apply_discharge d s.
Proof.
  unfold apply_discharge. cbn [traffic with_waste queues signal vehicles_discharged].
  destruct (match signal s with NSGreen => _ | AllRed => _ | EWGreen => _ end) as [[q k]|]; [cbn|done]. by destruct (add_u64 _ _).
Qed.
Lemma nocache_plain dt cfg s : traffic <$> step_nocache dt cfg s = plain_step dt cfg (traffic s).
Proof.
  unfold step_nocache, plain_step. rewrite prepare_traffic. destruct (step_prepare dt cfg s) as [s'|]; [|done].
  cbn [mbind option_bind fmap option_fmap option_map]. rewrite apply_waste, apply_traffic. done.
Qed.
Lemma plain_traffic dt cfg s : plain_step dt cfg (traffic s) = traffic <$> plain_step dt cfg s.
Proof.
  unfold plain_step. rewrite prepare_traffic. destruct (step_prepare dt cfg s) as [s'|]; [|done]. apply apply_traffic.
Qed.

Lemma transfer_traffic cap t (l : list SimState) : transfer cap t (traffics l) = traffics <$> transfer cap t l.
Proof.
  destruct t as [[i a] n]. cbn [transfer]. rewrite list_lookup_fmap. destruct (l !! i) as [s|]; [|done].
  cbn [fmap option_fmap option_map mbind option_bind]. cbn [traffic with_waste queues].
  match goal with |- (?m ≫= _) = _ => destruct m as [q|] end; [|done].
  cbn [mbind option_bind fmap option_fmap option_map]. by rewrite list_fmap_insert.
Qed.
Lemma transfer_all_traffic cap ts (l : list SimState) : transfer_all cap ts (traffics l) = traffics <$> transfer_all cap ts l.
Proof.
  revert l. induction ts as [|t ts IH]; intros l; cbn [transfer_all]; [done|].
  rewrite transfer_traffic. destruct (transfer cap t l); [|done]. apply IH.
Qed.
Lemma cell_transfers_traffic size cfg dt (l : list SimState) r c : cell_transfers size cfg dt (traffics l) r c = cell_transfers size cfg dt l r c.
Proof. unfold cell_transfers. rewrite list_lookup_fmap. by destruct (l !! _). Qed.
Lemma routed_traffic size cfg dt (l : list SimState) : routed size cfg dt (traffics l) = traffics <$> routed size cfg dt l.
Proof.
  unfold routed, route_grid. destruct (1 <? size)%nat; [|done].
  rewrite (mapM_ext _ (fun '(r, c) => cell_transfers size cfg dt l r c)); [|by intros [r c]; rewrite cell_transfers_traffic].
  destruct (mapM _ (grid_cells size)); [|done]. apply transfer_all_traffic.
Qed.
Lemma mapM_traffic (f g : SimState -> option SimState) (l : list SimState) :
  (forall s, traffic <$> f s = g (traffic s)) -> traffics <$> mapM f l = mapM g (traffics l).
Proof.
  intros H. induction l as [|s l IH]; [done|]. cbn [mapM fmap list_fmap]. rewrite <-H, <-IH.
  destruct (f s); [|done]. cbn. by destruct (mapM f l).
Qed.
Lemma nocache_round_plain size cfg dt (l : list SimState) : traffics <$> nocache_round size cfg dt l = plain_round size cfg dt (traffics l).
Proof.
  unfold nocache_round, plain_round. rewrite <-(mapM_traffic _ _ l (nocache_plain dt cfg)).
  destruct (mapM _ l); [|done]. cbn. by rewrite routed_traffic.
Qed.

(** ** The cache holds discharge counts *)

Definition whole_ms (dt : f64) : Prop := exists n, 0 <= n < 2 ^ 16 /\ dt = f64_of_int n.
Definition u8 (n : Z) : Prop := 0 <= n < 256.

Definition cache_sound (c : SimCache) : Prop :=
  forall p lanes fl ms dt d, u8 lanes -> whole_ms dt -> store c !! discharge_key p lanes fl ms dt = Some d ->
    d = compute_discharge p lanes fl ms dt.

Lemma round_u32_int (n : Z) : 0 <= n <= u32_max -> f64_round_u32 (f64_of_int n) = n.
Proof.
  unfold u32_max. intros Hn. assert (H53 : int53 n) by (unfold int53; lia).
  destruct (decide (n = 0)) as [->|H0]; [done|].
  destruct (f64_of_int_inv n H53 H0) as (m & e & -> & He & Em & _).
  enough (E : f64_round_away (S754_finite (n <? 0) m e) = n) by (unfold f64_round_u32, u32_max; rewrite E; lia).
  cbn [f64_round_away]. destruct (Z.ltb_spec n 0); [lia|].
  destruct (Z.leb_spec 0 e).
  - rewrite Em. replace e with 0 by lia. cbn. lia.
  - rewrite Em, Z.abs_eq by lia. rewrite Z.div_add_l by (apply Z.pow_nonzero; lia).
    rewrite Z.div_small; [lia|]. split; [apply Z.pow_nonneg; lia|]. apply Z.pow_lt_mono_r; lia.
Qed.

(** The fields of a key do not overlap. *)
Lemma key_fields (a b c d e : Z) : 0 <= a < 16 -> 0 <= b < 256 -> 0 <= c < 2 -> 0 <= d < 2 -> 0 <= e ->
  Z.lor (Z.lor (Z.lor (Z.lor a (Z.shiftl b 4)) (Z.shiftl c 12)) (Z.shiftl d 13)) (Z.shiftl e 14) = a + 16 * b + 4096 * c + 8192 * d + 16384 * e.
Proof.
  intros Ha Hb Hc Hd He.
  assert (Hlor : forall x y k, 0 <= k -> 0 <= x < 2 ^ k -> Z.lor x (Z.shiftl y k) = x + y * 2 ^ k).
  { intros x y k Hk Hx. rewrite Z.shiftl_mul_pow2 by done.
    assert (E : Z.land x (y * 2 ^ k) = 0); [|by rewrite <-Z.lxor_lor, <-Z.add_nocarry_lxor by done].
    apply Z.bits_inj'. intros i Hi. rewrite Z.land_spec, Z.bits_0, andb_false_iff, Z.mul_pow2_bits by done.
    destruct (Z.lt_ge_cases i k); [right; apply Z.testbit_neg_r; lia|left].
    rewrite <-(Z.mod_small x (2 ^ k)) by done. by apply Z.mod_pow2_bits_high. }
  rewrite (Hlor a b 4), (Hlor _ c 12), (Hlor _ d 13), (Hlor _ e 14); lia.
Qed.
Lemma phase_number_inj p q : phase_number p = phase_number q -> p = q.
Proof. by destruct p, q. Qed.
Lemma phase_number_range p : 0 <= phase_number p < 16.
Proof. destruct p; cbn; lia. Qed.
Lemma discharge_key_inj p p' lanes lanes' fl fl' ms ms' dt dt' : u8 lanes -> u8 lanes' -> whole_ms dt -> whole_ms dt' ->
  discharge_key p lanes fl ms dt = discharge_key p' lanes' fl' ms' dt' -> p = p' /\ lanes = lanes' /\ fl = fl' /\ ms = ms' /\ dt = dt'.
Proof.
  intros Hl Hl' (n & Hn & ->) (n' & Hn' & ->). unfold discharge_key, u8 in *.
  rewrite !round_u32_int, !Z.min_l by (unfold u32_max; lia).
  pose proof (phase_number_range p). pose proof (phase_number_range p').
  rewrite !key_fields by (done || lia || (destruct fl, fl', ms, ms'; cbn; lia)). intros E.
  assert (phase_number p = phase_number p' /\ lanes = lanes' /\ fl = fl' /\ ms = ms' /\ n = n') as (Hp & -> & -> & -> & ->)
    by (destruct fl, fl', ms, ms'; cbn [Z.b2z] in E; split_and!; try reflexivity; lia).
  apply phase_number_inj in Hp. done.
Qed.

Lemma cache_set_sound c p lanes fl ms dt : cache_sound c -> u8 lanes -> whole_ms dt ->
  cache_sound (cache_set (discharge_key p lanes fl ms dt) (compute_discharge p lanes fl ms dt) c).
Proof.
  intros Hc Hl Hd p' lanes' fl' ms' dt' d Hl' Hd'. cbn [cache_set store].
  destruct (decide (discharge_key p lanes fl ms dt = discharge_key p' lanes' fl' ms' dt')) as [E|E].
  - rewrite <-E, lookup_insert_eq. intros [= <-].
    by destruct (discharge_key_inj p p' lanes lanes' fl fl' ms ms' dt dt') as (<- & <- & <- & <- & <-).
  - rewrite lookup_insert_ne by done. by apply Hc.
Qed.

(** Look-ups so far. *)
Definition lookups (c : SimCache) : Z := hits c + misses c.
Definition counters_ok (c : SimCache) : Prop := 0 <= hits c /\ 0 <= misses c.

Lemma cached_plain dt cfg s c : u8 (lane_count cfg) -> whole_ms dt -> cache_sound c -> counters_ok c -> lookups c < u64_max ->
  match step_cached dt cfg s c with
  | Some (s', c') => plain_step dt cfg s = Some s' /\ cache_sound c' /\ counters_ok c' /\ lookups c' = lookups c + 1
  | None => plain_step dt cfg s = None
  end.
Proof.
  intros Hl Hd Hc [Hh Hm] Hr. unfold lookups in *. unfold step_cached, plain_step.
  destruct (step_prepare dt cfg s) as [s1|]; [|done]. cbn [mbind option_bind].
  unfold cache_get, add_u64, checked. destruct (store c !! _) as [d|] eqn:El.
  - apply Hc in El; [|done..]. fold (discharge_of cfg dt s1) in El. subst d.
    destruct (Z.leb_spec (hits c + 1) u64_max); [|lia]. cbn [mbind option_bind].
    destruct (apply_discharge _ s1); [|done]. cbn [mbind option_bind]. unfold cache_sound, counters_ok. cbn [store hits misses]. split_and!; (done || lia).
  - destruct (Z.leb_spec (misses c + 1) u64_max); [|lia]. cbn [mbind option_bind].
    destruct (apply_discharge _ s1); [|done]. cbn [mbind option_bind]. split_and!; [done| |unfold counters_ok; cbn; lia..].
    unfold discharge_of. by apply (cache_set_sound {| store := store c; hits := hits c; misses := misses c + 1 |}).
Qed.

(** ** Bounds of one intersection *)

Record config_ok (cfg : SimConfig) : Prop := {
  ok_vehicles : 0 <= vehicles_per_min cfg <= u32_max;
  ok_cycle : 0 <= signal_cycle_secs cfg <= u32_max;
  ok_lanes : u8 (lane_count cfg)
}.
(** No queue is longer than [cap]. *)
Definition queues_in (cap : Z) (q : QueueSnapshot) : Prop :=
  0 <= north q <= cap /\ 0 <= south q <= cap /\ 0 <= east q <= cap /\ 0 <= west q <= cap.
Definition queued (q : QueueSnapshot) : Z := north q + south q + east q + west q.

Definition LANES_MAX : Z := 255 * 8.
Record bounded (s : SimState) : Prop := {
  b_tick : 0 <= tick s;
  b_spawned : 0 <= vehicles_spawned s <= tick s * u32_max;
  b_discharged : 0 <= vehicles_discharged s <= tick s * (2 * LANES_MAX);
  b_queues : queues_in LANES_MAX (queues s)
}.
(** Every vehicle that waits or has left came in: some arrivals find the queues full. *)
Definition accounted (s : SimState) : Prop := queued (queues s) + vehicles_discharged s <= vehicles_spawned s.

Lemma cap_range cfg : u8 (lane_count cfg) -> 0 <= lane_cap cfg <= LANES_MAX.
Proof. unfold u8, lane_cap, LANES_MAX. lia. Qed.

Lemma below_range n rng : 0 < n -> 0 <= (below n rng).1 < n.
Proof. intros Hn. apply Z.mod_pos_bound. done. Qed.

Definition total (l : list Z) : Z := foldr Z.add 0 l.

Lemma total_insert (l : list Z) k v w : l !! k = Some v -> total (<[k := w]> l) = total l + w - v.
Proof.
  revert k. induction l as [|x l IH]; intros [|k] E; [done..| |].
  - injection E as ->. unfold total. cbn. lia.
  - specialize (IH k E). unfold total in *. change (<[S k:=w]> (x :: l)) with (x :: <[k:=w]> l). cbn [foldr]. lia.
Qed.
Lemma spread_ok n : forall m l rng, length l = 4%nat -> Forall (fun v => 0 <= v <= m) l -> m + Z.of_nat n <= u32_max ->
  exists l' rng', spread n l rng = Some (l', rng') /\ length l' = 4%nat /\ Forall (fun v => 0 <= v <= m + Z.of_nat n) l' /\
    total l' = total l + Z.of_nat n.
Proof.
  induction n as [|n IH]; intros m l rng Hn Hl Hm.
  { do 2 eexists. split; [done|]. split; [done|]. split; [|lia]. by rewrite Z.add_0_r. }
  cbn [spread]. pose proof (below_range 4 rng ltac:(lia)) as Hk. destruct (below 4 rng) as [k rng1]. cbn [fst] in Hk.
  destruct (lookup_lt_is_Some_2 l (Z.to_nat k)) as [v Ev]; [lia|]. rewrite Ev. cbn [mbind option_bind].
  pose proof (Forall_lookup_1 _ _ _ _ Hl Ev) as Hv. cbn in Hv.
  unfold add_u32 at 1, checked. destruct (Z.leb_spec (v + 1) u32_max); [|lia]. cbn [mbind option_bind].
  destruct (IH (m + 1) (<[Z.to_nat k := v + 1]> l) rng1) as (l' & rng' & -> & Hn' & Hl' & Ht'); [by rewrite length_insert| |lia|].
  { apply Forall_insert; [|lia]. eapply Forall_impl; [exact Hl|]. cbn. lia. }
  exists l', rng'. split_and!; [done..| |].
  - eapply Forall_impl; [exact Hl'|]. cbn. lia.
  - rewrite Ht', (total_insert _ _ _ _ Ev). lia.
Qed.

Lemma add_u64_ok a b : a + b <= u64_max -> add_u64 a b = Some (a + b).
Proof. unfold add_u64, checked. intros H. by destruct (Z.leb_spec (a + b) u64_max); [|lia]. Qed.
Lemma enqueue_ok cap q n : 0 <= q <= LANES_MAX -> 0 <= n <= 2 ^ 31 -> 0 <= cap <= LANES_MAX -> enqueue cap q n = Some (Z.min (q + n) cap).
Proof.
  unfold LANES_MAX, enqueue, add_u32, checked, u32_max. intros Hq Hn Hc. destruct (Z.leb_spec (q + n) (2 ^ 32 - 1)); [done|lia].
Qed.
Lemma queue_total_ok q : queues_in LANES_MAX q -> queue_total q = Some (queued q).
Proof.
  unfold queues_in, LANES_MAX, queue_total, add_u32, checked, u32_max, queued. intros (Hn & Hs & He & Hw).
  destruct (Z.leb_spec (north q + south q) (2 ^ 32 - 1)); [cbn [mbind option_bind]|lia].
  destruct (Z.leb_spec (north q + south q + east q) (2 ^ 32 - 1)); [cbn [mbind option_bind]|lia].
  destruct (Z.leb_spec (north q + south q + east q + west q) (2 ^ 32 - 1)); [done|lia].
Qed.
Lemma enqueue_all_ok cap q l : queues_in LANES_MAX q -> 0 <= cap <= LANES_MAX -> length l = 4%nat -> Forall (fun v => 0 <= v <= 2 ^ 31) l ->
  exists q', enqueue_all cap q l = Some q' /\ queues_in cap q' /\ queued q' <= queued q + total l.
Proof.
  intros (Hn & Hs & He & Hw) Hc Hl Hf. destruct l as [|a [|b [|c [|d [|? ?]]]]]; try done.
  rewrite !Forall_cons in Hf. destruct Hf as (Ha & Hb & Hc' & Hd & _). unfold enqueue_all.
  rewrite !enqueue_ok by done. cbn [mbind option_bind]. eexists. split; [done|]. unfold queues_in, queued, total. cbn. lia.
Qed.

Lemma queues_weaken cap cap' q : cap <= cap' -> queues_in cap q -> queues_in cap' q.
Proof. unfold queues_in. lia. Qed.

(** The signal of a tick, apart from everything else. *)
Definition next_signal (dt : f64) (cfg : SimConfig) (s : SimState) : SignalPhase * f64 :=
  advance_signal (signal s) (f64_add (signal_elapsed s) dt) (half_cycle cfg) (yellow cfg).

(** The first 2^32 ticks have room in every counter. *)
Definition room (s : SimState) : Prop := tick s < 2 ^ 32.

Lemma prepare_ok dt cfg s : config_ok cfg -> bounded s -> room s ->
  exists s', step_prepare dt cfg s = Some s' /\ bounded s' /\ tick s' = tick s + 1 /\ queues_in (lane_cap cfg) (queues s') /\
    (accounted s -> accounted s') /\ (signal s', signal_elapsed s') = next_signal dt cfg s /\
    vehicles_discharged s' = vehicles_discharged s /\ waste s' = waste s.
Proof.
  intros [Hv Hc Hl] [Ht Hs Hd Hq] Hr. unfold room in Hr. pose proof (cap_range cfg Hl) as Hcap. unfold step_prepare.
  assert (Hu : u32_max = 2 ^ 32 - 1) by done. assert (H64 : u64_max = 2 ^ 64 - 1) by done. assert (HL : LANES_MAX = 2040) by done.
  rewrite (add_u64_ok (tick s)) by lia. cbn [mbind option_bind].
  unfold next_signal. destruct (advance_signal _ _ _ _) as [p el].
  set (accum := f64_add _ (f64_times _ dt)). pose proof (f64_as_u32_range accum) as Hn. set (n := f64_as_u32 accum) in *.
  assert (Hm : 0 <= n `mod` 4 < 4) by (apply Z.mod_pos_bound; lia). assert (Hdm : n = 4 * (n / 4) + n `mod` 4) by (apply Z.div_mod; lia).
  destruct (spread_ok (Z.to_nat (n `mod` 4)) (n / 4) (replicate 4 (n / 4)) (rng s)) as (l & rng' & -> & Hln & Hlf & Hlt).
  { done. } { apply Forall_replicate. lia. } { lia. }
  cbn [mbind option_bind]. rewrite Z2Nat.id in Hlf, Hlt by lia.
  assert (Hlt' : total l = n) by (rewrite Hlt; cbn; lia).
  assert (Hspawn : vehicles_spawned s + n <= (tick s + 1) * u32_max) by (rewrite Z.mul_add_distr_r; lia).
  assert ((tick s + 1) * u32_max <= 2 ^ 32 * u32_max) by (apply Z.mul_le_mono_nonneg_r; lia).
  rewrite add_u64_ok by lia. cbn [mbind option_bind].
  destruct (enqueue_all_ok (lane_cap cfg) (queues s) l) as (q & -> & Hqi & Hqs); [done..| |].
  { eapply Forall_impl; [exact Hlf|]. cbn. lia. }
  cbn [mbind option_bind]. rewrite queue_total_ok by (eapply queues_weaken; [|exact Hqi]; lia). cbn [mbind option_bind].
  eexists. split; [done|]. split; [|split_and!; try done; unfold accounted; cbn; lia].
  split; cbn [tick vehicles_spawned vehicles_discharged queues]; [lia..|]. eapply queues_weaken; [|exact Hqi]. lia.
Qed.

Lemma apply_ok d cap s : 0 <= d -> bounded s -> 0 < tick s <= 2 ^ 32 -> vehicles_discharged s <= (tick s - 1) * (2 * LANES_MAX) ->
  0 <= cap <= LANES_MAX -> queues_in cap (queues s) ->
  exists s', apply_discharge d s = Some s' /\ bounded s' /\ tick s' = tick s /\ queues_in cap (queues s') /\ (accounted s -> accounted s') /\
    signal s' = signal s /\ signal_elapsed s' = signal_elapsed s /\ waste s' = waste s.
Proof.
  intros Hd [Ht Hs Hdis Hq0] Htk Hdl Hcap Hq. unfold apply_discharge. assert (HL : LANES_MAX = 2040) by done.
  assert (H64 : u64_max = 2 ^ 64 - 1) by done.
  set (m := match signal s with NSGreen => _ | AllRed => _ | EWGreen => _ end).
  assert (Hm : exists q k, m = Some (q, k) /\ queues_in cap q /\ 0 <= k <= 2 * LANES_MAX /\ queued q + k = queued (queues s)).
  { unfold m, add_u32, checked, u32_max, queues_in, queued in *. destruct (signal s).
    - destruct (Z.leb_spec (Z.min (north (queues s)) d + Z.min (south (queues s)) d) (2 ^ 32 - 1)); [|lia].
      do 2 eexists. split; [done|]. cbn. lia.
    - do 2 eexists. split; [done|]. lia.
    - destruct (Z.leb_spec (Z.min (east (queues s)) d + Z.min (west (queues s)) d) (2 ^ 32 - 1)); [|lia].
      do 2 eexists. split; [done|]. cbn. lia. }
  destruct Hm as (q & k & -> & Hqi & Hk & Hqk). cbn [mbind option_bind].
  rewrite add_u64_ok by lia. cbn [mbind option_bind].
  eexists. split; [done|]. split; [|split_and!; try done; unfold accounted; cbn; lia].
  split; cbn [tick vehicles_spawned vehicles_discharged queues with_queues]; [done..|lia|]. eapply queues_weaken; [|exact Hqi]. lia.
Qed.

Lemma discharge_nonneg cfg dt s : 0 <= discharge_of cfg dt s.
Proof.
  unfold discharge_of, compute_discharge. destruct (signal s); [|done|]; apply f64_as_u32_range.
Qed.

Theorem plain_step_ok dt cfg s : config_ok cfg -> bounded s -> room s ->
  exists s', plain_step dt cfg s = Some s' /\ bounded s' /\ tick s' = tick s + 1 /\ queues_in (lane_cap cfg) (queues s') /\
    (accounted s -> accounted s') /\ (signal s', signal_elapsed s') = next_signal dt cfg s.
Proof.
  intros Hcfg Hb Hr. destruct (prepare_ok dt cfg s Hcfg Hb Hr) as (s1 & E1 & Hb1 & Ht1 & Hq1 & Ha1 & Hs1 & Hd1 & _).
  unfold plain_step. rewrite E1. cbn [mbind option_bind]. pose proof (b_tick _ Hb). unfold room in Hr.
  destruct (apply_ok (discharge_of cfg dt s1) (lane_cap cfg) s1) as (s2 & -> & Hb2 & Ht2 & Hq2 & Ha2 & Hs2 & He2 & _);
    [apply discharge_nonneg|done|lia| |apply cap_range; by destruct Hcfg|done|].
  { rewrite Hd1, Ht1. pose proof (b_discharged _ Hb). lia. }
  exists s2. split_and!; [done..|lia|done|tauto|]. by rewrite Hs2, He2.
Qed.

(** A run of one intersection whose configuration may change at every tick. *)
Fixpoint run_nocache (steps : list (SimConfig * f64)) (s : SimState) : option SimState :=
  match steps with [] => Some s | (cfg, dt) :: steps' => s ← step_nocache dt cfg s; run_nocache steps' s end.

Lemma bounded_traffic s : bounded (traffic s) <-> bounded s.
Proof. split; intros [? ? ? ?]; split; done. Qed.
Lemma bounded_new seed : bounded (SimState_new seed).
Proof. by split; vm_compute. Qed.

Lemma step_nocache_ok dt cfg s : config_ok cfg -> bounded s -> room s ->
  exists s', step_nocache dt cfg s = Some s' /\ bounded s' /\ tick s' = tick s + 1 /\ queues_in (lane_cap cfg) (queues s') /\
    (accounted s -> accounted s') /\ (signal s', signal_elapsed s') = next_signal dt cfg s.
Proof.
  intros Hc Hb Hr. destruct (plain_step_ok dt cfg (traffic s) Hc (proj2 (bounded_traffic s) Hb) Hr) as (s' & E & H).
  rewrite <-nocache_plain in E. destruct (step_nocache dt cfg s) as [s2|]; [|done]. injection E as <-.
  exists s2. destruct H as (Hb' & H). split; [done|]. split; [exact (proj1 (bounded_traffic s2) Hb')|exact H].
Qed.

(** C37: Nothing overflows and nothing is made up.  An intersection that starts empty ticks 2^32 times
    without an overflow, whatever its configurations and time steps; after a tick no queue is longer
    than its lanes allow, and the vehicles that wait or have left never outnumber those that came.
    (They may be fewer: an arrival at a full queue is counted and dropped.) *)
Theorem intersection_stays_in_bounds (seed : Z) (steps : list (SimConfig * f64)) (cfg : SimConfig) (dt : f64) :
  Forall (fun step => config_ok step.1) (steps ++ [(cfg, dt)]) -> Z.of_nat (length steps) < 2 ^ 32 ->
  exists s, run_nocache (steps ++ [(cfg, dt)]) (SimState_new seed) = Some s /\ tick s = Z.of_nat (length steps) + 1 /\
    queues_in (8 * lane_count cfg) (queues s) /\ queued (queues s) + vehicles_discharged s <= vehicles_spawned s.
Proof.
  intros Hc Hn.
  enough (H : forall s, bounded s -> accounted s -> tick s + Z.of_nat (length steps) < 2 ^ 32 ->
    exists s', run_nocache (steps ++ [(cfg, dt)]) s = Some s' /\ tick s' = tick s + Z.of_nat (length steps) + 1 /\
      queues_in (8 * lane_count cfg) (queues s') /\ accounted s').
  { destruct (H (SimState_new seed)) as (s & E & Ht & Hq & Ha); [apply bounded_new|by vm_compute|cbn [tick SimState_new]; lia|].
    exists s. split_and!; [done| |done..]. by rewrite Ht. }
  clear Hn. induction steps as [|[cfg1 dt1] steps IH]; cbn [app run_nocache] in *; intros s Hb Ha Hr;
    apply Forall_cons in Hc as [Hc1 Hc]; cbn [fst] in Hc1.
  - destruct (step_nocache_ok dt cfg s Hc1 Hb ltac:(unfold room; cbn [length] in Hr; lia)) as (s' & -> & _ & Ht & Hq & Ha' & _). exists s'.
    split_and!; [done|cbn [length]; lia| |by apply Ha']. by rewrite Z.mul_comm.
  - cbn [length] in Hr. destruct (step_nocache_ok dt1 cfg1 s Hc1 Hb ltac:(unfold room; lia)) as (s1 & -> & Hb1 & Ht1 & _ & Ha1 & _).
    cbn [mbind option_bind]. destruct (IH Hc s1) as (s' & -> & Ht & Hq & Hacc); [done|by apply Ha1|lia|].
    exists s'. split_and!; [done|cbn [length]; lia|done..].
Qed.
Lemma config_ok_new : config_ok SimConfig_new.
Proof. split; unfold u8; cbn; unfold u32_max; lia. Qed.
Lemma intersection_stays_in_bounds_witness : exists s,
  run_nocache ([(SimConfig_new, f64_of_int 1000)] ++ [(SimConfig_new, f64_of_int 1000)]) (SimState_new 7) = Some s /\ tick s = 2 /\
    queues_in (8 * 3) (queues s) /\ queued (queues s) + vehicles_discharged s <= vehicles_spawned s.
Proof.
  exact (intersection_stays_in_bounds 7 [(SimConfig_new, f64_of_int 1000)] SimConfig_new (f64_of_int 1000)
    ltac:(do 2 (apply Forall_cons_2; [exact config_ok_new|]); apply Forall_nil_2) ltac:(cbn; lia)).
Defined.

(** ** Signals *)

Definition successor (p : SignalPhase) : SignalPhase := match p with NSGreen => AllRed | AllRed => EWGreen | EWGreen => NSGreen end.
(** A phase is over after so many milliseconds. *)
Definition phase_ms (cfg : SimConfig) : Z := Z.max (500 * signal_cycle_secs cfg) 5000.

Lemma half_cycle_int cfg : 0 < signal_cycle_secs cfg <= u32_max -> half_cycle cfg = f64_of_int (500 * signal_cycle_secs cfg).
Proof.
  unfold u32_max, half_cycle. intros Hc. rewrite f64_times_int; unfold int53; try lia. f_equal. lia.
Qed.
Lemma yellow_below cfg : 0 < signal_cycle_secs cfg <= u32_max -> f64_le (yellow cfg) (f64_of_int 5000) = true.
Proof.
  intros Hc. unfold yellow, f64_clamp. set (x := f64_times _ _).
  destruct (f64_lt x (f64_of_int 2000)); [vm_compute; reflexivity|].
  destruct (f64_lt (f64_of_int 5000) x) eqn:E; [vm_compute; reflexivity|].
  apply f64_le_total; [done| |done]. unfold x. apply f64_times_number; [|done].
  rewrite half_cycle_int by done. unfold u32_max in Hc. rewrite f64_of_int_finite; [done|unfold int53; lia|lia].
Qed.

(** A phase that has lasted its time ends; before, it stays or ends. *)
Lemma advance_cases cfg p k : 0 < signal_cycle_secs cfg <= u32_max -> 0 <= k < 2 ^ 52 ->
  advance_signal p (f64_of_int k) (half_cycle cfg) (yellow cfg) = (successor p, f64_zero) \/
  advance_signal p (f64_of_int k) (half_cycle cfg) (yellow cfg) = (p, f64_of_int k) /\ k < phase_ms cfg.
Proof.
  intros Hc Hk. assert (Hu : u32_max = 2 ^ 32 - 1) by done. pose proof (half_cycle_int cfg Hc) as Eh. pose proof (yellow_below cfg Hc) as Ey.
  assert (Hhalf : f64_le (half_cycle cfg) (f64_of_int k) = false -> k < phase_ms cfg).
  { rewrite Eh, f64_le_int by (unfold int53; lia). unfold phase_ms. lia. }
  assert (Hyel : f64_le (yellow cfg) (f64_of_int k) = false -> k < phase_ms cfg).
  { intros E. destruct (Z.lt_ge_cases k 5000) as [|Hge]; [unfold phase_ms; lia|]. exfalso.
    assert (E' : f64_le (yellow cfg) (f64_of_int k) = true); [|congruence].
    apply (f64_le_trans _ (f64_of_int 5000)); [done|]. rewrite f64_le_int by (unfold int53; lia). by apply Z.leb_le. }
  destruct p; cbn [advance_signal successor].
  - destruct (f64_le (half_cycle cfg) (f64_of_int k)) eqn:E; [by left|right; split; [done|auto]].
  - destruct (f64_le (yellow cfg) (f64_of_int k)) eqn:E; [by left|right; split; [done|auto]].
  - destruct (f64_le (half_cycle cfg) (f64_of_int k)) eqn:E; [by left|right; split; [done|auto]].
Qed.

Section Signals.
Context (cfg : SimConfig) (Hcfg : config_ok cfg) (Hcycle : 0 < signal_cycle_secs cfg) (w : Z) (Hw : 1 <= w <= 2 ^ 40).

Abbreviation dt := (f64_of_int w).
(** The time in the phase is a whole number of milliseconds, less than the phase has. *)
Definition in_phase (k : Z) (s : SimState) : Prop := signal_elapsed s = f64_of_int k /\ 0 <= k < phase_ms cfg.

Lemma phase_ms_range : 5000 <= phase_ms cfg < 2 ^ 42.
Proof. destruct Hcfg as [_ Hc _]. unfold phase_ms, u32_max in *. lia. Qed.

Lemma signal_step k s : in_phase k s -> bounded s -> room s ->
  exists s', step_nocache dt cfg s = Some s' /\ bounded s' /\ tick s' = tick s + 1 /\
    (signal s' = successor (signal s) /\ in_phase 0 s' \/ signal s' = signal s /\ in_phase (k + w) s').
Proof.
  intros [Ek Hk] Hb Hr. pose proof phase_ms_range as Hm. destruct Hcfg as [_ Hc _].
  destruct (step_nocache_ok dt cfg s Hcfg Hb Hr) as (s' & -> & Hb' & Ht & _ & _ & Es). exists s'. split_and!; [done..|].
  unfold next_signal in Es. rewrite Ek, f64_add_int in Es by (unfold int53; lia). unfold in_phase.
  destruct (advance_cases cfg (signal s) (k + w)) as [E|[E Hlt]]; [lia|lia| |]; rewrite E in Es; injection Es as -> ->.
  - left. split; [done|]. split; [done|lia].
  - right. split; [done|]. split; [done|lia].
Qed.

Lemma times_snoc {S} n (f : S -> option S) s : times (Datatypes.S n) f s = times n f s ≫= f.
Proof.
  revert s. induction n as [|n IH]; intros s; [cbn; by destruct (f s)|].
  cbn [times] in *. destruct (f s) as [s1|]; [|done]. cbn [mbind option_bind] in *. apply IH.
Qed.
Lemma times_add {S} n m (f : S -> option S) s : times (n + m) f s = times n f s ≫= times m f.
Proof.
  revert s. induction n as [|n IH]; intros s; [done|]. cbn [Nat.add times]. destruct (f s) as [s1|]; [|done]. apply IH.
Qed.

(** A phase ends, within as many ticks as it has milliseconds. *)
Lemma phase_ends n : forall k s, in_phase k s -> bounded s -> tick s + phase_ms cfg - k < 2 ^ 32 -> phase_ms cfg - k = Z.of_nat n ->
  exists m s', (m <= n)%nat /\ times m (step_nocache dt cfg) s = Some s' /\ bounded s' /\ tick s' = tick s + Z.of_nat m /\
    signal s' = successor (signal s) /\ in_phase 0 s'.
Proof.
  induction n as [n IH] using lt_wf_ind. intros k s Hk Hb Hr Hn. pose proof Hk as [_ Hlt].
  destruct (signal_step k s Hk Hb ltac:(unfold room; lia)) as (s1 & E1 & Hb1 & Ht1 & [[Es Hp]|[Es Hp]]).
  - exists 1%nat, s1. cbn [times]. rewrite E1. split_and!; try done; lia.
  - pose proof Hp as [_ Hlt1]. destruct (IH (Z.to_nat (phase_ms cfg - (k + w))) ltac:(lia) (k + w) s1 Hp Hb1 ltac:(lia) ltac:(lia)) as (m & s' & Hm & Em & Hb' & Ht & Hs & Hp').
    exists (S m), s'. cbn [times]. rewrite E1. cbn [mbind option_bind]. split_and!; try done; [lia|lia|by rewrite Hs, Es].
Qed.

Lemma phases_end j : forall s, in_phase 0 s -> bounded s -> tick s + Z.of_nat j * phase_ms cfg < 2 ^ 32 ->
  exists m s', Z.of_nat m <= Z.of_nat j * phase_ms cfg /\ times m (step_nocache dt cfg) s = Some s' /\ bounded s' /\ tick s' = tick s + Z.of_nat m /\
    signal s' = Nat.iter j successor (signal s) /\ in_phase 0 s'.
Proof.
  pose proof phase_ms_range as Hm. induction j as [|j IH]; intros s Hp Hb Hr.
  { exists 0%nat, s. split_and!; try done; cbn; lia. }
  destruct (IH s Hp Hb ltac:(lia)) as (m & s1 & Hm1 & E1 & Hb1 & Ht1 & Hs1 & Hp1).
  destruct (phase_ends (Z.to_nat (phase_ms cfg)) 0 s1 Hp1 Hb1 ltac:(lia) ltac:(lia)) as (m' & s2 & Hm2 & E2 & Hb2 & Ht2 & Hs2 & Hp2).
  exists (m + m')%nat, s2. rewrite times_add, E1. split_and!; [lia|done|done|lia| |done]. rewrite Hs2, Hs1. by rewrite Nat.iter_succ.
Qed.
End Signals.

(** C38: The signal does not stall.  From the beginning of a phase of a state within the simulator's
    bounds ([bounded]), the next [j] phases are reached in the order north-south green, all red,
    east-west green and back (without an all-red after the east-west green, against the module's
    own comment), within [j] times as many ticks as the longest phase has milliseconds: for every
    cycle length but 0 and every tick of a whole number of milliseconds from 1 to 2^40, as long as
    the ticks so far and these are fewer than 2^32.  (Outside of it: ticks of 0 ms, and cycles of
    more than about 8.6 million seconds, whose phases last 2^32 ms.) *)
Theorem signal_visits_every_phase (cfg : SimConfig) (w : Z) (s : SimState) (j : nat) :
  config_ok cfg -> 0 < signal_cycle_secs cfg -> 1 <= w <= 2 ^ 40 ->
  bounded s -> signal_elapsed s = f64_zero -> tick s + Z.of_nat j * phase_ms cfg < 2 ^ 32 ->
  exists m s', Z.of_nat m <= Z.of_nat j * phase_ms cfg /\ times m (step_nocache (f64_of_int w) cfg) s = Some s' /\
    signal s' = Nat.iter j successor (signal s) /\ signal_elapsed s' = f64_zero.
Proof.
  intros Hcfg Hc Hw Hb He Hr. pose proof (phase_ms_range cfg Hcfg) as Hm.
  destruct (phases_end cfg Hcfg Hc w Hw j s ltac:(split; [done|lia]) Hb Hr) as (m & s' & ? & ? & _ & _ & ? & [? _]). by exists m, s'.
Qed.
Lemma signal_visits_every_phase_witness : exists m s', Z.of_nat m <= 3 * 30000 /\
  times m (step_nocache (f64_of_int 1000) SimConfig_new) (SimState_new 7) = Some s' /\
  signal s' = NSGreen /\ signal_elapsed s' = f64_zero.
Proof.
  exact (signal_visits_every_phase SimConfig_new 1000 (SimState_new 7) 3 config_ok_new ltac:(done) ltac:(done) (bounded_new 7) eq_refl ltac:(done)).
Defined.

(** ** The grid *)

(** What the page's controls allow. *)
Record lab_config (cfg : SimConfig) : Prop := {
  lc_ok : config_ok cfg;
  lc_cycle : 10 <= signal_cycle_secs cfg;
  lc_lanes : 1 <= lane_count cfg <= 6;
  lc_speed : In (speed_multiplier cfg) [1; 10; 100; 1000]
}.

Lemma speed_whole cfg : lab_config cfg -> whole_ms (tick_dt cfg).
Proof. intros [_ _ _ Hs]. exists (speed_multiplier cfg). split; [|done]. cbn in Hs. lia. Qed.

(** At most one vehicle goes on to a neighbour: a tick discharges fewer than four. *)
Lemma route_one cfg s : lab_config cfg -> f64_as_u32 (f64_times (f64_of_int (discharge_of cfg (tick_dt cfg) s)) ROUTE_FRAC) <= 1.
Proof.
  intros [_ _ Hl Hs]. unfold discharge_of, tick_dt.
  assert (Hl' : lane_count cfg = 1 \/ lane_count cfg = 2 \/ lane_count cfg = 3 \/ lane_count cfg = 4 \/ lane_count cfg = 5 \/ lane_count cfg = 6) by lia.
  destruct Hs as [<-|[<-|[<-|[<-|[]]]]], (signal s), (free_left_turn cfg), (motorcycle_splitting cfg);
    destruct Hl' as [-> | [-> | [-> | [-> | [-> | ->]]]]]; apply Z.leb_le; vm_compute; reflexivity.
Qed.

(** A cell after [t] ticks. *)
Definition GRID_CAP : Z := 6 * 8.
Record cell_ok (t : Z) (s : SimState) : Prop := { c_bounded : bounded s; c_tick : tick s = t; c_queues : queues_in GRID_CAP (queues s) }.
Record grid_ok (size : nat) (t : Z) (states : list SimState) : Prop := {
  g_length : length states = (size * size)%nat;
  g_cells : Forall (cell_ok t) states
}.
Lemma lab_cap cfg : lab_config cfg -> 0 <= lane_cap cfg <= GRID_CAP.
Proof. intros [_ _ Hl _]. unfold lane_cap, GRID_CAP. lia. Qed.
Lemma cap_lanes q : queues_in GRID_CAP q -> queues_in LANES_MAX q.
Proof. apply queues_weaken. by vm_compute. Qed.

Lemma cell_with_queues t q s : cell_ok t s -> queues_in GRID_CAP q -> cell_ok t (with_queues q (vehicles_discharged s) s).
Proof. intros [[? ? ? ?] Ht _] Hq. split; [split; cbn; [done..|by apply cap_lanes]|done|done]. Qed.

Lemma transfer_ok size cfg t i arm n states : lab_config cfg -> grid_ok size t states -> (i < size * size)%nat -> 0 <= n <= 1 ->
  exists states', transfer (lane_cap cfg) (i, arm, n) states = Some states' /\ grid_ok size t states'.
Proof.
  intros Hcfg [Hl Hc] Hi Hn. pose proof (lab_cap cfg Hcfg) as Hcap. assert (HG : GRID_CAP = 48) by done. assert (HL : LANES_MAX = 2040) by done.
  destruct (lookup_lt_is_Some_2 states i) as [s Es]; [lia|]. cbn [transfer]. rewrite Es. cbn [mbind option_bind].
  pose proof (Forall_lookup_1 _ _ _ _ Hc Es) as Hs. pose proof (c_queues _ _ Hs) as (Hqn & Hqs & Hqe & Hqw).
  rewrite !enqueue_ok by lia. cbn [fmap option_fmap option_map].
  match goal with |- exists _, (?m ≫= _) = _ /\ _ => assert (Hm : exists q, m = Some q /\ queues_in GRID_CAP q) end.
  { destruct (arm =? 0), (arm =? 1), (arm =? 2), (arm =? 3); eexists; (split; [done|]); unfold queues_in; cbn; lia. }
  destruct Hm as (q & -> & Hq). cbn [mbind option_bind]. eexists. split; [done|]. split; [by rewrite length_insert|].
  apply Forall_insert; [done|]. by apply cell_with_queues.
Qed.
Definition transfer_in (size : nat) (t : Transfer) : Prop := (t.1.1 < size * size)%nat /\ 0 <= t.2 <= 1.
Lemma transfer_all_ok size cfg t ts : lab_config cfg -> Forall (transfer_in size) ts -> forall states, grid_ok size t states ->
  exists states', transfer_all (lane_cap cfg) ts states = Some states' /\ grid_ok size t states'.
Proof.
  intros Hcfg. induction 1 as [|[[i arm] n] ts [Hi Hn] _ IH]; intros states Hg; cbn [transfer_all]; [by exists states|].
  destruct (transfer_ok size cfg t i arm n states Hcfg Hg Hi Hn) as (states1 & -> & Hg1). apply IH, Hg1.
Qed.

Lemma cell_transfers_ok size cfg t states r c : lab_config cfg -> grid_ok size t states -> (r < size)%nat -> (c < size)%nat ->
  exists ts, cell_transfers size cfg (tick_dt cfg) states r c = Some ts /\ Forall (transfer_in size) ts.
Proof.
  intros Hcfg [Hl _] Hr Hc. unfold cell_transfers.
  destruct (lookup_lt_is_Some_2 states (r * size + c)) as [s Es]; [nia|]. rewrite Es. cbn [mbind option_bind].
  eexists. split; [done|]. destruct (_ =? 0); [apply Forall_nil_2|].
  assert (Hn : 0 <= Z.max (f64_as_u32 (f64_times (f64_of_int (discharge_of cfg (tick_dt cfg) s)) ROUTE_FRAC)) 1 <= 1)
    by (pose proof (route_one cfg s Hcfg); lia).
  destruct (signal s); [apply Forall_app|apply Forall_nil_2|apply Forall_app];
    (split; match goal with |- Forall _ (if ?b then _ else _) => destruct b eqn:Eb end; try apply Forall_nil_2;
     apply Forall_cons_2; try apply Forall_nil_2; (split; cbn [fst snd]; [try apply Nat.ltb_lt in Eb; nia|done])).
Qed.

Lemma grid_cells_in size r c : (r, c) ∈ grid_cells size -> (r < size)%nat /\ (c < size)%nat.
Proof.
  unfold grid_cells. rewrite list_elem_of_bind. intros (r' & (c' & Hin & Hc)%list_elem_of_bind & Hr).
  apply list_elem_of_singleton in Hin as [= -> ->]. rewrite elem_of_seq in Hr, Hc. lia.
Qed.
Lemma routed_ok size cfg t states : lab_config cfg -> grid_ok size t states ->
  exists states', routed size cfg (tick_dt cfg) states = Some states' /\ grid_ok size t states'.
Proof.
  intros Hcfg Hg. unfold routed, route_grid. destruct (1 <? size)%nat; [|by exists states].
  assert (H : exists ts, mapM (fun '(r, c) => cell_transfers size cfg (tick_dt cfg) states r c) (grid_cells size) = Some ts /\
    Forall (Forall (transfer_in size)) ts).
  { assert (Hin : forall p, p ∈ grid_cells size -> (p.1 < size)%nat /\ (p.2 < size)%nat) by (intros [r c]; apply grid_cells_in).
    induction (grid_cells size) as [|[r c] l IH]; [by exists []; split|].
    destruct (Hin (r, c)) as [Hr Hc]; [left|]. destruct (cell_transfers_ok size cfg t states r c Hcfg Hg Hr Hc) as (ts & E & Hts).
    destruct IH as (tss & E' & Htss); [intros p Hp; apply Hin; by right|].
    exists (ts :: tss). cbn [mapM]. rewrite E. cbn [mbind option_bind]. rewrite E'. split; [done|]. by constructor. }
  destruct H as (tss & -> & Htss). cbn [mbind option_bind].
  apply (transfer_all_ok size cfg t (concat tss) Hcfg); [|done]. by apply Forall_concat.
Qed.

Lemma plain_round_ok size cfg t states : lab_config cfg -> grid_ok size t states -> t < 2 ^ 32 ->
  exists states', plain_round size cfg (tick_dt cfg) states = Some states' /\ grid_ok size (t + 1) states'.
Proof.
  intros Hcfg [Hl Hc] Ht. unfold plain_round.
  assert (H : exists states', mapM (plain_step (tick_dt cfg) cfg) states = Some states' /\ length states' = length states /\ Forall (cell_ok (t + 1)) states').
  { clear Hl. induction Hc as [|s states [Hb Hts Hq] _ (states' & E & Hl' & Hc')]; [by exists []|].
    destruct (plain_step_ok (tick_dt cfg) cfg s (lc_ok _ Hcfg) Hb ltac:(unfold room; lia)) as (s' & Es & Hb' & Ht' & Hq' & _).
    exists (s' :: states'). cbn [mapM]. rewrite Es. cbn [mbind option_bind]. rewrite E. split; [done|]. split; [by cbn; f_equal|].
    constructor; [|done]. split; [done|lia|]. eapply queues_weaken; [|exact Hq']. by apply lab_cap. }
  destruct H as (states' & -> & Hl' & Hc'). cbn [mbind option_bind]. apply routed_ok; [done|]. split; [by rewrite Hl'|done].
Qed.
Lemma cell_traffic t s : cell_ok t (traffic s) <-> cell_ok t s.
Proof. split; intros [H ? ?]; (split; [by apply bounded_traffic|done..]). Qed.
Lemma grid_traffic size t states : grid_ok size t (traffics states) <-> grid_ok size t states.
Proof.
  split; intros [Hl Hc]; (split; [by rewrite length_fmap in *|]).
  - rewrite Forall_fmap in Hc. eapply Forall_impl; [exact Hc|]. intros s. apply cell_traffic.
  - rewrite Forall_fmap. eapply Forall_impl; [exact Hc|]. intros s. apply cell_traffic.
Qed.

(** The cached cells of a round, and their cache. *)
Definition cache_ok (n : Z) (c : SimCache) : Prop := cache_sound c /\ counters_ok c /\ lookups c <= n.

Lemma cached_cells_plain dt cfg n states : forall c, config_ok cfg -> whole_ms dt -> cache_ok n c -> n + Z.of_nat (length states) <= u64_max ->
  match cached_cells dt cfg states c with
  | Some (states', c') => mapM (plain_step dt cfg) states = Some states' /\ cache_ok (n + Z.of_nat (length states)) c'
  | None => mapM (plain_step dt cfg) states = None
  end.
Proof.
  revert n. induction states as [|s states IH]; intros n c Hcfg Hd (Hs & Hc & Hl) Hn.
  { cbn. split; [done|]. split_and!; [done..|lia]. }
  cbn [cached_cells mapM length] in *.
  pose proof (cached_plain dt cfg s c (ok_lanes _ Hcfg) Hd Hs Hc ltac:(lia)) as H.
  destruct (step_cached dt cfg s c) as [[s' c1]|]; [|by rewrite H]. destruct H as (Es & Hs1 & Hc1 & Hl1). rewrite Es. cbn [mbind option_bind].
  specialize (IH (n + 1) c1 Hcfg Hd ltac:(split_and!; [done..|lia]) ltac:(lia)).
  destruct (cached_cells dt cfg states c1) as [[states' c2]|]; [|by rewrite IH]. destruct IH as (Em & Hk). rewrite Em. cbn [mbind option_bind].
  split; [done|]. destruct Hk as (? & ? & ?). split_and!; [done..|lia].
Qed.
Lemma cached_round_plain size cfg n states c : lab_config cfg -> cache_ok n c -> n + Z.of_nat (length states) <= u64_max ->
  forall t, grid_ok size t states -> t < 2 ^ 32 ->
  exists states' c', cached_round size cfg (tick_dt cfg) (states, c) = Some (states', c') /\
    plain_round size cfg (tick_dt cfg) states = Some states' /\ grid_ok size (t + 1) states' /\ cache_ok (n + Z.of_nat (length states)) c'.
Proof.
  intros Hcfg Hc Hn t Hg Ht. destruct (plain_round_ok size cfg t states Hcfg Hg Ht) as (states' & E & Hg').
  unfold cached_round, plain_round in *. cbn [fst snd].
  pose proof (cached_cells_plain (tick_dt cfg) cfg n states c (lc_ok _ Hcfg) (speed_whole _ Hcfg) Hc Hn) as H.
  destruct (cached_cells _ _ _ _) as [[s1 c1]|]; [|by rewrite H in E]. destruct H as [E1 Hc1]. rewrite E1 in E |- *.
  cbn [mbind option_bind] in *. rewrite E. by exists states', c1.
Qed.
Lemma nocache_round_ok size cfg t states : lab_config cfg -> grid_ok size t states -> t < 2 ^ 32 ->
  exists states', nocache_round size cfg (tick_dt cfg) states = Some states' /\
    plain_round size cfg (tick_dt cfg) (traffics states) = Some (traffics states') /\ grid_ok size (t + 1) states'.
Proof.
  intros Hcfg Hg Ht. apply grid_traffic in Hg.
  destruct (plain_round_ok size cfg t _ Hcfg Hg Ht) as (states' & E & Hg'). rewrite <-nocache_round_plain in E.
  destruct (nocache_round size cfg (tick_dt cfg) states) as [s1|] eqn:E1; [|done]. injection E as <-.
  exists s1. split; [done|]. split; [by rewrite <-nocache_round_plain, E1|by apply grid_traffic].
Qed.

(** A loop of a frame runs its round some number of times, at most what is left. *)
Lemma frame_loop_times {S} (round : S -> option S) clock t0 budget (P : nat -> S -> Prop) fuel :
  forall iters k j s, (forall i s, (j <= i < j + fuel)%nat -> P i s -> exists s', round s = Some s' /\ P (Datatypes.S i) s') -> P j s ->
  exists m s' k', (m <= fuel)%nat /\ frame_loop round clock t0 budget fuel iters k s = Some (s', k') /\ P (j + m)%nat s'.
Proof.
  induction fuel as [|fuel IH]; intros iters k j s Hr Hj; cbn [frame_loop].
  { exists 0%nat, s, k. rewrite Nat.add_0_r. done. }
  destruct (Hr j s ltac:(lia) Hj) as (s1 & E1 & Hs1).
  assert (Hgo : forall k, exists m s' k', (m <= Datatypes.S fuel)%nat /\
    (s ← round s; frame_loop round clock t0 budget fuel (iters + 1) k s) = Some (s', k') /\ P (j + m)%nat s').
  { intros k0. destruct (IH (iters + 1) k0 (Datatypes.S j) s1 ltac:(intros i s0 Hi; apply Hr; lia) Hs1) as (m & s' & k' & Hm & E & Hp).
    exists (Datatypes.S m), s', k'. rewrite E1. split; [lia|]. split; [exact E|]. by replace (j + Datatypes.S m)%nat with (Datatypes.S j + m)%nat by lia. }
  destruct (_ =? 0); [|apply Hgo]. destruct (f64_le _ _); [|apply Hgo].
  exists 0%nat, s, (Datatypes.S k). rewrite Nat.add_0_r. split; [lia|done].
Qed.

(** ** Frames *)

Inductive lab_op : TrafficLab -> TrafficLab -> Prop :=
| op_reset lab : lab_op lab (reset lab)
| op_vehicles lab v : 0 <= v <= u32_max -> lab_op lab (set_vehicles_per_min v lab)
| op_cycle lab v : 0 <= v <= u32_max -> lab_op lab (set_signal_cycle_secs v lab)
| op_lanes lab v : u8 v -> lab_op lab (set_lane_count v lab)
| op_speed lab v : 0 <= v <= u32_max -> lab_op lab (set_speed_multiplier v lab)
| op_left lab v : lab_op lab (set_free_left_turn v lab)
| op_splitting lab v : lab_op lab (set_motorcycle_splitting v lab)
| op_grid lab v : lab_op lab (set_grid_size v lab)
| op_frame lab clock wall lab' : step_frame clock wall lab = Some lab' -> lab_op lab lab'.

(** What the page can reach with [n] calls. *)
Inductive reachable : nat -> TrafficLab -> Prop :=
| reachable_new : reachable 0 TrafficLab_new
| reachable_op n lab lab' : reachable n lab -> lab_op lab lab' -> reachable (S n) lab'.

(** The ticks of [n] frames. *)
Definition ticks_of (n : nat) : Z := 50000 * Z.of_nat n.
Lemma max_iters : Z.of_nat MAX_ITERS = 50000.
Proof. apply Z2Nat.id. lia. Qed.

Definition side_inv (n : nat) (size : nat) (snap : Z) (states : list SimState) : Prop :=
  exists t, grid_ok size t states /\ 0 <= snap <= t /\ t <= ticks_of n.
Record lab_inv (n : nat) (lab : TrafficLab) : Prop := {
  li_config : lab_config (config lab);
  li_size : (1 <= grid_size lab <= 3)%nat;
  li_nocache : side_inv n (grid_size lab) (tps_nc_snap lab) (nocache lab);
  li_cached : side_inv n (grid_size lab) (tps_c_snap lab) (cached lab);
  li_cache : cache_ok (9 * ticks_of n) (sim_cache lab)
}.

Ltac lab_fields := cbn [config grid_size nocache cached sim_cache tps_nc_snap tps_c_snap].

Section Frame.
Context (iters : nat) (Hiters : Z.of_nat iters <= 50000).

(** One side of a frame that has ticks left. *)
Lemma side_nocache n cfg size t states clock budget k : lab_config cfg -> grid_ok size t states -> t <= ticks_of n -> ticks_of (S n) <= 2 ^ 32 ->
  exists i states' k', (i <= iters)%nat /\ side iters (nocache_round size cfg (tick_dt cfg)) clock budget k states = Some (states', k') /\
    times i (plain_round size cfg (tick_dt cfg)) (traffics states) = Some (traffics states') /\ grid_ok size (t + Z.of_nat i) states'.
Proof.
  intros Hcfg Hg Ht Hn. unfold ticks_of in *.
  destruct (frame_loop_times (nocache_round size cfg (tick_dt cfg)) clock (clock k) budget
    (fun i s => times i (plain_round size cfg (tick_dt cfg)) (traffics states) = Some (traffics s) /\ grid_ok size (t + Z.of_nat i) s)
    iters 0 (S k) 0%nat states) as (i & s' & k' & Hi & E & Ht' & Hg').
  - intros i s Hi [E Hgi]. destruct (nocache_round_ok size cfg _ s Hcfg Hgi ltac:(lia)) as (s' & E1 & E2 & Hg').
    exists s'. rewrite times_snoc, E. split_and!; [done..|]. by replace (t + Z.of_nat (S i)) with (t + Z.of_nat i + 1) by lia.
  - split; [done|]. by rewrite Z.add_0_r.
  - by exists i, s', k'.
Qed.
Lemma side_cached n cfg size t states cache clock budget k : lab_config cfg -> (size <= 3)%nat -> grid_ok size t states -> cache_ok (9 * ticks_of n) cache ->
  t <= ticks_of n -> ticks_of (S n) <= 2 ^ 32 ->
  exists i states' cache' k', (i <= iters)%nat /\
    side iters (cached_round size cfg (tick_dt cfg)) clock budget k (states, cache) = Some ((states', cache'), k') /\
    times i (plain_round size cfg (tick_dt cfg)) states = Some states' /\ grid_ok size (t + Z.of_nat i) states' /\ cache_ok (9 * ticks_of (S n)) cache'.
Proof.
  intros Hcfg Hsize Hg Hc Ht Hn. unfold ticks_of in *. assert (H64 : u64_max = 2 ^ 64 - 1) by done.
  destruct (frame_loop_times (cached_round size cfg (tick_dt cfg)) clock (clock k) budget
    (fun i s => times i (plain_round size cfg (tick_dt cfg)) states = Some s.1 /\ grid_ok size (t + Z.of_nat i) s.1 /\
      cache_ok (9 * (50000 * Z.of_nat n) + 9 * Z.of_nat i) s.2)
    iters 0 (S k) 0%nat (states, cache)) as (i & [s' c'] & k' & Hi & E & Ht' & Hg' & Hc').
  - intros i [s c] Hi (E & Hgi & Hci). cbn [fst snd] in *.
    assert (Hlen : (length s <= 9)%nat) by (rewrite (g_length _ _ _ Hgi); nia).
    destruct (cached_round_plain size cfg _ s c Hcfg Hci ltac:(lia) _ Hgi ltac:(lia)) as (s' & c' & E1 & E2 & Hg' & Hc').
    exists (s', c'). rewrite times_snoc, E. cbn [fst snd]. split_and!; [done..| |].
    + by replace (t + Z.of_nat (S i)) with (t + Z.of_nat i + 1) by lia.
    + destruct Hc' as (? & ? & ?). split_and!; [done..|lia].
  - cbn [fst snd]. split; [done|]. split; [by rewrite Z.add_0_r|]. destruct Hc as (? & ? & ?). split_and!; [done..|lia].
  - exists i, s', c', k'. cbn [fst snd] in *. split_and!; try done. destruct Hc' as (? & ? & ?). split_and!; [done..|lia].
Qed.

Lemma grid_head size t states : (1 <= size)%nat -> grid_ok size t states -> exists s, states !! 0%nat = Some s /\ tick s = t.
Proof.
  intros Hs [Hl Hc]. destruct (lookup_lt_is_Some_2 states 0) as [s Es]; [nia|]. exists s. split; [done|].
  apply (c_tick _ _ (Forall_lookup_1 _ _ _ _ Hc Es)).
Qed.

Lemma frame_ok n lab clock wall : lab_inv n lab -> ticks_of (S n) <= 2 ^ 32 ->
  exists lab' i j, step_frame_upto iters clock wall lab = Some lab' /\ lab_inv (S n) lab' /\ (i <= iters)%nat /\ (j <= iters)%nat /\
    let round := plain_round (grid_size lab) (config lab) (tick_dt (config lab)) in
    times i round (traffics (nocache lab)) = Some (traffics (nocache lab')) /\ times j round (cached lab) = Some (cached lab').
Proof.
  intros [Hcfg Hsize (tn & Hgn & Hsn & Htn) (tc & Hgc & Hsc & Htc) Hcache] Hn. unfold step_frame_upto.
  destruct (side_nocache n (config lab) (grid_size lab) tn (nocache lab) clock (f64_over wall (f64_of_int 2)) 0 Hcfg Hgn Htn Hn)
    as (i & ns & k & Hi & -> & Ein & Hgn'). cbn [mbind option_bind].
  destruct (side_cached n (config lab) (grid_size lab) tc (cached lab) (sim_cache lab) clock (f64_over wall (f64_of_int 2)) k Hcfg ltac:(lia) Hgc Hcache Htc Hn)
    as (j & cs & cache & k' & Hj & -> & Ejc & Hgc' & Hcache'). cbn [mbind option_bind].
  assert (Htn' : tn + Z.of_nat i <= ticks_of (S n)) by (unfold ticks_of in *; lia).
  assert (Htc' : tc + Z.of_nat j <= ticks_of (S n)) by (unfold ticks_of in *; lia).
  destruct (f64_le _ _).
  - destruct (grid_head _ _ _ (proj1 Hsize) Hgn') as (s1 & -> & Ht1). destruct (grid_head _ _ _ (proj1 Hsize) Hgc') as (s2 & -> & Ht2).
    cbn [fmap option_fmap option_map mbind option_bind]. unfold sub_u64.
    destruct (Z.leb_spec (tps_nc_snap lab) (tick s1)); [|lia]. destruct (Z.leb_spec (tps_c_snap lab) (tick s2)); [|lia].
    cbn [mbind option_bind]. do 3 eexists. split; [done|]. split; [|split; [exact Hi|split; [exact Hj|exact (conj Ein Ejc)]]].
    split; lab_fields; [done..|exists (tn + Z.of_nat i)|exists (tc + Z.of_nat j)|done]; split_and!; (done || lia).
  - do 3 eexists. split; [done|]. split; [|split; [exact Hi|split; [exact Hj|exact (conj Ein Ejc)]]].
    split; lab_fields; [done..|exists (tn + Z.of_nat i)|exists (tc + Z.of_nat j)|done]; split_and!; (done || lia).
Qed.
End Frame.

Lemma step_frame_eq : step_frame = step_frame_upto MAX_ITERS.
Proof. reflexivity. Qed.

(** ** Reachable pages *)

Lemma cell_new seed : cell_ok 0 (SimState_new seed).
Proof. split; [apply bounded_new|done|by vm_compute]. Qed.
Lemma grid_new seed size : grid_ok size 0 (cell_states seed (size * size)).
Proof.
  split; [by unfold cell_states; rewrite length_fmap, length_seq|]. unfold cell_states. rewrite Forall_fmap. apply Forall_true. intros i. apply cell_new.
Qed.
Lemma cache_new n : 0 <= n -> cache_ok n SimCache_new.
Proof. intros Hn. split_and!; [|by vm_compute|unfold lookups; cbn; lia]. intros p l f m dt d _ _. unfold SimCache_new. cbn [store]. by rewrite lookup_empty. Qed.
Lemma side_new seed n size : side_inv n size 0 (cell_states seed (size * size)).
Proof. exists 0. split; [apply grid_new|]. unfold ticks_of. lia. Qed.
Lemma side_more n size snap states : side_inv n size snap states -> side_inv (S n) size snap states.
Proof. intros (t & Hg & Hs & Ht). exists t. split_and!; [done..|lia|lia|unfold ticks_of in *; lia]. Qed.
Lemma cache_more n c : cache_ok (9 * ticks_of n) c -> cache_ok (9 * ticks_of (S n)) c.
Proof. intros (? & ? & ?). split_and!; [done..|unfold ticks_of in *; lia]. Qed.

Lemma inv_reset n lab : lab_config (config lab) -> (1 <= grid_size lab <= 3)%nat -> lab_inv n (reset lab).
Proof. intros Hc Hs. unfold reset. split; lab_fields; [done..|apply side_new|apply side_new|apply cache_new; unfold ticks_of; lia]. Qed.
Lemma inv_config n cfg lab : lab_inv n lab -> lab_config cfg -> lab_inv (S n) (with_config cfg lab).
Proof. intros [_ Hs Hn Hc Hk] Hcfg. unfold with_config. split; lab_fields; auto using side_more, cache_more. Qed.
Lemma inv_more n lab : lab_inv n lab -> lab_inv (S n) lab.
Proof. intros [Hcfg Hs Hn Hc Hk]. split; auto using side_more, cache_more. Qed.

Lemma op_inv n lab lab' : lab_inv n lab -> ticks_of (S n) <= 2 ^ 32 -> lab_op lab lab' -> lab_inv (S n) lab'.
Proof.
  intros Hi Hn Hop. pose proof Hi as [Hcfg Hs _ _ _]. pose proof Hcfg as [[Hv Hc Hl] Hc10 Hl6 Hsp].
  destruct Hop as [lab|lab v Hr|lab v Hr|lab v Hr|lab v Hr|lab v|lab v|lab v|lab clock wall lab' E].
  - by apply inv_reset.
  - apply inv_config; [done|]. by split; [split|..].
  - apply inv_config; [done|]. split; [split|..]; cbn; try done; lia.
  - apply inv_config; [done|]. split; [split|..]; cbn; try done; unfold u8 in *; lia.
  - apply inv_config; [done|]. split; [split|..]; cbn [vehicles_per_min signal_cycle_secs lane_count speed_multiplier]; try done.
    destruct (existsb (Z.eqb v) [1; 10; 100; 1000]) eqn:E; [|by left]. apply existsb_exists in E as (w & Hw & ->%Z.eqb_eq). done.
  - apply inv_config; [done|]. by split; [split|..].
  - apply inv_config; [done|]. by split; [split|..].
  - unfold set_grid_size. destruct (decide _); [by apply inv_more|]. apply inv_reset; cbn [config grid_size]; [done|lia].
  - destruct (frame_ok MAX_ITERS ltac:(by rewrite max_iters) n lab clock wall Hi Hn) as (lab2 & i & j & E2 & Hi2 & _). rewrite step_frame_eq in E. by rewrite E in E2; injection E2 as ->.
Qed.
Lemma reachable_inv n lab : reachable n lab -> ticks_of n <= 2 ^ 32 -> lab_inv n lab.
Proof.
  induction 1 as [|n lab lab' _ IH Hop]; intros Hn.
  - unfold TrafficLab_new. split; lab_fields; [split; [exact config_ok_new|cbn; lia|cbn; lia|by left]|lia| | |apply cache_new; unfold ticks_of; lia].
    + exists 0. split; [split; [done|by constructor; [apply cell_new|]]|]. unfold ticks_of. lia.
    + exists 0. split; [split; [done|by constructor; [apply cell_new|]]|]. unfold ticks_of. lia.
  - apply (op_inv n lab lab'); [|done|done]. apply IH. unfold ticks_of in *. lia.
Qed.

(** C36: The cache is transparent.  In every state the page reaches with [n] calls, as long as 50000 ticks for
    each and the next stay within 2^32 (the first 85,898 calls), and whatever the clock reads, a frame
    ends without an overflow or an index out of range, and each side has gone through some number of
    rounds of the reference, which has neither the cache nor the synthetic work: hits answer what
    the formula would. *)
Theorem frames_are_plain_rounds (n : nat) (lab : TrafficLab) (clock : nat -> f64) (wall : f64) :
  reachable n lab -> ticks_of (S n) <= 2 ^ 32 ->
  exists lab' i j, step_frame clock wall lab = Some lab' /\ (i <= MAX_ITERS)%nat /\ (j <= MAX_ITERS)%nat /\
    let round := plain_round (grid_size lab) (config lab) (tick_dt (config lab)) in
    times i round (traffics (nocache lab)) = Some (traffics (nocache lab')) /\ times j round (cached lab) = Some (cached lab').
Proof.
  intros Hr Hn. pose proof (reachable_inv n lab Hr ltac:(unfold ticks_of in *; lia)) as Hi.
  rewrite step_frame_eq. destruct (frame_ok MAX_ITERS ltac:(by rewrite max_iters) n lab clock wall Hi Hn) as (lab' & i & j & E & _ & H). by exists lab', i, j.
Qed.
Lemma frames_are_plain_rounds_witness : exists lab' i j, step_frame even_clock (f64_of_int 3) (set_grid_size 2 TrafficLab_new) = Some lab' /\
  (i <= MAX_ITERS)%nat /\ (j <= MAX_ITERS)%nat /\
  let round := plain_round 2 SimConfig_new (f64_of_int 1) in
  times i round (traffics (nocache (set_grid_size 2 TrafficLab_new))) = Some (traffics (nocache lab')) /\
  times j round (cached (set_grid_size 2 TrafficLab_new)) = Some (cached lab').
Proof.
  exact (frames_are_plain_rounds 1 (set_grid_size 2 TrafficLab_new) even_clock (f64_of_int 3)
    (reachable_op 0 _ _ reachable_new (op_grid _ 2)) ltac:(by vm_compute)).
Defined.

(** At fractions of a millisecond the key is rounded and the count is not: the cache answers 0
    where the formula gives 1. *)
Example cache_rounds_its_key :
  let run dt c := step_cached dt SimConfig_new (with_queues {| north := 9; south := 9; east := 0; west := 0 |} 0 (SimState_new 7)) c in
  (r ← run (f64_round false 7993 (-1)) SimCache_new; r ← run (f64_round false 7994 (-1)) r.2; Some (vehicles_discharged r.1)) = Some 0 /\
  (r ← run (f64_round false 7994 (-1)) SimCache_new; Some (vehicles_discharged r.1)) = Some 2.
Proof. by vm_compute. Qed.
